(* ===== verification/_CoqProject ===== *)
-Q . S2P
Prelude.v
SchedulerTypes.v
Arbiter.v
Scheduler.v
SchedulerInv.v
SchedulerSteps.v
SchedulerDispatch.v
SchedulerRuns.v
SchedulerProps.v
SourceTypes.v
SyntaxTypes.v
FilterTypes.v
PlanDictionary.v
DecodeBudget.v
DecodeBudgetSpec.v
OutputProgram.v
AsciiFilters.v
AsciiSpec.v
Predictor.v
Flate.v
DecodeStream.v
StreamSpec.v
PredictorSpec.v
FlateSpec.v
StreamSafety.v
PlanDictionarySpec.v
FilterProps.v
PlanProps.v
DocumentTypes.v
ReadyStore.v
ReadyStoreSpec.v
ReadyStoreInv.v
CacheProps.v
SyntaxState.v
SyntaxLexer.v
SyntaxParser.v
SyntaxRules.v
SyntaxReader.v
SyntaxTrivia.v
SyntaxTokens.v
SyntaxStrings.v
SyntaxObjects.v
SyntaxContainers.v
SyntaxGrowth.v
SyntaxMethods.v
SyntaxPrint.v
SyntaxProps.v
RangeTypes.v
RangeStore.v
RangeSegments.v
RangeMerge.v
RangeInv.v
RangeSupply.v
RangeTickets.v
RangePoll.v
RangeRuns.v
RangeProps.v
SyntaxFinal.v
ObjectTypes.v
ObjectParser.v
ObjectJob.v
ObjectStaged.v
ObjectReader.v
ObjectAttempts.v
ObjectFile.v
ObjectRuns.v
ObjectJobRuns.v
ObjectStagedRuns.v
ObjectReach.v
ObjectProps.v
ObjectStore.v
XrefTypes.v
XrefTail.v
XrefParser.v
XrefReader.v
XrefSections.v
XrefProps.v
XrefJob.v
XrefJobRuns.v
XrefJobProps.v
