(* ===== verification/Prelude.v ===== *)
(** * Verification library for the PDF.rs engine

    A model of the core of the repository and the theorems that make it correct.
    File names below are under [src/].

    ** The program

    PDF.rs renders PDF documents in a worker. Input bytes come as immutable
    slices of an identified source, which a byte range store keeps and completes
    as a host supplies them. The syntax crate parses direct objects from
    a window of such a slice; the xref crate finds the final [startxref] of a file
    and reads the cross-reference table it declares, and the object crate frames
    indirect objects: both read growing windows of the source, over any number of
    polls; the filters crate decodes stream data under a plan read from a stream
    dictionary; the document crates resolve indirect objects,
    which the session Ready store keeps; the scheduler decides which rendering
    work of which session runs next and which results may be published. Every
    crate runs under validated limits, charges its work against them, probes for
    cancellation, and reports typed errors that carry the limit they hit.

    ** Parts and files

    - Shared: [Prelude] (machine integers, results, the state and error monad
      [M], generic lemmas); [SourceTypes] ([pdf-rs/bytes/src/{identity,range,
      source}.rs], spans and references of [pdf-rs/syntax/src/model.rs]).
    - Byte range store ([pdf-rs/bytes/src]): [RangeTypes] (errors, ranges, requests,
      limits), [RangeStore] (one definition per method of [store.rs] and
      [source.rs]); [RangeSegments] and [RangeMerge] (segments as sets of offsets),
      [RangeInv] (the invariant, settling of tickets), [RangeSupply],
      [RangeTickets] and [RangePoll] (the outcome of each call), [RangeRuns] (runs,
      where the bytes come from, the ticket of a request), [RangeProps] (the
      theorems).
    - Scheduler ([runtime/scheduler/src]): [SchedulerTypes] (ids, limits, work,
      errors), [Arbiter] (the terminal arbiter and the interface [TerminalOwner]
      it offers the scheduler), [Scheduler] (one definition per method of
      [scheduler.rs]); [SchedulerInv] (the invariant [wf]), [SchedulerSteps] and
      [SchedulerDispatch] (each operation preserves it and its outcome; operations
      as labels), [SchedulerRuns] (runs, invariants of whole runs),
      [SchedulerProps] (the theorems).
    - Filters ([pdf-rs/filters/src]): [FilterTypes] (errors, limits, plans,
      requests), [PlanDictionary] (plans of stream dictionaries), [DecodeBudget]
      (fuel, probes, output accounting), [OutputProgram] (decoders as programs over
      the output buffer, run by [exec] under a budget and by [denote] without
      limits), [AsciiFilters], [Predictor], [Flate] (one program per
      decoder), [DecodeStream] ([decode_stream]); [DecodeBudgetSpec], [AsciiSpec],
      [PredictorSpec], [FlateSpec], [StreamSpec],
      [StreamSafety], [PlanDictionarySpec] (what each promises); [FilterProps] and
      [PlanProps] (the theorems).
    - Ready store ([runtime/cache/src]): [DocumentTypes] (the resolved values of
      [pdf-rs/{object,document}/src] and their resident footprint),
      [ReadyStore] (errors, limits, keys; one definition per method of [store.rs]);
      [ReadyStoreSpec], [ReadyStoreInv] (invariant, outcomes, the abstract
      least-recently-used list), [CacheProps] (the theorems).
    - Syntax ([pdf-rs/syntax/src]): [SyntaxTypes] ([model.rs], [error.rs],
      [limits.rs]), [SyntaxState], [SyntaxLexer], [SyntaxParser]
      (the three parts of [parser.rs]: charges and polls, tokens, objects and public
      methods); [SyntaxReader] (a pure reference reader of objects); [SyntaxRules],
      [SyntaxTrivia], [SyntaxTokens], [SyntaxStrings], [SyntaxObjects],
      [SyntaxContainers], [SyntaxMethods] (the parser computes what the reader
      denotes); [SyntaxGrowth], [SyntaxPrint] (facts of the reader);
      [SyntaxProps] (the theorems); [SyntaxFinal] (what a parser decides on a window
      it decides on every longer one).
    - Indirect objects ([pdf-rs/object/src]): [ObjectTypes] ([error.rs], [limits.rs],
      [model.rs]), [ObjectParser] (the two attempts of [parser.rs]), [ObjectJob] (the
      interface [ByteSource] of the sources that jobs poll, the checks and charges
      of [staged.rs], the one-shot job of [job.rs]), [ObjectStaged] (the envelope job
      and the boundary job); [ObjectReader] (a pure reference reader of framed
      objects), [ObjectAttempts] (attempts compute what it denotes), [ObjectFile]
      (what the bytes of a file denote at a target, and that a decided window is
      final), [ObjectRuns] (the promise [HonestSource] of a source, rules for the
      methods), [ObjectJobRuns] and [ObjectStagedRuns] (how a poll ends),
      [ObjectReach] (jobs from their constructors, after any polls),
      [ObjectProps] (the theorems for any honest source), [ObjectStore] (the byte
      range store is one: the theorems for jobs over a store that other threads
      call).
    - Traditional cross-reference tables ([pdf-rs/xref/src]): [XrefTypes]
      ([error.rs], [limits.rs], [model.rs]), [XrefTail] ([parse_tail] of
      [parser.rs], and the grammar of tails), [XrefParser] (the rest of
      [parser.rs]: the cursor, sections, trailers, and the checks of base and
      revision sections); [XrefReader] (a pure reference reader of sections),
      [XrefSections] (attempts compute what it denotes), [XrefProps] (what the
      checks accept, the theorems on attempts); [XrefJob] (the jobs of
      [final_anchor.rs], [job.rs] and [traditional_revision.rs]; the private
      methods that each repeats are stated once, for the interface [WindowJob] of
      their fields), [XrefJobRuns] (how a poll ends over a source that keeps
      [HonestSource] anywhere in a file), [XrefJobProps] (the theorems for any
      honest source and for the byte range store).

    ** State and operations

    A method on [&mut self] that returns a [Result] is a function in the monad
    [M S E]: it takes the state, and returns the state it reached with a value or
    an error, so assignments made before an early return are kept. Where the
    source can panic (an [expect], an index, an assertion) the error type is
    [failure E] and the outcome [Panicked]; theorems show it does not occur.
    Records have the fields of the structs, inductive types the variants of the
    enums. A variant, field or function keeps the name of the source, prefixed
    where two types share it. Unsigned integers are integers with the checked,
    saturating or wrapping operation the source uses; [usize] is 32 or 64 bits,
    a parameter ([Platform]). Answers of the environment (cancellation probes,
    allocations, clocks) are functions of the number of calls made so far, the
    classes [DecodeRuntime], [StoreRuntime], [ParserRuntime] and [RangeRuntime]
    being their interfaces with the documented behaviour of [Vec::try_reserve_exact]: the
    capacity is at least what was asked, and a vector is at most [isize::MAX]
    bytes. A method of the range store holds the lock of its state while it runs;
    between its steps other threads may signal a change of the source and may hold
    or release resident bytes, which [RangeRuntime] answers too.

    ** Theorems

    - Byte range store: the invariant of reachable states; the bytes held are the
      bytes supplied; the outcome of every call; slices never disagree; a response
      that fits is accepted; a wake-up is neither lost nor spurious.

    - Indirect objects: a poll answers the object that the file denotes, is pending
      on a charged window, or fails for a stated reason, and never panics; the
      invariant of jobs; the staged jobs frame what the one-shot job frames; an
      object that admitted windows decide is framed when the source delivers; a
      pending window is charged once. Over a byte range store: the object that the
      supplied bytes denote is answered, a pending job is subscribed to the ticket
      for what its window lacks, a wake-up moves it on, and bytes that cover the
      object complete it.
    - Cross-reference tables: the scan of a tail finds exactly the tails of a
      grammar; attempts on a section compute the reference reader and declarative
      checks, and ask for more only where the window ends too early; what is accepted
      or malformed is so in every larger window, and what is accepted is well formed;
      printed tables are read back. A poll of a job answers exactly what the file
      declares, is pending on a window charged once, or fails for a stated reason,
      and never panics; over a byte range store it answers the table of the supplied
      bytes once they cover the file, from whichever window it is at.
    - Scheduler: the invariant of reachable states; a ledger of dispatched and
      resolved work; bounded starvation, reservations, ordering and coalescing;
      critical events in order exactly once; publication only of current work;
      termination of shutdown.
    - Filters: a decode refines the unlimited meaning of its plan, and completes
      when its limits allow; errors are justified; cancellation is prompt; loops
      end; formats are accepted exactly; round trips; plans are what dictionaries
      describe.
    - Ready store: the invariant, the refinement of an abstract least-recently-
      used list, the exact outcome of every operation.
    - Syntax: [parse_object] answers exactly what the reference reader denotes, or
      refuses for a stated reason; a decided object survives any growth of the
      window; spans nest; printing and parsing are inverse; the work charged is
      within the limits; headers, keywords, stream boundaries and raw bytes.

    ** Fuel

    Recursion that is not on a list is on fuel; running out is [panic] or [Stuck], so the
    theorems that exclude panics show that the fuel is enough: trivia is skipped
    in at most one round per byte; an object takes at most two calls per byte that
    remains ([object_fuel]); the loops of the Flate decoder take at most one round
    per bit that is left, those of RunLength one per byte, those of the predictors
    one per row. A window of an object job at least doubles or reaches its cap, which
    is at most 2^26 bytes for envelopes and 2^22 for boundaries, so a poll takes at
    most 27 rounds for the one and 23 for the other ([poll_fuel],
    [envelope_poll_fuel], [boundary_poll_fuel]). A round over comments, or over
    subsections, of a cross-reference section takes at least one byte, so one round
    more than there are bytes is enough; the windows of its jobs are at most 2^22
    bytes for tails and 2^26 for sections, so a poll takes at most 23 rounds in the
    tail and 27 in the section, within [poll_fuel].

    ** Not modelled

    The manifest lists every other part. Of the xref crate, the streams, the chain
    of revisions, the anchors before an offset and the repair of tables are not
    modelled; of the object crate, the repair of objects. Object streams, page
    trees, resources, content, fonts, the scene, rasters, the engine registry, the
    protocol and the platform hosts are not modelled: most are resumable jobs
    composed of the parts above. Of the document crates only the values the Ready
    store owns are modelled. Display and Debug output, accessors that return a
    field, and types that only name others are left out.

    ** Plan

    Cross-reference streams, which decode through the filters, and the chain of
    revisions on top of the section jobs; then the document jobs. *)

From stdpp Require Import base gmap list numbers option sorting.

Open Scope Z_scope.

Create HintDb engine discriminated.

(** ** Machine integers

    An unsigned integer of the source is a [Z]; the width shows up in the
    checked, saturating and wrapping operations, whose first argument is the
    largest representable value. *)

Definition u8_max : Z := 255.
Definition u16_max : Z := 65535.
Definition u32_max : Z := 4294967295.
Definition u64_max : Z := 18446744073709551615.
Definition i64_max : Z := 9223372036854775807.

(** The engine is built for a 64-bit desktop and for a 32-bit Wasm worker: the
    width of [usize] is a parameter of every definition that uses it. *)
Class Platform : Type := {
  usize_max : Z;
  usize_max_cases : usize_max = u32_max ∨ usize_max = u64_max
}.

Definition desktop64 : Platform :=
  {| usize_max := u64_max; usize_max_cases := or_intror eq_refl |}.
Definition wasm32 : Platform :=
  {| usize_max := u32_max; usize_max_cases := or_introl eq_refl |}.

Definition checked_add (max a b : Z) : option Z :=
  if a + b <=? max then Some (a + b) else None.
Definition checked_sub (a b : Z) : option Z :=
  if b <=? a then Some (a - b) else None.
Definition checked_mul (max a b : Z) : option Z :=
  if a * b <=? max then Some (a * b) else None.
Definition saturating_add (max a b : Z) : Z := Z.min max (a + b).
Definition saturating_sub (a b : Z) : Z := Z.max 0 (a - b).
Definition saturating_mul (max a b : Z) : Z := Z.min max (a * b).
(** [T::try_from(v).ok()] for an unsigned target of maximum [max]. *)
Definition try_from (max v : Z) : option Z :=
  if (0 <=? v) && (v <=? max) then Some v else None.
Definition wrapping_add (max a b : Z) : Z := (a + b) `mod` (max + 1).

Section checked.
Implicit Types max a b c v : Z.

Lemma checked_add_Some max a b c :
  checked_add max a b = Some c ↔ a + b ≤ max ∧ c = a + b.
Proof. unfold checked_add. case_match; naive_solver lia. Qed.

Lemma checked_add_None max a b : checked_add max a b = None ↔ max < a + b.
Proof. unfold checked_add. case_match; naive_solver lia. Qed.

Lemma checked_sub_Some a b c : checked_sub a b = Some c ↔ b ≤ a ∧ c = a - b.
Proof. unfold checked_sub. case_match; naive_solver lia. Qed.

Lemma checked_sub_None a b : checked_sub a b = None ↔ a < b.
Proof. unfold checked_sub. case_match; naive_solver lia. Qed.

Lemma checked_mul_Some max a b c :
  checked_mul max a b = Some c ↔ a * b ≤ max ∧ c = a * b.
Proof. unfold checked_mul. case_match; naive_solver lia. Qed.

Lemma checked_mul_None max a b : checked_mul max a b = None ↔ max < a * b.
Proof. unfold checked_mul. case_match; naive_solver lia. Qed.

Lemma try_from_Some max v c : try_from max v = Some c ↔ 0 ≤ v ≤ max ∧ c = v.
Proof. unfold try_from. case_match; naive_solver lia. Qed.

Lemma try_from_None max v : try_from max v = None ↔ v < 0 ∨ max < v.
Proof. unfold try_from. case_match; naive_solver lia. Qed.

Lemma saturating_add_exact max a b : a + b ≤ max → saturating_add max a b = a + b.
Proof. unfold saturating_add. lia. Qed.

Lemma saturating_mul_exact max a b : a * b ≤ max → saturating_mul max a b = a * b.
Proof. unfold saturating_mul. lia. Qed.

Lemma saturating_sub_exact a b : b ≤ a → saturating_sub a b = a - b.
Proof. unfold saturating_sub. lia. Qed.
End checked.

(** Facts about the checked operations of a run as arithmetic. *)
Ltac checked_facts :=
  repeat match goal with
  | H : checked_add _ _ _ = Some _ |- _ => apply checked_add_Some in H as [??]
  | H : checked_add _ _ _ = None |- _ => apply checked_add_None in H
  | H : checked_sub _ _ = Some _ |- _ => apply checked_sub_Some in H as [??]
  | H : checked_sub _ _ = None |- _ => apply checked_sub_None in H
  | H : checked_mul _ _ _ = Some _ |- _ => apply checked_mul_Some in H as [??]
  | H : checked_mul _ _ _ = None |- _ => apply checked_mul_None in H
  | H : try_from _ _ = Some _ |- _ => apply try_from_Some in H as [??]
  | H : try_from _ _ = None |- _ => apply try_from_None in H
  | H : (_ <? _) = true |- _ => apply Z.ltb_lt in H
  | H : (_ <? _) = false |- _ => apply Z.ltb_ge in H
  | H : (_ <=? _) = true |- _ => apply Z.leb_le in H
  | H : (_ <=? _) = false |- _ => apply Z.leb_gt in H
  | H : (_ =? _) = true |- _ => apply Z.eqb_eq in H
  | H : (_ =? _) = false |- _ => apply Z.eqb_neq in H
  end.

(** [Vec::len], [VecDeque::len], [BTreeMap::len] as the integer they return. *)
Abbreviation len l := (Z.of_nat (length l)).
Abbreviation msize m := (Z.of_nat (size m)).

(** ** Results and fallible state transformers

    [M S E A] is a method taking [&mut self : S] and returning
    [Result<A, E>]: a state change made before an error is kept, as in the
    source, where an early [return Err] does not roll back assignments. *)

Inductive result (E A : Type) : Type :=
| Ok (a : A)
| Err (e : E).
Arguments Ok {E A} a.
Arguments Err {E A} e.

Definition is_ok {E A} (r : result E A) : bool :=
  match r with Ok _ => true | Err _ => false end.

(** How a function that may panic fails: with an error of its own, or because
    an [expect], an index or an assertion of the source does. *)
Inductive failure (E : Type) : Type :=
| Rejected (e : E)
| Panicked.
Arguments Rejected {E} e.
Arguments Panicked {E}.

#[global] Instance result_ret E : MRet (result E) := λ A a, Ok a.
#[global] Instance result_bind E : MBind (result E) := λ A B f r,
  match r with Ok a => f a | Err e => Err e end.

(** [if cond { return Err(e) }] of a function without state. *)
Definition fail_if {E} (cond : bool) (e : E) : result E unit :=
  if cond then Err e else Ok tt.
(** [opt.ok_or(e)?] of a function without state. *)
Definition require {E A} (o : option A) (e : E) : result E A :=
  match o with Some a => Ok a | None => Err e end.

Lemma result_bind_ok {E A B} (r : result E A) (f : A → result E B) b :
  r ≫= f = Ok b ↔ ∃ a, r = Ok a ∧ f a = Ok b.
Proof. destruct r; naive_solver. Qed.

Lemma fail_if_ok {E} (b : bool) (e : E) u : fail_if b e = Ok u ↔ b = false.
Proof. destruct b, u; naive_solver. Qed.

Lemma require_ok {E A} (o : option A) (e : E) a : require o e = Ok a ↔ o = Some a.
Proof. destruct o; naive_solver. Qed.

(** [r] accepts with [x] exactly when [P] holds. *)
Definition decides {E A} (P : Prop) (x : A) (r : result E A) : Prop :=
  (P ∧ r = Ok x) ∨ (¬ P ∧ ∃ e, r = Err e).

Lemma decides_ok {E A} (P : Prop) (x : A) : P → decides P x (Ok x : result E A).
Proof. by left. Qed.

(** A chain of checks decides [P] when each failing check refutes [P]. *)
Lemma decides_fail_if {E A} (P : Prop) (x : A) (b : bool) (e : E) k :
  (b = true → ¬ P) → (b = false → decides P x k) →
  decides P x (fail_if b e ≫= λ _, k).
Proof.
  intros Ht Hf. destruct b; [|by apply Hf]. right. split; [by apply Ht|by exists e].
Qed.

Lemma decides_require {E A B} (P : Prop) (x : A) (o : option B) (e : E) k :
  (o = None → ¬ P) → (∀ y, o = Some y → decides P x (k y)) →
  decides P x (require o e ≫= k).
Proof.
  intros Hn Hs. destruct o as [y|]; [by apply Hs|]. right.
  split; [by apply Hn|by exists e].
Qed.

Definition M (S E A : Type) : Type := S → S * result E A.

#[global] Instance M_ret S E : MRet (M S E) := λ A a s, (s, Ok a).
#[global] Instance M_bind S E : MBind (M S E) := λ A B f m s,
  match m s with
  | (s', Ok a) => f a s'
  | (s', Err e) => (s', Err e)
  end.

Section monad_operations.
Context {S E : Type}.

Definition get : M S E S := λ s, (s, Ok s).
Definition gets {A} (f : S → A) : M S E A := λ s, (s, Ok (f s)).
Definition modify (f : S → S) : M S E unit := λ s, (f s, Ok tt).
Definition throw {A} (e : E) : M S E A := λ s, (s, Err e).
(** [if cond { return Err(e) }]. *)
Definition err_if (cond : bool) (e : E) : M S E unit :=
  λ s, (s, if cond then Err e else Ok tt).
(** [opt.ok_or(e)?]. *)
Definition ok_or {A} (o : option A) (e : E) : M S E A :=
  λ s, (s, match o with Some a => Ok a | None => Err e end).
Definition of_result {A} (r : result E A) : M S E A := λ s, (s, r).
Definition when (b : bool) (m : M S E unit) : M S E unit :=
  if b then m else mret tt.
End monad_operations.

(** A method call on a component held in a field, its error mapped. *)
Definition zoom {S S' E E' A : Type} (field : S → S') (set : S' → S → S)
    (map_err : E' → E) (m : M S' E' A) : M S E A :=
  λ s, match m (field s) with
       | (s', Ok a) => (set s' s, Ok a)
       | (s', Err e) => (set s' s, Err (map_err e))
       end.

(** ** Inversion of monadic runs *)

Section monad_inversion.
Context {S E : Type}.

Lemma bind_inv {A B} (m : M S E A) (f : A → M S E B) s s' r :
  (m ≫= f) s = (s', r) →
  (∃ a s1, m s = (s1, Ok a) ∧ f a s1 = (s', r)) ∨
  (∃ e, m s = (s', Err e) ∧ r = Err e).
Proof.
  unfold mbind, M_bind. destruct (m s) as [s1 [a|e]]; intros H; simplify_eq.
  - left. eauto.
  - right. eauto.
Qed.

Lemma bind_ok {A B} (m : M S E A) (f : A → M S E B) s s1 a :
  m s = (s1, Ok a) → (m ≫= f) s = f a s1.
Proof. unfold mbind, M_bind. by intros ->. Qed.

Lemma bind_err {A B} (m : M S E A) (f : A → M S E B) s s1 e :
  m s = (s1, Err e) → (m ≫= f) s = (s1, Err e).
Proof. unfold mbind, M_bind. by intros ->. Qed.

Lemma err_if_inv (b : bool) (e : E) (s s' : S) r :
  err_if b e s = (s', r) →
  s' = s ∧ ((b = false ∧ r = Ok tt) ∨ (b = true ∧ r = Err e)).
Proof. unfold err_if. destruct b; intros ?; simplify_eq; auto. Qed.

Lemma ok_or_inv {A} (o : option A) (e : E) (s s' : S) r :
  ok_or o e s = (s', r) →
  s' = s ∧ ((∃ a, o = Some a ∧ r = Ok a) ∨ (o = None ∧ r = Err e)).
Proof. unfold ok_or. destruct o; intros ?; simplify_eq; eauto. Qed.

Lemma get_inv (s s' : S) (r : result E S) :
  get s = (s', r) → s' = s ∧ r = Ok s.
Proof. by intros [= -> ->]. Qed.

Lemma gets_inv {A} (f : S → A) (s s' : S) (r : result E A) :
  gets f s = (s', r) → s' = s ∧ r = Ok (f s).
Proof. by intros [= -> <-]. Qed.

Lemma modify_inv (f : S → S) (s s' : S) (r : result E unit) :
  modify f s = (s', r) → s' = f s ∧ r = Ok tt.
Proof. by intros [= <- <-]. Qed.

Lemma throw_inv {A} (e : E) (s s' : S) (r : result E A) :
  throw e s = (s', r) → s' = s ∧ r = Err e.
Proof. by intros [= -> <-]. Qed.

Lemma mret_inv {A} (a : A) (s s' : S) (r : result E A) :
  (mret a : M S E A) s = (s', r) → s' = s ∧ r = Ok a.
Proof. by intros [= -> <-]. Qed.

Lemma of_result_inv {A} (x : result E A) (s s' : S) (r : result E A) :
  of_result x s = (s', r) → s' = s ∧ r = x.
Proof. by intros [= -> <-]. Qed.
End monad_inversion.

(** [minv H] takes a run [prog s = (s', r)] apart into one goal per path
    through [prog], with the conditions of the path as hypotheses. *)
Ltac minv1 H :=
  lazymatch type of H with
  | mbind _ _ _ = (_, _) =>
      apply bind_inv in H;
      let a := fresh "a" in let s1 := fresh "s" in
      let e := fresh "e" in let H1 := fresh "Hrun" in
      destruct H as [(a & s1 & H1 & H)|(e & H1 & ?)]; [minv1 H1|minv1 H1]
  | err_if _ _ _ = (_, _) =>
      apply err_if_inv in H; destruct H as [? [[??]|[??]]]
  | ok_or _ _ _ = (_, _) =>
      apply ok_or_inv in H; destruct H as [? [(?&?&?)|[??]]]
  | get _ = _ => apply get_inv in H; destruct H
  | gets _ _ = _ => apply gets_inv in H; destruct H
  | modify _ _ = _ => apply modify_inv in H; destruct H
  | throw _ _ = _ => apply throw_inv in H; destruct H
  | mret _ _ = _ => apply mret_inv in H; destruct H
  | of_result _ _ = _ => apply of_result_inv in H; destruct H
  | _ => idtac
  end; simplify_eq.
Ltac minv H := repeat (progress (minv1 H)).

(** ** Finite maps *)

Section maps.
Context {K : Type} `{Countable K} {A : Type}.
Implicit Types m : gmap K A.

Lemma msize_insert_fresh (i : K) (x : A) m :
  m !! i = None → msize (<[i:=x]> m) = msize m + 1.
Proof. intros. rewrite map_size_insert_None by done. lia. Qed.

Lemma msize_insert_present (i : K) (x : A) m :
  is_Some (m !! i) → msize (<[i:=x]> m) = msize m.
Proof. intros. by rewrite map_size_insert_Some. Qed.

Lemma msize_delete_le (i : K) m : msize (delete i m) ≤ msize m.
Proof. rewrite map_size_delete. destruct (m !! i); simpl; lia. Qed.

(** Sum of a weight over a map. *)
Definition map_sum (f : K → A → Z) (m : gmap K A) : Z :=
  map_fold (λ k a acc, f k a + acc) 0 m.

Lemma map_sum_empty (f : K → A → Z) : map_sum f ∅ = 0.
Proof. apply map_fold_empty. Qed.

Lemma map_sum_insert_fresh (f : K → A → Z) (i : K) (x : A) m :
  m !! i = None → map_sum f (<[i:=x]> m) = f i x + map_sum f m.
Proof. intros. unfold map_sum. rewrite map_fold_insert_L; [done| |done]. lia. Qed.

Lemma map_sum_delete (f : K → A → Z) (i : K) (x : A) m :
  m !! i = Some x → map_sum f m = f i x + map_sum f (delete i m).
Proof. intros. unfold map_sum.
  rewrite (map_fold_delete_L (λ k a acc, f k a + acc) 0 i x m); [done|lia|done].
Qed.

Lemma map_sum_insert (f : K → A → Z) (i : K) (x y : A) m :
  m !! i = Some y → map_sum f (<[i:=x]> m) = map_sum f m - f i y + f i x.
Proof.
  intros Hi. rewrite (map_sum_delete f i y m Hi).
  rewrite (map_sum_delete f i x) by apply lookup_insert_eq.
  rewrite delete_insert_eq. lia.
Qed.

Lemma map_sum_ext (f g : K → A → Z) m :
  (∀ i x, m !! i = Some x → f i x = g i x) → map_sum f m = map_sum g m.
Proof.
  induction m as [|i x m Hi IH] using map_ind; intros Hfg; [done|].
  rewrite !map_sum_insert_fresh by done.
  rewrite (Hfg i x) by apply lookup_insert_eq. rewrite IH; [done|].
  intros j y Hj. apply Hfg. rewrite lookup_insert_ne; congruence.
Qed.

Lemma map_sum_le (f g : K → A → Z) m :
  (∀ i x, m !! i = Some x → f i x ≤ g i x) → map_sum f m ≤ map_sum g m.
Proof.
  induction m as [|i x m Hi IH] using map_ind; intros Hfg; [done|].
  rewrite !map_sum_insert_fresh by done.
  pose proof (Hfg i x (lookup_insert_eq _ _ _)).
  enough (map_sum f m ≤ map_sum g m) by lia. apply IH.
  intros j y Hj. apply Hfg. rewrite lookup_insert_ne; congruence.
Qed.

Lemma map_sum_const (c : Z) m : map_sum (λ _ _, c) m = c * msize m.
Proof.
  induction m as [|i x m Hi IH] using map_ind.
  - rewrite map_sum_empty, map_size_empty. lia.
  - rewrite map_sum_insert_fresh, IH, msize_insert_fresh by done. lia.
Qed.

Lemma map_sum_nonneg (f : K → A → Z) m :
  (∀ i x, m !! i = Some x → 0 ≤ f i x) → 0 ≤ map_sum f m.
Proof.
  intros Hf. pose proof (map_sum_const 0 m).
  pose proof (map_sum_le (λ _ _, 0) f m Hf). lia.
Qed.
End maps.

Lemma map_sum_fmap `{Countable K} {A B : Type} (g : A → B) (f : K → B → Z)
    (m : gmap K A) :
  map_sum f (g <$> m) = map_sum (λ k a, f k (g a)) m.
Proof.
  induction m as [|i x m Hi IH] using map_ind.
  - rewrite fmap_empty. by rewrite !map_sum_empty.
  - rewrite fmap_insert, map_sum_insert_fresh, map_sum_insert_fresh, IH; try done.
    by rewrite lookup_fmap, Hi.
Qed.

(** ** Lists *)

Section lists.
Context {A : Type}.

Lemma filter_none (P : A → Prop) `{∀ x, Decision (P x)} (l : list A) :
  (∀ x, x ∈ l → ¬ P x) → filter P l = [].
Proof.
  induction l as [|x l IH]; intros Hl; [done|].
  rewrite filter_cons_False by (apply Hl; left).
  apply IH. intros y Hy. apply Hl. by right.
Qed.

Lemma filter_all (P : A → Prop) `{∀ x, Decision (P x)} (l : list A) :
  (∀ x, x ∈ l → P x) → filter P l = l.
Proof.
  induction l as [|x l IH]; intros Hl; [done|].
  rewrite filter_cons_True by (apply Hl; left). f_equal.
  apply IH. intros y Hy. apply Hl. by right.
Qed.

Lemma filter_ext_in (P Q : A → Prop) `{∀ x, Decision (P x), ∀ x, Decision (Q x)} (l : list A) :
  (∀ x, x ∈ l → (P x ↔ Q x)) → filter P l = filter Q l.
Proof.
  induction l as [|x l IH]; intros Hl; [done|]. rewrite !filter_cons, IH by (intros; apply Hl; by right).
  specialize (Hl x ltac:(left)). repeat case_decide; tauto.
Qed.

Lemma len_filter_complement (P : A → Prop) `{∀ x, Decision (P x)}
    (l : list A) :
  len (filter P l) + len (filter (λ x, ¬ P x) l) = len l.
Proof.
  induction l as [|x l IH]; [done|].
  rewrite !filter_cons. repeat case_decide; simpl; try done; lia.
Qed.

Lemma elem_of_insert_inv (l : list A) (i : nat) (x y : A) :
  y ∈ <[i := x]> l → y = x ∨ y ∈ l.
Proof.
  intros [j Hj]%list_elem_of_lookup.
  apply list_lookup_insert_Some in Hj as [(_&->&_)|[_ Hj]]; [by left|].
  right. by eapply list_elem_of_lookup_2.
Qed.

Lemma NoDup_insert (l : list A) (i : nat) (x : A) :
  NoDup l → x ∉ l → NoDup (<[i := x]> l).
Proof.
  revert i. induction l as [|y l IH]; intros [|i] Hl Hx; simpl; try done.
  - apply NoDup_cons in Hl as [_ Hl]. apply NoDup_cons. set_solver.
  - apply NoDup_cons in Hl as [Hy Hl]. apply NoDup_cons. split.
    + intros [-> |?]%elem_of_insert_inv; set_solver.
    + apply IH; set_solver.
Qed.

Lemma elem_of_sublist (l k : list A) (x : A) :
  l `sublist_of` k → x ∈ l → x ∈ k.
Proof. intros Hlk. induction Hlk; set_solver. Qed.

Lemma NoDup_sublist (l k : list A) : l `sublist_of` k → NoDup k → NoDup l.
Proof.
  induction 1 as [|x l k Hlk IH|x l k Hlk IH]; [done|..]; rewrite ?NoDup_cons.
  - intros [Hx Hk]. split; [|by apply IH]. intros Hin. apply Hx. by eapply elem_of_sublist.
  - intros [_ Hk]. by apply IH.
Qed.

Lemma fmap_sublist {B} (f : A → B) (l k : list A) : l `sublist_of` k → f <$> l `sublist_of` f <$> k.
Proof. induction 1; simpl; by constructor. Qed.

Lemma StronglySorted_sublist (R : relation A) (l k : list A) :
  l `sublist_of` k → StronglySorted R k → StronglySorted R l.
Proof.
  induction 1 as [|x l k Hlk IH|x l k Hlk IH]; intros Hk; [done|..];
    apply StronglySorted_inv in Hk as [Hk Hx]; [|by apply IH].
  constructor; [by apply IH|].
  rewrite Forall_forall in *. eauto using elem_of_sublist.
Qed.

(** The first element outside [P] splits a list in one way only. *)
Lemma split_first_unique (P : A → Prop) (l l' k k' : list A) (x x' : A) :
  Forall P l → Forall P l' → ¬ P x → ¬ P x' →
  l ++ x :: k = l' ++ x' :: k' → l = l' ∧ x = x' ∧ k = k'.
Proof.
  revert l'. induction l as [|y l IH]; intros [|y' l'] Hl Hl' Hx Hx' Heq; simpl in *;
    simplify_eq; rewrite ?Forall_cons_iff in *; naive_solver.
Qed.

Lemma drop_cons_lookup (l k : list A) (n : nat) (x : A) :
  drop n l = x :: k → l !! n = Some x ∧ drop (S n) l = k.
Proof.
  revert n. induction l as [|y l IH]; intros [|n]; simpl; intros; simplify_eq; auto.
Qed.
End lists.

(** The sum of a weight over a list. *)
Fixpoint zsum {A} (f : A → Z) (l : list A) : Z :=
  match l with [] => 0 | x :: l => f x + zsum f l end.

Section zsum.
Context {A : Type} (f : A → Z).

Lemma zsum_app (l k : list A) : zsum f (l ++ k) = zsum f l + zsum f k.
Proof. induction l as [|x l IH]; simpl; lia. Qed.

Lemma zsum_nonneg (l : list A) : Forall (λ x, 0 ≤ f x) l → 0 ≤ zsum f l.
Proof. induction 1; simpl; lia. Qed.

Lemma zsum_elem_le (l : list A) (x : A) : Forall (λ x, 0 ≤ f x) l → x ∈ l → f x ≤ zsum f l.
Proof.
  induction 1 as [|y l Hy Hl IH]; [by intros ?%not_elem_of_nil|].
  apply zsum_nonneg in Hl. intros [->|Hx]%elem_of_cons; simpl; [lia|]. specialize (IH Hx). lia.
Qed.

Lemma zsum_filter (P : A → Prop) `{∀ x, Decision (P x)} (l : list A) :
  zsum f l = zsum f (filter P l) + zsum f (filter (λ x, ¬ P x) l).
Proof.
  induction l as [|x l IH]; [done|]. rewrite !filter_cons. repeat case_decide; simpl; try done; lia.
Qed.

Lemma zsum_insert (l : list A) (i : nat) (x y : A) :
  l !! i = Some y → zsum f (<[i := x]> l) = zsum f l - f y + f x.
Proof.
  revert i. induction l as [|z l IH]; intros [|i] Hi; simpl in *; simplify_eq; [lia|].
  rewrite (IH _ Hi). lia.
Qed.

Lemma zsum_delete (l : list A) (i : nat) (x : A) :
  l !! i = Some x → zsum f (delete i l) = zsum f l - f x.
Proof.
  revert i. induction l as [|z l IH]; intros [|i] Hi; simpl in *; simplify_eq; [lia|].
  specialize (IH _ Hi). change (list_delete i l) with (delete i l) in *. lia.
Qed.
End zsum.

Lemma zsum_fmap {A B} (g : A → B) (f : B → Z) (l : list A) :
  zsum f (g <$> l) = zsum (λ x, f (g x)) l.
Proof. induction l as [|x l IH]; [done|]. rewrite fmap_cons. simpl. lia. Qed.

Lemma zsum_ext {A} (f g : A → Z) (l : list A) :
  (∀ x, x ∈ l → f x = g x) → zsum f l = zsum g l.
Proof.
  induction l as [|x l IH]; intros H; [done|]. simpl. rewrite (H x) by left.
  rewrite IH; [done|]. intros y Hy. apply H. by right.
Qed.

(** A sequence of counter values handed out in increasing order, all below the
    next one. *)
Definition ordered_below (l : list Z) (next : Z) : Prop :=
  StronglySorted Z.lt l ∧ Forall (λ o, 0 ≤ o < next) l.

Lemma ordered_below_nil next : ordered_below [] next.
Proof. split; constructor. Qed.

Lemma ordered_below_snoc (l : list Z) (next : Z) :
  0 ≤ next → ordered_below l next → ordered_below (l ++ [next]) (next + 1).
Proof.
  intros Hn [Hs Hb]. rewrite Forall_forall in Hb. split.
  - apply StronglySorted_app_2; [|done|repeat constructor].
    intros x y Hx ->%list_elem_of_singleton. by apply Hb.
  - apply Forall_app. split; [|repeat constructor; lia].
    apply Forall_forall. intros x Hx. specialize (Hb x Hx). lia.
Qed.

Lemma ordered_below_sublist (l k : list Z) (next : Z) :
  l `sublist_of` k → ordered_below k next → ordered_below l next.
Proof.
  intros Hlk [Hs Hb]. split; [by eapply StronglySorted_sublist|].
  rewrite Forall_forall in *. intros x Hx. apply Hb.
  by eapply elem_of_sublist.
Qed.
