(* ===== verification/SchedulerTypes.v ===== *)
(** * Data of the viewport scheduler

    The identities ([runtime/scheduler/src/id.rs]), the validated limits
    ([limits.rs]), the work metadata, scheduling keys, critical events and
    terminal decisions ([work.rs]), and the typed errors ([error.rs]). *)

From stdpp Require Import base gmap list numbers option.
From S2P Require Import Prelude.

(** ** Identities

    A [nonzero_id!] newtype wraps a [NonZeroU64]: a positive number. *)

Abbreviation SessionId := positive (only parsing).
Abbreviation WorkId := positive (only parsing).
Abbreviation ResourceId := positive (only parsing).
Abbreviation Generation := positive (only parsing).

Definition nonzero_id_new (value : Z) : option positive :=
  match value with Zpos p => Some p | _ => None end.
Definition nonzero_id_get (id : positive) : Z := Zpos id.

(** ** Limits *)

Inductive LimitConfigError :=
| ZeroNormalCapacity | ZeroSessionReservation | ZeroSessionCapacity
| ZeroCriticalCapacity | ZeroInFlightCapacity | ZeroSessionLimit
| ZeroWorkIdCapacity | ZeroAgingQuantum | ZeroAgingSteps | ZeroFairnessBurst
| ReservationExceedsSessionCapacity | ReservationsExceedNormalCapacity
| WorkIdCapacityBelowLiveBound | CapacityArithmeticOverflow.

Record SchedulerLimits := {
  normal_capacity : Z;
  per_session_reservation : Z;
  per_session_capacity : Z;
  critical_capacity : Z;
  in_flight_capacity : Z;
  max_sessions : Z;
  max_work_ids_per_epoch : Z;
  aging_quantum_ticks : Z;
  max_aging_steps : Z;
  fairness_burst : Z
}.

(** [SchedulerLimits::new]: the capacities are [usize], the quantum and the
    burst [u64], the aging steps [u8]. *)
Definition SchedulerLimits_new `{Platform}
    (normal_capacity per_session_reservation per_session_capacity
     critical_capacity in_flight_capacity max_sessions max_work_ids_per_epoch
     aging_quantum_ticks max_aging_steps fairness_burst : Z)
    : result LimitConfigError SchedulerLimits :=
  fail_if (normal_capacity =? 0) ZeroNormalCapacity;;
  fail_if (per_session_reservation =? 0) ZeroSessionReservation;;
  fail_if (per_session_capacity =? 0) ZeroSessionCapacity;;
  fail_if (critical_capacity =? 0) ZeroCriticalCapacity;;
  fail_if (in_flight_capacity =? 0) ZeroInFlightCapacity;;
  fail_if (max_sessions =? 0) ZeroSessionLimit;;
  fail_if (max_work_ids_per_epoch =? 0) ZeroWorkIdCapacity;;
  fail_if (aging_quantum_ticks =? 0) ZeroAgingQuantum;;
  fail_if (max_aging_steps =? 0) ZeroAgingSteps;;
  fail_if (fairness_burst =? 0) ZeroFairnessBurst;;
  fail_if (per_session_capacity <? per_session_reservation)
    ReservationExceedsSessionCapacity;;
  reserved ← require (checked_mul usize_max per_session_reservation max_sessions)
    CapacityArithmeticOverflow;
  fail_if (normal_capacity <? reserved) ReservationsExceedNormalCapacity;;
  live_bound ← require (checked_add usize_max normal_capacity in_flight_capacity)
    CapacityArithmeticOverflow;
  fail_if (max_work_ids_per_epoch <? live_bound) WorkIdCapacityBelowLiveBound;;
  mret {| normal_capacity := normal_capacity;
          per_session_reservation := per_session_reservation;
          per_session_capacity := per_session_capacity;
          critical_capacity := critical_capacity;
          in_flight_capacity := in_flight_capacity;
          max_sessions := max_sessions;
          max_work_ids_per_epoch := max_work_ids_per_epoch;
          aging_quantum_ticks := aging_quantum_ticks;
          max_aging_steps := max_aging_steps;
          fairness_burst := fairness_burst |}.

(** ** Work metadata *)

Inductive Priority := P0 | P1 | P2 | P3 | P4.
Definition Priority_rank (p : Priority) : Z :=
  match p with P0 => 0 | P1 => 1 | P2 => 2 | P3 => 3 | P4 => 4 end.

Inductive ScrollRelation := Ahead | Neutral | Behind.
Definition ScrollRelation_rank (r : ScrollRelation) : Z :=
  match r with Ahead => 0 | Neutral => 1 | Behind => 2 end.

Inductive ReplaceableKind := Viewport | Tile.
Record ReplaceKey := { key_kind : ReplaceableKind; key_identity : Z }.

Definition ReplaceKey_viewport (identity : Z) : ReplaceKey :=
  {| key_kind := Viewport; key_identity := identity |}.
Definition ReplaceKey_tile (identity : Z) : ReplaceKey :=
  {| key_kind := Tile; key_identity := identity |}.

Record WorkRequest := {
  req_work_id : WorkId;
  req_session_id : SessionId;
  req_generation : Generation;
  req_replace_key : ReplaceKey;
  req_priority : Priority;
  req_center_distance : Z;
  req_edge_distance : Z;
  req_scroll_relation : ScrollRelation
}.

Record SchedulingKey := {
  aging_lane : Z;
  effective_priority : Z;
  capped_enqueue_order : Z;
  scroll_relation : Z;
  center_distance : Z;
  edge_distance : Z;
  base_priority : Z;
  key_enqueue_order : Z;
  key_session_id : Z;
  key_work_id : Z
}.

(** The derived [Ord] of [SchedulingKey]: lexicographic in field order. *)
Definition SchedulingKey_fields (k : SchedulingKey) : list Z :=
  [aging_lane k; effective_priority k; capped_enqueue_order k;
   scroll_relation k; center_distance k; edge_distance k; base_priority k;
   key_enqueue_order k; key_session_id k; key_work_id k].

Fixpoint lex_ltb (xs ys : list Z) : bool :=
  match xs, ys with
  | x :: xs, y :: ys => (x <? y) || ((x =? y) && lex_ltb xs ys)
  | [], _ :: _ => true
  | _, [] => false
  end.

Definition SchedulingKey_ltb (a b : SchedulingKey) : bool :=
  lex_ltb (SchedulingKey_fields a) (SchedulingKey_fields b).

(** [SchedulingKey::for_request]. *)
Definition SchedulingKey_for_request (request : WorkRequest)
    (enqueue_order enqueue_tick current_tick aging_quantum_ticks
     max_aging_steps : Z) : SchedulingKey :=
  let age := saturating_sub current_tick enqueue_tick in
  let raw_steps := age / aging_quantum_ticks in
  let steps := match try_from u8_max (Z.min raw_steps max_aging_steps) with
               | Some steps => steps
               | None => max_aging_steps
               end in
  let capped := steps =? max_aging_steps in
  {| aging_lane := if capped then 0 else 1;
     effective_priority :=
       saturating_sub (Priority_rank (req_priority request)) steps;
     capped_enqueue_order := if capped then enqueue_order else 0;
     scroll_relation := ScrollRelation_rank (req_scroll_relation request);
     center_distance := req_center_distance request;
     edge_distance := req_edge_distance request;
     base_priority := Priority_rank (req_priority request);
     key_enqueue_order := enqueue_order;
     key_session_id := nonzero_id_get (req_session_id request);
     key_work_id := nonzero_id_get (req_work_id request) |}.

Record FairnessEvidence := {
  minimum_last_service_turn : Z;
  session_last_service_turn : Z;
  exclusive_turn_limit : Z
}.

Record ScheduledWork := {
  sw_request : WorkRequest;
  sw_scheduling_key : SchedulingKey;
  sw_fairness : FairnessEvidence
}.

(** ** Critical events and terminal decisions *)

Record TerminalSignal := {
  sig_work_id : WorkId;
  sig_session_id : SessionId;
  sig_generation : Generation
}.

Inductive CriticalIngress :=
| InCancel (signal : TerminalSignal)
| InClose (session_id : SessionId)
| InRelease (session_id : SessionId) (resource_id : ResourceId)
| InFailure (signal : TerminalSignal)
| InCompletion (signal : TerminalSignal) (resource_id : ResourceId)
| InShutdown.

Inductive CriticalKind :=
| KindCancel | KindClose | KindRelease | KindFailure | KindCompletion
| KindShutdown.

Definition CriticalIngress_kind (event : CriticalIngress) : CriticalKind :=
  match event with
  | InCancel _ => KindCancel
  | InClose _ => KindClose
  | InRelease _ _ => KindRelease
  | InFailure _ => KindFailure
  | InCompletion _ _ => KindCompletion
  | InShutdown => KindShutdown
  end.

Definition CriticalIngress_session_id (event : CriticalIngress)
    : option SessionId :=
  match event with
  | InCancel signal | InFailure signal | InCompletion signal _ =>
      Some (sig_session_id signal)
  | InClose session_id | InRelease session_id _ => Some session_id
  | InShutdown => None
  end.

Inductive CompletionDiscardReason :=
| UnknownOrAlreadyTerminal | IdentityMismatch | StaleGeneration
| SessionIsClosing | SchedulerIsShuttingDown.

Inductive TerminalDecision :=
| Publish (work_id : WorkId) (resource_id : ResourceId)
| DiscardAndRelease (work_id : WorkId) (resource_id : ResourceId)
    (reason : CompletionDiscardReason)
| Cancelled (work_id : WorkId)
| Failed (work_id : WorkId)
| Ignored (work_id : WorkId) (reason : CompletionDiscardReason).

Inductive CriticalDispatch :=
| OutCancel (decision : TerminalDecision)
| OutClose (session_id : SessionId)
| OutRelease (session_id : SessionId) (resource_id : ResourceId)
| OutFailure (decision : TerminalDecision)
| OutCompletion (decision : TerminalDecision)
| OutShutdown.

(** ** Errors *)

Inductive SessionRegistrationError :=
| RegDuplicateSession (id : SessionId)
| RegSessionLimitReached
| RegReservationUnavailable
| RegSchedulerShuttingDown.

Inductive WorkAdmissionError :=
| AdmUnknownSession (id : SessionId)
| AdmSessionClosing (id : SessionId)
| AdmSchedulerShuttingDown
| AdmSupersededGeneration (submitted current : Generation)
| AdmNonIncreasingGeneration (requested current : Generation)
| AdmDuplicateWorkId (id : WorkId)
| AdmWorkIdHistoryFull
| AdmSessionQueueFull (id : SessionId)
| AdmReservedNormalCapacity
| AdmCounterExhausted.

Inductive CriticalAdmissionError :=
| CritQueueFull (event : CriticalIngress)
| CritUnknownSession (event : CriticalIngress)
| CritSchedulerTerminated (event : CriticalIngress)
| CritCounterExhausted (event : CriticalIngress).

Inductive TerminalArbiterError :=
| TermDuplicateSession (id : SessionId)
| TermSessionLimitReached
| TermUnknownSession (id : SessionId)
| TermNonIncreasingGeneration (requested current : Generation)
| TermSessionClosing (id : SessionId)
| TermSchedulerShuttingDown
| TermInFlightCapacityReached
| TermDuplicateInFlightWork (id : WorkId).

Inductive SchedulerError := CounterExhausted | InvariantViolation.

#[global] Instance ReplaceableKind_eq_dec : EqDecision ReplaceableKind.
Proof. solve_decision. Defined.
#[global] Instance ReplaceKey_eq_dec : EqDecision ReplaceKey.
Proof. solve_decision. Defined.
#[global] Instance TerminalSignal_eq_dec : EqDecision TerminalSignal.
Proof. solve_decision. Defined.
