(* ===== verification/Arbiter.v ===== *)
(** * The terminal arbiter ([runtime/scheduler/src/arbiter.rs])

    The sole owner of in-flight work and of every terminal decision:
    completion, cancellation and failure each remove an exact in-flight
    identity once. The interface [TerminalOwner] states what the scheduler
    relies on; the instance at the end discharges it. *)

From stdpp Require Import base gmap list numbers option.
From S2P Require Import Prelude.
From S2P Require Import SchedulerTypes.

(** ** State *)

Record TerminalArbiterLimits := {
  tal_max_sessions : Z;
  tal_max_in_flight : Z
}.

Definition TerminalArbiterLimits_new (max_sessions max_in_flight : Z)
    : option TerminalArbiterLimits :=
  if (max_sessions =? 0) || (max_in_flight =? 0) then None
  else Some {| tal_max_sessions := max_sessions;
               tal_max_in_flight := max_in_flight |}.

Definition from_validated_scheduler (max_sessions max_in_flight : Z)
    : TerminalArbiterLimits :=
  {| tal_max_sessions := max_sessions; tal_max_in_flight := max_in_flight |}.

Inductive TerminalSessionPhase := Open | Closing.
#[global] Instance TerminalSessionPhase_eq_dec : EqDecision TerminalSessionPhase.
Proof. solve_decision. Defined.

Record TerminalSession := {
  ts_generation : Generation;
  ts_phase : TerminalSessionPhase
}.

Record TerminalArbiter := {
  ta_limits : TerminalArbiterLimits;
  ta_sessions : gmap SessionId TerminalSession;
  (** [BTreeMap<WorkId, InFlight>]; [InFlight] holds one [signal]. *)
  ta_in_flight : gmap WorkId TerminalSignal;
  ta_shutting_down : bool
}.

Definition set_ta_sessions (m : gmap SessionId TerminalSession)
    (a : TerminalArbiter) : TerminalArbiter :=
  {| ta_limits := ta_limits a; ta_sessions := m;
     ta_in_flight := ta_in_flight a; ta_shutting_down := ta_shutting_down a |}.
Definition set_ta_in_flight (m : gmap WorkId TerminalSignal)
    (a : TerminalArbiter) : TerminalArbiter :=
  {| ta_limits := ta_limits a; ta_sessions := ta_sessions a;
     ta_in_flight := m; ta_shutting_down := ta_shutting_down a |}.

Definition TerminalArbiter_new (limits : TerminalArbiterLimits)
    : TerminalArbiter :=
  {| ta_limits := limits; ta_sessions := ∅; ta_in_flight := ∅;
     ta_shutting_down := false |}.

(** ** Operations *)

Definition current_generation (a : TerminalArbiter) (id : SessionId)
    : option Generation := ts_generation <$> ta_sessions a !! id.

Definition session_phase (a : TerminalArbiter) (id : SessionId)
    : option TerminalSessionPhase := ts_phase <$> ta_sessions a !! id.

Definition in_flight_len (a : TerminalArbiter) : Z := msize (ta_in_flight a).

Definition phase_is_open (p : TerminalSessionPhase) : bool :=
  match p with Open => true | Closing => false end.

Definition arbiter_register_session (session_id : SessionId)
    (generation : Generation) : M TerminalArbiter TerminalArbiterError unit :=
  a ← get;
  err_if (ta_shutting_down a) TermSchedulerShuttingDown;;
  err_if (bool_decide (is_Some (ta_sessions a !! session_id)))
    (TermDuplicateSession session_id);;
  err_if (msize (ta_sessions a) =? tal_max_sessions (ta_limits a))
    TermSessionLimitReached;;
  modify (λ a, set_ta_sessions
    (<[session_id := {| ts_generation := generation; ts_phase := Open |}]>
       (ta_sessions a)) a).

Definition arbiter_advance_generation (session_id : SessionId)
    (generation : Generation)
    : M TerminalArbiter TerminalArbiterError Generation :=
  a ← get;
  state ← ok_or (ta_sessions a !! session_id) (TermUnknownSession session_id);
  err_if (negb (phase_is_open (ts_phase state)))
    (TermSessionClosing session_id);;
  err_if (generation <=? ts_generation state)%positive
    (TermNonIncreasingGeneration generation (ts_generation state));;
  modify (λ a, set_ta_sessions
    (<[session_id := {| ts_generation := generation;
                        ts_phase := ts_phase state |}]> (ta_sessions a)) a);;
  mret (ts_generation state).

Definition signal_of_request (request : WorkRequest) : TerminalSignal :=
  {| sig_work_id := req_work_id request;
     sig_session_id := req_session_id request;
     sig_generation := req_generation request |}.

Definition arbiter_start (work : ScheduledWork)
    : M TerminalArbiter TerminalArbiterError unit :=
  a ← get;
  err_if (ta_shutting_down a) TermSchedulerShuttingDown;;
  let request := sw_request work in
  session ← ok_or (ta_sessions a !! req_session_id request)
    (TermUnknownSession (req_session_id request));
  err_if (negb (phase_is_open (ts_phase session)))
    (TermSessionClosing (req_session_id request));;
  err_if (negb (req_generation request =? ts_generation session)%positive)
    (TermNonIncreasingGeneration (req_generation request)
       (ts_generation session));;
  err_if (bool_decide (is_Some (ta_in_flight a !! req_work_id request)))
    (TermDuplicateInFlightWork (req_work_id request));;
  err_if (msize (ta_in_flight a) =? tal_max_in_flight (ta_limits a))
    TermInFlightCapacityReached;;
  modify (λ a, set_ta_in_flight
    (<[req_work_id request := signal_of_request request]> (ta_in_flight a)) a).

Definition arbiter_begin_close (session_id : SessionId)
    : M TerminalArbiter TerminalArbiterError bool :=
  a ← get;
  state ← ok_or (ta_sessions a !! session_id) (TermUnknownSession session_id);
  if negb (phase_is_open (ts_phase state)) then mret false
  else
    modify (λ a, set_ta_sessions
      (<[session_id := {| ts_generation := ts_generation state;
                          ts_phase := Closing |}]> (ta_sessions a)) a);;
    mret true.

Definition close_terminal_session (state : TerminalSession) : TerminalSession :=
  {| ts_generation := ts_generation state; ts_phase := Closing |}.

Definition arbiter_begin_shutdown (a : TerminalArbiter)
    : TerminalArbiter * bool :=
  if ta_shutting_down a then (a, false)
  else ({| ta_limits := ta_limits a;
           ta_sessions := close_terminal_session <$> ta_sessions a;
           ta_in_flight := ta_in_flight a;
           ta_shutting_down := true |}, true).

(** Removal of one exact identity from the in-flight map. *)
Definition remove_in_flight (w : WorkId) (a : TerminalArbiter)
    : TerminalArbiter := set_ta_in_flight (delete w (ta_in_flight a)) a.

Definition arbiter_complete (signal : TerminalSignal)
    (resource_id : ResourceId) (a : TerminalArbiter)
    : TerminalArbiter * TerminalDecision :=
  let w := sig_work_id signal in
  let discard := DiscardAndRelease w resource_id in
  match ta_in_flight a !! w with
  | None => (a, discard UnknownOrAlreadyTerminal)
  | Some active =>
      if bool_decide (active ≠ signal) then (a, discard IdentityMismatch)
      else
        let a := remove_in_flight w a in
        if ta_shutting_down a then (a, discard SchedulerIsShuttingDown)
        else match ta_sessions a !! sig_session_id signal with
             | None => (a, discard IdentityMismatch)
             | Some session =>
                 if negb (phase_is_open (ts_phase session)) then
                   (a, discard SessionIsClosing)
                 else if negb (ts_generation session =? sig_generation signal)%positive
                 then (a, discard StaleGeneration)
                 else (a, Publish w resource_id)
             end
  end.

Definition finish_without_resource (signal : TerminalSignal) (failed : bool)
    (a : TerminalArbiter) : TerminalArbiter * TerminalDecision :=
  let w := sig_work_id signal in
  match ta_in_flight a !! w with
  | None => (a, Ignored w UnknownOrAlreadyTerminal)
  | Some active =>
      if bool_decide (active ≠ signal) then (a, Ignored w IdentityMismatch)
      else (remove_in_flight w a, if failed then Failed w else Cancelled w)
  end.

Definition arbiter_cancel (signal : TerminalSignal) (a : TerminalArbiter) :=
  finish_without_resource signal false a.
Definition arbiter_fail (signal : TerminalSignal) (a : TerminalArbiter) :=
  finish_without_resource signal true a.

(** ** Well-formedness *)

Record arbiter_wf (a : TerminalArbiter) : Prop := {
  awf_keys : ∀ w sig, ta_in_flight a !! w = Some sig → sig_work_id sig = w;
  awf_sessions : ∀ w sig, ta_in_flight a !! w = Some sig →
    is_Some (ta_sessions a !! sig_session_id sig);
  awf_max_sessions : msize (ta_sessions a) ≤ tal_max_sessions (ta_limits a);
  awf_max_in_flight : in_flight_len a ≤ tal_max_in_flight (ta_limits a);
  awf_shutdown : ta_shutting_down a = true →
    ∀ id s, ta_sessions a !! id = Some s → ts_phase s = Closing
}.

(** The identity a decision makes terminal, if it makes one terminal. *)
Definition resolves (d : TerminalDecision) : option WorkId :=
  match d with
  | Publish w _ | Cancelled w | Failed w => Some w
  | DiscardAndRelease w _
      (StaleGeneration | SessionIsClosing | SchedulerIsShuttingDown) => Some w
  | DiscardAndRelease _ _ (UnknownOrAlreadyTerminal | IdentityMismatch) => None
  | Ignored _ _ => None
  end.

(** ** Interface

    What a client may rely on: an owner holds a finite set of active
    identities, and a terminal operation removes at most the identity it
    names, and removes it exactly when its decision resolves it. *)
Class TerminalOwner (A : Type) : Type := {
  owner_ok : A → Prop;
  owner_active : A → gset WorkId;
  owner_complete : TerminalSignal → ResourceId → A → A * TerminalDecision;
  owner_finish : TerminalSignal → bool → A → A * TerminalDecision;
  owner_complete_ok : ∀ sig r a a' d, owner_ok a →
    owner_complete sig r a = (a', d) → owner_ok a';
  owner_finish_ok : ∀ sig f a a' d, owner_ok a →
    owner_finish sig f a = (a', d) → owner_ok a';
  owner_complete_resolves : ∀ sig r a a' d, owner_ok a →
    owner_complete sig r a = (a', d) →
    match resolves d with
    | Some w => w = sig_work_id sig ∧ w ∈ owner_active a ∧
                owner_active a' = owner_active a ∖ {[w]}
    | None => owner_active a' = owner_active a
    end;
  owner_finish_resolves : ∀ sig f a a' d, owner_ok a →
    owner_finish sig f a = (a', d) →
    match resolves d with
    | Some w => w = sig_work_id sig ∧ w ∈ owner_active a ∧
                owner_active a' = owner_active a ∖ {[w]}
    | None => owner_active a' = owner_active a
    end
}.

(** ** Preservation *)

Lemma new_arbiter_wf (limits : TerminalArbiterLimits) :
  0 ≤ tal_max_sessions limits → 0 ≤ tal_max_in_flight limits →
  arbiter_wf (TerminalArbiter_new limits).
Proof.
  intros ??. split; unfold in_flight_len; simpl;
    rewrite ?map_size_empty; try done; intros *; by rewrite lookup_empty.
Qed.

Lemma remove_in_flight_wf (w : WorkId) (a : TerminalArbiter) :
  arbiter_wf a → arbiter_wf (remove_in_flight w a).
Proof.
  intros [Hk Hs Hm Hf Hd]. split; simpl; try done.
  - intros w' sig [_ H]%lookup_delete_Some. eauto.
  - intros w' sig [_ H]%lookup_delete_Some. eauto.
  - unfold in_flight_len in *; simpl.
    pose proof (msize_delete_le w (ta_in_flight a)). lia.
Qed.

(** Replacing one registered session keeps the arbiter well-formed, as long as
    shutdown is not undone. *)
Lemma update_session_wf (id : SessionId) (s' : TerminalSession)
    (a : TerminalArbiter) :
  arbiter_wf a → is_Some (ta_sessions a !! id) →
  (ta_shutting_down a = true → ts_phase s' = Closing) →
  arbiter_wf (set_ta_sessions (<[id := s']> (ta_sessions a)) a).
Proof.
  intros [Hk Hs Hm Hf Hd] Hid Hs'. split; simpl; try done.
  - intros w sig Hw. rewrite lookup_insert_is_Some.
    destruct (decide (id = sig_session_id sig)); [by left|right; eauto].
  - by rewrite msize_insert_present.
  - intros Hdown j sj [[-> <-]|[? Hj]]%lookup_insert_Some; eauto.
Qed.

Lemma arbiter_register_session_spec id g a a' r :
  arbiter_wf a → arbiter_register_session id g a = (a', r) →
  arbiter_wf a' ∧
  match r with
  | Ok _ => ta_shutting_down a = false ∧ ta_sessions a !! id = None ∧
      a' = set_ta_sessions
             (<[id := {| ts_generation := g; ts_phase := Open |}]>
                (ta_sessions a)) a
  | Err _ => a' = a
  end.
Proof.
  intros Hwf H. unfold arbiter_register_session in H. minv H; try done.
  rewrite bool_decide_eq_false, <-eq_None_not_Some in *.
  destruct Hwf as [Hk Hs Hm Hf Hd]. split; [split; simpl; try done|done].
  - intros w sig Hw. apply lookup_insert_is_Some'. right. eauto.
  - rewrite msize_insert_fresh by done. lia.
  - congruence.
Qed.

Lemma arbiter_advance_generation_spec id g a a' r :
  arbiter_wf a → arbiter_advance_generation id g a = (a', r) →
  arbiter_wf a' ∧
  match r with
  | Ok previous => ∃ s, ta_sessions a !! id = Some s ∧ ts_phase s = Open ∧
      ts_generation s = previous ∧ (previous < g)%positive ∧
      a' = set_ta_sessions
             (<[id := {| ts_generation := g; ts_phase := Open |}]>
                (ta_sessions a)) a
  | Err _ => a' = a
  end.
Proof.
  intros Hwf H. unfold arbiter_advance_generation in H. minv H; try done.
  destruct x as [g0 []]; simpl in *; [|done]. split.
  - apply update_session_wf; [done|eauto|]. simpl. intros Hdown.
    by pose proof (awf_shutdown _ Hwf Hdown _ _ ltac:(eassumption)).
  - eexists. split_and!; [eassumption|done|done|by apply Pos.leb_gt|done].
Qed.

Lemma arbiter_start_spec work a a' r :
  arbiter_wf a → arbiter_start work a = (a', r) →
  arbiter_wf a' ∧
  match r with
  | Ok _ =>
      let request := sw_request work in
      ta_shutting_down a = false ∧
      ta_sessions a !! req_session_id request =
        Some {| ts_generation := req_generation request; ts_phase := Open |} ∧
      ta_in_flight a !! req_work_id request = None ∧
      a' = set_ta_in_flight
             (<[req_work_id request := signal_of_request request]>
                (ta_in_flight a)) a
  | Err _ => a' = a
  end.
Proof.
  intros Hwf H. unfold arbiter_start in H. minv H; try done.
  destruct x as [g0 []]; simpl in *; [|done].
  rewrite bool_decide_eq_false, <-eq_None_not_Some in *.
  assert (req_generation (sw_request work) = g0) as <-
    by (by apply Pos.eqb_eq, negb_false_iff).
  destruct Hwf as [Hk Hs Hm Hf Hd]. split; [split; simpl; try done|done].
  - intros w sig [[<- <-]|[? Hw]]%lookup_insert_Some; eauto.
  - intros w sig [[<- <-]|[? Hw]]%lookup_insert_Some; simpl; eauto.
  - unfold in_flight_len in *. simpl. rewrite msize_insert_fresh by done. lia.
Qed.

Lemma arbiter_begin_close_spec id a a' r :
  arbiter_wf a → arbiter_begin_close id a = (a', r) →
  arbiter_wf a' ∧
  match r with
  | Ok true => ∃ s, ta_sessions a !! id = Some s ∧ ts_phase s = Open ∧
      a' = set_ta_sessions (<[id := close_terminal_session s]> (ta_sessions a)) a
  | Ok false => session_phase a id = Some Closing ∧ a' = a
  | Err _ => ta_sessions a !! id = None ∧ a' = a
  end.
Proof.
  intros Hwf H. unfold arbiter_begin_close in H. minv H; try done.
  destruct x as [g0 []]; simpl in H; minv H.
  - split; [apply update_session_wf; eauto|eauto].
  - split; [done|]. unfold session_phase.
    by match goal with H : _ !! _ = Some _ |- _ => rewrite H end.
Qed.

Lemma arbiter_begin_shutdown_wf a : arbiter_wf a →
  arbiter_wf (arbiter_begin_shutdown a).1.
Proof.
  intros Hwf. unfold arbiter_begin_shutdown.
  destruct (ta_shutting_down a); [done|]. destruct Hwf as [Hk Hs Hm Hf Hd].
  split; simpl; try done.
  - intros w sig Hw. rewrite lookup_fmap. apply fmap_is_Some. eauto.
  - by rewrite map_size_fmap.
  - intros _ id s. rewrite lookup_fmap, fmap_Some. by intros (s0&_&->).
Qed.

(** Both terminal operations either leave the arbiter unchanged or remove the
    identity of their signal; the decision says which. *)
Lemma arbiter_complete_spec sig rid a a' d :
  arbiter_wf a → arbiter_complete sig rid a = (a', d) →
  match resolves d with
  | Some w => w = sig_work_id sig ∧ ta_in_flight a !! w = Some sig ∧
              a' = remove_in_flight w a
  | None => a' = a
  end.
Proof.
  intros Hwf. unfold arbiter_complete.
  destruct (ta_in_flight a !! sig_work_id sig) as [act|] eqn:Hact; [|naive_solver].
  case_bool_decide; [naive_solver|]. assert (act = sig) as -> by naive_solver.
  destruct (awf_sessions _ Hwf _ _ Hact) as [s Hs].
  simpl. rewrite Hs. repeat case_match; naive_solver.
Qed.

Lemma finish_without_resource_spec sig f a a' d :
  finish_without_resource sig f a = (a', d) →
  match resolves d with
  | Some w => w = sig_work_id sig ∧ ta_in_flight a !! w = Some sig ∧
              a' = remove_in_flight w a
  | None => a' = a
  end.
Proof.
  unfold finish_without_resource.
  destruct (ta_in_flight a !! sig_work_id sig) as [act|] eqn:Hact; [|naive_solver].
  case_bool_decide; [naive_solver|]. assert (act = sig) as -> by naive_solver.
  repeat case_match; naive_solver.
Qed.

(** A publication is exact: the signal is the in-flight one, its session is
    open, its generation is current and shutdown has not begun. *)
Lemma arbiter_complete_publish sig rid a a' w r :
  arbiter_complete sig rid a = (a', Publish w r) →
  w = sig_work_id sig ∧ r = rid ∧ ta_in_flight a !! w = Some sig ∧
  ta_shutting_down a = false ∧
  ta_sessions a !! sig_session_id sig =
    Some {| ts_generation := sig_generation sig; ts_phase := Open |} ∧
  a' = remove_in_flight w a.
Proof.
  unfold arbiter_complete.
  destruct (ta_in_flight a !! sig_work_id sig) as [act|] eqn:Hact; [|done].
  case_bool_decide; [done|]. assert (act = sig) as -> by naive_solver.
  simpl. destruct (ta_shutting_down a); [done|].
  destruct (ta_sessions a !! sig_session_id sig) as [[g []]|]; simpl; try done.
  case_match eqn:Hg; [done|]. intros; simplify_eq.
  assert (g = sig_generation sig) as ->
    by (by apply Pos.eqb_eq, negb_false_iff). done.
Qed.

Lemma remove_in_flight_active w a :
  dom (ta_in_flight (remove_in_flight w a)) =@{gset WorkId}
  dom (ta_in_flight a) ∖ {[w]}.
Proof. simpl. apply dom_delete_L. Qed.

#[export] Program Instance terminal_arbiter_owner :
    TerminalOwner TerminalArbiter := {|
  owner_ok := arbiter_wf;
  owner_active a := dom (ta_in_flight a);
  owner_complete := arbiter_complete;
  owner_finish := finish_without_resource
|}.
Next Obligation.
  intros sig r a a' d Hwf H%arbiter_complete_spec; [|done].
  destruct (resolves d); [|by subst].
  destruct H as (_&_&->). by apply remove_in_flight_wf.
Qed.
Next Obligation.
  intros sig f a a' d Hwf H%finish_without_resource_spec.
  destruct (resolves d); [|by subst].
  destruct H as (_&_&->). by apply remove_in_flight_wf.
Qed.
Next Obligation.
  intros sig r a a' d Hwf H%arbiter_complete_spec; [|done].
  destruct (resolves d) as [w|]; [|by subst].
  destruct H as (->&?&->). rewrite remove_in_flight_active.
  split_and!; [done| |done]. apply elem_of_dom. eauto.
Qed.
Next Obligation.
  intros sig f a a' d Hwf H%finish_without_resource_spec.
  destruct (resolves d) as [w|]; [|by subst].
  destruct H as (->&?&->). rewrite remove_in_flight_active.
  split_and!; [done| |done]. apply elem_of_dom. eauto.
Qed.
