(* ===== verification/Scheduler.v ===== *)
(** * The viewport scheduler ([runtime/scheduler/src/scheduler.rs])

    Bounded deterministic scheduling state: one replaceable normal queue with
    per-session reservations and coalescing, one critical FIFO, the history of
    used work identities, and the embedded terminal arbiter. One definition
    per method, with the guards in source order. *)

From stdpp Require Import base gmap list numbers option.
From S2P Require Import Prelude.
From S2P Require Import SchedulerTypes.
From S2P Require Import Arbiter.

(** ** State *)

Record QueueSession := { qs_queued : Z; qs_last_service_turn : Z }.

Record QueuedWork := {
  qw_request : WorkRequest;
  qw_enqueue_order : Z;
  qw_enqueue_tick : Z
}.

Inductive SchedulerPhase := Running | ShuttingDown | Terminated.
#[global] Instance SchedulerPhase_eq_dec : EqDecision SchedulerPhase.
Proof. solve_decision. Defined.

Inductive CriticalAdmission :=
| CriticalEnqueued (fifo_order : Z)
| AlreadyPending.

Record GenerationAdvance := {
  adv_previous : Generation;
  adv_current : Generation;
  adv_superseded_queued : list WorkId
}.

Inductive SubmitOutcome :=
| Enqueued (generation_advance : option GenerationAdvance)
| Coalesced (replaced_work_id current_work_id : WorkId)
    (generation_advance : option GenerationAdvance).

(** [CloseReceipt] and [ShutdownReceipt] have the same two fields. *)
Record Receipt := {
  rcpt_critical : CriticalAdmission;
  rcpt_superseded_queued : list WorkId
}.

Inductive SchedulerDispatch :=
| DispatchCritical (d : CriticalDispatch)
| DispatchNormal (w : ScheduledWork).

Record ViewportScheduler := {
  vs_limits : SchedulerLimits;
  vs_phase : SchedulerPhase;
  vs_tick : Z;
  vs_next_enqueue_order : Z;
  vs_next_critical_order : Z;
  vs_next_service_turn : Z;
  vs_sessions : gmap SessionId QueueSession;
  vs_normal : list QueuedWork;
  vs_critical : list (Z * CriticalIngress);
  vs_seen_work_ids : gset WorkId;
  vs_terminal : TerminalArbiter
}.

Definition set_phase (x : SchedulerPhase) (s : ViewportScheduler) :=
  {| vs_limits := vs_limits s; vs_phase := x; vs_tick := vs_tick s;
     vs_next_enqueue_order := vs_next_enqueue_order s;
     vs_next_critical_order := vs_next_critical_order s;
     vs_next_service_turn := vs_next_service_turn s;
     vs_sessions := vs_sessions s; vs_normal := vs_normal s;
     vs_critical := vs_critical s; vs_seen_work_ids := vs_seen_work_ids s;
     vs_terminal := vs_terminal s |}.
Definition set_tick (x : Z) (s : ViewportScheduler) :=
  {| vs_limits := vs_limits s; vs_phase := vs_phase s; vs_tick := x;
     vs_next_enqueue_order := vs_next_enqueue_order s;
     vs_next_critical_order := vs_next_critical_order s;
     vs_next_service_turn := vs_next_service_turn s;
     vs_sessions := vs_sessions s; vs_normal := vs_normal s;
     vs_critical := vs_critical s; vs_seen_work_ids := vs_seen_work_ids s;
     vs_terminal := vs_terminal s |}.
Definition set_next_enqueue_order (x : Z) (s : ViewportScheduler) :=
  {| vs_limits := vs_limits s; vs_phase := vs_phase s; vs_tick := vs_tick s;
     vs_next_enqueue_order := x;
     vs_next_critical_order := vs_next_critical_order s;
     vs_next_service_turn := vs_next_service_turn s;
     vs_sessions := vs_sessions s; vs_normal := vs_normal s;
     vs_critical := vs_critical s; vs_seen_work_ids := vs_seen_work_ids s;
     vs_terminal := vs_terminal s |}.
Definition set_critical (order : Z) (x : list (Z * CriticalIngress))
    (s : ViewportScheduler) :=
  {| vs_limits := vs_limits s; vs_phase := vs_phase s; vs_tick := vs_tick s;
     vs_next_enqueue_order := vs_next_enqueue_order s;
     vs_next_critical_order := order;
     vs_next_service_turn := vs_next_service_turn s;
     vs_sessions := vs_sessions s; vs_normal := vs_normal s;
     vs_critical := x; vs_seen_work_ids := vs_seen_work_ids s;
     vs_terminal := vs_terminal s |}.
Definition set_next_service_turn (x : Z) (s : ViewportScheduler) :=
  {| vs_limits := vs_limits s; vs_phase := vs_phase s; vs_tick := vs_tick s;
     vs_next_enqueue_order := vs_next_enqueue_order s;
     vs_next_critical_order := vs_next_critical_order s;
     vs_next_service_turn := x;
     vs_sessions := vs_sessions s; vs_normal := vs_normal s;
     vs_critical := vs_critical s; vs_seen_work_ids := vs_seen_work_ids s;
     vs_terminal := vs_terminal s |}.
Definition set_sessions (x : gmap SessionId QueueSession)
    (s : ViewportScheduler) :=
  {| vs_limits := vs_limits s; vs_phase := vs_phase s; vs_tick := vs_tick s;
     vs_next_enqueue_order := vs_next_enqueue_order s;
     vs_next_critical_order := vs_next_critical_order s;
     vs_next_service_turn := vs_next_service_turn s;
     vs_sessions := x; vs_normal := vs_normal s;
     vs_critical := vs_critical s; vs_seen_work_ids := vs_seen_work_ids s;
     vs_terminal := vs_terminal s |}.
Definition set_normal (x : list QueuedWork) (s : ViewportScheduler) :=
  {| vs_limits := vs_limits s; vs_phase := vs_phase s; vs_tick := vs_tick s;
     vs_next_enqueue_order := vs_next_enqueue_order s;
     vs_next_critical_order := vs_next_critical_order s;
     vs_next_service_turn := vs_next_service_turn s;
     vs_sessions := vs_sessions s; vs_normal := x;
     vs_critical := vs_critical s; vs_seen_work_ids := vs_seen_work_ids s;
     vs_terminal := vs_terminal s |}.
Definition set_seen_work_ids (x : gset WorkId) (s : ViewportScheduler) :=
  {| vs_limits := vs_limits s; vs_phase := vs_phase s; vs_tick := vs_tick s;
     vs_next_enqueue_order := vs_next_enqueue_order s;
     vs_next_critical_order := vs_next_critical_order s;
     vs_next_service_turn := vs_next_service_turn s;
     vs_sessions := vs_sessions s; vs_normal := vs_normal s;
     vs_critical := vs_critical s; vs_seen_work_ids := x;
     vs_terminal := vs_terminal s |}.
Definition set_terminal (x : TerminalArbiter) (s : ViewportScheduler) :=
  {| vs_limits := vs_limits s; vs_phase := vs_phase s; vs_tick := vs_tick s;
     vs_next_enqueue_order := vs_next_enqueue_order s;
     vs_next_critical_order := vs_next_critical_order s;
     vs_next_service_turn := vs_next_service_turn s;
     vs_sessions := vs_sessions s; vs_normal := vs_normal s;
     vs_critical := vs_critical s; vs_seen_work_ids := vs_seen_work_ids s;
     vs_terminal := x |}.

Definition ViewportScheduler_new (limits : SchedulerLimits)
    : ViewportScheduler :=
  {| vs_limits := limits; vs_phase := Running; vs_tick := 0;
     vs_next_enqueue_order := 0; vs_next_critical_order := 0;
     vs_next_service_turn := 1; vs_sessions := ∅; vs_normal := [];
     vs_critical := []; vs_seen_work_ids := ∅;
     vs_terminal := TerminalArbiter_new
       (from_validated_scheduler (max_sessions limits)
          (in_flight_capacity limits)) |}.

(** ** Private helpers *)

Definition qw_session (e : QueuedWork) : SessionId :=
  req_session_id (qw_request e).
Definition qw_work_id (e : QueuedWork) : WorkId := req_work_id (qw_request e).

Definition reserve_work_id (work_id : WorkId)
    : M ViewportScheduler WorkAdmissionError unit :=
  s ← get;
  err_if (bool_decide (work_id ∈ vs_seen_work_ids s))
    (AdmDuplicateWorkId work_id);;
  err_if (msize (vs_seen_work_ids s) =? max_work_ids_per_epoch (vs_limits s))
    AdmWorkIdHistoryFull;;
  modify (λ s, set_seen_work_ids ({[work_id]} ∪ vs_seen_work_ids s) s).

(** One term of the sum: what an open session other than [excluded] has not
    used of its reservation. *)
Definition unused_reservation (limits : SchedulerLimits)
    (terminal : TerminalArbiter) (excluded : option SessionId)
    (id : SessionId) (session : QueueSession) : Z :=
  if bool_decide (Some id = excluded) then 0
  else if bool_decide (session_phase terminal id = Some Open) then
    saturating_sub (per_session_reservation limits) (qs_queued session)
  else 0.

Definition unused_open_reservations (s : ViewportScheduler)
    (excluded : option SessionId) : Z :=
  map_sum (unused_reservation (vs_limits s) (vs_terminal s) excluded)
    (vs_sessions s).

Definition clear_queued (session : QueueSession) : QueueSession :=
  {| qs_queued := 0; qs_last_service_turn := qs_last_service_turn session |}.

Definition remove_queued_for_session (session_id : SessionId)
    (s : ViewportScheduler) : ViewportScheduler * list WorkId :=
  let removed := qw_work_id <$>
    filter (λ e, qw_session e = session_id) (vs_normal s) in
  let s := set_normal
    (filter (λ e, qw_session e ≠ session_id) (vs_normal s)) s in
  (set_sessions (alter clear_queued session_id (vs_sessions s)) s, removed).

Definition enqueue_critical (event : CriticalIngress)
    : M ViewportScheduler CriticalAdmissionError CriticalAdmission :=
  s ← get;
  err_if (bool_decide (vs_phase s = Terminated)) (CritSchedulerTerminated event);;
  err_if match CriticalIngress_session_id event with
         | Some session_id =>
             bool_decide (¬ is_Some (vs_sessions s !! session_id))
         | None => false
         end (CritUnknownSession event);;
  err_if (len (vs_critical s) =? critical_capacity (vs_limits s))
    (CritQueueFull event);;
  err_if (vs_next_critical_order s =? u64_max) (CritCounterExhausted event);;
  modify (λ s, set_critical (vs_next_critical_order s + 1)
    (vs_critical s ++ [(vs_next_critical_order s, event)]) s);;
  mret (CriticalEnqueued (vs_next_critical_order s)).

(** ** Registration and virtual time *)

Definition register_map_err (error : TerminalArbiterError)
    : SessionRegistrationError :=
  match error with
  | TermDuplicateSession id => RegDuplicateSession id
  | TermSessionLimitReached => RegSessionLimitReached
  | _ => RegSchedulerShuttingDown
  end.

Definition register_session `{Platform} (session_id : SessionId)
    (initial_generation : Generation)
    : M ViewportScheduler SessionRegistrationError unit :=
  s ← get;
  err_if (bool_decide (vs_phase s ≠ Running)) RegSchedulerShuttingDown;;
  err_if (bool_decide (is_Some (vs_sessions s !! session_id)))
    (RegDuplicateSession session_id);;
  err_if (msize (vs_sessions s) =? max_sessions (vs_limits s))
    RegSessionLimitReached;;
  let unused_existing := unused_open_reservations s None in
  required ← ok_or
    (value ← checked_add usize_max (len (vs_normal s)) unused_existing;
     checked_add usize_max value (per_session_reservation (vs_limits s)))
    RegReservationUnavailable;
  err_if (normal_capacity (vs_limits s) <? required) RegReservationUnavailable;;
  zoom vs_terminal set_terminal register_map_err
    (arbiter_register_session session_id initial_generation);;
  modify (λ s, set_sessions
    (<[session_id := {| qs_queued := 0; qs_last_service_turn := 0 |}]>
       (vs_sessions s)) s).

Definition advance_tick (delta : Z) : M ViewportScheduler SchedulerError Z :=
  s ← get;
  tick ← ok_or (checked_add u64_max (vs_tick s) delta) CounterExhausted;
  modify (set_tick tick);;
  mret tick.

(** ** Normal admission *)

Definition remove_queued (session_id : SessionId)
    : M ViewportScheduler WorkAdmissionError (list WorkId) :=
  λ s, let '(s', removed) := remove_queued_for_session session_id s in
       (s', Ok removed).

Definition advance_generation (session_id : SessionId)
    (generation : Generation)
    : M ViewportScheduler WorkAdmissionError GenerationAdvance :=
  s ← get;
  err_if (bool_decide (vs_phase s ≠ Running)) AdmSchedulerShuttingDown;;
  current ← ok_or (current_generation (vs_terminal s) session_id)
    (AdmUnknownSession session_id);
  err_if (bool_decide (session_phase (vs_terminal s) session_id ≠ Some Open))
    (AdmSessionClosing session_id);;
  err_if (generation <=? current)%positive
    (AdmNonIncreasingGeneration generation current);;
  zoom vs_terminal set_terminal (λ _, AdmSessionClosing session_id)
    (arbiter_advance_generation session_id generation);;
  superseded ← remove_queued session_id;
  mret {| adv_previous := current; adv_current := generation;
          adv_superseded_queued := superseded |}.

(** The coalescing test of [submit]. *)
Definition coalesces (request : WorkRequest) (queued : QueuedWork) : Prop :=
  req_session_id (qw_request queued) = req_session_id request ∧
  req_generation (qw_request queued) = req_generation request ∧
  req_replace_key (qw_request queued) = req_replace_key request.
#[global] Instance coalesces_dec request queued :
  Decision (coalesces request queued).
Proof. unfold coalesces. apply _. Defined.

Definition replace_request (request : WorkRequest) (queued : QueuedWork)
    : QueuedWork :=
  {| qw_request := request; qw_enqueue_order := qw_enqueue_order queued;
     qw_enqueue_tick := qw_enqueue_tick queued |}.

Definition submit_coalesced (request : WorkRequest) (index : nat)
    (queued : QueuedWork) (generation_advance : option GenerationAdvance)
    : M ViewportScheduler WorkAdmissionError SubmitOutcome :=
  let replaced := qw_work_id queued in
  when (bool_decide (req_work_id request ≠ replaced))
    (reserve_work_id (req_work_id request));;
  modify (λ s, set_normal
    (<[index := replace_request request queued]> (vs_normal s)) s);;
  mret (Coalesced replaced (req_work_id request) generation_advance).

Definition submit_enqueued `{Platform} (request : WorkRequest)
    (generation_advance : option GenerationAdvance)
    : M ViewportScheduler WorkAdmissionError SubmitOutcome :=
  let session_id := req_session_id request in
  s ← get;
  err_if (bool_decide (req_work_id request ∈ vs_seen_work_ids s))
    (AdmDuplicateWorkId (req_work_id request));;
  session ← ok_or (vs_sessions s !! session_id) (AdmUnknownSession session_id);
  err_if (qs_queued session =? per_session_capacity (vs_limits s))
    (AdmSessionQueueFull session_id);;
  let reserved_for_others := unused_open_reservations s (Some session_id) in
  charged ← ok_or
    (value ← checked_add usize_max (len (vs_normal s)) 1;
     checked_add usize_max value reserved_for_others)
    AdmReservedNormalCapacity;
  err_if (normal_capacity (vs_limits s) <? charged) AdmReservedNormalCapacity;;
  err_if (vs_next_enqueue_order s =? u64_max) AdmCounterExhausted;;
  reserve_work_id (req_work_id request);;
  s ← get;
  match vs_sessions s !! session_id with
  | None =>
      modify (λ s, set_seen_work_ids
        (vs_seen_work_ids s ∖ {[req_work_id request]}) s);;
      throw (AdmUnknownSession session_id)
  | Some session =>
      modify (λ s, set_sessions
        (<[session_id := {| qs_queued := qs_queued session + 1;
             qs_last_service_turn := qs_last_service_turn session |}]>
           (vs_sessions s)) s);;
      let enqueue_order := vs_next_enqueue_order s in
      modify (set_next_enqueue_order (enqueue_order + 1));;
      modify (λ s, set_normal
        (vs_normal s ++ [{| qw_request := request;
                            qw_enqueue_order := enqueue_order;
                            qw_enqueue_tick := vs_tick s |}]) s);;
      mret (Enqueued generation_advance)
  end.

Definition submit `{Platform} (request : WorkRequest)
    : M ViewportScheduler WorkAdmissionError SubmitOutcome :=
  let session_id := req_session_id request in
  s ← get;
  err_if (bool_decide (vs_phase s ≠ Running)) AdmSchedulerShuttingDown;;
  current ← ok_or (current_generation (vs_terminal s) session_id)
    (AdmUnknownSession session_id);
  err_if (bool_decide (session_phase (vs_terminal s) session_id ≠ Some Open))
    (AdmSessionClosing session_id);;
  err_if (req_generation request <? current)%positive
    (AdmSupersededGeneration (req_generation request) current);;
  generation_advance ←
    (if (current <? req_generation request)%positive
     then advance ← advance_generation session_id (req_generation request);
          mret (Some advance)
     else mret None);
  s ← get;
  match list_find (coalesces request) (vs_normal s) with
  | Some (index, queued) =>
      submit_coalesced request index queued generation_advance
  | None => submit_enqueued request generation_advance
  end.

(** ** Critical admission *)

Definition enqueue_cancel (signal : TerminalSignal) :=
  enqueue_critical (InCancel signal).
Definition enqueue_release (session_id : SessionId) (resource_id : ResourceId) :=
  enqueue_critical (InRelease session_id resource_id).
Definition enqueue_failure (signal : TerminalSignal) :=
  enqueue_critical (InFailure signal).
Definition enqueue_completion (signal : TerminalSignal)
    (resource_id : ResourceId) :=
  enqueue_critical (InCompletion signal resource_id).

Definition close_session (session_id : SessionId)
    : M ViewportScheduler CriticalAdmissionError Receipt :=
  let event := InClose session_id in
  s ← get;
  err_if (bool_decide (vs_phase s = Terminated)) (CritSchedulerTerminated event);;
  phase ← ok_or (session_phase (vs_terminal s) session_id)
    (CritUnknownSession event);
  if bool_decide (phase = Closing) then
    mret {| rcpt_critical := AlreadyPending; rcpt_superseded_queued := [] |}
  else
    critical ← enqueue_critical event;
    s ← get;
    match arbiter_begin_close session_id (vs_terminal s) with
    | (terminal, Err _) =>
        modify (set_terminal terminal);;
        modify (λ s, set_critical
          (saturating_sub (vs_next_critical_order s) 1)
          (removelast (vs_critical s)) s);;
        throw (CritUnknownSession (InClose session_id))
    | (terminal, Ok _) =>
        modify (set_terminal terminal);;
        s ← get;
        let '(s', superseded) := remove_queued_for_session session_id s in
        modify (λ _, s');;
        mret {| rcpt_critical := critical;
                rcpt_superseded_queued := superseded |}
    end.

Definition begin_shutdown : M ViewportScheduler CriticalAdmissionError Receipt :=
  s ← get;
  if bool_decide (vs_phase s ≠ Running) then
    mret {| rcpt_critical := AlreadyPending; rcpt_superseded_queued := [] |}
  else
    critical ← enqueue_critical InShutdown;
    modify (set_phase ShuttingDown);;
    modify (λ s, set_terminal (arbiter_begin_shutdown (vs_terminal s)).1 s);;
    s ← get;
    let superseded_queued := qw_work_id <$> vs_normal s in
    modify (set_normal []);;
    modify (λ s, set_sessions (clear_queued <$> vs_sessions s) s);;
    mret {| rcpt_critical := critical;
            rcpt_superseded_queued := superseded_queued |}.

(** ** Dispatch *)

(** The terminal arbitration of one popped critical event. *)
Definition dispatch_critical (event : CriticalIngress) (a : TerminalArbiter)
    : TerminalArbiter * CriticalDispatch :=
  match event with
  | InCancel signal =>
      let '(a, d) := arbiter_cancel signal a in (a, OutCancel d)
  | InClose session_id => (a, OutClose session_id)
  | InRelease session_id resource_id => (a, OutRelease session_id resource_id)
  | InFailure signal =>
      let '(a, d) := arbiter_fail signal a in (a, OutFailure d)
  | InCompletion signal resource_id =>
      let '(a, d) := arbiter_complete signal resource_id a in (a, OutCompletion d)
  | InShutdown => (a, OutShutdown)
  end.

(** [Iterator::min]. *)
Definition iter_min (l : list Z) : option Z :=
  match l with [] => None | x :: l => Some (foldr Z.min x l) end.

Definition last_service_turns (s : ViewportScheduler) : list Z :=
  omap (λ e, qs_last_service_turn <$> vs_sessions s !! qw_session e)
    (vs_normal s).

Definition entry_key (s : ViewportScheduler) (e : QueuedWork) : SchedulingKey :=
  SchedulingKey_for_request (qw_request e) (qw_enqueue_order e)
    (qw_enqueue_tick e) (vs_tick s) (aging_quantum_ticks (vs_limits s))
    (max_aging_steps (vs_limits s)).

(** The selection loop: [selected] holds index, key and last service turn of
    the least admitted key so far. *)
Fixpoint select_loop (s : ViewportScheduler) (exclusive_turn_limit : Z)
    (index : nat) (entries : list QueuedWork)
    (selected : option (nat * SchedulingKey * Z))
    : result SchedulerError (option (nat * SchedulingKey * Z)) :=
  match entries with
  | [] => Ok selected
  | entry :: entries =>
      match vs_sessions s !! qw_session entry with
      | None => Err InvariantViolation
      | Some session =>
          if exclusive_turn_limit <=? qs_last_service_turn session then
            select_loop s exclusive_turn_limit (S index) entries selected
          else
            let key := entry_key s entry in
            let better := match selected with
                          | None => true
                          | Some (_, current_key, _) =>
                              SchedulingKey_ltb key current_key
                          end in
            select_loop s exclusive_turn_limit (S index) entries
              (if better then Some (index, key, qs_last_service_turn session)
               else selected)
      end
  end.

(** The rest of [dispatch_normal], once an entry is selected: start it, remove
    it from the queue and charge its session with this service turn. *)
Definition dispatch_selected (index : nat) (entry : QueuedWork)
    (scheduled : ScheduledWork)
    : M ViewportScheduler SchedulerError ScheduledWork :=
  zoom vs_terminal set_terminal (λ _, InvariantViolation)
    (arbiter_start scheduled);;
  modify (λ s, set_normal (delete index (vs_normal s)) s);;
  s ← get;
  session ← ok_or (vs_sessions s !! qw_session entry) InvariantViolation;
  queued ← ok_or (checked_sub (qs_queued session) 1) InvariantViolation;
  modify (λ s, set_sessions
    (<[qw_session entry :=
         {| qs_queued := queued;
            qs_last_service_turn := vs_next_service_turn s |}]>
       (vs_sessions s)) s);;
  modify (λ s, set_next_service_turn (vs_next_service_turn s + 1) s);;
  mret scheduled.

Definition dispatch_normal : M ViewportScheduler SchedulerError ScheduledWork :=
  s ← get;
  minimum ← ok_or (iter_min (last_service_turns s)) InvariantViolation;
  limit ← ok_or (checked_add u64_max minimum (fairness_burst (vs_limits s)))
    CounterExhausted;
  err_if (vs_next_service_turn s =? u64_max) CounterExhausted;;
  selected ← of_result (select_loop s limit 0 (vs_normal s) None);
  '(index, scheduling_key, session_turn) ← ok_or selected InvariantViolation;
  entry ← ok_or (vs_normal s !! index) InvariantViolation;
  let scheduled :=
    {| sw_request := qw_request entry;
       sw_scheduling_key := scheduling_key;
       sw_fairness := {| minimum_last_service_turn := minimum;
                         session_last_service_turn := session_turn;
                         exclusive_turn_limit := limit |} |} in
  dispatch_selected index entry scheduled.

Definition dispatch_next
    : M ViewportScheduler SchedulerError (option SchedulerDispatch) :=
  s ← get;
  match vs_critical s with
  | (_, event) :: rest =>
      modify (set_critical (vs_next_critical_order s) rest);;
      let '(terminal, dispatch) := dispatch_critical event (vs_terminal s) in
      modify (set_terminal terminal);;
      mret (Some (DispatchCritical dispatch))
  | [] =>
      if bool_decide (vs_phase s ≠ Running)
         || (in_flight_len (vs_terminal s) =? in_flight_capacity (vs_limits s))
         || bool_decide (vs_normal s = [])
      then mret None
      else scheduled ← dispatch_normal; mret (Some (DispatchNormal scheduled))
  end.

Definition try_finish_shutdown (s : ViewportScheduler)
    : ViewportScheduler * bool :=
  if bool_decide (vs_phase s = ShuttingDown) && bool_decide (vs_normal s = [])
     && bool_decide (vs_critical s = [])
     && (in_flight_len (vs_terminal s) =? 0)
  then (set_phase Terminated s, true) else (s, false).
