(* ===== verification/SchedulerInv.v ===== *)
(** * Invariant of the viewport scheduler

    The invariant is split by the state it reads: the queue and its
    reservations, the work identities, the enqueue order, the critical FIFO,
    the service turns. Each part has its own preservation lemmas; [wf] joins
    them and every operation is shown to preserve it. *)

From stdpp Require Import base gmap list numbers option sorting.
From S2P Require Import Prelude.
From S2P Require Import SchedulerTypes.
From S2P Require Import Arbiter.
From S2P Require Import Scheduler.

(** ** Valid limits: what [SchedulerLimits::new] establishes *)

Record limits_ok (l : SchedulerLimits) : Prop := {
  lim_normal : 0 < normal_capacity l;
  lim_reservation : 0 < per_session_reservation l ≤ per_session_capacity l;
  lim_critical : 0 < critical_capacity l;
  lim_in_flight : 0 < in_flight_capacity l;
  lim_sessions : 0 < max_sessions l;
  lim_reserved : per_session_reservation l * max_sessions l ≤ normal_capacity l;
  lim_history : normal_capacity l + in_flight_capacity l ≤ max_work_ids_per_epoch l;
  lim_quantum : 0 < aging_quantum_ticks l;
  lim_steps : 0 < max_aging_steps l;
  lim_burst : 0 < fairness_burst l
}.

(** ** Entries of one session *)

Definition session_count (id : SessionId) (l : list QueuedWork) : Z :=
  len (filter (λ e, qw_session e = id) l).

Lemma session_count_nonneg id l : 0 ≤ session_count id l.
Proof. unfold session_count. lia. Qed.

Lemma session_count_app id l k :
  session_count id (l ++ k) = session_count id l + session_count id k.
Proof. unfold session_count. rewrite filter_app, length_app. lia. Qed.

Lemma session_count_cons id e l :
  session_count id (e :: l) =
  (if bool_decide (qw_session e = id) then 1 else 0) + session_count id l.
Proof.
  unfold session_count. rewrite filter_cons.
  case_bool_decide; case_decide; simpl; try done; lia.
Qed.

Lemma session_count_perm id l k :
  l ≡ₚ k → session_count id l = session_count id k.
Proof. unfold session_count. by intros ->. Qed.

Lemma session_count_delete id i e l :
  l !! i = Some e →
  session_count id (delete i l) =
  session_count id l - (if bool_decide (qw_session e = id) then 1 else 0).
Proof.
  intros Hi. rewrite (session_count_perm id l _ (delete_Permutation _ _ _ Hi)).
  rewrite session_count_cons. lia.
Qed.

Lemma session_count_removed id l :
  session_count id (filter (λ e, qw_session e ≠ id) l) = 0.
Proof.
  unfold session_count. rewrite list_filter_filter.
  rewrite (list_filter_iff _ (λ _, False)).
  - by induction l.
  - naive_solver.
Qed.

Lemma session_count_others id j l :
  j ≠ id → session_count j (filter (λ e, qw_session e ≠ id) l) = session_count j l.
Proof.
  intros Hj. unfold session_count. f_equal. rewrite list_filter_filter.
  f_equal. apply list_filter_iff. naive_solver.
Qed.

Lemma session_count_replace id i e e' l :
  l !! i = Some e → qw_session e' = qw_session e →
  session_count id (<[i := e']> l) = session_count id l.
Proof.
  revert i. induction l as [|x l IH]; intros [|i] Hi Hs; simplify_eq/=; [|].
  - by rewrite !session_count_cons, Hs.
  - by rewrite !session_count_cons, IH.
Qed.

(** ** Queue and reservations *)

Section queue.
Context (lims : SchedulerLimits).
Implicit Types (terminal : TerminalArbiter)
  (sessions : gmap SessionId QueueSession) (normal : list QueuedWork).

Definition reserved (terminal : TerminalArbiter)
    (sessions : gmap SessionId QueueSession) : Z :=
  map_sum (unused_reservation lims terminal None) sessions.

Record queue_wf terminal sessions normal : Prop := {
  (** The two registries name the same sessions. *)
  q_dom : ∀ id, is_Some (sessions !! id) ↔ is_Some (ta_sessions terminal !! id);
  (** Queued work belongs to an open session and its current generation. *)
  q_entries : ∀ e, e ∈ normal →
    ta_sessions terminal !! qw_session e =
      Some {| ts_generation := req_generation (qw_request e);
              ts_phase := Open |};
  (** [queued] counts the session's entries. *)
  q_queued : ∀ id q, sessions !! id = Some q →
    qs_queued q = session_count id normal;
  q_session_capacity : ∀ id q, sessions !! id = Some q →
    qs_queued q ≤ per_session_capacity lims;
  (** Every unused reservation still fits. *)
  q_capacity : len normal + reserved terminal sessions ≤ normal_capacity lims
}.

Lemma unused_reservation_nonneg terminal x id q :
  0 ≤ unused_reservation lims terminal x id q.
Proof.
  unfold unused_reservation, saturating_sub. repeat case_bool_decide; lia.
Qed.

Lemma reserved_nonneg terminal sessions : 0 ≤ reserved terminal sessions.
Proof. apply map_sum_nonneg. intros. apply unused_reservation_nonneg. Qed.

(** Reservations read the registered phases only. *)
Lemma reserved_ext terminal terminal' sessions :
  (∀ id, is_Some (sessions !! id) →
     session_phase terminal id = session_phase terminal' id) →
  reserved terminal sessions = reserved terminal' sessions.
Proof.
  intros Hp. apply map_sum_ext. intros id q Hid. unfold unused_reservation.
  by rewrite (Hp id) by eauto.
Qed.

(** The reservation of the excluded session is the only difference. *)
Lemma reserved_excluding terminal sessions id q :
  sessions !! id = Some q →
  reserved terminal sessions =
  unused_reservation lims terminal None id q +
  map_sum (unused_reservation lims terminal (Some id)) sessions.
Proof.
  intros Hid. unfold reserved.
  rewrite (map_sum_delete _ id q) by done.
  rewrite (map_sum_delete (unused_reservation lims terminal (Some id)) id q) by done.
  assert (unused_reservation lims terminal (Some id) id q = 0) as ->.
  { unfold unused_reservation. by rewrite bool_decide_eq_true_2. }
  rewrite Z.add_0_l. f_equal. apply map_sum_ext.
  intros j q' [Hne _]%lookup_delete_Some. unfold unused_reservation.
  rewrite (bool_decide_eq_false_2 (Some j = None)) by done.
  rewrite (bool_decide_eq_false_2 (Some j = Some id)) by naive_solver. done.
Qed.

(** Changing what is recorded of one session. *)
Lemma reserved_update terminal terminal' sessions id q q' :
  sessions !! id = Some q →
  (∀ j, j ≠ id → session_phase terminal' j = session_phase terminal j) →
  reserved terminal' (<[id := q']> sessions) =
  reserved terminal sessions - unused_reservation lims terminal None id q
  + unused_reservation lims terminal' None id q'.
Proof.
  intros Hid Hp. unfold reserved.
  rewrite (map_sum_delete _ id q sessions) by done.
  rewrite (map_sum_delete _ id q') by apply lookup_insert_eq.
  rewrite delete_insert_eq.
  rewrite (map_sum_ext (unused_reservation lims terminal' None)
             (unused_reservation lims terminal None) (delete id sessions)).
  - lia.
  - intros j qj [Hne _]%lookup_delete_Some. unfold unused_reservation.
    by rewrite Hp by done.
Qed.

(** Registering a session precharges its reservation. *)
Lemma queue_register terminal sessions normal id g :
  queue_wf terminal sessions normal →
  0 < per_session_reservation lims ≤ per_session_capacity lims →
  sessions !! id = None →
  len normal + reserved terminal sessions + per_session_reservation lims
    ≤ normal_capacity lims →
  queue_wf
    (set_ta_sessions
       (<[id := {| ts_generation := g; ts_phase := Open |}]>
          (ta_sessions terminal)) terminal)
    (<[id := {| qs_queued := 0; qs_last_service_turn := 0 |}]> sessions)
    normal.
Proof.
  intros [Hdom Hent Hq Hsc Hcap] Hlim Hid Hfit.
  assert (ta_sessions terminal !! id = None) as Hid'.
  { apply eq_None_not_Some. rewrite <-Hdom. rewrite Hid. by intros []. }
  assert (session_count id normal = 0) as Hzero.
  { unfold session_count.
    rewrite filter_none; [done|]. intros e He <-.
    by rewrite (Hent e He) in Hid'. }
  split; simpl.
  - intros j. rewrite !lookup_insert_is_Some. naive_solver.
  - intros e He. rewrite lookup_insert_ne; [by apply Hent|].
    intros ->. by rewrite (Hent e He) in Hid'.
  - intros j q [[<- <-]|[? Hj]]%lookup_insert_Some; simpl; [done|eauto].
  - intros j q [[<- <-]|[? Hj]]%lookup_insert_Some; simpl; [lia|eauto].
  - unfold reserved. rewrite map_sum_insert_fresh by done.
    rewrite (map_sum_ext _ (unused_reservation lims terminal None)).
    + fold (reserved terminal sessions).
      unfold unused_reservation, saturating_sub, session_phase; simpl.
      rewrite lookup_insert_eq. repeat case_bool_decide; simpl in *; lia.
    + intros j q Hj. unfold unused_reservation, session_phase; simpl.
      rewrite lookup_insert_ne by naive_solver. done.
Qed.

(** Dropping a session's entries while replacing its terminal state: the
    generation change of [advance_generation] and the close of
    [close_session]. *)
Lemma queue_drop terminal sessions normal id t' :
  queue_wf terminal sessions normal →
  0 < per_session_reservation lims ≤ per_session_capacity lims →
  session_phase terminal id = Some Open →
  queue_wf (set_ta_sessions (<[id := t']> (ta_sessions terminal)) terminal)
    (alter clear_queued id sessions)
    (filter (λ e, qw_session e ≠ id) normal).
Proof.
  intros [Hdom Hent Hq Hsc Hcap] Hlim Hopen.
  assert (is_Some (ta_sessions terminal !! id)) as Hid.
  { unfold session_phase in Hopen. by destruct (_ !! _); [eexists|]. }
  destruct (proj2 (Hdom id) Hid) as [q Hqid].
  assert (alter clear_queued id sessions = <[id := clear_queued q]> sessions)
    as Halter by (by apply alter_alt_Some).
  split; simpl.
  - intros j. rewrite lookup_alter_is_Some, Hdom, lookup_insert_is_Some.
    destruct (decide (id = j)); naive_solver.
  - intros e [Hne He]%list_elem_of_filter.
    rewrite lookup_insert_ne by done. by apply Hent.
  - intros j qj. rewrite Halter.
    intros [[<- <-]|[Hne Hj]]%lookup_insert_Some; simpl.
    + by rewrite session_count_removed.
    + rewrite session_count_others by done. eauto.
  - intros j qj. rewrite Halter.
    intros [[<- <-]|[Hne Hj]]%lookup_insert_Some; simpl; [lia|eauto].
  - rewrite Halter, (reserved_update terminal _ sessions id q) by
      (try done; intros j Hj; unfold session_phase; simpl;
       by rewrite lookup_insert_ne).
    pose proof (len_filter_complement (λ e, qw_session e = id) normal) as Hlen.
    fold (session_count id normal) in Hlen. rewrite <-(Hq _ _ Hqid) in Hlen.
    pose proof (session_count_nonneg id normal) as Hnn.
    rewrite <-(Hq _ _ Hqid) in Hnn.
    assert (unused_reservation lims terminal None id q =
            saturating_sub (per_session_reservation lims) (qs_queued q)) as ->.
    { unfold unused_reservation. by repeat case_bool_decide. }
    assert (unused_reservation lims
        (set_ta_sessions (<[id:=t']> (ta_sessions terminal)) terminal)
        None id (clear_queued q) ≤ per_session_reservation lims).
    { unfold unused_reservation, saturating_sub. simpl.
      repeat case_bool_decide; simpl; lia. }
    unfold saturating_sub. lia.
Qed.

(** A fresh entry of an open session, within its own capacity and what is
    left once the other reservations are preserved. *)
Lemma queue_push terminal sessions normal id q e :
  queue_wf terminal sessions normal →
  qw_session e = id →
  ta_sessions terminal !! id =
    Some {| ts_generation := req_generation (qw_request e); ts_phase := Open |} →
  sessions !! id = Some q →
  qs_queued q ≠ per_session_capacity lims →
  len normal + 1 + map_sum (unused_reservation lims terminal (Some id)) sessions
    ≤ normal_capacity lims →
  queue_wf terminal
    (<[id := {| qs_queued := qs_queued q + 1;
                qs_last_service_turn := qs_last_service_turn q |}]> sessions)
    (normal ++ [e]).
Proof.
  intros [Hdom Hent Hq Hsc Hcap] Hsid Hid Hqid Hne Hfit.
  pose proof (reserved_excluding terminal sessions id q Hqid) as Hex.
  assert (session_phase terminal id = Some Open) as Hopen
    by (unfold session_phase; by rewrite Hid).
  split.
  - intros j. rewrite lookup_insert_is_Some, <-Hdom.
    destruct (decide (id = j)); naive_solver.
  - intros e' [He'| ->%list_elem_of_singleton]%elem_of_app; [by apply Hent|].
    by rewrite Hsid.
  - intros j qj. rewrite session_count_app, session_count_cons.
    change (session_count j []) with 0.
    intros [[<- <-]|[Hj Hqj]]%lookup_insert_Some; simpl.
    + rewrite bool_decide_eq_true_2 by done. rewrite (Hq _ _ Hqid). lia.
    + rewrite bool_decide_eq_false_2 by congruence. rewrite (Hq _ _ Hqj). lia.
  - intros j qj [[<- <-]|[Hj Hqj]]%lookup_insert_Some; simpl; [|eauto].
    pose proof (Hsc _ _ Hqid). lia.
  - rewrite length_app, (reserved_update terminal _ sessions id q) by done.
    simpl. unfold unused_reservation in *. repeat case_bool_decide; try done.
    unfold saturating_sub in *. simpl in *. pose proof (Hq _ _ Hqid).
    pose proof (session_count_nonneg id normal). lia.
Qed.

(** In-place replacement by a request of the same session and generation. *)
Lemma queue_replace terminal sessions normal i e request :
  queue_wf terminal sessions normal →
  normal !! i = Some e → coalesces request e →
  queue_wf terminal sessions (<[i := replace_request request e]> normal).
Proof.
  intros [Hdom Hent Hq Hsc Hcap] Hi (Hs&Hg&_). split; try done.
  - intros e' [-> |He']%elem_of_insert_inv; [|by apply Hent].
    pose proof (Hent e (list_elem_of_lookup_2 _ _ _ Hi)) as He.
    unfold qw_session in *. simpl. by rewrite <-Hs, <-Hg.
  - intros j q Hj. rewrite (session_count_replace j i e) by
      (try done; unfold qw_session; by simpl). by apply Hq.
  - by rewrite length_insert.
Qed.

(** Moving one entry out of the queue. *)
Lemma queue_take terminal terminal' sessions normal i e q turn :
  queue_wf terminal sessions normal →
  normal !! i = Some e → sessions !! qw_session e = Some q →
  ta_sessions terminal' = ta_sessions terminal →
  queue_wf terminal'
    (<[qw_session e := {| qs_queued := qs_queued q - 1;
                          qs_last_service_turn := turn |}]> sessions)
    (delete i normal).
Proof.
  intros [Hdom Hent Hq Hsc Hcap] Hi Hqid Ht.
  assert (1 ≤ qs_queued q) as Hpos.
  { rewrite (Hq _ _ Hqid), (session_count_perm _ _ _ (delete_Permutation _ _ _ Hi)).
    rewrite session_count_cons, bool_decide_eq_true_2 by done.
    pose proof (session_count_nonneg (qw_session e) (delete i normal)). lia. }
  split.
  - intros j. rewrite Ht, lookup_insert_is_Some, <-Hdom.
    destruct (decide (qw_session e = j)); naive_solver.
  - intros e' He'. rewrite Ht. apply Hent.
    rewrite (delete_Permutation normal i e Hi). by right.
  - intros j qj. rewrite (session_count_delete j i e) by done.
    intros [[<- <-]|[Hj Hqj]]%lookup_insert_Some; simpl.
    + by rewrite bool_decide_eq_true_2, (Hq _ _ Hqid) by done.
    + rewrite bool_decide_eq_false_2 by done. rewrite (Hq _ _ Hqj). lia.
  - intros j qj [[<- <-]|[Hj Hqj]]%lookup_insert_Some; simpl; [|eauto].
    pose proof (Hsc _ _ Hqid). lia.
  - rewrite (reserved_update terminal _ sessions (qw_session e) q) by
      (try done; intros; unfold session_phase; by rewrite Ht).
    rewrite length_delete by eauto.
    pose proof (lookup_lt_Some _ _ _ Hi).
    unfold unused_reservation, session_phase in *. rewrite Ht.
    repeat case_bool_decide; try done; unfold saturating_sub in *;
      simpl in *; lia.
Qed.
End queue.

(** ** Work identities *)

Record ids_wf (seen : gset WorkId) (normal : list QueuedWork)
    (in_flight : gmap WorkId TerminalSignal) : Prop := {
  i_nodup : NoDup (qw_work_id <$> normal);
  i_queued : ∀ e, e ∈ normal →
    qw_work_id e ∈ seen ∧ in_flight !! qw_work_id e = None;
  i_in_flight : ∀ w, is_Some (in_flight !! w) → w ∈ seen
}.

Lemma ids_sublist seen normal normal' in_flight :
  normal' `sublist_of` normal →
  ids_wf seen normal in_flight → ids_wf seen normal' in_flight.
Proof.
  intros Hsub [Hn Hq Hf]. split; [|by eauto using elem_of_sublist|done].
  eapply sublist_NoDup; [done|]. by apply fmap_sublist.
Qed.

Lemma ids_remove_in_flight seen normal in_flight w :
  ids_wf seen normal in_flight → ids_wf seen normal (delete w in_flight).
Proof.
  intros [Hn Hq Hf]. split; [done| |].
  - intros e He. destruct (Hq e He) as [? Hnone]. split; [done|].
    rewrite lookup_delete. by case_decide.
  - intros w' [sig [_ Hw]%lookup_delete_Some]. eauto.
Qed.

Lemma ids_fresh_not_queued seen normal in_flight w :
  ids_wf seen normal in_flight → w ∉ seen → w ∉ qw_work_id <$> normal.
Proof.
  intros [Hn Hq Hf] Hw (e&->&He)%list_elem_of_fmap. by destruct (Hq e He).
Qed.

Lemma ids_push seen normal in_flight e :
  ids_wf seen normal in_flight → qw_work_id e ∉ seen →
  ids_wf ({[qw_work_id e]} ∪ seen) (normal ++ [e]) in_flight.
Proof.
  intros Hwf Hw. pose proof (ids_fresh_not_queued _ _ _ _ Hwf Hw).
  destruct Hwf as [Hn Hq Hf]. split.
  - rewrite fmap_app. apply NoDup_app. split; [done|]. split; [|apply NoDup_singleton].
    intros w' Hw' ->%list_elem_of_singleton. done.
  - intros e' [He'| ->%list_elem_of_singleton]%elem_of_app.
    + destruct (Hq e' He'). set_solver.
    + split; [set_solver|]. apply eq_None_not_Some. naive_solver.
  - intros w' Hw'. specialize (Hf w' Hw'). set_solver.
Qed.

(** Replacing an entry by one with the same or with an unused identity. *)
Lemma ids_replace seen normal in_flight i e e' :
  ids_wf seen normal in_flight → normal !! i = Some e →
  qw_work_id e' = qw_work_id e ∨ qw_work_id e' ∉ seen →
  ids_wf ({[qw_work_id e']} ∪ seen) (<[i := e']> normal) in_flight.
Proof.
  intros Hwf Hi Hw. pose proof (ids_fresh_not_queued _ _ _ (qw_work_id e') Hwf).
  destruct Hwf as [Hn Hq Hf].
  assert (e ∈ normal) as He by (by eapply list_elem_of_lookup_2). split.
  - rewrite list_fmap_insert. destruct Hw as [Hw|Hw].
    + rewrite list_insert_id; [done|]. by rewrite list_lookup_fmap, Hi, Hw.
    + apply NoDup_insert; auto.
  - intros e'' [->|He'']%elem_of_insert_inv; [|destruct (Hq e'' He''); set_solver].
    split; [set_solver|]. destruct Hw as [->|Hw]; [by apply Hq|].
    apply eq_None_not_Some. naive_solver.
  - intros w' Hw'. specialize (Hf w' Hw'). set_solver.
Qed.

Lemma ids_take seen normal in_flight i e sig :
  ids_wf seen normal in_flight → normal !! i = Some e →
  ids_wf seen (delete i normal) (<[qw_work_id e := sig]> in_flight).
Proof.
  intros Hwf Hi. pose proof Hwf as [Hn Hq Hf].
  destruct (ids_sublist _ _ _ _ (sublist_delete normal i) Hwf) as [Hn' Hq' _].
  assert (e ∈ normal) as He by (by eapply list_elem_of_lookup_2).
  split; [done| |].
  - intros e' He'. destruct (Hq' e' He'). split; [done|].
    rewrite lookup_insert_ne; [done|]. intros Heq.
    rewrite (delete_Permutation normal i e Hi) in Hn. simpl in Hn.
    apply NoDup_cons in Hn as [Hn _]. apply Hn. rewrite Heq.
    by apply list_elem_of_fmap_2.
  - intros w [<-|Hw]%lookup_insert_is_Some'; [|by apply Hf].
    by apply Hq.
Qed.

(** ** The whole scheduler *)

(** The identity under which later submissions coalesce. *)
Definition coalescing_key (e : QueuedWork) : SessionId * ReplaceKey :=
  (qw_session e, req_replace_key (qw_request e)).

Definition turns_ok (sessions : gmap SessionId QueueSession) (next : Z) : Prop :=
  1 ≤ next ≤ u64_max ∧
  ∀ id q, sessions !! id = Some q → 0 ≤ qs_last_service_turn q < next.

Definition ticks_ok (normal : list QueuedWork) (tick : Z) : Prop :=
  0 ≤ tick ≤ u64_max ∧ ∀ e, e ∈ normal → 0 ≤ qw_enqueue_tick e ≤ tick.

Record wf (s : ViewportScheduler) : Prop := {
  wf_limits : limits_ok (vs_limits s);
  wf_arbiter : arbiter_wf (vs_terminal s);
  wf_arbiter_limits : ta_limits (vs_terminal s) =
    from_validated_scheduler (max_sessions (vs_limits s))
      (in_flight_capacity (vs_limits s));
  wf_running : vs_phase s = Running ↔ ta_shutting_down (vs_terminal s) = false;
  wf_terminated : vs_phase s = Terminated →
    vs_critical s = [] ∧ ta_in_flight (vs_terminal s) = ∅;
  wf_queue : queue_wf (vs_limits s) (vs_terminal s) (vs_sessions s) (vs_normal s);
  wf_ids : ids_wf (vs_seen_work_ids s) (vs_normal s)
             (ta_in_flight (vs_terminal s));
  wf_history : msize (vs_seen_work_ids s) ≤ max_work_ids_per_epoch (vs_limits s);
  wf_keys : NoDup (coalescing_key <$> vs_normal s);
  wf_orders : ordered_below (qw_enqueue_order <$> vs_normal s)
                (vs_next_enqueue_order s);
  wf_next_order : 0 ≤ vs_next_enqueue_order s ≤ u64_max;
  wf_critical : len (vs_critical s) ≤ critical_capacity (vs_limits s);
  wf_fifo : ordered_below (fst <$> vs_critical s) (vs_next_critical_order s);
  wf_next_fifo : 0 ≤ vs_next_critical_order s ≤ u64_max;
  wf_turns : turns_ok (vs_sessions s) (vs_next_service_turn s);
  wf_ticks : ticks_ok (vs_normal s) (vs_tick s)
}.

(** A queued entry means the scheduler is running. *)
Lemma wf_normal_running s : wf s → vs_phase s ≠ Running → vs_normal s = [].
Proof.
  intros Hwf Hp. destruct (vs_normal s) as [|e l] eqn:Hn; [done|exfalso].
  assert (ta_shutting_down (vs_terminal s) = true) as Hdown.
  { destruct (ta_shutting_down _) eqn:?; [done|]. by destruct Hp; apply wf_running. }
  pose proof (q_entries _ _ _ _ (wf_queue _ Hwf) e) as He.
  specialize (He ltac:(rewrite Hn; left)).
  by pose proof (awf_shutdown _ (wf_arbiter _ Hwf) Hdown _ _ He).
Qed.

Lemma new_wf (l : SchedulerLimits) : limits_ok l → wf (ViewportScheduler_new l).
Proof.
  intros Hl. split; simpl; try done.
  - apply new_arbiter_wf; simpl; destruct Hl; lia.
  - split; try set_solver.
    + intros id. simpl. split; intros [? Hx]; by rewrite lookup_empty in Hx.
    + unfold reserved. rewrite map_sum_empty. destruct Hl. simpl. lia.
  - split; [apply NoDup_nil_2|set_solver|].
    intros w [? Hw]. by rewrite lookup_empty in Hw.
  - change (set_size _) with 0%nat. destruct Hl. lia.
  - apply NoDup_nil_2.
  - apply ordered_below_nil.
  - destruct Hl. lia.
  - apply ordered_below_nil.
  - split; [done|]. set_solver.
Qed.
