(* ===== verification/SchedulerSteps.v ===== *)
(** * Operations of the scheduler preserve its invariant

    For each operation: the invariant is preserved whatever the outcome, and
    the outcome is characterised (which branch, which state). *)

From stdpp Require Import base gmap list numbers option sorting.
From S2P Require Import Prelude.
From S2P Require Import SchedulerTypes.
From S2P Require Import Arbiter.
From S2P Require Import Scheduler.
From S2P Require Import SchedulerInv.

(** A scheduler whose listed parts did not change. *)
Ltac wf_split Hwf :=
  destruct Hwf as [Hlim Harb Harblim Hrun Hterm Hqueue Hids Hhist Hkeys Hord
                   Hnext Hcrit Hfifo Hnfifo Hturns Hticks];
  split; simpl; try done.

Lemma sessions_dom s id :
  wf s → is_Some (vs_sessions s !! id) ↔ is_Some (ta_sessions (vs_terminal s) !! id).
Proof. intros Hwf. apply (q_dom _ _ _ _ (wf_queue _ Hwf)). Qed.

Lemma open_not_shutting_down s id :
  wf s → session_phase (vs_terminal s) id = Some Open →
  ta_shutting_down (vs_terminal s) = false.
Proof.
  intros Hwf. unfold session_phase.
  destruct (ta_sessions _ !! id) as [t|] eqn:Ht; [|done]. intros [= Hopen].
  destruct (ta_shutting_down _) eqn:Hd; [|done].
  by rewrite (awf_shutdown _ (wf_arbiter _ Hwf) Hd _ _ Ht) in Hopen.
Qed.

(** ** Virtual time *)

Lemma advance_tick_spec delta s s' r :
  0 ≤ delta → wf s → advance_tick delta s = (s', r) →
  wf s' ∧ (r = Ok (vs_tick s + delta) ∧ s' = set_tick (vs_tick s + delta) s ∨
           r = Err CounterExhausted ∧ s' = s ∧ u64_max < vs_tick s + delta).
Proof.
  intros Hd Hwf H. unfold advance_tick in H. minv H.
  - unfold checked_add in *. case_match; simplify_eq.
    split; [|by left]. wf_split Hwf.
    destruct Hticks as [Ht He]. split; [lia|].
    intros e Hin. specialize (He e Hin). lia.
  - unfold checked_add in *. case_match; simplify_eq. split; [done|right].
    split_and!; [done|done|lia].
Qed.

(** ** Critical admission *)

Lemma enqueue_critical_spec event s s' r :
  wf s → enqueue_critical event s = (s', r) →
  wf s' ∧
  match r with
  | Ok a =>
      a = CriticalEnqueued (vs_next_critical_order s) ∧
      vs_phase s ≠ Terminated ∧
      s' = set_critical (vs_next_critical_order s + 1)
             (vs_critical s ++ [(vs_next_critical_order s, event)]) s
  | Err _ => s' = s
  end.
Proof.
  intros Hwf H. unfold enqueue_critical in H. minv H; try done.
  rewrite bool_decide_eq_false in *.
  split; [|done]. wf_split Hwf.
  - rewrite length_app. simpl. lia.
  - rewrite fmap_app. apply ordered_below_snoc; [lia|done].
  - lia.
Qed.

(** ** Registration *)

Lemma register_session_spec `{Platform} id g s s' r :
  wf s → register_session id g s = (s', r) →
  wf s' ∧
  match r with
  | Ok _ =>
      vs_phase s = Running ∧ vs_sessions s !! id = None ∧
      msize (vs_sessions s) < max_sessions (vs_limits s) ∧
      s' = set_sessions
             (<[id := {| qs_queued := 0; qs_last_service_turn := 0 |}]>
                (vs_sessions s))
             (set_terminal
                (set_ta_sessions
                   (<[id := {| ts_generation := g; ts_phase := Open |}]>
                      (ta_sessions (vs_terminal s))) (vs_terminal s)) s)
  | Err _ => s' = s
  end.
Proof.
  intros Hwf H0. unfold register_session in H0. minv H0; try done.
  - rewrite bool_decide_eq_false in *.
    match goal with H : zoom _ _ _ _ _ = _ |- _ => rename H into Hz end.
    unfold zoom in Hz.
    destruct (arbiter_register_session _ _ _) as [t' [u|e]] eqn:Hreg;
      simplify_eq.
    apply arbiter_register_session_spec in Hreg as [Hwft (Hd&Hnone&->)];
      [|by apply Hwf].
    match goal with H : _ ≫= _ = Some _ |- _ => rename H into Hreq end.
    apply bind_Some in Hreq as (v&Hv&Hreq).
    unfold checked_add in *. repeat case_match; simplify_eq.
    assert (vs_sessions s !! id = None) as Hid
      by (by apply eq_None_not_Some).
    assert (msize (vs_sessions s) < max_sessions (vs_limits s)).
    { pose proof (awf_max_sessions _ (wf_arbiter _ Hwf)) as Hm.
      rewrite (wf_arbiter_limits _ Hwf) in Hm. simpl in Hm.
      pose proof (awf_max_sessions _ Hwft) as Hm'. simpl in Hm'.
      rewrite msize_insert_fresh, (wf_arbiter_limits _ Hwf) in Hm' by done.
      simpl in Hm'.
      assert (dom (vs_sessions s) =@{gset _} dom (ta_sessions (vs_terminal s)))
        as Hdom.
      { apply set_eq. intros x. rewrite !elem_of_dom. by apply sessions_dom. }
      rewrite <-!size_dom, Hdom, size_dom. lia. }
    split; [|split_and!; try done; by apply dec_stable].
    wf_split Hwf.
    + apply queue_register; try done; [apply Hlim|].
      unfold unused_open_reservations in *. unfold reserved. lia.
    + destruct Hturns as [? Ht]. split; [done|].
      intros j q [[<- <-]|[? Hj]]%lookup_insert_Some; simpl; [lia|eauto].
  - match goal with H : zoom _ _ _ _ _ = _ |- _ => rename H into Hz end.
    unfold zoom in Hz.
    destruct (arbiter_register_session _ _ _) as [t' [u|er]] eqn:Hreg;
      simplify_eq.
    apply arbiter_register_session_spec in Hreg as [_ ->]; [|by apply Hwf].
    by destruct s.
Qed.

(** ** Dropping the queued work of a session *)

Definition replace_terminal_session (id : SessionId) (t' : TerminalSession)
    (s : ViewportScheduler) : ViewportScheduler :=
  set_terminal
    (set_ta_sessions (<[id := t']> (ta_sessions (vs_terminal s)))
       (vs_terminal s)) s.

Lemma drop_wf id t' s :
  wf s → session_phase (vs_terminal s) id = Some Open →
  wf (remove_queued_for_session id (replace_terminal_session id t' s)).1.
Proof.
  intros Hwf Hopen. pose proof (open_not_shutting_down s id Hwf Hopen) as Hup.
  assert (is_Some (ta_sessions (vs_terminal s) !! id)) as Hid.
  { unfold session_phase in Hopen. by destruct (_ !! _); [eexists|]. }
  assert (filter (λ e, qw_session e ≠ id) (vs_normal s) `sublist_of` vs_normal s)
    as Hsub by apply sublist_filter.
  wf_split Hwf.
  - apply update_session_wf; [done|done|congruence].
  - apply queue_drop; [done|apply Hlim|done].
  - by eapply ids_sublist.
  - eapply sublist_NoDup; [done|]. by apply fmap_sublist.
  - eapply ordered_below_sublist; [|done]. by apply fmap_sublist.
  - destruct Hturns as [? Ht]. split; [done|]. intros j q.
    rewrite lookup_alter_Some. intros [(->&q'&Hq&->)|[_ Hq]]; [|by eapply Ht].
    simpl. by eapply Ht.
  - destruct Hticks as [? Ht]. split; [done|]. intros e He.
    apply Ht. by eapply elem_of_sublist.
Qed.

Lemma advance_generation_spec id g s s' r :
  wf s → advance_generation id g s = (s', r) →
  wf s' ∧
  match r with
  | Ok adv => ∃ g0, ta_sessions (vs_terminal s) !! id =
        Some {| ts_generation := g0; ts_phase := Open |} ∧
      (g0 < g)%positive ∧ vs_phase s = Running ∧
      adv = {| adv_previous := g0; adv_current := g;
               adv_superseded_queued :=
                 qw_work_id <$> filter (λ e, qw_session e = id) (vs_normal s) |} ∧
      s' = (remove_queued_for_session id
              (replace_terminal_session id
                 {| ts_generation := g; ts_phase := Open |} s)).1
  | Err _ => s' = s
  end.
Proof.
  intros Hwf H. unfold advance_generation in H. minv H; try done.
  - match goal with H : zoom _ _ _ _ _ = _ |- _ => rename H into Hz end.
    unfold zoom in Hz.
    destruct (arbiter_advance_generation _ _ _) as [t' [u|e]] eqn:Hadv;
      simplify_eq.
    apply arbiter_advance_generation_spec in Hadv as [_ (t&Ht&Hp&<-&Hlt&->)];
      [|by apply Hwf].
    rewrite bool_decide_eq_false in *.
    match goal with H : remove_queued _ _ = _ |- _ => injection H as <- <- end.
    match goal with H : current_generation _ _ = _ |- _ =>
      unfold current_generation in H; rewrite Ht in H; simplify_eq/= end.
    destruct t as [g0 ph]. simpl in *. subst ph. split.
    + apply (drop_wf id {| ts_generation := g; ts_phase := Open |} s Hwf).
      unfold session_phase. by rewrite Ht.
    + exists g0. split_and!; try done. by apply dec_stable.
  - match goal with H : zoom _ _ _ _ _ = _ |- _ => rename H into Hz end.
    unfold zoom in Hz.
    destruct (arbiter_advance_generation _ _ _) as [t' [u|er]] eqn:Hadv;
      simplify_eq.
    apply arbiter_advance_generation_spec in Hadv as [_ ->]; [|by apply Hwf].
    by destruct s.
Qed.

(** ** Normal admission *)

Lemma reserve_work_id_spec w s s' r :
  reserve_work_id w s = (s', r) →
  match r with
  | Ok _ => w ∉ vs_seen_work_ids s ∧
      msize (vs_seen_work_ids s) ≠ max_work_ids_per_epoch (vs_limits s) ∧
      s' = set_seen_work_ids ({[w]} ∪ vs_seen_work_ids s) s
  | Err _ => s' = s
  end.
Proof.
  intros H. unfold reserve_work_id in H. minv H; try done.
  rewrite bool_decide_eq_false in *. split_and!; [done|lia|done].
Qed.

Lemma history_grows (seen : gset WorkId) (w : WorkId) (m : Z) :
  w ∈ seen ∨ msize seen ≠ m → msize seen ≤ m → msize ({[w]} ∪ seen) ≤ m.
Proof.
  intros Hm Hle. destruct (decide (w ∈ seen)) as [Hw|Hw].
  - by replace ({[w]} ∪ seen) with seen by set_solver.
  - rewrite size_union, size_singleton by set_solver. destruct Hm; [done|lia].
Qed.

(** The replacement of [submit]: same position, same order and tick. *)
Definition coalesced_state (request : WorkRequest) (index : nat)
    (queued : QueuedWork) (s : ViewportScheduler) : ViewportScheduler :=
  set_normal (<[index := replace_request request queued]> (vs_normal s))
    (set_seen_work_ids ({[req_work_id request]} ∪ vs_seen_work_ids s) s).

(** A field of the queue that a replacement does not change. *)
Lemma fmap_replace_same {B} (f : QueuedWork → B) (l : list QueuedWork) i e e' :
  l !! i = Some e → f e' = f e → f <$> <[i := e']> l = f <$> l.
Proof.
  intros Hi Hf. rewrite list_fmap_insert, list_insert_id; [done|].
  by rewrite list_lookup_fmap, Hi, Hf.
Qed.

Lemma coalesced_wf request index queued s :
  wf s → vs_normal s !! index = Some queued → coalesces request queued →
  req_work_id request = qw_work_id queued ∨
  (req_work_id request ∉ vs_seen_work_ids s ∧
   msize (vs_seen_work_ids s) ≠ max_work_ids_per_epoch (vs_limits s)) →
  wf (coalesced_state request index queued s).
Proof.
  intros Hwf Hi Hco Hid. pose proof Hco as (Hs&_&Hk).
  assert (queued ∈ vs_normal s) as Hin by (by eapply list_elem_of_lookup_2).
  wf_split Hwf.
  - by apply queue_replace.
  - apply ids_replace with (e := queued) (e' := replace_request request queued);
      [done..|]. destruct Hid as [?|[? _]]; [by left|by right].
  - apply history_grows; [|done]. destruct Hid as [->|[_ ?]]; [left|by right].
    by apply (i_queued _ _ _ Hids).
  - rewrite (fmap_replace_same _ _ _ queued); [done..|].
    unfold coalescing_key, qw_session. simpl. by rewrite Hs, Hk.
  - by rewrite (fmap_replace_same _ _ _ queued).
  - destruct Hticks as [? Ht]. split; [done|].
    intros e [->|He]%elem_of_insert_inv; [by apply (Ht queued)|by apply Ht].
Qed.

Lemma submit_coalesced_spec request index queued adv s s' r :
  wf s → vs_normal s !! index = Some queued → coalesces request queued →
  submit_coalesced request index queued adv s = (s', r) →
  wf s' ∧
  match r with
  | Ok o => o = Coalesced (qw_work_id queued) (req_work_id request) adv ∧
      (req_work_id request = qw_work_id queued ∨
       req_work_id request ∉ vs_seen_work_ids s) ∧
      s' = coalesced_state request index queued s
  | Err _ => s' = s
  end.
Proof.
  intros Hwf Hi Hco H. unfold submit_coalesced, when in H.
  case_bool_decide as Hsame; minv H.
  - match goal with H : reserve_work_id _ _ = _ |- _ =>
      apply reserve_work_id_spec in H as (Hnew&Hroom&->) end.
    split; [apply (coalesced_wf request index queued s); auto|by auto].
  - match goal with H : reserve_work_id _ _ = _ |- _ =>
      apply reserve_work_id_spec in H end. by subst.
  - assert (set_normal (<[index := replace_request request queued]> (vs_normal s)) s
            = coalesced_state request index queued s) as ->.
    { unfold coalesced_state.
      assert (req_work_id request ∈ vs_seen_work_ids s).
      { rewrite Hsame. apply (i_queued _ _ _ (wf_ids _ Hwf)).
        by eapply list_elem_of_lookup_2. }
      replace ({[req_work_id request]} ∪ vs_seen_work_ids s)
        with (vs_seen_work_ids s) by set_solver. by destruct s. }
    split; [apply (coalesced_wf request index queued s); auto|by auto].
Qed.

(** The admission of [submit]: one slot, a fresh identity and order. *)
Definition new_entry (request : WorkRequest) (s : ViewportScheduler)
    : QueuedWork :=
  {| qw_request := request; qw_enqueue_order := vs_next_enqueue_order s;
     qw_enqueue_tick := vs_tick s |}.

Definition enqueued_state (request : WorkRequest) (q : QueueSession)
    (s : ViewportScheduler) : ViewportScheduler :=
  set_normal (vs_normal s ++ [new_entry request s])
    (set_next_enqueue_order (vs_next_enqueue_order s + 1)
       (set_sessions
          (<[req_session_id request :=
               {| qs_queued := qs_queued q + 1;
                  qs_last_service_turn := qs_last_service_turn q |}]>
             (vs_sessions s))
          (set_seen_work_ids ({[req_work_id request]} ∪ vs_seen_work_ids s) s))).

(** The session of [request] is open and at the generation of [request]. *)
Definition admissible (request : WorkRequest) (s : ViewportScheduler) : Prop :=
  ta_sessions (vs_terminal s) !! req_session_id request =
    Some {| ts_generation := req_generation request; ts_phase := Open |}.

Lemma no_coalescing_key request s :
  wf s → admissible request s →
  list_find (coalesces request) (vs_normal s) = None →
  coalescing_key (new_entry request s) ∉ coalescing_key <$> vs_normal s.
Proof.
  intros Hwf Hadm Hnone (e&Hkey&He)%list_elem_of_fmap.
  rewrite list_find_None, Forall_forall in Hnone. apply (Hnone e He).
  unfold coalescing_key, qw_session in Hkey. simplify_eq/=.
  pose proof (q_entries _ _ _ _ (wf_queue _ Hwf) e He) as Hent.
  unfold admissible, qw_session in *. split_and!; [done| |done].
  match goal with H : req_session_id request = _ |- _ => rewrite H in Hadm end.
  by simplify_eq.
Qed.

(** What [submit] has checked before it consumes a slot. *)
Record has_room (request : WorkRequest) (q : QueueSession)
    (s : ViewportScheduler) : Prop := {
  room_fresh : req_work_id request ∉ vs_seen_work_ids s;
  room_session : vs_sessions s !! req_session_id request = Some q;
  room_own : qs_queued q ≠ per_session_capacity (vs_limits s);
  room_shared :
    len (vs_normal s) + 1
      + unused_open_reservations s (Some (req_session_id request))
    ≤ normal_capacity (vs_limits s);
  room_order : vs_next_enqueue_order s ≠ u64_max;
  room_history : msize (vs_seen_work_ids s) ≠ max_work_ids_per_epoch (vs_limits s)
}.

Lemma enqueued_wf request q s :
  wf s → admissible request s → has_room request q s →
  list_find (coalesces request) (vs_normal s) = None →
  wf (enqueued_state request q s).
Proof.
  intros Hwf Hadm [Hfresh Hq Hown Hshared Horder Hroom] Hnone.
  pose proof (no_coalescing_key request s Hwf Hadm Hnone) as Hkey.
  wf_split Hwf.
  - by apply queue_push.
  - by apply (ids_push _ _ _ (new_entry request s)).
  - by apply history_grows; [right|].
  - rewrite fmap_app. apply NoDup_app. split; [done|].
    split; [|apply NoDup_singleton].
    intros k Hk ->%list_elem_of_singleton. done.
  - rewrite fmap_app. apply ordered_below_snoc; [lia|done].
  - lia.
  - destruct Hturns as [? Ht]. split; [done|].
    intros j q' [[<- <-]|[_ Hj]]%lookup_insert_Some; simpl; by eapply Ht.
  - destruct Hticks as [? Ht]. split; [done|].
    intros e [He| ->%list_elem_of_singleton]%elem_of_app; [by apply Ht|].
    simpl. lia.
Qed.

Lemma submit_enqueued_spec `{Platform} request adv s s' r :
  wf s → admissible request s →
  list_find (coalesces request) (vs_normal s) = None →
  submit_enqueued request adv s = (s', r) →
  wf s' ∧
  match r with
  | Ok o => ∃ q, has_room request q s ∧ o = Enqueued adv ∧
      s' = enqueued_state request q s
  | Err _ => s' = s
  end.
Proof.
  intros Hwf Hadm Hnone H0. unfold submit_enqueued in H0. minv H0; try done.
  - rewrite bool_decide_eq_false in *.
    match goal with H : reserve_work_id _ _ = _ |- _ =>
      apply reserve_work_id_spec in H as (Hnew&Hroom&->) end.
    match goal with H : _ ≫= _ = Some _ |- _ =>
      apply bind_Some in H as (v&Hv&Hreq) end.
    unfold checked_add in *. repeat case_match; simplify_eq/=.
    minv H0.
    assert (has_room request x s) as Hhas by (split; auto; lia).
    split; [by apply (enqueued_wf request x s)|]. by exists x.
  - match goal with H : reserve_work_id _ _ = _ |- _ =>
      apply reserve_work_id_spec in H end. by subst.
Qed.

(** The state in which [submit] looks for a slot: unchanged when the request is
    of the current generation, otherwise advanced to its generation. *)
Definition advanced_state (request : WorkRequest) (s : ViewportScheduler)
    : ViewportScheduler :=
  (remove_queued_for_session (req_session_id request)
     (replace_terminal_session (req_session_id request)
        {| ts_generation := req_generation request; ts_phase := Open |} s)).1.

Definition generation_settled (request : WorkRequest) (s s1 : ViewportScheduler)
    (adv : option GenerationAdvance) : Prop :=
  match adv with
  | None => s1 = s
  | Some a => adv_current a = req_generation request ∧
      (adv_previous a < adv_current a)%positive ∧
      ta_sessions (vs_terminal s) !! req_session_id request =
        Some {| ts_generation := adv_previous a; ts_phase := Open |} ∧
      adv_superseded_queued a = qw_work_id <$>
        filter (λ e, qw_session e = req_session_id request) (vs_normal s) ∧
      s1 = advanced_state request s
  end.

Inductive submitted (request : WorkRequest) (s s' : ViewportScheduler)
    : SubmitOutcome → Prop :=
| submitted_coalesced adv s1 i queued :
    generation_settled request s s1 adv →
    admissible request s1 →
    list_find (coalesces request) (vs_normal s1) = Some (i, queued) →
    req_work_id request = qw_work_id queued ∨
      req_work_id request ∉ vs_seen_work_ids s →
    s' = coalesced_state request i queued s1 →
    submitted request s s'
      (Coalesced (qw_work_id queued) (req_work_id request) adv)
| submitted_enqueued adv s1 q :
    generation_settled request s s1 adv →
    admissible request s1 →
    list_find (coalesces request) (vs_normal s1) = None →
    has_room request q s1 →
    s' = enqueued_state request q s1 →
    submitted request s s' (Enqueued adv).

Lemma generation_settled_seen request s s1 adv :
  generation_settled request s s1 adv → vs_seen_work_ids s1 = vs_seen_work_ids s.
Proof. destruct adv; simpl; [by intros (_&_&_&_&->)|by intros ->]. Qed.

Lemma settled_submit_spec `{Platform} request s s1 adv s' r :
  wf s1 → generation_settled request s s1 adv → admissible request s1 →
  match list_find (coalesces request) (vs_normal s1) with
  | Some (index, queued) => submit_coalesced request index queued adv
  | None => submit_enqueued request adv
  end s1 = (s', r) →
  wf s' ∧ match r with
          | Ok o => submitted request s s' o
          | Err _ => s' = s1
          end.
Proof.
  intros Hwf Hset Hadm. destruct (list_find _ _) as [[i queued]|] eqn:Hfind.
  - intros H'. pose proof Hfind as (Hi&Hco&_)%list_find_Some.
    apply submit_coalesced_spec in H' as [? Hr]; [|done..]. split; [done|].
    destruct r; [|done]. destruct Hr as (->&Hid&->).
    rewrite (generation_settled_seen _ _ _ _ Hset) in Hid.
    by eapply submitted_coalesced.
  - intros H'. apply submit_enqueued_spec in H' as [? Hr]; [|done..].
    split; [done|]. destruct r; [|done]. destruct Hr as (q&?&->&->).
    by eapply submitted_enqueued.
Qed.

Lemma current_open t id g :
  current_generation t id = Some g → session_phase t id = Some Open →
  ta_sessions t !! id = Some {| ts_generation := g; ts_phase := Open |}.
Proof.
  unfold current_generation, session_phase.
  destruct (ta_sessions t !! id) as [[]|]; simpl; [|done]. congruence.
Qed.

Lemma submit_spec `{Platform} request s s' r :
  wf s → submit request s = (s', r) →
  wf s' ∧ match r with
          | Ok o => submitted request s s' o
          | Err _ => s' = s ∨ ∃ adv, generation_settled request s s' (Some adv)
          end.
Proof.
  intros Hwf H0. unfold submit in H0. minv H0; auto.
  - rewrite bool_decide_eq_false in *.
    match goal with H : ¬ session_phase _ _ ≠ _ |- _ =>
      apply dec_stable in H as Hopen end.
    pose proof (current_open _ _ _ ltac:(eassumption) Hopen) as Ht.
    destruct (x <? req_generation request)%positive eqn:Hlt; minv Hrun.
    + match goal with H : advance_generation _ _ _ = _ |- _ => rename H into Hadv end.
      apply advance_generation_spec in Hadv as [Hwf1 (g0&Ht'&Hg&_&->&->)];
        [|done].
      match type of H0 with context [submit_enqueued _ ?adv] =>
        assert (generation_settled request s (advanced_state request s) adv)
          as Hset by (by split_and!) end.
      eapply settled_submit_spec in H0 as [Hwf' Hr]; [|exact Hwf1|exact Hset|].
      * split; [done|]. destruct r; [done|]. subst. eauto.
      * unfold admissible. simpl. by rewrite lookup_insert_eq.
    + assert (x = req_generation request) as ->.
      { apply Pos.ltb_ge in Hlt.
        match goal with H : (_ <? _)%positive = false |- _ =>
          apply Pos.ltb_ge in H end. by apply Pos.le_antisym. }
      eapply settled_submit_spec in H0 as [Hwf' Hr]; [|exact Hwf|done|done].
      split; [done|]. destruct r; [done|]. by left.
  - destruct (x <? req_generation request)%positive; minv Hrun.
    match goal with H : advance_generation _ _ _ = _ |- _ =>
      apply advance_generation_spec in H as [? ->] end; auto.
Qed.

(** ** Close and shutdown *)

Definition closed_state (id : SessionId) (s : ViewportScheduler)
    : ViewportScheduler :=
  set_critical (vs_next_critical_order s + 1)
    (vs_critical s ++ [(vs_next_critical_order s, InClose id)])
    (remove_queued_for_session id
       (replace_terminal_session id
          {| ts_generation := default 1%positive
               (current_generation (vs_terminal s) id);
             ts_phase := Closing |} s)).1.

Lemma close_session_spec id s s' r :
  wf s → close_session id s = (s', r) →
  wf s' ∧
  match r with
  | Ok receipt =>
      (rcpt_critical receipt = AlreadyPending ∧ s' = s ∧
       session_phase (vs_terminal s) id = Some Closing) ∨
      (rcpt_critical receipt = CriticalEnqueued (vs_next_critical_order s) ∧
       session_phase (vs_terminal s) id = Some Open ∧
       rcpt_superseded_queued receipt =
         qw_work_id <$> filter (λ e, qw_session e = id) (vs_normal s) ∧
       s' = closed_state id s)
  | Err _ => s' = s
  end.
Proof.
  intros Hwf H. unfold close_session in H. minv H; try done.
  destruct x; simpl in H; minv H.
  - match goal with H : enqueue_critical _ _ = _ |- _ =>
      apply enqueue_critical_spec in H as [Hwf1 (->&_&->)]; [|done] end.
    simpl in H.
    destruct (arbiter_begin_close id (vs_terminal s)) as [t' rc] eqn:Hclose.
    apply arbiter_begin_close_spec in Hclose as [_ Hc]; [|by apply Hwf].
    match goal with H : session_phase _ _ = _ |- _ => rename H into Hopen end.
    destruct rc as [[]|]; [| |exfalso].
    + destruct Hc as (t&Ht&_&->). minv H.
      assert (current_generation (vs_terminal s) id = Some (ts_generation t)) as Hg
        by (unfold current_generation; by rewrite Ht).
      unfold closed_state. rewrite Hg. split; [|right; by split_and!].
      exact (drop_wf id (close_terminal_session t) _ Hwf1 Hopen).
    + destruct Hc as [Hc _]. congruence.
    + destruct Hc as [Hnone _]. unfold session_phase in Hopen.
      by rewrite Hnone in Hopen.
  - match goal with H : enqueue_critical _ _ = _ |- _ =>
      by apply enqueue_critical_spec in H as [? ->] end.
  - split; [done|]. by left.
Qed.

Definition shutdown_state (s : ViewportScheduler) : ViewportScheduler :=
  set_sessions (clear_queued <$> vs_sessions s)
    (set_normal []
       (set_terminal (arbiter_begin_shutdown (vs_terminal s)).1
          (set_phase ShuttingDown
             (set_critical (vs_next_critical_order s + 1)
                (vs_critical s ++ [(vs_next_critical_order s, InShutdown)]) s)))).

Lemma queue_shutdown lims t sessions normal :
  queue_wf lims t sessions normal → ta_shutting_down t = false →
  0 < normal_capacity lims → 0 < per_session_capacity lims →
  queue_wf lims (arbiter_begin_shutdown t).1 (clear_queued <$> sessions) [].
Proof.
  intros [Hdom _ _ _ _] Hup Hcap Hper. unfold arbiter_begin_shutdown.
  rewrite Hup. split; simpl; try set_solver.
  - intros id. rewrite !lookup_fmap, !fmap_is_Some. done.
  - intros id q. rewrite lookup_fmap, fmap_Some. by intros (q'&_&->).
  - intros id q. rewrite lookup_fmap, fmap_Some. intros (q'&_&->). simpl. lia.
  - enough (reserved lims
      {| ta_limits := ta_limits t;
         ta_sessions := close_terminal_session <$> ta_sessions t;
         ta_in_flight := ta_in_flight t; ta_shutting_down := true |}
      (clear_queued <$> sessions) = 0) as -> by lia.
    unfold reserved. rewrite <-(Z.mul_0_l (msize (clear_queued <$> sessions))).
    rewrite <-map_sum_const. apply map_sum_ext. intros id q _.
    unfold unused_reservation, session_phase. simpl. rewrite lookup_fmap.
    destruct (ta_sessions t !! id); simpl; repeat case_bool_decide; done.
Qed.

Lemma begin_shutdown_spec s s' r :
  wf s → begin_shutdown s = (s', r) →
  wf s' ∧
  match r with
  | Ok receipt =>
      (rcpt_critical receipt = AlreadyPending ∧ s' = s ∧ vs_phase s ≠ Running) ∨
      (rcpt_critical receipt = CriticalEnqueued (vs_next_critical_order s) ∧
       vs_phase s = Running ∧
       rcpt_superseded_queued receipt = qw_work_id <$> vs_normal s ∧
       s' = shutdown_state s)
  | Err _ => s' = s
  end.
Proof.
  intros Hwf H. unfold begin_shutdown in H. minv H.
  case_bool_decide as Hrunning; minv H.
  - split; [done|]. by left.
  - match goal with H : enqueue_critical _ _ = _ |- _ =>
      apply enqueue_critical_spec in H as [Hwf1 (->&_&->)]; [|done] end.
    split; [|right; by split_and!].
    pose proof (proj1 (wf_running _ Hwf) Hrunning) as Hup.
    assert (ta_limits (arbiter_begin_shutdown (vs_terminal s)).1
            = ta_limits (vs_terminal s) ∧
            ta_shutting_down (arbiter_begin_shutdown (vs_terminal s)).1 = true ∧
            ta_in_flight (arbiter_begin_shutdown (vs_terminal s)).1
            = ta_in_flight (vs_terminal s)) as (Hl&Hd&Hf)
      by (unfold arbiter_begin_shutdown; by rewrite Hup).
    wf_split Hwf1.
    + by apply arbiter_begin_shutdown_wf.
    + by rewrite Hl.
    + by rewrite Hd.
    + eapply queue_shutdown; [done|done|apply Hlim|].
      pose proof (lim_reservation _ Hlim) as Hr. simpl in Hr. lia.
    + rewrite Hf. destruct Hids as [_ _ Hin]. split; [apply NoDup_nil_2|set_solver|done].
    + apply NoDup_nil_2.
    + apply ordered_below_nil.
    + destruct Hturns as [? Ht]. split; [done|]. intros id q.
      rewrite lookup_fmap, fmap_Some. intros (q'&Hq&->). simpl. by eapply Ht.
    + destruct Hticks. split; [done|set_solver].
  - match goal with H : enqueue_critical _ _ = _ |- _ =>
      by apply enqueue_critical_spec in H as [? ->] end.
Qed.
