(* ===== verification/SchedulerDispatch.v ===== *)
(** * Dispatch, and executions of the scheduler

    The lexicographic order of scheduling keys, the selection loop against its
    specification (the least key among the admitted entries), and the effect of one
    [dispatch_next] on a well-formed scheduler. The public operations as labels, runs
    of operation sequences, the states a configured scheduler can reach, and the
    invariants of a whole run: the ledger of dispatched and resolved work, the order
    of critical events, the service potential. *)

From stdpp Require Import base gmap list numbers option sorting.
From S2P Require Import Prelude.
From S2P Require Import SchedulerTypes.
From S2P Require Import Arbiter.
From S2P Require Import Scheduler.
From S2P Require Import SchedulerInv.
From S2P Require Import SchedulerSteps.

(** ** The order of scheduling keys *)

Lemma lex_ltb_irrefl (xs : list Z) : lex_ltb xs xs = false.
Proof. induction xs as [|x xs IH]; simpl; [done|]. rewrite IH. lia. Qed.

Lemma lex_ltb_trans (xs ys zs : list Z) :
  lex_ltb xs ys = true → lex_ltb ys zs = true → lex_ltb xs zs = true.
Proof.
  revert ys zs. induction xs as [|x xs IH]; intros [|y ys] [|z zs]; simpl; try done.
  intros H1 H2. apply orb_true_iff in H1, H2. apply orb_true_iff.
  rewrite !andb_true_iff in *.
  destruct H1 as [H1|[E1 H1]], H2 as [H2|[E2 H2]]; [left; lia..|].
  right. split; [lia|by eapply IH].
Qed.

Lemma lex_ltb_total (xs ys : list Z) :
  length xs = length ys → lex_ltb xs ys = false → lex_ltb ys xs = false →
  xs = ys.
Proof.
  revert ys. induction xs as [|x xs IH]; intros [|y ys]; simpl; try done.
  intros [= Hlen] H1 H2. apply orb_false_iff in H1 as [A1 B1], H2 as [A2 B2].
  assert (x = y) as -> by lia. rewrite Z.eqb_refl in B1, B2. f_equal. auto.
Qed.

Lemma SchedulingKey_fields_inj a b :
  SchedulingKey_fields a = SchedulingKey_fields b → a = b.
Proof. destruct a, b. by intros [= -> -> -> -> -> -> -> -> -> ->]. Qed.

#[global] Instance SchedulingKey_ltb_strict :
  StrictOrder (λ a b, SchedulingKey_ltb a b = true).
Proof.
  split.
  - intros a. unfold complement, SchedulingKey_ltb. by rewrite lex_ltb_irrefl.
  - intros a b c. apply lex_ltb_trans.
Qed.

Lemma SchedulingKey_ltb_total a b :
  a ≠ b → SchedulingKey_ltb a b = false → SchedulingKey_ltb b a = true.
Proof.
  intros Hne Hab. destruct (SchedulingKey_ltb b a) eqn:Hba; [done|].
  destruct Hne. apply SchedulingKey_fields_inj. by apply lex_ltb_total.
Qed.

(** ** The selection loop *)

Definition admitted (s : ViewportScheduler) (limit : Z) (e : QueuedWork) : Prop :=
  ∃ q, vs_sessions s !! qw_session e = Some q ∧ qs_last_service_turn q < limit.

(** [sel] is the least admitted key of [l], the first of them on a tie. *)
Definition best (s : ViewportScheduler) (limit : Z) (l : list QueuedWork)
    (sel : option (nat * SchedulingKey * Z)) : Prop :=
  match sel with
  | None => ∀ e, e ∈ l → ¬ admitted s limit e
  | Some (i, k, t) => ∃ e q,
      l !! i = Some e ∧ vs_sessions s !! qw_session e = Some q ∧
      t = qs_last_service_turn q ∧ t < limit ∧ k = entry_key s e ∧
      ∀ j e', l !! j = Some e' → admitted s limit e' →
        SchedulingKey_ltb (entry_key s e') k = false
  end.

Lemma best_snoc_skip s limit l e sel :
  ¬ admitted s limit e → best s limit l sel → best s limit (l ++ [e]) sel.
Proof.
  intros Hne. destruct sel as [[[i k] t]|]; simpl.
  - intros (e0&q&Hi&Hq&Ht&Hlt&Hk&Hmin). exists e0, q. split_and!; try done.
    + rewrite lookup_app_l; [done|]. by eapply lookup_lt_Some.
    + intros j e' [Hj|(?&Hj)]%lookup_app_Some Hadm; [by eapply Hmin|].
      apply list_lookup_singleton_Some in Hj as [_ <-]. done.
  - intros Hnone e' [He'| ->%list_elem_of_singleton]%elem_of_app; [by apply Hnone|done].
Qed.

Lemma best_snoc_take s limit l e q sel :
  vs_sessions s !! qw_session e = Some q → qs_last_service_turn q < limit →
  best s limit l sel →
  best s limit (l ++ [e])
    (if match sel with
        | None => true
        | Some (_, k, _) => SchedulingKey_ltb (entry_key s e) k
        end
     then Some (length l, entry_key s e, qs_last_service_turn q) else sel).
Proof.
  intros Hq Hlt. destruct sel as [[[i k] t]|]; simpl.
  - intros (e0&q0&Hi&Hq0&Ht&Hlt0&Hk&Hmin).
    destruct (SchedulingKey_ltb (entry_key s e) k) eqn:Hcmp.
    + exists e, q. split_and!; try done.
      { by rewrite lookup_app_r, Nat.sub_diag. }
      intros j e' [Hj|(?&Hj)]%lookup_app_Some Hadm.
      * specialize (Hmin _ _ Hj Hadm).
        destruct (SchedulingKey_ltb (entry_key s e') (entry_key s e)) eqn:Hcmp';
          [|done].
        pose proof (lex_ltb_trans _ _ _ Hcmp' Hcmp). unfold SchedulingKey_ltb in *.
        congruence.
      * apply list_lookup_singleton_Some in Hj as [_ <-]. apply lex_ltb_irrefl.
    + exists e0, q0. split_and!; try done.
      { rewrite lookup_app_l; [done|]. by eapply lookup_lt_Some. }
      intros j e' [Hj|(?&Hj)]%lookup_app_Some Hadm; [by eapply Hmin|].
      apply list_lookup_singleton_Some in Hj as [_ <-]. done.
  - intros Hnone. exists e, q. split_and!; try done.
    { by rewrite lookup_app_r, Nat.sub_diag. }
    intros j e' [Hj|(?&Hj)]%lookup_app_Some Hadm.
    + by destruct (Hnone e' (list_elem_of_lookup_2 _ _ _ Hj)).
    + apply list_lookup_singleton_Some in Hj as [_ <-]. apply lex_ltb_irrefl.
Qed.

Lemma select_loop_best s limit pre entries sel :
  (∀ e, e ∈ entries → is_Some (vs_sessions s !! qw_session e)) →
  best s limit pre sel →
  ∃ sel', select_loop s limit (length pre) entries sel = Ok sel' ∧
          best s limit (pre ++ entries) sel'.
Proof.
  revert pre sel. induction entries as [|e entries IH]; intros pre sel Hreg Hbest.
  - exists sel. by rewrite app_nil_r.
  - destruct (Hreg e ltac:(left)) as [q Hq]. simpl. rewrite Hq.
    assert (∀ e', e' ∈ entries → is_Some (vs_sessions s !! qw_session e'))
      as Hreg' by (intros; apply Hreg; by right).
    replace (S (length pre)) with (length (pre ++ [e]))
      by (rewrite length_app; simpl; lia).
    replace (pre ++ e :: entries) with ((pre ++ [e]) ++ entries)
      by (by rewrite <-app_assoc).
    destruct (limit <=? qs_last_service_turn q) eqn:Hlim.
    + apply IH; [done|]. apply best_snoc_skip; [|done].
      intros (q'&Hq'&?). simplify_eq. lia.
    + apply IH; [done|]. apply (best_snoc_take s limit pre e q sel); [done|lia|done].
Qed.

(** [Iterator::min]. *)
Lemma iter_min_Some (l : list Z) (m : Z) :
  iter_min l = Some m → m ∈ l ∧ ∀ x, x ∈ l → m ≤ x.
Proof.
  destruct l as [|y l]; [done|]. intros [= <-].
  induction l as [|z l IH]; simpl.
  - split; [by left|]. intros x ->%list_elem_of_singleton. lia.
  - destruct IH as [Hin Hle]. split.
    + destruct (Z.min_spec z (foldr Z.min y l)) as [[_ ->]|[_ ->]];
        [right; by left|].
      apply elem_of_cons in Hin as [->|Hin]; [by left|by do 2 right].
    + intros x [->|[->|Hx]%elem_of_cons]%elem_of_cons.
      * specialize (Hle y ltac:(left)). lia.
      * lia.
      * specialize (Hle x ltac:(by right)). lia.
Qed.

Lemma iter_min_None (l : list Z) : iter_min l = None → l = [].
Proof. by destruct l. Qed.

(** ** Critical arbitration *)

(** The terminal decision a dispatched critical event carries. *)
Definition decision_of (d : CriticalDispatch) : option TerminalDecision :=
  match d with
  | OutCancel d | OutFailure d | OutCompletion d => Some d
  | OutClose _ | OutRelease _ _ | OutShutdown => None
  end.

(** The identity a dispatched critical event makes terminal. *)
Definition resolved_by (d : CriticalDispatch) : option WorkId :=
  d' ← decision_of d; resolves d'.

Lemma dispatch_critical_spec event a a' d :
  arbiter_wf a → dispatch_critical event a = (a', d) →
  match resolved_by d with
  | Some w => (∃ sig, ta_in_flight a !! w = Some sig) ∧ a' = remove_in_flight w a
  | None => a' = a
  end.
Proof.
  intros Hwf. unfold dispatch_critical.
  destruct event as [sig|id|id r|sig|sig r|]; try (intros [= <- <-]; done).
  - destruct (arbiter_cancel sig a) as [a1 d1] eqn:Hrun. intros [= <- <-].
    apply finish_without_resource_spec in Hrun. unfold resolved_by; simpl.
    destruct (resolves d1); naive_solver.
  - destruct (arbiter_fail sig a) as [a1 d1] eqn:Hrun. intros [= <- <-].
    apply finish_without_resource_spec in Hrun. unfold resolved_by; simpl.
    destruct (resolves d1); naive_solver.
  - destruct (arbiter_complete sig r a) as [a1 d1] eqn:Hrun. intros [= <- <-].
    apply arbiter_complete_spec in Hrun; [|done]. unfold resolved_by; simpl.
    destruct (resolves d1); naive_solver.
Qed.

(** Popping the head of the critical FIFO. *)
Definition popped_state (rest : list (Z * CriticalIngress))
    (a : TerminalArbiter) (s : ViewportScheduler) : ViewportScheduler :=
  set_terminal a (set_critical (vs_next_critical_order s) rest s).

Lemma queue_same_sessions lims t t' sessions normal :
  ta_sessions t' = ta_sessions t →
  queue_wf lims t sessions normal → queue_wf lims t' sessions normal.
Proof.
  intros Ht [Hdom Hent Hq Hsc Hcap]. split; try done.
  - intros id. by rewrite Ht.
  - intros e. rewrite Ht. auto.
  - rewrite (reserved_ext lims t' t); [done|].
    intros id _. unfold session_phase. by rewrite Ht.
Qed.

Lemma popped_wf event order rest a d s :
  wf s → vs_critical s = (order, event) :: rest →
  dispatch_critical event (vs_terminal s) = (a, d) →
  wf (popped_state rest a s).
Proof.
  intros Hwf Hc Hd. pose proof (dispatch_critical_spec _ _ _ _ (wf_arbiter _ Hwf) Hd).
  assert (rest `sublist_of` vs_critical s) as Hsub
    by (rewrite Hc; by apply sublist_cons).
  assert (vs_phase s ≠ Terminated) as Hlive.
  { intros Hp. destruct (wf_terminated _ Hwf Hp) as [Hnil _]. congruence. }
  assert (arbiter_wf a ∧ ta_limits a = ta_limits (vs_terminal s) ∧
          ta_shutting_down a = ta_shutting_down (vs_terminal s) ∧
          ta_sessions a = ta_sessions (vs_terminal s) ∧
          ids_wf (vs_seen_work_ids s) (vs_normal s) (ta_in_flight a))
    as (Ha&Hl&Hs&Hse&Hi).
  { pose proof (wf_arbiter _ Hwf). pose proof (wf_ids _ Hwf).
    destruct (resolved_by d) as [w|]; [|by subst].
    destruct H as [_ ->]. split_and!; try done.
    - by apply remove_in_flight_wf.
    - by apply ids_remove_in_flight. }
  wf_split Hwf.
  - by rewrite Hl.
  - by rewrite Hs.
  - by eapply queue_same_sessions.
  - rewrite Hc in Hcrit. simpl in Hcrit. lia.
  - eapply ordered_below_sublist; [|done]. by apply fmap_sublist.
Qed.

(** ** Normal dispatch *)

(** The effect of dispatching entry [i]. *)
Definition dispatched_state (i : nat) (e : QueuedWork) (q : QueueSession)
    (s : ViewportScheduler) : ViewportScheduler :=
  set_next_service_turn (vs_next_service_turn s + 1)
    (set_sessions
       (<[qw_session e := {| qs_queued := qs_queued q - 1;
                             qs_last_service_turn := vs_next_service_turn s |}]>
          (vs_sessions s))
       (set_normal (delete i (vs_normal s))
          (set_terminal
             (set_ta_in_flight
                (<[qw_work_id e := signal_of_request (qw_request e)]>
                   (ta_in_flight (vs_terminal s))) (vs_terminal s)) s))).

(** The smallest service turn among the backlogged sessions. *)
Definition least_turn (s : ViewportScheduler) (m : Z) : Prop :=
  (∃ e q, e ∈ vs_normal s ∧ vs_sessions s !! qw_session e = Some q ∧
     qs_last_service_turn q = m) ∧
  ∀ e q, e ∈ vs_normal s → vs_sessions s !! qw_session e = Some q →
    m ≤ qs_last_service_turn q.

(** What one normal dispatch selects and does. *)
Record dispatches (s : ViewportScheduler) (w : ScheduledWork)
    (s' : ViewportScheduler) (i : nat) (e : QueuedWork) (q : QueueSession)
    (m : Z) : Prop := {
  d_entry : vs_normal s !! i = Some e;
  d_session : vs_sessions s !! qw_session e = Some q;
  d_least : least_turn s m;
  d_limit : m + fairness_burst (vs_limits s) ≤ u64_max;
  d_admitted : qs_last_service_turn q < m + fairness_burst (vs_limits s);
  d_work : w =
    {| sw_request := qw_request e;
       sw_scheduling_key := entry_key s e;
       sw_fairness := {| minimum_last_service_turn := m;
                         session_last_service_turn := qs_last_service_turn q;
                         exclusive_turn_limit := m + fairness_burst (vs_limits s) |} |};
  d_best : ∀ j e', vs_normal s !! j = Some e' →
    admitted s (m + fairness_burst (vs_limits s)) e' →
    SchedulingKey_ltb (entry_key s e') (entry_key s e) = false;
  d_turn : vs_next_service_turn s ≠ u64_max;
  d_state : s' = dispatched_state i e q s
}.

Lemma queued_session s e :
  wf s → e ∈ vs_normal s → ∃ q, vs_sessions s !! qw_session e = Some q.
Proof.
  intros Hwf He. apply (sessions_dom s (qw_session e) Hwf).
  rewrite (q_entries _ _ _ _ (wf_queue _ Hwf) e He). by eexists.
Qed.

Lemma last_service_turns_elem s x :
  x ∈ last_service_turns s ↔
  ∃ e q, e ∈ vs_normal s ∧ vs_sessions s !! qw_session e = Some q ∧
    qs_last_service_turn q = x.
Proof.
  unfold last_service_turns. rewrite list_elem_of_omap. split.
  - intros (e&He&(q&Hq&->)%fmap_Some). eauto.
  - intros (e&q&He&Hq&<-). exists e. by rewrite Hq.
Qed.

Lemma iter_min_least s m :
  iter_min (last_service_turns s) = Some m → least_turn s m.
Proof.
  intros [Hin Hle]%iter_min_Some. split.
  - by apply last_service_turns_elem.
  - intros e q He Hq. apply Hle, last_service_turns_elem. eauto.
Qed.

Lemma iter_min_backlog s :
  wf s → vs_normal s ≠ [] → is_Some (iter_min (last_service_turns s)).
Proof.
  intros Hwf Hne. destruct (iter_min _) eqn:Hm; [by eexists|].
  apply iter_min_None in Hm. destruct (vs_normal s) as [|e l] eqn:Hn; [done|].
  destruct (queued_session s e Hwf) as [q Hq]; [rewrite Hn; left|].
  assert (qs_last_service_turn q ∈ last_service_turns s) as Hin.
  { apply last_service_turns_elem. exists e, q. split_and!; [|done..].
    rewrite Hn. left. }
  rewrite Hm in Hin. by apply not_elem_of_nil in Hin.
Qed.

Lemma dispatched_wf s w s' i e q m :
  wf s → in_flight_len (vs_terminal s) ≠ in_flight_capacity (vs_limits s) →
  dispatches s w s' i e q m → wf s'.
Proof.
  intros Hwf Hroom [Hi Hq _ _ _ _ _ Hturn ->].
  assert (e ∈ vs_normal s) as He by (by eapply list_elem_of_lookup_2).
  pose proof (wf_arbiter _ Hwf) as [Hk Hs Hm Hf Hd].
  destruct (i_queued _ _ _ (wf_ids _ Hwf) e He) as [Hseen Hnot].
  pose proof (q_entries _ _ _ _ (wf_queue _ Hwf) e He) as Hopen.
  assert (delete i (vs_normal s) `sublist_of` vs_normal s) as Hsub
    by apply sublist_delete.
  pose proof (wf_arbiter_limits _ Hwf) as Hlims.
  wf_split Hwf.
  - split; simpl; try done.
    + intros w' sig [[<- <-]|[? Hw]]%lookup_insert_Some; [done|eauto].
    + intros w' sig [[<- <-]|[? Hw]]%lookup_insert_Some; [|eauto].
      unfold qw_session in Hopen. simpl. rewrite Hopen. by eexists.
    + unfold in_flight_len in *. simpl. rewrite msize_insert_fresh by done.
      rewrite Hlims in Hf |- *. simpl in *. lia.
  - intros Hp. destruct (Hterm Hp) as [? _]. split; [done|].
    pose proof (Hrun) as Hr. rewrite Hp in Hr.
    destruct (ta_shutting_down (vs_terminal s)) eqn:Hdown;
      [|by specialize (proj2 Hr eq_refl)].
    by pose proof (Hd eq_refl _ _ Hopen).
  - by eapply queue_take.
  - by eapply ids_take.
  - eapply sublist_NoDup; [done|]. by apply fmap_sublist.
  - eapply ordered_below_sublist; [|done]. by apply fmap_sublist.
  - destruct Hturns as [Hb Ht]. split; [lia|]. intros j qj.
    intros [[<- <-]|[_ Hj]]%lookup_insert_Some; simpl; [lia|].
    specialize (Ht _ _ Hj). lia.
  - destruct Hticks as [Hb Ht]. split; [done|]. intros e' He'.
    apply Ht. by eapply elem_of_sublist.
Qed.

Lemma arbiter_start_ok work a :
  ta_shutting_down a = false →
  ta_sessions a !! req_session_id (sw_request work) =
    Some {| ts_generation := req_generation (sw_request work); ts_phase := Open |} →
  ta_in_flight a !! req_work_id (sw_request work) = None →
  msize (ta_in_flight a) ≠ tal_max_in_flight (ta_limits a) →
  arbiter_start work a =
    (set_ta_in_flight
       (<[req_work_id (sw_request work) := signal_of_request (sw_request work)]>
          (ta_in_flight a)) a, Ok tt).
Proof.
  intros Hup Hopen Hnew Hroom. unfold arbiter_start.
  erewrite bind_ok by reflexivity. rewrite Hup.
  erewrite bind_ok by reflexivity. cbv zeta. rewrite Hopen, Hnew.
  erewrite bind_ok by reflexivity. simpl. rewrite Pos.eqb_refl.
  do 3 (erewrite bind_ok by reflexivity).
  rewrite (proj2 (Z.eqb_neq _ _) Hroom). done.
Qed.

(** The least recently served backlogged session is always admitted. *)
Lemma least_turn_admitted s m sel :
  wf s → least_turn s m →
  best s (m + fairness_burst (vs_limits s)) (vs_normal s) sel → sel ≠ None.
Proof.
  intros Hwf [(e&q&He&Hq&Hm) _] Hbest ->. apply (Hbest e He). exists q.
  pose proof (lim_burst _ (wf_limits _ Hwf)). split; [done|lia].
Qed.

Lemma queued_positive s i e q :
  wf s → vs_normal s !! i = Some e → vs_sessions s !! qw_session e = Some q →
  1 ≤ qs_queued q.
Proof.
  intros Hwf Hi Hq. rewrite (q_queued _ _ _ _ (wf_queue _ Hwf) _ _ Hq).
  rewrite (session_count_perm _ _ _ (delete_Permutation _ _ _ Hi)).
  rewrite session_count_cons, bool_decide_eq_true_2 by done.
  pose proof (session_count_nonneg (qw_session e) (delete i (vs_normal s))). lia.
Qed.

(** The part of [dispatch_normal] after the selection cannot fail. *)
Lemma dispatch_selected_ok s i e q key fairness :
  wf s → vs_phase s = Running → vs_normal s !! i = Some e →
  vs_sessions s !! qw_session e = Some q →
  in_flight_len (vs_terminal s) ≠ in_flight_capacity (vs_limits s) →
  let work := {| sw_request := qw_request e; sw_scheduling_key := key;
                 sw_fairness := fairness |} in
  dispatch_selected i e work s = (dispatched_state i e q s, Ok work).
Proof.
  intros Hwf Hp Hi Hq Hroom work. unfold dispatch_selected.
  assert (e ∈ vs_normal s) as He by (by eapply list_elem_of_lookup_2).
  pose proof (queued_positive s i e q Hwf Hi Hq).
  erewrite bind_ok.
  2:{ unfold zoom. rewrite arbiter_start_ok; [reflexivity|..]; simpl.
      - by apply (wf_running _ Hwf).
      - by apply (q_entries _ _ _ _ (wf_queue _ Hwf)).
      - by apply (i_queued _ _ _ (wf_ids _ Hwf)).
      - by rewrite (wf_arbiter_limits _ Hwf). }
  do 2 (erewrite bind_ok by reflexivity).
  erewrite bind_ok by (simpl; rewrite Hq; reflexivity).
  erewrite bind_ok.
  2:{ unfold checked_sub. replace (1 <=? qs_queued q) with true by lia.
      reflexivity. }
  done.
Qed.

(** [dispatch_normal] never reports a broken invariant: it dispatches, or a
    64-bit counter is exhausted and nothing changes. *)
Lemma dispatch_normal_spec s s' r :
  wf s → vs_phase s = Running → vs_normal s ≠ [] →
  in_flight_len (vs_terminal s) ≠ in_flight_capacity (vs_limits s) →
  dispatch_normal s = (s', r) →
  match r with
  | Ok w => ∃ i e q m, dispatches s w s' i e q m
  | Err CounterExhausted => s' = s ∧
      (vs_next_service_turn s = u64_max ∨
       ∃ m, least_turn s m ∧ u64_max < m + fairness_burst (vs_limits s))
  | Err InvariantViolation => False
  end.
Proof.
  intros Hwf Hp Hne Hroom H. unfold dispatch_normal in H.
  destruct (iter_min_backlog s Hwf Hne) as [m Hm].
  pose proof (iter_min_least s m Hm) as Hleast.
  erewrite bind_ok in H by reflexivity.
  erewrite bind_ok in H by (rewrite Hm; reflexivity).
  destruct (m + fairness_burst (vs_limits s) <=? u64_max) eqn:Hfit;
    unfold checked_add in H; rewrite Hfit in H.
  2:{ minv H. split; [done|]. right. exists m. split; [done|lia]. }
  erewrite bind_ok in H by reflexivity.
  destruct (vs_next_service_turn s =? u64_max) eqn:Hturn;
    [minv H; split; [done|left; lia]|].
  erewrite bind_ok in H by reflexivity.
  destruct (select_loop_best s (m + fairness_burst (vs_limits s)) [] (vs_normal s) None)
    as (sel&Hsel&Hbest).
  { intros e He. destruct (queued_session s e Hwf He). by eexists. }
  { simpl. by intros ? ?%not_elem_of_nil. }
  simpl in Hsel, Hbest.
  erewrite bind_ok in H by (unfold of_result; rewrite Hsel; reflexivity).
  destruct sel as [[[i k] t]|]; [|by destruct (least_turn_admitted s m None)].
  destruct Hbest as (e&q&Hi&Hq&->&Hlt&->&Hmin).
  erewrite bind_ok in H by reflexivity. cbv beta iota in H.
  erewrite bind_ok in H by (rewrite Hi; reflexivity).
  cbv zeta in H. rewrite (dispatch_selected_ok s i e q) in H by done.
  simplify_eq. exists i, e, q, m. split; try done; lia.
Qed.

(** ** [dispatch_next] *)

Inductive dispatched (s s' : ViewportScheduler)
    : result SchedulerError (option SchedulerDispatch) → Prop :=
| dispatched_critical order event rest a d :
    vs_critical s = (order, event) :: rest →
    dispatch_critical event (vs_terminal s) = (a, d) →
    s' = popped_state rest a s →
    dispatched s s' (Ok (Some (DispatchCritical d)))
| dispatched_idle :
    vs_critical s = [] →
    vs_phase s ≠ Running ∨ vs_normal s = [] ∨
      in_flight_len (vs_terminal s) = in_flight_capacity (vs_limits s) →
    s' = s →
    dispatched s s' (Ok None)
| dispatched_normal i e q m w :
    vs_critical s = [] → vs_phase s = Running →
    in_flight_len (vs_terminal s) ≠ in_flight_capacity (vs_limits s) →
    dispatches s w s' i e q m →
    dispatched s s' (Ok (Some (DispatchNormal w)))
| dispatched_exhausted :
    vs_critical s = [] →
    vs_next_service_turn s = u64_max ∨
      (∃ m, least_turn s m ∧ u64_max < m + fairness_burst (vs_limits s)) →
    s' = s →
    dispatched s s' (Err CounterExhausted).

Lemma dispatch_next_spec s s' r :
  wf s → dispatch_next s = (s', r) → wf s' ∧ dispatched s s' r.
Proof.
  intros Hwf H. unfold dispatch_next in H. minv H.
  destruct (vs_critical s) as [|[order event] rest] eqn:Hc.
  - destruct (_ || _) eqn:Hidle; minv H.
    + split; [done|]. apply dispatched_idle; [done| |done].
      apply orb_true_iff in Hidle as [[Hp|Hf]%orb_true_iff|Hn].
      * left. by apply bool_decide_eq_true in Hp.
      * right; right. by apply Z.eqb_eq.
      * right; left. by apply bool_decide_eq_true in Hn.
    + apply orb_false_iff in Hidle as [[Hp Hf]%orb_false_iff Hn].
      rewrite bool_decide_eq_false in Hp, Hn. apply dec_stable in Hp.
      apply Z.eqb_neq in Hf.
      apply dispatch_normal_spec in Hrun as (i&e&q&m&Hd); [|done..].
      split; [by eapply dispatched_wf|by eapply dispatched_normal].
    + apply orb_false_iff in Hidle as [[Hp Hf]%orb_false_iff Hn].
      rewrite bool_decide_eq_false in Hp, Hn. apply dec_stable in Hp.
      apply Z.eqb_neq in Hf.
      apply dispatch_normal_spec in Hrun; [|done..].
      destruct e; [|done]. destruct Hrun as [-> ?].
      split; [done|by apply dispatched_exhausted].
  - destruct (dispatch_critical event (vs_terminal s)) as [a d] eqn:Hd.
    minv H. split.
    + by eapply (popped_wf event).
    + by eapply dispatched_critical.
Qed.

(** ** [try_finish_shutdown] *)

Lemma try_finish_shutdown_spec s s' b :
  wf s → try_finish_shutdown s = (s', b) →
  wf s' ∧
  (b = true ↔ vs_phase s = ShuttingDown ∧ vs_critical s = [] ∧
     ta_in_flight (vs_terminal s) = ∅) ∧
  s' = (if b then set_phase Terminated s else s).
Proof.
  intros Hwf H. unfold try_finish_shutdown in H.
  assert (in_flight_len (vs_terminal s) = 0 ↔ ta_in_flight (vs_terminal s) = ∅)
    as Hzero.
  { unfold in_flight_len. rewrite <-map_size_empty_iff. lia. }
  destruct (bool_decide (vs_phase s = ShuttingDown)) eqn:Hp;
    [apply bool_decide_eq_true in Hp|apply bool_decide_eq_false in Hp];
    simpl in H; [|simplify_eq; naive_solver].
  rewrite (bool_decide_eq_true_2 (vs_normal s = [])) in H
    by (apply wf_normal_running; [done|congruence]).
  destruct (bool_decide (vs_critical s = [])) eqn:Hc;
    [apply bool_decide_eq_true in Hc|apply bool_decide_eq_false in Hc];
    simpl in H; [|simplify_eq; naive_solver].
  destruct (in_flight_len (vs_terminal s) =? 0) eqn:Hf; simplify_eq.
  - apply Z.eqb_eq, Hzero in Hf. split; [|naive_solver].
    wf_split Hwf. split; [done|]. intros Hup. apply Hrun in Hup. congruence.
  - apply Z.eqb_neq in Hf. naive_solver.
Qed.

(** ** Operations and observations *)

Inductive Operation :=
| OpRegister (id : SessionId) (generation : Generation)
| OpTick (delta : N)
| OpAdvance (id : SessionId) (generation : Generation)
| OpSubmit (request : WorkRequest)
| OpCritical (event : CriticalIngress)
| OpClose (id : SessionId)
| OpShutdown
| OpDispatch
| OpFinish.

(** What a run shows: critical events accepted, and dispatches. *)
Inductive Observation :=
| Accepted (event : CriticalIngress)
| Dispatched (d : SchedulerDispatch).

Definition accepted_critical (event : CriticalIngress) (a : CriticalAdmission)
    : list Observation :=
  match a with CriticalEnqueued _ => [Accepted event] | AlreadyPending => [] end.

Section runs.
Context `{Platform}.

(** One public call. [OpCritical] is one of [enqueue_cancel],
    [enqueue_release], [enqueue_failure], [enqueue_completion]. *)
Definition step (o : Operation) (s : ViewportScheduler)
    : ViewportScheduler * list Observation :=
  match o with
  | OpRegister id g => ((register_session id g s).1, [])
  | OpTick delta => ((advance_tick (Z.of_N delta) s).1, [])
  | OpAdvance id g => ((advance_generation id g s).1, [])
  | OpSubmit request => ((submit request s).1, [])
  | OpCritical event =>
      match event with
      | InClose _ | InShutdown => (s, [])
      | _ => let '(s', r) := enqueue_critical event s in
          (s', match r with Ok a => accepted_critical event a | Err _ => [] end)
      end
  | OpClose id =>
      let '(s', r) := close_session id s in
      (s', match r with
           | Ok rc => accepted_critical (InClose id) (rcpt_critical rc)
           | Err _ => []
           end)
  | OpShutdown =>
      let '(s', r) := begin_shutdown s in
      (s', match r with
           | Ok rc => accepted_critical InShutdown (rcpt_critical rc)
           | Err _ => []
           end)
  | OpDispatch =>
      let '(s', r) := dispatch_next s in
      (s', match r with Ok (Some d) => [Dispatched d] | _ => [] end)
  | OpFinish => ((try_finish_shutdown s).1, [])
  end.

Fixpoint run (ops : list Operation) (s : ViewportScheduler)
    : ViewportScheduler * list Observation :=
  match ops with
  | [] => (s, [])
  | o :: ops =>
      let '(s1, log) := step o s in
      let '(s2, log') := run ops s1 in
      (s2, log ++ log')
  end.

(** The states a run goes through, the first one included. *)
Fixpoint visited (ops : list Operation) (s : ViewportScheduler)
    : list ViewportScheduler :=
  s :: match ops with [] => [] | o :: ops => visited ops (step o s).1 end.

(** A configured scheduler: its limits are those [SchedulerLimits::new]
    accepts (see [SchedulerLimits_new_spec]). *)
Record configured (l : SchedulerLimits) : Prop := {
  cfg_limits : limits_ok l;
  cfg_width : normal_capacity l + in_flight_capacity l ≤ usize_max
}.

(** State and log of a run from the initial state. *)
Definition run_state (l : SchedulerLimits) (ops : list Operation)
    : ViewportScheduler := (run ops (ViewportScheduler_new l)).1.
Definition run_log (l : SchedulerLimits) (ops : list Operation)
    : list Observation := (run ops (ViewportScheduler_new l)).2.

Definition reachable (s : ViewportScheduler) : Prop :=
  ∃ l ops, configured l ∧ s = run_state l ops.

End runs.

(** ** The transition relation

    What the operations do, one atomic change at a time: [submit] is at most a
    generation change followed by a replacement or an admission. *)

Inductive transition (s : ViewportScheduler)
    : ViewportScheduler → list Observation → Prop :=
| t_register id g :
    vs_sessions s !! id = None →
    msize (vs_sessions s) < max_sessions (vs_limits s) →
    transition s
      (set_sessions
         (<[id := {| qs_queued := 0; qs_last_service_turn := 0 |}]>
            (vs_sessions s))
         (replace_terminal_session id
            {| ts_generation := g; ts_phase := Open |} s)) []
| t_tick delta : transition s (set_tick (vs_tick s + delta) s) []
| t_advance id g0 g :
    ta_sessions (vs_terminal s) !! id =
      Some {| ts_generation := g0; ts_phase := Open |} →
    (g0 < g)%positive →
    transition s
      (remove_queued_for_session id
         (replace_terminal_session id
            {| ts_generation := g; ts_phase := Open |} s)).1 []
| t_coalesce request i queued :
    admissible request s →
    vs_normal s !! i = Some queued → coalesces request queued →
    req_work_id request = qw_work_id queued ∨
      req_work_id request ∉ vs_seen_work_ids s →
    transition s (coalesced_state request i queued s) []
| t_enqueue request q :
    admissible request s → has_room request q s →
    transition s (enqueued_state request q s) []
| t_accept event :
    vs_phase s ≠ Terminated →
    transition s
      (set_critical (vs_next_critical_order s + 1)
         (vs_critical s ++ [(vs_next_critical_order s, event)]) s)
      [Accepted event]
| t_close id :
    session_phase (vs_terminal s) id = Some Open →
    transition s (closed_state id s) [Accepted (InClose id)]
| t_shutdown :
    vs_phase s = Running →
    transition s (shutdown_state s) [Accepted InShutdown]
| t_pop order event rest a d :
    vs_critical s = (order, event) :: rest →
    dispatch_critical event (vs_terminal s) = (a, d) →
    transition s (popped_state rest a s) [Dispatched (DispatchCritical d)]
| t_dispatch i e q m w s' :
    vs_critical s = [] → vs_phase s = Running →
    dispatches s w s' i e q m →
    transition s s' [Dispatched (DispatchNormal w)]
| t_finish :
    vs_phase s = ShuttingDown → vs_critical s = [] →
    ta_in_flight (vs_terminal s) = ∅ →
    transition s (set_phase Terminated s) [].

Inductive transitions : ViewportScheduler → ViewportScheduler →
    list Observation → Prop :=
| ts_nil s : wf s → transitions s s []
| ts_cons s s1 s2 log log' :
    wf s → transition s s1 log → transitions s1 s2 log' →
    transitions s s2 (log ++ log').

Lemma transitions_one s s' log :
  wf s → wf s' → transition s s' log → transitions s s' log.
Proof.
  intros Hs Hs' Ht. rewrite <-(app_nil_r log).
  eapply ts_cons; [done..|by apply ts_nil].
Qed.

Lemma transitions_app s s1 s2 log log' :
  transitions s s1 log → transitions s1 s2 log' → transitions s s2 (log ++ log').
Proof.
  induction 1 as [|??????? IH]; intros Hr; [done|].
  rewrite <-app_assoc. eapply ts_cons; eauto.
Qed.

Lemma transitions_wf s s' log : transitions s s' log → wf s ∧ wf s'.
Proof. induction 1; naive_solver. Qed.

(** *** Each operation is a sequence of transitions. *)

Lemma settled_transitions request s s1 adv :
  wf s → wf s1 → generation_settled request s s1 adv → transitions s s1 [].
Proof.
  intros Hs Hs1 Hset. destruct adv as [a|]; [|simpl in Hset; subst; by apply ts_nil].
  destruct Hset as (Hg&Hlt&Hopen&_&->).
  apply transitions_one; [done..|].
  eapply t_advance; [done|]. by rewrite <-Hg.
Qed.

Lemma settled_wf request s s1 adv :
  wf s → generation_settled request s s1 adv → wf s1.
Proof.
  intros Hs Hset. destruct adv as [a|]; [|simpl in Hset; by subst].
  destruct Hset as (Hg&Hlt&Hopen&_&->). apply drop_wf; [done|].
  unfold session_phase. by rewrite Hopen.
Qed.

Lemma submit_transitions `{Platform} request s s' r :
  wf s → submit request s = (s', r) → transitions s s' [].
Proof.
  intros Hwf [Hwf' Hr]%submit_spec; [|done]. destruct r as [o|e].
  - destruct Hr as [adv s1 i queued Hset Hadm Hfind Hid ->
                   |adv s1 q Hset Hadm Hfind Hroom ->];
      pose proof (settled_wf _ _ _ _ Hwf Hset) as Hwf1;
      (eapply (transitions_app _ _ _ [] []); [by eapply settled_transitions|]);
      apply transitions_one; try done.
    + apply list_find_Some in Hfind as (Hi&Hco&_). apply t_coalesce; try done.
      by rewrite (generation_settled_seen _ _ _ _ Hset).
    + by apply t_enqueue.
  - destruct Hr as [->|[adv Hset]]; [by apply ts_nil|].
    by eapply settled_transitions.
Qed.

Lemma accepted_transitions event s s' r :
  wf s → enqueue_critical event s = (s', r) →
  transitions s s' match r with Ok a => accepted_critical event a | Err _ => [] end.
Proof.
  intros Hwf [Hwf' Hr]%enqueue_critical_spec; [|done].
  destruct r as [a|e]; [|subst; by apply ts_nil].
  destruct Hr as (->&?&->). apply transitions_one; [done..|by apply t_accept].
Qed.

Lemma dispatch_transitions s s' r :
  wf s → dispatch_next s = (s', r) →
  transitions s s' match r with Ok (Some d) => [Dispatched d] | _ => [] end.
Proof.
  intros Hwf [Hwf' Hr]%dispatch_next_spec; [|done].
  destruct Hr as [order event rest a d Hc Hd ->|Hc Hi ->
                 |i e q m w Hc Hp Hroom Hd|Hc Hx ->]; try by apply ts_nil.
  - apply transitions_one; [done..|]. by eapply t_pop.
  - apply transitions_one; [done..|]. by eapply t_dispatch.
Qed.

Lemma step_transitions `{Platform} o s :
  wf s → transitions s (step o s).1 (step o s).2.
Proof.
  intros Hwf. destruct o as [id g|delta|id g|request|event|id| | |]; simpl.
  - destruct (register_session id g s) as [s' [[]|]] eqn:E;
      apply register_session_spec in E as [? E]; simpl; try done;
      [|subst; by apply ts_nil].
    destruct E as (_&?&?&->). apply transitions_one; [done..|by apply t_register].
  - destruct (advance_tick (Z.of_N delta) s) as [s' r] eqn:E.
    apply advance_tick_spec in E as [? E]; [|lia|done]. simpl.
    destruct E as [[_ ->]|(_&->&_)]; [|by apply ts_nil].
    apply transitions_one; [done..|by apply t_tick].
  - destruct (advance_generation id g s) as [s' []] eqn:E;
      apply advance_generation_spec in E as [? E]; simpl; try done;
      [|subst; by apply ts_nil].
    destruct E as (g0&?&?&_&_&->).
    apply transitions_one; [done..|by eapply t_advance].
  - destruct (submit request s) as [s' r] eqn:E. by eapply submit_transitions.
  - destruct event; try (by apply ts_nil);
      destruct (enqueue_critical _ s) as [s' r] eqn:E; simpl;
      by apply accepted_transitions.
  - destruct (close_session id s) as [s' [rc|]] eqn:E;
      apply close_session_spec in E as [? E]; simpl; try done;
      [|subst; by apply ts_nil].
    destruct E as [(->&->&_)|(->&?&_&->)]; [by apply ts_nil|].
    apply transitions_one; [done..|by apply t_close].
  - destruct (begin_shutdown s) as [s' [rc|]] eqn:E;
      apply begin_shutdown_spec in E as [? E]; simpl; try done;
      [|subst; by apply ts_nil].
    destruct E as [(->&->&_)|(->&?&_&->)]; [by apply ts_nil|].
    apply transitions_one; [done..|by apply t_shutdown].
  - destruct (dispatch_next s) as [s' r] eqn:E. by apply dispatch_transitions.
  - destruct (try_finish_shutdown s) as [s' b] eqn:E.
    apply try_finish_shutdown_spec in E as (?&Hb&->); [|done].
    destruct b; [|by apply ts_nil]. apply transitions_one; [done..|].
    by apply t_finish; apply Hb.
Qed.

Section run_facts.
Context `{Platform}.

Lemma run_cons o ops s :
  run (o :: ops) s =
  ((run ops (step o s).1).1, (step o s).2 ++ (run ops (step o s).1).2).
Proof.
  simpl. destruct (step o s) as [s1 log]. simpl.
  by destruct (run ops s1) as [s2 log'].
Qed.

Lemma run_app ops ops' s :
  run (ops ++ ops') s =
  ((run ops' (run ops s).1).1, (run ops s).2 ++ (run ops' (run ops s).1).2).
Proof.
  revert s. induction ops as [|o ops IH]; intros s.
  - simpl. by destruct (run ops' s).
  - rewrite <-app_comm_cons, !run_cons, IH. simpl. by rewrite app_assoc.
Qed.

Lemma run_transitions ops s : wf s → transitions s (run ops s).1 (run ops s).2.
Proof.
  revert s. induction ops as [|o ops IH]; intros s Hwf; [by apply ts_nil|].
  rewrite run_cons. pose proof (step_transitions o s Hwf) as Hstep.
  eapply transitions_app; [done|]. apply IH. by eapply transitions_wf.
Qed.

Lemma reachable_wf s : reachable s → wf s.
Proof.
  intros (l&ops&[Hl _]&->). eapply transitions_wf, run_transitions.
  by apply new_wf.
Qed.
End run_facts.

Lemma transition_limits s s' log :
  transition s s' log → vs_limits s' = vs_limits s.
Proof. destruct 1; try done. by destruct H1 as [_ _ _ _ _ _ _ _ ->]. Qed.

Lemma transitions_limits s s' log :
  transitions s s' log → vs_limits s' = vs_limits s.
Proof.
  induction 1 as [|?????? Ht ? IH]; [done|]. by rewrite IH, (transition_limits _ _ _ Ht).
Qed.
