(* ===== verification/SchedulerRuns.v ===== *)
(** * Invariants of whole scheduler runs

    The ledger of dispatched and resolved work, the order of critical events,
    work that can no longer be published, and the potential that bounds how
    often a backlogged session is passed over. *)

From stdpp Require Import base gmap list numbers option sorting.
From S2P Require Import Prelude.
From S2P Require Import SchedulerTypes.
From S2P Require Import Arbiter.
From S2P Require Import Scheduler.
From S2P Require Import SchedulerInv.
From S2P Require Import SchedulerSteps.
From S2P Require Import SchedulerDispatch.

(** ** Readings of a log *)

Definition normal_dispatch (o : Observation) : option ScheduledWork :=
  match o with Dispatched (DispatchNormal w) => Some w | _ => None end.
Definition critical_dispatch (o : Observation) : option CriticalDispatch :=
  match o with Dispatched (DispatchCritical d) => Some d | _ => None end.
Definition accepted_event (o : Observation) : option CriticalIngress :=
  match o with Accepted e => Some e | _ => None end.

Definition work_of (w : ScheduledWork) : WorkId := req_work_id (sw_request w).

Definition dispatched_ids (log : list Observation) : list WorkId :=
  work_of <$> omap normal_dispatch log.
Definition resolved_ids (log : list Observation) : list WorkId :=
  omap resolved_by (omap critical_dispatch log).

Lemma dispatched_ids_app l k :
  dispatched_ids (l ++ k) = dispatched_ids l ++ dispatched_ids k.
Proof. unfold dispatched_ids. by rewrite omap_app, fmap_app. Qed.
Lemma resolved_ids_app l k :
  resolved_ids (l ++ k) = resolved_ids l ++ resolved_ids k.
Proof. unfold resolved_ids. by rewrite !omap_app. Qed.

(** An invariant that carries what the log has shown so far. *)
Lemma transitions_ind_log {L} (I : ViewportScheduler → L → Prop)
    (extend : L → list Observation → L) :
  (∀ acc, extend acc [] = acc) →
  (∀ acc l k, extend acc (l ++ k) = extend (extend acc l) k) →
  (∀ s s' log acc, wf s → transition s s' log → I s acc → I s' (extend acc log)) →
  ∀ s s' log acc, transitions s s' log → I s acc → I s' (extend acc log).
Proof.
  intros Hnil Happ Hstep s s' log acc Hts. revert acc.
  induction Hts as [|????? Hwf Ht Hts IH]; intros acc HI.
  - by rewrite Hnil.
  - rewrite Happ. apply IH. by eapply Hstep.
Qed.

(** ** The ledger *)

Record ledger (s : ViewportScheduler) (DR : list WorkId * list WorkId) : Prop := {
  led_dispatched : NoDup DR.1;
  led_resolved : NoDup DR.2;
  led_incl : ∀ w, w ∈ DR.2 → w ∈ DR.1;
  led_active : ∀ w, is_Some (ta_in_flight (vs_terminal s) !! w) ↔
    w ∈ DR.1 ∧ w ∉ DR.2;
  led_seen : ∀ w, w ∈ DR.1 → w ∈ vs_seen_work_ids s;
  led_queued : ∀ e, e ∈ vs_normal s → qw_work_id e ∉ DR.1
}.

Definition ledger_extend (DR : list WorkId * list WorkId)
    (log : list Observation) : list WorkId * list WorkId :=
  (DR.1 ++ dispatched_ids log, DR.2 ++ resolved_ids log).

(** Transitions that leave the in-flight map alone and queue only old or
    unused identities. *)
Lemma ledger_stable s s' DR :
  ledger s DR →
  ta_in_flight (vs_terminal s') = ta_in_flight (vs_terminal s) →
  vs_seen_work_ids s ⊆ vs_seen_work_ids s' →
  (∀ e, e ∈ vs_normal s' →
     qw_work_id e ∉ vs_seen_work_ids s ∨
     ∃ e', e' ∈ vs_normal s ∧ qw_work_id e' = qw_work_id e) →
  ledger s' DR.
Proof.
  intros [HD HR Hincl Hact Hseen Hq] Hf Hs Hn. split; try done.
  - by rewrite Hf.
  - intros w Hw. apply Hs, Hseen, Hw.
  - intros e [He|(e'&He'&<-)]%Hn; [|by apply Hq].
    intros Hin. by apply He, Hseen.
Qed.

Lemma ledger_extend_quiet DR log :
  dispatched_ids log = [] → resolved_ids log = [] → ledger_extend DR log = DR.
Proof.
  intros HD HR. unfold ledger_extend. rewrite HD, HR, !app_nil_r. by destruct DR.
Qed.

Lemma ledger_pop s event order rest a d DR :
  wf s → vs_critical s = (order, event) :: rest →
  dispatch_critical event (vs_terminal s) = (a, d) → ledger s DR →
  ledger (popped_state rest a s)
    (ledger_extend DR [Dispatched (DispatchCritical d)]).
Proof.
  intros Hwf Hc Hd Hled.
  pose proof (dispatch_critical_spec _ _ _ _ (wf_arbiter _ Hwf) Hd) as Hspec.
  unfold ledger_extend, dispatched_ids, resolved_ids. simpl.
  destruct (resolved_by d) as [w|]; simpl; rewrite !app_nil_r.
  - destruct Hspec as [[sig Hw] ->]. destruct Hled as [HD HR Hincl Hact Hseen Hq].
    destruct (proj1 (Hact w) (mk_is_Some _ _ Hw)) as [HwD HwR].
    split; simpl; try done.
    + apply NoDup_app. split; [done|]. split; [|apply NoDup_singleton].
      by intros w' Hw' ->%list_elem_of_singleton.
    + intros w' [?| ->%list_elem_of_singleton]%elem_of_app; [by apply Hincl|done].
    + intros w'. rewrite lookup_delete_is_Some, Hact, elem_of_app,
        list_elem_of_singleton. naive_solver.
  - subst a. destruct DR. apply (ledger_stable s); [done|done|done|]. simpl. eauto.
Qed.

Lemma ledger_dispatch s s' i e q m w DR :
  wf s → dispatches s w s' i e q m → ledger s DR →
  ledger s' (ledger_extend DR [Dispatched (DispatchNormal w)]).
Proof.
  intros Hwf Hd [HD HR Hincl Hact Hseen Hq].
  destruct Hd as [Hi _ _ _ _ -> _ _ ->].
  unfold ledger_extend, dispatched_ids, resolved_ids, work_of. simpl.
  rewrite app_nil_r. fold (qw_work_id e).
  assert (e ∈ vs_normal s) as He by (by eapply list_elem_of_lookup_2).
  pose proof (wf_ids _ Hwf) as Hids.
  destruct (i_queued _ _ _ Hids e He) as [Hes Hen].
  assert (qw_work_id e ∉ DR.1) as HeD by (by apply Hq).
  assert (qw_work_id e ∉ DR.2) as HeR by (intros Hin; by apply HeD, Hincl).
  split; simpl; try done.
  - apply NoDup_app. split; [done|]. split; [|apply NoDup_singleton].
    by intros w' Hw' ->%list_elem_of_singleton.
  - intros w' Hw'. apply elem_of_app. left. by apply Hincl.
  - intros w'. rewrite lookup_insert_is_Some', Hact, elem_of_app,
      list_elem_of_singleton. naive_solver.
  - intros w' [?| ->%list_elem_of_singleton]%elem_of_app; [by apply Hseen|done].
  - intros e' He'. rewrite elem_of_app, list_elem_of_singleton. intros [Hin|Heq].
    + eapply Hq; [|done]. eapply elem_of_sublist; [apply sublist_delete|done].
    + pose proof (i_nodup _ _ _ Hids) as Hnd.
      rewrite (delete_Permutation _ _ _ Hi) in Hnd. simpl in Hnd.
      apply NoDup_cons in Hnd as [Hnd _]. apply Hnd. rewrite <-Heq.
      by apply list_elem_of_fmap_2.
Qed.

Lemma ledger_transition s s' log DR :
  wf s → transition s s' log → ledger s DR → ledger s' (ledger_extend DR log).
Proof.
  intros Hwf Ht Hled. destruct Ht as
    [id g|delta|id g0 g|request i queued _ Hi _ Hid|request q _ [Hfresh]|event
    |id|Hp|order event rest a d Hc Hd|i e q m w s' _ _ Hd|];
    try (by eapply ledger_pop); try (by eapply ledger_dispatch);
    rewrite ledger_extend_quiet by done;
    (eapply ledger_stable; [exact Hled|..]); simpl;
    try first [done|by apply union_subseteq_r|by eauto].
  - intros e [_ He]%list_elem_of_filter. eauto.
  - intros e [->|He]%elem_of_insert_inv; [|eauto].
    destruct Hid as [Hid|Hid]; [right|by left].
    exists queued. split; [by eapply list_elem_of_lookup_2|done].
  - intros e [He| ->%list_elem_of_singleton]%elem_of_app; [eauto|by left].
  - intros e [_ He]%list_elem_of_filter. eauto.
  - unfold arbiter_begin_shutdown. by destruct (ta_shutting_down _).
  - by intros e He%not_elem_of_nil.
Qed.

Lemma ledger_transitions s s' log DR :
  transitions s s' log → ledger s DR → ledger s' (ledger_extend DR log).
Proof.
  apply (transitions_ind_log ledger ledger_extend).
  - intros []. unfold ledger_extend. simpl. by rewrite !app_nil_r.
  - intros [xs ys] l k. unfold ledger_extend. simpl.
    by rewrite dispatched_ids_app, resolved_ids_app, !app_assoc.
  - intros. by eapply ledger_transition.
Qed.

Lemma ledger_new l : ledger (ViewportScheduler_new l) ([], []).
Proof.
  split; simpl; try apply NoDup_nil_2; try set_solver.
  intros w. rewrite lookup_empty. split; [by intros []|set_solver].
Qed.

(** ** Critical events are answered in the order they were accepted *)

(** The identity a decision names. *)
Definition decision_work (d : TerminalDecision) : WorkId :=
  match d with
  | Publish w _ | DiscardAndRelease w _ _ | Cancelled w | Failed w
  | Ignored w _ => w
  end.

(** The resource a decision hands over or releases. *)
Definition decision_resource (d : TerminalDecision) : option ResourceId :=
  match d with
  | Publish _ r | DiscardAndRelease _ r _ => Some r
  | Cancelled _ | Failed _ | Ignored _ _ => None
  end.

(** [d] is the answer to [event]: same kind, same identities. *)
Definition answers (event : CriticalIngress) (d : CriticalDispatch) : Prop :=
  match event, d with
  | InCancel sig, OutCancel d | InFailure sig, OutFailure d =>
      decision_work d = sig_work_id sig ∧ decision_resource d = None
  | InClose id, OutClose id' => id' = id
  | InRelease id r, OutRelease id' r' => id' = id ∧ r' = r
  | InCompletion sig r, OutCompletion d =>
      decision_work d = sig_work_id sig ∧ decision_resource d = Some r
  | InShutdown, OutShutdown => True
  | _, _ => False
  end.

Lemma finish_names sig f a :
  decision_work (finish_without_resource sig f a).2 = sig_work_id sig ∧
  decision_resource (finish_without_resource sig f a).2 = None.
Proof. unfold finish_without_resource. by repeat case_match. Qed.

Lemma complete_names sig r a :
  decision_work (arbiter_complete sig r a).2 = sig_work_id sig ∧
  decision_resource (arbiter_complete sig r a).2 = Some r.
Proof. unfold arbiter_complete. cbv zeta. by repeat case_match. Qed.

Lemma dispatch_critical_answers event a :
  answers event (dispatch_critical event a).2.
Proof.
  destruct event as [sig|id|id r|sig|sig r|]; simpl; try done.
  - unfold arbiter_cancel. pose proof (finish_names sig false a).
    by destruct (finish_without_resource sig false a).
  - unfold arbiter_fail. pose proof (finish_names sig true a).
    by destruct (finish_without_resource sig true a).
  - pose proof (complete_names sig r a). by destruct (arbiter_complete sig r a).
Qed.

(** Accepted so far = answered so far, then pending. *)
Definition fifo (s : ViewportScheduler)
    (AD : list CriticalIngress * list CriticalDispatch) : Prop :=
  ∃ popped, AD.1 = popped ++ (snd <$> vs_critical s) ∧
            Forall2 answers popped AD.2.

Definition fifo_extend (AD : list CriticalIngress * list CriticalDispatch)
    (log : list Observation) :=
  (AD.1 ++ omap accepted_event log, AD.2 ++ omap critical_dispatch log).

Lemma fifo_transition s s' log AD :
  wf s → transition s s' log → fifo s AD → fifo s' (fifo_extend AD log).
Proof.
  intros _ Ht (popped&HA&HD). unfold fifo, fifo_extend.
  destruct Ht as [| | | | | | | |order event rest a d Hc Hd|? ? ? ? ? s' _ _ Hd|];
    simpl; rewrite ?app_nil_r; try (by exists popped);
    try (exists popped; by rewrite HA, fmap_app, app_assoc).
  - exists (popped ++ [event]). rewrite HA, Hc, <-app_assoc. split; [done|].
    apply Forall2_app; [done|]. constructor; [|done].
    pose proof (dispatch_critical_answers event (vs_terminal s)). by rewrite Hd in *.
  - exists popped. by destruct Hd as [_ _ _ _ _ _ _ _ ->].
Qed.

Lemma fifo_transitions s s' log AD :
  transitions s s' log → fifo s AD → fifo s' (fifo_extend AD log).
Proof.
  apply (transitions_ind_log fifo fifo_extend).
  - intros []. unfold fifo_extend. simpl. by rewrite !app_nil_r.
  - intros [xs ys] l k. unfold fifo_extend. simpl. by rewrite !omap_app, !app_assoc.
  - intros. by eapply fifo_transition.
Qed.

(** ** Work that can no longer be published *)

(** In flight at most once more, and never at a current generation of an open
    session. *)
Definition obsolete (s : ViewportScheduler) (sig : TerminalSignal) : Prop :=
  ta_shutting_down (vs_terminal s) = true ∨
  ∃ t, ta_sessions (vs_terminal s) !! sig_session_id sig = Some t ∧
    (ts_phase t = Closing ∨ (sig_generation sig < ts_generation t)%positive).

Record unpublishable (s : ViewportScheduler) (w : WorkId) : Prop := {
  unp_seen : w ∈ vs_seen_work_ids s;
  unp_queued : w ∉ qw_work_id <$> vs_normal s;
  unp_in_flight : ∀ sig, ta_in_flight (vs_terminal s) !! w = Some sig →
    obsolete s sig
}.

(** Sessions only close and only move to later generations. *)
Definition sessions_advance (t t' : TerminalArbiter) : Prop :=
  (ta_shutting_down t = true → ta_shutting_down t' = true) ∧
  ∀ id x, ta_sessions t !! id = Some x → ∃ x', ta_sessions t' !! id = Some x' ∧
    (ts_phase x = Closing → ts_phase x' = Closing) ∧
    (ts_generation x <= ts_generation x')%positive.

Lemma sessions_advance_refl t t' :
  ta_shutting_down t' = ta_shutting_down t → ta_sessions t' = ta_sessions t →
  sessions_advance t t'.
Proof.
  intros Hd Hs. split; [by rewrite Hd|]. intros id x Hx. rewrite Hs.
  exists x. split_and!; [done|done|reflexivity].
Qed.

Lemma sessions_advance_insert t id x' :
  (∀ x, ta_sessions t !! id = Some x → ts_phase x = Open ∧
     (ts_generation x <= ts_generation x')%positive) →
  sessions_advance t (set_ta_sessions (<[id := x']> (ta_sessions t)) t).
Proof.
  intros Hx'. split; [done|]. intros j x Hx. simpl.
  destruct (decide (id = j)) as [<-|Hne].
  - rewrite lookup_insert_eq. destruct (Hx' _ Hx) as [Hopen ?].
    exists x'. split_and!; [done|congruence|done].
  - rewrite lookup_insert_ne by done. exists x. split_and!; [done|done|reflexivity].
Qed.

Lemma sessions_advance_shutdown t :
  sessions_advance t (arbiter_begin_shutdown t).1.
Proof.
  unfold arbiter_begin_shutdown. destruct (ta_shutting_down t) eqn:Hd.
  - by apply sessions_advance_refl.
  - split; [done|]. intros id x Hx. simpl. rewrite lookup_fmap, Hx.
    eexists. split_and!; [done|done|reflexivity].
Qed.

Lemma transition_sessions_advance s s' log :
  wf s → transition s s' log → sessions_advance (vs_terminal s) (vs_terminal s').
Proof.
  intros Hwf Ht. destruct Ht as [id g Hid _|delta|id g0 g Hopen Hlt| | | |id Hopen|Hp
    |order event rest a d Hc Hd|i e q m w s' _ _ Hd|];
    try (by apply sessions_advance_refl).
  - apply sessions_advance_insert. intros x Hx. exfalso.
    apply (eq_None_not_Some (vs_sessions s !! id)); [done|].
    apply sessions_dom; [done|]. by eexists.
  - apply sessions_advance_insert. intros x Hx. simplify_eq. simpl. split; [done|].
    by apply Pos.lt_le_incl.
  - apply sessions_advance_insert. intros x Hx. unfold session_phase in Hopen.
    rewrite Hx in Hopen. unfold current_generation. rewrite Hx.
    injection Hopen as Hopen. split; [done|reflexivity].
  - apply sessions_advance_shutdown.
  - pose proof (dispatch_critical_spec _ _ _ _ (wf_arbiter _ Hwf) Hd) as Hspec.
    destruct (resolved_by d); [destruct Hspec as [_ ->]|subst a];
      by apply sessions_advance_refl.
  - destruct Hd as [_ _ _ _ _ _ _ _ ->]. by apply sessions_advance_refl.
Qed.

Lemma obsolete_advance s s' sig :
  sessions_advance (vs_terminal s) (vs_terminal s') → obsolete s sig → obsolete s' sig.
Proof.
  intros [Hd Hs] [?|(t&Ht&Hobs)]; [left; auto|right].
  destruct (Hs _ _ Ht) as (t'&Ht'&Hp&Hg). exists t'. split; [done|].
  destruct Hobs as [?|?]; [left; auto|right]. by eapply Pos.lt_le_trans.
Qed.

(** The queue only gains identities never used before. *)
Lemma transition_queue_ids s s' log e :
  transition s s' log → e ∈ vs_normal s' →
  qw_work_id e ∉ vs_seen_work_ids s ∨ qw_work_id e ∈ qw_work_id <$> vs_normal s.
Proof.
  intros Ht. destruct Ht as
    [id g|delta|id g0 g|request i queued _ Hi _ Hid|request q _ [Hfresh]|event
    |id|Hp|order event rest a d Hc Hd|i e' q m w s' _ _ Hd|]; simpl; intros He;
    try (right; by apply list_elem_of_fmap_2).
  - apply list_elem_of_filter in He as [_ He]. right. by apply list_elem_of_fmap_2.
  - apply elem_of_insert_inv in He as [->|He];
      [|right; by apply list_elem_of_fmap_2].
    destruct Hid as [Hid|Hid]; [right|by left]. unfold qw_work_id at 1. simpl.
    rewrite Hid. apply list_elem_of_fmap_2. by eapply list_elem_of_lookup_2.
  - apply elem_of_app in He as [He| ->%list_elem_of_singleton];
      [right; by apply list_elem_of_fmap_2|by left].
  - apply list_elem_of_filter in He as [_ He]. right. by apply list_elem_of_fmap_2.
  - by apply not_elem_of_nil in He.
  - destruct Hd as [_ _ _ _ _ _ _ _ ->]. right. apply list_elem_of_fmap_2.
    eapply elem_of_sublist; [apply (sublist_delete _ i)|exact He].
Qed.

Lemma transition_seen s s' log :
  transition s s' log → vs_seen_work_ids s ⊆ vs_seen_work_ids s'.
Proof.
  destruct 1 as [| | | | | | | | |? ? ? ? ? s' _ _ Hd|]; simpl; try done;
    try apply union_subseteq_r.
  by destruct Hd as [_ _ _ _ _ _ _ _ ->].
Qed.

(** Work enters the in-flight map from the queue only. *)
Lemma transition_in_flight s s' log w sig :
  wf s → transition s s' log →
  ta_in_flight (vs_terminal s') !! w = Some sig →
  ta_in_flight (vs_terminal s) !! w = Some sig ∨ w ∈ qw_work_id <$> vs_normal s.
Proof.
  intros Hwf Ht. destruct Ht as
    [id g|delta|id g0 g|request i queued _ Hi _ Hid|request q _ [Hfresh]|event
    |id|Hp|order event rest a d Hc Hd|i e q m w' s' _ _ Hd|]; simpl; auto.
  - unfold arbiter_begin_shutdown. destruct (ta_shutting_down _); auto.
  - pose proof (dispatch_critical_spec _ _ _ _ (wf_arbiter _ Hwf) Hd) as Hspec.
    destruct (resolved_by d); [destruct Hspec as [_ ->]|by subst; auto].
    simpl. rewrite lookup_delete_Some. intros [_ ?]. auto.
  - destruct Hd as [Hi _ _ _ _ _ _ _ ->]. simpl.
    rewrite lookup_insert_Some. intros [[<- _]|[_ ?]]; [|by left].
    right. apply list_elem_of_fmap_2. by eapply list_elem_of_lookup_2.
Qed.

Lemma unpublishable_transition s s' log w :
  wf s → transition s s' log → unpublishable s w → unpublishable s' w.
Proof.
  intros Hwf Ht [Hseen Hq Hf]. split.
  - by apply (transition_seen _ _ _ Ht).
  - intros (e&->&He)%list_elem_of_fmap.
    by destruct (transition_queue_ids _ _ _ _ Ht He).
  - intros sig Hsig. eapply obsolete_advance.
    { by eapply transition_sessions_advance. }
    apply Hf. by destruct (transition_in_flight _ _ _ _ _ Hwf Ht Hsig).
Qed.

Definition published (d : CriticalDispatch) : option WorkId :=
  match decision_of d with Some (Publish w _) => Some w | _ => None end.
Definition published_ids (log : list Observation) : list WorkId :=
  omap published (omap critical_dispatch log).

Lemma published_ids_app l k :
  published_ids (l ++ k) = published_ids l ++ published_ids k.
Proof. unfold published_ids. by rewrite !omap_app. Qed.

(** What a publication proves about the arbiter it comes from. *)
Lemma published_exact event a a' d w :
  dispatch_critical event a = (a', d) → published d = Some w →
  ∃ sig r, event = InCompletion sig r ∧ sig_work_id sig = w ∧
    d = OutCompletion (Publish w r) ∧
    ta_in_flight a !! w = Some sig ∧ ta_shutting_down a = false ∧
    ta_sessions a !! sig_session_id sig =
      Some {| ts_generation := sig_generation sig; ts_phase := Open |}.
Proof.
  unfold published. destruct event as [sig|id|id r|sig|sig r|]; simpl;
    try (by intros [= <- <-]).
  - unfold arbiter_cancel, finish_without_resource.
    repeat case_match; intros; simplify_eq/=.
  - unfold arbiter_fail, finish_without_resource.
    repeat case_match; intros; simplify_eq/=.
  - destruct (arbiter_complete sig r a) as [a1 d1] eqn:Hc. intros [= <- <-]. simpl.
    destruct d1; try done. intros [= ->].
    apply arbiter_complete_publish in Hc as (->&->&?&?&?&_).
    exists sig, r. by split_and!.
Qed.

Lemma unpublishable_not_published s s' log w :
  transition s s' log → unpublishable s w → w ∉ published_ids log.
Proof.
  intros Ht [_ _ Hf]. unfold published_ids.
  destruct Ht as [| | | | | | | |order event rest a d Hc Hd| |]; simpl;
    try apply not_elem_of_nil.
  destruct (published d) as [w'|] eqn:Hpub; [|apply not_elem_of_nil].
  intros ->%list_elem_of_singleton.
  destruct (published_exact _ _ _ _ _ Hd Hpub) as (sig&r&_&_&_&Hsig&Hup&Hs).
  destruct (Hf sig Hsig) as [?|(t&Ht&[?|Hlt])]; [congruence|..]; simplify_eq/=.
  by apply Pos.lt_irrefl in Hlt.
Qed.

Lemma unpublishable_transitions s s' log w :
  transitions s s' log → unpublishable s w → w ∉ published_ids log.
Proof.
  induction 1 as [|????? Hwf Ht Hts IH]; intros Hu; [apply not_elem_of_nil|].
  rewrite published_ids_app, not_elem_of_app. split.
  - by eapply unpublishable_not_published.
  - apply IH. by eapply unpublishable_transition.
Qed.

(** ** Service potential

    How many more dispatches of other sessions fit before session [x] is
    dispatched: turns until the window closes, plus one last dispatch of each
    session still inside it, plus one for each session yet to register. *)

Definition service_turn (s : ViewportScheduler) (x : SessionId) : Z :=
  default 0 (qs_last_service_turn <$> vs_sessions s !! x).

Definition inside (limit : Z) (_ : SessionId) (q : QueueSession) : Z :=
  if qs_last_service_turn q <? limit then 1 else 0.

Definition potential (x : SessionId) (s : ViewportScheduler) : Z :=
  let limit := service_turn s x + fairness_burst (vs_limits s) in
  Z.max 0 (limit - vs_next_service_turn s)
  + map_sum (inside limit) (vs_sessions s)
  + (max_sessions (vs_limits s) - msize (vs_sessions s)).

Lemma sessions_bound s :
  wf s → msize (vs_sessions s) ≤ max_sessions (vs_limits s).
Proof.
  intros Hwf. pose proof (awf_max_sessions _ (wf_arbiter _ Hwf)) as Hm.
  rewrite (wf_arbiter_limits _ Hwf) in Hm. simpl in Hm.
  assert (dom (vs_sessions s) =@{gset _} dom (ta_sessions (vs_terminal s))) as Hdom.
  { apply set_eq. intros y. rewrite !elem_of_dom. by apply sessions_dom. }
  rewrite <-size_dom, Hdom, size_dom. exact Hm.
Qed.

Lemma inside_bounds limit id q : 0 ≤ inside limit id q ≤ 1.
Proof. unfold inside. case_match; lia. Qed.

Lemma potential_bounds s x :
  wf s → is_Some (vs_sessions s !! x) →
  1 ≤ potential x s ≤ fairness_burst (vs_limits s) + max_sessions (vs_limits s) - 1.
Proof.
  intros Hwf [q Hq]. unfold potential, service_turn. rewrite Hq. simpl.
  set (limit := qs_last_service_turn q + _).
  pose proof (sessions_bound s Hwf).
  pose proof (lim_burst _ (wf_limits _ Hwf)) as Hb.
  destruct (wf_turns _ Hwf) as [_ Ht]. specialize (Ht _ _ Hq).
  pose proof (map_sum_le (inside limit) (λ _ _, 1) (vs_sessions s)
    (λ i y _, proj2 (inside_bounds limit i y))) as Hup.
  rewrite map_sum_const in Hup.
  assert (1 ≤ map_sum (inside limit) (vs_sessions s)) as Hlow.
  { rewrite (map_sum_delete _ x q) by done.
    pose proof (map_sum_nonneg (inside limit) (delete x (vs_sessions s))
      (λ i y _, proj1 (inside_bounds limit i y))).
    assert (inside limit x q = 1) as -> by (unfold inside, limit; case_match; lia).
    lia. }
  unfold limit in *. lia.
Qed.

(** Sessions whose service turns did not change: [sessions'] has the keys and
    turns of [sessions]. *)
Definition same_turns (sessions sessions' : gmap SessionId QueueSession) : Prop :=
  qs_last_service_turn <$> sessions' = qs_last_service_turn <$> sessions.

Lemma same_turns_size sessions sessions' :
  same_turns sessions sessions' → msize sessions' = msize sessions.
Proof.
  intros Hs. rewrite <-(map_size_fmap qs_last_service_turn sessions'), Hs.
  by rewrite map_size_fmap.
Qed.

Lemma same_turns_sum limit sessions sessions' :
  same_turns sessions sessions' →
  map_sum (inside limit) sessions' = map_sum (inside limit) sessions.
Proof.
  intros Hs.
  pose (f := λ (_ : SessionId) (t : Z), if t <? limit then 1 else 0).
  change (map_sum (λ k q, f k (qs_last_service_turn q)) sessions' =
          map_sum (λ k q, f k (qs_last_service_turn q)) sessions).
  rewrite <-!(map_sum_fmap qs_last_service_turn f). by rewrite Hs.
Qed.

Lemma same_turns_potential x s s' :
  same_turns (vs_sessions s) (vs_sessions s') →
  vs_limits s' = vs_limits s → vs_next_service_turn s' = vs_next_service_turn s →
  potential x s' = potential x s.
Proof.
  intros Hs Hl Hn. unfold potential, service_turn.
  rewrite <-!lookup_fmap, Hs, Hl, Hn.
  by rewrite (same_turns_sum _ _ _ Hs), (same_turns_size _ _ Hs).
Qed.

Lemma same_turns_insert sessions id q q' :
  sessions !! id = Some q → qs_last_service_turn q' = qs_last_service_turn q →
  same_turns sessions (<[id := q']> sessions).
Proof.
  intros Hq Ht. unfold same_turns. rewrite fmap_insert, insert_id; [done|].
  by rewrite lookup_fmap, Hq, Ht.
Qed.

Lemma same_turns_clear sessions id :
  same_turns sessions (alter clear_queued id sessions).
Proof.
  apply map_eq. intros j. rewrite !lookup_fmap.
  destruct (decide (id = j)) as [<-|Hne].
  - rewrite lookup_alter_eq. by destruct (sessions !! id).
  - by rewrite lookup_alter_ne.
Qed.

(** Entries of session [x] are queued. *)
Definition backlogged (x : SessionId) (s : ViewportScheduler) : Prop :=
  ∃ e, e ∈ vs_normal s ∧ qw_session e = x.

(** A normal dispatch of another session while [x] waits. *)
Lemma potential_dispatch x s s' i e q m w :
  wf s → backlogged x s → dispatches s w s' i e q m → qw_session e ≠ x →
  potential x s' + 1 ≤ potential x s.
Proof.
  intros Hwf (ex&Hex&Hx) [Hi Hq [_ Hleast] _ Hlt _ _ _ ->] Hne.
  destruct (queued_session s ex Hwf Hex) as [qx Hqx]. rewrite Hx in Hqx.
  specialize (Hleast ex qx Hex). rewrite Hx in Hleast. specialize (Hleast Hqx).
  unfold potential, service_turn. simpl.
  rewrite lookup_insert_ne, Hqx by done. simpl.
  set (limit := qs_last_service_turn qx + _).
  rewrite (map_sum_insert (inside limit) (qw_session e) _ q) by done.
  rewrite msize_insert_present by (by eexists).
  assert (inside limit (qw_session e) q = 1) as ->
    by (unfold inside, limit; case_match; lia).
  unfold inside at 2. simpl. case_match; lia.
Qed.

Lemma potential_transition x s s' log :
  wf s → is_Some (vs_sessions s !! x) → transition s s' log →
  omap normal_dispatch log = [] →
  potential x s' ≤ potential x s ∧ is_Some (vs_sessions s' !! x).
Proof.
  intros Hwf [qx Hqx] Ht Hlog.
  enough (potential x s' ≤ potential x s ∧
          (same_turns (vs_sessions s) (vs_sessions s') ∨
           is_Some (vs_sessions s' !! x))) as [? [Hs|?]]; [split; [done|]|done|].
  { apply (fmap_is_Some qs_last_service_turn). rewrite <-lookup_fmap, Hs, lookup_fmap.
    rewrite Hqx. by eexists. }
  assert (∀ s1, same_turns (vs_sessions s) (vs_sessions s1) →
    vs_limits s1 = vs_limits s → vs_next_service_turn s1 = vs_next_service_turn s →
    potential x s1 ≤ potential x s ∧
      (same_turns (vs_sessions s) (vs_sessions s1) ∨ is_Some (vs_sessions s1 !! x)))
    as Hsame.
  { intros s1 Hs Hl Hn. rewrite (same_turns_potential x s) by done.
    split; [reflexivity|by left]. }
  destruct Ht as
    [id g Hid _|delta|id g0 g|request i queued _ Hi _ Hid|request q _ [_ Hq _ _ _ _]
    |event|id|Hp|order event rest a d Hc Hd|i e q m w s' _ _ Hd|];
    try (by apply Hsame); simpl in Hlog; try done.
  - split; [|right; simpl; rewrite lookup_insert_ne by congruence; by eexists].
    unfold potential, service_turn. simpl.
    rewrite lookup_insert_ne, Hqx by congruence. simpl.
    set (limit := qs_last_service_turn qx + _).
    rewrite map_sum_insert_fresh, msize_insert_fresh by done.
    pose proof (inside_bounds limit id {| qs_queued := 0; qs_last_service_turn := 0 |}).
    lia.
  - apply Hsame; [|done..]. apply same_turns_clear.
  - apply Hsame; [|done..]. by apply same_turns_insert with q.
  - apply Hsame; [|done..]. apply same_turns_clear.
  - apply Hsame; [|done..]. unfold same_turns, shutdown_state. simpl.
    rewrite <-map_fmap_compose. by apply map_fmap_ext.
Qed.

Lemma potential_transitions x s s' log :
  is_Some (vs_sessions s !! x) → transitions s s' log →
  omap normal_dispatch log = [] → potential x s' ≤ potential x s.
Proof.
  intros Hx Hts. revert Hx. induction Hts as [|????? Hwf Ht Hts IH]; [done|].
  rewrite omap_app. intros Hx [Hl Hk]%app_eq_nil.
  destruct (potential_transition x _ _ _ Hwf Hx Ht Hl) as [Hle Hx'].
  specialize (IH Hx' Hk). lia.
Qed.

Lemma backlogged_registered x s :
  wf s → backlogged x s → is_Some (vs_sessions s !! x).
Proof.
  intros Hwf (e&He&<-). destruct (queued_session s e Hwf He). by eexists.
Qed.

Section passed_over.
Context `{Platform}.

Definition passes_over (x : SessionId) (log : list Observation) : Prop :=
  ∀ w, w ∈ omap normal_dispatch log → req_session_id (sw_request w) ≠ x.

Lemma step_quiet o s :
  o ≠ OpDispatch → omap normal_dispatch (step o s).2 = [].
Proof.
  intros Ho. destruct o as [| | | |event| | | |]; simpl; try done;
    try destruct event;
    repeat match goal with
    | |- context [let '(_, _) := ?m in _] => destruct m as [? []]
    end; simpl; try done;
    by match goal with
    | |- context [accepted_critical _ ?a] => destruct a
    end.
Qed.

Lemma potential_step x o s :
  wf s → backlogged x s → passes_over x (step o s).2 →
  potential x (step o s).1 + len (omap normal_dispatch (step o s).2)
    ≤ potential x s.
Proof.
  intros Hwf Hback Hlog. pose proof (backlogged_registered x s Hwf Hback) as Hx.
  pose proof (step_transitions o s Hwf) as Hts.
  destruct (decide (omap normal_dispatch (step o s).2 = [])) as [Hnil|Hne].
  { rewrite Hnil. pose proof (potential_transitions x _ _ _ Hx Hts Hnil).
    simpl. lia. }
  destruct o as [| | | | | | | |]; try by rewrite step_quiet in Hne.
  unfold passes_over in Hlog. simpl in *.
  destruct (dispatch_next s) as [s' r] eqn:E. simpl in *.
  apply dispatch_next_spec in E as [_ E]; [|done].
  destruct E as [| |i e q m w Hc Hp Hroom Hd|]; simpl in *; try done.
  enough (potential x s' + 1 ≤ potential x s) by lia.
  eapply potential_dispatch; [done..|].
  destruct Hd as [_ _ _ _ _ -> _ _ _]. apply (Hlog _ ltac:(left)).
Qed.

Lemma passed_over_bound x ops s :
  wf s → Forall (backlogged x) (visited ops s) → passes_over x (run ops s).2 →
  len (omap normal_dispatch (run ops s).2) + 1 ≤ potential x s.
Proof.
  revert s. induction ops as [|o ops IH]; intros s Hwf Hvis Hlog.
  - apply Forall_inv in Hvis. simpl.
    pose proof (potential_bounds s x Hwf (backlogged_registered x s Hwf Hvis)). lia.
  - simpl in Hvis. apply Forall_cons in Hvis as [Hback Hvis].
    rewrite run_cons in Hlog |- *. simpl in Hlog |- *.
    unfold passes_over in Hlog. rewrite omap_app in Hlog |- *. rewrite length_app.
    assert (passes_over x (step o s).2) as Hl1
      by (intros w Hw; apply Hlog, elem_of_app; by left).
    pose proof (potential_step x o s Hwf Hback Hl1).
    pose proof (step_transitions o s Hwf) as [_ Hwf1]%transitions_wf.
    specialize (IH _ Hwf1 Hvis).
    assert (passes_over x (run ops (step o s).1).2) as Hl2
      by (intros w Hw; apply Hlog, elem_of_app; by right).
    specialize (IH Hl2). lia.
Qed.
End passed_over.

(** ** Configured limits stay *)

Lemma reachable_configured `{Platform} s : reachable s → configured (vs_limits s).
Proof.
  intros (l&ops&Hl&->). unfold run_state.
  by rewrite (transitions_limits _ _ _ (run_transitions ops _ (new_wf _ (cfg_limits _ Hl)))).
Qed.

Lemma reachable_run `{Platform} ops s : reachable s → reachable (run ops s).1.
Proof.
  intros (l&ops0&Hl&->). exists l, (ops0 ++ ops). split; [done|].
  unfold run_state. by rewrite run_app.
Qed.

(** ** Admission that cannot fail *)

Lemma open_running s id :
  wf s → session_phase (vs_terminal s) id = Some Open → vs_phase s = Running.
Proof. intros Hwf Hopen. apply (wf_running _ Hwf). by eapply open_not_shutting_down. Qed.

Lemma submit_current `{Platform} request s :
  vs_phase s = Running → admissible request s →
  submit request s =
  match list_find (coalesces request) (vs_normal s) with
  | Some (index, queued) => submit_coalesced request index queued None s
  | None => submit_enqueued request None s
  end.
Proof.
  intros Hp Hadm. unfold submit, admissible in *. cbv zeta.
  erewrite bind_ok by reflexivity. rewrite Hp.
  erewrite bind_ok by reflexivity. unfold current_generation, session_phase.
  rewrite Hadm. do 2 (erewrite bind_ok by reflexivity). simpl.
  rewrite Pos.ltb_irrefl. do 3 (erewrite bind_ok by reflexivity).
  by destruct (list_find _ _) as [[]|].
Qed.

Lemma reserve_work_id_ok w s :
  w ∉ vs_seen_work_ids s →
  msize (vs_seen_work_ids s) ≠ max_work_ids_per_epoch (vs_limits s) →
  reserve_work_id w s = (set_seen_work_ids ({[w]} ∪ vs_seen_work_ids s) s, Ok tt).
Proof.
  intros Hw Hroom. unfold reserve_work_id. erewrite bind_ok by reflexivity.
  rewrite (bool_decide_eq_false_2 (w ∈ vs_seen_work_ids s)) by done.
  erewrite bind_ok by reflexivity. rewrite (proj2 (Z.eqb_neq _ _) Hroom). done.
Qed.

Lemma submit_enqueued_ok `{Platform} request adv q s :
  has_room request q s → normal_capacity (vs_limits s) ≤ usize_max →
  submit_enqueued request adv s = (enqueued_state request q s, Ok (Enqueued adv)).
Proof.
  intros [Hfresh Hq Hown Hshared Horder Hhist] Hwidth.
  assert (0 ≤ unused_open_reservations s (Some (req_session_id request))).
  { apply map_sum_nonneg. intros. apply unused_reservation_nonneg. }
  unfold submit_enqueued. cbv zeta. erewrite bind_ok by reflexivity.
  rewrite (bool_decide_eq_false_2 (_ ∈ vs_seen_work_ids s)) by done.
  erewrite bind_ok by reflexivity. rewrite Hq. erewrite bind_ok by reflexivity.
  rewrite (proj2 (Z.eqb_neq _ _) Hown). erewrite bind_ok by reflexivity.
  unfold checked_add.
  replace (len (vs_normal s) + 1 <=? usize_max) with true by lia. simpl.
  replace (len (vs_normal s) + 1
    + unused_open_reservations s (Some (req_session_id request)) <=? usize_max)
    with true by lia.
  erewrite bind_ok by reflexivity.
  rewrite (proj2 (Z.ltb_ge _ _) Hshared). erewrite bind_ok by reflexivity.
  rewrite (proj2 (Z.eqb_neq _ _) Horder). erewrite bind_ok by reflexivity.
  erewrite bind_ok by (by apply reserve_work_id_ok).
  erewrite bind_ok by reflexivity. simpl. rewrite Hq. done.
Qed.

(** What a reservation is worth: while a session has used less than its
    reservation, one more entry fits. *)
Lemma reservation_room request q s :
  wf s → admissible request s → vs_sessions s !! req_session_id request = Some q →
  qs_queued q < per_session_reservation (vs_limits s) →
  req_work_id request ∉ vs_seen_work_ids s →
  msize (vs_seen_work_ids s) ≠ max_work_ids_per_epoch (vs_limits s) →
  vs_next_enqueue_order s ≠ u64_max →
  has_room request q s.
Proof.
  intros Hwf Hadm Hq Hless Hfresh Hhist Horder.
  pose proof (lim_reservation _ (wf_limits _ Hwf)).
  split; try done; [lia|].
  pose proof (q_capacity _ _ _ _ (wf_queue _ Hwf)) as Hcap.
  rewrite (reserved_excluding _ _ _ (req_session_id request) q) in Hcap by done.
  assert (unused_reservation (vs_limits s) (vs_terminal s) None
            (req_session_id request) q
          = per_session_reservation (vs_limits s) - qs_queued q) as Hun.
  { unfold unused_reservation, session_phase. rewrite Hadm. simpl.
    repeat case_bool_decide; try done. unfold saturating_sub. lia. }
  unfold unused_open_reservations. lia.
Qed.

(** ** Sessions that are over *)

(** The scheduler is shutting down or the session is closing. *)
Definition session_over (s : ViewportScheduler) (id : SessionId) : Prop :=
  ta_shutting_down (vs_terminal s) = true ∨
  session_phase (vs_terminal s) id = Some Closing.

Lemma session_over_transition s s' log id :
  wf s → transition s s' log → session_over s id → session_over s' id.
Proof.
  intros Hwf Ht. destruct (transition_sessions_advance _ _ _ Hwf Ht) as [Hd Hs].
  intros [?|Hp]; [left; auto|right]. unfold session_phase in *.
  destruct (ta_sessions (vs_terminal s) !! id) as [x|] eqn:Hx; [|done].
  destruct (Hs _ _ Hx) as (x'&->&Hp'&_). simpl in *. f_equal. apply Hp'. congruence.
Qed.

Lemma session_over_not_dispatched s s' log id w :
  wf s → transition s s' log → session_over s id →
  w ∈ omap normal_dispatch log → req_session_id (sw_request w) ≠ id.
Proof.
  intros Hwf Ht Hover Hw Heq.
  destruct Ht as [| | | | | | | | |i e q m w' s' _ _ Hd|]; simpl in Hw;
    try by apply not_elem_of_nil in Hw.
  apply list_elem_of_singleton in Hw as ->.
  destruct Hd as [Hi _ _ _ _ -> _ _ _]. simpl in Heq.
  pose proof (q_entries _ _ _ _ (wf_queue _ Hwf) e (list_elem_of_lookup_2 _ _ _ Hi))
    as Hopen. unfold qw_session in Hopen. rewrite Heq in Hopen.
  destruct Hover as [Hd|Hc].
  - by pose proof (awf_shutdown _ (wf_arbiter _ Hwf) Hd _ _ Hopen).
  - unfold session_phase in Hc. by rewrite Hopen in Hc.
Qed.

Lemma session_over_transitions s s' log id w :
  transitions s s' log → session_over s id →
  w ∈ omap normal_dispatch log → req_session_id (sw_request w) ≠ id.
Proof.
  induction 1 as [|????? Hwf Ht Hts IH]; intros Hover.
  - by intros ?%not_elem_of_nil.
  - rewrite omap_app. intros [Hw|Hw]%elem_of_app.
    + by eapply session_over_not_dispatched.
    + apply IH; [|done]. by eapply session_over_transition.
Qed.

(** ** Aging *)

(** The aging steps an entry has accumulated. *)
Definition aging_steps (s : ViewportScheduler) (e : QueuedWork) : Z :=
  Z.min (saturating_sub (vs_tick s) (qw_enqueue_tick e)
         / aging_quantum_ticks (vs_limits s)) (max_aging_steps (vs_limits s)).

Lemma aging_steps_bounds s e :
  limits_ok (vs_limits s) → 0 ≤ aging_steps s e ≤ max_aging_steps (vs_limits s).
Proof.
  intros Hl. unfold aging_steps.
  pose proof (lim_quantum _ Hl). pose proof (lim_steps _ Hl).
  assert (0 ≤ saturating_sub (vs_tick s) (qw_enqueue_tick e)
              / aging_quantum_ticks (vs_limits s))
    by (apply Z.div_pos; unfold saturating_sub; lia). lia.
Qed.

Lemma entry_key_fields s e :
  limits_ok (vs_limits s) → max_aging_steps (vs_limits s) ≤ u8_max →
  aging_lane (entry_key s e) =
    (if aging_steps s e =? max_aging_steps (vs_limits s) then 0 else 1) ∧
  effective_priority (entry_key s e) =
    saturating_sub (Priority_rank (req_priority (qw_request e))) (aging_steps s e) ∧
  capped_enqueue_order (entry_key s e) =
    (if aging_steps s e =? max_aging_steps (vs_limits s)
     then qw_enqueue_order e else 0).
Proof.
  intros Hl Hu8. pose proof (aging_steps_bounds s e Hl) as Hb.
  unfold entry_key, SchedulingKey_for_request. fold (aging_steps s e).
  unfold try_from. replace ((0 <=? aging_steps s e) && (aging_steps s e <=? u8_max))
    with true by lia. done.
Qed.
