(* ===== verification/SchedulerProps.v ===== *)
(** * What the scheduler guarantees

    The theorems about the scheduler, each followed by a witness that applies
    it to a concrete run. *)

From stdpp Require Import base gmap list numbers option sorting.
From S2P Require Import Prelude.
From S2P Require Import SchedulerTypes.
From S2P Require Import Arbiter.
From S2P Require Import Scheduler.
From S2P Require Import SchedulerInv.
From S2P Require Import SchedulerSteps.
From S2P Require Import SchedulerDispatch.
From S2P Require Import SchedulerRuns.

(** ** A concrete configuration and runs, for the witnesses *)

Module Examples.
#[export] Existing Instance desktop64.

Definition limits : SchedulerLimits :=
  {| normal_capacity := 4; per_session_reservation := 1;
     per_session_capacity := 2; critical_capacity := 4;
     in_flight_capacity := 3; max_sessions := 3;
     max_work_ids_per_epoch := 16; aging_quantum_ticks := 5;
     max_aging_steps := 4; fairness_burst := 2 |}.

Lemma limits_configured : configured limits.
Proof. split; [split|]; vm_compute; repeat split; discriminate. Qed.

Definition request (w sess : positive) (generation : Generation) (key : Z)
    (priority : Priority) : WorkRequest :=
  {| req_work_id := w; req_session_id := sess; req_generation := generation;
     req_replace_key := ReplaceKey_tile key; req_priority := priority;
     req_center_distance := 0; req_edge_distance := 0;
     req_scroll_relation := Neutral |}.

Definition signal (w sess : positive) (generation : Generation)
    : TerminalSignal :=
  {| sig_work_id := w; sig_session_id := sess; sig_generation := generation |}.

(** Two sessions; session 1 has two entries, session 2 one. *)
Definition setup : list Operation :=
  [OpRegister 1 1; OpRegister 2 1;
   OpSubmit (request 10 1 1 0 P2); OpSubmit (request 11 1 1 1 P3);
   OpSubmit (request 20 2 1 0 P1)].

(** Dispatch all, complete one, cancel one, let one fail. *)
Definition work : list Operation :=
  setup ++
  [OpDispatch; OpDispatch; OpDispatch;
   OpCritical (InCompletion (signal 20 2 1) 7);
   OpCritical (InCancel (signal 10 1 1));
   OpCritical (InFailure (signal 11 1 1));
   OpCritical (InCompletion (signal 20 2 1) 8);
   OpDispatch; OpDispatch; OpDispatch; OpDispatch].

Definition state (ops : list Operation) : ViewportScheduler :=
  run_state limits ops.
Definition log (ops : list Operation) : list Observation :=
  run_log limits ops.

Lemma state_reachable ops : reachable (state ops).
Proof. exists limits, ops. split; [apply limits_configured|done]. Qed.

Example work_dispatches : dispatched_ids (log work) = [20; 10; 11]%positive.
Proof. vm_compute. reflexivity. Qed.
Example work_resolves : resolved_ids (log work) = [20; 10; 11]%positive.
Proof. vm_compute. reflexivity. Qed.
Example work_publishes : published_ids (log work) = [20]%positive.
Proof. vm_compute. reflexivity. Qed.
End Examples.

Lemma nonneg_nonzero (x : Z) : x ≠ 0 → 0 ≤ x → 0 < x.
Proof. lia. Qed.

Section properties.
Context `{Platform}.
Implicit Types s : ViewportScheduler.

(** C1: Whatever sequence of calls a configured scheduler has received, its
    state is well-formed: the queue plus all unused reservations fits the
    shared capacity, every session, in-flight, critical and history bound
    holds, every queued entry belongs to an open session at its current
    generation, [queued] counts it, identities and coalescing keys are
    unique, and orders, turns and ticks are consistent. *)
Theorem scheduler_invariant s :
  reachable s →
  wf s ∧
  len (vs_normal s) + unused_open_reservations s None
    ≤ normal_capacity (vs_limits s) ∧
  in_flight_len (vs_terminal s) ≤ in_flight_capacity (vs_limits s) ∧
  msize (vs_sessions s) ≤ max_sessions (vs_limits s).
Proof.
  intros Hs%reachable_wf. split_and!; [done| | |by apply sessions_bound].
  - apply (q_capacity _ _ _ _ (wf_queue _ Hs)).
  - pose proof (awf_max_in_flight _ (wf_arbiter _ Hs)) as Hf.
    by rewrite (wf_arbiter_limits _ Hs) in Hf.
Qed.

(** No sum of reservations overflows [usize]: the iterator sum in
    [unused_open_reservations], whoever is excluded, stays below the shared
    capacity, and that capacity is representable. *)
Theorem reservations_never_overflow s excluded :
  reachable s →
  0 ≤ unused_open_reservations s excluded ≤ normal_capacity (vs_limits s) ∧
  normal_capacity (vs_limits s) ≤ usize_max.
Proof.
  intros Hr. pose proof (reachable_wf _ Hr) as Hs.
  destruct (reachable_configured _ Hr) as [Hl Hw].
  pose proof (lim_in_flight _ Hl). split; [|lia]. split.
  - apply map_sum_nonneg. intros. apply unused_reservation_nonneg.
  - pose proof (q_capacity _ _ _ _ (wf_queue _ Hs)) as Hcap.
    enough (unused_open_reservations s excluded ≤ unused_open_reservations s None).
    { unfold unused_open_reservations, reserved in *. lia. }
    apply map_sum_le. intros id q _. unfold unused_reservation, saturating_sub.
    rewrite (bool_decide_eq_false_2 (Some id = None)) by done.
    repeat case_bool_decide; lia.
Qed.

(** [dispatch_next] never reports a broken invariant: none of its lookups,
    its index into the queue, its selection and its subtraction can fail. *)
Theorem dispatch_never_breaks s :
  reachable s → (dispatch_next s).2 ≠ Err InvariantViolation.
Proof.
  intros Hs%reachable_wf. destruct (dispatch_next s) as [s' r] eqn:E.
  apply dispatch_next_spec in E as [_ E]; [|done]. simpl. by destruct E.
Qed.

(** C36: Normal dispatch is selection by scheduling key under the fairness
    bound: it takes the entry whose key is strictly below that of every other
    queued entry whose session is admitted, where a session is admitted when
    its last service turn is less than the smallest one plus the burst; the
    evidence it returns states exactly these numbers, and the entry leaves
    the queue for the in-flight map. *)
Theorem dispatch_selects_least s s' w :
  reachable s → dispatch_next s = (s', Ok (Some (DispatchNormal w))) →
  ∃ i e q m,
    vs_normal s !! i = Some e ∧ sw_request w = qw_request e ∧
    vs_sessions s !! qw_session e = Some q ∧
    sw_scheduling_key w = entry_key s e ∧
    sw_fairness w =
      {| minimum_last_service_turn := m;
         session_last_service_turn := qs_last_service_turn q;
         exclusive_turn_limit := m + fairness_burst (vs_limits s) |} ∧
    least_turn s m ∧
    qs_last_service_turn q < m + fairness_burst (vs_limits s) ∧
    (∀ j e', j ≠ i → vs_normal s !! j = Some e' →
       admitted s (m + fairness_burst (vs_limits s)) e' →
       SchedulingKey_ltb (entry_key s e) (entry_key s e') = true) ∧
    vs_normal s' = delete i (vs_normal s) ∧
    ta_in_flight (vs_terminal s') =
      <[qw_work_id e := signal_of_request (qw_request e)]>
        (ta_in_flight (vs_terminal s)).
Proof.
  intros Hs%reachable_wf E. apply dispatch_next_spec in E as [_ E]; [|done].
  inversion E as [| |i e q m w' Hc Hp Hroom Hd|]; subst.
  destruct Hd as [Hi Hq Hm _ Hlt -> Hbest _ ->].
  exists i, e, q, m. split_and!; try done.
  intros j e' Hne Hj Hadm. apply SchedulingKey_ltb_total; [|by eapply Hbest].
  intros Heq. apply Hne.
  assert (qw_work_id e' = qw_work_id e) as Hid.
  { apply (f_equal key_work_id) in Heq. by injection Heq. }
  pose proof (i_nodup _ _ _ (wf_ids _ Hs)) as Hnd.
  eapply NoDup_lookup; [exact Hnd| |]; rewrite list_lookup_fmap.
  - rewrite Hj. simpl. by rewrite Hid.
  - by rewrite Hi.
Qed.

(** C16: Bounded starvation. While a session has queued work, fewer than
    [fairness_burst + max_sessions] other normal dispatches pass it over,
    whatever calls are interleaved: registrations, submissions with any
    priority, ticks, closes, critical events. *)
Theorem bounded_starvation s x ops :
  reachable s → Forall (backlogged x) (visited ops s) →
  passes_over x (run ops s).2 →
  len (omap normal_dispatch (run ops s).2)
    ≤ fairness_burst (vs_limits s) + max_sessions (vs_limits s) - 2.
Proof.
  intros Hs%reachable_wf Hvis Hpass.
  pose proof (passed_over_bound x ops s Hs Hvis Hpass).
  assert (backlogged x s) as Hback
    by (destruct ops; by apply Forall_inv in Hvis).
  pose proof (potential_bounds s x Hs (backlogged_registered x s Hs Hback)). lia.
Qed.

(** C23: The ledger of dispatched work. Over any run, every work identity is
    dispatched at most once and becomes terminal (published, discarded,
    cancelled or failed) at most once, only dispatched work becomes terminal,
    and the in-flight map holds exactly the dispatched work that has not
    become terminal. *)
Theorem terminal_ledger l ops :
  configured l →
  NoDup (dispatched_ids (run_log l ops)) ∧
  NoDup (resolved_ids (run_log l ops)) ∧
  (∀ w, w ∈ resolved_ids (run_log l ops) → w ∈ dispatched_ids (run_log l ops)) ∧
  (∀ w, is_Some (ta_in_flight (vs_terminal (run_state l ops)) !! w) ↔
     w ∈ dispatched_ids (run_log l ops) ∧ w ∉ resolved_ids (run_log l ops)).
Proof.
  intros [Hl _]. pose proof (run_transitions ops _ (new_wf _ Hl)) as Hts.
  pose proof (ledger_transitions _ _ _ _ Hts (ledger_new l)) as [HD HR Hi Ha _ _].
  by split_and!.
Qed.

(** A finished shutdown has accounted for all work: when
    [try_finish_shutdown] first succeeds, the work dispatched over the whole
    run is a permutation of the work that became terminal. *)
Theorem shutdown_accounts_for_all_work l ops :
  configured l → (try_finish_shutdown (run_state l ops)).2 = true →
  dispatched_ids (run_log l ops) ≡ₚ resolved_ids (run_log l ops).
Proof.
  intros [Hl _]. pose proof (run_transitions ops _ (new_wf _ Hl)) as Hts.
  pose proof (ledger_transitions _ _ _ _ Hts (ledger_new l)) as [HD HR Hi Ha _ _].
  apply transitions_wf in Hts as [_ Hwf].
  fold (run_state l ops) in *. simpl in *. fold (run_log l ops) in *.
  destruct (try_finish_shutdown (run_state l ops)) as [s' b] eqn:E.
  apply try_finish_shutdown_spec in E as (_&Hb&_); [|done]. simpl.
  intros (_&_&Hempty)%Hb. apply NoDup_Permutation; [done..|].
  intros w. split; [|apply Hi]. intros Hw.
  destruct (decide (w ∈ resolved_ids (run_log l ops))) as [|Hn]; [done|].
  destruct (proj2 (Ha w) (conj Hw Hn)) as [sig Hsig].
  by rewrite Hempty, lookup_empty in Hsig.
Qed.

(** Publication is exact: a dispatched publication answers the oldest
    accepted completion, whose signal equals the in-flight identity of that
    work, whose session is open at the signal's generation, before shutdown;
    it removes that identity. *)
Theorem publication_exact s s' w r :
  reachable s →
  dispatch_next s =
    (s', Ok (Some (DispatchCritical (OutCompletion (Publish w r))))) →
  ∃ order sig rest,
    vs_critical s = (order, InCompletion sig r) :: rest ∧ sig_work_id sig = w ∧
    ta_in_flight (vs_terminal s) !! w = Some sig ∧
    vs_phase s = Running ∧
    ta_sessions (vs_terminal s) !! sig_session_id sig =
      Some {| ts_generation := sig_generation sig; ts_phase := Open |} ∧
    ta_in_flight (vs_terminal s') !! w = None.
Proof.
  intros Hs%reachable_wf E. apply dispatch_next_spec in E as [_ E]; [|done].
  inversion E as [order event rest a d Hc Hd| | |]; subst.
  destruct (published_exact _ _ _ _ w Hd eq_refl)
    as (sig&r'&->&Hw&Hr&Hsig&Hup&Hopen). simplify_eq.
  pose proof (dispatch_critical_spec _ _ _ _ (wf_arbiter _ Hs) Hd) as [_ ->].
  exists order, sig, rest. split_and!; try done.
  - by apply (wf_running _ Hs).
  - simpl. apply lookup_delete_eq.
Qed.

(** Superseded, closed or shut-down work is never published: once a work
    identity has been used, is not queued, and is in flight at most with a
    superseded generation, for a closing session or during shutdown, no
    continuation of the run publishes it. *)
Theorem obsolete_never_published s w ops :
  reachable s → unpublishable s w → w ∉ published_ids (run ops s).2.
Proof.
  intros Hs%reachable_wf Hu.
  by eapply unpublishable_transitions; [apply run_transitions|].
Qed.

(** After a session has begun to close, or after shutdown has begun, no
    continuation of the run dispatches normal work of that session. *)
Theorem closed_never_dispatched s id ops w :
  reachable s → session_over s id →
  w ∈ omap normal_dispatch (run ops s).2 → req_session_id (sw_request w) ≠ id.
Proof.
  intros Hs%reachable_wf Hover.
  by eapply session_over_transitions; [apply run_transitions|].
Qed.

(** Critical events are answered in the order they were accepted: over any
    run the accepted events are the answered ones followed by the pending
    ones, each answer has the kind and the identities of its event, and no
    event is lost or answered twice. *)
Theorem critical_fifo l ops :
  configured l →
  ∃ answered,
    omap accepted_event (run_log l ops) =
      answered ++ (snd <$> vs_critical (run_state l ops)) ∧
    Forall2 answers answered (omap critical_dispatch (run_log l ops)).
Proof.
  intros [Hl _]. pose proof (run_transitions ops _ (new_wf _ Hl)) as Hts.
  eapply (fifo_transitions _ _ _ ([], [])) in Hts as (p&HA&HD);
    [|by exists []]. by exists p.
Qed.

(** C34: The per-session reservation is a guarantee. An open session that uses
    less of the queue than its reservation has a submission of its current
    generation accepted, however much the other sessions have queued; only a
    reused work identity, a full identity history or an exhausted counter
    can refuse it. *)
Theorem reservation_guarantees_admission request s q :
  reachable s → admissible request s →
  vs_sessions s !! req_session_id request = Some q →
  qs_queued q < per_session_reservation (vs_limits s) →
  req_work_id request ∉ vs_seen_work_ids s →
  msize (vs_seen_work_ids s) ≠ max_work_ids_per_epoch (vs_limits s) →
  vs_next_enqueue_order s ≠ u64_max →
  ∃ outcome, (submit request s).2 = Ok outcome.
Proof.
  intros Hr Hadm Hq Hless Hfresh Hhist Horder.
  pose proof (reachable_wf _ Hr) as Hs. rewrite submit_current; [|..|done].
  2:{ eapply open_running; [done|]. unfold session_phase, admissible in *.
      by rewrite Hadm. }
  destruct (list_find _ _) as [[i queued]|].
  - unfold submit_coalesced, when. cbv zeta. case_bool_decide.
    + erewrite bind_ok by (by apply reserve_work_id_ok). by eexists.
    + by eexists.
  - rewrite (submit_enqueued_ok _ _ q); [by eexists|by apply reservation_room|].
    destruct (reachable_configured _ Hr) as [Hl ?].
    pose proof (lim_in_flight _ Hl). lia.
Qed.

(** Replacement is in place: a coalesced submission of the current
    generation changes one entry of the queue, which keeps its session,
    generation, coalescing key, enqueue order and enqueue tick; every other
    entry keeps its position and no capacity is consumed. *)
Theorem coalescing_in_place request s s' old new :
  reachable s → submit request s = (s', Ok (Coalesced old new None)) →
  ∃ i e,
    vs_normal s !! i = Some e ∧ qw_work_id e = old ∧
    new = req_work_id request ∧
    req_generation (qw_request e) = req_generation request ∧
    coalescing_key e = (req_session_id request, req_replace_key request) ∧
    vs_normal s' = <[i := {| qw_request := request;
                             qw_enqueue_order := qw_enqueue_order e;
                             qw_enqueue_tick := qw_enqueue_tick e |}]> (vs_normal s) ∧
    (qw_enqueue_order <$> vs_normal s') = (qw_enqueue_order <$> vs_normal s) ∧
    (coalescing_key <$> vs_normal s') = (coalescing_key <$> vs_normal s) ∧
    vs_sessions s' = vs_sessions s ∧
    vs_next_enqueue_order s' = vs_next_enqueue_order s.
Proof.
  intros Hs%reachable_wf E. apply submit_spec in E as [_ E]; [|done].
  inversion E as [adv s1 i e Hset _ Hfind _ Hs' Ho|]; subst.
  simpl in Hset. subst s1. apply list_find_Some in Hfind as (Hi&(Hse&Hg&Hk)&_).
  exists i, e. split_and!; try done.
  - unfold coalescing_key, qw_session. by rewrite Hse, Hk.
  - simpl. by rewrite (fmap_replace_same _ _ _ e).
  - simpl. rewrite (fmap_replace_same _ _ _ e); [done..|].
    unfold coalescing_key, qw_session. simpl. by rewrite Hse, Hk.
Qed.

(** A new generation supersedes: a successful [advance_generation] returns
    the session's queued identities in queue order, leaves the other
    sessions' entries as they were and none of the session's, raises the
    generation, and from then on a submission of an older generation is
    refused without effect. *)
Theorem generation_supersedes id g s s' adv :
  reachable s → advance_generation id g s = (s', Ok adv) →
  adv_superseded_queued adv =
    qw_work_id <$> filter (λ e, qw_session e = id) (vs_normal s) ∧
  vs_normal s' = filter (λ e, qw_session e ≠ id) (vs_normal s) ∧
  (adv_previous adv < g)%positive ∧
  current_generation (vs_terminal s') id = Some g ∧
  (∀ request, req_session_id request = id → (req_generation request < g)%positive →
     submit request s' =
       (s', Err (AdmSupersededGeneration (req_generation request) g))).
Proof.
  intros Hs%reachable_wf E.
  apply advance_generation_spec in E as [_ (g0&Ht&Hlt&Hp&->&->)]; [|done].
  assert (current_generation
    (vs_terminal (replace_terminal_session id
      {| ts_generation := g; ts_phase := Open |} s)) id = Some g ∧
    session_phase (vs_terminal (replace_terminal_session id
      {| ts_generation := g; ts_phase := Open |} s)) id = Some Open) as [Hg Hph].
  { unfold current_generation, session_phase. simpl. by rewrite lookup_insert_eq. }
  split_and!; try done.
  intros request Hid Hold. unfold submit. cbv zeta. rewrite Hid.
  erewrite bind_ok by reflexivity. simpl. rewrite Hp.
  erewrite bind_ok by reflexivity. simpl in Hg, Hph. rewrite Hg.
  erewrite bind_ok by reflexivity. rewrite Hph.
  erewrite bind_ok by reflexivity.
  rewrite (proj2 (Pos.ltb_lt _ _) Hold). done.
Qed.

(** Aging prevents a low priority from waiting forever behind fresh work:
    with at least four aging steps, an entry that has reached the cap is
    selected before every entry that has not, and among capped entries the
    older enqueue order wins, whatever the priorities and distances. *)
Theorem aged_entries_first s e e' :
  limits_ok (vs_limits s) → 4 ≤ max_aging_steps (vs_limits s) ≤ u8_max →
  aging_steps s e = max_aging_steps (vs_limits s) →
  aging_steps s e' < max_aging_steps (vs_limits s) ∨
    (aging_steps s e' = max_aging_steps (vs_limits s) ∧
     qw_enqueue_order e < qw_enqueue_order e') →
  SchedulingKey_ltb (entry_key s e) (entry_key s e') = true.
Proof.
  intros Hl Hsteps He He'.
  destruct (entry_key_fields s e Hl ltac:(lia)) as (Hlane&Hprio&Hord).
  destruct (entry_key_fields s e' Hl ltac:(lia)) as (Hlane'&Hprio'&Hord').
  assert (∀ p, saturating_sub (Priority_rank p) (max_aging_steps (vs_limits s)) = 0)
    as Hzero by (intros []; unfold saturating_sub; simpl; lia).
  unfold SchedulingKey_ltb, SchedulingKey_fields. cbn [lex_ltb].
  rewrite Hlane, Hlane', Hprio, Hprio', Hord, Hord', He, Z.eqb_refl.
  destruct He' as [Hlt|[-> Hlt]].
  - by rewrite (proj2 (Z.eqb_neq _ _)) by lia.
  - rewrite Z.eqb_refl, !Hzero. simpl.
    by rewrite (proj2 (Z.ltb_lt _ _) Hlt).
Qed.

(** [SchedulerLimits::new] accepts exactly the usable configurations: on
    [usize], [u64] and [u8] arguments it returns the limits unchanged if
    every bound is positive, the reservation fits the session capacity, all
    reservations fit the shared capacity, the identity history covers queue
    and in-flight work, and these sums do not overflow; otherwise it
    refuses. *)
Theorem limits_exact l :
  0 ≤ normal_capacity l ≤ usize_max → 0 ≤ per_session_reservation l →
  0 ≤ per_session_capacity l → 0 ≤ critical_capacity l →
  0 ≤ in_flight_capacity l → 0 ≤ max_sessions l →
  0 ≤ max_work_ids_per_epoch l → 0 ≤ aging_quantum_ticks l →
  0 ≤ max_aging_steps l → 0 ≤ fairness_burst l →
  decides (configured l) l
    (SchedulerLimits_new (normal_capacity l) (per_session_reservation l)
       (per_session_capacity l) (critical_capacity l) (in_flight_capacity l)
       (max_sessions l) (max_work_ids_per_epoch l) (aging_quantum_ticks l)
       (max_aging_steps l) (fairness_burst l)).
Proof.
  intros. unfold SchedulerLimits_new, checked_mul, checked_add.
  do 10 (apply decides_fail_if;
    [intros ?%Z.eqb_eq [[] ?]; lia|intros ?%Z.eqb_neq%nonneg_nonzero; [|lia]]).
  apply decides_fail_if; [intros ? [[] ?]; lia|intros ?].
  apply decides_require; [intros ? [[] ?]; case_match; [done|lia]|intros rsv ?].
  apply decides_fail_if;
    [intros ? [[] ?]; case_match; simplify_eq; lia|intros ?].
  apply decides_require; [intros ? [[] ?]; case_match; [done|lia]|intros lb ?].
  apply decides_fail_if;
    [intros ? [[] ?]; repeat case_match; simplify_eq; lia|intros ?].
  repeat case_match; simplify_eq.
  left. split; [split; [split|]; lia|by destruct l].
Qed.
End properties.

(** ** Witnesses: the theorems at concrete runs *)

Section witnesses.
Import Examples.

(** The queue, registry and in-flight sizes after [setup] and two dispatches. *)
Lemma scheduler_invariant_witness :
  len (vs_normal (state (setup ++ [OpDispatch]))) = 2 ∧
  2 + unused_open_reservations (state (setup ++ [OpDispatch])) None ≤ 4.
Proof.
  destruct (scheduler_invariant _ (state_reachable (setup ++ [OpDispatch])))
    as (_&Hcap&_).
  assert (len (vs_normal (state (setup ++ [OpDispatch]))) = 2) as Hlen
    by (vm_compute; reflexivity).
  assert (normal_capacity (vs_limits (state (setup ++ [OpDispatch]))) = 4) as Hn
    by (vm_compute; reflexivity).
  rewrite Hlen, Hn in Hcap. split; [exact Hlen|exact Hcap].
Defined.

Lemma reservations_never_overflow_witness :
  unused_open_reservations (state (setup ++ [OpDispatch])) (Some 1%positive) = 1 ∧
  1 ≤ normal_capacity limits.
Proof.
  destruct (reservations_never_overflow _ (Some 1%positive)
    (state_reachable (setup ++ [OpDispatch]))) as [[_ Hle] _].
  assert (unused_open_reservations (state (setup ++ [OpDispatch]))
    (Some 1%positive) = 1) as Hun by (vm_compute; reflexivity).
  assert (vs_limits (state (setup ++ [OpDispatch])) = limits) as Hl
    by (vm_compute; reflexivity).
  rewrite Hun, Hl in Hle. split; [exact Hun|exact Hle].
Defined.

Lemma dispatch_never_breaks_witness :
  (dispatch_next (state setup)).2 ≠ Err InvariantViolation.
Proof. apply dispatch_never_breaks, state_reachable. Defined.

Lemma dispatch_selects_least_witness :
  ∃ i e, vs_normal (state setup) !! i = Some e ∧ qw_work_id e = 20%positive.
Proof.
  destruct (dispatch_next (state setup)) as [s' r] eqn:E.
  assert (∃ w, r = Ok (Some (DispatchNormal w)) ∧ work_of w = 20%positive)
    as (w&->&Hw).
  { apply (f_equal snd) in E. cbn [snd] in E. subst r. vm_compute.
    eexists. split; reflexivity. }
  destruct (dispatch_selects_least _ _ _ (state_reachable setup) E)
    as (i&e&q&m&Hi&Hreq&_).
  exists i, e. split; [exact Hi|]. unfold work_of in Hw. unfold qw_work_id.
  rewrite <-Hreq. exact Hw.
Defined.

(** Session 1 has two entries; one dispatch of session 2 passes it over. *)
Lemma bounded_starvation_witness :
  len (omap normal_dispatch (run [OpDispatch] (state setup)).2) = 1 ∧
  1 ≤ fairness_burst limits + max_sessions limits - 2.
Proof.
  split; [vm_compute; reflexivity|].
  assert (vs_limits (state setup) = limits) as <- by (vm_compute; reflexivity).
  assert (len (omap normal_dispatch (run [OpDispatch] (state setup)).2) = 1) as <-
    by (vm_compute; reflexivity).
  apply (bounded_starvation (state setup) 1 [OpDispatch]).
  - apply state_reachable.
  - repeat constructor; vm_compute; eexists; (split; [left|]); reflexivity.
  - intros w Hw. vm_compute in Hw.
    apply list_elem_of_singleton in Hw. subst w. discriminate.
Defined.

Lemma terminal_ledger_witness :
  NoDup (dispatched_ids (log work)) ∧ NoDup (resolved_ids (log work)).
Proof.
  destruct (terminal_ledger limits work limits_configured) as (HD&HR&_).
  split; [exact HD|exact HR].
Defined.

Lemma shutdown_accounts_for_all_work_witness :
  dispatched_ids (log (work ++ [OpShutdown; OpDispatch])) ≡ₚ
  resolved_ids (log (work ++ [OpShutdown; OpDispatch])).
Proof.
  apply (shutdown_accounts_for_all_work limits
    (work ++ [OpShutdown; OpDispatch]) limits_configured).
  vm_compute. reflexivity.
Defined.

(** The first critical event of [work] publishes resource 7 for work 20. *)
Lemma publication_exact_witness :
  ∃ order sig rest,
    vs_critical (state (take 12 work)) = (order, InCompletion sig 7) :: rest ∧
    sig_work_id sig = 20%positive.
Proof.
  destruct (dispatch_next (state (take 12 work))) as [s' r] eqn:E.
  assert (r = Ok (Some (DispatchCritical (OutCompletion (Publish 20 7))))) as ->.
  { apply (f_equal snd) in E. cbn [snd] in E. subst r. vm_compute. reflexivity. }
  destruct (publication_exact _ _ _ _ (state_reachable (take 12 work)) E)
    as (order&sig&rest&Hc&Hw&_).
  exists order, sig, rest. split; [exact Hc|exact Hw].
Defined.

(** Work 20 is in flight with a superseded generation. *)
Lemma obsolete_never_published_witness :
  20%positive ∉ published_ids
    (run [OpCritical (InCompletion (signal 20 2 1) 7); OpDispatch]
       (state (setup ++ [OpDispatch; OpAdvance 2 5]))).2.
Proof.
  apply obsolete_never_published; [apply state_reachable|]. split.
  - vm_compute. reflexivity.
  - vm_compute. intros Hin. repeat (apply elem_of_cons in Hin as [Hin|Hin];
      [discriminate|]). by apply not_elem_of_nil in Hin.
  - intros sig Hsig. vm_compute in Hsig. simplify_eq. right. eexists.
    split; [vm_compute; reflexivity|]. right. reflexivity.
Defined.

Lemma closed_never_dispatched_witness :
  ∃ w, omap normal_dispatch
      (run [OpDispatch; OpDispatch; OpDispatch] (state (setup ++ [OpClose 1]))).2 = [w] ∧
    req_session_id (sw_request w) ≠ 1%positive.
Proof.
  destruct (omap normal_dispatch
    (run [OpDispatch; OpDispatch; OpDispatch] (state (setup ++ [OpClose 1]))).2)
    as [|w [|]] eqn:E; [vm_compute in E; discriminate| |vm_compute in E; discriminate].
  exists w. split; [reflexivity|].
  apply (closed_never_dispatched (state (setup ++ [OpClose 1])) 1
    [OpDispatch; OpDispatch; OpDispatch]).
  - apply state_reachable.
  - right. vm_compute. reflexivity.
  - rewrite E. left.
Defined.

Lemma critical_fifo_witness :
  ∃ answered,
    omap accepted_event (log work) =
      answered ++ (snd <$> vs_critical (state work)) ∧
    Forall2 answers answered (omap critical_dispatch (log work)).
Proof.
  exact (critical_fifo limits work limits_configured).
Defined.

(** Session 2 has queued nothing while session 1 has filled its share. *)
Lemma reservation_guarantees_admission_witness :
  ∃ outcome, (submit (request 30 2 1 9 P4) (state (take 4 setup))).2 = Ok outcome.
Proof.
  apply (reservation_guarantees_admission _ _
    {| qs_queued := 0; qs_last_service_turn := 0 |} (state_reachable (take 4 setup)));
    try (vm_compute; reflexivity); vm_compute; try discriminate; intros Hin;
    inversion Hin.
Defined.

Lemma coalescing_in_place_witness :
  ∃ i e, vs_normal (state setup) !! i = Some e ∧ qw_work_id e = 11%positive.
Proof.
  destruct (submit (request 31 1 1 1 P0) (state setup)) as [s' r] eqn:E.
  assert (r = Ok (Coalesced 11 31 None)) as ->.
  { apply (f_equal snd) in E. cbn [snd] in E. subst r. vm_compute. reflexivity. }
  destruct (coalescing_in_place _ _ _ _ _ (state_reachable setup) E)
    as (i&e&Hi&He&_). exists i, e. split; [exact Hi|exact He].
Defined.

Lemma generation_supersedes_witness :
  ∃ adv, (advance_generation 1 3 (state setup)).2 = Ok adv ∧
    adv_superseded_queued adv = [10; 11]%positive.
Proof.
  destruct (advance_generation 1 3 (state setup)) as [s' r] eqn:E.
  assert (∃ adv, r = Ok adv) as [adv ->].
  { apply (f_equal snd) in E. cbn [snd] in E. subst r. vm_compute.
    eexists. reflexivity. }
  destruct (generation_supersedes _ _ _ _ _ (state_reachable setup) E) as [Hadv _].
  exists adv. split; [reflexivity|]. rewrite Hadv. vm_compute. reflexivity.
Defined.

(** After 20 ticks the entries of [setup] are capped: work 11 (P3, enqueued
    second) goes before work 20 (P1, enqueued third). *)
Lemma aged_entries_first_witness :
  ∃ e e', vs_normal (state (setup ++ [OpTick 20])) !! 1%nat = Some e ∧
    vs_normal (state (setup ++ [OpTick 20])) !! 2%nat = Some e' ∧
    SchedulingKey_ltb (entry_key (state (setup ++ [OpTick 20])) e)
      (entry_key (state (setup ++ [OpTick 20])) e') = true.
Proof.
  destruct (vs_normal (state (setup ++ [OpTick 20]))) as [|e0 [|e [|e' l]]] eqn:E;
    [vm_compute in E; discriminate..|].
  exists e, e'. split; [reflexivity|]. split; [reflexivity|].
  vm_compute in E. simplify_eq. apply aged_entries_first.
  - apply (wf_limits _ (reachable_wf _ (state_reachable (setup ++ [OpTick 20%N])))).
  - vm_compute. split; discriminate.
  - vm_compute. reflexivity.
  - right. split; vm_compute; reflexivity.
Defined.

Lemma limits_exact_witness :
  decides (configured limits) limits
    (SchedulerLimits_new 4 1 2 4 3 3 16 5 4 2) ∧
  SchedulerLimits_new 4 1 2 4 3 3 16 5 4 2 = Ok limits.
Proof.
  split; [|vm_compute; reflexivity].
  apply (limits_exact limits); vm_compute; try split; discriminate.
Defined.
End witnesses.
