(* ===== verification/SourceTypes.v ===== *)
(** * Source identities, ranges and spans

    The immutable source metadata of [pdf-rs/bytes/src/{identity,range,source}.rs]
    and the spans and references of [pdf-rs/syntax/src/model.rs] that a stream
    decode is bound to. A digest is the list of its 32 bytes. *)

From stdpp Require Import base list numbers option.
From S2P Require Import Prelude.

(** Bytes are integers between 0 and 255. *)
Definition is_byte (b : Z) : Prop := 0 ≤ b ≤ u8_max.
Definition are_bytes (l : list Z) : Prop := Forall is_byte l.

Record SourceIdentity := {
  stable_id : list Z;
  revision : Z
}.
#[global] Instance SourceIdentity_eq_dec : EqDecision SourceIdentity.
Proof. solve_decision. Defined.

Inductive SourceValidatorKind := StrongEntityTag | FrozenResponse | HostVersion.
#[global] Instance SourceValidatorKind_eq_dec : EqDecision SourceValidatorKind.
Proof. solve_decision. Defined.

Record SourceValidator := {
  validator_kind : SourceValidatorKind;
  validator_digest : list Z
}.
#[global] Instance SourceValidator_eq_dec : EqDecision SourceValidator.
Proof. solve_decision. Defined.

Record SourceSnapshot := {
  snapshot_identity : SourceIdentity;
  snapshot_len : option Z;
  snapshot_validator : SourceValidator
}.
#[global] Instance SourceSnapshot_eq_dec : EqDecision SourceSnapshot.
Proof. solve_decision. Defined.

Record ByteRange := {
  range_start : Z;
  range_len : Z
}.
Definition ByteRange_end_exclusive (r : ByteRange) : Z :=
  range_start r + range_len r.

(** A slice of a shared backing; [slice_bytes] is the window [bytes()] borrows. *)
Record ByteSlice := {
  slice_identity : SourceIdentity;
  slice_range : ByteRange;
  slice_backing : list Z;
  slice_backing_offset : nat
}.
Definition slice_bytes (s : ByteSlice) : list Z :=
  take (Z.to_nat (range_len (slice_range s)))
    (drop (slice_backing_offset s) (slice_backing s)).

Record ByteSpan := {
  span_start : Z;
  span_len : Z
}.
Definition ByteSpan_end_exclusive (s : ByteSpan) : Z := span_start s + span_len s.

Record ObjectRef := {
  object_number : Z;
  object_generation : Z
}.
#[global] Instance ObjectRef_eq_dec : EqDecision ObjectRef.
Proof. solve_decision. Defined.
