(* ===== verification/SyntaxTypes.v ===== *)
(** * Direct PDF objects, errors and limits of the syntax parser ([pdf-rs/syntax/src])

    Parsed values with their source locations, the accessors the stream filters use
    ([model.rs]); the errors of [error.rs], the validation of limits of [limits.rs],
    and the checked spans of [model.rs]. Names and strings are the byte strings of
    the source. *)

From stdpp Require Import base list numbers option strings.
From S2P Require Import Prelude.
From S2P Require Import SourceTypes.

(** A value bound to its source and its raw span. *)
Record Located (A : Type) := {
  located_source : SourceIdentity;
  located_span : ByteSpan;
  located_value : A
}.
Arguments located_source {A} _.
Arguments located_span {A} _.
Arguments located_value {A} _.

Inductive RealNotation := Decimal | Exponent.

Record PdfReal := {
  real_raw : string;
  real_notation : RealNotation
}.

Definition PdfName : Type := string.

Inductive StringKind := Literal | Hexadecimal.

Record PdfString := {
  string_bytes : string;
  string_kind : StringKind
}.

(** An ordered key and value; the values are the objects defined below. *)
Record DictionaryEntryOf (V : Type) := {
  entry_key : Located PdfName;
  entry_value : Located V
}.
Arguments entry_key {V} _.
Arguments entry_value {V} _.

(** The variant [String] of the source is [Text]: [String] is a constructor of
    the standard library. *)
Inductive SyntaxObject :=
| Null
| Boolean (value : bool)
| Integer (value : Z)
| Real (value : PdfReal)
| Name (value : PdfName)
| Text (value : PdfString)
| Array (values : list (Located SyntaxObject))
| Dictionary (entries : list (DictionaryEntryOf SyntaxObject))
| Reference (value : ObjectRef).

Definition PdfArray : Type := list (Located SyntaxObject).
Definition DictionaryEntry : Type := DictionaryEntryOf SyntaxObject.
Definition PdfDictionary : Type := list DictionaryEntry.

Definition as_integer (object : SyntaxObject) : option Z :=
  match object with Integer value => Some value | _ => None end.

(** The decoded bytes of an entry's key and the object of its value. *)
Definition key_bytes (entry : DictionaryEntry) : string :=
  located_value (entry_key entry).
Definition value_object (entry : DictionaryEntry) : SyntaxObject :=
  located_value (entry_value entry).

(** The header [%PDF-major.minor]. *)
Record PdfHeader := {
  header_major : Z;
  header_minor : Z
}.

(** ** Limits ([pdf-rs/syntax/src/limits.rs]) *)

Record SyntaxLimits := {
  sl_max_input_bytes : Z;
  sl_max_token_bytes : Z;
  sl_max_comment_bytes : Z;
  sl_max_name_bytes : Z;
  sl_max_string_source_bytes : Z;
  sl_max_string_decoded_bytes : Z;
  sl_max_owned_bytes : Z;
  sl_max_total_tokens : Z;
  sl_max_container_entries : Z;
  sl_max_container_bytes : Z;
  sl_max_container_depth : Z
}.
#[global] Instance SyntaxLimits_eq_dec : EqDecision SyntaxLimits.
Proof. solve_decision. Defined.

(** ** Errors *)

Inductive SyntaxLimitKind :=
| InputBytes | TokenBytes | CommentBytes | NameBytes | StringSourceBytes
| StringDecodedBytes | OwnedBytes | Tokens | ContainerEntries | ContainerBytes
| RetainedBytes | ContainerDepth | Allocation.
#[global] Instance SyntaxLimitKind_eq_dec : EqDecision SyntaxLimitKind.
Proof. solve_decision. Defined.

Record SyntaxLimit := {
  limit_kind : SyntaxLimitKind;
  limit_limit : Z;
  limit_consumed : Z;
  limit_attempted : Z
}.

Inductive SyntaxErrorCode :=
| InvalidLimits | InvalidHeader | UnexpectedByte | UnexpectedToken
| UnexpectedEndOfInput | InvalidNumber | IntegerOutOfRange | InvalidNameEscape
| UnterminatedLiteralString | InvalidHexString | MismatchedDelimiter
| InvalidReference | InvalidStreamBoundary | ResourceLimit | SourceMismatch
| Cancelled | InternalState.
#[global] Instance SyntaxErrorCode_eq_dec : EqDecision SyntaxErrorCode.
Proof. solve_decision. Defined.

Inductive SyntaxErrorCategory :=
| CategoryConfiguration | CategorySyntax | CategoryResource | CategoryIntegrity
| CategoryCancellation | CategoryInternal.

Inductive SyntaxRecoverability :=
| CorrectConfiguration | CorrectInput | ReduceWorkload | ReopenSource
| AbandonOperation | DoNotRetry.

Record SyntaxError := {
  error_code : SyntaxErrorCode;
  error_category : SyntaxErrorCategory;
  error_recoverability : SyntaxRecoverability;
  error_diagnostic_id : string;
  error_offset : option Z;
  error_limit : option SyntaxLimit
}.

Definition syntax_code_policy (code : SyntaxErrorCode)
    : SyntaxErrorCategory * SyntaxRecoverability * string :=
  match code with
  | InvalidLimits => (CategoryConfiguration, CorrectConfiguration, "RPE-SYNTAX-0001")
  | InvalidHeader => (CategorySyntax, CorrectInput, "RPE-SYNTAX-0002")
  | UnexpectedByte => (CategorySyntax, CorrectInput, "RPE-SYNTAX-0003")
  | UnexpectedToken => (CategorySyntax, CorrectInput, "RPE-SYNTAX-0004")
  | UnexpectedEndOfInput => (CategorySyntax, CorrectInput, "RPE-SYNTAX-0005")
  | InvalidNumber => (CategorySyntax, CorrectInput, "RPE-SYNTAX-0006")
  | IntegerOutOfRange => (CategorySyntax, CorrectInput, "RPE-SYNTAX-0007")
  | InvalidNameEscape => (CategorySyntax, CorrectInput, "RPE-SYNTAX-0008")
  | UnterminatedLiteralString => (CategorySyntax, CorrectInput, "RPE-SYNTAX-0009")
  | InvalidHexString => (CategorySyntax, CorrectInput, "RPE-SYNTAX-0010")
  | MismatchedDelimiter => (CategorySyntax, CorrectInput, "RPE-SYNTAX-0011")
  | InvalidReference => (CategorySyntax, CorrectInput, "RPE-SYNTAX-0012")
  | InvalidStreamBoundary => (CategorySyntax, CorrectInput, "RPE-SYNTAX-0013")
  | ResourceLimit => (CategoryResource, ReduceWorkload, "RPE-SYNTAX-0014")
  | SourceMismatch => (CategoryIntegrity, ReopenSource, "RPE-SYNTAX-0015")
  | Cancelled => (CategoryCancellation, AbandonOperation, "RPE-SYNTAX-0017")
  | InternalState => (CategoryInternal, DoNotRetry, "RPE-SYNTAX-0016")
  end.

Definition SyntaxError_for_code (code : SyntaxErrorCode) (offset : option Z) : SyntaxError :=
  let '(category, recoverability, diagnostic_id) := syntax_code_policy code in
  {| error_code := code; error_category := category;
     error_recoverability := recoverability; error_diagnostic_id := diagnostic_id;
     error_offset := offset; error_limit := None |}.

Definition SyntaxError_resource (kind : SyntaxLimitKind) (limit consumed attempted : Z)
    (offset : option Z) : SyntaxError :=
  {| error_code := ResourceLimit; error_category := CategoryResource;
     error_recoverability := ReduceWorkload; error_diagnostic_id := "RPE-SYNTAX-0014";
     error_offset := offset;
     error_limit := Some {| limit_kind := kind; limit_limit := limit;
                            limit_consumed := consumed; limit_attempted := attempted |} |}.

(** ** Spans *)

Definition ByteSpan_new (start length : Z) : result SyntaxError ByteSpan :=
  match checked_add u64_max start length with
  | None => Err (SyntaxError_for_code InternalState (Some start))
  | Some _ => Ok {| span_start := start; span_len := length |}
  end.

Definition ByteSpan_from_bounds (start end_exclusive : Z) : result SyntaxError ByteSpan :=
  length ← require (checked_sub end_exclusive start)
    (SyntaxError_for_code InternalState (Some start));
  ByteSpan_new start length.

Lemma from_bounds_exact start end_exclusive :
  start ≤ end_exclusive ≤ u64_max →
  ByteSpan_from_bounds start end_exclusive =
    Ok {| span_start := start; span_len := end_exclusive - start |}.
Proof.
  intros Hb. unfold ByteSpan_from_bounds, ByteSpan_new.
  assert (checked_sub end_exclusive start = Some (end_exclusive - start)) as ->
    by (apply checked_sub_Some; lia).
  assert (checked_add u64_max start (end_exclusive - start) = Some end_exclusive) as Ha
    by (apply checked_add_Some; lia).
  simpl. by rewrite Ha.
Qed.

(** ** Limits *)

Definition SYNTAX_MAX_INPUT_BYTES : Z := 64 * 1024 * 1024.
Definition SYNTAX_MAX_TOKEN_BYTES : Z := 16 * 1024 * 1024.
Definition SYNTAX_MAX_COMMENT_BYTES : Z := 1024 * 1024.
Definition SYNTAX_MAX_NAME_BYTES : Z := 1024 * 1024.
Definition SYNTAX_MAX_STRING_BYTES : Z := 32 * 1024 * 1024.
Definition SYNTAX_MAX_OWNED_BYTES : Z := 64 * 1024 * 1024.
Definition SYNTAX_MAX_TOKENS : Z := 4000000.
Definition SYNTAX_MAX_CONTAINER_ENTRIES : Z := 1000000.
Definition SYNTAX_MAX_CONTAINER_BYTES : Z := 256 * 1024 * 1024.
Definition SYNTAX_MAX_CONTAINER_DEPTH : Z := 512.

(** A configuration has the fields of the limits; [validate] is the identity on
    the profiles it accepts. *)
Definition SyntaxLimitConfig : Type := SyntaxLimits.

Definition SyntaxLimitConfig_default : SyntaxLimitConfig :=
  {| sl_max_input_bytes := 8 * 1024 * 1024;
     sl_max_token_bytes := 1024 * 1024;
     sl_max_comment_bytes := 64 * 1024;
     sl_max_name_bytes := 64 * 1024;
     sl_max_string_source_bytes := 4 * 1024 * 1024;
     sl_max_string_decoded_bytes := 4 * 1024 * 1024;
     sl_max_owned_bytes := 8 * 1024 * 1024;
     sl_max_total_tokens := 250000;
     sl_max_container_entries := 100000;
     sl_max_container_bytes := 64 * 1024 * 1024;
     sl_max_container_depth := 128 |}.

Definition SyntaxLimits_validate (c : SyntaxLimitConfig) : result SyntaxError SyntaxLimits :=
  fail_if ((sl_max_input_bytes c =? 0)
           || (SYNTAX_MAX_INPUT_BYTES <? sl_max_input_bytes c)
           || (sl_max_token_bytes c =? 0)
           || (SYNTAX_MAX_TOKEN_BYTES <? sl_max_token_bytes c)
           || (sl_max_input_bytes c <? sl_max_token_bytes c)
           || (sl_max_comment_bytes c =? 0)
           || (SYNTAX_MAX_COMMENT_BYTES <? sl_max_comment_bytes c)
           || (sl_max_token_bytes c <? sl_max_comment_bytes c)
           || (sl_max_name_bytes c =? 0)
           || (SYNTAX_MAX_NAME_BYTES <? sl_max_name_bytes c)
           || (sl_max_token_bytes c <? sl_max_name_bytes c)
           || (sl_max_string_source_bytes c =? 0)
           || (SYNTAX_MAX_STRING_BYTES <? sl_max_string_source_bytes c)
           || (sl_max_input_bytes c <? sl_max_string_source_bytes c)
           || (sl_max_string_decoded_bytes c =? 0)
           || (SYNTAX_MAX_STRING_BYTES <? sl_max_string_decoded_bytes c)
           || (sl_max_owned_bytes c =? 0)
           || (SYNTAX_MAX_OWNED_BYTES <? sl_max_owned_bytes c)
           || (sl_max_owned_bytes c <? sl_max_name_bytes c)
           || (sl_max_owned_bytes c <? sl_max_string_decoded_bytes c)
           || (sl_max_total_tokens c =? 0)
           || (SYNTAX_MAX_TOKENS <? sl_max_total_tokens c)
           || (sl_max_container_entries c =? 0)
           || (SYNTAX_MAX_CONTAINER_ENTRIES <? sl_max_container_entries c)
           || (sl_max_container_bytes c =? 0)
           || (SYNTAX_MAX_CONTAINER_BYTES <? sl_max_container_bytes c)
           || (sl_max_container_depth c =? 0)
           || (SYNTAX_MAX_CONTAINER_DEPTH <? sl_max_container_depth c))
    (SyntaxError_for_code InvalidLimits None);;
  mret c.
