(* ===== verification/FilterTypes.v ===== *)
(** * Data of the stream filters

    Typed errors ([pdf-rs/filters/src/error.rs]), validated limits
    ([limits.rs]), predictor parameters, stages, the filter plan and its
    retained heap, the fuel schedule and the bound request ([model.rs]). *)

From stdpp Require Import base list numbers option strings.
From S2P Require Import Prelude.
From S2P Require Import SourceTypes.

(** ** Errors *)

Inductive DecodeLimitKind :=
| InputBytes | FilterCount | FilterPlanBytes | LayerOutputBytes
| TotalOutputBytes | FinalOutputBytes | RetainedCapacityBytes | Fuel
| Allocation.

Record DecodeLimit := {
  limit_kind : DecodeLimitKind;
  limit_limit : Z;
  limit_consumed : Z;
  limit_attempted : Z
}.

Inductive DecodeErrorCode :=
| InvalidLimits | InvalidRequest | UnsupportedFilter | MissingEndMarker
| TrailingData | InvalidAsciiHex | InvalidAscii85 | InvalidRunLength
| InvalidFlate | UnsupportedFlateDictionary | InvalidDecodeParameters
| UnsupportedDecodeParameters | UnsupportedPredictor | InvalidPredictorData
| ResourceLimit | SourceChanged | Cancelled | InternalState.

Inductive DecodeErrorCategory :=
| Configuration | Syntax | Unsupported | Resource | Integrity | Cancellation
| Internal.

Inductive DecodeRecoverability :=
| CorrectConfiguration | CorrectInput | ReportUnsupported | ReduceWorkload
| ReopenSource | AbandonOperation | DoNotRetry.

Record DecodeError := {
  error_code : DecodeErrorCode;
  error_category : DecodeErrorCategory;
  error_recoverability : DecodeRecoverability;
  error_diagnostic_id : string;
  error_filter_index : option Z;
  error_limit : option DecodeLimit
}.

#[global] Instance DecodeLimitKind_eq_dec : EqDecision DecodeLimitKind.
Proof. solve_decision. Defined.
#[global] Instance DecodeErrorCode_eq_dec : EqDecision DecodeErrorCode.
Proof. solve_decision. Defined.

(** The policy table of [DecodeError::for_code]. *)
Definition code_policy (code : DecodeErrorCode)
    : DecodeErrorCategory * DecodeRecoverability * string :=
  match code with
  | InvalidLimits => (Configuration, CorrectConfiguration, "RPE-FILTERS-0001")
  | InvalidRequest => (Configuration, CorrectConfiguration, "RPE-FILTERS-0002")
  | UnsupportedFilter => (Unsupported, ReportUnsupported, "RPE-FILTERS-0003")
  | MissingEndMarker => (Syntax, CorrectInput, "RPE-FILTERS-0004")
  | TrailingData => (Syntax, CorrectInput, "RPE-FILTERS-0005")
  | InvalidAsciiHex => (Syntax, CorrectInput, "RPE-FILTERS-0006")
  | InvalidAscii85 => (Syntax, CorrectInput, "RPE-FILTERS-0007")
  | InvalidRunLength => (Syntax, CorrectInput, "RPE-FILTERS-0008")
  | InvalidFlate => (Syntax, CorrectInput, "RPE-FILTERS-0013")
  | UnsupportedFlateDictionary =>
      (Unsupported, ReportUnsupported, "RPE-FILTERS-0014")
  | InvalidDecodeParameters => (Syntax, CorrectInput, "RPE-FILTERS-0015")
  | UnsupportedDecodeParameters =>
      (Unsupported, ReportUnsupported, "RPE-FILTERS-0016")
  | UnsupportedPredictor => (Unsupported, ReportUnsupported, "RPE-FILTERS-0017")
  | InvalidPredictorData => (Syntax, CorrectInput, "RPE-FILTERS-0018")
  | ResourceLimit => (Resource, ReduceWorkload, "RPE-FILTERS-0009")
  | SourceChanged => (Integrity, ReopenSource, "RPE-FILTERS-0010")
  | Cancelled => (Cancellation, AbandonOperation, "RPE-FILTERS-0011")
  | InternalState => (Internal, DoNotRetry, "RPE-FILTERS-0012")
  end.

Definition for_code (code : DecodeErrorCode) (filter_index : option Z)
    : DecodeError :=
  let '(category, recoverability, diagnostic_id) := code_policy code in
  {| error_code := code; error_category := category;
     error_recoverability := recoverability;
     error_diagnostic_id := diagnostic_id;
     error_filter_index := filter_index; error_limit := None |}.

Definition resource (kind : DecodeLimitKind) (limit consumed attempted : Z)
    (filter_index : option Z) : DecodeError :=
  {| error_code := ResourceLimit; error_category := Resource;
     error_recoverability := ReduceWorkload;
     error_diagnostic_id := "RPE-FILTERS-0009";
     error_filter_index := filter_index;
     error_limit := Some {| limit_kind := kind; limit_limit := limit;
                            limit_consumed := consumed;
                            limit_attempted := attempted |} |}.

Lemma for_code_code code fi : error_code (for_code code fi) = code.
Proof. by destruct code. Qed.

(** ** Limits *)

Definition HARD_MAX_INPUT_BYTES : Z := 64 * 1024 * 1024.
Definition HARD_MAX_LAYER_OUTPUT_BYTES : Z := 256 * 1024 * 1024.
Definition HARD_MAX_TOTAL_OUTPUT_BYTES : Z := 1024 * 1024 * 1024.
Definition HARD_MAX_FINAL_OUTPUT_BYTES : Z := 256 * 1024 * 1024.
Definition HARD_MAX_RETAINED_CAPACITY_BYTES : Z := 512 * 1024 * 1024.
Definition HARD_MAX_FUEL : Z := 8 * 1024 * 1024 * 1024.
Definition HARD_MAX_CANCELLATION_INTERVAL_FUEL : Z := 1024 * 1024.
Definition HARD_MAX_FILTERS : Z := 32.

(** The unvalidated configuration and the validated limits have the same
    eight fields. *)
Record DecodeLimitConfig := {
  config_max_input_bytes : Z;
  config_max_filters : Z;
  config_max_layer_output_bytes : Z;
  config_max_total_output_bytes : Z;
  config_max_final_output_bytes : Z;
  config_max_retained_capacity_bytes : Z;
  config_max_fuel : Z;
  config_cancellation_check_interval_fuel : Z
}.

Record DecodeLimits := {
  max_input_bytes : Z;
  max_filters : Z;
  max_layer_output_bytes : Z;
  max_total_output_bytes : Z;
  max_final_output_bytes : Z;
  max_retained_capacity_bytes : Z;
  max_fuel : Z;
  cancellation_check_interval_fuel : Z
}.

Definition DecodeLimits_of_config (c : DecodeLimitConfig) : DecodeLimits :=
  {| max_input_bytes := config_max_input_bytes c;
     max_filters := config_max_filters c;
     max_layer_output_bytes := config_max_layer_output_bytes c;
     max_total_output_bytes := config_max_total_output_bytes c;
     max_final_output_bytes := config_max_final_output_bytes c;
     max_retained_capacity_bytes := config_max_retained_capacity_bytes c;
     max_fuel := config_max_fuel c;
     cancellation_check_interval_fuel :=
       config_cancellation_check_interval_fuel c |}.

Definition DecodeLimitConfig_default : DecodeLimitConfig :=
  {| config_max_input_bytes := 16 * 1024 * 1024;
     config_max_filters := 8;
     config_max_layer_output_bytes := 64 * 1024 * 1024;
     config_max_total_output_bytes := 128 * 1024 * 1024;
     config_max_final_output_bytes := 64 * 1024 * 1024;
     config_max_retained_capacity_bytes := 96 * 1024 * 1024;
     config_max_fuel := 512 * 1024 * 1024;
     config_cancellation_check_interval_fuel := 256 |}.

Definition DecodeLimits_validate (c : DecodeLimitConfig)
    : result DecodeError DecodeLimits :=
  if (config_max_input_bytes c =? 0)
     || (HARD_MAX_INPUT_BYTES <? config_max_input_bytes c)
     || (config_max_filters c =? 0)
     || (HARD_MAX_FILTERS <? config_max_filters c)
     || (config_max_layer_output_bytes c =? 0)
     || (HARD_MAX_LAYER_OUTPUT_BYTES <? config_max_layer_output_bytes c)
     || (config_max_total_output_bytes c =? 0)
     || (HARD_MAX_TOTAL_OUTPUT_BYTES <? config_max_total_output_bytes c)
     || (config_max_final_output_bytes c =? 0)
     || (HARD_MAX_FINAL_OUTPUT_BYTES <? config_max_final_output_bytes c)
     || (config_max_layer_output_bytes c <? config_max_final_output_bytes c)
     || (config_max_total_output_bytes c <? config_max_final_output_bytes c)
     || (config_max_retained_capacity_bytes c =? 0)
     || (HARD_MAX_RETAINED_CAPACITY_BYTES <? config_max_retained_capacity_bytes c)
     || (config_max_retained_capacity_bytes c <? config_max_final_output_bytes c)
     || (config_max_fuel c =? 0)
     || (HARD_MAX_FUEL <? config_max_fuel c)
     || (config_cancellation_check_interval_fuel c =? 0)
     || (HARD_MAX_CANCELLATION_INTERVAL_FUEL <?
           config_cancellation_check_interval_fuel c)
     || (config_max_fuel c <? config_cancellation_check_interval_fuel c)
  then Err (for_code InvalidLimits None)
  else Ok (DecodeLimits_of_config c).

(** What validation establishes. *)
Record decode_limits_ok (l : DecodeLimits) : Prop := {
  dl_input : 0 < max_input_bytes l ≤ HARD_MAX_INPUT_BYTES;
  dl_filters : 0 < max_filters l ≤ HARD_MAX_FILTERS;
  dl_layer : 0 < max_layer_output_bytes l ≤ HARD_MAX_LAYER_OUTPUT_BYTES;
  dl_total : 0 < max_total_output_bytes l ≤ HARD_MAX_TOTAL_OUTPUT_BYTES;
  dl_final : 0 < max_final_output_bytes l ≤ HARD_MAX_FINAL_OUTPUT_BYTES;
  dl_final_layer : max_final_output_bytes l ≤ max_layer_output_bytes l;
  dl_final_total : max_final_output_bytes l ≤ max_total_output_bytes l;
  dl_retained : 0 < max_retained_capacity_bytes l ≤ HARD_MAX_RETAINED_CAPACITY_BYTES;
  dl_final_retained : max_final_output_bytes l ≤ max_retained_capacity_bytes l;
  dl_fuel : 0 < max_fuel l ≤ HARD_MAX_FUEL;
  dl_interval : 0 < cancellation_check_interval_fuel l
    ≤ HARD_MAX_CANCELLATION_INTERVAL_FUEL;
  dl_interval_fuel : cancellation_check_interval_fuel l ≤ max_fuel l
}.

(** ** Environment of a decode

    The width of [usize], the answers of the cancellation probe (the [k]-th
    call of [is_cancelled]), the behaviour of the allocator (the [k]-th call
    of [try_reserve_exact], with the vector's length, capacity and the
    additional elements asked for; [None] is a failed allocation), and the
    sizes of the two element types of a filter plan. *)
Class DecodeRuntime : Type := {
  runtime_platform :: Platform;
  is_cancelled : nat → bool;
  try_reserve_exact : nat → Z → Z → Z → option Z;
  size_of_filter : Z;
  size_of_stage : Z;
  (** [Vec::try_reserve_exact]: afterwards the capacity holds the elements. *)
  try_reserve_exact_spec : ∀ k length capacity additional capacity',
    try_reserve_exact k length capacity additional = Some capacity' →
    length + additional ≤ capacity' ∧ capacity ≤ capacity' ≤ usize_max;
  size_of_filter_nonneg : 0 ≤ size_of_filter;
  size_of_stage_nonneg : 0 ≤ size_of_stage
}.

(** [Vec::try_reserve_exact] with an allocator that never over-allocates. *)
Definition exact_reserve (max : Z) (_ : nat) (length capacity additional : Z)
    : option Z :=
  if Z.max capacity (length + additional) <=? max
  then Some (Z.max capacity (length + additional)) else None.

#[program] Definition quiet_runtime (p : Platform) : DecodeRuntime :=
  {| runtime_platform := p; is_cancelled _ := false;
     try_reserve_exact := exact_reserve usize_max;
     size_of_filter := 1; size_of_stage := 32 |}.
Next Obligation.
  intros p k length capacity additional capacity'. unfold exact_reserve.
  case_match; intros; simplify_eq; lia.
Qed.
Next Obligation. done. Qed.
Next Obligation. done. Qed.

(** ** Filters, predictor parameters and stages *)

Inductive StreamFilter :=
| FlateDecode | AsciiHexDecode | Ascii85Decode | RunLengthDecode.
#[global] Instance StreamFilter_eq_dec : EqDecision StreamFilter.
Proof. solve_decision. Defined.

Definition canonical_pdf_name (f : StreamFilter) : string :=
  match f with
  | FlateDecode => "FlateDecode"
  | AsciiHexDecode => "ASCIIHexDecode"
  | Ascii85Decode => "ASCII85Decode"
  | RunLengthDecode => "RunLengthDecode"
  end.

Definition canonical_pdf_filter (name : string) (filter_index : Z)
    : result DecodeError StreamFilter :=
  if String.eqb name "FlateDecode" then Ok FlateDecode
  else if String.eqb name "ASCIIHexDecode" then Ok AsciiHexDecode
  else if String.eqb name "ASCII85Decode" then Ok Ascii85Decode
  else if String.eqb name "RunLengthDecode" then Ok RunLengthDecode
  else Err (for_code UnsupportedFilter (Some filter_index)).

Record PredictorParameters := {
  predictor : Z;
  colors : Z;
  bits_per_component : Z;
  columns : Z
}.

Definition PredictorParameters_default : PredictorParameters :=
  {| predictor := 1; colors := 1; bits_per_component := 8; columns := 1 |}.

(** [PredictorParameters::new] on [i64] arguments. *)
Definition PredictorParameters_new
    (predictor colors bits_per_component columns : Z)
    : result DecodeError PredictorParameters :=
  let invalid := for_code InvalidDecodeParameters None in
  let unsupported := for_code UnsupportedPredictor None in
  fail_if ((predictor <=? 0) || (colors <=? 0) || (columns <=? 0)
           || (bits_per_component <=? 0)) invalid;;
  fail_if ((negb (predictor =? 1) && negb (predictor =? 2) && (predictor <? 10))
           || negb ((bits_per_component =? 1) || (bits_per_component =? 2)
                    || (bits_per_component =? 4) || (bits_per_component =? 8)
                    || (bits_per_component =? 16))) unsupported;;
  bits_per_component ← require (try_from u8_max bits_per_component) unsupported;
  colors ← require (try_from u32_max colors) invalid;
  columns ← require (try_from u32_max columns) invalid;
  row_bits ← require
    (value ← checked_mul u64_max colors columns;
     checked_mul u64_max value bits_per_component) invalid;
  _ ← require (checked_add u64_max row_bits 7) invalid;
  mret {| predictor := predictor; colors := colors;
          bits_per_component := bits_per_component; columns := columns |}.

Inductive FilterDecodeParameters :=
| NoParameters
| Predictor (parameters : PredictorParameters).

Record FilterStage := {
  stage_filter : StreamFilter;
  stage_parameters : FilterDecodeParameters
}.

Definition without_parameters (filter : StreamFilter) : FilterStage :=
  {| stage_filter := filter; stage_parameters := NoParameters |}.

Definition FilterStage_validate (stage : FilterStage) (filter_index : option Z)
    : result DecodeError unit :=
  fail_if match stage_parameters stage with
          | Predictor _ => bool_decide (stage_filter stage ≠ FlateDecode)
          | NoParameters => false
          end (for_code UnsupportedDecodeParameters filter_index).

Definition FilterStage_new (filter : StreamFilter)
    (parameters : FilterDecodeParameters) : result DecodeError FilterStage :=
  let stage := {| stage_filter := filter; stage_parameters := parameters |} in
  FilterStage_validate stage None;;
  mret stage.

(** ** Filter plans *)

(** The two vectors of a plan, each with its capacity. *)
Record FilterPlan := {
  plan_filters : list StreamFilter;
  plan_filters_capacity : Z;
  plan_stages : list FilterStage;
  plan_stages_capacity : Z
}.
Definition plan_len (plan : FilterPlan) : Z := len (plan_filters plan).

Definition validate_hard_filter_count (count : Z) : result DecodeError unit :=
  fail_if (HARD_MAX_FILTERS <? count)
    (resource FilterCount HARD_MAX_FILTERS 0 count None).

Section plans.
Context `{DecodeRuntime}.

(** [FilterPlan::allocate]: the first two allocations of a plan. *)
Definition FilterPlan_allocate (count allocation_limit : Z)
    : result DecodeError FilterPlan :=
  let failed := resource Allocation allocation_limit 0 count None in
  filters_capacity ← require (try_reserve_exact 0 0 0 count) failed;
  stages_capacity ← require (try_reserve_exact 1 0 0 count) failed;
  mret {| plan_filters := []; plan_filters_capacity := filters_capacity;
          plan_stages := []; plan_stages_capacity := stages_capacity |}.

Definition retained_vec_bytes (size capacity : Z) : result DecodeError Z :=
  require (checked_mul u64_max capacity size) (for_code InternalState None).

Definition retained_heap_bytes (plan : FilterPlan) : result DecodeError Z :=
  filters ← retained_vec_bytes size_of_filter (plan_filters_capacity plan);
  stages ← retained_vec_bytes size_of_stage (plan_stages_capacity plan);
  require (checked_add u64_max filters stages) (for_code InternalState None).

Definition retained_heap_upper_bound (max_filters : Z) : result DecodeError Z :=
  fail_if ((max_filters =? 0) || (HARD_MAX_FILTERS <? max_filters))
    (for_code InvalidLimits None);;
  require
    (filters ← checked_mul u64_max max_filters size_of_filter;
     stages ← checked_mul u64_max max_filters size_of_stage;
     checked_add u64_max filters stages)
    (for_code InternalState None).

Definition validate_retained_heap_limit (plan : FilterPlan) (max_filters : Z)
    : result DecodeError Z :=
  limit ← retained_heap_upper_bound max_filters;
  attempted ← retained_heap_bytes plan;
  fail_if (limit <? attempted)
    (resource FilterPlanBytes limit 0 attempted None);;
  mret attempted.

(** [self.filters.push; self.stages.push] within the allocated capacity; a
    plan constructor pushes at most the allocated count. *)
Definition plan_push (stage : FilterStage) (plan : FilterPlan) : FilterPlan :=
  {| plan_filters := plan_filters plan ++ [stage_filter stage];
     plan_filters_capacity := plan_filters_capacity plan;
     plan_stages := plan_stages plan ++ [stage];
     plan_stages_capacity := plan_stages_capacity plan |}.

Definition FilterPlan_new (filters : list StreamFilter)
    : result DecodeError FilterPlan :=
  validate_hard_filter_count (len filters);;
  plan ← FilterPlan_allocate (len filters) HARD_MAX_FILTERS;
  let plan := foldl (λ plan filter, plan_push (without_parameters filter) plan)
                plan filters in
  validate_retained_heap_limit plan HARD_MAX_FILTERS;;
  mret plan.

Fixpoint push_validated (index : Z) (stages : list FilterStage)
    (plan : FilterPlan) : result DecodeError FilterPlan :=
  match stages with
  | [] => Ok plan
  | stage :: stages =>
      FilterStage_validate stage (Some index);;
      push_validated (index + 1) stages (plan_push stage plan)
  end.

Definition FilterPlan_from_stages (stages : list FilterStage)
    : result DecodeError FilterPlan :=
  validate_hard_filter_count (len stages);;
  plan ← FilterPlan_allocate (len stages) HARD_MAX_FILTERS;
  plan ← push_validated 0 stages plan;
  validate_retained_heap_limit plan HARD_MAX_FILTERS;;
  mret plan.

Fixpoint push_names (index : Z) (names : list string) (plan : FilterPlan)
    : result DecodeError FilterPlan :=
  match names with
  | [] => Ok plan
  | name :: names =>
      filter ← canonical_pdf_filter name index;
      push_names (index + 1) names (plan_push (without_parameters filter) plan)
  end.

Definition FilterPlan_from_pdf_names (names : list string)
    : result DecodeError FilterPlan :=
  validate_hard_filter_count (len names);;
  plan ← FilterPlan_allocate (len names) HARD_MAX_FILTERS;
  plan ← push_names 0 names plan;
  validate_retained_heap_limit plan HARD_MAX_FILTERS;;
  mret plan.
End plans.

(** ** Fuel schedule and profile *)

Inductive DecodeFuelScheduleVersion := M1V1.
Definition layer_setup_cost (v : DecodeFuelScheduleVersion) : Z :=
  match v with M1V1 => 1 end.
Definition input_byte_cost (v : DecodeFuelScheduleVersion) : Z :=
  match v with M1V1 => 1 end.
Definition output_byte_cost (v : DecodeFuelScheduleVersion) : Z :=
  match v with M1V1 => 1 end.
Definition algorithm_step_cost (v : DecodeFuelScheduleVersion) : Z :=
  match v with M1V1 => 1 end.

Inductive DecodeProfile := M1StrictV1.
Definition fuel_schedule (p : DecodeProfile) : DecodeFuelScheduleVersion :=
  match p with M1StrictV1 => M1V1 end.

(** ** Requests *)

Record DecodeRequest := {
  rq_snapshot : SourceSnapshot;
  rq_owner : ObjectRef;
  rq_dictionary_span : ByteSpan;
  rq_encoded_span : ByteSpan;
  rq_encoded : ByteSlice;
  rq_plan : FilterPlan;
  rq_profile : DecodeProfile;
  rq_limits : DecodeLimits
}.

Definition DecodeRequest_new (snapshot : SourceSnapshot) (owner : ObjectRef)
    (dictionary_span encoded_span : ByteSpan) (encoded : ByteSlice)
    (plan : FilterPlan) (profile : DecodeProfile) (limits : DecodeLimits)
    : result DecodeError DecodeRequest :=
  fail_if (bool_decide (slice_identity encoded ≠ snapshot_identity snapshot))
    (for_code SourceChanged None);;
  fail_if (negb (range_start (slice_range encoded) =? span_start encoded_span)
           || negb (range_len (slice_range encoded) =? span_len encoded_span))
    (for_code InvalidRequest None);;
  fail_if match snapshot_len snapshot with
          | Some source_len =>
              (source_len <? ByteSpan_end_exclusive encoded_span)
              || (source_len <? ByteSpan_end_exclusive dictionary_span)
          | None => false
          end (for_code InvalidRequest None);;
  mret {| rq_snapshot := snapshot; rq_owner := owner;
          rq_dictionary_span := dictionary_span;
          rq_encoded_span := encoded_span; rq_encoded := encoded;
          rq_plan := plan; rq_profile := profile; rq_limits := limits |}.
