(* ===== verification/PlanDictionary.v ===== *)
(** * Filter plans of stream dictionaries ([pdf-rs/filters/src/model.rs])

    [FilterPlan::preflight_pdf_dictionary] and
    [FilterPlan::from_pdf_dictionary]. The state of the monad counts the calls
    made to the cancellation probe; a panic of the source ([expect],
    [unreachable!], an index out of range) is the outcome [Panicked]. *)

From stdpp Require Import base list numbers option strings.
From S2P Require Import Prelude.
From S2P Require Import SourceTypes.
From S2P Require Import SyntaxTypes.
From S2P Require Import FilterTypes.

Abbreviation PlanFailure := (failure DecodeError).

Record PdfDictionaryPlanMetadata := {
  md_filter : option SyntaxObject;
  md_decode_parameters : option SyntaxObject;
  md_filter_count : Z;
  md_array_filter : bool
}.

Section dictionary.
Context `{DecodeRuntime}.

Definition reject {A} (e : DecodeError) : M nat PlanFailure A := throw (Rejected e).
Definition lift_decode {A} (r : result DecodeError A) : M nat PlanFailure A :=
  of_result (match r with Ok a => Ok a | Err e => Err (Rejected e) end).
(** [u16::try_from(index).expect(..)]. *)
Definition expect_index (index : Z) : M nat PlanFailure Z :=
  ok_or (try_from u16_max index) Panicked.

Definition check_metadata_cancelled : M nat PlanFailure unit :=
  probes ← get;
  modify S;;
  err_if (is_cancelled probes) (Rejected (for_code Cancelled None)).

(** ** Preflight *)

Fixpoint unique_value_loop (entries : PdfDictionary) (key : string)
    (found : option SyntaxObject) : M nat PlanFailure (option SyntaxObject) :=
  match entries with
  | [] => mret found
  | entry :: entries =>
      check_metadata_cancelled;;
      if String.eqb (key_bytes entry) key then
        err_if (bool_decide (is_Some found))
          (Rejected (for_code InvalidDecodeParameters None));;
        unique_value_loop entries key (Some (value_object entry))
      else unique_value_loop entries key found
  end.

Definition unique_metadata_value (dictionary : PdfDictionary) (key : string)
    : M nat PlanFailure (option SyntaxObject) :=
  unique_value_loop dictionary key None.

Definition canonical_filter_shape (value : SyntaxObject) (max_filters : Z)
    : M nat PlanFailure (Z * bool) :=
  check_metadata_cancelled;;
  '(count, array_filter) ←
    match value with
    | Name _ => mret (1, false)
    | Array (v :: vs) => mret (len (v :: vs), true)
    | _ => reject (for_code InvalidDecodeParameters None)
    end;
  err_if (max_filters <? count)
    (Rejected (resource FilterCount max_filters 0 count None));;
  mret (count, array_filter).

Definition preflight_pdf_dictionary_metadata (dictionary : PdfDictionary)
    (limits : DecodeLimits) : M nat PlanFailure PdfDictionaryPlanMetadata :=
  check_metadata_cancelled;;
  filter ← unique_metadata_value dictionary "Filter";
  decode_parameters ← unique_metadata_value dictionary "DecodeParms";
  match filter with
  | None =>
      err_if (bool_decide (is_Some decode_parameters))
        (Rejected (for_code InvalidDecodeParameters None));;
      check_metadata_cancelled;;
      mret {| md_filter := None; md_decode_parameters := None;
              md_filter_count := 0; md_array_filter := false |}
  | Some filter =>
      '(count, array_filter) ← canonical_filter_shape filter (max_filters limits);
      mret {| md_filter := Some filter; md_decode_parameters := decode_parameters;
              md_filter_count := count; md_array_filter := array_filter |}
  end.

(** ** Decode parameters *)

(** The four mutable slots of [canonical_parameter_stage]. *)
Record ParameterSlots := {
  slot_predictor : option Z;
  slot_colors : option Z;
  slot_bits_per_component : option Z;
  slot_columns : option Z
}.
Definition no_slots : ParameterSlots :=
  {| slot_predictor := None; slot_colors := None;
     slot_bits_per_component := None; slot_columns := None |}.

(** The slot a key selects: how to read and how to write it. *)
Definition select_slot (key : string)
    : option ((ParameterSlots → option Z) * (Z → ParameterSlots → ParameterSlots)) :=
  if String.eqb key "Predictor" then
    Some (slot_predictor, λ v s,
      {| slot_predictor := Some v; slot_colors := slot_colors s;
         slot_bits_per_component := slot_bits_per_component s;
         slot_columns := slot_columns s |})
  else if String.eqb key "Colors" then
    Some (slot_colors, λ v s,
      {| slot_predictor := slot_predictor s; slot_colors := Some v;
         slot_bits_per_component := slot_bits_per_component s;
         slot_columns := slot_columns s |})
  else if String.eqb key "BitsPerComponent" then
    Some (slot_bits_per_component, λ v s,
      {| slot_predictor := slot_predictor s; slot_colors := slot_colors s;
         slot_bits_per_component := Some v; slot_columns := slot_columns s |})
  else if String.eqb key "Columns" then
    Some (slot_columns, λ v s,
      {| slot_predictor := slot_predictor s; slot_colors := slot_colors s;
         slot_bits_per_component := slot_bits_per_component s;
         slot_columns := Some v |})
  else None.

(** [for entry in dictionary.entries()]. *)
Fixpoint parameter_loop (entries : PdfDictionary) (filter_index : Z)
    (slots : ParameterSlots) : M nat PlanFailure ParameterSlots :=
  match entries with
  | [] => mret slots
  | entry :: entries =>
      let invalid := Rejected (for_code InvalidDecodeParameters (Some filter_index)) in
      check_metadata_cancelled;;
      '(slot, set_slot) ← ok_or (select_slot (key_bytes entry)) invalid;
      err_if (bool_decide (is_Some (slot slots))) invalid;;
      value ← ok_or (as_integer (value_object entry)) invalid;
      parameter_loop entries filter_index (set_slot value slots)
  end.

Definition canonical_parameter_stage (filter : StreamFilter)
    (dictionary : PdfDictionary) (filter_index : Z) : M nat PlanFailure FilterStage :=
  check_metadata_cancelled;;
  match dictionary with
  | [] => mret (without_parameters filter)
  | _ :: _ =>
      err_if (bool_decide (filter ≠ FlateDecode))
        (Rejected (for_code UnsupportedDecodeParameters (Some filter_index)));;
      slots ← parameter_loop dictionary filter_index no_slots;
      match PredictorParameters_new
              (default 1 (slot_predictor slots)) (default 1 (slot_colors slots))
              (default 8 (slot_bits_per_component slots))
              (default 1 (slot_columns slots)) with
      | Ok parameters =>
          mret {| stage_filter := filter; stage_parameters := Predictor parameters |}
      | Err error => reject (for_code (error_code error) (Some filter_index))
      end
  end.

(** ** Validation *)

(** The name at an array index, as its canonical filter. *)
Definition canonical_array_name (value : Located SyntaxObject) (index : Z)
    : M nat PlanFailure StreamFilter :=
  filter_index ← expect_index index;
  match located_value value with
  | Name name => lift_decode (canonical_pdf_filter name filter_index)
  | _ => reject (for_code InvalidDecodeParameters (Some filter_index))
  end.

Fixpoint validate_array_names (index : Z) (values : PdfArray)
    : M nat PlanFailure unit :=
  match values with
  | [] => mret tt
  | value :: values =>
      check_metadata_cancelled;;
      canonical_array_name value index;;
      validate_array_names (index + 1) values
  end.

(** [filters.values().iter().zip(parameters.values()).enumerate()]. *)
Fixpoint validate_array_parameters (index : Z) (filters parameters : PdfArray)
    : M nat PlanFailure unit :=
  match filters, parameters with
  | filter :: filters, value :: values =>
      check_metadata_cancelled;;
      filter_index ← expect_index index;
      name ← match located_value filter with
             | Name name => mret name
             | _ => throw Panicked
             end;
      filter ← lift_decode (canonical_pdf_filter name filter_index);
      match located_value value with
      | Null => mret tt
      | Dictionary parameters =>
          canonical_parameter_stage filter parameters filter_index;; mret tt
      | _ => reject (for_code InvalidDecodeParameters (Some filter_index))
      end;;
      validate_array_parameters (index + 1) filters values
  | _, _ => mret tt
  end.

Definition validate_parameters (metadata : PdfDictionaryPlanMetadata)
    (filter : SyntaxObject) : M nat PlanFailure unit :=
  let invalid := for_code InvalidDecodeParameters None in
  match md_array_filter metadata, md_decode_parameters metadata with
  | _, None | _, Some Null => mret tt
  | false, Some (Dictionary parameters) =>
      name ← match filter with Name name => mret name | _ => throw Panicked end;
      filter ← lift_decode (canonical_pdf_filter name 0);
      canonical_parameter_stage filter parameters 0;; mret tt
  | true, Some (Array parameters) =>
      if len parameters =? md_filter_count metadata then
        filters ← match filter with Array filters => mret filters | _ => throw Panicked end;
        validate_array_parameters 0 filters parameters
      else reject invalid
  | _, Some _ => reject invalid
  end.

Definition validate_pdf_dictionary_metadata (metadata : PdfDictionaryPlanMetadata)
    : M nat PlanFailure unit :=
  match md_filter metadata with
  | None => check_metadata_cancelled
  | Some filter =>
      match filter with
      | Name name => lift_decode (canonical_pdf_filter name 0);; mret tt
      | Array values => validate_array_names 0 values
      | _ => throw Panicked
      end;;
      validate_parameters metadata filter;;
      check_metadata_cancelled
  end.

Definition preflight_pdf_dictionary (dictionary : PdfDictionary)
    (limits : DecodeLimits) : M nat PlanFailure Z :=
  metadata ← preflight_pdf_dictionary_metadata dictionary limits;
  validate_pdf_dictionary_metadata metadata;;
  ok_or (try_from u16_max (md_filter_count metadata))
    (Rejected (for_code InternalState None)).

(** ** Construction *)

Fixpoint push_array_names (index : Z) (values : PdfArray) (plan : FilterPlan)
    : M nat PlanFailure FilterPlan :=
  match values with
  | [] => mret plan
  | value :: values =>
      check_metadata_cancelled;;
      filter ← canonical_array_name value index;
      push_array_names (index + 1) values (plan_push (without_parameters filter) plan)
  end.

Definition set_plan_stages (stages : list FilterStage) (plan : FilterPlan) : FilterPlan :=
  {| plan_filters := plan_filters plan;
     plan_filters_capacity := plan_filters_capacity plan;
     plan_stages := stages; plan_stages_capacity := plan_stages_capacity plan |}.

(** [plan.stages[index] = stage]. *)
Definition assign_stage (index : nat) (stage : FilterStage) (plan : FilterPlan)
    : M nat PlanFailure FilterPlan :=
  _ ← ok_or (plan_stages plan !! index) Panicked;
  mret (set_plan_stages (<[index := stage]> (plan_stages plan)) plan).

Fixpoint assign_array_parameters (index : nat) (values : PdfArray)
    (plan : FilterPlan) : M nat PlanFailure FilterPlan :=
  match values with
  | [] => mret plan
  | value :: values =>
      check_metadata_cancelled;;
      filter_index ← expect_index (Z.of_nat index);
      stage ← match located_value value with
              | Null =>
                  filter ← ok_or (plan_filters plan !! index) Panicked;
                  mret (without_parameters filter)
              | Dictionary parameters =>
                  filter ← ok_or (plan_filters plan !! index) Panicked;
                  canonical_parameter_stage filter parameters filter_index
              | _ => reject (for_code InvalidDecodeParameters (Some filter_index))
              end;
      plan ← assign_stage index stage plan;
      assign_array_parameters (S index) values plan
  end.

Definition assign_parameters (array_filter : bool)
    (decode_parameters : option SyntaxObject) (plan : FilterPlan)
    : M nat PlanFailure FilterPlan :=
  let invalid := for_code InvalidDecodeParameters None in
  match array_filter, decode_parameters with
  | _, None | _, Some Null => mret plan
  | false, Some (Dictionary parameters) =>
      filter ← ok_or (plan_filters plan !! 0%nat) Panicked;
      stage ← canonical_parameter_stage filter parameters 0;
      assign_stage 0 stage plan
  | true, Some (Array parameters) =>
      if len parameters =? plan_len plan
      then assign_array_parameters 0 parameters plan
      else reject invalid
  | _, Some _ => reject invalid
  end.

Definition FilterPlan_from_pdf_dictionary (dictionary : PdfDictionary)
    (limits : DecodeLimits) : M nat PlanFailure FilterPlan :=
  metadata ← preflight_pdf_dictionary_metadata dictionary limits;
  validate_pdf_dictionary_metadata metadata;;
  match md_filter metadata with
  | None =>
      plan ← lift_decode (FilterPlan_new []);
      check_metadata_cancelled;;
      lift_decode (validate_retained_heap_limit plan (max_filters limits));;
      mret plan
  | Some filter =>
      plan ← lift_decode
        (FilterPlan_allocate (md_filter_count metadata) (max_filters limits));
      plan ← match filter with
             | Name name =>
                 filter ← lift_decode (canonical_pdf_filter name 0);
                 mret (plan_push (without_parameters filter) plan)
             | Array values => push_array_names 0 values plan
             | _ => throw Panicked
             end;
      plan ← assign_parameters (md_array_filter metadata)
        (md_decode_parameters metadata) plan;
      check_metadata_cancelled;;
      lift_decode (validate_retained_heap_limit plan (max_filters limits));;
      mret plan
  end.
End dictionary.
