(* ===== verification/DecodeBudget.v ===== *)
(** * The decode budget and the output buffer ([pdf-rs/filters/src/decode.rs])

    [DecodeBudget] charges fuel, probes for cancellation and accounts output
    bytes; [OutputBuffer] grows one layer's output under it. Both are state
    machines over the monad [M]; a method that fails keeps the state it had
    reached. *)

From stdpp Require Import base list numbers option.
From S2P Require Import Prelude.
From S2P Require Import SourceTypes.
From S2P Require Import FilterTypes.

Definition INITIAL_OUTPUT_RESERVE : Z := 4 * 1024.

(** ** [DecodeBudget]

    The last two fields count the calls made so far to the cancellation probe
    and to the allocator, whose answers the runtime indexes by them. *)
Record DecodeBudget := {
  db_limits : DecodeLimits;
  db_schedule : DecodeFuelScheduleVersion;
  fuel_consumed : Z;
  last_cancellation_probe_fuel : Z;
  cumulative_output_bytes : Z;
  peak_retained_capacity_bytes : Z;
  db_probes : nat;
  db_reservations : nat
}.

Definition set_fuel_consumed (x : Z) (b : DecodeBudget) : DecodeBudget :=
  {| db_limits := db_limits b; db_schedule := db_schedule b; fuel_consumed := x;
     last_cancellation_probe_fuel := last_cancellation_probe_fuel b;
     cumulative_output_bytes := cumulative_output_bytes b;
     peak_retained_capacity_bytes := peak_retained_capacity_bytes b;
     db_probes := db_probes b; db_reservations := db_reservations b |}.
(** A probe is recorded with the fuel at which it happened. *)
Definition set_last_probe (x : Z) (b : DecodeBudget) : DecodeBudget :=
  {| db_limits := db_limits b; db_schedule := db_schedule b;
     fuel_consumed := fuel_consumed b; last_cancellation_probe_fuel := x;
     cumulative_output_bytes := cumulative_output_bytes b;
     peak_retained_capacity_bytes := peak_retained_capacity_bytes b;
     db_probes := S (db_probes b); db_reservations := db_reservations b |}.
Definition set_cumulative (x : Z) (b : DecodeBudget) : DecodeBudget :=
  {| db_limits := db_limits b; db_schedule := db_schedule b;
     fuel_consumed := fuel_consumed b;
     last_cancellation_probe_fuel := last_cancellation_probe_fuel b;
     cumulative_output_bytes := x;
     peak_retained_capacity_bytes := peak_retained_capacity_bytes b;
     db_probes := db_probes b; db_reservations := db_reservations b |}.
Definition observe_retained_capacity (retained : Z) (b : DecodeBudget)
    : DecodeBudget :=
  {| db_limits := db_limits b; db_schedule := db_schedule b;
     fuel_consumed := fuel_consumed b;
     last_cancellation_probe_fuel := last_cancellation_probe_fuel b;
     cumulative_output_bytes := cumulative_output_bytes b;
     peak_retained_capacity_bytes :=
       Z.max (peak_retained_capacity_bytes b) retained;
     db_probes := db_probes b; db_reservations := db_reservations b |}.
Definition count_reservation (b : DecodeBudget) : DecodeBudget :=
  {| db_limits := db_limits b; db_schedule := db_schedule b;
     fuel_consumed := fuel_consumed b;
     last_cancellation_probe_fuel := last_cancellation_probe_fuel b;
     cumulative_output_bytes := cumulative_output_bytes b;
     peak_retained_capacity_bytes := peak_retained_capacity_bytes b;
     db_probes := db_probes b; db_reservations := S (db_reservations b) |}.

(** [probes]: calls of [is_cancelled] made before the budget exists. *)
Definition DecodeBudget_new (limits : DecodeLimits)
    (schedule : DecodeFuelScheduleVersion) (probes : nat) : DecodeBudget :=
  {| db_limits := limits; db_schedule := schedule; fuel_consumed := 0;
     last_cancellation_probe_fuel := 0; cumulative_output_bytes := 0;
     peak_retained_capacity_bytes := 0; db_probes := probes;
     db_reservations := 0 |}.

Section budget.
Context `{DecodeRuntime}.

Definition charge_fuel (amount : Z) (filter_index : option Z)
    : M DecodeBudget DecodeError unit :=
  b ← get;
  let attempted := saturating_add u64_max (fuel_consumed b) amount in
  err_if (max_fuel (db_limits b) <? attempted)
    (resource Fuel (max_fuel (db_limits b)) (fuel_consumed b) attempted
       filter_index);;
  modify (set_fuel_consumed attempted);;
  b ← get;
  if cancellation_check_interval_fuel (db_limits b) <=?
       saturating_sub (fuel_consumed b) (last_cancellation_probe_fuel b)
  then
    modify (set_last_probe (fuel_consumed b));;
    err_if (is_cancelled (db_probes b)) (for_code Cancelled filter_index)
  else mret tt.

Definition charge_setup (filter_index : option Z)
    : M DecodeBudget DecodeError unit :=
  b ← get; charge_fuel (layer_setup_cost (db_schedule b)) filter_index.

Definition budget_charge_algorithm (amount : Z) (filter_index : option Z)
    : M DecodeBudget DecodeError unit :=
  b ← get;
  charge_fuel
    (saturating_mul u64_max (algorithm_step_cost (db_schedule b)) amount)
    filter_index.

Definition budget_consume_input (filter_index : option Z)
    : M DecodeBudget DecodeError unit :=
  b ← get; charge_fuel (input_byte_cost (db_schedule b)) filter_index.

Definition prepare_output (layer_output_bytes : Z) (is_final : bool)
    (filter_index : option Z) : M DecodeBudget DecodeError (Z * Z) :=
  b ← get;
  let limits := db_limits b in
  attempted_layer ← ok_or (checked_add u64_max layer_output_bytes 1)
    (resource LayerOutputBytes (max_layer_output_bytes limits)
       layer_output_bytes u64_max filter_index);
  err_if (max_layer_output_bytes limits <? attempted_layer)
    (resource LayerOutputBytes (max_layer_output_bytes limits)
       layer_output_bytes attempted_layer filter_index);;
  attempted_total ← ok_or (checked_add u64_max (cumulative_output_bytes b) 1)
    (resource TotalOutputBytes (max_total_output_bytes limits)
       (cumulative_output_bytes b) u64_max filter_index);
  err_if (max_total_output_bytes limits <? attempted_total)
    (resource TotalOutputBytes (max_total_output_bytes limits)
       (cumulative_output_bytes b) attempted_total filter_index);;
  err_if (is_final && (max_final_output_bytes limits <? attempted_layer))
    (resource FinalOutputBytes (max_final_output_bytes limits)
       layer_output_bytes attempted_layer filter_index);;
  charge_fuel (output_byte_cost (db_schedule b)) filter_index;;
  mret (attempted_layer, attempted_total).

Definition capacity_ceiling (b : DecodeBudget) (is_final : bool)
    (current_layer_output_bytes : Z) : Z :=
  let final_limit := if is_final then max_final_output_bytes (db_limits b)
                     else u64_max in
  let total_remaining :=
    saturating_add u64_max
      (saturating_sub (max_total_output_bytes (db_limits b))
         (cumulative_output_bytes b))
      current_layer_output_bytes in
  Z.min (Z.min (max_layer_output_bytes (db_limits b)) final_limit)
    total_remaining.
End budget.

(** ** [OutputBuffer] *)

Record OutputBuffer := {
  ob_bytes : list Z;
  ob_capacity : Z;
  ob_input_capacity : Z;
  ob_is_final : bool;
  ob_filter_index : option Z;
  expected_output : Z;
  layer_output_bytes : Z;
  ob_budget : DecodeBudget
}.

Definition set_ob_budget (x : DecodeBudget) (o : OutputBuffer) : OutputBuffer :=
  {| ob_bytes := ob_bytes o; ob_capacity := ob_capacity o;
     ob_input_capacity := ob_input_capacity o; ob_is_final := ob_is_final o;
     ob_filter_index := ob_filter_index o; expected_output := expected_output o;
     layer_output_bytes := layer_output_bytes o; ob_budget := x |}.
Definition set_ob_capacity (x : Z) (o : OutputBuffer) : OutputBuffer :=
  {| ob_bytes := ob_bytes o; ob_capacity := x;
     ob_input_capacity := ob_input_capacity o; ob_is_final := ob_is_final o;
     ob_filter_index := ob_filter_index o; expected_output := expected_output o;
     layer_output_bytes := layer_output_bytes o; ob_budget := ob_budget o |}.
Definition set_ob_bytes (x : list Z) (o : OutputBuffer) : OutputBuffer :=
  {| ob_bytes := x; ob_capacity := ob_capacity o;
     ob_input_capacity := ob_input_capacity o; ob_is_final := ob_is_final o;
     ob_filter_index := ob_filter_index o; expected_output := expected_output o;
     layer_output_bytes := layer_output_bytes o; ob_budget := ob_budget o |}.
Definition set_layer_output_bytes (x : Z) (o : OutputBuffer) : OutputBuffer :=
  {| ob_bytes := ob_bytes o; ob_capacity := ob_capacity o;
     ob_input_capacity := ob_input_capacity o; ob_is_final := ob_is_final o;
     ob_filter_index := ob_filter_index o; expected_output := expected_output o;
     layer_output_bytes := x; ob_budget := ob_budget o |}.

Definition OutputBuffer_new (input_capacity : Z) (is_final : bool)
    (filter_index : option Z) (expected_output : Z) (budget : DecodeBudget)
    : OutputBuffer :=
  {| ob_bytes := []; ob_capacity := 0; ob_input_capacity := input_capacity;
     ob_is_final := is_final; ob_filter_index := filter_index;
     expected_output := expected_output; layer_output_bytes := 0;
     ob_budget := budget |}.

(** A [Vec<u8>]: its bytes and its capacity. *)
Record ByteVec := { vec_bytes : list Z; vec_capacity : Z }.

Definition OutputBuffer_finish (o : OutputBuffer) : ByteVec :=
  {| vec_bytes := ob_bytes o; vec_capacity := ob_capacity o |}.

Section buffer.
Context `{DecodeRuntime}.

(** A budget method called through the buffer's [budget] field. *)
Definition on_budget {A} (m : M DecodeBudget DecodeError A)
    : M OutputBuffer DecodeError A :=
  zoom ob_budget set_ob_budget id m.

Definition consume_input : M OutputBuffer DecodeError unit :=
  o ← get; on_budget (budget_consume_input (ob_filter_index o)).

Definition charge_algorithm (amount : Z) : M OutputBuffer DecodeError unit :=
  o ← get; on_budget (budget_charge_algorithm amount (ob_filter_index o)).

(** [usize::try_from(v).unwrap_or(usize::MAX)]. *)
Definition to_usize (v : Z) : Z := default usize_max (try_from usize_max v).

Definition current_retained_u64 (o : OutputBuffer) : Z :=
  saturating_add usize_max (ob_input_capacity o) (ob_capacity o).

Definition retained_error (o : OutputBuffer) (required_output_capacity : Z)
    : DecodeError :=
  resource RetainedCapacityBytes
    (max_retained_capacity_bytes (db_limits (ob_budget o)))
    (current_retained_u64 o)
    (saturating_add usize_max (ob_input_capacity o) required_output_capacity)
    (ob_filter_index o).

(** The retained bytes left to this layer's output. *)
Definition available_capacity (o : OutputBuffer) : Z :=
  saturating_sub
    (to_usize (max_retained_capacity_bytes (db_limits (ob_budget o))))
    (ob_input_capacity o).

(** The capacity [ensure_capacity] asks for. *)
Definition desired_capacity (o : OutputBuffer) (required : Z) : Z :=
  let available := available_capacity o in
  let logical_ceiling :=
    Z.min (to_usize (capacity_ceiling (ob_budget o) (ob_is_final o)
                       (layer_output_bytes o))) available in
  let hint := Z.min (Z.max (to_usize (expected_output o)) required)
                INITIAL_OUTPUT_RESERVE in
  Z.min (Z.min
    (if ob_capacity o =? 0 then hint
     else Z.max (saturating_mul usize_max (ob_capacity o) 2) required)
    logical_ceiling) available.

(** The allocation itself, and the accounting of what it returned. *)
Definition grow_to (desired : Z) : M OutputBuffer DecodeError unit :=
  o ← get;
  let limit := max_retained_capacity_bytes (db_limits (ob_budget o)) in
  additional ← ok_or (checked_sub desired (len (ob_bytes o)))
    (for_code InternalState (ob_filter_index o));
  let consumed := current_retained_u64 o in
  let attempted := saturating_add usize_max (ob_input_capacity o) desired in
  modify (λ o, set_ob_budget (count_reservation (ob_budget o)) o);;
  capacity ← ok_or
    (try_reserve_exact (db_reservations (ob_budget o)) (len (ob_bytes o))
       (ob_capacity o) additional)
    (resource Allocation limit consumed attempted (ob_filter_index o));
  modify (set_ob_capacity capacity);;
  retained ← gets current_retained_u64;
  err_if (limit <? retained)
    (resource RetainedCapacityBytes limit consumed retained (ob_filter_index o));;
  modify (λ o, set_ob_budget
    (observe_retained_capacity retained (ob_budget o)) o).

Definition ensure_capacity : M OutputBuffer DecodeError unit :=
  o ← get;
  if len (ob_bytes o) <? ob_capacity o then mret tt
  else
    required ← ok_or (checked_add usize_max (len (ob_bytes o)) 1)
      (for_code InternalState (ob_filter_index o));
    err_if (available_capacity o <? required) (retained_error o required);;
    err_if (desired_capacity o required <? required) (retained_error o required);;
    grow_to (desired_capacity o required).

Definition push (byte : Z) : M OutputBuffer DecodeError unit :=
  o ← get;
  '(attempted_layer, attempted_total) ← on_budget
    (prepare_output (layer_output_bytes o) (ob_is_final o) (ob_filter_index o));
  ensure_capacity;;
  modify (λ o, set_ob_bytes (ob_bytes o ++ [byte]) o);;
  modify (set_layer_output_bytes attempted_layer);;
  modify (λ o, set_ob_budget (set_cumulative attempted_total (ob_budget o)) o).
End buffer.

(** Reads and writes of the bytes already produced. *)
Definition byte_at_distance (bytes : list Z) (distance : Z) : option Z :=
  index ← checked_sub (len bytes) distance;
  bytes !! Z.to_nat index.

Definition bit_at (bytes : list Z) (bit : Z) : option Z :=
  byte ← bytes !! Z.to_nat (bit / 8);
  shift ← checked_sub 7 (bit `mod` 8);
  Some (Z.land (Z.shiftr byte shift) 1).

(** The byte with its bit at [shift] cleared, or-ed with [value & 1] there. *)
Definition set_bit (byte shift value : Z) : Z :=
  Z.lor (Z.ldiff byte (Z.shiftl 1 shift)) (Z.shiftl (Z.land value 1) shift).

Definition replace_bit (bytes : list Z) (bit value : Z) : option (list Z) :=
  byte ← bytes !! Z.to_nat (bit / 8);
  shift ← checked_sub 7 (bit `mod` 8);
  Some (<[Z.to_nat (bit / 8) := set_bit byte shift value]> bytes).
