(* ===== verification/DecodeBudgetSpec.v ===== *)
(** * What the budget and the buffer guarantee

    The invariants of [DecodeBudget] and [OutputBuffer], the errors that can
    interrupt a decode, and the specification of every method: its effect when
    it succeeds, the reason when it does not, and when it must succeed. *)

From stdpp Require Import base list numbers option.
From S2P Require Import Prelude.
From S2P Require Import SourceTypes.
From S2P Require Import FilterTypes.
From S2P Require Import DecodeBudget.

(** ** Invariants *)

Record budget_ok (b : DecodeBudget) : Prop := {
  bk_limits : decode_limits_ok (db_limits b);
  bk_fuel : 0 ≤ last_cancellation_probe_fuel b ≤ fuel_consumed b;
  bk_max_fuel : fuel_consumed b ≤ max_fuel (db_limits b);
  (** The last probe is less than one interval old. *)
  bk_probe : fuel_consumed b - last_cancellation_probe_fuel b
    < cancellation_check_interval_fuel (db_limits b);
  bk_total : 0 ≤ cumulative_output_bytes b ≤ max_total_output_bytes (db_limits b);
  bk_peak : 0 ≤ peak_retained_capacity_bytes b
    ≤ max_retained_capacity_bytes (db_limits b)
}.

Record buffer_ok `{DecodeRuntime} (o : OutputBuffer) : Prop := {
  ok_budget : budget_ok (ob_budget o);
  ok_layer : layer_output_bytes o = len (ob_bytes o);
  ok_capacity : len (ob_bytes o) ≤ ob_capacity o ≤ usize_max;
  ok_layer_max : len (ob_bytes o) ≤ max_layer_output_bytes (db_limits (ob_budget o));
  ok_final_max : ob_is_final o = true →
    len (ob_bytes o) ≤ max_final_output_bytes (db_limits (ob_budget o));
  ok_total : len (ob_bytes o) ≤ cumulative_output_bytes (ob_budget o);
  ok_input : 0 ≤ ob_input_capacity o;
  ok_input_peak : ob_input_capacity o ≤ peak_retained_capacity_bytes (ob_budget o);
  ok_expected : 0 ≤ expected_output o;
  ok_retained : ob_capacity o = 0 ∨
    ob_input_capacity o + ob_capacity o ≤ peak_retained_capacity_bytes (ob_budget o)
}.

(** ** Interruptions *)

(** Why charges that need fuel up to [fuel_end] stop, and leave [b']: the last probe,
    after the first [probes], was answered, or the next charge, which the decode
    needs, exceeds what is left of the fuel. *)
Inductive charge_stopped `{DecodeRuntime} (b' : DecodeBudget) (probes : nat) (fuel_end : Z)
    (filter_index : option Z) : DecodeError → Prop :=
| stopped_cancelled k :
    (probes ≤ k)%nat → db_probes b' = S k → is_cancelled k = true →
    charge_stopped b' probes fuel_end filter_index (for_code Cancelled filter_index)
| stopped_fuel attempted :
    max_fuel (db_limits b') < attempted ≤ fuel_end → fuel_consumed b' ≤ attempted →
    charge_stopped b' probes fuel_end filter_index
      (resource Fuel (max_fuel (db_limits b')) (fuel_consumed b') attempted filter_index).

(** Why a layer stops before its next byte, and leaves the buffer [o']: one more byte
    exceeds a ceiling that is reached, or the retained bytes do, or the last request to
    the allocator, for a full buffer, gave more than the limit, or nothing. *)
Inductive output_stopped `{DecodeRuntime} (o' : OutputBuffer) : DecodeError → Prop :=
| stopped_layer :
    let limit := max_layer_output_bytes (db_limits (ob_budget o')) in
    len (ob_bytes o') = limit →
    output_stopped o' (resource LayerOutputBytes limit limit (limit + 1) (ob_filter_index o'))
| stopped_total :
    let limit := max_total_output_bytes (db_limits (ob_budget o')) in
    cumulative_output_bytes (ob_budget o') = limit →
    output_stopped o' (resource TotalOutputBytes limit limit (limit + 1) (ob_filter_index o'))
| stopped_final :
    let limit := max_final_output_bytes (db_limits (ob_budget o')) in
    ob_is_final o' = true → len (ob_bytes o') = limit →
    output_stopped o' (resource FinalOutputBytes limit limit (limit + 1) (ob_filter_index o'))
| stopped_retained :
    let limit := max_retained_capacity_bytes (db_limits (ob_budget o')) in
    ob_input_capacity o' + len (ob_bytes o') = limit →
    output_stopped o'
      (resource RetainedCapacityBytes limit limit (limit + 1) (ob_filter_index o'))
| stopped_overallocated k additional capacity :
    let limit := max_retained_capacity_bytes (db_limits (ob_budget o')) in
    let retained := ob_input_capacity o' + len (ob_bytes o') in
    db_reservations (ob_budget o') = S k → 1 ≤ additional → retained + additional ≤ limit →
    try_reserve_exact k (len (ob_bytes o')) (len (ob_bytes o')) additional = Some capacity →
    limit < saturating_add usize_max (ob_input_capacity o') capacity →
    output_stopped o'
      (resource RetainedCapacityBytes limit retained
         (saturating_add usize_max (ob_input_capacity o') capacity) (ob_filter_index o'))
| stopped_allocation k additional :
    let limit := max_retained_capacity_bytes (db_limits (ob_budget o')) in
    let retained := ob_input_capacity o' + len (ob_bytes o') in
    db_reservations (ob_budget o') = S k → 1 ≤ additional → retained + additional ≤ limit →
    try_reserve_exact k (len (ob_bytes o')) (len (ob_bytes o')) additional = None →
    output_stopped o'
      (resource Allocation limit retained (retained + additional) (ob_filter_index o')).

(** Why a decode that needs fuel up to [fuel_end] and produces [n_end] bytes in this
    layer may stop with the buffer [o'], after [probes] probes. *)
Definition interrupted `{DecodeRuntime} (o' : OutputBuffer) (probes : nat) (fuel_end n_end : Z)
    (e : DecodeError) : Prop :=
  charge_stopped (ob_budget o') probes fuel_end (ob_filter_index o') e ∨
  len (ob_bytes o') < n_end ∧ layer_output_bytes o' = len (ob_bytes o') ∧ output_stopped o' e.

Lemma charge_stopped_code `{DecodeRuntime} b' probes fuel_end fi e :
  charge_stopped b' probes fuel_end fi e →
  error_code e = Cancelled ∨ error_code e = ResourceLimit.
Proof. destruct 1; simpl; auto. Qed.

Lemma charge_stopped_later `{DecodeRuntime} b' probes probes' fuel_end fuel_end' fi e :
  (probes ≤ probes')%nat → fuel_end' ≤ fuel_end → charge_stopped b' probes' fuel_end' fi e →
  charge_stopped b' probes fuel_end fi e.
Proof.
  intros Hle Hf [k Hk Hp Hc|attempted Ha Hb].
  - by apply (stopped_cancelled _ _ _ _ k); [lia|..].
  - apply stopped_fuel; lia.
Qed.

Lemma interrupted_later `{DecodeRuntime} o' probes probes' fuel_end fuel_end' n_end n_end' e :
  (probes ≤ probes')%nat → fuel_end' ≤ fuel_end → n_end' ≤ n_end →
  interrupted o' probes' fuel_end' n_end' e → interrupted o' probes fuel_end n_end e.
Proof.
  intros Hle Hf Hn [Hc|[Hb Ho]]; [left|right; split; [lia|exact Ho]].
  by eapply charge_stopped_later.
Qed.

(** Probes [from .. to - 1] were all answered "not cancelled". *)
Definition not_cancelled `{DecodeRuntime} (from to : nat) : Prop :=
  ∀ k, (from ≤ k < to)%nat → is_cancelled k = false.

(** [b'] is [b] after some charges and outputs. *)
Record budget_later `{DecodeRuntime} (b b' : DecodeBudget) : Prop := {
  lt_limits : db_limits b' = db_limits b;
  lt_schedule : db_schedule b' = db_schedule b;
  lt_fuel : fuel_consumed b ≤ fuel_consumed b';
  lt_total : cumulative_output_bytes b ≤ cumulative_output_bytes b';
  lt_peak : peak_retained_capacity_bytes b ≤ peak_retained_capacity_bytes b';
  lt_probes : (db_probes b ≤ db_probes b')%nat
}.

#[global] Instance budget_later_preorder `{DecodeRuntime} : PreOrder budget_later.
Proof.
  split.
  - intros b. by split.
  - intros b1 b2 b3 [] []. split; try congruence; lia.
Qed.

(** The hard ceilings are far below the 64-bit range. *)
Lemma limits_below_u64 l :
  decode_limits_ok l →
  max_fuel l + 2 ^ 33 < u64_max ∧ max_layer_output_bytes l + 2 ^ 33 < u64_max ∧
  max_total_output_bytes l + 2 ^ 33 < u64_max ∧
  max_retained_capacity_bytes l + 2 ^ 33 < u64_max.
Proof.
  intros [_ _ Hl Ht _ _ _ Hr _ Hf _ _].
  unfold HARD_MAX_LAYER_OUTPUT_BYTES, HARD_MAX_TOTAL_OUTPUT_BYTES,
    HARD_MAX_RETAINED_CAPACITY_BYTES, HARD_MAX_FUEL, u64_max in *. lia.
Qed.

Section budget_specs.
Context `{DecodeRuntime}.
Implicit Types b : DecodeBudget.

Lemma charge_fuel_spec amount fi b b' r :
  0 ≤ amount → budget_ok b → charge_fuel amount fi b = (b', r) →
  budget_ok b' ∧ budget_later b b' ∧
  cumulative_output_bytes b' = cumulative_output_bytes b ∧
  peak_retained_capacity_bytes b' = peak_retained_capacity_bytes b ∧
  db_reservations b' = db_reservations b ∧
  match r with
  | Ok _ => fuel_consumed b' = fuel_consumed b + amount ∧
            not_cancelled (db_probes b) (db_probes b')
  | Err e => charge_stopped b' (db_probes b) (fuel_consumed b + amount) fi e
  end.
Proof.
  intros Hpos Hok Hrun. pose proof Hok as [Hl Hf Hm Hp Ht Hk].
  pose proof (limits_below_u64 _ Hl) as (Hu&_).
  pose proof (dl_interval _ Hl) as [Hint _].
  unfold charge_fuel in Hrun. cbv zeta in Hrun. minv Hrun; checked_facts.
  - assert (saturating_add u64_max (fuel_consumed b) amount
            = fuel_consumed b + amount) as Hsat
      by (apply saturating_add_exact; unfold saturating_add in *; lia).
    rewrite Hsat in *. simpl in Hrun. rewrite saturating_sub_exact in Hrun by lia.
    destruct (_ <=? _) eqn:Hprobe in Hrun; minv Hrun; checked_facts; simpl;
      (split; [split; simpl; first [done|lia]|]);
      (split; [split; simpl; first [done|lia]|]); split_and!; try done.
    + intros k Hk'. by replace k with (db_probes b) by lia.
    + by eapply (stopped_cancelled _ _ _ _ (db_probes b)).
    + intros k Hk'. lia.
  - split; [done|]. split; [done|]. split_and!; try done.
    unfold saturating_add in *. apply stopped_fuel; lia.
Qed.

(** Enough fuel and no cancellation: the charge succeeds. *)
Lemma charge_fuel_ok amount fi b :
  budget_ok b → 0 ≤ amount → (∀ k, is_cancelled k = false) →
  fuel_consumed b + amount ≤ max_fuel (db_limits b) →
  ∃ b', charge_fuel amount fi b = (b', Ok tt).
Proof.
  intros Hok Hpos Hc Hfit. pose proof (limits_below_u64 _ (bk_limits _ Hok)) as (Hu&_).
  destruct (charge_fuel amount fi b) as [b' [[]|e]] eqn:Hrun; [by exists b'|].
  exfalso. unfold charge_fuel in Hrun. cbv zeta in Hrun.
  assert (saturating_add u64_max (fuel_consumed b) amount
          = fuel_consumed b + amount) as Hsat by (apply saturating_add_exact; lia).
  minv Hrun; rewrite Hsat in *; checked_facts; [|lia].
  destruct (_ <=? _) in Hrun; minv Hrun. simpl in *. congruence.
Qed.

(** One more byte of output exceeds a ceiling. *)
Definition room_stopped b (layer : Z) (final : bool) (fi : option Z) (e : DecodeError) : Prop :=
  let limits := db_limits b in
  let produced := cumulative_output_bytes b in
  (layer = max_layer_output_bytes limits ∧
   e = resource LayerOutputBytes layer layer (layer + 1) fi) ∨
  (produced = max_total_output_bytes limits ∧
   e = resource TotalOutputBytes produced produced (produced + 1) fi) ∨
  (final = true ∧ layer = max_final_output_bytes limits ∧
   e = resource FinalOutputBytes layer layer (layer + 1) fi).

Lemma prepare_output_spec layer final fi b b' r :
  0 ≤ layer ≤ max_layer_output_bytes (db_limits b) →
  (final = true → layer ≤ max_final_output_bytes (db_limits b)) → budget_ok b →
  prepare_output layer final fi b = (b', r) →
  budget_ok b' ∧ budget_later b b' ∧
  cumulative_output_bytes b' = cumulative_output_bytes b ∧
  peak_retained_capacity_bytes b' = peak_retained_capacity_bytes b ∧
  db_reservations b' = db_reservations b ∧
  match r with
  | Ok (attempted_layer, attempted_total) =>
      attempted_layer = layer + 1 ∧
      attempted_total = cumulative_output_bytes b + 1 ∧
      layer + 1 ≤ max_layer_output_bytes (db_limits b) ∧
      cumulative_output_bytes b + 1 ≤ max_total_output_bytes (db_limits b) ∧
      (final = true → layer + 1 ≤ max_final_output_bytes (db_limits b)) ∧
      fuel_consumed b' = fuel_consumed b + output_byte_cost (db_schedule b) ∧
      not_cancelled (db_probes b) (db_probes b')
  | Err e =>
      charge_stopped b' (db_probes b) (fuel_consumed b + output_byte_cost (db_schedule b)) fi e ∨
      b' = b ∧ room_stopped b layer final fi e
  end.
Proof.
  intros Hlay Hfin' Hok Hrun. pose proof Hok as [Hl Hf Hm Hp Ht Hk].
  pose proof (limits_below_u64 _ Hl) as (_&Hu1&Hu2&_).
  assert (0 ≤ output_byte_cost (db_schedule b)) as Hcost by (by destruct (db_schedule b)).
  unfold prepare_output in Hrun. cbv zeta in Hrun. minv Hrun; checked_facts.
  all: try match goal with Hc : charge_fuel _ _ _ = _ |- _ =>
    apply charge_fuel_spec in Hc as (?&?&?&?&?&Hres); [|done..] end.
  all: (split; [done|]; split; [done|]; split; [done|]; split; [done|];
        split; [done|]).
  - destruct Hres as [Hfuel Hcan]. subst. split_and!; try done.
    intros ->. simpl in *. by apply Z.ltb_ge.
  - by left.
  - match goal with Hfin : final && _ = true |- _ =>
      apply andb_true_iff in Hfin as [-> Hfin%Z.ltb_lt] end.
    specialize (Hfin' eq_refl). right. subst. split; [done|]. right; right.
    split_and!; [done|lia|f_equal; lia].
  - right. subst. split; [done|]. right; left. split; [lia|f_equal; lia].
  - exfalso. lia.
  - right. subst. split; [done|]. left. split; [lia|f_equal; lia].
  - exfalso. lia.
Qed.
End budget_specs.

(** ** The buffer *)

Lemma to_usize_exact `{DecodeRuntime} v : 0 ≤ v ≤ usize_max → to_usize v = v.
Proof.
  intros Hv. unfold to_usize, try_from.
  rewrite (proj2 (Z.leb_le _ _)), (proj2 (Z.leb_le _ _)) by lia. done.
Qed.

Lemma to_usize_bounds `{DecodeRuntime} v : 0 ≤ v → Z.min v usize_max ≤ to_usize v.
Proof. intros Hv. unfold to_usize, try_from. case_match; simpl; lia. Qed.

Lemma usize_large `{Platform} : 4294967295 ≤ usize_max.
Proof. destruct usize_max_cases as [-> | ->]; done. Qed.

Lemma limits_below_usize `{DecodeRuntime} l :
  decode_limits_ok l →
  max_layer_output_bytes l < usize_max ∧ max_total_output_bytes l < usize_max ∧
  max_retained_capacity_bytes l < usize_max.
Proof.
  intros [_ _ Hl Ht _ _ _ Hr _ _ _ _]. pose proof usize_large.
  unfold HARD_MAX_LAYER_OUTPUT_BYTES, HARD_MAX_TOTAL_OUTPUT_BYTES,
    HARD_MAX_RETAINED_CAPACITY_BYTES in *. lia.
Qed.

(** Never cancelled, and an allocator that gives exactly what is asked. *)
Record quiet `{DecodeRuntime} : Prop := {
  quiet_probes : ∀ k, is_cancelled k = false;
  quiet_allocator : ∀ k l c a,
    try_reserve_exact k l c a = exact_reserve usize_max k l c a
}.

Lemma quiet_runtime_quiet p : @quiet (quiet_runtime p).
Proof. done. Qed.

(** [o'] is [o] with later bytes, capacity and budget. *)
Record buffer_later `{DecodeRuntime} (o o' : OutputBuffer) : Prop := {
  bl_input : ob_input_capacity o' = ob_input_capacity o;
  bl_final : ob_is_final o' = ob_is_final o;
  bl_index : ob_filter_index o' = ob_filter_index o;
  bl_expected : expected_output o' = expected_output o;
  bl_budget : budget_later (ob_budget o) (ob_budget o');
  (** Every byte added to the layer is charged to the total. *)
  bl_total : cumulative_output_bytes (ob_budget o') - layer_output_bytes o'
    = cumulative_output_bytes (ob_budget o) - layer_output_bytes o
}.

#[global] Instance buffer_later_preorder `{DecodeRuntime} : PreOrder buffer_later.
Proof.
  split.
  - intros o. by split.
  - intros o1 o2 o3 [] []. split; try congruence. by etrans.
Qed.

(** What [prepare_output] has established when [ensure_capacity] runs. *)
Record may_output (o : OutputBuffer) : Prop := {
  mo_layer : len (ob_bytes o) + 1 ≤ max_layer_output_bytes (db_limits (ob_budget o));
  mo_total : cumulative_output_bytes (ob_budget o) + 1
    ≤ max_total_output_bytes (db_limits (ob_budget o));
  mo_final : ob_is_final o = true →
    len (ob_bytes o) + 1 ≤ max_final_output_bytes (db_limits (ob_budget o))
}.

Section buffer_specs.
Context `{DecodeRuntime}.

Lemma capacity_ceiling_room o :
  buffer_ok o → may_output o →
  len (ob_bytes o) + 1
    ≤ to_usize (capacity_ceiling (ob_budget o) (ob_is_final o) (layer_output_bytes o)).
Proof.
  intros [Hb Hlay Hcap Hlm Hfm Htot Hin Hpeak Hexp Hret] [Hml Hmt Hmf].
  pose proof (bk_limits _ Hb) as Hl.
  pose proof (limits_below_u64 _ Hl) as (_&Hu1&Hu2&_).
  pose proof (limits_below_usize _ Hl) as (Hs1&Hs2&_).
  assert (len (ob_bytes o) + 1 ≤ capacity_ceiling (ob_budget o) (ob_is_final o)
            (layer_output_bytes o)) as Hc.
  { unfold capacity_ceiling. cbv zeta. rewrite Hlay.
    rewrite saturating_sub_exact by lia. unfold saturating_add.
    destruct (ob_is_final o); [specialize (Hmf eq_refl)|]; lia. }
  etrans; [|apply to_usize_bounds; lia]. lia.
Qed.

Lemma desired_capacity_bounds o :
  buffer_ok o → may_output o →
  ob_input_capacity o + len (ob_bytes o) + 1
    ≤ max_retained_capacity_bytes (db_limits (ob_budget o)) →
  ob_capacity o = len (ob_bytes o) →
  len (ob_bytes o) + 1 ≤ available_capacity o ∧
  len (ob_bytes o) + 1 ≤ desired_capacity o (len (ob_bytes o) + 1) ∧
  ob_input_capacity o + desired_capacity o (len (ob_bytes o) + 1)
    ≤ max_retained_capacity_bytes (db_limits (ob_budget o)).
Proof.
  intros Hok Hmay Hfit Hfull. pose proof (capacity_ceiling_room o Hok Hmay) as Hceil.
  destruct Hok as [Hb Hlay Hcap Hlm Hfm Htot Hin Hpeak Hexp Hret].
  pose proof (limits_below_usize _ (bk_limits _ Hb)) as (_&_&Hs3).
  pose proof (dl_retained _ (bk_limits _ Hb)) as [? _].
  assert (available_capacity o = max_retained_capacity_bytes (db_limits (ob_budget o))
          - ob_input_capacity o) as Hav.
  { unfold available_capacity. rewrite to_usize_exact by lia.
    by rewrite saturating_sub_exact by lia. }
  unfold desired_capacity. cbv zeta. rewrite Hav. split; [lia|]. split; [|lia].
  assert (len (ob_bytes o) + 1 ≤ (if ob_capacity o =? 0
    then Z.min (Z.max (to_usize (expected_output o)) (len (ob_bytes o) + 1))
           INITIAL_OUTPUT_RESERVE
    else Z.max (saturating_mul usize_max (ob_capacity o) 2) (len (ob_bytes o) + 1))).
  { destruct (ob_capacity o =? 0) eqn:Hz; [|lia].
    apply Z.eqb_eq in Hz. unfold INITIAL_OUTPUT_RESERVE. lia. }
  lia.
Qed.

(** A growth that succeeds has room for one more byte within the retained
    limit; one that fails really exceeded it, or the allocator failed. *)
Lemma grow_to_spec desired o o' r :
  buffer_ok o → ob_capacity o = len (ob_bytes o) → len (ob_bytes o) + 1 ≤ desired →
  ob_input_capacity o + desired ≤ max_retained_capacity_bytes (db_limits (ob_budget o)) →
  grow_to desired o = (o', r) →
  budget_ok (ob_budget o') ∧ buffer_later o o' ∧ ob_bytes o' = ob_bytes o ∧
  layer_output_bytes o' = layer_output_bytes o ∧
  db_probes (ob_budget o') = db_probes (ob_budget o) ∧
  fuel_consumed (ob_budget o') = fuel_consumed (ob_budget o) ∧
  cumulative_output_bytes (ob_budget o') = cumulative_output_bytes (ob_budget o) ∧
  match r with
  | Ok _ => len (ob_bytes o) + 1 ≤ ob_capacity o' ≤ usize_max ∧
      ob_input_capacity o + ob_capacity o'
        ≤ peak_retained_capacity_bytes (ob_budget o')
  | Err e => output_stopped o' e
  end.
Proof.
  intros Hok Hfull Hdes Hdesmax Hrun. pose proof Hok as [Hb Hlay Hcap Hlm Hfm Htot Hin Hpeak Hexp Hret].
  pose proof (limits_below_usize _ (bk_limits _ Hb)) as (Hs1&_&Hs3).
  destruct Hb as [Hl Hf Hm Hp Ht Hk].
  assert (current_retained_u64 o = ob_input_capacity o + len (ob_bytes o)) as Hcur.
  { unfold current_retained_u64. rewrite Hfull. apply saturating_add_exact. lia. }
  assert (∀ x, budget_later (ob_budget o) (observe_retained_capacity x
            (count_reservation (ob_budget o)))) as Hlater by (split; simpl; first [done|lia]).
  unfold grow_to in Hrun. cbv zeta in Hrun. minv Hrun; checked_facts; subst;
    try match goal with Hr : try_reserve_exact _ _ _ _ = Some _ |- _ =>
      pose proof Hr as [Hroom Hbig]%try_reserve_exact_spec end;
    simpl in *; [| | |lia].
  - match goal with Hr : current_retained_u64 _ ≤ _ |- _ => rename Hr into Hret' end.
    unfold current_retained_u64 in *. simpl in *. unfold saturating_add in *.
    split; [split; simpl; first [done|lia]|].
    split; [split; simpl; first [done|apply Hlater|lia]|].
    split_and!; try done; lia.
  - split; [split; simpl; first [done|lia]|].
    split; [split; simpl; first [done|split; simpl; first [done|lia]|lia]|].
    split_and!; try done.
    match goal with Hr : try_reserve_exact _ _ _ _ = Some _ |- _ => rename Hr into Hres end.
    rewrite Hcur, Hfull in *.
    match type of Hres with _ = Some ?c =>
      apply (stopped_overallocated
        (set_ob_capacity c (set_ob_budget (count_reservation (ob_budget o)) o))
        (db_reservations (ob_budget o)) (desired - len (ob_bytes o))) end;
      [reflexivity| | |exact Hres|done]; simpl; lia.
  - split; [split; simpl; first [done|lia]|].
    split; [split; simpl; first [done|split; simpl; first [done|lia]|lia]|].
    split_and!; try done.
    match goal with Hr : try_reserve_exact _ _ _ _ = None |- _ => rename Hr into Hres end.
    rewrite Hcur, Hfull in *. rewrite saturating_add_exact by lia.
    replace (ob_input_capacity o + desired) with
      (ob_input_capacity o + len (ob_bytes o) + (desired - len (ob_bytes o))) by lia.
    apply (stopped_allocation (set_ob_budget (count_reservation (ob_budget o)) o)
      (db_reservations (ob_budget o))); [reflexivity| | |exact Hres]; simpl; lia.
Qed.

(** A full buffer with no retained byte left. *)
Lemma retained_stopped o :
  buffer_ok o → ob_capacity o = len (ob_bytes o) →
  ¬ ob_input_capacity o + len (ob_bytes o) + 1
    ≤ max_retained_capacity_bytes (db_limits (ob_budget o)) →
  output_stopped o (retained_error o (len (ob_bytes o) + 1)).
Proof.
  intros [Hb Hlay Hcap Hlm Hfm Htot Hin Hpeak Hexp Hret] Hfull Hfit.
  pose proof (limits_below_usize _ (bk_limits _ Hb)) as (_&_&Hs3).
  pose proof (bk_peak _ Hb).
  assert (ob_input_capacity o + len (ob_bytes o)
    = max_retained_capacity_bytes (db_limits (ob_budget o))) as Heq by lia.
  unfold retained_error, current_retained_u64. rewrite Hfull.
  rewrite !saturating_add_exact by lia. rewrite Z.add_assoc, Heq. by apply stopped_retained.
Qed.

Lemma ensure_capacity_spec o o' r :
  buffer_ok o → may_output o → ensure_capacity o = (o', r) →
  budget_ok (ob_budget o') ∧ buffer_later o o' ∧ ob_bytes o' = ob_bytes o ∧
  layer_output_bytes o' = layer_output_bytes o ∧
  db_probes (ob_budget o') = db_probes (ob_budget o) ∧
  fuel_consumed (ob_budget o') = fuel_consumed (ob_budget o) ∧
  cumulative_output_bytes (ob_budget o') = cumulative_output_bytes (ob_budget o) ∧
  match r with
  | Ok _ => len (ob_bytes o) + 1 ≤ ob_capacity o' ≤ usize_max ∧
      ob_input_capacity o + ob_capacity o'
        ≤ peak_retained_capacity_bytes (ob_budget o')
  | Err e => output_stopped o' e
  end.
Proof.
  intros Hok Hmay Hrun. pose proof Hok as [Hb Hlay Hcap Hlm Hfm Htot Hin Hpeak Hexp Hret].
  pose proof (limits_below_usize _ (bk_limits _ Hb)) as (Hs1&_&Hs3).
  pose proof (dl_retained _ (bk_limits _ Hb)) as [Hrpos _].
  unfold ensure_capacity in Hrun. erewrite bind_ok in Hrun by reflexivity.
  destruct (len (ob_bytes o) <? ob_capacity o) eqn:Hroom; cbv iota in Hrun.
  { minv Hrun. checked_facts. split_and!; try done; [lia|lia|].
    destruct Hret as [Hz|?]; lia. }
  checked_facts. assert (ob_capacity o = len (ob_bytes o)) as Hfull by lia.
  pose proof (desired_capacity_bounds o Hok Hmay) as Hdes.
  minv Hrun; checked_facts; subst.
  - destruct (decide (ob_input_capacity o + len (ob_bytes o) + 1
      ≤ max_retained_capacity_bytes (db_limits (ob_budget o)))) as [Hfit|Hfit].
    { destruct (Hdes Hfit Hfull) as (_&_&?). eapply grow_to_spec; [..|exact Hrun]; done. }
    exfalso. unfold available_capacity in *.
    rewrite to_usize_exact in * by lia. unfold saturating_sub in *. lia.
  - destruct (decide (ob_input_capacity o + len (ob_bytes o) + 1
      ≤ max_retained_capacity_bytes (db_limits (ob_budget o)))) as [Hfit|Hfit].
    { destruct (Hdes Hfit Hfull) as (_&?&_). lia. }
    split_and!; try done. by apply retained_stopped.
  - destruct (decide (ob_input_capacity o + len (ob_bytes o) + 1
      ≤ max_retained_capacity_bytes (db_limits (ob_budget o)))) as [Hfit|Hfit].
    { destruct (Hdes Hfit Hfull) as (?&_&_). lia. }
    split_and!; try done. by apply retained_stopped.
  - lia.
Qed.
(** With an exact allocator the retained limit is the only obstacle. *)
Lemma ensure_capacity_ok o :
  quiet → buffer_ok o → may_output o →
  ob_input_capacity o + len (ob_bytes o) + 1
    ≤ max_retained_capacity_bytes (db_limits (ob_budget o)) →
  ∃ o', ensure_capacity o = (o', Ok tt).
Proof.
  intros [_ Halloc] Hok Hmay Hfit.
  pose proof Hok as [Hb Hlay Hcap Hlm Hfm Htot Hin Hpeak Hexp Hret].
  pose proof (limits_below_usize _ (bk_limits _ Hb)) as (Hs1&_&Hs3).
  destruct (ensure_capacity o) as [o' [[]|e]] eqn:Hrun; [by exists o'|exfalso].
  unfold ensure_capacity in Hrun. erewrite bind_ok in Hrun by reflexivity.
  destruct (len (ob_bytes o) <? ob_capacity o) eqn:Hroom; cbv iota in Hrun;
    [by minv Hrun|].
  checked_facts. assert (ob_capacity o = len (ob_bytes o)) as Hfull by lia.
  destruct (desired_capacity_bounds o Hok Hmay Hfit Hfull) as (Hav&Hdes&Hle).
  minv Hrun; checked_facts; subst; try lia.
  unfold grow_to in Hrun. cbv zeta in Hrun. minv Hrun; checked_facts; subst.
  - rewrite Halloc in *. unfold exact_reserve in *. case_match; simplify_eq.
    unfold current_retained_u64, saturating_add in *. simpl in *. lia.
  - rewrite Halloc in *. unfold exact_reserve in *. case_match; [done|lia].
  - lia.
Qed.

Lemma buffer_later_of_budget o b' :
  budget_later (ob_budget o) b' →
  cumulative_output_bytes b' = cumulative_output_bytes (ob_budget o) →
  buffer_later o (set_ob_budget b' o).
Proof. intros ??. split; simpl; try done. lia. Qed.

Lemma buffer_ok_of_budget o b' :
  buffer_ok o → budget_ok b' → budget_later (ob_budget o) b' →
  buffer_ok (set_ob_budget b' o).
Proof.
  intros [Hb Hlay Hcap Hlm Hfm Htot Hin Hpeak Hexp Hret] Hb' [Hl Hs Hf Ht Hp Hn].
  split; simpl; try done; try (rewrite Hl; done); lia.
Qed.

(** Charging through the buffer. *)
Lemma on_budget_charge_spec amount o o' r :
  0 ≤ amount → buffer_ok o →
  on_budget (charge_fuel amount (ob_filter_index o)) o = (o', r) →
  budget_ok (ob_budget o') ∧ buffer_later o o' ∧
  match r with
  | Ok _ => buffer_ok o' ∧ o' = set_ob_budget (ob_budget o') o ∧
      fuel_consumed (ob_budget o') = fuel_consumed (ob_budget o) + amount ∧
      cumulative_output_bytes (ob_budget o') = cumulative_output_bytes (ob_budget o) ∧
      not_cancelled (db_probes (ob_budget o)) (db_probes (ob_budget o'))
  | Err e => charge_stopped (ob_budget o') (db_probes (ob_budget o))
               (fuel_consumed (ob_budget o) + amount) (ob_filter_index o) e
  end.
Proof.
  intros Hpos Hok Hrun. unfold on_budget, zoom in Hrun.
  destruct (charge_fuel amount (ob_filter_index o) (ob_budget o)) as [b' rb] eqn:Hc.
  apply charge_fuel_spec in Hc as (Hb'&Hlater&Hcum&_&_&Hr);
    [|done|by apply ok_budget].
  pose proof (buffer_later_of_budget o b' Hlater Hcum).
  destruct rb; simplify_eq; simpl; [|done].
  destruct Hr. split_and!; try done. by apply buffer_ok_of_budget.
Qed.

Lemma set_ob_budget_same o : set_ob_budget (ob_budget o) o = o.
Proof. by destruct o. Qed.

Lemma output_stopped_room o e :
  layer_output_bytes o = len (ob_bytes o) →
  room_stopped (ob_budget o) (layer_output_bytes o) (ob_is_final o) (ob_filter_index o) e →
  output_stopped o e.
Proof.
  intros -> [[Hl ->]|[[Ht ->]|(?&Hl&->)]]; [rewrite Hl|rewrite Ht|rewrite Hl];
    [by apply stopped_layer|by apply stopped_total|by apply stopped_final].
Qed.

Lemma push_spec byte o o' r :
  buffer_ok o → push byte o = (o', r) →
  budget_ok (ob_budget o') ∧ buffer_later o o' ∧
  match r with
  | Ok _ => buffer_ok o' ∧ ob_bytes o' = ob_bytes o ++ [byte] ∧
      fuel_consumed (ob_budget o') = fuel_consumed (ob_budget o)
        + output_byte_cost (db_schedule (ob_budget o)) ∧
      not_cancelled (db_probes (ob_budget o)) (db_probes (ob_budget o'))
  | Err e => interrupted o' (db_probes (ob_budget o))
      (fuel_consumed (ob_budget o) + output_byte_cost (db_schedule (ob_budget o)))
      (len (ob_bytes o) + 1) e
  end.
Proof.
  intros Hok Hrun. pose proof Hok as [Hb Hlay Hcap Hlm Hfm Htot Hin Hpeak Hexp Hret].
  unfold push in Hrun. erewrite bind_ok in Hrun by reflexivity.
  destruct (prepare_output (layer_output_bytes o) (ob_is_final o)
    (ob_filter_index o) (ob_budget o)) as [b1 r1] eqn:Hprep.
  pose proof Hprep as Hspec. apply prepare_output_spec in Hspec as (Hb1&Hl1&Hcum1&Hpk1&_&Hr1);
    [|lia|by rewrite Hlay|done].
  pose proof (buffer_later_of_budget o b1 Hl1 Hcum1) as Hlater1.
  destruct r1 as [[al at_]|e]; swap 1 2.
  { erewrite bind_err in Hrun by (unfold on_budget, zoom; rewrite Hprep; reflexivity).
    simplify_eq. split; [done|]. split; [done|].
    destruct Hr1 as [Hc|[-> Hroom]]; [by left|]. right. rewrite set_ob_budget_same.
    split_and!; [lia|done|]. by apply output_stopped_room. }
  erewrite bind_ok in Hrun by (unfold on_budget, zoom; rewrite Hprep; reflexivity).
  cbv beta iota in Hrun. destruct Hr1 as (->&->&Hlm1&Htm1&Hfm1&Hfuel1&Hcan1).
  assert (buffer_ok (set_ob_budget b1 o)) as Hok1 by (by apply buffer_ok_of_budget).
  assert (may_output (set_ob_budget b1 o)) as Hmay.
  { split; simpl; rewrite ?(lt_limits _ _ Hl1), ?Hcum1, <-?Hlay; done. }
  destruct (ensure_capacity (set_ob_budget b1 o)) as [o2 r2] eqn:Hens.
  pose proof Hens as Hspec2. apply ensure_capacity_spec in Hspec2
    as (Hb2&Hlater2&Hbytes2&Hlay2&Hprobes2&Hfuel2&Hcum2&Hr2); [|done..].
  simpl in Hr2, Hbytes2, Hlay2, Hprobes2, Hfuel2, Hcum2.
  destruct r2 as [[]|e]; swap 1 2.
  { erewrite bind_err in Hrun by done. simplify_eq.
    split; [done|]. split; [by etrans|]. right.
    split_and!; [rewrite Hbytes2; lia|congruence|done]. }
  erewrite bind_ok in Hrun by done. minv Hrun. simpl.
  destruct Hb2 as [Hl2 Hf2 Hm2 Hp2 Ht2 Hk2].
  assert (db_limits (ob_budget o2) = db_limits (ob_budget o)) as Hlims.
  { rewrite (lt_limits _ _ (bl_budget _ _ Hlater2)). apply (lt_limits _ _ Hl1). }
  assert (budget_ok (set_cumulative (cumulative_output_bytes (ob_budget o) + 1)
            (ob_budget o2))) as Hok3.
  { split; simpl; try done. rewrite Hlims. lia. }
  split; [done|]. split.
  { etrans; [done|]. etrans; [done|]. destruct Hlater2 as [].
    split; simpl; try done; [split; simpl; try done; lia|lia]. }
  split_and!.
  - destruct Hlater2 as []. split; simpl; rewrite ?Hlims, ?length_app; simpl; try done.
    + rewrite Hbytes2. lia.
    + rewrite Hbytes2. lia.
    + rewrite Hbytes2. lia.
    + rewrite Hbytes2. intros Hfin. rewrite bl_final0 in Hfin. specialize (Hfm1 Hfin). lia.
    + rewrite Hbytes2. lia.
    + by rewrite bl_input0.
    + rewrite bl_input0. pose proof (lt_peak _ _ Hl1). pose proof (lt_peak _ _ bl_budget0).
      simpl in *. lia.
    + by rewrite bl_expected0.
    + right. rewrite bl_input0. simpl. lia.
  - by rewrite Hbytes2.
  - lia.
  - by rewrite Hprobes2.
Qed.
(** Room for [n] more output bytes and [fuel] more fuel. *)
Record room (o : OutputBuffer) (fuel n : Z) : Prop := {
  rm_fuel : fuel_consumed (ob_budget o) + fuel ≤ max_fuel (db_limits (ob_budget o));
  rm_layer : len (ob_bytes o) + n ≤ max_layer_output_bytes (db_limits (ob_budget o));
  rm_total : cumulative_output_bytes (ob_budget o) + n
    ≤ max_total_output_bytes (db_limits (ob_budget o));
  rm_final : ob_is_final o = true →
    len (ob_bytes o) + n ≤ max_final_output_bytes (db_limits (ob_budget o));
  rm_retained : ob_input_capacity o + len (ob_bytes o) + n
    ≤ max_retained_capacity_bytes (db_limits (ob_budget o))
}.

Lemma push_ok byte o fuel n :
  quiet → buffer_ok o → room o fuel n →
  output_byte_cost (db_schedule (ob_budget o)) ≤ fuel → 1 ≤ n →
  ∃ o', push byte o = (o', Ok tt).
Proof.
  intros Hq Hok [Hrf Hrl Hrt Hrfin Hrr] Hcost Hn.
  pose proof Hok as [Hb Hlay Hcap Hlm Hfm Htot Hin Hpeak Hexp Hret].
  pose proof (limits_below_u64 _ (bk_limits _ Hb)) as (_&Hu1&Hu2&_).
  assert (0 ≤ output_byte_cost (db_schedule (ob_budget o))) as Hcpos
    by (by destruct (db_schedule _)).
  destruct (charge_fuel_ok (output_byte_cost (db_schedule (ob_budget o)))
    (ob_filter_index o) (ob_budget o)) as [b1 Hcharge]; [done|done|apply Hq|lia|].
  assert (prepare_output (layer_output_bytes o) (ob_is_final o) (ob_filter_index o)
    (ob_budget o) =
    (b1, Ok (layer_output_bytes o + 1, cumulative_output_bytes (ob_budget o) + 1)))
    as Hprep.
  { unfold prepare_output. erewrite bind_ok by reflexivity. cbv zeta.
    rewrite (proj2 (checked_add_Some u64_max (layer_output_bytes o) 1 _))
      by (split; [lia|reflexivity]).
    erewrite bind_ok by reflexivity. rewrite (proj2 (Z.ltb_ge (max_layer_output_bytes _) _)) by lia.
    erewrite bind_ok by reflexivity.
    rewrite (proj2 (checked_add_Some u64_max (cumulative_output_bytes _) 1 _))
      by (split; [lia|reflexivity]).
    erewrite bind_ok by reflexivity. rewrite (proj2 (Z.ltb_ge (max_total_output_bytes _) _)) by lia.
    erewrite bind_ok by reflexivity.
    assert (ob_is_final o && (max_final_output_bytes (db_limits (ob_budget o)) <?
      layer_output_bytes o + 1) = false) as ->.
    { destruct (ob_is_final o); [|done]. specialize (Hrfin eq_refl).
      simpl. apply Z.ltb_ge. lia. }
    erewrite bind_ok by reflexivity. erewrite bind_ok by exact Hcharge. done. }
  pose proof Hcharge as (Hb1&Hl1&Hcum1&_&_&_)%charge_fuel_spec; [|done|done].
  unfold push. erewrite bind_ok by reflexivity.
  erewrite bind_ok by (unfold on_budget, zoom; rewrite Hprep; reflexivity).
  cbv beta iota.
  destruct (ensure_capacity_ok (set_ob_budget b1 o)) as [o2 Hens].
  - done.
  - by apply buffer_ok_of_budget.
  - split; simpl; rewrite ?(lt_limits _ _ Hl1), ?Hcum1; [lia|lia|].
    intros Hfin. specialize (Hrfin Hfin). lia.
  - simpl. rewrite (lt_limits _ _ Hl1). lia.
  - erewrite bind_ok by exact Hens. eexists. reflexivity.
Qed.
End buffer_specs.

(** ** How much the buffer over-allocates *)

(** A capacity that only grows when it is full, and then at most doubles. *)
Definition tight (o : OutputBuffer) : Prop :=
  ob_capacity o ≤ Z.max INITIAL_OUTPUT_RESERVE (2 * len (ob_bytes o)).

Lemma ensure_capacity_tight `{DecodeRuntime} o o' :
  quiet → tight o → ensure_capacity o = (o', Ok tt) →
  ob_bytes o' = ob_bytes o ∧
  ob_capacity o' ≤ Z.max INITIAL_OUTPUT_RESERVE (2 * (len (ob_bytes o) + 1)).
Proof.
  unfold tight, INITIAL_OUTPUT_RESERVE. intros [_ Halloc] Ht Hrun.
  unfold ensure_capacity in Hrun. erewrite bind_ok in Hrun by reflexivity.
  destruct (_ <? _) eqn:Hroom; cbv iota in Hrun; [minv Hrun; split; [done|lia]|].
  minv Hrun. unfold grow_to in Hrun. cbv zeta in Hrun. minv Hrun. checked_facts.
  match goal with Hr : try_reserve_exact _ _ _ _ = Some _ |- _ =>
    rewrite Halloc in Hr; unfold exact_reserve in Hr end.
  case_match; simplify_eq; simpl. split; [done|].
  unfold desired_capacity, INITIAL_OUTPUT_RESERVE, saturating_mul in *.
  cbv zeta in *. destruct (ob_capacity o =? 0) eqn:Hz; checked_facts; lia.
Qed.

Lemma push_tight `{DecodeRuntime} byte o o' :
  quiet → tight o → push byte o = (o', Ok tt) → tight o'.
Proof.
  intros Hq Ht Hrun. unfold push in Hrun. erewrite bind_ok in Hrun by reflexivity.
  destruct (prepare_output (layer_output_bytes o) (ob_is_final o)
    (ob_filter_index o) (ob_budget o)) as [b1 [[al at_]|e]] eqn:Hprep;
    [erewrite bind_ok in Hrun by (unfold on_budget, zoom; rewrite Hprep; reflexivity)
    |by erewrite bind_err in Hrun by (unfold on_budget, zoom; rewrite Hprep; reflexivity)].
  cbv beta iota in Hrun.
  destruct (ensure_capacity (set_ob_budget b1 o)) as [o1 [[]|e]] eqn:Hens;
    [erewrite bind_ok in Hrun by exact Hens|by erewrite bind_err in Hrun by exact Hens].
  apply ensure_capacity_tight in Hens as [Hb Hcap]; [|done|done]. minv Hrun.
  unfold tight. simpl. rewrite Hb, length_app. simpl in *. lia.
Qed.
