(* ===== verification/OutputProgram.v ===== *)
(** * Decoders as programs over the output buffer

    Every layer decoder of [pdf-rs/filters/src/{decode,predictor,flate}.rs]
    only touches its output through [OutputBuffer]: it consumes input bytes,
    pushes output bytes, charges algorithm steps, reads the bytes produced so
    far, and replaces single bits of them. A decoder is written in the monad
    [prog] of these calls; [exec] runs it against the buffer and its budget,
    [denote] is its meaning without any limit. The theorems at the end hold
    for every such program, so each decoder gets them once and for all. *)

From stdpp Require Import base list numbers option.
From S2P Require Import Prelude.
From S2P Require Import SourceTypes.
From S2P Require Import FilterTypes.
From S2P Require Import DecodeBudget.
From S2P Require Import DecodeBudgetSpec.

(** ** Programs *)

Inductive prog (A : Type) : Type :=
| Ret (a : A)
(** [return Err(DecodeError::for_code(code, Some(filter_index)))]. *)
| Stop (code : DecodeErrorCode)
(** The bound given to a [while] or [loop] was too small, or a slice index is
    out of range (a panic); [safely] excludes both. *)
| Stuck
| ConsumeInput (k : prog A)
| Push (byte : Z) (k : prog A)
| ChargeAlgorithm (amount : N) (k : prog A)
(** [len], [byte_at_distance], [bit_at]: reads of the output so far. *)
| ReadOutput (k : list Z → prog A)
| ReplaceBit (bit value : Z) (k : bool → prog A).
Arguments Ret {A} a.
Arguments Stop {A} code.
Arguments Stuck {A}.
Arguments ConsumeInput {A} k.
Arguments Push {A} byte k.
Arguments ChargeAlgorithm {A} amount k.
Arguments ReadOutput {A} k.
Arguments ReplaceBit {A} bit value k.

#[global] Instance prog_ret : MRet prog := λ A a, Ret a.
#[global] Instance prog_bind : MBind prog := λ A B f,
  fix go p := match p with
  | Ret a => f a
  | Stop code => Stop code
  | Stuck => Stuck
  | ConsumeInput k => ConsumeInput (go k)
  | Push byte k => Push byte (go k)
  | ChargeAlgorithm amount k => ChargeAlgorithm amount (go k)
  | ReadOutput k => ReadOutput (λ out, go (k out))
  | ReplaceBit bit value k => ReplaceBit bit value (λ ok, go (k ok))
  end.

(** The calls, and the two ways a decoder gives up. *)
Definition consume : prog unit := ConsumeInput (Ret tt).
Definition emit_byte (byte : Z) : prog unit := Push byte (Ret tt).
Definition step_algorithm (amount : N) : prog unit :=
  ChargeAlgorithm amount (Ret tt).
Definition read_output {A} (f : list Z → A) : prog A :=
  ReadOutput (λ out, Ret (f out)).
Definition replace_output_bit (bit value : Z) : prog bool :=
  ReplaceBit bit value Ret.
Definition stop_if (cond : bool) (code : DecodeErrorCode) : prog unit :=
  if cond then Stop code else Ret tt.
(** [slice[index]]. *)
Definition index_slice (slice : list Z) (index : Z) : prog Z :=
  match slice !! Z.to_nat index with Some byte => Ret byte | None => Stuck end.
Definition need {A} (o : option A) (code : DecodeErrorCode) : prog A :=
  match o with Some a => Ret a | None => Stop code end.

(** ** Execution *)

Section execution.
Context `{DecodeRuntime}.

Fixpoint exec {A} (p : prog A) : M OutputBuffer DecodeError A :=
  match p with
  | Ret a => mret a
  | Stop code => fi ← gets ob_filter_index; throw (for_code code fi)
  | Stuck => fi ← gets ob_filter_index; throw (for_code InternalState fi)
  | ConsumeInput k => consume_input;; exec k
  | Push byte k => push byte;; exec k
  | ChargeAlgorithm amount k => charge_algorithm (Z.of_N amount);; exec k
  | ReadOutput k => out ← gets ob_bytes; exec (k out)
  | ReplaceBit bit value k =>
      out ← gets ob_bytes;
      match replace_bit out bit value with
      | Some out => modify (set_ob_bytes out);; exec (k true)
      | None => exec (k false)
      end
  end.
End execution.

(** ** Meaning without limits: fuel used, bytes produced, result *)

Record meaning (A : Type) := {
  mn_fuel : Z;
  mn_output : list Z;
  mn_result : result DecodeErrorCode A
}.
Arguments mn_fuel {A} _.
Arguments mn_output {A} _.
Arguments mn_result {A} _.
Arguments Build_meaning {A} _ _ _.

Definition add_fuel {A} (n : Z) (m : meaning A) : meaning A :=
  {| mn_fuel := n + mn_fuel m; mn_output := mn_output m;
     mn_result := mn_result m |}.

Fixpoint denote {A} (v : DecodeFuelScheduleVersion) (p : prog A)
    (out : list Z) : meaning A :=
  match p with
  | Ret a => Build_meaning 0 out (Ok a)
  | Stop code => Build_meaning 0 out (Err code)
  | Stuck => Build_meaning 0 out (Err InternalState)
  | ConsumeInput k => add_fuel (input_byte_cost v) (denote v k out)
  | Push byte k => add_fuel (output_byte_cost v) (denote v k (out ++ [byte]))
  | ChargeAlgorithm amount k =>
      add_fuel (algorithm_step_cost v * Z.of_N amount) (denote v k out)
  | ReadOutput k => denote v (k out) out
  | ReplaceBit bit value k =>
      match replace_bit out bit value with
      | Some out => denote v (k true) out
      | None => denote v (k false) out
      end
  end.

Section program_facts.
Context {A B : Type}.
Implicit Types (p : prog A) (f : A → prog B) (v : DecodeFuelScheduleVersion).

Lemma denote_bind v p f out :
  denote v (p ≫= f) out =
  match mn_result (denote v p out) with
  | Ok a => add_fuel (mn_fuel (denote v p out))
              (denote v (f a) (mn_output (denote v p out)))
  | Err e => Build_meaning (mn_fuel (denote v p out))
               (mn_output (denote v p out)) (Err e)
  end.
Proof.
  revert out. induction p as [a|c| |k IH|b k IH|n k IH|k IH|bit val k IH]; intros out;
    simpl; try done.
  - by destruct (denote v (f a) out).
  - change (prog_bind A B f k) with (k ≫= f). rewrite IH.
    destruct (mn_result (denote v k out)); [|done].
    unfold add_fuel; simpl. f_equal; lia.
  - change (prog_bind A B f k) with (k ≫= f). rewrite IH.
    destruct (mn_result (denote v k (out ++ [b]))); [|done].
    unfold add_fuel; simpl. f_equal; lia.
  - change (prog_bind A B f k) with (k ≫= f). rewrite IH.
    destruct (mn_result (denote v k out)); [|done].
    unfold add_fuel; simpl. f_equal; lia.
  - destruct (replace_bit out bit val) as [out'|].
    + change (prog_bind A B f (k true)) with (k true ≫= f). apply IH.
    + change (prog_bind A B f (k false)) with (k false ≫= f). apply IH.
Qed.

Lemma denote_fuel_nonneg v p out : 0 ≤ mn_fuel (denote v p out).
Proof.
  revert out. induction p as [a|c| |k IH|b k IH|n k IH|k IH|bit val k IH];
    intros out; simpl; try lia; try apply IH.
  - specialize (IH out). destruct v; simpl; lia.
  - specialize (IH (out ++ [b])). destruct v; simpl; lia.
  - specialize (IH out). destruct v; simpl; lia.
  - destruct (replace_bit out bit val); apply IH.
Qed.

Lemma replace_bit_length out bit value out' :
  replace_bit out bit value = Some out' → len out' = len out.
Proof.
  unfold replace_bit. intros (b&_&(s&_&[= <-])%bind_Some)%bind_Some.
  by rewrite length_insert.
Qed.

Lemma denote_output_grows v p out : len out ≤ len (mn_output (denote v p out)).
Proof.
  revert out. induction p as [a|c| |k IH|b k IH|n k IH|k IH|bit val k IH];
    intros out; simpl; try lia; try apply IH.
  - specialize (IH (out ++ [b])). rewrite length_app in IH. simpl in IH. lia.
  - destruct (replace_bit out bit val) as [out'|] eqn:Hr; [|apply IH].
    rewrite <-(replace_bit_length _ _ _ _ Hr). apply IH.
Qed.
End program_facts.

(** ** Outcome: the output and result, or the code, without the fuel *)

Fixpoint outcome {A} (p : prog A) (out : list Z)
    : result DecodeErrorCode (A * list Z) :=
  match p with
  | Ret a => Ok (a, out)
  | Stop code => Err code
  | Stuck => Err InternalState
  | ConsumeInput k | ChargeAlgorithm _ k => outcome k out
  | Push byte k => outcome k (out ++ [byte])
  | ReadOutput k => outcome (k out) out
  | ReplaceBit bit value k =>
      match replace_bit out bit value with
      | Some out => outcome (k true) out
      | None => outcome (k false) out
      end
  end.

Section outcomes.
Context {A B : Type}.
Implicit Types (p : prog A) (f : A → prog B) (v : DecodeFuelScheduleVersion).

Lemma outcome_denote v p out :
  outcome p out = a ← mn_result (denote v p out); Ok (a, mn_output (denote v p out)).
Proof.
  revert out. induction p as [a|c| |k IH|b k IH|n k IH|k IH|bit val k IH]; intros out;
    simpl; try done; try apply IH.
  destruct (replace_bit out bit val); apply IH.
Qed.

Lemma outcome_ok v p out a out' :
  outcome p out = Ok (a, out') ↔
  mn_result (denote v p out) = Ok a ∧ mn_output (denote v p out) = out'.
Proof. rewrite (outcome_denote v). destruct (mn_result _); naive_solver. Qed.

Lemma outcome_err v p out code :
  outcome p out = Err code ↔ mn_result (denote v p out) = Err code.
Proof. rewrite (outcome_denote v). destruct (mn_result _); naive_solver. Qed.

Lemma outcome_bind p f out :
  outcome (p ≫= f) out = '(a, out') ← outcome p out; outcome (f a) out'.
Proof.
  revert out. induction p as [a|c| |k IH|b k IH|n k IH|k IH|bit val k IH]; intros out;
    simpl; try done; try apply IH.
  destruct (replace_bit out bit val); apply IH.
Qed.

End outcomes.

(** [safely p out Q]: run on the output [out], the program ends, no index
    panics, and either it stops with a code that is not an internal error or
    its result and output satisfy [Q]. *)
Definition safely {A} (p : prog A) (out : list Z) (Q : A → list Z → Prop) : Prop :=
  match outcome p out with
  | Ok (a, out') => Q a out'
  | Err code => code ≠ InternalState
  end.

Section safety.
Context {A B : Type}.
Implicit Types (p : prog A) (f : A → prog B).

Lemma safely_bind p f out (R : A → list Z → Prop) (Q : B → list Z → Prop) :
  safely p out R → (∀ a out', R a out' → safely (f a) out' Q) →
  safely (p ≫= f) out Q.
Proof.
  unfold safely. rewrite outcome_bind. intros Hp Hf.
  destruct (outcome p out) as [[a out']|code]; [by apply Hf|done].
Qed.

Lemma safely_weaken p out (Q R : A → list Z → Prop) :
  safely p out R → (∀ a out', R a out' → Q a out') → safely p out Q.
Proof.
  unfold safely. destruct (outcome p out) as [[a out']|code]; auto.
Qed.

Lemma safely_ok p out (Q : A → list Z → Prop) a out' :
  safely p out Q → outcome p out = Ok (a, out') → Q a out'.
Proof. unfold safely. intros HQ Hout. by rewrite Hout in HQ. Qed.

Lemma safely_need_bind (o : option A) code f out Q :
  code ≠ InternalState → (∀ a, o = Some a → safely (f a) out Q) →
  safely (need o code ≫= f) out Q.
Proof. destruct o as [a|]; intros Hc Hf; [exact (Hf a eq_refl)|exact Hc]. Qed.

Lemma safely_ret a out (Q : A → list Z → Prop) : Q a out → safely (mret a) out Q.
Proof. done. Qed.

Lemma safely_stop code out (Q : A → list Z → Prop) :
  code ≠ InternalState → safely (Stop code) out Q.
Proof. done. Qed.
End safety.

Section safe_calls.
Context {B : Type}.
Implicit Types (Q : B → list Z → Prop) (out : list Z).

Lemma safely_stop_if_bind (c : bool) code (f : unit → prog B) out Q :
  code ≠ InternalState → (c = false → safely (f tt) out Q) →
  safely (stop_if c code ≫= f) out Q.
Proof. destruct c; intros Hc Hf; [exact Hc|exact (Hf eq_refl)]. Qed.

Lemma safely_stop_if (c : bool) code out (Q : unit → list Z → Prop) :
  code ≠ InternalState → (c = false → Q tt out) → safely (stop_if c code) out Q.
Proof. destruct c; intros Hc Hf; [exact Hc|exact (Hf eq_refl)]. Qed.

Lemma safely_consume_bind (f : unit → prog B) out Q :
  safely (f tt) out Q → safely (consume ≫= f) out Q.
Proof. done. Qed.

Lemma safely_step_bind n (f : unit → prog B) out Q :
  safely (f tt) out Q → safely (step_algorithm n ≫= f) out Q.
Proof. done. Qed.

Lemma safely_emit_bind byte (f : unit → prog B) out Q :
  safely (f tt) (out ++ [byte]) Q → safely (emit_byte byte ≫= f) out Q.
Proof. done. Qed.

Lemma safely_read_bind {A} (g : list Z → A) (f : A → prog B) out Q :
  safely (f (g out)) out Q → safely (read_output g ≫= f) out Q.
Proof. done. Qed.

Lemma safely_replace_bind bit value (f : bool → prog B) out Q :
  match replace_bit out bit value with
  | Some out' => safely (f true) out' Q
  | None => safely (f false) out Q
  end → safely (replace_output_bit bit value ≫= f) out Q.
Proof. unfold safely. simpl. by destruct (replace_bit out bit value). Qed.

Lemma safely_index_slice_bind slice index (f : Z → prog B) out Q :
  (Z.to_nat index < length slice)%nat →
  (∀ byte, slice !! Z.to_nat index = Some byte → safely (f byte) out Q) →
  safely (index_slice slice index ≫= f) out Q.
Proof.
  intros [byte Hb]%lookup_lt_is_Some_2 Hf. unfold index_slice. rewrite Hb. by apply Hf.
Qed.
End safe_calls.

(** One call of a program, its condition or its value as a hypothesis. *)
Ltac safely_step :=
  lazymatch goal with
  | |- safely (mbind _ (need _ _)) _ _ =>
      apply safely_need_bind; [done|intros ? ?]
  | |- safely (mbind _ (stop_if _ _)) _ _ =>
      apply safely_stop_if_bind; [done|intros ?]
  | |- safely (mbind _ consume) _ _ => apply safely_consume_bind
  | |- safely (mbind _ (step_algorithm _)) _ _ => apply safely_step_bind
  | |- safely (mbind _ (emit_byte _)) _ _ => apply safely_emit_bind
  | |- safely (mbind _ (read_output _)) _ _ => apply safely_read_bind
  | |- safely (mbind _ (index_slice _ _)) _ _ =>
      apply safely_index_slice_bind; [|intros ? ?]
  | |- safely (mbind _ (mbind _ _)) _ _ => fail "nested bind"
  | |- safely (stop_if _ _) _ _ => apply safely_stop_if; [done|intros ?]
  | |- safely (Stop _) _ _ => by apply safely_stop
  | |- safely (mret _) _ _ => apply safely_ret
  end.
Ltac safely_steps := repeat safely_step.

(** ** Execution against meaning *)

Section refinement.
Context `{DecodeRuntime}.
Implicit Types o : OutputBuffer.

Definition schedule_of o : DecodeFuelScheduleVersion := db_schedule (ob_budget o).

Lemma consume_input_charge o :
  consume_input o =
  on_budget (charge_fuel (input_byte_cost (schedule_of o)) (ob_filter_index o)) o.
Proof. reflexivity. Qed.

Lemma charge_algorithm_charge amount o :
  charge_algorithm amount o =
  on_budget (charge_fuel
    (saturating_mul u64_max (algorithm_step_cost (schedule_of o)) amount)
    (ob_filter_index o)) o.
Proof. reflexivity. Qed.

Lemma buffer_ok_replace o out :
  buffer_ok o → len out = len (ob_bytes o) → buffer_ok (set_ob_bytes out o).
Proof.
  intros [Hb Hlay Hcap Hlm Hfm Htot Hin Hpeak Hexp Hret] Hlen.
  split; simpl; rewrite ?Hlen; done.
Qed.

(** What a run of [p] from [o] may end in. *)
Definition run_spec {A} (p : prog A) o o' (r : result DecodeError A) : Prop :=
  budget_ok (ob_budget o') ∧ buffer_later o o' ∧
  match r with
  | Ok a => buffer_ok o' ∧
      denote (schedule_of o) p (ob_bytes o) =
        {| mn_fuel := fuel_consumed (ob_budget o') - fuel_consumed (ob_budget o);
           mn_output := ob_bytes o'; mn_result := Ok a |} ∧
      not_cancelled (db_probes (ob_budget o)) (db_probes (ob_budget o'))
  | Err e =>
      let m := denote (schedule_of o) p (ob_bytes o) in
      interrupted o' (db_probes (ob_budget o)) (fuel_consumed (ob_budget o) + mn_fuel m)
        (len (mn_output m)) e ∨
      ∃ code, mn_result m = Err code ∧ e = for_code code (ob_filter_index o)
  end.

(** One successful call followed by the rest of the program. *)
Lemma run_spec_step {A} (p k : prog A) o o1 o' r cost :
  buffer_later o o1 →
  not_cancelled (db_probes (ob_budget o)) (db_probes (ob_budget o1)) →
  fuel_consumed (ob_budget o1) = fuel_consumed (ob_budget o) + cost →
  denote (schedule_of o) p (ob_bytes o) =
    add_fuel cost (denote (schedule_of o) k (ob_bytes o1)) →
  run_spec k o1 o' r → run_spec p o o' r.
Proof.
  intros Hl Hcan Hfuel Hden (Hb&Hl'&Hr).
  pose proof (lt_schedule _ _ (bl_budget _ _ Hl)) as Hs.
  unfold run_spec. rewrite Hden. split; [done|]. split; [by etrans|].
  destruct r as [a|e].
  - destruct Hr as (Hok&Hd&Hc). split; [done|]. split.
    + unfold schedule_of in *. rewrite Hs in Hd. rewrite Hd. unfold add_fuel. simpl.
      f_equal. lia.
    + intros i Hi. destruct (decide (i < db_probes (ob_budget o1))%nat).
      * apply Hcan. lia.
      * apply Hc. lia.
  - cbv zeta in *. unfold schedule_of in *. rewrite Hs, (bl_index _ _ Hl) in Hr.
    destruct Hr as [Hi|(code&Hc&->)]; [left|right].
    + simpl. rewrite Z.add_assoc, <-Hfuel.
      eapply interrupted_later; [..|done]; [apply (lt_probes _ _ (bl_budget _ _ Hl))|lia|lia].
    + by exists code.
Qed.

Lemma run_spec_interrupted {A} (p : prog A) o o' fuel_end n_end e :
  budget_ok (ob_budget o') → buffer_later o o' →
  interrupted o' (db_probes (ob_budget o)) fuel_end n_end e →
  fuel_end ≤ fuel_consumed (ob_budget o)
    + mn_fuel (denote (schedule_of o) p (ob_bytes o)) →
  n_end ≤ len (mn_output (denote (schedule_of o) p (ob_bytes o))) →
  run_spec p o o' (Err e).
Proof.
  intros ?? Hi ??. split; [done|]. split; [done|]. left. by eapply interrupted_later.
Qed.

(** Charging calls, in the middle of a run. *)
Lemma run_spec_charge {A} (p k : prog A) o o' r charged cost :
  buffer_ok o → 0 ≤ charged ≤ cost →
  (charged ≤ max_fuel (db_limits (ob_budget o)) → charged = cost) →
  denote (schedule_of o) p (ob_bytes o) =
    add_fuel cost (denote (schedule_of o) k (ob_bytes o)) →
  (∀ o1, buffer_ok o1 → exec k o1 = (o', r) → run_spec k o1 o' r) →
  (on_budget (charge_fuel charged (ob_filter_index o)) ≫= λ _, exec k) o = (o', r) →
  run_spec p o o' r.
Proof.
  intros Hok Hpos Hexact Hden IH Hrun.
  destruct (on_budget (charge_fuel charged (ob_filter_index o)) o) as [o1 [[]|e]]
    eqn:Hc; pose proof Hc as Hspec;
    apply on_budget_charge_spec in Hspec as (Hb1&Hl1&Hr1); try done; try lia.
  - erewrite bind_ok in Hrun by done.
    destruct Hr1 as (Hok1&Ho1&Hfuel&Hcum&Hcan).
    assert (charged = cost) as <-.
    { apply Hexact. pose proof (bk_max_fuel _ Hb1) as Hm.
      rewrite (lt_limits _ _ (bl_budget _ _ Hl1)) in Hm.
      pose proof (bk_fuel _ (ok_budget _ Hok)). lia. }
    eapply run_spec_step; [done|done|done| |by apply IH].
    rewrite Ho1. simpl. exact Hden.
  - erewrite bind_err in Hrun by done. simplify_eq.
    eapply (run_spec_interrupted _ _ _ _ 0); [done|done|by left; rewrite (bl_index _ _ Hl1)|..];
      rewrite Hden; simpl.
    + pose proof (denote_fuel_nonneg (schedule_of o) k (ob_bytes o)). lia.
    + lia.
Qed.

(** Soundness: whatever the program, a run that succeeds has the meaning of the
    program, keeps the invariants and was never answered "cancelled"; a run
    that fails was interrupted by a limit, a probe or the allocator, or fails
    as the program means to. *)
Lemma exec_sound {A} (p : prog A) o o' r :
  buffer_ok o → exec p o = (o', r) → run_spec p o o' r.
Proof.
  revert o. induction p as [a|c| |k IH|b k IH|n k IH|k IH|bit val k IH];
    intros o Hok Hrun; simpl in Hrun.
  - minv Hrun. split; [by apply ok_budget|]. split; [done|]. split; [done|].
    simpl. split; [f_equal; lia|]. intros i Hi. lia.
  - minv Hrun. split; [by apply ok_budget|]. split; [done|]. right. by exists c.
  - minv Hrun. split; [by apply ok_budget|]. split; [done|]. right.
    by exists InternalState.
  - eapply run_spec_charge; [done| |done|reflexivity|by intros; apply IH|exact Hrun].
    by destruct (schedule_of o).
  - destruct (push b o) as [o1 [[]|e]] eqn:Hp; pose proof Hp as Hspec;
      apply push_spec in Hspec as (Hb1&Hl1&Hr1); try done.
    + erewrite bind_ok in Hrun by done. destruct Hr1 as (Hok1&Hbytes&Hfuel&Hcan).
      eapply run_spec_step; [done|done|exact Hfuel| |by apply IH].
      simpl. by rewrite Hbytes.
    + erewrite bind_err in Hrun by done. simplify_eq.
      pose proof (denote_fuel_nonneg (schedule_of o) k (ob_bytes o ++ [b])).
      pose proof (denote_output_grows (schedule_of o) k (ob_bytes o ++ [b])) as Hg.
      rewrite length_app in Hg. simpl in Hg.
      eapply run_spec_interrupted; [done..|simpl; unfold schedule_of in *; lia|simpl; lia].
  - assert (0 ≤ algorithm_step_cost (schedule_of o) * Z.of_N n) as Hn
      by (apply Z.mul_nonneg_nonneg; [by destruct (schedule_of o)|lia]).
    pose proof (limits_below_u64 _ (bk_limits _ (ok_budget _ Hok))) as (Hu&_).
    pose proof (dl_fuel _ (bk_limits _ (ok_budget _ Hok))) as [Hf _].
    eapply (run_spec_charge _ _ _ _ _
      (saturating_mul u64_max (algorithm_step_cost (schedule_of o)) (Z.of_N n))
      (algorithm_step_cost (schedule_of o) * Z.of_N n));
      [done| | |reflexivity|by intros; apply IH|exact Hrun].
    + unfold saturating_mul. lia.
    + unfold saturating_mul. lia.
  - erewrite bind_ok in Hrun by reflexivity. simpl. exact (IH _ o Hok Hrun).
  - erewrite bind_ok in Hrun by reflexivity.
    assert (run_spec (k (bool_decide (is_Some (replace_bit (ob_bytes o) bit val))))
      (default o (flip set_ob_bytes o <$> replace_bit (ob_bytes o) bit val)) o' r)
      as Hspec.
    { destruct (replace_bit (ob_bytes o) bit val) as [out|] eqn:Hrep; simpl.
      - minv Hrun. apply IH; [|done]. apply buffer_ok_replace; [done|].
        by eapply replace_bit_length.
      - by apply IH. }
    destruct (replace_bit (ob_bytes o) bit val) as [out|] eqn:Hrep; simpl in Hspec.
    + eapply (run_spec_step _ (k true) o _ _ _ 0); [..|exact Hspec]; simpl.
      * by split.
      * intros i Hi. lia.
      * lia.
      * rewrite Hrep. by destruct (denote _ (k true) out).
    + eapply (run_spec_step _ (k false) o _ _ _ 0); [..|exact Hspec]; simpl.
      * done.
      * intros i Hi. lia.
      * lia.
      * rewrite Hrep. by destruct (denote _ (k false) (ob_bytes o)).
Qed.
Lemma room_weaken o o1 fuel fuel1 n n1 cost emitted :
  buffer_later o o1 → buffer_ok o → buffer_ok o1 →
  room o fuel n → fuel_consumed (ob_budget o1) = fuel_consumed (ob_budget o) + cost →
  len (ob_bytes o1) = len (ob_bytes o) + emitted →
  fuel = cost + fuel1 → n = emitted + n1 → room o1 fuel1 n1.
Proof.
  intros Hl Hok Hok1 [Hrf Hrl Hrt Hrfin Hrr] Hfuel Hlen -> ->.
  pose proof (bl_total _ _ Hl) as Htot.
  rewrite (ok_layer _ Hok), (ok_layer _ Hok1) in Htot.
  split; rewrite ?(lt_limits _ _ (bl_budget _ _ Hl)), ?(bl_input _ _ Hl), ?Hlen;
    try lia.
  rewrite (bl_final _ _ Hl). intros Hfin. specialize (Hrfin Hfin). lia.
Qed.

(** A charge within the fuel that is left succeeds. *)
Lemma on_budget_charge_ok amount o :
  quiet → buffer_ok o → 0 ≤ amount →
  fuel_consumed (ob_budget o) + amount ≤ max_fuel (db_limits (ob_budget o)) →
  ∃ o1, on_budget (charge_fuel amount (ob_filter_index o)) o = (o1, Ok tt).
Proof.
  intros [Hq _] Hok Hpos Hfit.
  destruct (charge_fuel_ok amount (ob_filter_index o) (ob_budget o)) as [b1 Hc];
    [by apply ok_budget|done|done|done|].
  exists (set_ob_budget b1 o). unfold on_budget, zoom. by rewrite Hc.
Qed.

Definition meant {A} (fi : option Z) (r : result DecodeErrorCode A)
    : result DecodeError A :=
  match r with Ok a => Ok a | Err code => Err (for_code code fi) end.

Lemma exec_after_charge {A} (k : prog A) o charged n :
  quiet → buffer_ok o → 0 ≤ charged →
  room o (charged + mn_fuel (denote (schedule_of o) k (ob_bytes o))) n →
  (∀ o1, buffer_ok o1 → schedule_of o1 = schedule_of o → ob_bytes o1 = ob_bytes o →
     ob_filter_index o1 = ob_filter_index o →
     room o1 (mn_fuel (denote (schedule_of o) k (ob_bytes o))) n →
     ∃ o', exec k o1 =
       (o', meant (ob_filter_index o) (mn_result (denote (schedule_of o) k (ob_bytes o))))) →
  ∃ o', (on_budget (charge_fuel charged (ob_filter_index o)) ≫= λ _, exec k) o =
    (o', meant (ob_filter_index o) (mn_result (denote (schedule_of o) k (ob_bytes o)))).
Proof.
  intros Hq Hok Hpos Hroom IH.
  pose proof (denote_fuel_nonneg (schedule_of o) k (ob_bytes o)) as Hnn.
  destruct (on_budget_charge_ok charged o Hq Hok Hpos) as [o1 Hc].
  { pose proof (rm_fuel _ _ _ Hroom). lia. }
  erewrite bind_ok by exact Hc.
  apply on_budget_charge_spec in Hc as (Hb1&Hl1&Hok1&Ho1&Hfuel&_&_); [|done..].
  apply IH; [done|..].
  - apply (lt_schedule _ _ (bl_budget _ _ Hl1)).
  - by rewrite Ho1.
  - apply (bl_index _ _ Hl1).
  - eapply (room_weaken o o1); [done..|exact Hfuel| |reflexivity|].
    + rewrite Ho1. simpl. symmetry. apply Z.add_0_r.
    + lia.
Qed.

(** Completeness: with enough fuel, output and retained capacity, never
    cancelled and with an exact allocator, a run ends as the program means. *)
Lemma exec_complete {A} (p : prog A) o :
  quiet → buffer_ok o →
  room o (mn_fuel (denote (schedule_of o) p (ob_bytes o)))
    (len (mn_output (denote (schedule_of o) p (ob_bytes o))) - len (ob_bytes o)) →
  ∃ o', exec p o =
    (o', meant (ob_filter_index o) (mn_result (denote (schedule_of o) p (ob_bytes o)))).
Proof.
  intros Hq. revert o.
  induction p as [a|c| |k IH|b k IH|n k IH|k IH|bit val k IH];
    intros o Hok Hroom; simpl in *; try by eexists.
  - apply (exec_after_charge k o (input_byte_cost (schedule_of o))
      (len (mn_output (denote (schedule_of o) k (ob_bytes o))) - len (ob_bytes o)));
      [done|done|by destruct (schedule_of o)|done|].
    intros o1 Hok1 Hs Hb Hfi Hr1. specialize (IH o1 Hok1).
    rewrite Hs, Hb, Hfi in IH. by apply IH.
  - pose proof (denote_fuel_nonneg (schedule_of o) k (ob_bytes o ++ [b])) as Hnn.
    pose proof (denote_output_grows (schedule_of o) k (ob_bytes o ++ [b])) as Hgrow.
    rewrite length_app in Hgrow. simpl in Hgrow.
    destruct (push_ok b o _ _ Hq Hok Hroom) as [o1 Hp];
      [unfold schedule_of in *; lia|lia|].
    pose proof Hp as Hspec. apply push_spec in Hspec
      as (Hb1&Hl1&Hok1&Hbytes&Hfuel&_); [|done].
    pose proof (lt_schedule _ _ (bl_budget _ _ Hl1)) as Hs.
    erewrite bind_ok by exact Hp. specialize (IH o1 Hok1).
    unfold schedule_of in *. rewrite Hs, Hbytes, (bl_index _ _ Hl1) in IH.
    apply IH. eapply (room_weaken o o1 _ _ _ _ _ 1);
      [done..|exact Hfuel| |reflexivity|]; rewrite ?Hbytes, length_app; simpl; lia.
  - assert (0 ≤ algorithm_step_cost (schedule_of o) * Z.of_N n) as Hn
      by (apply Z.mul_nonneg_nonneg; [by destruct (schedule_of o)|lia]).
    pose proof (limits_below_u64 _ (bk_limits _ (ok_budget _ Hok))) as (Hu&_).
    pose proof (denote_fuel_nonneg (schedule_of o) k (ob_bytes o)) as Hnn.
    pose proof (rm_fuel _ _ _ Hroom) as Hrf. simpl in Hrf.
    pose proof (bk_fuel _ (ok_budget _ Hok)) as Hbf.
    assert (saturating_mul u64_max (algorithm_step_cost (schedule_of o)) (Z.of_N n)
            = algorithm_step_cost (schedule_of o) * Z.of_N n) as Hsat
      by (apply saturating_mul_exact; lia).
    rewrite <-Hsat in Hroom.
    apply (exec_after_charge k o _ _ Hq Hok) in Hroom as [o' Ho']; [|..].
    + exists o'. exact Ho'.
    + unfold saturating_mul. lia.
    + intros o1 Hok1 Hs Hb Hfi Hr1. specialize (IH o1 Hok1).
      rewrite Hs, Hb, Hfi in IH. by apply IH.
  - erewrite bind_ok by reflexivity. by apply IH.
  - erewrite bind_ok by reflexivity.
    destruct (replace_bit (ob_bytes o) bit val) as [out|] eqn:Hrep; [|by apply IH].
    pose proof (replace_bit_length _ _ _ _ Hrep) as Hlen.
    pose proof (buffer_ok_replace o out Hok Hlen) as Hok1.
    erewrite bind_ok by reflexivity.
    apply (IH true (set_ob_bytes out o) Hok1). simpl. rewrite Hlen.
    destruct Hroom as [Hrf Hrl Hrt Hrfin Hrr]. split; simpl; rewrite ?Hlen; done.
Qed.

(** A run never over-allocates, whatever the program. *)
Lemma exec_tight {A} (p : prog A) o o' a :
  quiet → tight o → exec p o = (o', Ok a) → tight o'.
Proof.
  intros Hq. revert o. induction p as [a'|c| |k IH|b k IH|n k IH|k IH|bit val k IH];
    intros o Ht Hrun; simpl in Hrun.
  - minv Hrun. done.
  - minv Hrun.
  - minv Hrun.
  - apply bind_inv in Hrun as [([]&o1&Hc&Hrun)|(e&_&?)]; [|done].
    eapply IH; [|done]. unfold consume_input in Hc. erewrite bind_ok in Hc by reflexivity.
    unfold on_budget, zoom in Hc.
    destruct (budget_consume_input _ _) as [b1 [[]|e]]; by simplify_eq.
  - apply bind_inv in Hrun as [([]&o1&Hc&Hrun)|(e&_&?)]; [|done].
    eapply IH; [|done]. by eapply push_tight.
  - apply bind_inv in Hrun as [([]&o1&Hc&Hrun)|(e&_&?)]; [|done].
    eapply IH; [|done]. unfold charge_algorithm in Hc. erewrite bind_ok in Hc by reflexivity.
    unfold on_budget, zoom in Hc.
    destruct (budget_charge_algorithm _ _ _) as [b1 [[]|e]]; by simplify_eq.
  - erewrite bind_ok in Hrun by reflexivity. by eapply IH.
  - erewrite bind_ok in Hrun by reflexivity.
    destruct (replace_bit (ob_bytes o) bit val) as [out|] eqn:Hr; [|by eapply IH].
    erewrite bind_ok in Hrun by reflexivity. eapply IH; [|done].
    unfold tight in *. simpl. by rewrite (replace_bit_length _ _ _ _ Hr).
Qed.
End refinement.
