(* ===== verification/AsciiFilters.v ===== *)
(** * Identity, ASCIIHex, ASCII85 and RunLength layers
    ([pdf-rs/filters/src/decode.rs])

    One program per decoder, with the loops of the source as recursions over
    the input, and the layer that runs it against a fresh output buffer. *)

From stdpp Require Import base list numbers option.
From S2P Require Import Prelude.
From S2P Require Import SourceTypes.
From S2P Require Import FilterTypes.
From S2P Require Import DecodeBudget.
From S2P Require Import OutputProgram.

(** [OutputBuffer::new(..)], the body of a decoder, [Ok(output.finish())]: what every
    decoder does around its body. The filter index is an integer here; the source
    converts it with [u16::try_from(index).expect(..)], and a validated plan has at most
    [HARD_MAX_FILTERS] stages. *)
Definition run_layer `{DecodeRuntime} (input_capacity : Z) (is_final : bool)
    (filter_index : option Z) (hint : Z) (body : prog unit)
    : M DecodeBudget DecodeError ByteVec :=
  λ budget,
    let '(o, r) := exec body
      (OutputBuffer_new input_capacity is_final filter_index hint budget) in
    (ob_budget o, match r with
                  | Ok _ => Ok (OutputBuffer_finish o)
                  | Err e => Err e
                  end).

(** ** Bytes *)

Definition is_pdf_whitespace (byte : Z) : bool :=
  (byte =? 0) || (byte =? 9) || (byte =? 10) || (byte =? 12) || (byte =? 13)
  || (byte =? 32).

Definition hex_nibble (byte : Z) : option Z :=
  if (48 <=? byte) && (byte <=? 57) then Some (byte - 48)
  else if (97 <=? byte) && (byte <=? 102) then Some (byte - 97 + 10)
  else if (65 <=? byte) && (byte <=? 70) then Some (byte - 65 + 10)
  else None.

(** [u32::to_be_bytes]. *)
Definition to_be_bytes (value : Z) : list Z :=
  [Z.land (Z.shiftr value 24) 255; Z.land (Z.shiftr value 16) 255;
   Z.land (Z.shiftr value 8) 255; Z.land value 255].

(** ** Identity *)

Fixpoint identity_program (input : list Z) : prog unit :=
  match input with
  | [] => mret tt
  | byte :: input => consume;; emit_byte byte;; identity_program input
  end.

Definition decode_identity `{DecodeRuntime} (input : list Z)
    : M DecodeBudget DecodeError ByteVec :=
  run_layer 0 true None (len input) (identity_program input).

(** ** ASCIIHex *)

Fixpoint ascii_hex_loop (input : list Z) (high_nibble : option Z)
    (terminated : bool) : prog bool :=
  match input with
  | [] => mret terminated
  | byte :: input =>
      consume;;
      if terminated then
        if is_pdf_whitespace byte
        then ascii_hex_loop input high_nibble terminated
        else Stop TrailingData
      else if is_pdf_whitespace byte then
        ascii_hex_loop input high_nibble terminated
      else if byte =? 62 (* > *) then
        match high_nibble with
        | Some high => emit_byte (Z.land (Z.shiftl high 4) 255)
        | None => mret tt
        end;;
        ascii_hex_loop input None true
      else
        nibble ← need (hex_nibble byte) InvalidAsciiHex;
        match high_nibble with
        | Some high =>
            emit_byte (Z.lor (Z.land (Z.shiftl high 4) 255) nibble);;
            ascii_hex_loop input None terminated
        | None => ascii_hex_loop input (Some nibble) terminated
        end
  end.

Definition ascii_hex_program (input : list Z) : prog unit :=
  terminated ← ascii_hex_loop input None false;
  stop_if (negb terminated) MissingEndMarker.

Definition decode_ascii_hex `{DecodeRuntime} (input : list Z)
    (input_capacity : Z) (is_final : bool) (filter_index : Z)
    : M DecodeBudget DecodeError ByteVec :=
  run_layer input_capacity is_final (Some filter_index)
    (saturating_add u64_max (len input) 1 / 2) (ascii_hex_program input).

(** ** ASCII85 *)

Fixpoint emit_bytes (bytes : list Z) : prog unit :=
  match bytes with
  | [] => mret tt
  | byte :: bytes => emit_byte byte;; emit_bytes bytes
  end.

Definition ascii85_group_value (digits : list Z) : option Z :=
  value ← foldl (λ value digit,
    value ← value;
    value ← checked_mul u64_max value 85;
    checked_add u64_max value digit) (Some 0) digits;
  try_from u32_max value.

(** [digits] is the array of five, [digit_count] of them current. *)
Definition emit_ascii85_partial (digits : list Z) (digit_count : nat)
    : prog unit :=
  if (digit_count =? 0)%nat then mret tt
  else if (digit_count =? 1)%nat then Stop InvalidAscii85
  else
    let padded := take digit_count digits ++ replicate (5 - digit_count) 84 in
    value ← need (ascii85_group_value padded) InvalidAscii85;
    emit_bytes (take (digit_count - 1) (to_be_bytes value)).

Fixpoint ascii85_loop (input : list Z) (digits : list Z) (digit_count : nat)
    (pending_tilde terminated : bool) : prog bool :=
  match input with
  | [] => mret terminated
  | byte :: input =>
      consume;;
      if terminated then
        if is_pdf_whitespace byte
        then ascii85_loop input digits digit_count pending_tilde terminated
        else Stop TrailingData
      else if pending_tilde then
        stop_if (negb (byte =? 62)) InvalidAscii85;;
        emit_ascii85_partial digits digit_count;;
        ascii85_loop input digits digit_count false true
      else if is_pdf_whitespace byte then
        ascii85_loop input digits digit_count pending_tilde terminated
      else if byte =? 126 (* ~ *) then
        ascii85_loop input digits digit_count true terminated
      else if byte =? 122 (* z *) then
        if (digit_count =? 0)%nat then
          emit_bytes [0; 0; 0; 0];;
          ascii85_loop input digits digit_count pending_tilde terminated
        else Stop InvalidAscii85
      else if (33 <=? byte) && (byte <=? 117) (* ! .. u *) then
        let digits := <[digit_count := byte - 33]> digits in
        if (S digit_count =? 5)%nat then
          value ← need (ascii85_group_value digits) InvalidAscii85;
          emit_bytes (to_be_bytes value);;
          ascii85_loop input digits 0 pending_tilde terminated
        else ascii85_loop input digits (S digit_count) pending_tilde terminated
      else Stop InvalidAscii85
  end.

Definition ascii85_program (input : list Z) : prog unit :=
  terminated ← ascii85_loop input [0; 0; 0; 0; 0] 0 false false;
  stop_if (negb terminated) MissingEndMarker.

Definition decode_ascii85 `{DecodeRuntime} (input : list Z)
    (input_capacity : Z) (is_final : bool) (filter_index : Z)
    : M DecodeBudget DecodeError ByteVec :=
  run_layer input_capacity is_final (Some filter_index)
    (saturating_add u64_max (saturating_mul u64_max (len input) 4 / 5) 4)
    (ascii85_program input).

(** ** RunLength *)

(** [for byte in &input[cursor..end]]. *)
Fixpoint copy_literal (bytes : list Z) : prog unit :=
  match bytes with
  | [] => mret tt
  | byte :: bytes => consume;; emit_byte byte;; copy_literal bytes
  end.

(** [while cursor < input.len()], at most [fuel] rounds. *)
Fixpoint run_length_loop `{Platform} (fuel : nat) (input : list Z) (cursor : Z)
    : prog unit :=
  match fuel with
  | O => Stuck
  | S fuel =>
      match input !! Z.to_nat cursor with
      | None => Stop MissingEndMarker
      | Some control =>
          consume;;
          let cursor := cursor + 1 in
          if control =? 128 then
            stop_if (negb (cursor =? len input)) TrailingData
          else if control <=? 127 then
            let count := control + 1 in
            end_ ← need (checked_add usize_max cursor count) InvalidRunLength;
            stop_if (len input <? end_) InvalidRunLength;;
            copy_literal (take (Z.to_nat count) (drop (Z.to_nat cursor) input));;
            run_length_loop fuel input end_
          else
            byte ← need (input !! Z.to_nat cursor) InvalidRunLength;
            consume;;
            let count := 257 - control in
            emit_bytes (replicate (Z.to_nat count) byte);;
            run_length_loop fuel input (cursor + 1)
      end
  end.

(** Every round consumes an input byte. *)
Definition run_length_program `{Platform} (input : list Z) : prog unit :=
  run_length_loop (S (length input)) input 0.

Definition decode_run_length `{DecodeRuntime} (input : list Z)
    (input_capacity : Z) (is_final : bool) (filter_index : Z)
    : M DecodeBudget DecodeError ByteVec :=
  run_layer input_capacity is_final (Some filter_index)
    (saturating_mul u64_max (len input) 128) (run_length_program input).
