(* ===== verification/AsciiSpec.v ===== *)
(** * What the ASCIIHex, RunLength and ASCII85 layers decode

    The accepted inputs of ASCIIHex and RunLength, exactly, and the round trip
    of ASCII85. *)

From stdpp Require Import base list numbers option.
From S2P Require Import Prelude.
From S2P Require Import SourceTypes.
From S2P Require Import FilterTypes.
From S2P Require Import DecodeBudget.
From S2P Require Import OutputProgram.
From S2P Require Import AsciiFilters.

(** ** Straight-line output *)

Lemma outcome_emit_bytes bs out :
  outcome (emit_bytes bs) out = Ok (tt, out ++ bs).
Proof.
  revert out. induction bs as [|b bs IH]; intros out; simpl.
  - by rewrite app_nil_r.
  - change (outcome (emit_bytes bs) (out ++ [b]) = Ok (tt, out ++ b :: bs)).
    by rewrite IH, <-app_assoc.
Qed.

Lemma outcome_copy_literal bs out :
  outcome (copy_literal bs) out = Ok (tt, out ++ bs).
Proof.
  revert out. induction bs as [|b bs IH]; intros out; simpl.
  - by rewrite app_nil_r.
  - change (outcome (copy_literal bs) (out ++ [b]) = Ok (tt, out ++ b :: bs)).
    by rewrite IH, <-app_assoc.
Qed.

Lemma outcome_identity bs out :
  outcome (identity_program bs) out = Ok (tt, out ++ bs).
Proof.
  revert out. induction bs as [|b bs IH]; intros out; simpl.
  - by rewrite app_nil_r.
  - change (outcome (identity_program bs) (out ++ [b]) = Ok (tt, out ++ b :: bs)).
    by rewrite IH, <-app_assoc.
Qed.

Lemma outcome_stop_if (c : bool) code out :
  outcome (stop_if c code) out = if c then Err code else Ok (tt, out).
Proof. by destruct c. Qed.

Lemma outcome_need {A} (o : option A) code out :
  outcome (need o code) out = match o with Some a => Ok (a, out) | None => Err code end.
Proof. by destruct o. Qed.

Lemma outcome_step {A} (p : prog A) out :
  outcome (consume;; p) out = outcome p out.
Proof. done. Qed.

Lemma outcome_step_algorithm {A} n (p : prog A) out :
  outcome (step_algorithm n;; p) out = outcome p out.
Proof. done. Qed.

Lemma outcome_emit_byte {A} b (p : prog A) out :
  outcome (emit_byte b;; p) out = outcome p (out ++ [b]).
Proof. done. Qed.

Lemma to_be_bytes_bytes v : are_bytes (to_be_bytes v).
Proof.
  unfold to_be_bytes. change 255 with (Z.ones 8).
  repeat constructor; unfold u8_max; rewrite Z.land_ones by lia; change (2 ^ 8) with 256;
    match goal with |- context [?x `mod` 256] => pose proof (Z.mod_pos_bound x 256) end; lia.
Qed.

(** ** ASCIIHex *)

(** What may stand before the end marker. *)
Definition hex_char (byte : Z) : Prop :=
  is_pdf_whitespace byte = true ∨ is_Some (hex_nibble byte).

(** Two nibbles a byte, the last one padded with zero. *)
Fixpoint pair_nibbles (nibbles : list Z) : list Z :=
  match nibbles with
  | high :: low :: nibbles => 16 * high + low :: pair_nibbles nibbles
  | [high] => [16 * high]
  | [] => []
  end.

Lemma hex_nibble_bounds b n : hex_nibble b = Some n → 0 ≤ n < 16.
Proof.
  unfold hex_nibble. intros Hn.
  repeat (case_match; simplify_eq; checked_facts); rewrite ?andb_true_iff in *;
    checked_facts; naive_solver lia.
Qed.

Lemma whitespace_not_nibble b : is_pdf_whitespace b = true → hex_nibble b = None.
Proof.
  unfold is_pdf_whitespace. rewrite !orb_true_iff, !Z.eqb_eq.
  intros [[[[[->| ->]| ->]| ->]| ->]| ->]; done.
Qed.

Lemma end_marker_not_hex_char : ¬ hex_char 62.
Proof. intros [|[? ]]; done. Qed.

(** A finite check over two nibbles. *)
Lemma nibble_pairs (P : Z → Z → bool) :
  forallb (λ i, forallb (λ j, P (Z.of_nat i) (Z.of_nat j)) (seq 0 16)) (seq 0 16) = true →
  ∀ h n, 0 ≤ h < 16 → 0 ≤ n < 16 → P h n = true.
Proof.
  rewrite forallb_forall. intros Hall h n Hh Hn.
  specialize (Hall (Z.to_nat h)). rewrite in_seq, forallb_forall in Hall.
  specialize (Hall ltac:(lia) (Z.to_nat n)). rewrite in_seq in Hall.
  specialize (Hall ltac:(lia)). by rewrite !Z2Nat.id in Hall by lia.
Qed.

Lemma pack_nibbles h n :
  0 ≤ h < 16 → 0 ≤ n < 16 → Z.lor (Z.land (Z.shiftl h 4) 255) n = 16 * h + n.
Proof.
  intros Hh Hn. apply Z.eqb_eq.
  by apply (nibble_pairs (λ h n, Z.lor (Z.land (Z.shiftl h 4) 255) n =? 16 * h + n)).
Qed.

Lemma pack_nibble h : 0 ≤ h < 16 → Z.land (Z.shiftl h 4) 255 = 16 * h.
Proof.
  intros Hh. apply Z.eqb_eq.
  by apply (nibble_pairs (λ h _, Z.land (Z.shiftl h 4) 255 =? 16 * h)
              eq_refl h 0 Hh).
Qed.

(** After the end marker. *)
Lemma ascii_hex_tail input high out r :
  outcome (ascii_hex_loop input high true) out = r →
  (Forall (λ b, is_pdf_whitespace b = true) input ∧ r = Ok (true, out)) ∨
  (¬ Forall (λ b, is_pdf_whitespace b = true) input ∧ r = Err TrailingData).
Proof.
  revert r. induction input as [|b input IH]; intros r;
    cbn [ascii_hex_loop]; [by left|]. rewrite outcome_step.
  destruct (is_pdf_whitespace b) eqn:Hw.
  - intros [[? ?]|[Hn ?]]%IH; [left|right]; split; auto.
    intros Hf. apply Hn. by inversion Hf.
  - intros <-. right. split; [|done]. intros Hf. inversion Hf. congruence.
Qed.

Definition decoded_nibbles (high : option Z) (body : list Z) : list Z :=
  pair_nibbles (option_list high ++ omap hex_nibble body).

(** Before the end marker: the three ways the scan can end. *)
Lemma ascii_hex_loop_spec input high out :
  (∀ h, high = Some h → 0 ≤ h < 16) →
  (∃ body tail, input = body ++ 62 :: tail ∧ Forall hex_char body ∧
     ((Forall (λ b, is_pdf_whitespace b = true) tail ∧
       outcome (ascii_hex_loop input high false) out =
         Ok (true, out ++ decoded_nibbles high body)) ∨
      (¬ Forall (λ b, is_pdf_whitespace b = true) tail ∧
       outcome (ascii_hex_loop input high false) out = Err TrailingData))) ∨
  (Forall hex_char input ∧
     ∃ out', outcome (ascii_hex_loop input high false) out = Ok (false, out')) ∨
  (∃ body b tail, input = body ++ b :: tail ∧ Forall hex_char body ∧ b ≠ 62 ∧
     ¬ hex_char b ∧
     outcome (ascii_hex_loop input high false) out = Err InvalidAsciiHex).
Proof.
  revert high out. induction input as [|b input IH]; intros high out Hhigh;
    cbn [ascii_hex_loop].
  { right. left. split; [constructor|]. by exists out. }
  rewrite outcome_step.
  (* prefixing an accepted byte to each of the three outcomes *)
  assert (∀ high' out' (r : result DecodeErrorCode (bool * list Z)),
    (∀ h, high' = Some h → 0 ≤ h < 16) → hex_char b →
    (∀ body, out' ++ decoded_nibbles high' body = out ++ decoded_nibbles high (b :: body)) →
    r = outcome (ascii_hex_loop input high' false) out' →
    (∃ body tail, b :: input = body ++ 62 :: tail ∧ Forall hex_char body ∧
       ((Forall (λ b, is_pdf_whitespace b = true) tail ∧
         r = Ok (true, out ++ decoded_nibbles high body)) ∨
        (¬ Forall (λ b, is_pdf_whitespace b = true) tail ∧ r = Err TrailingData))) ∨
    (Forall hex_char (b :: input) ∧ ∃ out', r = Ok (false, out')) ∨
    (∃ body b' tail, b :: input = body ++ b' :: tail ∧ Forall hex_char body ∧ b' ≠ 62 ∧
       ¬ hex_char b' ∧ r = Err InvalidAsciiHex)) as Hstep.
  { intros high' out' r Hh' Hb Hout ->.
    destruct (IH high' out' Hh') as [(body&tail&->&Hf&Hr)|[[Hf Hr]|(body&b'&tail&->&Hf&Hb'&?&Hr)]].
    - left. exists (b :: body), tail. rewrite <-Hout. split_and!; try done. by constructor.
    - right. left. split; [by constructor|done].
    - right. right. exists (b :: body), b', tail. split_and!; try done. by constructor. }
  destruct (is_pdf_whitespace b) eqn:Hw.
  { apply (Hstep high out); [done|by left| |done].
    intros body. unfold decoded_nibbles. simpl. by rewrite whitespace_not_nibble. }
  destruct (b =? 62) eqn:Hb62; [apply Z.eqb_eq in Hb62 as ->|apply Z.eqb_neq in Hb62].
  { left. exists [], input. split; [done|]. split; [constructor|].
    assert (∃ p : prog unit, outcome p out = Ok (tt, out ++ decoded_nibbles high []) ∧
      outcome (match high with Some h => emit_byte (Z.land (Z.shiftl h 4) 255)
                | None => mret tt end;; ascii_hex_loop input None true) out =
      outcome (p;; ascii_hex_loop input None true) out) as (p&Hp&->).
    { eexists. split; [|reflexivity]. destruct high as [h|]; simpl.
      - by rewrite pack_nibble by auto.
      - unfold decoded_nibbles. simpl. by rewrite app_nil_r. }
    rewrite outcome_bind, Hp. simpl.
    destruct (ascii_hex_tail input None (out ++ decoded_nibbles high []) _ eq_refl)
      as [[? ->]|[? ->]]; auto. }
  destruct (hex_nibble b) as [n|] eqn:Hn; simpl.
  - pose proof (hex_nibble_bounds b n Hn) as Hnb.
    assert (hex_char b) as Hc by (right; eauto).
    destruct high as [h|].
    + apply (Hstep None (out ++ [16 * h + n])); [done|done| |].
      * intros body. unfold decoded_nibbles. simpl. rewrite Hn. simpl.
        by rewrite <-app_assoc.
      * simpl. by rewrite pack_nibbles by auto.
    + apply (Hstep (Some n) out); [naive_solver|done| |done].
      intros body. unfold decoded_nibbles. simpl. by rewrite Hn.
  - right. right. exists [], b, input. split_and!; [done|constructor|done| |done].
    intros [?|[? ?]]; congruence.
Qed.

(** ** RunLength *)

Inductive run_segment :=
| LiteralRun (bytes : list Z)
| RepeatRun (byte : Z) (count : nat).

Definition run_segment_ok (segment : run_segment) : Prop :=
  match segment with
  | LiteralRun bytes => 1 ≤ len bytes ≤ 128
  | RepeatRun _ count => (2 ≤ count ≤ 128)%nat
  end.

Definition encode_run (segment : run_segment) : list Z :=
  match segment with
  | LiteralRun bytes => len bytes - 1 :: bytes
  | RepeatRun byte count => [257 - Z.of_nat count; byte]
  end.

Definition expand_run (segment : run_segment) : list Z :=
  match segment with
  | LiteralRun bytes => bytes
  | RepeatRun byte count => replicate count byte
  end.

Lemma safely_emit_bytes_bind {B} bs (f : unit → prog B) out Q :
  safely (f tt) (out ++ bs) Q → safely (emit_bytes bs ≫= f) out Q.
Proof. unfold safely. by rewrite outcome_bind, outcome_emit_bytes. Qed.

Lemma safely_copy_literal_bind {B} bs (f : unit → prog B) out Q :
  safely (f tt) (out ++ bs) Q → safely (copy_literal bs ≫= f) out Q.
Proof. unfold safely. by rewrite outcome_bind, outcome_copy_literal. Qed.

Lemma pair_nibbles_bytes l : Forall (λ n, 0 ≤ n < 16) l → are_bytes (pair_nibbles l).
Proof.
  induction l as [l IH] using (induction_ltof1 _ length). unfold ltof in IH.
  destruct l as [|h [|n l]]; rewrite ?Forall_cons_iff; [by constructor|..]; intros Hl;
    (constructor; [unfold is_byte, u8_max; lia|]); [constructor|].
  apply IH; [simpl; lia|tauto].
Qed.

Lemma decoded_nibbles_bytes body : are_bytes (decoded_nibbles None body).
Proof.
  apply pair_nibbles_bytes. simpl. induction body as [|b body IH]; [constructor|].
  simpl. destruct (hex_nibble b) as [n|] eqn:Hn; [|done].
  constructor; [by eapply hex_nibble_bounds|done].
Qed.

Lemma ascii_hex_safely input :
  safely (ascii_hex_program input) [] (λ _ out, are_bytes out).
Proof.
  apply (safely_bind _ _ _ (λ t out, t = true → are_bytes out)).
  - destruct (ascii_hex_loop_spec input None [] ltac:(done))
      as [(body&tail&_&_&[[_ Hr]|[_ Hr]])|[[_ [out' Hr]]|(body&b&tail&_&_&_&_&Hr)]];
      unfold safely; rewrite Hr; [|done..]. intros _. apply decoded_nibbles_bytes.
  - intros [] out Hout; [|done]. by apply Hout.
Qed.

Lemma ascii85_loop_safely input digits n tilde terminated out :
  are_bytes out →
  safely (ascii85_loop input digits n tilde terminated) out (λ _ out, are_bytes out).
Proof.
  assert (∀ l v, are_bytes l → are_bytes (l ++ to_be_bytes v)) as Happ.
  { intros l v Hl. apply Forall_app. split; [done|apply to_be_bytes_bytes]. }
  revert digits n tilde terminated out.
  induction input as [|b input IH]; intros digits n tilde terminated out Ho; [done|].
  cbn [ascii85_loop]. safely_step.
  destruct terminated; [destruct (is_pdf_whitespace b); [by apply IH|done]|].
  destruct tilde.
  { safely_step. apply (safely_bind _ _ _ (λ _ out, are_bytes out)); [|by intros [] ? ?; apply IH].
    unfold emit_ascii85_partial. repeat case_match; try done. safely_step.
    unfold safely. rewrite outcome_emit_bytes. apply Forall_app. split; [done|].
    apply Forall_take, to_be_bytes_bytes. }
  destruct (is_pdf_whitespace b); [by apply IH|]. destruct (b =? 126); [by apply IH|].
  destruct (b =? 122).
  { destruct (n =? 0)%nat; [|done]. apply safely_emit_bytes_bind, IH.
    by apply (Happ _ 0). }
  destruct (_ && _); [|done]. cbv zeta.
  destruct (S n =? 5)%nat; [|by apply IH]. safely_step.
  apply safely_emit_bytes_bind. by apply IH, Happ.
Qed.

Lemma ascii85_safely input : safely (ascii85_program input) [] (λ _ out, are_bytes out).
Proof.
  eapply safely_bind; [apply ascii85_loop_safely; constructor|]. intros [] out Ho; [|done]. exact Ho.
Qed.

Lemma identity_safely input :
  are_bytes input → safely (identity_program input) [] (λ _ out, are_bytes out).
Proof. intros Hb. unfold safely. by rewrite outcome_identity. Qed.

Section run_length.
Context `{Platform}.

Lemma run_length_safely fuel input k out :
  are_bytes input → are_bytes out → (k ≤ length input < k + fuel)%nat →
  safely (run_length_loop fuel input (Z.of_nat k)) out (λ _ out, are_bytes out).
Proof.
  intros Hbytes. revert k out. induction fuel as [|fuel IH]; intros k out Ho Hk; [lia|].
  cbn [run_length_loop]. rewrite Nat2Z.id.
  destruct (input !! k) as [control|] eqn:Hc; [|done].
  pose proof (lookup_lt_Some _ _ _ Hc) as Hlt.
  pose proof (Forall_lookup_1 _ _ _ _ Hbytes Hc) as Hb. unfold is_byte, u8_max in Hb.
  safely_step.
  replace (Z.of_nat k + 1) with (Z.of_nat (S k)) by lia. rewrite Nat2Z.id.
  destruct (control =? 128); [by safely_step|].
  destruct (control <=? 127) eqn:Hle; checked_facts.
  - safely_steps. checked_facts. subst. apply safely_copy_literal_bind.
    rewrite <-(Z2Nat.id (Z.of_nat (S k) + (control + 1))) by lia. apply IH; [|lia].
    apply Forall_app. split; [done|by apply Forall_take, Forall_drop].
  - safely_steps. apply safely_emit_bytes_bind.
    match goal with Hb' : input !! S k = _ |- _ =>
      pose proof (Forall_lookup_1 _ _ _ _ Hbytes Hb'); apply lookup_lt_Some in Hb' end.
    replace (Z.of_nat (S k) + 1) with (Z.of_nat (S (S k))) by lia. apply IH; [|lia].
    apply Forall_app. split; [done|by apply Forall_replicate].
Qed.

(** The segments the rest of the input encodes, when the loop succeeds. *)
Lemma run_length_loop_sound fuel input k out out' :
  are_bytes input →
  outcome (run_length_loop fuel input (Z.of_nat k)) out = Ok (tt, out') →
  ∃ segments, Forall run_segment_ok segments ∧
    drop k input = concat (encode_run <$> segments) ++ [128] ∧
    out' = out ++ concat (expand_run <$> segments).
Proof.
  intros Hbytes. revert k out. induction fuel as [|fuel IH]; intros k out; [done|].
  cbn [run_length_loop]. rewrite Nat2Z.id.
  destruct (input !! k) as [control|] eqn:Hc; [|done].
  pose proof (drop_S _ _ _ Hc) as Hdrop.
  pose proof (Forall_lookup_1 _ _ _ _ Hbytes Hc) as Hb. unfold is_byte, u8_max in Hb.
  rewrite outcome_step.
  replace (Z.of_nat k + 1) with (Z.of_nat (S k)) by lia. rewrite Nat2Z.id.
  destruct (control =? 128) eqn:H128; [|destruct (control <=? 127) eqn:Hle]; checked_facts.
  - destruct (negb _) eqn:Hend; [done|]. intros [= <-].
    apply negb_false_iff in Hend. checked_facts. exists [].
    split; [constructor|]. rewrite Hdrop, H128, drop_ge by lia.
    by rewrite app_nil_r.
  - destruct (checked_add _ _ _) as [end_|] eqn:Hadd; [|done]. checked_facts. subst end_.
    cbn [need mbind prog_bind]. destruct (_ <? _) eqn:Hend; [done|].
    checked_facts. intros Hrun.
    change (outcome (copy_literal (take (Z.to_nat (control + 1)) (drop (S k) input));;
      run_length_loop fuel input (Z.of_nat (S k) + (control + 1))) out = Ok (tt, out')) in Hrun.
    rewrite outcome_bind, outcome_copy_literal in Hrun. cbn [mbind result_bind] in Hrun.
    replace (Z.of_nat (S k) + (control + 1))
      with (Z.of_nat (S k + Z.to_nat (control + 1))) in Hrun by lia.
    apply IH in Hrun as (segs&Hsegs&Hrest&->).
    set (literal := take (Z.to_nat (control + 1)) (drop (S k) input)) in *.
    assert (length literal = Z.to_nat (control + 1)) as Hlen
      by (subst literal; rewrite length_take, length_drop; lia).
    exists (LiteralRun literal :: segs). split.
    { constructor; [simpl; lia|done]. }
    rewrite Hdrop, !fmap_cons. cbn [concat app encode_run expand_run]. rewrite Hlen, <-!app_assoc. split; [|done].
    rewrite <-Hrest, <-drop_drop. unfold literal. rewrite take_drop. f_equal. lia.
  - destruct (input !! S k) as [byte|] eqn:Hbyte; [|done].
    cbn [need mbind prog_bind]. rewrite outcome_step. intros Hrun.
    change (outcome (emit_bytes (replicate (Z.to_nat (257 - control)) byte);;
      run_length_loop fuel input (Z.of_nat (S k) + 1)) out = Ok (tt, out')) in Hrun.
    rewrite outcome_bind, outcome_emit_bytes in Hrun. cbn [mbind result_bind] in Hrun.
    replace (Z.of_nat (S k) + 1) with (Z.of_nat (S (S k))) in Hrun by lia.
    apply IH in Hrun as (segs&Hsegs&Hrest&->).
    exists (RepeatRun byte (Z.to_nat (257 - control)) :: segs). split.
    { constructor; [simpl; lia|done]. }
    rewrite Hdrop, (drop_S _ _ _ Hbyte), Hrest, !fmap_cons.
    cbn [concat app encode_run expand_run]. rewrite <-app_assoc.
    split; [|done]. f_equal. lia.
Qed.

(** Conversely every sequence of segments is decoded, with any fuel that
    is enough. *)
Lemma run_length_loop_complete fuel input k out segments :
  are_bytes input → len input ≤ usize_max →
  (k ≤ length input < k + fuel)%nat →
  Forall run_segment_ok segments →
  drop k input = concat (encode_run <$> segments) ++ [128] →
  outcome (run_length_loop fuel input (Z.of_nat k)) out =
    Ok (tt, out ++ concat (expand_run <$> segments)).
Proof.
  intros Hbytes Hsize. revert k out segments.
  induction fuel as [|fuel IH]; intros k out segments Hk Hsegs Hdrop; [lia|].
  cbn [run_length_loop]. rewrite Nat2Z.id.
  destruct segments as [|[bytes|byte count] segs];
    rewrite ?fmap_cons, ?fmap_nil in *; cbn [concat app encode_run expand_run] in *;
    apply drop_cons_lookup in Hdrop as [Hc Hrest]; rewrite Hc, outcome_step;
    replace (Z.of_nat k + 1) with (Z.of_nat (S k)) by lia; rewrite Nat2Z.id;
    pose proof (lookup_lt_Some _ _ _ Hc) as Hlt;
    try (apply Forall_cons_1 in Hsegs as [Hseg Hsegs]; simpl in Hseg).
  - assert (length input = S k) as ->.
    { apply (f_equal length) in Hrest. rewrite length_drop in Hrest. simpl in Hrest. lia. }
    rewrite (Z.eqb_refl (Z.of_nat (S k))). simpl. by rewrite app_nil_r.
  - rewrite (proj2 (Z.eqb_neq _ _)), (proj2 (Z.leb_le _ _)) by lia.
    assert (S k + length bytes ≤ length input)%nat as Hfit.
    { apply (f_equal length) in Hrest. rewrite length_drop, !length_app in Hrest. simpl in Hrest. lia. }
    rewrite (proj2 (checked_add_Some usize_max (Z.of_nat (S k)) (len bytes - 1 + 1) _))
      by (split; [lia|reflexivity]).
    cbn [need mbind prog_bind]. rewrite (proj2 (Z.ltb_ge _ _)) by lia.
    change (outcome (copy_literal (take (Z.to_nat (len bytes - 1 + 1)) (drop (S k) input));;
      run_length_loop fuel input (Z.of_nat (S k) + (len bytes - 1 + 1))) out = 
      Ok (tt, out ++ bytes ++ concat (expand_run <$> segs))).
    replace (Z.to_nat (len bytes - 1 + 1)) with (length bytes) by lia.
    rewrite outcome_bind, outcome_copy_literal, Hrest, <-app_assoc, take_app_length.
    cbn [mbind result_bind]. rewrite (app_assoc out).
    replace (Z.of_nat (S k) + (len bytes - 1 + 1)) with (Z.of_nat (S k + length bytes)) by lia.
    apply IH; [lia|done|]. by rewrite <-drop_drop, Hrest, <-app_assoc, drop_app_length.
  - rewrite (proj2 (Z.eqb_neq _ _)), (proj2 (Z.leb_gt _ _)) by lia.
    apply drop_cons_lookup in Hrest as [Hbyte Hrest]. rewrite Hbyte.
    pose proof (lookup_lt_Some _ _ _ Hbyte).
    cbn [need mbind prog_bind]. rewrite outcome_step.
    change (outcome (emit_bytes (replicate (Z.to_nat (257 - (257 - Z.of_nat count))) byte);;
      run_length_loop fuel input (Z.of_nat (S k) + 1)) out =
      Ok (tt, out ++ replicate count byte ++ concat (expand_run <$> segs))).
    replace (Z.to_nat (257 - (257 - Z.of_nat count))) with count by lia.
    rewrite outcome_bind, outcome_emit_bytes. cbn [mbind result_bind]. rewrite (app_assoc out).
    replace (Z.of_nat (S k) + 1) with (Z.of_nat (S (S k))) by lia.
    by apply IH; [lia|..].
Qed.
End run_length.

(** ** ASCII85 *)

(** The encoder of the format: four bytes as five base-85 digits from [!], the
    all-zero group as [z], a last group of [n < 4] bytes as [n + 1] digits. *)
Definition be_value (bytes : list Z) : Z :=
  foldl (λ value byte, value * 256 + byte) 0 bytes.
Definition ascii85_digits (value : Z) : list Z :=
  [value / 85 ^ 4; (value / 85 ^ 3) `mod` 85; (value / 85 ^ 2) `mod` 85;
   (value / 85) `mod` 85; value `mod` 85].
Definition ascii85_group (bytes : list Z) : list Z :=
  if be_value bytes =? 0 then [122]
  else Z.add 33 <$> ascii85_digits (be_value bytes).
Definition ascii85_last (bytes : list Z) : list Z :=
  Z.add 33 <$> take (S (length bytes))
    (ascii85_digits (be_value (bytes ++ replicate (4 - length bytes) 0))).

Fixpoint ascii85_encode (bytes : list Z) : list Z :=
  match bytes with
  | b1 :: b2 :: b3 :: b4 :: bytes => ascii85_group [b1; b2; b3; b4] ++ ascii85_encode bytes
  | [] => []
  | _ => ascii85_last bytes
  end.

(** A digit is an ordinary character of the alphabet. *)
Lemma ascii85_digit_step d input digits n out :
  0 ≤ d < 85 →
  outcome (ascii85_loop (33 + d :: input) digits n false false) out =
  let digits := <[n := d]> digits in
  if (S n =? 5)%nat then
    match ascii85_group_value digits with
    | Some value =>
        outcome (ascii85_loop input digits 0 false false) (out ++ to_be_bytes value)
    | None => Err InvalidAscii85
    end
  else outcome (ascii85_loop input digits (S n) false false) out.
Proof.
  intros Hd. cbn [ascii85_loop]. rewrite outcome_step.
  assert (is_pdf_whitespace (33 + d) = false) as ->
    by (unfold is_pdf_whitespace; rewrite !orb_false_iff, !Z.eqb_neq; lia).
  rewrite !(proj2 (Z.eqb_neq _ _)), (proj2 (Z.leb_le 33 _)), (proj2 (Z.leb_le _ 117)) by lia.
  cbn [andb]. replace (33 + d - 33) with d by lia.
  destruct (S n =? 5)%nat; [|done]. rewrite outcome_bind, outcome_need.
  destruct (ascii85_group_value _) as [value|]; [|done].
  cbn [mbind result_bind]. by rewrite outcome_bind, outcome_emit_bytes.
Qed.

Lemma ascii85_group_value_digits d1 d2 d3 d4 d5 :
  0 ≤ d1 < 85 → 0 ≤ d2 < 85 → 0 ≤ d3 < 85 → 0 ≤ d4 < 85 → 0 ≤ d5 < 85 →
  ascii85_group_value [d1; d2; d3; d4; d5] =
  try_from u32_max ((((d1 * 85 + d2) * 85 + d3) * 85 + d4) * 85 + d5).
Proof.
  intros. unfold ascii85_group_value. cbn [foldl mbind option_bind].
  repeat (rewrite (proj2 (checked_mul_Some u64_max _ 85 _))
            by (split; [unfold u64_max; lia|reflexivity]); cbn [mbind option_bind];
          rewrite (proj2 (checked_add_Some u64_max _ _ _))
            by (split; [unfold u64_max; lia|reflexivity]); cbn [mbind option_bind]).
  by do 2 f_equal.
Qed.

(** Base-85 digits of a 32-bit value. *)
Lemma ascii85_digits_spec v :
  0 ≤ v ≤ u32_max →
  ∃ d1 d2 d3 d4 d5, ascii85_digits v = [d1; d2; d3; d4; d5] ∧
    0 ≤ d1 < 85 ∧ 0 ≤ d2 < 85 ∧ 0 ≤ d3 < 85 ∧ 0 ≤ d4 < 85 ∧ 0 ≤ d5 < 85 ∧
    v = (((d1 * 85 + d2) * 85 + d3) * 85 + d4) * 85 + d5.
Proof.
  unfold u32_max. intros Hv. unfold ascii85_digits. do 5 eexists. split; [reflexivity|].
  change (85 ^ 4) with 52200625. change (85 ^ 3) with 614125. change (85 ^ 2) with 7225.
  split_and!; try lia; try (apply Z.mod_pos_bound; lia).
  all: Z.to_euclidean_division_equations; lia.
Qed.

Lemma to_be_bytes_be_value b1 b2 b3 b4 :
  are_bytes [b1; b2; b3; b4] → to_be_bytes (be_value [b1; b2; b3; b4]) = [b1; b2; b3; b4].
Proof.
  unfold are_bytes, is_byte, u8_max. rewrite !Forall_cons_iff. intros (?&?&?&?&_).
  unfold to_be_bytes, be_value. cbn [foldl].
  change 255 with (Z.ones 8). rewrite !Z.land_ones, !Z.shiftr_div_pow2 by lia.
  change (2 ^ 24) with 16777216. change (2 ^ 16) with 65536. change (2 ^ 8) with 256.
  repeat f_equal; Z.to_euclidean_division_equations; lia.
Qed.

Lemma be_value_to_be_bytes v : 0 ≤ v ≤ u32_max → be_value (to_be_bytes v) = v.
Proof.
  unfold u32_max. intros Hv. unfold to_be_bytes, be_value. cbn [foldl].
  change 255 with (Z.ones 8). rewrite !Z.land_ones, !Z.shiftr_div_pow2 by lia.
  change (2 ^ 24) with 16777216. change (2 ^ 16) with 65536. change (2 ^ 8) with 256.
  Z.to_euclidean_division_equations; lia.
Qed.

Lemma be_value_bounds b1 b2 b3 b4 :
  are_bytes [b1; b2; b3; b4] → 0 ≤ be_value [b1; b2; b3; b4] ≤ u32_max.
Proof.
  unfold are_bytes, is_byte, u8_max, u32_max. rewrite !Forall_cons_iff.
  intros (?&?&?&?&_). unfold be_value. cbn [foldl]. lia.
Qed.

(** A whole group is decoded to its four bytes. *)
Lemma ascii85_group_decoded b1 b2 b3 b4 input digits out :
  are_bytes [b1; b2; b3; b4] → length digits = 5%nat →
  ∃ digits', length digits' = 5%nat ∧
  outcome (ascii85_loop (ascii85_group [b1; b2; b3; b4] ++ input) digits 0 false false) out =
  outcome (ascii85_loop input digits' 0 false false) (out ++ [b1; b2; b3; b4]).
Proof.
  intros Hb Hlen. pose proof (be_value_bounds _ _ _ _ Hb) as Hv.
  pose proof (to_be_bytes_be_value _ _ _ _ Hb) as Hbe.
  unfold ascii85_group. case_match; checked_facts.
  - exists digits. split; [done|]. cbn [app ascii85_loop]. rewrite outcome_step.
    change (outcome (emit_bytes [0; 0; 0; 0];; ascii85_loop input digits 0 false false) out =
      outcome (ascii85_loop input digits 0 false false) (out ++ [b1; b2; b3; b4])).
    rewrite outcome_bind, outcome_emit_bytes. cbn [mbind result_bind].
    do 2 f_equal. rewrite <-Hbe.
    match goal with Hz : be_value _ = 0 |- _ => by rewrite Hz end.
  - destruct (ascii85_digits_spec _ Hv) as (d1&d2&d3&d4&d5&->&?&?&?&?&?&Hval).
    destruct digits as [|x1 [|x2 [|x3 [|x4 [|x5 [|]]]]]]; try done.
    exists [d1; d2; d3; d4; d5]. split; [done|].
    rewrite !fmap_cons, fmap_nil. cbn [app].
    rewrite ascii85_digit_step by done. cbn [Nat.eqb insert list_insert].
    rewrite ascii85_digit_step by done. cbn [Nat.eqb insert list_insert].
    rewrite ascii85_digit_step by done. cbn [Nat.eqb insert list_insert].
    rewrite ascii85_digit_step by done. cbn [Nat.eqb insert list_insert].
    rewrite ascii85_digit_step by done. cbn [Nat.eqb insert list_insert].
    rewrite ascii85_group_value_digits, <-Hval by done.
    rewrite (proj2 (try_from_Some u32_max _ _)) by (split; [exact Hv|reflexivity]).
    by rewrite Hbe.
Qed.

(** The bytes a shorter last group loses are the padding: its value is off by
    less than one unit of the last byte kept. *)
Lemma ascii85_padding v hi unit :
  0 ≤ v ≤ u32_max → unit ∈ [(85, 256); (7225, 65536); (614125, 16777216)] →
  v `mod` unit.2 = 0 → hi = v / unit.1 * unit.1 + (unit.1 - 1) →
  0 ≤ hi ≤ u32_max ∧ hi / unit.2 = v / unit.2.
Proof.
  unfold u32_max. intros Hv Hunit Hmod ->.
  repeat (apply elem_of_cons in Hunit as [->|Hunit]; [simpl in *;
    split; Z.to_euclidean_division_equations; lia|]).
  by apply elem_of_nil in Hunit.
Qed.

Lemma to_be_bytes_prefix n hi v :
  (1 ≤ n ≤ 3)%nat → hi / 256 ^ (4 - Z.of_nat n) = v / 256 ^ (4 - Z.of_nat n) →
  take n (to_be_bytes hi) = take n (to_be_bytes v).
Proof.
  intros Hn Heq. unfold to_be_bytes. rewrite !Z.shiftr_div_pow2 by lia.
  destruct n as [|[|[|[|]]]]; try lia;
    change (256 ^ (4 - Z.of_nat 1)) with 16777216 in Heq;
    change (256 ^ (4 - Z.of_nat 2)) with 65536 in Heq;
    change (256 ^ (4 - Z.of_nat 3)) with 256 in Heq;
    change (2 ^ 24) with 16777216; change (2 ^ 16) with 65536; change (2 ^ 8) with 256;
    cbn [take].
  - by rewrite Heq.
  - assert (hi / 16777216 = v / 16777216) as ->
      by (Z.to_euclidean_division_equations; lia). by rewrite Heq.
  - assert (hi / 16777216 = v / 16777216) as ->
      by (Z.to_euclidean_division_equations; lia).
    assert (hi / 65536 = v / 65536) as ->
      by (Z.to_euclidean_division_equations; lia). by rewrite Heq.
Qed.

(** The value of the padded digits of a last group. *)
Lemma ascii85_partial_value n v digits :
  (1 ≤ n ≤ 3)%nat → 0 ≤ v ≤ u32_max → v `mod` 256 ^ (4 - Z.of_nat n) = 0 →
  take (S n) digits = take (S n) (ascii85_digits v) → length digits = 5%nat →
  ∃ hi, ascii85_group_value (take (S n) digits ++ replicate (5 - S n) 84) = Some hi ∧
    take n (to_be_bytes hi) = take n (to_be_bytes v).
Proof.
  intros Hn Hv Hmod -> _.
  destruct (ascii85_digits_spec v Hv) as (d1&d2&d3&d4&d5&->&?&?&?&?&?&Hval).
  assert (∀ hi unit, unit ∈ [(85, 256); (7225, 65536); (614125, 16777216)] →
    256 ^ (4 - Z.of_nat n) = unit.2 → hi = v / unit.1 * unit.1 + (unit.1 - 1) →
    try_from u32_max hi = Some hi ∧ take n (to_be_bytes hi) = take n (to_be_bytes v)) as Hhi.
  { intros hi unit Hunit Hpow Hhi.
    destruct (ascii85_padding v hi unit Hv Hunit) as [Hb Hdiv]; [congruence|done|].
    split; [by apply try_from_Some|]. apply to_be_bytes_prefix; [done|congruence]. }
  destruct n as [|[|[|[|]]]]; try lia; cbn [take app replicate Nat.sub];
    rewrite ascii85_group_value_digits by lia; eexists.
  - eapply (Hhi _ (614125, 16777216)); [rewrite !elem_of_cons; auto|done|].
    simpl. Z.to_euclidean_division_equations; lia.
  - eapply (Hhi _ (7225, 65536)); [rewrite !elem_of_cons; auto|done|].
    simpl. Z.to_euclidean_division_equations; lia.
  - eapply (Hhi _ (85, 256)); [rewrite !elem_of_cons; auto|done|].
    simpl. Z.to_euclidean_division_equations; lia.
Qed.

(** The digits of a last group, read one by one. *)
Lemma ascii85_digits_read ds input digits k out :
  Forall (λ d, 0 ≤ d < 85) ds → (k + length ds < 5)%nat → length digits = 5%nat →
  ∃ digits', length digits' = 5%nat ∧ take (k + length ds) digits' = take k digits ++ ds ∧
  outcome (ascii85_loop ((Z.add 33 <$> ds) ++ input) digits k false false) out =
  outcome (ascii85_loop input digits' (k + length ds) false false) out.
Proof.
  revert digits k. induction ds as [|d ds IH]; intros digits k Hds Hk Hlen; simpl in Hk.
  - exists digits. rewrite app_nil_r, Nat.add_0_r. done.
  - apply Forall_cons_1 in Hds as [Hd Hds].
    destruct (IH (<[k := d]> digits) (S k)) as (digits'&Hl&Htake&Hrun);
      [done|lia|by rewrite length_insert|].
    exists digits'. split; [done|]. cbn [length].
    replace (k + S (length ds))%nat with (S k + length ds)%nat by lia. split.
    { rewrite Htake, (take_S_r _ _ d), take_insert_ge, <-app_assoc; [done|lia|].
      apply list_lookup_insert_eq. lia. }
    rewrite fmap_cons. cbn [app]. rewrite ascii85_digit_step by done. cbv zeta.
    rewrite (proj2 (Nat.eqb_neq _ _)) by lia. exact Hrun.
Qed.

Lemma ascii85_end digits k out :
  outcome (ascii85_loop [126; 62] digits k false false) out =
  '(_, out) ← outcome (emit_ascii85_partial digits k) out; Ok (true, out).
Proof.
  change (outcome (emit_ascii85_partial digits k;; mret true) out =
    '(_, out) ← outcome (emit_ascii85_partial digits k) out; Ok (true, out)).
  by rewrite outcome_bind.
Qed.

Lemma ascii85_last_decoded bytes digits out :
  are_bytes bytes → (1 ≤ length bytes ≤ 3)%nat → length digits = 5%nat →
  outcome (ascii85_loop (ascii85_last bytes ++ [126; 62]) digits 0 false false) out =
  Ok (true, out ++ bytes).
Proof.
  intros Hb Hn Hlen. unfold ascii85_last.
  set (n := length bytes) in *. set (padded := bytes ++ replicate (4 - n) 0).
  assert (∃ b1 b2 b3 b4, padded = [b1; b2; b3; b4]) as (b1&b2&b3&b4&Hpad).
  { subst n padded. destruct bytes as [|? [|? [|? [|]]]]; simpl in *; eauto; lia. }
  assert (are_bytes [b1; b2; b3; b4]) as Hpb.
  { rewrite <-Hpad. apply Forall_app. split; [done|].
    apply Forall_replicate. unfold is_byte, u8_max. lia. }
  pose proof (be_value_bounds _ _ _ _ Hpb) as Hv.
  pose proof (to_be_bytes_be_value _ _ _ _ Hpb) as Hbe. rewrite <-Hpad in Hv, Hbe.
  destruct (ascii85_digits_spec _ Hv) as (d1&d2&d3&d4&d5&Hds&?&?&?&?&?&Hval).
  destruct (ascii85_digits_read (take (S n) (ascii85_digits (be_value padded))) [126; 62]
    digits 0 out) as (digits'&Hl&Htake&->).
  { apply Forall_take. rewrite Hds. repeat constructor; lia. }
  { rewrite length_take. lia. }
  { done. }
  assert (length (take (S n) (ascii85_digits (be_value padded))) = S n) as Hk
    by (rewrite length_take, Hds; simpl; lia).
  rewrite Hk in *. cbn [Nat.add take app] in *. rewrite ascii85_end.
  destruct (ascii85_partial_value n (be_value padded) digits') as (hi&Hhi&Hout);
    [done|done| |done|done|].
  { rewrite Hpad. subst padded n. unfold be_value.
    destruct bytes as [|? [|? [|? [|]]]]; simpl in *; try lia; simplify_eq;
      Z.to_euclidean_division_equations; lia. }
  unfold emit_ascii85_partial.
  rewrite !(proj2 (Nat.eqb_neq (S n) _)) by lia.
  rewrite Hhi. cbn [need mbind prog_bind].
  rewrite outcome_emit_bytes. cbn [mbind result_bind].
  replace (S n - 1)%nat with n by lia. rewrite Hout, Hbe. subst padded n.
  by rewrite take_app_length.
Qed.

Lemma ascii85_loop_decoded bytes digits out :
  are_bytes bytes → length digits = 5%nat →
  outcome (ascii85_loop (ascii85_encode bytes ++ [126; 62]) digits 0 false false) out =
  Ok (true, out ++ bytes).
Proof.
  revert digits out. induction bytes as [bytes IH] using (induction_ltof1 _ length).
  intros digits out Hb Hlen. unfold ltof in IH.
  destruct bytes as [|b1 [|b2 [|b3 [|b4 bytes]]]];
    try (by apply ascii85_last_decoded; simpl; [done|lia|done]).
  - cbn [ascii85_encode app]. rewrite ascii85_end. simpl. by rewrite app_nil_r.
  - change (b1 :: b2 :: b3 :: b4 :: bytes) with ([b1; b2; b3; b4] ++ bytes) in Hb |- *.
    apply Forall_app in Hb as [Hg Hb]. cbn [ascii85_encode app]. rewrite <-app_assoc.
    destruct (ascii85_group_decoded b1 b2 b3 b4 (ascii85_encode bytes ++ [126; 62])
      digits out Hg Hlen) as (digits'&Hlen'&->).
    rewrite (IH bytes); [by rewrite <-app_assoc|simpl; lia|done|done].
Qed.
