(* ===== verification/Predictor.v ===== *)
(** * PNG and TIFF predictors ([pdf-rs/filters/src/predictor.rs])

    The second pass of a Flate stage with a predictor, as programs over the
    output buffer. *)

From stdpp Require Import base list numbers option.
From S2P Require Import Prelude.
From S2P Require Import SourceTypes.
From S2P Require Import FilterTypes.
From S2P Require Import DecodeBudget.
From S2P Require Import OutputProgram.
From S2P Require Import AsciiFilters.

(** ** Geometry *)

Record PredictorGeometry := {
  geometry_colors : Z;
  samples_per_row : Z;
  row_bytes : Z;
  bytes_per_pixel : Z
}.

Definition PredictorGeometry_new `{Platform} (parameters : PredictorParameters)
    : prog PredictorGeometry :=
  geometry_colors ← need (try_from usize_max (colors parameters))
    InvalidDecodeParameters;
  samples_per_row_u64 ← need
    (checked_mul u64_max (colors parameters) (columns parameters))
    InvalidDecodeParameters;
  row_bits ← need
    (checked_mul u64_max samples_per_row_u64 (bits_per_component parameters))
    InvalidDecodeParameters;
  row_bytes ← need
    (value ← checked_add u64_max row_bits 7; try_from usize_max (value / 8))
    InvalidDecodeParameters;
  pixel_bits ← need
    (checked_mul u64_max (colors parameters) (bits_per_component parameters))
    InvalidDecodeParameters;
  bytes_per_pixel ← need
    (value ← checked_add u64_max pixel_bits 7; try_from usize_max (value / 8))
    InvalidDecodeParameters;
  samples_per_row ← need (try_from usize_max samples_per_row_u64)
    InvalidDecodeParameters;
  stop_if ((row_bytes =? 0) || (bytes_per_pixel =? 0)) InvalidDecodeParameters;;
  mret {| geometry_colors := geometry_colors; samples_per_row := samples_per_row;
          row_bytes := row_bytes; bytes_per_pixel := bytes_per_pixel |}.

(** ** PNG *)

Definition tag_is_allowed (tag : Z) : bool := tag <=? 4.

Definition paeth (left above upper_left : Z) : Z :=
  let estimate := left + above - upper_left in
  let left_distance := Z.abs (estimate - left) in
  let above_distance := Z.abs (estimate - above) in
  let upper_left_distance := Z.abs (estimate - upper_left) in
  if (left_distance <=? above_distance) && (left_distance <=? upper_left_distance)
  then left
  else if above_distance <=? upper_left_distance then above
  else upper_left.

(** The match on the tag; [None] is its rejecting branch. *)
Definition png_prediction (tag left above upper_left : Z) : option Z :=
  if tag =? 0 then Some 0
  else if tag =? 1 then Some left
  else if tag =? 2 then Some above
  else if tag =? 3 then Some ((left + above) / 2)
  else if tag =? 4 then Some (paeth left above upper_left)
  else None.

Section png.
Context `{Platform}.

(** A byte already produced, or zero outside the image. *)
Definition neighbour (inside : bool) (distance : option Z) : prog Z :=
  if inside then
    distance ← need distance InvalidPredictorData;
    byte ← read_output (λ out, byte_at_distance out distance);
    need byte InvalidPredictorData
  else mret 0.

(** The body of [for column in 0..geometry.row_bytes] after the encoded byte
    has been read. *)
Definition png_reconstruct (g : PredictorGeometry) (tag row_index column encoded : Z)
    : prog unit :=
  step_algorithm 1;;
  left ← neighbour (bytes_per_pixel g <=? column) (Some (bytes_per_pixel g));
  step_algorithm 1;;
  above ← neighbour (0 <? row_index) (Some (row_bytes g));
  step_algorithm 1;;
  upper_left ← neighbour ((0 <? row_index) && (bytes_per_pixel g <=? column))
    (checked_add usize_max (row_bytes g) (bytes_per_pixel g));
  step_algorithm 1;;
  predicted ← need (png_prediction tag left above upper_left) InvalidPredictorData;
  step_algorithm 1;;
  emit_byte (wrapping_add u8_max encoded predicted).

(** [count] columns are left, from [column] on. *)
Fixpoint png_columns (g : PredictorGeometry) (tag row_index : Z) (count : nat)
    (column : Z) (input : list Z) (cursor : Z) : prog Z :=
  match count with
  | O => mret cursor
  | S count =>
      consume;;
      encoded ← index_slice input cursor;
      png_reconstruct g tag row_index column encoded;;
      png_columns g tag row_index count (column + 1) input (cursor + 1)
  end.

(** [while cursor < input.len()], at most [fuel] rows. *)
Fixpoint png_rows (g : PredictorGeometry) (fuel : nat) (row_index : Z)
    (input : list Z) (cursor : Z) : prog unit :=
  if cursor <? len input then
    match fuel with
    | O => Stuck
    | S fuel =>
        consume;;
        tag ← index_slice input cursor;
        step_algorithm 1;;
        stop_if (negb (tag_is_allowed tag)) InvalidPredictorData;;
        cursor ← png_columns g tag row_index (Z.to_nat (row_bytes g)) 0 input
          (cursor + 1);
        row_index ← need (checked_add usize_max row_index 1) InvalidPredictorData;
        png_rows g fuel row_index input cursor
    end
  else mret tt.

(** Every row consumes its tag: [length input] rows are enough. *)
Definition png_program (parameters : PredictorParameters) (input : list Z)
    : prog unit :=
  step_algorithm 1;;
  g ← PredictorGeometry_new parameters;
  encoded_row_bytes ← need (checked_add usize_max (row_bytes g) 1)
    InvalidPredictorData;
  stop_if (negb (len input `mod` encoded_row_bytes =? 0)) InvalidPredictorData;;
  png_rows g (length input) 0 input 0.
End png.

Definition decode_png `{DecodeRuntime} (input : list Z) (input_capacity : Z)
    (is_final : bool) (filter_index : Z) (parameters : PredictorParameters)
    : M DecodeBudget DecodeError ByteVec :=
  run_layer input_capacity is_final (Some filter_index) (len input)
    (png_program parameters input).

(** ** TIFF *)

Section tiff.
Context `{Platform}.

(** [for offset in 0..width]: [count] bits are left. *)
Fixpoint read_input_bits (bytes : list Z) (start_bit : Z) (count : nat)
    (offset value : Z) : prog Z :=
  match count with
  | O => mret value
  | S count =>
      step_algorithm 1;;
      bit ← need (checked_add usize_max start_bit offset) InvalidPredictorData;
      byte ← need (bytes !! Z.to_nat (bit / 8)) InvalidPredictorData;
      shift ← need (checked_sub 7 (bit `mod` 8)) InvalidPredictorData;
      read_input_bits bytes start_bit count (offset + 1)
        (Z.lor (Z.land (Z.shiftl value 1) u16_max)
           (Z.land (Z.shiftr byte shift) 1))
  end.

Fixpoint read_output_bits (start_bit : Z) (count : nat) (offset value : Z)
    : prog Z :=
  match count with
  | O => mret value
  | S count =>
      step_algorithm 1;;
      bit ← need (checked_add usize_max start_bit offset) InvalidPredictorData;
      current ← read_output (λ out, bit_at out bit);
      current ← need current InvalidPredictorData;
      read_output_bits start_bit count (offset + 1)
        (Z.lor (Z.land (Z.shiftl value 1) u16_max) current)
  end.

Fixpoint write_output_bits (start_bit width value : Z) (count : nat) (offset : Z)
    : prog unit :=
  match count with
  | O => mret tt
  | S count =>
      step_algorithm 1;;
      bit ← need (checked_add usize_max start_bit offset) InvalidPredictorData;
      let source_shift := width - 1 - offset in
      let source_bit := Z.land (Z.shiftr value source_shift) 1 in
      replaced ← replace_output_bit bit source_bit;
      stop_if (negb replaced) InvalidPredictorData;;
      write_output_bits start_bit width value count (offset + 1)
  end.

Definition reconstruct_tiff_sample (row : list Z) (row_output_start : Z)
    (sample colors width : Z) : prog unit :=
  step_algorithm 1;;
  bit_offset ← need (checked_mul usize_max sample width) InvalidPredictorData;
  previous_bit_offset ← need (checked_mul usize_max (sample - colors) width)
    InvalidPredictorData;
  output_row_bit ← need
    (value ← checked_mul usize_max row_output_start 8;
     checked_add usize_max value bit_offset) InvalidPredictorData;
  previous_output_bit ← need
    (value ← checked_mul usize_max row_output_start 8;
     checked_add usize_max value previous_bit_offset) InvalidPredictorData;
  delta ← read_input_bits row bit_offset (Z.to_nat width) 0 0;
  previous ← read_output_bits previous_output_bit (Z.to_nat width) 0 0;
  step_algorithm 1;;
  let mask := if width =? 16 then u16_max else Z.shiftl 1 width - 1 in
  let reconstructed := Z.land (wrapping_add u16_max delta previous) mask in
  write_output_bits output_row_bit width reconstructed (Z.to_nat width) 0.

(** [for sample in geometry.colors..geometry.samples_per_row]. *)
Fixpoint tiff_samples (row : list Z) (row_output_start : Z) (count : nat)
    (sample colors width : Z) : prog unit :=
  match count with
  | O => mret tt
  | S count =>
      reconstruct_tiff_sample row row_output_start sample colors width;;
      tiff_samples row row_output_start count (sample + 1) colors width
  end.

(** [for row in input.chunks_exact(geometry.row_bytes)]. *)
Fixpoint tiff_rows (g : PredictorGeometry) (width : Z) (rows : nat)
    (input : list Z) : prog unit :=
  match rows with
  | O => mret tt
  | S rows =>
      let row := take (Z.to_nat (row_bytes g)) input in
      row_output_start ← read_output (λ out, len out);
      copy_literal row;;
      tiff_samples row row_output_start
        (Z.to_nat (samples_per_row g - geometry_colors g)) (geometry_colors g)
        (geometry_colors g) width;;
      tiff_rows g width rows (drop (Z.to_nat (row_bytes g)) input)
  end.

Definition tiff_program (parameters : PredictorParameters) (input : list Z)
    : prog unit :=
  step_algorithm 1;;
  g ← PredictorGeometry_new parameters;
  stop_if (negb (len input `mod` row_bytes g =? 0)) InvalidPredictorData;;
  tiff_rows g (bits_per_component parameters)
    (Z.to_nat (len input / row_bytes g)) input.
End tiff.

Definition decode_tiff `{DecodeRuntime} (input : list Z) (input_capacity : Z)
    (is_final : bool) (filter_index : Z) (parameters : PredictorParameters)
    : M DecodeBudget DecodeError ByteVec :=
  run_layer input_capacity is_final (Some filter_index) (len input)
    (tiff_program parameters input).

Definition decode_predictor `{DecodeRuntime} (input : list Z) (input_capacity : Z)
    (is_final : bool) (filter_index : Z) (parameters : PredictorParameters)
    : M DecodeBudget DecodeError ByteVec :=
  if predictor parameters =? 2 then
    decode_tiff input input_capacity is_final filter_index parameters
  else if 10 <=? predictor parameters then
    decode_png input input_capacity is_final filter_index parameters
  else throw (for_code InternalState (Some filter_index)).
