(* ===== verification/Flate.v ===== *)
(** * The Flate decoder ([pdf-rs/filters/src/flate.rs])

    The constants of the format, [Huffman::build], which turns code lengths into the
    node array that [decode_symbol] walks, and [FlateDecoder], which reads the zlib
    stream bit by bit. Its fields other than the output buffer are an explicit
    state; the output is reached through [prog]. *)

From stdpp Require Import base list numbers option.
From S2P Require Import Prelude.
From S2P Require Import SourceTypes.
From S2P Require Import FilterTypes.
From S2P Require Import DecodeBudget.
From S2P Require Import OutputProgram.
From S2P Require Import AsciiFilters.

Definition MAX_CODE_BITS : nat := 15.
Definition MAX_HUFFMAN_SYMBOLS : Z := 288.
Definition MAX_HUFFMAN_NODES : Z := MAX_HUFFMAN_SYMBOLS * 2.
Definition NO_CHILD : Z := u16_max.
Definition ADLER_MODULUS : Z := 65521.

Definition LENGTH_BASES : list Z :=
  [3; 4; 5; 6; 7; 8; 9; 10; 11; 13; 15; 17; 19; 23; 27; 31; 35; 43; 51; 59; 67;
   83; 99; 115; 131; 163; 195; 227; 258].
Definition LENGTH_EXTRA_BITS : list Z :=
  [0; 0; 0; 0; 0; 0; 0; 0; 1; 1; 1; 1; 2; 2; 2; 2; 3; 3; 3; 3; 4; 4; 4; 4; 5; 5;
   5; 5; 0].
Definition DISTANCE_BASES : list Z :=
  [1; 2; 3; 4; 5; 7; 9; 13; 17; 25; 33; 49; 65; 97; 129; 193; 257; 385; 513; 769;
   1025; 1537; 2049; 3073; 4097; 6145; 8193; 12289; 16385; 24577].
Definition DISTANCE_EXTRA_BITS : list Z :=
  [0; 0; 0; 0; 1; 1; 2; 2; 3; 3; 4; 4; 5; 5; 6; 6; 7; 7; 8; 8; 9; 9; 10; 10; 11;
   11; 12; 12; 13; 13].
Definition CODE_LENGTH_ORDER : list Z :=
  [16; 17; 18; 0; 8; 7; 9; 6; 10; 5; 11; 4; 12; 3; 13; 2; 14; 1; 15].

(** [fill_code_lengths(.., &mut lengths[start..start + count], value)]. *)
Fixpoint fill_code_lengths (lengths : list Z) (start count : nat) (value : Z)
    : prog (list Z) :=
  match count with
  | O => mret lengths
  | S count =>
      step_algorithm 1;;
      fill_code_lengths (<[start := value]> lengths) (S start) count value
  end.

Record HuffmanNode := {
  child_zero : Z;
  child_one : Z;
  node_symbol : option Z
}.

Definition HuffmanNode_EMPTY : HuffmanNode :=
  {| child_zero := NO_CHILD; child_one := NO_CHILD; node_symbol := None |}.

(** [node.children.get(bit)] and [node.children[bit] = index]. *)
Definition node_child (node : HuffmanNode) (bit : Z) : option Z :=
  if bit =? 0 then Some (child_zero node)
  else if bit =? 1 then Some (child_one node)
  else None.
Definition set_node_child (bit index : Z) (node : HuffmanNode) : HuffmanNode :=
  if bit =? 0 then
    {| child_zero := index; child_one := child_one node;
       node_symbol := node_symbol node |}
  else
    {| child_zero := child_zero node; child_one := index;
       node_symbol := node_symbol node |}.
Definition set_node_symbol (symbol : Z) (node : HuffmanNode) : HuffmanNode :=
  {| child_zero := child_zero node; child_one := child_one node;
     node_symbol := Some symbol |}.

Record Huffman := {
  huffman_nodes : list HuffmanNode;
  huffman_is_empty : bool
}.

Definition empty_nodes : list HuffmanNode :=
  replicate (Z.to_nat MAX_HUFFMAN_NODES) HuffmanNode_EMPTY.

(** [array[index]]: out of range is a panic. *)
Definition index_array {A} (array : list A) (index : Z) : prog A :=
  match array !! Z.to_nat index with Some x => Ret x | None => Stuck end.

(** [node.children[bit]]. *)
Definition index_child (node : HuffmanNode) (bit : Z) : prog Z :=
  match node_child node bit with Some child => Ret child | None => Stuck end.

(** ** [Huffman::build], loop by loop *)

(** [for length in lengths]: the histogram, the number of codes and the
    longest code. *)
Fixpoint count_lengths (lengths counts : list Z) (symbol_count max_length : Z)
    : prog (list Z * Z * Z) :=
  match lengths with
  | [] => mret (counts, symbol_count, max_length)
  | length :: lengths =>
      step_algorithm 1;;
      stop_if (Z.of_nat MAX_CODE_BITS <? length) InvalidFlate;;
      if negb (length =? 0) then
        count ← index_array counts length;
        symbol_count ← need (checked_add u32_max symbol_count 1) InvalidFlate;
        count_lengths lengths (<[Z.to_nat length := count + 1]> counts)
          symbol_count (Z.max max_length length)
      else count_lengths lengths counts symbol_count max_length
  end.

(** [i32::checked_mul] and [i32::checked_sub]. *)
Definition checked_i32 (v : Z) : option Z :=
  if (-2147483648 <=? v) && (v <=? 2147483647) then Some v else None.

(** [for count in counts.iter().skip(1)]. *)
Fixpoint code_space (counts : list Z) (remaining : Z) : prog Z :=
  match counts with
  | [] => mret remaining
  | count :: counts =>
      step_algorithm 1;;
      remaining ← need
        (value ← checked_i32 (remaining * 2); checked_i32 (value - count))
        InvalidFlate;
      stop_if (remaining <? 0) InvalidFlate;;
      code_space counts remaining
  end.

(** [for bits in 1..=MAX_CODE_BITS]: [count] rounds are left. *)
Fixpoint first_codes (count : nat) (bits code : Z) (counts next_code : list Z)
    : prog (list Z) :=
  match count with
  | O => mret next_code
  | S count =>
      step_algorithm 1;;
      shorter ← index_array counts (bits - 1);
      code ← need
        (value ← checked_add u16_max code shorter; checked_mul u16_max value 2)
        InvalidFlate;
      first_codes count (bits + 1) code counts (<[Z.to_nat bits := code]> next_code)
  end.

(** [for depth in 0..length_index]: [count] rounds are left; the nodes so far,
    how many of them are used, and the current one. *)
Fixpoint insert_code (count : nat) (depth length_index canonical symbol : Z)
    (nodes : list HuffmanNode) (node_count node_index : Z)
    : prog (list HuffmanNode * Z) :=
  match count with
  | O => mret (nodes, node_count)
  | S count =>
      step_algorithm 1;;
      let shift := length_index - depth - 1 in
      let bit := Z.land (Z.shiftr canonical shift) 1 in
      let is_leaf := depth + 1 =? length_index in
      node ← index_array nodes node_index;
      existing ← index_child node bit;
      if existing =? NO_CHILD then
        stop_if (MAX_HUFFMAN_NODES <=? node_count) InvalidFlate;;
        new_index ← need (try_from u16_max node_count) InvalidFlate;
        let nodes := <[Z.to_nat node_index := set_node_child bit new_index node]> nodes in
        let node_index := node_count in
        let node_count := node_count + 1 in
        if is_leaf then
          symbol ← need (try_from u16_max symbol) InvalidFlate;
          leaf ← index_array nodes node_index;
          insert_code count (depth + 1) length_index canonical symbol
            (<[Z.to_nat node_index := set_node_symbol symbol leaf]> nodes)
            node_count node_index
        else
          insert_code count (depth + 1) length_index canonical symbol nodes
            node_count node_index
      else
        let node_index := existing in
        node ← index_array nodes node_index;
        stop_if (is_leaf || bool_decide (is_Some (node_symbol node))) InvalidFlate;;
        insert_code count (depth + 1) length_index canonical symbol nodes
          node_count node_index
  end.

(** [for (symbol, length) in lengths.iter().copied().enumerate()]. *)
Fixpoint insert_codes (lengths : list Z) (symbol : Z) (next_code : list Z)
    (nodes : list HuffmanNode) (node_count : Z) : prog (list HuffmanNode) :=
  match lengths with
  | [] => mret nodes
  | length :: lengths =>
      if length =? 0 then
        insert_codes lengths (symbol + 1) next_code nodes node_count
      else
        canonical ← index_array next_code length;
        next ← need (checked_add u16_max canonical 1) InvalidFlate;
        '(nodes, node_count) ← insert_code (Z.to_nat length) 0 length canonical
          symbol nodes node_count 0;
        insert_codes lengths (symbol + 1) (<[Z.to_nat length := next]> next_code)
          nodes node_count
  end.

Definition Huffman_build (lengths : list Z)
    (allow_empty allow_single_incomplete : bool) : prog Huffman :=
  stop_if (MAX_HUFFMAN_SYMBOLS <? len lengths) InvalidFlate;;
  '(counts, symbol_count, max_length) ← count_lengths lengths
    (replicate (S MAX_CODE_BITS) 0) 0 0;
  if symbol_count =? 0 then
    if allow_empty
    then mret {| huffman_nodes := empty_nodes; huffman_is_empty := true |}
    else Stop InvalidFlate
  else
    remaining ← code_space (drop 1 counts) 1;
    stop_if ((0 <? remaining)
             && negb (allow_single_incomplete && (symbol_count =? 1)
                      && (max_length =? 1))) InvalidFlate;;
    next_code ← first_codes MAX_CODE_BITS 1 0 counts
      (replicate (S MAX_CODE_BITS) 0);
    nodes ← insert_codes lengths 0 next_code empty_nodes 1;
    mret {| huffman_nodes := nodes; huffman_is_empty := false |}.

Record FlateDecoder := {
  fd_cursor : Z;
  bit_buffer : Z;
  bit_count : Z;
  window_limit : Z;
  adler_a : Z;
  adler_b : Z
}.

Definition FlateDecoder_new : FlateDecoder :=
  {| fd_cursor := 0; bit_buffer := 0; bit_count := 0; window_limit := 0;
     adler_a := 1; adler_b := 0 |}.
Definition set_cursor (x : Z) (d : FlateDecoder) : FlateDecoder :=
  {| fd_cursor := x; bit_buffer := bit_buffer d; bit_count := bit_count d;
     window_limit := window_limit d; adler_a := adler_a d; adler_b := adler_b d |}.
Definition set_bits (buffer count : Z) (d : FlateDecoder) : FlateDecoder :=
  {| fd_cursor := fd_cursor d; bit_buffer := buffer; bit_count := count;
     window_limit := window_limit d; adler_a := adler_a d; adler_b := adler_b d |}.
Definition set_window_limit (x : Z) (d : FlateDecoder) : FlateDecoder :=
  {| fd_cursor := fd_cursor d; bit_buffer := bit_buffer d;
     bit_count := bit_count d; window_limit := x; adler_a := adler_a d;
     adler_b := adler_b d |}.
Definition set_adler (a b : Z) (d : FlateDecoder) : FlateDecoder :=
  {| fd_cursor := fd_cursor d; bit_buffer := bit_buffer d;
     bit_count := bit_count d; window_limit := window_limit d; adler_a := a;
     adler_b := b |}.

(** A method taking [&mut self]. *)
Definition F (A : Type) : Type := FlateDecoder → prog (A * FlateDecoder).
#[global] Instance F_ret : MRet F := λ A a d, Ret (a, d).
#[global] Instance F_bind : MBind F := λ A B f m d,
  '(a, d) ← m d; f a d.

(** A call on [self.output] or of an associated function. *)
Definition lift {A} (p : prog A) : F A := λ d, a ← p; mret (a, d).
Definition self : F FlateDecoder := λ d, Ret (d, d).
Definition update (f : FlateDecoder → FlateDecoder) : F unit := λ d, Ret (tt, f d).
Definition invalid_if (cond : bool) : F unit := lift (stop_if cond InvalidFlate).
Definition or_invalid {A} (o : option A) : F A := lift (need o InvalidFlate).

Section flate.
Context `{Platform} (input : list Z).

(** ** Reading the input *)

Definition take_input_byte : F Z :=
  d ← self;
  byte ← or_invalid (input !! Z.to_nat (fd_cursor d));
  lift consume;;
  update (set_cursor (fd_cursor d + 1));;
  mret byte.

Definition read_aligned_byte : F Z :=
  d ← self;
  invalid_if (negb (bit_count d =? 0));;
  take_input_byte.

Definition read_u16_le : F Z :=
  low ← read_aligned_byte;
  high ← read_aligned_byte;
  mret (low + Z.shiftl high 8).

Definition align_to_byte : F unit := update (set_bits 0 0).

(** [while self.bit_count < count], at most [fuel] bytes. *)
Fixpoint fill_bits (fuel : nat) (count : Z) : F unit :=
  d ← self;
  if bit_count d <? count then
    match fuel with
    | O => lift Stuck
    | S fuel =>
        byte ← take_input_byte;
        update (λ d, set_bits
          (Z.lor (bit_buffer d) (Z.land (Z.shiftl byte (bit_count d)) u32_max))
          (bit_count d + 8) d);;
        fill_bits fuel count
    end
  else mret tt.

(** At most fifteen bits are asked for: two bytes are enough. *)
Definition read_bits (count : Z) : F Z :=
  invalid_if (15 <? count);;
  lift (step_algorithm (Z.to_N count));;
  fill_bits 2 count;;
  d ← self;
  let mask := if count =? 0 then 0 else Z.shiftl 1 count - 1 in
  let value := Z.land (bit_buffer d) mask in
  update (set_bits (Z.shiftr (bit_buffer d) count) (bit_count d - count));;
  mret value.

(** ** Writing the output *)

Definition emit (byte : Z) : F unit :=
  lift (emit_byte byte);;
  update (λ d,
    let a := (adler_a d + byte) `mod` ADLER_MODULUS in
    let b := (adler_b d + a) `mod` ADLER_MODULUS in
    set_adler a b d).

(** [for _ in 0..length] of a back reference. *)
Fixpoint copy_match (length : nat) (copy_distance : Z) : F unit :=
  match length with
  | O => mret tt
  | S length =>
      byte ← lift (read_output (λ out, byte_at_distance out copy_distance));
      byte ← or_invalid byte;
      emit byte;;
      copy_match length copy_distance
  end.

(** ** Stored blocks *)

Fixpoint copy_stored (count : nat) : F unit :=
  match count with
  | O => mret tt
  | S count =>
      byte ← read_aligned_byte;
      emit byte;;
      copy_stored count
  end.

Definition decode_stored_block : F unit :=
  align_to_byte;;
  length ← read_u16_le;
  complement ← read_u16_le;
  invalid_if (negb (length =? u16_max - complement));;
  copy_stored (Z.to_nat length).

(** ** Compressed blocks *)

(** [for _ in 0..MAX_CODE_BITS]: [count] bits may still be read. *)
Fixpoint walk_tree (count : nat) (nodes : list HuffmanNode) (node_index : Z)
    : F Z :=
  match count with
  | O => lift (Stop InvalidFlate)
  | S count =>
      bit ← read_bits 1;
      node ← or_invalid (nodes !! Z.to_nat node_index);
      child ← or_invalid (node_child node bit);
      invalid_if (child =? NO_CHILD);;
      let node_index := child in
      child_node ← or_invalid (nodes !! Z.to_nat node_index);
      match node_symbol child_node with
      | Some symbol => mret symbol
      | None => walk_tree count nodes node_index
      end
  end.

Definition decode_symbol (table : Huffman) : F Z :=
  invalid_if (huffman_is_empty table);;
  walk_tree MAX_CODE_BITS (huffman_nodes table) 0.

(** The match of a length symbol: its length, its distance, the copy. *)
Definition decode_match (length_symbol : Z) (distance : Huffman) : F unit :=
  let length_index := length_symbol - 257 in
  extra_bits ← lift (index_slice LENGTH_EXTRA_BITS length_index);
  extra_length ← read_bits extra_bits;
  base ← lift (index_slice LENGTH_BASES length_index);
  length ← or_invalid (checked_add usize_max base extra_length);
  distance_symbol ← decode_symbol distance;
  invalid_if (29 <? distance_symbol);;
  let distance_index := distance_symbol in
  extra_bits ← lift (index_slice DISTANCE_EXTRA_BITS distance_index);
  extra_distance ← read_bits extra_bits;
  base ← lift (index_slice DISTANCE_BASES distance_index);
  copy_distance ← or_invalid (checked_add usize_max base extra_distance);
  d ← self;
  output_len ← lift (read_output (λ out, len out));
  invalid_if ((copy_distance =? 0) || (window_limit d <? copy_distance)
              || (output_len <? copy_distance));;
  copy_match (Z.to_nat length) copy_distance.

(** [loop] over the symbols of a block, at most [fuel] of them. *)
Fixpoint compressed_loop (fuel : nat) (literal_length distance : Huffman) : F unit :=
  match fuel with
  | O => lift Stuck
  | S fuel =>
      symbol ← decode_symbol literal_length;
      if symbol <=? 255 then
        emit symbol;; compressed_loop fuel literal_length distance
      else if symbol =? 256 then mret tt
      else if symbol <=? 285 then
        decode_match symbol distance;; compressed_loop fuel literal_length distance
      else lift (Stop InvalidFlate)
  end.

(** The bits the decoder has not consumed yet. *)
Definition remaining_bits (d : FlateDecoder) : Z :=
  8 * (len input - fd_cursor d) + bit_count d.

(** Every symbol costs at least one bit. *)
Definition decode_compressed_block (literal_length distance : Huffman) : F unit :=
  d ← self;
  compressed_loop (S (Z.to_nat (remaining_bits d))) literal_length distance.

Definition fixed_tables : F (Huffman * Huffman) :=
  let literal_lengths := replicate 288 0 in
  literal_lengths ← lift (fill_code_lengths literal_lengths 0 144 8);
  literal_lengths ← lift (fill_code_lengths literal_lengths 144 112 9);
  literal_lengths ← lift (fill_code_lengths literal_lengths 256 24 7);
  literal_lengths ← lift (fill_code_lengths literal_lengths 280 8 8);
  distance_lengths ← lift (fill_code_lengths (replicate 32 0) 0 32 5);
  literal_length ← lift (Huffman_build literal_lengths false false);
  distance ← lift (Huffman_build distance_lengths false false);
  mret (literal_length, distance).

(** [for position in CODE_LENGTH_ORDER.iter().take(code_length_count)]. *)
Fixpoint read_code_lengths (positions : list Z) (lengths : list Z) : F (list Z) :=
  match positions with
  | [] => mret lengths
  | position :: positions =>
      length ← read_bits 3;
      lift (step_algorithm 1);;
      read_code_lengths positions (<[Z.to_nat position := length]> lengths)
  end.

(** The end of a repeat, within [total]. *)
Definition repeat_end (filled total repeat : Z) : F Z :=
  end_ ← or_invalid (checked_add usize_max filled repeat);
  invalid_if (total <? end_);;
  mret end_.

Definition fill_zero_lengths (lengths : list Z) (filled total repeat : Z)
    : F (list Z * Z) :=
  end_ ← repeat_end filled total repeat;
  lengths ← lift (fill_code_lengths lengths (Z.to_nat filled)
    (Z.to_nat (end_ - filled)) 0);
  mret (lengths, end_).

(** One symbol of the code-length code: the lengths and how many are filled. *)
Definition code_length_symbol (symbol : Z) (lengths : list Z) (filled total : Z)
    : F (list Z * Z) :=
  if symbol <=? 15 then
    lift (step_algorithm 1);;
    mret (<[Z.to_nat filled := symbol]> lengths, filled + 1)
  else if symbol =? 16 then
    invalid_if (filled =? 0);;
    repeat ← read_bits 2;
    end_ ← repeat_end filled total (repeat + 3);
    previous ← lift (index_slice lengths (filled - 1));
    lengths ← lift (fill_code_lengths lengths (Z.to_nat filled)
      (Z.to_nat (end_ - filled)) previous);
    mret (lengths, end_)
  else if symbol =? 17 then
    repeat ← read_bits 3;
    fill_zero_lengths lengths filled total (repeat + 3)
  else if symbol =? 18 then
    repeat ← read_bits 7;
    fill_zero_lengths lengths filled total (repeat + 11)
  else lift (Stop InvalidFlate).

(** [while filled < total], at most [fuel] symbols. *)
Fixpoint code_lengths_loop (fuel : nat) (tree : Huffman) (lengths : list Z)
    (filled total : Z) : F (list Z) :=
  if filled <? total then
    match fuel with
    | O => lift Stuck
    | S fuel =>
        symbol ← decode_symbol tree;
        '(lengths, filled) ← code_length_symbol symbol lengths filled total;
        code_lengths_loop fuel tree lengths filled total
    end
  else mret lengths.

(** Every symbol fills at least one of the [total] lengths. *)
Definition dynamic_tables : F (Huffman * Huffman) :=
  literal_count ← read_bits 5;
  let literal_count := literal_count + 257 in
  distance_count ← read_bits 5;
  let distance_count := distance_count + 1 in
  code_length_count ← read_bits 4;
  let code_length_count := code_length_count + 4 in
  invalid_if ((286 <? literal_count) || (32 <? distance_count)
              || (19 <? code_length_count));;
  code_length_lengths ← read_code_lengths
    (take (Z.to_nat code_length_count) CODE_LENGTH_ORDER) (replicate 19 0);
  code_length_tree ← lift (Huffman_build code_length_lengths false false);
  total ← or_invalid (checked_add usize_max literal_count distance_count);
  lengths ← code_lengths_loop (Z.to_nat total) code_length_tree
    (replicate 318 0) 0 total;
  invalid_if (default 0 (lengths !! 256%nat) =? 0);;
  literal_length ← lift (Huffman_build
    (take (Z.to_nat literal_count) lengths) false true);
  distance ← lift (Huffman_build
    (drop (Z.to_nat literal_count) (take (Z.to_nat total) lengths)) true true);
  mret (literal_length, distance).

(** ** The stream *)

Definition decode_block (block_type : Z) : F unit :=
  if block_type =? 0 then decode_stored_block
  else if block_type =? 1 then
    '(literal_length, distance) ← fixed_tables;
    decode_compressed_block literal_length distance
  else if block_type =? 2 then
    '(literal_length, distance) ← dynamic_tables;
    decode_compressed_block literal_length distance
  else lift (Stop InvalidFlate).

(** [loop] over the blocks, at most [fuel] of them. *)
Fixpoint blocks_loop (fuel : nat) : F unit :=
  match fuel with
  | O => lift Stuck
  | S fuel =>
      lift (step_algorithm 1);;
      is_final_block ← read_bits 1;
      block_type ← read_bits 2;
      decode_block block_type;;
      if negb (is_final_block =? 0) then mret tt else blocks_loop fuel
  end.

Definition read_header : F unit :=
  cmf ← read_aligned_byte;
  flg ← read_aligned_byte;
  let header := Z.lor (Z.shiftl cmf 8) flg in
  let compression_method := Z.land cmf 15 in
  let window_code := Z.shiftr cmf 4 in
  invalid_if (negb (compression_method =? 8) || (7 <? window_code)
              || negb (header `mod` 31 =? 0));;
  lift (stop_if (negb (Z.land flg 32 =? 0)) UnsupportedFlateDictionary);;
  update (set_window_limit (Z.shiftl 1 (window_code + 8))).

Definition check_trailer : F unit :=
  align_to_byte;;
  b3 ← read_aligned_byte;
  b2 ← read_aligned_byte;
  b1 ← read_aligned_byte;
  b0 ← read_aligned_byte;
  let expected_adler := ((b3 * 256 + b2) * 256 + b1) * 256 + b0 in
  d ← self;
  let actual_adler := Z.lor (Z.land (Z.shiftl (adler_b d) 16) u32_max) (adler_a d) in
  invalid_if (negb (expected_adler =? actual_adler));;
  if negb (fd_cursor d =? len input) then
    read_aligned_byte;;
    lift (Stop TrailingData)
  else mret tt.

(** Every block costs at least three bits. *)
Definition flate_run : F unit :=
  read_header;;
  d ← self;
  blocks_loop (S (Z.to_nat (remaining_bits d)));;
  check_trailer.

Definition flate_program : prog unit :=
  '(_, _) ← flate_run FlateDecoder_new; mret tt.
End flate.

Definition decode_flate `{DecodeRuntime} (input : list Z) (input_capacity : Z)
    (is_final : bool) (filter_index : Z) : M DecodeBudget DecodeError ByteVec :=
  run_layer input_capacity is_final (Some filter_index)
    (saturating_mul u64_max (len input) 4) (flate_program input).
