(* ===== verification/DecodeStream.v ===== *)
(** * Decoding a bound stream ([pdf-rs/filters/src/decode.rs], [model.rs])

    [decode_stream] runs the layers of the plan one after the other under a
    single budget and seals the result with its attestation. *)

From stdpp Require Import base list numbers option.
From S2P Require Import Prelude.
From S2P Require Import SourceTypes.
From S2P Require Import FilterTypes.
From S2P Require Import DecodeBudget.
From S2P Require Import OutputProgram.
From S2P Require Import AsciiFilters.
From S2P Require Import Predictor.
From S2P Require Import Flate.

Record DecodeAttestation := {
  at_snapshot : SourceSnapshot;
  at_source_identity : SourceIdentity;
  at_owner : ObjectRef;
  at_dictionary_span : ByteSpan;
  at_encoded_span : ByteSpan;
  at_encoded : ByteSlice;
  at_plan : FilterPlan;
  at_profile : DecodeProfile;
  at_limits : DecodeLimits;
  at_fuel_schedule : DecodeFuelScheduleVersion;
  at_fuel_consumed : Z;
  at_cumulative_output_bytes : Z;
  at_peak_retained_capacity_bytes : Z;
  at_plan_retained_heap_bytes : Z;
  at_decoded_length : Z
}.

Record DecodedStream := {
  decoded_bytes : list Z;
  decoded_attestation : DecodeAttestation
}.

Section decode.
Context `{DecodeRuntime}.

Definition decode_layer (filter : StreamFilter) (input : list Z)
    (input_capacity : Z) (is_final : bool) (filter_index : Z)
    : M DecodeBudget DecodeError ByteVec :=
  match filter with
  | FlateDecode => decode_flate input input_capacity is_final filter_index
  | AsciiHexDecode => decode_ascii_hex input input_capacity is_final filter_index
  | Ascii85Decode => decode_ascii85 input input_capacity is_final filter_index
  | RunLengthDecode => decode_run_length input input_capacity is_final filter_index
  end.

(** The parameters of a stage's predictor, unless it is the identity. *)
Definition applied_predictor (stage : FilterStage) : option PredictorParameters :=
  match stage_parameters stage with
  | Predictor parameters =>
      if predictor parameters =? 1 then None else Some parameters
  | NoParameters => None
  end.

(** One iteration over the stages: the setup charge, the filter, and the
    predictor when it applies. *)
Definition decode_stage (encoded : list Z) (stage : FilterStage) (index : Z)
    (is_final : bool) (current : option ByteVec) : M DecodeBudget DecodeError ByteVec :=
  charge_setup (Some index);;
  let '(input, input_capacity) :=
    match current with
    | Some bytes => (vec_bytes bytes, vec_capacity bytes)
    | None => (encoded, 0)
    end in
  let applies_predictor := bool_decide (is_Some (applied_predictor stage)) in
  output ← decode_layer (stage_filter stage) input input_capacity
    (is_final && negb applies_predictor) index;
  match applied_predictor stage with
  | Some parameters =>
      decode_predictor (vec_bytes output) (vec_capacity output) is_final index
        parameters
  | None => mret output
  end.

Fixpoint decode_stages (encoded : list Z) (count : Z) (index : Z)
    (stages : list FilterStage) (current : option ByteVec)
    : M DecodeBudget DecodeError (option ByteVec) :=
  match stages with
  | [] => mret current
  | stage :: stages =>
      output ← decode_stage encoded stage index (index + 1 =? count) current;
      decode_stages encoded count (index + 1) stages (Some output)
  end.

Definition decode_plan (encoded : list Z) (plan : FilterPlan)
    : M DecodeBudget DecodeError ByteVec :=
  if plan_len plan =? 0 then
    charge_setup None;;
    decode_identity encoded
  else
    current ← decode_stages encoded (plan_len plan) 0 (plan_stages plan) None;
    ok_or current (for_code InternalState None).

(** [cancellation.is_cancelled()] at entry is the runtime's first probe. *)
Definition decode_stream (request : DecodeRequest)
    : result DecodeError DecodedStream :=
  fail_if (is_cancelled 0) (for_code Cancelled None);;
  let encoded := slice_bytes (rq_encoded request) in
  let plan := rq_plan request in
  let limits := rq_limits request in
  input_len ← require (try_from u64_max (len encoded)) (for_code InternalState None);
  fail_if (max_input_bytes limits <? input_len)
    (resource InputBytes (max_input_bytes limits) 0 input_len None);;
  filter_count ← require (try_from u64_max (plan_len plan)) (for_code InternalState None);
  fail_if (max_filters limits <? filter_count)
    (resource FilterCount (max_filters limits) 0 filter_count None);;
  plan_retained_heap_bytes ← validate_retained_heap_limit plan (max_filters limits);
  let schedule := fuel_schedule (rq_profile request) in
  match decode_plan encoded plan (DecodeBudget_new limits schedule 1) with
  | (_, Err e) => Err e
  | (budget, Ok decoded) =>
      decoded_length ← require (try_from u64_max (len (vec_bytes decoded)))
        (for_code InternalState None);
      mret {|
        decoded_bytes := vec_bytes decoded;
        decoded_attestation := {|
          at_snapshot := rq_snapshot request;
          at_source_identity := snapshot_identity (rq_snapshot request);
          at_owner := rq_owner request;
          at_dictionary_span := rq_dictionary_span request;
          at_encoded_span := rq_encoded_span request;
          at_encoded := rq_encoded request;
          at_plan := plan;
          at_profile := rq_profile request;
          at_limits := limits;
          at_fuel_schedule := schedule;
          at_fuel_consumed := fuel_consumed budget;
          at_cumulative_output_bytes := cumulative_output_bytes budget;
          at_peak_retained_capacity_bytes := peak_retained_capacity_bytes budget;
          at_plan_retained_heap_bytes := plan_retained_heap_bytes;
          at_decoded_length := decoded_length |} |}
  end.
End decode.
