(* ===== verification/StreamSpec.v ===== *)
(** * What a layer and a plan of layers guarantee

    [decode_plan] is the sequence of the layers of the plan; [denote_layers] is
    that sequence without limits. A run of the plan under a budget refines it. *)

From stdpp Require Import base list numbers option.
From S2P Require Import Prelude.
From S2P Require Import SourceTypes.
From S2P Require Import FilterTypes.
From S2P Require Import DecodeBudget.
From S2P Require Import DecodeBudgetSpec.
From S2P Require Import OutputProgram.
From S2P Require Import AsciiFilters.
From S2P Require Import Predictor.
From S2P Require Import Flate.
From S2P Require Import DecodeStream.

(** ** One layer *)

Section layer.
Context `{DecodeRuntime}.
Implicit Types b : DecodeBudget.

Lemma buffer_ok_new input_capacity is_final fi hint b :
  budget_ok b → 0 ≤ input_capacity ≤ peak_retained_capacity_bytes b → 0 ≤ hint →
  buffer_ok (OutputBuffer_new input_capacity is_final fi hint b).
Proof.
  intros Hb Hin Hhint. pose proof Hb as [Hl Hf Hm Hp Ht Hk].
  pose proof usize_large.
  destruct Hl. split; simpl; try done; try lia.
Qed.

(** Why a layer that holds [input_capacity] bytes of input and produces [n] bytes, the
    last of [total] bytes of the plan so far, stops under a limit with the budget [b']:
    the limit is smaller than what the layer needs, or the allocator gave more to a full
    vector than the limit, or nothing. *)
Inductive output_refused (b' : DecodeBudget) (input_capacity : Z) (is_final : bool)
    (fi : option Z) (n total : Z) : DecodeError → Prop :=
| refused_layer :
    let limit := max_layer_output_bytes (db_limits b') in
    limit < n →
    output_refused b' input_capacity is_final fi n total
      (resource LayerOutputBytes limit limit (limit + 1) fi)
| refused_total :
    let limit := max_total_output_bytes (db_limits b') in
    limit < total →
    output_refused b' input_capacity is_final fi n total
      (resource TotalOutputBytes limit limit (limit + 1) fi)
| refused_final :
    let limit := max_final_output_bytes (db_limits b') in
    is_final = true → limit < n →
    output_refused b' input_capacity is_final fi n total
      (resource FinalOutputBytes limit limit (limit + 1) fi)
| refused_retained :
    let limit := max_retained_capacity_bytes (db_limits b') in
    limit < input_capacity + n →
    output_refused b' input_capacity is_final fi n total
      (resource RetainedCapacityBytes limit limit (limit + 1) fi)
| refused_overallocation k produced additional capacity :
    let limit := max_retained_capacity_bytes (db_limits b') in
    db_reservations b' = S k → 0 ≤ produced < n → 1 ≤ additional →
    input_capacity + produced + additional ≤ limit →
    try_reserve_exact k produced produced additional = Some capacity →
    limit < saturating_add usize_max input_capacity capacity →
    output_refused b' input_capacity is_final fi n total
      (resource RetainedCapacityBytes limit (input_capacity + produced)
         (saturating_add usize_max input_capacity capacity) fi)
| refused_allocation k produced additional :
    let limit := max_retained_capacity_bytes (db_limits b') in
    db_reservations b' = S k → 0 ≤ produced < n → 1 ≤ additional →
    input_capacity + produced + additional ≤ limit →
    try_reserve_exact k produced produced additional = None →
    output_refused b' input_capacity is_final fi n total
      (resource Allocation limit (input_capacity + produced)
         (input_capacity + produced + additional) fi).

Lemma output_stopped_refused o o' n e :
  buffer_later o o' → layer_output_bytes o' = len (ob_bytes o') →
  layer_output_bytes o = 0 → len (ob_bytes o') < n → output_stopped o' e →
  output_refused (ob_budget o') (ob_input_capacity o) (ob_is_final o) (ob_filter_index o)
    n (cumulative_output_bytes (ob_budget o) + n) e.
Proof.
  intros [Hin Hfin Hi _ _ Htot] Hlay Hzero Hn Hstop. rewrite <-Hin, <-Hfin, <-Hi.
  destruct Hstop.
  - apply refused_layer. lia.
  - apply refused_total. lia.
  - apply refused_final; [done|lia].
  - apply refused_retained. lia.
  - by eapply refused_overallocation; [done|lia|..].
  - by eapply refused_allocation; [done|lia|..].
Qed.

(** What a run of the layer [p] from the budget [b] may end in. *)
Definition layer_spec (input_capacity : Z) (is_final : bool) (fi : option Z)
    (p : prog unit) b b' (r : result DecodeError ByteVec) : Prop :=
  budget_ok b' ∧ budget_later b b' ∧
  match r with
  | Ok bytes =>
      denote (db_schedule b) p [] =
        {| mn_fuel := fuel_consumed b' - fuel_consumed b;
           mn_output := vec_bytes bytes; mn_result := Ok tt |} ∧
      cumulative_output_bytes b' = cumulative_output_bytes b + len (vec_bytes bytes) ∧
      not_cancelled (db_probes b) (db_probes b') ∧
      len (vec_bytes bytes) ≤ max_layer_output_bytes (db_limits b) ∧
      (is_final = true → len (vec_bytes bytes) ≤ max_final_output_bytes (db_limits b)) ∧
      len (vec_bytes bytes) ≤ vec_capacity bytes ∧
      (vec_capacity bytes = 0 ∨
       input_capacity + vec_capacity bytes ≤ peak_retained_capacity_bytes b')
  | Err e =>
      let m := denote (db_schedule b) p [] in
      charge_stopped b' (db_probes b) (fuel_consumed b + mn_fuel m) fi e ∨
      output_refused b' input_capacity is_final fi (len (mn_output m))
        (cumulative_output_bytes b + len (mn_output m)) e ∨
      ∃ code, mn_result m = Err code ∧ e = for_code code fi
  end.

Lemma run_layer_sound input_capacity is_final fi hint p b b' r :
  budget_ok b → 0 ≤ input_capacity ≤ peak_retained_capacity_bytes b → 0 ≤ hint →
  run_layer input_capacity is_final fi hint p b = (b', r) →
  layer_spec input_capacity is_final fi p b b' r.
Proof.
  intros Hb Hin Hhint Hrun.
  pose proof (buffer_ok_new input_capacity is_final fi hint b Hb Hin Hhint) as Hok.
  unfold run_layer in Hrun.
  destruct (exec p _) as [o' r'] eqn:Hexec. simplify_eq.
  apply exec_sound in Hexec as (Hb'&Hlater&Hr); [|done].
  split; [done|]. split; [apply (bl_budget _ _ Hlater)|].
  destruct r' as [[]|e]; simpl in Hr |- *; swap 1 2.
  { destruct Hr as [[Hc|(Hn&Hlay&Hs)]|Hcode]; [left|right; left|by right; right].
    - by rewrite (bl_index _ _ Hlater) in Hc.
    - by apply (output_stopped_refused _ _ _ _ Hlater Hlay eq_refl Hn). }
  destruct Hr as (Hok'&Hden&Hcan). destruct Hok' as [_ Hlay Hcap Hlm Hfm _ _ _ Hret].
  destruct Hlater as [Hin' Hfin' _ _ [Hlims _ _ _ _ _] Htot].
  rewrite Hlay in Htot. rewrite Hlims, ?Hin', ?Hfin' in *. simpl in *.
  split_and!; try done; lia.
Qed.
End layer.

(** ** The layers of a plan *)

Record layer := {
  layer_index : option Z;
  (** The stage is charged its setup before this layer. *)
  layer_setup : bool;
  layer_is_final : bool;
  layer_hint : list Z → Z;
  layer_program : list Z → prog unit
}.

Definition filter_program `{Platform} (filter : StreamFilter) (input : list Z)
    : prog unit :=
  match filter with
  | FlateDecode => flate_program input
  | AsciiHexDecode => ascii_hex_program input
  | Ascii85Decode => ascii85_program input
  | RunLengthDecode => run_length_program input
  end.

Definition filter_hint (filter : StreamFilter) (input : list Z) : Z :=
  match filter with
  | FlateDecode => saturating_mul u64_max (len input) 4
  | AsciiHexDecode => saturating_add u64_max (len input) 1 / 2
  | Ascii85Decode => saturating_add u64_max (saturating_mul u64_max (len input) 4 / 5) 4
  | RunLengthDecode => saturating_mul u64_max (len input) 128
  end.

Definition predictor_program `{Platform} (parameters : PredictorParameters)
    (input : list Z) : prog unit :=
  if predictor parameters =? 2 then tiff_program parameters input
  else if 10 <=? predictor parameters then png_program parameters input
  else Stop InternalState.

Definition stage_layers `{Platform} (index : Z) (is_final : bool) (stage : FilterStage)
    : list layer :=
  let filter is_final :=
    {| layer_index := Some index; layer_setup := true; layer_is_final := is_final;
       layer_hint := filter_hint (stage_filter stage);
       layer_program := filter_program (stage_filter stage) |} in
  match applied_predictor stage with
  | None => [filter is_final]
  | Some parameters =>
      [filter false;
       {| layer_index := Some index; layer_setup := false; layer_is_final := is_final;
          layer_hint := λ input, len input;
          layer_program := predictor_program parameters |}]
  end.

Fixpoint stages_layers `{Platform} (count index : Z) (stages : list FilterStage)
    : list layer :=
  match stages with
  | [] => []
  | stage :: stages =>
      stage_layers index (index + 1 =? count) stage
      ++ stages_layers count (index + 1) stages
  end.

Definition identity_layer : layer :=
  {| layer_index := None; layer_setup := true; layer_is_final := true;
     layer_hint := λ input, len input; layer_program := identity_program |}.

(** An empty plan has the internal identity layer. *)
Definition plan_layers `{Platform} (plan : FilterPlan) : list layer :=
  if plan_len plan =? 0 then [identity_layer]
  else stages_layers (plan_len plan) 0 (plan_stages plan).

(** ** Running the layers *)

Section run_layers.
Context `{DecodeRuntime}.
Implicit Types b : DecodeBudget.

Definition run_one (l : layer) (input : ByteVec) : M DecodeBudget DecodeError ByteVec :=
  when (layer_setup l) (charge_setup (layer_index l));;
  run_layer (vec_capacity input) (layer_is_final l) (layer_index l)
    (layer_hint l (vec_bytes input)) (layer_program l (vec_bytes input)).

Fixpoint run_layers (layers : list layer) (input : ByteVec)
    : M DecodeBudget DecodeError ByteVec :=
  match layers with
  | [] => mret input
  | l :: layers => output ← run_one l input; run_layers layers output
  end.

Lemma run_layers_app k l input b :
  run_layers (k ++ l) input b = (run_layers k input ≫= run_layers l) b.
Proof.
  revert input b. induction k as [|x k IH]; intros input b; [done|].
  cbn [run_layers app]. unfold mbind, M_bind.
  destruct (run_one x input b) as [b1 [v|e]]; [|done]. apply IH.
Qed.

Lemma decode_layer_run filter input capacity is_final index :
  decode_layer filter input capacity is_final index =
  run_layer capacity is_final (Some index) (filter_hint filter input)
    (filter_program filter input).
Proof. by destruct filter. Qed.

Lemma decode_predictor_run input capacity is_final index parameters b :
  decode_predictor input capacity is_final index parameters b =
  run_layer capacity is_final (Some index) (len input)
    (predictor_program parameters input) b.
Proof.
  unfold decode_predictor, predictor_program.
  destruct (_ =? _); [done|]. by destruct (_ <=? _).
Qed.

Definition current_or (encoded : list Z) (current : option ByteVec) : ByteVec :=
  default {| vec_bytes := encoded; vec_capacity := 0 |} current.

Lemma decode_stage_run encoded stage index is_final current b :
  decode_stage encoded stage index is_final current b =
  run_layers (stage_layers index is_final stage) (current_or encoded current) b.
Proof.
  unfold decode_stage, stage_layers.
  destruct (applied_predictor stage) as [parameters|];
    rewrite ?(bool_decide_eq_true_2 (is_Some (Some _))) by eauto;
    rewrite ?(bool_decide_eq_false_2 (is_Some None)) by (by intros []);
    cbn [negb andb]; rewrite ?andb_false_r, ?andb_true_r;
    unfold run_layers, run_one; cbn [layer_setup layer_index layer_is_final
      layer_hint layer_program when];
    unfold mbind, M_bind; destruct (charge_setup (Some index) b) as [b1 [[]|e]]; try done;
    destruct current as [v|]; cbn [current_or default from_option id vec_bytes vec_capacity];
    rewrite decode_layer_run; try done.
  all: match goal with |- (let (_, _) := ?r in _) = _ => destruct r as [b2 [w|e]] end;
    [|done].
  all: rewrite decode_predictor_run; cbn [mret M_ret].
  all: by match goal with |- ?r = _ => destruct r as [b3 [x|e]] end.
Qed.

Lemma decode_stages_run encoded count index stages current b :
  stages ≠ [] →
  decode_stages encoded count index stages current b =
  (v ← run_layers (stages_layers count index stages) (current_or encoded current);
   mret (Some v)) b.
Proof.
  revert index current b. induction stages as [|stage stages IH];
    intros index current b Hne; [done|].
  cbn [decode_stages stages_layers]. unfold mbind at 1, M_bind.
  unfold mbind, M_bind. rewrite run_layers_app, decode_stage_run.
  unfold mbind, M_bind.
  destruct (run_layers (stage_layers index _ stage) _ b) as [b1 [v|e]]; [|done].
  destruct (decide (stages = [])) as [->|Hs]; [done|]. rewrite IH by done. done.
Qed.

(** The two vectors of a plan have the same length. *)
Definition plan_ok (plan : FilterPlan) : Prop :=
  plan_filters plan = stage_filter <$> plan_stages plan.

Lemma decode_plan_run encoded plan b :
  plan_ok plan →
  decode_plan encoded plan b =
  run_layers (plan_layers plan) {| vec_bytes := encoded; vec_capacity := 0 |} b.
Proof.
  intros Hok. unfold decode_plan, plan_layers, plan_len.
  destruct (_ =? 0) eqn:Hlen; checked_facts.
  - cbn [run_layers]. unfold run_one, identity_layer, mbind, M_bind. simpl.
    destruct (charge_setup None b) as [b1 [[]|e]]; try done.
    unfold decode_identity. by destruct (run_layer _ _ _ _ _ b1) as [b2 [v|e]].
  - assert (plan_stages plan ≠ []) as Hne.
    { intros Hs. rewrite Hok, Hs in Hlen. done. }
    unfold mbind at 1, M_bind. rewrite decode_stages_run by done. unfold mbind, M_bind.
    by destruct (run_layers _ _ b) as [b1 [v|e]].
Qed.
End run_layers.

(** ** The meaning of a sequence of layers *)

(** Fuel used, length of every layer's output, and the bytes, or the code and
    the filter index of the layer that rejects its input. *)
Record stream_meaning := {
  sm_fuel : Z;
  sm_outputs : list Z;
  sm_result : result (DecodeErrorCode * option Z) (list Z)
}.

Definition sm_total (m : stream_meaning) : Z := foldr Z.add 0 (sm_outputs m).

Definition setup_fuel (v : DecodeFuelScheduleVersion) (l : layer) : Z :=
  if layer_setup l then layer_setup_cost v else 0.

Fixpoint denote_layers (v : DecodeFuelScheduleVersion) (layers : list layer)
    (input : list Z) : stream_meaning :=
  match layers with
  | [] => {| sm_fuel := 0; sm_outputs := []; sm_result := Ok input |}
  | l :: layers =>
      let m := denote v (layer_program l input) [] in
      let fuel := setup_fuel v l + mn_fuel m in
      match mn_result m with
      | Err code =>
          {| sm_fuel := fuel; sm_outputs := [len (mn_output m)];
             sm_result := Err (code, layer_index l) |}
      | Ok _ =>
          let rest := denote_layers v layers (mn_output m) in
          {| sm_fuel := fuel + sm_fuel rest;
             sm_outputs := len (mn_output m) :: sm_outputs rest;
             sm_result := sm_result rest |}
      end
  end.

(** The capacities the layers need, over-allocation included. *)
Fixpoint layers_fit (v : DecodeFuelScheduleVersion) (limits : DecodeLimits)
    (layers : list layer) (input : list Z) (input_capacity : Z) : Prop :=
  match layers with
  | [] => True
  | l :: layers =>
      let m := denote v (layer_program l input) [] in
      let n := len (mn_output m) in
      n ≤ max_layer_output_bytes limits ∧
      (layer_is_final l = true → n ≤ max_final_output_bytes limits) ∧
      input_capacity + n ≤ max_retained_capacity_bytes limits ∧
      layers_fit v limits layers (mn_output m) (Z.max INITIAL_OUTPUT_RESERVE (2 * n))
  end.

Definition hints_ok (layers : list layer) : Prop :=
  Forall (λ l, ∀ input, 0 ≤ layer_hint l input) layers.

Lemma denote_layers_nonneg v layers input :
  0 ≤ sm_fuel (denote_layers v layers input) ∧
  0 ≤ sm_total (denote_layers v layers input).
Proof.
  revert input. induction layers as [|l layers IH]; intros input; cbn [denote_layers];
    [done|]. unfold setup_fuel, sm_total in *.
  pose proof (denote_fuel_nonneg v (layer_program l input) []).
  specialize (IH (mn_output (denote v (layer_program l input) []))).
  assert (0 ≤ layer_setup_cost v) by (by destruct v).
  destruct (mn_result _); cbn [sm_fuel sm_outputs foldr]; case_match; lia.
Qed.

Section layers_spec.
Context `{DecodeRuntime}.
Implicit Types b : DecodeBudget.

(** Why a run of the layers from [b] stops in one of them with [b']: up to the end of
    that layer the plan needs more fuel, output or retained bytes than allowed, or a
    probe answered "cancelled", or the allocator refused. *)
Definition stopped_at (layers : list layer) (input : ByteVec) b b' (e : DecodeError) : Prop :=
  ∃ j l n c,
    layers !! j = Some l ∧
    sm_outputs (denote_layers (db_schedule b) layers (vec_bytes input)) !! j = Some n ∧
    0 ≤ c ≤ peak_retained_capacity_bytes b' ∧ (j = 0%nat → c = vec_capacity input) ∧
    let m := denote_layers (db_schedule b) (take (S j) layers) (vec_bytes input) in
    (charge_stopped b' (db_probes b) (fuel_consumed b + sm_fuel m) (layer_index l) e ∨
     output_refused b' c (layer_is_final l) (layer_index l) n
       (cumulative_output_bytes b + sm_total m) e).

Definition layers_spec (layers : list layer) (input : ByteVec) b b'
    (r : result DecodeError ByteVec) : Prop :=
  budget_ok b' ∧ budget_later b b' ∧
  let m := denote_layers (db_schedule b) layers (vec_bytes input) in
  match r with
  | Ok bytes =>
      sm_fuel m = fuel_consumed b' - fuel_consumed b ∧
      sm_total m = cumulative_output_bytes b' - cumulative_output_bytes b ∧
      sm_result m = Ok (vec_bytes bytes) ∧
      Forall (λ n, n ≤ max_layer_output_bytes (db_limits b)) (sm_outputs m) ∧
      (∀ l, list.last layers = Some l → layer_is_final l = true →
        len (vec_bytes bytes) ≤ max_final_output_bytes (db_limits b)) ∧
      not_cancelled (db_probes b) (db_probes b')
  | Err e => stopped_at layers input b b' e ∨
      ∃ code i, sm_result m = Err (code, i) ∧ e = for_code code i
  end.

(** The setup charge, then the layer. *)
Definition one_spec (l : layer) (input : ByteVec) b b'
    (r : result DecodeError ByteVec) : Prop :=
  budget_ok b' ∧ budget_later b b' ∧
  let m := denote (db_schedule b) (layer_program l (vec_bytes input)) [] in
  match r with
  | Ok bytes =>
      fuel_consumed b' - fuel_consumed b = setup_fuel (db_schedule b) l + mn_fuel m ∧
      mn_output m = vec_bytes bytes ∧ mn_result m = Ok tt ∧
      cumulative_output_bytes b' = cumulative_output_bytes b + len (vec_bytes bytes) ∧
      not_cancelled (db_probes b) (db_probes b') ∧
      len (vec_bytes bytes) ≤ max_layer_output_bytes (db_limits b) ∧
      (layer_is_final l = true →
        len (vec_bytes bytes) ≤ max_final_output_bytes (db_limits b)) ∧
      0 ≤ vec_capacity bytes ≤ peak_retained_capacity_bytes b'
  | Err e =>
      charge_stopped b' (db_probes b)
        (fuel_consumed b + setup_fuel (db_schedule b) l + mn_fuel m) (layer_index l) e ∨
      output_refused b' (vec_capacity input) (layer_is_final l) (layer_index l)
        (len (mn_output m)) (cumulative_output_bytes b + len (mn_output m)) e ∨
      ∃ code, mn_result m = Err code ∧ e = for_code code (layer_index l)
  end.

Lemma not_cancelled_trans p q r :
  not_cancelled p q → not_cancelled q r → not_cancelled p r.
Proof. intros H1 H2 k Hk. destruct (decide (k < q)%nat); [apply H1|apply H2]; lia. Qed.

Lemma one_spec_of_layer l input b b1 b' r :
  0 ≤ vec_capacity input →
  budget_later b b1 → cumulative_output_bytes b1 = cumulative_output_bytes b →
  fuel_consumed b1 = fuel_consumed b + setup_fuel (db_schedule b) l →
  not_cancelled (db_probes b) (db_probes b1) →
  layer_spec (vec_capacity input) (layer_is_final l) (layer_index l)
    (layer_program l (vec_bytes input)) b1 b' r →
  one_spec l input b b' r.
Proof.
  intros Hcap0 Hl Hcum Hfuel Hcan (Hb'&Hl'&Hr). split; [done|]. split; [by etrans|].
  pose proof (lt_limits _ _ Hl) as Hlims. pose proof (lt_schedule _ _ Hl) as Hs.
  rewrite Hlims, Hs in Hr. cbv zeta. destruct r as [bytes|e].
  - destruct Hr as (->&Hc&Hcan'&Hlay&Hfin&Hcap&Hpk). simpl.
    pose proof (bk_peak _ Hb').
    split_and!; try done; [lia|lia|by eapply not_cancelled_trans|lia|].
    destruct Hpk; lia.
  - rewrite <-Hfuel, <-Hcum. destruct Hr as [Hi|?]; [left|by right].
    eapply charge_stopped_later; [apply (lt_probes _ _ Hl)|reflexivity|done].
Qed.

Lemma run_one_sound l input b b' r :
  budget_ok b → 0 ≤ vec_capacity input ≤ peak_retained_capacity_bytes b →
  (∀ i, 0 ≤ layer_hint l i) →
  run_one l input b = (b', r) → one_spec l input b b' r.
Proof.
  intros Hb Hcap Hhint Hrun. unfold run_one in Hrun.
  destruct (layer_setup l) eqn:Hsetup; cbn [when] in Hrun.
  - destruct (charge_setup (layer_index l) b) as [b1 rc] eqn:Hc.
    pose proof Hc as Hspec. unfold charge_setup in Hspec.
    erewrite bind_ok in Hspec by reflexivity.
    apply charge_fuel_spec in Hspec as (Hb1&Hl1&Hcum&Hpk&_&Hrc);
      [|by destruct (db_schedule b)|done].
    destruct rc as [[]|e]; simplify_eq.
    + erewrite bind_ok in Hrun by done. destruct Hrc as [Hfuel Hcan].
      apply run_layer_sound in Hrun; [|done|by rewrite Hpk|done].
      apply (one_spec_of_layer l input b b1); try done; [lia|].
      unfold setup_fuel. by rewrite Hsetup.
    + erewrite bind_err in Hrun by done. simplify_eq.
      split; [done|]. split; [done|]. left. unfold setup_fuel. rewrite Hsetup.
      eapply charge_stopped_later; [reflexivity| |done].
      pose proof (denote_fuel_nonneg (db_schedule b) (layer_program l (vec_bytes input)) []).
      lia.
  - erewrite bind_ok in Hrun by reflexivity.
    apply run_layer_sound in Hrun; [|done..].
    apply (one_spec_of_layer l input b b); try done; [lia|..].
    + unfold setup_fuel. rewrite Hsetup. lia.
    + intros k Hk. lia.
Qed.

Lemma last_cons_ne {A} (x : A) l : l ≠ [] → list.last (x :: l) = list.last l.
Proof. by destruct l. Qed.

Lemma stopped_at_code layers input b b' e :
  stopped_at layers input b b' e → error_code e = Cancelled ∨ error_code e = ResourceLimit.
Proof.
  intros (j&l&n&c&_&_&_&_&[Hs|Hs]); [by eapply charge_stopped_code|].
  right. by destruct Hs.
Qed.

(** A stop in the first layer, and in a later one. *)
Lemma stopped_at_first l layers input b b' e :
  let m := denote (db_schedule b) (layer_program l (vec_bytes input)) [] in
  0 ≤ vec_capacity input ≤ peak_retained_capacity_bytes b' →
  charge_stopped b' (db_probes b)
    (fuel_consumed b + setup_fuel (db_schedule b) l + mn_fuel m) (layer_index l) e ∨
  output_refused b' (vec_capacity input) (layer_is_final l) (layer_index l)
    (len (mn_output m)) (cumulative_output_bytes b + len (mn_output m)) e →
  stopped_at (l :: layers) input b b' e.
Proof.
  intros m Hcap Hstop. exists 0%nat, l, (len (mn_output m)), (vec_capacity input).
  unfold sm_total. cbn [take denote_layers]. fold m.
  split; [done|]. split; [by destruct (mn_result m)|]. split; [done|]. split; [done|].
  destruct (mn_result m); cbn [sm_fuel sm_outputs foldr];
    rewrite ?Z.add_0_r, ?Z.add_assoc; exact Hstop.
Qed.

Lemma stopped_at_later l layers input b b1 bytes b' e :
  let m := denote (db_schedule b) (layer_program l (vec_bytes input)) [] in
  mn_result m = Ok tt → mn_output m = vec_bytes bytes → budget_later b b1 →
  fuel_consumed b1 - fuel_consumed b = setup_fuel (db_schedule b) l + mn_fuel m →
  cumulative_output_bytes b1 = cumulative_output_bytes b + len (vec_bytes bytes) →
  stopped_at layers bytes b1 b' e → stopped_at (l :: layers) input b b' e.
Proof.
  intros m Hres Hout Hl Hfuel Hcum (j&x&n&c&Hx&Hn&Hc&_&Hstop).
  exists (S j), x, n, c. unfold sm_total in *. rewrite (lt_schedule _ _ Hl) in *.
  rewrite (firstn_cons (S j)). cbn [denote_layers]. fold m. rewrite Hres, Hout.
  cbn [sm_fuel sm_outputs foldr].
  split; [done|]. split; [done|]. split; [done|]. split; [done|]. cbv zeta in Hstop.
  destruct Hstop as [Hs|Hs]; [left|right].
  - eapply charge_stopped_later; [apply (lt_probes _ _ Hl)| |exact Hs]. lia.
  - by rewrite Z.add_assoc, <-Hcum.
Qed.

(** Soundness of a whole plan. *)
Lemma run_layers_sound layers input b b' r :
  hints_ok layers → budget_ok b → 0 ≤ vec_capacity input ≤ peak_retained_capacity_bytes b →
  run_layers layers input b = (b', r) → layers_spec layers input b b' r.
Proof.
  revert input b. induction layers as [|l layers IH]; intros input b Hh Hb Hcap Hrun.
  { cbn [run_layers] in Hrun. minv Hrun. unfold layers_spec, sm_total. simpl.
    split_and!; try done; try lia. intros k Hk. lia. }
  apply Forall_cons_1 in Hh as [Hl Hh]. cbn [run_layers] in Hrun.
  destruct (run_one l input b) as [b1 [bytes|e]] eqn:Hone;
    pose proof Hone as (Hb1&Hl1&Hr1)%run_one_sound; try done; cbv zeta in Hr1.
  - erewrite bind_ok in Hrun by done.
    destruct Hr1 as (Hfuel&Hout&Hres&Hcum&Hcan&Hlay&Hfin&Hcap1).
    apply IH in Hrun as (Hb'&Hl'&Hr); [|done..]. cbv zeta in Hr.
    split; [done|]. split; [by etrans|]. cbn [denote_layers]. rewrite Hres, Hout.
    rewrite (lt_schedule _ _ Hl1), (lt_limits _ _ Hl1) in Hr. unfold sm_total in *.
    cbn [sm_fuel sm_outputs sm_result foldr].
    destruct r as [out|e].
    + destruct Hr as (Hf&Ht&Hr&Hall&Hlast&Hcan'). split_and!; try done; try lia.
      * by constructor.
      * intros l' Hl'' Hfinal. destruct (decide (layers = [])) as [->|Hne].
        { simpl in Hl'', Hr. simplify_eq. by rewrite <-Hr in *; apply Hfin. }
        rewrite last_cons_ne in Hl'' by done. by eapply Hlast.
      * by eapply not_cancelled_trans.
    + destruct Hr as [Hr|?]; [left|by right]. by eapply stopped_at_later.
  - erewrite bind_err in Hrun by done. simplify_eq.
    split; [done|]. split; [done|].
    destruct Hr1 as [Hc|[Hc|(code&Hres&->)]];
      [left; apply stopped_at_first; [pose proof (lt_peak _ _ Hl1); lia|by auto]..|right].
    exists code. exists (layer_index l). cbn [denote_layers]. by rewrite Hres.
Qed.

(** Completeness of one layer. *)
Lemma run_layer_complete input_capacity is_final fi hint p b :
  quiet → budget_ok b → 0 ≤ input_capacity ≤ peak_retained_capacity_bytes b → 0 ≤ hint →
  let m := denote (db_schedule b) p [] in
  fuel_consumed b + mn_fuel m ≤ max_fuel (db_limits b) →
  cumulative_output_bytes b + len (mn_output m) ≤ max_total_output_bytes (db_limits b) →
  len (mn_output m) ≤ max_layer_output_bytes (db_limits b) →
  (is_final = true → len (mn_output m) ≤ max_final_output_bytes (db_limits b)) →
  input_capacity + len (mn_output m) ≤ max_retained_capacity_bytes (db_limits b) →
  mn_result m = Ok tt →
  ∃ b' bytes, run_layer input_capacity is_final fi hint p b = (b', Ok bytes) ∧
    vec_bytes bytes = mn_output m ∧
    vec_capacity bytes ≤ Z.max INITIAL_OUTPUT_RESERVE (2 * len (mn_output m)).
Proof.
  intros Hq Hb Hin Hhint m Hfuel Htot Hlay Hfin Hret Hres. subst m.
  set (o := OutputBuffer_new input_capacity is_final fi hint b).
  assert (buffer_ok o) as Hok by (by apply buffer_ok_new).
  pose proof (exec_complete p o Hq Hok) as Hexec.
  change (ob_bytes o) with (@nil Z) in Hexec.
  change (schedule_of o) with (db_schedule b) in Hexec.
  destruct Hexec as [o' Hexec].
  { split; simpl; [lia..| |lia]. intros Hf. specialize (Hfin Hf). lia. }
  rewrite Hres in Hexec. cbn [meant] in Hexec.
  pose proof Hexec as Hspec. apply exec_sound in Hspec as (_&_&_&Hden&_); [|done].
  change (ob_bytes o) with (@nil Z) in Hden.
  change (schedule_of o) with (db_schedule b) in Hden.
  apply exec_tight in Hexec as Htight; [|done|unfold tight, INITIAL_OUTPUT_RESERVE; simpl; lia].
  exists (ob_budget o'), (OutputBuffer_finish o').
  split; [unfold run_layer; fold o; by rewrite Hexec|].
  rewrite Hden. split; [done|exact Htight].
Qed.

Lemma run_one_complete l input b :
  quiet → budget_ok b → 0 ≤ vec_capacity input ≤ peak_retained_capacity_bytes b →
  (∀ i, 0 ≤ layer_hint l i) →
  let m := denote (db_schedule b) (layer_program l (vec_bytes input)) [] in
  fuel_consumed b + setup_fuel (db_schedule b) l + mn_fuel m ≤ max_fuel (db_limits b) →
  cumulative_output_bytes b + len (mn_output m) ≤ max_total_output_bytes (db_limits b) →
  len (mn_output m) ≤ max_layer_output_bytes (db_limits b) →
  (layer_is_final l = true →
    len (mn_output m) ≤ max_final_output_bytes (db_limits b)) →
  vec_capacity input + len (mn_output m) ≤ max_retained_capacity_bytes (db_limits b) →
  mn_result m = Ok tt →
  ∃ b' bytes, run_one l input b = (b', Ok bytes) ∧
    vec_bytes bytes = mn_output m ∧
    vec_capacity bytes ≤ Z.max INITIAL_OUTPUT_RESERVE (2 * len (mn_output m)).
Proof.
  intros Hq Hb Hcap Hhint m Hfuel Htot Hlay Hfin Hret Hres. subst m.
  unfold run_one, setup_fuel in *.
  pose proof (denote_fuel_nonneg (db_schedule b) (layer_program l (vec_bytes input)) []).
  destruct (layer_setup l); cbn [when].
  - destruct (charge_fuel_ok (layer_setup_cost (db_schedule b)) (layer_index l) b)
      as [b1 Hc]; [done|by destruct (db_schedule b)|apply Hq|lia|].
    pose proof Hc as (Hb1&Hl1&Hcum&Hpk&_&Hf&_)%charge_fuel_spec;
      [|by destruct (db_schedule b)|done].
    assert (charge_setup (layer_index l) b = (b1, Ok tt)) as Hs by done.
    erewrite bind_ok by exact Hs.
    rewrite <-(lt_schedule _ _ Hl1), <-(lt_limits _ _ Hl1) in *.
    apply run_layer_complete; try done; lia.
  - erewrite bind_ok by reflexivity. apply run_layer_complete; try done; lia.
Qed.

Lemma layers_fit_mono v limits layers input c c' :
  c' ≤ c → layers_fit v limits layers input c → layers_fit v limits layers input c'.
Proof.
  destruct layers as [|l layers]; [done|]. cbn [layers_fit]. cbv zeta.
  intros Hc (?&?&?&?). split_and!; try done. lia.
Qed.

(** Completeness of a whole plan. *)
Lemma run_layers_complete layers input b out :
  quiet → hints_ok layers → budget_ok b →
  0 ≤ vec_capacity input ≤ peak_retained_capacity_bytes b →
  let m := denote_layers (db_schedule b) layers (vec_bytes input) in
  sm_result m = Ok out →
  fuel_consumed b + sm_fuel m ≤ max_fuel (db_limits b) →
  cumulative_output_bytes b + sm_total m ≤ max_total_output_bytes (db_limits b) →
  layers_fit (db_schedule b) (db_limits b) layers (vec_bytes input) (vec_capacity input) →
  ∃ b' bytes, run_layers layers input b = (b', Ok bytes) ∧ vec_bytes bytes = out.
Proof.
  intros Hq. revert input b. induction layers as [|l layers IH];
    intros input b Hh Hb Hcap m Hres Hfuel Htot Hfit; subst m.
  { simpl in Hres. simplify_eq. by exists b, input. }
  apply Forall_cons_1 in Hh as [Hl Hh]. cbn [run_layers denote_layers layers_fit] in *.
  set (m := denote (db_schedule b) (layer_program l (vec_bytes input)) []) in *.
  destruct Hfit as (Hlay&Hfin&Hret&Hfit). unfold sm_total in *.
  destruct (mn_result m) as [[]|code] eqn:Hm; [|done].
  cbn [sm_fuel sm_outputs sm_result foldr] in *.
  pose proof (denote_layers_nonneg (db_schedule b) layers (mn_output m)) as [Hn1 Hn2].
  unfold sm_total in Hn2.
  destruct (run_one_complete l input b) as (b1&bytes&Hone&Hbytes&Hcap1);
    fold m; [done..|lia|lia|done|done|done|done|].
  fold m in Hbytes, Hcap1. erewrite bind_ok by exact Hone.
  apply run_one_sound in Hone as (Hb1&Hl1&Hf&_&_&Hcum&_&_&_&Hcap0); try done.
  destruct bytes as [vb vc]. cbn [vec_bytes vec_capacity] in *. subst vb.
  apply IH; cbn [vec_bytes vec_capacity];
    rewrite ?(lt_schedule _ _ Hl1), ?(lt_limits _ _ Hl1), ?Hcum; try done; try lia.
  - subst m. lia.
  - eapply layers_fit_mono; [|exact Hfit]. exact Hcap1.
Qed.
End layers_spec.
