(* ===== verification/PredictorSpec.v ===== *)
(** * What the predictors reconstruct

    PNG: the accepted inputs are exactly the filtered images, and the output is
    the image. TIFF: the pass always ends without an internal error. *)

From stdpp Require Import base list numbers option.
From S2P Require Import Prelude.
From S2P Require Import SourceTypes.
From S2P Require Import FilterTypes.
From S2P Require Import DecodeBudget.
From S2P Require Import OutputProgram.
From S2P Require Import AsciiFilters.
From S2P Require Import AsciiSpec.
From S2P Require Import Predictor.

(** ** Parameters and geometry *)

(** What [PredictorParameters::new] accepts. *)
Record parameters_ok (p : PredictorParameters) : Prop := {
  po_predictor : predictor p = 1 ∨ predictor p = 2 ∨ 10 ≤ predictor p;
  po_colors : 0 < colors p ≤ u32_max;
  po_columns : 0 < columns p ≤ u32_max;
  po_bits : bits_per_component p ∈ [1; 2; 4; 8; 16];
  po_row_bits : colors p * columns p * bits_per_component p + 7 ≤ u64_max
}.

Definition geometry_of (p : PredictorParameters) : PredictorGeometry :=
  {| geometry_colors := colors p; samples_per_row := colors p * columns p;
     row_bytes := (colors p * columns p * bits_per_component p + 7) / 8;
     bytes_per_pixel := (colors p * bits_per_component p + 7) / 8 |}.

(** Every field fits [usize]; on a 64-bit target it always does. *)
Definition geometry_fits `{Platform} (p : PredictorParameters) : Prop :=
  colors p * columns p ≤ usize_max ∧
  row_bytes (geometry_of p) + bytes_per_pixel (geometry_of p) ≤ usize_max.

Record geometry_ok `{Platform} (g : PredictorGeometry) : Prop := {
  go_colors : 0 < geometry_colors g ≤ samples_per_row g;
  go_samples : samples_per_row g ≤ usize_max;
  go_row : 0 < row_bytes g ≤ usize_max;
  go_pixel : 0 < bytes_per_pixel g ≤ row_bytes g
}.

Lemma bits_bounds b : b ∈ [1; 2; 4; 8; 16] → 1 ≤ b ≤ 16.
Proof. rewrite !elem_of_cons, elem_of_nil. lia. Qed.

Section geometry.
Context `{Platform}.

Lemma geometry_of_bounds p :
  parameters_ok p →
  0 < colors p ≤ colors p * columns p ∧
  0 < bytes_per_pixel (geometry_of p) ≤ row_bytes (geometry_of p) ∧
  colors p * bits_per_component p ≤ colors p * columns p * bits_per_component p.
Proof.
  intros [_ Hc Hcol Hb Hrow]. apply bits_bounds in Hb. simpl.
  assert (colors p ≤ colors p * columns p) by nia.
  assert (colors p * bits_per_component p ≤ colors p * columns p * bits_per_component p)
    by nia.
  split_and!; try lia; try done.
  - apply Z.div_str_pos. nia.
  - apply Z.div_le_mono; lia.
Qed.

(** A rejected geometry is one that does not fit; an accepted one is the
    geometry of the parameters. *)
Lemma geometry_new_outcome p out :
  parameters_ok p →
  (outcome (PredictorGeometry_new p) out = Ok (geometry_of p, out) ∧
   geometry_ok (geometry_of p)) ∨
  (outcome (PredictorGeometry_new p) out = Err InvalidDecodeParameters ∧
   ¬ geometry_fits p).
Proof.
  intros Hp. pose proof (geometry_of_bounds p Hp) as (Hc&Hpix&Hbits).
  destruct Hp as [_ Hcol Hcols Hb Hrow]. apply bits_bounds in Hb.
  unfold PredictorGeometry_new, geometry_fits.
  assert (0 ≤ colors p * bits_per_component p) by nia.
  assert (colors p * columns p ≤ colors p * columns p * bits_per_component p) by nia.
  rewrite outcome_bind, outcome_need.
  destruct (try_from usize_max (colors p)) as [gc|] eqn:Hgc; [|right; checked_facts; naive_solver lia].
  cbn [mbind result_bind]. rewrite outcome_bind, outcome_need.
  rewrite (proj2 (checked_mul_Some u64_max (colors p) (columns p) _)) by (split; [lia|reflexivity]).
  cbn [mbind result_bind]. rewrite outcome_bind, outcome_need.
  rewrite (proj2 (checked_mul_Some u64_max (colors p * columns p) _ _)) by (split; [lia|reflexivity]).
  cbn [mbind result_bind]. rewrite outcome_bind, outcome_need.
  rewrite (proj2 (checked_add_Some u64_max (colors p * columns p * bits_per_component p) 7 _))
    by (split; [lia|reflexivity]). cbn [mbind option_bind].
  change ((colors p * columns p * bits_per_component p + 7) / 8)
    with (row_bytes (geometry_of p)).
  destruct (try_from usize_max (row_bytes _)) as [rb|] eqn:Hrb; [|right; checked_facts; naive_solver lia].
  cbn [mbind result_bind]. rewrite outcome_bind, outcome_need.
  rewrite (proj2 (checked_mul_Some u64_max (colors p) (bits_per_component p) _))
    by (split; [lia|reflexivity]).
  cbn [mbind result_bind]. rewrite outcome_bind, outcome_need.
  rewrite (proj2 (checked_add_Some u64_max (colors p * bits_per_component p) 7 _))
    by (split; [lia|reflexivity]). cbn [mbind option_bind].
  change ((colors p * bits_per_component p + 7) / 8)
    with (bytes_per_pixel (geometry_of p)).
  checked_facts. subst gc rb.
  rewrite (proj2 (try_from_Some usize_max (bytes_per_pixel _) _)) by (split; [lia|reflexivity]).
  cbn [mbind result_bind]. rewrite outcome_bind, outcome_need.
  destruct (try_from usize_max (colors p * columns p)) as [sp|] eqn:Hsp;
    [|right; checked_facts; naive_solver lia].
  checked_facts. subst sp.
  cbn [mbind result_bind]. rewrite outcome_bind, outcome_stop_if.
  rewrite !(proj2 (Z.eqb_neq _ 0)) by lia. left. split; [done|].
  by split; simpl in *; try lia.
Qed.

Lemma geometry_fits_outcome p out :
  parameters_ok p → geometry_fits p →
  outcome (PredictorGeometry_new p) out = Ok (geometry_of p, out).
Proof. intros Hp Hf. by destruct (geometry_new_outcome p out Hp) as [[? _]|[_ ?]]. Qed.
End geometry.

(** ** PNG rows *)

Section png_rows.
Context (g : PredictorGeometry).

(** The prediction at the end of [cur], the part of the row already known,
    under the row [prev]: zeros outside the image. *)
Definition left_of (cur : list Z) : Z :=
  if bytes_per_pixel g <=? len cur
  then default 0 (cur !! Z.to_nat (len cur - bytes_per_pixel g)) else 0.
Definition above_of (prev cur : list Z) : Z := default 0 (prev !! Z.to_nat (len cur)).
Definition upper_left_of (prev cur : list Z) : Z :=
  if bytes_per_pixel g <=? len cur
  then default 0 (prev !! Z.to_nat (len cur - bytes_per_pixel g)) else 0.
Definition png_predicted (tag : Z) (prev cur : list Z) : Z :=
  default 0 (png_prediction tag (left_of cur) (above_of prev cur) (upper_left_of prev cur)).

(** The encoder of the format, and its inverse on one row. *)
Fixpoint filter_row (tag : Z) (prev cur raw : list Z) : list Z :=
  match raw with
  | [] => []
  | x :: raw => (x - png_predicted tag prev cur) `mod` 256
                :: filter_row tag prev (cur ++ [x]) raw
  end.
Fixpoint unfilter_row (tag : Z) (prev cur encoded : list Z) : list Z :=
  match encoded with
  | [] => []
  | e :: encoded =>
      let x := wrapping_add u8_max e (png_predicted tag prev cur) in
      x :: unfilter_row tag prev (cur ++ [x]) encoded
  end.

Lemma unfilter_filter_row tag prev cur raw :
  are_bytes raw → unfilter_row tag prev cur (filter_row tag prev cur raw) = raw.
Proof.
  revert cur. induction raw as [|x raw IH]; intros cur Hb; [done|].
  apply Forall_cons_1 in Hb as [Hx Hb]. cbn [filter_row unfilter_row]. cbv zeta.
  unfold is_byte, wrapping_add, u8_max in *.
  assert (((x - png_predicted tag prev cur) `mod` 256 + png_predicted tag prev cur)
    `mod` (255 + 1) = x) as ->.
  { change (255 + 1) with 256. rewrite Z.add_mod_idemp_l by lia.
    rewrite Z.sub_add. apply Z.mod_small. lia. }
  by rewrite IH.
Qed.

Lemma filter_unfilter_row tag prev cur encoded :
  are_bytes encoded → filter_row tag prev cur (unfilter_row tag prev cur encoded) = encoded.
Proof.
  revert cur. induction encoded as [|e encoded IH]; intros cur Hb; [done|].
  apply Forall_cons_1 in Hb as [He Hb]. cbn [filter_row unfilter_row]. cbv zeta.
  rewrite IH by done. f_equal. unfold is_byte, wrapping_add, u8_max in *.
  change (255 + 1) with 256. rewrite Zminus_mod_idemp_l, Z.add_simpl_r.
  apply Z.mod_small. lia.
Qed.

Lemma length_unfilter_row tag prev cur encoded :
  length (unfilter_row tag prev cur encoded) = length encoded.
Proof.
  revert cur. induction encoded as [|e encoded IH]; intros cur; [done|].
  cbn [unfilter_row length]. by rewrite IH.
Qed.

Lemma length_filter_row tag prev cur raw :
  length (filter_row tag prev cur raw) = length raw.
Proof.
  revert cur. induction raw as [|x raw IH]; intros cur; [done|].
  cbn [filter_row length]. by rewrite IH.
Qed.

Lemma unfilter_row_bytes tag prev cur encoded :
  are_bytes (unfilter_row tag prev cur encoded).
Proof.
  revert cur. induction encoded as [|e encoded IH]; intros cur; [constructor|].
  constructor; [|apply IH]. unfold is_byte, wrapping_add, u8_max.
  pose proof (Z.mod_pos_bound (e + png_predicted tag prev cur) (255 + 1)). lia.
Qed.

(** The rows of an image, each with its filter tag. *)
Fixpoint png_encode (prev : list Z) (rows : list (Z * list Z)) : list Z :=
  match rows with
  | [] => []
  | (tag, raw) :: rows => tag :: filter_row tag prev [] raw ++ png_encode raw rows
  end.

Definition png_row_ok (row : Z * list Z) : Prop :=
  0 ≤ row.1 ≤ 4 ∧ len row.2 = row_bytes g ∧ are_bytes row.2.

Definition zero_row : list Z := replicate (Z.to_nat (row_bytes g)) 0.
End png_rows.

Lemma png_prediction_allowed tag left above upper_left :
  0 ≤ tag ≤ 4 → is_Some (png_prediction tag left above upper_left).
Proof.
  intros Ht. unfold png_prediction.
  assert (tag = 0 ∨ tag = 1 ∨ tag = 2 ∨ tag = 3 ∨ tag = 4)
    as [->|[->|[->|[->| ->]]]] by lia; eauto.
Qed.

(** A neighbour inside the image is read back from the output. *)
Lemma outcome_neighbour `{Platform} inside (distance : Z) o b out :
  (inside = true → o = Some distance ∧ distance ≤ len out ∧
     out !! Z.to_nat (len out - distance) = Some b) →
  (inside = false → b = 0) →
  outcome (neighbour inside o) out = Ok (b, out).
Proof.
  intros Hin Hout. destruct inside; simpl; [|by rewrite Hout].
  destruct (Hin eq_refl) as (->&Hd&Hb). cbn [need mbind prog_bind].
  simpl. unfold byte_at_distance.
  rewrite (proj2 (checked_sub_Some (len out) distance _)) by (split; [done|reflexivity]).
  cbn [mbind option_bind]. by rewrite Hb.
Qed.

(** [out] is the complete rows [before], the last of them [prev] (or the image
    starts), then [cur]. *)
Definition rows_before (g : PredictorGeometry) (row_index : Z) (before prev : list Z)
    : Prop :=
  len prev = row_bytes g ∧
  ((row_index = 0 ∧ before = [] ∧ prev = zero_row g) ∨
   (0 < row_index ∧ ∃ d, before = d ++ prev)).

Section png_outcome.
Context `{Platform} (g : PredictorGeometry) (Hg : geometry_ok g).
Context (Hfit : row_bytes g + bytes_per_pixel g ≤ usize_max).

Lemma left_outcome before cur :
  outcome (neighbour (bytes_per_pixel g <=? len cur) (Some (bytes_per_pixel g)))
    (before ++ cur) = Ok (left_of g cur, before ++ cur).
Proof.
  destruct Hg as [_ _ _ Hpix]. unfold left_of.
  apply (outcome_neighbour _ (bytes_per_pixel g)); intros Hc; rewrite Hc; [|done].
  checked_facts. rewrite length_app. split; [done|]. split; [lia|].
  rewrite lookup_app_r by lia.
  replace (Z.to_nat (Z.of_nat (length before + length cur) - bytes_per_pixel g) -
    length before)%nat with (Z.to_nat (len cur - bytes_per_pixel g)) by lia.
  destruct (lookup_lt_is_Some_2 cur (Z.to_nat (len cur - bytes_per_pixel g)))
    as [x Hx]; [lia|]. by rewrite Hx.
Qed.

(** A byte of the row above, [d] columns to the left. *)
Lemma previous_row_byte row_index before prev cur d :
  rows_before g row_index before prev → 0 ≤ d ≤ len cur → len cur < row_bytes g →
  (0 < row_index →
     row_bytes g + d ≤ len (before ++ cur) ∧
     (before ++ cur) !! Z.to_nat (len (before ++ cur) - (row_bytes g + d)) =
       Some (default 0 (prev !! Z.to_nat (len cur - d)))) ∧
  (row_index ≤ 0 → default 0 (prev !! Z.to_nat (len cur - d)) = 0).
Proof.
  intros [Hprev Hbefore] Hd Hcur.
  destruct (lookup_lt_is_Some_2 prev (Z.to_nat (len cur - d))) as [x Hx]; [lia|].
  rewrite Hx. split; intros Hr.
  - destruct Hbefore as [[? _]|[_ [e ->]]]; [lia|]. rewrite !length_app. split; [lia|].
    rewrite <-app_assoc, lookup_app_r, lookup_app_l by lia. simpl. rewrite <-Hx. f_equal. lia.
  - destruct Hbefore as [[-> [_ ->]]|[? _]]; [|lia].
    by apply lookup_replicate in Hx as [-> _].
Qed.

Lemma above_outcome row_index before prev cur :
  rows_before g row_index before prev → len cur < row_bytes g →
  outcome (neighbour (0 <? row_index) (Some (row_bytes g))) (before ++ cur) =
  Ok (above_of prev cur, before ++ cur).
Proof.
  intros Hb Hcur. destruct (previous_row_byte row_index before prev cur 0 Hb)
    as [Hin Hout]; [lia|done|]. rewrite Z.add_0_r, Z.sub_0_r in *.
  apply (outcome_neighbour _ (row_bytes g)); intros Hc; checked_facts; [|by apply Hout].
  destruct (Hin Hc). by unfold above_of.
Qed.

Lemma upper_left_outcome row_index before prev cur :
  rows_before g row_index before prev → len cur < row_bytes g →
  outcome (neighbour ((0 <? row_index) && (bytes_per_pixel g <=? len cur))
    (checked_add usize_max (row_bytes g) (bytes_per_pixel g))) (before ++ cur) =
  Ok (upper_left_of g prev cur, before ++ cur).
Proof.
  intros Hb Hcur. destruct Hg as [_ _ _ Hpix]. unfold upper_left_of.
  destruct (bytes_per_pixel g <=? len cur) eqn:Hc;
    [|rewrite andb_false_r; by apply (outcome_neighbour false 0)].
  checked_facts. rewrite andb_true_r.
  destruct (previous_row_byte row_index before prev cur (bytes_per_pixel g) Hb)
    as [Hin Hout]; [lia|done|].
  apply (outcome_neighbour _ (row_bytes g + bytes_per_pixel g));
    intros Hr; checked_facts; [|by apply Hout].
  destruct (Hin Hr). split; [by apply checked_add_Some|done].
Qed.

Lemma png_reconstruct_outcome tag row_index before prev cur encoded :
  0 ≤ tag ≤ 4 → rows_before g row_index before prev → len cur < row_bytes g →
  outcome (png_reconstruct g tag row_index (len cur) encoded) (before ++ cur) =
  Ok (tt, before ++ cur ++
        [wrapping_add u8_max encoded (png_predicted g tag prev cur)]).
Proof.
  intros Htag Hb Hcur. unfold png_reconstruct.
  rewrite outcome_step_algorithm, outcome_bind, left_outcome. cbn [mbind result_bind].
  rewrite outcome_step_algorithm, outcome_bind, (above_outcome _ _ _ _ Hb Hcur).
  cbn [mbind result_bind].
  rewrite outcome_step_algorithm, outcome_bind, (upper_left_outcome _ _ _ _ Hb Hcur).
  cbn [mbind result_bind].
  destruct (png_prediction_allowed tag (left_of g cur) (above_of prev cur)
    (upper_left_of g prev cur) Htag) as [predicted Hp].
  unfold png_predicted. rewrite Hp. simpl. by rewrite <-app_assoc.
Qed.

(** The rest of a row. *)
Lemma png_columns_outcome tag row_index before prev cur input k es rest :
  0 ≤ tag ≤ 4 → rows_before g row_index before prev →
  len cur + len es ≤ row_bytes g → drop k input = es ++ rest →
  outcome (png_columns g tag row_index (length es) (len cur) input (Z.of_nat k))
    (before ++ cur) =
  Ok (Z.of_nat (k + length es), before ++ cur ++ unfilter_row g tag prev cur es).
Proof.
  intros Htag Hb. revert cur k. induction es as [|e es IH]; intros cur k Hlen Hdrop.
  { simpl. by rewrite app_nil_r, Nat.add_0_r. }
  cbn [app] in Hdrop. apply drop_cons_lookup in Hdrop as [He Hdrop].
  cbn [length png_columns]. rewrite outcome_step. unfold index_slice.
  rewrite Nat2Z.id, He. cbn [mbind prog_bind]. simpl in Hlen.
  change (outcome (png_reconstruct g tag row_index (len cur) e;;
    png_columns g tag row_index (length es) (len cur + 1) input (Z.of_nat k + 1))
    (before ++ cur) = Ok (Z.of_nat (k + S (length es)),
      before ++ cur ++ unfilter_row g tag prev cur (e :: es))).
  rewrite outcome_bind, (png_reconstruct_outcome _ _ _ prev) by (try done; lia).
  cbn [mbind result_bind unfilter_row]. cbv zeta.
  set (x := wrapping_add u8_max e (png_predicted g tag prev cur)).
  replace (len cur + 1) with (len (cur ++ [x])) by (rewrite length_app; simpl; lia).
  replace (Z.of_nat k + 1) with (Z.of_nat (S k)) by lia.
  rewrite IH by (try done; rewrite length_app; simpl; lia).
  rewrite <-!app_assoc. do 2 f_equal. lia.
Qed.

(** After a complete row the next one starts under it. *)
Lemma rows_before_next row_index before prev raw :
  rows_before g row_index before prev → 0 ≤ row_index → len raw = row_bytes g →
  rows_before g (row_index + 1) (before ++ raw) raw.
Proof. intros _ Hr Hraw. split; [done|]. right. split; [lia|by exists before]. Qed.

(** One round of [png_rows] on an allowed tag and a whole row. *)
Lemma png_rows_step fuel row_index before prev input k tag es rest :
  0 ≤ tag ≤ 4 → rows_before g row_index before prev → 0 ≤ row_index < usize_max →
  len es = row_bytes g → drop k input = tag :: es ++ rest →
  outcome (png_rows g (S fuel) row_index input (Z.of_nat k)) before =
  outcome (png_rows g fuel (row_index + 1) input (Z.of_nat (S k + length es)))
    (before ++ unfilter_row g tag prev [] es).
Proof.
  intros Htag Hb Hr Hes Hdrop. apply drop_cons_lookup in Hdrop as [Ht Hdrop].
  pose proof (lookup_lt_Some _ _ _ Ht). cbn [png_rows].
  rewrite (proj2 (Z.ltb_lt (Z.of_nat k) _)) by lia.
  rewrite outcome_step. unfold index_slice. rewrite Nat2Z.id, Ht. cbn [mbind prog_bind].
  unfold tag_is_allowed. rewrite (proj2 (Z.leb_le tag 4)) by lia.
  change (outcome (cursor ← png_columns g tag row_index (Z.to_nat (row_bytes g)) 0 input
      (Z.of_nat k + 1);
    row_index ← need (checked_add usize_max row_index 1) InvalidPredictorData;
    png_rows g fuel row_index input cursor) before =
    outcome (png_rows g fuel (row_index + 1) input (Z.of_nat (S k + length es)))
      (before ++ unfilter_row g tag prev [] es)).
  replace (Z.to_nat (row_bytes g)) with (length es) by lia.
  replace (Z.of_nat k + 1) with (Z.of_nat (S k)) by lia.
  pose proof (png_columns_outcome tag row_index before prev [] input (S k) es rest Htag Hb)
    as Hcols. rewrite app_nil_r in Hcols. cbn [app length] in Hcols.
  change (Z.of_nat 0) with 0 in Hcols.
  rewrite outcome_bind, Hcols by (try done; simpl; lia). cbn [mbind result_bind].
  rewrite outcome_bind, outcome_need.
  by rewrite (proj2 (checked_add_Some usize_max row_index 1 _)) by (split; [lia|reflexivity]).
Qed.

Lemma png_rows_complete fuel row_index before prev input k rows :
  Forall (png_row_ok g) rows → rows_before g row_index before prev →
  0 ≤ row_index → row_index + len rows ≤ usize_max → (length rows ≤ fuel)%nat →
  drop k input = png_encode g prev rows → (k ≤ length input)%nat →
  outcome (png_rows g fuel row_index input (Z.of_nat k)) before =
  Ok (tt, before ++ concat rows.*2).
Proof.
  revert fuel row_index before prev k. induction rows as [|[tag raw] rows IH];
    intros fuel row_index before prev k Hrows Hb Hr Hmax Hfuel Hdrop Hk.
  - assert (length input = k) as Hlen.
    { apply (f_equal length) in Hdrop. rewrite length_drop in Hdrop. simpl in Hdrop. lia. }
    assert (∀ f, png_rows g f row_index input (Z.of_nat k) = mret tt) as ->.
    { intros f. destruct f; cbn [png_rows]; by rewrite (proj2 (Z.ltb_ge _ _)) by lia. }
    simpl. by rewrite app_nil_r.
  - apply Forall_cons_1 in Hrows as [(Htag&Hlen&Hbytes) Hrows]. simpl in Htag, Hlen, Hbytes.
    destruct fuel as [|fuel]; [simpl in Hfuel; lia|]. cbn [length] in *.
    cbn [png_encode] in Hdrop.
    rewrite (png_rows_step _ _ _ prev _ _ tag (filter_row g tag prev [] raw) (png_encode g raw rows));
      [|done|done|lia|by rewrite length_filter_row|done].
    rewrite unfilter_filter_row, length_filter_row by done.
    rewrite (IH fuel _ _ raw); [|done|by eapply rows_before_next|lia|lia|lia|..].
    + rewrite fmap_cons. cbn [concat]. by rewrite <-app_assoc.
    + apply drop_cons_lookup in Hdrop as [_ Hdrop].
      rewrite <-drop_drop, Hdrop, drop_app_length'; [done|]. by rewrite length_filter_row.
    + apply (f_equal length) in Hdrop. rewrite length_drop in Hdrop. simpl in Hdrop.
      rewrite length_app, length_filter_row in Hdrop. lia.
Qed.

(** Any whole number of encoded rows: an image, or a tag out of range. *)
Lemma png_rows_sound fuel row_index before prev input k :
  are_bytes input → rows_before g row_index before prev → 0 ≤ row_index →
  row_index + Z.of_nat fuel ≤ usize_max →
  (k ≤ length input)%nat → (length input - k ≤ fuel)%nat →
  (∃ n, (length input - k = n * S (Z.to_nat (row_bytes g)))%nat) →
  (∃ rows, Forall (png_row_ok g) rows ∧ drop k input = png_encode g prev rows ∧
     outcome (png_rows g fuel row_index input (Z.of_nat k)) before =
       Ok (tt, before ++ concat rows.*2)) ∨
  outcome (png_rows g fuel row_index input (Z.of_nat k)) before = Err InvalidPredictorData.
Proof.
  intros Hbytes. revert fuel row_index before prev k.
  induction fuel as [|fuel IH]; intros row_index before prev k Hb Hr Hmax Hk Hfuel [n Hn].
  { left. exists []. assert (length input = k) as Hlen by lia.
    split; [constructor|]. rewrite drop_ge by lia. split; [done|].
    cbn [png_rows]. rewrite (proj2 (Z.ltb_ge _ _)) by lia. simpl. by rewrite app_nil_r. }
  destruct n as [|n].
  { left. exists []. assert (length input = k) as Hlen by lia.
    split; [constructor|]. rewrite drop_ge by lia. split; [done|].
    cbn [png_rows]. rewrite (proj2 (Z.ltb_ge _ _)) by lia. simpl. by rewrite app_nil_r. }
  destruct Hg as [_ _ Hrow _].
  destruct (lookup_lt_is_Some_2 input k) as [tag Htag]; [lia|].
  set (es := take (Z.to_nat (row_bytes g)) (drop (S k) input)).
  assert (len es = row_bytes g) as Hes by (subst es; rewrite length_take, length_drop; lia).
  assert (drop k input = tag :: es ++ drop (S k + length es) input) as Hdrop.
  { rewrite (drop_S _ _ _ Htag), <-drop_drop.
    replace (length es) with (Z.to_nat (row_bytes g)) by lia. subst es. by rewrite take_drop. }
  pose proof (Forall_lookup_1 _ _ _ _ Hbytes Htag) as Htb. unfold is_byte, u8_max in Htb.
  destruct (decide (tag ≤ 4)) as [Hle|Hgt]; swap 1 2.
  { right. cbn [png_rows]. rewrite (proj2 (Z.ltb_lt (Z.of_nat k) _)) by lia.
    rewrite outcome_step. unfold index_slice. rewrite Nat2Z.id, Htag.
    cbn [mbind prog_bind]. unfold tag_is_allowed.
    by rewrite (proj2 (Z.leb_gt tag 4)) by lia. }
  rewrite (png_rows_step _ _ _ prev _ _ tag es (drop (S k + length es) input)) by (try done; lia).
  set (raw := unfilter_row g tag prev [] es).
  assert (len raw = row_bytes g) as Hraw by (subst raw; by rewrite length_unfilter_row).
  assert (are_bytes es) as Hesb by (subst es; by apply Forall_take, Forall_drop).
  destruct (IH (row_index + 1) (before ++ raw) raw (S k + length es)%nat)
    as [(rows&Hrows&Hrest&Hout)|Hout]; rewrite ?Hout;
      [by eapply rows_before_next|lia|lia|lia|lia| |left|by right].
  { exists n. lia. }
  exists ((tag, raw) :: rows). split.
  { constructor; [|done]. split; [simpl; lia|]. split; [done|apply unfilter_row_bytes]. }
  cbn [png_encode]. rewrite Hdrop, Hrest. split.
  { subst raw. by rewrite filter_unfilter_row. }
  rewrite fmap_cons. cbn [concat]. by rewrite <-app_assoc.
Qed.
End png_outcome.

Lemma rows_before_start g : 0 < row_bytes g → rows_before g 0 [] (zero_row g).
Proof.
  intros Hr. split; [|by left]. unfold zero_row. rewrite length_replicate. lia.
Qed.

Lemma length_png_encode g prev rows :
  0 < row_bytes g → Forall (png_row_ok g) rows →
  len (png_encode g prev rows) = len rows * (row_bytes g + 1).
Proof.
  intros Hg Hrows. revert prev. induction Hrows as [|[tag raw] rows (_&Hlen&_) Hrows IH];
    intros prev; [done|]. cbn [png_encode length fst snd] in *.
  rewrite length_app, length_filter_row. specialize (IH raw). lia.
Qed.

Section png_program.
Context `{Platform} (p : PredictorParameters) (Hp : parameters_ok p).
Let g := geometry_of p.

Lemma geometry_fits_desktop : usize_max = u64_max → geometry_fits p.
Proof.
  intros Hmax. pose proof (geometry_of_bounds p Hp) as (Hc&Hpix&_).
  destruct Hp as [_ Hcol Hcols Hb Hrow]. apply bits_bounds in Hb.
  unfold geometry_fits. rewrite Hmax.
  assert (row_bytes (geometry_of p) * 8 ≤ colors p * columns p * bits_per_component p + 7)
    by (simpl; pose proof (Z.mul_div_le
      (colors p * columns p * bits_per_component p + 7) 8); lia).
  unfold u64_max in *. split; [nia|lia].
Qed.

(** The three ways a PNG pass can end. *)
Lemma png_program_cases input :
  are_bytes input → 2 * len input ≤ usize_max →
  (∃ rows, Forall (png_row_ok g) rows ∧ input = png_encode g (zero_row g) rows ∧
     outcome (png_program p input) [] = Ok (tt, concat rows.*2)) ∨
  outcome (png_program p input) [] = Err InvalidPredictorData ∨
  (outcome (png_program p input) [] = Err InvalidDecodeParameters ∧ ¬ geometry_fits p).
Proof.
  intros Hbytes Hsize. unfold png_program. rewrite outcome_step_algorithm, outcome_bind.
  destruct (geometry_new_outcome p [] Hp) as [[-> Hg]|[-> ?]]; [|by right; right].
  cbn [mbind result_bind]. fold g in Hg |- *. pose proof Hg as [_ _ Hrow Hpix].
  rewrite outcome_bind, outcome_need.
  destruct (checked_add usize_max (row_bytes g) 1) as [er|] eqn:Her; [|by right; left].
  checked_facts. subst er. cbn [mbind result_bind].
  rewrite outcome_bind, outcome_stop_if.
  destruct (negb _) eqn:Hmod; [by right; left|]. cbn [mbind result_bind].
  apply negb_false_iff in Hmod. checked_facts.
  apply Z.mod_divide in Hmod as [n Hn]; [|lia].
  destruct input as [|b input'] eqn:Hin; [|rewrite <-Hin in *].
  { left. exists []. split; [constructor|done]. }
  assert (0 < len input) by (rewrite Hin; simpl; lia).
  assert (row_bytes g + bytes_per_pixel g ≤ usize_max) as Hfit.
  { assert (1 ≤ n) by nia. assert (row_bytes g + 1 ≤ len input) by nia. lia. }
  destruct (png_rows_sound g Hg Hfit (length input) 0 [] (zero_row g) input 0)
    as [(rows&Hrows&Hdrop&Hout)|Hout];
    [done|apply rows_before_start; lia|done|lia|lia|lia| | |by right; left].
  - exists (Z.to_nat n). nia.
  - left. exists rows. change (Z.of_nat 0) with 0 in Hout. by rewrite Hout.
Qed.

Lemma png_program_complete rows :
  geometry_fits p → Forall (png_row_ok g) rows →
  len (png_encode g (zero_row g) rows) ≤ usize_max →
  outcome (png_program p (png_encode g (zero_row g) rows)) [] = Ok (tt, concat rows.*2).
Proof.
  intros Hf Hrows Hsize. unfold png_program. rewrite outcome_step_algorithm, outcome_bind.
  destruct (geometry_new_outcome p [] Hp) as [[-> Hg]|[_ []]]; [|done].
  cbn [mbind result_bind]. fold g in Hg |- *. pose proof Hg as [_ _ Hrow Hpix].
  destruct Hf as [_ Hfit]. fold g in Hfit.
  rewrite outcome_bind, outcome_need.
  rewrite (proj2 (checked_add_Some usize_max (row_bytes g) 1 _)) by (split; [lia|reflexivity]).
  cbn [mbind result_bind]. rewrite outcome_bind, outcome_stop_if.
  pose proof (length_png_encode g (zero_row g) rows ltac:(lia) Hrows) as Hlen.
  rewrite Hlen at 1. rewrite Z.mod_mul by lia. cbn [Z.eqb negb mbind result_bind].
  apply (png_rows_complete g Hg Hfit _ 0 [] (zero_row g) _ 0 rows); try done.
  - apply rows_before_start. lia.
  - nia.
  - apply Nat2Z.inj_le. nia.
  - lia.
Qed.
End png_program.

(** The Paeth predictor picks the neighbour nearest to the estimate. *)
Lemma paeth_nearest left above upper_left :
  let estimate := left + above - upper_left in
  let r := paeth left above upper_left in
  (r = left ∨ r = above ∨ r = upper_left) ∧
  Z.abs (estimate - r) ≤ Z.abs (estimate - left) ∧
  Z.abs (estimate - r) ≤ Z.abs (estimate - above) ∧
  Z.abs (estimate - r) ≤ Z.abs (estimate - upper_left).
Proof.
  cbv zeta. unfold paeth.
  repeat match goal with |- context [?a <=? ?b] => destruct (Z.leb_spec a b) end;
    cbn [andb]; split_and!; auto; lia.
Qed.

(** ** Safety of the TIFF pass *)

(** A finite check over a byte, a shift and a bit. *)
Lemma set_bit_byte byte shift value :
  is_byte byte → 0 ≤ shift ≤ 7 → is_byte (set_bit byte shift value).
Proof.
  intros Hb Hs. unfold is_byte, u8_max, set_bit in *.
  assert (Z.land value 1 = 0 ∨ Z.land value 1 = 1) as Hbit.
  { change (Z.land value 1) with (Z.land value (Z.ones 1)). rewrite Z.land_ones by lia.
    change (2 ^ 1) with 2. pose proof (Z.mod_pos_bound value 2). lia. }
  assert (forallb (λ b, forallb (λ s, forallb (λ v,
    (0 <=? Z.lor (Z.ldiff (Z.of_nat b) (Z.shiftl 1 (Z.of_nat s))) (Z.shiftl v (Z.of_nat s)))
    && (Z.lor (Z.ldiff (Z.of_nat b) (Z.shiftl 1 (Z.of_nat s))) (Z.shiftl v (Z.of_nat s)) <=? 255))
    [0; 1]) (seq 0 8)) (seq 0 256) = true) as Hall by (vm_compute; reflexivity).
  rewrite forallb_forall in Hall. specialize (Hall (Z.to_nat byte)).
  rewrite in_seq, forallb_forall in Hall. specialize (Hall ltac:(lia) (Z.to_nat shift)).
  rewrite in_seq, forallb_forall in Hall. specialize (Hall ltac:(lia) (Z.land value 1)).
  rewrite !Z2Nat.id in Hall by lia.
  assert (In (Z.land value 1) [0; 1]) as Hin by (destruct Hbit as [->| ->]; simpl; auto).
  specialize (Hall Hin). apply andb_true_iff in Hall as [??]. checked_facts. lia.
Qed.

Lemma replace_bit_bytes out bit value out' :
  are_bytes out → 0 ≤ bit → replace_bit out bit value = Some out' → are_bytes out'.
Proof.
  unfold replace_bit. intros Ho Hbit (byte&Hb&(shift&Hs&[= <-])%bind_Some)%bind_Some.
  apply checked_sub_Some in Hs as [Hs ->]. pose proof (Z.mod_pos_bound bit 8).
  apply Forall_insert; [done|]. apply set_bit_byte; [|lia].
  by apply (Forall_lookup_1 _ _ _ _ Ho Hb).
Qed.

Section tiff_safety.
Context `{Platform}.

Lemma read_input_bits_safely bytes start count offset value out :
  safely (read_input_bits bytes start count offset value) out (λ _ out', out' = out).
Proof.
  revert offset value. induction count as [|count IH]; intros offset value; [done|].
  cbn [read_input_bits]. safely_steps. apply IH.
Qed.

Lemma read_output_bits_safely start count offset value out :
  safely (read_output_bits start count offset value) out (λ _ out', out' = out).
Proof.
  revert offset value. induction count as [|count IH]; intros offset value; [done|].
  cbn [read_output_bits]. safely_steps. apply IH.
Qed.

(** Replacing a bit keeps the image made of bytes, and its length. *)
Definition same_image (out : list Z) (_ : unit) (out' : list Z) : Prop :=
  length out' = length out ∧ are_bytes out'.

Lemma write_output_bits_safely start width value count offset out :
  are_bytes out → 0 ≤ start → 0 ≤ offset →
  safely (write_output_bits start width value count offset) out (same_image out).
Proof.
  intros Ho Hstart. revert offset out Ho.
  induction count as [|count IH]; intros offset out Ho Hoff; [done|].
  cbn [write_output_bits]. safely_steps. checked_facts. subst.
  cbv zeta. apply safely_replace_bind.
  destruct (replace_bit out _ _) as [out'|] eqn:Hr; safely_steps; [|done].
  assert (are_bytes out') by (apply (replace_bit_bytes _ _ _ _ Ho) in Hr; [done|lia]).
  apply replace_bit_length in Hr.
  eapply safely_weaken; [apply IH; [done|lia]|]. intros [] out2 [Hl ?].
  split; [lia|done].
Qed.

Lemma reconstruct_tiff_sample_safely row start sample colors width out :
  are_bytes out → 0 ≤ start → 0 ≤ sample → 0 ≤ width →
  safely (reconstruct_tiff_sample row start sample colors width) out (same_image out).
Proof.
  intros Ho Hstart Hsample Hwidth. unfold reconstruct_tiff_sample. safely_steps.
  repeat match goal with Hx : (_ ← _; _) = Some _ |- _ =>
    apply bind_Some in Hx as (?&?&?) end. checked_facts. subst.
  eapply safely_bind; [apply read_input_bits_safely|]. cbn beta. intros delta ? ->.
  eapply safely_bind; [apply read_output_bits_safely|]. cbn beta. intros previous ? ->.
  safely_steps. apply write_output_bits_safely; [done|nia|lia].
Qed.

Lemma tiff_samples_safely row start count sample colors width out :
  are_bytes out → 0 ≤ start → 0 ≤ sample → 0 ≤ width →
  safely (tiff_samples row start count sample colors width) out (same_image out).
Proof.
  intros Ho Hstart Hsample Hwidth. revert sample Hsample out Ho.
  induction count as [|count IH]; intros sample Hsample out Ho; [done|].
  cbn [tiff_samples].
  eapply safely_bind; [by apply reconstruct_tiff_sample_safely|]. intros [] out1 [Hl1 Ho1].
  eapply safely_weaken; [apply IH; [lia|done]|]. intros [] out2 [Hl2 Ho2].
  split; [lia|done].
Qed.

(** The image has the length of the input. *)
Lemma tiff_rows_safely g width rows input out :
  geometry_ok g → 0 ≤ width → are_bytes input → are_bytes out →
  safely (tiff_rows g width rows input) out (λ _ out',
    length out' = (length out +
      Nat.min (rows * Z.to_nat (row_bytes g)) (length input))%nat ∧ are_bytes out').
Proof.
  intros [Hcol _ Hr _] Hw. revert input out.
  induction rows as [|rows IH]; intros input out Hi Ho.
  { apply safely_ret. split; [lia|done]. }
  cbn [tiff_rows]. cbv zeta. safely_step. apply safely_copy_literal_bind.
  eapply safely_bind; [apply tiff_samples_safely; [|lia|lia|done]|].
  { apply Forall_app. split; [done|by apply Forall_take]. }
  intros [] out1 [Hout1 Ho1].
  eapply safely_weaken; [apply IH; [by apply Forall_drop|done]|].
  cbn beta. intros [] out2 [-> Ho2]. split; [|done].
  rewrite Hout1, length_app, length_take, length_drop. lia.
Qed.

Lemma tiff_program_safely p input :
  parameters_ok p → are_bytes input →
  safely (tiff_program p input) [] (λ _ out, length out = length input ∧ are_bytes out).
Proof.
  intros Hp Hbytes. unfold tiff_program. safely_step.
  apply (safely_bind _ _ _ (λ g out, geometry_ok g ∧ out = [])).
  { unfold safely. by destruct (geometry_new_outcome p [] Hp) as [[-> ?]|[-> ?]]. }
  intros g out [Hg ->]. pose proof Hg as [_ _ Hrow _]. safely_step.
  match goal with Hm : negb _ = false |- _ =>
    apply negb_false_iff, Z.eqb_eq, Z.mod_divide in Hm as [n Hn]; [|lia] end.
  pose proof (bits_bounds _ (po_bits _ Hp)).
  eapply safely_weaken; [apply tiff_rows_safely; [done|lia|done|constructor]|].
  cbn beta. intros [] out [-> Ho]. split; [|done].
  rewrite Hn, Z.div_mul by lia. cbn [length].
  assert (0 ≤ n) by nia. nia.
Qed.
End tiff_safety.

(** ** Safety of the PNG pass, for inputs of any length *)

Section png_safety.
Context `{Platform}.

Lemma neighbour_safely inside distance out :
  safely (neighbour inside distance) out (λ _ out', out' = out).
Proof.
  unfold neighbour. destruct inside; [|done]. safely_steps.
  unfold safely, need. by destruct (byte_at_distance out _).
Qed.

Lemma png_reconstruct_safely g tag row_index column encoded out :
  are_bytes out →
  safely (png_reconstruct g tag row_index column encoded) out (λ _ out', are_bytes out').
Proof.
  intros Ho. unfold png_reconstruct. safely_step.
  eapply safely_bind; [apply neighbour_safely|]. cbn beta. intros left ? ->. safely_step.
  eapply safely_bind; [apply neighbour_safely|]. cbn beta. intros above ? ->. safely_step.
  eapply safely_bind; [apply neighbour_safely|]. cbn beta. intros upper_left ? ->.
  safely_steps. unfold safely. simpl. apply Forall_app. split; [done|].
  apply Forall_singleton. unfold is_byte, wrapping_add, u8_max.
  match goal with |- context [?x `mod` ?m] => pose proof (Z.mod_pos_bound x m) end. lia.
Qed.

Lemma png_columns_safely g tag row_index count column input cursor out :
  are_bytes out → 0 ≤ cursor → cursor + Z.of_nat count ≤ len input →
  safely (png_columns g tag row_index count column input cursor) out
    (λ cursor' out', cursor' = cursor + Z.of_nat count ∧ are_bytes out').
Proof.
  revert column cursor out. induction count as [|count IH]; intros column cursor out Ho Hc Hlen.
  { apply safely_ret. split; [lia|done]. }
  cbn [png_columns]. safely_steps; [lia|].
  eapply safely_bind; [by apply png_reconstruct_safely|]. cbn beta. intros [] out1 Ho1.
  eapply safely_weaken; [apply IH; [done|lia|lia]|]. cbn beta. intros c out2 [-> ?].
  split; [lia|done].
Qed.

Lemma png_rows_safely g fuel row_index input cursor out n :
  geometry_ok g → are_bytes out → 0 ≤ cursor → 0 ≤ n → len input - cursor ≤ Z.of_nat fuel →
  len input - cursor = n * (row_bytes g + 1) →
  safely (png_rows g fuel row_index input cursor) out (λ _ out', are_bytes out').
Proof.
  intros [_ _ Hrow _]. revert row_index cursor out n.
  induction fuel as [|fuel IH]; intros row_index cursor out n Ho Hc Hn Hfuel Hlen;
    cbn [png_rows]; destruct (_ <? _) eqn:Hlt; checked_facts; try lia; try done.
  assert (1 ≤ n) by nia. assert (row_bytes g + 1 ≤ len input - cursor) by nia.
  safely_steps; [lia|]. safely_steps.
  eapply safely_bind; [apply png_columns_safely; [done|lia|lia]|].
  cbn beta. intros cursor' out1 [-> Ho1]. safely_step.
  apply (IH _ _ _ (n - 1)); [done|lia|lia|lia|lia].
Qed.

Lemma png_program_safely p input :
  parameters_ok p →
  safely (png_program p input) [] (λ _ out, are_bytes out).
Proof.
  intros Hp. unfold png_program. safely_step.
  apply (safely_bind _ _ _ (λ g out, geometry_ok g ∧ out = [])).
  { unfold safely. by destruct (geometry_new_outcome p [] Hp) as [[-> ?]|[-> ?]]. }
  intros g out [Hg ->]. pose proof Hg as [_ _ Hrow _]. safely_steps. checked_facts. subst.
  match goal with Hm : negb _ = false |- _ =>
    apply negb_false_iff, Z.eqb_eq, Z.mod_divide in Hm as [n Hn]; [|lia] end.
  apply (png_rows_safely g _ _ _ _ _ n); [done|constructor|lia|nia|lia|lia].
Qed.
End png_safety.
