(* ===== verification/FlateSpec.v ===== *)
(** * The Flate decoder: tables, bounds, checksum and stored blocks

    Building a Huffman table never panics: the arrays of [Huffman::build] are indexed
    within their bounds, code lengths stay below 16, and every child in the node array
    is a node that exists. Every read stays inside the input, every loop ends within
    the bits that are left, and the running Adler-32 is the checksum of the output. *)

From stdpp Require Import base list numbers option.
From S2P Require Import Prelude.
From S2P Require Import SourceTypes.
From S2P Require Import FilterTypes.
From S2P Require Import DecodeBudget.
From S2P Require Import OutputProgram.
From S2P Require Import AsciiFilters.
From S2P Require Import AsciiSpec.
From S2P Require Import Flate.

(** ** Arrays *)

Lemma safely_index_array_bind {A B} (array : list A) index (f : A → prog B) out
    (Q : B → list Z → Prop) :
  (Z.to_nat index < length array)%nat →
  (∀ x, array !! Z.to_nat index = Some x → safely (f x) out Q) →
  safely (index_array array index ≫= f) out Q.
Proof.
  intros [x Hx]%lookup_lt_is_Some_2 Hf. unfold index_array. rewrite Hx. by apply Hf.
Qed.

Lemma fill_code_lengths_safely lengths start count value out :
  safely (fill_code_lengths lengths start count value) out
    (λ lengths' out', out' = out ∧ length lengths' = length lengths).
Proof.
  revert lengths start. induction count as [|count IH]; intros lengths start; [done|].
  cbn [fill_code_lengths]. safely_step.
  eapply safely_weaken; [apply IH|]. cbn beta. intros lengths' out' [-> ->].
  by rewrite length_insert.
Qed.

(** ** The node array *)

Definition child_ok (child : Z) : Prop := child = NO_CHILD ∨ 0 ≤ child < MAX_HUFFMAN_NODES.

Definition symbol_ok (node : HuffmanNode) : Prop :=
  ∀ symbol, node_symbol node = Some symbol → 0 ≤ symbol.

Definition node_ok (node : HuffmanNode) : Prop :=
  child_ok (child_zero node) ∧ child_ok (child_one node) ∧ symbol_ok node.

Record nodes_ok (nodes : list HuffmanNode) : Prop := {
  no_length : len nodes = MAX_HUFFMAN_NODES;
  no_nodes : Forall node_ok nodes
}.

Lemma empty_nodes_ok : nodes_ok empty_nodes.
Proof.
  split; [done|]. apply Forall_replicate. split; [by left|split; [by left|done]].
Qed.

Lemma nodes_ok_insert nodes i node :
  nodes_ok nodes → node_ok node → nodes_ok (<[i := node]> nodes).
Proof.
  intros [Hl Hn] Hnode. split; [by rewrite length_insert|]. by apply Forall_insert.
Qed.

Lemma set_node_child_ok bit index node :
  node_ok node → child_ok index → node_ok (set_node_child bit index node).
Proof. unfold set_node_child, node_ok, symbol_ok. intros (?&?&?) ?. by case_match. Qed.

Lemma node_child_ok node bit child :
  node_ok node → node_child node bit = Some child → child_ok child.
Proof. unfold node_child. intros (?&?&_) ?. repeat case_match; by simplify_eq. Qed.

Lemma low_bit v : Z.land v 1 = 0 ∨ Z.land v 1 = 1.
Proof.
  change (Z.land v 1) with (Z.land v (Z.ones 1)). rewrite Z.land_ones by lia.
  change (2 ^ 1) with 2. pose proof (Z.mod_pos_bound v 2). lia.
Qed.

Lemma safely_index_child_bind {B} node v (f : Z → prog B) out (Q : B → list Z → Prop) :
  (∀ child, node_child node (Z.land v 1) = Some child → safely (f child) out Q) →
  safely (index_child node (Z.land v 1) ≫= f) out Q.
Proof.
  intros Hf. unfold index_child.
  destruct (low_bit v) as [Hb|Hb]; rewrite Hb in *; by apply Hf.
Qed.

(** ** The loops *)

Lemma count_lengths_safely lengths counts symbol_count max_length out :
  length counts = S MAX_CODE_BITS →
  safely (count_lengths lengths counts symbol_count max_length) out
    (λ r out', out' = out ∧ length r.1.1 = S MAX_CODE_BITS ∧
       Forall (λ length, length ≤ 15) lengths).
Proof.
  revert counts symbol_count max_length.
  induction lengths as [|l lengths IH]; intros counts symbol_count max_length Hc.
  { apply safely_ret. split_and!; [done|done|constructor]. }
  cbn [count_lengths]. safely_steps. checked_facts. change (Z.of_nat MAX_CODE_BITS) with 15 in *.
  assert (Forall (λ length, length ≤ 15) lengths →
    Forall (λ length, length ≤ 15) (l :: lengths)) as Hcons by (by constructor).
  destruct (negb _).
  - apply safely_index_array_bind; [rewrite Hc; unfold MAX_CODE_BITS; lia|]. intros count _.
    safely_step. eapply safely_weaken; [apply IH; by rewrite length_insert|].
    cbn beta. intros r out' (?&?&?). auto.
  - eapply safely_weaken; [by apply IH|]. cbn beta. intros r out' (?&?&?). auto.
Qed.

Lemma code_space_safely counts remaining out :
  safely (code_space counts remaining) out (λ _ out', out' = out).
Proof.
  revert remaining. induction counts as [|c counts IH]; intros remaining; [done|].
  cbn [code_space]. safely_steps. apply IH.
Qed.

Lemma first_codes_safely count bits code counts next_code out :
  length counts = S MAX_CODE_BITS → length next_code = S MAX_CODE_BITS →
  1 ≤ bits → bits + Z.of_nat count ≤ 16 →
  safely (first_codes count bits code counts next_code) out
    (λ next_code' out', out' = out ∧ length next_code' = S MAX_CODE_BITS).
Proof.
  unfold MAX_CODE_BITS. intros Hc. revert bits code next_code.
  induction count as [|count IH]; intros bits code next_code Hn Hbits Hmax; [done|].
  cbn [first_codes]. safely_step.
  apply safely_index_array_bind; [rewrite Hc; lia|]. intros shorter _. safely_step.
  apply IH; [by rewrite length_insert|lia|lia].
Qed.

Lemma insert_code_safely count depth length_index canonical symbol nodes node_count node_index out :
  nodes_ok nodes → 0 ≤ node_count → 0 ≤ node_index < MAX_HUFFMAN_NODES →
  safely (insert_code count depth length_index canonical symbol nodes node_count node_index) out
    (λ r out', out' = out ∧ nodes_ok r.1 ∧ 0 ≤ r.2).
Proof.
  revert depth symbol nodes node_count node_index. induction count as [|count IH];
    intros depth symbol nodes node_count node_index Hnodes Hcount Hindex;
    [done|]. pose proof Hnodes as [Hlen Hall].
  cbn [insert_code]. safely_step. cbv zeta.
  apply safely_index_array_bind; [lia|]. intros node Hnode.
  pose proof (Forall_lookup_1 _ _ _ _ Hall Hnode) as Hnok.
  apply safely_index_child_bind. intros existing Hex.
  pose proof (node_child_ok _ _ _ Hnok Hex) as Hchild.
  destruct (existing =? NO_CHILD) eqn:He; checked_facts.
  - safely_steps. checked_facts. subst.
    assert (nodes_ok (<[Z.to_nat node_index := set_node_child (Z.land
      (Z.shiftr canonical (length_index - depth - 1)) 1) node_count node]> nodes)) as Hnodes'.
    { apply nodes_ok_insert; [done|]. apply set_node_child_ok; [done|right; lia]. }
    destruct (_ =? length_index); [|apply IH; [done|lia|lia]].
    safely_step. apply safely_index_array_bind; [rewrite length_insert; lia|].
    intros leaf Hleaf. apply IH; [|lia|lia]. apply nodes_ok_insert; [done|].
    destruct Hnodes' as [_ Hall']. apply (Forall_lookup_1 _ _ _ _ Hall') in Hleaf as (?&?&_).
    split; [done|]. split; [done|]. checked_facts. intros s' [= <-]. lia.
  - assert (0 ≤ existing < MAX_HUFFMAN_NODES) by (by destruct Hchild).
    apply safely_index_array_bind; [lia|]. intros child _. safely_step. by apply IH.
Qed.

Lemma insert_codes_safely lengths symbol next_code nodes node_count out :
  Forall (λ length, length ≤ 15) lengths → length next_code = S MAX_CODE_BITS →
  nodes_ok nodes → 0 ≤ node_count →
  safely (insert_codes lengths symbol next_code nodes node_count) out
    (λ nodes' out', out' = out ∧ nodes_ok nodes').
Proof.
  unfold MAX_CODE_BITS. intros Hl. revert symbol next_code nodes node_count.
  induction Hl as [|l lengths Hle Hl IH]; intros symbol next_code nodes node_count Hn Hnodes Hc;
    [done|].
  cbn [insert_codes]. destruct (l =? 0); [by apply IH|].
  apply safely_index_array_bind; [rewrite Hn; lia|]. intros canonical _. safely_step.
  eapply safely_bind; [apply insert_code_safely; [done|done|]|].
  { unfold MAX_HUFFMAN_NODES, MAX_HUFFMAN_SYMBOLS. lia. }
  cbn beta. intros [nodes' node_count'] out' (->&Hnodes'&Hc').
  apply IH; [by rewrite length_insert|done|done].
Qed.

Lemma Huffman_build_safely lengths allow_empty allow_single out :
  safely (Huffman_build lengths allow_empty allow_single) out
    (λ table out', out' = out ∧ Forall symbol_ok (huffman_nodes table)).
Proof.
  assert (∀ nodes, nodes_ok nodes → Forall symbol_ok nodes) as Hsym.
  { intros nodes [_ Hn]. eapply Forall_impl; [|exact Hn]. by intros node (_&_&?). }
  unfold Huffman_build. safely_step.
  eapply safely_bind; [by apply count_lengths_safely|].
  cbn beta. intros [[counts symbol_count] max_length] out' (->&Hcounts&Hlengths).
  cbn [fst] in Hcounts. destruct (_ =? 0).
  { destruct allow_empty; [|done]. split; [done|]. apply Hsym, empty_nodes_ok. }
  eapply safely_bind; [apply code_space_safely|]. cbn beta. intros remaining out' ->.
  safely_step. eapply safely_bind; [by apply first_codes_safely|].
  cbn beta. intros next_code out' [-> Hnext].
  eapply safely_bind; [by apply insert_codes_safely; [..|apply empty_nodes_ok|]|].
  cbn beta. intros nodes out' [-> Hnodes]. split; [done|]. by apply Hsym.
Qed.

(** ** Adler-32 *)

Definition adler_step (state : Z * Z) (byte : Z) : Z * Z :=
  let a := (state.1 + byte) `mod` ADLER_MODULUS in
  (a, (state.2 + a) `mod` ADLER_MODULUS).
Definition adler_state (bytes : list Z) : Z * Z := foldl adler_step (1, 0) bytes.
Definition adler32 (bytes : list Z) : Z :=
  (adler_state bytes).2 * 65536 + (adler_state bytes).1.

Lemma adler_state_snoc bytes byte :
  adler_state (bytes ++ [byte]) = adler_step (adler_state bytes) byte.
Proof. unfold adler_state. by rewrite foldl_app. Qed.

Lemma adler_state_bounds bytes :
  0 ≤ (adler_state bytes).1 < ADLER_MODULUS ∧ 0 ≤ (adler_state bytes).2 < ADLER_MODULUS.
Proof.
  induction bytes as [|b bytes _] using rev_ind; [done|].
  rewrite adler_state_snoc. unfold adler_step. simpl.
  split; by apply Z.mod_pos_bound.
Qed.

Lemma adler32_bounds bytes : 0 ≤ adler32 bytes ≤ u32_max.
Proof.
  pose proof (adler_state_bounds bytes). unfold adler32, ADLER_MODULUS, u32_max in *. lia.
Qed.

Lemma lor_shift_add high low n :
  0 ≤ n → 0 ≤ low < 2 ^ n → Z.lor (Z.shiftl high n) low = high * 2 ^ n + low.
Proof.
  intros Hn Hlow. pose proof (Z.add_lor_land (Z.shiftl high n) low) as Hsum.
  assert (Z.land (Z.shiftl high n) low = 0) as Hland.
  { apply Z.bits_inj'. intros k Hk. rewrite Z.land_spec, Z.bits_0.
    destruct (decide (k < n)).
    - by rewrite Z.shiftl_spec_low.
    - rewrite <-(Z.mod_small low (2 ^ n)), Z.mod_pow2_bits_high by lia.
      apply andb_false_r. }
  rewrite Hland, Z.shiftl_mul_pow2 in Hsum by done.
  rewrite Z.shiftl_mul_pow2 by done. lia.
Qed.

(** The checksum word the decoder compares. *)
Lemma adler_word bytes :
  Z.lor (Z.land (Z.shiftl (adler_state bytes).2 16) u32_max) (adler_state bytes).1 =
  adler32 bytes.
Proof.
  pose proof (adler_state_bounds bytes) as [Ha Hb]. unfold ADLER_MODULUS, adler32 in *.
  change u32_max with (Z.ones 32). rewrite Z.land_ones by lia.
  rewrite Z.mod_small.
  - rewrite lor_shift_add by (change (2 ^ 16) with 65536; lia). done.
  - rewrite Z.shiftl_mul_pow2 by lia. change (2 ^ 16) with 65536.
    change (2 ^ 32) with 4294967296. lia.
Qed.

(** ** Outcomes of the decoder's methods *)

Section F_outcomes.
Context {A B : Type}.
Implicit Types (d : FlateDecoder) (out : list Z) (f : A → F B).

Lemma outcome_F_bind (m : F A) f d out :
  outcome ((m ≫= f) d) out =
  match outcome (m d) out with
  | Ok (a, d', out') => outcome (f a d') out'
  | Err code => Err code
  end.
Proof.
  unfold mbind, F_bind. rewrite outcome_bind.
  by destruct (outcome (m d) out) as [[[a d'] out']|].
Qed.

Lemma outcome_self_bind (k : FlateDecoder → F B) d out :
  outcome ((self ≫= k) d) out = outcome (k d d) out.
Proof. done. Qed.

Lemma outcome_update_bind u (k : unit → F B) d out :
  outcome ((update u ≫= k) d) out = outcome (k tt (u d)) out.
Proof. done. Qed.

Lemma outcome_invalid_bind (c : bool) (k : unit → F B) d out :
  outcome ((invalid_if c ≫= k) d) out =
  if c then Err InvalidFlate else outcome (k tt d) out.
Proof. by destruct c. Qed.

Lemma outcome_or_invalid_bind (o : option A) f d out :
  outcome ((or_invalid o ≫= f) d) out =
  match o with Some a => outcome (f a d) out | None => Err InvalidFlate end.
Proof. by destruct o. Qed.

Lemma outcome_lift_bind (p : prog A) f d out :
  outcome ((lift p ≫= f) d) out =
  match outcome p out with
  | Ok (a, out') => outcome (f a d) out'
  | Err code => Err code
  end.
Proof.
  rewrite outcome_F_bind. unfold lift. rewrite outcome_bind.
  by destruct (outcome p out) as [[a out']|].
Qed.
End F_outcomes.

(** ** The state between two calls *)

Section reader.
Context `{Platform} (input : list Z) (Hinput : are_bytes input).

Record reader_ok (d : FlateDecoder) : Prop := {
  ro_cursor : 0 ≤ fd_cursor d ≤ len input;
  ro_bits : 0 ≤ bit_count d ≤ 7
}.

(** The reader is in range, the checksum is that of the output, which is made
    of bytes. *)
Definition decoder_ok (d : FlateDecoder) (out : list Z) : Prop :=
  reader_ok d ∧ (adler_a d, adler_b d) = adler_state out ∧ are_bytes out.

(** [m] runs safely from [d], spends at least [n] input bits, and its result
    satisfies [P]. *)
Definition spends {A} (n : Z) (m : F A) (d : FlateDecoder) (out : list Z)
    (P : A → list Z → Prop) : Prop :=
  safely (m d) out (λ '(a, d') out',
    decoder_ok d' out' ∧ remaining_bits input d' + n ≤ remaining_bits input d ∧ P a out').

Lemma remaining_nonneg d : reader_ok d → 0 ≤ remaining_bits input d.
Proof. intros [??]. unfold remaining_bits. lia. Qed.

Lemma spends_bind {A B} n k (m : F A) (f : A → F B) d out P Q :
  spends n m d out P →
  (∀ a d' out', decoder_ok d' out' → P a out' →
     remaining_bits input d' + n ≤ remaining_bits input d →
     spends k (f a) d' out' Q) →
  spends (n + k) (m ≫= f) d out Q.
Proof.
  unfold spends. intros Hm Hf. eapply safely_bind; [exact Hm|].
  intros [a d'] out' (Hd&Hr&Ha). eapply safely_weaken; [by apply Hf|].
  cbn beta. intros [b d''] out'' (?&?&?). split_and!; try done. lia.
Qed.

Lemma spends_weaken {A} n k (m : F A) d out (P Q : A → list Z → Prop) :
  spends n m d out P → k ≤ n → (∀ a out', P a out' → Q a out') → spends k m d out Q.
Proof.
  unfold spends. intros Hm Hk HPQ. eapply safely_weaken; [exact Hm|].
  cbn beta. intros [a d'] out' (?&?&?). split_and!; auto. lia.
Qed.

Lemma spends_ret {A} (a : A) d out (P : A → list Z → Prop) :
  decoder_ok d out → P a out → spends 0 (mret a) d out P.
Proof. intros Hd Ha. apply safely_ret. split_and!; try done. lia. Qed.

Lemma spends_lift {A} (p : prog A) d out (P : A → list Z → Prop) :
  decoder_ok d out → safely p out (λ a out', out' = out ∧ P a out) →
  spends 0 (lift p) d out P.
Proof.
  intros Hd Hp. unfold spends, lift. eapply safely_bind; [exact Hp|].
  cbn beta. intros a out' [-> Ha]. apply safely_ret. split_and!; try done. lia.
Qed.

Lemma spends_self_bind {B} n (f : FlateDecoder → F B) d out Q :
  spends n (f d) d out Q → spends n (self ≫= f) d out Q.
Proof. done. Qed.

Lemma spends_invalid_bind {B} n (c : bool) (f : unit → F B) d out Q :
  (c = false → spends n (f tt) d out Q) → spends n (invalid_if c ≫= f) d out Q.
Proof. intros Hf. destruct c; [done|by apply Hf]. Qed.

Lemma spends_or_invalid_bind {A B} n (o : option A) (f : A → F B) d out Q :
  (∀ a, o = Some a → spends n (f a) d out Q) → spends n (or_invalid o ≫= f) d out Q.
Proof. intros Hf. destruct o as [a|]; [by apply (Hf a)|done]. Qed.

Lemma spends_stop {A} n code d out (P : A → list Z → Prop) :
  code ≠ InternalState → spends n (lift (Stop code)) d out P.
Proof. done. Qed.

Lemma spends_slice_bind {B} n slice index (f : Z → F B) d out Q :
  (Z.to_nat index < length slice)%nat →
  (∀ b, spends n (f b) d out Q) →
  spends n (lift (index_slice slice index) ≫= f) d out Q.
Proof.
  intros [b Hb]%lookup_lt_is_Some_2 Hf. unfold spends, lift, index_slice. rewrite Hb.
  apply Hf.
Qed.

(** ** Reads *)

Lemma take_input_byte_outcome d out :
  outcome (take_input_byte input d) out =
  match input !! Z.to_nat (fd_cursor d) with
  | Some byte => Ok (byte, set_cursor (fd_cursor d + 1) d, out)
  | None => Err InvalidFlate
  end.
Proof.
  unfold take_input_byte. rewrite outcome_self_bind, outcome_or_invalid_bind.
  by destruct (input !! Z.to_nat (fd_cursor d)).
Qed.

Lemma read_aligned_byte_outcome d out :
  outcome (read_aligned_byte input d) out =
  if bit_count d =? 0 then outcome (take_input_byte input d) out else Err InvalidFlate.
Proof.
  unfold read_aligned_byte. rewrite outcome_self_bind, outcome_invalid_bind.
  by destruct (bit_count d =? 0).
Qed.

Lemma lookup_in_input d byte :
  reader_ok d → input !! Z.to_nat (fd_cursor d) = Some byte →
  fd_cursor d + 1 ≤ len input.
Proof. intros [[? ?] _] Hb%lookup_lt_Some. lia. Qed.

Lemma read_aligned_byte_spends d out :
  decoder_ok d out →
  spends 8 (read_aligned_byte input) d out (λ byte out', out' = out ∧ is_byte byte).
Proof.
  intros [Hr Ha]. unfold spends, safely.
  rewrite read_aligned_byte_outcome, take_input_byte_outcome.
  destruct (bit_count d =? 0); [|done].
  destruct (input !! _) as [byte|] eqn:Hb; [|done].
  pose proof (lookup_in_input _ _ Hr Hb). destruct Hr as [Hc Hbits].
  split; [split; [split; simpl; lia|done]|]. unfold remaining_bits. simpl. split; [lia|].
  split; [done|]. by apply (Forall_lookup_1 _ _ _ _ Hinput Hb).
Qed.

Lemma align_to_byte_spends d out :
  decoder_ok d out → spends 0 align_to_byte d out (λ _ out', out' = out).
Proof.
  intros [[Hc Hb] Ha]. unfold spends, align_to_byte, update, safely. simpl.
  split; [split; [split; simpl; lia|done]|]. unfold remaining_bits. simpl. split; [lia|done].
Qed.

(** The bit buffer while it is filled: up to [count + 7] bits. *)
Lemma fill_bits_safely fuel count d out :
  0 ≤ fd_cursor d ≤ len input → 0 ≤ bit_count d → count ≤ bit_count d + 8 * Z.of_nat fuel →
  bit_count d ≤ Z.max 7 (count + 7) →
  safely (fill_bits input fuel count d) out (λ '(_, d') out',
    out' = out ∧ 0 ≤ fd_cursor d' ≤ len input ∧ count ≤ bit_count d' ≤ Z.max 7 (count + 7) ∧
    0 ≤ bit_count d' ∧
    remaining_bits input d' = remaining_bits input d ∧
    adler_a d' = adler_a d ∧ adler_b d' = adler_b d).
Proof.
  revert d. induction fuel as [|fuel IH]; intros d Hc Hb Hfuel Hmax.
  { cbn [fill_bits]. unfold safely. rewrite outcome_self_bind.
    rewrite (proj2 (Z.ltb_ge _ _)) by lia. cbn. split_and!; try done; lia. }
  cbn [fill_bits]. unfold safely. rewrite outcome_self_bind.
  destruct (_ <? _) eqn:Hlt; checked_facts; [|cbn; split_and!; try done; lia].
  rewrite outcome_F_bind, take_input_byte_outcome.
  destruct (input !! _) as [byte|] eqn:Hbyte; [|done].
  apply lookup_lt_Some in Hbyte. rewrite outcome_update_bind.
  match goal with |- context [fill_bits input fuel count ?d1] => specialize (IH d1) end.
  unfold safely in IH. cbn [fd_cursor bit_count adler_a adler_b set_bits set_cursor] in IH.
  specialize (IH ltac:(lia) ltac:(lia) ltac:(lia) ltac:(lia)).
  destruct (outcome (fill_bits _ _ _ _) out) as [[[[] d'] out']|]; [|done].
  destruct IH as (?&?&?&?&Hrem&?&?). split_and!; try done; try lia.
  rewrite Hrem. unfold remaining_bits. simpl. lia.
Qed.

Lemma read_bits_spends count d out :
  0 ≤ count → decoder_ok d out →
  spends count (read_bits input count) d out (λ v out', out' = out ∧ 0 ≤ v).
Proof.
  intros Hn [[Hc Hb] Ha]. unfold read_bits.
  apply spends_invalid_bind. intros Hcount. checked_facts.
  pose proof (fill_bits_safely 2 count d out) as Hfill. unfold spends, safely in *.
  rewrite outcome_lift_bind. cbn [outcome step_algorithm].
  rewrite outcome_F_bind. specialize (Hfill ltac:(lia) ltac:(lia) ltac:(lia) ltac:(lia)).
  destruct (outcome (fill_bits _ _ _ _) out) as [[[[] d'] out']|]; [|done].
  destruct Hfill as (->&Hc'&Hb'&Hb0&Hrem&Ha'&Hadl).
  rewrite outcome_self_bind. cbv zeta. rewrite outcome_update_bind.
  change (decoder_ok (set_bits (Z.shiftr (bit_buffer d') count) (bit_count d' - count) d') out ∧
    remaining_bits input (set_bits (Z.shiftr (bit_buffer d') count) (bit_count d' - count) d')
      + count ≤ remaining_bits input d ∧ out = out ∧
    0 ≤ Z.land (bit_buffer d') (if count =? 0 then 0 else Z.shiftl 1 count - 1)).
  split_and!; try done.
  - split; [split; simpl; lia|]. simpl. by rewrite Ha', Hadl.
  - unfold remaining_bits in *. simpl. lia.
  - apply Z.land_nonneg. right. destruct (count =? 0); [done|].
    rewrite Z.shiftl_1_l. pose proof (Z.pow_pos_nonneg 2 count). lia.
Qed.

(** ** Output *)

Lemma emit_spends byte d out :
  is_byte byte → decoder_ok d out → spends 0 (emit byte) d out (λ _ _, True).
Proof.
  intros Hbyte (Hr&Ha&Ho). unfold emit, spends, safely. rewrite outcome_lift_bind.
  cbn [outcome emit_byte]. unfold update. cbn [outcome].
  split; [|split; [unfold remaining_bits; simpl; lia|done]].
  split; [by destruct Hr; split|]. rewrite adler_state_snoc, <-Ha. split; [done|].
  apply Forall_app. split; [done|by apply Forall_singleton].
Qed.

Lemma copy_match_spends length distance d out :
  decoder_ok d out → spends 0 (copy_match length distance) d out (λ _ _, True).
Proof.
  revert d out. induction length as [|length IH]; intros d out Hd; [by apply spends_ret|].
  cbn [copy_match]. change 0 with (0 + 0).
  apply (spends_bind 0 0 _ _ _ _ (λ b out', out' = out ∧ b = byte_at_distance out distance)).
  { apply spends_lift; [done|]. by split. }
  intros byte d1 out1 Hd1 [-> ->] Hr1. apply spends_or_invalid_bind. intros b Hb.
  assert (is_byte b).
  { apply bind_Some in Hb as (i&_&Hb). destruct Hd1 as (_&_&Ho).
    by apply (Forall_lookup_1 _ _ _ _ Ho Hb). }
  eapply (spends_bind 0 0); [by apply emit_spends|].
  intros [] d2 out2 Hd2 _ Hr2. by apply IH.
Qed.

(** Sequencing after a call that keeps the output. *)
Lemma copy_stored_spends count d out :
  decoder_ok d out → spends 0 (copy_stored input count) d out (λ _ _, True).
Proof.
  revert d out. induction count as [|count IH]; intros d out Hd; [by apply spends_ret|].
  cbn [copy_stored]. apply (spends_weaken 8 0 _ _ _ (λ _ _, True)); [|lia|done].
  eapply (spends_bind 8 0); [by apply read_aligned_byte_spends|].
  intros byte d1 out1 Hd1 [-> Hb] Hr1. eapply (spends_bind 0 0); [by apply emit_spends|].
  intros [] d2 out2 Hd2 _ Hr2. by apply IH.
Qed.

Lemma read_u16_le_spends d out :
  decoder_ok d out → spends 16 (read_u16_le input) d out (λ _ out', out' = out).
Proof.
  intros Hd. unfold read_u16_le. eapply (spends_bind 8 8); [by apply read_aligned_byte_spends|].
  intros low d1 out1 Hd1 [-> _] Hr1.
  eapply (spends_bind 8 0); [by apply read_aligned_byte_spends|].
  intros high d2 out2 Hd2 [-> _] Hr2. by apply spends_ret.
Qed.

Lemma decode_stored_block_spends d out :
  decoder_ok d out → spends 0 (decode_stored_block input) d out (λ _ _, True).
Proof.
  intros Hd. unfold decode_stored_block.
  eapply (spends_bind 0 0); [by apply align_to_byte_spends|].
  intros [] d1 out1 Hd1 -> _. apply (spends_weaken (16 + (16 + 0)) 0 _ _ _ (λ _ _, True)); [|lia|done].
  eapply spends_bind; [by apply read_u16_le_spends|]. intros length d2 out2 Hd2 -> _.
  eapply spends_bind; [by apply read_u16_le_spends|]. intros complement d3 out3 Hd3 -> _.
  apply spends_invalid_bind. intros _. by apply copy_stored_spends.
Qed.

(** ** Symbols *)

Definition table_ok (table : Huffman) : Prop := Forall symbol_ok (huffman_nodes table).

Lemma walk_tree_spends count nodes index d out :
  Forall symbol_ok nodes → decoder_ok d out →
  spends 1 (walk_tree input count nodes index) d out (λ s out', out' = out ∧ 0 ≤ s).
Proof.
  intros Hnodes. revert index d out. induction count as [|count IH]; intros index d out Hd; [done|].
  cbn [walk_tree]. apply (spends_weaken (1 + 0) 1 _ _ _ (λ s out', out' = out ∧ 0 ≤ s)); [|lia|done].
  eapply spends_bind; [by apply read_bits_spends|]. intros bit d1 out1 Hd1 [-> _] _.
  apply spends_or_invalid_bind. intros node _.
  apply spends_or_invalid_bind. intros child _.
  apply spends_invalid_bind. intros _. cbv zeta.
  apply spends_or_invalid_bind. intros child_node Hnode.
  pose proof (Forall_lookup_1 _ _ _ _ Hnodes Hnode) as Hsym.
  destruct (node_symbol child_node) as [s|] eqn:Hs; [by apply spends_ret; auto|].
  eapply spends_weaken; [by apply IH|lia|done].
Qed.

Lemma decode_symbol_spends table d out :
  table_ok table → decoder_ok d out →
  spends 1 (decode_symbol input table) d out (λ s out', out' = out ∧ 0 ≤ s).
Proof.
  intros Ht Hd. unfold decode_symbol. apply spends_invalid_bind. intros _.
  by apply walk_tree_spends.
Qed.

Lemma extra_bits_bounds :
  Forall (λ n, 0 ≤ n ≤ 15) LENGTH_EXTRA_BITS ∧ Forall (λ n, 0 ≤ n ≤ 15) DISTANCE_EXTRA_BITS.
Proof. split; repeat constructor; lia. Qed.

(** Extra bits of a length or a distance. *)
Lemma read_extra_bits_spends {B} table index (f : Z → F B) d out Q :
  Forall (λ n, 0 ≤ n ≤ 15) table → (Z.to_nat index < length table)%nat →
  decoder_ok d out →
  (∀ v d', decoder_ok d' out → spends 0 (f v) d' out Q) →
  spends 0 (lift (index_slice table index) ≫= λ extra, read_bits input extra ≫= f) d out Q.
Proof.
  intros Htable [extra He]%lookup_lt_is_Some_2 Hd Hf.
  pose proof (Forall_lookup_1 _ _ _ _ Htable He) as [Hpos _].
  unfold spends, safely. rewrite outcome_lift_bind. unfold index_slice. rewrite He.
  cbn [outcome]. change (spends 0 (read_bits input extra ≫= f) d out Q).
  apply (spends_weaken (extra + 0) 0 _ _ _ Q); [|lia|done].
  eapply spends_bind; [by apply read_bits_spends|]. intros v d1 out1 Hd1 [-> _] _.
  by apply Hf.
Qed.

Lemma decode_match_spends symbol distance d out :
  257 ≤ symbol ≤ 285 → table_ok distance → decoder_ok d out →
  spends 0 (decode_match input symbol distance) d out (λ _ _, True).
Proof.
  intros Hs Ht Hd. unfold decode_match. cbv zeta.
  destruct extra_bits_bounds as [Hle Hde].
  apply read_extra_bits_spends; [done|simpl; lia|done|]. intros extra d1 Hd1.
  apply spends_slice_bind; [simpl; lia|]. intros base.
  apply spends_or_invalid_bind. intros len _.
  apply (spends_weaken (1 + 0) 0 _ _ _ (λ _ _, True)); [|lia|done].
  eapply spends_bind; [by apply decode_symbol_spends|]. intros dsym d2 out2 Hd2 [-> _] _.
  apply spends_invalid_bind. intros Hdsym. checked_facts.
  apply read_extra_bits_spends; [done|simpl; lia|done|]. intros dextra d3 Hd3.
  apply spends_slice_bind; [simpl; lia|]. intros dbase.
  apply spends_or_invalid_bind. intros dist _.
  apply spends_self_bind. eapply (spends_bind 0 0).
  { apply (spends_lift _ _ _ (λ _ _, True)); [done|]. by split. }
  intros output_len d4 out4 Hd4 _ _. apply spends_invalid_bind. intros _.
  by apply copy_match_spends.
Qed.

(** Every symbol costs a bit, so the fuel is enough. *)
Lemma compressed_loop_spends fuel literal distance d out :
  table_ok literal → table_ok distance →
  decoder_ok d out → remaining_bits input d < Z.of_nat fuel →
  spends 0 (compressed_loop input fuel literal distance) d out (λ _ _, True).
Proof.
  intros Hlit Hdist. revert d out. induction fuel as [|fuel IH]; intros d out Hd Hfuel.
  { destruct Hd as [Hr _]. apply remaining_nonneg in Hr. lia. }
  cbn [compressed_loop].
  apply (spends_weaken (1 + 0) 0 _ _ _ (λ _ _, True)); [|lia|done].
  eapply spends_bind; [by apply decode_symbol_spends|]. intros symbol d1 out1 Hd1 [-> Hs] Hr1.
  destruct (symbol <=? 255) eqn:H255; checked_facts.
  { eapply (spends_bind 0 0); [apply emit_spends; [unfold is_byte, u8_max; lia|done]|].
    intros [] d2 out2 Hd2 _ Hr2. apply IH; [done|lia]. }
  destruct (symbol =? 256) eqn:H256; checked_facts; [by apply spends_ret|].
  destruct (symbol <=? 285) eqn:H285; checked_facts; [|done].
  eapply (spends_bind 0 0); [apply decode_match_spends; [lia|done|done]|].
  intros [] d2 out2 Hd2 _ Hr2. apply IH; [done|lia].
Qed.

Lemma decode_compressed_block_spends literal distance d out :
  table_ok literal → table_ok distance → decoder_ok d out →
  spends 0 (decode_compressed_block input literal distance) d out (λ _ _, True).
Proof.
  intros Hlit Hdist Hd. unfold decode_compressed_block. apply spends_self_bind.
  apply compressed_loop_spends; [done|done|done|]. destruct Hd as [Hr _].
  apply remaining_nonneg in Hr. lia.
Qed.

(** ** Tables *)

(** A program over the output that only charges fuel. *)
Lemma spends_lift_bind {A B} (p : prog A) (f : A → F B) n d out (R : A → Prop) Q :
  safely p out (λ a out', out' = out ∧ R a) →
  (∀ a, R a → spends n (f a) d out Q) → spends n (lift p ≫= f) d out Q.
Proof.
  intros Hp Hf. unfold spends, safely in *. rewrite outcome_lift_bind.
  destruct (outcome p out) as [[a out']|]; [|done]. destruct Hp as [-> Ha]. by apply Hf.
Qed.

Lemma spends_fill_bind {B} lengths start count value (f : list Z → F B) n d out Q :
  (∀ l, length l = length lengths → spends n (f l) d out Q) →
  spends n (lift (fill_code_lengths lengths start count value) ≫= f) d out Q.
Proof.
  apply spends_lift_bind. eapply safely_weaken; [apply fill_code_lengths_safely|done].
Qed.

Lemma spends_build_bind {B} lengths e s (f : Huffman → F B) n d out Q :
  (∀ t, table_ok t → spends n (f t) d out Q) →
  spends n (lift (Huffman_build lengths e s) ≫= f) d out Q.
Proof.
  apply spends_lift_bind. apply Huffman_build_safely.
Qed.

Lemma fixed_tables_spends d out :
  decoder_ok d out → spends 0 fixed_tables d out (λ r out', out' = out ∧ table_ok r.1 ∧ table_ok r.2).
Proof.
  intros Hd. unfold fixed_tables. cbv zeta.
  do 5 (apply spends_fill_bind; intros ? _).
  do 2 (apply spends_build_bind; intros ? ?). by apply spends_ret.
Qed.

Lemma read_code_lengths_spends positions lengths d out :
  decoder_ok d out →
  spends 0 (read_code_lengths input positions lengths) d out (λ _ out', out' = out).
Proof.
  revert lengths d. induction positions as [|p positions IH]; intros lengths d Hd;
    [by apply spends_ret|]. cbn [read_code_lengths].
  apply (spends_weaken (3 + 0) 0 _ _ _ (λ _ out', out' = out)); [|lia|done].
  eapply spends_bind; [by apply read_bits_spends|]. intros l d1 out1 Hd1 [-> _] _.
  apply (spends_lift_bind _ _ _ _ _ (λ _, True)); [done|]. intros [] _. by apply IH.
Qed.

(** The code lengths read so far. *)
Definition filled_ok (filled total : Z) (r : list Z * Z) : Prop :=
  length r.1 = 318%nat ∧ filled < r.2 ≤ total.

Lemma repeat_end_spends {B} filled total repeat (f : Z → F B) n d out Q :
  (filled + repeat ≤ total → spends n (f (filled + repeat)) d out Q) →
  spends n (repeat_end filled total repeat ≫= f) d out Q.
Proof.
  intros Hf. unfold repeat_end, spends, safely in *. rewrite outcome_F_bind.
  rewrite outcome_or_invalid_bind. destruct (checked_add _ _ _) as [e|] eqn:He; [|done].
  checked_facts. subst e. rewrite outcome_invalid_bind.
  destruct (_ <? _) eqn:Ht; [done|]. checked_facts. by apply Hf.
Qed.

Lemma fill_zero_lengths_spends lengths filled total repeat d out :
  decoder_ok d out → length lengths = 318%nat → 0 < repeat →
  spends 0 (fill_zero_lengths lengths filled total repeat) d out
    (λ r out', out' = out ∧ filled_ok filled total r).
Proof.
  intros Hd Hl Hr. unfold fill_zero_lengths. apply repeat_end_spends. intros Hend.
  apply spends_fill_bind. intros l Hl'. apply spends_ret; [done|].
  split; [done|]. split; simpl; [congruence|lia].
Qed.

Lemma code_length_symbol_spends symbol lengths filled total d out :
  decoder_ok d out → length lengths = 318%nat → 0 ≤ filled < total → total ≤ 318 →
  spends 0 (code_length_symbol input symbol lengths filled total) d out
    (λ r out', out' = out ∧ filled_ok filled total r).
Proof.
  intros Hd Hl Hf Ht. unfold code_length_symbol.
  destruct (symbol <=? 15).
  { apply (spends_lift_bind _ _ _ _ _ (λ _, True)); [done|]. intros [] _.
    apply spends_ret; [done|]. split; [done|]. split; simpl; [by rewrite length_insert|lia]. }
  assert (∀ k (f : Z → F (list Z * Z)) n, 0 ≤ n →
    (∀ v d', 0 ≤ v → decoder_ok d' out → spends 0 (f v) d' out
      (λ r out', out' = out ∧ filled_ok filled total r)) →
    k = n → spends 0 (read_bits input k ≫= f) d out
      (λ r out', out' = out ∧ filled_ok filled total r)) as Hread.
  { intros k f n Hn Hv ->. apply (spends_weaken (n + 0) 0 _ _ _
      (λ r out', out' = out ∧ filled_ok filled total r)); [|lia|done].
    eapply spends_bind; [by apply read_bits_spends|]. intros v d1 out1 Hd1 [-> Hv0] _.
    by apply Hv. }
  destruct (symbol =? 16).
  { apply spends_invalid_bind. intros Hnz. checked_facts. apply (Hread _ _ 2); [lia| |done].
    intros v d1 Hv Hd1. apply repeat_end_spends. intros Hend.
    apply spends_slice_bind; [lia|]. intros previous. apply spends_fill_bind.
    intros l Hl'. apply spends_ret; [done|]. split; [done|]. split; simpl; [congruence|lia]. }
  destruct (symbol =? 17).
  { apply (Hread _ _ 3); [lia| |done]. intros v d1 Hv Hd1.
    apply fill_zero_lengths_spends; [done|done|lia]. }
  destruct (symbol =? 18); [|done].
  apply (Hread _ _ 7); [lia| |done]. intros v d1 Hv Hd1.
  apply fill_zero_lengths_spends; [done|done|lia].
Qed.

Lemma code_lengths_loop_spends fuel tree lengths filled total d out :
  table_ok tree → decoder_ok d out → length lengths = 318%nat → 0 ≤ filled → total ≤ 318 →
  total - filled ≤ Z.of_nat fuel →
  spends 0 (code_lengths_loop input fuel tree lengths filled total) d out
    (λ _ out', out' = out).
Proof.
  intros Htree. revert lengths filled d. induction fuel as [|fuel IH];
    intros lengths filled d Hd Hl Hf Ht Hfuel; cbn [code_lengths_loop];
    destruct (_ <? _) eqn:Hlt; checked_facts; try lia; try (by apply spends_ret).
  apply (spends_weaken (1 + 0) 0 _ _ _ (λ _ out', out' = out)); [|lia|done].
  eapply spends_bind; [by apply decode_symbol_spends|]. intros symbol d1 out1 Hd1 [-> _] _.
  eapply (spends_bind 0 0); [by apply code_length_symbol_spends|].
  intros [lengths' filled'] d2 out2 Hd2 [-> [Hl' Hf']] _. cbn [fst snd] in *.
  apply IH; [done|done|lia|done|lia].
Qed.

Lemma dynamic_tables_spends d out :
  decoder_ok d out → spends 0 (dynamic_tables input) d out
    (λ r out', out' = out ∧ table_ok r.1 ∧ table_ok r.2).
Proof.
  intros Hd. unfold dynamic_tables. apply (spends_weaken (5 + (5 + (4 + 0))) 0 _ _ _
    (λ r out', out' = out ∧ table_ok r.1 ∧ table_ok r.2)); [|lia|done].
  eapply spends_bind; [by apply read_bits_spends|]. intros lc d1 out1 Hd1 [-> Hlc] _.
  cbv zeta. eapply spends_bind; [by apply read_bits_spends|]. intros dc d2 out2 Hd2 [-> Hdc] _.
  eapply spends_bind; [by apply read_bits_spends|]. intros cc d3 out3 Hd3 [-> Hcc] _.
  apply spends_invalid_bind. rewrite !orb_false_iff. intros [[Hlc' Hdc'] Hcc']. checked_facts.
  eapply (spends_bind 0 0); [by apply read_code_lengths_spends|].
  intros lengths d4 out4 Hd4 -> _. apply spends_build_bind. intros tree Htree.
  apply spends_or_invalid_bind. intros total Htotal. checked_facts. subst total.
  eapply (spends_bind 0 0); [apply code_lengths_loop_spends; [done|done|done|lia|lia|lia]|].
  intros lengths' d5 out5 Hd5 -> _. apply spends_invalid_bind. intros _.
  do 2 (apply spends_build_bind; intros ? ?). by apply spends_ret.
Qed.

(** ** The stream *)

Lemma decode_block_spends block_type d out :
  decoder_ok d out → spends 0 (decode_block input block_type) d out (λ _ _, True).
Proof.
  intros Hd. unfold decode_block.
  destruct (block_type =? 0); [by apply decode_stored_block_spends|].
  destruct (block_type =? 1).
  { eapply (spends_bind 0 0); [by apply fixed_tables_spends|].
    intros [literal distance] d1 out1 Hd1 (->&?&?) _. by apply decode_compressed_block_spends. }
  destruct (block_type =? 2); [|done].
  eapply (spends_bind 0 0); [by apply dynamic_tables_spends|].
  intros [literal distance] d1 out1 Hd1 (->&?&?) _. by apply decode_compressed_block_spends.
Qed.

(** Every block costs three bits, so the fuel is enough. *)
Lemma blocks_loop_spends fuel d out :
  decoder_ok d out → remaining_bits input d < Z.of_nat fuel →
  spends 0 (blocks_loop input fuel) d out (λ _ _, True).
Proof.
  revert d out. induction fuel as [|fuel IH]; intros d out Hd Hfuel.
  { destruct Hd as [Hr _]. apply remaining_nonneg in Hr. lia. }
  cbn [blocks_loop]. apply (spends_lift_bind _ _ _ _ _ (λ _, True)); [done|]. intros [] _.
  apply (spends_weaken (1 + (2 + 0)) 0 _ _ _ (λ _ _, True)); [|lia|done].
  eapply spends_bind; [by apply read_bits_spends|]. intros final d1 out1 Hd1 [-> _] Hr1.
  eapply spends_bind; [by apply read_bits_spends|]. intros kind d2 out2 Hd2 [-> _] Hr2.
  eapply (spends_bind 0 0); [by apply decode_block_spends|]. intros [] d3 out3 Hd3 _ Hr3.
  destruct (negb _); [by apply spends_ret|]. apply IH; [done|lia].
Qed.

Lemma read_header_spends d out :
  decoder_ok d out → spends 0 (read_header input) d out (λ _ out', out' = out).
Proof.
  intros Hd. unfold read_header.
  apply (spends_weaken (8 + (8 + 0)) 0 _ _ _ (λ _ out', out' = out)); [|lia|done].
  eapply spends_bind; [by apply read_aligned_byte_spends|]. intros cmf d1 out1 Hd1 [-> _] _.
  eapply spends_bind; [by apply read_aligned_byte_spends|]. intros flg d2 out2 Hd2 [-> _] _.
  cbv zeta. apply spends_invalid_bind. intros _.
  apply (spends_lift_bind _ _ _ _ _ (λ _, True)).
  { by apply safely_stop_if. }
  intros [] _. unfold spends, update, safely. simpl.
  destruct Hd2 as [[? ?] ?]. split; [split; [split; simpl; lia|done]|].
  unfold remaining_bits. simpl. split; [lia|done].
Qed.

(** ** Byte-aligned reading *)

(** The decoder is at a byte boundary, with [rest] still to read. *)
Definition aligned (d : FlateDecoder) (rest : list Z) : Prop :=
  bit_count d = 0 ∧ 0 ≤ fd_cursor d ∧ drop (Z.to_nat (fd_cursor d)) input = rest.

Definition advance (d : FlateDecoder) : FlateDecoder := set_cursor (fd_cursor d + 1) d.

Lemma aligned_advance d b rest : aligned d (b :: rest) → aligned (advance d) rest.
Proof.
  intros (Hb&Hc&[_ Hd]%drop_cons_lookup). split; [done|]. simpl. split; [lia|].
  by replace (Z.to_nat (fd_cursor d + 1)) with (S (Z.to_nat (fd_cursor d))) by lia.
Qed.

Lemma aligned_nil_bind {B} (f : Z → F B) d out :
  aligned d [] → outcome ((read_aligned_byte input ≫= f) d) out = Err InvalidFlate.
Proof.
  intros (Hb&Hc&Hd). rewrite outcome_F_bind, read_aligned_byte_outcome,
    take_input_byte_outcome, Hb. simpl.
  rewrite (lookup_ge_None_2 input); [done|].
  apply (f_equal length) in Hd. rewrite length_drop in Hd. simpl in Hd. lia.
Qed.

Lemma aligned_cons_bind {B} (f : Z → F B) d out b rest :
  aligned d (b :: rest) →
  outcome ((read_aligned_byte input ≫= f) d) out = outcome (f b (advance d)) out.
Proof.
  intros (Hb&Hc&[Hd _]%drop_cons_lookup). rewrite outcome_F_bind,
    read_aligned_byte_outcome, take_input_byte_outcome, Hb. simpl. by rewrite Hd.
Qed.

Lemma aligned_cursor d rest :
  aligned d rest → fd_cursor d ≤ len input →
  (fd_cursor d =? len input) = bool_decide (rest = []).
Proof.
  intros (_&Hc&<-) Hlen. case_bool_decide as Hd.
  - apply Z.eqb_eq. apply (f_equal length) in Hd. rewrite length_drop in Hd. simpl in Hd. lia.
  - apply Z.eqb_neq. intros Heq. apply Hd. apply drop_ge. lia.
Qed.

(** The trailer is accepted exactly when the bytes left are the Adler-32 of the
    output, most significant first. *)
Lemma check_trailer_cases d out :
  decoder_ok d out →
  let rest := drop (Z.to_nat (fd_cursor d)) input in
  (rest = to_be_bytes (adler32 out) ∧ ∃ d', outcome (check_trailer input d) out = Ok (tt, d', out)) ∨
  (rest ≠ to_be_bytes (adler32 out) ∧
   ∃ code, outcome (check_trailer input d) out = Err code ∧ code ≠ InternalState).
Proof.
  intros [[[Hc Hlen] _] [Ha _]] rest.
  pose proof (adler_word out) as Hword. rewrite <-Ha in Hword. cbn [fst snd] in Hword.
  assert (are_bytes rest) as Hrb by (by apply Forall_drop).
  unfold check_trailer, align_to_byte. rewrite outcome_update_bind.
  set (d0 := set_bits 0 0 d).
  assert (aligned d0 rest) as Hd0 by done.
  assert (fd_cursor d0 + len rest = len input) as Hsum
    by (subst rest d0; rewrite length_drop; simpl; lia).
  assert ((adler_a d0, adler_b d0) = (adler_a d, adler_b d)) as Had by done.
  clearbody d0 rest. clear Ha Hc.
  assert (∀ code, code ≠ InternalState → rest ≠ to_be_bytes (adler32 out) →
    ∀ r : result DecodeErrorCode (unit * FlateDecoder * list Z), r = Err code →
    (rest = to_be_bytes (adler32 out) ∧ ∃ d', r = Ok (tt, d', out)) ∨
    (rest ≠ to_be_bytes (adler32 out) ∧ ∃ code, r = Err code ∧ code ≠ InternalState)) as Hbad
    by eauto 10.
  destruct rest as [|b3 [|b2 [|b1 [|b0 rest]]]];
    repeat (erewrite aligned_cons_bind by eassumption; apply aligned_advance in Hd0);
    try (rewrite aligned_nil_bind by done; by apply (Hbad InvalidFlate)).
  apply (Forall_app _ [b3; b2; b1; b0] rest) in Hrb as [Hbs _].
  pose proof (to_be_bytes_be_value _ _ _ _ Hbs) as Hbe.
  unfold be_value in Hbe. cbn [foldl] in Hbe. rewrite Z.mul_0_l, Z.add_0_l in Hbe.
  cbv zeta. rewrite outcome_self_bind.
  change (adler_a (advance _)) with (adler_a d0). change (adler_b (advance _)) with (adler_b d0).
  injection Had as -> ->. rewrite Hword, outcome_invalid_bind.
  destruct (negb _) eqn:Heq.
  { apply (Hbad InvalidFlate); [done| |done]. intros Hr. apply negb_true_iff in Heq.
    checked_facts. apply Heq.
    destruct rest; [|by injection Hr].
    apply (f_equal be_value) in Hr. rewrite be_value_to_be_bytes in Hr by apply adler32_bounds.
    rewrite <-Hr. unfold be_value. cbn [foldl]. lia. }
  apply negb_false_iff in Heq. checked_facts. rewrite Heq in Hbe.
  rewrite (aligned_cursor _ _ Hd0) by (simpl in *; lia).
  destruct rest as [|x rest].
  - left. split; [done|]. by eexists.
  - apply (Hbad TrailingData); [done|by rewrite Hbe|].
    rewrite bool_decide_eq_false_2 by done. cbn [negb]. by erewrite aligned_cons_bind by eassumption.
Qed.

(** ** The whole stream *)

Lemma decoder_ok_new : decoder_ok FlateDecoder_new [].
Proof. split; [split; simpl; lia|]. split; [done|constructor]. Qed.

(** The decoder up to the trailer. *)
Lemma flate_body_spends :
  spends 0 (read_header input;; d ← self;
    blocks_loop input (S (Z.to_nat (remaining_bits input d)))) FlateDecoder_new []
    (λ _ _, True).
Proof.
  eapply (spends_bind 0 0); [apply read_header_spends, decoder_ok_new|].
  intros [] d out Hd -> _. apply spends_self_bind. apply blocks_loop_spends; [done|].
  destruct Hd as [Hr _]. apply remaining_nonneg in Hr. lia.
Qed.

Lemma flate_program_outcome out :
  outcome (flate_program input) out =
  match outcome ((read_header input;; d ← self;
      blocks_loop input (S (Z.to_nat (remaining_bits input d)))) FlateDecoder_new) out with
  | Ok (_, d, out) => '(_, out) ← outcome (check_trailer input d) out; Ok (tt, out)
  | Err code => Err code
  end.
Proof.
  unfold flate_program, flate_run. rewrite outcome_bind, !outcome_F_bind.
  destruct (outcome (read_header input FlateDecoder_new) out) as [[[[] d] out1]|]; [|done].
  rewrite !outcome_self_bind, outcome_F_bind.
  destruct (outcome (blocks_loop _ _ _) out1) as [[[[] d2] out2]|]; [|done].
  cbn [mbind result_bind].
  by destruct (outcome (check_trailer input d2) out2) as [[[[] d3] out3]|].
Qed.

(** A stream is never decoded past its checksum: what succeeds ends with the
    Adler-32 of the output. *)
Lemma flate_program_cases :
  (∃ out body, outcome (flate_program input) [] = Ok (tt, out) ∧ are_bytes out ∧
     input = body ++ to_be_bytes (adler32 out)) ∨
  ∃ code, outcome (flate_program input) [] = Err code ∧ code ≠ InternalState.
Proof.
  rewrite flate_program_outcome.
  pose proof flate_body_spends as Hbody. unfold spends, safely in Hbody.
  destruct (outcome _ []) as [[[[] d] out]|code]; [|right; eauto].
  destruct Hbody as (Hd&_&_).
  destruct (check_trailer_cases d out Hd)
    as [[Hrest [d' ->]]|[_ (code&->&?)]]; [left|right; eauto].
  exists out, (take (Z.to_nat (fd_cursor d)) input). split; [done|].
  split; [apply Hd|]. by rewrite <-Hrest, take_drop.
Qed.
End reader.
