(* ===== verification/StreamSafety.v ===== *)
(** * Stored Flate blocks, and plans of validated stages

    An encoder that writes its input in stored blocks between the zlib header and
    the Adler-32 trailer, and its decoding. The layers of a plan whose stages were
    validated run safely on bytes and produce bytes; and how a plan gets to be
    validated. *)

From stdpp Require Import base list numbers option strings.
From S2P Require Import Prelude.
From S2P Require Import SourceTypes.
From S2P Require Import FilterTypes.
From S2P Require Import DecodeBudget.
From S2P Require Import DecodeBudgetSpec.
From S2P Require Import OutputProgram.
From S2P Require Import AsciiFilters.
From S2P Require Import AsciiSpec.
From S2P Require Import Predictor.
From S2P Require Import Flate.
From S2P Require Import DecodeStream.
From S2P Require Import StreamSpec.
From S2P Require Import PredictorSpec.
From S2P Require Import FlateSpec.

Definition u16_le (v : Z) : list Z := [v `mod` 256; v / 256].

Definition stored_block (final : bool) (chunk : list Z) : list Z :=
  (if final then 1 else 0)
  :: u16_le (len chunk) ++ u16_le (u16_max - len chunk) ++ chunk.

(** All the chunks but the last are marked as not final. *)
Fixpoint stored_blocks (chunks : list (list Z)) : list Z :=
  match chunks with
  | [] => []
  | chunk :: chunks => stored_block (bool_decide (chunks = [])) chunk ++ stored_blocks chunks
  end.

Definition zlib_stored (chunks : list (list Z)) : list Z :=
  120 :: 1 :: stored_blocks chunks ++ to_be_bytes (adler32 (concat chunks)).

Section stored.
Context `{Platform} (input : list Z).

Lemma copy_stored_outcome data rest d out :
  aligned input d (data ++ rest) → (adler_a d, adler_b d) = adler_state out →
  ∃ d', outcome (copy_stored input (length data) d) out = Ok (tt, d', out ++ data) ∧
    aligned input d' rest ∧ bit_buffer d' = bit_buffer d ∧
    (adler_a d', adler_b d') = adler_state (out ++ data).
Proof.
  revert d out. induction data as [|b data IH]; intros d out Hd Ha.
  { exists d. rewrite app_nil_r. done. }
  cbn [length copy_stored app] in *. erewrite aligned_cons_bind by done.
  apply aligned_advance in Hd.
  set (d1 := set_adler ((adler_a (advance d) + b) `mod` ADLER_MODULUS)
    ((adler_b (advance d) + (adler_a (advance d) + b) `mod` ADLER_MODULUS)
       `mod` ADLER_MODULUS) (advance d)).
  destruct (IH d1 (out ++ [b])) as (d'&Hout&Hd'&Hb'&Ha').
  { exact Hd. }
  { rewrite adler_state_snoc, <-Ha. done. }
  exists d'. split; [|rewrite <-app_assoc in Ha'; done].
  rewrite <-app_assoc in Hout. exact Hout.
Qed.

Lemma u16_le_value v : 0 ≤ v ≤ u16_max → v `mod` 256 + Z.shiftl (v / 256) 8 = v.
Proof.
  intros Hv. rewrite Z.shiftl_mul_pow2 by lia. change (2 ^ 8) with 256.
  Z.to_euclidean_division_equations; lia.
Qed.

Lemma read_u16_le_outcome {B} (f : Z → F B) v rest d out :
  0 ≤ v ≤ u16_max → aligned input d (u16_le v ++ rest) →
  ∃ d', outcome ((read_u16_le input ≫= f) d) out = outcome (f v d') out ∧
    aligned input d' rest ∧ bit_buffer d' = bit_buffer d ∧
    adler_a d' = adler_a d ∧ adler_b d' = adler_b d.
Proof.
  intros Hv Hd. cbn [u16_le app] in Hd. exists (advance (advance d)). split.
  - unfold read_u16_le. rewrite outcome_F_bind.
    erewrite aligned_cons_bind by done.
    erewrite aligned_cons_bind by (by eapply aligned_advance).
    cbn [outcome mret F_ret]. by rewrite u16_le_value.
  - split; [|done]. by do 2 eapply aligned_advance.
Qed.

Lemma stored_block_outcome {B} (f : unit → F B) chunk rest d out :
  len chunk ≤ u16_max →
  aligned input (set_bits 0 0 d)
    (u16_le (len chunk) ++ u16_le (u16_max - len chunk) ++ chunk ++ rest) →
  (adler_a d, adler_b d) = adler_state out →
  ∃ d', outcome ((decode_stored_block input ≫= f) d) out = outcome (f tt d') (out ++ chunk) ∧
    aligned input d' rest ∧ bit_buffer d' = 0 ∧
    (adler_a d', adler_b d') = adler_state (out ++ chunk).
Proof.
  intros Hlen Hd Ha. rewrite outcome_F_bind. unfold decode_stored_block, align_to_byte.
  rewrite outcome_update_bind.
  destruct (read_u16_le_outcome (λ length, complement ← read_u16_le input;
    invalid_if (negb (length =? u16_max - complement));;
    copy_stored input (Z.to_nat length)) (len chunk) _ _ out ltac:(lia) Hd)
    as (d1&->&Hd1&Hb1&Ha1&Haa1).
  destruct (read_u16_le_outcome (λ complement,
    invalid_if (negb (len chunk =? u16_max - complement));;
    copy_stored input (Z.to_nat (len chunk))) (u16_max - len chunk) _ _ out ltac:(lia) Hd1)
    as (d2&->&Hd2&Hb2&Ha2&Haa2).
  rewrite outcome_invalid_bind.
  replace (u16_max - (u16_max - len chunk)) with (len chunk) by lia.
  rewrite Z.eqb_refl. cbn [negb]. rewrite Nat2Z.id.
  destruct (copy_stored_outcome chunk rest d2 out) as (d3&->&Hd3&Hb3&Ha3); [done| |].
  { rewrite Ha2, Haa2, Ha1, Haa1. exact Ha. }
  exists d3. split; [done|]. split; [done|]. split; [|done]. by rewrite Hb3, Hb2, Hb1.
Qed.

Lemma fill_bits_enough fuel count d out :
  count ≤ bit_count d → outcome (fill_bits input fuel count d) out = Ok (tt, d, out).
Proof.
  intros Hcount. destruct fuel; cbn [fill_bits];
    by rewrite outcome_self_bind, (proj2 (Z.ltb_ge _ _)) by lia.
Qed.

Lemma fill_bits_step fuel count d out byte :
  bit_count d < count → input !! Z.to_nat (fd_cursor d) = Some byte →
  outcome (fill_bits input (S fuel) count d) out =
  outcome (fill_bits input fuel count (set_bits
    (Z.lor (bit_buffer d) (Z.land (Z.shiftl byte (bit_count d)) u32_max))
    (bit_count d + 8) (advance d))) out.
Proof.
  intros Hlt Hbyte. cbn [fill_bits]. rewrite outcome_self_bind, (proj2 (Z.ltb_lt _ _)) by done.
  by rewrite outcome_F_bind, take_input_byte_outcome, Hbyte, outcome_update_bind.
Qed.

Lemma read_bits_outcome count d out d' :
  count ≤ 15 → outcome (fill_bits input 2 count d) out = Ok (tt, d', out) →
  outcome (read_bits input count d) out =
  Ok (Z.land (bit_buffer d') (if count =? 0 then 0 else Z.shiftl 1 count - 1),
      set_bits (Z.shiftr (bit_buffer d') count) (bit_count d' - count) d', out).
Proof.
  intros Hc Hfill. unfold read_bits. rewrite outcome_invalid_bind, outcome_lift_bind.
  rewrite (proj2 (Z.ltb_ge _ _)) by done. cbn [outcome step_algorithm].
  rewrite outcome_F_bind, Hfill. by rewrite outcome_self_bind, outcome_update_bind.
Qed.

(** The three header bits of a stored block. *)
Lemma block_header_outcome {B} (f : Z → Z → F B) (final : bool) rest d out :
  aligned input d ((if final then 1 else 0) :: rest) → bit_buffer d = 0 →
  ∃ d', outcome ((final ← read_bits input 1; kind ← read_bits input 2; f final kind) d) out =
      outcome (f (if final then 1 else 0) 0 d') out ∧
    aligned input (set_bits 0 0 d') rest ∧ adler_a d' = adler_a d ∧ adler_b d' = adler_b d.
Proof.
  intros Hd Hbuf. exists (set_bits 0 5 (advance d)).
  split; [|split; [by apply aligned_advance in Hd as (_&?&?)|done]].
  destruct Hd as (Hb&Hc&[Hl _]%drop_cons_lookup).
  assert (outcome (fill_bits input 2 1 d) out =
    Ok (tt, set_bits (if final then 1 else 0) 8 (advance d), out)) as Hfill.
  { rewrite (fill_bits_step 1 1 d out (if final then 1 else 0)) by (done || lia).
    rewrite Hbuf, Hb, fill_bits_enough by (simpl; lia). by destruct final. }
  rewrite outcome_F_bind, (read_bits_outcome 1 d out _ ltac:(done) Hfill).
  rewrite outcome_F_bind. erewrite read_bits_outcome;
    [|lia|apply fill_bits_enough; simpl; lia]. by destruct final.
Qed.

Lemma blocks_loop_outcome fuel chunks rest d out :
  chunks ≠ [] → Forall (λ chunk, len chunk ≤ u16_max) chunks →
  (length chunks ≤ fuel)%nat →
  aligned input d (stored_blocks chunks ++ rest) → bit_buffer d = 0 →
  (adler_a d, adler_b d) = adler_state out →
  ∃ d', outcome (blocks_loop input fuel d) out = Ok (tt, d', out ++ concat chunks) ∧
    aligned input d' rest ∧ (adler_a d', adler_b d') = adler_state (out ++ concat chunks).
Proof.
  revert chunks d out. induction fuel as [|fuel IH]; intros chunks d out Hne Hlens Hfuel Hd Hb Ha.
  { destruct chunks; [done|simpl in Hfuel; lia]. }
  destruct chunks as [|chunk chunks]; [done|]. apply Forall_cons_1 in Hlens as [Hlen Hlens].
  cbn [stored_blocks] in Hd. unfold stored_block in Hd. rewrite <-!app_assoc in Hd.
  cbn [app] in Hd. rewrite <-!app_assoc in Hd.
  cbn [blocks_loop]. rewrite outcome_lift_bind. cbn [outcome step_algorithm].
  destruct (block_header_outcome (λ final kind, decode_block input kind;;
    if negb (final =? 0) then mret tt else blocks_loop input fuel)
    _ _ _ out Hd Hb) as (d1&->&Hd1&Ha1&Haa1).
  unfold decode_block. cbn [Z.eqb].
  destruct (stored_block_outcome (λ _, if negb ((if bool_decide (chunks = []) then 1 else 0) =? 0)
    then mret tt else blocks_loop input fuel) chunk (stored_blocks chunks ++ rest) d1 out Hlen Hd1)
    as (d2&->&Hd2&Hb2&Ha2).
  { by rewrite Ha1, Haa1. }
  cbn [concat]. rewrite app_assoc. case_bool_decide as Hch.
  - subst chunks. exists d2. rewrite app_nil_r. done.
  - cbn [negb Z.eqb]. apply IH; [done|done|simpl in Hfuel; lia|done|done|done].
Qed.
End stored.

Lemma stored_blocks_length chunks : (length chunks ≤ length (stored_blocks chunks))%nat.
Proof.
  induction chunks as [|chunk chunks IH]; [done|]. simpl. rewrite length_app. simpl. lia.
Qed.

Lemma zlib_stored_bytes chunks :
  Forall are_bytes chunks → Forall (λ chunk, len chunk ≤ u16_max) chunks →
  are_bytes (zlib_stored chunks).
Proof.
  intros Hb Hl. assert (∀ v, 0 ≤ v ≤ u16_max → are_bytes (u16_le v)) as Hu.
  { intros v Hv. unfold u16_max in Hv. repeat constructor; unfold u8_max;
      Z.to_euclidean_division_equations; lia. }
  assert (are_bytes (stored_blocks chunks)) as Hs.
  { revert Hl. induction Hb as [|chunk chunks Hc Hb IH]; intros Hl; [constructor|].
    apply Forall_cons_1 in Hl as [Hl1 Hl]. cbn [stored_blocks]. apply Forall_app.
    split; [|by apply IH]. unfold stored_block. constructor.
    { case_bool_decide; unfold is_byte, u8_max; lia. }
    repeat (apply Forall_app; split); [apply Hu; lia|apply Hu; lia|done]. }
  unfold zlib_stored. constructor; [unfold is_byte, u8_max; lia|].
  constructor; [unfold is_byte, u8_max; lia|]. apply Forall_app. split; [done|].
  apply to_be_bytes_bytes.
Qed.

Section round_trip.
Context `{Platform}.

Lemma read_header_outcome {B} (f : unit → F B) rest out :
  let input := 120 :: 1 :: rest in
  outcome ((read_header input ≫= f) FlateDecoder_new) out =
  outcome (f tt (set_window_limit 32768 (advance (advance FlateDecoder_new)))) out.
Proof. reflexivity. Qed.

Lemma flate_stored_decoded chunks :
  chunks ≠ [] → Forall are_bytes chunks → Forall (λ chunk, len chunk ≤ u16_max) chunks →
  outcome (flate_program (zlib_stored chunks)) [] = Ok (tt, concat chunks).
Proof.
  intros Hne Hbytes Hlens. pose proof (zlib_stored_bytes chunks Hbytes Hlens) as Hib.
  pose proof (stored_blocks_length chunks) as Hsl.
  rewrite flate_program_outcome. unfold zlib_stored.
  rewrite read_header_outcome, outcome_self_bind. fold (zlib_stored chunks).
  set (d := set_window_limit 32768 (advance (advance FlateDecoder_new))).
  destruct (blocks_loop_outcome (zlib_stored chunks) 
    (S (Z.to_nat (remaining_bits (zlib_stored chunks) d))) chunks
    (to_be_bytes (adler32 (concat chunks))) d []) as (d'&->&Hd'&Ha'); [done|done| |done|done|done|].
  { unfold remaining_bits, zlib_stored. cbn [length fd_cursor d set_window_limit advance
      set_cursor FlateDecoder_new bit_count]. rewrite length_app. lia. }
  cbn [app] in Ha'. destruct Hd' as (Hb&Hc&Hdrop).
  assert (fd_cursor d' ≤ len (zlib_stored chunks)) as Hcur.
  { apply (f_equal length) in Hdrop. rewrite length_drop in Hdrop.
    change (length (to_be_bytes _)) with 4%nat in Hdrop. lia. }
  destruct (check_trailer_cases (zlib_stored chunks) Hib d' (concat chunks))
    as [[_ [d'' Hout]]|[[] _]].
  - split; [split; lia|]. split; [done|by apply Forall_concat].
  - cbn [app]. rewrite Hout. done.
  - done.
Qed.
End round_trip.

(** ** Safety of the layers *)

Definition safe_on_bytes (program : list Z → prog unit) : Prop :=
  ∀ input, are_bytes input → safely (program input) [] (λ _ out, are_bytes out).

Lemma filter_program_safe `{Platform} filter : safe_on_bytes (filter_program filter).
Proof.
  intros input Hb. destruct filter; simpl.
  - unfold safely. by destruct (flate_program_cases input Hb)
      as [(out&body&->&?&_)|(code&->&?)].
  - apply ascii_hex_safely.
  - apply ascii85_safely.
  - apply (run_length_safely _ input 0); [done|constructor|lia].
Qed.

(** A stage built by [FilterStage::new] from validated parameters. *)
Definition stage_ok (stage : FilterStage) : Prop :=
  match stage_parameters stage with
  | NoParameters => True
  | Predictor parameters =>
      stage_filter stage = FlateDecode ∧ parameters_ok parameters
  end.

Lemma predictor_program_safe `{Platform} parameters :
  parameters_ok parameters → predictor parameters ≠ 1 →
  safe_on_bytes (predictor_program parameters).
Proof.
  intros Hp Hne input Hb. unfold predictor_program.
  destruct (predictor parameters =? 2) eqn:H2.
  { eapply safely_weaken; [by apply tiff_program_safely|]. by intros [] out [_ ?]. }
  destruct (10 <=? predictor parameters) eqn:H10; [by apply png_program_safely|].
  checked_facts. destruct (po_predictor _ Hp) as [?|[?|?]]; lia.
Qed.

Record layer_ok (l : layer) : Prop := {
  lo_safe : safe_on_bytes (layer_program l);
  lo_hint : ∀ input, 0 ≤ layer_hint l input
}.

Lemma filter_hint_nonneg filter input : 0 ≤ filter_hint filter input.
Proof.
  destruct filter; simpl; unfold saturating_add, saturating_mul, u64_max;
    try (apply Z.div_pos); try lia.
  assert (0 ≤ Z.min 18446744073709551615 (len input * 4) / 5) by (apply Z.div_pos; lia). lia.
Qed.

Lemma stage_layers_ok `{Platform} index is_final stage :
  stage_ok stage → Forall layer_ok (stage_layers index is_final stage).
Proof.
  unfold stage_ok, stage_layers, applied_predictor.
  destruct (stage_parameters stage) as [|parameters]; intros Hs.
  { repeat constructor; [apply filter_program_safe|apply filter_hint_nonneg]. }
  destruct Hs as [_ Hp]. destruct (_ =? 1) eqn:H1; checked_facts;
    repeat constructor; simpl;
    try apply filter_program_safe; try apply filter_hint_nonneg; try lia.
  by apply predictor_program_safe.
Qed.

Record plan_valid (plan : FilterPlan) : Prop := {
  pv_paired : plan_ok plan;
  pv_count : plan_len plan ≤ HARD_MAX_FILTERS;
  pv_stages : Forall stage_ok (plan_stages plan)
}.

Lemma plan_layers_ok `{Platform} plan : plan_valid plan → Forall layer_ok (plan_layers plan).
Proof.
  intros [_ _ Hs]. unfold plan_layers. destruct (_ =? 0).
  { repeat constructor; simpl; [|lia]. intros input Hb. by apply identity_safely. }
  revert Hs. generalize (plan_len plan) 0. generalize (plan_stages plan).
  intros stages. induction stages as [|stage stages IH]; intros count index Hs; [constructor|].
  apply Forall_cons_1 in Hs as [Hstage Hs]. cbn [stages_layers]. apply Forall_app.
  split; [by apply stage_layers_ok|by apply IH].
Qed.

Lemma layers_hints_ok layers : Forall layer_ok layers → hints_ok layers.
Proof. intros Hl. eapply Forall_impl; [exact Hl|]. by intros l []. Qed.

(** A sequence of safe layers ends in bytes or in a code of the format. *)
Lemma denote_layers_safe v layers input :
  Forall layer_ok layers → are_bytes input →
  match sm_result (denote_layers v layers input) with
  | Ok out => are_bytes out
  | Err (code, _) => code ≠ InternalState
  end.
Proof.
  intros Hl. revert input. induction Hl as [|l layers [Hsafe _] _ IH]; intros input Hb; [done|].
  cbn [denote_layers]. specialize (Hsafe input Hb). unfold safely in Hsafe.
  rewrite (outcome_denote v) in Hsafe.
  destruct (mn_result _) as [[]|code]; [|done]. by apply IH.
Qed.

(** The last layer of a plan writes the final output. *)
Lemma last_app_ne {A} (k l : list A) : l ≠ [] → list.last (k ++ l) = list.last l.
Proof.
  intros Hl. induction k as [|x k IH]; [done|]. cbn [app].
  rewrite last_cons_ne; [done|]. intros Hkl. apply Hl. by destruct k.
Qed.

Lemma stage_layers_last `{Platform} index is_final stage :
  ∃ l, list.last (stage_layers index is_final stage) = Some l ∧ layer_is_final l = is_final.
Proof. unfold stage_layers. destruct (applied_predictor stage); by eexists. Qed.

Lemma stages_layers_last `{Platform} count index stages :
  index + len stages = count → stages ≠ [] →
  ∃ l, list.last (stages_layers count index stages) = Some l ∧ layer_is_final l = true.
Proof.
  revert index. induction stages as [|stage stages IH]; intros index Hc Hne; [done|].
  cbn [stages_layers]. destruct (decide (stages = [])) as [->|Hs].
  - rewrite app_nil_r. simpl in Hc. rewrite (proj2 (Z.eqb_eq _ _)) by lia.
    apply stage_layers_last.
  - destruct (IH (index + 1)) as (l&Hl&Hfin); [simpl in Hc; lia|done|].
    exists l. split; [|done]. rewrite last_app_ne; [done|].
    intros Hnil. by rewrite Hnil in Hl.
Qed.

Lemma plan_layers_last `{Platform} plan :
  plan_ok plan →
  ∃ l, list.last (plan_layers plan) = Some l ∧ layer_is_final l = true.
Proof.
  intros Hok. unfold plan_layers, plan_len. destruct (_ =? 0) eqn:Hz; checked_facts.
  - by exists identity_layer.
  - rewrite Hok, length_fmap in *. apply stages_layers_last; [lia|].
    intros Hs. by rewrite Hs in Hz.
Qed.

(** ** Validation *)

Lemma canonical_filter_Ok name index f :
  canonical_pdf_filter name index = Ok f ↔ name = canonical_pdf_name f.
Proof.
  unfold canonical_pdf_filter. split.
  - do 4 (match goal with |- context [String.eqb name ?s] =>
      destruct (String.eqb_spec name s) as [->|_] end;
      [intros Heq; by injection Heq as <-|]). done.
  - intros ->. by destruct f.
Qed.

Lemma canonical_filter_Err name index e :
  canonical_pdf_filter name index = Err e → e = for_code UnsupportedFilter (Some index).
Proof. unfold canonical_pdf_filter. do 4 (destruct (String.eqb name _); [done|]).
  by intros [= <-].
Qed.

Lemma limits_validate_decides c :
  0 ≤ config_max_input_bytes c → 0 ≤ config_max_filters c →
  0 ≤ config_max_layer_output_bytes c → 0 ≤ config_max_total_output_bytes c →
  0 ≤ config_max_final_output_bytes c → 0 ≤ config_max_retained_capacity_bytes c →
  0 ≤ config_max_fuel c → 0 ≤ config_cancellation_check_interval_fuel c →
  decides (decode_limits_ok (DecodeLimits_of_config c)) (DecodeLimits_of_config c)
    (DecodeLimits_validate c).
Proof.
  intros. unfold DecodeLimits_validate.
  destruct (_ || _) eqn:Hbad.
  - right. split; [|by eexists]. intros []. simpl in *.
    rewrite !orb_true_iff, !Z.eqb_eq, !Z.ltb_lt in Hbad. lia.
  - left. split; [|done]. rewrite !orb_false_iff, !Z.eqb_neq, !Z.ltb_ge in Hbad.
    destruct Hbad as (((((((((((((((((((?&?)&?)&?)&?)&?)&?)&?)&?)&?)&?)&?)&?)&?)&?)&?)&?)&?)&?)&?).
    split; simpl; lia.
Qed.

(** The [i64] arguments [PredictorParameters::new] accepts. *)
Definition predictor_arguments_ok (predictor colors bits columns : Z) : Prop :=
  (predictor = 1 ∨ predictor = 2 ∨ 10 ≤ predictor) ∧
  0 < colors ≤ u32_max ∧ 0 < columns ≤ u32_max ∧
  (bits = 1 ∨ bits = 2 ∨ bits = 4 ∨ bits = 8 ∨ bits = 16) ∧
  colors * columns * bits + 7 ≤ u64_max.

Lemma predictor_new_decides predictor colors bits columns :
  decides (predictor_arguments_ok predictor colors bits columns)
    {| FilterTypes.predictor := predictor; FilterTypes.colors := colors;
       bits_per_component := bits; FilterTypes.columns := columns |}
    (PredictorParameters_new predictor colors bits columns).
Proof.
  unfold PredictorParameters_new, predictor_arguments_ok. cbv zeta.
  apply decides_fail_if; [rewrite !orb_true_iff, !Z.leb_le; lia|].
  rewrite !orb_false_iff, !Z.leb_gt. intros Hpos.
  apply decides_fail_if.
  { rewrite orb_true_iff, !andb_true_iff, !negb_true_iff, !orb_false_iff, !Z.eqb_neq, Z.ltb_lt.
    lia. }
  rewrite orb_false_iff, !andb_false_iff, !negb_false_iff, !orb_true_iff, !Z.eqb_eq, Z.ltb_ge.
  intros [Hpred Hbits].
  apply decides_require; [intros ?%try_from_None; unfold u8_max in *; lia|].
  intros b [_ ->]%try_from_Some.
  apply decides_require; [intros ?%try_from_None; lia|]. intros c [Hc ->]%try_from_Some.
  apply decides_require; [intros ?%try_from_None; lia|]. intros co [Hco ->]%try_from_Some.
  assert (colors * columns ≤ u64_max) as Hcc
    by (unfold u32_max, u64_max in *; nia).
  rewrite (proj2 (checked_mul_Some u64_max colors columns _)) by (split; [done|reflexivity]).
  cbn [mbind option_bind].
  apply decides_require; [intros ?%checked_mul_None; lia|]. intros rb [Hrb ->]%checked_mul_Some.
  apply decides_require; [intros ?%checked_add_None; lia|]. intros _ [Hadd _]%checked_add_Some.
  apply decides_ok. lia.
Qed.

Lemma predictor_new_parameters_ok predictor colors bits columns p :
  PredictorParameters_new predictor colors bits columns = Ok p → parameters_ok p.
Proof.
  destruct (predictor_new_decides predictor colors bits columns)
    as [[(?&?&?&?&?) ->]|[_ [e ->]]]; [|done]. intros [= <-]. split; try done.
  rewrite !elem_of_cons. tauto.
Qed.

Lemma stage_new_ok filter parameters stage :
  FilterStage_new filter parameters = Ok stage →
  (∀ p, parameters = Predictor p → parameters_ok p) → stage_ok stage.
Proof.
  unfold FilterStage_new, FilterStage_validate, stage_ok. simpl. intros Hnew Hp.
  apply result_bind_ok in Hnew as ([]&Hvalid&[= <-]). simpl.
  destruct parameters as [|p]; [done|]. split; [|by apply Hp].
  destruct (decide (filter = FlateDecode)); [done|].
  by rewrite bool_decide_eq_true_2 in Hvalid.
Qed.

(** ** The heap of a plan *)

(** The heap of a plan is the product of its capacities, and its bound the
    product of the filter limit. *)
Lemma retained_heap_exact `{DecodeRuntime} plan max :
  plan_filters_capacity plan * size_of_filter ≤ i64_max →
  plan_stages_capacity plan * size_of_stage ≤ i64_max →
  0 < max ≤ HARD_MAX_FILTERS →
  HARD_MAX_FILTERS * (size_of_filter + size_of_stage) ≤ i64_max →
  retained_heap_bytes plan = Ok
    (plan_filters_capacity plan * size_of_filter + plan_stages_capacity plan * size_of_stage) ∧
  retained_heap_upper_bound max = Ok (max * (size_of_filter + size_of_stage)).
Proof.
  intros Hf Hs Hm Hbound.
  pose proof size_of_filter_nonneg. pose proof size_of_stage_nonneg.
  unfold i64_max, HARD_MAX_FILTERS in *. split.
  - unfold retained_heap_bytes, retained_vec_bytes.
    rewrite !(proj2 (checked_mul_Some u64_max _ _ _))
      by (split; [unfold u64_max; lia|reflexivity]).
    cbn [require mbind result_bind].
    by rewrite (proj2 (checked_add_Some u64_max _ _ _))
      by (split; [unfold u64_max; lia|reflexivity]).
  - unfold retained_heap_upper_bound. unfold HARD_MAX_FILTERS.
    rewrite (proj2 (Z.eqb_neq _ 0)), (proj2 (Z.ltb_ge 32 _)) by lia.
    cbn [orb fail_if mbind result_bind].
    rewrite !(proj2 (checked_mul_Some u64_max _ _ _))
      by (split; [unfold u64_max; nia|reflexivity]).
    cbn [mbind option_bind].
    rewrite (proj2 (checked_add_Some u64_max _ _ _))
      by (split; [unfold u64_max; nia|reflexivity]).
    cbn [require]. f_equal. lia.
Qed.
