(* ===== verification/PlanDictionarySpec.v ===== *)
(** * What a stream dictionary describes

    A relation between dictionaries and lists of stages, independent of the
    order in which the code examines the entries, and the proof that the plan
    constructors compute it. *)

From stdpp Require Import base list numbers option sets strings.
From S2P Require Import Prelude.
From S2P Require Import SourceTypes.
From S2P Require Import SyntaxTypes.
From S2P Require Import FilterTypes.
From S2P Require Import PlanDictionary.
From S2P Require Import OutputProgram.
From S2P Require Import PredictorSpec.
From S2P Require Import StreamSpec.
From S2P Require Import StreamSafety.

(** ** The described stages *)

(** The values of a key, in source order. *)
Definition values_of (key : string) (dictionary : list DictionaryEntry)
    : list SyntaxObject :=
  value_object <$> filter (λ entry, key_bytes entry = key) dictionary.

Lemma values_of_cons key entry dictionary :
  values_of key (entry :: dictionary) =
    if String.eqb (key_bytes entry) key then value_object entry :: values_of key dictionary
    else values_of key dictionary.
Proof.
  unfold values_of. destruct (String.eqb_spec (key_bytes entry) key) as [Hk|Hk].
  - by rewrite filter_cons_True.
  - by rewrite filter_cons_False.
Qed.

Lemma values_of_app key (d d' : list DictionaryEntry) :
  values_of key (d ++ d') = values_of key d ++ values_of key d'.
Proof. unfold values_of. by rewrite filter_app, fmap_app. Qed.

Lemma values_of_elem key (d : list DictionaryEntry) v :
  v ∈ values_of key d ↔ ∃ entry, entry ∈ d ∧ key_bytes entry = key ∧ v = value_object entry.
Proof.
  unfold values_of. rewrite list_elem_of_fmap. setoid_rewrite list_elem_of_filter. naive_solver.
Qed.

Definition is_name_of (value : Located SyntaxObject) (f : StreamFilter) : Prop :=
  located_value value = Name (canonical_pdf_name f).

Definition parameter_keys : list string :=
  ["Predictor"; "Colors"; "BitsPerComponent"; "Columns"].

(** An entry of a predictor dictionary. *)
Definition is_parameter (entry : DictionaryEntry) : Prop :=
  key_bytes entry ∈ parameter_keys ∧ is_Some (as_integer (value_object entry)).

(** The integer of a key, when it has one. *)
Definition integer_of (key : string) (dictionary : PdfDictionary) : option Z :=
  head (omap as_integer (values_of key dictionary)).

Definition parameters_wf (dictionary : PdfDictionary) : Prop :=
  NoDup (key_bytes <$> dictionary) ∧ Forall is_parameter dictionary.

(** The stage that a filter and its entry of [/DecodeParms] describe. *)
Inductive stage_described (f : StreamFilter) : option SyntaxObject → FilterStage → Prop :=
| described_absent : stage_described f None (without_parameters f)
| described_null : stage_described f (Some Null) (without_parameters f)
| described_empty : stage_described f (Some (Dictionary [])) (without_parameters f)
| described_predictor entries p :
    f = FlateDecode → entries ≠ [] → parameters_wf entries →
    PredictorParameters_new (default 1 (integer_of "Predictor" entries))
      (default 1 (integer_of "Colors" entries))
      (default 8 (integer_of "BitsPerComponent" entries))
      (default 1 (integer_of "Columns" entries)) = Ok p →
    stage_described f (Some (Dictionary entries))
      {| stage_filter := f; stage_parameters := Predictor p |}.

(** The stages of an array of filters. *)
Inductive stages_described (fs : list StreamFilter)
    : option SyntaxObject → list FilterStage → Prop :=
| described_stages_absent : stages_described fs None (without_parameters <$> fs)
| described_stages_null : stages_described fs (Some Null) (without_parameters <$> fs)
| described_stages_array parameters stages :
    Forall3 (λ f parameter stage, stage_described f (Some (located_value parameter)) stage)
      fs parameters stages →
    stages_described fs (Some (Array parameters)) stages.

Definition option_values (o : option SyntaxObject) : list SyntaxObject := option_list o.

Inductive dictionary_describes (d : PdfDictionary) : list FilterStage → Prop :=
| describes_identity :
    values_of "Filter" d = [] → values_of "DecodeParms" d = [] →
    dictionary_describes d []
| describes_name f o stage :
    values_of "Filter" d = [Name (canonical_pdf_name f)] →
    values_of "DecodeParms" d = option_list o →
    stage_described f o stage → dictionary_describes d [stage]
| describes_array names fs o stages :
    values_of "Filter" d = [Array names] → names ≠ [] → Forall2 is_name_of names fs →
    values_of "DecodeParms" d = option_list o →
    stages_described fs o stages → dictionary_describes d stages.

(** ** Functionality *)

Lemma canonical_pdf_name_inj f g : canonical_pdf_name f = canonical_pdf_name g → f = g.
Proof. by destruct f, g. Qed.

Lemma is_name_of_unique names fs gs :
  Forall2 is_name_of names fs → Forall2 is_name_of names gs → fs = gs.
Proof.
  unfold is_name_of. intros Hf. revert gs.
  induction Hf as [|v f names fs Hv _ IH]; intros gs Hg; inversion Hg as [|? g ? gs' Hw]; subst;
    [done|]. f_equal; [|by apply IH]. apply canonical_pdf_name_inj. congruence.
Qed.

Lemma stage_described_unique f o s t :
  stage_described f o s → stage_described f o t → s = t.
Proof. intros Hs Ht. destruct Hs; inversion Ht; subst; try done; congruence. Qed.

Lemma stages_described_unique fs o ss ts :
  stages_described fs o ss → stages_described fs o ts → ss = ts.
Proof.
  intros Hs Ht. destruct Hs as [| |ps ss Hs]; inversion Ht as [| |ps' ts' Ht']; subst; try done.
  clear Ht. revert ts Ht'.
  induction Hs as [|f p s fs ps ss Hs _ IH]; intros ts Ht; inversion Ht; subst; [done|].
  f_equal; [by eapply stage_described_unique|by apply IH].
Qed.

Lemma dictionary_describes_unique d ss ts :
  dictionary_describes d ss → dictionary_describes d ts → ss = ts.
Proof.
  assert (∀ o o' : option SyntaxObject, option_list o = option_list o' → o = o') as Ho
    by (intros [|] [|]; simpl; congruence).
  intros [|f o s Hf Hp Hs|names fs o ss' Hf Hne Hn Hp Hs]
    [|g q t Hg Hq Ht|names' gs q ts' Hg Hne' Hn' Hq Ht]; simplify_eq; try congruence.
  - rewrite Hf in Hg. injection Hg as ->%canonical_pdf_name_inj.
    rewrite Hp in Hq. apply Ho in Hq as ->. f_equal. by eapply stage_described_unique.
  - rewrite Hf in Hg. injection Hg as <-.
    rewrite Hp in Hq. apply Ho in Hq as ->.
    pose proof (is_name_of_unique _ _ _ Hn Hn') as ->. by eapply stages_described_unique.
Qed.

Lemma stage_described_filter f o s : stage_described f o s → stage_filter s = f.
Proof. by intros []. Qed.

Lemma stage_described_ok f o s : stage_described f o s → stage_ok s.
Proof.
  intros [| | |entries p -> _ _ Hp]; try done. split; [done|].
  by eapply predictor_new_parameters_ok.
Qed.

(** ** Outcomes of the plan constructors

    [ends m P B]: whatever the probes, [m] returns a value in [P], is
    cancelled, or refuses with an error in [B]; it never panics. *)

Section ends.
Context `{DecodeRuntime}.

Definition ends {A} (m : M nat PlanFailure A) (P : A → Prop)
    (B : DecodeError → Prop) : Prop :=
  ∀ n, match (m n).2 with
       | Ok a => P a
       | Err Panicked => False
       | Err (Rejected e) =>
           (e = for_code Cancelled None ∧ ∃ k, is_cancelled k = true) ∨ B e
       end.

Lemma ends_weaken {A} (m : M nat PlanFailure A) (P Q : A → Prop) (B C : DecodeError → Prop) :
  ends m P B → (∀ a, P a → Q a) → (∀ e, B e → C e) → ends m Q C.
Proof.
  intros Hm HP HB n. specialize (Hm n). destruct (m n).2 as [a|[e|]]; naive_solver.
Qed.

Lemma ends_bind {A B} (m : M nat PlanFailure A) (f : A → M nat PlanFailure B) P Q E :
  ends m P E → (∀ a, P a → ends (f a) Q E) → ends (m ≫= f) Q E.
Proof.
  intros Hm Hf n. specialize (Hm n). unfold mbind, M_bind.
  destruct (m n) as [n' [a|e]]; simpl in *; [by apply Hf|done].
Qed.

Lemma ends_ret {A} (a : A) (P : A → Prop) E : P a → ends (mret a) P E.
Proof. by intros Ha n. Qed.

Lemma ends_reject {A} e (P : A → Prop) (E : DecodeError → Prop) :
  E e → ends (reject e) P E.
Proof. intros He n. by right. Qed.

Lemma ends_check E : ends check_metadata_cancelled (λ _, True) E.
Proof.
  intros n. unfold check_metadata_cancelled, get, modify, err_if, mbind, M_bind. simpl.
  destruct (is_cancelled n) eqn:Hn; [|done]. left. split; [done|by exists n].
Qed.

Lemma ends_check_bind {A} (m : M nat PlanFailure A) P E :
  ends m P E → ends (check_metadata_cancelled;; m) P E.
Proof. intros Hm. eapply ends_bind; [apply ends_check|done]. Qed.

Lemma ends_err_if_bind {A} b e (m : M nat PlanFailure A) P (E : DecodeError → Prop) :
  (b = true → E e) → (b = false → ends m P E) →
  ends (err_if b (Rejected e);; m) P E.
Proof.
  intros Hb Hm n. unfold err_if, mbind, M_bind. destruct b; simpl; [right; auto|by apply Hm].
Qed.

Lemma ends_ok_or_bind {A B} (o : option A) e (f : A → M nat PlanFailure B) P
    (E : DecodeError → Prop) :
  (o = None → E e) → (∀ a, o = Some a → ends (f a) P E) →
  ends (ok_or o (Rejected e) ≫= f) P E.
Proof.
  intros Ho Hf n. unfold ok_or, mbind, M_bind. destruct o; simpl; [by apply Hf|right; auto].
Qed.

Lemma ends_some_bind {A B} (o : option A) a (f : A → M nat PlanFailure B) P E :
  o = Some a → ends (f a) P E → ends (ok_or o Panicked ≫= f) P E.
Proof. intros -> Hf n. apply Hf. Qed.

Lemma ends_index_bind {A} index (f : Z → M nat PlanFailure A) P E :
  0 ≤ index ≤ u16_max → ends (f index) P E → ends (expect_index index ≫= f) P E.
Proof. intros Hi. apply ends_some_bind. by apply try_from_Some. Qed.

Lemma ends_lift {A} (r : result DecodeError A) (P : A → Prop) (E : DecodeError → Prop) :
  (∀ a, r = Ok a → P a) → (∀ e, r = Err e → E e) → ends (lift_decode r) P E.
Proof. intros HP HE n. unfold lift_decode, of_result. destruct r; simpl; auto. Qed.
End ends.

#[export] Hint Resolve ends_ret ends_reject ends_check_bind : engine.

(** The refusal of a dictionary that describes nothing: never internal. *)
Definition malformed (bad : Prop) (e : DecodeError) : Prop :=
  bad ∧ error_code e ≠ InternalState.

Lemma malformed_weaken (bad worse : Prop) e :
  (bad → worse) → malformed bad e → malformed worse e.
Proof. intros Hw [??]. by split; [apply Hw|]. Qed.

Section specs.
Context `{DecodeRuntime}.

(** [unique_metadata_value] returns the only value of a key. *)
Lemma unique_value_loop_spec entries key found :
  ends (unique_value_loop entries key found)
    (λ o, option_list found ++ values_of key entries = option_list o)
    (malformed (2 ≤ length (option_list found ++ values_of key entries))%nat).
Proof.
  revert found. induction entries as [|entry entries IH]; intros found; cbn [unique_value_loop].
  { apply ends_ret. by rewrite app_nil_r. }
  apply ends_check_bind. rewrite values_of_cons.
  destruct (String.eqb (key_bytes entry) key); [|apply IH]. apply ends_err_if_bind.
  - intros [v ->]%bool_decide_eq_true. split; [simpl; lia|done].
  - intros ->%bool_decide_eq_false%eq_None_not_Some. apply IH.
Qed.

Lemma unique_metadata_value_spec entries key :
  ends (unique_metadata_value entries key) (λ o, values_of key entries = option_list o)
    (malformed (2 ≤ length (values_of key entries))%nat).
Proof. apply unique_value_loop_spec. Qed.

(** A described dictionary has at most one value for each of its keys. *)
Lemma described_unique_keys d stages :
  dictionary_describes d stages →
  (length (values_of "Filter" d) ≤ 1)%nat ∧ (length (values_of "DecodeParms" d) ≤ 1)%nat.
Proof.
  intros [Hf Hp|f o stage Hf Hp _|names fs o ? Hf _ _ Hp _]; rewrite Hf, Hp; simpl;
    try destruct o; simpl; lia.
Qed.

(** ** Predictor dictionaries *)

Definition slots_of (d : list DictionaryEntry) : ParameterSlots :=
  {| slot_predictor := integer_of "Predictor" d; slot_colors := integer_of "Colors" d;
     slot_bits_per_component := integer_of "BitsPerComponent" d;
     slot_columns := integer_of "Columns" d |}.

Lemma integer_of_snoc key d entry v :
  as_integer (value_object entry) = Some v →
  integer_of key (d ++ [entry]) =
    match integer_of key d with
    | Some w => Some w
    | None => if String.eqb (key_bytes entry) key then Some v else None
    end.
Proof.
  intros Hv. unfold integer_of. rewrite values_of_app, values_of_cons, omap_app.
  destruct (omap as_integer (values_of key d)) as [|w l]; [|done].
  destruct (String.eqb _ _); simpl; [by rewrite Hv|done].
Qed.

(** The slot of a key holds its integer, and storing one adds an entry. *)
Lemma select_slot_spec d entry v :
  as_integer (value_object entry) = Some v →
  match select_slot (key_bytes entry) with
  | None => key_bytes entry ∉ parameter_keys
  | Some (slot, set_slot) =>
      key_bytes entry ∈ parameter_keys ∧
      slot (slots_of d) = integer_of (key_bytes entry) d ∧
      (integer_of (key_bytes entry) d = None →
       set_slot v (slots_of d) = slots_of (d ++ [entry]))
  end.
Proof.
  intros Hv. unfold select_slot, slots_of, parameter_keys.
  rewrite !(integer_of_snoc _ d entry v Hv). generalize (key_bytes entry). intros k.
  destruct (String.eqb_spec k "Predictor") as [->|H1];
    [|destruct (String.eqb_spec k "Colors") as [->|H2];
      [|destruct (String.eqb_spec k "BitsPerComponent") as [->|H3];
        [|destruct (String.eqb_spec k "Columns") as [->|H4];
          [|rewrite !not_elem_of_cons; split_and!; try done; apply not_elem_of_nil]]]];
    (split; [set_solver|split; [done|intros Hnone; simpl; rewrite ?Hnone; simpl;
      by repeat case_match]]).
Qed.

Lemma select_slot_known k : is_Some (select_slot k) ↔ k ∈ parameter_keys.
Proof.
  unfold select_slot, parameter_keys. rewrite !elem_of_cons, elem_of_nil.
  do 4 (match goal with |- context [String.eqb k ?s] =>
    destruct (String.eqb_spec k s) as [->|?] end; [by split; eauto|]).
  split; [by intros []|]. intuition congruence.
Qed.

(** In a well-formed dictionary a key without an integer is absent. *)
Lemma integer_of_None d k :
  Forall is_parameter d → integer_of k d = None → k ∉ key_bytes <$> d.
Proof.
  intros Hd Hnone (entry&->&Hin)%list_elem_of_fmap.
  assert (value_object entry ∈ values_of (key_bytes entry) d) as Hv
    by (apply values_of_elem; eauto).
  apply (proj1 (Forall_forall _ _) Hd) in Hin as [_ [v Hi]].
  unfold integer_of in Hnone. apply head_None in Hnone.
  assert (v ∈ omap as_integer (values_of (key_bytes entry) d)) as Hm
    by (apply list_elem_of_omap; eauto).
  rewrite Hnone in Hm. by apply elem_of_nil in Hm.
Qed.

Lemma integer_of_Some d k v : integer_of k d = Some v → k ∈ key_bytes <$> d.
Proof.
  unfold integer_of. intros (l&Hl)%head_Some.
  assert (v ∈ omap as_integer (values_of k d)) as Hm by (rewrite Hl; apply list_elem_of_here).
  apply list_elem_of_omap in Hm as (o&Ho&_). apply values_of_elem in Ho as (e&He&<-&_).
  by apply list_elem_of_fmap_2.
Qed.

Lemma parameters_wf_snoc d entry v :
  parameters_wf d → key_bytes entry ∈ parameter_keys →
  as_integer (value_object entry) = Some v → integer_of (key_bytes entry) d = None →
  parameters_wf (d ++ [entry]).
Proof.
  intros [Hn Hp] Hk Hv Hnone. split.
  - rewrite fmap_app. apply NoDup_app. split; [done|]. split; [|apply NoDup_singleton].
    intros k Hin ->%list_elem_of_singleton. by apply integer_of_None in Hnone.
  - apply Forall_app. split; [done|]. apply Forall_singleton. split; [done|by exists v].
Qed.

Lemma parameters_wf_entry d entry d' :
  parameters_wf (d ++ entry :: d') →
  key_bytes entry ∉ key_bytes <$> d ∧ is_parameter entry.
Proof.
  intros [Hn Hp]. rewrite fmap_app, fmap_cons in Hn. apply NoDup_app in Hn as (_&Hn&_).
  apply Forall_app in Hp as [_ Hp]. apply Forall_cons in Hp as [Hp _].
  split; [|done]. intros Hin. apply (Hn _ Hin). apply list_elem_of_here.
Qed.

Lemma parameter_loop_spec d rest filter_index :
  parameters_wf d →
  ends (parameter_loop rest filter_index (slots_of d))
    (λ slots, slots = slots_of (d ++ rest) ∧ parameters_wf (d ++ rest))
    (malformed (¬ parameters_wf (d ++ rest))).
Proof.
  revert d. induction rest as [|entry rest IH]; intros d Hd; cbn [parameter_loop].
  { apply ends_ret. by rewrite app_nil_r. }
  apply ends_check_bind. apply ends_ok_or_bind.
  { intros Hnone. split; [|done]. intros [_ [Hk _]]%parameters_wf_entry.
    apply select_slot_known in Hk as [? ?]. congruence. }
  intros [slot set_slot] Hsel. apply ends_err_if_bind.
  { intros [w Hslot]%bool_decide_eq_true. split; [|done].
    intros [Hfresh [_ [v Hv]]]%parameters_wf_entry.
    pose proof (select_slot_spec d entry v Hv) as Hspec. rewrite Hsel in Hspec.
    destruct Hspec as (_&Hget&_). apply Hfresh. apply (integer_of_Some d _ w). congruence. }
  intros Hempty%bool_decide_eq_false%eq_None_not_Some. apply ends_ok_or_bind.
  { intros Hnone. split; [|done]. intros [_ [_ [v Hv]]]%parameters_wf_entry. congruence. }
  intros v Hv. pose proof (select_slot_spec d entry v Hv) as Hspec. rewrite Hsel in Hspec.
  destruct Hspec as (Hk&Hget&Hset). rewrite Hempty in Hget.
  rewrite Hset by done. rewrite (cons_middle entry d rest), app_assoc.
  apply IH. by eapply parameters_wf_snoc.
Qed.

Lemma predictor_new_error predictor colors bits columns e :
  PredictorParameters_new predictor colors bits columns = Err e →
  error_code e = InvalidDecodeParameters ∨ error_code e = UnsupportedPredictor.
Proof.
  unfold PredictorParameters_new, fail_if, require, mbind, result_bind, mret, result_ret.
  repeat case_match; intros; simplify_eq; auto.
Qed.

Lemma canonical_parameter_stage_spec f entries filter_index :
  ends (canonical_parameter_stage f entries filter_index)
    (stage_described f (Some (Dictionary entries)))
    (malformed (¬ ∃ stage, stage_described f (Some (Dictionary entries)) stage)).
Proof.
  unfold canonical_parameter_stage. apply ends_check_bind.
  destruct entries as [|entry entries]; [apply ends_ret; constructor|].
  assert (∀ stage, stage_described f (Some (Dictionary (entry :: entries))) stage →
    f = FlateDecode ∧ parameters_wf (entry :: entries) ∧ ∃ p,
    PredictorParameters_new (default 1 (integer_of "Predictor" (entry :: entries)))
      (default 1 (integer_of "Colors" (entry :: entries)))
      (default 8 (integer_of "BitsPerComponent" (entry :: entries)))
      (default 1 (integer_of "Columns" (entry :: entries))) = Ok p) as Hinv.
  { intros stage Hs. inversion Hs; subst. eauto. }
  apply ends_err_if_bind.
  { intros Hf%bool_decide_eq_true. split; [|done]. intros [stage [? _]%Hinv]. done. }
  intros Hf%bool_decide_eq_false%dec_stable. eapply ends_bind.
  { eapply ends_weaken; [apply (parameter_loop_spec [])|intros a Ha; exact Ha|].
    - split; [apply NoDup_nil_2|constructor].
    - intros e. apply malformed_weaken. intros Hwf [stage (_&?&_)%Hinv]. done. }
  intros slots [-> Hwf]. cbn [slots_of slot_predictor slot_colors slot_bits_per_component
    slot_columns app]. destruct (PredictorParameters_new _ _ _ _) as [p|e] eqn:Hp.
  - apply ends_ret. by constructor.
  - apply ends_reject. split.
    + intros [stage (_&_&p&Hp')%Hinv]. simpl in Hp'. congruence.
    + rewrite for_code_code. by apply predictor_new_error in Hp as [-> | ->].
Qed.

(** ** Arrays of names *)

Lemma is_name_of_canonical value f index :
  is_name_of value f →
  ∃ name, located_value value = Name name ∧ canonical_pdf_filter name index = Ok f.
Proof. intros Hf. eexists. split; [exact Hf|]. by apply canonical_filter_Ok. Qed.

Lemma canonical_array_name_spec value index :
  0 ≤ index ≤ u16_max →
  ends (canonical_array_name value index) (is_name_of value)
    (malformed (¬ ∃ f, is_name_of value f)).
Proof.
  intros Hi. unfold canonical_array_name. apply ends_index_bind; [done|].
  unfold is_name_of. destruct (located_value value); try (
    apply ends_reject; split; [intros [f Hf]; congruence|by rewrite for_code_code]).
  apply ends_lift.
  - intros f ->%canonical_filter_Ok. done.
  - intros e He. split; [|by rewrite (canonical_filter_Err _ _ _ He)].
    intros [f Hf]. injection Hf as ->.
    rewrite (proj2 (canonical_filter_Ok _ _ f)) in He by done. done.
Qed.

Lemma Forall2_is_name_cons value values fs :
  Forall2 is_name_of (value :: values) fs →
  ∃ f fs', fs = f :: fs' ∧ is_name_of value f ∧ Forall2 is_name_of values fs'.
Proof. intros Hf. inversion Hf; subst. eauto. Qed.

Lemma validate_array_names_spec index values :
  0 ≤ index → index + len values ≤ u16_max + 1 →
  ends (validate_array_names index values) (λ _, ∃ fs, Forall2 is_name_of values fs)
    (malformed (¬ ∃ fs, Forall2 is_name_of values fs)).
Proof.
  revert index. induction values as [|value values IH]; intros index Hi Hlen;
    cbn [validate_array_names length] in *.
  { apply ends_ret. by exists []. }
  apply ends_check_bind. eapply ends_bind.
  { eapply ends_weaken; [apply canonical_array_name_spec; lia|intros f Hf; exact Hf|].
    intros e. apply malformed_weaken. intros Hno [fs (f&fs'&_&Hf&_)%Forall2_is_name_cons].
    apply Hno. by exists f. }
  intros f Hf. eapply ends_weaken; [apply IH; lia| |].
  - intros _ [fs Hfs]. exists (f :: fs). by constructor.
  - intros e. apply malformed_weaken. intros Hno [fs (g&fs'&_&_&Hfs)%Forall2_is_name_cons].
    apply Hno. by exists fs'.
Qed.

(** The plan after its filters and stages have been pushed. *)
Definition extend_plan (plan : FilterPlan) (fs : list StreamFilter)
    (stages : list FilterStage) : FilterPlan :=
  {| plan_filters := plan_filters plan ++ fs;
     plan_filters_capacity := plan_filters_capacity plan;
     plan_stages := plan_stages plan ++ stages;
     plan_stages_capacity := plan_stages_capacity plan |}.

Lemma push_array_names_spec index values fs plan B :
  0 ≤ index → index + len values ≤ u16_max + 1 → Forall2 is_name_of values fs →
  ends (push_array_names index values plan)
    (λ plan', plan' = extend_plan plan fs (without_parameters <$> fs)) B.
Proof.
  intros Hi Hlen Hfs. revert index plan Hi Hlen.
  induction Hfs as [|value f values fs Hf Hfs IH]; intros index plan Hi Hlen;
    cbn [push_array_names length] in *.
  { apply ends_ret. unfold extend_plan. simpl. rewrite !app_nil_r. by destruct plan. }
  apply ends_check_bind. eapply ends_bind.
  { eapply (ends_weaken _ _ (λ g, g = f)); [apply canonical_array_name_spec; lia| |].
    - intros g Hg. pose proof (is_name_of_unique [value] [g] [f]) as Hu.
      by injection Hu; [auto|repeat constructor..].
    - intros e [Hno _]. destruct Hno. by exists f. }
  intros g ->. eapply ends_weaken; [apply IH; lia|intros plan' ->|done].
  unfold extend_plan, plan_push. simpl. by rewrite <-!app_assoc.
Qed.

(** ** Decode parameters of an array *)

Abbreviation parameters_described :=
  (Forall3 (λ f parameter stage,
     stage_described f (Some (located_value parameter)) stage)).

Lemma parameters_described_cons f fs parameter parameters stages :
  parameters_described (f :: fs) (parameter :: parameters) stages →
  ∃ stage stages', stages = stage :: stages' ∧
    stage_described f (Some (located_value parameter)) stage ∧
    parameters_described fs parameters stages'.
Proof. intros Hd. inversion Hd; subst. eauto. Qed.

(** The stage of one entry of the array, in both passes. *)
Lemma parameter_stage_cases f value :
  (located_value value = Null ∧
   ∀ stage, stage_described f (Some (located_value value)) stage ↔ stage = without_parameters f) ∨
  (∃ entries, located_value value = Dictionary entries) ∨
  (located_value value ≠ Null ∧ (∀ entries, located_value value ≠ Dictionary entries) ∧
   ¬ ∃ stage, stage_described f (Some (located_value value)) stage).
Proof.
  destruct (located_value value) eqn:Hv; try (right; right; split_and!; [done|done|];
    intros [stage Hs]; inversion Hs; fail).
  - left. split; [done|]. intros stage. split; [by inversion 1|intros ->; constructor].
  - right. left. eauto.
Qed.

Lemma validate_array_parameters_spec index filters fs parameters :
  Forall2 is_name_of filters fs → length parameters = length filters →
  0 ≤ index → index + len filters ≤ u16_max + 1 →
  ends (validate_array_parameters index filters parameters)
    (λ _, ∃ stages, parameters_described fs parameters stages)
    (malformed (¬ ∃ stages, parameters_described fs parameters stages)).
Proof.
  intros Hfs. revert index parameters. induction Hfs as [|filter f filters fs Hf Hfs IH];
    intros index [|value parameters] Hlen Hi Hmax; try done;
    cbn [validate_array_parameters length] in *.
  { apply ends_ret. exists []. constructor. }
  apply ends_check_bind, ends_index_bind; [lia|].
  destruct (is_name_of_canonical filter f index Hf) as (name&->&Hname).
  eapply ends_bind; [by apply (ends_ret name (λ n, n = name))|]. intros ? ->. rewrite Hname.
  eapply ends_bind; [apply (ends_lift _ (λ g, g = f)); [by intros ? [= ->]|done]|].
  intros ? ->. eapply (ends_bind _ _ (λ _, ∃ stage,
    stage_described f (Some (located_value value)) stage)).
  { destruct (parameter_stage_cases f value) as [[Hn Hs]|[[entries Hd]|(Hn&Hd&Hno)]].
    - rewrite Hn. apply ends_ret. exists (without_parameters f). constructor.
    - rewrite Hd. eapply ends_bind.
      + eapply ends_weaken; [apply canonical_parameter_stage_spec|intros s Hs; exact Hs|].
        intros e. apply malformed_weaken. intros Hno [stages Hst].
        apply parameters_described_cons in Hst as (s&ss&_&Hs&_). rewrite Hd in Hs.
        apply Hno. by exists s.
      + intros s Hs. apply ends_ret. by exists s.
    - assert (malformed (¬ ∃ stages, parameters_described (f :: fs) (value :: parameters) stages)
        (for_code InvalidDecodeParameters (Some index))) as Hbad.
      { split; [|done]. intros [stages Hst].
        apply parameters_described_cons in Hst as (s&ss&_&Hs&_). apply Hno. by exists s. }
      destruct (located_value value); try (by apply ends_reject); [done|by destruct (Hd entries)]. }
  intros _ [stage Hs]. eapply ends_weaken; [apply (IH (index + 1)); [congruence|lia|lia]| |].
  - intros _ [stages Hss]. exists (stage :: stages). by constructor.
  - intros e. apply malformed_weaken. intros Hno [stages Hst].
    apply parameters_described_cons in Hst as (s&ss&_&_&Hss). apply Hno. by exists ss.
Qed.

Lemma assign_stage_spec {A} index stage plan (k : FilterPlan → M nat PlanFailure A) P B :
  (index < length (plan_stages plan))%nat →
  ends (k (set_plan_stages (<[index := stage]> (plan_stages plan)) plan)) P B →
  ends (assign_stage index stage plan ≫= k) P B.
Proof.
  intros Hi Hk. destruct (lookup_lt_is_Some_2 _ _ Hi) as [old Hold].
  intros n. unfold assign_stage. rewrite Hold. apply Hk.
Qed.

(** The second pass over a described array replaces the stages one by one. *)
Lemma assign_array_parameters_spec before fs values done_ stages plan B :
  plan_filters plan = before ++ fs →
  plan_stages plan = done_ ++ (without_parameters <$> fs) →
  length before = length done_ → len before + len fs ≤ u16_max + 1 →
  parameters_described fs values stages →
  ends (assign_array_parameters (length done_) values plan)
    (λ plan', plan' = set_plan_stages (done_ ++ stages) plan) B.
Proof.
  intros Hf Hs Hlen Hmax Hd. revert before done_ plan Hf Hs Hlen Hmax.
  induction Hd as [|f value stage fs values stages Hst Hd IH];
    intros before done_ plan Hf Hs Hlen Hmax; cbn [assign_array_parameters].
  { apply ends_ret. change (without_parameters <$> []) with (@nil FilterStage) in Hs.
    rewrite <-Hs. by destruct plan. }
  cbn [length] in Hmax. apply ends_check_bind, ends_index_bind; [lia|].
  assert (plan_filters plan !! length done_ = Some f) as Hlook
    by (rewrite Hf, <-Hlen; by apply list_lookup_middle).
  assert (ends (assign_stage (length done_) stage plan ≫=
    assign_array_parameters (S (length done_)) values)
    (λ plan', plan' = set_plan_stages (done_ ++ stage :: stages) plan) B) as Hk.
  { apply assign_stage_spec; [rewrite Hs, length_app, fmap_cons; simpl; lia|].
    rewrite (cons_middle stage done_ stages), app_assoc.
    replace (S (length done_)) with (length (done_ ++ [stage])) by (rewrite length_app; simpl; lia).
    eapply ends_weaken; [apply (IH (before ++ [f]))| |done].
    - simpl. by rewrite Hf, <-app_assoc.
    - simpl. rewrite Hs, fmap_cons, <-app_assoc. simpl.
      replace (length done_) with (length done_ + 0)%nat by lia. by rewrite insert_app_r.
    - rewrite !length_app. simpl. lia.
    - rewrite length_app. simpl. lia.
    - by intros plan' ->. }
  destruct (parameter_stage_cases f value) as [[Hn Hw]|[[entries He]|(_&_&Hno)]].
  - rewrite Hn, Hlook. apply Hw in Hst as ->.
    eapply ends_bind; [by apply (ends_ret _ (λ s, s = without_parameters f))|by intros s ->].
  - rewrite He, Hlook in *. eapply ends_bind.
    + eapply (ends_some_bind (Some f) f); [done|].
      eapply (ends_weaken _ _ (λ s, s = stage)); [apply canonical_parameter_stage_spec| |].
      * intros s Hs'. by eapply stage_described_unique.
      * intros e [Hno _]. destruct Hno. by exists stage.
    + by intros s ->.
  - destruct Hno. by exists stage.
Qed.

(** ** The metadata of a dictionary *)

(** At most [max] stages are described. *)
Definition describable (d : PdfDictionary) (max : Z) : Prop :=
  ∃ stages, dictionary_describes d stages ∧ len stages ≤ max.

(** What the preflight reports about a dictionary. *)
Inductive metadata_of (d : PdfDictionary) (max : Z) : PdfDictionaryPlanMetadata → Prop :=
| metadata_identity :
    values_of "Filter" d = [] → values_of "DecodeParms" d = [] →
    metadata_of d max {| md_filter := None; md_decode_parameters := None;
                         md_filter_count := 0; md_array_filter := false |}
| metadata_name name o :
    values_of "Filter" d = [Name name] → values_of "DecodeParms" d = option_list o →
    metadata_of d max {| md_filter := Some (Name name); md_decode_parameters := o;
                         md_filter_count := 1; md_array_filter := false |}
| metadata_array names o :
    values_of "Filter" d = [Array names] → names ≠ [] → len names ≤ max →
    values_of "DecodeParms" d = option_list o →
    metadata_of d max {| md_filter := Some (Array names); md_decode_parameters := o;
                         md_filter_count := len names; md_array_filter := true |}.

Lemma stages_described_length fs o stages :
  stages_described fs o stages → length stages = length fs.
Proof.
  intros [| |ps ss Hd]; rewrite ?length_fmap; [done..|].
  by apply Forall3_length_lr in Hd.
Qed.

(** Inversions of the description by the value of [/Filter]. *)
Lemma option_list_inj (o o' : option SyntaxObject) : option_list o = option_list o' → o = o'.
Proof. destruct o, o'; simpl; congruence. Qed.

Lemma describes_name_inv d name o stages :
  values_of "Filter" d = [Name name] → values_of "DecodeParms" d = option_list o →
  dictionary_describes d stages →
  ∃ f stage, name = canonical_pdf_name f ∧ stages = [stage] ∧ stage_described f o stage.
Proof.
  intros Hf Hp [Hf'|f o' stage Hf' Hp' Hs|names fs o' ss Hf']; rewrite Hf' in Hf; try done.
  injection Hf as <-. rewrite Hp in Hp'. apply option_list_inj in Hp' as ->. eauto.
Qed.

Lemma describes_array_inv d names o stages :
  values_of "Filter" d = [Array names] → values_of "DecodeParms" d = option_list o →
  dictionary_describes d stages →
  ∃ fs, Forall2 is_name_of names fs ∧ stages_described fs o stages.
Proof.
  intros Hf Hp [Hf'|f o' stage Hf' Hp' Hs|names' fs o' ss Hf' _ Hn Hp' Hs];
    rewrite Hf' in Hf; try done.
  injection Hf as <-. rewrite Hp in Hp'. apply option_list_inj in Hp' as ->. eauto.
Qed.

(** The number of stages of a described dictionary. *)
Lemma describes_length d stages names o :
  values_of "Filter" d = [Array names] → values_of "DecodeParms" d = option_list o →
  dictionary_describes d stages → length stages = length names.
Proof.
  intros Hf Hp Hd. destruct (describes_array_inv _ _ _ _ Hf Hp Hd) as (fs&Hn&Hs).
  rewrite (stages_described_length _ _ _ Hs). by apply Forall2_length in Hn.
Qed.

Lemma canonical_filter_shape_spec d value o max :
  1 ≤ max → values_of "Filter" d = [value] → values_of "DecodeParms" d = option_list o →
  ends (canonical_filter_shape value max)
    (λ '(count, array_filter), metadata_of d max
       {| md_filter := Some value; md_decode_parameters := o;
          md_filter_count := count; md_array_filter := array_filter |})
    (malformed (¬ describable d max)).
Proof.
  intros Hmax Hf Hp. unfold canonical_filter_shape. apply ends_check_bind.
  assert (∀ A (P : A → Prop), (∀ name, value ≠ Name name) →
    (∀ v vs, value ≠ Array (v :: vs)) →
    ends (reject (for_code InvalidDecodeParameters None)) P (malformed (¬ describable d max)))
    as Hrej.
  { intros A P Hn Ha. apply ends_reject. split; [|done]. intros (stages&Hd&_).
    destruct Hd as [Hf'|f o' stage Hf'|[|v vs] fs o' ss Hf' Hne]; rewrite Hf' in Hf;
      simplify_eq; [by eapply Hn|by eapply Ha]. }
  destruct value as [| | | |name| |[|v vs]| |];
    try (eapply ends_bind; [by apply (Hrej _ (λ _, False))|by intros ?]).
  - eapply ends_bind; [by apply (ends_ret _ (λ c, c = (1, false)))|]. intros ? ->.
    rewrite (proj2 (Z.ltb_ge max 1)) by lia.
    apply ends_err_if_bind; [done|]. intros _. apply ends_ret. by constructor.
  - eapply ends_bind; [by apply (ends_ret _ (λ c, c = (len (v :: vs), true)))|]. intros ? ->.
    apply ends_err_if_bind.
    + intros Hlt%Z.ltb_lt. split; [|done]. intros (stages&Hd&Hl).
      rewrite (describes_length _ _ _ _ Hf Hp Hd) in Hl. lia.
    + intros Hge%Z.ltb_ge. apply ends_ret. by constructor.
Qed.

Lemma preflight_metadata_spec d limits :
  decode_limits_ok limits →
  ends (preflight_pdf_dictionary_metadata d limits) (metadata_of d (max_filters limits))
    (malformed (¬ describable d (max_filters limits))).
Proof.
  intros Hl. unfold preflight_pdf_dictionary_metadata. apply ends_check_bind.
  eapply ends_bind.
  { eapply ends_weaken; [apply unique_metadata_value_spec|intros o Ho; exact Ho|].
    intros e. apply malformed_weaken. intros Hlen (ss&[]%described_unique_keys&_). lia. }
  intros ofilter Hf. eapply ends_bind.
  { eapply ends_weaken; [apply unique_metadata_value_spec|intros o Ho; exact Ho|].
    intros e. apply malformed_weaken. intros Hlen (ss&[]%described_unique_keys&_). lia. }
  intros oparams Hp. destruct ofilter as [filter|].
  - eapply ends_bind; [apply (canonical_filter_shape_spec d filter oparams);
      [pose proof (dl_filters _ Hl); lia|done|done]|].
    intros [count array_filter] Hmd. by apply ends_ret.
  - apply ends_err_if_bind.
    + intros [p ->]%bool_decide_eq_true. split; [|done]. intros (ss&Hd&_).
      destruct Hd as [_ Hp'|f o stage Hf'|names fs o ss Hf'];
        [by rewrite Hp' in Hp|by rewrite Hf' in Hf..].
    + intros ->%bool_decide_eq_false%eq_None_not_Some. apply ends_check_bind, ends_ret.
      by constructor.
Qed.

(** ** Validation *)

Lemma describes_stage f o stage name d :
  values_of "Filter" d = [Name name] → values_of "DecodeParms" d = option_list o →
  name = canonical_pdf_name f → stage_described f o stage → dictionary_describes d [stage].
Proof. intros Hf Hp -> Hs. by eapply describes_name. Qed.

(** The parameters of a single filter. *)
Lemma validate_name_parameters_spec d max name f o :
  1 ≤ max → values_of "Filter" d = [Name name] → values_of "DecodeParms" d = option_list o →
  name = canonical_pdf_name f →
  ends (validate_parameters
      {| md_filter := Some (Name name); md_decode_parameters := o;
         md_filter_count := 1; md_array_filter := false |} (Name name))
    (λ _, ∃ stage, stage_described f o stage) (malformed (¬ describable d max)).
Proof.
  intros Hmax Hf Hp Hname. unfold validate_parameters. cbn [md_array_filter md_decode_parameters].
  assert (∀ e, malformed (¬ ∃ stage, stage_described f o stage) e →
    malformed (¬ describable d max) e) as Hw.
  { intros e. apply malformed_weaken. intros Hno (ss&Hd&_).
    destruct (describes_name_inv _ _ _ _ Hf Hp Hd) as (g&stage&Hn&_&Hs).
    rewrite Hn in Hname. apply canonical_pdf_name_inj in Hname as ->. eauto. }
  destruct o as [[| | | | | | |entries|]|];
    try (apply ends_ret; eexists; constructor);
    try (apply ends_reject, Hw; split; [intros [s Hs]; inversion Hs|done]).
  eapply ends_bind; [by apply (ends_ret _ (λ n, n = name))|]. intros ? ->.
  eapply ends_bind.
  { apply (ends_lift _ (λ g, g = f)); rewrite (proj2 (canonical_filter_Ok name 0 f)) by done;
      [by intros ? [= ->]|done]. }
  intros ? ->. eapply ends_bind.
  - eapply ends_weaken; [apply canonical_parameter_stage_spec|intros s Hs; exact Hs|exact Hw].
  - intros s Hs. apply ends_ret. by exists s.
Qed.

(** The parameters of an array of filters. *)
Lemma validate_array_spec d max names fs o :
  max ≤ HARD_MAX_FILTERS → values_of "Filter" d = [Array names] → len names ≤ max →
  values_of "DecodeParms" d = option_list o → Forall2 is_name_of names fs →
  ends (validate_parameters
      {| md_filter := Some (Array names); md_decode_parameters := o;
         md_filter_count := len names; md_array_filter := true |} (Array names))
    (λ _, ∃ stages, stages_described fs o stages) (malformed (¬ describable d max)).
Proof.
  intros Hmax Hf Hlen Hp Hn. unfold validate_parameters.
  cbn [md_array_filter md_decode_parameters md_filter_count].
  assert (∀ e, malformed (¬ ∃ stages, stages_described fs o stages) e →
    malformed (¬ describable d max) e) as Hw.
  { intros e. apply malformed_weaken. intros Hno (ss&Hd&_).
    destruct (describes_array_inv _ _ _ _ Hf Hp Hd) as (gs&Hn'&Hs).
    rewrite <-(is_name_of_unique _ _ _ Hn Hn') in Hs. eauto. }
  destruct o as [[| | | | | |parameters| |]|];
    try (apply ends_ret; eexists; constructor);
    try (apply ends_reject, Hw; split; [intros [s Hs]; inversion Hs|done]).
  destruct (_ =? _) eqn:Heq; checked_facts.
  - eapply ends_bind; [by apply (ends_ret _ (λ n, n = names))|]. intros ? ->.
    unfold HARD_MAX_FILTERS, u16_max in *.
    eapply ends_weaken; [apply (validate_array_parameters_spec 0 names fs parameters);
      unfold u16_max; try done; lia|..].
    + intros _ [stages Hs]. exists stages. by constructor.
    + intros e He. apply Hw. revert e He. intros e. apply malformed_weaken.
      intros Hno [stages Hs]. inversion Hs; subst. eauto.
  - apply ends_reject, Hw. split; [|done]. intros [stages Hs]. inversion Hs as [| |ps ss Hd]; subst.
    apply Forall3_length_lm in Hd. apply Forall2_length in Hn. lia.
Qed.

Lemma validate_metadata_spec d max md :
  1 ≤ max ≤ HARD_MAX_FILTERS → metadata_of d max md →
  ends (validate_pdf_dictionary_metadata md) (λ _, describable d max)
    (malformed (¬ describable d max)).
Proof.
  intros Hmax [Hf Hp|name o Hf Hp|names o Hf Hne Hlen Hp];
    unfold validate_pdf_dictionary_metadata; cbn [md_filter].
  - eapply ends_weaken; [apply (ends_check (λ _, False))|intros _ _|done].
    exists []. split; [by constructor|simpl; lia].
  - eapply (ends_bind _ _ (λ _, ∃ f, name = canonical_pdf_name f)).
    { apply (ends_bind _ _ (λ f, name = canonical_pdf_name f));
        [|intros f Hname; apply ends_ret; by exists f].
      apply ends_lift; [by intros f ->%canonical_filter_Ok|]. intros e He. split.
      - intros (ss&Hd&_). destruct (describes_name_inv _ _ _ _ Hf Hp Hd) as (f&_&->&_).
        by rewrite (proj2 (canonical_filter_Ok _ _ f)) in He.
      - by rewrite (canonical_filter_Err _ _ _ He). }
    intros _ [f Hname]. eapply ends_bind.
    { apply (validate_name_parameters_spec d max name f o); [lia|done..]. }
    intros _ [stage Hs]. eapply ends_weaken; [apply ends_check|intros _ _|intros e He; exact He].
    exists [stage]. split; [by eapply describes_stage|simpl; lia].
  - eapply (ends_bind _ _ (λ _, ∃ fs, Forall2 is_name_of names fs)).
    { unfold HARD_MAX_FILTERS in *.
      eapply ends_weaken; [apply validate_array_names_spec; unfold u16_max; lia|done|].
      intros e. apply malformed_weaken. intros Hno (ss&Hd&_).
      destruct (describes_array_inv _ _ _ _ Hf Hp Hd) as (fs&Hn&_). eauto. }
    intros _ [fs Hn]. eapply ends_bind.
    { apply (validate_array_spec d max names fs o); [lia|done..]. }
    intros _ [stages Hs]. eapply ends_weaken; [apply ends_check|intros _ _|intros e He; exact He].
    exists stages. split; [by eapply describes_array|].
    apply stages_described_length in Hs. apply Forall2_length in Hn. lia.
Qed.

(** ** Construction *)

Lemma assign_name_parameters_spec f o stage plan B :
  plan_filters plan = [f] → plan_stages plan = [without_parameters f] →
  stage_described f o stage →
  ends (assign_parameters false o plan) (λ plan', plan' = set_plan_stages [stage] plan) B.
Proof.
  intros Hf Hs Hd. unfold assign_parameters.
  assert (set_plan_stages [without_parameters f] plan = plan) as Hsame
    by (rewrite <-Hs; by destruct plan).
  destruct o as [[| | | | | | |entries|]|];
    try (inversion Hd; subst; apply ends_ret; by rewrite Hsame); try by inversion Hd.
  rewrite Hf. eapply (ends_some_bind (Some f) f); [done|]. eapply ends_bind.
  { eapply (ends_weaken _ _ (λ s, s = stage)); [apply canonical_parameter_stage_spec| |].
    - intros s Hs'. by eapply stage_described_unique.
    - intros e [Hno _]. destruct Hno. by exists stage. }
  intros s ->. intros n. unfold assign_stage. by rewrite Hs.
Qed.

Lemma assign_array_spec fs o stages plan B :
  plan_filters plan = fs → plan_stages plan = without_parameters <$> fs →
  len fs ≤ u16_max + 1 → stages_described fs o stages →
  ends (assign_parameters true o plan) (λ plan', plan' = set_plan_stages stages plan) B.
Proof.
  intros Hf Hs Hlen Hd. unfold assign_parameters.
  destruct Hd as [| |parameters stages Hd];
    try (apply ends_ret; rewrite <-Hs; by destruct plan).
  pose proof (Forall3_length_lm _ _ _ _ Hd) as Hl.
  unfold plan_len. rewrite Hf, (proj2 (Z.eqb_eq _ _)) by lia.
  apply (assign_array_parameters_spec [] fs parameters [] stages plan); try done.
Qed.

(** The capacities of a plan are those of an allocation for its stages. *)
Definition allocated (plan : FilterPlan) : Prop :=
  ∃ limit empty, FilterPlan_allocate (len (plan_stages plan)) limit = Ok empty ∧
    plan_filters_capacity plan = plan_filters_capacity empty ∧
    plan_stages_capacity plan = plan_stages_capacity empty.

(** Why a described dictionary may still be refused. *)
Inductive plan_resources (d : PdfDictionary) (e : DecodeError) : Prop :=
| refused_allocation stages limit :
    dictionary_describes d stages → FilterPlan_allocate (len stages) limit = Err e →
    plan_resources d e
| refused_heap plan limit :
    dictionary_describes d (plan_stages plan) → allocated plan →
    len (plan_stages plan) ≤ limit → 0 < limit ≤ HARD_MAX_FILTERS →
    validate_retained_heap_limit plan limit = Err e → plan_resources d e.

(** A plan that was built: its stages, paired with their filters, and the
    bound on the heap of its vectors. *)
Record plan_built (d : PdfDictionary) (max : Z) (plan : FilterPlan) : Prop := {
  pb_describes : dictionary_describes d (plan_stages plan);
  pb_paired : plan_filters plan = stage_filter <$> plan_stages plan;
  pb_count : plan_len plan ≤ max;
  pb_allocated : allocated plan;
  pb_heap : ∃ attempted, validate_retained_heap_limit plan max = Ok attempted
}.

Lemma allocate_empty count limit plan :
  FilterPlan_allocate count limit = Ok plan → plan_filters plan = [] ∧ plan_stages plan = [].
Proof.
  unfold FilterPlan_allocate. intros Ha.
  apply result_bind_ok in Ha as (c&_&Ha). apply result_bind_ok in Ha as (c'&_&[= <-]). done.
Qed.

(** The end of the construction: a probe and the heap limit. *)
Lemma finish_plan_spec d max plan :
  dictionary_describes d (plan_stages plan) →
  plan_filters plan = stage_filter <$> plan_stages plan → plan_len plan ≤ max →
  allocated plan → 0 < max ≤ HARD_MAX_FILTERS →
  ends (check_metadata_cancelled;;
        lift_decode (validate_retained_heap_limit plan max);; mret plan)
    (plan_built d max) (λ e, malformed (¬ describable d max) e ∨ plan_resources d e).
Proof.
  intros Hd Hp Hc Ha Hmax. apply ends_check_bind. eapply (ends_bind _ _
    (λ _, ∃ attempted, validate_retained_heap_limit plan max = Ok attempted)).
  - apply ends_lift; [eauto|]. intros e He. right. apply (refused_heap _ _ plan max); try done.
    unfold plan_len in Hc. by rewrite Hp, length_fmap in Hc.
  - intros _ Hh. by apply ends_ret.
Qed.

Lemma described_filters fs o stages :
  stages_described fs o stages → stage_filter <$> stages = fs.
Proof.
  assert (stage_filter <$> (without_parameters <$> fs) = fs) as Hw.
  { clear. induction fs as [|f fs IH]; [done|]. by rewrite !fmap_cons, IH. }
  intros [| |ps ss Hd]; try exact Hw. clear Hw.
  induction Hd as [|f p s fs ps ss Hs _ IH]; [done|].
  rewrite fmap_cons, IH. f_equal. by eapply stage_described_filter.
Qed.

(** The allocation and the stages of a described dictionary. *)
Lemma allocate_spec {A} d max stages limit (k : FilterPlan → M nat PlanFailure A) P :
  dictionary_describes d stages →
  (∀ plan, FilterPlan_allocate (len stages) limit = Ok plan →
     plan_filters plan = [] → plan_stages plan = [] →
     ends (k plan) P (λ e, malformed (¬ describable d max) e ∨ plan_resources d e)) →
  ends (lift_decode (FilterPlan_allocate (len stages) limit) ≫= k) P
    (λ e, malformed (¬ describable d max) e ∨ plan_resources d e).
Proof.
  intros Hd Hk.
  eapply (ends_bind _ _ (λ plan, FilterPlan_allocate (len stages) limit = Ok plan)).
  - apply ends_lift; [done|]. intros e He. right. by eapply refused_allocation.
  - intros plan Ha. destruct (allocate_empty _ _ _ Ha). by apply Hk.
Qed.

(** [FilterPlan::new] of no filters, built before the limit is applied. *)
Lemma new_empty_spec d max :
  dictionary_describes d [] → 0 ≤ max →
  ends (lift_decode (FilterPlan_new []))
    (λ plan, plan_filters plan = [] ∧ plan_stages plan = [] ∧ allocated plan)
    (λ e, malformed (¬ describable d max) e ∨ plan_resources d e).
Proof.
  intros Hd Hmax. apply ends_lift; unfold FilterPlan_new.
  - intros plan Hnew. apply result_bind_ok in Hnew as ([]&_&Hnew).
    apply result_bind_ok in Hnew as (plan'&Ha&Hnew). cbn [foldl] in Hnew.
    apply result_bind_ok in Hnew as (?&_&[= <-]).
    destruct (allocate_empty _ _ _ Ha) as [Hf Hs]. split_and!; [done..|].
    exists HARD_MAX_FILTERS, plan'. by rewrite Hs.
  - intros e. change (validate_hard_filter_count (len [])) with (@Ok DecodeError unit tt).
    change (len []) with 0. cbn [mbind result_bind].
    destruct (FilterPlan_allocate 0 HARD_MAX_FILTERS) as [plan|e'] eqn:Ha;
      cbn [mbind result_bind foldl]; intros He.
    + right. destruct (allocate_empty _ _ _ Ha) as [Hf Hs].
      apply (refused_heap _ _ plan HARD_MAX_FILTERS).
      * by rewrite Hs.
      * exists HARD_MAX_FILTERS, plan. by rewrite Hs.
      * by rewrite Hs.
      * done.
      * destruct (validate_retained_heap_limit plan HARD_MAX_FILTERS); [done|].
        by injection He as ->.
    + injection He as <-. right. by apply (refused_allocation _ _ [] HARD_MAX_FILTERS).
Qed.

Lemma from_pdf_dictionary_spec d limits :
  decode_limits_ok limits →
  ends (FilterPlan_from_pdf_dictionary d limits) (plan_built d (max_filters limits))
    (λ e, malformed (¬ describable d (max_filters limits)) e ∨ plan_resources d e).
Proof.
  intros Hl. pose proof (dl_filters _ Hl) as Hmax. unfold FilterPlan_from_pdf_dictionary.
  eapply ends_bind.
  { eapply ends_weaken; [by apply preflight_metadata_spec|intros md Hmd; exact Hmd|].
    intros e He. by left. }
  intros md Hmd. eapply ends_bind.
  { eapply ends_weaken; [apply (validate_metadata_spec d (max_filters limits) md); [lia|done]| |].
    - intros u Hu. exact Hu.
    - intros e He. by left. }
  intros _ (stages&Hd&Hlen). destruct Hmd as [Hf Hp|name o Hf Hp|names o Hf Hne Hn Hp];
    cbn [md_filter md_filter_count md_array_filter md_decode_parameters].
  - eapply ends_bind; [apply (new_empty_spec d (max_filters limits)); [by constructor|lia]|].
    intros plan (Hpf&Hps&Ha). apply finish_plan_spec; [..|done|lia].
    + rewrite Hps. by constructor.
    + by rewrite Hpf, Hps.
    + unfold plan_len. rewrite Hpf. simpl. lia.
  - destruct (describes_name_inv _ _ _ _ Hf Hp Hd) as (f&stage&->&->&Hs).
    apply (allocate_spec d (max_filters limits) [stage]); [done|]. intros plan Ha Hpf Hps.
    eapply (ends_bind _ _ (λ plan', plan' = extend_plan plan [f] [without_parameters f])).
    { eapply ends_bind; [apply (ends_lift _ (λ g, g = f));
        rewrite (proj2 (canonical_filter_Ok _ 0 f)) by done; [by intros ? [= ->]|done]|].
      intros ? ->. by apply ends_ret. }
    intros plan' ->. eapply ends_bind.
    { apply (assign_name_parameters_spec f o stage); [|..|done]; simpl; by rewrite ?Hpf, ?Hps. }
    intros plan' ->. apply finish_plan_spec; simpl; [done|..].
    + rewrite Hpf. simpl. by rewrite (stage_described_filter _ _ _ Hs).
    + unfold plan_len. simpl. rewrite Hpf. simpl. lia.
    + by exists (max_filters limits), plan.
    + unfold HARD_MAX_FILTERS in *. lia.
  - destruct (describes_array_inv _ _ _ _ Hf Hp Hd) as (fs&Hnames&Hs).
    pose proof (stages_described_length _ _ _ Hs). pose proof (Forall2_length _ _ _ Hnames).
    replace (len names) with (len stages) by lia.
    apply (allocate_spec d (max_filters limits) stages); [done|]. intros plan Ha Hpf Hps.
    unfold HARD_MAX_FILTERS, u16_max in *. eapply ends_bind.
    { apply (push_array_names_spec 0 names fs plan); unfold u16_max; [lia|lia|done]. }
    intros plan' ->. eapply ends_bind.
    { apply (assign_array_spec fs o stages); simpl; rewrite ?Hpf, ?Hps;
        unfold u16_max; try done; lia. }
    intros plan' ->. apply finish_plan_spec; simpl; [done|..].
    + rewrite Hpf. simpl. by rewrite (described_filters _ _ _ Hs).
    + unfold plan_len. simpl. rewrite Hpf. simpl. lia.
    + by exists (max_filters limits), plan.
    + unfold HARD_MAX_FILTERS in *. lia.
Qed.

Lemma preflight_spec d limits :
  decode_limits_ok limits →
  ends (preflight_pdf_dictionary d limits)
    (λ count, ∃ stages, dictionary_describes d stages ∧ len stages = count ∧
       count ≤ max_filters limits)
    (malformed (¬ describable d (max_filters limits))).
Proof.
  intros Hl. pose proof (dl_filters _ Hl) as Hmax. unfold preflight_pdf_dictionary.
  eapply ends_bind; [by apply preflight_metadata_spec|]. intros md Hmd.
  eapply ends_bind; [apply (validate_metadata_spec d (max_filters limits) md); [lia|done]|].
  intros _ (stages&Hd&Hlen).
  assert (md_filter_count md = len stages) as Hcount.
  { destruct Hmd as [Hf Hp|name o Hf Hp|names o Hf Hne Hn Hp]; cbn [md_filter_count].
    - by rewrite (dictionary_describes_unique d stages []) by (done || by constructor).
    - by destruct (describes_name_inv _ _ _ _ Hf Hp Hd) as (f&stage&_&->&_).
    - by rewrite (describes_length _ _ _ _ Hf Hp Hd). }
  unfold HARD_MAX_FILTERS in Hmax. intros n. rewrite Hcount.
  rewrite (proj2 (try_from_Some u16_max (len stages) _))
    by (split; [unfold u16_max; lia|reflexivity]).
  by exists stages.
Qed.
End specs.
