(* ===== verification/FilterProps.v ===== *)
(** * The properties of the stream filters

    [decode_stream] refines the unlimited meaning of its plan under the budget
    of the request; the format of every layer; validation of the inputs. *)

From stdpp Require Import base list numbers option strings.
From S2P Require Import Prelude.
From S2P Require Import SourceTypes.
From S2P Require Import FilterTypes.
From S2P Require Import DecodeBudget.
From S2P Require Import DecodeBudgetSpec.
From S2P Require Import OutputProgram.
From S2P Require Import AsciiFilters.
From S2P Require Import AsciiSpec.
From S2P Require Import Predictor.
From S2P Require Import PredictorSpec.
From S2P Require Import Flate.
From S2P Require Import FlateSpec.
From S2P Require Import StreamSafety.
From S2P Require Import DecodeStream.
From S2P Require Import StreamSpec.

(** ** Requests *)

(** A request as its constructors build it: validated limits and stages, bytes
    to decode, and plan vectors whose size in bytes is representable. *)
Record request_ok `{DecodeRuntime} (request : DecodeRequest) : Prop := {
  rk_limits : decode_limits_ok (rq_limits request);
  rk_plan : plan_valid (rq_plan request);
  rk_bytes : are_bytes (slice_bytes (rq_encoded request));
  rk_length : len (slice_bytes (rq_encoded request)) ≤ u64_max;
  rk_filters_heap : plan_filters_capacity (rq_plan request) * size_of_filter ≤ i64_max;
  rk_stages_heap : plan_stages_capacity (rq_plan request) * size_of_stage ≤ i64_max;
  rk_bound : HARD_MAX_FILTERS * (size_of_filter + size_of_stage) ≤ i64_max
}.

(** The meaning of a request: its plan on its bytes, without limits. *)
Definition request_meaning `{Platform} (request : DecodeRequest) : stream_meaning :=
  denote_layers (fuel_schedule (rq_profile request)) (plan_layers (rq_plan request))
    (slice_bytes (rq_encoded request)).

(** The run of the layers of a request, after its first probe. *)
Definition initial_budget (request : DecodeRequest) : DecodeBudget :=
  DecodeBudget_new (rq_limits request) (fuel_schedule (rq_profile request)) 1.

Definition run_plan `{DecodeRuntime} (request : DecodeRequest)
    : DecodeBudget * result DecodeError ByteVec :=
  decode_plan (slice_bytes (rq_encoded request)) (rq_plan request) (initial_budget request).

(** Why a request may be refused: before its layers run, in one of them, or because its
    data has no meaning. *)
Inductive refused `{DecodeRuntime} (request : DecodeRequest) : DecodeError → Prop :=
| refused_cancelled :
    is_cancelled 0 = true → refused request (for_code Cancelled None)
| refused_input :
    max_input_bytes (rq_limits request) < len (slice_bytes (rq_encoded request)) →
    refused request (resource InputBytes (max_input_bytes (rq_limits request)) 0
      (len (slice_bytes (rq_encoded request))) None)
| refused_filters :
    max_filters (rq_limits request) < plan_len (rq_plan request) →
    refused request (resource FilterCount (max_filters (rq_limits request)) 0
      (plan_len (rq_plan request)) None)
| refused_plan limit attempted :
    retained_heap_upper_bound (max_filters (rq_limits request)) = Ok limit →
    retained_heap_bytes (rq_plan request) = Ok attempted → limit < attempted →
    refused request (resource FilterPlanBytes limit 0 attempted None)
| refused_layers e :
    db_limits (run_plan request).1 = rq_limits request →
    stopped_at (plan_layers (rq_plan request))
      {| vec_bytes := slice_bytes (rq_encoded request); vec_capacity := 0 |}
      (initial_budget request) (run_plan request).1 e →
    refused request e
| refused_data code index :
    sm_result (request_meaning request) = Err (code, index) → code ≠ InternalState →
    refused request (for_code code index).

Section stream.
Context `{DecodeRuntime}.
Implicit Types request : DecodeRequest.

Lemma budget_ok_new limits schedule probes :
  decode_limits_ok limits → budget_ok (DecodeBudget_new limits schedule probes).
Proof. intros Hl. pose proof Hl as []. split; simpl; try done; lia. Qed.

(** What the layers of a valid request end in. *)
Lemma decode_plan_spec request b r :
  request_ok request →
  decode_plan (slice_bytes (rq_encoded request)) (rq_plan request)
    (DecodeBudget_new (rq_limits request) (fuel_schedule (rq_profile request)) 1) = (b, r) →
  layers_spec (plan_layers (rq_plan request))
    {| vec_bytes := slice_bytes (rq_encoded request); vec_capacity := 0 |}
    (DecodeBudget_new (rq_limits request) (fuel_schedule (rq_profile request)) 1) b r.
Proof.
  intros [Hl Hp Hb _ _ _ _] Hrun. rewrite decode_plan_run in Hrun by apply Hp.
  apply run_layers_sound in Hrun; [done|..].
  - apply layers_hints_ok, plan_layers_ok, Hp.
  - by apply budget_ok_new.
  - done.
Qed.

Lemma request_meaning_safe request :
  request_ok request →
  match sm_result (request_meaning request) with
  | Ok out => are_bytes out
  | Err (code, _) => code ≠ InternalState
  end.
Proof.
  intros [_ Hp Hb _ _ _ _]. apply denote_layers_safe; [by apply plan_layers_ok|done].
Qed.

(** The heap of a plan is the product of its capacities, within its bound. *)
Lemma retained_heap_spec request :
  request_ok request →
  retained_heap_bytes (rq_plan request) = Ok
    (plan_filters_capacity (rq_plan request) * size_of_filter
     + plan_stages_capacity (rq_plan request) * size_of_stage) ∧
  retained_heap_upper_bound (max_filters (rq_limits request)) = Ok
    (max_filters (rq_limits request) * (size_of_filter + size_of_stage)).
Proof.
  intros [Hl _ _ _ Hf Hs Hbound]. apply retained_heap_exact; try done. apply (dl_filters _ Hl).
Qed.

(** The bytes the two vectors of the plan hold. *)
Definition plan_heap request : Z :=
  plan_filters_capacity (rq_plan request) * size_of_filter
  + plan_stages_capacity (rq_plan request) * size_of_stage.

Definition sealed request (b : DecodeBudget) (decoded : list Z) : DecodedStream :=
  {| decoded_bytes := decoded;
     decoded_attestation := {|
       at_snapshot := rq_snapshot request;
       at_source_identity := snapshot_identity (rq_snapshot request);
       at_owner := rq_owner request;
       at_dictionary_span := rq_dictionary_span request;
       at_encoded_span := rq_encoded_span request;
       at_encoded := rq_encoded request; at_plan := rq_plan request;
       at_profile := rq_profile request; at_limits := rq_limits request;
       at_fuel_schedule := fuel_schedule (rq_profile request);
       at_fuel_consumed := fuel_consumed b;
       at_cumulative_output_bytes := cumulative_output_bytes b;
       at_peak_retained_capacity_bytes := peak_retained_capacity_bytes b;
       at_plan_retained_heap_bytes := plan_heap request;
       at_decoded_length := len decoded |} |}.

(** A decoded plan fits the final limit, so its length is representable. *)
Lemma run_plan_final request b decoded :
  request_ok request → run_plan request = (b, Ok decoded) →
  len (vec_bytes decoded) ≤ max_final_output_bytes (rq_limits request).
Proof.
  intros Hok Hrun. pose proof (decode_plan_spec _ _ _ Hok Hrun) as (_&_&_&_&_&_&Hfin&_).
  destruct (plan_layers_last (rq_plan request)) as (l&Hl&Hlf); [apply Hok|].
  by apply (Hfin l).
Qed.

(** What is checked before a layer runs. *)
Record admissible request : Prop := {
  ad_probe : is_cancelled 0 = false;
  ad_input : len (slice_bytes (rq_encoded request)) ≤ max_input_bytes (rq_limits request);
  ad_filters : plan_len (rq_plan request) ≤ max_filters (rq_limits request);
  ad_heap : plan_heap request
    ≤ max_filters (rq_limits request) * (size_of_filter + size_of_stage)
}.

(** The checks before the layers run, and the sealing after them. *)
Lemma decode_stream_run request :
  request_ok request →
  (¬ admissible request ∧ ∃ e, decode_stream request = Err e ∧ refused request e) ∨
  (admissible request ∧
   decode_stream request =
     match run_plan request with
     | (_, Err e) => Err e
     | (b, Ok decoded) => Ok (sealed request b (vec_bytes decoded))
     end).
Proof.
  intros Hok. pose proof Hok as [Hl Hp Hb Hlen Hf Hs Hbound].
  pose proof (retained_heap_spec request Hok) as [Hheap Hupper]. fold (plan_heap request) in Hheap.
  pose proof (pv_count _ Hp) as Hcount. unfold HARD_MAX_FILTERS in Hcount.
  unfold decode_stream. destruct (is_cancelled 0) eqn:Hc.
  { left. split; [intros []; (congruence || lia)|].
    eexists. split; [reflexivity|]. by constructor. }
  cbn [fail_if mbind result_bind].
  rewrite (proj2 (try_from_Some u64_max (len (slice_bytes _)) _)) by (split; [lia|reflexivity]).
  cbn [require mbind result_bind].
  destruct (max_input_bytes _ <? _) eqn:Hin; checked_facts; cbn [fail_if mbind result_bind].
  { left. split; [intros []; (congruence || lia)|].
    eexists. split; [reflexivity|]. by constructor. }
  rewrite (proj2 (try_from_Some u64_max (plan_len _) _))
    by (split; [unfold plan_len, u64_max in *; lia|reflexivity]).
  cbn [require mbind result_bind].
  destruct (max_filters _ <? _) eqn:Hfl; checked_facts; cbn [fail_if mbind result_bind].
  { left. split; [intros []; (congruence || lia)|].
    eexists. split; [reflexivity|]. by constructor. }
  unfold validate_retained_heap_limit. rewrite Hheap, Hupper. cbn [mbind result_bind].
  destruct (_ <? plan_heap _) eqn:Hph; checked_facts; cbn [fail_if mbind result_bind mret result_ret].
  { left. split; [intros []; lia|].
    eexists. split; [reflexivity|]. by econstructor. }
  right. split; [by split|]. fold (initial_budget request). fold (run_plan request).
  destruct (run_plan request) as [b [decoded|e]] eqn:Hrun; [|done].
  pose proof (run_plan_final _ _ _ Hok Hrun). pose proof (dl_final _ Hl).
  unfold HARD_MAX_FINAL_OUTPUT_BYTES in *.
  by rewrite (proj2 (try_from_Some u64_max (len (vec_bytes decoded)) _))
    by (split; [unfold u64_max; lia|reflexivity]).
Qed.

(** A stream is the meaning of its request, and its attestation says so. *)
Lemma decode_stream_result request stream :
  request_ok request → decode_stream request = Ok stream →
  sm_result (request_meaning request) = Ok (decoded_bytes stream) ∧
  at_fuel_consumed (decoded_attestation stream) = sm_fuel (request_meaning request) ∧
  at_cumulative_output_bytes (decoded_attestation stream)
    = sm_total (request_meaning request).
Proof.
  intros Hok Hrun.
  destruct (decode_stream_run request Hok) as [(_&e&Herr&_)|(_&Hdec)]; [congruence|].
  rewrite Hdec in Hrun. destruct (run_plan request) as [b [decoded|e]] eqn:Hplan; [|done].
  injection Hrun as <-. cbn [decoded_bytes sealed decoded_attestation at_fuel_consumed
    at_cumulative_output_bytes].
  pose proof (decode_plan_spec _ _ _ Hok Hplan) as (_&_&Hfuel&Htot&Hres&_).
  simpl in Hfuel, Htot. change (denote_layers _ _ _) with (request_meaning request) in *.
  split; [done|lia].
Qed.

(** C2: soundness of [decode_stream]. A stream that is returned is the meaning
    of the plan on the encoded bytes; its attestation repeats the request and
    reports the exact fuel and output, all within the validated limits. *)
Theorem decode_stream_sound request stream :
  request_ok request → decode_stream request = Ok stream →
  sm_result (request_meaning request) = Ok (decoded_bytes stream) ∧
  are_bytes (decoded_bytes stream) ∧
  ∃ b, stream = sealed request b (decoded_bytes stream) ∧
    fuel_consumed b = sm_fuel (request_meaning request) ∧
    fuel_consumed b ≤ max_fuel (rq_limits request) ∧
    cumulative_output_bytes b = sm_total (request_meaning request) ∧
    cumulative_output_bytes b ≤ max_total_output_bytes (rq_limits request) ∧
    peak_retained_capacity_bytes b ≤ max_retained_capacity_bytes (rq_limits request) ∧
    Forall (λ n, n ≤ max_layer_output_bytes (rq_limits request))
      (sm_outputs (request_meaning request)) ∧
    len (decoded_bytes stream) ≤ max_final_output_bytes (rq_limits request) ∧
    plan_heap request ≤ max_filters (rq_limits request) * (size_of_filter + size_of_stage).
Proof.
  intros Hok Hrun. pose proof (request_meaning_safe request Hok) as Hsafe.
  destruct (decode_stream_run request Hok) as [(_&e&Herr&_)|([_ _ _ Hheap]&Hdec)];
    [congruence|].
  rewrite Hdec in Hrun. destruct (run_plan request) as [b [decoded|e]] eqn:Hplan; [|done].
  injection Hrun as <-. cbn [decoded_bytes sealed].
  pose proof (run_plan_final _ _ _ Hok Hplan) as Hfinal.
  pose proof (decode_plan_spec _ _ _ Hok Hplan) as (Hb&Hlater&Hfuel&Htot&Hres&Hall&_&_).
  fold (request_meaning request) in Hfuel, Htot, Hres, Hall.
  pose proof (lt_limits _ _ Hlater) as Hlims. destruct Hb as [_ _ Hmf _ Ht Hpk].
  rewrite Hlims in *. simpl in *. change (denote_layers _ _ _) with (request_meaning request) in *.
  rewrite Hres in Hsafe. split; [done|]. split; [done|].
  exists b. split_and!; try done; lia.
Qed.

(** C17: every error of [decode_stream] is justified. For a valid request it is one
    of: the first probe answered "cancelled"; the input, the filters or the heap of
    the plan exceed the limit that it names; one of the layers stopped, that is, the
    last probe answered "cancelled", or up to that layer the plan needs more fuel,
    output of a layer, of the plan or at the end, or retained bytes, than the
    configured limit, which it reports as reached with the work that exceeds it, or
    the last request to the allocator, of a full vector within the limits, was
    refused or gave more than they admit; or the data has no meaning, with the code
    and the filter of that. It is never an internal error. *)
Theorem decode_stream_errors request e :
  request_ok request → decode_stream request = Err e →
  refused request e ∧ error_code e ≠ InternalState.
Proof.
  intros Hok Hrun. assert (refused request e) as Href.
  { destruct (decode_stream_run request Hok) as [(_&e'&Herr&?)|(_&Hdec)];
      [by replace e with e' by congruence|].
    rewrite Hdec in Hrun. destruct (run_plan request) as [b [decoded|e']] eqn:Hplan;
      simplify_eq.
    pose proof (decode_plan_spec _ _ _ Hok Hplan) as (_&Hl&[Hi|(code&i&Hcode&->)]).
    - apply refused_layers; rewrite Hplan; [apply (lt_limits _ _ Hl)|exact Hi].
    - pose proof (request_meaning_safe request Hok) as Hsafe.
      change (sm_result (request_meaning request) = Err (code, i)) in Hcode.
      rewrite Hcode in Hsafe. by apply refused_data. }
  split; [done|]. destruct Href; rewrite ?for_code_code; try done.
  match goal with Hi : stopped_at _ _ _ _ _ |- _ =>
    apply stopped_at_code in Hi as [->| ->] end; done.
Qed.

(** C24: completeness of [decode_stream]. Never cancelled, with an allocator that
    gives what is asked, an admissible request whose meaning is an output that
    fits its limits is decoded to that output. *)
Theorem decode_stream_complete request out :
  quiet → request_ok request → admissible request →
  sm_result (request_meaning request) = Ok out →
  sm_fuel (request_meaning request) ≤ max_fuel (rq_limits request) →
  sm_total (request_meaning request) ≤ max_total_output_bytes (rq_limits request) →
  layers_fit (fuel_schedule (rq_profile request)) (rq_limits request)
    (plan_layers (rq_plan request)) (slice_bytes (rq_encoded request)) 0 →
  ∃ stream, decode_stream request = Ok stream ∧ decoded_bytes stream = out.
Proof.
  intros Hq Hok Had Hres Hfuel Htot Hfit. pose proof Hok as [Hl Hp Hb _ _ _ _].
  destruct (run_layers_complete (plan_layers (rq_plan request))
    {| vec_bytes := slice_bytes (rq_encoded request); vec_capacity := 0 |}
    (initial_budget request) out) as (b&decoded&Hrun&Hout); try done.
  { apply layers_hints_ok, plan_layers_ok, Hp. }
  { by apply budget_ok_new. }
  assert (run_plan request = (b, Ok decoded)) as Hplan.
  { unfold run_plan. rewrite decode_plan_run by apply Hp. exact Hrun. }
  destruct (decode_stream_run request Hok) as [[Hnot _]|[_ Hdec]]; [by destruct Hnot|].
  rewrite Hdec, Hplan. eexists. split; [reflexivity|]. done.
Qed.

(** C38: cancellation is prompt. However the layers of a valid request end, the
    fuel spent since the last probe is less than one interval, and a run that
    succeeds was never answered "cancelled". *)
Theorem cancellation_is_prompt request b r :
  request_ok request → run_plan request = (b, r) →
  0 ≤ fuel_consumed b - last_cancellation_probe_fuel b
    < cancellation_check_interval_fuel (rq_limits request) ∧
  fuel_consumed b ≤ max_fuel (rq_limits request) ∧
  (is_ok r = true → ∀ k, (1 ≤ k < db_probes b)%nat → is_cancelled k = false).
Proof.
  intros Hok Hrun. pose proof (decode_plan_spec _ _ _ Hok Hrun) as (Hb&Hlater&Hr).
  destruct Hb as [_ Hf Hm Hp _ _]. rewrite (lt_limits _ _ Hlater) in *. simpl in *.
  split; [lia|]. split; [done|]. destruct r as [decoded|e]; [|done].
  intros _. apply Hr.
Qed.
End stream.

(** The result does not depend on the runtime. Two runtimes of the same word
    size that both decode a request, whatever their allocators and probes,
    return the same bytes for the same fuel and the same total output. *)
Theorem decode_stream_deterministic (r1 r2 : DecodeRuntime) (request : DecodeRequest)
    (s1 s2 : DecodedStream) :
  @runtime_platform r1 = @runtime_platform r2 →
  @request_ok r1 request → @request_ok r2 request →
  @decode_stream r1 request = Ok s1 → @decode_stream r2 request = Ok s2 →
  decoded_bytes s1 = decoded_bytes s2 ∧
  at_fuel_consumed (decoded_attestation s1) = at_fuel_consumed (decoded_attestation s2) ∧
  at_cumulative_output_bytes (decoded_attestation s1) =
    at_cumulative_output_bytes (decoded_attestation s2).
Proof.
  intros Hplat Hok1 Hok2 Hrun1 Hrun2.
  destruct (@decode_stream_result r1 request s1 Hok1 Hrun1) as (Hres1&Hf1&Ht1).
  destruct (@decode_stream_result r2 request s2 Hok2 Hrun2) as (Hres2&Hf2&Ht2).
  rewrite <-Hplat in Hres2, Hf2, Ht2. split; [congruence|]. split; congruence.
Qed.

(** ** The formats *)

(** ASCIIHex, exactly. The layer accepts hexadecimal digits and white space,
    then [>], then white space only, and its output pairs the digits, an odd
    last one padded with zero; an input that never ends is reported as such. *)
Theorem ascii_hex_exact input :
  (∀ out, outcome (ascii_hex_program input) [] = Ok (tt, out) ↔
     ∃ body tail, input = body ++ 62 :: tail ∧ Forall hex_char body ∧
       Forall (λ b, is_pdf_whitespace b = true) tail ∧
       out = pair_nibbles (omap hex_nibble body)) ∧
  (outcome (ascii_hex_program input) [] = Err MissingEndMarker ↔ Forall hex_char input).
Proof.
  assert (∀ body b tail, input = body ++ b :: tail → Forall hex_char body → ¬ hex_char b →
    ¬ Forall hex_char input) as Hnot.
  { intros body b tail -> _ Hb Hall. apply Forall_app in Hall as [_ Hall].
    by apply Forall_cons_1 in Hall as [? _]. }
  unfold ascii_hex_program. rewrite outcome_bind.
  destruct (ascii_hex_loop_spec input None [] ltac:(done))
    as [(body&tail&Hin&Hbody&[[Htail ->]|[Htail ->]])
       |[[Hall [out' ->]]|(body&b&tail&Hin&Hbody&Hb62&Hb&->)]];
    cbn [mbind result_bind]; rewrite ?outcome_stop_if; cbn [negb].
  - split.
    + intros out. split.
      * intros [= <-]. by exists body, tail.
      * intros (body'&tail'&Hin'&Hbody'&_&->). rewrite Hin in Hin'.
        apply (split_first_unique hex_char) in Hin' as (->&_&->);
          try done; apply end_marker_not_hex_char.
    + split; [done|]. intros Hall. by apply (Hnot _ _ _ Hin Hbody end_marker_not_hex_char) in Hall.
  - split.
    + intros out. split; [done|]. intros (body'&tail'&Hin'&Hbody'&Htail'&_).
      rewrite Hin in Hin'. apply (split_first_unique hex_char) in Hin' as (_&_&->);
        try done; apply end_marker_not_hex_char.
    + split; [done|]. intros Hall. by apply (Hnot _ _ _ Hin Hbody end_marker_not_hex_char) in Hall.
  - split; [|done]. intros out. split; [done|].
    intros (body'&tail'&Hin'&Hbody'&_). exfalso.
    apply (Hnot _ _ _ Hin' Hbody' end_marker_not_hex_char Hall).
  - split.
    + intros out. split; [done|]. intros (body'&tail'&Hin'&Hbody'&_). rewrite Hin in Hin'.
      apply (split_first_unique hex_char) in Hin' as (_&->&_);
        try done; apply end_marker_not_hex_char.
    + split; [done|]. intros Hall. by apply (Hnot _ _ _ Hin Hbody Hb) in Hall.
Qed.

(** RunLength, exactly. The layer accepts the sequences of literal runs of 1
    to 128 bytes and repeats of 2 to 128 that end with the marker 128, and its
    output expands them. *)
Theorem run_length_exact `{Platform} input out :
  are_bytes input → len input ≤ usize_max →
  outcome (run_length_program input) [] = Ok (tt, out) ↔
  ∃ segments, Forall run_segment_ok segments ∧
    input = concat (encode_run <$> segments) ++ [128] ∧
    out = concat (expand_run <$> segments).
Proof.
  intros Hb Hs. split.
  - intros Hrun. apply (run_length_loop_sound _ _ 0) in Hrun as (segs&?&?&->); [|done].
    by exists segs.
  - intros (segs&Hsegs&Hin&->).
    apply (run_length_loop_complete _ _ 0 [] segs); [done|done|lia|done|done].
Qed.

(** ASCII85 round trip. The text of any bytes, [z] groups and a shorter last
    group included, is decoded back to them. *)
Theorem ascii85_round_trip bytes :
  are_bytes bytes →
  outcome (ascii85_program (ascii85_encode bytes ++ [126; 62])) [] = Ok (tt, bytes).
Proof.
  intros Hb. unfold ascii85_program. by rewrite outcome_bind, ascii85_loop_decoded.
Qed.

(** C33: the integrity of Flate. A zlib stream is decoded only if it ends, byte
    for byte, with the Adler-32 of the decoded output; and whatever the bytes,
    the decoder ends without an internal error. *)
Theorem flate_checksum `{Platform} input :
  are_bytes input →
  (∀ out, outcome (flate_program input) [] = Ok (tt, out) →
     are_bytes out ∧ ∃ body, input = body ++ to_be_bytes (adler32 out)) ∧
  outcome (flate_program input) [] ≠ Err InternalState.
Proof.
  intros Hb.
  destruct (flate_program_cases input Hb) as [(out&body&->&Ho&Hin)|(code&->&Hcode)].
  - split; [|done]. intros out' [= <-]. split; [done|by exists body].
  - split; [done|]. intros [=]. done.
Qed.

(** C39: the round trip of stored Flate blocks, any number of them, each of at
    most 65,535 bytes. *)
Theorem flate_stored_round_trip `{Platform} chunks :
  chunks ≠ [] → Forall are_bytes chunks → Forall (λ chunk, len chunk ≤ u16_max) chunks →
  outcome (flate_program (zlib_stored chunks)) [] = Ok (tt, concat chunks).
Proof. apply flate_stored_decoded. Qed.

(** The PNG predictor, exactly. It accepts the rows of filtered images with
    tags 0 to 4, each row filtered against the row above, and reconstructs the
    image. *)
Theorem png_exact `{Platform} p input out :
  parameters_ok p → geometry_fits p → are_bytes input → 2 * len input ≤ usize_max →
  outcome (png_program p input) [] = Ok (tt, out) ↔
  ∃ rows, Forall (png_row_ok (geometry_of p)) rows ∧
    input = png_encode (geometry_of p) (zero_row (geometry_of p)) rows ∧
    out = concat rows.*2.
Proof.
  intros Hp Hf Hb Hs. split.
  - intros Hrun. destruct (png_program_cases p Hp input Hb Hs)
      as [(rows&Hrows&Hin&Hout)|[?|[_ ?]]]; [|congruence|done].
    rewrite Hout in Hrun. injection Hrun as <-. by exists rows.
  - intros (rows&Hrows&->&->). apply png_program_complete; try done. lia.
Qed.

(** C26: every layer terminates. On any bytes, every filter and every predictor
    with validated parameters ends within the bounds given to its loops, never
    panics on an index, never reports an internal error and produces bytes. *)
Theorem layers_terminate `{Platform} plan v input :
  plan_valid plan → are_bytes input →
  Forall layer_ok (plan_layers plan) ∧
  match sm_result (denote_layers v (plan_layers plan) input) with
  | Ok out => are_bytes out
  | Err (code, _) => code ≠ InternalState
  end.
Proof.
  intros Hp Hb. split; [by apply plan_layers_ok|].
  apply denote_layers_safe; [by apply plan_layers_ok|done].
Qed.

(** The Paeth predictor returns the neighbour nearest to the estimate, as
    the PNG specification requires. *)
Theorem paeth_is_nearest left above upper_left :
  let estimate := left + above - upper_left in
  let r := paeth left above upper_left in
  (r = left ∨ r = above ∨ r = upper_left) ∧
  Z.abs (estimate - r) ≤ Z.abs (estimate - left) ∧
  Z.abs (estimate - r) ≤ Z.abs (estimate - above) ∧
  Z.abs (estimate - r) ≤ Z.abs (estimate - upper_left).
Proof. apply paeth_nearest. Qed.

(** ** Validation *)

(** [PredictorParameters::new] accepts exactly the [i64] arguments whose
    predictor, component width and row size are in range, and keeps them. *)
Theorem predictor_parameters_exact predictor colors bits columns :
  (predictor_arguments_ok predictor colors bits columns ∧
   ∃ p, PredictorParameters_new predictor colors bits columns = Ok p ∧
     parameters_ok p ∧ FilterTypes.predictor p = predictor ∧
     FilterTypes.colors p = colors ∧ bits_per_component p = bits ∧
     FilterTypes.columns p = columns) ∨
  (¬ predictor_arguments_ok predictor colors bits columns ∧
   ∃ e, PredictorParameters_new predictor colors bits columns = Err e).
Proof.
  destruct (predictor_new_decides predictor colors bits columns) as [[Hok Hnew]|?];
    [left|by right].
  split; [done|]. eexists. split; [exact Hnew|].
  split; [by eapply predictor_new_parameters_ok|done].
Qed.

(** A configuration of unsigned integers. *)
Record config_unsigned (c : DecodeLimitConfig) : Prop := {
  cu_input : 0 ≤ config_max_input_bytes c;
  cu_filters : 0 ≤ config_max_filters c;
  cu_layer : 0 ≤ config_max_layer_output_bytes c;
  cu_total : 0 ≤ config_max_total_output_bytes c;
  cu_final : 0 ≤ config_max_final_output_bytes c;
  cu_retained : 0 ≤ config_max_retained_capacity_bytes c;
  cu_fuel : 0 ≤ config_max_fuel c;
  cu_interval : 0 ≤ config_cancellation_check_interval_fuel c
}.

(** [DecodeLimits::validate] accepts exactly the configurations within the
    hard ceilings and consistent with one another. *)
Theorem decode_limits_exact c :
  config_unsigned c →
  decides (decode_limits_ok (DecodeLimits_of_config c)) (DecodeLimits_of_config c)
    (DecodeLimits_validate c).
Proof. intros []. by apply limits_validate_decides. Qed.

(** ** A concrete stream

    A two-row grey image, filtered with the PNG tags 4 and 2, compressed by
    zlib and written as ASCIIHex. *)

Definition image_rows : list (Z * list Z) := [(4, [10; 20; 35]); (2, [12; 19; 40])].
Definition image_parameters : PredictorParameters :=
  {| predictor := 15; colors := 1; bits_per_component := 8; columns := 3 |}.
Definition image_filtered : list Z := [4; 10; 10; 15; 2; 2; 255; 5].
Definition image_zlib : list Z :=
  [120; 218; 99; 225; 226; 226; 103; 98; 250; 207; 10; 0; 3; 6; 1; 48].
Definition image_text : list Z :=
  [55; 56; 68; 65; 54; 51; 69; 49; 69; 50; 69; 50; 54; 55; 54; 50; 70; 65; 67; 70;
   48; 65; 48; 48; 48; 51; 48; 54; 48; 49; 51; 48; 62].

Definition image_plan : FilterPlan :=
  {| plan_filters := [AsciiHexDecode; FlateDecode]; plan_filters_capacity := 2;
     plan_stages := [without_parameters AsciiHexDecode;
       {| stage_filter := FlateDecode; stage_parameters := Predictor image_parameters |}];
     plan_stages_capacity := 2 |}.

(** A request for a text placed at offset 100 of a source. *)
Definition text_request (text : list Z) : DecodeRequest :=
  let identity := {| stable_id := replicate 32 7; revision := 1 |} in
  {| rq_snapshot := {| snapshot_identity := identity; snapshot_len := Some 4096;
       snapshot_validator :=
         {| validator_kind := HostVersion; validator_digest := replicate 32 0 |} |};
     rq_owner := {| object_number := 4; object_generation := 0 |};
     rq_dictionary_span := {| span_start := 60; span_len := 20 |};
     rq_encoded_span := {| span_start := 100; span_len := len text |};
     rq_encoded := {| slice_identity := identity;
       slice_range := {| range_start := 100; range_len := len text |};
       slice_backing := text; slice_backing_offset := 0 |};
     rq_plan := image_plan; rq_profile := M1StrictV1;
     rq_limits := DecodeLimits_of_config DecodeLimitConfig_default |}.

(** A runtime that always gives one byte more than is asked for. *)
Definition generous_reserve (max : Z) (_ : nat) (length capacity additional : Z)
    : option Z :=
  if Z.max capacity (length + additional) + 1 <=? max
  then Some (Z.max capacity (length + additional) + 1) else None.

#[program] Definition generous_runtime (p : Platform) : DecodeRuntime :=
  {| runtime_platform := p; is_cancelled _ := false;
     try_reserve_exact := generous_reserve usize_max;
     size_of_filter := 1; size_of_stage := 32 |}.
Next Obligation.
  intros p k length capacity additional capacity'. unfold generous_reserve.
  case_match; intros; simplify_eq; lia.
Qed.
Next Obligation. done. Qed.
Next Obligation. done. Qed.

Lemma image_parameters_ok : parameters_ok image_parameters.
Proof.
  split; simpl; unfold u32_max, u64_max; try lia. rewrite !elem_of_cons. lia.
Qed.

Lemma image_plan_valid : plan_valid image_plan.
Proof.
  split; [done|done|]. apply Forall_cons_iff. split; [done|].
  apply Forall_cons_iff. split; [|constructor]. split; [done|apply image_parameters_ok].
Qed.

Lemma bytes_decided l : forallb (λ b, (0 <=? b) && (b <=? 255)) l = true → are_bytes l.
Proof.
  intros Hl. apply Forall_forall. intros b Hb%list_elem_of_In.
  apply (proj1 (forallb_forall _ _) Hl), andb_true_iff in Hb as [??].
  unfold is_byte, u8_max. lia.
Qed.

(** The request is well-formed on any runtime with those element sizes. *)
Lemma text_request_ok (r : DecodeRuntime) text :
  size_of_filter = 1 → size_of_stage = 32 → are_bytes text → len text ≤ u64_max →
  request_ok (text_request text).
Proof.
  intros Hf Hs Hb Hlen. assert (slice_bytes (rq_encoded (text_request text)) = text) as Htext.
  { unfold slice_bytes. cbn. rewrite Nat2Z.id, drop_0. by apply take_ge. }
  split; rewrite ?Htext, ?Hf, ?Hs; try done. apply image_plan_valid.
Qed.

Lemma quiet_request_ok text :
  are_bytes text → len text ≤ u64_max →
  @request_ok (quiet_runtime desktop64) (text_request text).
Proof. by apply (text_request_ok (quiet_runtime desktop64)). Qed.

(** ** Witnesses *)

Lemma decode_stream_sound_witness :
  ∃ stream, @decode_stream (quiet_runtime desktop64) (text_request image_text) = Ok stream ∧
    decoded_bytes stream = concat image_rows.*2 ∧
    fuel_consumed (@run_plan (quiet_runtime desktop64) (text_request image_text)).1
      = sm_fuel (@request_meaning desktop64 (text_request image_text)) ∧
    are_bytes (decoded_bytes stream).
Proof.
  eexists. split; [vm_compute; reflexivity|]. split; [reflexivity|].
  split; [vm_compute; reflexivity|].
  refine (proj1 (proj2 (@decode_stream_sound (quiet_runtime desktop64)
    (text_request image_text) _ _ _))).
  - apply quiet_request_ok; [by apply bytes_decided|done].
  - vm_compute. reflexivity.
Defined.

Lemma decode_stream_errors_witness :
  ∃ e, @decode_stream (quiet_runtime desktop64) (text_request (take 20 image_text)) = Err e ∧
    e = for_code MissingEndMarker (Some 0) ∧
    @refused (quiet_runtime desktop64) (text_request (take 20 image_text)) e.
Proof.
  eexists. split; [vm_compute; reflexivity|]. split; [reflexivity|].
  refine (proj1 (@decode_stream_errors (quiet_runtime desktop64)
    (text_request (take 20 image_text)) _ _ _)).
  - apply quiet_request_ok; [by apply bytes_decided|done].
  - vm_compute. reflexivity.
Defined.

Lemma decode_stream_complete_witness :
  ∃ stream, @decode_stream (quiet_runtime desktop64) (text_request image_text) = Ok stream ∧
    decoded_bytes stream = concat image_rows.*2.
Proof.
  apply (@decode_stream_complete (quiet_runtime desktop64) (text_request image_text)).
  - apply quiet_runtime_quiet.
  - apply quiet_request_ok; [by apply bytes_decided|done].
  - split; vm_compute; (reflexivity || discriminate).
  - vm_compute. reflexivity.
  - vm_compute. discriminate.
  - vm_compute. discriminate.
  - vm_compute. repeat split; discriminate.
Defined.

Lemma cancellation_is_prompt_witness :
  0 ≤ fuel_consumed (@run_plan (quiet_runtime desktop64) (text_request image_text)).1
      - last_cancellation_probe_fuel
          (@run_plan (quiet_runtime desktop64) (text_request image_text)).1
    < 256.
Proof.
  destruct (@run_plan (quiet_runtime desktop64) (text_request image_text)) as [b r] eqn:Hrun.
  refine (proj1 (@cancellation_is_prompt (quiet_runtime desktop64)
    (text_request image_text) b r _ Hrun)).
  apply quiet_request_ok; [by apply bytes_decided|done].
Defined.

Lemma decode_stream_deterministic_witness :
  ∃ s1 s2, @decode_stream (quiet_runtime desktop64) (text_request image_text) = Ok s1 ∧
    @decode_stream (generous_runtime desktop64) (text_request image_text) = Ok s2 ∧
    decoded_bytes s1 = decoded_bytes s2.
Proof.
  eexists _, _. split; [vm_compute; reflexivity|]. split; [vm_compute; reflexivity|].
  refine (proj1 (@decode_stream_deterministic (quiet_runtime desktop64)
    (generous_runtime desktop64) (text_request image_text) _ _ _ _ _ _ _)).
  - reflexivity.
  - apply quiet_request_ok; [by apply bytes_decided|done].
  - apply (text_request_ok (generous_runtime desktop64)); try done. by apply bytes_decided.
  - vm_compute. reflexivity.
  - vm_compute. reflexivity.
Defined.

Lemma run_length_exact_witness :
  ∃ segments, Forall run_segment_ok segments ∧
    [2; 65; 66; 67; 253; 90; 128] = concat (encode_run <$> segments) ++ [128] ∧
    [65; 66; 67; 90; 90; 90; 90] = concat (expand_run <$> segments).
Proof.
  refine (proj1 (@run_length_exact desktop64 [2; 65; 66; 67; 253; 90; 128]
    [65; 66; 67; 90; 90; 90; 90] _ _) _).
  - by apply bytes_decided.
  - done.
  - vm_compute. reflexivity.
Defined.

Lemma ascii85_round_trip_witness :
  ascii85_encode [0; 0; 0; 0; 80; 68; 70] = [122; 58; 100; 100; 98] ∧
  outcome (ascii85_program [122; 58; 100; 100; 98; 126; 62]) [] = Ok (tt, [0; 0; 0; 0; 80; 68; 70]).
Proof.
  split; [vm_compute; reflexivity|].
  apply (ascii85_round_trip [0; 0; 0; 0; 80; 68; 70]). by apply bytes_decided.
Defined.

Lemma flate_checksum_witness :
  outcome (@flate_program desktop64 image_zlib) [] = Ok (tt, image_filtered) ∧
  ∃ body, image_zlib = body ++ to_be_bytes (adler32 image_filtered).
Proof.
  split; [vm_compute; reflexivity|].
  refine (proj2 (proj1 (@flate_checksum desktop64 image_zlib _) image_filtered _)).
  - by apply bytes_decided.
  - vm_compute. reflexivity.
Defined.

Lemma flate_stored_round_trip_witness :
  outcome (@flate_program desktop64 (zlib_stored [[1; 2; 3]; []; [250; 251]])) []
    = Ok (tt, [1; 2; 3; 250; 251]).
Proof.
  apply (@flate_stored_round_trip desktop64 [[1; 2; 3]; []; [250; 251]]).
  - done.
  - repeat constructor; done.
  - repeat constructor; done.
Defined.

Lemma png_exact_witness :
  ∃ rows, Forall (png_row_ok (geometry_of image_parameters)) rows ∧
    image_filtered = png_encode (geometry_of image_parameters)
      (zero_row (geometry_of image_parameters)) rows ∧
    [10; 20; 35; 12; 19; 40] = concat rows.*2.
Proof.
  refine (proj1 (@png_exact desktop64 image_parameters image_filtered
    [10; 20; 35; 12; 19; 40] image_parameters_ok _ _ _) _).
  - split; vm_compute; discriminate.
  - by apply bytes_decided.
  - vm_compute. discriminate.
  - vm_compute. reflexivity.
Defined.

Lemma layers_terminate_witness :
  Forall layer_ok (@plan_layers desktop64 image_plan) ∧
  match sm_result (denote_layers M1V1 (@plan_layers desktop64 image_plan) image_text) with
  | Ok out => are_bytes out
  | Err (code, _) => code ≠ InternalState
  end.
Proof.
  apply (@layers_terminate desktop64 image_plan M1V1 image_text image_plan_valid).
  by apply bytes_decided.
Defined.

Lemma decode_limits_exact_witness :
  decides (decode_limits_ok (DecodeLimits_of_config DecodeLimitConfig_default))
    (DecodeLimits_of_config DecodeLimitConfig_default)
    (DecodeLimits_validate DecodeLimitConfig_default).
Proof. apply (decode_limits_exact DecodeLimitConfig_default). by split. Defined.
