(* ===== verification/PlanProps.v ===== *)
(** * The properties of plans built from stream dictionaries

    [FilterPlan::from_pdf_dictionary] computes the stages a dictionary
    describes, and its preflight announces how many there are. *)

From stdpp Require Import base list numbers option strings.
From S2P Require Import Prelude.
From S2P Require Import SourceTypes.
From S2P Require Import SyntaxTypes.
From S2P Require Import FilterTypes.
From S2P Require Import DecodeBudgetSpec.
From S2P Require Import PlanDictionary.
From S2P Require Import PredictorSpec.
From S2P Require Import StreamSpec.
From S2P Require Import StreamSafety.
From S2P Require Import PlanDictionarySpec.
From S2P Require Import FilterProps.

Section plans.
Context `{DecodeRuntime}.
Implicit Types d : PdfDictionary.

Lemma described_stages_ok d stages :
  dictionary_describes d stages → Forall stage_ok stages.
Proof.
  intros [| f o stage _ _ Hs|names fs o ss _ _ _ _ Hs]; [constructor|..].
  - apply Forall_singleton. by eapply stage_described_ok.
  - destruct Hs as [| |ps ss Hd];
      [by apply Forall_fmap, Forall_true; intros f|by apply Forall_fmap, Forall_true; intros f|].
    induction Hd as [|f p s fs' ps ss Hs _ IH]; constructor; [|done].
    by eapply stage_described_ok.
Qed.

(** C40: [from_pdf_dictionary] is sound. On any dictionary, however its entries
    are ordered, a returned plan holds the stages the dictionary describes, is
    valid, and is within the filter and heap limits; an error is a cancellation,
    the refusal of a dictionary that describes no stages within the filter limit,
    or the refusal of the allocation or of the heap of a described plan; and no
    path panics. *)
Theorem dictionary_plan_sound d limits probes :
  decode_limits_ok limits →
  match (FilterPlan_from_pdf_dictionary d limits probes).2 with
  | Ok plan =>
      dictionary_describes d (plan_stages plan) ∧ plan_valid plan ∧
      plan_len plan ≤ max_filters limits ∧
      ∃ heap bound, retained_heap_bytes plan = Ok heap ∧
        retained_heap_upper_bound (max_filters limits) = Ok bound ∧ heap ≤ bound
  | Err (Rejected e) =>
      (e = for_code Cancelled None ∧ ∃ k, is_cancelled k = true) ∨
      (¬ describable d (max_filters limits) ∧ error_code e ≠ InternalState) ∨
      plan_resources d e
  | Err Panicked => False
  end.
Proof.
  intros Hl. pose proof (from_pdf_dictionary_spec d limits Hl probes) as Hspec.
  destruct (FilterPlan_from_pdf_dictionary d limits probes).2 as [plan|[e|]];
    [|unfold malformed in Hspec; tauto|done].
  destruct Hspec as [Hd Hp Hc _ [heap Hh]]. pose proof (dl_filters _ Hl).
  split; [done|]. split.
  { split; [done|unfold HARD_MAX_FILTERS in *; lia|by eapply described_stages_ok]. }
  split; [done|]. unfold validate_retained_heap_limit in Hh.
  apply result_bind_ok in Hh as (bound&Hb&Hh). apply result_bind_ok in Hh as (heap'&Hr&Hh).
  apply result_bind_ok in Hh as ([]&Hle&_). exists heap', bound. split_and!; try done.
  unfold fail_if in Hle. by destruct (bound <? heap') eqn:?; checked_facts.
Qed.

(** With an allocator that gives exactly what is asked, a described plan is
    within its limits. *)
Lemma described_plan_resources d e max :
  quiet → HARD_MAX_FILTERS * (size_of_filter + size_of_stage) ≤ i64_max →
  max ≤ HARD_MAX_FILTERS → describable d max → ¬ plan_resources d e.
Proof.
  intros [_ Hq] Hsize Hmax (stages&Hd&Hlen). pose proof size_of_filter_nonneg.
  pose proof size_of_stage_nonneg. pose proof usize_max_cases.
  unfold HARD_MAX_FILTERS, i64_max, u32_max, u64_max in *.
  assert (∀ stages' limit, dictionary_describes d stages' →
    FilterPlan_allocate (len stages') limit = Ok {|
      plan_filters := []; plan_filters_capacity := len stages';
      plan_stages := []; plan_stages_capacity := len stages' |}) as Ha.
  { intros stages' limit Hd'. rewrite (dictionary_describes_unique _ _ _ Hd' Hd).
    unfold FilterPlan_allocate. rewrite !Hq. unfold exact_reserve.
    rewrite (proj2 (Z.leb_le _ _)) by lia. cbn [require mbind result_bind].
    repeat f_equal; lia. }
  intros [stages' limit Hd' He|plan limit Hd' (limit'&empty&Hall&Hf&Hs) Hl Hlim He].
  - by rewrite Ha in He.
  - rewrite Ha in Hall by done. injection Hall as <-. simpl in Hf, Hs.
    rewrite (dictionary_describes_unique _ _ _ Hd' Hd) in Hf, Hs, Hl.
    assert (limit ≤ 32) by (unfold HARD_MAX_FILTERS in Hlim; lia).
    assert (len stages * size_of_filter ≤ limit * size_of_filter) by nia.
    assert (len stages * size_of_stage ≤ limit * size_of_stage) by nia.
    assert (0 ≤ limit * size_of_filter ∧ 0 ≤ limit * size_of_stage) as [??] by nia.
    assert (limit * (size_of_filter + size_of_stage)
      ≤ 32 * (size_of_filter + size_of_stage)) by nia.
    destruct (retained_heap_exact plan limit) as [Hb Hu];
      [rewrite Hf; unfold i64_max; lia|rewrite Hs; unfold i64_max; lia|done|done|].
    unfold validate_retained_heap_limit in He. rewrite Hb, Hu, Hf, Hs in He.
    cbn [mbind result_bind] in He. rewrite (proj2 (Z.ltb_ge _ _)) in He by nia. done.
Qed.

(** [from_pdf_dictionary] is complete. Never cancelled, with an allocator
    that gives what is asked, a dictionary that describes stages within the
    filter limit yields a plan of exactly those stages. *)
Theorem dictionary_plan_complete d limits stages probes :
  quiet → HARD_MAX_FILTERS * (size_of_filter + size_of_stage) ≤ i64_max →
  decode_limits_ok limits →
  dictionary_describes d stages → len stages ≤ max_filters limits →
  ∃ plan, (FilterPlan_from_pdf_dictionary d limits probes).2 = Ok plan ∧
    plan_stages plan = stages ∧ plan_filters plan = stage_filter <$> stages.
Proof.
  intros Hq Hsize Hl Hd Hlen. pose proof (from_pdf_dictionary_spec d limits Hl probes) as Hspec.
  assert (describable d (max_filters limits)) as Hable by (by exists stages).
  destruct (FilterPlan_from_pdf_dictionary d limits probes).2 as [plan|[e|]]; [| |done].
  - destruct Hspec as [Hd' Hp _ _ _]. exists plan. split; [done|].
    rewrite Hp. by rewrite (dictionary_describes_unique _ _ _ Hd' Hd).
  - exfalso. destruct Hspec as [[_ [k Hk]]|[[Hno _]|Hres]].
    + by rewrite (quiet_probes Hq) in Hk.
    + done.
    + by apply (described_plan_resources d e (max_filters limits)) in Hres;
        [..|apply (dl_filters _ Hl)|].
Qed.

(** The preflight is exact. Never cancelled, it returns a count exactly when
    the dictionary describes that many stages, within the filter limit; on any
    runtime it never panics or reports an internal error. *)
Theorem preflight_exact d limits probes :
  decode_limits_ok limits →
  (quiet → ∀ count, (preflight_pdf_dictionary d limits probes).2 = Ok count ↔
     ∃ stages, dictionary_describes d stages ∧ len stages = count ∧
       count ≤ max_filters limits) ∧
  match (preflight_pdf_dictionary d limits probes).2 with
  | Ok _ => True
  | Err (Rejected e) => error_code e ≠ InternalState
  | Err Panicked => False
  end.
Proof.
  intros Hl. pose proof (preflight_spec d limits Hl probes) as Hspec.
  destruct (preflight_pdf_dictionary d limits probes).2 as [count'|[e|]]; [| |done].
  - split; [|done]. intros _ count. split; [by intros [= <-]|].
    intros (stages&Hd&<-&_). destruct Hspec as (stages'&Hd'&<-&_).
    by rewrite (dictionary_describes_unique _ _ _ Hd' Hd).
  - split.
    + intros Hq count. split; [done|]. intros (stages&Hd&<-&Hlen).
      destruct Hspec as [[_ [k Hk]]|[Hno _]]; [by rewrite (quiet_probes Hq) in Hk|].
      destruct Hno. by exists stages.
    + destruct Hspec as [[-> _]|[_ Hcode]]; [by rewrite for_code_code|done].
Qed.
End plans.

(** ** A concrete dictionary

    [<< /DecodeParms [null << /Columns 3 /Predictor 15 >>]
        /Filter [/ASCIIHexDecode /FlateDecode] >>]. *)

Definition located {A} (value : A) : Located A :=
  {| located_source := {| stable_id := replicate 32 7; revision := 1 |};
     located_span := {| span_start := 60; span_len := 20 |};
     located_value := value |}.
Definition entry (key : string) (value : SyntaxObject) : DictionaryEntry :=
  {| entry_key := located key; entry_value := located value |}.

Definition image_dictionary : PdfDictionary :=
  [entry "DecodeParms" (Array [located Null;
     located (Dictionary [entry "Columns" (Integer 3); entry "Predictor" (Integer 15)])]);
   entry "Filter" (Array [located (Name "ASCIIHexDecode"); located (Name "FlateDecode")])].

Lemma image_dictionary_describes :
  dictionary_describes image_dictionary (plan_stages image_plan).
Proof.
  eapply (describes_array _ _ [AsciiHexDecode; FlateDecode] (Some _)).
  - reflexivity.
  - done.
  - repeat constructor.
  - reflexivity.
  - constructor. constructor; [constructor|]. constructor; [|constructor].
    apply (described_predictor FlateDecode
      [entry "Columns" (Integer 3); entry "Predictor" (Integer 15)] image_parameters);
      [done|done| |reflexivity].
    split.
    + repeat (apply NoDup_cons; split; [rewrite ?elem_of_cons, elem_of_nil; naive_solver|]).
      apply NoDup_nil_2.
    + apply Forall_cons. unfold is_parameter, parameter_keys. rewrite !elem_of_cons.
      split; [split; [tauto|by eexists]|]. apply Forall_singleton. rewrite !elem_of_cons.
      split; [tauto|by eexists].
Qed.

Lemma dictionary_plan_sound_witness :
  ∃ plan, (@FilterPlan_from_pdf_dictionary (quiet_runtime desktop64) image_dictionary
      (DecodeLimits_of_config DecodeLimitConfig_default) 0%nat).2 = Ok plan ∧
    plan = image_plan ∧ plan_valid plan.
Proof.
  pose proof (@dictionary_plan_sound (quiet_runtime desktop64) image_dictionary
    (DecodeLimits_of_config DecodeLimitConfig_default) 0%nat ltac:(by split)) as Hsound.
  exists image_plan. split; [vm_compute; reflexivity|]. split; [reflexivity|].
  replace (FilterPlan_from_pdf_dictionary _ _ _).2 with (@Ok PlanFailure FilterPlan image_plan)
    in Hsound by (vm_compute; reflexivity).
  apply Hsound.
Defined.

Lemma dictionary_plan_complete_witness :
  ∃ plan, (@FilterPlan_from_pdf_dictionary (quiet_runtime desktop64) image_dictionary
      (DecodeLimits_of_config DecodeLimitConfig_default) 0%nat).2 = Ok plan ∧
    plan_stages plan = plan_stages image_plan ∧
    plan_filters plan = stage_filter <$> plan_stages image_plan.
Proof.
  apply (@dictionary_plan_complete (quiet_runtime desktop64)).
  - apply quiet_runtime_quiet.
  - vm_compute. discriminate.
  - by split.
  - apply image_dictionary_describes.
  - vm_compute. discriminate.
Defined.

Lemma preflight_exact_witness :
  (@preflight_pdf_dictionary (quiet_runtime desktop64) image_dictionary
     (DecodeLimits_of_config DecodeLimitConfig_default) 0%nat).2 = Ok 2.
Proof.
  apply (proj1 (@preflight_exact (quiet_runtime desktop64) image_dictionary
    (DecodeLimits_of_config DecodeLimitConfig_default) 0%nat ltac:(by split))
    (quiet_runtime_quiet desktop64)).
  exists (plan_stages image_plan). split; [apply image_dictionary_describes|].
  split; [reflexivity|vm_compute; discriminate].
Defined.
