(* ===== verification/DocumentTypes.v ===== *)
(** * Resolved document values

    The proof-bearing values the session store owns: parsed indirect objects
    ([pdf-rs/object/src/model.rs]), their attestations and profiles
    ([pdf-rs/document/src/{model,access}.rs]), resolved reference chains
    ([reference_chain.rs]) and their resident footprint ([residency.rs]). *)

From stdpp Require Import base list numbers option strings.
From S2P Require Import Prelude.
From S2P Require Import SourceTypes.
From S2P Require Import SyntaxTypes.

(** ** Profiles *)

Definition RevisionId : Type := Z.
#[global] Instance RevisionId_eq_dec : EqDecision RevisionId := Z.eq_dec.

Record ObjectLimits := {
  ol_max_source_bytes : Z;
  ol_initial_envelope_bytes : Z;
  ol_max_envelope_bytes : Z;
  ol_initial_boundary_bytes : Z;
  ol_max_boundary_bytes : Z;
  ol_max_stream_bytes : Z;
  ol_max_total_read_bytes : Z;
  ol_max_total_parse_bytes : Z
}.
#[global] Instance ObjectLimits_eq_dec : EqDecision ObjectLimits.
Proof. solve_decision. Defined.

Record ReferenceChainLimits := {
  rl_max_objects : Z;
  rl_max_reference_edges : Z;
  rl_max_depth : Z;
  rl_max_total_object_read_bytes : Z;
  rl_max_total_object_parse_bytes : Z;
  rl_max_retained_path_bytes : Z;
  rl_effective_path_references : Z
}.
#[global] Instance ReferenceChainLimits_eq_dec : EqDecision ReferenceChainLimits.
Proof. solve_decision. Defined.

(** ** Indirect objects *)

Inductive IndirectObjectTargetKind := XrefEntry | XrefStreamAnchor.

Inductive DeclaredStreamLength :=
| DirectLength (value : Z) (operand_span : ByteSpan)
| IndirectLength (reference : ObjectRef) (operand_span : ByteSpan).

Record StreamLengthClaim := {
  claim_snapshot : SourceSnapshot;
  claim_owner : ObjectRef;
  claim_declaration : DeclaredStreamLength;
  claim_value : Z;
  claim_resolved_value_span : option ByteSpan
}.

Record FramedStream := {
  stream_dictionary : Located PdfDictionary;
  stream_length_claim : StreamLengthClaim;
  stream_keyword_span : ByteSpan;
  stream_line_ending_span : ByteSpan;
  stream_data_span : ByteSpan;
  stream_data_delimiter_span : ByteSpan;
  stream_endstream_span : ByteSpan
}.

Inductive IndirectObjectValue :=
| Direct (value : Located SyntaxObject)
| Stream (stream : FramedStream).

Record IndirectObject := {
  object_snapshot : SourceSnapshot;
  object_reference : ObjectRef;
  object_revision_startxref : Z;
  object_target_kind : IndirectObjectTargetKind;
  object_xref_offset : Z;
  object_upper_bound : Z;
  object_header_span : ByteSpan;
  object_object_span : ByteSpan;
  object_endobj_span : ByteSpan;
  object_retained_heap_bytes : Z;
  object_value : IndirectObjectValue
}.

(** ** Attested objects *)

Inductive ObjectAttestationKind :=
| NullKind | BooleanKind | IntegerKind | RealKind | NameKind | StringKindOf
| ArrayKind | DictionaryKind | ReferenceKind
| StreamKind (data_span endstream_span : ByteSpan).

Record ObjectAttestation := {
  attestation_revision_id : RevisionId;
  attestation_reference : ObjectRef;
  attestation_xref_offset : Z;
  attestation_object_upper_bound : Z;
  attestation_header_span : ByteSpan;
  attestation_object_span : ByteSpan;
  attestation_endobj_span : ByteSpan;
  attestation_kind : ObjectAttestationKind
}.

Record AttestedObject := {
  attested_attestation : ObjectAttestation;
  attested_object : IndirectObject;
  attested_object_limits : ObjectLimits;
  attested_syntax_limits : SyntaxLimits
}.

Definition attested_snapshot (o : AttestedObject) : SourceSnapshot :=
  object_snapshot (attested_object o).
Definition attested_revision_startxref (o : AttestedObject) : Z :=
  object_revision_startxref (attested_object o).
Definition attested_revision_id (o : AttestedObject) : RevisionId :=
  attestation_revision_id (attested_attestation o).
Definition syntax_heap_bytes (o : AttestedObject) : Z :=
  object_retained_heap_bytes (attested_object o).

(** ** Resolved references *)

(** [prefix] is a vector, with its capacity. *)
Record ReferenceChain := {
  chain_prefix : list ObjectRef;
  chain_prefix_capacity : Z;
  chain_terminal : ObjectRef
}.

Record ReferenceChainStats := {
  stats_objects_started : Z;
  stats_reference_edges : Z;
  stats_max_depth : Z;
  stats_object_read_bytes : Z;
  stats_object_parse_bytes : Z;
  stats_retained_path_bytes : Z
}.

Record ResolvedReference := {
  resolved_chain : ReferenceChain;
  resolved_object : AttestedObject;
  resolved_limits : ReferenceChainLimits;
  resolved_stats : ReferenceChainStats
}.

Definition resolved_root (v : ResolvedReference) : ObjectRef :=
  default (chain_terminal (resolved_chain v)) (head (chain_prefix (resolved_chain v))).

(** ** Footprints *)

(** The only document errors a footprint reports are those [internal_error]
    builds, [DocumentError::for_code(InternalState, ..)]: the code, category,
    recoverability, diagnostic and detail are constants, the reference and the
    offset are the value's. *)
Record DocumentInternalError := {
  document_reference : option ObjectRef;
  document_offset : option Z
}.
Definition internal_error (reference : ObjectRef) (offset : option Z) : DocumentInternalError :=
  {| document_reference := Some reference; document_offset := offset |}.

Record DocumentResidentFootprint := {
  footprint_inline_bytes : Z;
  footprint_syntax_heap_bytes : Z;
  footprint_chain_capacity_bytes : Z;
  footprint_total_bytes : Z
}.

(** [mem::size_of] of the two types a footprint measures. *)
Class ValueSizes : Type := {
  size_of_resolved_reference : Z;
  size_of_object_ref : Z;
  size_of_resolved_reference_nonneg : 0 ≤ size_of_resolved_reference;
  size_of_object_ref_nonneg : 0 ≤ size_of_object_ref
}.

Section footprint.
Context `{ValueSizes}.

Definition from_components (inline_bytes syntax_heap_bytes chain_capacity_bytes : Z)
    (reference : ObjectRef) (offset : option Z)
    : result DocumentInternalError DocumentResidentFootprint :=
  total_bytes ← require
    (value ← checked_add u64_max inline_bytes syntax_heap_bytes;
     checked_add u64_max value chain_capacity_bytes)
    (internal_error reference offset);
  mret {| footprint_inline_bytes := inline_bytes;
          footprint_syntax_heap_bytes := syntax_heap_bytes;
          footprint_chain_capacity_bytes := chain_capacity_bytes;
          footprint_total_bytes := total_bytes |}.

Definition for_value (size syntax_heap_bytes chain_capacity_bytes : Z)
    (reference : ObjectRef) (offset : option Z)
    : result DocumentInternalError DocumentResidentFootprint :=
  inline_bytes ← require (try_from u64_max size) (internal_error reference offset);
  from_components inline_bytes syntax_heap_bytes chain_capacity_bytes reference offset.

Definition checked_capacity_bytes (capacity element_bytes : Z)
    (reference : ObjectRef) (offset : option Z) : result DocumentInternalError Z :=
  capacity ← require (try_from u64_max capacity) (internal_error reference offset);
  element_bytes ← require (try_from u64_max element_bytes) (internal_error reference offset);
  require (checked_mul u64_max capacity element_bytes) (internal_error reference offset).

Definition chain_capacity_bytes (chain : ReferenceChain) (offset : option Z)
    : result DocumentInternalError Z :=
  checked_capacity_bytes (chain_prefix_capacity chain) size_of_object_ref
    (chain_terminal chain) offset.

Definition try_resident_footprint (v : ResolvedReference)
    : result DocumentInternalError DocumentResidentFootprint :=
  let offset := Some (attestation_xref_offset (attested_attestation (resolved_object v))) in
  chain_capacity ← chain_capacity_bytes (resolved_chain v) offset;
  for_value size_of_resolved_reference (syntax_heap_bytes (resolved_object v))
    chain_capacity (chain_terminal (resolved_chain v)) offset.

(** The components of a footprint are those of the value, and add up. *)
Lemma resident_footprint_spec v f :
  try_resident_footprint v = Ok f →
  footprint_syntax_heap_bytes f = syntax_heap_bytes (resolved_object v) ∧
  footprint_chain_capacity_bytes f =
    chain_prefix_capacity (resolved_chain v) * size_of_object_ref ∧
  footprint_total_bytes f = size_of_resolved_reference +
    footprint_syntax_heap_bytes f + footprint_chain_capacity_bytes f ∧
  0 ≤ footprint_chain_capacity_bytes f ∧ footprint_total_bytes f ≤ u64_max.
Proof.
  unfold try_resident_footprint, chain_capacity_bytes, checked_capacity_bytes, for_value,
    from_components. intros Hf.
  apply result_bind_ok in Hf as (c&Hc&Hf). apply result_bind_ok in Hc as (cap&Hcap&Hc).
  apply result_bind_ok in Hc as (el&Hel&Hc). apply result_bind_ok in Hf as (i&Hi&Hf).
  apply result_bind_ok in Hf as (t&Ht&[= <-]). cbn [footprint_syntax_heap_bytes
    footprint_chain_capacity_bytes footprint_total_bytes].
  destruct (try_from u64_max (chain_prefix_capacity _)) eqn:Hcap'; simplify_eq/=.
  destruct (try_from u64_max size_of_object_ref) eqn:Hel'; simplify_eq/=.
  destruct (checked_mul u64_max cap el) eqn:Hc'; simplify_eq/=.
  destruct (try_from u64_max size_of_resolved_reference) eqn:Hi'; simplify_eq/=.
  destruct (checked_add u64_max i _) as [u|] eqn:Hu; simplify_eq/=.
  destruct (checked_add u64_max u c) eqn:Ht'; simplify_eq/=.
  apply try_from_Some in Hcap' as [? ->], Hel' as [? ->], Hi' as [? ->].
  apply checked_mul_Some in Hc' as [? ->]. apply checked_add_Some in Hu as [? ->], Ht' as [? ->].
  split_and!; try done; nia.
Qed.
End footprint.
