(* ===== verification/ReadyStore.v ===== *)
(** * The session Ready store ([runtime/cache/src])

    Errors ([error.rs]), validated limits ([limits.rs]), bindings and keys
    ([binding.rs]); then [store.rs], a bounded, least-recently-used store of
    resolved values. The entries are kept from the least to the most recently used.
    A method's state is the store and the number of calls made to the cancellation
    probe; a panic of the source is the outcome [Panicked]. *)

From stdpp Require Import base list numbers option strings.
From S2P Require Import Prelude.
From S2P Require Import SourceTypes.
From S2P Require Import SyntaxTypes.
From S2P Require Import DocumentTypes.

(** ** Bindings and keys *)

Definition ReadyStoreSessionId : Type := Z.
Definition ReadyStoreEpoch : Type := Z.
#[global] Instance ReadyStoreSessionId_eq_dec : EqDecision ReadyStoreSessionId := Z.eq_dec.
#[global] Instance ReadyStoreEpoch_eq_dec : EqDecision ReadyStoreEpoch := Z.eq_dec.

Record ReadyStoreBinding := {
  binding_session_id : ReadyStoreSessionId;
  binding_snapshot : SourceSnapshot;
  binding_revision_id : RevisionId;
  binding_revision_startxref : Z;
  binding_object_limits : ObjectLimits;
  binding_syntax_limits : SyntaxLimits;
  binding_epoch : ReadyStoreEpoch
}.
#[global] Instance ReadyStoreBinding_eq_dec : EqDecision ReadyStoreBinding.
Proof. solve_decision. Defined.

Record ReadyStoreKey := {
  key_binding : ReadyStoreBinding;
  key_root : ObjectRef;
  key_resolution_limits : ReferenceChainLimits
}.
#[global] Instance ReadyStoreKey_eq_dec : EqDecision ReadyStoreKey.
Proof. solve_decision. Defined.

(** ** Errors *)

Inductive ReadyStoreScope := Session (session_id : ReadyStoreSessionId).

Inductive ReadyStoreLimitKind := ValueBytes | ResidentBytes | AllocationBytes.

Record ReadyStoreLimit := {
  sl_kind : ReadyStoreLimitKind;
  sl_limit : Z;
  sl_consumed : Z;
  sl_attempted : Z;
  sl_scope : ReadyStoreScope;
  sl_reference : option ObjectRef
}.

Inductive ReadyStoreErrorCode :=
| InvalidLimits | Allocation | ResourceLimit | Cancelled
| InvalidValueFootprint | InternalState.
#[global] Instance ReadyStoreErrorCode_eq_dec : EqDecision ReadyStoreErrorCode.
Proof. solve_decision. Defined.

Inductive ReadyStoreErrorCategory := Configuration | Resource | Cancellation | Internal.

Inductive ReadyStoreRecoverability :=
| CorrectConfiguration | ReduceWorkload | AbandonOperation | DoNotRetry.

Record ReadyStoreError := {
  store_error_code : ReadyStoreErrorCode;
  store_error_category : ReadyStoreErrorCategory;
  store_error_recoverability : ReadyStoreRecoverability;
  store_error_diagnostic_id : string;
  store_error_limit : option ReadyStoreLimit;
  store_error_document : option DocumentInternalError
}.

Definition store_code_policy (code : ReadyStoreErrorCode)
    : ReadyStoreErrorCategory * ReadyStoreRecoverability * string :=
  match code with
  | InvalidLimits => (Configuration, CorrectConfiguration, "RPE-CACHE-0001")
  | Allocation => (Resource, ReduceWorkload, "RPE-CACHE-0002")
  | ResourceLimit => (Resource, ReduceWorkload, "RPE-CACHE-0003")
  | Cancelled => (Cancellation, AbandonOperation, "RPE-CACHE-0004")
  | InvalidValueFootprint => (Internal, DoNotRetry, "RPE-CACHE-0005")
  | InternalState => (Internal, DoNotRetry, "RPE-CACHE-0006")
  end.

Definition ReadyStoreError_for_code (code : ReadyStoreErrorCode) : ReadyStoreError :=
  let '(category, recoverability, diagnostic_id) := store_code_policy code in
  {| store_error_code := code; store_error_category := category;
     store_error_recoverability := recoverability;
     store_error_diagnostic_id := diagnostic_id;
     store_error_limit := None; store_error_document := None |}.

(** [error.limit = Some(limit)] and [result.document_error = Some(error)]. *)
Definition with_limit (limit : ReadyStoreLimit) (e : ReadyStoreError) : ReadyStoreError :=
  {| store_error_code := store_error_code e;
     store_error_category := store_error_category e;
     store_error_recoverability := store_error_recoverability e;
     store_error_diagnostic_id := store_error_diagnostic_id e;
     store_error_limit := Some limit; store_error_document := store_error_document e |}.

Definition ReadyStoreError_resource (kind : ReadyStoreLimitKind)
    (limit consumed attempted : Z) (scope : ReadyStoreScope)
    (reference : option ObjectRef) : ReadyStoreError :=
  with_limit {| sl_kind := kind; sl_limit := limit; sl_consumed := consumed;
                sl_attempted := attempted; sl_scope := scope;
                sl_reference := reference |}
    (ReadyStoreError_for_code ResourceLimit).

Definition ReadyStoreError_allocation (limit attempted : Z) (scope : ReadyStoreScope)
    : ReadyStoreError :=
  with_limit {| sl_kind := AllocationBytes; sl_limit := limit; sl_consumed := 0;
                sl_attempted := attempted; sl_scope := scope; sl_reference := None |}
    (ReadyStoreError_for_code Allocation).

Definition ReadyStoreError_from_footprint (error : DocumentInternalError) : ReadyStoreError :=
  let e := ReadyStoreError_for_code InvalidValueFootprint in
  {| store_error_code := store_error_code e;
     store_error_category := store_error_category e;
     store_error_recoverability := store_error_recoverability e;
     store_error_diagnostic_id := store_error_diagnostic_id e;
     store_error_limit := store_error_limit e; store_error_document := Some error |}.

(** ** Limits *)

Definition HARD_MAX_ENTRIES : Z := 65536.
Definition HARD_MAX_VALUE_BYTES : Z := 256 * 1024 * 1024.
Definition HARD_MAX_RESIDENT_BYTES : Z := 1024 * 1024 * 1024.

Record ReadyStoreLimitConfig := {
  config_max_entries : Z;
  config_max_value_bytes : Z;
  config_max_resident_bytes : Z
}.

Definition ReadyStoreLimitConfig_default : ReadyStoreLimitConfig :=
  {| config_max_entries := 128; config_max_value_bytes := 8 * 1024 * 1024;
     config_max_resident_bytes := 32 * 1024 * 1024 |}.

Record ReadyStoreLimits := {
  max_entries : Z;
  max_value_bytes : Z;
  max_resident_bytes : Z
}.

Definition ReadyStoreLimits_validate `{Platform} (config : ReadyStoreLimitConfig)
    : result ReadyStoreError ReadyStoreLimits :=
  let max_entries := try_from usize_max (config_max_entries config) in
  fail_if ((config_max_entries config =? 0)
           || (HARD_MAX_ENTRIES <? config_max_entries config)
           || bool_decide (max_entries = None)
           || (config_max_value_bytes config =? 0)
           || (HARD_MAX_VALUE_BYTES <? config_max_value_bytes config)
           || (config_max_resident_bytes config =? 0)
           || (HARD_MAX_RESIDENT_BYTES <? config_max_resident_bytes config)
           || (config_max_resident_bytes config <? config_max_value_bytes config))
    (ReadyStoreError_for_code InvalidLimits);;
  max_entries ← require max_entries (ReadyStoreError_for_code InvalidLimits);
  mret {| ReadyStore.max_entries := max_entries;
          max_value_bytes := config_max_value_bytes config;
          max_resident_bytes := config_max_resident_bytes config |}.

Definition CANCELLATION_INTERVAL : Z := 256.

(** The platform, the answers of [DocumentCancellation::is_cancelled] by call,
    [Vec::try_reserve_exact] on an empty vector, and [mem::size_of::<Entry>()]. *)
Class StoreRuntime : Type := {
  store_platform :: Platform;
  store_sizes :: ValueSizes;
  store_is_cancelled : nat → bool;
  reserve_entries : Z → option Z;
  size_of_entry : Z;
  reserve_entries_spec : ∀ count capacity,
    reserve_entries count = Some capacity → count ≤ capacity ≤ usize_max;
  size_of_entry_nonneg : 0 ≤ size_of_entry
}.

(** ** Results *)

Inductive ReadyMissReason := MissBindingMismatch | MissNotFound.

Inductive ReadyLookup :=
| Hit (value : ResolvedReference)
| Miss (reason : ReadyMissReason).

Inductive ReadyRejectReason :=
| BindingMismatch | RootMismatch | ResolutionProfileMismatch | ValueTooLarge
| ResidentLimit.

Record ReadyRejected := {
  rejected_reason : ReadyRejectReason;
  rejected_limit : option ReadyStoreLimit;
  rejected_value : ResolvedReference
}.

Record ReadyAdmitted := {
  admitted_replaced : bool;
  admitted_evicted : Z
}.

Inductive ReadyAdmission :=
| AdmissionAdmitted (admitted : ReadyAdmitted)
| AdmissionRejected (rejected : ReadyRejected).

(** The failure of an admission gives the value back. *)
Record ReadyStoreAdmissionError := {
  admission_error : ReadyStoreError;
  admission_error_value : ResolvedReference
}.

Record ReadyStoreStats := {
  stat_entries : Z;
  stat_hits : Z;
  stat_misses : Z;
  stat_admissions : Z;
  stat_replacements : Z;
  stat_rejections : Z;
  stat_evictions : Z;
  stat_metadata_bytes : Z;
  stat_value_heap_bytes : Z;
  stat_resident_bytes : Z;
  stat_peak_resident_bytes : Z
}.

(** ** The store *)

Record Entry := {
  entry_root : ObjectRef;
  entry_resolution_limits : ReferenceChainLimits;
  entry_heap_bytes : Z;
  entry_resolved : ResolvedReference
}.

Definition entry_matches (key : ReadyStoreKey) (entry : Entry) : bool :=
  bool_decide (entry_root entry = key_root key)
  && bool_decide (entry_resolution_limits entry = key_resolution_limits key).

(** [rs_capacity] is the capacity of the vector of entries. *)
Record ReadyStore := {
  rs_binding : ReadyStoreBinding;
  rs_limits : ReadyStoreLimits;
  rs_entries : list Entry;
  rs_capacity : Z;
  rs_metadata_bytes : Z;
  rs_value_heap_bytes : Z;
  rs_hits : Z;
  rs_misses : Z;
  rs_admissions : Z;
  rs_replacements : Z;
  rs_rejections : Z;
  rs_evictions : Z;
  rs_peak_resident_bytes : Z
}.

Definition set_misses (x : Z) (s : ReadyStore) : ReadyStore :=
  {| rs_binding := rs_binding s; rs_limits := rs_limits s; rs_entries := rs_entries s;
     rs_capacity := rs_capacity s; rs_metadata_bytes := rs_metadata_bytes s;
     rs_value_heap_bytes := rs_value_heap_bytes s; rs_hits := rs_hits s;
     rs_misses := x; rs_admissions := rs_admissions s;
     rs_replacements := rs_replacements s; rs_rejections := rs_rejections s;
     rs_evictions := rs_evictions s;
     rs_peak_resident_bytes := rs_peak_resident_bytes s |}.

Definition set_rejections (x : Z) (s : ReadyStore) : ReadyStore :=
  {| rs_binding := rs_binding s; rs_limits := rs_limits s; rs_entries := rs_entries s;
     rs_capacity := rs_capacity s; rs_metadata_bytes := rs_metadata_bytes s;
     rs_value_heap_bytes := rs_value_heap_bytes s; rs_hits := rs_hits s;
     rs_misses := rs_misses s; rs_admissions := rs_admissions s;
     rs_replacements := rs_replacements s; rs_rejections := x;
     rs_evictions := rs_evictions s;
     rs_peak_resident_bytes := rs_peak_resident_bytes s |}.

(** A hit moves its entry to the tail and is counted. *)
Definition touch_entry (index : nat) (entry : Entry) (hits : Z) (s : ReadyStore) : ReadyStore :=
  {| rs_binding := rs_binding s; rs_limits := rs_limits s;
     rs_entries := delete index (rs_entries s) ++ [entry];
     rs_capacity := rs_capacity s; rs_metadata_bytes := rs_metadata_bytes s;
     rs_value_heap_bytes := rs_value_heap_bytes s; rs_hits := hits;
     rs_misses := rs_misses s; rs_admissions := rs_admissions s;
     rs_replacements := rs_replacements s; rs_rejections := rs_rejections s;
     rs_evictions := rs_evictions s;
     rs_peak_resident_bytes := rs_peak_resident_bytes s |}.

(** [ReadyStore::clear], with the number it returns. *)
Definition ReadyStore_clear (s : ReadyStore) : ReadyStore * Z :=
  ({| rs_binding := rs_binding s; rs_limits := rs_limits s; rs_entries := [];
      rs_capacity := rs_capacity s; rs_metadata_bytes := rs_metadata_bytes s;
      rs_value_heap_bytes := 0; rs_hits := rs_hits s; rs_misses := rs_misses s;
      rs_admissions := rs_admissions s; rs_replacements := rs_replacements s;
      rs_rejections := rs_rejections s; rs_evictions := rs_evictions s;
      rs_peak_resident_bytes := rs_peak_resident_bytes s |},
   len (rs_entries s)).

(** The [expect]s of [stats] are the [None] of the model. *)
Definition ReadyStore_stats (s : ReadyStore) : option ReadyStoreStats :=
  entries ← try_from u64_max (len (rs_entries s));
  resident ← checked_add u64_max (rs_metadata_bytes s) (rs_value_heap_bytes s);
  Some {| stat_entries := entries; stat_hits := rs_hits s; stat_misses := rs_misses s;
          stat_admissions := rs_admissions s; stat_replacements := rs_replacements s;
          stat_rejections := rs_rejections s; stat_evictions := rs_evictions s;
          stat_metadata_bytes := rs_metadata_bytes s;
          stat_value_heap_bytes := rs_value_heap_bytes s;
          stat_resident_bytes := resident;
          stat_peak_resident_bytes := rs_peak_resident_bytes s |}.

Definition ReadyStore_new `{StoreRuntime} (binding : ReadyStoreBinding)
    (limits : ReadyStoreLimits) : result ReadyStoreError ReadyStore :=
  let scope := Session (binding_session_id binding) in
  let resident := max_resident_bytes limits in
  entry_bytes ← require (try_from u64_max size_of_entry)
    (ReadyStoreError_allocation resident u64_max scope);
  estimated_metadata ← require
    (count ← try_from u64_max (max_entries limits); checked_mul u64_max count entry_bytes)
    (ReadyStoreError_allocation resident u64_max scope);
  fail_if (resident <? estimated_metadata)
    (ReadyStoreError_resource ResidentBytes resident 0 estimated_metadata scope None);;
  capacity ← require (reserve_entries (max_entries limits))
    (ReadyStoreError_allocation resident estimated_metadata scope);
  metadata_bytes ← require
    (capacity ← try_from u64_max capacity; checked_mul u64_max capacity entry_bytes)
    (ReadyStoreError_allocation resident u64_max scope);
  fail_if (resident <? metadata_bytes)
    (ReadyStoreError_resource ResidentBytes resident 0 metadata_bytes scope None);;
  mret {| rs_binding := binding; rs_limits := limits; rs_entries := [];
          rs_capacity := capacity; rs_metadata_bytes := metadata_bytes;
          rs_value_heap_bytes := 0; rs_hits := 0; rs_misses := 0; rs_admissions := 0;
          rs_replacements := 0; rs_rejections := 0; rs_evictions := 0;
          rs_peak_resident_bytes := metadata_bytes |}.

(** The state of a method: the store, and the probes made so far. *)
Record StoreRun := { run_store : ReadyStore; run_probes : nat }.
Definition set_run_store (s : ReadyStore) (r : StoreRun) : StoreRun :=
  {| run_store := s; run_probes := run_probes r |}.
Definition set_run_probes (n : nat) (r : StoreRun) : StoreRun :=
  {| run_store := run_store r; run_probes := n |}.

Abbreviation StoreFailure := (failure ReadyStoreError).
Abbreviation AdmissionFailure := (failure ReadyStoreAdmissionError).

Section store.
Context `{StoreRuntime}.

Definition check_cancelled : M nat StoreFailure unit :=
  probes ← get;
  modify S;;
  err_if (store_is_cancelled probes) (Rejected (ReadyStoreError_for_code Cancelled)).

Definition probe_scan (index : Z) : M nat StoreFailure unit :=
  if index `mod` CANCELLATION_INTERVAL =? 0 then check_cancelled else mret tt.

Definition internal_state : ReadyStoreError := ReadyStoreError_for_code InternalState.

Definition checked_increment (value : Z) : result ReadyStoreError Z :=
  require (checked_add u64_max value 1) internal_state.

Fixpoint find_entry_loop (key : ReadyStoreKey) (index : nat) (entries : list Entry)
    : M nat StoreFailure (option nat) :=
  match entries with
  | [] => check_cancelled;; mret None
  | entry :: entries =>
      probe_scan (Z.of_nat index);;
      if entry_matches key entry then mret (Some index)
      else find_entry_loop key (S index) entries
  end.

Definition find_entry_index (s : ReadyStore) (key : ReadyStoreKey)
    : M nat StoreFailure (option nat) := find_entry_loop key 0 (rs_entries s).

(** ** Lookup *)

(** A scan, which only makes probes. *)
Definition scan {A} (m : M nat StoreFailure A) : M StoreRun StoreFailure A :=
  zoom run_probes set_run_probes id m.
Definition lift_store {A} (r : result ReadyStoreError A) : M StoreRun StoreFailure A :=
  of_result (match r with Ok a => Ok a | Err e => Err (Rejected e) end).
Definition update_store (f : ReadyStore → ReadyStore) : M StoreRun StoreFailure unit :=
  modify (λ r, set_run_store (f (run_store r)) r).

Definition lookup_ready (key : ReadyStoreKey) : M StoreRun StoreFailure ReadyLookup :=
  scan check_cancelled;;
  s ← gets run_store;
  if bool_decide (key_binding key ≠ rs_binding s) then
    misses ← lift_store (checked_increment (rs_misses s));
    update_store (set_misses misses);;
    mret (Miss MissBindingMismatch)
  else
    index ← scan (find_entry_index s key);
    match index with
    | None =>
        misses ← lift_store (checked_increment (rs_misses s));
        update_store (set_misses misses);;
        mret (Miss MissNotFound)
    | Some index =>
        next_hits ← lift_store (checked_increment (rs_hits s));
        scan check_cancelled;;
        entry ← ok_or (rs_entries s !! index) Panicked;
        update_store (touch_entry index entry next_hits);;
        mret (Hit (entry_resolved entry))
    end.

(** ** Admission *)

Definition value_matches_binding (value : ResolvedReference) (binding : ReadyStoreBinding)
    : bool :=
  let object := resolved_object value in
  bool_decide (attested_snapshot object = binding_snapshot binding)
  && bool_decide (attested_revision_id object = binding_revision_id binding)
  && (attested_revision_startxref object =? binding_revision_startxref binding)
  && bool_decide (attested_object_limits object = binding_object_limits binding)
  && bool_decide (attested_syntax_limits object = binding_syntax_limits binding).

Definition admission_fits (resident_entries resident_heap max_entries incoming_heap
    max_heap : Z) : bool :=
  (resident_entries <? max_entries)
  && match checked_add u64_max resident_heap incoming_heap with
     | Some bytes => bytes <=? max_heap
     | None => false
     end.

Definition store_limit (s : ReadyStore) (kind : ReadyStoreLimitKind)
    (limit consumed attempted : Z) (reference : option ObjectRef) : ReadyStoreLimit :=
  {| sl_kind := kind; sl_limit := limit; sl_consumed := consumed;
     sl_attempted := attempted; sl_scope := Session (binding_session_id (rs_binding s));
     sl_reference := reference |}.

(** [admission_failure(error, value)] on every failing path of a scan or a
    checked operation. *)
Definition fail_with (value : ResolvedReference) (e : StoreFailure) : AdmissionFailure :=
  match e with
  | Rejected e => Rejected {| admission_error := e; admission_error_value := value |}
  | Panicked => Panicked
  end.
Definition admission_scan {A} (value : ResolvedReference) (m : M nat StoreFailure A)
    : M StoreRun AdmissionFailure A :=
  zoom run_probes set_run_probes (fail_with value) m.
Definition checked_or_fail {A} (value : ResolvedReference) (o : option A)
    : M StoreRun AdmissionFailure A :=
  ok_or o (fail_with value (Rejected internal_state)).

Definition reject_admission (reason : ReadyRejectReason) (limit : option ReadyStoreLimit)
    (value : ResolvedReference) : M StoreRun AdmissionFailure ReadyAdmission :=
  s ← gets run_store;
  rejections ← checked_or_fail value (checked_add u64_max (rs_rejections s) 1);
  modify (λ r, set_run_store (set_rejections rejections (run_store r)) r);;
  mret (AdmissionRejected {| rejected_reason := reason; rejected_limit := limit;
                             rejected_value := value |}).

(** The plan of an admission: what would remain, and how many are evicted. *)
Record VictimPlan := {
  vp_remaining_len : Z;
  vp_remaining_heap : Z;
  vp_victim_count : Z
}.

(** [for (index, entry) in self.entries.iter().enumerate()]. *)
Fixpoint plan_victims `{Platform} (max_entries heap_bytes max_heap : Z)
    (replacement : option nat) (index : nat) (entries : list Entry) (plan : VictimPlan)
    : M nat StoreFailure VictimPlan :=
  match entries with
  | [] => mret plan
  | entry :: entries =>
      probe_scan (Z.of_nat index);;
      if bool_decide (replacement = Some index) then
        plan_victims max_entries heap_bytes max_heap replacement (S index) entries plan
      else if admission_fits (vp_remaining_len plan) (vp_remaining_heap plan)
                max_entries heap_bytes max_heap then mret plan
      else
        next_len ← ok_or (checked_sub (vp_remaining_len plan) 1) (Rejected internal_state);
        next_heap ← ok_or (checked_sub (vp_remaining_heap plan) (entry_heap_bytes entry))
          (Rejected internal_state);
        next_victims ← ok_or (checked_add usize_max (vp_victim_count plan) 1)
          (Rejected internal_state);
        plan_victims max_entries heap_bytes max_heap replacement (S index) entries
          {| vp_remaining_len := next_len; vp_remaining_heap := next_heap;
             vp_victim_count := next_victims |}
  end.

(** [self.entries.retain(..)], with the two counters the closure updates. *)
Fixpoint retain_entries (key : ReadyStoreKey) (replacement_pending : bool)
    (victims_pending : Z) (entries : list Entry) : list Entry * bool * Z :=
  match entries with
  | [] => ([], replacement_pending, victims_pending)
  | entry :: entries =>
      if replacement_pending && entry_matches key entry then
        retain_entries key false victims_pending entries
      else if 0 <? victims_pending then
        retain_entries key replacement_pending (victims_pending - 1) entries
      else
        let '(kept, pending, victims) :=
          retain_entries key replacement_pending victims_pending entries in
        (entry :: kept, pending, victims)
  end.

(** The commit: the surviving entries and the new one, with the counters. *)
Definition commit_entries (entries : list Entry)
    (value_heap_bytes admissions replacements evictions peak : Z) (s : ReadyStore)
    : ReadyStore :=
  {| rs_binding := rs_binding s; rs_limits := rs_limits s; rs_entries := entries;
     rs_capacity := rs_capacity s; rs_metadata_bytes := rs_metadata_bytes s;
     rs_value_heap_bytes := value_heap_bytes; rs_hits := rs_hits s;
     rs_misses := rs_misses s; rs_admissions := admissions;
     rs_replacements := replacements; rs_rejections := rs_rejections s;
     rs_evictions := evictions; rs_peak_resident_bytes := peak |}.

(** The checks after planning, and the commit. *)
Definition commit_plan (key : ReadyStoreKey) (value : ResolvedReference)
    (heap_bytes max_heap : Z) (s : ReadyStore) (replaced : bool) (plan : VictimPlan)
    : M StoreRun AdmissionFailure ReadyAdmission :=
  let max_entries := max_entries (rs_limits s) in
  err_if (negb (admission_fits (vp_remaining_len plan) (vp_remaining_heap plan)
                  max_entries heap_bytes max_heap))
    (fail_with value (Rejected internal_state));;
  new_heap_bytes ← checked_or_fail value
    (checked_add u64_max (vp_remaining_heap plan) heap_bytes);
  final_len ← checked_or_fail value (checked_add usize_max (vp_remaining_len plan) 1);
  evicted ← checked_or_fail value (try_from u64_max (vp_victim_count plan));
  next_admissions ← checked_or_fail value (checked_add u64_max (rs_admissions s) 1);
  next_replacements ← (if replaced
                       then checked_or_fail value (checked_add u64_max (rs_replacements s) 1)
                       else mret (rs_replacements s));
  next_evictions ← checked_or_fail value (checked_add u64_max (rs_evictions s) evicted);
  resident ← checked_or_fail value (checked_add u64_max (rs_metadata_bytes s) new_heap_bytes);
  err_if ((max_entries <? final_len) || (rs_capacity s <? final_len)
          || (max_resident_bytes (rs_limits s) <? resident))
    (fail_with value (Rejected internal_state));;
  admission_scan value check_cancelled;;
  let '(kept, replacement_pending, victims_pending) :=
    retain_entries key replaced (vp_victim_count plan) (rs_entries s) in
  err_if (replacement_pending || negb (victims_pending =? 0)
          || negb (len kept =? vp_remaining_len plan)) Panicked;;
  modify (λ r, set_run_store
    (commit_entries
       (kept ++ [{| entry_root := key_root key;
                    entry_resolution_limits := key_resolution_limits key;
                    entry_heap_bytes := heap_bytes; entry_resolved := value |}])
       new_heap_bytes next_admissions next_replacements next_evictions
       (Z.max (rs_peak_resident_bytes s) resident) (run_store r)) r);;
  mret (AdmissionAdmitted {| admitted_replaced := replaced; admitted_evicted := evicted |}).

(** From the accepted footprint on: planning and commit. *)
Definition admit_value (key : ReadyStoreKey) (value : ResolvedReference)
    (heap_bytes max_heap : Z) : M StoreRun AdmissionFailure ReadyAdmission :=
  s ← gets run_store;
  let max_entries := max_entries (rs_limits s) in
  replacement_index ← admission_scan value (find_entry_index s key);
  let replaced := bool_decide (is_Some replacement_index) in
  replacement_heap ← match replacement_index with
                     | Some index =>
                         entry ← ok_or (rs_entries s !! index) Panicked;
                         mret (entry_heap_bytes entry)
                     | None => mret 0
                     end;
  remaining_len ← checked_or_fail value
    (checked_sub (len (rs_entries s)) (if replaced then 1 else 0));
  remaining_heap ← checked_or_fail value
    (checked_sub (rs_value_heap_bytes s) replacement_heap);
  let start := {| vp_remaining_len := remaining_len; vp_remaining_heap := remaining_heap;
                  vp_victim_count := 0 |} in
  plan ← (if admission_fits remaining_len remaining_heap max_entries heap_bytes max_heap
          then mret start
          else admission_scan value
                 (plan_victims max_entries heap_bytes max_heap replacement_index 0
                    (rs_entries s) start));
  admission_scan value check_cancelled;;
  commit_plan key value heap_bytes max_heap s replaced plan.

Definition try_admit (key : ReadyStoreKey) (value : ResolvedReference)
    : M StoreRun AdmissionFailure ReadyAdmission :=
  admission_scan value check_cancelled;;
  s ← gets run_store;
  if bool_decide (key_binding key ≠ rs_binding s)
     || negb (value_matches_binding value (rs_binding s))
  then reject_admission BindingMismatch None value
  else if bool_decide (key_root key ≠ resolved_root value)
  then reject_admission RootMismatch None value
  else if bool_decide (key_resolution_limits key ≠ resolved_limits value)
  then reject_admission ResolutionProfileMismatch None value
  else match try_resident_footprint value with
  | Err error => throw (fail_with value (Rejected (ReadyStoreError_from_footprint error)))
  | Ok footprint =>
      let total := footprint_total_bytes footprint in
      if max_value_bytes (rs_limits s) <? total then
        reject_admission ValueTooLarge
          (Some (store_limit s ValueBytes (max_value_bytes (rs_limits s)) 0 total
                   (Some (key_root key)))) value
      else
        heap_bytes ← checked_or_fail value
          (checked_add u64_max (footprint_syntax_heap_bytes footprint)
             (footprint_chain_capacity_bytes footprint));
        max_heap ← checked_or_fail value
          (checked_sub (max_resident_bytes (rs_limits s)) (rs_metadata_bytes s));
        if max_heap <? heap_bytes then
          consumed ← checked_or_fail value
            (checked_add u64_max (rs_metadata_bytes s) (rs_value_heap_bytes s));
          reject_admission ResidentLimit
            (Some (store_limit s ResidentBytes (max_resident_bytes (rs_limits s)) consumed
                     heap_bytes (Some (key_root key)))) value
        else admit_value key value heap_bytes max_heap
  end.
End store.
