(* ===== verification/ReadyStoreSpec.v ===== *)
(** * The Ready store as a least-recently-used list

    The invariant of the store, what its scans compute, and the exact outcome of
    every operation. *)

From stdpp Require Import base list numbers option strings.
From S2P Require Import Prelude.
From S2P Require Import SourceTypes.
From S2P Require Import DocumentTypes.
From S2P Require Import ReadyStore.

(** ** Identities and sums *)

Definition entry_id (e : Entry) : ObjectRef * ReferenceChainLimits :=
  (entry_root e, entry_resolution_limits e).
Definition key_id (k : ReadyStoreKey) : ObjectRef * ReferenceChainLimits :=
  (key_root k, key_resolution_limits k).

Lemma entry_matches_id key e : entry_matches key e = true ↔ entry_id e = key_id key.
Proof.
  unfold entry_matches, entry_id, key_id. rewrite andb_true_iff, !bool_decide_eq_true.
  split; [by intros [-> ->]|by intros [= -> ->]].
Qed.

Lemma entry_matches_false key e : entry_matches key e = false ↔ entry_id e ≠ key_id key.
Proof. rewrite <-entry_matches_id. by destruct (entry_matches key e). Qed.

Definition heap_sum (l : list Entry) : Z := foldr (λ e acc, entry_heap_bytes e + acc) 0 l.

Lemma heap_sum_app l l' : heap_sum (l ++ l') = heap_sum l + heap_sum l'.
Proof. induction l as [|e l IH]; simpl; [done|]. rewrite IH. lia. Qed.

(** The entries other than the one of a key. *)
Definition others (key : ReadyStoreKey) (l : list Entry) : list Entry :=
  filter (λ e, entry_matches key e = false) l.

Definition none_matches (key : ReadyStoreKey) (l : list Entry) : Prop :=
  Forall (λ e, entry_matches key e = false) l.

Lemma others_cons key e l :
  others key (e :: l) = if entry_matches key e then others key l else e :: others key l.
Proof.
  unfold others. destruct (entry_matches key e) eqn:He.
  - by rewrite filter_cons_False by congruence.
  - by rewrite filter_cons_True.
Qed.

Lemma others_forall (P : Entry → Prop) key l : Forall P l → Forall P (others key l).
Proof.
  rewrite !Forall_forall. intros Hl x [_ Hx]%list_elem_of_filter. by apply Hl.
Qed.

Lemma others_all key l : none_matches key l → others key l = l.
Proof.
  intros Hl. induction Hl as [|e l He _ IH]; [done|]. unfold others in *.
  rewrite filter_cons_True by done. by rewrite IH.
Qed.

Lemma others_split key l1 e l2 :
  none_matches key l1 → none_matches key l2 → entry_matches key e = true →
  others key (l1 ++ e :: l2) = l1 ++ l2.
Proof.
  intros H1 H2 He. unfold others. rewrite filter_app, filter_cons_False by congruence.
  fold (others key l1) (others key l2). by rewrite !others_all.
Qed.

(** With distinct identities, an entry of the key is the only one. *)
Lemma unique_match key l i e :
  NoDup (entry_id <$> l) → l !! i = Some e → entry_matches key e = true →
  l = take i l ++ e :: drop (S i) l ∧
  none_matches key (take i l) ∧ none_matches key (drop (S i) l).
Proof.
  intros Hnd Hi He. apply entry_matches_id in He.
  assert (l = take i l ++ e :: drop (S i) l) as Hl by (by rewrite take_drop_middle).
  split; [done|]. rewrite Hl, fmap_app, fmap_cons in Hnd.
  apply NoDup_app in Hnd as (_&H1&[H2 _]%NoDup_cons).
  split; apply Forall_forall; intros x Hx; apply entry_matches_false;
    intros Hid; rewrite He in *.
  - apply (H1 (key_id key)); [|by left]. rewrite <-Hid. by apply list_elem_of_fmap_2.
  - apply H2. rewrite <-Hid. by apply list_elem_of_fmap_2.
Qed.

(** ** The scans

    [scans m P]: whatever the probes, [m] is cancelled or returns a value in
    [P]; it never fails otherwise. *)

Section scans.
Context `{StoreRuntime}.

Definition cancelled_error : StoreFailure := Rejected (ReadyStoreError_for_code Cancelled).
Definition probed : Prop := ∃ k, store_is_cancelled k = true.

Definition scans {A} (m : M nat StoreFailure A) (P : A → Prop) : Prop :=
  ∀ n, match (m n).2 with
       | Ok a => P a
       | Err e => e = cancelled_error ∧ probed
       end.

Lemma scans_ret {A} (a : A) (P : A → Prop) : P a → scans (mret a) P.
Proof. by intros Ha n. Qed.

Lemma scans_weaken {A} (m : M nat StoreFailure A) (P Q : A → Prop) :
  scans m P → (∀ a, P a → Q a) → scans m Q.
Proof. intros Hm HPQ n. specialize (Hm n). destruct (m n).2; auto. Qed.

Lemma scans_bind {A B} (m : M nat StoreFailure A) (f : A → M nat StoreFailure B) P Q :
  scans m P → (∀ a, P a → scans (f a) Q) → scans (m ≫= f) Q.
Proof.
  intros Hm Hf n. specialize (Hm n). unfold mbind, M_bind.
  destruct (m n) as [n' [a|e]]; simpl in *; [by apply Hf|done].
Qed.

Lemma scans_check : scans check_cancelled (λ _, True).
Proof.
  intros n. unfold check_cancelled, get, modify, err_if, mbind, M_bind. simpl.
  destruct (store_is_cancelled n) eqn:Hn; [|done]. split; [done|by exists n].
Qed.

Lemma scans_probe index : scans (probe_scan index) (λ _, True).
Proof. unfold probe_scan. case_match; [apply scans_check|by apply scans_ret]. Qed.

Lemma scans_probe_bind {A} index (m : M nat StoreFailure A) P :
  scans m P → scans (probe_scan index;; m) P.
Proof. intros Hm. eapply scans_bind; [apply scans_probe|done]. Qed.

Lemma scans_ok_or_bind {A B} (o : option A) a e (f : A → M nat StoreFailure B) P :
  o = Some a → scans (f a) P → scans (ok_or o e ≫= f) P.
Proof. intros -> Hf n. apply Hf. Qed.

(** [find_entry_index] is the first position of a matching entry. *)
Lemma find_entry_loop_spec key start l :
  scans (find_entry_loop key start l) (λ o,
    match o with
    | Some i => ∃ j e, i = (start + j)%nat ∧ l !! j = Some e ∧ entry_matches key e = true
    | None => none_matches key l
    end).
Proof.
  revert start. induction l as [|e l IH]; intros start; cbn [find_entry_loop].
  { eapply scans_bind; [apply scans_check|]. intros _ _. apply scans_ret. constructor. }
  apply scans_probe_bind. destruct (entry_matches key e) eqn:He.
  - apply scans_ret. exists 0%nat, e. split_and!; [lia|done|done].
  - eapply scans_weaken; [apply IH|]. intros [i|].
    + intros (j&e'&->&Hj&He'). exists (S j), e'. split_and!; [lia|done|done].
    + intros Hl. by constructor.
Qed.

Lemma find_entry_index_spec s key :
  scans (find_entry_index s key) (λ o,
    match o with
    | Some i => ∃ e, rs_entries s !! i = Some e ∧ entry_matches key e = true
    | None => none_matches key (rs_entries s)
    end).
Proof.
  eapply scans_weaken; [apply find_entry_loop_spec|]. intros [i|]; [|done].
  intros (j&e&->&Hj&He). by exists e.
Qed.
End scans.

(** ** Victims *)

Section victims.
Context `{StoreRuntime} (key : ReadyStoreKey) (max_entries heap_bytes max_heap : Z).

Definition fits (l : list Entry) : bool :=
  admission_fits (len l) (heap_sum l) max_entries heap_bytes max_heap.

(** The least number of entries to drop from the head so that the rest fits. *)
Record least_victims (l : list Entry) (n : nat) : Prop := {
  lv_bound : (n ≤ length l)%nat;
  lv_fits : fits (drop n l) = true ∨ n = length l;
  lv_least : ∀ m, (m < n)%nat → fits (drop m l) = false
}.

Definition plan_of (l : list Entry) (n : nat) (already : Z) : VictimPlan :=
  {| vp_remaining_len := len l - Z.of_nat n; vp_remaining_heap := heap_sum (drop n l);
     vp_victim_count := already + Z.of_nat n |}.

(** Positions of a suffix: only the replaced entry matches the key. *)
Definition replaced_at (replacement : option nat) (index : nat) (l : list Entry) : Prop :=
  ∀ j e, l !! j = Some e →
    entry_matches key e = bool_decide (replacement = Some (index + j)%nat).

Lemma replaced_at_cons replacement index e l :
  replaced_at replacement index (e :: l) →
  entry_matches key e = bool_decide (replacement = Some index) ∧
  replaced_at replacement (S index) l.
Proof.
  intros Hr. split.
  - rewrite (Hr 0%nat e eq_refl). by rewrite Nat.add_0_r.
  - intros j x Hj. rewrite (Hr (S j) x Hj). by rewrite Nat.add_succ_r.
Qed.

Lemma heap_sum_nonneg l : Forall (λ e, 0 ≤ entry_heap_bytes e) l → 0 ≤ heap_sum l.
Proof. induction 1; simpl; lia. Qed.

Lemma least_victims_zero l : fits l = true → least_victims l 0.
Proof. intros Hf. split; [lia|by left|lia]. Qed.

Lemma least_victims_cons e l n :
  fits (e :: l) = false → least_victims l n → least_victims (e :: l) (S n).
Proof.
  intros Hf [Hb Ht Hl]. split; simpl; [lia| |].
  - destruct Ht as [?| ->]; auto.
  - intros [|m] Hm; [done|]. apply Hl. lia.
Qed.

Lemma plan_victims_spec replacement index l already :
  replaced_at replacement index l → Forall (λ e, 0 ≤ entry_heap_bytes e) l →
  0 ≤ already → already + len (others key l) ≤ usize_max →
  scans (plan_victims max_entries heap_bytes max_heap replacement index l
           (plan_of (others key l) 0 already))
    (λ p, ∃ n, least_victims (others key l) n ∧ p = plan_of (others key l) n already).
Proof.
  intros Hr Hh Ha Hu. revert index already Hr Ha Hu.
  induction Hh as [|e l He Hh IH]; intros index already Hr Ha Hu; cbn [plan_victims].
  { apply scans_ret. exists 0%nat. split; [|done]. split; [simpl; lia|by right|lia]. }
  apply replaced_at_cons in Hr as [Hm Hr]. apply scans_probe_bind.
  rewrite others_cons in *. rewrite Hm in *.
  destruct (bool_decide (replacement = Some index)); [by apply IH|]. cbn [length] in Hu.
  replace (admission_fits _ _ _ _ _) with (fits (e :: others key l))
    by (unfold fits, plan_of; cbn [vp_remaining_len vp_remaining_heap drop]; f_equal; lia).
  destruct (fits (e :: others key l)) eqn:Hf.
  { apply scans_ret. exists 0%nat. split; [by apply least_victims_zero|done]. }
  assert (0 ≤ heap_sum (others key l)) as Hsum
    by (apply heap_sum_nonneg; by apply others_forall).
  unfold plan_of at 1 2 3.
  cbn [vp_remaining_len vp_remaining_heap vp_victim_count drop heap_sum foldr length].
  fold (heap_sum (others key l)).
  do 2 (eapply scans_ok_or_bind; [apply checked_sub_Some; split; [|reflexivity]; lia|]).
  eapply scans_ok_or_bind; [apply checked_add_Some; split; [|reflexivity]; lia|].
  eapply scans_weaken.
  - specialize (IH (S index) (already + 1) Hr ltac:(lia) ltac:(lia)).
    unfold plan_of in IH at 1. rewrite drop_0 in IH.
    match goal with |- scans (plan_victims _ _ _ _ _ _ ?p) _ =>
      match type of IH with scans (plan_victims _ _ _ _ _ _ ?q) _ =>
        replace p with q by (f_equal; lia) end end.
    exact IH.
  - intros p (n&Hn&->). exists (S n). split; [by apply least_victims_cons|].
    unfold plan_of. cbn [length drop]. f_equal; lia.
Qed.
End victims.

(** ** The commit *)

Lemma retain_none key pending v l :
  none_matches key l → 0 ≤ v →
  retain_entries key pending v l = (drop (Z.to_nat v) l, pending, Z.max 0 (v - len l)).
Proof.
  intros Hl. revert v. induction Hl as [|e l He _ IH]; intros v Hv; cbn [retain_entries].
  { rewrite drop_nil. f_equal. simpl. lia. }
  rewrite He, andb_false_r. destruct (0 <? v) eqn:Hpos; checked_facts.
  - rewrite IH by lia. replace (Z.to_nat v) with (S (Z.to_nat (v - 1))) by lia.
    f_equal. simpl. lia.
  - assert (v = 0) as -> by lia. rewrite IH by lia. simpl. rewrite drop_0. f_equal.
    simpl. lia.
Qed.

Lemma retain_one key v l1 e l2 :
  none_matches key l1 → none_matches key l2 → entry_matches key e = true → 0 ≤ v →
  retain_entries key true v (l1 ++ e :: l2) =
    (drop (Z.to_nat v) (l1 ++ l2), false, Z.max 0 (v - len (l1 ++ l2))).
Proof.
  intros H1 H2 He. revert v. induction H1 as [|x l1 Hx _ IH]; intros v Hv;
    cbn [app retain_entries].
  { rewrite He. by apply retain_none. }
  rewrite Hx, andb_false_r. destruct (0 <? v) eqn:Hpos; checked_facts.
  - rewrite IH by lia. replace (Z.to_nat v) with (S (Z.to_nat (v - 1))) by lia.
    f_equal. simpl. lia.
  - assert (v = 0) as -> by lia. rewrite IH by lia. simpl. rewrite drop_0. f_equal.
    simpl. lia.
Qed.

(** What [find_entry_index] found, in a list with distinct identities. *)
Definition found (key : ReadyStoreKey) (l : list Entry) (o : option nat) : Prop :=
  match o with
  | Some i => ∃ e, l !! i = Some e ∧ entry_matches key e = true
  | None => none_matches key l
  end.

Lemma found_replaced_at key l o :
  NoDup (entry_id <$> l) → found key l o → replaced_at key o 0 l.
Proof.
  intros Hnd Ho j e Hj. simpl. destruct o as [i|].
  - destruct Ho as (x&Hx&Hm). apply eq_true_iff_eq. rewrite bool_decide_eq_true. split.
    + intros He. f_equal. apply (NoDup_lookup _ _ _ (entry_id e) Hnd);
        rewrite list_lookup_fmap; [|by rewrite Hj].
      rewrite Hx. simpl. f_equal. apply entry_matches_id in He, Hm. congruence.
    + intros [= ->]. congruence.
  - rewrite bool_decide_eq_false_2 by done.
    by apply (proj1 (Forall_lookup _ _) Ho) in Hj.
Qed.

Lemma retain_found key l o n :
  NoDup (entry_id <$> l) → found key l o → (n ≤ length (others key l))%nat →
  retain_entries key (bool_decide (is_Some o)) (Z.of_nat n) l =
    (drop n (others key l), false, 0).
Proof.
  intros Hnd Ho Hn. destruct o as [i|]; simpl in Ho.
  - destruct Ho as (e&Hi&He). destruct (unique_match key l i e Hnd Hi He) as (Hl&H1&H2).
    rewrite Hl in Hn |- *. rewrite (others_split _ _ _ _ H1 H2 He) in Hn |- *.
    rewrite bool_decide_eq_true_2 by eauto. rewrite retain_one by (done || lia).
    rewrite Nat2Z.id. f_equal. lia.
  - rewrite (others_all _ _ Ho) in *. rewrite bool_decide_eq_false_2 by (intros []; done).
    rewrite retain_none by (done || lia). rewrite Nat2Z.id. f_equal. lia.
Qed.

(** What the replacement frees. *)
Lemma found_sums key l o :
  NoDup (entry_id <$> l) → found key l o →
  len l - (if bool_decide (is_Some o) then 1 else 0) = len (others key l) ∧
  heap_sum l - match o with
               | Some i => default 0 (entry_heap_bytes <$> l !! i)
               | None => 0
               end = heap_sum (others key l).
Proof.
  intros Hnd Ho. destruct o as [i|]; simpl in Ho.
  - destruct Ho as (e&Hi&He). destruct (unique_match key l i e Hnd Hi He) as (Hl&H1&H2).
    rewrite Hi. rewrite bool_decide_eq_true_2 by eauto.
    assert (others key l = take i l ++ drop (S i) l) as ->
      by (rewrite Hl at 1; by apply others_split).
    pose proof (f_equal length Hl) as Hlen. pose proof (f_equal heap_sum Hl) as Hsum.
    rewrite length_app in *. rewrite heap_sum_app in *. simpl in Hlen, Hsum |- *. split; lia.
  - rewrite (others_all _ _ Ho), bool_decide_eq_false_2 by (intros []; done). split; lia.
Qed.

(** ** The invariant *)

Record store_limits_ok (l : ReadyStoreLimits) : Prop := {
  lo_entries : 0 < max_entries l ≤ HARD_MAX_ENTRIES;
  lo_value : 0 < max_value_bytes l ≤ HARD_MAX_VALUE_BYTES;
  lo_resident : 0 < max_resident_bytes l ≤ HARD_MAX_RESIDENT_BYTES;
  lo_value_resident : max_value_bytes l ≤ max_resident_bytes l
}.

(** The bytes of a value the store accounts: its heap, beside its inline size. *)
Definition heap_of `{ValueSizes} (v : ResolvedReference) : Z :=
  syntax_heap_bytes (resolved_object v)
  + chain_prefix_capacity (resolved_chain v) * size_of_object_ref.

Record entry_ok `{ValueSizes} (s : ReadyStore) (e : Entry) : Prop := {
  eo_root : entry_root e = resolved_root (entry_resolved e);
  eo_limits : entry_resolution_limits e = resolved_limits (entry_resolved e);
  eo_binding : value_matches_binding (entry_resolved e) (rs_binding s) = true;
  eo_heap : 0 ≤ entry_heap_bytes e ∧ entry_heap_bytes e = heap_of (entry_resolved e);
  eo_value : size_of_resolved_reference + entry_heap_bytes e ≤ max_value_bytes (rs_limits s)
}.

Record store_ok `{StoreRuntime} (s : ReadyStore) : Prop := {
  so_limits : store_limits_ok (rs_limits s);
  so_capacity : max_entries (rs_limits s) ≤ rs_capacity s;
  so_metadata : 0 ≤ rs_metadata_bytes s ≤ max_resident_bytes (rs_limits s);
  so_len : len (rs_entries s) ≤ max_entries (rs_limits s);
  so_nodup : NoDup (entry_id <$> rs_entries s);
  so_entries : Forall (entry_ok s) (rs_entries s);
  so_heap : rs_value_heap_bytes s = heap_sum (rs_entries s);
  so_resident : rs_metadata_bytes s + rs_value_heap_bytes s ≤ rs_peak_resident_bytes s;
  so_peak : rs_peak_resident_bytes s ≤ max_resident_bytes (rs_limits s);
  so_hits : 0 ≤ rs_hits s ≤ u64_max;
  so_misses : 0 ≤ rs_misses s ≤ u64_max;
  so_rejections : 0 ≤ rs_rejections s ≤ u64_max;
  so_admissions : rs_admissions s ≤ u64_max;
  so_replacements : 0 ≤ rs_replacements s;
  so_evictions : 0 ≤ rs_evictions s;
  (** Every resident, replaced or evicted entry was admitted. *)
  so_ledger : rs_replacements s + rs_evictions s + len (rs_entries s) ≤ rs_admissions s
}.

Lemma store_ok_heaps `{StoreRuntime} s :
  store_ok s → Forall (λ e, 0 ≤ entry_heap_bytes e) (rs_entries s).
Proof. intros Hs. eapply Forall_impl; [apply Hs|]. by intros e [_ _ _ [? _] _]. Qed.

Lemma store_ok_usize `{StoreRuntime} s :
  store_ok s →
  max_entries (rs_limits s) < usize_max ≤ u64_max ∧ max_resident_bytes (rs_limits s) < u64_max.
Proof.
  intros Hs. destruct (so_limits _ Hs) as [? _ ? _]. pose proof usize_max_cases.
  unfold HARD_MAX_ENTRIES, HARD_MAX_RESIDENT_BYTES, u32_max, u64_max in *. lia.
Qed.

(** ** Runs of store methods *)

Section runs.
Context `{StoreRuntime}.

Definition run_ends {E A} (m : M StoreRun E A) (r : StoreRun)
    (Q : StoreRun → result E A → Prop) : Prop := Q (m r).1 (m r).2.

Lemma run_ends_ret {E A} (a : A) r (Q : StoreRun → result E A → Prop) :
  Q r (Ok a) → run_ends (mret a) r Q.
Proof. done. Qed.

Lemma run_ends_gets {E A B} (g : StoreRun → A) (f : A → M StoreRun E B) r Q :
  run_ends (f (g r)) r Q → run_ends (gets g ≫= f) r Q.
Proof. done. Qed.

Lemma run_ends_modify {E B} (g : StoreRun → StoreRun) (k : M StoreRun E B) r Q :
  run_ends k (g r) Q → run_ends (modify g;; k) r Q.
Proof. done. Qed.

Lemma run_ends_some {E A B} (o : option A) a (e : E) (f : A → M StoreRun E B) r Q :
  o = Some a → run_ends (f a) r Q → run_ends (ok_or o e ≫= f) r Q.
Proof. by intros ->. Qed.

Lemma run_ends_ok_or {E A B} (o : option A) (e : E) (f : A → M StoreRun E B) r Q :
  (o = None → Q r (Err e)) → (∀ a, o = Some a → run_ends (f a) r Q) →
  run_ends (ok_or o e ≫= f) r Q.
Proof. intros Hn Hs. unfold run_ends, mbind, M_bind, ok_or. destruct o; simpl; auto. by apply Hs. Qed.

Lemma run_ends_err_if {E B} (b : bool) (e : E) (k : M StoreRun E B) r Q :
  (b = true → Q r (Err e)) → (b = false → run_ends k r Q) →
  run_ends (err_if b e;; k) r Q.
Proof. intros Ht Hf. unfold run_ends, mbind, M_bind, err_if. destruct b; simpl; auto. by apply Hf. Qed.

(** A scan of the probes: only their count changes. *)
Lemma run_ends_zoom {E A B} (map_err : StoreFailure → E) (m : M nat StoreFailure A)
    (P : A → Prop) (f : A → M StoreRun E B) r (Q : StoreRun → result E B → Prop) :
  scans m P →
  (∀ r', run_store r' = run_store r → probed → Q r' (Err (map_err cancelled_error))) →
  (∀ r' a, run_store r' = run_store r → P a → run_ends (f a) r' Q) →
  run_ends (zoom run_probes set_run_probes map_err m ≫= f) r Q.
Proof.
  intros Hm Herr Hk. specialize (Hm (run_probes r)).
  unfold run_ends, mbind, M_bind, zoom. destruct (m (run_probes r)) as [n [a|e]]; simpl in *.
  - by apply (Hk (set_run_probes n r)).
  - destruct Hm as [-> Hp]. by apply Herr.
Qed.
End runs.

(** ** Lookup *)

Section lookup.
Context `{StoreRuntime}.

(** The exact outcome of a lookup. *)
Definition lookup_outcome (key : ReadyStoreKey) (s s' : ReadyStore)
    (res : result StoreFailure ReadyLookup) : Prop :=
  match res with
  | Ok (Hit v) =>
      key_binding key = rs_binding s ∧
      ∃ i e, rs_entries s !! i = Some e ∧ entry_id e = key_id key ∧ v = entry_resolved e ∧
        rs_hits s < u64_max ∧ s' = touch_entry i e (rs_hits s + 1) s
  | Ok (Miss MissBindingMismatch) =>
      key_binding key ≠ rs_binding s ∧ rs_misses s < u64_max ∧
      s' = set_misses (rs_misses s + 1) s
  | Ok (Miss MissNotFound) =>
      key_binding key = rs_binding s ∧ key_id key ∉ entry_id <$> rs_entries s ∧
      rs_misses s < u64_max ∧ s' = set_misses (rs_misses s + 1) s
  | Err (Rejected e) =>
      s' = s ∧ ((e = ReadyStoreError_for_code Cancelled ∧ probed) ∨
                (e = internal_state ∧ (rs_hits s = u64_max ∨ rs_misses s = u64_max)))
  | Err Panicked => False
  end.

Lemma none_matches_id key l : none_matches key l → key_id key ∉ entry_id <$> l.
Proof.
  intros Hl (e&He&Hin)%list_elem_of_fmap. apply (proj1 (Forall_forall _ _) Hl) in Hin.
  apply entry_matches_false in Hin. done.
Qed.

Lemma run_ends_increment {B} (x : Z) (f : Z → M StoreRun StoreFailure B) r
    (Q : StoreRun → result StoreFailure B → Prop) :
  x ≤ u64_max → (x = u64_max → Q r (Err (Rejected internal_state))) →
  (x < u64_max → run_ends (f (x + 1)) r Q) →
  run_ends (lift_store (checked_increment x) ≫= f) r Q.
Proof.
  intros Hx He Hf. unfold checked_increment, lift_store, run_ends, mbind, M_bind, of_result.
  destruct (checked_add u64_max x 1) as [y|] eqn:Hadd; simpl.
  - apply checked_add_Some in Hadd as [? ->]. apply Hf. lia.
  - apply checked_add_None in Hadd. apply He. lia.
Qed.

Lemma lookup_ready_spec key r :
  store_ok (run_store r) →
  run_ends (lookup_ready key) r (λ r' res, lookup_outcome key (run_store r) (run_store r') res).
Proof.
  intros Hs. unfold lookup_ready, scan. eapply run_ends_zoom; [apply scans_check|..].
  { intros r' -> Hp. split; [done|]. by left. }
  intros r1 _ Hr1 _. apply run_ends_gets. rewrite Hr1.
  assert (∀ reason, match reason with
    | MissBindingMismatch => key_binding key ≠ rs_binding (run_store r)
    | MissNotFound => key_binding key = rs_binding (run_store r) ∧
        key_id key ∉ entry_id <$> rs_entries (run_store r) end → ∀ r2,
    run_store r2 = run_store r →
    run_ends (misses ← lift_store (checked_increment (rs_misses (run_store r)));
      update_store (set_misses misses);; mret (Miss reason)) r2
      (λ r' res, lookup_outcome key (run_store r) (run_store r') res)) as Hmiss.
  { intros reason Hreason r2 Hr2. apply run_ends_increment; [apply Hs|..].
    - intros Hfull. rewrite Hr2. split; [done|]. right. auto.
    - intros Hroom. apply run_ends_modify, run_ends_ret. cbn [run_store set_run_store].
      rewrite Hr2. destruct reason; simpl; tauto. }
  destruct (decide (key_binding key = rs_binding (run_store r))) as [Hb|Hb].
  - rewrite bool_decide_eq_false_2 by tauto.
    eapply run_ends_zoom; [apply find_entry_index_spec|..].
    { intros r' -> Hp. rewrite Hr1. split; [done|]. by left. }
    intros r2 [i|] Hr2 Hfound; rewrite Hr1 in Hr2; [|].
    + destruct Hfound as (e&Hi&He). apply run_ends_increment; [apply Hs|..].
      { intros Hfull. rewrite Hr2. split; [done|]. right. auto. }
      intros Hroom. eapply run_ends_zoom; [apply scans_check|..].
      { intros r' -> Hp. rewrite Hr2. split; [done|]. by left. }
      intros r3 _ Hr3 _. eapply run_ends_some; [exact Hi|].
      apply run_ends_modify, run_ends_ret. cbn [run_store set_run_store].
      rewrite Hr3, Hr2. split; [done|]. exists i, e. split_and!; try done.
      by apply entry_matches_id.
    + apply (Hmiss MissNotFound); [|done]. split; [done|by apply none_matches_id].
  - rewrite bool_decide_eq_true_2 by done. by apply (Hmiss MissBindingMismatch).
Qed.
End lookup.

(** ** Admission *)

Section admission.
Context `{StoreRuntime}.
Implicit Types (key : ReadyStoreKey) (value : ResolvedReference) (s : ReadyStore).

(** Parsed values report an unsigned heap size. *)
Definition unsigned_value value : Prop := 0 ≤ syntax_heap_bytes (resolved_object value).

Definition value_total value : Z := size_of_resolved_reference + heap_of value.
Definition heap_ceiling s : Z := max_resident_bytes (rs_limits s) - rs_metadata_bytes s.

Definition measured (value : ResolvedReference) : Prop := ∃ f, try_resident_footprint value = Ok f.

Definition binding_agrees key value s : Prop :=
  key_binding key = rs_binding s ∧ value_matches_binding value (rs_binding s) = true.

(** The checks of an admission, in order: the first that fails rejects. *)
Definition rejected_for key value s (reason : ReadyRejectReason)
    (limit : option ReadyStoreLimit) : Prop :=
  match reason with
  | BindingMismatch => ¬ binding_agrees key value s ∧ limit = None
  | RootMismatch =>
      binding_agrees key value s ∧ key_root key ≠ resolved_root value ∧ limit = None
  | ResolutionProfileMismatch =>
      binding_agrees key value s ∧ key_root key = resolved_root value ∧
      key_resolution_limits key ≠ resolved_limits value ∧ limit = None
  | ValueTooLarge =>
      binding_agrees key value s ∧ key_id key = (resolved_root value, resolved_limits value) ∧
      measured value ∧ max_value_bytes (rs_limits s) < value_total value ∧
      limit = Some (store_limit s ValueBytes (max_value_bytes (rs_limits s)) 0
                      (value_total value) (Some (key_root key)))
  | ResidentLimit =>
      binding_agrees key value s ∧ key_id key = (resolved_root value, resolved_limits value) ∧
      measured value ∧ value_total value ≤ max_value_bytes (rs_limits s) ∧ heap_ceiling s < heap_of value ∧
      limit = Some (store_limit s ResidentBytes (max_resident_bytes (rs_limits s))
                      (rs_metadata_bytes s + rs_value_heap_bytes s) (heap_of value)
                      (Some (key_root key)))
  end.

Record admissible_value key value s : Prop := {
  av_binding : binding_agrees key value s;
  av_identity : key_id key = (resolved_root value, resolved_limits value);
  av_measured : measured value;
  av_total : value_total value ≤ max_value_bytes (rs_limits s);
  av_heap : heap_of value ≤ heap_ceiling s
}.

Definition new_entry key value : Entry :=
  {| entry_root := key_root key; entry_resolution_limits := key_resolution_limits key;
     entry_heap_bytes := heap_of value; entry_resolved := value |}.

Definition replaces key s : bool := bool_decide (key_id key ∈ entry_id <$> rs_entries s).

(** The least number of other entries, from the least recently used on, whose
    eviction makes room. *)
Definition evicts key value s (n : nat) : Prop :=
  least_victims (max_entries (rs_limits s)) (heap_of value) (heap_ceiling s)
    (others key (rs_entries s)) n.

Definition survivors key s (n : nat) : list Entry := drop n (others key (rs_entries s)).

Definition admitted_store key value (n : nat) s : ReadyStore :=
  commit_entries (survivors key s n ++ [new_entry key value])
    (heap_sum (survivors key s n) + heap_of value) (rs_admissions s + 1)
    (rs_replacements s + if replaces key s then 1 else 0) (rs_evictions s + Z.of_nat n)
    (Z.max (rs_peak_resident_bytes s)
       (rs_metadata_bytes s + (heap_sum (survivors key s n) + heap_of value))) s.

Definition admission_failed key value s (e : ReadyStoreError) : Prop :=
  (e = ReadyStoreError_for_code Cancelled ∧ probed) ∨
  (binding_agrees key value s ∧ key_id key = (resolved_root value, resolved_limits value) ∧
   ∃ d, try_resident_footprint value = Err d ∧ e = ReadyStoreError_from_footprint d) ∨
  (e = internal_state ∧ (rs_admissions s = u64_max ∨ rs_rejections s = u64_max)).

(** The exact outcome of an admission. *)
Definition admit_outcome key value s s' (res : result AdmissionFailure ReadyAdmission) : Prop :=
  match res with
  | Ok (AdmissionAdmitted a) =>
      admissible_value key value s ∧ rs_admissions s < u64_max ∧ ∃ n, evicts key value s n ∧
        a = {| admitted_replaced := replaces key s; admitted_evicted := Z.of_nat n |} ∧
        s' = admitted_store key value n s
  | Ok (AdmissionRejected j) =>
      rejected_value j = value ∧
      rejected_for key value s (rejected_reason j) (rejected_limit j) ∧
      rs_rejections s < u64_max ∧ s' = set_rejections (rs_rejections s + 1) s
  | Err (Rejected e) =>
      s' = s ∧ admission_error_value e = value ∧ admission_failed key value s (admission_error e)
  | Err Panicked => False
  end.

(** Room for the value: alone it fits, and what remains after the victims does. *)
Lemma fits_true l m h mh :
  0 ≤ h → mh ≤ u64_max → fits m h mh l = true ↔ len l < m ∧ heap_sum l + h ≤ mh.
Proof.
  intros Hh Hmh. unfold fits, admission_fits. rewrite andb_true_iff, Z.ltb_lt.
  destruct (checked_add u64_max (heap_sum l) h) as [b|] eqn:Hb.
  - apply checked_add_Some in Hb as [_ ->]. by rewrite Z.leb_le.
  - apply checked_add_None in Hb. split; [intros [_ ?]; done|lia].
Qed.

Lemma least_victims_fit m h mh l n :
  0 < m → 0 ≤ h ≤ mh → mh ≤ u64_max → least_victims m h mh l n →
  fits m h mh (drop n l) = true.
Proof.
  intros Hm Hh Hmh [_ [Hf| ->] _]; [done|]. apply fits_true; [lia|done|].
  rewrite drop_ge by done. simpl. lia.
Qed.

Lemma reject_admission_spec key value s0 r reason limit :
  store_ok s0 → run_store r = s0 → rejected_for key value s0 reason limit →
  run_ends (reject_admission reason limit value) r
    (λ r' res, admit_outcome key value s0 (run_store r') res).
Proof.
  intros Hs <- Hrej. unfold reject_admission. apply run_ends_gets.
  apply run_ends_ok_or.
  - intros Hfull%checked_add_None. split; [done|]. split; [done|].
    right. right. split; [done|]. right. pose proof (so_rejections _ Hs). lia.
  - intros x [? ->]%checked_add_Some. apply run_ends_modify, run_ends_ret.
    split_and!; [done|exact Hrej|lia|done].
Qed.

Lemma found_replaces key s o :
  found key (rs_entries s) o → bool_decide (is_Some o) = replaces key s.
Proof.
  intros Ho. unfold replaces. apply bool_decide_ext. destruct o as [i|]; simpl in Ho.
  - destruct Ho as (e&Hi&He%entry_matches_id). split; [|by eauto]. intros _.
    rewrite <-He. apply list_elem_of_fmap_2. by eapply list_elem_of_lookup_2.
  - apply none_matches_id in Ho. split; [by intros []|done].
Qed.

(** A checked operation that cannot overflow here. *)
Lemma run_ends_checked {A} value (o : option A) a (f : A → M StoreRun AdmissionFailure ReadyAdmission)
    r Q :
  o = Some a → run_ends (f a) r Q → run_ends (checked_or_fail value o ≫= f) r Q.
Proof. apply run_ends_some. Qed.

Lemma cancelled_outcome key value s s' :
  s' = s → probed →
  admit_outcome key value s s' (Err (fail_with value cancelled_error)).
Proof. intros -> Hp. split; [done|]. split; [done|]. by left. Qed.

(** The replaced entry's heap, read at the found index. *)
Lemma run_ends_replacement_heap l o (f : Z → M StoreRun AdmissionFailure ReadyAdmission) key r Q :
  found key l o →
  run_ends (f match o with
              | Some i => default 0 (entry_heap_bytes <$> l !! i)
              | None => 0
              end) r Q →
  run_ends (match o with
            | Some index =>
                entry ← ok_or (l !! index) Panicked;
                mret (entry_heap_bytes entry)
            | None => mret 0
            end ≫= f) r Q.
Proof. destruct o as [i|]; [|done]. intros (e&Hi&_) Hf. rewrite Hi in *. exact Hf. Qed.

(** The victims, planned only when the value does not fit as it is. *)
Lemma run_ends_victims key value s o (f : VictimPlan → M StoreRun AdmissionFailure ReadyAdmission)
    r (Q : StoreRun → result AdmissionFailure ReadyAdmission → Prop) :
  store_ok s → found key (rs_entries s) o →
  (∀ r', run_store r' = run_store r → probed →
     Q r' (Err (fail_with value cancelled_error))) →
  (∀ r' n, run_store r' = run_store r → evicts key value s n →
     run_ends (f (plan_of (others key (rs_entries s)) n 0)) r' Q) →
  run_ends
    ((if admission_fits (len (others key (rs_entries s))) (heap_sum (others key (rs_entries s)))
           (max_entries (rs_limits s)) (heap_of value) (heap_ceiling s)
      then mret (plan_of (others key (rs_entries s)) 0 0)
      else admission_scan value
             (plan_victims (max_entries (rs_limits s)) (heap_of value) (heap_ceiling s) o 0
                (rs_entries s) (plan_of (others key (rs_entries s)) 0 0))) ≫= f) r Q.
Proof.
  intros Hs Ho Hcancel Hf.
  destruct (admission_fits _ _ _ _ _) eqn:Hfits.
  - apply (Hf r 0%nat); [done|]. by apply least_victims_zero.
  - eapply run_ends_zoom.
    + apply plan_victims_spec; [|by apply store_ok_heaps|done|].
      * apply found_replaced_at; [apply Hs|done].
      * pose proof (found_sums _ _ _ (so_nodup _ Hs) Ho) as [Hl _].
        pose proof (so_len _ Hs). pose proof (store_ok_usize _ Hs). case_match; lia.
    + intros r' Hr' Hp. by apply Hcancel.
    + intros r' p Hr' (n&Hn&->). by apply Hf.
Qed.

Lemma survivors_length key value s n :
  evicts key value s n →
  len (survivors key s n) = len (others key (rs_entries s)) - Z.of_nat n.
Proof. intros [Hb _ _]. unfold survivors. rewrite length_drop. lia. Qed.

Lemma others_length_le key l : (length (others key l) ≤ length l)%nat.
Proof. apply length_filter. Qed.

Lemma run_ends_replacements key value s (f : Z → M StoreRun AdmissionFailure ReadyAdmission) r Q :
  rs_replacements s + 1 ≤ u64_max →
  run_ends (f (rs_replacements s + if replaces key s then 1 else 0)) r Q →
  run_ends ((if replaces key s
             then checked_or_fail value (checked_add u64_max (rs_replacements s) 1)
             else mret (rs_replacements s)) ≫= f) r Q.
Proof.
  intros Hmax Hf. destruct (replaces key s).
  - eapply run_ends_checked; [apply checked_add_Some; split; [done|reflexivity]|done].
  - by rewrite Z.add_0_r in Hf.
Qed.

Lemma survivors_fit key value s n :
  store_ok s → 0 ≤ heap_of value → admissible_value key value s → evicts key value s n →
  fits (max_entries (rs_limits s)) (heap_of value) (heap_ceiling s) (survivors key s n) = true ∧
  len (survivors key s n) < max_entries (rs_limits s) ∧
  heap_sum (survivors key s n) + heap_of value ≤ heap_ceiling s.
Proof.
  intros Hs Hh Hav Hev. pose proof (so_limits _ Hs) as Hl. pose proof (so_metadata _ Hs).
  pose proof (store_ok_usize _ Hs) as [_ Hu64].
  assert (heap_ceiling s ≤ u64_max) as Hceil by (unfold heap_ceiling; lia).
  assert (fits (max_entries (rs_limits s)) (heap_of value) (heap_ceiling s)
    (survivors key s n) = true) as Hfit.
  { apply least_victims_fit; [apply Hl|split; [done|apply Hav]|done..]. }
  split; [done|]. by apply fits_true.
Qed.

(** The last checks and the commit, once the victims are known. *)
Lemma commit_spec key value s r n o :
  store_ok s → run_store r = s → 0 ≤ heap_of value → admissible_value key value s →
  found key (rs_entries s) o → evicts key value s n →
  run_ends (commit_plan key value (heap_of value) (heap_ceiling s) s
              (bool_decide (is_Some o)) (plan_of (others key (rs_entries s)) n 0)) r
    (λ r' res, admit_outcome key value s (run_store r') res).
Proof.
  intros Hs Hr Hheap Hav Ho Hev. pose proof (so_limits _ Hs) as Hl.
  pose proof (store_ok_usize _ Hs) as [Husize Hu64]. pose proof (so_metadata _ Hs) as Hmeta.
  pose proof (survivors_length _ _ _ _ Hev) as Hlen. pose proof (lv_bound _ _ _ _ _ Hev).
  pose proof (others_length_le key (rs_entries s)). pose proof (so_len _ Hs).
  destruct (survivors_fit key value s n) as (Hfit&Hroom&Hsum); [done..|].
  assert (0 ≤ heap_sum (survivors key s n)) as Hpos.
  { apply heap_sum_nonneg. unfold survivors.
    by apply Forall_drop, others_forall, store_ok_heaps. }
  unfold commit_plan. cbv zeta.
  cbn [plan_of vp_remaining_len vp_remaining_heap vp_victim_count].
  fold (survivors key s n). rewrite <-Hlen, Z.add_0_l. fold (fits (max_entries (rs_limits s))
    (heap_of value) (heap_ceiling s) (survivors key s n)). rewrite Hfit.
  unfold heap_ceiling in Hsum.
  apply run_ends_err_if; [done|intros _].
  eapply run_ends_checked; [apply checked_add_Some; split; [|reflexivity]; lia|].
  eapply run_ends_checked; [apply checked_add_Some; split; [|reflexivity]; lia|].
  eapply run_ends_checked; [apply try_from_Some; split; [|reflexivity]; lia|].
  apply run_ends_ok_or.
  { intros Hfull%checked_add_None. rewrite Hr. split; [done|]. split; [done|].
    right. right. split; [done|]. left. pose proof (so_admissions _ Hs). lia. }
  intros ? [Hadm ->]%checked_add_Some. pose proof (so_ledger _ Hs) as Hledger.
  pose proof (so_replacements _ Hs). pose proof (so_evictions _ Hs).
  rewrite (found_replaces _ _ _ Ho).
  apply (run_ends_replacements key value s).
  { lia. }
  eapply run_ends_checked; [apply checked_add_Some; split; [|reflexivity]; lia|].
  eapply run_ends_checked; [apply checked_add_Some; split; [|reflexivity]; lia|].
  apply run_ends_err_if.
  { intros Hbad. rewrite !orb_true_iff, !Z.ltb_lt in Hbad. pose proof (so_capacity _ Hs). lia. }
  intros _. eapply run_ends_zoom; [apply scans_check|..].
  { intros r' Hr' Hp. apply cancelled_outcome; [congruence|done]. }
  intros r1 _ Hr1 _. rewrite <-(found_replaces _ _ _ Ho), (retain_found _ _ _ _ (so_nodup _ Hs) Ho)
    by done. fold (survivors key s n). rewrite !Z.eqb_refl. cbn [orb negb].
  apply run_ends_err_if; [done|]. intros _. apply run_ends_modify, run_ends_ret.
  split; [done|]. split; [lia|]. exists n. rewrite (found_replaces _ _ _ Ho). split; [done|]. split; [done|].
  cbn [run_store set_run_store]. by rewrite Hr1, Hr.
Qed.

(** Planning and commit of an admissible value. *)
Lemma admit_value_spec key value s r :
  store_ok s → run_store r = s → unsigned_value value → 0 ≤ heap_of value →
  admissible_value key value s →
  run_ends (admit_value key value (heap_of value) (heap_ceiling s)) r
    (λ r' res, admit_outcome key value s (run_store r') res).
Proof.
  intros Hs Hr Hu Hheap Hav. pose proof (so_limits _ Hs) as Hl.
  pose proof (store_ok_usize _ Hs) as [Husize Hu64]. pose proof (so_metadata _ Hs) as Hmeta.
  assert (heap_ceiling s ≤ u64_max) as Hceil by (unfold heap_ceiling; lia).
  unfold admit_value. apply run_ends_gets. rewrite Hr. cbv zeta.
  eapply run_ends_zoom; [apply find_entry_index_spec|..].
  { intros r' Hr' Hp. apply cancelled_outcome; [congruence|done]. }
  intros r1 o Hr1 Ho. rewrite Hr in Hr1. fold (found key (rs_entries s) o) in Ho.
  pose proof (found_sums _ _ _ (so_nodup _ Hs) Ho) as [Hlen Hsum].
  apply (run_ends_replacement_heap (rs_entries s) o _ key); [done|].
  eapply run_ends_checked.
  { apply checked_sub_Some. split; [|reflexivity]. pose proof (others_length_le key (rs_entries s)).
    case_match; lia. }
  rewrite Hlen. eapply run_ends_checked.
  { apply checked_sub_Some. split; [|reflexivity]. rewrite (so_heap _ Hs).
    pose proof (heap_sum_nonneg (others key (rs_entries s))
      (others_forall _ _ _ (store_ok_heaps _ Hs))). lia. }
  rewrite (so_heap _ Hs), Hsum.
  replace {| vp_remaining_len := len (others key (rs_entries s));
             vp_remaining_heap := heap_sum (others key (rs_entries s));
             vp_victim_count := 0 |}
    with (plan_of (others key (rs_entries s)) 0 0)
    by (unfold plan_of; rewrite drop_0; f_equal; lia).
  apply (run_ends_victims key value s o); [done|done|..].
  { intros r' Hr' Hp. apply cancelled_outcome; [congruence|done]. }
  intros r2 n Hr2 Hev. rewrite Hr1 in Hr2. cbn [plan_of vp_remaining_len vp_remaining_heap
    vp_victim_count]. fold (survivors key s n).
  eapply run_ends_zoom; [apply scans_check|..].
  { intros r' Hr' Hp. apply cancelled_outcome; [congruence|done]. }
  intros r3 _ Hr3 _. rewrite Hr2 in Hr3.
  by apply (commit_spec key value s r3 n o).
Qed.

Lemma heap_of_footprint value f :
  try_resident_footprint value = Ok f → unsigned_value value →
  heap_of value = footprint_syntax_heap_bytes f + footprint_chain_capacity_bytes f ∧
  value_total value = footprint_total_bytes f ∧ 0 ≤ heap_of value ∧
  footprint_syntax_heap_bytes f + footprint_chain_capacity_bytes f ≤ u64_max.
Proof.
  intros (Hsyn&Hchain&Htot&Hpos&Hmax)%resident_footprint_spec Hu.
  pose proof size_of_resolved_reference_nonneg. unfold unsigned_value, value_total, heap_of in *.
  lia.
Qed.

(** The exact outcome of an admission, on every path. *)
Lemma try_admit_spec key value r :
  store_ok (run_store r) → unsigned_value value →
  run_ends (try_admit key value) r
    (λ r' res, admit_outcome key value (run_store r) (run_store r') res).
Proof.
  intros Hs Hu. unfold try_admit. eapply run_ends_zoom; [apply scans_check|..].
  { intros r' Hr' Hp. by apply cancelled_outcome. }
  intros r1 _ Hr1 _. apply run_ends_gets. rewrite Hr1.
  set (s := run_store r) in *.
  destruct (bool_decide (key_binding key ≠ rs_binding s)
            || negb (value_matches_binding value (rs_binding s))) eqn:Hb.
  { apply reject_admission_spec; [done|done|]. split; [|done]. intros [Hb1 Hb2].
    rewrite bool_decide_eq_false_2 in Hb by tauto. by rewrite Hb2 in Hb. }
  rewrite orb_false_iff, bool_decide_eq_false, negb_false_iff in Hb.
  assert (binding_agrees key value s) as Hbind by (split; [apply dec_stable|]; apply Hb).
  case_bool_decide as Hroot; [by apply reject_admission_spec|].
  case_bool_decide as Hprof; [by apply reject_admission_spec|].
  assert (key_id key = (resolved_root value, resolved_limits value)) as Hid
    by (unfold key_id; congruence).
  destruct (try_resident_footprint value) as [f|d] eqn:Hf.
  2: { split; [done|]. split; [done|]. right. left. split_and!; eauto. }
  assert (measured value) as Hmeas by (by exists f).
  destruct (heap_of_footprint _ _ Hf Hu) as (Hheap&Htot&Hpos&Hmax). rewrite <-Htot.
  destruct (max_value_bytes (rs_limits s) <? value_total value) eqn:Hvalue; checked_facts.
  { by apply reject_admission_spec. }
  eapply run_ends_checked; [apply checked_add_Some; split; [done|reflexivity]|].
  rewrite <-Hheap. pose proof (so_metadata _ Hs).
  eapply run_ends_checked; [apply checked_sub_Some; split; [lia|reflexivity]|].
  fold (heap_ceiling s).
  destruct (heap_ceiling s <? heap_of value) eqn:Hres; checked_facts.
  - eapply run_ends_checked.
    { apply checked_add_Some. split; [|reflexivity]. pose proof (so_resident _ Hs).
      pose proof (so_peak _ Hs). pose proof (store_ok_usize _ Hs). lia. }
    apply reject_admission_spec; [done|done|]. by split_and!.
  - apply admit_value_spec; try done.
Qed.
End admission.
