(* ===== verification/ReadyStoreInv.v ===== *)
(** * The invariant of the Ready store, and the list of values it refines

    Each operation preserves [store_ok]. The abstract cache is a list of values, the
    least recently used first: a lookup moves a value to the end, an admission
    removes the value it replaces, drops values from the front until the new one has
    room, and appends it; a relation between it and the store. *)

From stdpp Require Import base list numbers option strings.
From S2P Require Import Prelude.
From S2P Require Import SourceTypes.
From S2P Require Import DocumentTypes.
From S2P Require Import ReadyStore.
From S2P Require Import ReadyStoreSpec.

(** ** Sums and identities up to order *)

#[global] Instance heap_sum_perm : Proper ((≡ₚ) ==> eq) heap_sum.
Proof. induction 1; simpl; lia. Qed.

Lemma delete_snoc_perm {A} (l : list A) i x :
  l !! i = Some x → delete i l ++ [x] ≡ₚ l.
Proof.
  intros Hi. rewrite (delete_Permutation l i x Hi) at 2. by rewrite Permutation_app_comm.
Qed.

Lemma heap_sum_others_le key l :
  Forall (λ e, 0 ≤ entry_heap_bytes e) l → 0 ≤ heap_sum (others key l) ≤ heap_sum l.
Proof.
  induction 1 as [|e l He Hl IH]; [done|]. rewrite others_cons. case_match; simpl; lia.
Qed.

Lemma others_not_in key l : key_id key ∉ entry_id <$> others key l.
Proof.
  intros (e&Hid&[He _]%list_elem_of_filter)%list_elem_of_fmap.
  by apply entry_matches_false in He.
Qed.

Lemma others_sublist key l : others key l `sublist_of` l.
Proof. apply sublist_filter. Qed.

Lemma survivors_sublist key s n : survivors key s n `sublist_of` rs_entries s.
Proof. etrans; [apply sublist_drop|apply others_sublist]. Qed.

(** The matching entry and the others. *)
Lemma others_length_found key l :
  NoDup (entry_id <$> l) →
  len l = len (others key l) + if bool_decide (key_id key ∈ entry_id <$> l) then 1 else 0.
Proof.
  intros Hnd. case_bool_decide as Hin.
  - apply list_elem_of_fmap in Hin as (e&Hid&[i Hi]%list_elem_of_lookup).
    assert (entry_matches key e = true) as He by by apply entry_matches_id.
    destruct (unique_match key l i e Hnd Hi He) as (Hl&H1&H2).
    rewrite Hl at 1 2. rewrite (others_split key _ e _ H1 H2 He), !length_app. simpl. lia.
  - rewrite others_all; [lia|]. apply Forall_forall. intros e He.
    apply entry_matches_false. intros Hid. apply Hin. rewrite <-Hid.
    by apply list_elem_of_fmap_2.
Qed.

(** ** The invariant *)

Section invariant.
Context `{StoreRuntime}.
Implicit Types (s : ReadyStore) (key : ReadyStoreKey) (value : ResolvedReference).

Lemma entry_ok_ext s s' e :
  rs_binding s' = rs_binding s → rs_limits s' = rs_limits s → entry_ok s e → entry_ok s' e.
Proof. intros Hb Hl [? ? ? ? ?]. split; rewrite ?Hb, ?Hl; done. Qed.

Lemma entries_ok_ext s s' l :
  rs_binding s' = rs_binding s → rs_limits s' = rs_limits s →
  Forall (entry_ok s) l → Forall (entry_ok s') l.
Proof. intros Hb Hl Hf. eapply Forall_impl; [exact Hf|]. intros e. by apply entry_ok_ext. Qed.

Lemma touch_entry_ok i e s :
  store_ok s → rs_entries s !! i = Some e → rs_hits s < u64_max →
  store_ok (touch_entry i e (rs_hits s + 1) s).
Proof.
  intros Hs Hi Hh. pose proof (delete_snoc_perm _ _ _ Hi) as Hp.
  pose proof (so_hits _ Hs). destruct Hs. split; cbn [touch_entry rs_limits rs_capacity
    rs_metadata_bytes rs_entries rs_value_heap_bytes rs_peak_resident_bytes rs_hits rs_misses
    rs_rejections rs_admissions rs_replacements rs_evictions]; rewrite ?Hp; try done; try lia.
  by apply (entries_ok_ext s).
Qed.

Lemma set_misses_ok s :
  store_ok s → rs_misses s < u64_max → store_ok (set_misses (rs_misses s + 1) s).
Proof. intros [] Hm. split; try done; simpl; try lia. by apply (entries_ok_ext s). Qed.

Lemma set_rejections_ok s :
  store_ok s → rs_rejections s < u64_max → store_ok (set_rejections (rs_rejections s + 1) s).
Proof. intros [] Hm. split; try done; simpl; try lia. by apply (entries_ok_ext s). Qed.

Lemma clear_ok s : store_ok s → store_ok (ReadyStore_clear s).1.
Proof.
  intros Hs. pose proof (heap_sum_nonneg _ (store_ok_heaps _ Hs)). pose proof (so_heap _ Hs).
  destruct Hs as [Hl]. split; try done; simpl; try lia; try constructor.
Qed.

Lemma new_entry_ok key value s :
  admissible_value key value s → 0 ≤ heap_of value → entry_ok s (new_entry key value).
Proof.
  intros [[_ Hb] Hid _ Ht _] Hh. unfold key_id in Hid. simplify_eq. by split.
Qed.

Lemma admitted_store_ok key value n s :
  store_ok s → 0 ≤ heap_of value → admissible_value key value s → evicts key value s n →
  rs_admissions s < u64_max → store_ok (admitted_store key value n s).
Proof.
  intros Hs Hh Hav Hev Hadm. pose proof (so_limits _ Hs) as Hl.
  pose proof (store_ok_usize _ Hs) as [_ Hu64]. pose proof (so_metadata _ Hs) as Hmeta.
  pose proof (survivors_length _ _ _ _ Hev) as Hlen.
  pose proof (others_length_found key _ (so_nodup _ Hs)) as Hothers.
  fold (replaces key s) in Hothers.
  destruct (survivors_fit key value s n) as (_&Hroom&Hsum); [done..|].
  unfold heap_ceiling in Hsum.
  pose proof (so_peak _ Hs). pose proof (so_ledger _ Hs).
  pose proof (so_replacements _ Hs). pose proof (so_evictions _ Hs).
  split; cbn [admitted_store commit_entries rs_limits rs_capacity rs_metadata_bytes rs_entries
    rs_value_heap_bytes rs_peak_resident_bytes rs_hits rs_misses rs_rejections rs_admissions
    rs_replacements rs_evictions]; try apply Hs; try lia.
  - rewrite length_app. simpl. lia.
  - rewrite fmap_app. apply NoDup_app. split_and!.
    + eapply NoDup_sublist; [|apply Hs]. apply fmap_sublist, survivors_sublist.
    + intros x Hx ->%list_elem_of_singleton. apply (others_not_in key (rs_entries s)).
      eapply elem_of_sublist; [|exact Hx]. apply fmap_sublist, sublist_drop.
    + apply NoDup_singleton.
  - apply Forall_app. split.
    + apply (entries_ok_ext s); [done|done|]. unfold survivors.
      apply Forall_drop, others_forall, Hs.
    + apply Forall_singleton. eapply entry_ok_ext; [..|by apply new_entry_ok]; done.
  - rewrite heap_sum_app. simpl. lia.
  - case_match; lia.
  - rewrite length_app. simpl. case_match; lia.
Qed.

(** What holds of the store when a method has the outcome its specification
    allows. *)
Lemma lookup_outcome_ok key s s' res :
  store_ok s → lookup_outcome key s s' res → store_ok s'.
Proof.
  intros Hs. destruct res as [[v|[|]]|[e|]]; simpl.
  - intros (_&i&e&Hi&_&_&Hh&->). by apply touch_entry_ok.
  - intros (_&Hm&->). by apply set_misses_ok.
  - intros (_&_&Hm&->). by apply set_misses_ok.
  - by intros [-> _].
  - done.
Qed.

Lemma admit_outcome_ok key value s s' res :
  store_ok s → 0 ≤ heap_of value → admit_outcome key value s s' res → store_ok s'.
Proof.
  intros Hs Hh. destruct res as [[a|j]|[e|]]; simpl.
  - intros (Hav&Hadm&n&Hev&_&->). by apply admitted_store_ok.
  - intros (_&_&Hr&->). by apply set_rejections_ok.
  - by intros [-> _].
  - done.
Qed.

(** Neither method changes the binding, the limits or the reserved table. *)
Definition same_frame s s' : Prop :=
  rs_binding s' = rs_binding s ∧ rs_limits s' = rs_limits s ∧
  rs_metadata_bytes s' = rs_metadata_bytes s.

Lemma lookup_outcome_frame key s s' res : lookup_outcome key s s' res → same_frame s s'.
Proof.
  destruct res as [[v|[|]]|[e|]]; simpl; [|..|done].
  - by intros (_&i&e&_&_&_&_&->).
  - by intros (_&_&->).
  - by intros (_&_&_&->).
  - by intros [-> _].
Qed.

Lemma admit_outcome_frame key value s s' res :
  admit_outcome key value s s' res → same_frame s s'.
Proof.
  destruct res as [[a|j]|[e|]]; simpl; [|..|done].
  - by intros (_&_&n&_&_&->).
  - by intros (_&_&_&->).
  - by intros [-> _].
Qed.

(** Validated limits. *)
Lemma validated_limits config l :
  0 ≤ config_max_value_bytes config → 0 ≤ config_max_resident_bytes config →
  ReadyStoreLimits_validate config = Ok l ↔
  store_limits_ok l ∧ config = {| config_max_entries := max_entries l;
    config_max_value_bytes := max_value_bytes l;
    config_max_resident_bytes := max_resident_bytes l |}.
Proof.
  unfold ReadyStoreLimits_validate. cbv zeta. pose proof usize_max_cases as Husize.
  intros Hcv Hcr.
  destruct config as [ce cv cr], l as [me mv mr].
  cbn [config_max_entries config_max_value_bytes config_max_resident_bytes max_entries
    max_value_bytes max_resident_bytes] in *.
  assert (HARD_MAX_ENTRIES < usize_max) as Hhard
    by (unfold u32_max, u64_max in Husize; unfold HARD_MAX_ENTRIES; lia).
  split.
  - intros (?&Hf%fail_if_ok&Hv)%result_bind_ok.
    apply result_bind_ok in Hv as (m&[Hm ->]%require_ok%try_from_Some&[= <- <- <-]).
    rewrite !orb_false_iff, !Z.ltb_ge, !Z.eqb_neq in Hf. split; [|done]. split; simpl; lia.
  - intros [[He Hv Hr Hvr] [= -> -> ->]]. simpl in *.
    rewrite (proj2 (try_from_Some usize_max me me)) by lia.
    replace (_ || _) with false; [done|]. symmetry.
    rewrite !orb_false_iff, !Z.ltb_ge, !Z.eqb_neq, bool_decide_eq_false. split_and!; try lia. done.
Qed.

(** A new store satisfies the invariant. *)
Lemma new_store_ok binding l s :
  store_limits_ok l → ReadyStore_new binding l = Ok s →
  store_ok s ∧ rs_binding s = binding ∧ rs_limits s = l ∧ rs_entries s = [] ∧
  rs_hits s = 0 ∧ rs_misses s = 0 ∧ rs_admissions s = 0 ∧ rs_rejections s = 0.
Proof.
  intros Hl Hnew. unfold ReadyStore_new in Hnew. cbv zeta in Hnew.
  apply result_bind_ok in Hnew as (eb&[Heb ->]%require_ok%try_from_Some&Hnew).
  apply result_bind_ok in Hnew as (est&_&Hnew).
  apply result_bind_ok in Hnew as (?&_&Hnew).
  apply result_bind_ok in Hnew as (cap&Hcap%require_ok&Hnew).
  apply result_bind_ok in Hnew as (md&Hmd%require_ok&Hnew).
  apply result_bind_ok in Hnew as (?&Hfit%fail_if_ok&[= <-]).
  apply reserve_entries_spec in Hcap.
  destruct (try_from u64_max cap) as [c|] eqn:Hc; [|done]. simpl in Hmd. checked_facts. subst.
  destruct Hl. split_and!; try done. split; simpl; try done; try lia; try constructor; nia.
Qed.
End invariant.

(** ** Operations of a session and their replies *)

Inductive StoreOp :=
| LookupOp (key : ReadyStoreKey)
| AdmitOp (key : ReadyStoreKey) (value : ResolvedReference)
| ClearOp.

Inductive StoreReply :=
| LookupReply (res : result StoreFailure ReadyLookup)
| AdmitReply (res : result AdmissionFailure ReadyAdmission)
| ClearReply (dropped : Z).

Section operations.
Context `{StoreRuntime}.

Definition store_step (op : StoreOp) (r : StoreRun) : StoreRun * StoreReply :=
  match op with
  | LookupOp key => let '(r', res) := lookup_ready key r in (r', LookupReply res)
  | AdmitOp key value => let '(r', res) := try_admit key value r in (r', AdmitReply res)
  | ClearOp =>
      let '(s', dropped) := ReadyStore_clear (run_store r) in
      (set_run_store s' r, ClearReply dropped)
  end.

Fixpoint store_session (ops : list StoreOp) (r : StoreRun) : StoreRun * list StoreReply :=
  match ops with
  | [] => (r, [])
  | op :: ops =>
      let '(r', reply) := store_step op r in
      let '(r'', replies) := store_session ops r' in (r'', reply :: replies)
  end.

(** The store a session opens. *)
Definition open_store (s : ReadyStore) : StoreRun := {| run_store := s; run_probes := 0 |}.

(** The values a session admits report unsigned sizes. *)
Definition unsigned_op (op : StoreOp) : Prop :=
  match op with
  | AdmitOp _ value => unsigned_value value ∧ 0 ≤ chain_prefix_capacity (resolved_chain value)
  | _ => True
  end.

(** ** The abstract cache *)

Definition value_id (v : ResolvedReference) : ObjectRef * ReferenceChainLimits :=
  (resolved_root v, resolved_limits v).

Definition lru_find (id : ObjectRef * ReferenceChainLimits) (l : list ResolvedReference)
    : option ResolvedReference := head (filter (λ v, value_id v = id) l).
Definition lru_remove (id : ObjectRef * ReferenceChainLimits) (l : list ResolvedReference)
    : list ResolvedReference := filter (λ v, value_id v ≠ id) l.

Fixpoint lru_evict (room : list ResolvedReference → bool) (l : list ResolvedReference)
    : list ResolvedReference :=
  if room l then l else match l with [] => [] | _ :: l => lru_evict room l end.

Definition values_heap (l : list ResolvedReference) : Z :=
  foldr (λ v acc, heap_of v + acc) 0 l.

(** What a store fixes when it is opened. *)
Record LruConfig := {
  lc_binding : ReadyStoreBinding;
  lc_limits : ReadyStoreLimits;
  lc_metadata_bytes : Z
}.

Definition lru_room (c : LruConfig) (value : ResolvedReference) (l : list ResolvedReference)
    : bool :=
  (len l <? max_entries (lc_limits c))
  && (lc_metadata_bytes c + values_heap l + heap_of value
      <=? max_resident_bytes (lc_limits c)).

Definition lru_limit (c : LruConfig) (kind : ReadyStoreLimitKind) (limit consumed attempted : Z)
    (key : ReadyStoreKey) : option ReadyStoreLimit :=
  Some {| sl_kind := kind; sl_limit := limit; sl_consumed := consumed;
          sl_attempted := attempted; sl_scope := Session (binding_session_id (lc_binding c));
          sl_reference := Some (key_root key) |}.

(** The checks before the footprint of a value is measured, and those after. *)
Definition lru_mismatch (c : LruConfig) (key : ReadyStoreKey) (value : ResolvedReference)
    : option ReadyRejectReason :=
  if bool_decide (key_binding key ≠ lc_binding c)
     || negb (value_matches_binding value (lc_binding c)) then Some BindingMismatch
  else if bool_decide (key_root key ≠ resolved_root value) then Some RootMismatch
  else if bool_decide (key_resolution_limits key ≠ resolved_limits value)
  then Some ResolutionProfileMismatch
  else None.

Definition lru_oversize (c : LruConfig) (key : ReadyStoreKey) (value : ResolvedReference)
    (l : list ResolvedReference) : option (ReadyRejectReason * option ReadyStoreLimit) :=
  let limits := lc_limits c in
  if max_value_bytes limits <? value_total value then
    Some (ValueTooLarge,
          lru_limit c ValueBytes (max_value_bytes limits) 0 (value_total value) key)
  else if max_resident_bytes limits <? lc_metadata_bytes c + heap_of value then
    Some (ResidentLimit,
          lru_limit c ResidentBytes (max_resident_bytes limits)
            (lc_metadata_bytes c + values_heap l) (heap_of value) key)
  else None.

Definition lru_lookup (c : LruConfig) (key : ReadyStoreKey) (l : list ResolvedReference)
    : list ResolvedReference * ReadyLookup :=
  if bool_decide (key_binding key ≠ lc_binding c) then (l, Miss MissBindingMismatch)
  else match lru_find (key_id key) l with
       | Some v => (lru_remove (key_id key) l ++ [v], Hit v)
       | None => (l, Miss MissNotFound)
       end.

Definition lru_reject (value : ResolvedReference) (reason : ReadyRejectReason)
    (limit : option ReadyStoreLimit) : result AdmissionFailure ReadyAdmission :=
  Ok (AdmissionRejected {| rejected_reason := reason; rejected_limit := limit;
                           rejected_value := value |}).

Definition lru_insert (c : LruConfig) (key : ReadyStoreKey) (value : ResolvedReference)
    (l : list ResolvedReference)
    : list ResolvedReference * result AdmissionFailure ReadyAdmission :=
  let others := lru_remove (key_id key) l in
  let kept := lru_evict (lru_room c value) others in
  (kept ++ [value],
   Ok (AdmissionAdmitted
         {| admitted_replaced := bool_decide (is_Some (lru_find (key_id key) l));
            admitted_evicted := len others - len kept |})).

Definition lru_admit (c : LruConfig) (key : ReadyStoreKey) (value : ResolvedReference)
    (l : list ResolvedReference)
    : list ResolvedReference * result AdmissionFailure ReadyAdmission :=
  match lru_mismatch c key value with
  | Some reason => (l, lru_reject value reason None)
  | None =>
      match try_resident_footprint value with
      | Err d => (l, Err (fail_with value (Rejected (ReadyStoreError_from_footprint d))))
      | Ok _ =>
          match lru_oversize c key value l with
          | Some (reason, limit) => (l, lru_reject value reason limit)
          | None => lru_insert c key value l
          end
      end
  end.

Definition lru_step (c : LruConfig) (op : StoreOp) (l : list ResolvedReference)
    : list ResolvedReference * StoreReply :=
  match op with
  | LookupOp key => let '(l', res) := lru_lookup c key l in (l', LookupReply (Ok res))
  | AdmitOp key value => let '(l', res) := lru_admit c key value l in (l', AdmitReply res)
  | ClearOp => ([], ClearReply (len l))
  end.

Fixpoint lru_session (c : LruConfig) (ops : list StoreOp) (l : list ResolvedReference)
    : list ResolvedReference * list StoreReply :=
  match ops with
  | [] => (l, [])
  | op :: ops =>
      let '(l', reply) := lru_step c op l in
      let '(l'', replies) := lru_session c ops l' in (l'', reply :: replies)
  end.

(** ** The refinement *)

Definition store_values (s : ReadyStore) : list ResolvedReference :=
  entry_resolved <$> rs_entries s.
Definition store_config (s : ReadyStore) : LruConfig :=
  {| lc_binding := rs_binding s; lc_limits := rs_limits s;
     lc_metadata_bytes := rs_metadata_bytes s |}.

Lemma entry_value_id s e : entry_ok s e → value_id (entry_resolved e) = entry_id e.
Proof. intros [Hr Hl _ _ _]. unfold value_id, entry_id. congruence. Qed.

Lemma values_remove s l key :
  Forall (entry_ok s) l →
  lru_remove (key_id key) (entry_resolved <$> l) = entry_resolved <$> others key l.
Proof.
  induction 1 as [|e l He Hl IH]; [done|]. rewrite others_cons, fmap_cons. unfold lru_remove in *.
  pose proof (entry_value_id _ _ He) as Hid. destruct (entry_matches key e) eqn:Hm.
  - apply entry_matches_id in Hm. rewrite filter_cons_False by naive_solver congruence. done.
  - apply entry_matches_false in Hm. rewrite filter_cons_True by congruence.
    by rewrite IH, fmap_cons.
Qed.

Lemma values_heap_sum s l :
  Forall (entry_ok s) l → values_heap (entry_resolved <$> l) = heap_sum l.
Proof.
  induction 1 as [|e l [_ _ _ [_ He] _] Hl IH]; [done|].
  cbn [fmap list_fmap]. unfold values_heap, heap_sum in *. cbn [foldr]. by rewrite IH, He.
Qed.

Lemma values_filter_none s l key :
  Forall (entry_ok s) l → none_matches key l →
  filter (λ v, value_id v = key_id key) (entry_resolved <$> l) = [].
Proof.
  intros Hl Hn. apply filter_none. intros v (e&->&He)%list_elem_of_fmap Hid.
  unfold none_matches in Hn. rewrite Forall_forall in Hl, Hn. rewrite (entry_value_id s e) in Hid by by apply Hl.
  by apply Hn, entry_matches_false in He.
Qed.

Lemma values_find s l key o :
  Forall (entry_ok s) l → NoDup (entry_id <$> l) → found key l o →
  lru_find (key_id key) (entry_resolved <$> l) =
    (i ← o; entry_resolved <$> l !! i) ∧
  (∀ i, o = Some i → delete i l = others key l).
Proof.
  intros Hl Hnd Ho. unfold lru_find. destruct o as [i|]; simpl in *.
  - destruct Ho as (e&Hi&He). destruct (unique_match key l i e Hnd Hi He) as (Hs&H1&H2).
    split.
    + rewrite Hi. rewrite Hs at 1. rewrite fmap_app, filter_app, fmap_cons.
      rewrite (values_filter_none s) by (done || by apply Forall_take).
      rewrite filter_cons_True; [done|]. apply entry_matches_id in He. rewrite <-He.
      apply (entry_value_id s). by eapply Forall_lookup_1.
    + intros ? [= <-]. rewrite delete_take_drop, <-(others_split key _ e _ H1 H2 He).
      by rewrite <-Hs.
  - by rewrite (values_filter_none s).
Qed.

(** Evicting from the front until there is room drops the least victims. *)
Lemma lru_evict_least (room : list ResolvedReference → bool) (l : list ResolvedReference) n :
  (n ≤ length l)%nat → (room (drop n l) = true ∨ n = length l) →
  (∀ m, (m < n)%nat → room (drop m l) = false) → lru_evict room l = drop n l.
Proof.
  revert n. induction l as [|v l IH]; intros n Hn Hfit Hleast; simpl in *.
  { replace n with 0%nat by lia. by case_match. }
  destruct n as [|n].
  - destruct Hfit as [Hfit|]; [|done]. rewrite drop_0 in Hfit. by rewrite Hfit.
  - pose proof (Hleast 0%nat) as H0. rewrite drop_0 in H0. rewrite H0 by lia. apply IH; [lia|..].
    + destruct Hfit as [?|?]; [by left|right; lia].
    + intros m Hm. apply (Hleast (S m)). lia.
Qed.

Lemma lru_room_fits s l value :
  Forall (entry_ok s) l → 0 ≤ heap_of value → heap_ceiling s ≤ u64_max →
  lru_room (store_config s) value (entry_resolved <$> l) =
    fits (max_entries (rs_limits s)) (heap_of value) (heap_ceiling s) l.
Proof.
  intros Hl Hh Hu. apply eq_true_iff_eq. rewrite fits_true by done.
  unfold lru_room, heap_ceiling. cbn [store_config lc_limits lc_metadata_bytes].
  rewrite (values_heap_sum s), length_fmap, andb_true_iff, Z.ltb_lt, Z.leb_le by done. lia.
Qed.

Lemma lru_evict_spec s key value n :
  store_ok s → 0 ≤ heap_of value → evicts key value s n →
  lru_evict (lru_room (store_config s) value) (lru_remove (key_id key) (store_values s)) =
    entry_resolved <$> survivors key s n.
Proof.
  intros Hs Hh [Hb Hf Hl]. unfold store_values, survivors.
  assert (heap_ceiling s ≤ u64_max) as Hu.
  { pose proof (so_metadata _ Hs). pose proof (store_ok_usize _ Hs). unfold heap_ceiling. lia. }
  rewrite (values_remove s) by apply Hs.
  assert (∀ m, lru_room (store_config s) value (drop m (entry_resolved <$> others key (rs_entries s)))
    = fits (max_entries (rs_limits s)) (heap_of value) (heap_ceiling s)
        (drop m (others key (rs_entries s)))) as Hroom.
  { intros m. rewrite <-fmap_drop. apply lru_room_fits; [|done..].
    apply Forall_drop, others_forall, Hs. }
  rewrite (lru_evict_least _ _ n), fmap_drop; [done|..].
  - by rewrite length_fmap.
  - by rewrite Hroom, length_fmap.
  - intros m Hm. rewrite Hroom. by apply Hl.
Qed.

Lemma not_in_none key l : key_id key ∉ entry_id <$> l → none_matches key l.
Proof.
  intros Hin. apply Forall_forall. intros e He. apply entry_matches_false. intros Hid.
  apply Hin. rewrite <-Hid. by apply list_elem_of_fmap_2.
Qed.

(** No counter saturates in the next [n] operations. *)
Definition counters_room (s : ReadyStore) (n : nat) : Prop :=
  rs_hits s + Z.of_nat n ≤ u64_max ∧ rs_misses s + Z.of_nat n ≤ u64_max ∧
  rs_admissions s + Z.of_nat n ≤ u64_max ∧ rs_rejections s + Z.of_nat n ≤ u64_max.

Lemma lookup_refines key s s' res n :
  store_ok s → ¬ probed → counters_room s (S n) → lookup_outcome key s s' res →
  ∃ r, res = Ok r ∧ lru_lookup (store_config s) key (store_values s) = (store_values s', r) ∧
    counters_room s' n.
Proof.
  intros Hs Hp Hc Hout. unfold lru_lookup, counters_room in *.
  destruct res as [[v|[|]]|[e|]]; simpl in Hout; [..|done].
  - destruct Hout as (Hb&i&e&Hi&Hid&->&Hh&->). exists (Hit (entry_resolved e)).
    rewrite bool_decide_eq_false_2 by tauto.
    assert (found key (rs_entries s) (Some i)) as Hf by (exists e; split; [done|by apply entry_matches_id]).
    destruct (values_find s _ key _ (so_entries _ Hs) (so_nodup _ Hs) Hf) as [Hfind Hdel].
    unfold store_values. rewrite Hfind. cbn [mbind option_bind]. rewrite Hi.
    cbn [fmap option_fmap option_map touch_entry rs_entries rs_hits rs_misses rs_admissions
      rs_rejections].
    rewrite (values_remove s) by apply Hs. rewrite (Hdel i eq_refl), fmap_app.
    split_and!; try done; lia.
  - destruct Hout as (Hb&Hm&->). exists (Miss MissBindingMismatch).
    rewrite bool_decide_eq_true_2 by done. simpl. split_and!; try done; lia.
  - destruct Hout as (Hb&Hin&Hm&->). exists (Miss MissNotFound).
    rewrite bool_decide_eq_false_2 by tauto. unfold store_values.
    destruct (values_find s _ key None (so_entries _ Hs) (so_nodup _ Hs)) as [-> _];
      [by apply not_in_none|]. simpl. split_and!; try done; lia.
  - destruct Hout as [-> [[_ ?]|[_ ?]]]; [done|lia].
Qed.

Lemma mismatch_none key value s :
  binding_agrees key value s → key_id key = (resolved_root value, resolved_limits value) →
  lru_mismatch (store_config s) key value = None.
Proof.
  intros [Hb Hv] [= Hr Hl]. unfold lru_mismatch. cbn [store_config lc_binding].
  rewrite !bool_decide_eq_false_2 by tauto. by rewrite Hv.
Qed.

Lemma oversize_spec key value s :
  store_ok s → heap_of value ≤ heap_ceiling s →
  value_total value ≤ max_value_bytes (rs_limits s) →
  lru_oversize (store_config s) key value (store_values s) = None.
Proof.
  intros Hs Hh Hv. unfold lru_oversize, heap_ceiling in *. cbv zeta.
  cbn [store_config lc_limits lc_metadata_bytes].
  rewrite (proj2 (Z.ltb_ge _ (value_total value))) by lia. by rewrite (proj2 (Z.ltb_ge _ _)) by lia.
Qed.

(** A rejected value: the same reason, with the same limit. *)
Lemma reject_refines key value s reason limit :
  store_ok s → rejected_for key value s reason limit →
  lru_admit (store_config s) key value (store_values s) =
    (store_values s, lru_reject value reason limit).
Proof.
  intros Hs Hrej. unfold lru_admit. destruct reason; simpl in Hrej.
  - destruct Hrej as [Hb ->]. unfold lru_mismatch. cbn [store_config lc_binding].
    unfold binding_agrees in Hb. replace (_ || _) with true; [done|]. symmetry.
    rewrite orb_true_iff, bool_decide_eq_true, negb_true_iff.
    destruct (decide (key_binding key = rs_binding s)); [|by left].
    destruct (value_matches_binding value (rs_binding s)); [|by right]. tauto.
  - destruct Hrej as ([Hb Hv]&Hr&->). unfold lru_mismatch. cbn [store_config lc_binding].
    rewrite bool_decide_eq_false_2 by tauto. rewrite Hv. simpl.
    by rewrite bool_decide_eq_true_2 by done.
  - destruct Hrej as ([Hb Hv]&Hr&Hl&->). unfold lru_mismatch. cbn [store_config lc_binding].
    rewrite bool_decide_eq_false_2 by tauto. rewrite Hv. simpl.
    rewrite bool_decide_eq_false_2 by tauto. by rewrite bool_decide_eq_true_2 by done.
  - destruct Hrej as (Hb&Hid&[f Hf]&Hv&->). rewrite mismatch_none, Hf by done.
    unfold lru_oversize. cbn [store_config lc_limits]. by rewrite (proj2 (Z.ltb_lt _ _) Hv).
  - destruct Hrej as (Hb&Hid&[f Hf]&Hv&Hh&->). rewrite mismatch_none, Hf by done.
    unfold lru_oversize, heap_ceiling, store_values in *. cbn [store_config lc_limits lc_metadata_bytes].
    rewrite (proj2 (Z.ltb_ge _ (value_total value))) by lia. rewrite (proj2 (Z.ltb_lt _ _)) by lia.
    rewrite (values_heap_sum s), <-(so_heap _ Hs) by apply Hs. done.
Qed.

Lemma insert_refines key value s n :
  store_ok s → 0 ≤ heap_of value → evicts key value s n →
  lru_insert (store_config s) key value (store_values s) =
    (store_values (admitted_store key value n s),
     Ok (AdmissionAdmitted {| admitted_replaced := replaces key s;
                              admitted_evicted := Z.of_nat n |})).
Proof.
  intros Hs Hh Hev. unfold lru_insert. cbv zeta.
  rewrite (lru_evict_spec s key value n) by done.
  unfold store_values. rewrite (values_remove s) by apply Hs.
  rewrite !length_fmap, (survivors_length _ _ _ _ Hev).
  replace (_ - _) with (Z.of_nat n) by lia. f_equal.
  - unfold admitted_store. cbn [commit_entries rs_entries]. by rewrite fmap_app.
  - do 3 f_equal. unfold replaces. apply bool_decide_ext.
    destruct (decide (key_id key ∈ entry_id <$> rs_entries s)) as [Hin|Hin].
    + pose proof Hin as (e&Hid&[i Hi]%list_elem_of_lookup)%list_elem_of_fmap.
      assert (found key (rs_entries s) (Some i)) as Hf by (exists e; split; [done|by apply entry_matches_id]).
      destruct (values_find s _ key _ (so_entries _ Hs) (so_nodup _ Hs) Hf) as [Hfind _].
      rewrite Hfind. cbn [mbind option_bind]. rewrite Hi. simpl.
      split; [done|by eauto].
    + destruct (values_find s _ key None (so_entries _ Hs) (so_nodup _ Hs)) as [Hfind _];
        [by apply not_in_none|]. rewrite Hfind. simpl.
      split; [by intros []|done].
Qed.

Lemma admit_refines key value s s' res n :
  store_ok s → 0 ≤ heap_of value → ¬ probed → counters_room s (S n) →
  admit_outcome key value s s' res →
  lru_admit (store_config s) key value (store_values s) = (store_values s', res) ∧
  counters_room s' n.
Proof.
  intros Hs Hh Hp Hc Hout. unfold counters_room in *. destruct res as [[a|j]|[e|]]; simpl in Hout.
  - destruct Hout as (Hav&Hadm&m&Hev&->&->). destruct Hav as [Hb Hid [f Hf] Ht Hheap]. split.
    + unfold lru_admit. rewrite mismatch_none, Hf, oversize_spec by done. by apply insert_refines.
    + simpl. lia.
  - destruct Hout as (Hv&Hrej&Hr&->). split.
    + rewrite (reject_refines _ _ _ _ _ Hs Hrej). unfold lru_reject. by destruct j; simplify_eq/=.
    + simpl. lia.
  - destruct Hout as (->&Hv&[[_ ?]|[(Hb&Hid&d&Hf&He)|[_ ?]]]); [done| |lia]. split; [|lia].
    unfold lru_admit. rewrite mismatch_none, Hf by done. destruct e; simplify_eq/=. done.
  - done.
Qed.

(** ** Sessions *)

Lemma unsigned_heap value :
  unsigned_value value → 0 ≤ chain_prefix_capacity (resolved_chain value) → 0 ≤ heap_of value.
Proof. pose proof size_of_object_ref_nonneg. unfold unsigned_value, heap_of. nia. Qed.

(** What a step does to a store that satisfies the invariant. *)
Lemma store_step_ok op r :
  store_ok (run_store r) → unsigned_op op →
  store_ok (run_store (store_step op r).1) ∧
  same_frame (run_store r) (run_store (store_step op r).1).
Proof.
  intros Hs Hu. destruct op as [key|key value|]; simpl in Hu |- *.
  - pose proof (lookup_ready_spec key r Hs) as Hout. unfold run_ends in Hout.
    destruct (lookup_ready key r) as [r' res]. simpl in *.
    split; [by eapply lookup_outcome_ok|by eapply lookup_outcome_frame].
  - destruct Hu as [Hu Hc]. pose proof (try_admit_spec key value r Hs Hu) as Hout.
    unfold run_ends in Hout. destruct (try_admit key value r) as [r' res]. simpl in *.
    split; [by eapply admit_outcome_ok, Hout; eauto using unsigned_heap|
            by eapply admit_outcome_frame].
  - split; [by apply clear_ok|done].
Qed.

Lemma store_session_ok ops r :
  store_ok (run_store r) → Forall unsigned_op ops →
  store_ok (run_store (store_session ops r).1) ∧
  same_frame (run_store r) (run_store (store_session ops r).1).
Proof.
  intros Hs Hops. revert r Hs. induction Hops as [|op ops Hop _ IH]; intros r Hs; [done|].
  destruct (store_step_ok op r Hs Hop) as [Hs' (Hb&Hl&Hm)]. simpl.
  destruct (store_step op r) as [r' reply]. specialize (IH r' Hs').
  destruct (store_session ops r') as [r'' replies]. simpl in *.
  destruct IH as [Hs'' (Hb'&Hl'&Hm')]. split; [done|]. unfold same_frame. by rewrite Hb', Hl', Hm'.
Qed.

Lemma store_step_refines op r n :
  store_ok (run_store r) → unsigned_op op → ¬ probed → counters_room (run_store r) (S n) →
  lru_step (store_config (run_store r)) op (store_values (run_store r)) =
    (store_values (run_store (store_step op r).1), (store_step op r).2) ∧
  counters_room (run_store (store_step op r).1) n.
Proof.
  intros Hs Hu Hp Hc. destruct op as [key|key value|]; simpl in Hu |- *.
  - pose proof (lookup_ready_spec key r Hs) as Hout. unfold run_ends in Hout.
    destruct (lookup_ready key r) as [r' res]. simpl in *.
    by destruct (lookup_refines _ _ _ _ n Hs Hp Hc Hout) as (x&->&->&?).
  - destruct Hu as [Hu Hcap]. pose proof (try_admit_spec key value r Hs Hu) as Hout.
    unfold run_ends in Hout. destruct (try_admit key value r) as [r' res]. simpl in *.
    by destruct (admit_refines _ _ _ _ _ n Hs (unsigned_heap _ Hu Hcap) Hp Hc Hout) as [-> ?].
  - unfold store_values, counters_room in *. simpl. rewrite length_fmap. split; [done|lia].
Qed.

Lemma store_session_refines ops r :
  store_ok (run_store r) → Forall unsigned_op ops → ¬ probed →
  counters_room (run_store r) (length ops) →
  lru_session (store_config (run_store r)) ops (store_values (run_store r)) =
    (store_values (run_store (store_session ops r).1), (store_session ops r).2).
Proof.
  intros Hs Hops Hp. revert r Hs. induction Hops as [|op ops Hop _ IH]; intros r Hs Hc; [done|].
  destruct (store_step_refines op r _ Hs Hop Hp Hc) as [Hstep Hc'].
  destruct (store_step_ok op r Hs Hop) as [Hs' (Hb&Hl&Hm)].
  cbn [lru_session store_session]. rewrite Hstep.
  destruct (store_step op r) as [r' reply]. cbn [fst snd] in *. specialize (IH r' Hs' Hc').
  assert (store_config (run_store r') = store_config (run_store r)) as Hconf
    by (unfold store_config; by rewrite Hb, Hl, Hm).
  rewrite Hconf in IH. rewrite IH. by destruct (store_session ops r').
Qed.

(** A lookup of a resident identity finds its value. *)
Lemma resident_lookup key r e :
  store_ok (run_store r) → key_binding key = rs_binding (run_store r) →
  e ∈ rs_entries (run_store r) → entry_id e = key_id key →
  match (lookup_ready key r).2 with
  | Ok res => res = Hit (entry_resolved e)
  | Err (Rejected err) =>
      (err = ReadyStoreError_for_code Cancelled ∧ probed) ∨
      (err = internal_state ∧ (rs_hits (run_store r) = u64_max ∨ rs_misses (run_store r) = u64_max))
  | Err Panicked => False
  end.
Proof.
  intros Hs Hb [j Hj]%list_elem_of_lookup Hid.
  pose proof (lookup_ready_spec key r Hs) as Hout. unfold run_ends in Hout.
  destruct (lookup_ready key r).2 as [[v|[|]]|[err|]]; simpl in Hout.
  - destruct Hout as (_&i&e'&Hi&Hid'&->&_). f_equal. f_equal.
    assert (i = j) as ->; [|congruence].
    apply (NoDup_lookup _ _ _ (key_id key) (so_nodup _ Hs)); rewrite list_lookup_fmap.
    + by rewrite Hi, <-Hid'.
    + by rewrite Hj, <-Hid.
  - by destruct Hout.
  - destruct Hout as (_&Hin&_). destruct Hin. rewrite <-Hid.
    apply list_elem_of_fmap_2. by eapply list_elem_of_lookup_2.
  - by destruct Hout.
  - done.
Qed.
End operations.
