(* ===== verification/CacheProps.v ===== *)
(** * The properties of the session Ready store

    Sessions of lookups, admissions and clears on a store opened under validated
    limits. *)

From stdpp Require Import base list numbers option strings.
From S2P Require Import Prelude.
From S2P Require Import SourceTypes.
From S2P Require Import SyntaxTypes.
From S2P Require Import DocumentTypes.
From S2P Require Import ReadyStore.
From S2P Require Import ReadyStoreSpec.
From S2P Require Import ReadyStoreInv.

Section cache.
Context `{StoreRuntime}.
Implicit Types (key : ReadyStoreKey) (value v : ResolvedReference).

(** A store opened by [ReadyStore::new] under the limits of a configuration. *)
Definition opened (config : ReadyStoreLimitConfig) (binding : ReadyStoreBinding)
    (s : ReadyStore) : Prop :=
  0 ≤ config_max_value_bytes config ∧ 0 ≤ config_max_resident_bytes config ∧
  ∃ limits, ReadyStoreLimits_validate config = Ok limits ∧ ReadyStore_new binding limits = Ok s.

Lemma opened_ok config binding s :
  opened config binding s →
  store_ok s ∧ rs_binding s = binding ∧ rs_entries s = [] ∧
  counters_room s (Z.to_nat u64_max) ∧
  max_entries (rs_limits s) = config_max_entries config ∧
  max_resident_bytes (rs_limits s) = config_max_resident_bytes config.
Proof.
  intros (Hv&Hr&l&[Hl ->]%validated_limits&Hnew); [|done..].
  apply new_store_ok in Hnew as (Hs&Hb&Hlim&He&Hc); [|done].
  rewrite Hlim. unfold counters_room, u64_max. split_and!; try done; lia.
Qed.

Lemma stats_of_ok s :
  store_ok s → ∃ st, ReadyStore_stats s = Some st ∧
    stat_entries st = len (rs_entries s) ∧
    stat_resident_bytes st = rs_metadata_bytes s + rs_value_heap_bytes s ∧
    stat_peak_resident_bytes st = rs_peak_resident_bytes s.
Proof.
  intros Hs. pose proof (so_len _ Hs). pose proof (so_resident _ Hs). pose proof (so_peak _ Hs).
  pose proof (store_ok_usize _ Hs). unfold ReadyStore_stats.
  assert (try_from u64_max (len (rs_entries s)) = Some (len (rs_entries s))) as ->
    by (apply try_from_Some; lia).
  assert (checked_add u64_max (rs_metadata_bytes s) (rs_value_heap_bytes s) =
    Some (rs_metadata_bytes s + rs_value_heap_bytes s)) as -> by (apply checked_add_Some; lia).
  by eexists.
Qed.

(** The invariant of the store. After any session of lookups, admissions
    and clears, whatever the probes answer, no identity is resident twice; every
    resident value belongs to the binding of the store; its accounted heap is
    its own; the statistics are available without panic, and report at most the
    configured entries, and at most the configured resident bytes, in every
    intermediate state as well: they are the table plus the heap of the resident
    values. *)
Theorem store_invariant config binding s0 ops :
  opened config binding s0 → Forall unsigned_op ops →
  let s := run_store (store_session ops (open_store s0)).1 in
  NoDup (value_id <$> store_values s) ∧
  Forall (λ v, value_matches_binding v binding = true) (store_values s) ∧
  ∃ st, ReadyStore_stats s = Some st ∧
    stat_entries st = len (store_values s) ∧
    stat_entries st ≤ config_max_entries config ∧
    stat_resident_bytes st = rs_metadata_bytes s0 + values_heap (store_values s) ∧
    stat_resident_bytes st ≤ stat_peak_resident_bytes st ∧
    stat_peak_resident_bytes st ≤ config_max_resident_bytes config.
Proof.
  intros Hopen Hops s. destruct (opened_ok _ _ _ Hopen) as (Hs0&Hb0&_&_&Hme&Hmr).
  destruct (store_session_ok ops (open_store s0) Hs0 Hops) as [Hs (Hb&Hl&Hm)].
  fold s in Hs, Hb, Hl, Hm. simpl in Hb, Hl, Hm.
  destruct (stats_of_ok s Hs) as (st&Hst&He&Hr&Hp). split; [|split].
  - unfold store_values. rewrite <-list_fmap_compose.
    erewrite list_fmap_ext; [apply (so_nodup _ Hs)|]. intros i e Hi.
    apply (entry_value_id s). by eapply Forall_lookup_1; [apply Hs|].
  - apply Forall_fmap. eapply Forall_impl; [apply (so_entries _ Hs)|].
    intros e [_ _ Hv _ _]. simpl. by rewrite <-Hb0, <-Hb.
  - exists st. rewrite He, Hr, Hp. unfold store_values.
    rewrite length_fmap, (values_heap_sum s), <-(so_heap _ Hs) by apply Hs.
    pose proof (so_len _ Hs). pose proof (so_resident _ Hs). pose proof (so_peak _ Hs).
    rewrite <-Hme, <-Hmr, <-Hl, <-Hm. split_and!; try done; lia.
Qed.

(** C20: the store refines a least-recently-used list of values. When no probe
    cancels, every reply of a session, and the resident values in recency order
    at its end, are those of the abstract cache. *)
Theorem store_refines_lru config binding s0 ops :
  opened config binding s0 → Forall unsigned_op ops →
  (∀ k, store_is_cancelled k = false) → len ops ≤ u64_max →
  lru_session (store_config s0) ops [] =
    (store_values (run_store (store_session ops (open_store s0)).1),
     (store_session ops (open_store s0)).2).
Proof.
  intros Hopen Hops Hq Hlen. destruct (opened_ok _ _ _ Hopen) as (Hs0&_&He&Hc&_).
  rewrite <-(store_session_refines ops (open_store s0)); try done.
  - unfold store_values. simpl. by rewrite He.
  - intros [k Hk]. by rewrite Hq in Hk.
  - unfold counters_room, open_store in *. simpl. lia.
Qed.

(** Lookups are exact. A hit returns the resident value of the key's
    identity and makes it the most recently used; a miss says whether the binding
    differs or the identity is absent, and changes a counter only; an error is a
    cancellation or a counter that is full, and changes nothing; no lookup
    panics. *)
Theorem lookup_exact key r :
  store_ok (run_store r) →
  lookup_outcome key (run_store r) (run_store (lookup_ready key r).1) (lookup_ready key r).2.
Proof. apply lookup_ready_spec. Qed.

(** Admissions are exact. An admitted value has the key's identity and the
    store's binding and fits in the limits; it replaces the resident value of its
    identity, evicts the least number of least recently used others that makes
    room, and is the most recently used; a rejected value is given back with the
    reason of the first check that fails; an error gives the value back, is a
    cancellation, a footprint beyond 64 bits or a full counter, and leaves the
    store as it was; no admission panics. *)
Theorem admission_exact key value r :
  store_ok (run_store r) → unsigned_value value →
  admit_outcome key value (run_store r) (run_store (try_admit key value r).1)
    (try_admit key value r).2.
Proof. apply try_admit_spec. Qed.

(** What a lookup of a resident identity may return instead of its value: a
    cancellation, or the refusal of a full counter. *)
Definition interrupted (s : ReadyStore) (res : result StoreFailure ReadyLookup) : Prop :=
  ∃ e, res = Err (Rejected e) ∧
    ((e = ReadyStoreError_for_code Cancelled ∧ probed) ∨
     (e = internal_state ∧ (rs_hits s = u64_max ∨ rs_misses s = u64_max))).

Lemma resident_found key r e :
  store_ok (run_store r) → key_binding key = rs_binding (run_store r) →
  e ∈ rs_entries (run_store r) → entry_id e = key_id key →
  (lookup_ready key r).2 = Ok (Hit (entry_resolved e)) ∨
  interrupted (run_store r) (lookup_ready key r).2.
Proof.
  intros Hs Hb He Hid. pose proof (resident_lookup key r e Hs Hb He Hid) as Hl.
  unfold interrupted. destruct (lookup_ready key r).2 as [res|[err|]]; [|by eauto|done].
  left. by rewrite Hl.
Qed.

(** An admitted value is found. After an admission that succeeds, a lookup
    of the same key returns that very value, unless it is interrupted. *)
Theorem admitted_then_found key value r a :
  store_ok (run_store r) → unsigned_value value →
  0 ≤ chain_prefix_capacity (resolved_chain value) →
  (try_admit key value r).2 = Ok (AdmissionAdmitted a) →
  let r' := (try_admit key value r).1 in
  (lookup_ready key r').2 = Ok (Hit value) ∨
  interrupted (run_store r') (lookup_ready key r').2.
Proof.
  intros Hs Hu Hcap Hadm r'. pose proof (try_admit_spec key value r Hs Hu) as Hout.
  unfold run_ends in Hout. fold r' in Hout.
  pose proof (admit_outcome_ok _ _ _ _ _ Hs (unsigned_heap _ Hu Hcap) Hout) as Hs'.
  rewrite Hadm in Hout. destruct Hout as ([[Hb _] _ _ _ _]&_&n&_&_&Hst).
  apply (resident_found key r' (new_entry key value)); [done|by rewrite Hst|rewrite Hst|done].
  cbn [admitted_store commit_entries rs_entries]. apply elem_of_app. right. by left.
Qed.

(** The last entry survives an admission it fits beside. *)
Lemma last_survives key value s l e n :
  store_ok s → 0 ≤ heap_of value → rs_entries s = l ++ [e] → entry_id e ≠ key_id key →
  2 ≤ max_entries (rs_limits s) → entry_heap_bytes e + heap_of value ≤ heap_ceiling s →
  evicts key value s n → e ∈ survivors key s n.
Proof.
  intros Hs Hh He Hid Htwo Hroom [Hb _ Hleast]. unfold survivors. rewrite He in *.
  assert (others key (l ++ [e]) = others key l ++ [e]) as Ho.
  { unfold others. rewrite filter_app, filter_cons_True; [done|]. by apply entry_matches_false. }
  rewrite Ho in *. rewrite length_app in Hb. simpl in Hb.
  destruct (decide (n ≤ length (others key l))%nat) as [Hn|Hn].
  - rewrite drop_app_le by done. apply elem_of_app. right. by left.
  - assert (fits (max_entries (rs_limits s)) (heap_of value) (heap_ceiling s)
      (drop (length (others key l)) (others key l ++ [e])) = false) as Hf by (apply Hleast; lia).
    rewrite drop_app_length in Hf. exfalso. apply not_true_iff_false in Hf. apply Hf.
    pose proof (so_metadata _ Hs). pose proof (store_ok_usize _ Hs).
    apply fits_true; [done|unfold heap_ceiling; lia|]. simpl. lia.
Qed.

(** The most recently used value survives. When the value of the last hit
    and an admitted value of another identity fit together, the first is still
    found after the admission of the second. *)
Theorem hit_survives_admission key key' v value r a :
  store_ok (run_store r) → unsigned_value value →
  0 ≤ chain_prefix_capacity (resolved_chain value) →
  (lookup_ready key r).2 = Ok (Hit v) →
  let r1 := (lookup_ready key r).1 in
  (try_admit key' value r1).2 = Ok (AdmissionAdmitted a) →
  key_id key' ≠ key_id key →
  2 ≤ max_entries (rs_limits (run_store r)) →
  heap_of v + heap_of value ≤ heap_ceiling (run_store r) →
  let r2 := (try_admit key' value r1).1 in
  (lookup_ready key r2).2 = Ok (Hit v) ∨ interrupted (run_store r2) (lookup_ready key r2).2.
Proof.
  intros Hs Hu Hcap Hhit r1 Hadm Hne Htwo Hroom r2.
  pose proof (lookup_ready_spec key r Hs) as Hlook. unfold run_ends in Hlook. fold r1 in Hlook.
  pose proof (lookup_outcome_ok _ _ _ _ Hs Hlook) as Hs1. rewrite Hhit in Hlook.
  destruct Hlook as (Hb&i&e&Hi&Hid&->&_&Hst).
  pose proof (try_admit_spec key' value r1 Hs1 Hu) as Hout. unfold run_ends in Hout.
  fold r2 in Hout. pose proof (unsigned_heap _ Hu Hcap) as Hh.
  pose proof (admit_outcome_ok _ _ _ _ _ Hs1 Hh Hout) as Hs2. rewrite Hadm in Hout.
  destruct Hout as (_&_&n&Hev&_&Hst2).
  assert (e ∈ survivors key' (run_store r1) n) as He.
  { pose proof (Forall_lookup_1 _ _ _ _ (so_entries _ Hs) Hi) as [_ _ _ [_ Hheap] _].
    eapply (last_survives key' value); [done|done|by rewrite Hst|congruence|..|done];
      by rewrite ?Hst, ?Hheap. }
  apply (resident_found key r2 e); [done|by rewrite Hst2, Hst| |done].
  rewrite Hst2. cbn [admitted_store commit_entries rs_entries]. apply elem_of_app. by left.
Qed.
End cache.

(** ** Concrete sessions *)

(** An allocator that gives what is asked, and probes that never cancel. *)
#[program] Definition desktop_store : StoreRuntime :=
  {| store_platform := desktop64;
     store_sizes := {| size_of_resolved_reference := 64; size_of_object_ref := 8;
                       size_of_resolved_reference_nonneg := ltac:(lia);
                       size_of_object_ref_nonneg := ltac:(lia) |};
     store_is_cancelled _ := false;
     reserve_entries count := if count <=? u64_max then Some count else None;
     size_of_entry := 100 |}.
Next Obligation. intros count capacity. simpl. case_match; intros; simplify_eq; lia. Qed.
Next Obligation. done. Qed.

Definition example_snapshot : SourceSnapshot :=
  {| snapshot_identity := {| stable_id := []; revision := 1 |}; snapshot_len := Some 4096;
     snapshot_validator := {| validator_kind := FrozenResponse; validator_digest := [] |} |}.
Definition example_object_limits : ObjectLimits :=
  {| ol_max_source_bytes := 4096; ol_initial_envelope_bytes := 64; ol_max_envelope_bytes := 1024;
     ol_initial_boundary_bytes := 64; ol_max_boundary_bytes := 1024; ol_max_stream_bytes := 1024;
     ol_max_total_read_bytes := 4096; ol_max_total_parse_bytes := 4096 |}.
Definition example_syntax_limits : SyntaxLimits :=
  {| sl_max_input_bytes := 4096; sl_max_token_bytes := 256; sl_max_comment_bytes := 256;
     sl_max_name_bytes := 127; sl_max_string_source_bytes := 256;
     sl_max_string_decoded_bytes := 256; sl_max_owned_bytes := 4096; sl_max_total_tokens := 512;
     sl_max_container_entries := 64; sl_max_container_bytes := 1024; sl_max_container_depth := 8 |}.
Definition example_chain_limits : ReferenceChainLimits :=
  {| rl_max_objects := 4; rl_max_reference_edges := 3; rl_max_depth := 3;
     rl_max_total_object_read_bytes := 4096; rl_max_total_object_parse_bytes := 4096;
     rl_max_retained_path_bytes := 64; rl_effective_path_references := 3 |}.

(** The value of the direct object [number 0 obj number endobj]. *)
Definition example_value (number heap : Z) : ResolvedReference :=
  let span := {| span_start := 0; span_len := 8 |} in
  let reference := {| object_number := number; object_generation := 0 |} in
  {| resolved_chain := {| chain_prefix := []; chain_prefix_capacity := 0;
                          chain_terminal := reference |};
     resolved_object :=
       {| attested_attestation :=
            {| attestation_revision_id := 1; attestation_reference := reference;
               attestation_xref_offset := 9; attestation_object_upper_bound := 64;
               attestation_header_span := span; attestation_object_span := span;
               attestation_endobj_span := span; attestation_kind := IntegerKind |};
          attested_object :=
            {| object_snapshot := example_snapshot; object_reference := reference;
               object_revision_startxref := 400; object_target_kind := XrefEntry;
               object_xref_offset := 9; object_upper_bound := 64; object_header_span := span;
               object_object_span := span; object_endobj_span := span;
               object_retained_heap_bytes := heap;
               object_value := Direct {| located_source := snapshot_identity example_snapshot;
                                         located_span := span;
                                         located_value := Integer number |} |};
          attested_object_limits := example_object_limits;
          attested_syntax_limits := example_syntax_limits |};
     resolved_limits := example_chain_limits;
     resolved_stats := {| stats_objects_started := 1; stats_reference_edges := 0;
                          stats_max_depth := 0; stats_object_read_bytes := 64;
                          stats_object_parse_bytes := 64; stats_retained_path_bytes := 0 |} |}.

Definition example_binding : ReadyStoreBinding :=
  {| binding_session_id := 7; binding_snapshot := example_snapshot; binding_revision_id := 1;
     binding_revision_startxref := 400; binding_object_limits := example_object_limits;
     binding_syntax_limits := example_syntax_limits; binding_epoch := 0 |}.
Definition example_key (number : Z) : ReadyStoreKey :=
  {| key_binding := example_binding;
     key_root := {| object_number := number; object_generation := 0 |};
     key_resolution_limits := example_chain_limits |}.

(** A table of two entries and 400 bytes for the heap of values. *)
Definition example_config : ReadyStoreLimitConfig :=
  {| config_max_entries := 2; config_max_value_bytes := 500; config_max_resident_bytes := 600 |}.
Definition example_store : ReadyStore :=
  {| rs_binding := example_binding;
     rs_limits := {| max_entries := 2; max_value_bytes := 500; max_resident_bytes := 600 |};
     rs_entries := []; rs_capacity := 2; rs_metadata_bytes := 200; rs_value_heap_bytes := 0;
     rs_hits := 0; rs_misses := 0; rs_admissions := 0; rs_replacements := 0; rs_rejections := 0;
     rs_evictions := 0; rs_peak_resident_bytes := 200 |}.

Lemma example_opened : @opened desktop_store example_config example_binding example_store.
Proof. split; [done|]. split; [done|]. eexists. by split. Qed.

(** Object 1 is hit, so that object 2 is the victim of object 3. *)
Definition example_session : list StoreOp :=
  [AdmitOp (example_key 1) (example_value 1 100); AdmitOp (example_key 2) (example_value 2 150);
   LookupOp (example_key 1); AdmitOp (example_key 3) (example_value 3 200);
   LookupOp (example_key 2); LookupOp (example_key 1)].

Lemma example_unsigned : Forall unsigned_op example_session.
Proof.
  repeat (constructor; [by (unfold unsigned_op, unsigned_value; simpl; try lia)|]). constructor.
Qed.

Lemma store_invariant_witness :
  let s := run_store (@store_session desktop_store example_session (open_store example_store)).1 in
  NoDup (value_id <$> store_values s) ∧ length (store_values s) = 2%nat.
Proof.
  split; [|vm_compute; reflexivity].
  exact (proj1 (@store_invariant desktop_store example_config example_binding example_store
    example_session example_opened example_unsigned)).
Defined.

Lemma store_refines_lru_witness :
  (@lru_session desktop_store (store_config example_store) example_session []).1 =
    [example_value 3 200; example_value 1 100] ∧
  (@store_session desktop_store example_session (open_store example_store)).2 =
    (@lru_session desktop_store (store_config example_store) example_session []).2.
Proof.
  split; [vm_compute; reflexivity|].
  rewrite (@store_refines_lru desktop_store example_config example_binding example_store
    example_session example_opened example_unsigned); [reflexivity|reflexivity|done].
Defined.

Definition example_run (ops : list StoreOp) : StoreRun :=
  (@store_session desktop_store ops (open_store example_store)).1.

Lemma example_run_ok n : @store_ok desktop_store (run_store (example_run (take n example_session))).
Proof.
  apply (@store_session_ok desktop_store).
  - apply (opened_ok _ _ _ example_opened).
  - apply Forall_take, example_unsigned.
Qed.

Lemma lookup_exact_witness :
  @lookup_outcome desktop_store (example_key 1)
    (run_store (example_run (take 2 example_session)))
    (run_store (example_run (take 3 example_session)))
    (Ok (Hit (example_value 1 100))).
Proof.
  exact (@lookup_exact desktop_store (example_key 1) (example_run (take 2 example_session))
    (example_run_ok 2)).
Defined.

Lemma admission_exact_witness :
  @admit_outcome desktop_store (example_key 3) (example_value 3 200)
    (run_store (example_run (take 3 example_session)))
    (run_store (example_run (take 4 example_session)))
    (Ok (AdmissionAdmitted {| admitted_replaced := false; admitted_evicted := 1 |})).
Proof.
  exact (@admission_exact desktop_store (example_key 3) (example_value 3 200)
    (example_run (take 3 example_session)) (example_run_ok 3) ltac:(vm_compute; discriminate)).
Defined.

Lemma admitted_then_found_witness :
  (@lookup_ready desktop_store (example_key 3) (example_run (take 4 example_session))).2 =
    Ok (Hit (example_value 3 200)).
Proof.
  destruct (@admitted_then_found desktop_store (example_key 3) (example_value 3 200)
    (example_run (take 3 example_session)) {| admitted_replaced := false; admitted_evicted := 1 |}
    (example_run_ok 3) ltac:(vm_compute; discriminate) ltac:(vm_compute; discriminate)
    ltac:(vm_compute; reflexivity)) as [Hfound|(e&Herr&_)].
  - exact Hfound.
  - vm_compute in Herr. discriminate.
Defined.

Lemma hit_survives_admission_witness :
  (@lookup_ready desktop_store (example_key 1) (example_run (take 4 example_session))).2 =
    Ok (Hit (example_value 1 100)).
Proof.
  destruct (@hit_survives_admission desktop_store (example_key 1) (example_key 3)
    (example_value 1 100) (example_value 3 200) (example_run (take 2 example_session))
    {| admitted_replaced := false; admitted_evicted := 1 |} (example_run_ok 2)
    ltac:(vm_compute; discriminate) ltac:(vm_compute; discriminate) ltac:(vm_compute; reflexivity)
    ltac:(vm_compute; reflexivity) ltac:(done) ltac:(vm_compute; discriminate)
    ltac:(vm_compute; discriminate)) as [Hfound|(e&Herr&_)].
  - exact Hfound.
  - vm_compute in Herr. discriminate.
Defined.
