(* ===== verification/SyntaxState.v ===== *)
(** * The state of a syntax parser ([pdf-rs/syntax/src/parser.rs])

    The window a parser reads, its cancellation probe, its work counters and the
    checks that charge them. The window, the limits and the retained cap never
    change during a parse; the cursor, the probe countdown and the counters are
    the state of the methods. *)

From stdpp Require Import base list numbers option strings.
From S2P Require Import Prelude.
From S2P Require Import SourceTypes.
From S2P Require Import SyntaxTypes.

Definition CANCELLATION_PROBE_INTERVAL : Z := 256.

(** The platform, the answers of the cancellation probe by call, those of
    [Vec::try_reserve_exact] by call, size of an element, length, capacity and
    additional elements, and [mem::size_of] of the elements of containers. A
    vector never holds more than [isize::MAX] bytes, and an element is a few words. *)
Class ParserRuntime : Type := {
  parser_platform :: Platform;
  parser_cancelled : nat → bool;
  parser_reserve : nat → Z → Z → Z → Z → option Z;
  size_of_located_object : Z;
  size_of_dictionary_entry : Z;
  parser_reserve_spec : ∀ k size length capacity additional capacity',
    parser_reserve k size length capacity additional = Some capacity' →
    Z.max capacity (length + additional) ≤ capacity' ≤ usize_max ∧ capacity' * size ≤ i64_max;
  size_of_located_object_bound : 0 ≤ size_of_located_object ≤ 1024;
  size_of_dictionary_entry_bound : 0 ≤ size_of_dictionary_entry ≤ 1024
}.

(** ** Windows *)

Inductive InputExtent := MayContinue | KnownSourceEnd.
#[global] Instance InputExtent_eq_dec : EqDecision InputExtent.
Proof. solve_decision. Defined.

Record SyntaxInput := {
  input_source : SourceIdentity;
  input_base_offset : Z;
  input_bytes : list Z;
  input_extent : InputExtent
}.

Definition SyntaxInput_new (source : SourceIdentity) (base_offset : Z) (bytes : list Z)
    (extent : InputExtent) : result SyntaxError SyntaxInput :=
  length ← require (try_from u64_max (len bytes))
    (SyntaxError_for_code InternalState (Some base_offset));
  _ ← require (checked_add u64_max base_offset length)
    (SyntaxError_for_code InternalState (Some base_offset));
  mret {| input_source := source; input_base_offset := base_offset;
          input_bytes := bytes; input_extent := extent |}.

Definition SyntaxInput_from_byte_slice (bytes : ByteSlice) (extent : InputExtent)
    : result SyntaxError SyntaxInput :=
  SyntaxInput_new (slice_identity bytes) (range_start (slice_range bytes)) (slice_bytes bytes)
    extent.

(** ** Outcomes *)

Inductive SyntaxPoll (T : Type) :=
| Ready (value : T)
| NeedMore (minimum_end : Z)
| EndOfInput
| Failed (error : SyntaxError).
Arguments Ready {T} value.
Arguments NeedMore {T} minimum_end.
Arguments EndOfInput {T}.
Arguments Failed {T} error.

Inductive ParseFailure :=
| End
| Incomplete (final_code : SyntaxErrorCode) (offset : Z)
| ParseFailed (error : SyntaxError).

Record SyntaxStats := {
  stats_input_bytes : Z;
  stats_tokens : Z;
  stats_owned_bytes : Z;
  stats_container_bytes : Z;
  stats_container_entries : Z;
  stats_max_depth : Z
}.

Record RawBytes := {
  raw_source : SourceIdentity;
  raw_span : ByteSpan;
  raw_bytes : list Z
}.

(** ** Parsers *)

Record SyntaxParser := {
  sp_input : SyntaxInput;
  sp_limits : SyntaxLimits;
  sp_max_retained_bytes : option Z
}.

(** [ps_probes] and [ps_reservations] count the calls of the runtime. *)
Record ParserState := {
  ps_cursor : nat;
  ps_countdown : Z;
  ps_probes : nat;
  ps_reservations : nat;
  ps_tokens : Z;
  ps_owned_bytes : Z;
  ps_container_bytes : Z;
  ps_container_entries : Z;
  ps_max_depth : Z
}.

Definition move_cursor (x : nat) (s : ParserState) : ParserState :=
  {| ps_cursor := x; ps_countdown := ps_countdown s; ps_probes := ps_probes s;
     ps_reservations := ps_reservations s; ps_tokens := ps_tokens s;
     ps_owned_bytes := ps_owned_bytes s; ps_container_bytes := ps_container_bytes s;
     ps_container_entries := ps_container_entries s; ps_max_depth := ps_max_depth s |}.
Definition set_countdown (x : Z) (s : ParserState) : ParserState :=
  {| ps_cursor := ps_cursor s; ps_countdown := x; ps_probes := ps_probes s;
     ps_reservations := ps_reservations s; ps_tokens := ps_tokens s;
     ps_owned_bytes := ps_owned_bytes s; ps_container_bytes := ps_container_bytes s;
     ps_container_entries := ps_container_entries s; ps_max_depth := ps_max_depth s |}.
Definition count_probe (s : ParserState) : ParserState :=
  {| ps_cursor := ps_cursor s; ps_countdown := ps_countdown s; ps_probes := S (ps_probes s);
     ps_reservations := ps_reservations s; ps_tokens := ps_tokens s;
     ps_owned_bytes := ps_owned_bytes s; ps_container_bytes := ps_container_bytes s;
     ps_container_entries := ps_container_entries s; ps_max_depth := ps_max_depth s |}.
Definition count_parser_reservation (s : ParserState) : ParserState :=
  {| ps_cursor := ps_cursor s; ps_countdown := ps_countdown s; ps_probes := ps_probes s;
     ps_reservations := S (ps_reservations s); ps_tokens := ps_tokens s;
     ps_owned_bytes := ps_owned_bytes s; ps_container_bytes := ps_container_bytes s;
     ps_container_entries := ps_container_entries s; ps_max_depth := ps_max_depth s |}.
Definition set_tokens (x : Z) (s : ParserState) : ParserState :=
  {| ps_cursor := ps_cursor s; ps_countdown := ps_countdown s; ps_probes := ps_probes s;
     ps_reservations := ps_reservations s; ps_tokens := x;
     ps_owned_bytes := ps_owned_bytes s; ps_container_bytes := ps_container_bytes s;
     ps_container_entries := ps_container_entries s; ps_max_depth := ps_max_depth s |}.
Definition set_owned_bytes (x : Z) (s : ParserState) : ParserState :=
  {| ps_cursor := ps_cursor s; ps_countdown := ps_countdown s; ps_probes := ps_probes s;
     ps_reservations := ps_reservations s; ps_tokens := ps_tokens s;
     ps_owned_bytes := x; ps_container_bytes := ps_container_bytes s;
     ps_container_entries := ps_container_entries s; ps_max_depth := ps_max_depth s |}.
Definition set_container_bytes (x : Z) (s : ParserState) : ParserState :=
  {| ps_cursor := ps_cursor s; ps_countdown := ps_countdown s; ps_probes := ps_probes s;
     ps_reservations := ps_reservations s; ps_tokens := ps_tokens s;
     ps_owned_bytes := ps_owned_bytes s; ps_container_bytes := x;
     ps_container_entries := ps_container_entries s; ps_max_depth := ps_max_depth s |}.
Definition set_container_entries (x : Z) (s : ParserState) : ParserState :=
  {| ps_cursor := ps_cursor s; ps_countdown := ps_countdown s; ps_probes := ps_probes s;
     ps_reservations := ps_reservations s; ps_tokens := ps_tokens s;
     ps_owned_bytes := ps_owned_bytes s; ps_container_bytes := ps_container_bytes s;
     ps_container_entries := x; ps_max_depth := ps_max_depth s |}.
Definition observe_depth (x : Z) (s : ParserState) : ParserState :=
  {| ps_cursor := ps_cursor s; ps_countdown := ps_countdown s; ps_probes := ps_probes s;
     ps_reservations := ps_reservations s; ps_tokens := ps_tokens s;
     ps_owned_bytes := ps_owned_bytes s; ps_container_bytes := ps_container_bytes s;
     ps_container_entries := ps_container_entries s; ps_max_depth := Z.max (ps_max_depth s) x |}.

Definition initial_state : ParserState :=
  {| ps_cursor := 0; ps_countdown := CANCELLATION_PROBE_INTERVAL; ps_probes := 0;
     ps_reservations := 0; ps_tokens := 0; ps_owned_bytes := 0; ps_container_bytes := 0;
     ps_container_entries := 0; ps_max_depth := 0 |}.

Definition SyntaxParser_new (input : SyntaxInput) (limits : SyntaxLimits)
    (max_retained_bytes : option Z) : result SyntaxError (SyntaxParser * ParserState) :=
  input_len ← require (try_from u64_max (len (input_bytes input)))
    (SyntaxError_for_code InternalState (Some (input_base_offset input)));
  fail_if (sl_max_input_bytes limits <? input_len)
    (SyntaxError_resource InputBytes (sl_max_input_bytes limits) 0 input_len
       (Some (input_base_offset input)));;
  mret ({| sp_input := input; sp_limits := limits;
           sp_max_retained_bytes := max_retained_bytes |}, initial_state).

(** [stats], with the input bytes charged by the construction. *)
Definition parser_stats (p : SyntaxParser) (s : ParserState) : SyntaxStats :=
  {| stats_input_bytes := len (input_bytes (sp_input p)); stats_tokens := ps_tokens s;
     stats_owned_bytes := ps_owned_bytes s; stats_container_bytes := ps_container_bytes s;
     stats_container_entries := ps_container_entries s; stats_max_depth := ps_max_depth s |}.

(** The methods of a parser. [Panicked] is an index out of the window, an
    [expect] that fails, or a loop that has more iterations than bytes to read. *)
Abbreviation ParseM := (M ParserState (failure ParseFailure)).

Definition fail {A} (error : SyntaxError) : ParseM A := throw (Rejected (ParseFailed error)).
Definition fail_at {A} (code : SyntaxErrorCode) (offset : Z) : ParseM A :=
  fail (SyntaxError_for_code code (Some offset)).
Definition incomplete {A} (final_code : SyntaxErrorCode) (offset : Z) : ParseM A :=
  throw (Rejected (Incomplete final_code offset)).
Definition panic {A} : ParseM A := throw Panicked.
(** [opt.ok_or_else(|| InternalState)?] and the like. *)
Definition some_or {A} (o : option A) (error : SyntaxError) : ParseM A :=
  ok_or o (Rejected (ParseFailed error)).
Definition internal_at (offset : Z) : SyntaxError :=
  SyntaxError_for_code InternalState (Some offset).
Definition lift_syntax {A} (r : result SyntaxError A) : ParseM A :=
  of_result (match r with Ok a => Ok a | Err e => Err (Rejected (ParseFailed e)) end).

Section state.
Context `{ParserRuntime} (p : SyntaxParser).

Definition window : list Z := input_bytes (sp_input p).
Definition absolute (index : nat) : Z := input_base_offset (sp_input p) + Z.of_nat index.
Definition position (s : ParserState) : Z := absolute (ps_cursor s).
Definition may_continue : bool := bool_decide (input_extent (sp_input p) = MayContinue).
(** [self.input.bytes[index]]. *)
Definition byte_at (index : nat) : ParseM Z := ok_or (window !! index) Panicked.
Definition at_end (index : nat) : bool := bool_decide (index = length window).

(** ** Cancellation *)

Definition check_cancelled (offset : Z) : ParseM unit :=
  probes ← gets ps_probes;
  modify count_probe;;
  if parser_cancelled probes then fail_at Cancelled offset else mret tt.

Definition begin_operation : ParseM unit :=
  modify (set_countdown CANCELLATION_PROBE_INTERVAL);;
  offset ← gets position;
  check_cancelled offset.

Definition probe_iteration (offset : Z) : ParseM unit :=
  countdown ← gets ps_countdown;
  if 1 <? countdown then modify (set_countdown (countdown - 1))
  else
    modify (set_countdown CANCELLATION_PROBE_INTERVAL);;
    check_cancelled offset.

(** ** Charges *)

Definition check_single_limit (kind : SyntaxLimitKind) (limit attempted offset : Z)
    : ParseM unit :=
  if limit <? attempted
  then fail (SyntaxError_resource kind limit 0 attempted (Some offset))
  else mret tt.

Definition charge_total (kind : SyntaxLimitKind) (limit consumed attempted offset : Z)
    : ParseM unit :=
  if match checked_add u64_max consumed attempted with
     | None => true
     | Some total => limit <? total
     end
  then fail (SyntaxError_resource kind limit consumed attempted (Some offset))
  else mret tt.

Definition charge_retained (attempted offset : Z) : ParseM unit :=
  match sp_max_retained_bytes p with
  | None => mret tt
  | Some limit =>
      s ← get;
      consumed ← some_or (checked_add u64_max (ps_owned_bytes s) (ps_container_bytes s))
        (internal_at offset);
      charge_total RetainedBytes limit consumed attempted offset
  end.

Definition check_token_len (start stop : nat) : ParseM unit :=
  length ← some_or (try_from u64_max (Z.of_nat (stop - start))) (internal_at (absolute start));
  check_single_limit TokenBytes (sl_max_token_bytes (sp_limits p)) length (absolute start).

Definition check_string_source (start stop : nat) : ParseM unit :=
  check_token_len start stop;;
  length ← some_or (try_from u64_max (Z.of_nat (stop - start))) (internal_at (absolute start));
  check_single_limit StringSourceBytes (sl_max_string_source_bytes (sp_limits p)) length
    (absolute start).

Definition check_decoded (decoded_len : Z) (start : nat) : ParseM unit :=
  check_single_limit StringDecodedBytes (sl_max_string_decoded_bytes (sp_limits p)) decoded_len
    (absolute start).

Definition charge_token (offset : Z) : ParseM unit :=
  tokens ← gets ps_tokens;
  charge_total Tokens (sl_max_total_tokens (sp_limits p)) tokens 1 offset;;
  modify (set_tokens (tokens + 1)).

Definition charge_container_entry (offset : Z) : ParseM unit :=
  entries ← gets ps_container_entries;
  charge_total ContainerEntries (sl_max_container_entries (sp_limits p)) entries 1 offset;;
  modify (set_container_entries (entries + 1)).

Definition enter_container (parent_depth offset : Z) : ParseM Z :=
  let limit := sl_max_container_depth (sp_limits p) in
  let error := SyntaxError_resource ContainerDepth limit parent_depth 1 (Some offset) in
  depth ← some_or (checked_add u16_max parent_depth 1) error;
  if limit <? depth then fail error
  else
    modify (observe_depth depth);;
    mret depth.

(** The growth of a full container of [length] elements; the new capacity. *)
Definition grow_container (length capacity element_size offset : Z) : ParseM Z :=
  target ← (if capacity =? 0 then mret 4
            else some_or (checked_mul usize_max capacity 2) (internal_at offset));
  requested ← some_or (checked_sub target capacity) (internal_at offset);
  requested_bytes ← some_or
    (count ← try_from u64_max requested; checked_mul u64_max count element_size)
    (internal_at offset);
  container_bytes ← gets ps_container_bytes;
  charge_total ContainerBytes (sl_max_container_bytes (sp_limits p)) container_bytes
    requested_bytes offset;;
  charge_retained requested_bytes offset;;
  s ← get;
  modify count_parser_reservation;;
  some_or (parser_reserve (ps_reservations s) element_size length capacity requested)
    (SyntaxError_resource Allocation (sl_max_container_entries (sp_limits p))
       (ps_container_entries s) requested_bytes (Some offset)).

(** [reserve_container_entry], for a container of [length] elements and
    [capacity]; the capacity after it. *)
Definition reserve_container_entry (length capacity size offset : Z) : ParseM Z :=
  element_size ← some_or (try_from u64_max size) (internal_at offset);
  capacity_after ← (if length =? capacity
                    then grow_container length capacity element_size offset
                    else mret capacity);
  added_capacity ← some_or (checked_sub capacity_after capacity) (internal_at offset);
  added_capacity ← some_or (try_from u64_max added_capacity) (internal_at offset);
  added_bytes ← some_or (checked_mul u64_max added_capacity element_size) (internal_at offset);
  container_bytes ← gets ps_container_bytes;
  total ← some_or (checked_add u64_max container_bytes added_bytes) (internal_at offset);
  charge_retained added_bytes offset;;
  modify (set_container_bytes total);;
  let limit := sl_max_container_bytes (sp_limits p) in
  if limit <? total
  then fail (SyntaxError_resource ContainerBytes limit (saturating_sub total added_bytes)
               added_bytes (Some offset))
  else mret capacity_after.

(** [allocate_owned]: the new vector is empty, its capacity is charged. *)
Definition allocate_owned (length offset : Z) : ParseM unit :=
  let limit := sl_max_owned_bytes (sp_limits p) in
  owned ← gets ps_owned_bytes;
  let refused := SyntaxError_resource Allocation limit owned length (Some offset) in
  charge_total OwnedBytes limit owned length offset;;
  charge_retained length offset;;
  count ← some_or (try_from usize_max length) refused;
  reservations ← gets ps_reservations;
  modify count_parser_reservation;;
  capacity ← some_or (parser_reserve reservations 1 0 0 count) refused;
  capacity ← some_or (try_from u64_max capacity) (internal_at offset);
  charge_total OwnedBytes limit owned capacity offset;;
  charge_retained capacity offset;;
  total ← some_or (checked_add u64_max owned capacity) (internal_at offset);
  modify (set_owned_bytes total).

Definition copy_owned (source : list Z) (offset : Z) : ParseM (list Z) :=
  length ← some_or (try_from u64_max (len source)) (internal_at offset);
  allocate_owned length offset;;
  mret source.

(** ** Polls *)

Definition need_more_or_failure {T} : SyntaxPoll T :=
  match try_from u64_max (len window) with
  | None => Failed (internal_at (input_base_offset (sp_input p)))
  | Some current_len =>
      match checked_add u64_max current_len 1 with
      | None => Failed (internal_at (absolute (length window)))
      | Some required_len =>
          if sl_max_input_bytes (sp_limits p) <? required_len then
            Failed (SyntaxError_resource InputBytes (sl_max_input_bytes (sp_limits p)) 0
                      required_len (Some (absolute (length window))))
          else match checked_add u64_max (input_base_offset (sp_input p)) required_len with
               | Some minimum_end => NeedMore minimum_end
               | None => Failed (internal_at (absolute (length window)))
               end
      end
  end.

Definition poll_failure {T} (failure : ParseFailure) (clean_end : bool) : SyntaxPoll T :=
  match failure with
  | End => if clean_end && negb may_continue then EndOfInput else need_more_or_failure
  | Incomplete final_code offset =>
      if may_continue then need_more_or_failure
      else Failed (SyntaxError_for_code final_code (Some offset))
  | ParseFailed error => Failed error
  end.

(** A public method: the poll of its body, or [None] when it panics. *)
Definition poll {T} (clean_end : bool) (m : ParseM T) (s : ParserState)
    : ParserState * option (SyntaxPoll T) :=
  match (begin_operation;; m) s with
  | (s', Ok value) => (s', Some (Ready value))
  | (s', Err (Rejected failure)) => (s', Some (poll_failure failure clean_end))
  | (s', Err Panicked) => (s', None)
  end.
End state.
