(* ===== verification/SyntaxLexer.v ===== *)
(** * The lexer ([pdf-rs/syntax/src/parser.rs])

    Trivia and tokens. A scan reads the window from its start index on: the
    loops recur on the bytes that remain, and [index] is the position of the
    first of them. Octets are written in decimal: 40 and 41 are parentheses, 47
    is the solidus, 60 and 62 are angle brackets, 91 and 93 square brackets. *)

From stdpp Require Import base list numbers option strings.
From S2P Require Import Prelude.
From S2P Require Import SourceTypes.
From S2P Require Import SyntaxTypes.
From S2P Require Import SyntaxState.

(** ** Character classes *)

Definition is_whitespace (byte : Z) : bool :=
  (byte =? 0) || (byte =? 9) || (byte =? 10) || (byte =? 12) || (byte =? 13) || (byte =? 32).

Definition is_delimiter (byte : Z) : bool :=
  is_whitespace byte
  || (byte =? 40) || (byte =? 41) || (byte =? 60) || (byte =? 62) || (byte =? 91)
  || (byte =? 93) || (byte =? 123) || (byte =? 125) || (byte =? 47) || (byte =? 37).

Definition is_ascii_digit (byte : Z) : bool := (48 <=? byte) && (byte <=? 57).

Definition is_number_start (byte : Z) : bool :=
  is_ascii_digit byte || (byte =? 43) || (byte =? 45) || (byte =? 46).

Definition is_octal_digit (byte : Z) : bool := (48 <=? byte) && (byte <=? 55).

Definition hex_value (byte : Z) : option Z :=
  if (48 <=? byte) && (byte <=? 57) then Some (byte - 48)
  else if (97 <=? byte) && (byte <=? 102) then Some (byte - 97 + 10)
  else if (65 <=? byte) && (byte <=? 70) then Some (byte - 65 + 10)
  else None.

(** ** Tokens *)

Inductive TokenKind :=
| ArrayOpen | ArrayClose | DictionaryOpen | DictionaryClose
| IntegerToken (value : Z) | RealToken (value : PdfReal) | NameToken (value : PdfName)
| StringToken (value : PdfString) | Keyword (bytes : list Z).

Record Token := {
  token_start : Z;
  token_end : Z;
  token_kind : TokenKind
}.

(** The owned bytes of names, strings and real numbers. *)
Definition owned_string (bytes : list Z) : string :=
  foldr (λ b rest, String (Ascii.ascii_of_nat (Z.to_nat b)) rest) EmptyString bytes.

(** [i64::MIN], [-positive] or [i64::try_from(magnitude)]. *)
Definition signed_value (negative : bool) (magnitude : Z) : option Z :=
  if negative then
    if magnitude =? i64_max + 1 then Some (- i64_max - 1)
    else positive ← try_from i64_max magnitude; Some (- positive)
  else try_from i64_max magnitude.

Section lexer.
Context `{ParserRuntime} (p : SyntaxParser).

Definition remaining_from (index : nat) : list Z := drop index (window p).

(** ** Trivia *)

(** The [while] on whitespace: the bytes that remain. *)
Fixpoint whitespace_loop (rest : list Z) : ParseM (list Z) :=
  match rest with
  | [] => mret []
  | byte :: more =>
      if is_whitespace byte then
        offset ← gets (position p);
        probe_iteration offset;;
        modify (λ s, move_cursor (S (ps_cursor s)) s);;
        whitespace_loop more
      else mret rest
  end.

(** The [while] in a comment that starts at [start]. *)
Fixpoint comment_loop (start : nat) (rest : list Z) : ParseM (list Z) :=
  match rest with
  | [] => mret []
  | byte :: more =>
      if (byte =? 13) || (byte =? 10) then mret rest
      else
        offset ← gets (position p);
        probe_iteration offset;;
        modify (λ s, move_cursor (S (ps_cursor s)) s);;
        cursor ← gets ps_cursor;
        comment_len ← some_or (try_from u64_max (Z.of_nat (cursor - start)))
          (internal_at (absolute p start));
        check_single_limit CommentBytes (sl_max_comment_bytes (sp_limits p)) comment_len
          (absolute p start);;
        comment_loop start more
  end.

Fixpoint trivia_loop (fuel : nat) (rest : list Z) : ParseM unit :=
  match fuel with
  | O => panic
  | S fuel =>
      offset ← gets (position p);
      probe_iteration offset;;
      rest ← whitespace_loop rest;
      match rest with
      | [] => mret tt
      | byte :: more =>
          if negb (byte =? 37) then mret tt
          else
            start ← gets ps_cursor;
            modify (move_cursor (S start));;
            rest ← comment_loop start more;
            cursor ← gets ps_cursor;
            if at_end p cursor then
              if may_continue p then incomplete UnexpectedEndOfInput (absolute p cursor)
              else mret tt
            else trivia_loop fuel rest
      end
  end.

Definition skip_trivia : ParseM unit :=
  cursor ← gets ps_cursor;
  let rest := remaining_from cursor in
  trivia_loop (S (length rest)) rest.

(** ** Regular tokens *)

(** The end of the maximal run of regular bytes. *)
Fixpoint regular_loop (start index : nat) (rest : list Z) : ParseM nat :=
  match rest with
  | [] => mret index
  | byte :: more =>
      if is_delimiter byte then mret index
      else
        probe_iteration (absolute p index);;
        check_token_len p start (S index);;
        regular_loop start (S index) more
  end.

Definition slice (start stop : nat) : list Z := take (stop - start) (remaining_from start).

(** The [while] on digits: how many, and what follows them. *)
Fixpoint digits_loop (offset : Z) (count : nat) (rest : list Z) : ParseM (nat * list Z) :=
  match rest with
  | [] => mret (count, [])
  | byte :: more =>
      if is_ascii_digit byte then
        probe_iteration offset;;
        digits_loop offset (S count) more
      else mret (count, rest)
  end.

Definition accumulate (magnitude digit : Z) : option Z :=
  value ← checked_mul u64_max magnitude 10; checked_add u64_max value (digit - 48).

Fixpoint magnitude_loop (offset magnitude : Z) (digits : list Z) : ParseM Z :=
  match digits with
  | [] => mret magnitude
  | digit :: more =>
      probe_iteration offset;;
      magnitude ← some_or (accumulate magnitude digit)
        (SyntaxError_for_code IntegerOutOfRange (Some offset));
      magnitude_loop offset magnitude more
  end.

(** The sign of a number, and what follows it. *)
Definition split_sign (raw : list Z) : bool * list Z :=
  match raw with
  | byte :: more => if byte =? 45 then (true, more)
                    else if byte =? 43 then (false, more) else (false, raw)
  | [] => (false, raw)
  end.

(** The optional fraction: whether there is a dot, its digits, what follows. *)
Definition parse_fraction (offset : Z) (rest : list Z) : ParseM (bool * nat * list Z) :=
  match rest with
  | byte :: more =>
      if byte =? 46 then
        '(count, rest) ← digits_loop offset 0 more;
        mret (true, count, rest)
      else mret (false, 0%nat, rest)
  | [] => mret (false, 0%nat, rest)
  end.

(** The optional exponent: whether there is one, and what follows it. *)
Definition parse_exponent (offset : Z) (rest : list Z) : ParseM (bool * list Z) :=
  match rest with
  | byte :: more =>
      if (byte =? 101) || (byte =? 69) then
        let digits := match more with
                      | sign :: after => if (sign =? 43) || (sign =? 45) then after else more
                      | [] => more
                      end in
        '(count, rest) ← digits_loop offset 0 digits;
        if Nat.eqb count 0 then fail_at InvalidNumber offset else mret (true, rest)
      else mret (false, rest)
  | [] => mret (false, rest)
  end.

Definition parse_number (raw : list Z) (offset : Z) : ParseM TokenKind :=
  let '(negative, unsigned) := split_sign raw in
  '(integer_digits, rest) ← digits_loop offset 0 unsigned;
  '(has_dot, fractional_digits, rest) ← parse_fraction offset rest;
  if Nat.eqb integer_digits 0 && Nat.eqb fractional_digits 0 then fail_at InvalidNumber offset
  else
    '(has_exponent, rest) ← parse_exponent offset rest;
    match rest with
    | _ :: _ => fail_at InvalidNumber offset
    | [] =>
        if has_dot || has_exponent then
          owned ← copy_owned p raw offset;
          mret (RealToken {| real_raw := owned_string owned;
                             real_notation := if (has_exponent : bool) then Exponent
                                              else Decimal |})
        else
          magnitude ← magnitude_loop offset 0 unsigned;
          value ← some_or (signed_value negative magnitude)
            (SyntaxError_for_code IntegerOutOfRange (Some offset));
          mret (IntegerToken value)
    end.

Definition scan_regular (start : nat) : ParseM Token :=
  stop ← regular_loop start start (remaining_from start);
  if Nat.eqb stop start then fail_at UnexpectedByte (absolute p start)
  else
    first ← byte_at p start;
    if at_end p stop && may_continue p then
      incomplete (if is_number_start first then InvalidNumber else UnexpectedEndOfInput)
        (absolute p stop)
    else
      let raw := slice start stop in
      kind ← (if is_number_start first then parse_number raw (absolute p start)
              else mret (Keyword raw));
      modify (move_cursor stop);;
      mret {| token_start := absolute p start; token_end := absolute p stop;
              token_kind := kind |}.

(** ** Integers probed ahead *)

(** The [while] on digits: the end, the magnitude, and whether it overflowed. *)
Fixpoint probe_digits (start index : nat) (magnitude : Z) (overflowed : bool) (rest : list Z)
    : ParseM (nat * Z * bool) :=
  match rest with
  | [] => mret (index, magnitude, overflowed)
  | byte :: more =>
      if is_ascii_digit byte then
        probe_iteration (absolute p index);;
        let '(magnitude, overflowed) :=
          match accumulate magnitude byte with
          | Some value => (value, overflowed)
          | None => (magnitude, true)
          end in
        check_token_len p start (S index);;
        probe_digits start (S index) magnitude overflowed more
      else mret (index, magnitude, overflowed)
  end.

(** The sign of the probed token and the index after it, unless the byte does
    not start an integer. *)
Definition probe_sign (start : nat) : option (bool * nat) :=
  byte ← window p !! start;
  if byte =? 45 then Some (true, S start)
  else if byte =? 43 then Some (false, S start)
  else if is_ascii_digit byte then Some (false, start) else None.

(** [probe_integer_token] after the sign, which ends at [index]. *)
Definition probe_unsigned (start : nat) (negative : bool) (index : nat) : ParseM (option Z) :=
  check_token_len p start index;;
  if at_end p index then
    if may_continue p then incomplete InvalidNumber (absolute p index) else mret None
  else
    byte ← byte_at p index;
    if negb (is_ascii_digit byte) then mret None
    else
      '(index, magnitude, overflowed) ← probe_digits start index 0 false (remaining_from index);
      terminated ← (if at_end p index then
                      if may_continue p then incomplete InvalidNumber (absolute p index)
                      else mret true
                    else byte ← byte_at p index; mret (is_delimiter byte));
      if negb (terminated : bool) then mret None
      else if (overflowed : bool) then mret None
      else match signed_value negative magnitude with
           | None => mret None
           | Some value =>
               charge_token p (absolute p start);;
               modify (move_cursor index);;
               mret (Some value)
           end.

Definition probe_integer_token : ParseM (option Z) :=
  start ← gets ps_cursor;
  match probe_sign start with
  | None => mret None
  | Some (negative, index) => probe_unsigned start negative index
  end.

(** ** Names *)

(** The end of a name and the length it decodes to. *)
Fixpoint name_loop (start index : nat) (decoded_len : Z) (rest : list Z) : ParseM (nat * Z) :=
  match rest with
  | [] => mret (index, decoded_len)
  | byte :: more =>
      if is_delimiter byte then mret (index, decoded_len)
      else
        probe_iteration (absolute p index);;
        let next stop continue :=
          check_token_len p start stop;;
          check_single_limit NameBytes (sl_max_name_bytes (sp_limits p)) (decoded_len + 1)
            (absolute p start);;
          continue in
        if byte =? 35 then
          match more with
          | high :: low :: more =>
              if bool_decide (hex_value high = None) || bool_decide (hex_value low = None)
              then fail_at InvalidNameEscape (absolute p index)
              else next (index + 3)%nat (name_loop start (index + 3) (decoded_len + 1) more)
          | _ => if may_continue p then incomplete InvalidNameEscape (absolute p index)
                 else fail_at InvalidNameEscape (absolute p index)
          end
        else next (S index) (name_loop start (S index) (decoded_len + 1) more)
  end.

(** The decoded bytes of a scanned name; [source] is the index of its next byte. *)
Fixpoint name_decode (source : nat) (rest : list Z) : ParseM (list Z) :=
  match rest with
  | [] => mret []
  | byte :: more =>
      probe_iteration (absolute p source);;
      if byte =? 35 then
        match more with
        | high :: low :: more =>
            high ← ok_or (hex_value high) Panicked;
            low ← ok_or (hex_value low) Panicked;
            decoded ← name_decode (source + 3) more;
            mret (Z.lor (Z.shiftl high 4) low :: decoded)
        | _ => panic
        end
      else
        decoded ← name_decode (S source) more;
        mret (byte :: decoded)
  end.

Definition scan_name (start : nat) : ParseM Token :=
  '(index, decoded_len) ← name_loop start (S start) 0 (remaining_from (S start));
  if at_end p index && may_continue p then
    incomplete UnexpectedEndOfInput (absolute p index)
  else
    check_token_len p start index;;
    allocate_owned p decoded_len (absolute p start);;
    decoded ← name_decode (S start) (slice (S start) index);
    modify (move_cursor index);;
    mret {| token_start := absolute p start; token_end := absolute p index;
            token_kind := NameToken (owned_string decoded) |}.

(** ** Literal strings *)

(** The end of the string after its closing parenthesis, and the length it
    decodes to. [nesting] counts the open parentheses. *)
Fixpoint literal_loop (start index : nat) (nesting decoded_len : Z) (rest : list Z)
    : ParseM (nat * Z) :=
  probe_iteration (absolute p index);;
  match rest with
  | [] => incomplete UnterminatedLiteralString (absolute p index)
  | byte :: more =>
      check_string_source p start (S index);;
      let limit := sl_max_container_depth (sp_limits p) in
      (** The end of an iteration: the check of the decoded length. *)
      let next decoded_len continue := check_decoded p decoded_len start;; continue in
      if byte =? 40 then
        attempted ← some_or (checked_add u16_max nesting 1)
          (SyntaxError_resource ContainerDepth limit nesting 1 (Some (absolute p index)));
        if limit <? attempted
        then fail (SyntaxError_resource ContainerDepth limit (attempted - 1) 1
                     (Some (absolute p index)))
        else next (decoded_len + 1)
               (literal_loop start (S index) attempted (decoded_len + 1) more)
      else if byte =? 41 then
        if nesting - 1 =? 0 then mret (S index, decoded_len)
        else next (decoded_len + 1)
               (literal_loop start (S index) (nesting - 1) (decoded_len + 1) more)
      else if byte =? 92 then
        match more with
        | [] => incomplete UnterminatedLiteralString (absolute p (S index))
        | escaped :: more =>
            check_string_source p start (index + 2);;
            let escape stop decoded_len continue :=
              check_string_source p start stop;; next decoded_len continue in
            if escaped =? 13 then
              match more with
              | byte :: more' =>
                  if byte =? 10 then
                    check_string_source p start (index + 3);;
                    escape (index + 3)%nat decoded_len
                      (literal_loop start (index + 3) nesting decoded_len more')
                  else escape (index + 2)%nat decoded_len
                         (literal_loop start (index + 2) nesting decoded_len more)
              | [] => escape (index + 2)%nat decoded_len
                        (literal_loop start (index + 2) nesting decoded_len more)
              end
            else if escaped =? 10 then
              escape (index + 2)%nat decoded_len
                (literal_loop start (index + 2) nesting decoded_len more)
            else if is_octal_digit escaped then
              match more with
              | second :: more' =>
                  if is_octal_digit second then
                    match more' with
                    | third :: more'' =>
                        if is_octal_digit third then
                          escape (index + 4)%nat (decoded_len + 1)
                            (literal_loop start (index + 4) nesting (decoded_len + 1) more'')
                        else escape (index + 3)%nat (decoded_len + 1)
                               (literal_loop start (index + 3) nesting (decoded_len + 1) more')
                    | [] => escape (index + 3)%nat (decoded_len + 1)
                              (literal_loop start (index + 3) nesting (decoded_len + 1) more')
                    end
                  else escape (index + 2)%nat (decoded_len + 1)
                         (literal_loop start (index + 2) nesting (decoded_len + 1) more)
              | [] => escape (index + 2)%nat (decoded_len + 1)
                        (literal_loop start (index + 2) nesting (decoded_len + 1) more)
              end
            else escape (index + 2)%nat (decoded_len + 1)
                   (literal_loop start (index + 2) nesting (decoded_len + 1) more)
        end
      else if byte =? 13 then
        match more with
        | following :: more' =>
            if following =? 10 then
              next (decoded_len + 1)
                (literal_loop start (index + 2) nesting (decoded_len + 1) more')
            else next (decoded_len + 1)
                   (literal_loop start (S index) nesting (decoded_len + 1) more)
        | [] => next (decoded_len + 1)
                  (literal_loop start (S index) nesting (decoded_len + 1) more)
        end
      else next (decoded_len + 1)
             (literal_loop start (S index) nesting (decoded_len + 1) more)
  end.

(** One digit of an octal escape. *)
Definition octal_step (value digit : Z) : Z := Z.lor (Z.shiftl value 3) (digit - 48).

(** The byte a simple escape stands for. *)
Definition simple_escape (escaped : Z) : Z :=
  if escaped =? 110 then 10
  else if escaped =? 114 then 13
  else if escaped =? 116 then 9
  else if escaped =? 98 then 8
  else if escaped =? 102 then 12
  else escaped.

(** The decoded bytes; [source] is the index of the next byte. *)
Fixpoint literal_decode (source stop : nat) (depth : Z) (rest : list Z) : ParseM (list Z) :=
  if negb (Nat.ltb source stop) then mret []
  else
    probe_iteration (absolute p source);;
    match rest with
    | [] => panic
    | byte :: more =>
        (** [decoded.push(b)], and on. *)
        let push b continue := decoded ← continue; mret (b :: decoded) in
        if byte =? 40 then push 40 (literal_decode (S source) stop (depth + 1) more)
        else if byte =? 41 then
          if depth - 1 =? 0 then mret []
          else push 41 (literal_decode (S source) stop (depth - 1) more)
        else if byte =? 92 then
          match more with
          | [] => panic
          | escaped :: more =>
              if escaped =? 13 then
                match more with
                | following :: more' =>
                    if following =? 10 then literal_decode (source + 3) stop depth more'
                    else literal_decode (source + 2) stop depth more
                | [] => literal_decode (source + 2) stop depth more
                end
              else if escaped =? 10 then literal_decode (source + 2) stop depth more
              else if is_octal_digit escaped then
                let first := octal_step 0 escaped in
                match more with
                | second :: more' =>
                    if is_octal_digit second then
                      match more' with
                      | third :: more'' =>
                          if is_octal_digit third then
                            push (Z.land (octal_step (octal_step first second) third) 255)
                              (literal_decode (source + 4) stop depth more'')
                          else push (Z.land (octal_step first second) 255)
                                 (literal_decode (source + 3) stop depth more')
                      | [] => push (Z.land (octal_step first second) 255)
                                (literal_decode (source + 3) stop depth more')
                      end
                    else push (Z.land first 255) (literal_decode (source + 2) stop depth more)
                | [] => push (Z.land first 255) (literal_decode (source + 2) stop depth more)
                end
              else push (simple_escape escaped) (literal_decode (source + 2) stop depth more)
          end
        else if byte =? 13 then
          match more with
          | following :: more' =>
              if following =? 10 then push 10 (literal_decode (source + 2) stop depth more')
              else push 10 (literal_decode (S source) stop depth more)
          | [] => push 10 (literal_decode (S source) stop depth more)
          end
        else push byte (literal_decode (S source) stop depth more)
    end.

Definition scan_literal_string (start : nat) : ParseM Token :=
  '(stop, decoded_len) ← literal_loop start (S start) 1 0 (remaining_from (S start));
  check_decoded p decoded_len start;;
  allocate_owned p decoded_len (absolute p start);;
  decoded ← literal_decode (S start) stop 1 (remaining_from (S start));
  modify (move_cursor stop);;
  mret {| token_start := absolute p start; token_end := absolute p stop;
          token_kind := StringToken {| string_bytes := owned_string decoded;
                                       string_kind := Literal |} |}.

(** ** Hexadecimal strings *)

(** The end of the string, and its number of digits. *)
Fixpoint hex_loop (start index : nat) (nibbles : Z) (rest : list Z) : ParseM (nat * Z) :=
  probe_iteration (absolute p index);;
  match rest with
  | [] => incomplete InvalidHexString (absolute p index)
  | byte :: more =>
      check_string_source p start (S index);;
      if byte =? 62 then mret (S index, nibbles)
      else if is_whitespace byte then hex_loop start (S index) nibbles more
      else if bool_decide (hex_value byte = None)
      then fail_at InvalidHexString (absolute p index)
      else hex_loop start (S index) (nibbles + 1) more
  end.

Fixpoint hex_decode (index : nat) (high : option Z) (rest : list Z) : ParseM (list Z) :=
  match rest with
  | [] => mret (match high with Some high => [Z.shiftl high 4] | None => [] end)
  | byte :: more =>
      probe_iteration (absolute p index);;
      if is_whitespace byte then hex_decode (S index) high more
      else
        nibble ← ok_or (hex_value byte) Panicked;
        match high with
        | Some high =>
            decoded ← hex_decode (S index) None more;
            mret (Z.lor (Z.shiftl high 4) nibble :: decoded)
        | None => hex_decode (S index) (Some nibble) more
        end
  end.

Definition scan_hex_string (start : nat) : ParseM Token :=
  '(stop, nibbles) ← hex_loop start (S start) 0 (remaining_from (S start));
  let decoded_len := (nibbles + 1) / 2 in
  check_decoded p decoded_len start;;
  allocate_owned p decoded_len (absolute p start);;
  decoded ← hex_decode (S start) None (slice (S start) (stop - 1));
  modify (move_cursor stop);;
  mret {| token_start := absolute p start; token_end := absolute p stop;
          token_kind := StringToken {| string_bytes := owned_string decoded;
                                       string_kind := Hexadecimal |} |}.

(** ** The next token *)

Definition fixed_token (start length : nat) (kind : TokenKind) : ParseM Token :=
  check_token_len p start (start + length);;
  modify (move_cursor (start + length));;
  mret {| token_start := absolute p start; token_end := absolute p (start + length);
          token_kind := kind |}.

Definition next_token : ParseM Token :=
  skip_trivia;;
  start ← gets ps_cursor;
  if at_end p start then throw (Rejected End)
  else
    charge_token p (absolute p start);;
    byte ← byte_at p start;
    if byte =? 91 then fixed_token start 1 ArrayOpen
    else if byte =? 93 then fixed_token start 1 ArrayClose
    else if byte =? 40 then scan_literal_string start
    else if byte =? 47 then scan_name start
    else if byte =? 60 then
      if at_end p (S start) then
        if may_continue p then incomplete InvalidHexString (absolute p (S start))
        else scan_hex_string start
      else
        second ← byte_at p (S start);
        if second =? 60 then fixed_token start 2 DictionaryOpen else scan_hex_string start
    else if byte =? 62 then
      if at_end p (S start) && may_continue p
      then incomplete UnexpectedByte (absolute p (S start))
      else if bool_decide (window p !! S start = Some 62)
      then fixed_token start 2 DictionaryClose
      else fail_at UnexpectedByte (absolute p start)
    else if (byte =? 41) || (byte =? 123) || (byte =? 125)
    then fail_at UnexpectedByte (absolute p start)
    else scan_regular start.

Definition next_required_token (final_code : SyntaxErrorCode) : ParseM Token :=
  λ s, match next_token s with
       | (s', Err (Rejected End)) =>
           (s', Err (Rejected (Incomplete final_code (absolute p (length (window p))))))
       | outcome => outcome
       end.
End lexer.
