(* ===== verification/SyntaxParser.v ===== *)
(** * The strict direct-object parser ([pdf-rs/syntax/src/parser.rs])

    Headers, keywords, stream boundaries, raw bytes, and direct objects with
    their nested containers and indirect references. The recursion of objects
    and containers is on fuel: two units per byte of the window are enough. *)

From stdpp Require Import base list numbers option strings.
From S2P Require Import Prelude.
From S2P Require Import SourceTypes.
From S2P Require Import SyntaxTypes.
From S2P Require Import SyntaxState.
From S2P Require Import SyntaxLexer.

(** The octets of a byte string literal. *)
Fixpoint octets (s : string) : list Z :=
  match s with
  | EmptyString => []
  | String c s => Z.of_nat (Ascii.nat_of_ascii c) :: octets s
  end.

Section parser.
Context `{ParserRuntime} (p : SyntaxParser).

Definition from_bounds (start stop : Z) : ParseM ByteSpan :=
  lift_syntax (ByteSpan_from_bounds start stop).

(** ** Headers *)

Definition parse_header_inner : ParseM (Located PdfHeader) :=
  start ← gets ps_cursor;
  let offset := absolute p start in
  charge_token p offset;;
  check_single_limit TokenBytes (sl_max_token_bytes (sp_limits p)) 8 offset;;
  let available := remaining_from p start in
  let prefix := octets "%PDF-" in
  let prefix_len := Nat.min (length available) (length prefix) in
  if bool_decide (take prefix_len available ≠ take prefix_len prefix)
  then fail_at InvalidHeader offset
  else if Nat.ltb (length available) 8 then incomplete InvalidHeader offset
  else
    major ← ok_or (available !! 5%nat) Panicked;
    dot ← ok_or (available !! 6%nat) Panicked;
    minor ← ok_or (available !! 7%nat) Panicked;
    let supported :=
      (dot =? 46) && (((major =? 49) && ((48 <=? minor) && (minor <=? 55)))
                      || ((major =? 50) && (minor =? 48))) in
    if negb supported then fail_at InvalidHeader offset
    else
      modify (move_cursor (start + 8));;
      span ← from_bounds offset (absolute p (start + 8));
      mret {| located_source := input_source (sp_input p); located_span := span;
              located_value := {| header_major := major - 48; header_minor := minor - 48 |} |}.

(** ** Keywords *)

Definition parse_keyword_inner : ParseM RawBytes :=
  skip_trivia p;;
  start ← gets ps_cursor;
  if at_end p start then incomplete UnexpectedEndOfInput (absolute p (length (window p)))
  else
    charge_token p (absolute p start);;
    first ← byte_at p start;
    if is_delimiter first || is_number_start first
    then fail_at UnexpectedToken (absolute p start)
    else
      stop ← regular_loop p start start (remaining_from p start);
      if at_end p stop && may_continue p
      then incomplete UnexpectedEndOfInput (absolute p stop)
      else
        span ← from_bounds (absolute p start) (absolute p stop);
        modify (move_cursor stop);;
        mret {| raw_source := input_source (sp_input p); raw_span := span;
                raw_bytes := slice p start stop |}.

(** ** Direct objects *)

Definition located_object (start stop : Z) (value : SyntaxObject)
    : ParseM (Located SyntaxObject) :=
  span ← from_bounds start stop;
  mret {| located_source := input_source (sp_input p); located_span := span;
          located_value := value |}.

(** The integer alone, with the cursor back after it. *)
Definition plain_integer (first : Token) (first_value : Z) (checkpoint : nat)
    : ParseM (Located SyntaxObject) :=
  modify (move_cursor checkpoint);;
  located_object (token_start first) (token_end first) (Integer first_value).

(** The third token of a reference, and the validation of the reference. *)
Definition finish_reference (first : Token) (first_value second_value : Z)
    : ParseM (Located SyntaxObject) :=
  third ← next_token p;
  if negb (match token_kind third with
           | Keyword bytes => bool_decide (bytes = octets "R")
           | _ => false
           end)
  then fail_at InternalState (token_start third)
  else
    match (value ← try_from u32_max first_value; if value =? 0 then None else Some value),
          try_from u16_max second_value with
    | Some object_number, Some generation =>
        located_object (token_start first) (token_end third)
          (Reference {| object_number := object_number; object_generation := generation |})
    | _, _ => fail_at InvalidReference (token_start first)
    end.

Definition integer_or_reference (first : Token) (first_value : Z)
    : ParseM (Located SyntaxObject) :=
  checkpoint ← gets ps_cursor;
  skip_trivia p;;
  cursor ← gets ps_cursor;
  if at_end p cursor then
    if may_continue p then incomplete UnexpectedEndOfInput (absolute p cursor)
    else plain_integer first first_value checkpoint
  else
    byte ← byte_at p cursor;
    if negb (is_number_start byte) then plain_integer first first_value checkpoint
    else
      second ← probe_integer_token p;
      match second with
      | None => plain_integer first first_value checkpoint
      | Some second_value =>
          skip_trivia p;;
          cursor ← gets ps_cursor;
          if at_end p cursor then
            if may_continue p then incomplete UnexpectedEndOfInput (absolute p cursor)
            else plain_integer first first_value checkpoint
          else
            byte ← byte_at p cursor;
            if negb (byte =? 82) then plain_integer first first_value checkpoint
            else
              let after_r := S cursor in
              if at_end p after_r && may_continue p
              then incomplete UnexpectedEndOfInput (absolute p after_r)
              else if negb (from_option is_delimiter true (window p !! after_r))
              then plain_integer first first_value checkpoint
              else finish_reference first first_value second_value
      end.

(** A scalar, a container or a stray delimiter, from its first token. *)
Fixpoint object_from_token (fuel : nat) (token : Token) (depth : Z)
    : ParseM (Located SyntaxObject) :=
  match fuel with
  | O => panic
  | S fuel =>
      let scalar value := located_object (token_start token) (token_end token) value in
      match token_kind token with
      | IntegerToken value => integer_or_reference token value
      | RealToken value => scalar (Real value)
      | NameToken value => scalar (Name value)
      | StringToken value => scalar (Text value)
      | Keyword bytes =>
          if bool_decide (bytes = octets "null") then scalar Null
          else if bool_decide (bytes = octets "true") then scalar (Boolean true)
          else if bool_decide (bytes = octets "false") then scalar (Boolean false)
          else fail_at UnexpectedToken (token_start token)
      | ArrayOpen =>
          depth ← enter_container p depth (token_start token);
          array_loop fuel token depth [] 0
      | DictionaryOpen =>
          depth ← enter_container p depth (token_start token);
          dictionary_loop fuel token depth [] 0
      | ArrayClose | DictionaryClose => fail_at MismatchedDelimiter (token_start token)
      end
  end

(** The [loop] of [parse_array]: the values so far and the capacity of their
    vector. *)
with array_loop (fuel : nat) (open : Token) (depth : Z) (values : PdfArray) (capacity : Z)
    : ParseM (Located SyntaxObject) :=
  match fuel with
  | O => panic
  | S fuel =>
      offset ← gets (position p);
      probe_iteration offset;;
      skip_trivia p;;
      cursor ← gets ps_cursor;
      if at_end p cursor then incomplete UnexpectedEndOfInput (absolute p cursor)
      else
        byte ← byte_at p cursor;
        if byte =? 93 then
          close ← next_token p;
          located_object (token_start open) (token_end close) (Array values)
        else
          let item_offset := absolute p cursor in
          charge_container_entry p item_offset;;
          capacity ← reserve_container_entry p (len values) capacity size_of_located_object
            item_offset;
          token ← next_required_token p UnexpectedEndOfInput;
          value ← object_from_token fuel token depth;
          array_loop fuel open depth (values ++ [value]) capacity
  end

(** The [loop] of [parse_dictionary]. *)
with dictionary_loop (fuel : nat) (open : Token) (depth : Z) (entries : PdfDictionary)
    (capacity : Z) : ParseM (Located SyntaxObject) :=
  match fuel with
  | O => panic
  | S fuel =>
      offset ← gets (position p);
      probe_iteration offset;;
      skip_trivia p;;
      cursor ← gets ps_cursor;
      if at_end p cursor then incomplete UnexpectedEndOfInput (absolute p cursor)
      else if bool_decide (take 2 (remaining_from p cursor) = [62; 62]) then
        close ← next_token p;
        located_object (token_start open) (token_end close) (Dictionary entries)
      else
        byte ← byte_at p cursor;
        if (byte =? 62) && at_end p (S cursor) && may_continue p
        then incomplete UnexpectedByte (absolute p (S cursor))
        else
          let entry_offset := absolute p cursor in
          charge_container_entry p entry_offset;;
          capacity ← reserve_container_entry p (len entries) capacity size_of_dictionary_entry
            entry_offset;
          key_token ← next_required_token p UnexpectedEndOfInput;
          match token_kind key_token with
          | ArrayClose => fail_at MismatchedDelimiter (token_start key_token)
          | NameToken key =>
              key_span ← from_bounds (token_start key_token) (token_end key_token);
              let located_key := {| located_source := input_source (sp_input p);
                                    located_span := key_span; located_value := key |} in
              token ← next_required_token p UnexpectedEndOfInput;
              value ← object_from_token fuel token depth;
              dictionary_loop fuel open depth
                (entries ++ [{| entry_key := located_key; entry_value := value |}]) capacity
          | _ => fail_at UnexpectedToken (token_start key_token)
          end
  end.

(** Each byte read costs at most two calls. *)
Definition object_fuel : nat := 2 * length (window p) + 2.

Definition parse_object_at (depth : Z) : ParseM (Located SyntaxObject) :=
  token ← next_token p;
  object_from_token object_fuel token depth.

(** ** Stream boundaries and raw bytes *)

Definition consume_stream_line_ending_inner : ParseM ByteSpan :=
  start ← gets ps_cursor;
  stop ← match window p !! start with
         | Some byte =>
             if byte =? 10 then mret (S start)
             else if byte =? 13 then
               match window p !! S start with
               | Some byte => if byte =? 10 then mret (start + 2)%nat
                              else fail_at InvalidStreamBoundary (absolute p start)
               | None => if may_continue p
                         then incomplete InvalidStreamBoundary (absolute p (S start))
                         else fail_at InvalidStreamBoundary (absolute p start)
               end
             else fail_at InvalidStreamBoundary (absolute p start)
         | None => if may_continue p then incomplete InvalidStreamBoundary (absolute p start)
                   else fail_at InvalidStreamBoundary (absolute p start)
         end;
  modify (move_cursor stop);;
  from_bounds (absolute p start) (absolute p stop).

(** [take_raw_bytes], after its [begin_operation]: it polls by itself. *)
Definition take_raw_poll (length_ : Z) (s : ParserState) : ParserState * option (SyntaxPoll RawBytes) :=
  let start := ps_cursor s in
  let limit := sl_max_input_bytes (sp_limits p) in
  let refuse attempted :=
    (s, Some (Failed (SyntaxError_resource InputBytes limit 0 attempted (Some (position p s))))) in
  let broken := (s, Some (Failed (internal_at (position p s)))) in
  match try_from u64_max (Z.of_nat start) with
  | None => broken
  | Some start_u64 =>
      match checked_add u64_max start_u64 length_ with
      | None => refuse u64_max
      | Some required_relative_end =>
          if limit <? required_relative_end then refuse required_relative_end
          else match try_from usize_max length_ with
          | None => refuse length_
          | Some length_usize =>
              match checked_add usize_max (Z.of_nat start) length_usize with
              | None => broken
              | Some stop =>
                  if len (window p) <? stop then
                    if may_continue p then
                      match checked_add u64_max (position p s) length_ with
                      | None => broken
                      | Some minimum_end => (s, Some (NeedMore minimum_end))
                      end
                    else (s, Some (Failed (SyntaxError_for_code UnexpectedEndOfInput
                                             (Some (absolute p (length (window p)))))))
                  else
                    let stop := Z.to_nat stop in
                    match ByteSpan_from_bounds (absolute p start) (absolute p stop) with
                    | Err error => (s, Some (Failed error))
                    | Ok span =>
                        (move_cursor stop s,
                         Some (Ready {| raw_source := input_source (sp_input p);
                                        raw_span := span; raw_bytes := slice p start stop |}))
                    end
              end
          end
      end
  end.

(** ** The public methods *)

Definition parse_header : ParserState → ParserState * option (SyntaxPoll (Located PdfHeader)) :=
  poll p false parse_header_inner.

Definition parse_object : ParserState → ParserState * option (SyntaxPoll (Located SyntaxObject)) :=
  poll p true (parse_object_at 0).

Definition parse_keyword : ParserState → ParserState * option (SyntaxPoll RawBytes) :=
  poll p false parse_keyword_inner.

Definition expect_keyword (expected : list Z)
    : ParserState → ParserState * option (SyntaxPoll ByteSpan) :=
  poll p false
    (keyword ← parse_keyword_inner;
     if bool_decide (raw_bytes keyword = expected) then mret (raw_span keyword)
     else fail_at UnexpectedToken (span_start (raw_span keyword))).

Definition consume_stream_line_ending : ParserState → ParserState * option (SyntaxPoll ByteSpan) :=
  poll p false consume_stream_line_ending_inner.

Definition take_raw_bytes (length_ : Z) (s : ParserState)
    : ParserState * option (SyntaxPoll RawBytes) :=
  match begin_operation p s with
  | (s', Ok _) => take_raw_poll length_ s'
  | (s', Err (Rejected failure)) => (s', Some (poll_failure p failure false))
  | (s', Err Panicked) => (s', None)
  end.

(** [remaining]. *)
Definition remaining (s : ParserState) : Z := len (window p) - Z.of_nat (ps_cursor s).
End parser.
