(* ===== verification/SyntaxRules.v ===== *)
(** * Rules for runs of a syntax parser

    [parses F m s Q]: from [s], the method [m] ends in a state within the
    limits with a value in [Q], or fails with a failure in [F]; it never
    panics. *)

From stdpp Require Import base list numbers option strings.
From S2P Require Import Prelude.
From S2P Require Import SourceTypes.
From S2P Require Import SyntaxTypes.
From S2P Require Import SyntaxState.

(** Limits that [SyntaxLimits_validate] accepts. *)
Definition syntax_limits_ok (l : SyntaxLimits) : Prop :=
  0 < sl_max_input_bytes l ≤ SYNTAX_MAX_INPUT_BYTES ∧
  0 < sl_max_token_bytes l ≤ SYNTAX_MAX_TOKEN_BYTES ∧
  0 < sl_max_comment_bytes l ≤ SYNTAX_MAX_COMMENT_BYTES ∧
  0 < sl_max_name_bytes l ≤ SYNTAX_MAX_NAME_BYTES ∧
  0 < sl_max_string_source_bytes l ≤ SYNTAX_MAX_STRING_BYTES ∧
  0 < sl_max_string_decoded_bytes l ≤ SYNTAX_MAX_STRING_BYTES ∧
  0 < sl_max_owned_bytes l ≤ SYNTAX_MAX_OWNED_BYTES ∧
  0 < sl_max_total_tokens l ≤ SYNTAX_MAX_TOKENS ∧
  0 < sl_max_container_entries l ≤ SYNTAX_MAX_CONTAINER_ENTRIES ∧
  0 < sl_max_container_bytes l ≤ SYNTAX_MAX_CONTAINER_BYTES ∧
  0 < sl_max_container_depth l ≤ SYNTAX_MAX_CONTAINER_DEPTH.

(** A parser [SyntaxParser_new] returns, on a window [SyntaxInput_new] accepts. *)
Record parser_ok (p : SyntaxParser) : Prop := {
  po_base : 0 ≤ input_base_offset (sp_input p);
  po_end : input_base_offset (sp_input p) + len (window p) ≤ u64_max;
  po_input : len (window p) ≤ sl_max_input_bytes (sp_limits p);
  po_limits : syntax_limits_ok (sp_limits p);
  po_retained : from_option (λ cap, 0 ≤ cap ≤ u64_max) True (sp_max_retained_bytes p)
}.

(** The counters within the limits; [container] bounds the container bytes,
    which a refused growth may leave above their limit. *)
Record work_ok (p : SyntaxParser) (container : Z) (s : ParserState) : Prop := {
  wo_cursor : (ps_cursor s ≤ length (window p))%nat;
  wo_tokens : 0 ≤ ps_tokens s ≤ sl_max_total_tokens (sp_limits p);
  wo_owned : 0 ≤ ps_owned_bytes s ≤ sl_max_owned_bytes (sp_limits p);
  wo_container : 0 ≤ ps_container_bytes s ≤ container;
  wo_entries : 0 ≤ ps_container_entries s ≤ sl_max_container_entries (sp_limits p);
  wo_depth : 0 ≤ ps_max_depth s ≤ sl_max_container_depth (sp_limits p);
  wo_retained : from_option (λ cap, ps_owned_bytes s + ps_container_bytes s ≤ cap) True
                  (sp_max_retained_bytes p)
}.

Definition state_ok (p : SyntaxParser) : ParserState → Prop :=
  work_ok p (sl_max_container_bytes (sp_limits p)).
Definition stopped_ok (p : SyntaxParser) : ParserState → Prop := work_ok p u64_max.

(** An offset in the window, or at its end. *)
Definition offset_ok (p : SyntaxParser) (offset : Z) : Prop :=
  input_base_offset (sp_input p) ≤ offset ≤ input_base_offset (sp_input p) + len (window p).

(** The allocator refused to add [additional] elements of [size] bytes to a full
    vector of [length] elements, a request that the limits admit and whose bytes are
    [attempted]. *)
Definition allocator_refused `{ParserRuntime} (attempted : Z) : Prop :=
  ∃ k size length additional,
    parser_reserve k size length length additional = None ∧ attempted = additional * size ∧
    0 ≤ size ≤ 1024 ∧ 0 ≤ length ≤ SYNTAX_MAX_INPUT_BYTES ∧ 0 ≤ additional ≤ u32_max.

(** An answer of the cancellation probe, a limit that the work reported with it would
    exceed, or a refusal of the allocator to give what is reported. *)
Definition refusal `{ParserRuntime} (e : SyntaxError) : Prop :=
  (error_code e = Cancelled ∧ ∃ k, parser_cancelled k = true) ∨
  (error_code e = ResourceLimit ∧ ∃ l, error_limit e = Some l ∧
     (limit_limit l < limit_consumed l + limit_attempted l ∨
      limit_kind l = Allocation ∧ allocator_refused (limit_attempted l))).

(** A failure that depends on the limits, the allocator or the probe. *)
Definition limited `{ParserRuntime} (p : SyntaxParser) (f : ParseFailure) : Prop :=
  ∃ e o, f = ParseFailed e ∧ refusal e ∧ error_category e ≠ CategorySyntax ∧
    error_offset e = Some o ∧ offset_ok p o.

Definition parses {A} (p : SyntaxParser) (F : ParseFailure → Prop) (m : ParseM A)
    (s : ParserState) (Q : ParserState → A → Prop) : Prop :=
  match m s with
  | (s', Ok a) => state_ok p s' ∧ Q s' a
  | (s', Err (Rejected f)) => stopped_ok p s' ∧ F f
  | (_, Err Panicked) => False
  end.

Lemma syntax_limits_u64 l :
  syntax_limits_ok l →
  sl_max_input_bytes l < u32_max ∧ sl_max_token_bytes l < u32_max ∧
  sl_max_owned_bytes l < u32_max ∧ sl_max_total_tokens l < u32_max ∧
  sl_max_container_entries l < u32_max ∧ sl_max_container_bytes l < u32_max ∧
  sl_max_container_depth l < u16_max.
Proof.
  unfold syntax_limits_ok, SYNTAX_MAX_INPUT_BYTES, SYNTAX_MAX_TOKEN_BYTES,
    SYNTAX_MAX_OWNED_BYTES, SYNTAX_MAX_TOKENS, SYNTAX_MAX_CONTAINER_ENTRIES,
    SYNTAX_MAX_CONTAINER_BYTES, SYNTAX_MAX_CONTAINER_DEPTH, u32_max, u16_max. lia.
Qed.

(** Facts about the limits of a parser, for arithmetic. *)
Ltac parser_facts Hp :=
  pose proof (po_base _ Hp); pose proof (po_end _ Hp); pose proof (po_input _ Hp);
  pose proof (po_limits _ Hp) as (?&?&?&?&?&?&?&?&?&?&?);
  pose proof (syntax_limits_u64 _ (po_limits _ Hp)) as (?&?&?&?&?&?&?);
  pose proof usize_max_cases;
  assert (u16_max = 65535) by reflexivity; assert (u32_max = 4294967295) by reflexivity;
  assert (u64_max = 18446744073709551615) by reflexivity;
  assert (i64_max = 9223372036854775807) by reflexivity.

Section rules.
Context `{ParserRuntime} (p : SyntaxParser) (F : ParseFailure → Prop).
Hypothesis Hp : parser_ok p.
Hypothesis HF : ∀ f, limited p f → F f.
Implicit Types s : ParserState.

Lemma work_weaken c c' s : work_ok p c s → c ≤ c' → work_ok p c' s.
Proof. intros [] Hc. split; try done. lia. Qed.

Lemma state_stopped s : state_ok p s → stopped_ok p s.
Proof. intros Hs. eapply work_weaken; [exact Hs|]. parser_facts Hp. lia. Qed.

(** The probe and the allocator count, but charge nothing. *)
Definition same_work s s' : Prop :=
  ps_cursor s' = ps_cursor s ∧ ps_tokens s' = ps_tokens s ∧
  ps_owned_bytes s' = ps_owned_bytes s ∧ ps_container_bytes s' = ps_container_bytes s ∧
  ps_container_entries s' = ps_container_entries s ∧ ps_max_depth s' = ps_max_depth s.

Lemma same_work_ok c s s' : same_work s s' → work_ok p c s → work_ok p c s'.
Proof.
  intros (Hc&Ht&Ho&Hb&He&Hd) []. split; by rewrite ?Hc, ?Ht, ?Ho, ?Hb, ?He, ?Hd.
Qed.

Lemma absolute_ok index : (index ≤ length (window p))%nat → offset_ok p (absolute p index).
Proof. unfold offset_ok, absolute. lia. Qed.

Lemma parses_ret {A} (a : A) s Q : state_ok p s → Q s a → parses p F (mret a) s Q.
Proof. by intros. Qed.

Lemma parses_weaken {A} (m : ParseM A) s (Q Q' : ParserState → A → Prop) :
  parses p F m s Q → (∀ s' a, state_ok p s' → Q s' a → Q' s' a) → parses p F m s Q'.
Proof.
  unfold parses. intros Hm HQ. destruct (m s) as [s' [a|[f|]]]; try done.
  destruct Hm. split; [done|by apply HQ].
Qed.

Lemma parses_bind {A B} (m : ParseM A) (f : A → ParseM B) s Q R :
  parses p F m s Q → (∀ s' a, state_ok p s' → Q s' a → parses p F (f a) s' R) →
  parses p F (m ≫= f) s R.
Proof.
  unfold parses. intros Hm Hf. unfold mbind, M_bind.
  destruct (m s) as [s' [a|[e|]]]; try done. destruct Hm as [Hs Hq]. by apply Hf.
Qed.

Lemma parses_gets {A B} (g : ParserState → A) (f : A → ParseM B) s Q :
  parses p F (f (g s)) s Q → parses p F (gets g ≫= f) s Q.
Proof. done. Qed.

Lemma parses_get {B} (f : ParserState → ParseM B) s Q :
  parses p F (f s) s Q → parses p F (get ≫= f) s Q.
Proof. done. Qed.

Lemma parses_modify {B} (g : ParserState → ParserState) (k : ParseM B) s Q :
  parses p F k (g s) Q → parses p F (modify g;; k) s Q.
Proof. done. Qed.

Lemma parses_some {A B} (o : option A) a e (f : A → ParseM B) s Q :
  o = Some a → parses p F (f a) s Q → parses p F (some_or o e ≫= f) s Q.
Proof. by intros ->. Qed.

Lemma parses_ok_or {A B} (o : option A) a e (f : A → ParseM B) s Q :
  o = Some a → parses p F (f a) s Q → parses p F (ok_or o e ≫= f) s Q.
Proof. by intros ->. Qed.

Lemma parses_some_or {A B} (o : option A) e (f : A → ParseM B) s Q :
  state_ok p s → (o = None → F (ParseFailed e)) →
  (∀ a, o = Some a → parses p F (f a) s Q) → parses p F (some_or o e ≫= f) s Q.
Proof.
  intros Hs He Hf. destruct o as [a|]; [by apply Hf|].
  split; [by apply state_stopped|by apply He].
Qed.

Lemma parses_fail {A} (e : SyntaxError) s (Q : ParserState → A → Prop) :
  stopped_ok p s → F (ParseFailed e) → parses p F (fail e) s Q.
Proof. by intros. Qed.

(** Rules for a step followed by the rest, where the step keeps the cursor. *)
Definition quiet_step {A} (m : ParseM A) (s : ParserState) (P : A → Prop) : Prop :=
  parses p F m s (λ s' a, ps_cursor s' = ps_cursor s ∧ P a).

Lemma resource_limited kind limit consumed attempted offset :
  offset_ok p offset → limit < consumed + attempted →
  F (ParseFailed (SyntaxError_resource kind limit consumed attempted (Some offset))).
Proof.
  intros Ho Hl. apply HF. eexists _, offset. split_and!; [done| |done|done|done].
  right. split; [done|]. eexists. split; [done|]. by left.
Qed.

Lemma allocation_limited limit consumed attempted offset :
  offset_ok p offset → allocator_refused attempted →
  F (ParseFailed (SyntaxError_resource Allocation limit consumed attempted (Some offset))).
Proof.
  intros Ho Hk. apply HF. eexists _, offset. split_and!; [done| |done|done|done].
  right. split; [done|]. eexists. split; [done|]. right. by split.
Qed.

Lemma cancelled_limited k offset :
  offset_ok p offset → parser_cancelled k = true →
  F (ParseFailed (SyntaxError_for_code Cancelled (Some offset))).
Proof.
  intros Ho Hk. apply HF. eexists _, offset. split_and!; [done| |done|done|done].
  left. split; [done|by exists k].
Qed.

(** ** Cancellation *)

Lemma check_cancelled_ok offset s :
  state_ok p s → offset_ok p offset → quiet_step (check_cancelled offset) s (λ _, True).
Proof.
  intros Hs Ho. unfold quiet_step, check_cancelled. apply parses_gets, parses_modify.
  case_match.
  - split; [|by eapply cancelled_limited].
    apply state_stopped, (same_work_ok _ s); [by split_and!|done].
  - apply parses_ret; [|done]. by apply (same_work_ok _ s); [split_and!|].
Qed.

Lemma probe_iteration_ok offset s :
  state_ok p s → offset_ok p offset → quiet_step (probe_iteration offset) s (λ _, True).
Proof.
  intros Hs Ho. unfold quiet_step, probe_iteration. apply parses_gets.
  assert (∀ x, state_ok p (set_countdown x s)) as Hset
    by (intros x; by apply (same_work_ok _ s); [split_and!|]).
  destruct (1 <? ps_countdown s); [by split|]. apply parses_modify.
  eapply parses_weaken; [by apply check_cancelled_ok|]. by intros s' [] _ [-> _].
Qed.

Lemma begin_operation_ok s :
  state_ok p s → quiet_step (begin_operation p) s (λ _, True).
Proof.
  intros Hs. unfold quiet_step, begin_operation. apply parses_modify, parses_gets.
  eapply parses_weaken; [apply check_cancelled_ok|by intros s' [] _ [-> _]].
  - by apply (same_work_ok _ s); [split_and!|].
  - apply absolute_ok, Hs.
Qed.

(** ** Charges *)

Lemma check_single_limit_ok kind limit attempted offset s :
  state_ok p s → offset_ok p offset →
  parses p F (check_single_limit kind limit attempted offset) s
    (λ s' _, s' = s ∧ attempted ≤ limit).
Proof.
  intros Hs Ho. unfold check_single_limit. destruct (limit <? attempted) eqn:Hl; checked_facts.
  - split; [by apply state_stopped|by apply resource_limited].
  - by apply parses_ret.
Qed.

Lemma charge_total_ok kind limit consumed attempted offset s :
  state_ok p s → offset_ok p offset → limit ≤ u64_max →
  parses p F (charge_total kind limit consumed attempted offset) s
    (λ s' _, s' = s ∧ consumed + attempted ≤ limit ∧ consumed + attempted ≤ u64_max).
Proof.
  intros Hs Ho Hlim. unfold charge_total.
  destruct (checked_add u64_max consumed attempted) as [total|] eqn:Ht; checked_facts.
  - subst. destruct (limit <? _) eqn:Hl; checked_facts.
    + split; [by apply state_stopped|by apply resource_limited].
    + by apply parses_ret.
  - split; [by apply state_stopped|apply resource_limited; [done|lia]].
Qed.

Lemma charge_retained_ok attempted offset s :
  state_ok p s → offset_ok p offset → 0 ≤ attempted →
  parses p F (charge_retained p attempted offset) s
    (λ s' _, s' = s ∧
       from_option (λ cap, ps_owned_bytes s + ps_container_bytes s + attempted ≤ cap) True
         (sp_max_retained_bytes p)).
Proof.
  intros Hs Ho Ha. unfold charge_retained.
  destruct (sp_max_retained_bytes p) as [cap|] eqn:Hcap; simpl; [|by apply parses_ret].
  apply parses_get. eapply parses_some.
  { apply checked_add_Some. split; [|reflexivity]. pose proof (wo_owned _ _ _ Hs).
    pose proof (wo_container _ _ _ Hs). parser_facts Hp. lia. }
  pose proof (po_retained _ Hp) as Hcap'. rewrite Hcap in Hcap'. simpl in Hcap'.
  eapply parses_weaken; [by apply charge_total_ok; [..|lia]|]. by intros s' _ _ (->&?&_).
Qed.

Lemma check_token_len_ok start stop s :
  state_ok p s → (start ≤ length (window p))%nat → (stop ≤ length (window p))%nat →
  parses p F (check_token_len p start stop) s (λ s' _, s' = s).
Proof.
  intros Hs Hstart Hstop. unfold check_token_len. eapply parses_some.
  { apply try_from_Some. split; [|reflexivity]. parser_facts Hp. lia. }
  eapply parses_weaken; [by apply check_single_limit_ok, absolute_ok|]. by intros s' _ _ [-> _].
Qed.

Lemma check_string_source_ok start stop s :
  state_ok p s → (start ≤ length (window p))%nat → (stop ≤ length (window p))%nat →
  parses p F (check_string_source p start stop) s (λ s' _, s' = s).
Proof.
  intros Hs Hstart Hstop. unfold check_string_source.
  eapply parses_bind; [by apply check_token_len_ok|]. intros s' _ _ ->. eapply parses_some.
  { apply try_from_Some. split; [|reflexivity]. parser_facts Hp. lia. }
  eapply parses_weaken; [by apply check_single_limit_ok, absolute_ok|]. by intros s' _ _ [-> _].
Qed.

Lemma check_decoded_ok decoded start s :
  state_ok p s → (start ≤ length (window p))%nat →
  parses p F (check_decoded p decoded start) s (λ s' _, s' = s).
Proof.
  intros Hs Hstart. eapply parses_weaken; [by apply check_single_limit_ok, absolute_ok|].
  by intros s' _ _ [-> _].
Qed.

Lemma charge_token_ok offset s :
  state_ok p s → offset_ok p offset → quiet_step (charge_token p offset) s (λ _, True).
Proof.
  intros Hs Ho. unfold quiet_step, charge_token. apply parses_gets.
  eapply parses_bind; [apply charge_total_ok; [done|done|parser_facts Hp; lia]|]. intros s' _ _ (->&Hl&_).
  split; [|done]. destruct Hs. split; simpl; try done. lia.
Qed.

Lemma charge_container_entry_ok offset s :
  state_ok p s → offset_ok p offset →
  quiet_step (charge_container_entry p offset) s (λ _, True).
Proof.
  intros Hs Ho. unfold quiet_step, charge_container_entry. apply parses_gets.
  eapply parses_bind; [apply charge_total_ok; [done|done|parser_facts Hp; lia]|]. intros s' _ _ (->&Hl&_).
  split; [|done]. destruct Hs. split; simpl; try done. lia.
Qed.

Lemma enter_container_ok parent offset s :
  state_ok p s → offset_ok p offset → 0 ≤ parent ≤ sl_max_container_depth (sp_limits p) →
  quiet_step (enter_container p parent offset) s
    (λ depth, depth = parent + 1 ∧ depth ≤ sl_max_container_depth (sp_limits p)).
Proof.
  intros Hs Ho Hd. unfold quiet_step, enter_container. cbv zeta. eapply parses_some.
  { apply checked_add_Some. split; [|reflexivity]. parser_facts Hp. lia. }
  destruct (_ <? _) eqn:Hl; checked_facts.
  - split; [by apply state_stopped|by apply resource_limited].
  - apply parses_modify. split; [|done]. destruct Hs. split; simpl; try done. lia.
Qed.

Lemma move_cursor_ok c s :
  state_ok p s → (c ≤ length (window p))%nat → state_ok p (move_cursor c s).
Proof. intros [] Hc. by split. Qed.

(** ** Allocations *)

Lemma reserve_state_ok s : state_ok p s → state_ok p (count_parser_reservation s).
Proof. intros Hs. by apply (same_work_ok _ s); [split_and!|]. Qed.

Lemma allocate_owned_ok length offset s :
  state_ok p s → offset_ok p offset → 0 ≤ length →
  quiet_step (allocate_owned p length offset) s (λ _, True).
Proof.
  intros Hs Ho Hl. unfold quiet_step, allocate_owned. cbv zeta. apply parses_gets.
  eapply parses_bind; [apply charge_total_ok; [done|done|parser_facts Hp; lia]|]. intros s1 _ _ (->&Hlen&_).
  eapply parses_bind; [by apply charge_retained_ok|]. intros s1 _ _ (->&_).
  parser_facts Hp. pose proof (wo_owned _ _ _ Hs) as Howned.
  eapply parses_some; [apply try_from_Some; split; [lia|reflexivity]|].
  apply parses_gets, parses_modify. pose proof (reserve_state_ok _ Hs) as Hs1.
  apply parses_some_or; [done| |].
  { intros Hno. apply allocation_limited; [done|]. eexists _, 1, 0, length.
    unfold SYNTAX_MAX_INPUT_BYTES. split_and!; [exact Hno|lia..]. }
  intros capacity Hcap%parser_reserve_spec.
  eapply parses_some.
  { apply try_from_Some. split; [|reflexivity]. lia. }
  eapply parses_bind; [apply charge_total_ok; [done|done|parser_facts Hp; lia]|]. intros s2 _ _ (->&Hcapl&_).
  eapply parses_bind; [apply charge_retained_ok; [done|done|lia]|]. intros s2 _ _ (->&Hret).
  eapply parses_some.
  { apply checked_add_Some. split; [|reflexivity]. lia. }
  split; [|done]. destruct Hs1. split; simpl in *; try done; [lia|].
  destruct (sp_max_retained_bytes p); simpl in *; [lia|done].
Qed.

Lemma copy_owned_ok source offset s :
  state_ok p s → offset_ok p offset → len source ≤ u64_max →
  quiet_step (copy_owned p source offset) s (λ copy, copy = source).
Proof.
  intros Hs Ho Hl. unfold quiet_step, copy_owned. eapply parses_some.
  { apply try_from_Some. split; [|reflexivity]. lia. }
  eapply parses_bind; [apply allocate_owned_ok; [done|done|lia]|].
  intros s' _ Hs' [Hc _]. by apply parses_ret.
Qed.

Lemma grow_container_ok size length offset s :
  state_ok p s → offset_ok p offset → 0 ≤ size ≤ 1024 →
  0 ≤ length ≤ SYNTAX_MAX_INPUT_BYTES →
  quiet_step (grow_container p length length size offset) s
    (λ capacity, length < capacity ≤ usize_max ∧ capacity * size ≤ i64_max).
Proof.
  intros Hs Ho Hsize Hl. unfold quiet_step, grow_container.
  unfold SYNTAX_MAX_INPUT_BYTES in Hl. parser_facts Hp.
  eapply (parses_bind _ _ _ (λ s' target, s' = s ∧ length < target ≤ Z.max 4 (2 * length))).
  { destruct (length =? 0) eqn:Hz; checked_facts; [apply parses_ret; [done|split; [done|lia]]|].
    unfold some_or, ok_or, parses.
    assert (checked_mul usize_max length 2 = Some (length * 2)) as ->
      by (apply checked_mul_Some; lia). split; [done|]. split; [done|lia]. }
  intros s1 target _ [-> Ht].
  eapply parses_some; [apply checked_sub_Some; split; [lia|reflexivity]|].
  eapply (parses_some _ ((target - length) * size)).
  { assert (try_from u64_max (target - length) = Some (target - length)) as ->
      by (apply try_from_Some; lia).
    apply checked_mul_Some. nia. }
  apply parses_gets.
  eapply parses_bind; [apply charge_total_ok; [done|done|lia]|]. intros s1 _ _ (->&_).
  eapply parses_bind; [apply charge_retained_ok; [done|done|nia]|]. intros s1 _ _ (->&_).
  apply parses_get, parses_modify. pose proof (reserve_state_ok _ Hs) as Hs1.
  unfold some_or, ok_or, parses. destruct (parser_reserve _ _ _ _ _) as [capacity|] eqn:Hcap.
  - apply parser_reserve_spec in Hcap. split; [done|]. split; [done|lia].
  - split; [by apply state_stopped|]. apply allocation_limited; [done|].
    eexists _, size, length, (target - length). unfold SYNTAX_MAX_INPUT_BYTES.
    split_and!; [exact Hcap|lia..].
Qed.

Lemma reserve_container_entry_ok size length capacity offset s :
  state_ok p s → offset_ok p offset → 0 ≤ size ≤ 1024 →
  0 ≤ length ≤ capacity → capacity ≤ usize_max →
  length ≤ SYNTAX_MAX_INPUT_BYTES → capacity * size ≤ i64_max →
  quiet_step (reserve_container_entry p length capacity size offset) s
    (λ capacity, length < capacity ≤ usize_max ∧ capacity * size ≤ i64_max).
Proof.
  intros Hs Ho Hsize Hl Hu He Hb. unfold quiet_step, reserve_container_entry. parser_facts Hp.
  eapply parses_some; [apply try_from_Some; split; [lia|reflexivity]|].
  eapply (parses_bind _ _ _ (λ s' after, ps_cursor s' = ps_cursor s ∧
    capacity ≤ after ∧ length < after ≤ usize_max ∧ after * size ≤ i64_max)).
  { destruct (length =? capacity) eqn:Hc; checked_facts.
    - subst. eapply parses_weaken; [apply grow_container_ok; [done|done|done|lia]|].
      intros s' after _ (?&?&?).
      split_and!; try done; lia.
    - apply parses_ret; [done|]. split_and!; try done; lia. }
  intros s1 after Hs1 (Hcur&Hca&[Hla Hau]&Hab).
  assert (0 ≤ (after - capacity) * size ≤ i64_max) as Hadd by (clear - Hsize Hl Hca Hab; nia).
  eapply parses_some; [apply checked_sub_Some; split; [lia|reflexivity]|].
  eapply parses_some; [apply try_from_Some; split; [lia|reflexivity]|].
  eapply parses_some; [apply checked_mul_Some; split; [lia|reflexivity]|].
  apply parses_gets. pose proof (wo_container _ _ _ Hs1) as Hcont.
  eapply parses_some; [apply checked_add_Some; split; [lia|reflexivity]|].
  eapply parses_bind; [apply charge_retained_ok; [done|done|lia]|]. intros s2 _ _ (->&Hret).
  apply parses_modify. cbv zeta.
  assert (stopped_ok p (set_container_bytes (ps_container_bytes s1 + (after - capacity) * size) s1))
    as Hstop.
  { destruct Hs1. split; simpl; try done; [lia|].
    destruct (sp_max_retained_bytes p); simpl in *; [lia|done]. }
  destruct (_ <? _) eqn:Hlim; checked_facts.
  - split; [done|apply resource_limited; [done|unfold saturating_sub; lia]].
  - split; [|split_and!; try done; lia]. destruct Hstop. split; try done; simpl in *; lia.
Qed.
End rules.
