(* ===== verification/SyntaxReader.v ===== *)
(** * A reference reader of direct objects

    What the bytes of a window denote, as pure functions: no cursor, counters,
    limits, probes or second passes. A reader maps the bytes that remain to a
    value and what remains after it, or to [None] when the value is malformed or
    cut off by the end of a window that may continue. Spans come from the number
    of bytes that remain before and after. *)

From stdpp Require Import base list numbers option strings.
From S2P Require Import Prelude.
From S2P Require Import SourceTypes.
From S2P Require Import SyntaxTypes.
From S2P Require Import SyntaxState.
From S2P Require Import SyntaxLexer.
From S2P Require Import SyntaxParser.

(** The longest prefix of bytes of a class, and the rest. *)
Fixpoint run_of (class : Z → bool) (rest : list Z) : list Z * list Z :=
  match rest with
  | [] => ([], [])
  | byte :: l =>
      if class byte then let '(run, r) := run_of class l in (byte :: run, r) else ([], rest)
  end.

Definition is_regular (byte : Z) : bool := negb (is_delimiter byte).

(** The number the digits denote. *)
Definition digits_value (digits : list Z) : Z := foldl (λ m d, 10 * m + (d - 48)) 0 digits.

(** The integer of a sign and digits, when it fits in 64 bits. *)
Definition integer_value (negative : bool) (digits : list Z) : option Z :=
  let value := if negative then - digits_value digits else digits_value digits in
  if (- i64_max - 1 <=? value) && (value <=? i64_max) then Some value else None.

(** The optional fraction and the optional exponent: whether there is one, its
    digits, and what follows. *)
Definition read_fraction (rest : list Z) : bool * list Z * list Z :=
  match rest with
  | byte :: l => if byte =? 46 then let '(run, r) := run_of is_ascii_digit l in (true, run, r)
                 else (false, [], rest)
  | [] => (false, [], rest)
  end.

Definition exponent_digits (l : list Z) : list Z :=
  match l with
  | sign :: after => if (sign =? 43) || (sign =? 45) then after else l
  | [] => l
  end.

Definition read_exponent (rest : list Z) : bool * list Z * list Z :=
  match rest with
  | byte :: l =>
      if (byte =? 101) || (byte =? 69) then
        let '(run, r) := run_of is_ascii_digit (exponent_digits l) in (true, run, r)
      else (false, [], rest)
  | [] => (false, [], rest)
  end.

(** The number a regular token denotes: an optional sign, digits with an optional
    fraction, at least one of them, an optional exponent, and nothing else. *)
Definition read_number (raw : list Z) : option TokenKind :=
  let '(negative, unsigned) := split_sign raw in
  let '(whole, rest) := run_of is_ascii_digit unsigned in
  let '(has_dot, fraction, rest) := read_fraction rest in
  let '(has_exponent, exponent, rest) := read_exponent rest in
  let real notation :=
    Some (RealToken {| real_raw := owned_string raw; real_notation := notation |}) in
  if bool_decide (whole = []) && bool_decide (fraction = []) then None
  else if (has_exponent : bool) && bool_decide (exponent = []) then None
  else if negb (bool_decide (rest = [])) then None
  else if has_exponent then real Exponent
  else if has_dot then real Decimal
  else value ← integer_value negative whole; Some (IntegerToken value).

(** The decoded bytes of a literal string after its opening parenthesis; [depth]
    parentheses are open. *)
Fixpoint read_literal (depth : Z) (rest : list Z) : option (list Z * list Z) :=
  let push b o := '(decoded, r) ← o; Some (b :: decoded, r) in
  match rest with
  | [] => None
  | byte :: l =>
      if byte =? 40 then push 40 (read_literal (depth + 1) l)
      else if byte =? 41 then
        if depth - 1 =? 0 then Some ([], l) else push 41 (read_literal (depth - 1) l)
      else if byte =? 92 then
        match l with
        | [] => None
        | escaped :: l =>
            if escaped =? 13 then
              match l with
              | byte :: l' => if byte =? 10 then read_literal depth l' else read_literal depth l
              | [] => None
              end
            else if escaped =? 10 then read_literal depth l
            else if is_octal_digit escaped then
              let first := octal_step 0 escaped in
              match l with
              | second :: l' =>
                  if is_octal_digit second then
                    match l' with
                    | third :: l'' =>
                        if is_octal_digit third then
                          push (Z.land (octal_step (octal_step first second) third) 255)
                            (read_literal depth l'')
                        else push (Z.land (octal_step first second) 255) (read_literal depth l')
                    | [] => None
                    end
                  else push (Z.land first 255) (read_literal depth l)
              | [] => None
              end
            else push (simple_escape escaped) (read_literal depth l)
        end
      else if byte =? 13 then
        match l with
        | following :: l' =>
            if following =? 10 then push 10 (read_literal depth l')
            else push 10 (read_literal depth l)
        | [] => None
        end
      else push byte (read_literal depth l)
  end.

(** The decoded bytes of a hexadecimal string; [high] is a digit without its
    second one. *)
Fixpoint read_hex (high : option Z) (rest : list Z) : option (list Z * list Z) :=
  match rest with
  | [] => None
  | byte :: l =>
      if byte =? 62 then
        Some (match high with Some high => [Z.shiftl high 4] | None => [] end, l)
      else if is_whitespace byte then read_hex high l
      else
        nibble ← hex_value byte;
        match high with
        | Some high =>
            '(decoded, r) ← read_hex None l;
            Some (Z.lor (Z.shiftl high 4) nibble :: decoded, r)
        | None => read_hex (Some nibble) l
        end
  end.

Section reader.
Variable (source : SourceIdentity) (stop : Z) (more : bool).

(** The offset of the bytes that remain: [stop] is the end of the window. *)
Definition offset_of (rest : list Z) : Z := stop - len rest.

Fixpoint read_trivia (comment : bool) (rest : list Z) : option (list Z) :=
  match rest with
  | [] => if comment && more then None else Some []
  | byte :: l =>
      if comment then read_trivia (negb ((byte =? 13) || (byte =? 10))) l
      else if is_whitespace byte then read_trivia false l
      else if byte =? 37 then read_trivia true l
      else Some rest
  end.

Fixpoint read_name (rest : list Z) : option (list Z * list Z) :=
  match rest with
  | [] => if more then None else Some ([], [])
  | byte :: l =>
      if is_delimiter byte then Some ([], rest)
      else if byte =? 35 then
        match l with
        | high :: low :: l =>
            high ← hex_value high; low ← hex_value low;
            '(decoded, r) ← read_name l; Some (Z.lor (Z.shiftl high 4) low :: decoded, r)
        | _ => None
        end
      else '(decoded, r) ← read_name l; Some (byte :: decoded, r)
  end.

Definition string_token (kind : StringKind) (decoded : list Z) : TokenKind :=
  StringToken {| string_bytes := owned_string decoded; string_kind := kind |}.

(** A number or a keyword: the run of regular bytes from [byte] on. *)
Definition read_regular (byte : Z) (rest : list Z) : option (TokenKind * list Z) :=
  let '(raw, r) := run_of is_regular rest in
  if bool_decide (raw = []) || (bool_decide (r = []) && more) then None
  else if is_number_start byte then kind ← read_number raw; Some (kind, r)
  else Some (Keyword raw, r).

(** The kind of the token that begins here. *)
Definition read_kind (rest : list Z) : option (TokenKind * list Z) :=
  match rest with
  | [] => None
  | byte :: l =>
      if byte =? 91 then Some (ArrayOpen, l)
      else if byte =? 93 then Some (ArrayClose, l)
      else if byte =? 40 then '(decoded, r) ← read_literal 1 l; Some (string_token Literal decoded, r)
      else if byte =? 47 then '(decoded, r) ← read_name l; Some (NameToken (owned_string decoded), r)
      else if byte =? 60 then
        match l with
        | second :: l' =>
            if second =? 60 then Some (DictionaryOpen, l')
            else '(decoded, r) ← read_hex None l; Some (string_token Hexadecimal decoded, r)
        | [] => None
        end
      else if byte =? 62 then
        match l with
        | second :: l' => if second =? 62 then Some (DictionaryClose, l') else None
        | [] => None
        end
      else if (byte =? 41) || (byte =? 123) || (byte =? 125) then None
      else read_regular byte rest
  end.

Definition read_token (rest : list Z) : option (Token * list Z) :=
  rest ← read_trivia false rest;
  '(kind, r) ← read_kind rest;
  Some ({| token_start := offset_of rest; token_end := offset_of r; token_kind := kind |}, r).

(** The value between two offsets. *)
Definition located {A} (start end_ : Z) (value : A) : Located A :=
  {| located_source := source; located_span := {| span_start := start; span_len := end_ - start |};
     located_value := value |}.

(** An integer here, after its sign: [None] when it may be cut off, [Some None]
    when there is no integer. *)
Definition probe_digits_of (negative : bool) (unsigned : list Z)
    : option (option (Z * list Z)) :=
  let '(digits, r) := run_of is_ascii_digit unsigned in
  if bool_decide (unsigned = []) then if more then None else Some None
  else if bool_decide (digits = []) then Some None
  else if bool_decide (r = []) && more then None
  else if from_option is_delimiter true (head r)
  then Some (value ← integer_value negative digits; Some (value, r))
  else Some None.

Definition probe_integer (rest : list Z) : option (option (Z * list Z)) :=
  if from_option (λ b, is_ascii_digit b || (b =? 43) || (b =? 45)) false (head rest)
  then let '(negative, unsigned) := split_sign rest in probe_digits_of negative unsigned
  else Some None.

(** Whether a generation and [R] follow an integer: [None] when they may be cut
    off; what remains after them. *)
Definition read_generation (rest : list Z) : option (option (Z * list Z)) :=
  rest ← read_trivia false rest;
  match rest with
  | [] => if more then None else Some None
  | _ =>
      probed ← probe_integer rest;
      match probed with
      | None => Some None
      | Some (value, r) =>
          r ← read_trivia false r;
          match r with
          | [] => if more then None else Some None
          | byte :: l =>
              if negb (byte =? 82) then Some None
              else match l with
                   | [] => if more then None else Some (Some (value, l))
                   | next :: _ => if is_delimiter next then Some (Some (value, l)) else Some None
                   end
          end
      end
  end.

Definition reference_of (number generation : Z) : option ObjectRef :=
  if (0 <? number) && (number <=? u32_max) && (0 <=? generation) && (generation <=? u16_max)
  then Some {| object_number := number; object_generation := generation |} else None.

Definition read_integer (first : Token) (value : Z) (rest : list Z)
    : option (Located SyntaxObject * list Z) :=
  followed ← read_generation rest;
  match followed with
  | None => Some (located (token_start first) (token_end first) (Integer value), rest)
  | Some (generation, r) =>
      reference ← reference_of value generation;
      Some (located (token_start first) (offset_of r) (Reference reference), r)
  end.

Definition keyword_object (bytes : list Z) : option SyntaxObject :=
  if bool_decide (bytes = octets "null") then Some Null
  else if bool_decide (bytes = octets "true") then Some (Boolean true)
  else if bool_decide (bytes = octets "false") then Some (Boolean false)
  else None.

(** The object whose first token is given, the items of an array up to its closing
    bracket, the entries of a dictionary up to its closing brackets. *)
Fixpoint read_value (fuel : nat) (token : Token) (rest : list Z)
    : option (Located SyntaxObject * list Z) :=
  match fuel with
  | O => None
  | S fuel =>
      let scalar value := Some (located (token_start token) (token_end token) value, rest) in
      match token_kind token with
      | IntegerToken value => read_integer token value rest
      | RealToken value => scalar (Real value)
      | NameToken value => scalar (Name value)
      | StringToken value => scalar (Text value)
      | Keyword bytes => value ← keyword_object bytes; scalar value
      | ArrayOpen =>
          '(values, r) ← read_items fuel rest;
          Some (located (token_start token) (offset_of r) (Array values), r)
      | DictionaryOpen =>
          '(entries, r) ← read_entries fuel rest;
          Some (located (token_start token) (offset_of r) (Dictionary entries), r)
      | ArrayClose | DictionaryClose => None
      end
  end

with read_items (fuel : nat) (rest : list Z) : option (PdfArray * list Z) :=
  match fuel with
  | O => None
  | S fuel =>
      rest ← read_trivia false rest;
      if bool_decide (head rest = Some 93) then Some ([], tail rest)
      else
        '(token, r) ← read_token rest;
        '(value, r) ← read_value fuel token r;
        '(values, r) ← read_items fuel r;
        Some (value :: values, r)
  end

with read_entries (fuel : nat) (rest : list Z) : option (PdfDictionary * list Z) :=
  match fuel with
  | O => None
  | S fuel =>
      rest ← read_trivia false rest;
      if bool_decide (take 2 rest = [62; 62]) then Some ([], drop 2 rest)
      else
        '(key, r) ← read_token rest;
        match token_kind key with
        | NameToken name =>
            '(token, r) ← read_token r;
            '(value, r) ← read_value fuel token r;
            '(entries, r) ← read_entries fuel r;
            Some ({| entry_key := located (token_start key) (token_end key) name;
                     entry_value := value |} :: entries, r)
        | _ => None
        end
  end.

(** One object, with fuel for every byte. *)
Definition read_object (rest : list Z) : option (Located SyntaxObject * list Z) :=
  '(token, r) ← read_token rest;
  read_value (2 * length rest + 2) token r.
End reader.
