(* ===== verification/SyntaxTrivia.v ===== *)
(** * Scans against the reference reader: trivia and numbers

    [computes p m s spec Q]: the method [m] returns what the reader [spec] does, or
    fails because of a limit or a cancellation, or because [spec] finds nothing;
    it never panics and never reports an internal error. *)

From stdpp Require Import base list numbers option strings.
From S2P Require Import Prelude.
From S2P Require Import SourceTypes.
From S2P Require Import SyntaxTypes.
From S2P Require Import SyntaxState.
From S2P Require Import SyntaxLexer.
From S2P Require Import SyntaxParser.
From S2P Require Import SyntaxRules.
From S2P Require Import SyntaxReader.

(** A code that says what is wrong with the bytes. *)
Definition about_bytes (code : SyntaxErrorCode) : Prop :=
  (syntax_code_policy code).1.1 = CategorySyntax.

(** Failures of malformed or cut bytes; the end of the input is apart. *)
Definition failure_ok (p : SyntaxParser) (f : ParseFailure) : Prop :=
  match f with
  | End => False
  | Incomplete code offset => about_bytes code ∧ offset_ok p offset
  | ParseFailed e =>
      error_category e = CategorySyntax ∧ about_bytes (error_code e) ∧
      ∃ o, error_offset e = Some o ∧ offset_ok p o
  end.

Definition or_malformed `{ParserRuntime} {B} (p : SyntaxParser) (spec : option B)
    (f : ParseFailure) : Prop :=
  limited p f ∨ (spec = None ∧ failure_ok p f).

Definition computes `{ParserRuntime} {A B} (p : SyntaxParser) (m : ParseM A)
    (s : ParserState) (spec : option B)
    (Q : ParserState → A → B → Prop) : Prop :=
  parses p (or_malformed p spec) m s (λ s' a, ∃ b, spec = Some b ∧ Q s' a b).

(** The bytes from an index on. *)
Definition suffix_at (p : SyntaxParser) (index : nat) (rest : list Z) : Prop :=
  (index ≤ length (window p))%nat ∧ drop index (window p) = rest.

Definition window_end (p : SyntaxParser) : Z := input_base_offset (sp_input p) + len (window p).

Lemma suffix_length p index rest :
  suffix_at p index rest → (index + length rest)%nat = length (window p).
Proof. intros [Hi <-]. rewrite length_drop. lia. Qed.

Lemma suffix_from p index rest : suffix_at p index rest → remaining_from p index = rest.
Proof. by intros [_ ?]. Qed.

Lemma suffix_cons p index byte l :
  suffix_at p index (byte :: l) → window p !! index = Some byte ∧ suffix_at p (S index) l.
Proof.
  intros Hs. pose proof (suffix_length _ _ _ Hs) as Hl. simpl in Hl.
  destruct Hs as [Hi Hd]. apply drop_cons_lookup in Hd as [Hb Hl']. split; [done|].
  split; [lia|done].
Qed.

Lemma suffix_app p index run l :
  suffix_at p index (run ++ l) → suffix_at p (index + length run) l.
Proof.
  revert index. induction run as [|b run IH]; intros index Hs; simpl in *.
  - by rewrite Nat.add_0_r.
  - rewrite Nat.add_succ_r, <-Nat.add_succ_l. apply IH. by apply suffix_cons in Hs as [_ ?].
Qed.

Lemma suffix_nil p index : suffix_at p index [] → index = length (window p).
Proof. intros Hs%suffix_length. simpl in Hs. lia. Qed.

Lemma suffix_at_end p index rest :
  suffix_at p index rest → at_end p index = bool_decide (rest = []).
Proof.
  intros Hs. pose proof (suffix_length _ _ _ Hs) as Hl. unfold at_end. apply bool_decide_ext.
  destruct rest; simpl in Hl; split; intros; try done; lia.
Qed.

Lemma suffix_slice p start run l :
  suffix_at p start (run ++ l) → slice p start (start + length run) = run.
Proof.
  intros Hs. unfold slice. rewrite (suffix_from _ _ _ Hs).
  replace (start + length run - start)%nat with (length run) by lia. apply take_app_length.
Qed.

Lemma suffix_lookup p index rest : suffix_at p index rest → window p !! index = head rest.
Proof.
  destruct rest as [|b l]; intros Hs.
  - apply suffix_nil in Hs as ->. by apply lookup_ge_None.
  - by apply suffix_cons in Hs as [? _].
Qed.

Lemma suffix_offset p index rest :
  suffix_at p index rest → absolute p index = offset_of (window_end p) rest.
Proof.
  intros Hs%suffix_length. unfold absolute, offset_of, window_end. lia.
Qed.

Lemma run_of_app class rest run l : run_of class rest = (run, l) → rest = run ++ l.
Proof.
  revert run l. induction rest as [|b rest IH]; intros run l; simpl.
  - by intros [= <- <-].
  - destruct (class b); [|by intros [= <- <-]].
    destruct (run_of class rest) as [run' l'] eqn:Hr. intros [= <- <-]. simpl. f_equal.
    by apply IH.
Qed.

Lemma run_of_class class rest run l :
  run_of class rest = (run, l) → Forall (λ b, class b = true) run ∧
  from_option (λ b, class b = false) True (head l).
Proof.
  revert run l. induction rest as [|b rest IH]; intros run l; simpl.
  - intros [= <- <-]. by split.
  - destruct (class b) eqn:Hb.
    + destruct (run_of class rest) as [run' l'] eqn:Hr. intros [= <- <-].
      destruct (IH _ _ eq_refl) as [? ?]. split; [by constructor|done].
    + intros [= <- <-]. by split.
Qed.

Section trivia.
Context `{ParserRuntime} (p : SyntaxParser).
Hypothesis Hp : parser_ok p.
Implicit Types s : ParserState.

Lemma malformed_limited {B} (spec : option B) f : limited p f → or_malformed p spec f.
Proof. by left. Qed.

Lemma suffix_ok index rest : suffix_at p index rest → offset_ok p (absolute p index).
Proof. intros [Hi _]. by apply absolute_ok. Qed.

(** A step that keeps the cursor, then the rest. *)
Lemma parses_quiet {A B} F (m : ParseM A) (f : A → ParseM B) s P R :
  quiet_step p F m s P →
  (∀ s' a, state_ok p s' → ps_cursor s' = ps_cursor s → P a → parses p F (f a) s' R) →
  parses p F (m ≫= f) s R.
Proof.
  intros Hm Hf. eapply parses_bind; [exact Hm|]. intros s' a Hs' [Hc Ha]. by apply Hf.
Qed.

Lemma parses_probe {B} F offset (k : ParseM B) s R :
  (∀ f, limited p f → F f) → state_ok p s → offset_ok p offset →
  (∀ s', state_ok p s' → ps_cursor s' = ps_cursor s → parses p F k s' R) →
  parses p F (probe_iteration offset;; k) s R.
Proof.
  intros HF Hs Ho Hk. eapply parses_quiet; [by apply probe_iteration_ok|].
  intros s' _ Hs' Hc _. by apply Hk.
Qed.

(** A check that changes nothing, then the rest. *)
Lemma parses_check {B} F (m : ParseM unit) (k : ParseM B) s R P :
  parses p F m s (λ s' _, s' = s ∧ P) → (P → parses p F k s R) → parses p F (m;; k) s R.
Proof. intros Hm Hk. eapply parses_bind; [exact Hm|]. intros s' _ _ [-> HP]. by apply Hk. Qed.

Lemma parses_check' {B} F (m : ParseM unit) (k : ParseM B) s R :
  parses p F m s (λ s' _, s' = s) → parses p F k s R → parses p F (m;; k) s R.
Proof. intros Hm Hk. eapply parses_bind; [exact Hm|]. by intros s' _ _ ->. Qed.

Lemma computes_malformed {A B} code offset (spec : option B) s
    (Q : ParserState → A → B → Prop) :
  state_ok p s → spec = None → about_bytes code → offset_ok p offset →
  computes p (fail_at code offset) s spec Q.
Proof.
  intros Hs Hn Hc Ho. split; [by apply state_stopped|]. right. split; [done|]. simpl. split.
  - unfold about_bytes in Hc. unfold SyntaxError_for_code.
    by destruct (syntax_code_policy code) as [[? ?] ?].
  - split; [unfold SyntaxError_for_code; by destruct (syntax_code_policy code) as [[? ?] ?]|].
    exists offset. unfold SyntaxError_for_code. by destruct (syntax_code_policy code) as [[? ?] ?].
Qed.

Lemma computes_incomplete {A B} code offset (spec : option B) s
    (Q : ParserState → A → B → Prop) :
  state_ok p s → spec = None → about_bytes code → offset_ok p offset →
  computes p (incomplete code offset) s spec Q.
Proof. intros Hs Hn Hc Ho. split; [by apply state_stopped|]. by right. Qed.

Lemma computes_some_or {A B C} (o : option A) code offset (f : A → ParseM C) (spec : option B) s
    (Q : ParserState → C → B → Prop) :
  state_ok p s → about_bytes code → offset_ok p offset → (o = None → spec = None) →
  (∀ a, o = Some a → computes p (f a) s spec Q) →
  computes p (some_or o (SyntaxError_for_code code (Some offset)) ≫= f) s spec Q.
Proof.
  intros Hs Hc Ho Hn Hf. destruct o as [a|]; [by apply Hf|].
  by apply (computes_malformed (A := C)); auto.
Qed.

(** More failures allowed. *)
Lemma parses_failures {A} (F F' : ParseFailure → Prop) (m : ParseM A) s Q :
  parses p F m s Q → (∀ f, F f → F' f) → parses p F' m s Q.
Proof.
  unfold parses. intros Hm HF. destruct (m s) as [s' [a|[f|]]]; [done| |done].
  destruct Hm. split; [done|by apply HF].
Qed.

(** The same computation against another description of what it reads. *)
Lemma computes_spec {A B C} (m : ParseM A) s (spec : option B) (spec' : option C) Q Q' :
  computes p m s spec Q → (spec = None → spec' = None) →
  (∀ s' a b, state_ok p s' → spec = Some b → Q s' a b → ∃ c, spec' = Some c ∧ Q' s' a c) →
  computes p m s spec' Q'.
Proof.
  unfold computes, parses, or_malformed. intros Hm Hn HQ.
  destruct (m s) as [s' [a|[f|]]]; [| |done].
  - destruct Hm as (Hs'&b&Hb&Hq). split; [done|by eapply HQ].
  - destruct Hm as [Hs' [?|[? ?]]]; split; auto.
Qed.

Lemma computes_bind {A B C D} (m : ParseM A) (f : A → ParseM C) s (spec : option B)
    (spec' : option D) Q Q' :
  computes p m s spec Q → (spec = None → spec' = None) →
  (∀ s' a b, state_ok p s' → spec = Some b → Q s' a b → computes p (f a) s' spec' Q') →
  computes p (m ≫= f) s spec' Q'.
Proof.
  unfold computes, parses, or_malformed, mbind, M_bind. intros Hm Hn Hf.
  destruct (m s) as [s' [a|[e|]]]; [| |done].
  - destruct Hm as (Hs'&b&Hb&Hq). by eapply Hf.
  - destruct Hm as [Hs' [?|[? ?]]]; split; auto.
Qed.

Lemma computes_ret {A B} (a : A) (b : B) spec s (Q : ParserState → A → B → Prop) :
  state_ok p s → spec = Some b → Q s a b → computes p (mret a) s spec Q.
Proof. intros. apply parses_ret; [done|by exists b]. Qed.

(** A computation that only limits can interrupt. *)
Lemma computes_parses {A B} (m : ParseM A) s (spec : option B) P Q :
  parses p (limited p) m s P →
  (∀ s' a, state_ok p s' → P s' a → ∃ b, spec = Some b ∧ Q s' a b) → computes p m s spec Q.
Proof.
  unfold computes, parses, or_malformed. intros Hm HP.
  destruct (m s) as [s' [a|[f|]]]; [| |done].
  - destruct Hm. split; [done|by apply HP].
  - destruct Hm. split; [done|by left].
Qed.

Lemma computes_limited {A B C} (m : ParseM A) (f : A → ParseM B) s (spec : option C) P Q :
  parses p (limited p) m s P →
  (∀ s' a, state_ok p s' → P s' a → computes p (f a) s' spec Q) →
  computes p (m ≫= f) s spec Q.
Proof.
  unfold computes, parses, or_malformed, mbind, M_bind. intros Hm Hf.
  destruct (m s) as [s' [a|[e|]]]; [| |done].
  - destruct Hm. by apply Hf.
  - destruct Hm. split; [done|by left].
Qed.

Lemma computes_probe {A B} offset (k : ParseM A) s (spec : option B) Q :
  state_ok p s → offset_ok p offset →
  (∀ s', state_ok p s' → ps_cursor s' = ps_cursor s → computes p k s' spec Q) →
  computes p (probe_iteration offset;; k) s spec Q.
Proof. intros Hs Ho Hk. apply parses_probe; [by left|done|done|done]. Qed.

Lemma computes_check {A B} (m : ParseM unit) (k : ParseM A) s (spec : option B) Q :
  parses p (limited p) m s (λ s' _, s' = s) → computes p k s spec Q →
  computes p (m;; k) s spec Q.
Proof. intros Hm Hk. eapply computes_limited; [exact Hm|]. by intros s' _ _ ->. Qed.

Lemma computes_quiet {A B C} (m : ParseM A) (f : A → ParseM B) s (spec : option C) P Q :
  quiet_step p (limited p) m s P →
  (∀ s' a, state_ok p s' → ps_cursor s' = ps_cursor s → P a → computes p (f a) s' spec Q) →
  computes p (m ≫= f) s spec Q.
Proof.
  intros Hm Hf. eapply computes_limited; [exact Hm|]. intros s' a Hs' [Hc Ha]. by apply Hf.
Qed.

Lemma computes_gets {A B C} (g : ParserState → A) (f : A → ParseM B) s (spec : option C) Q :
  computes p (f (g s)) s spec Q → computes p (gets g ≫= f) s spec Q.
Proof. done. Qed.

Lemma computes_modify {B C} (g : ParserState → ParserState) (k : ParseM B) s (spec : option C) Q :
  computes p k (g s) spec Q → computes p (modify g;; k) s spec Q.
Proof. done. Qed.

Lemma computes_some {A B C} (o : option A) a e (f : A → ParseM B) s (spec : option C) Q :
  o = Some a → computes p (f a) s spec Q → computes p (ok_or o e ≫= f) s spec Q.
Proof. by intros ->. Qed.

(** ** Trivia *)

Lemma advance_ok s byte l :
  state_ok p s → suffix_at p (ps_cursor s) (byte :: l) →
  state_ok p (move_cursor (S (ps_cursor s)) s) ∧ suffix_at p (S (ps_cursor s)) l.
Proof.
  intros Hs Hc. apply suffix_cons in Hc as [_ Hc]. split; [|done].
  apply move_cursor_ok; [done|apply Hc].
Qed.

Lemma position_ok s : state_ok p s → offset_ok p (position p s).
Proof. intros Hs. apply absolute_ok, Hs. Qed.

Lemma whitespace_loop_ok rest s :
  state_ok p s → suffix_at p (ps_cursor s) rest →
  parses p (limited p) (whitespace_loop p rest) s
    (λ s' rest', rest' = (run_of is_whitespace rest).2 ∧ suffix_at p (ps_cursor s') rest').
Proof.
  revert s. induction rest as [|byte l IH]; intros s Hs Hc; cbn [whitespace_loop run_of].
  { by apply parses_ret. }
  destruct (is_whitespace byte) eqn:Hb; [|by apply parses_ret].
  apply parses_gets. apply parses_probe; [done|done|by apply position_ok|].
  intros s1 Hs1 Hc1. apply parses_modify. rewrite <-Hc1 in Hc.
  destruct (advance_ok _ _ _ Hs1 Hc) as [Hs2 Hc2].
  eapply parses_weaken; [by apply IH|]. intros s' r _ [-> ?].
  by destruct (run_of is_whitespace l).
Qed.

Lemma read_trivia_whitespace more rest :
  read_trivia more false rest = read_trivia more false (run_of is_whitespace rest).2.
Proof.
  induction rest as [|b l IH]; [done|]. cbn [run_of read_trivia].
  destruct (is_whitespace b) eqn:Hb.
  - rewrite IH. by destruct (run_of is_whitespace l).
  - cbn [snd read_trivia]. by rewrite Hb.
Qed.

Definition in_comment (byte : Z) : bool := negb ((byte =? 13) || (byte =? 10)).

Lemma comment_loop_ok start rest s :
  state_ok p s → suffix_at p (ps_cursor s) rest → (start ≤ ps_cursor s)%nat →
  parses p (limited p) (comment_loop p start rest) s
    (λ s' rest', rest' = (run_of in_comment rest).2 ∧ suffix_at p (ps_cursor s') rest').
Proof.
  revert s. induction rest as [|byte l IH]; intros s Hs Hc Hst; cbn [comment_loop run_of].
  { by apply parses_ret. }
  unfold in_comment at 1. destruct ((byte =? 13) || (byte =? 10)) eqn:Hb;
    cbn [negb]; [by apply parses_ret|].
  apply parses_gets. apply parses_probe; [done|done|by apply position_ok|].
  intros s1 Hs1 Hc1. apply parses_modify. rewrite <-Hc1 in Hc, Hst.
  destruct (advance_ok _ _ _ Hs1 Hc) as [Hs2 Hc2]. apply parses_gets.
  eapply parses_some.
  { apply try_from_Some. split; [|reflexivity]. pose proof (proj1 Hc2). parser_facts Hp.
    simpl. lia. }
  eapply parses_check.
  { apply check_single_limit_ok; [done|done|done|]. apply absolute_ok.
    pose proof (proj1 Hc). lia. }
  intros _. eapply parses_weaken; [apply IH; [done|done|simpl; lia]|].
  intros s' r _ [-> ?]. by destruct (run_of in_comment l).
Qed.

Lemma read_trivia_comment more rest :
  read_trivia more true rest = read_trivia more true (run_of in_comment rest).2.
Proof.
  induction rest as [|b l IH]; [done|]. cbn [run_of read_trivia]. unfold in_comment at 1.
  destruct ((b =? 13) || (b =? 10)) eqn:Hb; cbn [negb snd read_trivia].
  - by rewrite Hb.
  - rewrite IH. by destruct (run_of in_comment l).
Qed.

Lemma line_end_whitespace b : in_comment b = false → is_whitespace b = true.
Proof.
  unfold in_comment, is_whitespace. rewrite negb_false_iff, !orb_true_iff. tauto.
Qed.

Lemma run_of_length class rest : (length (run_of class rest).2 ≤ length rest)%nat.
Proof.
  induction rest as [|b l IH]; simpl; [done|]. destruct (class b); [|done].
  destruct (run_of class l) as [r l']. simpl in *. lia.
Qed.

Lemma trivia_loop_ok fuel rest s :
  (length rest < fuel)%nat → state_ok p s → suffix_at p (ps_cursor s) rest →
  computes p (trivia_loop p fuel rest) s (read_trivia (may_continue p) false rest)
    (λ s' _ r, suffix_at p (ps_cursor s') r).
Proof.
  revert rest s. induction fuel as [|fuel IH]; intros rest s Hf Hs Hc; [lia|].
  cbn [trivia_loop]. unfold computes. apply parses_gets.
  apply parses_probe; [by left|done|by apply position_ok|]. intros s1 Hs1 Hc1.
  rewrite <-Hc1 in Hc. rewrite read_trivia_whitespace.
  pose proof (run_of_length is_whitespace rest) as Hlen.
  eapply computes_limited; [by apply whitespace_loop_ok|]. intros s2 r Hs2 [-> Hc2]. destruct (run_of is_whitespace rest).2 as [|b l] eqn:Hr.
  { by eapply computes_ret. }
  assert (is_whitespace b = false) as Hb.
  { destruct (run_of is_whitespace rest) as [run r'] eqn:Hrun. simpl in Hr. subst r'.
    by apply run_of_class in Hrun as [_ ?]. }
  cbn [read_trivia]. rewrite Hb. destruct (b =? 37) eqn:Hpc; cbn [negb].
  2: { eapply computes_ret; [done..|]. done. }
  apply parses_gets, parses_modify. destruct (advance_ok _ _ _ Hs2 Hc2) as [Hs3 Hc3].
  rewrite read_trivia_comment. pose proof (run_of_length in_comment l) as Hlen'.
  eapply computes_limited; [apply comment_loop_ok; [done|done|simpl; lia]|].
  intros s4 r Hs4 [-> Hc4]. apply parses_gets. rewrite (suffix_at_end _ _ _ Hc4).
  destruct (run_of in_comment l).2 as [|b' l'] eqn:Hr'.
  - rewrite bool_decide_eq_true_2 by done. cbn [read_trivia]. destruct (may_continue p).
    + apply (computes_incomplete (A := unit)); [done..|]. apply absolute_ok, Hs4.
    + by eapply computes_ret.
  - rewrite bool_decide_eq_false_2 by done.
    assert (in_comment b' = false) as Hb'.
    { destruct (run_of in_comment l) as [run r'] eqn:Hrun. simpl in Hr'. subst r'.
      by apply run_of_class in Hrun as [_ ?]. }
    cbn [read_trivia]. fold (in_comment b'). rewrite Hb'.
    specialize (IH (b' :: l') s4). cbn [read_trivia] in IH.
    rewrite (line_end_whitespace _ Hb') in IH. apply IH; [|done|done].
    simpl in *. lia.
Qed.

Lemma skip_trivia_ok rest s :
  state_ok p s → suffix_at p (ps_cursor s) rest →
  computes p (skip_trivia p) s (read_trivia (may_continue p) false rest)
    (λ s' _ r, suffix_at p (ps_cursor s') r).
Proof.
  intros Hs Hc. unfold skip_trivia, computes. apply parses_gets. cbv zeta.
  rewrite (suffix_from _ _ _ Hc). apply trivia_loop_ok; [lia|done|done].
Qed.

(** What trivia leaves: nothing, or a byte that is neither whitespace nor the
    start of a comment; it is the end of the bytes it was given. *)
Lemma read_trivia_head more comment rest r :
  read_trivia more comment rest = Some r →
  from_option (λ b, is_whitespace b = false ∧ b ≠ 37) True (head r).
Proof.
  revert comment. induction rest as [|b l IH]; intros comment; simpl.
  - destruct (comment && more); [done|]. by intros [= <-].
  - destruct comment; [by apply IH|]. destruct (is_whitespace b) eqn:Hb; [by apply IH|].
    destruct (b =? 37) eqn:Hpc; [by apply IH|]. intros [= <-]. simpl. checked_facts. done.
Qed.

Lemma read_trivia_idem more comment rest r :
  read_trivia more comment rest = Some r → read_trivia more false r = Some r.
Proof.
  intros Hr%read_trivia_head. destruct r as [|b l]; [done|]. simpl in *.
  destruct Hr as [-> Hb]. by apply Z.eqb_neq in Hb as ->.
Qed.

Lemma read_trivia_length more comment rest r :
  read_trivia more comment rest = Some r → (length r ≤ length rest)%nat.
Proof.
  revert comment. induction rest as [|b l IH]; intros comment; simpl.
  - destruct (comment && more); [done|]. by intros [= <-].
  - destruct comment; [intros Hr%IH; lia|]. destruct (is_whitespace b); [intros Hr%IH; lia|].
    destruct (b =? 37); [intros Hr%IH; lia|]. by intros [= <-].
Qed.
End trivia.
