(* ===== verification/SyntaxTokens.v ===== *)
(** * Scans against the reference reader: tokens *)

From stdpp Require Import base list numbers option strings.
From S2P Require Import Prelude.
From S2P Require Import SourceTypes.
From S2P Require Import SyntaxTypes.
From S2P Require Import SyntaxState.
From S2P Require Import SyntaxLexer.
From S2P Require Import SyntaxParser.
From S2P Require Import SyntaxRules.
From S2P Require Import SyntaxReader.
From S2P Require Import SyntaxTrivia.

(** ** The values of digits *)

Lemma digit_bounds d : is_ascii_digit d = true → 0 ≤ d - 48 ≤ 9.
Proof. unfold is_ascii_digit. rewrite andb_true_iff, !Z.leb_le. lia. Qed.

Definition digits_from (m : Z) (digits : list Z) : Z :=
  foldl (λ m d, 10 * m + (d - 48)) m digits.

Lemma digits_from_ge m digits :
  0 ≤ m → Forall (λ d, is_ascii_digit d = true) digits → m ≤ digits_from m digits.
Proof.
  unfold digits_from. intros Hm Hd. revert m Hm.
  induction Hd as [|d digits Hd%digit_bounds _ IH]; intros m Hm; [done|]. simpl.
  specialize (IH (10 * m + (d - 48)) ltac:(lia)). lia.
Qed.

Lemma accumulate_Some m d v :
  accumulate m d = Some v → v = 10 * m + (d - 48) ∧ v ≤ u64_max.
Proof.
  unfold accumulate, checked_mul, checked_add. destruct (m * 10 <=? u64_max); simpl; [|done].
  case_match; [|done]. intros [= <-]. checked_facts. lia.
Qed.

Lemma accumulate_None m d :
  0 ≤ d - 48 → accumulate m d = None → u64_max < 10 * m + (d - 48).
Proof.
  intros Hd. unfold accumulate, checked_mul, checked_add.
  destruct (m * 10 <=? u64_max) eqn:Hm; simpl; [case_match; [done|]|];
    intros _; checked_facts; lia.
Qed.

(** A value accumulated without overflow is the value of the digits. *)
Lemma signed_integer_value negative digits :
  Forall (λ d, is_ascii_digit d = true) digits →
  integer_value negative digits =
    if digits_value digits <=? u64_max then signed_value negative (digits_value digits)
    else None.
Proof.
  intros Hd. pose proof (digits_from_ge 0 digits ltac:(lia) Hd) as Hge.
  fold (digits_value digits) in Hge. unfold digits_from in Hge. fold (digits_value digits) in Hge.
  unfold integer_value, signed_value. set (v := digits_value digits) in *.
  unfold try_from, i64_max, u64_max.
  destruct negative; repeat case_match; simpl; checked_facts;
    rewrite ?andb_true_iff, ?andb_false_iff in *; checked_facts; simplify_eq/=;
    try done; try lia; f_equal; lia.
Qed.

Section tokens.
Context `{ParserRuntime} (p : SyntaxParser).
Hypothesis Hp : parser_ok p.
Implicit Types s : ParserState.
Local Notation more := (may_continue p).

(** ** Runs *)

Lemma regular_loop_ok start index rest s :
  state_ok p s → suffix_at p index rest → (start ≤ index)%nat →
  parses p (limited p) (regular_loop p start index rest) s
    (λ s' stop, ps_cursor s' = ps_cursor s ∧
       stop = (index + length (run_of is_regular rest).1)%nat).
Proof.
  revert index s. induction rest as [|b l IH]; intros index s Hs Hc Hst;
    cbn [regular_loop run_of].
  { apply parses_ret; [done|]. simpl. split; [done|lia]. }
  unfold is_regular at 1. destruct (is_delimiter b); cbn [negb].
  { apply parses_ret; [done|]. simpl. split; [done|lia]. }
  apply parses_probe; [done|done|done|by eapply suffix_ok|]. intros s1 Hs1 Hc1.
  apply suffix_cons in Hc as [_ Hc]. pose proof (proj1 Hc).
  apply parses_check'; [apply check_token_len_ok; try done; lia|].
  eapply parses_weaken; [apply IH; [done|done|lia]|]. intros s2 stop _ [Hc2 ->].
  rewrite Hc2. split; [done|]. destruct (run_of is_regular l). simpl. lia.
Qed.

Lemma digits_loop_ok offset count rest s :
  state_ok p s → offset_ok p offset →
  parses p (limited p) (digits_loop offset count rest) s
    (λ s' r, ps_cursor s' = ps_cursor s ∧
       r = ((count + length (run_of is_ascii_digit rest).1)%nat, (run_of is_ascii_digit rest).2)).
Proof.
  intros Hs Ho. revert count s Hs. induction rest as [|b l IH]; intros count s Hs;
    cbn [digits_loop run_of].
  { apply parses_ret; [done|]. simpl. by rewrite Nat.add_0_r. }
  destruct (is_ascii_digit b).
  2: { apply parses_ret; [done|]. simpl. by rewrite Nat.add_0_r. }
  apply parses_probe; [done|done|done|done|]. intros s1 Hs1 Hc1.
  eapply parses_weaken; [by apply IH|]. intros s2 r _ [Hc2 ->]. rewrite Hc2. split; [done|].
  destruct (run_of is_ascii_digit l). simpl. f_equal. lia.
Qed.

Lemma magnitude_loop_ok offset m digits s :
  state_ok p s → offset_ok p offset → 0 ≤ m ≤ u64_max →
  Forall (λ d, is_ascii_digit d = true) digits →
  computes p (magnitude_loop offset m digits) s
    (if digits_from m digits <=? u64_max then Some (digits_from m digits) else None)
    (λ s' v w, ps_cursor s' = ps_cursor s ∧ v = w).
Proof.
  intros Hs Ho Hm Hd. revert m s Hm Hs. induction Hd as [|d digits Hd Hds IH];
    intros m s Hm Hs; cbn [magnitude_loop].
  { cbn [digits_from foldl]. rewrite (proj2 (Z.leb_le m u64_max)) by lia. by eapply computes_ret. }
  apply computes_probe; [done|done|done|]. intros s1 Hs1 Hc1. rewrite <-Hc1.
  pose proof (digit_bounds _ Hd).
  pose proof (digits_from_ge (10 * m + (d - 48)) digits ltac:(lia) Hds) as Hge.
  change (digits_from m (d :: digits)) with (digits_from (10 * m + (d - 48)) digits).
  apply computes_some_or; [done|done|done|done|..].
  - intros Hn%accumulate_None; [|lia]. by rewrite (proj2 (Z.leb_gt _ _)) by lia.
  - intros a [-> Ha]%accumulate_Some. apply IH; [lia|done].
Qed.

(** ** Numbers *)

Lemma split_sign_app raw negative unsigned :
  split_sign raw = (negative, unsigned) → ∃ sign, raw = sign ++ unsigned ∧ (length sign ≤ 1)%nat.
Proof.
  unfold split_sign. destruct raw as [|b l]; [|destruct (b =? 45); [|destruct (b =? 43)]];
    intros [= <- <-]; [exists []|exists [b]|exists [b]|exists []];
    (split; [done|simpl; lia]).
Qed.

Lemma parse_fraction_ok offset rest s :
  state_ok p s → offset_ok p offset →
  parses p (limited p) (parse_fraction offset rest) s
    (λ s' r, ps_cursor s' = ps_cursor s ∧
       r = ((read_fraction rest).1.1, length (read_fraction rest).1.2, (read_fraction rest).2)).
Proof.
  intros Hs Ho. unfold parse_fraction, read_fraction. destruct rest as [|b l].
  { by apply parses_ret. }
  destruct (b =? 46); [|by apply parses_ret].
  eapply parses_bind; [by apply digits_loop_ok|]. intros s1 ? Hs1 [Hc1 ->].
  apply parses_ret; [done|]. by destruct (run_of is_ascii_digit l).
Qed.

Lemma parse_exponent_ok offset rest s :
  state_ok p s → offset_ok p offset →
  computes p (parse_exponent offset rest) s
    (let '(has, digits, r) := read_exponent rest in
     if (has : bool) && bool_decide (digits = []) then None else Some (has, r))
    (λ s' r r', ps_cursor s' = ps_cursor s ∧ r = r').
Proof.
  intros Hs Ho. unfold parse_exponent, read_exponent. destruct rest as [|b l].
  { by eapply computes_ret. }
  destruct ((b =? 101) || (b =? 69)); [|by eapply computes_ret].
  fold (exponent_digits l).
  eapply computes_limited; [by apply digits_loop_ok|]. intros s1 ? Hs1 [Hc1 ->].
  destruct (run_of is_ascii_digit (exponent_digits l)) as [run r]. simpl.
  destruct run; simpl; [by apply computes_malformed|].
  by eapply computes_ret.
Qed.

Lemma read_fraction_none rest fraction r :
  read_fraction rest = (false, fraction, r) → r = rest.
Proof.
  unfold read_fraction. destruct rest as [|b l]; [congruence|].
  destruct (b =? 46); [by destruct (run_of is_ascii_digit l)|congruence].
Qed.

Lemma read_exponent_none rest exponent r :
  read_exponent rest = (false, exponent, r) → r = rest.
Proof.
  unfold read_exponent. destruct rest as [|b l]; [congruence|].
  destruct ((b =? 101) || (b =? 69)); [|congruence].
  by destruct (run_of is_ascii_digit (exponent_digits l)).
Qed.

Lemma parse_real_ok raw offset notation s :
  state_ok p s → offset_ok p offset → len raw ≤ u64_max →
  computes p (owned ← copy_owned p raw offset;
              mret (RealToken {| real_raw := owned_string owned; real_notation := notation |})) s
    (Some (RealToken {| real_raw := owned_string raw; real_notation := notation |}))
    (λ s' k k', ps_cursor s' = ps_cursor s ∧ k = k').
Proof.
  intros Hs Ho Hl. eapply computes_quiet; [by apply copy_owned_ok|].
  intros s1 ? Hs1 Hc ->. by eapply computes_ret.
Qed.

Lemma parse_integer_ok negative digits offset s :
  state_ok p s → offset_ok p offset → Forall (λ d, is_ascii_digit d = true) digits →
  computes p (magnitude ← magnitude_loop offset 0 digits;
              value ← some_or (signed_value negative magnitude)
                (SyntaxError_for_code IntegerOutOfRange (Some offset));
              mret (IntegerToken value)) s
    (value ← integer_value negative digits; Some (IntegerToken value))
    (λ s' k k', ps_cursor s' = ps_cursor s ∧ k = k').
Proof.
  intros Hs Ho Hd. rewrite (signed_integer_value _ _ Hd).
  eapply computes_bind.
  - apply magnitude_loop_ok; [done|done|unfold u64_max; lia|done].
  - fold (digits_value digits). unfold digits_from. fold (digits_value digits). by case_match.
  - intros s1 v w Hs1 Hspec [Hc ->]. unfold digits_from in Hspec.
    fold (digits_value digits) in Hspec. destruct (digits_value digits <=? u64_max); [|done].
    simplify_eq. apply computes_some_or; [done|done|done|done|by intros ->|].
    intros v ->. by eapply computes_ret.
Qed.

Lemma parse_number_ok raw offset s :
  state_ok p s → offset_ok p offset → len raw ≤ u64_max →
  computes p (parse_number p raw offset) s (read_number raw)
    (λ s' k k', ps_cursor s' = ps_cursor s ∧ k = k').
Proof.
  intros Hs Ho Hl. unfold parse_number, read_number.
  destruct (split_sign raw) as [negative unsigned].
  eapply computes_limited; [by apply digits_loop_ok|]. intros s1 ? Hs1 [Hc1 ->]. rewrite <-Hc1.
  destruct (run_of is_ascii_digit unsigned) as [whole rest] eqn:Hwhole. cbn [fst snd].
  eapply computes_limited; [by apply parse_fraction_ok|]. intros s2 ? Hs2 [Hc2 ->].
  rewrite <-Hc2. destruct (read_fraction rest) as [[has_dot fraction] rest'] eqn:Hfrac.
  cbn [fst snd]. rewrite Nat.add_0_l.
  assert (∀ l : list Z, (length l =? 0)%nat = bool_decide (l = [])) as Hlen
    by (intros []; done).
  rewrite !Hlen. pose proof (parse_exponent_ok offset rest' s2 Hs2 Ho) as Hexp.
  destruct (read_exponent rest') as [[has_exponent exponent] rest''] eqn:Hread.
  destruct (bool_decide (whole = []) && bool_decide (fraction = [])).
  { by apply computes_malformed. }
  eapply computes_bind; [exact Hexp|by case_match|]. cbv beta. clear Hexp.
  intros s3 ? ? Hs3 Hspec [Hc3 ->]. rewrite <-Hc3.
  destruct (has_exponent && bool_decide (exponent = [])) eqn:Hhas; [done|].
  simplify_eq. destruct rest'' as [|b l]; simpl; [|by apply computes_malformed].
  destruct has_exponent; simpl; [rewrite orb_true_r; by apply parse_real_ok|].
  rewrite orb_false_r. destruct has_dot; [by apply parse_real_ok|].
  apply read_exponent_none in Hread as <-. apply read_fraction_none in Hfrac as <-.
  pose proof (run_of_app _ _ _ _ Hwhole) as ->. rewrite app_nil_r.
  apply parse_integer_ok; [done|done|]. by apply run_of_class in Hwhole as [? _].
Qed.

(** ** Regular tokens *)

(** The outcome of a scan from [start], with [rest] before it. *)
Definition token_from (start : nat) (s' : ParserState) (t : Token) (kr : TokenKind * list Z)
    : Prop :=
  suffix_at p (ps_cursor s') kr.2 ∧
  t = {| token_start := absolute p start; token_end := offset_of (window_end p) kr.2;
         token_kind := kr.1 |}.

Lemma finish_token start stop kind r s :
  state_ok p s → suffix_at p stop r →
  parses p (limited p)
    (modify (move_cursor stop);;
     mret {| token_start := absolute p start; token_end := absolute p stop;
             token_kind := kind |}) s
    (λ s' t, token_from start s' t (kind, r)).
Proof.
  intros Hs Hc. apply parses_modify, parses_ret; [apply move_cursor_ok; [done|apply Hc]|].
  split; [done|]. simpl. by rewrite (suffix_offset _ _ _ Hc).
Qed.

Lemma scan_regular_ok start byte l s :
  state_ok p s → suffix_at p start (byte :: l) →
  computes p (scan_regular p start) s (read_regular more byte (byte :: l)) (token_from start).
Proof.
  intros Hs Hc. unfold scan_regular, read_regular. rewrite (suffix_from _ _ _ Hc).
  pose proof (suffix_ok _ _ _ Hc) as Hoff.
  eapply computes_limited; [by apply regular_loop_ok|]. intros s1 stop Hs1 [Hc1 ->].
  destruct (run_of is_regular (byte :: l)) as [raw r] eqn:Hrun. cbn [fst].
  pose proof (run_of_app _ _ _ _ Hrun) as Happ. rewrite Happ in Hc.
  pose proof (suffix_app _ _ _ _ Hc) as Hc'.
  destruct raw as [|b raw].
  { rewrite Nat.add_0_r, Nat.eqb_refl. by apply computes_malformed. }
  rewrite (proj2 (Nat.eqb_neq _ _)) by (simpl; lia).
  eapply computes_some; [by eapply suffix_cons|].
  assert (b = byte) as -> by (by injection Happ).
  rewrite (suffix_at_end _ _ _ Hc'), (suffix_slice _ _ _ _ Hc).
  assert (len (byte :: raw) ≤ u64_max) as Hlen.
  { pose proof (suffix_length _ _ _ Hc) as Hl. rewrite length_app in Hl. parser_facts Hp. lia. }
  rewrite (bool_decide_eq_false_2 (byte :: raw = [])) by done. cbn [orb].
  destruct (bool_decide (r = []) && more).
  { apply computes_incomplete; [done|done|done|by case_match|]. apply (suffix_ok _ _ _ Hc'). }
  destruct (is_number_start byte).
  - eapply computes_bind; [by apply parse_number_ok|by intros ->|].
    intros s2 k ? Hs2 -> [Hc2 ->]. eapply computes_parses; [by apply finish_token|].
    intros s3 t _ Ht. by eexists.
  - eapply (computes_limited _ _ _ _ _ (λ s' k, k = Keyword (byte :: raw))).
    { by apply parses_ret. }
    intros s2 ? Hs2 ->. eapply computes_parses; [by apply finish_token|].
    intros s3 t _ Ht. by eexists.
Qed.

(** ** Names *)

(** A scanned name and the bytes it decodes to. *)
Inductive name_body : list Z → list Z → Prop :=
| name_nil : name_body [] []
| name_plain byte body decoded :
    byte ≠ 35 → name_body body decoded → name_body (byte :: body) (byte :: decoded)
| name_escape high low h l body decoded :
    hex_value high = Some h → hex_value low = Some l → name_body body decoded →
    name_body (35 :: high :: low :: body) (Z.lor (Z.shiftl h 4) l :: decoded).

Definition name_scan (index : nat) (d : Z) (rest : list Z) (r : nat * Z)
    (decoded_rest : list Z * list Z) : Prop :=
  ∃ body, rest = body ++ decoded_rest.2 ∧ name_body body decoded_rest.1 ∧
    r = ((index + length body)%nat, d + len decoded_rest.1).

Lemma name_scan_cons index d prefix b rest r decoded r' :
  (∀ body, name_body body decoded → name_body (prefix ++ body) (b :: decoded)) →
  name_scan (index + length prefix) (d + 1) rest r (decoded, r') →
  name_scan index d (prefix ++ rest) r (b :: decoded, r').
Proof.
  intros Hb (body&->&Hbody&->). exists (prefix ++ body). simpl.
  rewrite <-app_assoc, length_app. split_and!; [done|by apply Hb|]. f_equal; lia.
Qed.

Lemma name_checks {A B} start stop d (k : ParseM A) s (spec : option B) Q :
  state_ok p s → (start ≤ length (window p))%nat → (stop ≤ length (window p))%nat →
  computes p k s spec Q →
  computes p (check_token_len p start stop;;
              check_single_limit NameBytes (sl_max_name_bytes (sp_limits p)) d
                (absolute p start);; k) s spec Q.
Proof.
  intros Hs Hst Hsp Hk. apply computes_check; [by apply check_token_len_ok|].
  apply computes_check; [|done]. eapply parses_weaken.
  - apply check_single_limit_ok; [done|done|done|by apply absolute_ok].
  - by intros s' _ _ [-> _].
Qed.

Lemma name_loop_ok start index d rest s :
  state_ok p s → suffix_at p index rest → (start ≤ index)%nat →
  computes p (name_loop p start index d rest) s (read_name false rest)
    (λ s' r dr, ps_cursor s' = ps_cursor s ∧ name_scan index d rest r dr).
Proof.
  revert index d s. induction rest as [rest IH] using (induction_ltof1 _ (@length Z)).
  unfold ltof in IH. intros index d s Hs Hc Hst.
  destruct rest as [|b l]; cbn [name_loop read_name].
  { eapply computes_ret; [done|done|]. split; [done|]. exists []. simpl.
    split_and!; [done|constructor|]. f_equal; lia. }
  pose proof (suffix_ok _ _ _ Hc) as Hoff. pose proof (proj1 Hc).
  destruct (is_delimiter b).
  { eapply computes_ret; [done|done|]. split; [done|]. exists []. simpl.
    split_and!; [done|constructor|]. f_equal; lia. }
  apply computes_probe; [done|done|done|]. intros s1 Hs1 Hc1. rewrite <-Hc1.
  destruct (b =? 35) eqn:Hb; checked_facts.
  - subst b. destruct l as [|high [|low l]].
    1, 2: (destruct (may_continue p); [by apply computes_incomplete|by apply computes_malformed]).
    destruct (hex_value high) as [h|] eqn:Hh; simpl; [|by apply computes_malformed].
    destruct (hex_value low) as [lo|] eqn:Hlo; simpl; [|by apply computes_malformed].
    apply (suffix_app p index [35; high; low]) in Hc. simpl in Hc. pose proof (proj1 Hc).
    apply name_checks; [done|lia|lia|].
    eapply computes_spec; [apply IH; [simpl; lia|done|done|lia]|by intros ->|].
    intros s2 r [decoded r'] _ -> [Hc2 Hscan]. eexists. split; [done|]. split; [done|].
    apply (name_scan_cons index d [35; high; low]); [|done].
    intros body Hbody. by constructor.
  - apply suffix_cons in Hc as [_ Hc]. pose proof (proj1 Hc).
    apply name_checks; [done|lia|lia|].
    eapply computes_spec; [apply IH; [simpl; lia|done|done|lia]|by intros ->|].
    intros s2 r [decoded r'] _ -> [Hc2 Hscan]. eexists. split; [done|]. split; [done|].
    apply (name_scan_cons index d [b]); [intros body Hbody; by constructor|].
    simpl. by rewrite Nat.add_1_r.
Qed.

Lemma name_decode_ok source body decoded r s :
  state_ok p s → suffix_at p source (body ++ r) → name_body body decoded →
  parses p (limited p) (name_decode p source body) s
    (λ s' d, ps_cursor s' = ps_cursor s ∧ d = decoded).
Proof.
  intros Hs Hc Hb. revert source s Hs Hc.
  induction Hb as [|b body decoded Hne _ IH|high low h l body decoded Hh Hl _ IH];
    intros source s Hs Hc; cbn [name_decode app] in *; [by apply parses_ret|..];
    pose proof (suffix_ok _ _ _ Hc) as Hoff;
    (apply parses_probe; [done|done|done|done|]); intros s1 Hs1 Hc1.
  - apply Z.eqb_neq in Hne as ->. apply suffix_cons in Hc as [_ Hc].
    eapply parses_bind; [by apply IH|]. intros s2 ? Hs2 [Hc2 ->]. apply parses_ret; [done|].
    split; [congruence|done].
  - rewrite Z.eqb_refl. eapply parses_ok_or; [done|]. eapply parses_ok_or; [done|].
    apply (suffix_app p source [35; high; low]) in Hc.
    eapply parses_bind; [by apply IH|]. intros s2 ? Hs2 [Hc2 ->]. apply parses_ret; [done|].
    split; [congruence|done].
Qed.

Lemma read_name_more m rest :
  read_name m rest =
    (dr ← read_name false rest; if bool_decide (dr.2 = []) && m then None else Some dr).
Proof.
  induction rest as [rest IH] using (induction_ltof1 _ (@length Z)). unfold ltof in IH.
  destruct rest as [|b l]; cbn [read_name]; [by destruct m|].
  destruct (is_delimiter b); [done|].
  destruct (b =? 35).
  - destruct l as [|high [|low l]]; [done|done|]. simpl in IH.
    destruct (hex_value high); simpl; [|done]. destruct (hex_value low); simpl; [|done].
    rewrite (IH l) by lia. destruct (read_name false l) as [[d r]|]; simpl; [|done].
    by destruct (bool_decide (r = []) && m).
  - simpl in IH. rewrite (IH l) by lia.
    destruct (read_name false l) as [[d r]|]; simpl; [|done].
    by destruct (bool_decide (r = []) && m).
Qed.

Lemma scan_name_ok start l s :
  state_ok p s → suffix_at p start (47 :: l) →
  computes p (scan_name p start) s
    ('(decoded, r) ← read_name more l; Some (NameToken (owned_string decoded), r))
    (token_from start).
Proof.
  intros Hs Hc. unfold scan_name. pose proof (suffix_ok _ _ _ Hc) as Hoff. pose proof (proj1 Hc).
  apply suffix_cons in Hc as [_ Hc]. rewrite (suffix_from _ _ _ Hc), read_name_more.
  eapply computes_bind; [apply name_loop_ok; [done|done|lia]|by intros ->|].
  intros s1 [stop n] [decoded r] Hs1 -> [Hc1 (body&->&Hbody&[= -> ->])]. cbn [fst snd] in *.
  change (S (start + length body)) with (S start + length body)%nat.
  pose proof (suffix_app _ _ _ _ Hc) as Hc'. rewrite (suffix_at_end _ _ _ Hc').
  cbn [mbind option_bind snd]. destruct (bool_decide (r = []) && more) eqn:Hend.
  { apply computes_incomplete; try done. apply (suffix_ok _ _ _ Hc'). }
  cbn [mbind option_bind]. pose proof (proj1 Hc').
  apply computes_check; [apply check_token_len_ok; try done; lia|].
  eapply computes_quiet; [apply allocate_owned_ok; try done; lia|]. intros s2 _ Hs2 _ _.
  eapply computes_limited.
  { rewrite (suffix_slice _ (S start) body r Hc). by eapply name_decode_ok. }
  intros s3 ? Hs3 [_ ->]. eapply computes_parses; [by apply finish_token|].
  intros s4 t _ Ht. by eexists.
Qed.
End tokens.
