(* ===== verification/SyntaxStrings.v ===== *)
(** * Scans against the reference reader: strings *)

From stdpp Require Import base list numbers option strings.
From S2P Require Import Prelude.
From S2P Require Import SourceTypes.
From S2P Require Import SyntaxTypes.
From S2P Require Import SyntaxState.
From S2P Require Import SyntaxLexer.
From S2P Require Import SyntaxParser.
From S2P Require Import SyntaxRules.
From S2P Require Import SyntaxReader.
From S2P Require Import SyntaxTrivia.
From S2P Require Import SyntaxTokens.

Section strings.
Context `{ParserRuntime} (p : SyntaxParser).
Hypothesis Hp : parser_ok p.
Implicit Types s : ParserState.

Lemma suffix_skip k index rest :
  suffix_at p index rest → (k ≤ length rest)%nat → suffix_at p (index + k) (drop k rest).
Proof.
  intros Hs Hk. rewrite <-(take_drop k rest) in Hs. apply suffix_app in Hs.
  by rewrite length_take_le in Hs.
Qed.

(** The outcome of a scan of a string: its end, and the length it decodes to. *)
Definition string_scan (cursor : nat) (d : Z) (s' : ParserState) (r : nat * Z)
    (decoded_rest : list Z * list Z) : Prop :=
  ps_cursor s' = cursor ∧ suffix_at p r.1 decoded_rest.2 ∧ r.2 = d + len decoded_rest.1.

Lemma string_push b (m : ParseM (nat * Z)) s c d (spec : option (list Z * list Z)) :
  computes p m s spec (string_scan c (d + 1)) →
  computes p m s ('(decoded, r) ← spec; Some (b :: decoded, r)) (string_scan c d).
Proof.
  intros Hm. eapply computes_spec; [exact Hm|by intros ->|].
  intros s' r [decoded rest] _ -> (Hc&Hs&Hn). eexists. split; [done|]. split_and!; [done..|].
  simpl in *. lia.
Qed.

Lemma computes_source {A B} start stop (k : ParseM A) s (spec : option B) Q :
  state_ok p s → (start ≤ length (window p))%nat → (stop ≤ length (window p))%nat →
  computes p k s spec Q → computes p (check_string_source p start stop;; k) s spec Q.
Proof. intros. apply computes_check; [by apply check_string_source_ok|done]. Qed.

Lemma computes_decoded {A B} d start (k : ParseM A) s (spec : option B) Q :
  state_ok p s → (start ≤ length (window p))%nat →
  computes p k s spec Q → computes p (check_decoded p d start;; k) s spec Q.
Proof. intros. apply computes_check; [by apply check_decoded_ok|done]. Qed.

Lemma computes_or_resource {A B C} (o : option A) kind limit consumed attempted offset
    (f : A → ParseM B) s (spec : option C) Q :
  state_ok p s → offset_ok p offset → (o = None → limit < consumed + attempted) →
  (∀ a, o = Some a → computes p (f a) s spec Q) →
  computes p (some_or o (SyntaxError_resource kind limit consumed attempted (Some offset)) ≫= f)
    s spec Q.
Proof.
  intros Hs Ho Hl Hf. destruct o as [a|]; [by apply Hf|]. split; [by apply state_stopped|].
  left. apply (resource_limited p (limited p)); auto.
Qed.

Lemma computes_resource {A B} kind limit consumed attempted offset s (spec : option B)
    (Q : ParserState → A → B → Prop) :
  state_ok p s → offset_ok p offset → limit < consumed + attempted →
  computes p (fail (SyntaxError_resource kind limit consumed attempted (Some offset))) s spec Q.
Proof.
  intros Hs Ho Hl. split; [by apply state_stopped|]. left. by apply (resource_limited p (limited p)).
Qed.

(** ** Literal strings *)

Lemma computes_none {A B} (m : ParseM A) s (Q Q' : ParserState → A → B → Prop) :
  computes p m s None Q → computes p m s None Q'.
Proof. intros Hm. by eapply computes_spec; [exact Hm|..]. Qed.

(** One branch of the scan: its checks, then the loop on what remains. *)
Ltac literal_branch IH :=
  repeat first [ apply computes_source; [done|lia|lia|]
               | apply computes_decoded; [done|lia|] ];
  first [ try apply string_push; apply IH; [simpl; lia|done|assumption|lia]
        | eapply computes_none; apply IH; [simpl; lia|done|assumption|lia] ].

Lemma literal_loop_ok start index nesting d rest s :
  state_ok p s → suffix_at p index rest → (start ≤ index)%nat →
  computes p (literal_loop p start index nesting d rest) s (read_literal nesting rest)
    (string_scan (ps_cursor s) d).
Proof.
  revert index nesting d s. induction rest as [rest IH] using (induction_ltof1 _ (@length Z)).
  unfold ltof in IH. intros index nesting d s Hs Hc Hst.
  pose proof (suffix_ok _ _ _ Hc) as Hoff. pose proof (suffix_length _ _ _ Hc) as Hlen.
  destruct rest as [|b l]; cbn [literal_loop read_literal];
    (apply computes_probe; [done|done|done|]); intros s1 Hs1 Hc1; rewrite <-Hc1.
  { by apply computes_incomplete. }
  simpl in Hlen. apply computes_source; [done|lia|lia|].
  pose proof (suffix_cons _ _ _ _ Hc) as [_ Hc']. pose proof (suffix_ok _ _ _ Hc') as Hoff'.
  destruct (b =? 40).
  { apply computes_or_resource; [done|done|intros Hn; checked_facts; parser_facts Hp; lia|].
    intros n [_ ->]%checked_add_Some. destruct (_ <? nesting + 1) eqn:Hlim; checked_facts.
    - apply computes_resource; [done|done|lia].
    - literal_branch IH. }
  destruct (b =? 41).
  { case_match; [|literal_branch IH]. eapply computes_ret; [done|done|].
    split_and!; simpl; [done|done|lia]. }
  destruct (b =? 92).
  { destruct l as [|e l]; [by apply computes_incomplete|]. simpl in Hlen.
    pose proof (suffix_skip 2 _ _ Hc ltac:(simpl; lia)) as Hc2. simpl in Hc2.
    apply computes_source; [done|lia|lia|].
    destruct (e =? 13).
    { destruct l as [|n l]; [literal_branch IH|]. case_match; [|literal_branch IH].
      pose proof (suffix_skip 3 _ _ Hc ltac:(simpl; lia)) as Hc3. simpl in Hc3, Hlen.
      literal_branch IH. }
    destruct (e =? 10); [literal_branch IH|].
    destruct (is_octal_digit e); [|literal_branch IH].
    destruct l as [|e2 l]; [literal_branch IH|].
    destruct (is_octal_digit e2); [|literal_branch IH].
    pose proof (suffix_skip 3 _ _ Hc ltac:(simpl; lia)) as Hc3. simpl in Hc3, Hlen.
    destruct l as [|e3 l]; [literal_branch IH|].
    destruct (is_octal_digit e3); [|literal_branch IH].
    pose proof (suffix_skip 4 _ _ Hc ltac:(simpl; lia)) as Hc4. simpl in Hc4, Hlen.
    literal_branch IH. }
  destruct (b =? 13); [|literal_branch IH].
  destruct l as [|n l]; [literal_branch IH|]. case_match; [|literal_branch IH].
  pose proof (suffix_skip 2 _ _ Hc ltac:(simpl; lia)) as Hc2. simpl in Hc2, Hlen.
  literal_branch IH.
Qed.

(** A read of a string consumes at least the closing byte. *)
Lemma push_Some (b : Z) (o : option (list Z * list Z)) decoded r :
  ('(decoded, r) ← o; Some (b :: decoded, r)) = Some (decoded, r) →
  ∃ decoded', o = Some (decoded', r) ∧ decoded = b :: decoded'.
Proof. destruct o as [[d r']|]; [|done]. intros [= <- <-]. by exists d. Qed.

Lemma read_literal_length depth rest decoded r :
  read_literal depth rest = Some (decoded, r) → (length r < length rest)%nat.
Proof.
  revert depth decoded. induction rest as [rest IH] using (induction_ltof1 _ (@length Z)).
  unfold ltof in IH. intros depth decoded.
  destruct rest as [|b l]; cbn [read_literal]; [done|].
  repeat case_match; try done;
    first [ intros [= _ <-]; simpl; lia
          | intros (d&Hd%IH&_)%push_Some; simpl in *; lia
          | intros Hd%IH; simpl in *; lia ].
Qed.

Lemma decode_push b s c (decoded : list Z) (m : ParseM (list Z)) :
  parses p (limited p) m s (λ s' d, ps_cursor s' = c ∧ d = decoded) →
  parses p (limited p) (decoded ← m; mret (b :: decoded)) s
    (λ s' d, ps_cursor s' = c ∧ d = b :: decoded).
Proof.
  intros Hm. eapply parses_bind; [exact Hm|]. intros s' ? Hs' [Hc ->]. by apply parses_ret.
Qed.

(** One branch of the second pass, from the branch of the reader. *)
Ltac decode_branch IH Hr :=
  first [ apply push_Some in Hr as (? & Hr & ->); apply decode_push | idtac ];
  eapply IH; [simpl; lia|done|assumption|exact Hr|simpl in *; lia].

Lemma literal_decode_ok source stop depth rest decoded r s :
  state_ok p s → suffix_at p source rest → read_literal depth rest = Some (decoded, r) →
  (stop + length r = source + length rest)%nat →
  parses p (limited p) (literal_decode p source stop depth rest) s
    (λ s' d, ps_cursor s' = ps_cursor s ∧ d = decoded).
Proof.
  revert source depth decoded s.
  induction rest as [rest IH] using (induction_ltof1 _ (@length Z)). unfold ltof in IH.
  intros source depth decoded s Hs Hc Hr Hstop. pose proof (read_literal_length _ _ _ _ Hr) as Hlt.
  pose proof (suffix_ok _ _ _ Hc) as Hoff.
  destruct rest as [|b l]; [done|]. cbn [literal_decode].
  rewrite (proj2 (Nat.ltb_lt source stop)) by lia. cbn [negb].
  apply parses_probe; [done|done|done|done|]. intros s1 Hs1 Hc1. rewrite <-Hc1.
  cbn [read_literal] in Hr. pose proof (suffix_cons _ _ _ _ Hc) as [_ Hc'].
  destruct (b =? 40); [decode_branch IH Hr|].
  destruct (b =? 41).
  { destruct (depth - 1 =? 0); [|decode_branch IH Hr]. injection Hr as <- <-. by apply parses_ret. }
  destruct (b =? 92).
  { destruct l as [|e l]; [done|].
    pose proof (suffix_skip 2 _ _ Hc ltac:(simpl; lia)) as Hc2. simpl in Hc2.
    destruct (e =? 13).
    { destruct l as [|n l]; [done|]. destruct (n =? 10); [|decode_branch IH Hr].
      pose proof (suffix_skip 3 _ _ Hc ltac:(simpl; lia)) as Hc3. simpl in Hc3.
      decode_branch IH Hr. }
    destruct (e =? 10); [decode_branch IH Hr|].
    destruct (is_octal_digit e); [|decode_branch IH Hr].
    destruct l as [|e2 l]; [done|].
    destruct (is_octal_digit e2); [|decode_branch IH Hr].
    pose proof (suffix_skip 3 _ _ Hc ltac:(simpl; lia)) as Hc3. simpl in Hc3.
    destruct l as [|e3 l]; [done|].
    destruct (is_octal_digit e3); [|decode_branch IH Hr].
    pose proof (suffix_skip 4 _ _ Hc ltac:(simpl; lia)) as Hc4. simpl in Hc4.
    decode_branch IH Hr. }
  destruct (b =? 13); [|decode_branch IH Hr].
  destruct l as [|n l]; [done|]. destruct (n =? 10); [|decode_branch IH Hr].
  pose proof (suffix_skip 2 _ _ Hc ltac:(simpl; lia)) as Hc2. simpl in Hc2.
  decode_branch IH Hr.
Qed.

Lemma scan_literal_string_ok start l s :
  state_ok p s → suffix_at p start (40 :: l) →
  computes p (scan_literal_string p start) s
    ('(decoded, r) ← read_literal 1 l; Some (string_token Literal decoded, r))
    (token_from p start).
Proof.
  intros Hs Hc. unfold scan_literal_string. pose proof (suffix_ok _ _ _ Hc) as Hoff.
  pose proof (proj1 Hc). apply suffix_cons in Hc as [_ Hc]. rewrite (suffix_from _ _ _ Hc).
  eapply computes_bind; [apply literal_loop_ok; [done|done|lia]|by intros ->|].
  intros s1 [stop n] [decoded r] Hs1 Hread (Hc1&Hr&Hn). rewrite Hread. cbn [fst snd] in *.
  apply computes_decoded; [done|lia|]. subst n.
  eapply computes_quiet; [apply allocate_owned_ok; try done; lia|]. intros s2 _ Hs2 _ _.
  eapply computes_limited.
  { eapply literal_decode_ok; [done|exact Hc|exact Hread|].
    apply suffix_length in Hr, Hc. lia. }
  intros s3 ? Hs3 [_ ->]. eapply computes_parses; [by apply finish_token|].
  intros s4 t _ Ht. by eexists.
Qed.

(** ** Hexadecimal strings *)

Lemma hex_loop_ok start index n rest s high :
  state_ok p s → suffix_at p index rest → (start ≤ index)%nat → 0 ≤ n →
  computes p (hex_loop p start index n rest) s (read_hex high rest)
    (λ s' r dr, ps_cursor s' = ps_cursor s ∧ suffix_at p r.1 dr.2 ∧ n ≤ r.2 ∧
       (r.2 - n + if high then 2 else 1) / 2 = len dr.1).
Proof.
  revert index n high s. induction rest as [|b l IH]; intros index n high s Hs Hc Hst Hn;
    pose proof (suffix_ok _ _ _ Hc) as Hoff; cbn [hex_loop read_hex];
    (apply computes_probe; [done|done|done|]); intros s1 Hs1 Hc1; rewrite <-Hc1.
  { by apply computes_incomplete. }
  pose proof (suffix_cons _ _ _ _ Hc) as [_ Hc']. pose proof (proj1 Hc'). pose proof (proj1 Hc).
  apply computes_source; [done|lia|lia|].
  destruct (b =? 62).
  { eapply computes_ret; [done|done|]. split_and!; simpl; [done|done|lia|].
    by destruct high; rewrite Z.sub_diag. }
  destruct (is_whitespace b); [apply IH; try done; lia|].
  destruct (hex_value b) as [nibble|]; simpl; [|by apply computes_malformed].
  destruct high as [h|].
  - eapply computes_spec; [apply (IH _ _ None); try done; lia|by intros ->|].
    intros s2 [stop m] [decoded r] _ -> (Hc2&Hr&Hm&Hlen). eexists. split; [done|].
    cbn [fst snd length] in *. split_and!; [done|done|lia|].
    rewrite Nat2Z.inj_succ, <-Hlen, <-Z.add_1_r.
    replace (m - n + 2) with (m - (n + 1) + 1 + 1 * 2) by lia. by rewrite Z.div_add by lia.
  - eapply computes_spec; [apply (IH _ _ (Some nibble)); try done; lia|done|].
    intros s2 [stop m] [decoded r] _ -> (Hc2&Hr&Hm&Hlen). eexists. split; [done|].
    cbn [fst snd] in *. split_and!; [done|done|lia|]. rewrite <-Hlen. f_equal. lia.
Qed.

Lemma read_hex_split high rest decoded r :
  read_hex high rest = Some (decoded, r) →
  ∃ body, rest = body ++ 62 :: r ∧ Forall (λ b, b ≠ 62) body.
Proof.
  revert high decoded. induction rest as [|b l IH]; intros high decoded; cbn [read_hex]; [done|].
  destruct (b =? 62) eqn:Hb; checked_facts.
  { intros [= _ <-]. subst b. by exists []. }
  assert (∀ high decoded, read_hex high l = Some (decoded, r) →
    ∃ body, b :: l = body ++ 62 :: r ∧ Forall (λ b, b ≠ 62) body) as Hl.
  { intros high' d (body&->&Hbody)%IH. exists (b :: body). split; [done|by constructor]. }
  destruct (is_whitespace b); [by apply Hl|].
  destruct (hex_value b) as [nibble|]; simpl; [|done]. destruct high as [h|]; [|by apply Hl].
  intros (d&Hd&_)%push_Some. by eapply Hl.
Qed.

Lemma hex_decode_ok index high body decoded r s :
  state_ok p s → suffix_at p index (body ++ 62 :: r) → Forall (λ b, b ≠ 62) body →
  read_hex high (body ++ 62 :: r) = Some (decoded, r) →
  parses p (limited p) (hex_decode p index high body) s
    (λ s' d, ps_cursor s' = ps_cursor s ∧ d = decoded).
Proof.
  intros Hs Hc Hb. revert index high decoded s Hs Hc.
  induction Hb as [|b body Hne Hb IH]; intros index high decoded s Hs Hc;
    cbn [app read_hex hex_decode].
  { rewrite Z.eqb_refl. intros [= <-]. by apply parses_ret. }
  apply Z.eqb_neq in Hne as ->. pose proof (suffix_ok _ _ _ Hc) as Hoff.
  apply suffix_cons in Hc as [_ Hc]. intros Hr.
  apply parses_probe; [done|done|done|done|]. intros s1 Hs1 Hc1. rewrite <-Hc1.
  destruct (is_whitespace b); [by apply IH|].
  destruct (hex_value b) as [nibble|]; simpl in Hr; [|done].
  eapply parses_ok_or; [done|]. destruct high as [h|]; [|by apply IH].
  apply push_Some in Hr as (d&Hr&->). apply decode_push. by apply IH.
Qed.

Lemma scan_hex_string_ok start l s :
  state_ok p s → suffix_at p start (60 :: l) →
  computes p (scan_hex_string p start) s
    ('(decoded, r) ← read_hex None l; Some (string_token Hexadecimal decoded, r))
    (token_from p start).
Proof.
  intros Hs Hc. unfold scan_hex_string. pose proof (suffix_ok _ _ _ Hc) as Hoff.
  pose proof (proj1 Hc). apply suffix_cons in Hc as [_ Hc]. rewrite (suffix_from _ _ _ Hc).
  eapply computes_bind; [apply (hex_loop_ok _ _ _ _ _ None); [done|done|lia|lia]|by intros ->|].
  intros s1 [stop n] [decoded r] Hs1 Hread (Hc1&Hr&Hn&Hlen). rewrite Hread. cbn [fst snd] in *.
  rewrite Z.sub_0_r in Hlen. cbv zeta. rewrite Hlen.
  apply computes_decoded; [done|lia|].
  eapply computes_quiet; [apply allocate_owned_ok; try done; lia|]. intros s2 _ Hs2 _ _.
  destruct (read_hex_split _ _ _ _ Hread) as (body&->&Hbody).
  assert (stop - 1 = S start + length body)%nat as Hstop.
  { apply suffix_length in Hr, Hc. rewrite length_app in Hc. simpl in Hc. lia. }
  rewrite Hstop, (suffix_slice _ _ _ _ Hc).
  eapply computes_limited; [by eapply hex_decode_ok|].
  intros s3 ? Hs3 [_ ->]. eapply computes_parses; [by apply finish_token|].
  intros s4 t _ Ht. by eexists.
Qed.

(** ** The next token *)

Lemma fixed_token_ok start n kind r s :
  state_ok p s → (start ≤ length (window p))%nat → suffix_at p (start + n) r →
  computes p (fixed_token p start n kind) s (Some (kind, r)) (token_from p start).
Proof.
  intros Hs Hst Hc. unfold fixed_token. apply computes_check.
  { apply check_token_len_ok; try done. apply Hc. }
  eapply computes_parses; [by apply finish_token|]. intros s' t _ Ht. by eexists.
Qed.

(** The token after the trivia is the one the reader finds. *)
Definition token_read (s' : ParserState) (t : Token) (tr : Token * list Z) : Prop :=
  suffix_at p (ps_cursor s') tr.2 ∧ t = tr.1.

Lemma scan_kind_ok start byte l s (m : ParseM Token) :
  state_ok p s → suffix_at p start (byte :: l) → is_whitespace byte = false → byte ≠ 37 →
  m = (if byte =? 91 then fixed_token p start 1 ArrayOpen
       else if byte =? 93 then fixed_token p start 1 ArrayClose
       else if byte =? 40 then scan_literal_string p start
       else if byte =? 47 then scan_name p start
       else if byte =? 60 then
         if at_end p (S start) then
           if may_continue p then incomplete InvalidHexString (absolute p (S start))
           else scan_hex_string p start
         else
           second ← byte_at p (S start);
           if second =? 60 then fixed_token p start 2 DictionaryOpen else scan_hex_string p start
       else if byte =? 62 then
         if at_end p (S start) && may_continue p
         then incomplete UnexpectedByte (absolute p (S start))
         else if bool_decide (window p !! S start = Some 62)
         then fixed_token p start 2 DictionaryClose
         else fail_at UnexpectedByte (absolute p start)
       else if (byte =? 41) || (byte =? 123) || (byte =? 125)
       then fail_at UnexpectedByte (absolute p start)
       else scan_regular p start) →
  computes p m s (read_kind (may_continue p) (byte :: l)) (token_from p start).
Proof.
  intros Hs Hc Hw Hpc ->. pose proof (suffix_ok _ _ _ Hc) as Hoff. pose proof (proj1 Hc).
  pose proof (suffix_cons _ _ _ _ Hc) as [_ Hc'].
  pose proof (suffix_skip 1 _ _ Hc ltac:(simpl; lia)) as Hc1. simpl in Hc1. rewrite drop_0 in Hc1.
  cbn [read_kind].
  destruct (byte =? 91); [by apply fixed_token_ok|].
  destruct (byte =? 93); [by apply fixed_token_ok|].
  destruct (byte =? 40) eqn:H40; checked_facts; [subst; by apply scan_literal_string_ok|].
  destruct (byte =? 47) eqn:H47; checked_facts; [subst; by apply scan_name_ok|].
  destruct (byte =? 60) eqn:H60; checked_facts.
  { subst. rewrite (suffix_at_end _ _ _ Hc'). destruct l as [|second l].
    - rewrite bool_decide_eq_true_2 by done. destruct (may_continue p); [apply computes_incomplete; try done; by eapply suffix_ok|].
      eapply computes_spec; [by apply scan_hex_string_ok|done|done].
    - rewrite bool_decide_eq_false_2 by done. eapply computes_some; [by eapply suffix_cons|].
      destruct (second =? 60); [|by apply scan_hex_string_ok].
      apply fixed_token_ok; [done|done|].
      pose proof (suffix_skip 2 _ _ Hc ltac:(simpl; lia)) as Hc2. done. }
  destruct (byte =? 62) eqn:H62; checked_facts.
  { rewrite (suffix_at_end _ _ _ Hc'), (suffix_lookup _ _ _ Hc'). destruct l as [|second l]; simpl.
    - destruct (may_continue p); [apply computes_incomplete; try done; by eapply suffix_ok|].
      by apply computes_malformed.
    - destruct (second =? 62) eqn:Hsec; checked_facts.
      + rewrite bool_decide_eq_true_2 by congruence. apply fixed_token_ok; [done|done|].
        pose proof (suffix_skip 2 _ _ Hc ltac:(simpl; lia)) as Hc2. done.
      + rewrite bool_decide_eq_false_2 by congruence. by apply computes_malformed. }
  destruct ((byte =? 41) || (byte =? 123) || (byte =? 125)); [by apply computes_malformed|].
  by apply scan_regular_ok.
Qed.

(** The end of the input, where only trivia remains. *)
Definition at_clean_end (rest : list Z) (f : ParseFailure) : Prop :=
  f = End ∧ read_trivia (may_continue p) false rest = Some [].

Lemma next_token_ends rest s :
  state_ok p s → suffix_at p (ps_cursor s) rest →
  parses p
    (λ f, or_malformed p (read_token (window_end p) (may_continue p) rest) f ∨ at_clean_end rest f)
    (next_token p) s
    (λ s' t, ∃ tr, read_token (window_end p) (may_continue p) rest = Some tr ∧
       token_read s' t tr).
Proof.
  intros Hs Hc. unfold next_token, read_token. eapply parses_bind.
  { eapply parses_failures; [by apply skip_trivia_ok|].
    intros f [?|[-> ?]]; left; [by left|by right]. }
  intros s1 [] Hs1 (r&Hr&Hc1). unfold at_clean_end. rewrite Hr. cbn [mbind option_bind].
  apply parses_gets. rewrite (suffix_at_end _ _ _ Hc1).
  apply read_trivia_head in Hr. destruct r as [|byte l].
  { rewrite bool_decide_eq_true_2 by done. split; [by apply state_stopped|]. by right. }
  rewrite bool_decide_eq_false_2 by done. destruct Hr as [Hw Hpc].
  pose proof (suffix_ok _ _ _ Hc1) as Hoff.
  eapply parses_failures; [|intros f Hf; by left].
  eapply computes_quiet; [by apply charge_token_ok|]. intros s2 [] Hs2 Hc2 _.
  eapply computes_some; [by eapply suffix_cons|].
  eapply computes_spec; [by eapply scan_kind_ok|by intros ->|].
  intros s3 t [kind r] _ -> [Hr ->]. eexists. split; [done|]. split; [done|].
  simpl. f_equal. by rewrite (suffix_offset _ _ _ Hc1).
Qed.

Lemma read_token_trivia more rest :
  read_trivia more false rest = Some [] → read_token (window_end p) more rest = None.
Proof. unfold read_token. by intros ->. Qed.

(** A token that is there. *)
Lemma next_token_ok rest tr s :
  state_ok p s → suffix_at p (ps_cursor s) rest →
  read_token (window_end p) (may_continue p) rest = Some tr →
  computes p (next_token p) s (Some tr) token_read.
Proof.
  intros Hs Hc Htr. rewrite <-Htr. eapply parses_failures; [by apply next_token_ends|].
  intros f [?|[_ Hr%read_token_trivia]]; [done|congruence].
Qed.

Lemma next_required_token_ok code rest s :
  state_ok p s → suffix_at p (ps_cursor s) rest → about_bytes code →
  computes p (next_required_token p code) s
    (read_token (window_end p) (may_continue p) rest) token_read.
Proof.
  intros Hs Hc Hcode. pose proof (next_token_ends rest s Hs Hc) as Hn.
  unfold computes, parses, next_required_token in *.
  destruct (next_token p s) as [s' [t|[f|]]]; [done| |done].
  destruct Hn as [Hs' Hf]. destruct f as [|final offset|e].
  - assert (read_token (window_end p) (may_continue p) rest = None) as Hn.
    { destruct Hf as [[(?&?&?&_)|[? _]]|[_ Hr%read_token_trivia]]; done. }
    split; [done|]. right. split; [done|]. split; [done|]. by apply absolute_ok.
  - split; [done|]. by destruct Hf as [?|[? _]].
  - split; [done|]. by destruct Hf as [?|[? _]].
Qed.
End strings.
