(* ===== verification/SyntaxObjects.v ===== *)
(** * Objects against the reference reader *)

From stdpp Require Import base list numbers option strings.
From S2P Require Import Prelude.
From S2P Require Import SourceTypes.
From S2P Require Import SyntaxTypes.
From S2P Require Import SyntaxState.
From S2P Require Import SyntaxLexer.
From S2P Require Import SyntaxParser.
From S2P Require Import SyntaxRules.
From S2P Require Import SyntaxReader.
From S2P Require Import SyntaxTrivia.
From S2P Require Import SyntaxTokens.
From S2P Require Import SyntaxStrings.

(** ** Readers consume bytes *)

Lemma read_name_length m rest decoded r :
  read_name m rest = Some (decoded, r) → (length r ≤ length rest)%nat.
Proof.
  revert decoded. induction rest as [rest IH] using (induction_ltof1 _ (@length Z)).
  unfold ltof in IH. intros decoded. destruct rest as [|b l]; cbn [read_name].
  { destruct m; [done|]. by intros [= _ <-]. }
  destruct (is_delimiter b); [by intros [= _ <-]|]. destruct (b =? 35).
  - destruct l as [|high [|low l]]; [done|done|].
    destruct (hex_value high); simpl; [|done]. destruct (hex_value low); simpl; [|done].
    intros (d&Hd&_)%push_Some. apply IH in Hd; simpl in *; lia.
  - intros (d&Hd&_)%push_Some. apply IH in Hd; simpl in *; lia.
Qed.

Lemma read_hex_length high rest decoded r :
  read_hex high rest = Some (decoded, r) → (length r < length rest)%nat.
Proof. intros (body&->&_)%read_hex_split. rewrite length_app. simpl. lia. Qed.

Lemma read_kind_length more rest kind r :
  read_kind more rest = Some (kind, r) → (length r < length rest)%nat.
Proof.
  destruct rest as [|b l]; cbn [read_kind]; [done|].
  destruct (b =? 91); [intros [= _ <-]; simpl; lia|].
  destruct (b =? 93); [intros [= _ <-]; simpl; lia|].
  destruct (b =? 40).
  { destruct (read_literal 1 l) as [[d r']|] eqn:Hr; [|done]. intros [= _ <-].
    apply read_literal_length in Hr. simpl. lia. }
  destruct (b =? 47).
  { destruct (read_name more l) as [[d r']|] eqn:Hr; [|done]. intros [= _ <-].
    apply read_name_length in Hr. simpl. lia. }
  destruct (b =? 60).
  { destruct l as [|b2 l]; [done|]. destruct (b2 =? 60); [intros [= _ <-]; simpl; lia|].
    destruct (read_hex None (b2 :: l)) as [[d r']|] eqn:Hr; [|done]. intros [= _ <-].
    apply read_hex_length in Hr. simpl in *. lia. }
  destruct (b =? 62).
  { destruct l as [|b2 l]; [done|]. destruct (b2 =? 62); [|done]. intros [= _ <-]. simpl. lia. }
  destruct (_ || _); [done|]. unfold read_regular.
  destruct (run_of is_regular (b :: l)) as [raw r'] eqn:Hrun.
  apply run_of_app in Hrun. destruct raw as [|b' raw].
  { rewrite bool_decide_eq_true_2 by done. done. }
  assert (length r' < length (b :: l))%nat as Hlen.
  { rewrite Hrun, length_app. simpl. lia. }
  destruct (_ || _); [done|]. destruct (is_number_start b).
  - destruct (read_number _); simpl; [|done]. intros [= _ <-]. done.
  - intros [= _ <-]. done.
Qed.

Lemma read_token_length stop more rest t r :
  read_token stop more rest = Some (t, r) →
  (length r < length rest)%nat ∧ token_end t = offset_of stop r ∧
  ∃ before, token_start t = offset_of stop before ∧ (length r < length before ≤ length rest)%nat.
Proof.
  unfold read_token. destruct (read_trivia more false rest) as [before|] eqn:Ht; simpl; [|done].
  destruct (read_kind more before) as [[kind r']|] eqn:Hk; simpl; [|done].
  intros [= <- <-]. apply read_trivia_length in Ht. apply read_kind_length in Hk.
  split; [lia|]. split; [done|]. by exists before.
Qed.

Lemma split_sign_length raw negative unsigned :
  split_sign raw = (negative, unsigned) → (length unsigned ≤ length raw)%nat.
Proof. intros (sign&->&_)%split_sign_app. rewrite length_app. lia. Qed.

Lemma probe_integer_length more rest v r :
  probe_integer more rest = Some (Some (v, r)) → (length r ≤ length rest)%nat.
Proof.
  unfold probe_integer, probe_digits_of. destruct (from_option _ _ _); [|done].
  destruct (split_sign rest) as [negative unsigned] eqn:Hs. apply split_sign_length in Hs.
  destruct (run_of is_ascii_digit unsigned) as [digits r'] eqn:Hrun.
  pose proof (run_of_length is_ascii_digit unsigned) as Hl. rewrite Hrun in Hl. simpl in Hl.
  repeat (case_match; try done). destruct (integer_value negative digits); [|done].
  intros [= _ ->]. lia.
Qed.

(** A reference ends with [R] and a delimiter, or the end of the source. *)
Lemma read_token_R stop more l :
  from_option is_delimiter (negb more) (head l) = true →
  read_token stop more (82 :: l) =
    Some ({| token_start := offset_of stop (82 :: l); token_end := offset_of stop l;
             token_kind := Keyword [82] |}, l).
Proof.
  intros Hl. unfold read_token. cbn [read_trivia].
  assert (run_of is_regular (82 :: l) = ([82], l)) as Hrun.
  { destruct l as [|b l]; [done|]. simpl in Hl. cbn [run_of]. unfold is_regular at 2.
    by rewrite Hl. }
  assert (read_kind more (82 :: l) = Some (Keyword [82], l)) as Hk.
  { change (read_kind more (82 :: l)) with (read_regular more 82 (82 :: l)).
    unfold read_regular. rewrite Hrun. destruct l; [by destruct more|done]. }
  cbn -[read_kind]. by rewrite Hk.
Qed.

Lemma reference_parts value generation :
  reference_of value generation =
    match (value ← try_from u32_max value; if value =? 0 then None else Some value),
          try_from u16_max generation with
    | Some number, Some generation =>
        Some {| object_number := number; object_generation := generation |}
    | _, _ => None
    end.
Proof.
  unfold reference_of, try_from.
  destruct (0 <? value) eqn:H1, (0 <=? value) eqn:H2, (value <=? u32_max); checked_facts;
    try lia; simpl; try done.
  - destruct (value =? 0) eqn:H0; checked_facts; [lia|]. by destruct (_ && _).
  - by destruct (value =? 0) eqn:H0; checked_facts; [|lia].
Qed.

Section objects.
Context `{ParserRuntime} (p : SyntaxParser).
Hypothesis Hp : parser_ok p.
Implicit Types s : ParserState.
Local Notation more := (may_continue p).
Local Notation stop := (window_end p).
Local Notation source := (input_source (sp_input p)).

(** ** Integers probed ahead *)

Lemma probe_digits_ok start index m overflowed rest s :
  state_ok p s → suffix_at p index rest → (start ≤ index)%nat → 0 ≤ m ≤ u64_max →
  parses p (limited p) (probe_digits p start index m overflowed rest) s
    (λ s' r, ps_cursor s' = ps_cursor s ∧
       r.1.1 = (index + length (run_of is_ascii_digit rest).1)%nat ∧
       r.2 = overflowed || (u64_max <? digits_from m (run_of is_ascii_digit rest).1) ∧
       (r.2 = false → r.1.2 = digits_from m (run_of is_ascii_digit rest).1)).
Proof.
  revert index m overflowed s. induction rest as [|b l IH]; intros index m overflowed s Hs Hc Hst Hm;
    cbn [probe_digits run_of].
  { apply parses_ret; [done|]. simpl. rewrite (proj2 (Z.ltb_ge _ _)) by lia.
    rewrite orb_false_r, Nat.add_0_r. done. }
  destruct (is_ascii_digit b) eqn:Hb.
  2: { apply parses_ret; [done|]. simpl. rewrite (proj2 (Z.ltb_ge _ _)) by lia.
       rewrite orb_false_r, Nat.add_0_r. done. }
  pose proof (suffix_ok _ _ _ Hc) as Hoff. apply suffix_cons in Hc as [_ Hc].
  pose proof (proj1 Hc). pose proof (digit_bounds _ Hb) as Hdb.
  destruct (run_of is_ascii_digit l) as [run r] eqn:Hrun. cbn [fst] in *.
  pose proof (run_of_class _ _ _ _ Hrun) as [Hdigits _].
  change (digits_from m (b :: run)) with (digits_from (10 * m + (b - 48)) run).
  pose proof (digits_from_ge (10 * m + (b - 48)) run ltac:(lia) Hdigits) as Hge.
  apply parses_probe; [done|done|done|done|]. intros s1 Hs1 Hc1. rewrite <-Hc1.
  destruct (accumulate m b) as [v|] eqn:Hacc.
  - apply accumulate_Some in Hacc as [-> Hv].
    apply parses_check'; [apply check_token_len_ok; try done; lia|].
    eapply parses_weaken; [apply IH; try done; lia|].
    intros s2 [[i m'] o] _ (Hc2&Hi&Ho&Hmag). cbn [fst snd length] in *.
    split_and!; [done|lia|done|done].
  - apply accumulate_None in Hacc; [|lia].
    apply parses_check'; [apply check_token_len_ok; try done; lia|].
    eapply parses_weaken; [apply IH; try done; lia|].
    intros s2 [[i m'] o] _ (Hc2&Hi&Ho&Hmag). cbn [fst snd length] in *.
    rewrite (proj2 (Z.ltb_lt _ (digits_from (10 * m + (b - 48)) run))) by lia.
    rewrite orb_true_r. split_and!; [done|lia|done|by intros ->].
Qed.

(** The outcome of a probe: an integer consumed, or none. *)
Definition probe_read (s' : ParserState) (o : option Z) (o' : option (Z * list Z)) : Prop :=
  match o' with
  | None => o = None
  | Some (v, r) => o = Some v ∧ suffix_at p (ps_cursor s') r
  end.

Lemma probe_none s (spec : option (option (Z * list Z))) :
  state_ok p s → spec = Some None → computes p (mret None : ParseM (option Z)) s spec probe_read.
Proof. intros Hs ->. by eapply computes_ret. Qed.

Lemma probe_unsigned_ok start negative index unsigned s :
  state_ok p s → (start ≤ index)%nat → suffix_at p index unsigned →
  computes p (probe_unsigned p start negative index) s
    (probe_digits_of more negative unsigned) probe_read.
Proof.
  intros Hs Hst Hc. unfold probe_unsigned, probe_digits_of. pose proof (proj1 Hc).
  apply computes_check; [apply check_token_len_ok; try done; lia|].
  rewrite (suffix_at_end _ _ _ Hc), (suffix_from _ _ _ Hc).
  destruct (run_of is_ascii_digit unsigned) as [digits r] eqn:Hrun.
  case_bool_decide as Hnil.
  { subst. destruct more; [|by apply probe_none].
    apply computes_incomplete; try done. by eapply suffix_ok. }
  destruct unsigned as [|b l]; [done|]. eapply computes_some; [by eapply suffix_cons|].
  pose proof (run_of_class _ _ _ _ Hrun) as [Hdigits Hhead].
  pose proof (run_of_app _ _ _ _ Hrun) as Happ.
  destruct (is_ascii_digit b) eqn:Hb; simpl.
  2: { assert (digits = []) as -> by (cbn [run_of] in Hrun; rewrite Hb in Hrun; congruence).
       rewrite bool_decide_eq_true_2 by done. by apply probe_none. }
  rewrite bool_decide_eq_false_2.
  2: { intros ->. simpl in Happ. subst r. simpl in Hhead. congruence. }
  eapply computes_limited.
  { by apply (probe_digits_ok start index 0 false (b :: l)). }
  intros s1 [[i m] o] Hs1 (Hc1&Hi&Ho&Hm). rewrite Hrun in Hi, Ho, Hm. cbn [fst snd] in *.
  rewrite Happ in Hc. pose proof (suffix_app _ _ _ _ Hc) as Hc'. rewrite <-Hi in Hc'.
  rewrite (suffix_at_end _ _ _ Hc'). pose proof (suffix_ok _ _ _ Hc') as Hoff.
  pose proof (absolute_ok p start ltac:(lia)) as Hoff0.
  assert (∀ (k : bool → ParseM (option Z)) Q,
    (bool_decide (r = []) && more = false →
     computes p (k (from_option is_delimiter true (head r))) s1
       (if from_option is_delimiter true (head r)
        then Some (value ← integer_value negative digits; Some (value, r)) else Some None) Q) →
    computes p
      ((if bool_decide (r = []) then
          if more then incomplete InvalidNumber (absolute p i) else mret true
        else byte ← byte_at p i; mret (is_delimiter byte)) ≫= k) s1
      (if bool_decide (r = []) && more then None
       else if from_option is_delimiter true (head r)
            then Some (value ← integer_value negative digits; Some (value, r)) else Some None)
      Q) as Hterm.
  { intros k Q Hk. destruct r as [|b' r]; simpl in *.
    - destruct more; [|by apply Hk]. by apply (computes_incomplete p Hp (A := option Z)).
    - unfold byte_at. pose proof (suffix_lookup _ _ _ Hc') as ->. by apply Hk. }
  apply Hterm. clear Hterm. intros _.
  destruct (from_option is_delimiter true (head r)); simpl; [|by apply probe_none].
  rewrite (signed_integer_value _ _ Hdigits). unfold digits_from in Ho, Hm.
  fold (digits_value digits) in Ho, Hm. cbn [orb] in Ho. rewrite Z.leb_antisym, <-Ho.
  destruct o; cbn [negb]; [by apply probe_none|]. rewrite (Hm eq_refl).
  destruct (signed_value negative (digits_value digits)) as [v|]; simpl; [|by apply probe_none].
  eapply computes_quiet; [by apply charge_token_ok|]. intros s2 _ Hs2 Hc2 _.
  apply computes_modify. eapply computes_ret; [apply move_cursor_ok; [done|apply Hc']|done|].
  by split.
Qed.

Lemma probe_integer_token_ok byte l s :
  state_ok p s → suffix_at p (ps_cursor s) (byte :: l) →
  computes p (probe_integer_token p) s (probe_integer more (byte :: l)) probe_read.
Proof.
  intros Hs Hc. unfold probe_integer_token, probe_integer. apply computes_gets.
  unfold probe_sign. rewrite (suffix_lookup _ _ _ Hc). cbn [head mbind option_bind from_option split_sign].
  pose proof (suffix_cons _ _ _ _ Hc) as [_ Hc'].
  destruct (byte =? 45); [rewrite orb_true_r; apply probe_unsigned_ok; [done|lia|done]|].
  rewrite orb_false_r.
  destruct (byte =? 43); [rewrite orb_true_r; apply probe_unsigned_ok; [done|lia|done]|].
  rewrite orb_false_r.
  destruct (is_ascii_digit byte); [apply probe_unsigned_ok; [done|lia|done]|].
  by apply probe_none.
Qed.

(** ** Spans *)

(** A token that ends where [rest] begins. *)
Definition token_before (t : Token) (rest : list Z) : Prop :=
  input_base_offset (sp_input p) ≤ token_start t ≤ token_end t ∧
  token_end t = offset_of stop rest.

(** The outcome of an object: what was read, with the cursor after it. *)
Definition object_read (s' : ParserState) (o : Located SyntaxObject)
    (or : Located SyntaxObject * list Z) : Prop :=
  suffix_at p (ps_cursor s') or.2 ∧ o = or.1.

Lemma read_token_before rest t r :
  (length rest ≤ length (window p))%nat → read_token stop more rest = Some (t, r) →
  token_before t r.
Proof.
  intros Hl (_&He&before&Hb&Hlt)%read_token_length. split; [|done]. rewrite Hb, He.
  unfold offset_of, window_end. lia.
Qed.

Lemma token_before_start t rest : token_before t rest → offset_ok p (token_start t).
Proof.
  intros [Hs He]. unfold offset_ok. rewrite He in Hs. unfold offset_of, window_end in Hs. lia.
Qed.

Lemma located_object_ok start end_ value s :
  state_ok p s → start ≤ end_ ≤ u64_max →
  parses p (limited p) (located_object p start end_ value) s
    (λ s' o, s' = s ∧ o = located source start end_ value).
Proof.
  intros Hs Hb. unfold located_object, from_bounds. rewrite from_bounds_exact by done.
  by apply parses_ret.
Qed.

(** The object from a token on, with the cursor after it. *)
Lemma close_object_ok first rest r value s :
  state_ok p s → token_before first rest → suffix_at p (ps_cursor s) r →
  (length r ≤ length rest)%nat →
  parses p (limited p) (located_object p (token_start first) (offset_of stop r) value) s
    (λ s' o, object_read s' o (located source (token_start first) (offset_of stop r) value, r)).
Proof.
  intros Hs [Ht He] Hc Hl. eapply parses_weaken; [apply located_object_ok; [done|]|].
  - parser_facts Hp. unfold offset_of, window_end in *. lia.
  - by intros s' ? _ [-> ->].
Qed.

Lemma scalar_ok first rest value s :
  state_ok p s → token_before first rest → suffix_at p (ps_cursor s) rest →
  parses p (limited p) (located_object p (token_start first) (token_end first) value) s
    (λ s' o, object_read s' o (located source (token_start first) (token_end first) value, rest)).
Proof.
  intros Hs Ht Hc. pose proof (proj2 Ht) as ->. by eapply close_object_ok.
Qed.

(** ** Integers and references *)

Lemma plain_integer_ok first value checkpoint rest spec s :
  state_ok p s → token_before first rest → suffix_at p checkpoint rest →
  spec = Some (located source (token_start first) (token_end first) (Integer value), rest) →
  computes p (plain_integer p first value checkpoint) s spec object_read.
Proof.
  intros Hs Ht Hc ->. apply computes_modify. eapply computes_parses.
  - apply scalar_ok; [|done|done]. apply move_cursor_ok; [done|apply Hc].
  - intros s' o _ Ho. by eexists.
Qed.

Lemma finish_reference_ok first value generation rest l s :
  state_ok p s → token_before first rest → suffix_at p (ps_cursor s) (82 :: l) →
  (length l ≤ length rest)%nat → from_option is_delimiter (negb more) (head l) = true →
  computes p (finish_reference p first value generation) s
    (reference ← reference_of value generation;
     Some (located source (token_start first) (offset_of stop l) (Reference reference), l))
    object_read.
Proof.
  intros Hs Ht Hc Hl Hd. unfold finish_reference. eapply computes_bind.
  { by eapply next_token_ok, read_token_R. }
  { done. }
  intros s1 third [t r] Hs1 Hr [Hc1 ->]. simplify_eq.
  cbn [token_kind fst snd]. change (octets "R") with [82].
  rewrite bool_decide_eq_true_2 by done. cbn [negb].
  rewrite reference_parts. pose proof (token_before_start _ _ Ht).
  destruct (value ← try_from u32_max value; _) as [number|]; [|by apply computes_malformed].
  destruct (try_from u16_max generation) as [g|]; [|by apply computes_malformed].
  eapply computes_parses; [by eapply close_object_ok|].
  intros s2 o _ Ho. by eexists.
Qed.

Lemma integer_or_reference_ok first value rest s :
  state_ok p s → token_before first rest → suffix_at p (ps_cursor s) rest →
  computes p (integer_or_reference p first value) s
    (read_integer source stop more first value rest) object_read.
Proof.
  intros Hs Ht Hc. unfold integer_or_reference, read_integer, read_generation.
  apply computes_gets. eapply computes_bind; [by apply skip_trivia_ok|by intros ->|].
  intros s1 [] r1 Hs1 Hr1 Hc1. rewrite Hr1. apply read_trivia_length in Hr1. cbn [mbind option_bind].
  apply computes_gets. rewrite (suffix_at_end _ _ _ Hc1).
  destruct r1 as [|b1 l1].
  { rewrite bool_decide_eq_true_2 by done. destruct more.
    - apply computes_incomplete; try done. by eapply suffix_ok.
    - by eapply plain_integer_ok. }
  rewrite bool_decide_eq_false_2 by done.
  eapply computes_some; [by eapply suffix_cons|].
  destruct (is_number_start b1) eqn:Hb1; cbn [negb].
  2: { eapply plain_integer_ok; try done. unfold probe_integer. cbn [head from_option].
       unfold is_number_start in Hb1. rewrite !orb_false_iff in Hb1.
       destruct Hb1 as [[[-> ->] ->] _]. done. }
  eapply computes_bind; [by apply probe_integer_token_ok|by intros ->|].
  intros s2 second probed Hs2 Hprobe Hq. rewrite Hprobe. cbn [mbind option_bind].
  destruct probed as [[v2 r2]|]; simpl in Hq; [destruct Hq as [-> Hc2]|subst second; by eapply plain_integer_ok].
  eapply computes_bind; [by apply skip_trivia_ok|by intros ->|].
  intros s3 [] r3 Hs3 Hr3 Hc3. rewrite Hr3. cbn [mbind option_bind].
  apply computes_gets. rewrite (suffix_at_end _ _ _ Hc3). destruct r3 as [|b3 l3].
  { rewrite bool_decide_eq_true_2 by done. destruct more.
    - apply computes_incomplete; try done. by eapply suffix_ok.
    - by eapply plain_integer_ok. }
  rewrite bool_decide_eq_false_2 by done.
  eapply computes_some; [by eapply suffix_cons|].
  destruct (b3 =? 82) eqn:Hb3; cbn [negb]; [|by eapply plain_integer_ok]. checked_facts. subst b3.
  pose proof (suffix_cons _ _ _ _ Hc3) as [_ Hc4].
  rewrite (suffix_at_end _ _ _ Hc4), (suffix_lookup _ _ _ Hc4).
  apply probe_integer_length in Hprobe. apply read_trivia_length in Hr3. simpl in Hr1, Hr3.
  destruct l3 as [|next l3].
  - rewrite bool_decide_eq_true_2 by done. destruct more eqn:Hmore; cbn [andb].
    + apply computes_incomplete; try done. by eapply suffix_ok.
    + cbn. eapply finish_reference_ok; try done; [simpl; lia|]. by rewrite Hmore.
  - rewrite bool_decide_eq_false_2 by done. cbn [andb head from_option].
    destruct (is_delimiter next) eqn:Hnext; cbn [negb]; [|by eapply plain_integer_ok].
    eapply finish_reference_ok; try done. simpl in *. lia.
Qed.
End objects.
