(* ===== verification/SyntaxContainers.v ===== *)
(** * Containers against the reference reader

    The mutual recursion of objects, arrays and dictionaries: two units of fuel
    for every byte that remains are enough, on both sides. *)

From stdpp Require Import base list numbers option strings.
From S2P Require Import Prelude.
From S2P Require Import SourceTypes.
From S2P Require Import SyntaxTypes.
From S2P Require Import SyntaxState.
From S2P Require Import SyntaxLexer.
From S2P Require Import SyntaxParser.
From S2P Require Import SyntaxRules.
From S2P Require Import SyntaxReader.
From S2P Require Import SyntaxTrivia.
From S2P Require Import SyntaxTokens.
From S2P Require Import SyntaxStrings.
From S2P Require Import SyntaxObjects.

(** One step of the readers, and of the methods. *)
Ltac unfold_readers source stop more :=
  cbn [read_value read_items read_entries];
  fold (read_value source stop more) (read_items source stop more)
    (read_entries source stop more).
Ltac unfold_parsers p :=
  cbn [object_from_token array_loop dictionary_loop];
  fold (object_from_token p) (array_loop p) (dictionary_loop p).

(** ** Readers of values consume bytes *)

Lemma read_integer_length source stop more first value rest o r :
  read_integer source stop more first value rest = Some (o, r) → (length r ≤ length rest)%nat.
Proof.
  unfold read_integer, read_generation.
  destruct (read_trivia more false rest) as [r1|] eqn:Hr1; [|done]. apply read_trivia_length in Hr1.
  cbn [mbind option_bind]. destruct r1 as [|b l]; [destruct more; [done|by intros [= _ ->]]|].
  destruct (probe_integer more (b :: l)) as [[[g r2]|]|] eqn:Hg; cbn [mbind option_bind];
    [|by intros [= _ ->]|done].
  apply probe_integer_length in Hg.
  destruct (read_trivia more false r2) as [r3|] eqn:Hr3; [|done]. apply read_trivia_length in Hr3.
  cbn [mbind option_bind]. destruct r3 as [|b3 l3]; [destruct more; [done|by intros [= _ ->]]|].
  destruct (b3 =? 82); cbn [negb]; [|by intros [= _ ->]].
  assert (∀ l : list Z, (value0 ← reference_of value g;
    Some (located source (token_start first) (offset_of stop l) (Reference value0), l))
    = Some (o, r) → r = l) as Hl by (intros ?; destruct (reference_of _ _); [|done]; by intros [= _ ->]).
  simpl in Hr1, Hr3. destruct l3 as [|next l3]; [destruct more; [done|]|].
  - intros ->%Hl. simpl. lia.
  - destruct (is_delimiter next); [|by intros [= _ ->]]. intros ->%Hl. simpl in *. lia.
Qed.

Lemma read_values_length source stop more fuel :
  (∀ token rest o r, read_value source stop more fuel token rest = Some (o, r) →
     (length r ≤ length rest)%nat) ∧
  (∀ rest vs r, read_items source stop more fuel rest = Some (vs, r) →
     (length r ≤ length rest)%nat) ∧
  (∀ rest es r, read_entries source stop more fuel rest = Some (es, r) →
     (length r ≤ length rest)%nat).
Proof.
  induction fuel as [|fuel (IHv&IHi&IHe)]; [done|]. split_and!.
  - intros token rest o r. unfold_readers source stop more. destruct (token_kind token).
    all: try done; try (by intros [= _ ->]); try (by intros ?%read_integer_length).
    + destruct (read_items source stop more fuel rest) as [[vs r']|] eqn:Hi; [|done].
      intros [= _ ->]. by eapply IHi.
    + destruct (read_entries source stop more fuel rest) as [[es r']|] eqn:Hi; [|done].
      intros [= _ ->]. by eapply IHe.
    + destruct (keyword_object bytes); [|done]. by intros [= _ ->].
  - intros rest vs r. unfold_readers source stop more.
    destruct (read_trivia more false rest) as [r1|] eqn:Hr1; [|done]. apply read_trivia_length in Hr1.
    cbn [mbind option_bind]. case_bool_decide.
    { intros [= _ <-]. destruct r1; simpl in *; lia. }
    destruct (read_token stop more r1) as [[t r2]|] eqn:Hr2; [|done].
    apply read_token_length in Hr2 as [Hr2 _]. cbn [mbind option_bind].
    destruct (read_value source stop more fuel t r2) as [[v r3]|] eqn:Hr3; [|done].
    apply IHv in Hr3. cbn [mbind option_bind].
    destruct (read_items source stop more fuel r3) as [[vs' r4]|] eqn:Hr4; [|done].
    apply IHi in Hr4. intros [= _ ->]. lia.
  - intros rest es r. unfold_readers source stop more.
    destruct (read_trivia more false rest) as [r1|] eqn:Hr1; [|done]. apply read_trivia_length in Hr1.
    cbn [mbind option_bind]. case_bool_decide.
    { intros [= _ <-]. rewrite length_drop. lia. }
    destruct (read_token stop more r1) as [[k r2]|] eqn:Hr2; [|done].
    apply read_token_length in Hr2 as [Hr2 _]. cbn [mbind option_bind].
    destruct (token_kind k); try done.
    destruct (read_token stop more r2) as [[t r2']|] eqn:Hr2'; [|done].
    apply read_token_length in Hr2' as [Hr2' _]. cbn [mbind option_bind].
    destruct (read_value source stop more fuel t r2') as [[v r3]|] eqn:Hr3; [|done].
    apply IHv in Hr3. cbn [mbind option_bind].
    destruct (read_entries source stop more fuel r3) as [[vs' r4]|] eqn:Hr4; [|done].
    apply IHe in Hr4. intros [= _ ->]. lia.
Qed.

Section containers.
Context `{ParserRuntime} (p : SyntaxParser).
Hypothesis Hp : parser_ok p.
Implicit Types s : ParserState.
Local Notation more := (may_continue p).
Local Notation stop := (window_end p).
Local Notation source := (input_source (sp_input p)).
Local Notation max_depth := (sl_max_container_depth (sp_limits p)).

(** The vector of a loop: its elements are a part of the window, its capacity a
    legal one. *)
Definition vector_ok (length capacity size : Z) (rest : list Z) : Prop :=
  0 ≤ length ≤ capacity ∧ length + len rest ≤ len (window p) ∧
  capacity ≤ usize_max ∧ capacity * size ≤ i64_max.

Definition object_ok (n n' : nat) : Prop := ∀ token rest d s,
  (2 * length rest + 2 ≤ n)%nat → (2 * length rest + 2 ≤ n')%nat →
  state_ok p s → token_before p token rest → suffix_at p (ps_cursor s) rest →
  0 ≤ d ≤ max_depth →
  computes p (object_from_token p n token d) s (read_value source stop more n' token rest)
    (object_read p).

Definition array_ok (n n' : nat) : Prop := ∀ open rest0 rest d values capacity s,
  (2 * length rest + 1 ≤ n)%nat → (2 * length rest + 1 ≤ n')%nat →
  state_ok p s → token_before p open rest0 → (length rest ≤ length rest0)%nat →
  suffix_at p (ps_cursor s) rest → 0 ≤ d ≤ max_depth →
  vector_ok (len values) capacity size_of_located_object rest →
  computes p (array_loop p n open d values capacity) s
    ('(vs, r) ← read_items source stop more n' rest;
     Some (located source (token_start open) (offset_of stop r) (Array (values ++ vs)), r))
    (object_read p).

Definition dictionary_ok (n n' : nat) : Prop := ∀ open rest0 rest d entries capacity s,
  (2 * length rest + 1 ≤ n)%nat → (2 * length rest + 1 ≤ n')%nat →
  state_ok p s → token_before p open rest0 → (length rest ≤ length rest0)%nat →
  suffix_at p (ps_cursor s) rest → 0 ≤ d ≤ max_depth →
  vector_ok (len entries) capacity size_of_dictionary_entry rest →
  computes p (dictionary_loop p n open d entries capacity) s
    ('(es, r) ← read_entries source stop more n' rest;
     Some (located source (token_start open) (offset_of stop r) (Dictionary (entries ++ es)), r))
    (object_read p).

Lemma object_step n n' :
  array_ok n n' → dictionary_ok n n' → object_ok (S n) (S n').
Proof.
  intros IHa IHd token rest d s Hn Hn' Hs Ht Hc Hd.
  unfold_parsers p. unfold_readers (input_source (sp_input p)) (window_end p) (may_continue p).
  pose proof (token_before_start _ _ _ Ht) as Hoff.
  assert (∀ value, computes p
    (located_object p (token_start token) (token_end token) value) s
    (Some (located source (token_start token) (token_end token) value, rest)) (object_read p))
    as Hscalar.
  { intros value. eapply computes_parses; [by apply scalar_ok|]. intros s' o _ Ho. by eexists. }
  assert (∀ size, 0 ≤ size → vector_ok 0 0 size rest) as Hempty.
  { intros size Hsize. apply suffix_length in Hc. parser_facts Hp. split_and!; lia. }
  destruct (token_kind token); try apply Hscalar; try (by apply computes_malformed).
  - eapply computes_quiet; [by apply enter_container_ok|]. intros s1 d1 Hs1 Hc1 [-> Hd1].
    eapply (IHa token rest rest _ []); try done; try lia; [by rewrite Hc1|].
    apply Hempty, size_of_located_object_bound.
  - eapply computes_quiet; [by apply enter_container_ok|]. intros s1 d1 Hs1 Hc1 [-> Hd1].
    eapply (IHd token rest rest _ []); try done; try lia; [by rewrite Hc1|].
    apply Hempty, size_of_dictionary_entry_bound.
  - by apply integer_or_reference_ok.
  - unfold keyword_object. repeat case_bool_decide; try apply Hscalar. by apply computes_malformed.
Qed.

Lemma reserve_vector_ok size length_ capacity rest offset s :
  state_ok p s → offset_ok p offset → 0 ≤ size ≤ 1024 → vector_ok length_ capacity size rest →
  quiet_step p (limited p) (reserve_container_entry p length_ capacity size offset) s
    (λ capacity, ∀ r, (length r < length rest)%nat → vector_ok (length_ + 1) capacity size r).
Proof.
  intros Hs Ho Hsize (Hl&Hw&Hu&Hb). eapply parses_weaken.
  - apply reserve_container_entry_ok; try done. parser_facts Hp. lia.
  - intros s' c _ (Hc&Hlc&Hbc). split; [done|]. intros r Hr. split_and!; try done; lia.
Qed.

Lemma computes_eq {A B} (m : ParseM A) s (spec spec' : option B) Q :
  spec = spec' → computes p m s spec Q → computes p m s spec' Q.
Proof. by intros ->. Qed.

(** A closing token, and the object it ends. *)
Lemma close_container_ok open rest0 close kind r value spec s :
  state_ok p s → token_before p open rest0 → (length r ≤ length rest0)%nat →
  suffix_at p (ps_cursor s) close →
  read_token stop more close =
    Some ({| token_start := offset_of stop close; token_end := offset_of stop r;
             token_kind := kind |}, r) →
  spec = Some (located source (token_start open) (offset_of stop r) value, r) →
  computes p
    (close ← next_token p; located_object p (token_start open) (token_end close) value) s spec
    (object_read p).
Proof.
  intros Hs Ho Hl Hc Hr ->. eapply computes_bind; [by eapply next_token_ok|done|].
  intros s1 t [t' r'] Hs1 Hr' [Hc1 ->]. simplify_eq. simpl in *.
  eapply computes_parses; [by eapply close_object_ok|]. intros s' o _ Hq. by eexists.
Qed.

(** The value of an item or of an entry, after its bytes so far. *)
Lemma next_value_ok n n' d rest {A B} (k : Located SyntaxObject → ParseM A) s
    (spec : Located SyntaxObject * list Z → option B) Q :
  object_ok n n' → (2 * length rest ≤ n)%nat → (2 * length rest ≤ n')%nat →
  state_ok p s → suffix_at p (ps_cursor s) rest → 0 ≤ d ≤ max_depth →
  (∀ s' value r, state_ok p s' → suffix_at p (ps_cursor s') r → (length r < length rest)%nat →
     computes p (k value) s' (spec (value, r)) Q) →
  computes p
    (token ← next_required_token p UnexpectedEndOfInput;
     value ← object_from_token p n token d; k value) s
    ('(token, r) ← read_token stop more rest;
     vr ← read_value source stop more n' token r; spec vr) Q.
Proof.
  intros IHo Hn Hn' Hs Hc Hd Hk. pose proof (suffix_length _ _ _ Hc) as Hlen.
  eapply computes_bind; [by apply next_required_token_ok|by intros ->|].
  intros s1 ? [token r] Hs1 Hr [Hc1 ->]. rewrite Hr. cbn [mbind option_bind fst snd] in *.
  apply (read_token_before p) in Hr as Ht; [|lia]. apply read_token_length in Hr as [Hr _].
  eapply computes_bind; [apply IHo; try done; lia|by intros ->|].
  intros s2 ? [value r2] Hs2 Hv [Hc2 ->]. rewrite Hv. cbn [mbind option_bind fst snd] in *.
  apply read_values_length in Hv. apply Hk; [done|done|lia].
Qed.

Lemma array_step n n' : object_ok n n' → array_ok n n' → array_ok (S n) (S n').
Proof.
  intros IHo IHa open rest0 rest d values capacity s Hn Hn' Hs Ht Hl Hc Hd Hv.
  unfold_parsers p. unfold_readers (input_source (sp_input p)) (window_end p) (may_continue p).
  apply computes_gets. apply computes_probe; [done|done|by apply position_ok|].
  intros s1 Hs1 Hc1. rewrite <-Hc1 in Hc.
  eapply computes_bind; [by apply skip_trivia_ok|by intros ->|].
  intros s2 [] r1 Hs2 Hr1 Hc2. rewrite Hr1. pose proof (read_trivia_idem _ _ _ _ Hr1) as Hidem.
  apply read_trivia_length in Hr1. cbn [mbind option_bind]. apply computes_gets.
  pose proof (suffix_ok _ _ _ Hc2) as Hoff. rewrite (suffix_at_end _ _ _ Hc2).
  destruct r1 as [|b l].
  { rewrite bool_decide_eq_true_2 by done. by apply computes_incomplete. }
  rewrite bool_decide_eq_false_2 by done. eapply computes_some; [by eapply suffix_cons|].
  cbn [head]. destruct (b =? 93) eqn:Hb; checked_facts.
  { subst b. rewrite (bool_decide_eq_true_2 (Some 93 = _)) by done.
    eapply (close_container_ok open rest0 (93 :: l) ArrayClose l); try done; [simpl in *; lia|].
    simpl. by rewrite app_nil_r. }
  rewrite (bool_decide_eq_false_2 (Some b = _)) by congruence.
  eapply computes_quiet; [by apply charge_container_entry_ok|]. intros s3 [] Hs3 Hc3 _.
  eapply computes_quiet.
  { eapply (reserve_vector_ok _ _ _ rest); try done. apply size_of_located_object_bound. }
  intros s4 cap Hs4 Hc4 Hcap. rewrite <-Hc3, <-Hc4 in Hc2.
  eapply computes_eq; [|eapply (next_value_ok n n' _ _ _ _ (λ vr,
    '(vs, r) ← read_items source stop more n' vr.2;
    Some (located source (token_start open) (offset_of stop r)
            (Array (values ++ vr.1 :: vs)), r))); try done; [lia|lia|]].
  - destruct (read_token stop more (b :: l)) as [[t r]|]; [|done]. simpl.
    destruct (read_value source stop more n' t r) as [[v r']|]; [|done]. simpl.
    by destruct (read_items source stop more n' r') as [[vs r'']|].
  - intros s5 value r Hs5 Hc5 Hr. eapply computes_eq; [|eapply (IHa open rest0 r d (values ++ [value]) cap s5); try done; try lia].
    + simpl. destruct (read_items source stop more n' r) as [[vs r']|]; [|done]. simpl.
      by rewrite <-app_assoc.
    + rewrite length_app, Nat2Z.inj_add. apply Hcap. lia.
Qed.

Lemma key_span_ok key rest s {A B} (k : ByteSpan → ParseM A) (spec : option B) Q :
  token_before p key rest →
  computes p (k {| span_start := token_start key; span_len := token_end key - token_start key |}) s
    spec Q →
  computes p (span ← from_bounds (token_start key) (token_end key); k span) s spec Q.
Proof.
  intros [Hs He] Hk. unfold from_bounds. rewrite from_bounds_exact; [done|].
  parser_facts Hp. unfold offset_of, window_end in He. lia.
Qed.

Lemma dictionary_step n n' : object_ok n n' → dictionary_ok n n' → dictionary_ok (S n) (S n').
Proof.
  intros IHo IHd open rest0 rest d entries capacity s Hn Hn' Hs Ht Hl Hc Hd Hv.
  unfold_parsers p. unfold_readers (input_source (sp_input p)) (window_end p) (may_continue p).
  apply computes_gets. apply computes_probe; [done|done|by apply position_ok|].
  intros s1 Hs1 Hc1. rewrite <-Hc1 in Hc.
  eapply computes_bind; [by apply skip_trivia_ok|by intros ->|].
  intros s2 [] r1 Hs2 Hr1 Hc2. rewrite Hr1. pose proof (read_trivia_idem _ _ _ _ Hr1) as Hidem.
  apply read_trivia_length in Hr1. cbn [mbind option_bind]. apply computes_gets.
  pose proof (suffix_ok _ _ _ Hc2) as Hoff. rewrite (suffix_at_end _ _ _ Hc2).
  destruct r1 as [|b l].
  { rewrite bool_decide_eq_true_2 by done. by apply computes_incomplete. }
  rewrite bool_decide_eq_false_2 by done. rewrite (suffix_from _ _ _ Hc2).
  case_bool_decide as Hclose.
  { destruct l as [|b' l]; [done|]. simpl in Hclose. rewrite take_0 in Hclose. simplify_eq.
    eapply (close_container_ok open rest0 (62 :: 62 :: l) DictionaryClose l);
      try done; [simpl in *; lia|]. simpl. by rewrite drop_0, app_nil_r. }
  eapply computes_some; [by eapply suffix_cons|].
  pose proof (suffix_cons _ _ _ _ Hc2) as [_ Hc2']. rewrite (suffix_at_end _ _ _ Hc2').
  destruct ((b =? 62) && bool_decide (l = []) && more) eqn:Hend.
  { rewrite !andb_true_iff in Hend. destruct Hend as [[Hb%Z.eqb_eq Hnil%bool_decide_eq_true] _].
    subst. apply computes_incomplete; try done. by eapply suffix_ok. }
  clear Hend. eapply computes_quiet; [by apply charge_container_entry_ok|]. intros s3 [] Hs3 Hc3 _.
  eapply computes_quiet.
  { eapply (reserve_vector_ok _ _ _ rest); try done. apply size_of_dictionary_entry_bound. }
  intros s4 cap Hs4 Hc4 Hcap. rewrite <-Hc3, <-Hc4 in Hc2.
  pose proof (suffix_length _ _ _ Hc2) as Hlen.
  eapply computes_bind; [by apply next_required_token_ok|by intros ->|].
  intros s5 ? [key r] Hs5 Hr [Hc5 ->]. rewrite Hr. cbn [mbind option_bind fst snd] in *.
  apply (read_token_before p) in Hr as Hk; [|lia]. apply read_token_length in Hr as [Hr _].
  pose proof (token_before_start _ _ _ Hk).
  destruct (token_kind key) as [| | | | | |name| |]; try (by apply computes_malformed).
  eapply key_span_ok; [done|]. cbv zeta.
  eapply computes_eq; [|eapply (next_value_ok n n' _ _ _ _ (λ vr,
    '(es, r) ← read_entries source stop more n' vr.2;
    Some (located source (token_start open) (offset_of stop r)
            (Dictionary (entries ++
               {| entry_key := located source (token_start key) (token_end key) name;
                  entry_value := vr.1 |} :: es)), r))); try done; [lia|lia|]].
  - destruct (read_token stop more r) as [[t r']|]; [|done]. simpl.
    destruct (read_value source stop more n' t r') as [[v r'']|]; [|done]. simpl.
    by destruct (read_entries source stop more n' r'') as [[es r3]|].
  - intros s6 value r' Hs6 Hc6 Hr'.
    eapply computes_eq; [|eapply (IHd open rest0 r' d (entries ++ [_]) cap s6); try done; try lia].
    + simpl. destruct (read_entries source stop more n' r') as [[es r3]|]; [|done]. simpl.
      by rewrite <-app_assoc.
    + rewrite length_app, Nat2Z.inj_add. apply Hcap. lia.
Qed.

Theorem containers_ok n : ∀ n', object_ok n n' ∧ array_ok n n' ∧ dictionary_ok n n'.
Proof.
  induction n as [|n IH]; intros n'.
  { split_and!; repeat intro; lia. }
  destruct n' as [|n']; [split_and!; repeat intro; lia|].
  destruct (IH n') as (Ho&Ha&Hd).
  split_and!; [by apply object_step|by apply array_step|by apply dictionary_step].
Qed.

Lemma parse_object_at_ok rest s :
  state_ok p s → suffix_at p (ps_cursor s) rest →
  parses p (λ f, or_malformed p (read_object source stop more rest) f ∨ at_clean_end p rest f)
    (parse_object_at p 0) s
    (λ s' o, ∃ or, read_object source stop more rest = Some or ∧ object_read p s' o or).
Proof.
  intros Hs Hc. unfold parse_object_at, read_object. pose proof (suffix_length _ _ _ Hc).
  eapply parses_bind.
  { eapply parses_failures; [by apply next_token_ends|].
    intros f [[?|[-> ?]]|?]; [left; by left|left; by right|by right]. }
  intros s1 ? Hs1 ([token r]&Hr&Hc1&->). rewrite Hr. cbn [mbind option_bind fst snd] in *.
  apply (read_token_before p) in Hr as Ht; [|lia]. apply read_token_length in Hr as [Hr _].
  eapply parses_failures; [|intros f Hf; by left].
  apply containers_ok; try done; [unfold object_fuel; lia|lia|]. parser_facts Hp. lia.
Qed.
End containers.
