(* ===== verification/SyntaxGrowth.v ===== *)
(** * Windows that grow, and the spans of parsed objects

    What a reader decides on a window that may continue it decides on every longer
    one: the same values, the same spans, and the new bytes at the end of what
    remains. An object knows where it was read: children lie strictly inside their
    container, in order and without overlap. *)

From stdpp Require Import base list numbers option strings.
From S2P Require Import Prelude.
From S2P Require Import SourceTypes.
From S2P Require Import SyntaxTypes.
From S2P Require Import SyntaxState.
From S2P Require Import SyntaxLexer.
From S2P Require Import SyntaxParser.
From S2P Require Import SyntaxRules.
From S2P Require Import SyntaxReader.
From S2P Require Import SyntaxTrivia.
From S2P Require Import SyntaxTokens.
From S2P Require Import SyntaxStrings.
From S2P Require Import SyntaxObjects.
From S2P Require Import SyntaxContainers.

Lemma run_of_grows class rest run r ext :
  run_of class rest = (run, r) → r ≠ [] → run_of class (rest ++ ext) = (run, r ++ ext).
Proof.
  revert run. induction rest as [|b l IH]; intros run; simpl; [by intros [= <- <-]|].
  destruct (class b); [|by intros [= <- <-]].
  destruct (run_of class l) as [run' r'] eqn:Hl. intros [= <- <-] Hr. by rewrite (IH _ eq_refl Hr).
Qed.

Lemma read_trivia_grows more more' comment rest r ext :
  read_trivia more comment rest = Some r → r ≠ [] →
  read_trivia more' comment (rest ++ ext) = Some (r ++ ext).
Proof.
  revert comment. induction rest as [|b l IH]; intros comment; simpl.
  { destruct (comment && more); [done|]. by intros [= <-]. }
  destruct comment; [by apply IH|]. destruct (is_whitespace b); [by apply IH|].
  destruct (b =? 37); [by apply IH|]. by intros [= <-].
Qed.

(** ** Strings and names *)

Lemma read_literal_grows depth rest decoded r ext :
  read_literal depth rest = Some (decoded, r) →
  read_literal depth (rest ++ ext) = Some (decoded, r ++ ext).
Proof.
  revert depth decoded. induction rest as [rest IH] using (induction_ltof1 _ (@length Z)).
  unfold ltof in IH. intros depth decoded.
  assert (∀ b d l decoded,
    (length l < length rest)%nat →
    ('(decoded, r) ← read_literal d l; Some (b :: decoded, r)) = Some (decoded, r) →
    ('(decoded, r) ← read_literal d (l ++ ext); Some (b :: decoded, r)) = Some (decoded, r ++ ext))
    as Hpush.
  { intros b d l dec Hl (dec'&Hd&->)%push_Some. by rewrite (IH l Hl _ _ Hd). }
  destruct rest as [|b l]; [done|]. cbn [read_literal app].
  destruct (b =? 40); [apply Hpush; simpl; lia|].
  destruct (b =? 41).
  { destruct (depth - 1 =? 0); [by intros [= <- <-]|apply Hpush; simpl; lia]. }
  destruct (b =? 92).
  - destruct l as [|e l]; [done|]. cbn [app].
    destruct (e =? 13).
    { destruct l as [|c l]; [done|]. cbn [app]. destruct (c =? 10); [apply IH; simpl; lia|].
      apply (IH (c :: l)). simpl. lia. }
    destruct (e =? 10); [apply IH; simpl; lia|].
    destruct (is_octal_digit e); [|apply Hpush; simpl; lia].
    destruct l as [|second l]; [done|]. cbn [app].
    destruct (is_octal_digit second); [|apply (Hpush _ _ (second :: l)); simpl; lia].
    destruct l as [|third l]; [done|]. cbn [app].
    destruct (is_octal_digit third); [apply Hpush; simpl; lia|].
    apply (Hpush _ _ (third :: l)). simpl. lia.
  - destruct (b =? 13); [|apply Hpush; simpl; lia].
    destruct l as [|c l]; [done|]. cbn [app]. destruct (c =? 10); [apply Hpush; simpl; lia|].
    apply (Hpush _ _ (c :: l)). simpl. lia.
Qed.

Lemma read_hex_grows high rest decoded r ext :
  read_hex high rest = Some (decoded, r) →
  read_hex high (rest ++ ext) = Some (decoded, r ++ ext).
Proof.
  revert high decoded. induction rest as [|b l IH]; intros high decoded; simpl; [done|].
  destruct (b =? 62); [by intros [= <- <-]|]. destruct (is_whitespace b); [apply IH|].
  destruct (hex_value b); simpl; [|done]. destruct high; [|apply IH].
  destruct (read_hex None l) as [[d r']|] eqn:Hl; simpl; [|done]. intros [= <- <-].
  by rewrite (IH _ _ Hl).
Qed.

Lemma read_name_grows more' rest decoded r ext :
  read_name true rest = Some (decoded, r) →
  read_name more' (rest ++ ext) = Some (decoded, r ++ ext) ∧ r ≠ [].
Proof.
  revert decoded. induction rest as [rest IH] using (induction_ltof1 _ (@length Z)).
  unfold ltof in IH. intros decoded. destruct rest as [|b l]; cbn [read_name app]; [done|].
  destruct (is_delimiter b); [by intros [= <- <-]|].
  destruct (b =? 35).
  - destruct l as [|high [|low l]]; [done|done|]. cbn [app].
    destruct (hex_value high); simpl; [|done]. destruct (hex_value low); simpl; [|done].
    intros (d&Hd&->)%push_Some. apply IH in Hd as [-> ?]; [done|simpl; lia].
  - intros (d&Hd&->)%push_Some. apply IH in Hd as [-> ?]; [done|simpl; lia].
Qed.

(** ** Tokens *)

Lemma read_kind_grows more' rest kind r ext :
  read_kind true rest = Some (kind, r) → read_kind more' (rest ++ ext) = Some (kind, r ++ ext).
Proof.
  destruct rest as [|b l]; cbn [read_kind app]; [done|].
  destruct (b =? 91); [by intros [= <- <-]|]. destruct (b =? 93); [by intros [= <- <-]|].
  destruct (b =? 40).
  { destruct (read_literal 1 l) as [[d r']|] eqn:Hr; [|done]. intros [= <- <-].
    by rewrite (read_literal_grows _ _ _ _ ext Hr). }
  destruct (b =? 47).
  { destruct (read_name true l) as [[d r']|] eqn:Hr; [|done]. intros [= <- <-].
    by apply (read_name_grows more' _ _ _ ext) in Hr as [-> _]. }
  destruct (b =? 60).
  { destruct l as [|b2 l]; [done|]. cbn [app]. destruct (b2 =? 60); [by intros [= <- <-]|].
    destruct (read_hex None (b2 :: l)) as [[d r']|] eqn:Hr; [|done]. intros [= <- <-].
    apply (read_hex_grows _ _ _ _ ext) in Hr. cbn [app] in Hr. by rewrite Hr. }
  destruct (b =? 62).
  { destruct l as [|b2 l]; [done|]. cbn [app]. destruct (b2 =? 62); [|done]. by intros [= <- <-]. }
  destruct (_ || _); [done|]. unfold read_regular. change (b :: l ++ ext) with ((b :: l) ++ ext).
  destruct (run_of is_regular (b :: l)) as [raw r'] eqn:Hrun.
  destruct (bool_decide (raw = [])) eqn:Hraw; [done|]. cbn [orb].
  destruct (bool_decide (r' = [])) eqn:Hend; [done|]. cbn [andb].
  apply bool_decide_eq_false in Hend. rewrite (run_of_grows _ _ _ _ ext Hrun Hend), Hraw. cbn [orb].
  rewrite bool_decide_eq_false_2 by (by destruct r'). cbn [andb].
  destruct (is_number_start b); [|by intros [= <- <-]].
  destruct (read_number raw); simpl; [|done]. by intros [= <- <-].
Qed.

Lemma offset_of_grows stop rest ext : offset_of (stop + len ext) (rest ++ ext) = offset_of stop rest.
Proof. unfold offset_of. rewrite length_app. lia. Qed.

Lemma read_token_grows more' stop rest t r ext :
  read_token stop true rest = Some (t, r) →
  read_token (stop + len ext) more' (rest ++ ext) = Some (t, r ++ ext).
Proof.
  unfold read_token. destruct (read_trivia true false rest) as [before|] eqn:Ht; [|done].
  cbn [mbind option_bind]. destruct (read_kind true before) as [[kind r']|] eqn:Hk; [|done].
  intros [= <- <-]. assert (before ≠ []) as Hne by (by intros ->).
  rewrite (read_trivia_grows _ more' _ _ _ ext Ht Hne). cbn [mbind option_bind].
  rewrite (read_kind_grows more' _ _ _ ext Hk). cbn [mbind option_bind].
  by rewrite !offset_of_grows.
Qed.

(** ** Integers and references *)

Lemma split_sign_grows rest ext :
  rest ≠ [] → split_sign (rest ++ ext) = ((split_sign rest).1, (split_sign rest).2 ++ ext).
Proof. destruct rest as [|b l]; [done|]. intros _. cbn [app split_sign]. by repeat case_match. Qed.

Lemma probe_integer_grows more' rest found ext :
  rest ≠ [] → probe_integer true rest = Some found →
  probe_integer more' (rest ++ ext) = Some (prod_map id (.++ ext) <$> found) ∧
  from_option (λ vr, vr.2 ≠ []) True found.
Proof.
  intros Hne. unfold probe_integer.
  assert (head (rest ++ ext) = head rest) as -> by (by destruct rest).
  destruct (from_option _ _ _); [|by intros [= <-]].
  rewrite split_sign_grows by done. destruct (split_sign rest) as [negative unsigned].
  cbn [fst snd]. unfold probe_digits_of.
  destruct (run_of is_ascii_digit unsigned) as [digits r] eqn:Hrun.
  case_bool_decide as Hnil; [done|]. rewrite (bool_decide_eq_false_2 (unsigned ++ ext = []))
    by (by destruct unsigned).
  case_bool_decide as Hdigits.
  { subst digits. intros [= <-]. pose proof (run_of_app _ _ _ _ Hrun) as Happ. simpl in Happ.
    subst r. rewrite (run_of_grows _ _ _ _ ext Hrun Hnil). done. }
  case_bool_decide as Hend; [done|]. cbn [andb].
  rewrite (run_of_grows _ _ _ _ ext Hrun Hend).
  rewrite bool_decide_eq_false_2 by done. rewrite bool_decide_eq_false_2 by (by destruct r).
  cbn [andb]. assert (head (r ++ ext) = head r) as -> by (by destruct r).
  destruct (from_option is_delimiter _ _); intros [= <-]; [|done].
  by destruct (integer_value negative digits).
Qed.

Lemma read_generation_grows more' rest found ext :
  read_generation true rest = Some found →
  read_generation more' (rest ++ ext) = Some (prod_map id (.++ ext) <$> found).
Proof.
  unfold read_generation.
  destruct (read_trivia true false rest) as [r1|] eqn:Hr1; [|done]. cbn [mbind option_bind].
  destruct r1 as [|b1 l1] eqn:Heq; [done|]. rewrite <-Heq in *.
  assert (r1 ≠ []) as Hne1 by (by subst). clear Heq.
  rewrite (read_trivia_grows _ more' _ _ _ ext Hr1 Hne1). cbn [mbind option_bind].
  destruct (r1 ++ ext) eqn:Happ; [by destruct r1|]. rewrite <-Happ. clear Happ.
  destruct (probe_integer true r1) as [probed|] eqn:Hp; [|done]. cbn [mbind option_bind].
  apply (probe_integer_grows more' _ _ ext Hne1) in Hp as [-> Hp].
  destruct probed as [[v r2]|]; cbn [mbind option_bind fmap option_fmap option_map prod_map fst snd];
    [|by intros [= <-]].
  destruct (read_trivia true false r2) as [r3|] eqn:Hr3; [|done]. cbn [mbind option_bind].
  destruct r3 as [|b3 l3]; [done|].
  rewrite (read_trivia_grows _ more' _ _ _ ext Hr3) by done. cbn [mbind option_bind app].
  destruct (b3 =? 82); cbn [negb]; [|by intros [= <-]].
  destruct l3 as [|next l3]; [done|]. cbn [app].
  by destruct (is_delimiter next); intros [= <-].
Qed.

Lemma read_integer_grows source stop more' first value rest o r ext :
  read_integer source stop true first value rest = Some (o, r) →
  read_integer source (stop + len ext) more' first value (rest ++ ext) = Some (o, r ++ ext).
Proof.
  unfold read_integer. destruct (read_generation true rest) as [found|] eqn:Hg; [|done].
  apply (read_generation_grows more' _ _ ext) in Hg as ->. cbn [mbind option_bind].
  destruct found as [[g r']|]; cbn [fmap option_fmap option_map prod_map fst snd];
    [|by intros [= <- <-]].
  unfold id. destruct (reference_of value g); [|done]. intros [= <- <-].
  cbn [mbind option_bind]. by rewrite offset_of_grows.
Qed.

(** ** Objects *)

Section values.
Variable (source : SourceIdentity) (stop : Z) (more' : bool) (ext : list Z).
Local Notation stop' := (stop + len ext).

Theorem read_values_grow n : ∀ n', (n ≤ n')%nat →
  (∀ token rest o r, read_value source stop true n token rest = Some (o, r) →
     read_value source stop' more' n' token (rest ++ ext) = Some (o, r ++ ext)) ∧
  (∀ rest vs r, read_items source stop true n rest = Some (vs, r) →
     read_items source stop' more' n' (rest ++ ext) = Some (vs, r ++ ext)) ∧
  (∀ rest es r, read_entries source stop true n rest = Some (es, r) →
     read_entries source stop' more' n' (rest ++ ext) = Some (es, r ++ ext)).
Proof.
  induction n as [|n IH]; intros n' Hn; [done|]. destruct n' as [|n']; [lia|].
  destruct (IH n' ltac:(lia)) as (IHv&IHi&IHe). clear IH. split_and!.
  - intros token rest o r. unfold_readers source stop true.
    fold (read_items source stop' more') (read_entries source stop' more').
    destruct (token_kind token) as [| | | |value| | | |bytes]; try done;
      try (by intros [= <- <-]).
    + destruct (read_items source stop true n rest) as [[vs r']|] eqn:Hi; [|done].
      intros [= <- <-]. apply IHi in Hi as ->. cbn [mbind option_bind]. by rewrite offset_of_grows.
    + destruct (read_entries source stop true n rest) as [[es r']|] eqn:Hi; [|done].
      intros [= <- <-]. apply IHe in Hi as ->. cbn [mbind option_bind]. by rewrite offset_of_grows.
    + apply read_integer_grows.
    + destruct (keyword_object bytes); [|done]. by intros [= <- <-].
  - intros rest vs r. unfold_readers source stop true.
    fold (read_items source stop' more') (read_value source stop' more').
    destruct (read_trivia true false rest) as [r1|] eqn:Hr1; [|done]. cbn [mbind option_bind].
    destruct r1 as [|b l]; [done|].
    rewrite (read_trivia_grows _ more' _ _ _ ext Hr1) by done. cbn [mbind option_bind app head].
    case_bool_decide; [by intros [= <- <-]|]. change (b :: l ++ ext) with ((b :: l) ++ ext).
    destruct (read_token stop true (b :: l)) as [[t r2]|] eqn:Hr2; [|done].
    rewrite (read_token_grows more' _ _ _ _ ext Hr2). cbn [mbind option_bind].
    destruct (read_value source stop true n t r2) as [[v r3]|] eqn:Hr3; [|done].
    apply IHv in Hr3 as ->. cbn [mbind option_bind].
    destruct (read_items source stop true n r3) as [[vs' r4]|] eqn:Hr4; [|done].
    apply IHi in Hr4 as ->. by intros [= <- <-].
  - intros rest es r. unfold_readers source stop true.
    fold (read_entries source stop' more') (read_value source stop' more').
    destruct (read_trivia true false rest) as [r1|] eqn:Hr1; [|done]. cbn [mbind option_bind].
    destruct r1 as [|b l]; [done|].
    rewrite (read_trivia_grows _ more' _ _ _ ext Hr1) by done. cbn [mbind option_bind].
    destruct (decide (take 2 (b :: l) = [62; 62])) as [Htake|Htake].
    { destruct l as [|b' l]; [done|]. simpl in Htake. rewrite take_0 in Htake. simplify_eq.
      rewrite !bool_decide_eq_true_2 by (cbn; by rewrite take_0). by intros [= <- <-]. }
    rewrite bool_decide_eq_false_2 by done.
    destruct (read_token stop true (b :: l)) as [[k r2]|] eqn:Hr2; [|done].
    rewrite bool_decide_eq_false_2.
    2: { intros Htake'. destruct l as [|b' l]; [|done]. simpl in Htake'.
         injection Htake' as -> Htake'. done. }
    rewrite (read_token_grows more' _ _ _ _ ext Hr2). cbn [mbind option_bind].
    destruct (token_kind k); try done.
    destruct (read_token stop true r2) as [[t r2']|] eqn:Hr2'; [|done].
    rewrite (read_token_grows more' _ _ _ _ ext Hr2'). cbn [mbind option_bind].
    destruct (read_value source stop true n t r2') as [[v r3]|] eqn:Hr3; [|done].
    apply IHv in Hr3 as ->. cbn [mbind option_bind].
    destruct (read_entries source stop true n r3) as [[vs' r4]|] eqn:Hr4; [|done].
    apply IHe in Hr4 as ->. by intros [= <- <-].
Qed.

Lemma read_object_grows rest o r :
  read_object source stop true rest = Some (o, r) →
  read_object source stop' more' (rest ++ ext) = Some (o, r ++ ext).
Proof.
  unfold read_object. destruct (read_token stop true rest) as [[t r']|] eqn:Ht; [|done].
  rewrite (read_token_grows more' _ _ _ _ ext Ht). cbn [mbind option_bind].
  intros Hv. eapply read_values_grow in Hv; [exact Hv|]. rewrite length_app. lia.
Qed.
End values.

(** A value of a source between two offsets, with at least one byte. *)
Definition placed {A} (source : SourceIdentity) (lo hi : Z) (o : Located A) : Prop :=
  located_source o = source ∧ lo ≤ span_start (located_span o) ∧
  span_start (located_span o) < ByteSpan_end_exclusive (located_span o) ∧ ByteSpan_end_exclusive (located_span o) ≤ hi.

(** [nested source lo hi o]: [o] is placed between [lo] and [hi], and what it
    contains is in order inside its delimiters. *)
Inductive nested (source : SourceIdentity) : Z → Z → Located SyntaxObject → Prop :=
| nested_scalar lo hi o :
    placed source lo hi o →
    match located_value o with Array _ | Dictionary _ => False | _ => True end →
    nested source lo hi o
| nested_array lo hi o values :
    placed source lo hi o → located_value o = Array values →
    nested_items source (span_start (located_span o) + 1) (ByteSpan_end_exclusive (located_span o) - 1) values →
    nested source lo hi o
| nested_dictionary lo hi o entries :
    placed source lo hi o → located_value o = Dictionary entries →
    nested_entries source (span_start (located_span o) + 2) (ByteSpan_end_exclusive (located_span o) - 2)
      entries →
    nested source lo hi o
with nested_items (source : SourceIdentity) : Z → Z → PdfArray → Prop :=
| nested_items_nil lo hi : lo ≤ hi → nested_items source lo hi []
| nested_items_cons lo hi value values :
    nested source lo hi value →
    nested_items source (ByteSpan_end_exclusive (located_span value)) hi values →
    nested_items source lo hi (value :: values)
with nested_entries (source : SourceIdentity) : Z → Z → PdfDictionary → Prop :=
| nested_entries_nil lo hi : lo ≤ hi → nested_entries source lo hi []
| nested_entries_cons lo hi entry entries :
    placed source lo hi (entry_key entry) →
    nested source (ByteSpan_end_exclusive (located_span (entry_key entry))) hi (entry_value entry) →
    nested_entries source (ByteSpan_end_exclusive (located_span (entry_value entry))) hi entries →
    nested_entries source lo hi (entry :: entries).

Section spans.
Variables (source : SourceIdentity) (stop : Z) (more : bool).

Lemma located_placed {A} start end_ lo hi (value : A) :
  lo ≤ start → start < end_ → end_ ≤ hi → placed source lo hi (located source start end_ value).
Proof. intros. split; [done|]. unfold ByteSpan_end_exclusive. simpl. lia. Qed.

Lemma placed_weaken {A} lo lo' hi hi' (o : Located A) :
  placed source lo hi o → lo' ≤ lo → hi ≤ hi' → placed source lo' hi' o.
Proof. intros (?&?&?&?) ??. split_and!; try done; lia. Qed.

Lemma nested_weaken lo lo' hi hi' o :
  nested source lo hi o → lo' ≤ lo → hi ≤ hi' → nested source lo' hi' o.
Proof.
  intros Ho Hlo Hhi. destruct Ho as [lo hi o Hp|lo hi o vs Hp|lo hi o es Hp];
    pose proof (placed_weaken _ _ _ _ _ Hp Hlo Hhi).
  - by apply nested_scalar.
  - by eapply nested_array.
  - by eapply nested_dictionary.
Qed.

Lemma offset_of_le r rest : (length r ≤ length rest)%nat → offset_of stop rest ≤ offset_of stop r.
Proof. unfold offset_of. lia. Qed.

Lemma nested_items_weaken lo lo' hi vs :
  nested_items source lo hi vs → lo' ≤ lo → nested_items source lo' hi vs.
Proof.
  destruct 1 as [|lo hi v vs Hv Hvs]; intros Hlo; [apply nested_items_nil; lia|].
  apply nested_items_cons; [|done]. eapply nested_weaken; [exact Hv|lia|lia].
Qed.

Lemma nested_entries_weaken lo lo' hi es :
  nested_entries source lo hi es → lo' ≤ lo → nested_entries source lo' hi es.
Proof.
  destruct 1 as [|lo hi e es Hk Hv Hes]; intros Hlo; [apply nested_entries_nil; lia|].
  apply nested_entries_cons; [|done|done]. eapply placed_weaken; [exact Hk|lia|lia].
Qed.

Lemma nested_placed lo hi o : nested source lo hi o → placed source lo hi o.
Proof. by destruct 1. Qed.

Lemma nested_items_le lo hi vs : nested_items source lo hi vs → lo ≤ hi.
Proof.
  induction 1 as [|lo hi v vs Hv%nested_placed _ IH]; [done|]. destruct Hv as (_&?&?&?). lia.
Qed.

Lemma nested_entries_le lo hi es : nested_entries source lo hi es → lo ≤ hi.
Proof.
  induction 1 as [|lo hi e es (_&?&?&?) Hv%nested_placed _ IH]; [done|].
  destruct Hv as (_&?&?&?). lia.
Qed.

(** A token that ends where [rest] begins; an opening delimiter has its length. *)
Definition token_placed (t : Token) (rest : list Z) : Prop :=
  token_start t < token_end t ∧ token_end t = offset_of stop rest ∧
  (token_kind t = DictionaryOpen → token_start t + 2 = token_end t).

Lemma read_kind_open rest r :
  read_kind more rest = Some (DictionaryOpen, r) → (length rest = length r + 2)%nat.
Proof.
  destruct rest as [|b l]; cbn [read_kind]; [done|].
  destruct (b =? 91); [done|]. destruct (b =? 93); [done|].
  destruct (b =? 40); [by destruct (read_literal 1 l) as [[]|]|].
  destruct (b =? 47); [by destruct (read_name more l) as [[]|]|].
  destruct (b =? 60).
  { destruct l as [|b2 l]; [done|]. destruct (b2 =? 60); [intros [= <-]; simpl; lia|].
    by destruct (read_hex None (b2 :: l)) as [[]|]. }
  destruct (b =? 62); [by destruct l as [|b2 l]; [|destruct (b2 =? 62)]|].
  destruct (_ || _); [done|]. unfold read_regular.
  destruct (run_of is_regular (b :: l)) as [raw r']. destruct (_ || _); [done|].
  destruct (is_number_start b); [|done]. unfold read_number.
  repeat (case_match; try done). by destruct (integer_value _ _).
Qed.

Lemma read_token_placed rest t r :
  read_token stop more rest = Some (t, r) →
  token_placed t r ∧ offset_of stop rest ≤ token_start t ∧ (length r < length rest)%nat.
Proof.
  intros Ht. pose proof (read_token_length _ _ _ _ _ Ht) as (Hl&He&before&Hs&Hb).
  unfold token_placed. rewrite Hs, He. split_and!; try done; try (unfold offset_of; lia).
  unfold read_token in Ht. destruct (read_trivia more false rest) as [rest'|]; [|done].
  cbn [mbind option_bind] in Ht. destruct (read_kind more rest') as [[kind r']|] eqn:Hk; [|done].
  injection Ht as <- <-. simpl in *. intros ->. apply read_kind_open in Hk.
  unfold offset_of in *. lia.
Qed.

(** The object [read_value] reads: from its token to what remains. *)
Definition value_placed (t : Token) (o : Located SyntaxObject) (r : list Z) : Prop :=
  nested source (token_start t) (offset_of stop r) o ∧
  span_start (located_span o) = token_start t ∧
  ByteSpan_end_exclusive (located_span o) = offset_of stop r.

Lemma scalar_placed t rest r value :
  token_placed t rest → (length r ≤ length rest)%nat →
  match value with Array _ | Dictionary _ => False | _ => True end →
  value_placed t (located source (token_start t) (offset_of stop r) value) r.
Proof.
  intros (Ht&He&_) Hl Hv. pose proof (offset_of_le _ _ Hl). split_and!; [|done|].
  - apply nested_scalar; [|done]. apply located_placed; lia.
  - unfold ByteSpan_end_exclusive. simpl. lia.
Qed.

Lemma integer_placed t value rest o r :
  token_placed t rest → read_integer source stop more t value rest = Some (o, r) →
  value_placed t o r.
Proof.
  intros Ht Hr. pose proof (read_integer_length _ _ _ _ _ _ _ _ Hr) as Hl.
  unfold read_integer in Hr.
  destruct (read_generation more rest) as [[[g r']|]|]; cbn [mbind option_bind] in Hr; [| |done].
  - destruct (reference_of value g); [|done]. injection Hr as <- <-. by eapply scalar_placed.
  - injection Hr as <- <-. rewrite (proj1 (proj2 Ht)). by eapply scalar_placed.
Qed.

Lemma container_end {A} t r (value : A) :
  let o := located source (token_start t) (offset_of stop r) value in
  ByteSpan_end_exclusive (located_span o) = offset_of stop r.
Proof. unfold ByteSpan_end_exclusive. simpl. lia. Qed.

Lemma closing_offset n r rest :
  (length r + n = length rest)%nat → offset_of stop rest = offset_of stop r - Z.of_nat n.
Proof. unfold offset_of. lia. Qed.

Theorem read_values_nested n :
  (∀ token rest o r, token_placed token rest →
     read_value source stop more n token rest = Some (o, r) → value_placed token o r) ∧
  (∀ rest vs r, read_items source stop more n rest = Some (vs, r) →
     nested_items source (offset_of stop rest) (offset_of stop r - 1) vs) ∧
  (∀ rest es r, read_entries source stop more n rest = Some (es, r) →
     nested_entries source (offset_of stop rest) (offset_of stop r - 2) es).
Proof.
  induction n as [|n (IHv&IHi&IHe)]; [done|]. split_and!.
  - intros token rest o r Ht. unfold_readers source stop more.
    pose proof (Ht) as (Hlt&Hend&Hopen).
    destruct (token_kind token) as [| | | |value| | | |bytes]; try done;
      try (intros [= <- <-]; rewrite Hend; by eapply scalar_placed).
    + destruct (read_items source stop more n rest) as [[vs r']|] eqn:Hi; [|done].
      intros [= <- <-]. pose proof (proj1 (proj2 (read_values_length _ _ _ _)) _ _ _ Hi) as Hl.
      apply IHi in Hi. pose proof (nested_items_le _ _ _ Hi).
      split_and!; [|done|apply container_end]. eapply nested_array; [|done|].
      * apply located_placed; lia.
      * rewrite container_end. simpl. eapply nested_items_weaken; [exact Hi|lia].
    + destruct (read_entries source stop more n rest) as [[es r']|] eqn:Hi; [|done].
      intros [= <- <-]. apply IHe in Hi. pose proof (nested_entries_le _ _ _ Hi).
      split_and!; [|done|apply container_end]. eapply nested_dictionary; [|done|].
      * apply located_placed; lia.
      * rewrite container_end. simpl. eapply nested_entries_weaken; [exact Hi|].
        specialize (Hopen eq_refl). lia.
    + by apply integer_placed.
    + destruct (keyword_object bytes) as [value|] eqn:Hk; [|done]. intros [= <- <-]. rewrite Hend.
      eapply scalar_placed; [done|done|]. unfold keyword_object in Hk. by repeat case_match; simplify_eq.
  - intros rest vs r. unfold_readers source stop more.
    destruct (read_trivia more false rest) as [r1|] eqn:Hr1; [|done].
    apply read_trivia_length in Hr1. pose proof (offset_of_le _ _ Hr1). cbn [mbind option_bind].
    case_bool_decide as Hclose.
    { intros [= <- <-]. destruct r1 as [|b l]; [done|]. apply nested_items_nil.
      pose proof (closing_offset 1 l (b :: l) ltac:(simpl; lia)). simpl in *. lia. }
    destruct (read_token stop more r1) as [[t r2]|] eqn:Hr2; [|done]. cbn [mbind option_bind].
    apply read_token_placed in Hr2 as (Ht&Hs&_).
    destruct (read_value source stop more n t r2) as [[v r3]|] eqn:Hr3; [|done].
    apply IHv in Hr3 as (Hv&_&He); [|done]. cbn [mbind option_bind].
    destruct (read_items source stop more n r3) as [[vs' r4]|] eqn:Hr4; [|done].
    apply IHi in Hr4. intros [= <- <-]. pose proof (nested_items_le _ _ _ Hr4).
    apply nested_items_cons; [|by rewrite He]. eapply nested_weaken; [exact Hv|lia|lia].
  - intros rest es r. unfold_readers source stop more.
    destruct (read_trivia more false rest) as [r1|] eqn:Hr1; [|done].
    apply read_trivia_length in Hr1. pose proof (offset_of_le _ _ Hr1). cbn [mbind option_bind].
    case_bool_decide as Hclose.
    { intros [= <- <-]. destruct r1 as [|b [|b' l]]; [done..|]. apply nested_entries_nil.
      pose proof (closing_offset 2 l (b :: b' :: l) ltac:(simpl; lia)). simpl in *.
      rewrite drop_0. lia. }
    destruct (read_token stop more r1) as [[k r2]|] eqn:Hr2; [|done]. cbn [mbind option_bind].
    apply read_token_placed in Hr2 as (Hk&Hs&_). destruct (token_kind k); try done.
    destruct (read_token stop more r2) as [[t r2']|] eqn:Hr2'; [|done]. cbn [mbind option_bind].
    apply read_token_placed in Hr2' as (Ht&Hs'&_).
    destruct (read_value source stop more n t r2') as [[v r3]|] eqn:Hr3; [|done].
    apply IHv in Hr3 as (Hv&_&He); [|done]. cbn [mbind option_bind].
    destruct (read_entries source stop more n r3) as [[es' r4]|] eqn:Hr4; [|done].
    apply IHe in Hr4. intros [= <- <-]. pose proof (nested_entries_le _ _ _ Hr4).
    destruct Hk as (Hk&Hke&_). pose proof (nested_placed _ _ _ Hv) as (_&Hv1&Hv2&Hv3).
    apply nested_entries_cons; simpl.
    + apply located_placed; lia.
    + eapply nested_weaken; [exact Hv| |lia]. unfold ByteSpan_end_exclusive. simpl. lia.
    + by rewrite He.
Qed.

Lemma read_object_nested rest o r :
  read_object source stop more rest = Some (o, r) →
  nested source (offset_of stop rest) (offset_of stop r) o ∧
  ByteSpan_end_exclusive (located_span o) = offset_of stop r.
Proof.
  unfold read_object. destruct (read_token stop more rest) as [[t r']|] eqn:Ht; [|done].
  cbn [mbind option_bind]. apply read_token_placed in Ht as (Ht&Hs&_).
  intros (Ho&_&He)%read_values_nested; [|done]. split; [|done].
  eapply nested_weaken; [exact Ho|lia|lia].
Qed.
End spans.
