(* ===== verification/SyntaxMethods.v ===== *)
(** * The public methods of the parser

    Polls, headers, keywords, stream boundaries and raw bytes: what each method
    answers, from what the bytes at the cursor are. *)

From stdpp Require Import base list numbers option strings.
From S2P Require Import Prelude.
From S2P Require Import SourceTypes.
From S2P Require Import SyntaxTypes.
From S2P Require Import SyntaxState.
From S2P Require Import SyntaxLexer.
From S2P Require Import SyntaxParser.
From S2P Require Import SyntaxRules.
From S2P Require Import SyntaxReader.
From S2P Require Import SyntaxTrivia.
From S2P Require Import SyntaxTokens.
From S2P Require Import SyntaxStrings.
From S2P Require Import SyntaxObjects.
From S2P Require Import SyntaxContainers.

(** ** What the methods read *)

Section readers.
Variable (source : SourceIdentity) (stop : Z) (more : bool).

(** [%PDF-1.0] to [%PDF-1.7], or [%PDF-2.0]. *)
Definition supported_version (major dot minor : Z) : bool :=
  (dot =? 46) && (((major =? 49) && ((48 <=? minor) && (minor <=? 55)))
                  || ((major =? 50) && (minor =? 48))).

Definition read_pdf_header (rest : list Z) : option (Located PdfHeader * list Z) :=
  if bool_decide (take 5 rest = octets "%PDF-") then
    major ← rest !! 5%nat; dot ← rest !! 6%nat; minor ← rest !! 7%nat;
    if supported_version major dot minor then
      let start := offset_of stop rest in
      Some (located source start (start + 8)
              {| header_major := major - 48; header_minor := minor - 48 |}, drop 8 rest)
    else None
  else None.

(** A keyword: regular bytes that do not begin like a number. *)
Definition read_keyword (rest : list Z) : option (RawBytes * list Z) :=
  rest ← read_trivia more false rest;
  first ← head rest;
  if is_delimiter first || is_number_start first then None
  else
    let '(raw, r) := run_of is_regular rest in
    if bool_decide (r = []) && more then None
    else Some ({| raw_source := source;
                  raw_span := {| span_start := offset_of stop rest;
                                 span_len := offset_of stop r - offset_of stop rest |};
                  raw_bytes := raw |}, r).

Definition read_expected (expected rest : list Z) : option (ByteSpan * list Z) :=
  '(keyword, r) ← read_keyword rest;
  if bool_decide (raw_bytes keyword = expected) then Some (raw_span keyword, r) else None.

(** The line ending after the keyword [stream]: LF or CR LF. *)
Definition read_line_ending (rest : list Z) : option (ByteSpan * list Z) :=
  r ← match rest with
      | byte :: l =>
          if byte =? 10 then Some l
          else if byte =? 13 then
            match l with
            | byte' :: l => if byte' =? 10 then Some l else None
            | [] => None
            end
          else None
      | [] => None
      end;
  Some ({| span_start := offset_of stop rest; span_len := offset_of stop r - offset_of stop rest |},
        r).

Definition read_raw (length_ : nat) (rest : list Z) : option (RawBytes * list Z) :=
  if decide (length_ ≤ length rest)%nat then
    Some ({| raw_source := source;
             raw_span := {| span_start := offset_of stop rest; span_len := Z.of_nat length_ |};
             raw_bytes := take length_ rest |}, drop length_ rest)
  else None.
End readers.

(** ** Polls *)

(** What a method answers, for what [spec] reads at the cursor: a value read, the
    end of an input without more, a request for the window up to [wanted], or an
    error with its reason: a syntax error only about bytes that [spec] does not read,
    any other only for a limit, the allocator or the probe, or an offset out of
    range. [clean] says when the end is no error. *)
Definition answers `{ParserRuntime} {T} (p : SyntaxParser) (wanted : Z)
    (spec : option (T * list Z)) (clean : Prop)
    (outcome : ParserState * option (SyntaxPoll T)) : Prop :=
  let '(s', answer) := outcome in
  match answer with
  | None => False
  | Some (Ready value) =>
      state_ok p s' ∧ ∃ r, spec = Some (value, r) ∧ suffix_at p (ps_cursor s') r
  | Some (NeedMore minimum_end) =>
      stopped_ok p s' ∧ may_continue p = true ∧ spec = None ∧ minimum_end = wanted
  | Some EndOfInput => stopped_ok p s' ∧ may_continue p = false ∧ spec = None ∧ clean
  | Some (Failed e) =>
      stopped_ok p s' ∧ (refusal e ∨ spec = None) ∧
      (error_code e = InternalState → may_continue p = true ∧ u64_max < wanted) ∧
      (∃ offset, error_offset e = Some offset ∧ offset_ok p offset) ∧
      match error_category e with
      | CategorySyntax => spec = None ∧ about_bytes (error_code e)
      | _ => refusal e ∨ error_code e = InternalState
      end
  end.

Section methods.
Context `{ParserRuntime} (p : SyntaxParser).
Hypothesis Hp : parser_ok p.
Implicit Types s : ParserState.
Local Notation more := (may_continue p).
Local Notation stop := (window_end p).
Local Notation source := (input_source (sp_input p)).

Lemma syntax_for_code code offset :
  error_code (SyntaxError_for_code code offset) = code ∧
  error_offset (SyntaxError_for_code code offset) = offset.
Proof. by destruct code. Qed.

Lemma limited_answer {B} (spec : option B) e :
  refusal e → error_category e ≠ CategorySyntax →
  match error_category e with
  | CategorySyntax => spec = None ∧ about_bytes (error_code e)
  | _ => refusal e ∨ error_code e = InternalState
  end.
Proof. intros ??. destruct (error_category e); by auto. Qed.

Lemma window_end_ok : offset_ok p (absolute p (length (window p))).
Proof. by apply absolute_ok. Qed.

Lemma need_more_ok {T} (spec : option (T * list Z)) clean s :
  stopped_ok p s → may_continue p = true → spec = None →
  answers p (stop + 1) spec clean (s, Some (need_more_or_failure p)).
Proof.
  intros Hs Hmore Hspec. unfold need_more_or_failure. parser_facts Hp.
  assert (try_from u64_max (len (window p)) = Some (len (window p))) as ->
    by (apply try_from_Some; lia).
  assert (checked_add u64_max (len (window p)) 1 = Some (len (window p) + 1)) as ->
    by (apply checked_add_Some; lia).
  pose proof window_end_ok. destruct (_ <? _) eqn:Hl; checked_facts.
  { assert (∀ l, limit_limit l < limit_consumed l + limit_attempted l →
      refusal {| error_code := ResourceLimit; error_category := CategoryResource;
        error_recoverability := ReduceWorkload; error_diagnostic_id := "RPE-SYNTAX-0014";
        error_offset := Some (absolute p (length (window p))); error_limit := Some l |}) as Hr.
    { intros l ?. right. split; [done|]. eexists. split; [done|]. by left. }
    split; [done|]. split; [left; by apply Hr|]. split; [done|]. split; [by eexists|].
    left. by apply Hr. }
  destruct (checked_add _ _ _) as [minimum_end|] eqn:Hend; checked_facts.
  - split_and!; try done. unfold window_end. lia.
  - split; [done|]. split; [by right|]. split; [|split; [by eexists|by right]]. split; [done|].
    unfold window_end. lia.
Qed.

Lemma poll_answers {T} clean_end (m : ParseM T) s rest (spec : option (T * list Z)) clean :
  state_ok p s → suffix_at p (ps_cursor s) rest →
  (∀ s', state_ok p s' → suffix_at p (ps_cursor s') rest →
     parses p (λ f, or_malformed p spec f ∨ f = End ∧ clean_end = true ∧ spec = None ∧ clean) m s'
       (λ s' v, ∃ vr, spec = Some vr ∧ suffix_at p (ps_cursor s') vr.2 ∧ v = vr.1)) →
  answers p (stop + 1) spec clean (poll p clean_end m s).
Proof.
  intros Hs Hc Hm. unfold poll.
  assert (parses p (λ f, or_malformed p spec f ∨ f = End ∧ clean_end = true ∧ spec = None ∧ clean)
    (begin_operation p;; m) s
    (λ s' v, ∃ vr, spec = Some vr ∧ suffix_at p (ps_cursor s') vr.2 ∧ v = vr.1)) as Hrun.
  { eapply parses_quiet; [apply begin_operation_ok; [done|by intros f ?; left; left|done]|].
    intros s' [] Hs' Hc' _. apply Hm; [done|by rewrite Hc']. }
  unfold parses in Hrun. destruct ((begin_operation p;; m) s) as [s' [v|[f|]]]; [| |done].
  { destruct Hrun as [Hs' ([v' r]&->&Hr&->)]. split; [done|]. by exists r. }
  destruct Hrun as [Hs' Hf]. unfold poll_failure. destruct f as [|code offset|e].
  - destruct Hf as [[(?&?&?&_)|[_ []]]|(_&->&Hspec&Hclean)]; [done|].
    destruct (may_continue p) eqn:Hmore; simpl; [by apply need_more_ok|]. by split_and!.
  - destruct Hf as [[(?&?&?&_)|[Hspec [Hcode Hoff]]]|(?&_)]; [done| |done].
    destruct (may_continue p) eqn:Hmore; [by apply need_more_ok|].
    destruct (syntax_for_code code (Some offset)) as [Hec Heo].
    split; [done|]. split; [by right|]. split; [rewrite Hec; by intros ->|].
    split; [by exists offset|]. rewrite Hec. unfold about_bytes in *. by destruct code.
  - destruct Hf as [Hf|(?&_)]; [|done]. split; [done|].
    destruct Hf as [(e'&o&[= <-]&Hr&Hcat&Ho&Hoff)|[Hspec (Hcat&Hcode&Ho)]].
    + split; [by left|]. split; [|split; [by exists o|by apply limited_answer]].
      destruct Hr as [[-> _]|[-> _]]; done.
    + split; [by right|]. split; [intros Hi; by rewrite Hi in Hcode|].
      split; [done|]. by rewrite Hcat.
Qed.

(** A method without a clean end. *)
Lemma poll_computes {T} clean_end (m : ParseM T) s rest (spec : option (T * list Z)) :
  state_ok p s → suffix_at p (ps_cursor s) rest →
  (∀ s', state_ok p s' → suffix_at p (ps_cursor s') rest →
     computes p m s' spec (λ s' v vr, suffix_at p (ps_cursor s') vr.2 ∧ v = vr.1)) →
  answers p (stop + 1) spec False (poll p clean_end m s).
Proof.
  intros Hs Hc Hm. eapply poll_answers; [done|done|]. intros s' Hs' Hc'.
  eapply parses_failures; [by apply Hm|]. intros f ?. by left.
Qed.

Lemma parse_object_answers s rest :
  state_ok p s → suffix_at p (ps_cursor s) rest →
  answers p (stop + 1) (read_object source stop more rest) (read_trivia more false rest = Some [])
    (parse_object p s).
Proof.
  intros Hs Hc. eapply poll_answers; [done|done|]. intros s' Hs' Hc'.
  eapply parses_failures; [by apply parse_object_at_ok|].
  intros f [?|[-> Hr]]; [by left|right]. split_and!; try done.
  unfold read_object. by rewrite read_token_trivia.
Qed.

(** ** Headers *)

(** A span of the window, and the value it locates. *)
Lemma bounds_ok {A B} start rest stop_ r (k : ByteSpan → ParseM A) s (spec : option B) Q :
  suffix_at p start rest → suffix_at p stop_ r → (length r ≤ length rest)%nat →
  computes p (k {| span_start := offset_of stop rest;
                   span_len := offset_of stop r - offset_of stop rest |}) s spec Q →
  computes p (span ← from_bounds (absolute p start) (absolute p stop_); k span) s spec Q.
Proof.
  intros Hc Hc' Hl Hk. unfold from_bounds.
  rewrite (suffix_offset _ _ _ Hc), (suffix_offset _ _ _ Hc'), from_bounds_exact; [done|].
  parser_facts Hp. unfold offset_of, window_end. lia.
Qed.

Lemma suffix_drop index n rest :
  suffix_at p index rest → (n ≤ length rest)%nat → suffix_at p (index + n) (drop n rest).
Proof.
  intros Hc Hn. pose proof (suffix_length _ _ _ Hc).
  rewrite <-(take_drop n rest) in Hc. apply suffix_app in Hc.
  rewrite length_take, Nat.min_l in Hc; [done|lia].
Qed.

Lemma header_prefix rest :
  take 5 rest = octets "%PDF-" →
  take (length rest `min` 5) rest = take (length rest `min` 5) (octets "%PDF-").
Proof.
  intros Ht. assert (5 ≤ length rest)%nat as Hl.
  { apply (f_equal length) in Ht. rewrite length_take in Ht.
    change (length (octets "%PDF-")) with 5%nat in Ht. lia. }
  rewrite Nat.min_r by lia. done.
Qed.

Lemma parse_header_inner_ok s rest :
  state_ok p s → suffix_at p (ps_cursor s) rest →
  computes p (parse_header_inner p) s (read_pdf_header source stop rest)
    (λ s' v vr, suffix_at p (ps_cursor s') vr.2 ∧ v = vr.1).
Proof.
  intros Hs Hc. unfold parse_header_inner, read_pdf_header. apply computes_gets. cbv zeta.
  pose proof (suffix_ok _ _ _ Hc) as Hoff.
  eapply computes_quiet; [by apply charge_token_ok|]. intros s1 [] Hs1 Hc1 _.
  eapply computes_limited; [by apply check_single_limit_ok|]. intros s2 [] Hs2 [-> _].
  rewrite (suffix_from _ _ _ Hc). change (length (octets "%PDF-")) with 5%nat.
  case_bool_decide as Hprefix.
  { apply computes_malformed; try done. rewrite bool_decide_eq_false_2; [done|].
    intros ?%header_prefix. done. }
  destruct (Nat.ltb_spec (length rest) 8) as [Hlt|Hge].
  { apply computes_incomplete; try done. case_bool_decide; [|done].
    rewrite (lookup_ge_None_2 rest 7) by lia.
    destruct (rest !! 5%nat); simpl; [|done]. by destruct (rest !! 6%nat). }
  rewrite Nat.min_r in Hprefix by lia. rewrite bool_decide_eq_true_2 by done.
  destruct (lookup_lt_is_Some_2 rest 5 ltac:(lia)) as [major Hmajor].
  destruct (lookup_lt_is_Some_2 rest 6 ltac:(lia)) as [dot Hdot].
  destruct (lookup_lt_is_Some_2 rest 7 ltac:(lia)) as [minor Hminor].
  eapply computes_some; [done|]. eapply computes_some; [done|]. eapply computes_some; [done|].
  rewrite Hmajor, Hdot, Hminor. cbn [mbind option_bind]. fold (supported_version major dot minor).
  destruct (supported_version major dot minor); cbn [negb]; [|by apply computes_malformed].
  apply computes_modify. pose proof (suffix_drop _ 8 _ Hc Hge) as Hc8.
  eapply bounds_ok; [done|done|rewrite length_drop; lia|].
  eapply computes_ret; [apply move_cursor_ok; [done|apply Hc8]|done|]. split; [done|].
  unfold located. simpl. f_equal. f_equal. unfold offset_of. rewrite length_drop. lia.
Qed.

(** ** Keywords *)

Lemma parse_keyword_inner_ok s rest :
  state_ok p s → suffix_at p (ps_cursor s) rest →
  computes p (parse_keyword_inner p) s (read_keyword source stop more rest)
    (λ s' v vr, suffix_at p (ps_cursor s') vr.2 ∧ v = vr.1).
Proof.
  intros Hs Hc. unfold parse_keyword_inner, read_keyword.
  eapply computes_bind; [by apply skip_trivia_ok|by intros ->|].
  intros s1 [] r1 Hs1 -> Hc1. cbn [mbind option_bind]. apply computes_gets.
  rewrite (suffix_at_end _ _ _ Hc1). destruct r1 as [|b l].
  { rewrite bool_decide_eq_true_2 by done. apply computes_incomplete; try done.
    apply window_end_ok. }
  rewrite bool_decide_eq_false_2 by done. pose proof (suffix_ok _ _ _ Hc1) as Hoff.
  eapply computes_quiet; [by apply charge_token_ok|]. intros s2 [] Hs2 Hc2 _.
  eapply computes_some; [by eapply suffix_cons|]. cbn [head mbind option_bind].
  destruct (is_delimiter b || is_number_start b); [by apply computes_malformed|].
  rewrite (suffix_from _ _ _ Hc1).
  eapply computes_limited; [by apply regular_loop_ok|]. intros s3 stop_ Hs3 [Hc3 ->].
  destruct (run_of is_regular (b :: l)) as [raw r] eqn:Hrun. cbn [fst].
  pose proof (run_of_app _ _ _ _ Hrun) as Happ. pose proof Hc1 as Hraw. rewrite Happ in Hraw.
  pose proof (suffix_app _ _ _ _ Hraw) as Hc4. rewrite (suffix_at_end _ _ _ Hc4).
  destruct (bool_decide (r = []) && more).
  { apply computes_incomplete; try done. by eapply suffix_ok. }
  eapply (bounds_ok _ (b :: l) _ r); [done|done|rewrite Happ, length_app; lia|].
  apply computes_modify. eapply computes_ret; [apply move_cursor_ok; [done|apply Hc4]|done|].
  split; [done|]. by rewrite (suffix_slice _ _ _ _ Hraw).
Qed.

Lemma expect_keyword_answers expected s rest :
  state_ok p s → suffix_at p (ps_cursor s) rest →
  answers p (stop + 1) (read_expected source stop more expected rest) False (expect_keyword p expected s).
Proof.
  intros Hs Hc. eapply poll_computes; [done|done|]. intros s' Hs' Hc'. unfold read_expected.
  eapply computes_bind; [by apply parse_keyword_inner_ok|by intros ->|].
  intros s1 v [k r] Hs1 Hk [Hc1 ->]. rewrite Hk. cbn [mbind option_bind fst snd].
  case_bool_decide; [by eapply computes_ret|]. apply computes_malformed; try done.
  pose proof (suffix_length _ _ _ Hc') as Hlen. unfold read_keyword in Hk.
  destruct (read_trivia more false rest) as [r1|] eqn:Hr1; [|done].
  apply read_trivia_length in Hr1. cbn [mbind option_bind] in Hk.
  destruct (head r1); [|done]. cbn [mbind option_bind] in Hk.
  destruct (_ || _); [done|]. destruct (run_of is_regular r1) as [raw r'].
  destruct (_ && _); [done|]. injection Hk as <- _. simpl.
  unfold offset_ok, offset_of, window_end. lia.
Qed.

Lemma parse_keyword_answers s rest :
  state_ok p s → suffix_at p (ps_cursor s) rest →
  answers p (stop + 1) (read_keyword source stop more rest) False (parse_keyword p s).
Proof.
  intros Hs Hc. eapply poll_computes; [done|done|]. intros s' Hs' Hc'.
  by apply parse_keyword_inner_ok.
Qed.

Lemma parse_header_answers s rest :
  state_ok p s → suffix_at p (ps_cursor s) rest →
  answers p (stop + 1) (read_pdf_header source stop rest) False (parse_header p s).
Proof.
  intros Hs Hc. eapply poll_computes; [done|done|]. intros s' Hs' Hc'.
  by apply parse_header_inner_ok.
Qed.

(** ** Stream boundaries *)

Lemma line_end_ok start rest stop_ r s :
  state_ok p s → suffix_at p start rest → suffix_at p stop_ r → (length r ≤ length rest)%nat →
  computes p (modify (move_cursor stop_);; from_bounds (absolute p start) (absolute p stop_)) s
    (Some ({| span_start := offset_of stop rest;
              span_len := offset_of stop r - offset_of stop rest |}, r))
    (λ s' v vr, suffix_at p (ps_cursor s') vr.2 ∧ v = vr.1).
Proof.
  intros Hs Hc Hc' Hl. apply computes_modify. unfold from_bounds.
  rewrite (suffix_offset _ _ _ Hc), (suffix_offset _ _ _ Hc'), from_bounds_exact.
  - eapply computes_ret; [apply move_cursor_ok; [done|apply Hc']|done|done].
  - parser_facts Hp. unfold offset_of, window_end. lia.
Qed.

Lemma consume_stream_line_ending_answers s rest :
  state_ok p s → suffix_at p (ps_cursor s) rest →
  answers p (stop + 1) (read_line_ending stop rest) False (consume_stream_line_ending p s).
Proof.
  intros Hs Hc. eapply poll_computes; [done|done|]. clear s Hs Hc. intros s Hs Hc.
  unfold consume_stream_line_ending_inner, read_line_ending. apply computes_gets.
  pose proof (suffix_ok _ _ _ Hc) as Hoff.
  rewrite (suffix_lookup _ _ _ Hc). destruct rest as [|b l]; cbn [head mbind option_bind].
  { destruct more eqn:Hmore.
    - by apply (computes_incomplete p Hp (A := ByteSpan)).
    - by apply (computes_malformed p Hp (A := ByteSpan)). }
  pose proof (suffix_cons _ _ _ _ Hc) as [_ Hc1]. destruct (b =? 10).
  { apply (line_end_ok _ (b :: l)); try done. simpl. lia. }
  destruct (b =? 13); [|by apply (computes_malformed p Hp (A := ByteSpan))].
  rewrite (suffix_lookup _ _ _ Hc1). destruct l as [|b' l]; cbn [head mbind option_bind].
  { destruct more eqn:Hmore.
    - apply (computes_incomplete p Hp (A := ByteSpan)); try done. by eapply suffix_ok.
    - by apply (computes_malformed p Hp (A := ByteSpan)). }
  destruct (b' =? 10); [|by apply (computes_malformed p Hp (A := ByteSpan))].
  apply (line_end_ok _ (b :: b' :: l)); try done; [|simpl; lia].
  pose proof (suffix_drop _ 2 _ Hc ltac:(simpl; lia)) as Hc2. simpl in Hc2.
  by rewrite drop_0 in Hc2.
Qed.

(** ** Raw bytes *)

Lemma refused_ok {T} attempted wanted (spec : option (T * list Z)) offset s :
  stopped_ok p s → offset_ok p offset → sl_max_input_bytes (sp_limits p) < attempted →
  answers p wanted spec False
    (s, Some (Failed (SyntaxError_resource InputBytes (sl_max_input_bytes (sp_limits p)) 0
                        attempted (Some offset)))).
Proof.
  intros Hs Ho Ha. set (e := SyntaxError_resource _ _ _ _ _).
  assert (refusal e) as Hr.
  { right. split; [done|]. eexists. split; [done|]. by left. }
  split; [done|]. split; [by left|]. split; [done|]. split; [by eexists|by left].
Qed.

Lemma take_raw_poll_answers length_ s rest :
  state_ok p s → suffix_at p (ps_cursor s) rest → 0 ≤ length_ ≤ u64_max →
  answers p (position p s + length_) (read_raw source stop (Z.to_nat length_) rest) False
    (take_raw_poll p length_ s).
Proof.
  intros Hs Hc Hl. unfold take_raw_poll, read_raw. cbv zeta. parser_facts Hp.
  pose proof (suffix_length _ _ _ Hc) as Hlen. pose proof (state_stopped _ Hp _ Hs) as Hstop.
  pose proof (position_ok _ _ Hs) as Hoff.
  assert (try_from u64_max (Z.of_nat (ps_cursor s)) = Some (Z.of_nat (ps_cursor s))) as ->
    by (apply try_from_Some; lia).
  destruct (checked_add u64_max _ length_) as [required|] eqn:Hreq; checked_facts;
    [|apply refused_ok; [done|done|lia]].
  destruct (_ <? required) eqn:Hlim; checked_facts; [by apply refused_ok|]. subst required.
  assert (try_from usize_max length_ = Some length_) as -> by (apply try_from_Some; lia).
  destruct (checked_add usize_max _ length_) as [stop_|] eqn:Hst; checked_facts; [|lia].
  subst stop_. destruct (len (window p) <? _) eqn:Hwin; checked_facts.
  - rewrite decide_False by lia. destruct more eqn:Hmore.
    + destruct (checked_add u64_max (position p s) length_) as [wanted|] eqn:Hw; checked_facts.
      * by split_and!.
      * split; [done|]. split; [by right|]. split; [done|]. split; [by eexists|by right].
    + split; [done|]. split; [by right|]. split; [done|]. split; [|done]. eexists.
      split; [done|]. apply window_end_ok.
  - rewrite decide_True by lia.
    replace (Z.to_nat (Z.of_nat (ps_cursor s) + length_))
      with (ps_cursor s + Z.to_nat length_)%nat by lia.
    pose proof (suffix_drop _ (Z.to_nat length_) _ Hc ltac:(lia)) as Hc'.
    rewrite (suffix_offset _ _ _ Hc), (suffix_offset _ _ _ Hc'), from_bounds_exact.
    2: { unfold offset_of, window_end. rewrite length_drop. lia. }
    split; [apply move_cursor_ok; [done|apply Hc']|]. eexists. split; [|done]. f_equal. f_equal.
    f_equal.
    + f_equal. unfold offset_of. rewrite length_drop. lia.
    + rewrite <-(take_drop (Z.to_nat length_) rest) in Hc. apply suffix_slice in Hc.
      rewrite length_take, Nat.min_l in Hc by lia. done.
Qed.

Lemma take_raw_bytes_answers length_ s rest :
  state_ok p s → suffix_at p (ps_cursor s) rest → 0 ≤ length_ ≤ u64_max →
  answers p (position p s + length_) (read_raw source stop (Z.to_nat length_) rest) False
    (take_raw_bytes p length_ s).
Proof.
  intros Hs Hc Hl. unfold take_raw_bytes.
  pose proof (begin_operation_ok p (limited p) Hp (λ f Hf, Hf) s Hs) as Hb.
  unfold quiet_step, parses in Hb.
  destruct (begin_operation p s) as [s' [[]|[f|]]]; [| |done].
  - destruct Hb as [Hs' [Hc' _]]. assert (position p s = position p s') as ->
      by (unfold position; by rewrite Hc').
    apply take_raw_poll_answers; [done|by rewrite Hc'|done].
  - destruct Hb as [Hs' (e&o&->&Hr&Hcat&Ho&Hoff)]. split; [done|]. split; [by left|].
    split; [|split; [by exists o|by apply limited_answer]]. by destruct Hr as [[-> _]|[-> _]].
Qed.
End methods.
