(* ===== verification/SyntaxPrint.v ===== *)
(** * Spellings of objects

    A printer of direct objects, for the round trip: names and strings escape
    every byte, containers put a space after every item. Whatever is printed, the
    reader reads it back up to the spans. *)

From stdpp Require Import base list numbers option strings.
From S2P Require Import Prelude.
From S2P Require Import SourceTypes.
From S2P Require Import SyntaxTypes.
From S2P Require Import SyntaxState.
From S2P Require Import SyntaxLexer.
From S2P Require Import SyntaxParser.
From S2P Require Import SyntaxRules.
From S2P Require Import SyntaxReader.
From S2P Require Import SyntaxTrivia.
From S2P Require Import SyntaxTokens.
From S2P Require Import SyntaxStrings.
From S2P Require Import SyntaxObjects.
From S2P Require Import SyntaxContainers.

(** ** The printer *)

Definition hex_digit (n : Z) : Z := if n <? 10 then 48 + n else 55 + n.
Definition hex_pair (b : Z) : list Z := [hex_digit (b / 16); hex_digit (b mod 16)].
Definition name_byte (b : Z) : list Z := 35 :: hex_pair b.
Definition octal_escape (b : Z) : list Z := [92; 48 + b / 64; 48 + b / 8 mod 8; 48 + b mod 8].

Fixpoint decimal (fuel : nat) (n : Z) : list Z :=
  match fuel with
  | O => []
  | S fuel => if n <? 10 then [48 + n] else decimal fuel (n / 10) ++ [48 + n mod 10]
  end.

(** Twenty digits are enough for 64 bits. *)
Definition print_integer (v : Z) : list Z :=
  if v <? 0 then 45 :: decimal 20 (- v) else decimal 20 v.

Definition print_name (name : PdfName) : list Z := 47 :: flat_map name_byte (octets name).

Definition print_string (text : PdfString) : list Z :=
  match string_kind text with
  | Literal => 40 :: flat_map octal_escape (octets (string_bytes text)) ++ [41]
  | Hexadecimal => 60 :: flat_map hex_pair (octets (string_bytes text)) ++ [62]
  end.

Fixpoint print (o : SyntaxObject) : list Z :=
  match o with
  | Null => octets "null"
  | Boolean b => octets (if b then "true" else "false")
  | Integer v => print_integer v
  | Real r => octets (real_raw r)
  | Name name => print_name name
  | Text text => print_string text
  | Array values => 91 :: flat_map (λ v, print (located_value v) ++ [32]) values ++ [93]
  | Dictionary entries =>
      60 :: 60 ::
      flat_map (λ e, print_name (located_value (entry_key e)) ++ 32 ::
                     print (located_value (entry_value e)) ++ [32]) entries ++ [62; 62]
  | Reference r =>
      decimal 20 (object_number r) ++ 32 :: decimal 20 (object_generation r) ++ [32; 82]
  end.

(** What can be an object of a document: integers of 64 bits, the raw text of a
    real number, the parts of a reference. *)
Fixpoint printable (o : SyntaxObject) : Prop :=
  match o with
  | Null | Boolean _ | Name _ | Text _ => True
  | Integer v => - i64_max - 1 ≤ v ≤ i64_max
  | Real r =>
      read_number (octets (real_raw r)) = Some (RealToken r) ∧
      Forall (λ b, is_regular b = true) (octets (real_raw r)) ∧
      from_option is_number_start false (head (octets (real_raw r))) = true
  | Array values => foldr (λ v P, printable (located_value v) ∧ P) True values
  | Dictionary entries =>
      foldr (λ e P, printable (located_value (entry_value e)) ∧ P) True entries
  | Reference r => 0 < object_number r ≤ u32_max ∧ 0 ≤ object_generation r ≤ u16_max
  end.

(** Equality up to the spans of what an object contains. *)
Inductive same_object : SyntaxObject → SyntaxObject → Prop :=
| same_scalar o : same_object o o
| same_array vs ws :
    Forall2 (λ v w, same_object (located_value v) (located_value w)) vs ws →
    same_object (Array vs) (Array ws)
| same_dictionary es fs :
    Forall2 (λ e f, located_value (entry_key e) = located_value (entry_key f) ∧
                    same_object (located_value (entry_value e)) (located_value (entry_value f)))
      es fs →
    same_object (Dictionary es) (Dictionary fs).

(** ** Bytes *)

Lemma octets_bytes s : Forall is_byte (octets s).
Proof.
  induction s as [|c s IH]; constructor; [|done]. unfold is_byte, u8_max.
  pose proof (Ascii.nat_ascii_bounded c). lia.
Qed.

Lemma owned_octets s : owned_string (octets s) = s.
Proof.
  unfold owned_string. induction s as [|c s IH]; [done|]. cbn [octets foldr]. rewrite IH.
  by rewrite Nat2Z.id, Ascii.ascii_nat_embedding.
Qed.

(** A property of every byte, by evaluation. *)
Lemma every_byte (f : Z → bool) :
  forallb f (Z.of_nat <$> seq 0 256) = true → ∀ b, is_byte b → f b = true.
Proof.
  intros Hf b Hb. rewrite forallb_forall in Hf. apply Hf. apply list_elem_of_In, list_elem_of_fmap.
  exists (Z.to_nat b). unfold is_byte, u8_max in Hb. split; [lia|]. apply elem_of_seq. lia.
Qed.

Definition hex_pair_ok (b : Z) : bool :=
  match hex_pair b with
  | [high; low] =>
      bool_decide (hex_value high = Some (b / 16)) && bool_decide (hex_value low = Some (b mod 16))
      && (Z.lor (Z.shiftl (b / 16) 4) (b mod 16) =? b)
      && negb (is_whitespace high || (high =? 62)) && negb (is_whitespace low || (low =? 62))
  | _ => false
  end.

Lemma hex_pair_correct b :
  is_byte b → ∃ high low, hex_pair b = [high; low] ∧ hex_value high = Some (b / 16) ∧
    hex_value low = Some (b mod 16) ∧ Z.lor (Z.shiftl (b / 16) 4) (b mod 16) = b ∧
    is_whitespace high = false ∧ (high =? 62) = false ∧
    is_whitespace low = false ∧ (low =? 62) = false.
Proof.
  intros Hb. pose proof (every_byte hex_pair_ok ltac:(vm_compute; reflexivity) b Hb) as Hok.
  unfold hex_pair_ok in Hok. unfold hex_pair in *. eexists _, _. split; [done|].
  rewrite !andb_true_iff, !negb_true_iff, !orb_false_iff, !bool_decide_eq_true, Z.eqb_eq in Hok.
  tauto.
Qed.

Definition octal_escape_ok (b : Z) : bool :=
  match octal_escape b with
  | [_; first; second; third] =>
      negb (first =? 13) && negb (first =? 10) && is_octal_digit first && is_octal_digit second
      && is_octal_digit third
      && (Z.land (octal_step (octal_step (octal_step 0 first) second) third) 255 =? b)
  | _ => false
  end.

Lemma octal_escape_correct b : is_byte b → octal_escape_ok b = true.
Proof. apply every_byte. vm_compute. reflexivity. Qed.

Lemma read_hex_print bytes rest :
  Forall is_byte bytes → read_hex None (flat_map hex_pair bytes ++ 62 :: rest) = Some (bytes, rest).
Proof.
  induction 1 as [|b bytes Hb _ IH]; [done|]. cbn [flat_map]. rewrite <-app_assoc.
  destruct (hex_pair_correct b Hb) as (high&low&->&Hh&Hl&Hb'&Hw&He&Hw'&He').
  cbn [app read_hex]. rewrite He, Hw, Hh. cbn [mbind option_bind read_hex].
  rewrite He', Hw', Hl. cbn [mbind option_bind]. rewrite IH. cbn [mbind option_bind]. by rewrite Hb'.
Qed.

Lemma read_literal_print bytes rest :
  Forall is_byte bytes →
  read_literal 1 (flat_map octal_escape bytes ++ 41 :: rest) = Some (bytes, rest).
Proof.
  induction 1 as [|b bytes Hb _ IH]; [done|]. cbn [flat_map]. rewrite <-app_assoc.
  pose proof (octal_escape_correct b Hb) as Hok. unfold octal_escape_ok, octal_escape in *.
  rewrite !andb_true_iff, !negb_true_iff, Z.eqb_eq in Hok.
  destruct Hok as (((((H13&H10)&H1)&H2)&H3)&Hb').
  cbn [app read_literal]. change (92 =? 40) with false. change (92 =? 41) with false.
  change (92 =? 92) with true. cbn iota. rewrite H13, H10, H1, H2, H3. cbv zeta.
  rewrite IH. cbn [mbind option_bind]. by rewrite Hb'.
Qed.

Lemma read_name_print more bytes b rest :
  Forall is_byte bytes → is_delimiter b = true →
  read_name more (flat_map name_byte bytes ++ b :: rest) = Some (bytes, b :: rest).
Proof.
  intros Hbytes Hd. induction Hbytes as [|c bytes Hc _ IH].
  { cbn [flat_map app read_name]. by rewrite Hd. }
  cbn [flat_map]. rewrite <-app_assoc. unfold name_byte at 1.
  destruct (hex_pair_correct c Hc) as (high&low&->&Hh&Hl&Hc'&_).
  cbn [app read_name]. change (is_delimiter 35) with false. change (35 =? 35) with true.
  cbn iota. rewrite Hh, Hl. cbn [mbind option_bind]. rewrite IH. cbn [mbind option_bind].
  by rewrite Hc'.
Qed.

(** ** Decimal numbers *)

Lemma digits_value_snoc l d : digits_value (l ++ [d]) = 10 * digits_value l + (d - 48).
Proof. unfold digits_value. by rewrite foldl_snoc. Qed.

Lemma decimal_correct fuel n :
  0 ≤ n < 10 ^ Z.of_nat fuel → (0 < fuel)%nat →
  Forall (λ d, is_ascii_digit d = true) (decimal fuel n) ∧ decimal fuel n ≠ [] ∧
  digits_value (decimal fuel n) = n.
Proof.
  revert n. induction fuel as [|fuel IH]; intros n Hn Hf; [lia|]. cbn [decimal].
  assert (∀ m, 0 ≤ m < 10 → is_ascii_digit (48 + m) = true) as Hdigit.
  { intros m Hm. unfold is_ascii_digit. rewrite andb_true_iff, !Z.leb_le. lia. }
  destruct (n <? 10) eqn:Hlt; checked_facts.
  { split_and!; [|done|].
    - constructor; [|constructor]. apply Hdigit. lia.
    - unfold digits_value. simpl. lia. }
  rewrite Nat2Z.inj_succ, Z.pow_succ_r in Hn by lia.
  destruct fuel as [|fuel]; [simpl in Hn; lia|].
  destruct (IH (n / 10)) as (Hd&Hne&Hv); [|lia|].
  { split; [apply Z.div_pos; lia|]. apply Z.div_lt_upper_bound; lia. }
  pose proof (Z.mod_pos_bound n 10 ltac:(lia)). split_and!.
  - apply Forall_app. split; [done|]. constructor; [|constructor]. by apply Hdigit.
  - intros [_ ?]%app_eq_nil. done.
  - rewrite digits_value_snoc, Hv. pose proof (Z.div_mod n 10). lia.
Qed.

Lemma run_of_stop class run rest :
  Forall (λ b, class b = true) run → from_option (λ b, class b = false) True (head rest) →
  run_of class (run ++ rest) = (run, rest).
Proof.
  induction 1 as [|b run Hb _ IH]; intros Hrest; cbn [app run_of].
  - destruct rest as [|b rest]; [done|]. simpl in *. by rewrite Hrest.
  - rewrite Hb. by rewrite IH.
Qed.

Lemma digit_regular b : is_ascii_digit b = true → is_regular b = true ∧ is_number_start b = true.
Proof.
  unfold is_regular, is_number_start. intros Hb. rewrite Hb. split; [|done].
  unfold is_ascii_digit in Hb. apply andb_true_iff in Hb as [H1 H2]. checked_facts.
  apply negb_true_iff. unfold is_delimiter, is_whitespace.
  rewrite !orb_false_iff, !Z.eqb_neq. lia.
Qed.

Lemma digits_regular digits :
  Forall (λ d, is_ascii_digit d = true) digits → Forall (λ b, is_regular b = true) digits.
Proof. intros Hd. eapply Forall_impl; [exact Hd|]. by intros b [? _]%digit_regular. Qed.

(** The decimal digits of the magnitude. *)
Definition digits_of (v : Z) : list Z := decimal 20 (Z.abs v).

Lemma digits_of_correct v :
  - i64_max - 1 ≤ v ≤ i64_max →
  Forall (λ d, is_ascii_digit d = true) (digits_of v) ∧ digits_of v ≠ [] ∧
  digits_value (digits_of v) = Z.abs v.
Proof.
  intros Hv. apply decimal_correct; [|lia]. unfold i64_max in Hv.
  change (10 ^ Z.of_nat 20) with 100000000000000000000. lia.
Qed.

Lemma print_integer_split v rest :
  - i64_max - 1 ≤ v ≤ i64_max →
  print_integer v = (if v <? 0 then [45] else []) ++ digits_of v ∧
  split_sign (print_integer v ++ rest) = (v <? 0, digits_of v ++ rest).
Proof.
  intros Hv. destruct (digits_of_correct v Hv) as (Hd&Hne&_).
  unfold print_integer, digits_of in *. destruct (v <? 0) eqn:Hneg; checked_facts.
  - rewrite Z.abs_neq in * by lia. done.
  - rewrite Z.abs_eq in * by lia. split; [done|]. destruct (decimal 20 v) as [|d l]; [done|].
    apply Forall_cons in Hd as [Hd _]. unfold is_ascii_digit in Hd.
    apply andb_true_iff in Hd as [H1 H2]. checked_facts. cbn [app split_sign].
    destruct (d =? 45) eqn:H45; checked_facts; [lia|].
    destruct (d =? 43) eqn:H43; checked_facts; [lia|]. done.
Qed.

Lemma integer_value_print v :
  - i64_max - 1 ≤ v ≤ i64_max → integer_value (v <? 0) (digits_of v) = Some v.
Proof.
  intros Hv. destruct (digits_of_correct v Hv) as (_&_&Hval). unfold integer_value. rewrite Hval.
  assert ((if v <? 0 then - Z.abs v else Z.abs v) = v) as ->
    by (destruct (v <? 0) eqn:Hneg; checked_facts; lia).
  rewrite (proj2 (Z.leb_le _ _)) by lia. by rewrite (proj2 (Z.leb_le _ _)) by lia.
Qed.

Lemma read_number_print v :
  - i64_max - 1 ≤ v ≤ i64_max → read_number (print_integer v) = Some (IntegerToken v).
Proof.
  intros Hv. destruct (print_integer_split v [] Hv) as [_ Hs]. rewrite !app_nil_r in Hs.
  destruct (digits_of_correct v Hv) as (Hd&Hne&_).
  unfold read_number. rewrite Hs.
  rewrite <-(app_nil_r (digits_of v)) at 1. rewrite run_of_stop by done. cbn [read_fraction read_exponent].
  rewrite bool_decide_eq_false_2 by done. cbn [andb negb]. rewrite bool_decide_eq_true_2 by done.
  cbn [negb]. by rewrite integer_value_print.
Qed.

Lemma print_integer_regular v :
  - i64_max - 1 ≤ v ≤ i64_max →
  Forall (λ b, is_regular b = true) (print_integer v) ∧
  from_option is_number_start false (head (print_integer v)) = true.
Proof.
  intros Hv. destruct (print_integer_split v [] Hv) as [-> _].
  destruct (digits_of_correct v Hv) as (Hd&Hne&_). pose proof (digits_regular _ Hd) as Hr.
  destruct (v <? 0); simpl; [by repeat constructor|].
  destruct (digits_of v) as [|d l]; [done|]. apply Forall_cons in Hd as [Hd _]. split; [done|].
  by apply digit_regular in Hd as [_ ?].
Qed.

(** ** Integers ahead *)

Lemma probe_integer_print more v b rest :
  - i64_max - 1 ≤ v ≤ i64_max → is_delimiter b = true →
  probe_integer more (print_integer v ++ b :: rest) = Some (Some (v, b :: rest)).
Proof.
  intros Hv Hb. destruct (print_integer_split v (b :: rest) Hv) as [Hp Hs].
  destruct (digits_of_correct v Hv) as (Hd&Hne&_).
  unfold probe_integer.
  assert (from_option (λ b, is_ascii_digit b || (b =? 43) || (b =? 45)) false
            (head (print_integer v ++ b :: rest)) = true) as ->.
  { rewrite Hp. destruct (v <? 0); [done|]. destruct (digits_of v) as [|d l]; [done|]. cbn.
    by apply Forall_cons in Hd as [-> _]. }
  rewrite Hs. unfold probe_digits_of. rewrite run_of_stop; [|done|].
  2: { simpl. destruct (is_ascii_digit b) eqn:Hdigit; [|done].
       apply digit_regular in Hdigit as [Hreg _]. unfold is_regular in Hreg. by rewrite Hb in Hreg. }
  rewrite bool_decide_eq_false_2 by (by destruct (digits_of v)).
  rewrite bool_decide_eq_false_2 by done. rewrite bool_decide_eq_false_2 by done.
  cbn [andb head from_option]. rewrite Hb. by rewrite integer_value_print.
Qed.

Lemma decimal_print v : 0 ≤ v → decimal 20 v = print_integer v.
Proof. intros Hv. unfold print_integer. by destruct (v <? 0) eqn:Hneg; checked_facts; [lia|]. Qed.

(** ** What follows a value *)

(** The bytes after a space begin a token that is not the [R] of a reference. *)
Definition starts_ok (rest : list Z) : Prop :=
  from_option (λ b, is_whitespace b = false ∧ b ≠ 37 ∧ b ≠ 82) False (head rest).

(** No generation and [R] follow. *)
Definition settled (more : bool) (rest : list Z) : Prop :=
  read_generation more (32 :: rest) = Some None.

Lemma starts_trivia more rest : starts_ok rest → read_trivia more false rest = Some rest.
Proof.
  destruct rest as [|b l]; [done|]. intros (Hw&Hp&_). cbn [read_trivia]. rewrite Hw.
  by apply Z.eqb_neq in Hp as ->.
Qed.

Lemma number_starts b rest : is_number_start b = true → starts_ok (b :: rest).
Proof.
  unfold is_number_start, is_ascii_digit, starts_ok, is_whitespace. simpl. intros Hb.
  rewrite !orb_true_iff, andb_true_iff in Hb. rewrite !orb_false_iff, !Z.eqb_neq.
  destruct Hb as [[[[? ?]|?]|?]|?]; checked_facts; lia.
Qed.

Lemma integer_starts v rest : - i64_max - 1 ≤ v ≤ i64_max → starts_ok (print_integer v ++ rest).
Proof.
  intros Hv. destruct (print_integer_regular v Hv) as [_ Hhead].
  destruct (print_integer v) as [|b l]; [done|]. by apply number_starts.
Qed.

Lemma settled_plain more b rest :
  starts_ok (b :: rest) → is_ascii_digit b = false → b ≠ 43 → b ≠ 45 → settled more (b :: rest).
Proof.
  intros Hs Hd H43 H45. unfold settled, read_generation.
  change (read_trivia more false (32 :: b :: rest)) with (read_trivia more false (b :: rest)).
  rewrite starts_trivia by done. cbn [mbind option_bind]. unfold probe_integer.
  cbn [head from_option]. apply Z.eqb_neq in H43 as ->. apply Z.eqb_neq in H45 as ->. by rewrite Hd.
Qed.

Lemma settled_integer more v rest :
  - i64_max - 1 ≤ v ≤ i64_max → starts_ok rest → settled more (print_integer v ++ 32 :: rest).
Proof.
  intros Hv Hs. unfold settled, read_generation.
  change (read_trivia more false (32 :: print_integer v ++ 32 :: rest))
    with (read_trivia more false (print_integer v ++ 32 :: rest)).
  rewrite starts_trivia by (by apply integer_starts). cbn [mbind option_bind].
  destruct (print_integer v ++ 32 :: rest) eqn:Happ; [by apply app_eq_nil in Happ as [_ ?]|].
  rewrite <-Happ, probe_integer_print by done. cbn [mbind option_bind].
  change (read_trivia more false (32 :: rest)) with (read_trivia more false rest).
  rewrite starts_trivia by done. cbn [mbind option_bind].
  destruct rest as [|b rest]; [done|]. destruct Hs as (_&_&H82). by apply Z.eqb_neq in H82 as ->.
Qed.

(** A real number is no integer: its digits are followed by a regular byte. *)
Lemma real_probe more r rest :
  printable (Real r) → probe_integer more (octets (real_raw r) ++ 32 :: rest) = Some None.
Proof.
  intros (Hread&Hreg&_). unfold probe_integer.
  destruct (from_option (λ b, is_ascii_digit b || (b =? 43) || (b =? 45)) _ _); [|done].
  destruct (octets (real_raw r)) as [|b raw] eqn:Hraw; [done|].
  assert (split_sign ((b :: raw) ++ 32 :: rest) =
    ((split_sign (b :: raw)).1, (split_sign (b :: raw)).2 ++ 32 :: rest)) as ->.
  { cbn [app split_sign]. by repeat case_match. }
  destruct (split_sign (b :: raw)) as [negative unsigned] eqn:Hsign.
  unfold read_number in Hread. rewrite Hsign in Hread. cbn [fst snd].
  apply split_sign_app in Hsign as (sign&Happ&_). rewrite Happ in Hreg.
  apply Forall_app in Hreg as [_ Hreg].
  destruct (run_of is_ascii_digit unsigned) as [digits r'] eqn:Hrun.
  pose proof (run_of_app _ _ _ _ Hrun) as Hunsigned. pose proof (run_of_class _ _ _ _ Hrun) as [Hd Hr].
  destruct r' as [|b' r'].
  { cbn [read_fraction read_exponent] in Hread. repeat case_match; try done.
    destruct (integer_value _ _); done. }
  unfold probe_digits_of. rewrite Hunsigned, <-app_assoc, run_of_stop by done.
  rewrite bool_decide_eq_false_2 by (by destruct digits).
  case_bool_decide; [done|]. rewrite bool_decide_eq_false_2 by done. cbn [andb app head from_option].
  rewrite Hunsigned in Hreg. apply Forall_app in Hreg as [_ Hreg]. apply Forall_cons in Hreg as [Hb' _].
  unfold is_regular in Hb'. by apply negb_true_iff in Hb' as ->.
Qed.

Lemma print_starts o rest : printable o → starts_ok (print o ++ rest).
Proof.
  destruct o as [|[]|v|r|name|text|vs|es|r]; cbn [print printable]; intros Ho; try done.
  - by apply integer_starts.
  - destruct Ho as (_&_&Ho). destruct (octets (real_raw r)); [done|]. by apply number_starts.
  - unfold print_string. by destruct (string_kind text).
  - rewrite <-app_assoc, decimal_print by lia. apply integer_starts.
    unfold u32_max, i64_max in *. lia.
Qed.

Lemma print_settled more o rest :
  printable o → starts_ok rest → settled more (print o ++ 32 :: rest).
Proof.
  intros Ho Hrest. pose proof (print_starts o (32 :: rest) Ho) as Hs.
  destruct o as [|[]|v|r|name|text|vs|es|r]; cbn [print printable] in *;
    try (by apply settled_plain).
  - by apply settled_integer.
  - unfold settled, read_generation.
    change (read_trivia more false (32 :: octets (real_raw r) ++ 32 :: rest))
      with (read_trivia more false (octets (real_raw r) ++ 32 :: rest)).
    rewrite starts_trivia by done. cbn [mbind option_bind]. rewrite real_probe by done.
    by destruct (octets (real_raw r)).
  - unfold print_string in *. by destruct (string_kind text); apply settled_plain.
  - rewrite <-app_assoc, decimal_print by lia. cbn [app]. rewrite <-app_assoc.
    apply settled_integer; [unfold u32_max, i64_max in *; lia|].
    rewrite decimal_print by lia. apply integer_starts. unfold u16_max, i64_max in *. lia.
Qed.

(** ** Induction on objects *)

Section induction.
Variable P : SyntaxObject → Prop.
Hypothesis Pscalar : ∀ o,
  match o with Array _ | Dictionary _ => False | _ => True end → P o.
Hypothesis Parray : ∀ vs, Forall (λ v, P (located_value v)) vs → P (Array vs).
Hypothesis Pdictionary : ∀ es,
  Forall (λ e, P (located_value (entry_value e))) es → P (Dictionary es).

Fixpoint object_nested_ind (o : SyntaxObject) : P o :=
  match o with
  | Array vs =>
      Parray vs
        ((fix values (vs : PdfArray) : Forall (λ v, P (located_value v)) vs :=
            match vs with
            | [] => Forall_nil_2 _
            | v :: vs => Forall_cons_2 _ v vs (object_nested_ind (located_value v)) (values vs)
            end) vs)
  | Dictionary es =>
      Pdictionary es
        ((fix entries (es : PdfDictionary) : Forall (λ e, P (located_value (entry_value e))) es :=
            match es with
            | [] => Forall_nil_2 _
            | e :: es =>
                Forall_cons_2 _ e es (object_nested_ind (located_value (entry_value e))) (entries es)
            end) es)
  | Null => Pscalar Null I
  | Boolean b => Pscalar (Boolean b) I
  | Integer v => Pscalar (Integer v) I
  | Real r => Pscalar (Real r) I
  | Name name => Pscalar (Name name) I
  | Text text => Pscalar (Text text) I
  | Reference r => Pscalar (Reference r) I
  end.
End induction.

(** ** Reading back *)

Section reading.
Variables (source : SourceIdentity) (stop : Z) (more : bool).

(** [bytes], before [rest], are read as [o] up to spans. *)
Definition reads (o : SyntaxObject) (bytes rest : list Z) : Prop :=
  ∃ t r o', read_token stop more (bytes ++ rest) = Some (t, r) ∧
    (∀ n, (2 * length r + 2 ≤ n)%nat → read_value source stop more n t r = Some (o', rest)) ∧
    same_object o (located_value o').

Lemma kind_token kind bytes r :
  starts_ok bytes → read_kind more bytes = Some (kind, r) →
  ∃ t, read_token stop more bytes = Some (t, r) ∧ token_kind t = kind.
Proof.
  intros Hs Hk. unfold read_token. rewrite starts_trivia by done. cbn [mbind option_bind].
  rewrite Hk. by eexists.
Qed.

Lemma scalar_reads o bytes rest kind :
  starts_ok (bytes ++ rest) → read_kind more (bytes ++ rest) = Some (kind, rest) →
  (∀ n t, token_kind t = kind →
     read_value source stop more (S n) t rest =
       Some (located source (token_start t) (token_end t) o, rest)) →
  reads o bytes rest.
Proof.
  intros Hs Hk Hv. destruct (kind_token _ _ _ Hs Hk) as (t&Ht&Hkind).
  exists t, rest, (located source (token_start t) (token_end t) o). split; [done|].
  split; [|apply same_scalar]. intros [|n] Hn; [lia|]. by apply Hv.
Qed.

Lemma read_kind_regular b raw rest :
  Forall (λ b, is_regular b = true) (b :: raw) →
  read_kind more ((b :: raw) ++ 32 :: rest) =
    if is_number_start b then kind ← read_number (b :: raw); Some (kind, 32 :: rest)
    else Some (Keyword (b :: raw), 32 :: rest).
Proof.
  intros Hraw. pose proof Hraw as [Hb _]%Forall_cons. unfold is_regular in Hb.
  apply negb_true_iff in Hb. unfold is_delimiter in Hb. rewrite !orb_false_iff in Hb.
  destruct Hb as ((((((((((_&H40)&H41)&H60)&H62)&H91)&H93)&H123)&H125)&H47)&_).
  cbn [app read_kind]. rewrite H91, H93, H40, H47, H60, H62, H41, H123, H125. cbn [orb].
  unfold read_regular. change (b :: raw ++ 32 :: rest) with ((b :: raw) ++ 32 :: rest).
  rewrite run_of_stop by done. done.
Qed.

Lemma keyword_reads o raw rest :
  Forall (λ b, is_regular b = true) raw → keyword_object raw = Some o →
  from_option is_number_start true (head raw) = false → starts_ok raw →
  reads o raw (32 :: rest).
Proof.
  intros Hreg Ho Hhead Hs. destruct raw as [|b raw]; [done|].
  apply (scalar_reads _ _ _ (Keyword (b :: raw))); [done| |].
  - rewrite read_kind_regular by done. simpl in Hhead. by rewrite Hhead.
  - intros n t Ht. cbn [read_value]. rewrite Ht, Ho. done.
Qed.

Lemma integer_reads v rest :
  - i64_max - 1 ≤ v ≤ i64_max → settled more rest → reads (Integer v) (print_integer v) (32 :: rest).
Proof.
  intros Hv Hs. apply (scalar_reads _ _ _ (IntegerToken v)); [by apply integer_starts| |].
  - pose proof (read_number_print v Hv) as Hread. destruct (print_integer_regular v Hv) as [Hreg Hh].
    destruct (print_integer v) as [|b raw]; [done|]. rewrite read_kind_regular by done.
    simpl in Hh. by rewrite Hh, Hread.
  - intros n t Ht. cbn [read_value]. rewrite Ht. unfold read_integer. by rewrite Hs.
Qed.

Lemma reference_reads r rest :
  printable (Reference r) → reads (Reference r) (print (Reference r)) (32 :: rest).
Proof.
  intros [Hn Hg]. cbn [print]. rewrite !decimal_print by lia.
  assert (- i64_max - 1 ≤ object_number r ≤ i64_max) as Hn' by (unfold u32_max, i64_max in *; lia).
  assert (- i64_max - 1 ≤ object_generation r ≤ i64_max) as Hg'
    by (unfold u16_max, i64_max in *; lia).
  set (after := print_integer (object_generation r) ++ [32; 82] ++ 32 :: rest).
  unfold reads. rewrite <-app_assoc. cbn [app].
  replace ((print_integer (object_generation r) ++ [32; 82]) ++ 32 :: rest) with after
    by (unfold after; by rewrite <-app_assoc).
  destruct (kind_token (IntegerToken (object_number r))
              (print_integer (object_number r) ++ 32 :: after) (32 :: after)) as (t&Ht&Hkind).
  { by apply integer_starts. }
  { pose proof (read_number_print _ Hn') as Hread.
    destruct (print_integer_regular _ Hn') as [Hreg Hh].
    destruct (print_integer (object_number r)) as [|b raw]; [done|].
    rewrite read_kind_regular by done. simpl in Hh. by rewrite Hh, Hread. }
  exists t, (32 :: after), (located source (token_start t) (offset_of stop (32 :: rest)) (Reference r)).
  split; [done|]. split; [|apply same_scalar]. intros [|n] Hfuel; [simpl in Hfuel; lia|].
  cbn [read_value]. rewrite Hkind. unfold read_integer.
  assert (read_generation more (32 :: after) = Some (Some (object_generation r, 32 :: rest))) as ->.
  { unfold read_generation.
    change (read_trivia more false (32 :: after)) with (read_trivia more false after).
    rewrite starts_trivia by (by apply integer_starts). cbn [mbind option_bind].
    destruct after eqn:Hafter; [by apply app_eq_nil in Hafter as [_ ?]|]. rewrite <-Hafter.
    unfold after. cbn [app]. rewrite probe_integer_print by done. done. }
  cbn [mbind option_bind]. unfold reference_of.
  rewrite (proj2 (Z.ltb_lt _ _)), !(proj2 (Z.leb_le _ _)) by lia. cbn [andb mbind option_bind].
  by destruct r.
Qed.

Lemma read_kind_name name rest :
  read_kind more (print_name name ++ 32 :: rest) = Some (NameToken name, 32 :: rest).
Proof.
  unfold print_name. cbn [app read_kind]. change (47 =? 91) with false.
  change (47 =? 93) with false. change (47 =? 40) with false. change (47 =? 47) with true.
  cbn iota. rewrite read_name_print; [|apply octets_bytes|done].
  cbn [mbind option_bind]. by rewrite owned_octets.
Qed.

Lemma name_reads name rest : reads (Name name) (print_name name) (32 :: rest).
Proof.
  apply (scalar_reads _ _ _ (NameToken name)); [done| |].
  - apply read_kind_name.
  - intros n t Ht. cbn [read_value]. by rewrite Ht.
Qed.

Lemma read_kind_hex l :
  from_option (λ b, b ≠ 60) False (head l) →
  read_kind more (60 :: l) =
    '(decoded, r) ← read_hex None l; Some (string_token Hexadecimal decoded, r).
Proof.
  destruct l as [|b l]; [done|]. intros Hb. simpl in Hb. apply Z.eqb_neq in Hb.
  change (read_kind more (60 :: b :: l)) with
    (if b =? 60 then Some (DictionaryOpen, l)
     else '(decoded, r) ← read_hex None (b :: l); Some (string_token Hexadecimal decoded, r)).
  by rewrite Hb.
Qed.

Lemma string_reads text rest : reads (Text text) (print_string text) (32 :: rest).
Proof.
  apply (scalar_reads _ _ _ (StringToken text)).
  - unfold print_string. by destruct (string_kind text).
  - unfold print_string. pose proof (octets_bytes (string_bytes text)) as Hb.
    destruct text as [bytes []]; cbn [string_kind string_bytes app] in *;
      rewrite <-app_assoc; cbn [app].
    + change (read_kind more (40 :: ?l)) with
        ('(decoded, r) ← read_literal 1 l; Some (string_token Literal decoded, r)).
      rewrite read_literal_print by done. cbn [mbind option_bind]. unfold string_token.
      by rewrite owned_octets.
    + rewrite read_kind_hex.
      * rewrite read_hex_print by done. cbn [mbind option_bind]. unfold string_token.
        by rewrite owned_octets.
      * destruct (octets bytes) as [|b l]; [done|]. apply Forall_cons in Hb as [Hb _].
        destruct (hex_pair_correct b Hb) as (high&low&Hpair&Hh&_). cbn [flat_map]. rewrite Hpair.
        cbn. intros ->. done.
  - intros n t Ht. cbn [read_value]. by rewrite Ht.
Qed.
(** ** Containers *)

Definition reads_back (o : SyntaxObject) : Prop :=
  printable o → ∀ rest, settled more rest → reads o (print o) (32 :: rest).

Definition item_bytes (v : Located SyntaxObject) : list Z := print (located_value v) ++ [32].
Definition entry_bytes (e : DictionaryEntry) : list Z :=
  print_name (located_value (entry_key e)) ++ 32 :: print (located_value (entry_value e)) ++ [32].

Lemma items_follow vs rest :
  foldr (λ v P, printable (located_value v) ∧ P) True vs →
  starts_ok (flat_map item_bytes vs ++ 93 :: rest) ∧
  settled more (flat_map item_bytes vs ++ 93 :: rest).
Proof.
  induction vs as [|v vs IH]; intros Hvs; [split; [done|by apply settled_plain]|].
  destruct Hvs as [Hv Hvs]. destruct (IH Hvs) as [Hs _]. cbn [flat_map]. unfold item_bytes at 1 3.
  rewrite <-!app_assoc. cbn [app]. split; [by apply print_starts|by apply print_settled].
Qed.

Lemma entries_follow es rest :
  starts_ok (flat_map entry_bytes es ++ 62 :: 62 :: rest) ∧
  settled more (flat_map entry_bytes es ++ 62 :: 62 :: rest).
Proof. destruct es; (split; [done|by apply settled_plain]). Qed.

Lemma read_close n l t r or :
  read_token stop more (93 :: l) = Some (t, r) → read_value source stop more n t r ≠ Some or.
Proof.
  intros Ht. assert (token_kind t = ArrayClose) as Hk by (by injection Ht as <- _).
  destruct n as [|n]; [done|]. cbn [read_value]. by rewrite Hk.
Qed.

Lemma items_read vs rest :
  Forall (λ v, reads_back (located_value v)) vs →
  foldr (λ v P, printable (located_value v) ∧ P) True vs →
  ∃ ws,
    (∀ n, (2 * length (flat_map item_bytes vs ++ 93%Z :: rest) + 1 ≤ n)%nat →
       read_items source stop more n (flat_map item_bytes vs ++ 93 :: rest) = Some (ws, rest)) ∧
    Forall2 (λ v w, same_object (located_value v) (located_value w)) vs ws.
Proof.
  induction 1 as [|v vs Hv _ IH]; intros Hvs.
  { exists []. split; [|constructor]. intros [|n] Hn; [lia|done]. }
  destruct Hvs as [Hpv Hvs]. destruct (IH Hvs) as (ws&Hws&Hsame).
  destruct (items_follow vs rest Hvs) as [Hnext Hsettled].
  set (next := flat_map item_bytes vs ++ 93 :: rest) in *.
  destruct (Hv Hpv next Hsettled) as (t&r&o'&Ht&Hread&Ho').
  exists (o' :: ws). split; [|by constructor]. cbn [flat_map]. unfold item_bytes at 1 3.
  rewrite <-!app_assoc. cbn [app]. fold next.
  pose proof (print_starts (located_value v) (32 :: next) Hpv) as Hs.
  pose proof (read_token_length _ _ _ _ _ Ht) as [Hlen _].
  intros [|n] Hn; [lia|]. unfold_readers source stop more. rewrite starts_trivia by done.
  cbn [mbind option_bind]. rewrite bool_decide_eq_false_2.
  2: { intros Hclose. destruct (print (located_value v) ++ 32 :: next) as [|b l]; [done|].
       injection Hclose as ->. by eapply read_close; [exact Ht|apply Hread]. }
  rewrite Ht. cbn [mbind option_bind]. rewrite Hread by lia. cbn [mbind option_bind].
  pose proof (Hread _ (le_n _)) as Hlen'. apply read_values_length in Hlen'. simpl in Hlen'.
  destruct n as [|n]; [lia|].
  change (read_items source stop more (S n) (32 :: next)) with (read_items source stop more (S n) next).
  rewrite Hws by lia. done.
Qed.

Lemma array_reads vs :
  Forall (λ v, reads_back (located_value v)) vs → reads_back (Array vs).
Proof.
  intros Hvs Hp rest _. cbn [printable] in Hp.
  destruct (items_read vs (32 :: rest) Hvs Hp) as (ws&Hws&Hsame). cbn [print].
  unfold reads. rewrite <-app_comm_cons, <-app_assoc.
  set (bytes := flat_map item_bytes vs ++ 93 :: 32 :: rest) in *.
  destruct (kind_token ArrayOpen (91 :: bytes) bytes) as (t&Ht&Hkind); [done|done|].
  exists t, bytes, (located source (token_start t) (offset_of stop (32 :: rest)) (Array ws)).
  split; [exact Ht|]. split; [|by apply same_array]. intros [|n] Hn; [lia|].
  unfold_readers source stop more. rewrite Hkind, Hws by lia. done.
Qed.

Lemma entries_read es rest :
  Forall (λ e, reads_back (located_value (entry_value e))) es →
  foldr (λ e P, printable (located_value (entry_value e)) ∧ P) True es →
  ∃ fs,
    (∀ n, (2 * length (flat_map entry_bytes es ++ 62%Z :: 62%Z :: rest) + 1 ≤ n)%nat →
       read_entries source stop more n (flat_map entry_bytes es ++ 62 :: 62 :: rest) =
         Some (fs, rest)) ∧
    Forall2 (λ e f, located_value (entry_key e) = located_value (entry_key f) ∧
                    same_object (located_value (entry_value e)) (located_value (entry_value f)))
      es fs.
Proof.
  induction 1 as [|e es He _ IH]; intros Hes.
  { exists []. split; [|constructor]. intros [|n] Hn; [lia|]. cbn [flat_map app].
    unfold_readers source stop more. cbn. by rewrite drop_0. }
  destruct Hes as [Hpe Hes]. destruct (IH Hes) as (fs&Hfs&Hsame).
  destruct (entries_follow es rest) as [Hnext Hsettled].
  set (next := flat_map entry_bytes es ++ 62 :: 62 :: rest) in *.
  destruct (He Hpe next Hsettled) as (t&r&o'&Ht&Hread&Ho').
  cbn [flat_map]. unfold entry_bytes at 1 3. rewrite <-!app_assoc, <-!app_comm_cons, <-!app_assoc.
  cbn [app]. fold next. set (body := print (located_value (entry_value e)) ++ 32 :: next) in *.
  set (name := located_value (entry_key e)).
  destruct (kind_token _ (print_name name ++ 32 :: body) _ ltac:(done) (read_kind_name name body))
    as (k&Hk&Hkind).
  exists ({| entry_key := located source (token_start k) (token_end k) name; entry_value := o' |} :: fs).
  split; [|by constructor].
  pose proof (read_token_length _ _ _ _ _ Ht) as [Hlen _].
  pose proof (Hread _ (le_n _)) as Hlen'. apply read_values_length in Hlen'. simpl in Hlen'.
  intros [|n] Hn; [lia|]. rewrite length_app in Hn. simpl in Hn. unfold_readers source stop more.
  rewrite starts_trivia by done. cbn [mbind option_bind].
  rewrite bool_decide_eq_false_2 by done. rewrite Hk. cbn [mbind option_bind]. rewrite Hkind.
  change (read_token stop more (32 :: body)) with (read_token stop more body).
  rewrite Ht. cbn [mbind option_bind]. rewrite Hread by lia. cbn [mbind option_bind].
  destruct n as [|n]; [lia|].
  change (read_entries source stop more (S n) (32 :: next))
    with (read_entries source stop more (S n) next).
  rewrite Hfs by lia. done.
Qed.

Lemma dictionary_reads es :
  Forall (λ e, reads_back (located_value (entry_value e))) es → reads_back (Dictionary es).
Proof.
  intros Hes Hp rest _. cbn [printable] in Hp.
  destruct (entries_read es (32 :: rest) Hes Hp) as (fs&Hfs&Hsame). cbn [print].
  unfold reads. rewrite <-!app_comm_cons, <-app_assoc.
  set (bytes := flat_map entry_bytes es ++ 62 :: 62 :: 32 :: rest) in *.
  destruct (kind_token DictionaryOpen (60 :: 60 :: bytes) bytes) as (t&Ht&Hkind); [done|done|].
  exists t, bytes, (located source (token_start t) (offset_of stop (32 :: rest)) (Dictionary fs)).
  split; [exact Ht|]. split; [|by apply same_dictionary]. intros [|n] Hn; [lia|].
  unfold_readers source stop more. rewrite Hkind, Hfs by lia. done.
Qed.

Lemma print_reads o : reads_back o.
Proof.
  induction o as [o Ho|vs Hvs|es Hes] using object_nested_ind;
    [|by apply array_reads|by apply dictionary_reads].
  intros Hp rest Hs. destruct o as [|[]|v|r|name|text|vs|es|r]; try done; cbn [print].
  - by apply keyword_reads; [repeat constructor|..].
  - by apply keyword_reads; [repeat constructor|..].
  - by apply keyword_reads; [repeat constructor|..].
  - by apply integer_reads.
  - destruct Hp as (Hread&Hreg&Hhead). destruct (octets (real_raw r)) as [|b raw] eqn:Hraw; [done|].
    apply (scalar_reads _ _ _ (RealToken r)); [by apply number_starts| |].
    + rewrite read_kind_regular by done. simpl in Hhead. by rewrite Hhead, Hread.
    + intros n t Ht. cbn [read_value]. by rewrite Ht.
  - apply name_reads.
  - apply string_reads.
  - by apply reference_reads.
Qed.

Theorem read_object_print o rest :
  printable o → settled more rest →
  ∃ o', read_object source stop more (print o ++ 32 :: rest) = Some (o', 32 :: rest) ∧
    same_object o (located_value o').
Proof.
  intros Hp Hs. destruct (print_reads o Hp rest Hs) as (t&r&o'&Ht&Hread&Ho').
  exists o'. split; [|done]. unfold read_object. rewrite Ht. cbn [mbind option_bind].
  apply Hread. apply read_token_length in Ht as [Hlen _]. lia.
Qed.
End reading.
