(* ===== verification/SyntaxProps.v ===== *)
(** * The properties of the object parser

    A parser made by [SyntaxParser::new] answers every call by what the bytes at
    its cursor are. *)

From stdpp Require Import base list numbers option strings.
From S2P Require Import Prelude.
From S2P Require Import SourceTypes.
From S2P Require Import SyntaxTypes.
From S2P Require Import SyntaxState.
From S2P Require Import SyntaxLexer.
From S2P Require Import SyntaxParser.
From S2P Require Import SyntaxRules.
From S2P Require Import SyntaxReader.
From S2P Require Import SyntaxTrivia.
From S2P Require Import SyntaxTokens.
From S2P Require Import SyntaxStrings.
From S2P Require Import SyntaxObjects.
From S2P Require Import SyntaxContainers.
From S2P Require Import SyntaxGrowth.
From S2P Require Import SyntaxPrint.
From S2P Require Import SyntaxMethods.

(** The fields of a configuration are unsigned. *)
Definition config_unsigned (c : SyntaxLimitConfig) : Prop :=
  0 ≤ sl_max_input_bytes c ∧ 0 ≤ sl_max_token_bytes c ∧ 0 ≤ sl_max_comment_bytes c ∧
  0 ≤ sl_max_name_bytes c ∧ 0 ≤ sl_max_string_source_bytes c ∧
  0 ≤ sl_max_string_decoded_bytes c ∧ 0 ≤ sl_max_owned_bytes c ∧ 0 ≤ sl_max_total_tokens c ∧
  0 ≤ sl_max_container_entries c ∧ 0 ≤ sl_max_container_bytes c ∧ 0 ≤ sl_max_container_depth c.

Lemma validated_limits_ok c limits :
  config_unsigned c → SyntaxLimits_validate c = Ok limits → limits = c ∧ syntax_limits_ok limits.
Proof.
  intros Hc. unfold SyntaxLimits_validate. destruct (_ || _) eqn:Hv; [done|]. intros [= <-].
  split; [done|]. rewrite !orb_false_iff in Hv. destruct_and!. checked_facts.
  unfold config_unsigned, syntax_limits_ok in *. lia.
Qed.

(** The counters of [stats] within the limits and the retained cap; the bytes of
    containers are, unless the call failed. *)
Definition stats_within (p : SyntaxParser) (failed : bool) (st : SyntaxStats) : Prop :=
  let limits := sp_limits p in
  stats_input_bytes st ≤ sl_max_input_bytes limits ∧
  0 ≤ stats_tokens st ≤ sl_max_total_tokens limits ∧
  0 ≤ stats_owned_bytes st ≤ sl_max_owned_bytes limits ∧
  0 ≤ stats_container_entries st ≤ sl_max_container_entries limits ∧
  0 ≤ stats_max_depth st ≤ sl_max_container_depth limits ∧
  0 ≤ stats_container_bytes st ≤ (if failed then u64_max else sl_max_container_bytes limits) ∧
  match sp_max_retained_bytes p with
  | Some cap => stats_owned_bytes st + stats_container_bytes st ≤ cap
  | None => True
  end.

Section props.
Context `{ParserRuntime}.
Implicit Types (p q : SyntaxParser) (s : ParserState).

(** A parser with a cursor before [rest]: what [SyntaxParser::new] returns, and
    what every [Ready] answer leaves. *)
Definition ready_at p s (rest : list Z) : Prop :=
  parser_ok p ∧ state_ok p s ∧ suffix_at p (ps_cursor s) rest.

(** Constructed parsers are well formed. From a window [SyntaxInput::new]
    accepts and limits [SyntaxLimits::validate] accepts, [SyntaxParser::new] makes
    a parser that satisfies the invariant of every other theorem, with its cursor
    before all the bytes of the window; it refuses exactly the windows longer than
    the input limit, with a resource error. *)
Theorem new_parser_ready source base bytes extent config limits cap input :
  0 ≤ base → config_unsigned config → from_option (λ cap, 0 ≤ cap ≤ u64_max) True cap →
  SyntaxInput_new source base bytes extent = Ok input →
  SyntaxLimits_validate config = Ok limits →
  match SyntaxParser_new input limits cap with
  | Ok (p, s) => ready_at p s bytes ∧ sp_input p = input ∧ sp_limits p = config
  | Err e => sl_max_input_bytes config < len bytes ∧ error_code e = ResourceLimit
  end.
Proof.
  intros Hbase Hconfig Hcap Hin [-> Hl]%validated_limits_ok; [|done].
  unfold SyntaxInput_new in Hin. unfold SyntaxParser_new.
  destruct (try_from u64_max (len bytes)) as [n|] eqn:Hn; checked_facts; [|done]. subst n.
  simpl in Hin. destruct (checked_add u64_max base (len bytes)) eqn:Hend; checked_facts; [|done].
  injection Hin as <-. simpl. rewrite (proj2 (try_from_Some _ _ _)) by (split; [|reflexivity]; lia).
  simpl. destruct (sl_max_input_bytes config <? len bytes) eqn:Hlen; simpl; checked_facts; [done|].
  split; [|done]. split; [by split|]. pose proof Hl as Hl'. unfold syntax_limits_ok in Hl'.
  split; [|split; [simpl; lia|done]]. split; simpl; try lia. destruct cap; simpl in *; lia.
Qed.

(** C3: the object parser is the reference reader. Under any limits, allocator and
    cancellation probe, [parse_object] never panics and answers an object only if
    it is the one [read_object] denotes at the cursor, with its exact spans and
    the cursor after it; asks for more input only when the window may continue and
    the reader finds no object yet; answers the end of input only where nothing but
    trivia remains of a complete source; and fails only because the probe said so,
    the allocator refused, the reported work exceeds the reported limit, or the
    bytes spell no object. An internal error takes a window that cannot grow
    because it ends at the last offset. *)
Theorem parse_object_exact p s rest :
  ready_at p s rest →
  answers p (window_end p + 1)
    (read_object (input_source (sp_input p)) (window_end p) (may_continue p) rest)
    (read_trivia (may_continue p) false rest = Some []) (parse_object p s).
Proof. intros (Hp&Hs&Hc). by apply parse_object_answers. Qed.

(** The other methods. Headers are exactly [%PDF-1.0] to [%PDF-1.7] and
    [%PDF-2.0]; keywords are maximal runs of regular bytes, after trivia, that do
    not begin like a number; [expect_keyword] accepts only the expected one; a
    stream boundary is LF or CR LF; raw bytes are the next [length_] ones, and the
    window is asked for up to their end. Errors, requests and cursors are as for
    objects. *)
Theorem parser_methods_exact p s rest expected length_ :
  ready_at p s rest → 0 ≤ length_ ≤ u64_max →
  let source := input_source (sp_input p) in
  let stop := window_end p in
  let more := may_continue p in
  answers p (stop + 1) (read_pdf_header source stop rest) False (parse_header p s) ∧
  answers p (stop + 1) (read_keyword source stop more rest) False (parse_keyword p s) ∧
  answers p (stop + 1) (read_expected source stop more expected rest) False
    (expect_keyword p expected s) ∧
  answers p (stop + 1) (read_line_ending stop rest) False (consume_stream_line_ending p s) ∧
  answers p (position p s + length_) (read_raw source stop (Z.to_nat length_) rest) False
    (take_raw_bytes p length_ s).
Proof.
  intros (Hp&Hs&Hc) Hl. split_and!;
    [by apply parse_header_answers|by apply parse_keyword_answers|by apply expect_keyword_answers
    |by apply consume_stream_line_ending_answers|by apply take_raw_bytes_answers].
Qed.

(** A longer window of the same source. *)
Definition extends p q (ext : list Z) : Prop :=
  input_source (sp_input q) = input_source (sp_input p) ∧
  input_base_offset (sp_input q) = input_base_offset (sp_input p) ∧
  window q = window p ++ ext.

(** C27: growth of the window. An object decided on a window that may continue is
    final: on any longer window of the source, whatever the bytes that follow, the
    new limits and whether that window may continue too, the parser at the same
    cursor answers the same object with the same spans and stops at the same
    place, or refuses because of a limit, the allocator or the probe. *)
Theorem object_growth p q ext s sq s' rest o :
  ready_at p s rest → ready_at q sq (rest ++ ext) → extends p q ext → may_continue p = true →
  parse_object p s = (s', Some (Ready o)) →
  match parse_object q sq with
  | (sq', Some (Ready o')) => o' = o ∧ ps_cursor sq' = ps_cursor s'
  | (_, Some (Failed e)) => refusal e
  | _ => False
  end.
Proof.
  intros (Hp&Hs&Hc) (Hq&Hsq&Hcq) (Hsource&Hbase&Hwin) Hmore Hrun.
  pose proof (parse_object_answers p Hp s rest Hs Hc) as Ha. rewrite Hrun in Ha.
  destruct Ha as (_&r&Hr&Hcr). rewrite Hmore in Hr.
  pose proof (parse_object_answers q Hq sq _ Hsq Hcq) as Ha.
  apply (read_object_grows _ _ (may_continue q) ext) in Hr.
  assert (window_end q = window_end p + len ext) as Hend.
  { unfold window_end. rewrite Hbase, Hwin, length_app. lia. }
  rewrite Hsource, Hend, Hr in Ha. unfold answers in Ha.
  destruct (parse_object q sq) as [sq' [[o'| | |e]|]]; [| | | |done].
  - destruct Ha as (_&r'&[= <- <-]&Hcr'). split; [done|].
    apply suffix_length in Hcr, Hcr'. rewrite Hwin, !length_app in Hcr'. lia.
  - by destruct Ha as (_&_&?&_).
  - by destruct Ha as (_&_&?&_).
  - by destruct Ha as (_&[?|?]&_).
Qed.

(** Spans. A parsed object belongs to the source of its parser and lies
    between the cursor before and the cursor after the call, where it ends; what
    it contains, at any depth, lies strictly inside its delimiters, in order and
    without overlap, a dictionary key before its value. *)
Theorem object_spans p s s' rest o :
  ready_at p s rest → parse_object p s = (s', Some (Ready o)) →
  nested (input_source (sp_input p)) (position p s) (position p s') o ∧
  ByteSpan_end_exclusive (located_span o) = position p s'.
Proof.
  intros (Hp&Hs&Hc) Hrun. pose proof (parse_object_answers p Hp s rest Hs Hc) as Ha.
  rewrite Hrun in Ha. destruct Ha as (_&r&Hr&Hcr). apply read_object_nested in Hr.
  unfold position. by rewrite (suffix_offset _ _ _ Hc), (suffix_offset _ _ _ Hcr).
Qed.

Lemma answers_stats {T} p wanted (spec : option (T * list Z)) clean outcome :
  parser_ok p → answers p wanted spec clean outcome →
  stats_within p (match outcome.2 with Some (Ready _) => false | _ => true end)
    (parser_stats p outcome.1).
Proof.
  intros Hp Ha. pose proof (po_input _ Hp).
  assert (∀ failed c s, work_ok p c s → c = (if failed : bool then u64_max else
    sl_max_container_bytes (sp_limits p)) → stats_within p failed (parser_stats p s)) as Hwork.
  { intros failed c s [] ->. unfold stats_within, parser_stats. simpl. split_and!; try lia; done. }
  destruct outcome as [s' [[v|m| |e]|]]; [..|done]; eapply Hwork; try done; apply Ha.
Qed.

(** C37: resource bounds. After any call of any method, successful or not, the
    input bytes, tokens, owned bytes, container entries and nesting depth that
    [stats] reports are within the validated limits, the owned and container bytes
    together within the retained cap, and after a success the container bytes are
    within theirs. *)
Theorem parser_bounds p s rest expected length_ :
  ready_at p s rest → 0 ≤ length_ ≤ u64_max →
  let within {T} (outcome : ParserState * option (SyntaxPoll T)) :=
    stats_within p (match outcome.2 with Some (Ready _) => false | _ => true end)
      (parser_stats p outcome.1) in
  within (parse_object p s) ∧ within (parse_header p s) ∧ within (parse_keyword p s) ∧
  within (expect_keyword p expected s) ∧ within (consume_stream_line_ending p s) ∧
  within (take_raw_bytes p length_ s).
Proof.
  intros (Hp&Hs&Hc) Hl within. split_and!; (eapply answers_stats; [done|]).
  - by apply parse_object_answers.
  - by apply parse_header_answers.
  - by apply parse_keyword_answers.
  - by apply expect_keyword_answers.
  - by apply consume_stream_line_ending_answers.
  - by apply take_raw_bytes_answers.
Qed.

(** C31: round trip. Every object a document can hold, however nested, is parsed
    back from its printed form, up to the spans of its parts, with the cursor on
    the space after it, unless a limit, the allocator or the probe refuses; an
    integer needs that no generation and [R] follow. *)
Theorem print_round_trip p s o rest :
  ready_at p s (print o ++ 32 :: rest) → printable o → settled (may_continue p) rest →
  match parse_object p s with
  | (s', Some (Ready o')) => same_object o (located_value o') ∧ suffix_at p (ps_cursor s') (32 :: rest)
  | (_, Some (Failed e)) => refusal e
  | _ => False
  end.
Proof.
  intros (Hp&Hs&Hc) Ho Hsettled. pose proof (parse_object_answers p Hp s _ Hs Hc) as Ha.
  destruct (read_object_print (input_source (sp_input p)) (window_end p) (may_continue p) o rest Ho
    Hsettled) as (o'&Hr&Hsame).
  rewrite Hr in Ha. unfold answers in Ha.
  destruct (parse_object p s) as [s' [[v|m| |e]|]]; [..|done].
  - destruct Ha as (_&r&[= <- <-]&?). done.
  - by destruct Ha as (_&_&?&_).
  - by destruct Ha as (_&_&?&_).
  - by destruct Ha as (_&[?|?]&_).
Qed.
End props.

(** ** Concrete runs *)

(** A 64-bit platform whose allocator gives what is asked, without cancellation. *)
Definition example_reserve (k : nat) (size length capacity additional : Z) : option Z :=
  let wanted := Z.max capacity (length + additional) in
  if (wanted <=? u64_max) && (wanted * size <=? i64_max) then Some wanted else None.

Program Definition desktop_parser : ParserRuntime :=
  {| parser_platform := desktop64; parser_cancelled := λ _, false;
     parser_reserve := example_reserve;
     size_of_located_object := 112; size_of_dictionary_entry := 208 |}.
Next Obligation.
  intros k size length capacity additional c. unfold example_reserve. cbv zeta.
  destruct (_ && _) eqn:Hc; [|done]. intros [= <-].
  apply andb_true_iff in Hc as [Hu Hi]. checked_facts. simpl. lia.
Qed.
Next Obligation. done. Qed.
Next Obligation. done. Qed.

Definition example_source : SourceIdentity := {| stable_id := []; revision := 7 |}.

Definition example_input (text : string) (extent : InputExtent) : SyntaxInput :=
  {| input_source := example_source; input_base_offset := 100; input_bytes := octets text;
     input_extent := extent |}.

Definition example_parser (text : string) (extent : InputExtent) : SyntaxParser :=
  {| sp_input := example_input text extent; sp_limits := SyntaxLimitConfig_default;
     sp_max_retained_bytes := Some 4096 |}.

Lemma example_ready text extent :
  len (octets text) ≤ 100 →
  ready_at (example_parser text extent) initial_state (octets text).
Proof.
  intros Hl. split; [|split].
  - split; [done|unfold window, u64_max; simpl; lia|unfold window; simpl; lia| |];
      vm_compute; intuition discriminate.
  - split; [simpl; lia|vm_compute; intuition discriminate..].
  - split; [simpl; lia|done].
Qed.

Lemma new_parser_ready_witness :
  match SyntaxParser_new (example_input "[1]" KnownSourceEnd) SyntaxLimitConfig_default (Some 4096) with
  | Ok (p, s) => ready_at p s (octets "[1]")
  | Err _ => False
  end.
Proof.
  refine (proj1 (@new_parser_ready example_source 100 (octets "[1]") KnownSourceEnd
    SyntaxLimitConfig_default SyntaxLimitConfig_default (Some 4096)
    (example_input "[1]" KnownSourceEnd) _ _ _ _ _)); vm_compute; try reflexivity;
    intuition discriminate.
Defined.

Definition example_text : string := "<</K [1 2 0 R (a) -.5]>> x".

Lemma parse_object_exact_witness :
  let p := example_parser example_text KnownSourceEnd in
  let read := read_object example_source (window_end p) false (octets example_text) in
  (∃ o, read = Some (o, octets " x")) ∧
  @answers desktop_parser _ p (window_end p + 1) read
    (read_trivia false false (octets example_text) = Some [])
    (@parse_object desktop_parser p initial_state).
Proof.
  split; [eexists; vm_compute; reflexivity|].
  exact (@parse_object_exact desktop_parser (example_parser example_text KnownSourceEnd)
    initial_state (octets example_text) (example_ready example_text KnownSourceEnd ltac:(vm_compute; discriminate))).
Defined.

Lemma parser_methods_exact_witness :
  let p := example_parser "%PDF-1.7" MayContinue in
  @answers desktop_parser _ p (window_end p + 1)
    (read_pdf_header example_source (window_end p) (octets "%PDF-1.7")) False
    (@parse_header desktop_parser p initial_state) ∧
  (@parse_header desktop_parser p initial_state).2 =
    Some (Ready {| located_source := example_source;
                   located_span := {| span_start := 100; span_len := 8 |};
                   located_value := {| header_major := 1; header_minor := 7 |} |}).
Proof.
  split; [|vm_compute; reflexivity].
  exact (proj1 (@parser_methods_exact desktop_parser (example_parser "%PDF-1.7" MayContinue)
    initial_state (octets "%PDF-1.7") [] 0 (example_ready "%PDF-1.7" MayContinue ltac:(vm_compute; discriminate))
    ltac:(vm_compute; intuition discriminate))).
Defined.

Lemma object_growth_witness :
  match @parse_object desktop_parser (example_parser "[1 2] 0" MayContinue) initial_state with
  | (s', Some (Ready o)) =>
      match @parse_object desktop_parser (example_parser "[1 2] 0 R" KnownSourceEnd)
              initial_state with
      | (sq', Some (Ready o')) => o' = o ∧ ps_cursor sq' = ps_cursor s'
      | (_, Some (Failed e)) => @refusal desktop_parser e
      | _ => False
      end
  | _ => False
  end.
Proof.
  destruct (@parse_object desktop_parser (example_parser "[1 2] 0" MayContinue) initial_state)
    as [s' [[o| | |]|]] eqn:Hrun; try (vm_compute in Hrun; discriminate Hrun).
  exact (@object_growth desktop_parser (example_parser "[1 2] 0" MayContinue)
    (example_parser "[1 2] 0 R" KnownSourceEnd) (octets " R") initial_state initial_state s'
    (octets "[1 2] 0") o
    (example_ready "[1 2] 0" MayContinue ltac:(vm_compute; discriminate))
    (example_ready "[1 2] 0 R" KnownSourceEnd ltac:(vm_compute; discriminate))
    (conj eq_refl (conj eq_refl eq_refl)) eq_refl Hrun).
Defined.

Lemma object_spans_witness :
  match @parse_object desktop_parser (example_parser example_text KnownSourceEnd) initial_state with
  | (s', Some (Ready o)) =>
      nested example_source 100 (100 + Z.of_nat (ps_cursor s')) o ∧
      ByteSpan_end_exclusive (located_span o) = 100 + Z.of_nat (ps_cursor s')
  | _ => False
  end.
Proof.
  destruct (@parse_object desktop_parser (example_parser example_text KnownSourceEnd) initial_state)
    as [s' [[o| | |]|]] eqn:Hrun; try (vm_compute in Hrun; discriminate Hrun).
  exact (@object_spans desktop_parser (example_parser example_text KnownSourceEnd) initial_state s'
    (octets example_text) o
    (example_ready example_text KnownSourceEnd ltac:(vm_compute; discriminate)) Hrun).
Defined.

Lemma parser_bounds_witness :
  let p := example_parser example_text KnownSourceEnd in
  stats_within p false (parser_stats p (@parse_object desktop_parser p initial_state).1) ∧
  stats_tokens (parser_stats p (@parse_object desktop_parser p initial_state).1) = 12.
Proof.
  split; [|vm_compute; reflexivity].
  exact (proj1 (@parser_bounds desktop_parser (example_parser example_text KnownSourceEnd)
    initial_state (octets example_text) [] 0 (example_ready example_text KnownSourceEnd ltac:(vm_compute; discriminate))
    ltac:(vm_compute; intuition discriminate))).
Defined.

Definition example_object : SyntaxObject :=
  let at_ {A} (v : A) := {| located_source := example_source;
                            located_span := {| span_start := 0; span_len := 0 |};
                            located_value := v |} in
  Array [at_ (Integer (-12)); at_ (Integer 3); at_ (Integer 4);
         at_ (Reference {| object_number := 5; object_generation := 0 |});
         at_ (Dictionary [{| entry_key := at_ ("a b"%string : PdfName);
                             entry_value := at_ (Text {| string_bytes := "(x";
                                                         string_kind := Literal |}) |}])].

Definition printed_parser : SyntaxParser :=
  {| sp_input := {| input_source := example_source; input_base_offset := 100;
                    input_bytes := print example_object ++ [32]; input_extent := KnownSourceEnd |};
     sp_limits := SyntaxLimitConfig_default; sp_max_retained_bytes := None |}.

Lemma print_round_trip_witness :
  match @parse_object desktop_parser printed_parser initial_state with
  | (s', Some (Ready o')) => same_object example_object (located_value o') ∧
      suffix_at printed_parser (ps_cursor s') [32]
  | (_, Some (Failed e)) => @refusal desktop_parser e
  | _ => False
  end.
Proof.
  refine (@print_round_trip desktop_parser printed_parser initial_state example_object [] _ _ _).
  - split; [|split].
    + split; [done|vm_compute; discriminate|vm_compute; discriminate| |done].
      vm_compute. intuition discriminate.
    + split; [vm_compute; lia|vm_compute; intuition discriminate..].
    + split; [vm_compute; lia|done].
  - vm_compute. intuition discriminate.
  - vm_compute. reflexivity.
Defined.
