(* ===== verification/RangeTypes.v ===== *)
(** * Data of the byte range store ([pdf-rs/bytes/src])

    Errors ([error.rs]), checked ranges ([range.rs]), requests, tickets,
    responses and slices ([source.rs]), and the validated limits of a store
    ([store.rs]). *)

From stdpp Require Import base list numbers option strings.
From S2P Require Import Prelude.
From S2P Require Import SourceTypes.

(** ** Errors *)

Inductive SourceLimitKind :=
| SourceInputBytes | ReadBytes | CachedBytes | SourceResidentBytes | Segments | Tickets
| TicketSubscribers | TotalSubscriptions | MissingRanges | SourceAllocation.
#[global] Instance SourceLimitKind_eq_dec : EqDecision SourceLimitKind.
Proof. solve_decision. Defined.

Record SourceLimit := {
  source_limit_kind : SourceLimitKind;
  source_limit_limit : Z;
  source_limit_attempted : Z
}.

Inductive SourceErrorCode :=
| InvalidRange | SourceInvalidLimits | ResponseLengthMismatch | ResponseOutOfBounds
| SourceChanged | ConflictingBytes | SourceResourceLimit | UnknownTicket
| TicketAlreadyTerminal | TicketNotTerminal | CheckpointConflict | SubscriptionsNotTaken
| SourceUnavailable | SourceInternalState.
#[global] Instance SourceErrorCode_eq_dec : EqDecision SourceErrorCode.
Proof. solve_decision. Defined.

Inductive SourceErrorCategory :=
| CategoryInput | CategoryIntegrity | CategoryResource | CategoryLifecycle
| CategoryAvailability | CategoryInternal.
#[global] Instance SourceErrorCategory_eq_dec : EqDecision SourceErrorCategory.
Proof. solve_decision. Defined.

Inductive SourceRecoverability :=
| CorrectInput | ReopenSource | ReduceWorkload | RetrySource | DoNotRetry.

Record SourceError := {
  source_error_code : SourceErrorCode;
  source_error_category : SourceErrorCategory;
  source_error_recoverability : SourceRecoverability;
  source_error_diagnostic_id : string;
  source_error_limit : option SourceLimit
}.

(** The table of [SourceError::for_code]. *)
Definition source_code_policy (code : SourceErrorCode)
    : SourceErrorCategory * SourceRecoverability * string :=
  match code with
  | InvalidRange => (CategoryInput, CorrectInput, "RPE-BYTES-0001")
  | SourceInvalidLimits => (CategoryInput, CorrectInput, "RPE-BYTES-0002")
  | ResponseLengthMismatch => (CategoryInput, CorrectInput, "RPE-BYTES-0003")
  | ResponseOutOfBounds => (CategoryInput, CorrectInput, "RPE-BYTES-0004")
  | SourceChanged => (CategoryIntegrity, ReopenSource, "RPE-BYTES-0005")
  | ConflictingBytes => (CategoryIntegrity, ReopenSource, "RPE-BYTES-0006")
  | SourceResourceLimit => (CategoryResource, ReduceWorkload, "RPE-BYTES-0007")
  | UnknownTicket => (CategoryInput, CorrectInput, "RPE-BYTES-0008")
  | TicketAlreadyTerminal => (CategoryLifecycle, CorrectInput, "RPE-BYTES-0009")
  | TicketNotTerminal => (CategoryLifecycle, CorrectInput, "RPE-BYTES-0010")
  | CheckpointConflict => (CategoryLifecycle, CorrectInput, "RPE-BYTES-0011")
  | SubscriptionsNotTaken => (CategoryLifecycle, CorrectInput, "RPE-BYTES-0012")
  | SourceUnavailable => (CategoryAvailability, RetrySource, "RPE-BYTES-0013")
  | SourceInternalState => (CategoryInternal, DoNotRetry, "RPE-BYTES-0014")
  end.

Definition SourceError_for_code (code : SourceErrorCode) : SourceError :=
  let '(category, recoverability, diagnostic_id) := source_code_policy code in
  {| source_error_code := code; source_error_category := category;
     source_error_recoverability := recoverability;
     source_error_diagnostic_id := diagnostic_id; source_error_limit := None |}.

Definition SourceError_resource (kind : SourceLimitKind) (limit attempted : Z) : SourceError :=
  {| source_error_code := SourceResourceLimit; source_error_category := CategoryResource;
     source_error_recoverability := ReduceWorkload;
     source_error_diagnostic_id := "RPE-BYTES-0007";
     source_error_limit := Some {| source_limit_kind := kind; source_limit_limit := limit;
                                   source_limit_attempted := attempted |} |}.

(** ** Ranges *)

#[global] Instance ByteRange_eq_dec : EqDecision ByteRange.
Proof. solve_decision. Defined.

Definition ByteRange_new (start length : Z) : result SourceError ByteRange :=
  if (length =? 0) || bool_decide (checked_add u64_max start length = None)
  then Err (SourceError_for_code InvalidRange)
  else Ok {| range_start := start; range_len := length |}.

Definition SmallRanges : Type := list ByteRange.

(** The checks of [try_from_canonical] on each range, after [previous_end]. *)
Fixpoint canonical_loop (previous_end : option Z) (total_bytes : Z) (ranges : list ByteRange)
    : result SourceError unit :=
  match ranges with
  | [] => Ok tt
  | range :: ranges =>
      fail_if (from_option (λ end_, range_start range <=? end_) false previous_end)
        (SourceError_for_code SourceInternalState);;
      total_bytes ← require (checked_add u64_max total_bytes (range_len range))
        (SourceError_for_code SourceResourceLimit);
      canonical_loop (Some (ByteRange_end_exclusive range)) total_bytes ranges
  end.

Definition try_from_canonical (ranges : list ByteRange) (max_ranges : Z)
    : result SourceError SmallRanges :=
  fail_if (bool_decide (ranges = [])) (SourceError_for_code SourceInternalState);;
  fail_if (max_ranges <? len ranges) (SourceError_for_code SourceResourceLimit);;
  canonical_loop None 0 ranges;;
  mret ranges.

(** ** Requests and tickets *)

Record DataTicket := {
  ticket_namespace : Z;
  ticket_value : Z
}.
#[global] Instance DataTicket_eq_dec : EqDecision DataTicket.
Proof. solve_decision. Defined.

Record ResumeSubscription := {
  subscription_job : Z;
  subscription_checkpoint : Z
}.
#[global] Instance ResumeSubscription_eq_dec : EqDecision ResumeSubscription.
Proof. solve_decision. Defined.

Inductive RequestPriority :=
| VisiblePage | FirstViewportResource | AdjacentPage | Metadata | BackgroundPrefetch.

Definition RequestPriority_rank (p : RequestPriority) : Z :=
  match p with
  | VisiblePage => 5
  | FirstViewportResource => 4
  | AdjacentPage => 3
  | Metadata => 2
  | BackgroundPrefetch => 1
  end.

Record ReadRequest := {
  request_range : ByteRange;
  request_priority : RequestPriority;
  request_job : Z;
  request_checkpoint : Z
}.

(** ** Responses and slices *)

(** The vector of a response, with its capacity. *)
Record RangeResponse := {
  response_snapshot : SourceSnapshot;
  response_range : ByteRange;
  response_bytes : list Z;
  response_capacity : Z
}.

Definition RangeResponse_new `{Platform} (snapshot : SourceSnapshot) (range : ByteRange)
    (bytes : list Z) (capacity : Z) : result SourceError RangeResponse :=
  expected ← require (try_from usize_max (range_len range))
    (SourceError_for_code ResponseLengthMismatch);
  fail_if (negb (len bytes =? expected)) (SourceError_for_code ResponseLengthMismatch);;
  fail_if (from_option (λ source_len, source_len <? ByteRange_end_exclusive range) false
             (snapshot_len snapshot))
    (SourceError_for_code ResponseOutOfBounds);;
  mret {| response_snapshot := snapshot; response_range := range; response_bytes := bytes;
          response_capacity := capacity |}.

Definition ByteSlice_new `{Platform} (identity : SourceIdentity) (range : ByteRange)
    (backing : list Z) (backing_offset : Z) : result SourceError ByteSlice :=
  range_len ← require (try_from usize_max (range_len range))
    (SourceError_for_code ResponseLengthMismatch);
  backing_end ← require (checked_add usize_max backing_offset range_len)
    (SourceError_for_code ResponseLengthMismatch);
  fail_if (len backing <? backing_end) (SourceError_for_code ResponseLengthMismatch);;
  mret {| slice_identity := identity; slice_range := range; slice_backing := backing;
          slice_backing_offset := Z.to_nat backing_offset |}.

Inductive ReadPoll :=
| PollReady (value : ByteSlice)
| PollPending (ticket : DataTicket) (missing : SmallRanges)
| PollEndOfFile
| PollFailed (error : SourceError).

(** ** Limits *)

Definition HARD_MAX_INPUT_BYTES : Z := 1024 * 1024 * 1024.
Definition HARD_MAX_READ_BYTES : Z := 16 * 1024 * 1024.
Definition HARD_MAX_CACHED_BYTES : Z := 64 * 1024 * 1024.
Definition HARD_MAX_RESIDENT_BYTES : Z := 128 * 1024 * 1024.
Definition HARD_MAX_SEGMENTS : Z := 4096.
Definition HARD_MAX_TICKETS : Z := 4096.
Definition HARD_MAX_SUBSCRIBERS_PER_TICKET : Z := 4096.
Definition HARD_MAX_TOTAL_SUBSCRIPTIONS : Z := 16384.
Definition HARD_MAX_MISSING_RANGES : Z := 256.

Record RangeStoreLimits := {
  range_max_input_bytes : Z;
  range_max_read_bytes : Z;
  range_max_cached_bytes : Z;
  range_max_resident_bytes : Z;
  range_max_segments : Z;
  range_max_tickets : Z;
  range_max_subscribers_per_ticket : Z;
  range_max_total_subscriptions : Z;
  range_max_missing_ranges : Z
}.

(** A configuration has the fields of the limits; [validate] is the identity on
    the profiles it accepts. *)
Definition RangeStoreLimitConfig : Type := RangeStoreLimits.

Definition RangeStoreLimitConfig_default : RangeStoreLimitConfig :=
  {| range_max_input_bytes := 256 * 1024 * 1024;
     range_max_read_bytes := 1024 * 1024;
     range_max_cached_bytes := 16 * 1024 * 1024;
     range_max_resident_bytes := 48 * 1024 * 1024;
     range_max_segments := 256;
     range_max_tickets := 256;
     range_max_subscribers_per_ticket := 256;
     range_max_total_subscriptions := 1024;
     range_max_missing_ranges := 64 |}.

Definition RangeStoreLimits_validate (c : RangeStoreLimitConfig)
    : result SourceError RangeStoreLimits :=
  fail_if ((range_max_input_bytes c =? 0)
           || (HARD_MAX_INPUT_BYTES <? range_max_input_bytes c)
           || (range_max_read_bytes c =? 0)
           || (HARD_MAX_READ_BYTES <? range_max_read_bytes c)
           || (range_max_input_bytes c <? range_max_read_bytes c)
           || (range_max_cached_bytes c <? range_max_read_bytes c)
           || (HARD_MAX_CACHED_BYTES <? range_max_cached_bytes c)
           || (range_max_resident_bytes c <? range_max_cached_bytes c)
           || (HARD_MAX_RESIDENT_BYTES <? range_max_resident_bytes c)
           || (range_max_segments c =? 0)
           || (HARD_MAX_SEGMENTS <? range_max_segments c)
           || (range_max_tickets c =? 0)
           || (HARD_MAX_TICKETS <? range_max_tickets c)
           || (range_max_subscribers_per_ticket c =? 0)
           || (HARD_MAX_SUBSCRIBERS_PER_TICKET <? range_max_subscribers_per_ticket c)
           || (range_max_total_subscriptions c =? 0)
           || (HARD_MAX_TOTAL_SUBSCRIPTIONS <? range_max_total_subscriptions c)
           || (range_max_missing_ranges c =? 0)
           || (HARD_MAX_MISSING_RANGES <? range_max_missing_ranges c))
    (SourceError_for_code SourceInvalidLimits);;
  mret c.

Inductive TicketStatus :=
| StatusPending (subscriber_count : Z)
| StatusReady
| StatusFailed (error : SourceError)
| StatusSourceChanged
| StatusAbandoned.

Record SupplyOutcome := {
  outcome_cached_bytes : Z;
  outcome_ready_tickets : list DataTicket
}.
