(* ===== verification/RangeStore.v ===== *)
(** * The byte range store ([pdf-rs/bytes/src/{store,source}.rs])

    A bounded store of the bytes a host supplied for one immutable source. A
    method holds the lock of the state while it runs, so methods are state
    transformers; what other threads can do meanwhile is a parameter: they may
    signal a source change before any read of the atomic flag, and may hold bytes
    of the shared resident budget. A panic of the source is [Panicked]; no method
    panics, so the lock is never poisoned. *)

From stdpp Require Import base list numbers option strings.
From S2P Require Import Prelude.
From S2P Require Import SourceTypes.
From S2P Require Import RangeTypes.

(** The platform; whether another thread signalled a source change before the
    k-th read of the flag; the bytes other holders have of the resident budget at
    the k-th reservation; the answers of [try_reserve_exact] for metadata and for
    bytes. The capacity of a vector is at least what was asked. *)
Class RangeRuntime : Type := {
  range_platform :: Platform;
  signalled : nat → bool;
  external_bytes : nat → Z;
  metadata_reserved : nat → Z → bool;
  bytes_reserved : nat → Z → option Z;
  bytes_reserved_spec : ∀ k wanted capacity,
    bytes_reserved k wanted = Some capacity → wanted ≤ capacity ≤ usize_max
}.

(** ** State *)

(** A vector with its capacity, which its reservation holds. *)
Record BackingBytes := {
  backing_bytes : list Z;
  backing_capacity : Z
}.

Record Segment := {
  segment_start : Z;
  segment_end : Z;
  segment_backing : BackingBytes
}.
Definition segment_len (s : Segment) : Z := segment_end s - segment_start s.

Inductive TicketPhase :=
| PhasePending
| PhaseReady
| PhaseFailed (error : SourceError)
| PhaseSourceChanged
| PhaseAbandoned.

Definition is_pending (p : TicketPhase) : bool :=
  match p with PhasePending => true | _ => false end.

Record TicketRecord := {
  record_ticket : DataTicket;
  record_missing : SmallRanges;
  record_subscribers : list ResumeSubscription;
  record_phase : TicketPhase
}.
Definition set_phase (x : TicketPhase) (r : TicketRecord) : TicketRecord :=
  {| record_ticket := record_ticket r; record_missing := record_missing r;
     record_subscribers := record_subscribers r; record_phase := x |}.
Definition set_missing (x : SmallRanges) (r : TicketRecord) : TicketRecord :=
  {| record_ticket := record_ticket r; record_missing := x;
     record_subscribers := record_subscribers r; record_phase := record_phase r |}.
Definition set_subscribers (x : list ResumeSubscription) (r : TicketRecord) : TicketRecord :=
  {| record_ticket := record_ticket r; record_missing := record_missing r;
     record_subscribers := x; record_phase := record_phase r |}.

Record StoreState := {
  segments : list Segment;
  cached_bytes : Z;
  tickets : list TicketRecord;
  next_ticket : Z;
  observed_len : option Z;
  subscription_count : Z
}.
Definition set_segments (x : list Segment) (bytes : Z) (s : StoreState) : StoreState :=
  {| segments := x; cached_bytes := bytes; tickets := tickets s; next_ticket := next_ticket s;
     observed_len := observed_len s; subscription_count := subscription_count s |}.
Definition set_tickets (x : list TicketRecord) (s : StoreState) : StoreState :=
  {| segments := segments s; cached_bytes := cached_bytes s; tickets := x;
     next_ticket := next_ticket s; observed_len := observed_len s;
     subscription_count := subscription_count s |}.
Definition set_next_ticket (x : Z) (s : StoreState) : StoreState :=
  {| segments := segments s; cached_bytes := cached_bytes s; tickets := tickets s;
     next_ticket := x; observed_len := observed_len s;
     subscription_count := subscription_count s |}.
Definition set_observed_len (x : option Z) (s : StoreState) : StoreState :=
  {| segments := segments s; cached_bytes := cached_bytes s; tickets := tickets s;
     next_ticket := next_ticket s; observed_len := x;
     subscription_count := subscription_count s |}.
Definition set_subscription_count (x : Z) (s : StoreState) : StoreState :=
  {| segments := segments s; cached_bytes := cached_bytes s; tickets := tickets s;
     next_ticket := next_ticket s; observed_len := observed_len s; subscription_count := x |}.

(** What never changes in a store. *)
Record RangeStore := {
  store_namespace : Z;
  store_snapshot : SourceSnapshot;
  store_limits : RangeStoreLimits
}.

(** The state behind the lock, the flag, and the calls made to the environment. *)
Record RangeState := {
  locked : StoreState;
  source_changed : bool;
  flag_reads : nat;
  reservations : nat;
  allocations : nat
}.

Abbreviation Op := (M RangeState (failure SourceError)).

Definition update (f : StoreState → StoreState) : Op unit :=
  modify (λ s, {| locked := f (locked s); source_changed := source_changed s;
                  flag_reads := flag_reads s; reservations := reservations s;
                  allocations := allocations s |}).
Definition raise_flag (changed : bool) (s : RangeState) : RangeState :=
  {| locked := locked s; source_changed := changed; flag_reads := flag_reads s;
     reservations := reservations s; allocations := allocations s |}.
Definition count_flag_read (s : RangeState) : RangeState :=
  {| locked := locked s; source_changed := source_changed s; flag_reads := S (flag_reads s);
     reservations := reservations s; allocations := allocations s |}.
Definition count_reservation (s : RangeState) : RangeState :=
  {| locked := locked s; source_changed := source_changed s; flag_reads := flag_reads s;
     reservations := S (reservations s); allocations := allocations s |}.
Definition count_allocation (s : RangeState) : RangeState :=
  {| locked := locked s; source_changed := source_changed s; flag_reads := flag_reads s;
     reservations := reservations s; allocations := S (allocations s) |}.

Definition raise {A} (error : SourceError) : Op A := throw (Rejected error).
Definition reject {A} (code : SourceErrorCode) : Op A := raise (SourceError_for_code code).
Definition refuse {A} (kind : SourceLimitKind) (limit attempted : Z) : Op A :=
  raise (SourceError_resource kind limit attempted).
(** [opt.ok_or_else(|| error)?]. *)
Definition some_or {A} (o : option A) (error : SourceError) : Op A := ok_or o (Rejected error).
Definition lift_source {A} (r : result SourceError A) : Op A :=
  of_result (match r with Ok a => Ok a | Err e => Err (Rejected e) end).

(** ** Coverage *)

(** The loop of [range_is_covered]. *)
Fixpoint covered_loop (cursor end_exclusive : Z) (l : list Segment) : bool :=
  match l with
  | [] => false
  | segment :: l =>
      if segment_end segment <=? cursor then covered_loop cursor end_exclusive l
      else if cursor <? segment_start segment then false
      else
        let cursor := Z.max cursor (segment_end segment) in
        if end_exclusive <=? cursor then true else covered_loop cursor end_exclusive l
  end.

Definition range_is_covered (l : list Segment) (range : ByteRange) : bool :=
  covered_loop (range_start range) (ByteRange_end_exclusive range) l.

Definition push_range (start end_exclusive : Z) (ranges : list ByteRange) (max_ranges : Z)
    : result SourceError (list ByteRange) :=
  fail_if (max_ranges <=? len ranges)
    (SourceError_resource MissingRanges max_ranges (len ranges + 1));;
  range ← ByteRange_new start (end_exclusive - start);
  mret (ranges ++ [range]).

(** The loop of [append_uncovered_ranges], and the range after it. *)
Fixpoint uncovered_loop (cursor end_exclusive : Z) (l : list Segment) (ranges : list ByteRange)
    (max_ranges : Z) : result SourceError (list ByteRange) :=
  let finish cursor ranges :=
    if cursor <? end_exclusive then push_range cursor end_exclusive ranges max_ranges
    else mret ranges in
  match l with
  | [] => finish cursor ranges
  | segment :: l =>
      if segment_end segment <=? cursor
      then uncovered_loop cursor end_exclusive l ranges max_ranges
      else if end_exclusive <=? segment_start segment then finish cursor ranges
      else
        ranges ← (if cursor <? segment_start segment
                  then push_range cursor (segment_start segment) ranges max_ranges
                  else mret ranges);
        let cursor := Z.max cursor (segment_end segment) in
        if end_exclusive <=? cursor then finish cursor ranges
        else uncovered_loop cursor end_exclusive l ranges max_ranges
  end.

Definition append_uncovered_ranges (l : list Segment) (requested : ByteRange)
    (ranges : list ByteRange) (max_ranges : Z) : result SourceError (list ByteRange) :=
  uncovered_loop (range_start requested) (ByteRange_end_exclusive requested) l ranges max_ranges.

Fixpoint remaining_loop (l : list Segment) (requested ranges : list ByteRange) (max_ranges : Z)
    : result SourceError (list ByteRange) :=
  match requested with
  | [] => mret ranges
  | range :: requested =>
      ranges ← append_uncovered_ranges l range ranges max_ranges;
      remaining_loop l requested ranges max_ranges
  end.

(** ** Overlaps and copies *)

Definition ranges_overlap (left_start left_end right_start right_end : Z) : bool :=
  (left_start <? right_end) && (right_start <? left_end).

(** [&bytes[start..end]]: [None] when it panics. *)
Definition slice_of (bytes : list Z) (start end_ : Z) : option (list Z) :=
  if (start <=? end_) && (end_ <=? len bytes)
  then Some (take (Z.to_nat (end_ - start)) (drop (Z.to_nat start) bytes)) else None.

Definition copy_into_union `{Platform} (union_start : Z) (union : list Z) (source_start : Z)
    (source : list Z) : result SourceError (list Z) :=
  offset ← require (try_from usize_max (source_start - union_start))
    (SourceError_for_code SourceResourceLimit);
  end_ ← require (checked_add usize_max offset (len source))
    (SourceError_for_code SourceResourceLimit);
  fail_if (len union <? end_) (SourceError_for_code SourceInternalState);;
  mret (take (Z.to_nat offset) union ++ source ++ drop (Z.to_nat end_) union).

Fixpoint copy_segments `{Platform} (union_start : Z) (union : list Z) (l : list Segment)
    : result SourceError (list Z) :=
  match l with
  | [] => mret union
  | segment :: l =>
      union ← copy_into_union union_start union (segment_start segment)
        (backing_bytes (segment_backing segment));
      copy_segments union_start union l
  end.

(** [binary_search_by_key] on segments sorted by their start: the insertion point. *)
Definition insertion_point (start : Z) (l : list Segment) : nat :=
  length (filter (λ s, segment_start s < start) l).

(** ** Tickets *)

Definition transition_record (r : TicketRecord) : TicketRecord :=
  if is_pending (record_phase r) then set_phase PhaseSourceChanged r else r.
Definition transition_source_changed (s : StoreState) : StoreState :=
  set_tickets (transition_record <$> tickets s) s.

Definition missing_crosses_eof (missing : SmallRanges) (observed : Z) : bool :=
  from_option (λ range, observed <? ByteRange_end_exclusive range) false (last missing).

Definition eof_ready (observed : Z) (r : TicketRecord) : bool :=
  is_pending (record_phase r) && missing_crosses_eof (record_missing r) observed.
(** The records after [complete_tickets_at_eof], and the tickets it makes ready. *)
Definition complete_tickets_at_eof (observed : Z) (l : list TicketRecord)
    : list TicketRecord * list DataTicket :=
  ((λ r, if eof_ready observed r then set_phase PhaseReady r else r) <$> l,
   record_ticket <$> filter (λ r, eof_ready observed r = true) l).

(** The record of a ticket, and its index. *)
Definition find_ticket (ticket : DataTicket) (l : list TicketRecord) : option (nat * TicketRecord) :=
  list_find (λ r, record_ticket r = ticket) l.
Definition set_record (index : nat) (r : TicketRecord) (s : StoreState) : StoreState :=
  set_tickets (<[index := r]> (tickets s)) s.

(** ** Overlaps of a response *)

Definition overlap_conflicts `{Platform} (segment : Segment) (response_range : ByteRange)
    (response_bytes : list Z) : result (failure SourceError) bool :=
  let too_large := Rejected (SourceError_for_code SourceResourceLimit) in
  let overlap_start := Z.max (segment_start segment) (range_start response_range) in
  let overlap_end := Z.min (segment_end segment) (ByteRange_end_exclusive response_range) in
  if overlap_end <=? overlap_start then mret false
  else
    first ← require (try_from usize_max (overlap_start - segment_start segment)) too_large;
    response_start ← require (try_from usize_max (overlap_start - range_start response_range))
      too_large;
    overlap_len ← require (try_from usize_max (overlap_end - overlap_start)) too_large;
    last ← require (checked_add usize_max first overlap_len) too_large;
    response_end ← require (checked_add usize_max response_start overlap_len) too_large;
    cached ← require (slice_of (backing_bytes (segment_backing segment)) first last) Panicked;
    supplied ← require (slice_of response_bytes response_start response_end) Panicked;
    mret (negb (bool_decide (cached = supplied))).

(** The loop of [supply] over the segments a response overlaps. *)
Fixpoint conflict_loop `{Platform} (range : ByteRange) (response_bytes : list Z)
    (l : list Segment) : result (failure SourceError) bool :=
  match l with
  | [] => mret false
  | segment :: l =>
      conflict ← (if ranges_overlap (segment_start segment) (segment_end segment)
                       (range_start range) (ByteRange_end_exclusive range)
                  then overlap_conflicts segment range response_bytes else mret false);
      if conflict : bool then mret true else conflict_loop range response_bytes l
  end.

(** The segments a response overlaps or touches: their indices, the bounds of the
    union, and the bytes they hold. *)
Record Affected := {
  affected : list nat;
  union_start : Z;
  union_end : Z;
  removed_bytes : Z
}.

Definition touches (range : ByteRange) (segment : Segment) : bool :=
  (segment_start segment <=? ByteRange_end_exclusive range)
  && (range_start range <=? segment_end segment).

Fixpoint affected_loop (max_cached_bytes : Z) (range : ByteRange) (index : nat) (a : Affected)
    (l : list Segment) : result SourceError Affected :=
  match l with
  | [] => mret a
  | segment :: l =>
      a ← (if touches range segment then
             removed ← require (checked_add u64_max (removed_bytes a) (segment_len segment))
               (SourceError_resource CachedBytes max_cached_bytes u64_max);
             mret {| affected := affected a ++ [index];
                     union_start := Z.min (union_start a) (segment_start segment);
                     union_end := Z.max (union_end a) (segment_end segment);
                     removed_bytes := removed |}
           else mret a);
      affected_loop max_cached_bytes range (S index) a l
  end.

(** The segments whose index is not affected. *)
Fixpoint unaffected_loop (indices : list nat) (index : nat) (l : list Segment) : list Segment :=
  match l with
  | [] => []
  | segment :: l =>
      if bool_decide (index ∈ indices) then unaffected_loop indices (S index) l
      else segment :: unaffected_loop indices (S index) l
  end.

(** [binary_search_by_key] and [insert] on segments sorted by their start. *)
Definition insert_segment (segment : Segment) (l : list Segment) : list Segment :=
  let insertion := insertion_point (segment_start segment) l in
  take insertion l ++ [segment] ++ drop insertion l.

Fixpoint borrow_range `{Platform} (l : list Segment) (identity : SourceIdentity)
    (range : ByteRange) : result SourceError ByteSlice :=
  match l with
  | [] => Err (SourceError_for_code SourceInternalState)
  | segment :: l =>
      if (segment_start segment <=? range_start range)
         && (ByteRange_end_exclusive range <=? segment_end segment)
      then
        backing_offset ← require (try_from usize_max (range_start range - segment_start segment))
          (SourceError_for_code SourceInternalState);
        ByteSlice_new identity range (backing_bytes (segment_backing segment)) backing_offset
      else borrow_range l identity range
  end.

Section store.
Context `{RangeRuntime} (store : RangeStore).

Let limits := store_limits store.
Let max_resident := range_max_resident_bytes limits.

(** ** The atomic flag *)

Definition source_change_precedes_commit : Op bool :=
  s ← get;
  let changed := source_changed s || signalled (flag_reads s) in
  modify (λ s, count_flag_read (raise_flag changed s));;
  mret changed.

Definition synchronize_source_change : Op bool :=
  changed ← source_change_precedes_commit;
  when changed (update transition_source_changed);;
  mret changed.

Definition poison_source : Op unit :=
  modify (raise_flag true);;
  update transition_source_changed.

(** [if self.synchronize_source_change(..) { return Err(SourceChanged) }], which is
    also how a commit checks the flag. *)
Definition check_source_change : Op unit :=
  changed ← synchronize_source_change;
  if changed : bool then reject SourceChanged else mret tt.

Definition poison_and_reject {A} (code : SourceErrorCode) : Op A :=
  poison_source;; reject code.

(** ** Resident bytes and allocations *)

(** The capacities the store holds. *)
Definition held_capacity (l : list Segment) : Z :=
  zsum (λ segment, backing_capacity (segment_backing segment)) l.

(** The counter of [ResidentTracker]: what the store and this call hold, and what
    slices of replaced segments and other calls hold, within the limit. *)
Definition resident_current (in_flight : Z) : Op Z :=
  s ← get;
  let own := held_capacity (segments (locked s)) + in_flight in
  let external := Z.max 0 (Z.min (external_bytes (reservations s)) (max_resident - own)) in
  modify count_reservation;;
  mret (own + external).

(** A reservation is the number of bytes it holds. *)
Definition try_reserve (bytes : Z) : Op Z :=
  current ← resident_current 0;
  attempted ← some_or (checked_add u64_max current bytes)
    (SourceError_resource SourceResidentBytes max_resident u64_max);
  if max_resident <? attempted then refuse SourceResidentBytes max_resident attempted
  else mret bytes.

Definition try_reserve_remaining (in_flight minimum : Z) : Op Z :=
  current ← resident_current in_flight;
  available ← some_or (checked_sub max_resident current)
    (SourceError_for_code SourceInternalState);
  if available <? minimum
  then refuse SourceResidentBytes max_resident (saturating_add u64_max current minimum)
  else mret available.

Definition shrink_to (reserved bytes : Z) : Op Z :=
  some_or (checked_sub reserved bytes) (SourceError_for_code SourceInternalState);;
  mret bytes.

Definition adopt_vec (reserved : Z) (bytes : list Z) (capacity : Z) : Op BackingBytes :=
  actual ← some_or (try_from u64_max capacity) (SourceError_for_code SourceInternalState);
  if negb (actual =? reserved) then reject SourceInternalState
  else mret {| backing_bytes := bytes; backing_capacity := capacity |}.

(** [Vec::try_reserve_exact] of metadata, with the error of its failure. *)
Definition reserve_metadata (wanted : Z) (error : SourceError) : Op unit :=
  s ← get;
  modify count_allocation;;
  if metadata_reserved (allocations s) wanted then mret tt else raise error.

(** [Vec::try_reserve_exact] of an empty vector of bytes: its capacity. *)
Definition reserve_bytes (wanted : Z) (error : SourceError) : Op Z :=
  s ← get;
  modify count_allocation;;
  some_or (bytes_reserved (allocations s) wanted) error.

(** ** Missing ranges *)

Definition missing_range_storage (max_ranges : Z) : Op unit :=
  reserve_metadata max_ranges (SourceError_resource SourceAllocation max_ranges max_ranges).

Definition missing_ranges (l : list Segment) (requested : ByteRange) (max_ranges : Z)
    : Op SmallRanges :=
  missing_range_storage max_ranges;;
  ranges ← lift_source (append_uncovered_ranges l requested [] max_ranges);
  if bool_decide (ranges = []) then reject SourceInternalState
  else lift_source (try_from_canonical ranges max_ranges).

Definition remaining_missing_ranges (l : list Segment) (requested : list ByteRange)
    (max_ranges : Z) : Op (option SmallRanges) :=
  missing_range_storage max_ranges;;
  ranges ← lift_source (remaining_loop l requested [] max_ranges);
  if bool_decide (ranges = []) then mret None
  else
    missing ← lift_source (try_from_canonical ranges max_ranges);
    mret (Some missing).

(** ** Observed metadata *)

(** The length a snapshot binds, when it binds one. *)
Definition observed_binding (observed_snapshot : SourceSnapshot) : Op (option Z) :=
  s ← gets locked;
  match observed_len s, snapshot_len observed_snapshot with
  | Some expected, Some observed =>
      if expected =? observed then mret None else poison_and_reject SourceChanged
  | Some _, None => poison_and_reject SourceChanged
  | None, Some observed =>
      if range_max_input_bytes limits <? observed
      then refuse SourceInputBytes (range_max_input_bytes limits) observed
      else if from_option (λ segment, observed <? segment_end segment) false (last (segments s))
      then poison_and_reject SourceChanged
      else mret (Some observed)
  | None, None => mret None
  end.

Definition metadata_conflicts (s : StoreState) (observed_snapshot : SourceSnapshot) : bool :=
  match observed_len s, snapshot_len observed_snapshot with
  | Some expected, Some observed => negb (expected =? observed)
  | Some _, None => true
  | None, Some observed =>
      from_option (λ segment, observed <? segment_end segment) false (last (segments s))
  | None, None => false
  end.

Definition reject_if_observed_metadata_conflicts (observed_snapshot : SourceSnapshot) : Op unit :=
  check_source_change;;
  s ← gets locked;
  if metadata_conflicts s observed_snapshot then poison_and_reject SourceChanged else mret tt.

Definition bind_observed (bind_observed_len : option Z) : Op (list DataTicket) :=
  match bind_observed_len with
  | Some observed =>
      s ← gets locked;
      let '(records, ready) := complete_tickets_at_eof observed (tickets s) in
      update (λ s, set_tickets records (set_observed_len (Some observed) s));;
      mret ready
  | None => mret []
  end.

(** The first checks of [observe_snapshot] and [supply]. *)
Definition same_source (observed_snapshot : SourceSnapshot) : bool :=
  bool_decide (snapshot_identity observed_snapshot = snapshot_identity (store_snapshot store))
  && bool_decide (snapshot_validator observed_snapshot = snapshot_validator (store_snapshot store)).
Definition check_source (observed_snapshot : SourceSnapshot) : Op unit :=
  check_source_change;;
  if same_source observed_snapshot then mret tt else poison_and_reject SourceChanged.

(** The allocation of [ready_tickets]. *)
Definition reserve_ready_tickets : Op unit :=
  s ← gets locked;
  reserve_metadata (len (tickets s))
    (SourceError_resource SourceAllocation (range_max_tickets limits) (len (tickets s))).

Definition commit_binding (bind_observed_len : option Z) : Op SupplyOutcome :=
  check_source_change;;
  ready_tickets ← bind_observed bind_observed_len;
  s ← gets locked;
  mret {| outcome_cached_bytes := cached_bytes s; outcome_ready_tickets := ready_tickets |}.

Definition observe_snapshot (observed_snapshot : SourceSnapshot) : Op SupplyOutcome :=
  check_source observed_snapshot;;
  check_source_change;;
  bind_observed_len ← observed_binding observed_snapshot;
  reserve_ready_tickets;;
  commit_binding bind_observed_len.

(** ** Supply *)

(** [drop(bytes); self.reject_if_observed_metadata_conflicts(..)?; return Err(error)]. *)
Definition refuse_response {A} (observed_snapshot : SourceSnapshot) (error : SourceError) : Op A :=
  reject_if_observed_metadata_conflicts observed_snapshot;;
  raise error.

(** [match m { Ok(a) => a, Err(error) => .. }]. *)
Definition on_error {A} (m : Op A) (handler : SourceError → Op A) : Op A := λ s,
  match m s with
  | (s', Err (Rejected error)) => handler error s'
  | outcome => outcome
  end.

Definition check_response (observed_snapshot : SourceSnapshot) (range : ByteRange) : Op unit :=
  if range_max_read_bytes limits <? range_len range
  then refuse_response observed_snapshot
         (SourceError_resource ReadBytes (range_max_read_bytes limits) (range_len range))
  else if range_max_input_bytes limits <? ByteRange_end_exclusive range
  then refuse_response observed_snapshot
         (SourceError_resource SourceInputBytes (range_max_input_bytes limits)
            (ByteRange_end_exclusive range))
  else mret tt.

Definition adopt_response (response : RangeResponse) : Op BackingBytes :=
  let observed_snapshot := response_snapshot response in
  response_capacity ← on_error
    (some_or (try_from u64_max (response_capacity response))
       (SourceError_resource SourceAllocation max_resident u64_max))
    (refuse_response observed_snapshot);
  reservation ← on_error (try_reserve response_capacity) (refuse_response observed_snapshot);
  adopt_vec reservation (response_bytes response) (response_capacity).

(** The cached bytes and the number of segments after the insertion. *)
Definition check_insertion (s : StoreState) (a : Affected) : Op Z :=
  let max_cached := range_max_cached_bytes limits in
  let max_segments := range_max_segments limits in
  merged_len ← some_or (checked_sub (union_end a) (union_start a))
    (SourceError_for_code SourceInternalState);
  cached_without_affected ← some_or (checked_sub (cached_bytes s) (removed_bytes a))
    (SourceError_for_code SourceInternalState);
  new_cached_bytes ← some_or (checked_add u64_max cached_without_affected merged_len)
    (SourceError_resource CachedBytes max_cached u64_max);
  if max_cached <? new_cached_bytes
  then refuse CachedBytes max_cached new_cached_bytes
  else
    new_segment_count ← some_or
      (checked_sub (len (segments s)) (len (affected a)) ≫= λ count, checked_add usize_max count 1)
      (SourceError_resource Segments max_segments u64_max);
    if max_segments <? new_segment_count
    then refuse Segments max_segments new_segment_count
    else mret new_cached_bytes.

(** [segments[*index]] of every affected index. *)
Definition affected_segments (s : StoreState) (a : Affected) : Op (list Segment) :=
  ok_or (mapM (λ index, segments s !! index) (affected a)) Panicked.

Definition merge_segments (s : StoreState) (a : Affected) (range : ByteRange)
    (response_backing : BackingBytes) : Op BackingBytes :=
  let merged_len := union_end a - union_start a in
  let too_large attempted := SourceError_resource SourceAllocation max_resident attempted in
  reserved ← try_reserve_remaining (backing_capacity response_backing) merged_len;
  merged_usize ← some_or (try_from usize_max merged_len) (too_large merged_len);
  capacity ← reserve_bytes merged_usize (too_large merged_len);
  merged_capacity ← some_or (try_from u64_max capacity) (too_large u64_max);
  if reserved <? merged_capacity
  then
    resident_before_reservation ← some_or (checked_sub max_resident reserved)
      (SourceError_for_code SourceInternalState);
    refuse SourceResidentBytes max_resident
      (saturating_add u64_max resident_before_reservation merged_capacity)
  else
    old ← affected_segments s a;
    merged_bytes ← lift_source
      (copy_segments (union_start a) (replicate (Z.to_nat merged_usize) 0) old);
    merged_bytes ← lift_source (copy_into_union (union_start a) merged_bytes (range_start range)
                                  (backing_bytes response_backing));
    reservation ← shrink_to reserved merged_capacity;
    adopt_vec reservation merged_bytes capacity.

(** The pending tickets with what they still miss: [None] makes one ready. *)
Fixpoint ticket_updates_loop (prospective_segments : list Segment)
    (bind_observed_len : option Z) (index : nat) (l : list TicketRecord)
    (ticket_updates : list (nat * option SmallRanges)) : Op (list (nat * option SmallRanges)) :=
  match l with
  | [] => mret ticket_updates
  | record :: l =>
      ticket_updates ←
        (if is_pending (record_phase record) then
           remaining ← remaining_missing_ranges prospective_segments (record_missing record)
             (range_max_missing_ranges limits);
           let resolves_at_eof :=
             from_option (λ observed,
               from_option (λ missing, missing_crosses_eof missing observed) false remaining)
               false bind_observed_len in
           mret (ticket_updates ++ [(index, if resolves_at_eof : bool then None else remaining)])
         else mret ticket_updates);
      ticket_updates_loop prospective_segments bind_observed_len (S index) l ticket_updates
  end.

Fixpoint apply_updates (ticket_updates : list (nat * option SmallRanges))
    (ready_tickets : list DataTicket) : Op (list DataTicket) :=
  match ticket_updates with
  | [] => mret ready_tickets
  | (index, remaining) :: ticket_updates =>
      s ← gets locked;
      record ← ok_or (tickets s !! index) Panicked;
      match remaining with
      | Some missing =>
          update (set_record index (set_missing missing record));;
          apply_updates ticket_updates ready_tickets
      | None =>
          update (set_record index (set_phase PhaseReady record));;
          apply_updates ticket_updates (ready_tickets ++ [record_ticket record])
      end
  end.

Definition insert_response (range : ByteRange) (response_backing : BackingBytes)
    (bind_observed_len : option Z) : Op SupplyOutcome :=
  s ← gets locked;
  let metadata_error limit attempted := SourceError_resource SourceAllocation limit attempted in
  reserve_metadata (len (segments s))
    (metadata_error (range_max_segments limits) (len (segments s)));;
  a ← lift_source (affected_loop (range_max_cached_bytes limits) range 0
    {| affected := []; union_start := range_start range;
       union_end := ByteRange_end_exclusive range; removed_bytes := 0 |} (segments s));
  new_cached_bytes ← check_insertion s a;
  backing ← (if bool_decide (affected a = []) then mret response_backing
             else merge_segments s a range response_backing);
  reserve_metadata (range_max_segments limits)
    (metadata_error (range_max_segments limits) (len (segments s) - len (affected a) + 1));;
  let prospective_segments :=
    insert_segment {| segment_start := union_start a; segment_end := union_end a;
                      segment_backing := backing |}
      (unaffected_loop (affected a) 0 (segments s)) in
  reserve_metadata (len (tickets s))
    (metadata_error (range_max_tickets limits) (len (tickets s)));;
  ticket_updates ← ticket_updates_loop prospective_segments bind_observed_len 0 (tickets s) [];
  check_source_change;;
  update (set_segments prospective_segments new_cached_bytes);;
  when (bool_decide (is_Some bind_observed_len)) (update (set_observed_len bind_observed_len));;
  ready_tickets ← apply_updates ticket_updates [];
  mret {| outcome_cached_bytes := new_cached_bytes; outcome_ready_tickets := ready_tickets |}.

Definition supply (response : RangeResponse) : Op SupplyOutcome :=
  let range := response_range response in
  check_source (response_snapshot response);;
  check_response (response_snapshot response) range;;
  response_backing ← adopt_response response;
  check_source_change;;
  bind_observed_len ← observed_binding (response_snapshot response);
  reserve_ready_tickets;;
  s ← gets locked;
  conflicts ← of_result (conflict_loop range (backing_bytes response_backing) (segments s));
  if conflicts : bool then poison_and_reject ConflictingBytes
  else if range_is_covered (segments s) range then commit_binding bind_observed_len
  else insert_response range response_backing bind_observed_len.

(** ** Tickets *)

Definition find_ticket_mut (ticket : DataTicket) : Op (nat * TicketRecord) :=
  s ← gets locked;
  some_or (find_ticket ticket (tickets s)) (SourceError_for_code UnknownTicket).

(** [self.state.subscription_count.checked_sub(removed)]. *)
Definition remove_subscriptions (removed : Z) : Op unit :=
  s ← gets locked;
  count ← some_or (checked_sub (subscription_count s) removed)
    (SourceError_for_code SourceInternalState);
  update (set_subscription_count count).

Definition fail_ticket (ticket : DataTicket) (error : SourceError) : Op unit :=
  synchronize_source_change;;
  found ← find_ticket_mut ticket;
  if bool_decide (source_error_category error = CategoryIntegrity) then poison_source
  else if negb (is_pending (record_phase found.2)) then reject TicketAlreadyTerminal
  else update (set_record found.1 (set_phase (PhaseFailed error) found.2)).

Definition signal_source_changed : Op unit := poison_source.

Definition unsubscribe (ticket : DataTicket) (job : Z) : Op unit :=
  synchronize_source_change;;
  found ← find_ticket_mut ticket;
  let '(index, record) := found in
  if negb (is_pending (record_phase record)) then reject TicketAlreadyTerminal
  else
    let kept := filter (λ subscriber, subscription_job subscriber ≠ job)
                  (record_subscribers record) in
    let removed := len (record_subscribers record) - len kept in
    let record := set_subscribers kept record in
    let record := if bool_decide (kept = []) then set_phase PhaseAbandoned record else record in
    update (set_record index record);;
    remove_subscriptions removed.

Definition take_subscriptions (ticket : DataTicket) : Op (list ResumeSubscription) :=
  synchronize_source_change;;
  found ← find_ticket_mut ticket;
  let '(index, record) := found in
  if is_pending (record_phase record) then reject TicketNotTerminal
  else
    update (set_record index (set_subscribers [] record));;
    remove_subscriptions (len (record_subscribers record));;
    mret (record_subscribers record).

Definition status_of (record : TicketRecord) : TicketStatus :=
  match record_phase record with
  | PhasePending => StatusPending (len (record_subscribers record))
  | PhaseReady => StatusReady
  | PhaseFailed error => StatusFailed error
  | PhaseSourceChanged => StatusSourceChanged
  | PhaseAbandoned => StatusAbandoned
  end.

Definition ticket_status (ticket : DataTicket) : Op TicketStatus :=
  synchronize_source_change;;
  found ← find_ticket_mut ticket;
  mret (status_of found.2).

Definition release_ticket (ticket : DataTicket) : Op unit :=
  synchronize_source_change;;
  found ← find_ticket_mut ticket;
  let '(index, record) := found in
  if is_pending (record_phase record) then reject TicketNotTerminal
  else if negb (bool_decide (record_subscribers record = [])) then reject SubscriptionsNotTaken
  else
    update (λ s, set_tickets (delete index (tickets s)) s);;
    remove_subscriptions (len (record_subscribers record)).

(** ** Poll *)

(** Joins a pending ticket that misses the same ranges. *)
Definition join_ticket (index : nat) (record : TicketRecord) (request : ReadRequest)
    (missing : SmallRanges) : Op ReadPoll :=
  let subscriber := {| subscription_job := request_job request;
                       subscription_checkpoint := request_checkpoint request |} in
  let subscribers := record_subscribers record in
  let pending := PollPending (record_ticket record) missing in
  match list_find (λ existing, subscription_job existing = request_job request) subscribers with
  | Some (_, existing) =>
      if bool_decide (subscription_checkpoint existing = request_checkpoint request)
      then mret pending else reject CheckpointConflict
  | None =>
      s ← gets locked;
      let count := subscription_count s in
      let max_total := range_max_total_subscriptions limits in
      if max_total <=? count then refuse TotalSubscriptions max_total (count + 1)
      else if bool_decide (subscriber ∈ subscribers) then mret pending
      else
        let max_subscribers := range_max_subscribers_per_ticket limits in
        if max_subscribers <=? len subscribers
        then refuse TicketSubscribers max_subscribers (len subscribers + 1)
        else
          reserve_metadata 1
            (SourceError_resource SourceAllocation max_subscribers (len subscribers + 1));;
          update (set_record index (set_subscribers (subscribers ++ [subscriber]) record));;
          update (set_subscription_count (count + 1));;
          mret pending
  end.

Definition new_ticket (request : ReadRequest) (missing : SmallRanges) : Op ReadPoll :=
  s ← gets locked;
  let max_tickets := range_max_tickets limits in
  let max_total := range_max_total_subscriptions limits in
  let count := subscription_count s in
  if max_tickets <=? len (tickets s)
  then refuse Tickets max_tickets (len (tickets s) + 1)
  else if max_total <=? count then refuse TotalSubscriptions max_total (count + 1)
  else
    let ticket := {| ticket_namespace := store_namespace store;
                     ticket_value := next_ticket s |} in
    next ← some_or (checked_add u64_max (next_ticket s) 1)
      (SourceError_resource Tickets max_tickets u64_max);
    update (set_next_ticket next);;
    reserve_metadata 1 (SourceError_resource SourceAllocation 1 1);;
    let record := {| record_ticket := ticket; record_missing := missing;
                     record_subscribers :=
                       [{| subscription_job := request_job request;
                           subscription_checkpoint := request_checkpoint request |}];
                     record_phase := PhasePending |} in
    update (λ s, set_tickets (tickets s ++ [record]) s);;
    update (set_subscription_count (count + 1));;
    mret (PollPending ticket missing).

Definition poll_inner (request : ReadRequest) : Op ReadPoll :=
  let range := request_range request in
  check_source_change;;
  s ← gets locked;
  if range_max_read_bytes limits <? range_len range
  then refuse ReadBytes (range_max_read_bytes limits) (range_len range)
  else if from_option (λ source_len, source_len <? ByteRange_end_exclusive range) false
            (observed_len s)
  then mret PollEndOfFile
  else if range_max_input_bytes limits <? ByteRange_end_exclusive range
  then refuse SourceInputBytes (range_max_input_bytes limits) (ByteRange_end_exclusive range)
  else if range_is_covered (segments s) range
  then
    slice ← lift_source (borrow_range (segments s)
                           (snapshot_identity (store_snapshot store)) range);
    mret (PollReady slice)
  else
    missing ← missing_ranges (segments s) range (range_max_missing_ranges limits);
    match list_find (λ record, is_pending (record_phase record) ∧ record_missing record = missing)
            (tickets s) with
    | Some (index, record) => join_ticket index record request missing
    | None => new_ticket request missing
    end.

(** [poll] returns the errors as [ReadPoll::Failed]. *)
Definition poll (request : ReadRequest) : Op ReadPoll :=
  on_error (poll_inner request) (λ error, mret (PollFailed error)).

Definition cached_bytes_of : Op Z := gets (λ s, cached_bytes (locked s)).
Definition resident_bytes : Op Z := resident_current 0.
End store.

(** ** Construction *)

(** [RangeStore::new], with the counter of namespaces before and after. *)
Definition RangeStore_new `{RangeRuntime} (next_namespace : Z) (snapshot : SourceSnapshot)
    (limits : RangeStoreLimits) : result SourceError (RangeStore * RangeState * Z) :=
  fail_if (from_option (λ input_bytes, range_max_input_bytes limits <? input_bytes) false
             (snapshot_len snapshot))
    (SourceError_resource SourceInputBytes (range_max_input_bytes limits)
       (default 0 (snapshot_len snapshot)));;
  let allocation_error n := SourceError_resource SourceAllocation n n in
  fail_if (negb (metadata_reserved 0 (range_max_segments limits)))
    (allocation_error (range_max_segments limits));;
  fail_if (negb (metadata_reserved 1 (range_max_tickets limits)))
    (allocation_error (range_max_tickets limits));;
  next ← require (checked_add u64_max next_namespace 1)
    (SourceError_for_code SourceInternalState);
  mret ({| store_namespace := next_namespace; store_snapshot := snapshot;
           store_limits := limits |},
        {| locked := {| segments := []; cached_bytes := 0; tickets := []; next_ticket := 1;
                        observed_len := snapshot_len snapshot; subscription_count := 0 |};
           source_changed := false; flag_reads := 0; reservations := 0; allocations := 2 |},
        next).
