(* ===== verification/RangeSegments.v ===== *)
(** * Segments and missing ranges as sets of offsets

    What the loops of the byte range store compute on sorted, separated segments:
    the bytes they hold as a partial function of offsets, coverage, and the
    maximal gaps of a range. *)

From stdpp Require Import base list numbers option sorting sets.
From S2P Require Import Prelude.
From S2P Require Import SourceTypes.
From S2P Require Import RangeTypes.
From S2P Require Import RangeStore.

(** ** Canonical ranges *)

Definition in_range (x : Z) (r : ByteRange) : Prop :=
  range_start r ≤ x < ByteRange_end_exclusive r.
Definition in_ranges (x : Z) (l : list ByteRange) : Prop := ∃ r, r ∈ l ∧ in_range x r.

(** What [ByteRange::new] guarantees. *)
Record range_ok (r : ByteRange) : Prop := {
  range_start_ok : 0 ≤ range_start r;
  range_len_ok : 0 < range_len r;
  range_end_ok : ByteRange_end_exclusive r ≤ u64_max
}.
#[export] Hint Resolve range_start_ok range_len_ok range_end_ok : engine.

Definition range_before (r r' : ByteRange) : Prop :=
  ByteRange_end_exclusive r < range_start r'.
Definition canonical (l : list ByteRange) : Prop :=
  Forall range_ok l ∧ StronglySorted range_before l.

Definition span (start end_ : Z) : ByteRange :=
  {| range_start := start; range_len := end_ - start |}.

Lemma end_span a e : ByteRange_end_exclusive (span a e) = e.
Proof. unfold ByteRange_end_exclusive. simpl. lia. Qed.

Lemma in_range_span x a e : in_range x (span a e) ↔ a ≤ x < e.
Proof. unfold in_range. by rewrite end_span. Qed.

Lemma range_ok_span a e : 0 ≤ a → a < e → e ≤ u64_max → range_ok (span a e).
Proof. intros. split; rewrite ?end_span; simpl; lia. Qed.

Lemma range_span r : span (range_start r) (ByteRange_end_exclusive r) = r.
Proof. destruct r as [a n]. unfold span, ByteRange_end_exclusive. simpl. f_equal. lia. Qed.

Lemma range_nonempty r : range_ok r → range_start r < ByteRange_end_exclusive r.
Proof. intros []. unfold ByteRange_end_exclusive. lia. Qed.

Lemma in_ranges_nil x : ¬ in_ranges x [].
Proof. intros (r & Hr & _). by apply not_elem_of_nil in Hr. Qed.

Lemma in_ranges_cons x r l : in_ranges x (r :: l) ↔ in_range x r ∨ in_ranges x l.
Proof. unfold in_ranges. set_solver. Qed.

Lemma in_ranges_app x l k : in_ranges x (l ++ k) ↔ in_ranges x l ∨ in_ranges x k.
Proof. unfold in_ranges. set_solver. Qed.

Lemma canonical_nil : canonical [].
Proof. split; constructor. Qed.
#[export] Hint Resolve canonical_nil : engine.

Lemma canonical_cons r l :
  canonical (r :: l) ↔ range_ok r ∧ Forall (range_before r) l ∧ canonical l.
Proof.
  unfold canonical. rewrite Forall_cons. split.
  - intros [[] []%StronglySorted_inv]. done.
  - intros (? & ? & ? & ?). split; [done|]. by constructor.
Qed.

Lemma canonical_app l k :
  canonical l → canonical k → (∀ r r', r ∈ l → r' ∈ k → range_before r r') → canonical (l ++ k).
Proof.
  intros [Hl Sl] [Hk Sk] H. split; [by apply Forall_app|]. by apply StronglySorted_app_2.
Qed.

Lemma canonical_above r l x : canonical (r :: l) → in_ranges x l → ByteRange_end_exclusive r < x.
Proof.
  intros (_ & Hb & _)%canonical_cons (r' & Hr' & Hx).
  rewrite Forall_forall in Hb. specialize (Hb _ Hr'). unfold range_before, in_range in *. lia.
Qed.

(** A canonical list is determined by the offsets it contains. *)
Lemma canonical_unique l k :
  canonical l → canonical k → (∀ x, in_ranges x l ↔ in_ranges x k) → l = k.
Proof.
  revert k. induction l as [|r l IH]; intros [|r' k] Hl Hk Hlk; [done|..].
  - pose proof Hk as (Hr & _)%canonical_cons. apply range_nonempty in Hr.
    exfalso. apply (in_ranges_nil (range_start r')), Hlk, in_ranges_cons. left.
    unfold in_range. lia.
  - pose proof Hl as (Hr & _)%canonical_cons. apply range_nonempty in Hr.
    exfalso. apply (in_ranges_nil (range_start r)), Hlk, in_ranges_cons. left.
    unfold in_range. lia.
  - pose proof Hl as (Hr & _ & Hl')%canonical_cons. pose proof Hk as (Hr' & _ & Hk')%canonical_cons.
    apply range_nonempty in Hr, Hr'. setoid_rewrite in_ranges_cons in Hlk.
    pose proof (λ x, canonical_above r l x Hl) as Al.
    pose proof (λ x, canonical_above r' k x Hk) as Ak. unfold in_range in *.
    assert (range_start r = range_start r') as Hs.
    { pose proof (proj1 (Hlk (range_start r)) ltac:(left; lia)) as [|H%Ak]; [|];
      pose proof (proj2 (Hlk (range_start r')) ltac:(left; lia)) as [|H'%Al]; lia. }
    assert (ByteRange_end_exclusive r = ByteRange_end_exclusive r') as He.
    { destruct (Z.lt_trichotomy (ByteRange_end_exclusive r) (ByteRange_end_exclusive r'))
        as [Hlt|[?|Hlt]]; [|done|].
      - pose proof (proj2 (Hlk (ByteRange_end_exclusive r)) ltac:(left; lia)) as [|H%Al]; lia.
      - pose proof (proj1 (Hlk (ByteRange_end_exclusive r')) ltac:(left; lia)) as [|H%Ak]; lia. }
    assert (r = r') as ->.
    { rewrite <-(range_span r), <-(range_span r'). by rewrite Hs, He. }
    f_equal. apply IH; [done..|]. intros x. split; intros Hx.
    + pose proof (Al _ Hx). destruct (proj1 (Hlk x) (or_intror Hx)); [lia|done].
    + pose proof (Ak _ Hx). destruct (proj2 (Hlk x) (or_intror Hx)); [lia|done].
Qed.

Lemma canonical_loop_ok previous total l :
  canonical l → total ≤ u64_max →
  (∀ r, r ∈ l → from_option (λ e, e < range_start r) True previous ∧ total ≤ range_start r) →
  canonical_loop previous total l = Ok tt.
Proof.
  revert previous total. induction l as [|r l IH]; intros previous total Hl Ht Hp; [done|].
  simpl. apply canonical_cons in Hl as (Hr & Hb & Hl).
  destruct (Hp r) as [Hpr Htr]; [left|].
  replace (from_option _ false previous) with false
    by (destruct previous; simpl in *; [symmetry; apply Z.leb_gt; lia|done]).
  simpl. destruct (checked_add u64_max total (range_len r)) as [t|] eqn:Hc; checked_facts.
  - simpl. apply IH; [done|lia|]. intros r' Hr'. rewrite Forall_forall in Hb.
    specialize (Hb _ Hr'). unfold range_before, ByteRange_end_exclusive in *. simpl. lia.
  - destruct Hr. unfold ByteRange_end_exclusive in *. lia.
Qed.

Lemma try_from_canonical_ok l max :
  canonical l → l ≠ [] → len l ≤ max → try_from_canonical l max = Ok l.
Proof.
  intros Hl Hne Hlen. unfold try_from_canonical. rewrite bool_decide_false by done. simpl.
  replace (max <? len l) with false by (symmetry; apply Z.ltb_ge; lia). simpl.
  rewrite canonical_loop_ok; [done|done|done|].
  intros r Hr. split; [done|]. destruct Hl as [Hl _]. rewrite Forall_forall in Hl.
  by apply range_start_ok, Hl.
Qed.

(** ** Segments *)

Definition in_segment (x : Z) (s : Segment) : Prop := segment_start s ≤ x < segment_end s.

Record segment_ok (s : Segment) : Prop := {
  segment_start_ok : 0 ≤ segment_start s;
  segment_nonempty : segment_start s < segment_end s;
  segment_bytes_len : len (backing_bytes (segment_backing s)) = segment_len s;
  segment_capacity_ok : segment_len s ≤ backing_capacity (segment_backing s)
}.

Definition segment_before (s s' : Segment) : Prop := segment_end s < segment_start s'.
(** Sorted, disjoint, and not even adjacent. *)
Definition segments_ok (l : list Segment) : Prop :=
  Forall segment_ok l ∧ StronglySorted segment_before l.

Lemma segments_ok_nil : segments_ok [].
Proof. split; constructor. Qed.

Lemma segments_ok_cons s l :
  segments_ok (s :: l) ↔ segment_ok s ∧ Forall (segment_before s) l ∧ segments_ok l.
Proof.
  unfold segments_ok. rewrite Forall_cons. split.
  - intros [[] []%StronglySorted_inv]. done.
  - intros (? & ? & ? & ?). split; [done|]. by constructor.
Qed.

Lemma segments_ok_sublist l k : l `sublist_of` k → segments_ok k → segments_ok l.
Proof.
  intros Hlk [H S]. split; [|by eapply StronglySorted_sublist].
  rewrite Forall_forall in *. eauto using elem_of_sublist.
Qed.

(** The byte at an offset. *)
Definition segment_at (x : Z) (s : Segment) : option Z :=
  if (segment_start s <=? x) && (x <? segment_end s)
  then backing_bytes (segment_backing s) !! Z.to_nat (x - segment_start s) else None.
Fixpoint content (l : list Segment) (x : Z) : option Z :=
  match l with
  | [] => None
  | s :: l => match segment_at x s with Some b => Some b | None => content l x end
  end.

Lemma segment_at_in x s : segment_ok s → (is_Some (segment_at x s) ↔ in_segment x s).
Proof.
  intros []. unfold segment_at, in_segment. destruct (_ && _) eqn:Hb.
  - apply andb_prop in Hb as [? ?]. checked_facts.
    split; [lia|intros _]. apply lookup_lt_is_Some. unfold segment_len in *. lia.
  - apply andb_false_iff in Hb. split; [by intros []|]. destruct Hb; checked_facts; lia.
Qed.

Lemma segment_at_out x s : ¬ in_segment x s → segment_at x s = None.
Proof.
  unfold segment_at, in_segment. destruct (_ && _) eqn:Hb; [|done].
  apply andb_prop in Hb as [? ?]. checked_facts. lia.
Qed.

Lemma content_cons_out s l x : ¬ in_segment x s → content (s :: l) x = content l x.
Proof. intros H. simpl. by rewrite segment_at_out. Qed.

Lemma content_cons_in s l x :
  segment_ok s → in_segment x s → content (s :: l) x = segment_at x s.
Proof. intros Hs Hx%segment_at_in; [|done]. simpl. by destruct Hx as [? ->]. Qed.

Lemma content_app l k x :
  content (l ++ k) x = match content l x with Some b => Some b | None => content k x end.
Proof. induction l as [|s l IH]; simpl; [done|]. by destruct (segment_at x s). Qed.

Lemma content_is_Some l x :
  Forall segment_ok l → (is_Some (content l x) ↔ ∃ s, s ∈ l ∧ in_segment x s).
Proof.
  induction l as [|s l IH]; intros Hl.
  - split; [by intros []|]. by intros (? & ?%not_elem_of_nil & _).
  - apply Forall_cons in Hl as [Hs Hl]. specialize (IH Hl). simpl.
    pose proof (segment_at_in x s Hs). destruct (segment_at x s) as [b|]; [set_solver|].
    rewrite IH. split; [set_solver|]. intros (s' & [->|?]%elem_of_cons & ?); [|set_solver].
    destruct H as [_ []]; done.
Qed.

Lemma content_None l x :
  Forall segment_ok l → (content l x = None ↔ ∀ s, s ∈ l → ¬ in_segment x s).
Proof.
  intros Hl. pose proof (content_is_Some l x Hl). rewrite eq_None_not_Some. naive_solver.
Qed.

Lemma segments_before_content s l x :
  segments_ok (s :: l) → x ≤ segment_end s → content l x = None.
Proof.
  intros (_ & Hb & [Hl _])%segments_ok_cons Hx. apply content_None; [done|].
  intros s' Hs'. rewrite Forall_forall in Hb. specialize (Hb _ Hs').
  unfold segment_before, in_segment in *. lia.
Qed.

Lemma content_elem l s x :
  segments_ok l → s ∈ l → in_segment x s → content l x = segment_at x s.
Proof.
  induction l as [|s' l IH]; intros Hl Hs Hx; [by apply not_elem_of_nil in Hs|].
  pose proof Hl as (Hs' & Hb & Hl')%segments_ok_cons.
  apply elem_of_cons in Hs as [->|Hs]; [by apply content_cons_in|].
  rewrite content_cons_out; [by apply IH|]. rewrite Forall_forall in Hb.
  specialize (Hb _ Hs). unfold segment_before, in_segment in *. lia.
Qed.

(** ** Coverage *)

Lemma covered_loop_spec l a e :
  segments_ok l → a < e →
  covered_loop a e l = true ↔ ∀ x, a ≤ x < e → is_Some (content l x).
Proof.
  revert a. induction l as [|s l IH]; intros a Hl Hae; cbn [covered_loop].
  { split; [done|]. intros H. destruct (H a) as [? ?]; [lia|done]. }
  pose proof Hl as (Hs & Hb & Hl')%segments_ok_cons. pose proof (segment_nonempty s Hs).
  destruct (Z.leb_spec (segment_end s) a).
  { rewrite IH by done. apply forall_proper. intros x. split; intros Hx Hxa; specialize (Hx Hxa);
      [rewrite content_cons_out|rewrite content_cons_out in Hx]; unfold in_segment; done || lia. }
  destruct (Z.ltb_spec a (segment_start s)).
  { split; [done|]. intros Hx. specialize (Hx a ltac:(lia)).
    rewrite content_cons_out, (segments_before_content s) in Hx;
      [by destruct Hx|done|lia|unfold in_segment; lia]. }
  rewrite Z.max_r by lia. destruct (Z.leb_spec e (segment_end s)).
  { split; [|done]. intros _ x Hx. rewrite content_cons_in by (unfold in_segment; done || lia).
    apply segment_at_in; [done|]. unfold in_segment. lia. }
  rewrite IH by (done || lia). split; intros Hx.
  - specialize (Hx (segment_end s) ltac:(lia)).
    rewrite (segments_before_content s) in Hx; [by destruct Hx|done|lia].
  - specialize (Hx (segment_end s) ltac:(lia)).
    rewrite content_cons_out, (segments_before_content s) in Hx;
      [by destruct Hx|done|lia|unfold in_segment; lia].
Qed.

Lemma range_is_covered_spec l r :
  segments_ok l → range_ok r →
  range_is_covered l r = true ↔ ∀ x, in_range x r → is_Some (content l x).
Proof. intros Hl Hr. apply covered_loop_spec; [done|]. by apply range_nonempty. Qed.

(** ** Gaps *)

(** The maximal gaps of [l] between two offsets. *)
Fixpoint gaps (a e : Z) (l : list Segment) : list ByteRange :=
  let rest a := if a <? e then [span a e] else [] in
  match l with
  | [] => rest a
  | s :: l =>
      if segment_end s <=? a then gaps a e l
      else if e <=? segment_start s then rest a
      else
        (if a <? segment_start s then [span a (segment_start s)] else [])
        ++ (if e <=? Z.max a (segment_end s) then rest (Z.max a (segment_end s))
            else gaps (Z.max a (segment_end s)) e l)
  end.

(** [ranges] followed by [k], unless there are too many of them. *)
Definition bounded_app (ranges k : list ByteRange) (max : Z) : result SourceError (list ByteRange) :=
  if len ranges + len k <=? max then Ok (ranges ++ k)
  else Err (SourceError_resource MissingRanges max (max + 1)).

Lemma bounded_app_nil ranges max :
  len ranges ≤ max → bounded_app ranges [] max = Ok ranges.
Proof.
  intros. unfold bounded_app. rewrite app_nil_r. destruct (Z.leb_spec (len ranges + len (@nil ByteRange)) max);
    [done|simpl in *; lia].
Qed.

Lemma push_range_bounded a e ranges max :
  0 ≤ a → a < e → e ≤ u64_max → len ranges ≤ max →
  push_range a e ranges max = bounded_app ranges [span a e] max.
Proof.
  intros. unfold push_range, bounded_app. change (len [span a e]) with 1.
  destruct (Z.leb_spec max (len ranges)); destruct (Z.leb_spec (len ranges + 1) max); try lia; simpl.
  - by replace (len ranges + 1) with (max + 1) by lia.
  - unfold ByteRange_new. replace (e - a =? 0) with false by (symmetry; apply Z.eqb_neq; lia).
    rewrite bool_decide_false; [done|]. intros H'. checked_facts. lia.
Qed.

Lemma bounded_app_bind ranges k k' max (f : list ByteRange → result SourceError (list ByteRange)) :
  (len ranges + len k ≤ max → f (ranges ++ k) = bounded_app (ranges ++ k) k' max) →
  bounded_app ranges k max ≫= f = bounded_app ranges (k ++ k') max.
Proof.
  intros Hf. unfold bounded_app in *. rewrite length_app. rewrite length_app in Hf.
  destruct (Z.leb_spec (len ranges + len k) max).
  - simpl. rewrite Hf by done. rewrite Nat2Z.inj_add, Nat2Z.inj_add, Z.add_assoc, app_assoc. done.
  - simpl. destruct (Z.leb_spec (len ranges + Z.of_nat (length k + length k')) max); [lia|done].
Qed.

Lemma uncovered_loop_gaps l a e ranges max :
  Forall segment_ok l → 0 ≤ a → e ≤ u64_max → len ranges ≤ max →
  uncovered_loop a e l ranges max = bounded_app ranges (gaps a e l) max.
Proof.
  revert a ranges. induction l as [|s l IH]; intros a ranges Hl Ha He Hr; simpl.
  - destruct (Z.ltb_spec a e); [by rewrite push_range_bounded by lia|by rewrite bounded_app_nil].
  - apply Forall_cons in Hl as [Hs Hl]. destruct (Z.leb_spec (segment_end s) a); [by apply IH|].
    destruct (Z.leb_spec e (segment_start s)).
    { destruct (Z.ltb_spec a e); [by rewrite push_range_bounded by lia|by rewrite bounded_app_nil]. }
    pose proof (segment_start_ok s Hs).
    replace (if a <? segment_start s then push_range a (segment_start s) ranges max else mret ranges)
      with (bounded_app ranges (if a <? segment_start s then [span a (segment_start s)] else []) max)
      by (destruct (Z.ltb_spec a (segment_start s));
          [by rewrite push_range_bounded by lia|by rewrite bounded_app_nil]).
    apply bounded_app_bind. intros Hlen.
    replace (Z.max a (segment_end s) <? e) with (negb (e <=? Z.max a (segment_end s)))
      by (destruct (Z.leb_spec e (Z.max a (segment_end s))),
            (Z.ltb_spec (Z.max a (segment_end s)) e); simpl; lia || done).
    destruct (Z.leb_spec e (Z.max a (segment_end s))); simpl.
    + by rewrite bounded_app_nil by (rewrite length_app; lia).
    + apply IH; [done|lia|done|rewrite length_app; lia].
Qed.

Lemma rest_in_ranges x a e :
  in_ranges x (if a <? e then [span a e] else []) ↔ a ≤ x < e.
Proof.
  destruct (Z.ltb_spec a e).
  - rewrite in_ranges_cons, in_range_span. pose proof (in_ranges_nil x). naive_solver.
  - pose proof (in_ranges_nil x). split; [done|lia].
Qed.

Lemma rest_canonical a e :
  0 ≤ a → e ≤ u64_max → canonical (if a <? e then [span a e] else []).
Proof.
  intros. destruct (Z.ltb_spec a e); [|apply canonical_nil].
  split; repeat constructor; rewrite ?end_span; simpl; lia.
Qed.

Lemma rest_above r a e : r ∈ (if a <? e then [span a e] else []) → a ≤ range_start r.
Proof. destruct (a <? e); [|by intros ?%not_elem_of_nil]. by intros ->%list_elem_of_singleton. Qed.

Lemma gaps_above r a e l : r ∈ gaps a e l → a ≤ range_start r.
Proof.
  revert a. induction l as [|s l IH]; intros a; simpl; [apply rest_above|].
  destruct (_ <=? a); [apply IH|]. destruct (e <=? _); [apply rest_above|].
  intros [?%rest_above|Hr]%elem_of_app; [done|].
  destruct (e <=? _); [apply rest_above in Hr|apply IH in Hr]; lia.
Qed.

Lemma gaps_in_ranges x a e l :
  segments_ok l → (in_ranges x (gaps a e l) ↔ a ≤ x < e ∧ content l x = None).
Proof.
  revert a. induction l as [|s l IH]; intros a Hl; cbn [gaps].
  { rewrite rest_in_ranges. naive_solver. }
  pose proof Hl as (Hs & Hb & Hl')%segments_ok_cons. pose proof (segment_nonempty s Hs).
  destruct (Z.leb_spec (segment_end s) a).
  { rewrite IH by done. split; intros [? Hx]; (split; [done|]).
    - by rewrite content_cons_out by (unfold in_segment; lia).
    - by rewrite content_cons_out in Hx by (unfold in_segment; lia). }
  destruct (Z.leb_spec e (segment_start s)).
  { rewrite rest_in_ranges. split; [|naive_solver]. intros Hx. split; [done|].
    rewrite content_cons_out by (unfold in_segment; lia).
    apply (segments_before_content s); [done|lia]. }
  rewrite in_ranges_app, rest_in_ranges. rewrite Z.max_r by lia.
  assert (∀ P : Prop, (P ↔ segment_end s ≤ x < e ∧ content l x = None) →
    a ≤ x < segment_start s ∨ P ↔ a ≤ x < e ∧ content (s :: l) x = None) as Hgoal.
  { intros P ->. destruct (decide (in_segment x s)) as [Hx|Hx].
    - rewrite content_cons_in by done. apply segment_at_in in Hx as Hx'; [|done].
      unfold in_segment in Hx. split; [intros [?|[? ?]]; lia|]. intros [_ ?]. by destruct Hx'; simplify_eq.
    - rewrite content_cons_out by done. unfold in_segment in Hx.
      destruct (decide (x < segment_start s)); [|naive_solver lia].
      rewrite (segments_before_content s l) by (done || lia). naive_solver lia. }
  apply Hgoal. destruct (Z.leb_spec e (segment_end s)); [|by apply IH].
  rewrite rest_in_ranges. split; lia.
Qed.

Lemma gaps_canonical a e l :
  segments_ok l → 0 ≤ a → e ≤ u64_max → canonical (gaps a e l).
Proof.
  revert a. induction l as [|s l IH]; intros a Hl Ha He; cbn [gaps]; [by apply rest_canonical|].
  pose proof Hl as (Hs & Hb & Hl')%segments_ok_cons. pose proof (segment_nonempty s Hs).
  pose proof (segment_start_ok s Hs).
  destruct (Z.leb_spec (segment_end s) a); [by apply IH|].
  destruct (Z.leb_spec e (segment_start s)); [by apply rest_canonical|].
  rewrite Z.max_r by lia. apply canonical_app.
  - apply rest_canonical; lia.
  - destruct (Z.leb_spec e (segment_end s)); [apply rest_canonical; lia|apply IH; done || lia].
  - intros r r' Hr Hr'. destruct (Z.ltb_spec a (segment_start s)) as [|];
      [|by apply not_elem_of_nil in Hr]. apply list_elem_of_singleton in Hr as ->.
    unfold range_before. rewrite end_span.
    destruct (e <=? segment_end s); [apply rest_above in Hr'|apply gaps_above in Hr']; lia.
Qed.

Lemma gaps_nil a e l :
  segments_ok l → gaps a e l = [] → ∀ x, a ≤ x < e → is_Some (content l x).
Proof.
  intros Hl Hg x Hx. apply not_eq_None_Some. intros Hn.
  apply (in_ranges_nil x). rewrite <-Hg. by apply gaps_in_ranges.
Qed.

Lemma gaps_range_nil l r :
  segments_ok l → range_ok r →
  gaps (range_start r) (ByteRange_end_exclusive r) l = [] ↔ range_is_covered l r = true.
Proof.
  intros Hl Hr. rewrite range_is_covered_spec by done. split.
  - intros Hg x Hx. by eapply gaps_nil.
  - intros Hx. destruct (gaps _ _ l) as [|r' k] eqn:Hg; [done|].
    assert (canonical (r' :: k)) as (Hr' & _)%canonical_cons
      by (rewrite <-Hg; apply gaps_canonical; eauto with engine).
    destruct (proj1 (gaps_in_ranges (range_start r') (range_start r) (ByteRange_end_exclusive r) l Hl))
      as [Hin Hn].
    { rewrite Hg. apply in_ranges_cons. left. apply range_nonempty in Hr'. unfold in_range. lia. }
    apply Hx in Hin. rewrite Hn in Hin. by destruct Hin.
Qed.

(** What is left of canonical ranges. *)
Definition remaining_gaps (l : list Segment) (requested : list ByteRange) : list ByteRange :=
  requested ≫= λ r, gaps (range_start r) (ByteRange_end_exclusive r) l.

Lemma remaining_loop_gaps l requested ranges max :
  Forall segment_ok l → Forall range_ok requested → len ranges ≤ max →
  remaining_loop l requested ranges max = bounded_app ranges (remaining_gaps l requested) max.
Proof.
  intros Hl. revert ranges. induction requested as [|r requested IH]; intros ranges Hr Hlen.
  { simpl. by rewrite bounded_app_nil. }
  apply Forall_cons in Hr as [Hr Hrs].
  change (remaining_gaps l (r :: requested)) with
    (gaps (range_start r) (ByteRange_end_exclusive r) l ++ remaining_gaps l requested).
  cbn [remaining_loop]. unfold append_uncovered_ranges.
  rewrite uncovered_loop_gaps by eauto with engine.
  apply bounded_app_bind. intros Hlen'. apply IH; [done|]. rewrite length_app. lia.
Qed.

Lemma remaining_gaps_in_ranges x l requested :
  segments_ok l →
  (in_ranges x (remaining_gaps l requested) ↔ in_ranges x requested ∧ content l x = None).
Proof.
  intros Hl. induction requested as [|r requested IH].
  - pose proof (in_ranges_nil x). split; naive_solver.
  - change (remaining_gaps l (r :: requested)) with
      (gaps (range_start r) (ByteRange_end_exclusive r) l ++ remaining_gaps l requested).
    rewrite in_ranges_app, in_ranges_cons, IH, gaps_in_ranges by done. unfold in_range. tauto.
Qed.

Lemma remaining_gaps_canonical l requested :
  segments_ok l → canonical requested → canonical (remaining_gaps l requested).
Proof.
  intros Hl. induction requested as [|r requested IH]; intros Hr; [apply canonical_nil|].
  pose proof Hr as (Hr0 & Hb & Hr')%canonical_cons.
  change (remaining_gaps l (r :: requested)) with
    (gaps (range_start r) (ByteRange_end_exclusive r) l ++ remaining_gaps l requested).
  apply canonical_app; [apply gaps_canonical; eauto with engine|by apply IH|].
  intros r1 r2 H1 (r3 & H2 & H3)%list_elem_of_bind. rewrite Forall_forall in Hb.
  specialize (Hb _ H3). apply gaps_above in H2. unfold range_before in *.
  assert (canonical (gaps (range_start r) (ByteRange_end_exclusive r) l)) as [Hok _]
    by (apply gaps_canonical; eauto with engine).
  rewrite Forall_forall in Hok. specialize (Hok _ H1). apply range_nonempty in Hok.
  destruct (proj1 (gaps_in_ranges (ByteRange_end_exclusive r1 - 1) (range_start r)
    (ByteRange_end_exclusive r) l Hl)) as [? _]; [|lia].
  exists r1. split; [done|]. unfold in_range. lia.
Qed.

(** ** Windows of bytes *)

(** The byte a response holds for an offset. *)
Definition supplied (range : ByteRange) (bytes : list Z) (x : Z) : option Z :=
  if bool_decide (in_range x range) then bytes !! Z.to_nat (x - range_start range) else None.
#[global] Instance in_range_dec x r : Decision (in_range x r).
Proof. unfold in_range. apply _. Defined.

(** The bytes between two offsets, when all are known. *)
Definition bytes_at (c : Z → option Z) (r : ByteRange) : option (list Z) :=
  mapM c (seqZ (range_start r) (range_len r)).

Lemma window_lookup {A} (l : list A) i n k :
  (k < n)%nat → take n (drop i l) !! k = l !! (i + k)%nat.
Proof. intros. rewrite lookup_take_lt by done. by rewrite lookup_drop. Qed.

Lemma window_eq {A} (l k : list A) i j n :
  (i + n ≤ length l)%nat → (j + n ≤ length k)%nat →
  take n (drop i l) = take n (drop j k) ↔
  ∀ o, (o < n)%nat → l !! (i + o)%nat = k !! (j + o)%nat.
Proof.
  intros Hl Hk. split.
  - intros Heq o Ho. rewrite <-(window_lookup l i n) by done. by rewrite Heq, window_lookup.
  - intros H. apply list_eq. intros o. destruct (decide (o < n)%nat).
    + rewrite !window_lookup by done. by apply H.
    + rewrite !lookup_ge_None_2; [done|..]; rewrite length_take, length_drop; lia.
Qed.

Lemma bytes_at_Some c r bytes :
  0 ≤ range_len r →
  bytes_at c r = Some bytes ↔
  len bytes = range_len r ∧ ∀ x, in_range x r → c x = bytes !! Z.to_nat (x - range_start r).
Proof.
  intros Hr. unfold bytes_at, in_range, ByteRange_end_exclusive.
  rewrite mapM_Some, Forall2_lookup. split.
  - intros H. assert (length bytes = length (seqZ (range_start r) (range_len r))) as Hlen.
    { apply Nat.le_antisymm; apply Nat.nlt_ge; intros Hlt.
      - apply lookup_lt_is_Some in Hlt as Hs.
        specialize (H (length (seqZ (range_start r) (range_len r)))).
        rewrite (lookup_ge_None_2 (seqZ _ _)) in H by done. destruct Hs as [b Hb].
        rewrite Hb in H. inversion H.
      - apply lookup_lt_is_Some in Hlt as Hs.
        specialize (H (length bytes)). rewrite (lookup_ge_None_2 bytes) in H by done.
        destruct Hs as [b Hb]. rewrite Hb in H. inversion H. }
    rewrite length_seqZ in Hlen. split; [lia|]. intros x Hx.
    specialize (H (Z.to_nat (x - range_start r))).
    rewrite lookup_seqZ_lt in H by lia.
    replace (range_start r + Z.of_nat (Z.to_nat (x - range_start r))) with x in H by lia.
    inversion H; congruence.
  - intros [Hlen H] i. destruct (decide (Z.of_nat i < range_len r)) as [Hi|Hi].
    + rewrite lookup_seqZ_lt by lia. specialize (H (range_start r + Z.of_nat i) ltac:(lia)).
      replace (Z.to_nat (range_start r + Z.of_nat i - range_start r)) with i in H by lia.
      destruct (lookup_lt_is_Some_2 bytes i) as [b Hb]; [lia|]. rewrite Hb in H |- *.
      by constructor.
    + rewrite lookup_seqZ_ge, lookup_ge_None_2 by lia. constructor.
Qed.

Lemma segment_at_lookup x s :
  in_segment x s → segment_at x s = backing_bytes (segment_backing s) !! Z.to_nat (x - segment_start s).
Proof.
  unfold in_segment, segment_at. intros.
  replace (segment_start s <=? x) with true by (symmetry; apply Z.leb_le; lia).
  by replace (x <? segment_end s) with true by (symmetry; apply Z.ltb_lt; lia).
Qed.

(** A covered range lies in one segment. *)
Lemma covered_in_one l r :
  segments_ok l → range_ok r → (∀ x, in_range x r → is_Some (content l x)) →
  ∃ s, s ∈ l ∧ segment_start s ≤ range_start r ∧ ByteRange_end_exclusive r ≤ segment_end s.
Proof.
  intros Hl Hr Hx. pose proof (range_nonempty r Hr). unfold in_range in Hx.
  pose proof (Hx (range_start r) ltac:(lia)) as (s & Hs & Hin)%content_is_Some;
    [|by destruct Hl].
  exists s. split; [done|]. unfold in_segment in Hin. split; [lia|].
  destruct (Z.le_gt_cases (ByteRange_end_exclusive r) (segment_end s)) as [|Hlt]; [done|exfalso].
  pose proof (Hx (segment_end s) ltac:(lia)) as (s' & Hs' & Hin')%content_is_Some; [|by destruct Hl].
  clear Hx. unfold in_segment in Hin'. destruct Hl as [_ Hl].
  apply list_elem_of_split in Hs as (l1 & l2 & ->).
  apply StronglySorted_app in Hl as (H12 & _ & [_ H2]%StronglySorted_inv).
  apply elem_of_app in Hs' as [Hs'|[->|Hs']%elem_of_cons].
  - assert (segment_before s' s) by (apply H12; [done|left]). unfold segment_before in *. lia.
  - lia.
  - rewrite Forall_forall in H2. specialize (H2 _ Hs'). unfold segment_before in *. lia.
Qed.

Definition segments_fit `{Platform} (l : list Segment) : Prop :=
  Forall (λ s, segment_len s ≤ usize_max) l.

Lemma borrow_range_covered `{Platform} l identity r :
  segments_ok l → segments_fit l → range_ok r → range_is_covered l r = true →
  ∃ slice, borrow_range l identity r = Ok slice ∧
    slice_identity slice = identity ∧ slice_range slice = r ∧
    bytes_at (content l) r = Some (slice_bytes slice).
Proof.
  intros Hl Hfit Hr Hx. rewrite range_is_covered_spec in Hx by done.
  destruct (covered_in_one l r Hl Hr Hx) as (s0 & Hs0 & Hstart0 & Hend0). clear Hx.
  pose proof (range_nonempty r Hr) as Hne.
  induction l as [|s l IH]; [by apply not_elem_of_nil in Hs0|]. cbn [borrow_range].
  pose proof Hl as (Hs & Hb & Hl')%segments_ok_cons. apply Forall_cons in Hfit as [Hf Hfit].
  destruct (_ && _) eqn:Hin.
  - apply andb_prop in Hin as [? ?]. checked_facts. destruct Hs. unfold segment_len in *.
    destruct Hr. unfold ByteRange_end_exclusive in *.
    unfold try_from at 1. rewrite (proj2 (Z.leb_le 0 _)), (proj2 (Z.leb_le _ usize_max)) by lia.
    simpl. unfold ByteSlice_new, try_from.
    rewrite (proj2 (Z.leb_le 0 _)), (proj2 (Z.leb_le _ usize_max)) by lia. simpl.
    unfold checked_add. rewrite (proj2 (Z.leb_le _ _)) by lia. simpl.
    rewrite (proj2 (Z.ltb_ge _ _)) by lia. eexists. split; [done|]. split; [done|].
    split; [done|]. unfold slice_bytes. simpl. apply bytes_at_Some; [lia|].
    rewrite length_take, length_drop. split; [lia|]. unfold in_range, ByteRange_end_exclusive.
    intros x Hx. rewrite window_lookup by lia. change (content (s :: l) x =
      backing_bytes (segment_backing s) !!
        (Z.to_nat (range_start r - segment_start s) + Z.to_nat (x - range_start r))%nat).
    rewrite content_cons_in; [|done|unfold in_segment; lia]. rewrite segment_at_lookup by (unfold in_segment; lia).
    f_equal. lia.
  - apply elem_of_cons in Hs0 as [->|Hs0].
    { apply andb_false_iff in Hin as [?|?]; checked_facts; lia. }
    destruct (IH Hl' Hfit Hs0) as (slice & -> & ? & ? & Hc). exists slice. split_and!; try done.
    apply bytes_at_Some; [destruct Hr; lia|]. apply bytes_at_Some in Hc as [Hlen Hc]; [|destruct Hr; lia].
    split; [done|]. intros x Hx. rewrite <-Hc by done. apply content_cons_out.
    rewrite Forall_forall in Hb. specialize (Hb _ Hs0).
    unfold segment_before, in_segment, in_range in *. lia.
Qed.

(** ** Conflicts *)

Lemma try_from_small max v : 0 ≤ v ≤ max → try_from max v = Some v.
Proof. intros. by apply try_from_Some. Qed.

Lemma checked_add_small max a b : a + b ≤ max → checked_add max a b = Some (a + b).
Proof. intros. by apply checked_add_Some. Qed.

Lemma slice_of_small bytes a b :
  a ≤ b → b ≤ len bytes → slice_of bytes a b = Some (take (Z.to_nat (b - a)) (drop (Z.to_nat a) bytes)).
Proof. intros. unfold slice_of. by rewrite (proj2 (Z.leb_le a b)), (proj2 (Z.leb_le b _)) by done. Qed.

(** The response and the store hold different bytes at the offset. *)
Definition differs (c : Z → option Z) (range : ByteRange) (bytes : list Z) (x : Z) : Prop :=
  in_range x range ∧ is_Some (c x) ∧ c x ≠ supplied range bytes x.

Lemma overlap_conflicts_spec `{Platform} s range bytes :
  segment_ok s → segment_len s ≤ usize_max → range_len range ≤ usize_max →
  len bytes = range_len range →
  ∃ b, overlap_conflicts s range bytes = Ok b ∧
    (b = true ↔ ∃ x, differs (λ x, segment_at x s) range bytes x).
Proof.
  intros Hs Hfit Hr Hlen. unfold overlap_conflicts.
  assert (∀ x, differs (λ x, segment_at x s) range bytes x ↔
    in_range x range ∧ in_segment x s ∧ segment_at x s ≠ supplied range bytes x) as Hd.
  { intros x. unfold differs. by rewrite segment_at_in. }
  unfold segment_len, in_segment, in_range, ByteRange_end_exclusive in *.
  destruct Hs as [_ Hne Hb _]. unfold segment_len in *.
  destruct (Z.leb_spec (segment_end s `min` (range_start range + range_len range))
    (segment_start s `max` range_start range)).
  { exists false. split; [done|]. split; [done|]. intros (x & (? & ? & _)%Hd). lia. }
  rewrite !try_from_small by lia. simpl. rewrite !checked_add_small by lia. simpl.
  rewrite !slice_of_small by lia. simpl. eexists. split; [done|].
  rewrite negb_true_iff, bool_decide_eq_false.
  set (a := segment_start s `max` range_start range) in *.
  set (e := segment_end s `min` (range_start range + range_len range)) in *.
  replace (a - segment_start s + (e - a) - (a - segment_start s)) with (e - a) by lia.
  replace (a - range_start range + (e - a) - (a - range_start range)) with (e - a) by lia.
  rewrite window_eq by lia. split.
  - intros Hn. destruct (decide (Forall (λ x, segment_at x s = supplied range bytes x) (seqZ a (e - a))))
      as [Hall|Hex].
    + exfalso. apply Hn. intros o Ho. rewrite Forall_forall in Hall.
      specialize (Hall (a + Z.of_nat o) ltac:(apply elem_of_seqZ; lia)).
      rewrite segment_at_lookup in Hall by (unfold in_segment; lia). unfold supplied in Hall.
      rewrite bool_decide_true in Hall by (unfold in_range, ByteRange_end_exclusive; lia).
      replace (Z.to_nat (a - segment_start s) + o)%nat with (Z.to_nat (a + Z.of_nat o - segment_start s)) by lia.
      replace (Z.to_nat (a - range_start range) + o)%nat with (Z.to_nat (a + Z.of_nat o - range_start range)) by lia.
      done.
    + apply not_Forall_Exists in Hex; [|apply _]. apply Exists_exists in Hex as (x & Hx & Hne').
      exists x. apply Hd. apply elem_of_seqZ in Hx. split_and!; try lia. done.
  - intros (x & (Hx1 & Hx2 & Hne')%Hd) Hall. apply Hne'.
    rewrite segment_at_lookup by done. unfold supplied.
    rewrite bool_decide_true by (unfold in_range, ByteRange_end_exclusive; lia).
    specialize (Hall (Z.to_nat (x - a)) ltac:(lia)).
    replace (Z.to_nat (x - segment_start s)) with (Z.to_nat (a - segment_start s) + Z.to_nat (x - a))%nat by lia.
    by replace (Z.to_nat (x - range_start range)) with (Z.to_nat (a - range_start range) + Z.to_nat (x - a))%nat by lia.
Qed.

Lemma conflict_loop_spec `{Platform} range bytes l :
  segments_ok l → segments_fit l → range_len range ≤ usize_max → len bytes = range_len range →
  ∃ b, conflict_loop range bytes l = Ok b ∧ (b = true ↔ ∃ x, differs (content l) range bytes x).
Proof.
  intros Hl Hfit Hr Hlen. induction l as [|s l IH].
  { exists false. split; [done|]. split; [done|]. by intros (x & _ & [] & _). }
  pose proof Hl as (Hs & Hb & Hl')%segments_ok_cons. apply Forall_cons in Hfit as [Hf Hfit].
  destruct (IH Hl' Hfit) as (b & Hb1 & Hb2). clear IH. cbn [conflict_loop].
  assert ((∃ x, differs (content (s :: l)) range bytes x) ↔
    (∃ x, differs (λ x, segment_at x s) range bytes x) ∨ ∃ x, differs (content l) range bytes x) as Hd.
  { unfold differs. split.
    - intros (x & Hx & Hc & Hne). destruct (decide (in_segment x s)) as [Hin|Hin].
      + left. exists x. by rewrite content_cons_in in Hc, Hne.
      + right. exists x. by rewrite content_cons_out in Hc, Hne.
    - intros [(x & Hx & Hc & Hne)|(x & Hx & Hc & Hne)]; exists x.
      + apply segment_at_in in Hc as Hin; [|done]. by rewrite content_cons_in.
      + rewrite content_cons_out; [done|]. intros Hin.
        rewrite (segments_before_content s) in Hc; [by destruct Hc|done|]. unfold in_segment in *. lia. }
  setoid_rewrite Hd. clear Hd.
  destruct (ranges_overlap _ _ _ _) eqn:Ho.
  - destruct (overlap_conflicts_spec s range bytes) as (b' & -> & Hb'); [done..|]. simpl.
    destruct b'; [exists true|exists b]; split; try done; rewrite <-?Hb2, <-Hb'; naive_solver.
  - simpl. exists b. split; [done|]. rewrite Hb2. split; [by right|]. intros [(x & Hx & Hc & _)|]; [|done].
    apply segment_at_in in Hc; [|done]. exfalso. unfold ranges_overlap in Ho.
    unfold in_range, in_segment in *. apply andb_false_iff in Ho as [?|?]; checked_facts; lia.
Qed.
