(* ===== verification/RangeMerge.v ===== *)
(** * Merging a response into the segments

    [supply] replaces the segments a response overlaps or touches by one segment
    that holds their union. The result is sorted and separated again, and holds
    the bytes of the response where it has some and the old ones elsewhere. *)

From stdpp Require Import base list numbers option sorting sets.
From S2P Require Import Prelude.
From S2P Require Import SourceTypes.
From S2P Require Import RangeTypes.
From S2P Require Import RangeStore.
From S2P Require Import RangeSegments.

Notation touched range l := (filter (λ s, touches range s = true) l).
Notation untouched range l := (filter (λ s, ¬ touches range s = true) l).
Notation total_len l := (zsum segment_len l).

(** ** The affected segments *)

Fixpoint touched_indices (range : ByteRange) (i : nat) (l : list Segment) : list nat :=
  match l with
  | [] => []
  | s :: l =>
      if touches range s then i :: touched_indices range (S i) l else touched_indices range (S i) l
  end.

Definition union_from (a : Affected) (range : ByteRange) (i : nat) (l : list Segment) : Affected :=
  {| affected := affected a ++ touched_indices range i l;
     union_start := foldl (λ u s, Z.min u (segment_start s)) (union_start a) (touched range l);
     union_end := foldl (λ u s, Z.max u (segment_end s)) (union_end a) (touched range l);
     removed_bytes := removed_bytes a + total_len (touched range l) |}.

Lemma total_len_nonneg l : Forall segment_ok l → 0 ≤ total_len l.
Proof.
  intros Hl. apply zsum_nonneg. eapply Forall_impl; [exact Hl|]. intros s [].
  unfold segment_len. simpl. lia.
Qed.

Lemma affected_loop_spec max range i a l :
  Forall segment_ok l → removed_bytes a + total_len l ≤ u64_max →
  affected_loop max range i a l = Ok (union_from a range i l).
Proof.
  revert i a. induction l as [|s l IH]; intros i a Hl Hsum; cbn [affected_loop].
  { unfold union_from. simpl. rewrite app_nil_r, Z.add_0_r. by destruct a. }
  apply Forall_cons in Hl as [Hs Hl]. pose proof (total_len_nonneg l Hl). simpl in Hsum.
  assert (0 < segment_len s) by (destruct Hs; unfold segment_len; lia).
  unfold union_from. cbn [touched_indices]. destruct (touches range s) eqn:Ht.
  - rewrite filter_cons_True by done. rewrite checked_add_small by lia. simpl.
    rewrite IH; simpl; [|done|lia].
    unfold union_from. simpl. by rewrite <-app_assoc, Z.add_assoc.
  - rewrite filter_cons_False by congruence. apply IH; [done|lia].
Qed.

Lemma touched_indices_segments range pre l :
  mapM (λ i, (pre ++ l) !! i) (touched_indices range (length pre) l) = Some (touched range l).
Proof.
  revert pre. induction l as [|s l IH]; intros pre; [done|]. cbn [touched_indices].
  specialize (IH (pre ++ [s])). rewrite length_app in IH. simpl in IH.
  rewrite Nat.add_1_r, <-app_assoc in IH. simpl in IH.
  destruct (touches range s) eqn:Ht; [|by rewrite filter_cons_False by congruence].
  rewrite filter_cons_True by done. simpl.
  rewrite list_lookup_middle by done. simpl. by rewrite IH.
Qed.

Lemma touched_indices_ge range i l k : k ∈ touched_indices range i l → (i ≤ k)%nat.
Proof.
  revert i. induction l as [|s l IH]; intros i; simpl; [by intros ?%not_elem_of_nil|].
  destruct (touches range s).
  - intros [->|Hk]%elem_of_cons; [done|]. apply IH in Hk. lia.
  - intros Hk%IH. lia.
Qed.

Lemma unaffected_loop_spec range pre i l :
  (∀ k, k ∈ pre → (k < i)%nat) →
  unaffected_loop (pre ++ touched_indices range i l) i l = untouched range l.
Proof.
  revert pre i. induction l as [|s l IH]; intros pre i Hpre; [done|].
  cbn [unaffected_loop touched_indices].
  assert (∀ k, k ∈ pre ++ [i] → (k < S i)%nat).
  { intros k Hk. apply elem_of_app in Hk as [Hk%Hpre|Hk%list_elem_of_singleton]; lia. }
  destruct (touches range s) eqn:Ht.
  - rewrite bool_decide_true by set_solver. rewrite filter_cons_False by naive_solver.
    specialize (IH (pre ++ [i]) (S i)). rewrite <-app_assoc in IH. by apply IH.
  - rewrite filter_cons_True by congruence. rewrite bool_decide_false.
    + rewrite IH; [done|]. intros k Hk%Hpre. lia.
    + intros Hi. apply elem_of_app in Hi as [Hi%Hpre|Hi%touched_indices_ge]; lia.
Qed.

Lemma touched_indices_nil range i l : touched_indices range i l = [] ↔ touched range l = [].
Proof.
  revert i. induction l as [|s l IH]; intros i; [done|]. cbn [touched_indices].
  destruct (touches range s) eqn:Ht; [by rewrite filter_cons_True|].
  rewrite filter_cons_False by congruence. apply IH.
Qed.

(** ** The union *)

Lemma foldl_min l u :
  let m := foldl (λ u s, Z.min u (segment_start s)) u l in
  m ≤ u ∧ Forall (λ s, m ≤ segment_start s) l ∧ (m = u ∨ ∃ s, s ∈ l ∧ m = segment_start s).
Proof.
  revert u. induction l as [|s l IH]; intros u; simpl.
  - split_and!; [lia|constructor|by left].
  - destruct (IH (Z.min u (segment_start s))) as (? & Hl & Hm). split_and!; [lia| |].
    + constructor; [lia|done].
    + destruct Hm as [Hm|(s' & ? & ?)].
      * destruct (Z.min_spec u (segment_start s)) as [[_ Hu]|[_ Hu]].
        -- left. congruence.
        -- right. exists s. split; [left|congruence].
      * right. exists s'. split; [by right|done].
Qed.

Lemma foldl_max l u :
  let m := foldl (λ u s, Z.max u (segment_end s)) u l in
  u ≤ m ∧ Forall (λ s, segment_end s ≤ m) l ∧ (m = u ∨ ∃ s, s ∈ l ∧ m = segment_end s).
Proof.
  revert u. induction l as [|s l IH]; intros u; simpl.
  - split_and!; [lia|constructor|by left].
  - destruct (IH (Z.max u (segment_end s))) as (? & Hl & Hm). split_and!; [lia| |].
    + constructor; [lia|done].
    + destruct Hm as [Hm|(s' & ? & ?)].
      * destruct (Z.max_spec u (segment_end s)) as [[_ Hu]|[_ Hu]].
        -- right. exists s. split; [left|congruence].
        -- left. congruence.
      * right. exists s'. split; [by right|done].
Qed.

(** The affected segments of [supply]. *)
Definition union_of (range : ByteRange) (l : list Segment) : Affected :=
  union_from {| affected := []; union_start := range_start range;
                union_end := ByteRange_end_exclusive range; removed_bytes := 0 |} range 0 l.

Lemma elem_of_touched s range (l : list Segment) :
  s ∈ touched range l ↔
  s ∈ l ∧ segment_start s ≤ ByteRange_end_exclusive range ∧ range_start range ≤ segment_end s.
Proof.
  rewrite list_elem_of_filter. unfold touches. rewrite andb_true_iff, !Z.leb_le. tauto.
Qed.

Lemma elem_of_untouched s range (l : list Segment) :
  s ∈ untouched range l ↔
  s ∈ l ∧ (ByteRange_end_exclusive range < segment_start s ∨ segment_end s < range_start range).
Proof.
  rewrite list_elem_of_filter. unfold touches. rewrite andb_true_iff, !Z.leb_le.
  split; intros [? ?]; (split; [|done]) || (split; [done|]); lia.
Qed.

Section union.
Context (range : ByteRange) (l : list Segment).
Context (Hrange : range_ok range) (Hl : segments_ok l).

Let U := union_start (union_of range l).
Let V := union_end (union_of range l).

Lemma union_bounds :
  0 ≤ U ≤ range_start range ∧ ByteRange_end_exclusive range ≤ V ∧
  (∀ s, s ∈ touched range l → U ≤ segment_start s ∧ segment_end s ≤ V).
Proof.
  destruct (foldl_min (touched range l) (range_start range)) as (HU & HsU & HU').
  destruct (foldl_max (touched range l) (ByteRange_end_exclusive range)) as (HV & HsV & _).
  rewrite Forall_forall in *. subst U V. simpl. split_and!; [|done|done|naive_solver].
  destruct HU' as [->|(s & [Hs _]%elem_of_touched & ->)]; [by apply range_start_ok|].
  destruct Hl as [Hok _]. rewrite Forall_forall in Hok. by apply segment_start_ok, Hok.
Qed.

(** The union has exactly the offsets of the response and of the affected segments. *)
Lemma union_exact x :
  U ≤ x < V ↔ in_range x range ∨ ∃ s, s ∈ touched range l ∧ in_segment x s.
Proof.
  destruct union_bounds as (HU & HV & Hs). split.
  - intros Hx. destruct (decide (in_range x range)) as [|Hn]; [by left|right].
    destruct (foldl_min (touched range l) (range_start range)) as (_ & _ & HU').
    destruct (foldl_max (touched range l) (ByteRange_end_exclusive range)) as (_ & _ & HV').
    subst U V. simpl in *. unfold in_range, in_segment in *.
    destruct (decide (x < range_start range)).
    + destruct HU' as [|(s & Hs' & HU')]; [lia|]. exists s. split; [done|].
      apply elem_of_touched in Hs'. lia.
    + destruct HV' as [|(s & Hs' & HV')]; [lia|]. exists s. split; [done|].
      apply elem_of_touched in Hs'. lia.
  - unfold in_range, in_segment. intros [?|(s & [? ?]%Hs & ?)]; lia.
Qed.

Lemma union_separated s : s ∈ untouched range l → segment_end s < U ∨ V < segment_start s.
Proof.
  intros Hs. pose proof Hs as [Hsl Hcase]%elem_of_untouched.
  destruct Hl as [Hok Hsort]. rewrite Forall_forall in Hok.
  pose proof (segment_nonempty s (Hok _ Hsl)).
  assert (∀ t, t ∈ touched range l → segment_before s t ∨ segment_before t s) as Hst.
  { intros t Ht. pose proof Ht as [Htl _]%elem_of_touched.
    apply list_elem_of_split in Hsl as (l1 & l2 & ->).
    apply StronglySorted_app in Hsort as (H12 & _ & [_ H2]%StronglySorted_inv).
    rewrite Forall_forall in H2. apply elem_of_app in Htl as [?|[->|?]%elem_of_cons].
    - right. apply H12; [done|left].
    - apply elem_of_touched in Ht. lia.
    - left. by apply H2. }
  destruct (foldl_min (touched range l) (range_start range)) as (_ & _ & HU').
  destruct (foldl_max (touched range l) (ByteRange_end_exclusive range)) as (_ & _ & HV').
  subst U V. simpl in *. unfold segment_before in *. pose proof (range_nonempty range Hrange).
  destruct Hcase as [Hc|Hc].
  - right. destruct HV' as [HV'|(t & Ht & HV')]; [lia|].
    pose proof (Hok t (proj1 (proj1 (elem_of_touched _ _ _) Ht))) as Htok.
    pose proof (segment_nonempty t Htok). apply elem_of_touched in Ht as Ht'.
    destruct (Hst t Ht); lia.
  - left. destruct HU' as [HU'|(t & Ht & HU')]; [lia|].
    pose proof (Hok t (proj1 (proj1 (elem_of_touched _ _ _) Ht))) as Htok.
    pose proof (segment_nonempty t Htok). apply elem_of_touched in Ht as Ht'.
    destruct (Hst t Ht); lia.
Qed.
End union.

(** ** Copies *)

Lemma overwrite_lookup {A} (u src : list A) i k :
  (i + length src ≤ length u)%nat →
  (take i u ++ src ++ drop (i + length src) u) !! k =
  if decide (i ≤ k < i + length src)%nat then src !! (k - i)%nat else u !! k.
Proof.
  intros Hlen. case_decide.
  - rewrite lookup_app_r by (rewrite length_take; lia). rewrite length_take, Nat.min_l by lia.
    by rewrite lookup_app_l by lia.
  - destruct (decide (k < i)%nat).
    + rewrite lookup_app_l by (rewrite length_take; lia). by rewrite lookup_take_lt.
    + rewrite lookup_app_r by (rewrite length_take; lia). rewrite length_take, Nat.min_l by lia.
      rewrite lookup_app_r by lia. rewrite lookup_drop. f_equal. lia.
Qed.

(** The buffer of the union, as a function of offsets. *)
Definition buffer_at (start : Z) (u : list Z) (x : Z) : option Z := u !! Z.to_nat (x - start).

Lemma copy_into_union_ok `{Platform} start u a src :
  start ≤ a → a + len src ≤ start + len u → len u ≤ usize_max →
  ∃ u', copy_into_union start u a src = Ok u' ∧ length u' = length u ∧
    ∀ x, start ≤ x → buffer_at start u' x =
      if decide (a ≤ x < a + len src) then src !! Z.to_nat (x - a) else buffer_at start u x.
Proof.
  intros Ha He Hu. unfold copy_into_union. rewrite try_from_small by lia. simpl.
  rewrite checked_add_small by lia. simpl. rewrite (proj2 (Z.ltb_ge _ _)) by lia. simpl.
  replace (Z.to_nat (a - start + len src)) with (Z.to_nat (a - start) + length src)%nat by lia.
  eexists. split; [done|]. split.
  - rewrite !length_app, length_take, length_drop. lia.
  - intros x Hx. unfold buffer_at. rewrite overwrite_lookup by lia.
    repeat case_decide; try lia; [|done]. f_equal. lia.
Qed.

Lemma copy_segments_ok `{Platform} start u l :
  segments_ok l → Forall (λ s, start ≤ segment_start s ∧ segment_end s ≤ start + len u) l →
  len u ≤ usize_max →
  ∃ u', copy_segments start u l = Ok u' ∧ length u' = length u ∧
    ∀ x, start ≤ x → buffer_at start u' x =
      match content l x with Some b => Some b | None => buffer_at start u x end.
Proof.
  revert u. induction l as [|s l IH]; intros u Hl Hin Hu; [by exists u|].
  pose proof Hl as (Hs & Hb & Hl')%segments_ok_cons. apply Forall_cons in Hin as [[? ?] Hin].
  pose proof (segment_bytes_len s Hs) as Hlen. unfold segment_len in Hlen.
  destruct (copy_into_union_ok start u (segment_start s) (backing_bytes (segment_backing s)))
    as (u1 & Hc & Hl1 & Hx1); [lia..|].
  destruct (IH u1) as (u2 & Hc2 & Hl2 & Hx2); [done|by rewrite Hl1|lia|].
  exists u2. cbn [copy_segments]. rewrite Hc. simpl. split; [done|]. split; [lia|].
  intros x Hx. rewrite Hx2, Hx1 by done. fold (content l x). rewrite Hlen.
  replace (segment_start s + (segment_end s - segment_start s)) with (segment_end s) by lia.
  unfold segment_at. destruct (content l x) as [b|] eqn:Hc'.
  - replace ((segment_start s <=? x) && (x <? segment_end s)) with false; [done|].
    symmetry. apply andb_false_iff. rewrite Z.ltb_ge. right.
    destruct (Z.le_gt_cases x (segment_end s)); [|lia].
    by rewrite (segments_before_content s) in Hc'.
  - case_decide.
    + rewrite (proj2 (Z.leb_le _ _)), (proj2 (Z.ltb_lt _ _)) by lia. simpl.
      destruct (lookup_lt_is_Some_2 (backing_bytes (segment_backing s)) (Z.to_nat (x - segment_start s)))
        as [b ->]; [lia|done].
    + replace ((segment_start s <=? x) && (x <? segment_end s)) with false; [done|].
      symmetry. apply andb_false_iff. rewrite Z.ltb_ge, Z.leb_gt. lia.
Qed.

(** ** Insertion *)

Lemma insertion_split a l :
  StronglySorted segment_before l → Forall segment_ok l →
  take (insertion_point a l) l = filter (λ s, segment_start s < a) l ∧
  drop (insertion_point a l) l = filter (λ s, ¬ segment_start s < a) l.
Proof.
  unfold insertion_point. induction l as [|s l IH]; [done|].
  intros [Hl Hb]%StronglySorted_inv [Hs Hok]%Forall_cons. destruct (IH Hl Hok) as [IH1 IH2].
  destruct (decide (segment_start s < a)) as [Ha|Ha].
  - rewrite filter_cons_True by done. simpl. rewrite IH1, IH2.
    rewrite filter_cons_False by (intros ?; done). done.
  - rewrite filter_cons_False by done.
    assert (filter (λ s, segment_start s < a) l = []) as ->.
    { apply filter_none. intros t Ht. rewrite Forall_forall in Hb, Hok. specialize (Hb _ Ht).
      unfold segment_before in Hb. destruct Hs. lia. }
    simpl. split; [done|]. rewrite filter_cons_True by done. f_equal.
    symmetry. apply filter_all. intros t Ht. rewrite Forall_forall in Hb, Hok.
    specialize (Hb _ Ht). unfold segment_before in Hb. destruct Hs. lia.
Qed.

Section insertion.
Context (range : ByteRange) (l : list Segment) (new : Segment).
Context (Hrange : range_ok range) (Hl : segments_ok l) (Hnew : segment_ok new).
Context (Hstart : segment_start new = union_start (union_of range l)).
Context (Hend : segment_end new = union_end (union_of range l)).

Let l' := insert_segment new (untouched range l).

Lemma untouched_ok : segments_ok (untouched range l).
Proof. eapply segments_ok_sublist; [apply sublist_filter|done]. Qed.

Lemma insert_segment_split :
  l' = filter (λ s, segment_start s < segment_start new) (untouched range l)
       ++ [new] ++ filter (λ s, ¬ segment_start s < segment_start new) (untouched range l).
Proof.
  unfold l', insert_segment. destruct untouched_ok as [Hok Hs].
  by destruct (insertion_split (segment_start new) _ Hs Hok) as [-> ->].
Qed.

Lemma insert_segment_ok : segments_ok l'.
Proof.
  rewrite insert_segment_split. destruct untouched_ok as [Hok Hs].
  assert (∀ s, s ∈ untouched range l → segment_end s < segment_start new ∨ segment_end new < segment_start s)
    as Hsep by (rewrite Hstart, Hend; by apply union_separated).
  rewrite Forall_forall in Hok. pose proof (segment_nonempty new Hnew). split.
  - rewrite !Forall_app, Forall_singleton. split_and!; [|done|]; apply Forall_forall;
      intros s [_ ?]%list_elem_of_filter; by apply Hok.
  - apply StronglySorted_app_2; [|by eapply StronglySorted_sublist; [apply sublist_filter|]|].
    + intros s t [Hsn Hsu]%list_elem_of_filter Ht. unfold segment_before.
      pose proof (segment_nonempty s (Hok _ Hsu)). apply elem_of_app in Ht as [Ht|Ht].
      * apply list_elem_of_singleton in Ht as ->. destruct (Hsep s Hsu); lia.
      * apply list_elem_of_filter in Ht as [Htn Htu].
        pose proof (segment_nonempty t (Hok _ Htu)). destruct (Hsep s Hsu), (Hsep t Htu); lia.
    + simpl. constructor; [by eapply StronglySorted_sublist; [apply sublist_filter|]|].
      apply Forall_forall. intros s [Hsn Hsu]%list_elem_of_filter. unfold segment_before.
      pose proof (segment_nonempty s (Hok _ Hsu)). destruct (Hsep s Hsu); lia.
Qed.

Lemma insert_segment_elem s : s ∈ l' ↔ s = new ∨ s ∈ untouched range l.
Proof.
  rewrite insert_segment_split, !elem_of_app, list_elem_of_singleton, !list_elem_of_filter.
  destruct (decide (segment_start s < segment_start new)); tauto.
Qed.

Lemma insert_segment_sum (f : Segment → Z) :
  zsum f l' = zsum f l - zsum f (touched range l) + f new.
Proof.
  rewrite insert_segment_split, !zsum_app. simpl.
  rewrite (zsum_filter f (λ s, touches range s = true) l).
  rewrite (zsum_filter f (λ s, segment_start s < segment_start new) (untouched range l)). lia.
Qed.

Lemma insert_segment_length : len l' = len l - len (touched range l) + 1.
Proof.
  rewrite insert_segment_split, !length_app. simpl length.
  pose proof (len_filter_complement (λ s, touches range s = true) l).
  pose proof (len_filter_complement (λ s, segment_start s < segment_start new) (untouched range l)).
  lia.
Qed.

Lemma insert_segment_content x :
  content l' x = if decide (in_segment x new) then segment_at x new else content l x.
Proof.
  case_decide as Hx.
  - apply content_elem; [apply insert_segment_ok|apply insert_segment_elem; by left|done].
  - pose proof insert_segment_ok as Hok'. pose proof Hok' as [Hf' _]. pose proof Hl as [Hf _].
    destruct (content l x) as [b|] eqn:Hc.
    + assert (is_Some (content l x)) as (s & Hs & Hin)%content_is_Some by (by rewrite Hc); [|done].
      rewrite <-Hc, (content_elem l s x) by done. apply content_elem; [done| |done].
      apply insert_segment_elem. right. apply list_elem_of_filter. split; [|done].
      intros Ht. apply Hx. unfold in_segment. rewrite Hstart, Hend. apply union_exact; [done..|].
      right. exists s. split; [|done]. by apply list_elem_of_filter.
    + apply content_None; [done|]. rewrite content_None in Hc by done.
      intros s [->|[_ Hs]%list_elem_of_filter]%insert_segment_elem; [done|by apply Hc].
Qed.
End insertion.

(** The bytes after a response is merged. *)
Definition overlay (c : Z → option Z) (range : ByteRange) (bytes : list Z) (x : Z) : option Z :=
  if decide (in_range x range) then supplied range bytes x else c x.

Lemma supplied_in range bytes x :
  in_range x range → supplied range bytes x = bytes !! Z.to_nat (x - range_start range).
Proof. intros. unfold supplied. by rewrite bool_decide_true. Qed.

Lemma supplied_is_Some range bytes x :
  len bytes = range_len range → in_range x range → is_Some (supplied range bytes x).
Proof.
  intros Hlen Hx. rewrite supplied_in by done. apply lookup_lt_is_Some.
  unfold in_range, ByteRange_end_exclusive in Hx. lia.
Qed.

(** The bytes [merge_segments] builds are those of the overlay. *)
Lemma merged_bytes_ok `{Platform} range bytes l :
  range_ok range → segments_ok l → len bytes = range_len range →
  let a := union_of range l in
  union_end a - union_start a ≤ usize_max →
  ∃ u1 u2,
    copy_segments (union_start a) (replicate (Z.to_nat (union_end a - union_start a)) 0)
      (touched range l) = Ok u1 ∧
    copy_into_union (union_start a) u1 (range_start range) bytes = Ok u2 ∧
    len u2 = union_end a - union_start a ∧
    ∀ x, union_start a ≤ x < union_end a → buffer_at (union_start a) u2 x = overlay (content l) range bytes x.
Proof.
  intros Hr Hl Hlen a Hfit. destruct (union_bounds range l Hr Hl) as ([Ha0 Ha] & He & Hs).
  fold a in Ha0, Ha, He, Hs. pose proof (range_nonempty range Hr).
  destruct (copy_segments_ok (union_start a) (replicate (Z.to_nat (union_end a - union_start a)) 0)
    (touched range l)) as (u1 & Hc1 & Hl1 & Hx1).
  { eapply segments_ok_sublist; [apply sublist_filter|done]. }
  { apply Forall_forall. intros s [? ?]%Hs. rewrite length_replicate. lia. }
  { rewrite length_replicate. lia. }
  rewrite length_replicate in Hl1.
  destruct (copy_into_union_ok (union_start a) u1 (range_start range) bytes) as (u2 & Hc2 & Hl2 & Hx2);
    [lia|unfold ByteRange_end_exclusive in *; lia|lia|].
  exists u1, u2. split_and!; [done..|lia|]. intros x Hx. rewrite Hx2 by lia.
  unfold overlay. pose proof Hx as Hxu. apply union_exact in Hxu; [|done..].
  unfold in_range, ByteRange_end_exclusive in *. rewrite Hlen. case_decide.
  - rewrite decide_True by done. by rewrite supplied_in by (unfold in_range, ByteRange_end_exclusive; lia).
  - rewrite decide_False by done. rewrite Hx1 by lia. destruct Hxu as [|(s & Hst & Hxs)]; [lia|].
    apply list_elem_of_filter in Hst as Hsl. destruct Hsl as [_ Hsl].
    assert (segments_ok (touched range l)) as Ht
      by (eapply segments_ok_sublist; [apply sublist_filter|done]).
    rewrite (content_elem _ s x Ht) by done. rewrite (content_elem l s x) by done.
    destruct Hl as [Hok _]. rewrite Forall_forall in Hok.
    apply segment_at_in in Hxs; [|by apply Hok]. by destruct Hxs as [? ->].
Qed.
