(* ===== verification/RangeInv.v ===== *)
(** * Invariant of the byte range store, its primitive runs, and settling

    What every reachable state satisfies, and the outcomes of the steps the methods
    share: the atomic flag, reservations, allocations, observed lengths. The state
    after an accepted response: every waiting ticket keeps what is still missing, or
    becomes ready when nothing is, or when what is missing lies beyond the length now
    known. *)

From stdpp Require Import base list numbers option sorting sets.
From S2P Require Import Prelude.
From S2P Require Import SourceTypes.
From S2P Require Import RangeTypes.
From S2P Require Import RangeStore.
From S2P Require Import RangeSegments.
From S2P Require Import RangeMerge.

(** ** Limits *)

(** What [validate] establishes. *)
Record range_limits_ok (c : RangeStoreLimits) : Prop := {
  rl_input : 0 < range_max_input_bytes c ≤ HARD_MAX_INPUT_BYTES;
  rl_read : 0 < range_max_read_bytes c ≤ HARD_MAX_READ_BYTES;
  rl_read_input : range_max_read_bytes c ≤ range_max_input_bytes c;
  rl_cached : range_max_read_bytes c ≤ range_max_cached_bytes c ≤ HARD_MAX_CACHED_BYTES;
  rl_resident : range_max_cached_bytes c ≤ range_max_resident_bytes c ≤ HARD_MAX_RESIDENT_BYTES;
  rl_segments : 0 < range_max_segments c ≤ HARD_MAX_SEGMENTS;
  rl_tickets : 0 < range_max_tickets c ≤ HARD_MAX_TICKETS;
  rl_subscribers : 0 < range_max_subscribers_per_ticket c ≤ HARD_MAX_SUBSCRIBERS_PER_TICKET;
  rl_subscriptions : 0 < range_max_total_subscriptions c ≤ HARD_MAX_TOTAL_SUBSCRIPTIONS;
  rl_missing : 0 < range_max_missing_ranges c ≤ HARD_MAX_MISSING_RANGES
}.

(** The fields of a configuration are unsigned. *)
Definition range_config_unsigned (c : RangeStoreLimitConfig) : Prop :=
  0 ≤ range_max_input_bytes c ∧ 0 ≤ range_max_read_bytes c ∧ 0 ≤ range_max_cached_bytes c ∧
  0 ≤ range_max_resident_bytes c ∧ 0 ≤ range_max_segments c ∧ 0 ≤ range_max_tickets c ∧
  0 ≤ range_max_subscribers_per_ticket c ∧ 0 ≤ range_max_total_subscriptions c ∧
  0 ≤ range_max_missing_ranges c.

Lemma validate_limits_decides c :
  range_config_unsigned c → decides (range_limits_ok c) c (RangeStoreLimits_validate c).
Proof.
  intros Hu. unfold RangeStoreLimits_validate. unfold range_config_unsigned in Hu.
  apply decides_fail_if; rewrite ?orb_true_iff, ?orb_false_iff, ?Z.eqb_eq, ?Z.ltb_lt, ?Z.eqb_neq, ?Z.ltb_ge.
  - intros Hb []. lia.
  - intros Hb. apply decides_ok. split; lia.
Qed.

(** ** Tickets *)

(** No offset of [missing] is beyond the observed length. *)
Definition within (observed : option Z) (missing : list ByteRange) : Prop :=
  from_option (λ o, Forall (λ r, ByteRange_end_exclusive r ≤ o) missing) True observed.

(** What a pending ticket waits for. *)
Record waiting (limits : RangeStoreLimits) (observed : option Z) (l : list Segment)
    (r : TicketRecord) : Prop := {
  wait_canonical : canonical (record_missing r);
  wait_nonempty : record_missing r ≠ [];
  wait_bounded : len (record_missing r) ≤ range_max_missing_ranges limits;
  wait_missing : ∀ x, in_ranges x (record_missing r) → content l x = None;
  wait_within : within observed (record_missing r);
  wait_subscribed : record_subscribers r ≠ []
}.

Record record_ok (limits : RangeStoreLimits) (observed : option Z) (l : list Segment)
    (r : TicketRecord) : Prop := {
  rec_waiting : record_phase r = PhasePending → waiting limits observed l r;
  rec_jobs : NoDup (subscription_job <$> record_subscribers r);
  rec_subscribers : len (record_subscribers r) ≤ range_max_subscribers_per_ticket limits
}.

Definition is_waiting (r : TicketRecord) : Prop := is_pending (record_phase r) = true.

(** ** The invariant *)

Record store_ok `{Platform} (store : RangeStore) (s : StoreState) : Prop := {
  st_segments : segments_ok (segments s);
  st_input : Forall (λ x, segment_end x ≤ range_max_input_bytes (store_limits store)) (segments s);
  st_within : from_option (λ o, Forall (λ x, segment_end x ≤ o) (segments s)) True (observed_len s);
  st_cached : cached_bytes s = total_len (segments s);
  st_cached_bounded : cached_bytes s ≤ range_max_cached_bytes (store_limits store);
  st_count : len (segments s) ≤ range_max_segments (store_limits store);
  st_held : held_capacity (segments s) ≤ range_max_resident_bytes (store_limits store);
  st_observed : from_option (λ o, 0 ≤ o ≤ range_max_input_bytes (store_limits store)) True
                  (observed_len s);
  st_snapshot : ∀ n, snapshot_len (store_snapshot store) = Some n → observed_len s = Some n;
  st_distinct : NoDup (record_ticket <$> tickets s);
  st_issued : Forall (λ r, ticket_namespace (record_ticket r) = store_namespace store ∧
                ticket_value (record_ticket r) < next_ticket s) (tickets s);
  st_next : next_ticket s ≤ u64_max;
  st_tickets : len (tickets s) ≤ range_max_tickets (store_limits store);
  st_subscriptions : subscription_count s = zsum (λ r, len (record_subscribers r)) (tickets s);
  st_subscriptions_bounded :
    subscription_count s ≤ range_max_total_subscriptions (store_limits store);
  st_records : Forall (record_ok (store_limits store) (observed_len s) (segments s)) (tickets s)
}.

(** A state between two calls: nothing waits once the source changed. *)
Record range_wf `{Platform} (store : RangeStore) (s : RangeState) : Prop := {
  wf_store : store_ok store (locked s);
  wf_changed : source_changed s = true → Forall (λ r, ¬ is_waiting r) (tickets (locked s))
}.

(** ** Outcomes up to the counters of calls *)

Definition kept (s s' : RangeState) : Prop :=
  locked s' = locked s ∧ source_changed s' = source_changed s.
Definition poisoned (s s' : RangeState) : Prop :=
  locked s' = transition_source_changed (locked s) ∧ source_changed s' = true.

Lemma kept_refl s : kept s s.
Proof. done. Qed.
#[export] Hint Resolve kept_refl : engine.

#[global] Instance kept_preorder : PreOrder kept.
Proof. split; [done|]. intros s1 s2 s3 [] []. split; congruence. Qed.

Lemma transition_record_idemp r : transition_record (transition_record r) = transition_record r.
Proof. unfold transition_record. by destruct r as [? ? ? []]. Qed.

Lemma transition_idemp s :
  transition_source_changed (transition_source_changed s) = transition_source_changed s.
Proof.
  unfold transition_source_changed, set_tickets. destruct s; simpl. f_equal.
  rewrite <-list_fmap_compose. apply list_fmap_ext. intros i r _. apply transition_record_idemp.
Qed.

Lemma kept_poisoned s1 s2 s3 : kept s1 s2 → poisoned s2 s3 → poisoned s1 s3.
Proof. intros [] []. split; congruence. Qed.

Lemma poisoned_trans s1 s2 s3 : poisoned s1 s2 → poisoned s2 s3 → poisoned s1 s3.
Proof. intros [H1 _] [H2 ?]. split; [|done]. by rewrite H2, H1, transition_idemp. Qed.

Lemma kept_wf `{Platform} store s s' : kept s s' → range_wf store s → range_wf store s'.
Proof. intros [H1 H2] []. split; rewrite ?H1, ?H2; done. Qed.

Lemma transition_not_waiting r : ¬ is_waiting (transition_record r).
Proof. unfold is_waiting, transition_record. by destruct r as [? ? ? []]. Qed.

Lemma transition_record_fields r :
  record_ticket (transition_record r) = record_ticket r ∧
  record_subscribers (transition_record r) = record_subscribers r.
Proof. unfold transition_record. by destruct (is_pending _). Qed.

Lemma record_ok_terminal limits observed l r r' :
  record_ok limits observed l r → ¬ is_waiting r' →
  record_subscribers r' = record_subscribers r → record_ok limits observed l r'.
Proof.
  intros [] Hn Hs. split; rewrite ?Hs; try done. intros Hp. unfold is_waiting in Hn. by rewrite Hp in Hn.
Qed.

(** Tickets replaced one by one, keeping identities and subscribers. *)
Lemma store_ok_fmap `{Platform} store s (f : TicketRecord → TicketRecord) :
  store_ok store s →
  (∀ r, record_ticket (f r) = record_ticket r ∧ record_subscribers (f r) = record_subscribers r) →
  (∀ r, r ∈ tickets s → record_ok (store_limits store) (observed_len s) (segments s) (f r)) →
  store_ok store (set_tickets (f <$> tickets s) s).
Proof.
  intros [] Hf Hr. split; simpl; try done.
  - rewrite <-list_fmap_compose.
    rewrite (list_fmap_ext (record_ticket ∘ f) record_ticket (tickets s)); [done|].
    intros i r _. by apply Hf.
  - apply Forall_fmap. eapply Forall_impl; [exact st_issued0|]. intros r Hx. simpl. by destruct (Hf r) as [-> _].
  - by rewrite length_fmap.
  - rewrite zsum_fmap. rewrite st_subscriptions0. apply zsum_ext. intros r _.
    by destruct (Hf r) as [_ ->].
  - apply Forall_fmap, Forall_forall. intros r Hin. by apply Hr.
Qed.

Lemma poisoned_wf `{Platform} store s s' : poisoned s s' → range_wf store s → range_wf store s'.
Proof.
  intros [H1 H2] [Hs _]. split; rewrite H1.
  - apply store_ok_fmap; [done|apply transition_record_fields|]. intros r Hr.
    pose proof (st_records _ _ Hs) as Hrec. rewrite Forall_forall in Hrec.
    eapply record_ok_terminal; [by apply Hrec|apply transition_not_waiting|].
    apply transition_record_fields.
  - intros _. simpl. apply Forall_fmap, Forall_forall. intros r _. apply transition_not_waiting.
Qed.

(** ** Runs of the shared steps *)

Notation rejected code := (Err (Rejected (SourceError_for_code code))).

Section runs.
Context `{RangeRuntime} (store : RangeStore).
Context (Hlimits : range_limits_ok (store_limits store)).
Implicit Types s : RangeState.

Let max_resident := range_max_resident_bytes (store_limits store).

(** A change of the source was signalled before or during the call. *)
Definition change_signalled s : Prop := source_changed s = true ∨ ∃ k, signalled k = true.

Lemma change_signalled_kept s s' : kept s s' → change_signalled s' → change_signalled s.
Proof. intros [_ Hc]. unfold change_signalled. by rewrite Hc. Qed.

Lemma sync_run s s' r :
  synchronize_source_change s = (s', r) →
  (r = Ok false ∧ kept s s' ∧ source_changed s = false) ∨
  (r = Ok true ∧ poisoned s s' ∧ change_signalled s).
Proof.
  unfold synchronize_source_change, source_change_precedes_commit, kept, poisoned, change_signalled.
  unfold when, update, get, modify, mret, M_ret, mbind, M_bind. simpl.
  destruct (source_changed s) eqn:Hc, (signalled (flag_reads s)) eqn:Hk; intros [= <- <-]; simpl; eauto 7.
Qed.

Lemma check_run s s' r :
  check_source_change s = (s', r) →
  (r = Ok tt ∧ kept s s' ∧ source_changed s = false) ∨
  (r = rejected SourceChanged ∧ poisoned s s' ∧ change_signalled s).
Proof.
  unfold check_source_change. intros Hr. apply bind_inv in Hr as [(b & s1 & H1 & Hr)|(e & H1 & ->)];
    apply sync_run in H1 as [(Hb & Hk & Hc)|(Hb & Hp & Hc)]; simplify_eq; minv Hr; auto.
  right. unfold reject, raise in Hr. by minv Hr.
Qed.

Lemma poison_and_reject_run {A} code s s' (r : result _ A) :
  poison_and_reject code s = (s', r) → r = rejected code ∧ poisoned s s'.
Proof. by intros [= <- <-]. Qed.

Lemma poison_source_run s s' r : poison_source s = (s', r) → r = Ok tt ∧ poisoned s s'.
Proof. by intros [= <- <-]. Qed.

Lemma reserve_metadata_run wanted e s s' r :
  reserve_metadata wanted e s = (s', r) →
  kept s s' ∧ (r = Ok tt ∨ r = Err (Rejected e) ∧ ∃ k, metadata_reserved k wanted = false).
Proof.
  unfold reserve_metadata, raise, get, modify, throw, mret, M_ret, mbind, M_bind.
  destruct (metadata_reserved _ _) eqn:Hm; intros [= <- <-]; (split; [done|]); eauto.
Qed.

Lemma reserve_bytes_run wanted e s s' r :
  reserve_bytes wanted e s = (s', r) →
  kept s s' ∧
  ((∃ k c, r = Ok c ∧ bytes_reserved k wanted = Some c) ∨
   (r = Err (Rejected e) ∧ ∃ k, bytes_reserved k wanted = None)).
Proof.
  unfold reserve_bytes, some_or, ok_or, get, modify, mbind, M_bind.
  destruct (bytes_reserved _ _) eqn:Hm; intros [= <- <-]; (split; [done|]); eauto 6.
Qed.

(** Bytes held outside the store. *)
Definition external_held (n : Z) : Prop := 0 ≤ n ∧ ∃ k, n ≤ Z.max 0 (external_bytes k).

Lemma resident_current_run in_flight s s' r :
  resident_current store in_flight s = (s', r) →
  kept s s' ∧ ∃ n, external_held n ∧ r = Ok (held_capacity (segments (locked s)) + in_flight + n) ∧
    (held_capacity (segments (locked s)) + in_flight ≤ max_resident →
     held_capacity (segments (locked s)) + in_flight + n ≤ max_resident).
Proof.
  unfold resident_current, get, modify, mret, M_ret, mbind, M_bind. intros [= <- <-].
  split; [done|]. eexists. split; [|split; [done|]].
  - unfold external_held. split; [lia|]. exists (reservations s). lia.
  - subst max_resident. lia.
Qed.

Lemma try_reserve_run bytes s s' r :
  try_reserve store bytes s = (s', r) →
  kept s s' ∧
  ((r = Ok bytes ∧ held_capacity (segments (locked s)) + bytes ≤ max_resident) ∨
   ∃ n attempted, external_held n ∧ max_resident < held_capacity (segments (locked s)) + n + bytes ∧
     r = Err (Rejected (SourceError_resource SourceResidentBytes max_resident attempted)) ∧
     max_resident < attempted).
Proof.
  unfold try_reserve, some_or, refuse, raise. intros Hr.
  apply bind_inv in Hr as [(c & s1 & H1 & Hr)|(e & H1 & ->)];
    apply resident_current_run in H1 as (Hk & n & Hn & Hc & _); simplify_eq.
  rewrite Z.add_0_r in Hr. pose proof Hn as [? _]. destruct Hlimits.
  assert (HARD_MAX_RESIDENT_BYTES < u64_max) by reflexivity. subst max_resident.
  destruct (checked_add _ _ _) as [attempted|] eqn:Ha; checked_facts; minv Hr.
  - destruct (Z.ltb_spec (range_max_resident_bytes (store_limits store)) (held_capacity (segments (locked s)) + n + bytes));
      minv Hr; (split; [done|]); [right|left; split; [done|lia]].
    exists n. eexists. split_and!; done || lia.
  - split; [done|]. right. exists n, u64_max. split_and!; done || lia.
Qed.

Lemma try_reserve_remaining_run in_flight minimum s s' r :
  0 ≤ minimum → held_capacity (segments (locked s)) + in_flight ≤ max_resident →
  0 ≤ held_capacity (segments (locked s)) + in_flight →
  try_reserve_remaining store in_flight minimum s = (s', r) →
  kept s s' ∧ ∃ n, external_held n ∧
  ((∃ available, r = Ok available ∧ minimum ≤ available ∧
      available = max_resident - (held_capacity (segments (locked s)) + in_flight + n)) ∨
   ∃ attempted, max_resident < held_capacity (segments (locked s)) + in_flight + n + minimum ∧
     r = Err (Rejected (SourceError_resource SourceResidentBytes max_resident attempted)) ∧
     max_resident < attempted).
Proof.
  intros Hm Hin Hin0. unfold try_reserve_remaining, some_or, refuse, raise. intros Hr.
  apply bind_inv in Hr as [(c & s1 & H1 & Hr)|(e & H1 & ->)];
    apply resident_current_run in H1 as (Hk & n & Hn & Hc & Hle); simplify_eq.
  specialize (Hle Hin). destruct Hlimits. assert (HARD_MAX_RESIDENT_BYTES < u64_max) by reflexivity.
  subst max_resident. destruct (checked_sub _ _) as [available|] eqn:Ha; checked_facts; [|lia].
  rewrite (bind_ok _ _ _ s1 available) in Hr by done.
  destruct (Z.ltb_spec available minimum); minv Hr; (split; [done|]); exists n; (split; [done|]).
  - right. eexists. split; [|split; [done|]]; [lia|]. unfold saturating_add. lia.
  - left. eexists. split; [done|]. lia.
Qed.

Lemma adopt_vec_ok bytes capacity s :
  0 ≤ capacity ≤ u64_max →
  adopt_vec capacity bytes capacity s =
    (s, Ok {| backing_bytes := bytes; backing_capacity := capacity |}).
Proof.
  intros Hc. unfold adopt_vec, some_or, ok_or. rewrite try_from_small by done.
  unfold mbind, M_bind. by rewrite Z.eqb_refl.
Qed.
End runs.

(** What a ticket still misses. *)
Definition still_missing (l : list Segment) (r : TicketRecord) : list ByteRange :=
  remaining_gaps l (record_missing r).
Definition resolved (l : list Segment) (observed : option Z) (r : TicketRecord) : bool :=
  bool_decide (still_missing l r = [])
  || from_option (λ o, missing_crosses_eof (still_missing l r) o) false observed.
Definition becomes_ready (l : list Segment) (observed : option Z) (r : TicketRecord) : bool :=
  is_pending (record_phase r) && resolved l observed r.
Definition settle (l : list Segment) (observed : option Z) (r : TicketRecord) : TicketRecord :=
  if is_pending (record_phase r) then
    if resolved l observed r then set_phase PhaseReady r else set_missing (still_missing l r) r
  else r.

Definition settled (l : list Segment) (observed : option Z) (s : StoreState) : StoreState :=
  {| segments := l; cached_bytes := total_len l; tickets := settle l observed <$> tickets s;
     next_ticket := next_ticket s; observed_len := observed;
     subscription_count := subscription_count s |}.
Definition newly_ready (l : list Segment) (observed : option Z) (s : StoreState) : list DataTicket :=
  record_ticket <$> filter (λ r, becomes_ready l observed r = true) (tickets s).

(** ** Ends of sorted lists *)

Lemma last_segment_end l s :
  segments_ok l → last l = Some s → Forall (λ x, segment_end x ≤ segment_end s) l.
Proof.
  intros [Hok Hl] Hs. apply last_Some in Hs as [l1 ->].
  apply StronglySorted_app in Hl as (H12 & _ & _).
  apply Forall_app in Hok as [_ [Hs _]%Forall_cons]. apply Forall_app. split; [|by repeat constructor].
  apply Forall_forall. intros x Hx. specialize (H12 x s Hx ltac:(left)).
  unfold segment_before in H12. destruct Hs. lia.
Qed.

Lemma segments_within l o :
  segments_ok l →
  from_option (λ s, o <? segment_end s) false (last l) = false ↔ Forall (λ x, segment_end x ≤ o) l.
Proof.
  intros Hl. destruct (last l) as [s|] eqn:Hs; simpl.
  - pose proof (last_segment_end l s Hl Hs) as Hle. rewrite Z.ltb_ge. split.
    + intros Ho. eapply Forall_impl; [done|]. simpl. intros. lia.
    + intros Hall. apply last_Some in Hs as [l1 ->]. by apply Forall_app in Hall as [_ [? _]%Forall_cons].
  - apply last_None in Hs as ->. split; [constructor|done].
Qed.

Lemma missing_within m o :
  canonical m → missing_crosses_eof m o = false ↔ Forall (λ r, ByteRange_end_exclusive r ≤ o) m.
Proof.
  intros [Hok Hm]. unfold missing_crosses_eof. destruct (last m) as [r|] eqn:Hr; simpl.
  - rewrite Z.ltb_ge. apply last_Some in Hr as [m1 ->].
    apply StronglySorted_app in Hm as (H12 & _ & _). rewrite Forall_app, Forall_singleton in *.
    split; [|naive_solver]. intros Ho. split; [|done]. apply Forall_forall. intros x Hx.
    specialize (H12 x r Hx ltac:(left)). unfold range_before in H12.
    destruct Hok as [_ Hr%range_nonempty]. lia.
  - apply last_None in Hr as ->. split; [constructor|done].
Qed.

(** ** Tickets after a settlement *)

Lemma still_missing_unchanged limits observed l r :
  segments_ok l → waiting limits observed l r → still_missing l r = record_missing r.
Proof.
  intros Hl []. apply canonical_unique; [by apply remaining_gaps_canonical|done|].
  intros x. unfold still_missing. rewrite remaining_gaps_in_ranges by done. naive_solver.
Qed.

Lemma settle_fields l observed r :
  record_ticket (settle l observed r) = record_ticket r ∧
  record_subscribers (settle l observed r) = record_subscribers r.
Proof. unfold settle. by destruct (is_pending (record_phase r)), (resolved l observed r). Qed.

Lemma settle_waiting l observed r :
  is_waiting (settle l observed r) → is_waiting r ∧ resolved l observed r = false.
Proof.
  unfold settle, is_waiting. destruct (is_pending (record_phase r)) eqn:Hp; [|congruence].
  by destruct (resolved l observed r).
Qed.

Lemma is_waiting_phase r : is_waiting r ↔ record_phase r = PhasePending.
Proof. unfold is_waiting. by destruct (record_phase r). Qed.

Lemma settle_record_ok limits observed l observed' l' r :
  segments_ok l' → record_ok limits observed l r →
  (is_waiting r → len (still_missing l' r) ≤ range_max_missing_ranges limits) →
  record_ok limits observed' l' (settle l' observed' r).
Proof.
  intros Hl' [Hw Hj Hs] Hlen. destruct (settle_fields l' observed' r) as [_ Hsub].
  split; rewrite ?Hsub; [|done..]. intros Hp%is_waiting_phase.
  apply settle_waiting in Hp as [Hp Hres]. pose proof Hp as Hp'. apply is_waiting_phase, Hw in Hp' as [].
  unfold settle, is_waiting in *. rewrite Hp, Hres. unfold resolved in Hres.
  apply orb_false_iff in Hres as [Hne%bool_decide_eq_false Hobs].
  assert (canonical (still_missing l' r)) by by apply remaining_gaps_canonical.
  split; simpl; try done; [by apply Hlen| |].
  - intros x (_ & Hx)%remaining_gaps_in_ranges; done.
  - unfold within. destruct observed' as [o|]; [|done]. by apply missing_within.
Qed.

Record layout_ok `{Platform} (store : RangeStore) (l : list Segment) (observed : option Z) : Prop := {
  lay_segments : segments_ok l;
  lay_input : Forall (λ x, segment_end x ≤ range_max_input_bytes (store_limits store)) l;
  lay_within : from_option (λ o, Forall (λ x, segment_end x ≤ o) l) True observed;
  lay_cached : total_len l ≤ range_max_cached_bytes (store_limits store);
  lay_count : len l ≤ range_max_segments (store_limits store);
  lay_held : held_capacity l ≤ range_max_resident_bytes (store_limits store);
  lay_observed : from_option (λ o, 0 ≤ o ≤ range_max_input_bytes (store_limits store)) True observed;
  lay_snapshot : ∀ n, snapshot_len (store_snapshot store) = Some n → observed = Some n
}.

Lemma store_layout `{Platform} store s : store_ok store s → layout_ok store (segments s) (observed_len s).
Proof. intros []. split; try done. lia. Qed.

Lemma settled_ok `{Platform} store s l observed :
  store_ok store s → layout_ok store l observed →
  (∀ r, r ∈ tickets s → is_waiting r → len (still_missing l r) ≤ range_max_missing_ranges (store_limits store)) →
  store_ok store (settled l observed s).
Proof.
  intros Hs [] Hmiss. pose proof (st_issued _ _ Hs) as Hissued.
  pose proof (st_subscriptions _ _ Hs) as Hsubs. pose proof (st_records _ _ Hs) as Hrec.
  destruct Hs. split; simpl; try done.
  - rewrite <-list_fmap_compose.
    rewrite (list_fmap_ext (record_ticket ∘ settle l observed) record_ticket (tickets s)); [done|].
    intros i r _. apply settle_fields.
  - apply Forall_fmap. eapply Forall_impl; [exact Hissued|]. intros r Hx. simpl.
    by destruct (settle_fields l observed r) as [-> _].
  - by rewrite length_fmap.
  - rewrite zsum_fmap, Hsubs. apply zsum_ext. intros r _.
    by destruct (settle_fields l observed r) as [_ ->].
  - apply Forall_fmap, Forall_forall. intros r Hr. rewrite Forall_forall in Hrec.
    eapply settle_record_ok; [done|by apply Hrec|]. intros Hw. by apply Hmiss.
Qed.

(** When only the length becomes known, tickets beyond it become ready. *)
Lemma settle_at_eof limits l observed r o :
  segments_ok l → record_ok limits observed l r →
  settle l (Some o) r = (if eof_ready o r then set_phase PhaseReady r else r) ∧
  becomes_ready l (Some o) r = eof_ready o r.
Proof.
  intros Hl [Hw _ _]. unfold settle, becomes_ready, eof_ready.
  destruct (is_pending (record_phase r)) eqn:Hp; [|done]. simpl.
  apply is_waiting_phase, Hw in Hp. pose proof (still_missing_unchanged _ _ _ _ Hl Hp) as Hs.
  destruct Hp. unfold resolved. rewrite Hs. rewrite bool_decide_false by done. simpl. split; [|done].
  destruct (missing_crosses_eof _ _); [done|]. by destruct r.
Qed.

(** When nothing becomes known, nothing happens. *)
Lemma settle_same limits l observed r :
  segments_ok l → record_ok limits observed l r →
  settle l observed r = r ∧ becomes_ready l observed r = false.
Proof.
  intros Hl [Hw _ _]. unfold settle, becomes_ready.
  destruct (is_pending (record_phase r)) eqn:Hp; [|done]. simpl.
  apply is_waiting_phase, Hw in Hp. pose proof (still_missing_unchanged _ _ _ _ Hl Hp) as Hs.
  destruct Hp. assert (resolved l observed r = false) as ->.
  { unfold resolved. rewrite Hs, bool_decide_false by done. simpl.
    destruct observed as [o|]; [|done]. simpl. by apply missing_within. }
  split; [|done]. rewrite Hs. by destruct r.
Qed.

Lemma settled_same `{Platform} store s :
  store_ok store s →
  settled (segments s) (observed_len s) s = s ∧ newly_ready (segments s) (observed_len s) s = [].
Proof.
  intros Hs. pose proof (st_records _ _ Hs) as Hr. rewrite Forall_forall in Hr.
  pose proof (st_segments _ _ Hs) as Hl. split.
  - unfold settled. rewrite <-(st_cached _ _ Hs).
    rewrite (list_fmap_ext _ id (tickets s)); [|intros i r Hi; eapply settle_same, Hr;
      [done|by eapply list_elem_of_lookup_2]].
    rewrite list_fmap_id. by destruct s.
  - unfold newly_ready. rewrite filter_none; [done|]. intros r Hin.
    destruct (settle_same _ _ _ r Hl (Hr r Hin)) as [_ ->]. done.
Qed.

Lemma settled_at_eof `{Platform} store s o :
  store_ok store s →
  set_tickets (complete_tickets_at_eof o (tickets s)).1 (set_observed_len (Some o) s) =
    settled (segments s) (Some o) s ∧
  (complete_tickets_at_eof o (tickets s)).2 = newly_ready (segments s) (Some o) s.
Proof.
  intros Hs. pose proof (st_records _ _ Hs) as Hr. rewrite Forall_forall in Hr.
  pose proof (st_segments _ _ Hs) as Hl. split.
  - unfold settled, set_tickets, set_observed_len. simpl. rewrite (st_cached _ _ Hs). f_equal.
    apply list_fmap_ext. intros i r Hi. symmetry. eapply settle_at_eof, Hr; [done|].
    by eapply list_elem_of_lookup_2.
  - unfold newly_ready, complete_tickets_at_eof. simpl. f_equal. apply filter_ext_in.
    intros r Hin. by destruct (settle_at_eof _ _ _ _ o Hl (Hr r Hin)) as [_ ->].
Qed.
