(* ===== verification/RangeSupply.v ===== *)
(** * Outcomes of [observe_snapshot] and [supply]

    Every call either is accepted and settles the store with the overlaid bytes,
    or poisons the store because the source changed or bytes conflict, or is
    refused for a stated reason and changes nothing. *)

From stdpp Require Import base list numbers option sorting sets.
From S2P Require Import Prelude.
From S2P Require Import SourceTypes.
From S2P Require Import RangeTypes.
From S2P Require Import RangeStore.
From S2P Require Import RangeSegments.
From S2P Require Import RangeMerge.
From S2P Require Import RangeInv.

(** What [RangeResponse::new] and the vector of a response guarantee. *)
Record response_ok `{Platform} (r : RangeResponse) : Prop := {
  resp_range : range_ok (response_range r);
  resp_len : len (response_bytes r) = range_len (response_range r);
  resp_capacity : len (response_bytes r) ≤ response_capacity r ≤ usize_max;
  resp_within : from_option (λ n, 0 ≤ n ∧ ByteRange_end_exclusive (response_range r) ≤ n) True
                  (snapshot_len (response_snapshot r))
}.

(** Postconditions of a run: of its value, and of its error. No run panics. *)
Definition wp {A} (m : Op A) (s : RangeState) (Q : A → RangeState → Prop)
    (E : SourceError → RangeState → Prop) : Prop :=
  match m s with
  | (s', Ok a) => Q a s'
  | (s', Err (Rejected e)) => E e s'
  | (_, Err Panicked) => False
  end.

Lemma wp_run {A} (m : Op A) s Q E s' r :
  m s = (s', r) → wp m s Q E →
  match r with Ok a => Q a s' | Err (Rejected e) => E e s' | Err Panicked => False end.
Proof. unfold wp. by intros ->. Qed.

Lemma wp_bind {A B} (m : Op A) (f : A → Op B) s Q E :
  wp m s (λ a s1, wp (f a) s1 Q E) E → wp (m ≫= f) s Q E.
Proof.
  unfold wp, mbind, M_bind. destruct (m s) as [s1 [a|[e|]]]; done.
Qed.

Lemma wp_mono {A} (m : Op A) s (Q Q' : A → RangeState → Prop) E :
  wp m s Q E → (∀ a s', Q a s' → Q' a s') → wp m s Q' E.
Proof. unfold wp. destruct (m s) as [s1 [a|[e|]]]; naive_solver. Qed.

Lemma wp_ret {A} (a : A) s (Q : A → RangeState → Prop) E : Q a s → wp (mret a) s Q E.
Proof. done. Qed.

Lemma wp_gets {A B} (g : RangeState → A) (f : A → Op B) s Q E :
  wp (f (g s)) s Q E → wp (gets g ≫= f) s Q E.
Proof. done. Qed.

Lemma wp_some_or {A} (o : option A) e s Q E :
  (∀ a, o = Some a → Q a s) → (o = None → E e s) → wp (some_or o e) s Q E.
Proof. unfold wp, some_or, ok_or. destruct o; eauto. Qed.

Lemma wp_lift {A} (r : result SourceError A) s Q E :
  (∀ a, r = Ok a → Q a s) → (∀ e, r = Err e → E e s) → wp (lift_source r) s Q E.
Proof. unfold wp, lift_source, of_result. destruct r; eauto. Qed.

Lemma wp_on_error {A} (m : Op A) h s Q E :
  wp m s Q (λ e s', wp (h e) s' Q E) → wp (on_error m h) s Q E.
Proof. unfold wp, on_error. destruct (m s) as [s1 [a|[e|]]]; done. Qed.

Section supply.
Context `{RangeRuntime} (store : RangeStore).
Context (Hlimits : range_limits_ok (store_limits store)).

#[local] Notation limits := (store_limits store).

(** The length known after a snapshot is observed. *)
Definition observed_after (s : StoreState) (snapshot : SourceSnapshot) : option Z :=
  match observed_len s with Some o => Some o | None => snapshot_len snapshot end.

(** The observed source is not the one of the store. *)
Definition mismatch (s : RangeState) (snapshot : SourceSnapshot) : Prop :=
  change_signalled s ∨ same_source store snapshot = false ∨
  metadata_conflicts (locked s) snapshot = true.

(** Why [observe_snapshot] refuses a snapshot of the same source. *)
Inductive observe_refusal (s : StoreState) (snapshot : SourceSnapshot) : SourceError → Prop :=
| observed_too_long n :
    observed_len s = None → snapshot_len snapshot = Some n → range_max_input_bytes limits < n →
    observe_refusal s snapshot (SourceError_resource SourceInputBytes (range_max_input_bytes limits) n)
| ready_not_reserved k :
    metadata_reserved k (len (tickets s)) = false →
    observe_refusal s snapshot
      (SourceError_resource SourceAllocation (range_max_tickets limits) (len (tickets s))).

(** A call that does not succeed. *)
Definition failed (s0 : RangeState) (poison : SourceErrorCode → Prop) (refusal : SourceError → Prop)
    (e : SourceError) (s' : RangeState) : Prop :=
  (kept s0 s' ∧ refusal e) ∨ (poisoned s0 s' ∧ ∃ code, e = SourceError_for_code code ∧ poison code).

(** A call that succeeds leaves the segments [l]. *)
Record accepted (s0 : RangeState) (snapshot : SourceSnapshot) (l : list Segment)
    (outcome : SupplyOutcome) (s' : RangeState) : Prop := {
  acc_locked : locked s' = settled l (observed_after (locked s0) snapshot) (locked s0);
  acc_unchanged : source_changed s0 = false ∧ source_changed s' = false;
  acc_outcome : outcome =
    {| outcome_cached_bytes := total_len l;
       outcome_ready_tickets := newly_ready l (observed_after (locked s0) snapshot) (locked s0) |}
}.

Section stages.
Context (s0 : RangeState) (snapshot : SourceSnapshot).
Context (poison : SourceErrorCode → Prop) (refusal : SourceError → Prop).
Context (Hpoison : mismatch s0 snapshot → poison SourceChanged).

Let E := failed s0 poison refusal.

Lemma wp_check s (Q : unit → RangeState → Prop) :
  kept s0 s → (∀ s', kept s0 s' → source_changed s0 = false → Q tt s') →
  wp check_source_change s Q E.
Proof.
  intros Hk HQ. unfold wp. destruct (check_source_change s) as [s' r] eqn:Hr.
  apply check_run in Hr as [(-> & Hk' & Hc)|(-> & Hp & Hc)].
  - destruct Hk as [Hk1 Hk2]. apply HQ; [etrans; [by split|done]|congruence].
  - right. split; [by eapply kept_poisoned|]. exists SourceChanged. split; [done|].
    apply Hpoison. left. by eapply change_signalled_kept.
Qed.

Lemma wp_poison {A} code s (Q : A → RangeState → Prop) :
  kept s0 s → poison code → wp (poison_and_reject code) s Q E.
Proof.
  intros Hk Hc. unfold wp. destruct (poison_and_reject code s) as [s' r] eqn:Hr.
  apply poison_and_reject_run in Hr as [-> Hp].
  right. split; [by eapply kept_poisoned|]. by exists code.
Qed.

Lemma wp_reserve_metadata wanted e s (Q : unit → RangeState → Prop) :
  kept s0 s → (∀ k, metadata_reserved k wanted = false → refusal e) →
  (∀ s', kept s0 s' → Q tt s') → wp (reserve_metadata wanted e) s Q E.
Proof.
  intros Hk He HQ. unfold wp. destruct (reserve_metadata wanted e s) as [s' r] eqn:Hr.
  apply reserve_metadata_run in Hr as [Hk' [->|(-> & k & Hm)]].
  - apply HQ. by etrans.
  - left. split; [by etrans|by eapply He].
Qed.

Lemma wp_check_source (Q : unit → RangeState → Prop) :
  (∀ s', kept s0 s' → source_changed s0 = false → same_source store snapshot = true → Q tt s') →
  wp (check_source store snapshot) s0 Q E.
Proof.
  intros HQ. apply wp_bind, wp_check; [done|]. intros s' Hk Hc.
  destruct (same_source store snapshot) eqn:Hs; [by apply HQ|].
  apply wp_poison; [done|]. apply Hpoison. right. by left.
Qed.

Lemma wp_raise {A} e s (Q : A → RangeState → Prop) : E e s → wp (raise e) s Q E.
Proof. done. Qed.

Lemma wp_refuse_response {A} e s (Q : A → RangeState → Prop) :
  kept s0 s → refusal e → wp (refuse_response snapshot e) s Q E.
Proof.
  intros Hk He. apply wp_bind, wp_bind, wp_check; [done|]. intros s1 Hk1 _.
  apply wp_gets.
  destruct (metadata_conflicts (locked s1) snapshot) eqn:Hc.
  - apply wp_poison; [done|]. apply Hpoison. right. right. destruct Hk1 as [<- _]. done.
  - left. done.
Qed.

Lemma wp_observed_binding s (Q : option Z → RangeState → Prop) :
  segments_ok (segments (locked s0)) → kept s0 s →
  (∀ e, observe_refusal (locked s0) snapshot e → refusal e) →
  (∀ bind, metadata_conflicts (locked s0) snapshot = false →
     match bind with
     | Some o => observed_len (locked s0) = None ∧ snapshot_len snapshot = Some o ∧
                 o ≤ range_max_input_bytes limits ∧
                 Forall (λ x, segment_end x ≤ o) (segments (locked s0))
     | None => observed_after (locked s0) snapshot = observed_len (locked s0)
     end → Q bind s) →
  wp (observed_binding store snapshot) s Q E.
Proof.
  intros Hl Hk He HQ. apply wp_gets.
  pose proof Hk as [-> _]. unfold metadata_conflicts, observed_after in *.
  assert (∀ Q' : option Z → RangeState → Prop, metadata_conflicts (locked s0) snapshot = true →
    wp (poison_and_reject SourceChanged) s Q' E) as Hp.
  { intros Q' Hc. apply wp_poison; [done|]. apply Hpoison. right. by right. }
  unfold metadata_conflicts in Hp.
  destruct (observed_len (locked s0)) as [expected|] eqn:Ho, (snapshot_len snapshot) as [observed|] eqn:Hn.
  - destruct (expected =? observed); [by apply HQ|by apply Hp].
  - by apply Hp.
  - destruct (Z.ltb_spec (range_max_input_bytes limits) observed).
    + apply wp_raise. left. split; [done|]. apply He. by apply observed_too_long.
    + destruct (from_option _ false _) eqn:Hw; [by apply Hp|]. apply HQ; [done|].
      split_and!; try done. by apply segments_within.
  - by apply HQ.
Qed.

Lemma wp_commit_binding s bind (Q : SupplyOutcome → RangeState → Prop) :
  store_ok store (locked s0) → kept s0 s →
  match bind with
  | Some o => observed_after (locked s0) snapshot = Some o
  | None => observed_after (locked s0) snapshot = observed_len (locked s0)
  end →
  (∀ outcome s', accepted s0 snapshot (segments (locked s0)) outcome s' → Q outcome s') →
  wp (commit_binding bind) s Q E.
Proof.
  intros Hs Hk Hb HQ. apply wp_bind, wp_check; [done|]. intros s1 [Hk1 Hk2] Hc.
  apply wp_bind. destruct bind as [o|].
  - destruct (settled_at_eof store _ o Hs) as [H1 H2].
    destruct (complete_tickets_at_eof o (tickets (locked s0))) as [records ready] eqn:He.
    simpl in H1, H2. unfold wp, bind_observed, gets, update, modify, mret, M_ret, mbind, M_bind.
    rewrite Hk1, He. apply HQ. split; simpl; rewrite ?Hk1, ?Hb; [done|by rewrite Hk2|].
    by rewrite H2, (st_cached _ _ Hs).
  - destruct (settled_same store _ Hs) as [H1 H2]. apply HQ.
    split; rewrite ?Hb, ?H1, ?H2, ?Hk1; [done|by rewrite Hk2|]. by rewrite (st_cached _ _ Hs).
Qed.
End stages.

(** ** [observe_snapshot] *)

Lemma observe_wp s0 snapshot :
  store_ok store (locked s0) →
  wp (observe_snapshot store snapshot) s0
    (λ outcome s', same_source store snapshot = true ∧
       metadata_conflicts (locked s0) snapshot = false ∧
       from_option (λ o, o ≤ range_max_input_bytes limits ∧
         Forall (λ x, segment_end x ≤ o) (segments (locked s0))) True (observed_after (locked s0) snapshot) ∧
       accepted s0 snapshot (segments (locked s0)) outcome s')
    (failed s0 (λ code, code = SourceChanged ∧ mismatch s0 snapshot)
       (observe_refusal (locked s0) snapshot)).
Proof.
  intros Hs. pose proof (st_segments _ _ Hs) as Hl.
  apply wp_bind, wp_check_source with (snapshot := snapshot); [done|]. intros s1 Hk1 _ Hsame.
  apply wp_bind, wp_check with (snapshot := snapshot); [done..|]. intros s2 Hk2 _.
  apply wp_bind, wp_observed_binding; [done..|]. intros bind Hc Hb.
  apply wp_bind, wp_gets.
  pose proof Hk2 as [-> _]. apply wp_reserve_metadata; [done|intros k; apply ready_not_reserved|].
  intros s3 Hk3. eapply wp_commit_binding; try done.
  { destruct bind as [o|]; [|done]. unfold observed_after. by destruct Hb as (-> & -> & _). }
  intros outcome s' Hacc. split_and!; try done. unfold observed_after in *.
  destruct bind as [o|]; [by destruct Hb as (-> & -> & ? & ?)|]. rewrite Hb.
  pose proof (st_observed _ _ Hs). pose proof (st_within _ _ Hs).
  destruct (observed_len (locked s0)); simpl in *; naive_solver lia.
Qed.

(** ** [supply] *)

(** The offsets of [m] are those of a ticket that the response leaves missing. *)
Definition missing_after (l : list Segment) (resp : RangeResponse) (r : TicketRecord)
    (m : list ByteRange) : Prop :=
  canonical m ∧ ∀ x, in_ranges x m ↔
    in_ranges x (record_missing r) ∧
    overlay (content l) (response_range resp) (response_bytes resp) x = None.

Definition union_len (range : ByteRange) (l : list Segment) : Z :=
  union_end (union_of range l) - union_start (union_of range l).
(** The bytes and the segments the store would hold. *)
Definition cached_after (range : ByteRange) (l : list Segment) : Z :=
  total_len l - total_len (touched range l) + union_len range l.
Definition count_after (range : ByteRange) (l : list Segment) : Z :=
  len l - len (touched range l) + 1.

Inductive supply_refusal (s : StoreState) (resp : RangeResponse) : SourceError → Prop :=
| supply_observed e : observe_refusal s (response_snapshot resp) e → supply_refusal s resp e
| supply_read :
    range_max_read_bytes limits < range_len (response_range resp) →
    supply_refusal s resp
      (SourceError_resource ReadBytes (range_max_read_bytes limits) (range_len (response_range resp)))
| supply_input :
    range_max_input_bytes limits < ByteRange_end_exclusive (response_range resp) →
    supply_refusal s resp
      (SourceError_resource SourceInputBytes (range_max_input_bytes limits)
         (ByteRange_end_exclusive (response_range resp)))
| supply_resident n merged attempted :
    external_held n →
    (merged = 0 ∨ merged = union_len (response_range resp) (segments s) ∨
     ∃ k, bytes_reserved k (union_len (response_range resp) (segments s)) = Some merged) →
    range_max_resident_bytes limits <
      held_capacity (segments s) + response_capacity resp + n + merged →
    range_max_resident_bytes limits < attempted →
    supply_refusal s resp
      (SourceError_resource SourceResidentBytes (range_max_resident_bytes limits) attempted)
| supply_cached :
    range_max_cached_bytes limits < cached_after (response_range resp) (segments s) →
    supply_refusal s resp
      (SourceError_resource CachedBytes (range_max_cached_bytes limits)
         (cached_after (response_range resp) (segments s)))
| supply_segments :
    range_max_segments limits < count_after (response_range resp) (segments s) →
    supply_refusal s resp
      (SourceError_resource Segments (range_max_segments limits)
         (count_after (response_range resp) (segments s)))
| supply_missing r m :
    r ∈ tickets s → is_waiting r → missing_after (segments s) resp r m →
    range_max_missing_ranges limits < len m →
    supply_refusal s resp
      (SourceError_resource MissingRanges (range_max_missing_ranges limits)
         (range_max_missing_ranges limits + 1))
| supply_allocation k limit attempted wanted :
    metadata_reserved k wanted = false ∨
    bytes_reserved k (union_len (response_range resp) (segments s)) = None →
    supply_refusal s resp (SourceError_resource SourceAllocation limit attempted).

(** What an accepted response leaves. *)
Record supplied_ok (s0 : RangeState) (resp : RangeResponse) (l : list Segment) : Prop := {
  sup_same : same_source store (response_snapshot resp) = true;
  sup_metadata : metadata_conflicts (locked s0) (response_snapshot resp) = false;
  sup_read : range_len (response_range resp) ≤ range_max_read_bytes limits;
  sup_agrees : ∀ x, ¬ differs (content (segments (locked s0))) (response_range resp)
                      (response_bytes resp) x;
  sup_content : ∀ x, content l x =
    overlay (content (segments (locked s0))) (response_range resp) (response_bytes resp) x;
  sup_layout : layout_ok store l (observed_after (locked s0) (response_snapshot resp));
  sup_missing : ∀ r, r ∈ tickets (locked s0) → is_waiting r →
    len (still_missing l r) ≤ range_max_missing_ranges limits
}.

Section supply_stages.
Context (s0 : RangeState) (resp : RangeResponse).
Context (Hs : store_ok store (locked s0)) (Hresp : response_ok resp).

Notation range := (response_range resp).
Notation bytes := (response_bytes resp).
Notation snapshot := (response_snapshot resp).
Notation l := (segments (locked s0)).

(** The store is poisoned for a change of source or for conflicting bytes. *)
Definition supply_poison (code : SourceErrorCode) : Prop :=
  (code = SourceChanged ∧ mismatch s0 snapshot) ∨
  (code = ConflictingBytes ∧ ∃ x, differs (content l) range bytes x).

Let E := failed s0 supply_poison (supply_refusal (locked s0) resp).

Lemma supply_mismatch : mismatch s0 snapshot → supply_poison SourceChanged.
Proof. by left. Qed.

Lemma response_capacity_bounds : 0 ≤ response_capacity resp ≤ u64_max ∧ range_len range ≤ usize_max.
Proof.
  destruct Hresp as [_ Hlen Hcap _]. assert (u32_max ≤ u64_max) by done.
  destruct usize_max_cases as [Hm|Hm]; rewrite Hm in *; lia.
Qed.

Lemma wp_check_response s (Q : unit → RangeState → Prop) :
  kept s0 s →
  (range_len range ≤ range_max_read_bytes limits →
   ByteRange_end_exclusive range ≤ range_max_input_bytes limits → Q tt s) →
  wp (check_response store snapshot range) s Q E.
Proof.
  intros Hk HQ. unfold check_response.
  destruct (Z.ltb_spec (range_max_read_bytes limits) (range_len range)).
  { apply wp_refuse_response; [apply supply_mismatch|done|by apply supply_read]. }
  destruct (Z.ltb_spec (range_max_input_bytes limits) (ByteRange_end_exclusive range)).
  { apply wp_refuse_response; [apply supply_mismatch|done|by apply supply_input]. }
  by apply HQ.
Qed.

Lemma wp_adopt_response s (Q : BackingBytes → RangeState → Prop) :
  kept s0 s →
  (∀ s', kept s0 s' →
     held_capacity l + response_capacity resp ≤ range_max_resident_bytes limits →
     Q {| backing_bytes := bytes; backing_capacity := response_capacity resp |} s') →
  wp (adopt_response store resp) s Q E.
Proof.
  intros Hk HQ. destruct response_capacity_bounds as [Hcap _]. apply wp_bind, wp_on_error.
  rewrite try_from_small by done. apply wp_some_or; [|done]. intros ? [= <-].
  apply wp_bind, wp_on_error. unfold wp at 1.
  destruct (try_reserve store (response_capacity resp) s) as [s1 r] eqn:Hr.
  apply try_reserve_run in Hr as [Hk1 [[-> Hheld]|(n & attempted & Hn & Hlt & -> & Hat)]]; [..|done].
  - pose proof Hk as [Hk' _]. rewrite Hk' in Hheld. unfold wp. rewrite adopt_vec_ok by done.
    apply HQ; [by etrans|done].
  - apply wp_refuse_response; [apply supply_mismatch|by etrans|].
    pose proof Hk as [Hk' _]. rewrite Hk' in Hlt.
    eapply supply_resident with (merged := 0); [done|by left|lia|done].
Qed.

Lemma total_small : total_len l ≤ range_max_cached_bytes limits.
Proof. rewrite <-(st_cached _ _ Hs). by apply st_cached_bounded. Qed.

Lemma union_small :
  ByteRange_end_exclusive range ≤ range_max_input_bytes limits →
  0 < union_len range l ≤ range_max_input_bytes limits.
Proof.
  intros He. destruct Hresp as [Hr _ _ _]. pose proof (st_segments _ _ Hs) as Hl.
  destruct (union_bounds range l Hr Hl) as (HU & HV & _). pose proof (range_nonempty range Hr).
  unfold union_len. split; [lia|]. 
  enough (union_end (union_of range l) ≤ range_max_input_bytes limits) by lia.
  destruct (foldl_max (touched range l) (ByteRange_end_exclusive range)) as (_ & _ & [Hm|(s & Hst & Hm)]);
    unfold union_of, union_from; simpl; rewrite Hm; [done|].
  apply elem_of_touched in Hst as [Hst _]. pose proof (st_input _ _ Hs) as Hi.
  rewrite Forall_forall in Hi. by apply Hi.
Qed.

Lemma wp_check_insertion s (Q : Z → RangeState → Prop) :
  kept s0 s → ByteRange_end_exclusive range ≤ range_max_input_bytes limits →
  (cached_after range l ≤ range_max_cached_bytes limits →
   count_after range l ≤ range_max_segments limits → Q (cached_after range l) s) →
  wp (check_insertion store (locked s0) (union_of range l)) s Q E.
Proof.
  intros Hk He HQ. pose proof (union_small He) as Hu.
  pose proof total_small as Ht. pose proof (st_segments _ _ Hs) as [Hok _].
  pose proof (zsum_filter segment_len (λ x, touches range x = true) l) as Hsplit.
  assert (0 ≤ total_len (touched range l)) by
    (apply total_len_nonneg; rewrite Forall_forall in *; intros x [_ ?]%list_elem_of_filter; by apply Hok).
  assert (0 ≤ total_len (untouched range l)) by
    (apply total_len_nonneg; rewrite Forall_forall in *; intros x [_ ?]%list_elem_of_filter; by apply Hok).
  pose proof (len_filter_complement (λ x, touches range x = true) l) as Hlen.
  pose proof (st_count _ _ Hs) as Hcount.
  assert (len (affected (union_of range l)) = len (touched range l)) as Haff.
  { pose proof (touched_indices_segments range [] l) as Hm. simpl in Hm.
    apply length_mapM in Hm. simpl. by rewrite Hm. }
  assert (removed_bytes (union_of range l) = total_len (touched range l)) as Hrem by done.
  unfold check_insertion. rewrite (st_cached _ _ Hs), Haff, Hrem.
  destruct Hlimits. assert (HARD_MAX_INPUT_BYTES + HARD_MAX_CACHED_BYTES ≤ u64_max) by done.
  assert (HARD_MAX_SEGMENTS + 1 ≤ usize_max) by (destruct usize_max_cases as [-> | ->]; done).
  unfold union_len, cached_after, count_after in *.
  apply wp_bind, wp_some_or; intros; checked_facts; [subst|lia].
  apply wp_bind, wp_some_or; intros; checked_facts; [subst|lia].
  apply wp_bind, wp_some_or; intros; checked_facts; [subst|lia].
  fold (union_len range l) (cached_after range l) in *.
  case_match eqn:Hb; checked_facts.
  { apply wp_raise. left. split; [done|]. by apply supply_cached. }
  apply wp_bind, wp_some_or.
  - intros count Hc. apply bind_Some in Hc as (c & Hc1 & Hc2). checked_facts. subst.
    fold (count_after range l). case_match eqn:Hb'; checked_facts.
    + apply wp_raise. left. split; [done|]. by apply supply_segments.
    + by apply HQ.
  - intros Hc. apply bind_None in Hc as [Hc|(c & Hc1 & Hc2)]; checked_facts; lia.
Qed.

Lemma wp_merge_segments s (Q : BackingBytes → RangeState → Prop) :
  kept s0 s → ByteRange_end_exclusive range ≤ range_max_input_bytes limits →
  held_capacity l + response_capacity resp ≤ range_max_resident_bytes limits →
  (∀ s' b, kept s0 s' → len (backing_bytes b) = union_len range l →
     union_len range l ≤ backing_capacity b →
     held_capacity l + response_capacity resp + backing_capacity b ≤ range_max_resident_bytes limits →
     (∀ x, union_start (union_of range l) ≤ x < union_end (union_of range l) →
       buffer_at (union_start (union_of range l)) (backing_bytes b) x =
         overlay (content l) range bytes x) → Q b s') →
  wp (merge_segments store (locked s0) (union_of range l) range
        {| backing_bytes := bytes; backing_capacity := response_capacity resp |}) s Q E.
Proof.
  intros Hk He Hheld HQ. pose proof (union_small He) as Hu. pose proof Hk as [Hk1 _].
  destruct response_capacity_bounds as [Hcap _]. destruct Hresp as [Hrange Hlen _ _].
  pose proof (st_segments _ _ Hs) as Hl. pose proof (st_held _ _ Hs) as Hh.
  assert (0 ≤ held_capacity l) as Hh0.
  { apply zsum_nonneg. destruct Hl as [Hok _]. eapply Forall_impl; [done|]. intros x []. simpl.
    unfold segment_len in *. lia. }
  assert (HARD_MAX_INPUT_BYTES ≤ usize_max) as Hin by (destruct usize_max_cases as [-> | ->]; done).
  destruct (merged_bytes_ok range bytes l Hrange Hl Hlen) as (u1 & u2 & Hc1 & Hc2 & Hlen2 & Hat).
  { destruct Hlimits. unfold union_len in Hu. lia. }
  unfold merge_segments. fold (union_len range l). apply wp_bind. unfold wp at 1.
  destruct (try_reserve_remaining store _ _ s) as [s1 r] eqn:Hr.
  apply try_reserve_remaining_run in Hr as (Hk2 & n & Hn & Hcase);
    [|done|lia|rewrite Hk1; simpl; lia..]. rewrite Hk1 in Hcase. simpl in Hcase.
  destruct Hcase as [(available & -> & Hmin & Hav)|(attempted & Hlt & -> & Hatt)].
  2: { left. split; [by etrans|]. eapply supply_resident with (merged := union_len range l) (n := n);
         [done|right; by left|lia|done]. }
  assert (kept s0 s1) as Hk3 by by etrans. clear Hk2.
  rewrite try_from_small by (destruct Hlimits; lia). apply wp_bind, wp_some_or; [|done]. intros ? [= <-].
  apply wp_bind. unfold wp at 1. destruct (reserve_bytes _ _ s1) as [s2 r2] eqn:Hr2.
  apply reserve_bytes_run in Hr2 as [Hk4 [(k & c & -> & Hc)|(-> & k & Hc)]].
  2: { left. split; [by etrans|]. apply (supply_allocation _ _ k _ _ 0). by right. }
  pose proof (bytes_reserved_spec _ _ _ Hc) as Hcb. assert (kept s0 s2) as Hk5 by by etrans.
  assert (usize_max ≤ u64_max) by (destruct usize_max_cases as [-> | ->]; done).
  rewrite try_from_small by lia. apply wp_bind, wp_some_or; [|done]. intros ? [= <-].
  destruct (Z.ltb_spec available c).
  { apply wp_bind, wp_some_or; intros; checked_facts; [|destruct Hn; lia]. apply wp_raise. left.
    split; [done|]. eapply supply_resident with (n := n); [done|right; right; by exists k|lia|].
    unfold saturating_add. destruct Hlimits. assert (HARD_MAX_RESIDENT_BYTES < u64_max) by done. lia. }
  apply wp_bind. unfold affected_segments, wp at 1, ok_or.
  pose proof (touched_indices_segments range [] l) as Hm. simpl in Hm.
  change (affected (union_of range l)) with (touched_indices range 0 l).
  rewrite Hm. lazy beta iota. fold (union_len range l) in Hc1. rewrite Hc1.
  apply wp_bind, wp_lift; [|done]. intros ? [= <-]. simpl backing_bytes. rewrite Hc2.
  apply wp_bind, wp_lift; [|done]. intros ? [= <-].
  apply wp_bind, wp_bind, wp_some_or; intros; checked_facts; [|lia].
  unfold wp. simpl. rewrite adopt_vec_ok by lia.
  destruct Hn. apply HQ; simpl; done || lia.
Qed.

(** *** The updates of the tickets *)

Definition update_of (l' : list Segment) (observed : option Z) (r : TicketRecord)
    : option SmallRanges :=
  if resolved l' observed r then None else Some (still_missing l' r).
Fixpoint updates_from (l' : list Segment) (observed : option Z) (i : nat) (t : list TicketRecord)
    : list (nat * option SmallRanges) :=
  match t with
  | [] => []
  | r :: t =>
      (if is_pending (record_phase r) then [(i, update_of l' observed r)] else [])
      ++ updates_from l' observed (S i) t
  end.

Definition with_tickets (t : list TicketRecord) (s : RangeState) : RangeState :=
  {| locked := set_tickets t (locked s); source_changed := source_changed s;
     flag_reads := flag_reads s; reservations := reservations s; allocations := allocations s |}.

Lemma apply_updates_run l' observed s t : ∀ pre ready,
  apply_updates (updates_from l' observed (length pre) t) ready (with_tickets (pre ++ t) s) =
    (with_tickets (pre ++ (settle l' observed <$> t)) s,
     Ok (ready ++ (record_ticket <$> filter (λ r, becomes_ready l' observed r = true) t))).
Proof.
  induction t as [|r t IH]; intros pre ready; cbn [updates_from].
  { by rewrite fmap_nil, !app_nil_r. }
  rewrite fmap_cons.
  pose proof (IH (pre ++ [settle l' observed r])) as IH'. rewrite length_app in IH'.
  simpl in IH'. rewrite Nat.add_1_r in IH'. rewrite <-!app_assoc in IH'. simpl in IH'.
  assert (∀ r', set_record (length pre) r' (locked (with_tickets (pre ++ r :: t) s)) =
    locked (with_tickets (pre ++ r' :: t) s)) as Hset.
  { intros r'. unfold set_record, with_tickets, set_tickets. simpl. f_equal.
    rewrite insert_app_r_alt, Nat.sub_diag by done. done. }
  specialize (IH' (if becomes_ready l' observed r then ready ++ [record_ticket r] else ready)).
  unfold becomes_ready, settle, update_of in *. destruct (is_pending (record_phase r)) eqn:Hp; simpl.
  - unfold mbind, M_bind, gets, ok_or. simpl. rewrite list_lookup_middle by done.
    destruct (resolved l' observed r) eqn:Hr; simpl in *.
    + unfold update, modify. rewrite Hset. simpl. rewrite filter_cons_True by (by rewrite Hp, Hr).
      rewrite fmap_cons, <-!app_assoc in *. apply IH'.
    + unfold update, modify. rewrite Hset. simpl. rewrite filter_cons_False by (rewrite Hp, Hr; done).
      apply IH'.
  - rewrite filter_cons_False by (rewrite Hp; done). apply IH'.
Qed.

Lemma resolves_at_eof_spec l' bind observed' r :
  segments_ok l' → waiting limits (observed_len (locked s0)) l r →
  match bind with
  | Some o => observed' = Some o
  | None => observed' = observed_len (locked s0)
  end →
  resolved l' observed' r =
    bool_decide (still_missing l' r = []) ||
    from_option (λ o, missing_crosses_eof (still_missing l' r) o) false bind.
Proof.
  intros Hl' Hw Hb. unfold resolved. destruct bind as [o|]; subst observed'; [done|].
  destruct Hw as [Hc _ _ _ Hwithin _]. destruct (observed_len (locked s0)) as [o|]; [|done].
  simpl in *. f_equal. assert (canonical (still_missing l' r)) as Hm by by apply remaining_gaps_canonical.
  apply missing_within; [done|]. apply Forall_forall. intros g Hg.
  destruct Hm as [Hok _]. rewrite Forall_forall in Hok. pose proof (range_nonempty g (Hok _ Hg)).
  destruct (proj1 (remaining_gaps_in_ranges (ByteRange_end_exclusive g - 1) l' (record_missing r) Hl'))
    as [(g' & Hg' & Hin) _].
  { exists g. split; [done|]. unfold in_range. lia. }
  rewrite Forall_forall in Hwithin. specialize (Hwithin _ Hg'). unfold in_range in Hin. lia.
Qed.

Lemma still_missing_after l' r :
  segments_ok l' → canonical (record_missing r) →
  (∀ x, content l' x = overlay (content l) range bytes x) →
  missing_after l resp r (still_missing l' r).
Proof.
  intros Hl' Hr Hc. split; [by apply remaining_gaps_canonical|]. intros x.
  unfold still_missing. by rewrite remaining_gaps_in_ranges, Hc by done.
Qed.

Lemma wp_ticket_updates l' bind observed' s t i acc
    (Q : list (nat * option SmallRanges) → RangeState → Prop) :
  kept s0 s → segments_ok l' → (∀ x, content l' x = overlay (content l) range bytes x) →
  match bind with
  | Some o => observed' = Some o
  | None => observed' = observed_len (locked s0)
  end →
  (∀ r, r ∈ t → r ∈ tickets (locked s0)) →
  (∀ s', kept s0 s' →
     (∀ r, r ∈ t → is_waiting r → len (still_missing l' r) ≤ range_max_missing_ranges limits) →
     Q (acc ++ updates_from l' observed' i t) s') →
  wp (ticket_updates_loop store l' bind i t acc) s Q E.
Proof.
  intros Hk Hl' Hc Hb. revert s i acc Hk. induction t as [|r t IH]; intros s i acc Hk Ht HQ.
  { specialize (HQ s Hk ltac:(by intros r ?%not_elem_of_nil)). simpl in HQ.
    rewrite app_nil_r in HQ. exact HQ. }
  cbn [ticket_updates_loop updates_from] in *. apply wp_bind.
  assert (∀ r, r ∈ t → r ∈ tickets (locked s0)) as Ht' by (intros; apply Ht; by right).
  pose proof (Ht r ltac:(left)) as Hr. destruct (is_pending (record_phase r)) eqn:Hp.
  2: { apply IH; [done..|]. intros s' Hk' Hlen. apply HQ; [done|].
       intros r' [->|Hr']%elem_of_cons Hw; [unfold is_waiting in Hw; congruence|by apply Hlen]. }
  pose proof (st_records _ _ Hs) as Hrec. rewrite Forall_forall in Hrec.
  pose proof (rec_waiting _ _ _ _ (Hrec r Hr) (proj1 (is_waiting_phase r) Hp)) as Hw.
  pose proof (wait_canonical _ _ _ _ Hw) as Hcan.
  pose proof (still_missing_after l' r Hl' Hcan Hc) as Hafter.
  apply wp_bind, wp_bind, wp_reserve_metadata; [done|intros k Hm; eapply supply_allocation; by left|].
  intros s1 Hk1. rewrite remaining_loop_gaps by (destruct Hl', Hcan, Hlimits; done || (simpl; lia)).
  fold (still_missing l' r). unfold bounded_app. simpl length. rewrite Z.add_0_l. simpl app.
  apply wp_bind. destruct (Z.leb_spec (len (still_missing l' r)) (range_max_missing_ranges limits)).
  2: { left. split; [done|]. by eapply supply_missing with (m := still_missing l' r). }
  apply wp_lift; [|done]. intros ? [= <-].
  assert (Hlast : ∀ s', kept s0 s' → wp (ticket_updates_loop store l' bind (S i) t
    (acc ++ [(i, update_of l' observed' r)])) s' Q E).
  { intros s' Hk'. apply IH; [done..|]. intros s2 Hk2 Hlen.
    rewrite <-app_assoc. apply HQ; [done|]. intros r' [->|Hr']%elem_of_cons Hw'; [done|by apply Hlen]. }
  unfold update_of in Hlast. rewrite (resolves_at_eof_spec l' bind observed' r Hl' Hw Hb) in Hlast.
  case_bool_decide as Hnil; simpl in Hlast.
  - apply wp_ret, wp_ret. destruct bind; by apply Hlast.
  - rewrite try_from_canonical_ok by (done || apply Hafter).
    apply wp_bind, wp_lift; [|done]. intros ? [= <-]. apply wp_ret, wp_ret.
    destruct bind as [o|]; simpl in *; [|by apply Hlast].
    specialize (Hlast s1 Hk1). by destruct (missing_crosses_eof (still_missing l' r) o).
Qed.

(** *** The insertion *)

Lemma union_end_small :
  ByteRange_end_exclusive range ≤ range_max_input_bytes limits →
  union_end (union_of range l) ≤ range_max_input_bytes limits.
Proof.
  intros He. pose proof (union_small He). unfold union_len in *.
  destruct Hresp as [Hr _ _ _]. destruct (union_bounds range l Hr (st_segments _ _ Hs)) as (HU & _ & _).
  destruct (foldl_max (touched range l) (ByteRange_end_exclusive range)) as (_ & _ & [Hm|(s & Hst & Hm)]);
    unfold union_of, union_from; simpl; rewrite Hm; [done|].
  apply elem_of_touched in Hst as [Hst _]. pose proof (st_input _ _ Hs) as Hi.
  rewrite Forall_forall in Hi. by apply Hi.
Qed.

Lemma union_within o :
  ByteRange_end_exclusive range ≤ o → Forall (λ x, segment_end x ≤ o) l →
  union_end (union_of range l) ≤ o.
Proof.
  intros He Hi.
  destruct (foldl_max (touched range l) (ByteRange_end_exclusive range)) as (_ & _ & [Hm|(s & Hst & Hm)]);
    unfold union_of, union_from; simpl; rewrite Hm; [done|].
  apply elem_of_touched in Hst as [Hst _]. rewrite Forall_forall in Hi. by apply Hi.
Qed.

(** Without a conflict the length known afterwards is the one of the response. *)
Lemma observed_after_snapshot :
  metadata_conflicts (locked s0) snapshot = false →
  observed_after (locked s0) snapshot = snapshot_len snapshot.
Proof.
  unfold metadata_conflicts, observed_after.
  destruct (observed_len (locked s0)), (snapshot_len snapshot); intros Hc; try done.
  apply negb_false_iff, Z.eqb_eq in Hc. by subst.
Qed.

(** The segment that replaces the affected ones. *)
Record new_backing_ok (b : BackingBytes) : Prop := {
  nb_len : len (backing_bytes b) = union_len range l;
  nb_capacity : union_len range l ≤ backing_capacity b;
  nb_held : held_capacity l - held_capacity (touched range l) + backing_capacity b
            ≤ range_max_resident_bytes limits;
  nb_bytes : ∀ x, union_start (union_of range l) ≤ x < union_end (union_of range l) →
    buffer_at (union_start (union_of range l)) (backing_bytes b) x = overlay (content l) range bytes x
}.

Definition inserted (b : BackingBytes) : list Segment :=
  insert_segment {| segment_start := union_start (union_of range l);
                    segment_end := union_end (union_of range l); segment_backing := b |}
    (untouched range l).

Lemma inserted_content b :
  new_backing_ok b → segments_ok (inserted b) ∧
  ∀ x, content (inserted b) x = overlay (content l) range bytes x.
Proof.
  intros Hb. destruct Hresp as [Hr _ _ _]. pose proof (st_segments _ _ Hs) as Hl.
  destruct (union_bounds range l Hr Hl) as ([HU0 HU] & HV & _). pose proof (range_nonempty range Hr).
  assert (segment_ok {| segment_start := union_start (union_of range l);
    segment_end := union_end (union_of range l); segment_backing := b |}) as Hnew.
  { destruct Hb. unfold union_len in *.
    split; unfold segment_len; cbn [segment_start segment_end segment_backing]; lia. }
  split; [by apply insert_segment_ok|]. intros x. unfold inserted. rewrite insert_segment_content by done.
  case_decide as Hx.
  - rewrite segment_at_lookup by done. by apply (nb_bytes _ Hb).
  - unfold overlay. rewrite decide_False; [done|]. intros Hx'. apply Hx.
    apply union_exact; [done..|]. by left.
Qed.

Lemma inserted_layout b :
  new_backing_ok b → metadata_conflicts (locked s0) snapshot = false →
  ByteRange_end_exclusive range ≤ range_max_input_bytes limits →
  from_option (λ o, o ≤ range_max_input_bytes limits ∧ Forall (λ x, segment_end x ≤ o) l) True
    (observed_after (locked s0) snapshot) →
  cached_after range l ≤ range_max_cached_bytes limits →
  count_after range l ≤ range_max_segments limits →
  layout_ok store (inserted b) (observed_after (locked s0) snapshot).
Proof.
  intros Hb Hc He Ho Hcached Hcount. destruct (inserted_content b Hb) as [Hok _].
  pose proof Hresp as [Hr _ _ Hwithin]. pose proof (st_segments _ _ Hs) as Hl.
  assert (∀ P : Segment → Prop, P {| segment_start := union_start (union_of range l);
    segment_end := union_end (union_of range l); segment_backing := b |} → Forall P l →
    Forall P (inserted b)) as Hall.
  { intros P Hnew HP. rewrite Forall_forall in *. intros x Hx.
    apply insert_segment_elem in Hx as [->|[_ Hx]%list_elem_of_filter]; [done|by apply HP|done]. }
  split; [done|..].
  - apply Hall; [by apply union_end_small|by apply st_input].
  - rewrite observed_after_snapshot in * by done. destruct (snapshot_len snapshot) as [o|]; [|done].
    simpl in *. apply Hall; [|by destruct Ho]. apply union_within; naive_solver.
  - unfold inserted. by rewrite insert_segment_sum by done.
  - unfold inserted. by rewrite insert_segment_length by done.
  - unfold inserted, held_capacity. rewrite insert_segment_sum by done. apply (nb_held _ Hb).
  - rewrite observed_after_snapshot in * by done. destruct (snapshot_len snapshot) as [o|]; [|done].
    simpl in *. naive_solver.
  - intros n Hn. apply (st_snapshot _ _ Hs) in Hn. unfold observed_after. by rewrite Hn.
Qed.

Lemma wp_insert_response s bind (Q : SupplyOutcome → RangeState → Prop) :
  kept s0 s → ByteRange_end_exclusive range ≤ range_max_input_bytes limits →
  held_capacity l + response_capacity resp ≤ range_max_resident_bytes limits →
  metadata_conflicts (locked s0) snapshot = false →
  match bind with
  | Some o => observed_len (locked s0) = None ∧ snapshot_len snapshot = Some o ∧
              o ≤ range_max_input_bytes limits ∧ Forall (λ x, segment_end x ≤ o) l
  | None => observed_after (locked s0) snapshot = observed_len (locked s0)
  end →
  (∀ l' outcome s', segments_ok l' →
     (∀ x, content l' x = overlay (content l) range bytes x) →
     layout_ok store l' (observed_after (locked s0) snapshot) →
     (∀ r, r ∈ tickets (locked s0) → is_waiting r →
        len (still_missing l' r) ≤ range_max_missing_ranges limits) →
     accepted s0 snapshot l' outcome s' → Q outcome s') →
  wp (insert_response store range {| backing_bytes := bytes; backing_capacity := response_capacity resp |}
        bind) s Q E.
Proof.
  intros Hk He Hheld Hc Hb HQ. pose proof Hk as [Hk' _]. apply wp_gets. rewrite Hk'.
  pose proof (st_segments _ _ Hs) as Hl. pose proof Hl as [Hok _]. pose proof Hresp as [Hr Hlen Hcap _].
  assert (from_option (λ o, o ≤ range_max_input_bytes limits ∧ Forall (λ x, segment_end x ≤ o) l) True
    (observed_after (locked s0) snapshot)) as Hobs.
  { destruct bind as [o|]; [unfold observed_after; by destruct Hb as (-> & -> & ? & ?)|]. rewrite Hb.
    pose proof (st_observed _ _ Hs). pose proof (st_within _ _ Hs).
    destruct (observed_len (locked s0)); simpl in *; naive_solver lia. }
  apply wp_bind, wp_reserve_metadata; [done|intros k Hm; eapply supply_allocation; by left|].
  intros s1 Hk1. rewrite affected_loop_spec; [|done|].
  2: { simpl. pose proof total_small. destruct Hlimits.
       assert (HARD_MAX_CACHED_BYTES ≤ u64_max) by done. lia. }
  fold (union_of range l). apply wp_bind, wp_lift; [|done]. intros ? [= <-].
  apply wp_bind, wp_check_insertion; [done|done|]. intros Hcached Hcount. apply wp_bind.
  assert (∀ s' b, kept s0 s' → new_backing_ok b → wp (
    reserve_metadata (range_max_segments limits) (SourceError_resource SourceAllocation
      (range_max_segments limits) (len l - len (affected (union_of range l)) + 1));;
    reserve_metadata (len (tickets (locked s0))) (SourceError_resource SourceAllocation
      (range_max_tickets limits) (len (tickets (locked s0))));;
    ticket_updates ← ticket_updates_loop store (inserted b) bind 0 (tickets (locked s0)) [];
    check_source_change;;
    update (set_segments (inserted b) (cached_after range l));;
    when (bool_decide (is_Some bind)) (update (set_observed_len bind));;
    ready_tickets ← apply_updates ticket_updates [];
    mret {| outcome_cached_bytes := cached_after range l; outcome_ready_tickets := ready_tickets |})
    s' Q E) as Hrest.
  { intros s2 b Hk2 Hnb. destruct (inserted_content b Hnb) as [Hok' Hcontent].
    apply wp_bind, wp_reserve_metadata; [done|intros k Hm; eapply supply_allocation; by left|].
    intros s3 Hk3.
    apply wp_bind, wp_reserve_metadata; [done|intros k Hm; eapply supply_allocation; by left|].
    intros s4 Hk4.
    assert (match bind with
      | Some o => observed_after (locked s0) snapshot = Some o
      | None => observed_after (locked s0) snapshot = observed_len (locked s0) end) as Hb'.
    { destruct bind as [o|]; [|done]. unfold observed_after. by destruct Hb as (-> & -> & _). }
    apply wp_bind, wp_ticket_updates with (observed' := observed_after (locked s0) snapshot); [done..|].
    intros s5 Hk5 Hmiss.
    apply wp_bind, wp_check with (snapshot := snapshot); [apply supply_mismatch|done|].
    intros s6 Hk6 Hflag. set (observed' := observed_after (locked s0) snapshot) in *.
    pose proof (inserted_layout b Hnb Hc He Hobs Hcached Hcount) as Hlay.
    pose proof (apply_updates_run (inserted b) observed'
      {| locked := {| segments := inserted b; cached_bytes := cached_after range l;
           tickets := tickets (locked s0); next_ticket := next_ticket (locked s0);
           observed_len := observed'; subscription_count := subscription_count (locked s0) |};
         source_changed := source_changed s6; flag_reads := flag_reads s6;
         reservations := reservations s6; allocations := allocations s6 |}
      (tickets (locked s0)) [] []) as Hrun. simpl in Hrun.
    pose proof Hk6 as [Hk6' Hf6].
    assert (total_len (inserted b) = cached_after range l) as Htotal.
    { unfold inserted. by rewrite insert_segment_sum by done. }
    unfold wp, when, update, modify, mbind, M_bind. rewrite Hk6'.
    assert (match bind with Some _ => bind | None => observed_len (locked s0) end = observed') as Hbo
      by (destruct bind; by rewrite Hb').
    unfold with_tickets, set_tickets in Hrun. simpl in Hrun.
    assert (∀ s', (s' = ({| locked := settled (inserted b) observed' (locked s0);
        source_changed := source_changed s6; flag_reads := flag_reads s6;
        reservations := reservations s6; allocations := allocations s6 |})) →
      Q {| outcome_cached_bytes := cached_after range l;
           outcome_ready_tickets := newly_ready (inserted b) observed' (locked s0) |} s') as Hdone.
    { intros s' ->. apply HQ with (l' := inserted b); [done..|].
      split; simpl; [done|by rewrite Hf6|by rewrite Htotal]. }
    unfold settled in Hdone. rewrite Htotal in Hdone.
    unfold set_segments, set_observed_len. destruct bind as [o|]; simpl; rewrite Hbo, Hrun; by apply Hdone. }
  assert (unaffected_loop (affected (union_of range l)) 0 l = untouched range l) as ->.
  { apply (unaffected_loop_spec range [] 0 l). by intros k ?%not_elem_of_nil. }
  pose proof (zsum_filter (λ x, backing_capacity (segment_backing x)) (λ x, touches range x = true) l)
    as Hsplit.
  destruct (bool_decide_reflect (affected (union_of range l) = [])) as [Haff|Haff].
  - apply wp_ret, Hrest; [done|]. change (affected (union_of range l)) with (touched_indices range 0 l) in Haff.
    apply touched_indices_nil in Haff.
    assert (union_start (union_of range l) = range_start range ∧
      union_end (union_of range l) = ByteRange_end_exclusive range) as [HU HV].
    { unfold union_of, union_from. simpl. by rewrite Haff. }
    split; unfold union_len; rewrite ?HU, ?HV; simpl.
    + rewrite Hlen. unfold ByteRange_end_exclusive. lia.
    + unfold ByteRange_end_exclusive. lia.
    + rewrite Haff. unfold held_capacity in *. simpl. lia.
    + intros x Hx. unfold overlay, buffer_at. rewrite decide_True by done. by rewrite supplied_in.
  - apply wp_merge_segments; [done..|]. intros s2 b Hk2 Hl2 Hc2 Hh2 Hat. apply Hrest; [done|].
    split; try done. unfold held_capacity in *.
    assert (0 ≤ zsum (λ x, backing_capacity (segment_backing x)) (touched range l)).
    { apply zsum_nonneg, Forall_forall. intros x [_ Hx]%list_elem_of_filter.
      rewrite Forall_forall in Hok. destruct (Hok x Hx). unfold segment_len in *. lia. }
    lia.
Qed.

Lemma held_fits (x : Segment) : x ∈ l → segment_len x ≤ usize_max.
Proof.
  intros Hx. pose proof (st_segments _ _ Hs) as [Hok _]. pose proof (st_held _ _ Hs) as Hh.
  assert (HARD_MAX_RESIDENT_BYTES ≤ usize_max) by (destruct usize_max_cases as [-> | ->]; done).
  destruct Hlimits. unfold held_capacity in Hh. rewrite Forall_forall in Hok.
  assert (backing_capacity (segment_backing x) ≤ zsum (λ x, backing_capacity (segment_backing x)) l).
  { apply (zsum_elem_le (λ x, backing_capacity (segment_backing x))); [|done].
    apply Forall_forall. intros y Hy. destruct (Hok y Hy). unfold segment_len in *. lia. }
  destruct (Hok x Hx). lia.
Qed.

Lemma overlay_agrees x :
  (∀ x, ¬ differs (content l) range bytes x) →
  (∀ x, in_range x range → is_Some (content l x)) →
  content l x = overlay (content l) range bytes x.
Proof.
  intros Hd Hc. unfold overlay. case_decide as Hx; [|done].
  destruct (decide (content l x = supplied range bytes x)) as [|Hne]; [done|].
  destruct (Hd x). split; [done|]. split; [by apply Hc|done].
Qed.

Lemma supply_wp :
  wp (supply store resp) s0
    (λ outcome s', ∃ l', supplied_ok s0 resp l' ∧ accepted s0 snapshot l' outcome s') E.
Proof.
  pose proof (st_segments _ _ Hs) as Hl. destruct response_capacity_bounds as [_ Hfit].
  apply wp_bind, wp_check_source; [apply supply_mismatch|]. intros s1 Hk1 _ Hsame.
  apply wp_bind, wp_check_response; [done|]. intros Hread Hinput.
  apply wp_bind, wp_adopt_response; [done|]. intros s2 Hk2 Hheld.
  apply wp_bind, wp_check with (snapshot := snapshot); [apply supply_mismatch|done|]. intros s3 Hk3 _.
  apply wp_bind, wp_observed_binding; [apply supply_mismatch|done|done|apply supply_observed|].
  intros bind Hc Hb. apply wp_bind, wp_gets, wp_reserve_metadata; [done| |].
  { intros k Hm. eapply supply_allocation. left. exact Hm. }
  intros s4 Hk4. pose proof Hk4 as [Hk4' _]. apply wp_gets. rewrite Hk4'. apply wp_bind.
  destruct (conflict_loop_spec range bytes l) as (conflict & Hconf & Hiff);
    [done|apply Forall_forall, held_fits|done|apply Hresp|].
  cbn [backing_bytes]. unfold wp at 1, of_result. rewrite Hconf.
  destruct conflict.
  { apply wp_poison; [done|]. right. split; [done|]. by apply Hiff. }
  assert (∀ x, ¬ differs (content l) range bytes x) as Hagrees.
  { intros x Hx. enough (false = true) by done. apply Hiff. by exists x. }
  destruct (range_is_covered l range) eqn:Hcov.
  - rewrite range_is_covered_spec in Hcov by (done || apply Hresp).
    eapply wp_commit_binding with (snapshot := snapshot); [apply supply_mismatch|done|done| |].
    { destruct bind as [o|]; [|done]. unfold observed_after. by destruct Hb as (-> & -> & _). }
    intros outcome s' Hacc. exists l. split; [|done].
    assert (layout_ok store l (observed_after (locked s0) snapshot)) as Hlay.
    { pose proof (store_layout _ _ Hs) as Hlay0. destruct bind as [o|]; [|by rewrite Hb].
      unfold observed_after. destruct Hb as (Ho & Hn & Hle & Hw). rewrite Ho, Hn in *.
      pose proof Hresp as [_ _ _ Hw0]. rewrite Hn in Hw0. destruct Hlay0. simpl in *.
      split; simpl; try done; [lia|]. intros n Hn'. by apply lay_snapshot in Hn'. }
    split; try done; [intros x; by apply overlay_agrees|].
    intros r Hr Hw. pose proof (st_records _ _ Hs) as Hrec. rewrite Forall_forall in Hrec.
    pose proof (rec_waiting _ _ _ _ (Hrec r Hr) (proj1 (is_waiting_phase r) Hw)) as Hwait.
    rewrite (still_missing_unchanged _ _ _ _ Hl Hwait). by destruct Hwait.
  - apply wp_insert_response with (bind := bind); [done..|]. intros l' outcome s' Hok' Hcontent Hlay Hmiss Hacc.
    exists l'. split; [by split|done].
Qed.
End supply_stages.
End supply.
