(* ===== verification/RangeTickets.v ===== *)
(** * Outcomes of the ticket calls and of [poll]

    Each call as a function of the record it names, and its effect on the
    invariant. *)

From stdpp Require Import base list numbers option sorting sets.
From S2P Require Import Prelude.
From S2P Require Import SourceTypes.
From S2P Require Import RangeTypes.
From S2P Require Import RangeStore.
From S2P Require Import RangeSegments.
From S2P Require Import RangeMerge.
From S2P Require Import RangeInv.
From S2P Require Import RangeSupply.

(** ** Records by identity *)

Definition lookup_ticket (t : DataTicket) (s : StoreState) : option TicketRecord :=
  snd <$> find_ticket t (tickets s).
Definition alter_ticket (t : DataTicket) (f : TicketRecord → TicketRecord) (s : StoreState) : StoreState :=
  set_tickets ((λ r, if decide (record_ticket r = t) then f r else r) <$> tickets s) s.
Definition remove_ticket (t : DataTicket) (s : StoreState) : StoreState :=
  set_tickets (filter (λ r, record_ticket r ≠ t) (tickets s)) s.

Lemma lookup_ticket_Some t s r :
  NoDup (record_ticket <$> tickets s) →
  lookup_ticket t s = Some r ↔ r ∈ tickets s ∧ record_ticket r = t.
Proof.
  intros Hnd. unfold lookup_ticket, find_ticket. rewrite fmap_Some. split.
  - intros ([i r'] & (Hi & Ht & _)%list_find_Some & ->). split; [|done].
    by eapply list_elem_of_lookup_2.
  - intros [Hr Ht]. destruct (list_find (λ r, record_ticket r = t) (tickets s)) as [[i r']|] eqn:Hf.
    + exists (i, r'). split; [done|]. apply list_find_Some in Hf as (Hi & Ht' & _). simpl.
      apply list_elem_of_lookup in Hr as [j Hj].
      assert (i = j) as ->; [|congruence].
      eapply NoDup_lookup; [done| |]; rewrite list_lookup_fmap; [by rewrite Hi|rewrite Hj; simpl; congruence].
    + apply list_find_None in Hf. rewrite Forall_forall in Hf. by destruct (Hf r Hr).
Qed.

Lemma find_ticket_alter t s i r f :
  NoDup (record_ticket <$> tickets s) → find_ticket t (tickets s) = Some (i, r) →
  set_record i (f r) s = alter_ticket t f s.
Proof.
  intros Hnd (Hi & Ht & _)%list_find_Some. unfold set_record, alter_ticket. f_equal.
  apply list_eq. intros j. rewrite list_lookup_fmap. destruct (decide (i = j)) as [<-|Hne].
  - rewrite list_lookup_insert_eq by (by eapply lookup_lt_Some). rewrite Hi. simpl.
    by rewrite decide_True by done.
  - rewrite list_lookup_insert_ne by done. destruct (tickets s !! j) as [r'|] eqn:Hj; [|done]. simpl.
    rewrite decide_False; [done|]. intros Ht'. apply Hne.
    eapply NoDup_lookup; [done| |]; rewrite list_lookup_fmap; [by rewrite Hi|rewrite Hj; simpl; congruence].
Qed.

Lemma find_ticket_remove t s i r :
  NoDup (record_ticket <$> tickets s) → find_ticket t (tickets s) = Some (i, r) →
  set_tickets (delete i (tickets s)) s = remove_ticket t s.
Proof.
  intros Hnd (Hi & Ht & _)%list_find_Some. unfold remove_ticket. f_equal.
  revert i Hi. induction (tickets s) as [|r' l IH]; intros i Hi; [done|].
  rewrite fmap_cons in Hnd. apply NoDup_cons in Hnd as [Hn Hnd].
  destruct i as [|i]; simpl in Hi; simplify_eq.
  - rewrite filter_cons_False by naive_solver. symmetry. apply filter_all. intros x Hx Ht'.
    apply Hn. rewrite <-Ht'. by apply list_elem_of_fmap_2.
  - rewrite filter_cons_True.
    + simpl. f_equal. by apply IH.
    + intros Ht'. apply Hn. rewrite Ht'. apply list_elem_of_fmap_2. by eapply list_elem_of_lookup_2.
Qed.

(** ** The invariant under updates of one record *)

Definition subscriptions (l : list TicketRecord) : Z := zsum (λ r, len (record_subscribers r)) l.

Lemma subscriptions_alter t f l r :
  NoDup (record_ticket <$> l) → r ∈ l → record_ticket r = t →
  subscriptions ((λ r, if decide (record_ticket r = t) then f r else r) <$> l) =
    subscriptions l - len (record_subscribers r) + len (record_subscribers (f r)).
Proof.
  intros Hnd Hr Ht. apply list_elem_of_split in Hr as (l1 & l2 & ->).
  rewrite fmap_app, fmap_cons in Hnd. apply NoDup_app in Hnd as (_ & Hn1 & [Hn2 _]%NoDup_cons).
  assert (∀ k : list TicketRecord, (∀ x, x ∈ k → record_ticket x ≠ t) →
    (λ r, if decide (record_ticket r = t) then f r else r) <$> k = k) as Hid.
  { intros k Hk. rewrite (list_fmap_ext _ id k), list_fmap_id; [done|].
    intros i x Hx. rewrite decide_False; [done|]. apply Hk. by eapply list_elem_of_lookup_2. }
  unfold subscriptions. rewrite fmap_app, fmap_cons, decide_True by done.
  rewrite (Hid l1), (Hid l2).
  - rewrite !zsum_app. simpl. lia.
  - intros x Hx Hxt. apply Hn2. rewrite Ht, <-Hxt. by apply list_elem_of_fmap_2.
  - intros x Hx Hxt. eapply Hn1; [by apply (list_elem_of_fmap_2 record_ticket), Hx|].
    rewrite Hxt, <-Ht. left.
Qed.

Lemma alter_ok `{Platform} store s t f r count :
  store_ok store s → r ∈ tickets s → record_ticket r = t → record_ticket (f r) = t →
  record_ok (store_limits store) (observed_len s) (segments s) (f r) →
  count = subscription_count s - len (record_subscribers r) + len (record_subscribers (f r)) →
  count ≤ range_max_total_subscriptions (store_limits store) →
  store_ok store (set_subscription_count count (alter_ticket t f s)).
Proof.
  intros Hs Hr Ht Hft Hok Hc Hle. pose proof (st_distinct _ _ Hs) as Hnd.
  pose proof (st_issued _ _ Hs) as Hi. pose proof (st_records _ _ Hs) as Hrec.
  pose proof (st_subscriptions _ _ Hs) as Hsub. rewrite Forall_forall in Hi, Hrec.
  assert (∀ x, x ∈ tickets s → record_ticket x = t → x = r) as Huniq.
  { intros x Hx Hxt. enough (Some x = Some r) by congruence.
    rewrite <-(proj2 (lookup_ticket_Some t s x Hnd)), <-(proj2 (lookup_ticket_Some t s r Hnd)); done. }
  destruct Hs. split; simpl; try done.
  - rewrite <-list_fmap_compose. erewrite (list_fmap_ext _ record_ticket (tickets s)); [done|].
    intros i x Hx. simpl. case_decide as Hd; [|done].
    rewrite (Huniq x); [congruence|by eapply list_elem_of_lookup_2|done].
  - apply Forall_fmap, Forall_forall. intros x Hx. simpl. case_decide as Hd; [|by apply Hi].
    rewrite (Huniq x) by done. rewrite Hft, <-Ht. by apply Hi.
  - by rewrite length_fmap.
  - pose proof (subscriptions_alter t f (tickets s) r Hnd Hr Ht) as He. unfold subscriptions in He.
    rewrite He. lia.
  - apply Forall_fmap, Forall_forall. intros x Hx. simpl. case_decide as Hd; [|by apply Hrec].
    by rewrite (Huniq x).
Qed.

Lemma remove_ok `{Platform} store s t r :
  store_ok store s → r ∈ tickets s → record_ticket r = t → record_subscribers r = [] →
  store_ok store (remove_ticket t s).
Proof.
  intros Hs Hr Ht Hsubs. pose proof (st_distinct _ _ Hs) as Hnd.
  pose proof (st_issued _ _ Hs) as Hi. pose proof (st_records _ _ Hs) as Hrec.
  pose proof (st_subscriptions _ _ Hs) as Hsub. rewrite Forall_forall in Hi, Hrec.
  assert (∀ x, x ∈ tickets s → record_ticket x = t → x = r) as Huniq.
  { intros x Hx Hxt. enough (Some x = Some r) by congruence.
    rewrite <-(proj2 (lookup_ticket_Some t s x Hnd)), <-(proj2 (lookup_ticket_Some t s r Hnd)); done. }
  destruct Hs. split; simpl; try done.
  - eapply NoDup_sublist; [|done]. apply fmap_sublist, sublist_filter.
  - apply Forall_forall. intros x [_ Hx]%list_elem_of_filter. by apply Hi.
  - pose proof (sublist_length _ _ (sublist_filter (λ r, record_ticket r ≠ t) (tickets s))). lia.
  - rewrite Hsub, (zsum_filter _ (λ r, record_ticket r ≠ t)).
    assert (zsum (λ r, len (record_subscribers r)) (filter (λ x, ¬ record_ticket x ≠ t) (tickets s)) = 0)
      as ->; [|lia].
    rewrite (zsum_ext _ (λ _, 0)); [by induction (filter _ _)|].
    intros x [Hx Hin]%list_elem_of_filter. apply dec_stable in Hx. rewrite (Huniq x) by done.
    by rewrite Hsubs.
  - apply Forall_forall. intros x [_ Hx]%list_elem_of_filter. by apply Hrec.
Qed.

(** ** Calls *)

Inductive RangeCall :=
| CallObserve (snapshot : SourceSnapshot)
| CallSupply (response : RangeResponse)
| CallPoll (request : ReadRequest)
| CallSignal
| CallFail (ticket : DataTicket) (error : SourceError)
| CallUnsubscribe (ticket : DataTicket) (job : Z)
| CallTake (ticket : DataTicket)
| CallStatus (ticket : DataTicket)
| CallRelease (ticket : DataTicket).

Inductive RangeAnswer :=
| AnswerUnit
| AnswerOutcome (outcome : SupplyOutcome)
| AnswerPoll (poll : ReadPoll)
| AnswerSubscriptions (subscriptions : list ResumeSubscription)
| AnswerStatus (status : TicketStatus).

Definition answer {A} (f : A → RangeAnswer) (m : Op A) : Op RangeAnswer :=
  a ← m; mret (f a).

Definition run_call `{RangeRuntime} (store : RangeStore) (c : RangeCall) : Op RangeAnswer :=
  match c with
  | CallObserve snapshot => answer AnswerOutcome (observe_snapshot store snapshot)
  | CallSupply response => answer AnswerOutcome (supply store response)
  | CallPoll request => answer AnswerPoll (poll store request)
  | CallSignal => answer (λ _, AnswerUnit) signal_source_changed
  | CallFail ticket error => answer (λ _, AnswerUnit) (fail_ticket ticket error)
  | CallUnsubscribe ticket job => answer (λ _, AnswerUnit) (unsubscribe ticket job)
  | CallTake ticket => answer AnswerSubscriptions (take_subscriptions ticket)
  | CallStatus ticket => answer AnswerStatus (ticket_status ticket)
  | CallRelease ticket => answer (λ _, AnswerUnit) (release_ticket ticket)
  end.

(** The effect of a call on the record it names, [None] being the poisoning of the
    store. *)
Definition without_job (job : Z) (r : TicketRecord) : TicketRecord :=
  let kept := filter (λ s, subscription_job s ≠ job) (record_subscribers r) in
  let r := set_subscribers kept r in
  if bool_decide (kept = []) then set_phase PhaseAbandoned r else r.

Definition drop_subscriptions (n : Z) (s : StoreState) : StoreState :=
  set_subscription_count (subscription_count s - n) s.

Definition ticket_effect (c : RangeCall) (r : TicketRecord)
    : result SourceErrorCode (option (StoreState → StoreState) * RangeAnswer) :=
  let pending := is_pending (record_phase r) in
  let count r := len (record_subscribers r) in
  match c with
  | CallFail t e =>
      if bool_decide (source_error_category e = CategoryIntegrity) then Ok (None, AnswerUnit)
      else if pending then Ok (Some (alter_ticket t (set_phase (PhaseFailed e))), AnswerUnit)
      else Err TicketAlreadyTerminal
  | CallUnsubscribe t job =>
      if pending then
        Ok (Some (λ s, drop_subscriptions (count r - count (without_job job r))
                         (alter_ticket t (without_job job) s)), AnswerUnit)
      else Err TicketAlreadyTerminal
  | CallTake t =>
      if pending then Err TicketNotTerminal
      else Ok (Some (λ s, drop_subscriptions (count r) (alter_ticket t (set_subscribers []) s)),
               AnswerSubscriptions (record_subscribers r))
  | CallStatus t => Ok (Some id, AnswerStatus (status_of r))
  | CallRelease t =>
      if pending then Err TicketNotTerminal
      else if bool_decide (record_subscribers r = []) then Ok (Some (remove_ticket t), AnswerUnit)
      else Err SubscriptionsNotTaken
  | _ => Err SourceInternalState
  end.

Definition call_ticket (c : RangeCall) : option DataTicket :=
  match c with
  | CallFail t _ | CallUnsubscribe t _ | CallTake t | CallStatus t | CallRelease t => Some t
  | _ => None
  end.

Section tickets.
Context `{RangeRuntime} (store : RangeStore).

(** The state a ticket call works on, after it looked at the flag. *)
Definition synced (s0 s1 : RangeState) : Prop :=
  (kept s0 s1 ∧ source_changed s0 = false) ∨ (poisoned s0 s1 ∧ change_signalled s0).

Lemma synced_wf s0 s1 : synced s0 s1 → range_wf store s0 → range_wf store s1.
Proof. intros [[Hk _]|[Hp _]]; [by apply kept_wf|by apply poisoned_wf]. Qed.

(** The answer and the state a call must give. *)
Definition ticket_outcome (c : RangeCall) (t : DataTicket) (s1 s' : RangeState)
    (r : result (failure SourceError) RangeAnswer) : Prop :=
  match lookup_ticket t (locked s1) with
  | None => r = rejected UnknownTicket ∧ s' = s1
  | Some record =>
      match ticket_effect c record with
      | Ok (Some f, a) => r = Ok a ∧ locked s' = f (locked s1) ∧ source_changed s' = source_changed s1
      | Ok (None, a) => r = Ok a ∧ poisoned s1 s'
      | Err code => r = rejected code ∧ s' = s1
      end
  end.

Lemma synced_bind {A} (f : bool → Op A) s0 s' r :
  (synchronize_source_change ≫= f) s0 = (s', r) →
  ∃ s1 b, synced s0 s1 ∧ f b s1 = (s', r).
Proof.
  intros Hr. apply bind_inv in Hr as [(b & s1 & H1 & Hr)|(e & H1 & ->)];
    apply sync_run in H1 as [(Hb & Hk & Hc)|(Hb & Hp & Hc)]; simplify_eq.
  - exists s1, false. split; [by left|done].
  - exists s1, true. split; [by right|done].
Qed.

Lemma remove_subscriptions_ok n s :
  n ≤ subscription_count (locked s) →
  remove_subscriptions n s =
    ({| locked := drop_subscriptions n (locked s); source_changed := source_changed s;
        flag_reads := flag_reads s; reservations := reservations s; allocations := allocations s |}, Ok tt).
Proof.
  intros Hn. unfold remove_subscriptions, some_or, ok_or, checked_sub, gets, update, modify, mbind, M_bind.
  by rewrite (proj2 (Z.leb_le _ _)) by done.
Qed.

Lemma count_bound s r : store_ok store s → r ∈ tickets s → len (record_subscribers r) ≤ subscription_count s.
Proof.
  intros Hs Hr. rewrite (st_subscriptions _ _ Hs).
  apply (zsum_elem_le (λ r, len (record_subscribers r))); [|done]. apply Forall_forall. intros. lia.
Qed.

(** What the body of a call must do with the record it found. *)
Definition body_outcome {A} (g : A → RangeAnswer) (c : RangeCall) (record : TicketRecord)
    (s1 : RangeState) (out : RangeState * result (failure SourceError) A) : Prop :=
  match ticket_effect c record with
  | Ok (Some f, a) => ∃ s' v, out = (s', Ok v) ∧ g v = a ∧ locked s' = f (locked s1) ∧
                        source_changed s' = source_changed s1
  | Ok (None, a) => ∃ s' v, out = (s', Ok v) ∧ g v = a ∧ poisoned s1 s'
  | Err code => out = (s1, rejected code)
  end.

Lemma ticket_run {A} (g : A → RangeAnswer) c t (k : nat * TicketRecord → Op A) s0 s' r :
  range_wf store s0 →
  answer g (synchronize_source_change;; found ← find_ticket_mut t; k found) s0 = (s', r) →
  (∀ s1 i record, store_ok store (locked s1) → find_ticket t (tickets (locked s1)) = Some (i, record) →
     record ∈ tickets (locked s1) → body_outcome g c record s1 (k (i, record) s1)) →
  ∃ s1, synced s0 s1 ∧ ticket_outcome c t s1 s' r.
Proof.
  intros Hwf Hr Hk. unfold answer in Hr.
  destruct ((synchronize_source_change;; found ← find_ticket_mut t; k found) s0) as [s2 r2] eqn:Hb0.
  pose proof Hb0 as Hb.
  apply synced_bind in Hb as (s1 & b & Hsync & Hb). exists s1. split; [done|].
  unfold ticket_outcome, lookup_ticket. unfold find_ticket_mut, some_or, ok_or, gets, mbind, M_bind in Hb.
  destruct (find_ticket t (tickets (locked s1))) as [[i record]|] eqn:Hf; simpl.
  - assert (record ∈ tickets (locked s1)) as Hin.
    { apply list_find_Some in Hf as (Hi & _). by eapply list_elem_of_lookup_2. }
    destruct (synced_wf _ _ Hsync Hwf) as [Hok _]. specialize (Hk s1 i record Hok Hf Hin).
    unfold body_outcome in Hk. rewrite Hb in Hk.
    destruct (ticket_effect c record) as [[[f|] a]|code].
    + destruct Hk as (s3 & v & [= <- ->] & <- & ? & ?).
      rewrite (bind_ok _ _ _ s2 v) in Hr by exact Hb0. simpl in Hr. by injection Hr as <- <-.
    + destruct Hk as (s3 & v & [= <- ->] & <- & ?).
      rewrite (bind_ok _ _ _ s2 v) in Hr by exact Hb0. simpl in Hr. by injection Hr as <- <-.
    + injection Hk as -> ->. rewrite (bind_err _ _ _ s1 (Rejected (SourceError_for_code code))) in Hr by exact Hb0.
      simpl in Hr. by injection Hr as <- <-.
  - injection Hb as <- <-. rewrite (bind_err _ _ _ s1 (Rejected (SourceError_for_code UnknownTicket))) in Hr by exact Hb0.
    simpl in Hr. by injection Hr as <- <-.
Qed.

Lemma ticket_call_run c t s0 s' r :
  range_wf store s0 → call_ticket c = Some t → run_call store c s0 = (s', r) →
  ∃ s1, synced s0 s1 ∧ ticket_outcome c t s1 s' r.
Proof.
  intros Hwf Ht Hr. destruct c; simpl in Ht; simplify_eq; simpl in Hr;
    (eapply ticket_run; [done|exact Hr|]); clear Hr;
    intros s1 i record Hok Hf Hin; pose proof (st_distinct _ _ Hok) as Hnd;
    pose proof (count_bound _ _ Hok Hin) as Hcount; unfold body_outcome, ticket_effect;
    cbn [fst snd].
  - (* fail *)
    case_bool_decide.
    + destruct (poison_source s1) as [s2 r2] eqn:Hp. apply poison_source_run in Hp as [-> Hp]. eauto.
    + destruct (is_pending (record_phase record)); simpl; [|done].
      eexists _, _. split; [done|]. split; [done|]. split; [|done]. simpl.
      by eapply find_ticket_alter.
  - (* unsubscribe *)
    destruct (is_pending (record_phase record)); simpl; [|done].
    set (kept_subs := filter _ _).
    assert (len kept_subs ≤ len (record_subscribers record)) as Hle
      by (apply inj_le, sublist_length, sublist_filter).
    assert (len (record_subscribers (without_job job record)) = len kept_subs) as Hlen.
    { unfold without_job. fold kept_subs. by case_bool_decide. }
    unfold update at 1, modify at 1, mbind at 1, M_bind at 1.
    rewrite remove_subscriptions_ok by (simpl; lia).
    eexists _, _. split; [done|]. split; [done|]. split; [|done]. rewrite Hlen. simpl.
    change (set_record i _ (locked s1)) with (set_record i (without_job job record) (locked s1)).
    by rewrite (find_ticket_alter t _ i record (without_job job) Hnd Hf).
  - (* take *)
    destruct (is_pending (record_phase record)); simpl; [done|].
    unfold update at 1, modify at 1, mbind at 1, M_bind at 1, mbind at 1, M_bind at 1.
    rewrite remove_subscriptions_ok by done.
    eexists _, _. split; [done|]. split; [done|]. split; [|done]. simpl.
    by rewrite (find_ticket_alter t _ i record (set_subscribers []) Hnd Hf).
  - (* status *) eauto 7.
  - (* release *)
    destruct (is_pending (record_phase record)); simpl; [done|]. case_bool_decide as Hs; simpl; [|done].
    unfold update at 1, modify at 1, mbind at 1, M_bind at 1.
    rewrite remove_subscriptions_ok by done.
    eexists _, _. split; [done|]. split; [done|]. split; [|done]. simpl.
    rewrite (find_ticket_remove t _ i record Hnd Hf). rewrite Hs. simpl.
    unfold drop_subscriptions, set_subscription_count, remove_ticket, set_tickets. simpl. by rewrite Z.sub_0_r.
Qed.

(** ** The invariant under ticket calls *)

Lemma drop_as_set n s : drop_subscriptions n s = set_subscription_count (subscription_count s - n) s.
Proof. done. Qed.

Lemma set_count_same s : set_subscription_count (subscription_count s) s = s.
Proof. by destruct s. Qed.

Lemma without_job_fields job r :
  record_ticket (without_job job r) = record_ticket r ∧
  record_missing (without_job job r) = record_missing r ∧
  record_subscribers (without_job job r) = filter (λ s, subscription_job s ≠ job) (record_subscribers r) ∧
  (record_phase (without_job job r) = record_phase r ∧ record_subscribers (without_job job r) ≠ [] ∨
   record_phase (without_job job r) = PhaseAbandoned).
Proof. unfold without_job. case_bool_decide; simpl; split_and!; auto. Qed.

Lemma alter_waiting t f s r' :
  r' ∈ tickets (alter_ticket t f s) → is_waiting r' →
  ∃ r, r ∈ tickets s ∧ ((r' = r ∧ record_ticket r ≠ t) ∨ (r' = f r ∧ record_ticket r = t)).
Proof.
  intros (r & -> & Hr)%list_elem_of_fmap _. exists r. split; [done|]. case_decide; auto.
Qed.

Lemma ticket_effect_wf c t s record f a :
  store_ok store s → call_ticket c = Some t → lookup_ticket t s = Some record →
  ticket_effect c record = Ok (Some f, a) →
  store_ok store (f s) ∧
  ∀ r', r' ∈ tickets (f s) → is_waiting r' → ∃ r, r ∈ tickets s ∧ is_waiting r.
Proof.
  intros Hs Ht Hl He. pose proof (st_distinct _ _ Hs) as Hnd.
  apply lookup_ticket_Some in Hl as [Hr Hrt]; [|done].
  pose proof (st_records _ _ Hs) as Hrec. rewrite Forall_forall in Hrec. specialize (Hrec _ Hr).
  pose proof (st_subscriptions_bounded _ _ Hs) as Hbound.
  pose proof (count_bound s record Hs Hr) as Hcount.
  assert (∀ g, (∀ r, is_waiting (g r) → is_waiting r) → ∀ r', r' ∈ tickets (alter_ticket t g s) →
    is_waiting r' → ∃ r, r ∈ tickets s ∧ is_waiting r) as Hwait.
  { intros g Hg r' Hr' Hw. destruct (alter_waiting _ _ _ _ Hr' Hw) as (r & ? & [[-> _]|[-> _]]); eauto. }
  destruct c; simpl in Ht; simplify_eq; unfold ticket_effect in He; try done.
  - case_bool_decide; [done|]. destruct (is_pending (record_phase record)); [|done]. simplify_eq. split.
    + rewrite <-(set_count_same (alter_ticket _ _ s)). eapply alter_ok; try done; [|simpl; lia].
      eapply record_ok_terminal; done.
    + by apply Hwait.
  - destruct (is_pending (record_phase record)) eqn:Hp; [|done]. simplify_eq.
    destruct (without_job_fields job record) as (Hwt & Hwm & Hws & Hwp). rewrite drop_as_set. split.
    + eapply alter_ok; [done|done|done|by rewrite Hwt| |simpl; lia|].
      * destruct Hrec as [Hwaiting Hjobs Hlen]. split; rewrite ?Hws.
        -- intros Hphase. destruct Hwp as [[_ Hne]|Hab]; [|congruence].
           assert (record_phase record = PhasePending) as Hp' by by apply is_waiting_phase.
           destruct (Hwaiting Hp'). split; rewrite ?Hwm; done.
        -- eapply NoDup_sublist; [|done]. apply fmap_sublist, sublist_filter.
        -- etrans; [|done]. apply inj_le, sublist_length, sublist_filter.
      * simpl. rewrite Hws. pose proof (sublist_length _ _ (sublist_filter (λ s, subscription_job s ≠ job)
          (record_subscribers record))). lia.
    + apply Hwait. intros r Hw. unfold is_waiting in *.
      destruct (without_job_fields job r) as (_ & _ & _ & [[Hph _]|Hph]); rewrite Hph in Hw; done.
  - destruct (is_pending (record_phase record)) eqn:Hp; [done|]. simplify_eq. rewrite drop_as_set. split.
    + eapply alter_ok; [done|done|done|done| |simpl; lia|simpl; lia].
      destruct Hrec. split; simpl; [|apply NoDup_nil_2|lia]. intros Hph. by rewrite Hph in Hp.
    + by apply Hwait.
  - simplify_eq. split; [done|eauto].
  - destruct (is_pending (record_phase record)) eqn:Hp; [done|]. case_bool_decide as Hsub; [|done].
    simplify_eq. split; [by eapply remove_ok|].
    intros r' [_ Hr']%list_elem_of_filter Hw. eauto.
Qed.

Lemma ticket_outcome_wf c t s1 s' r :
  range_wf store s1 → call_ticket c = Some t → ticket_outcome c t s1 s' r → range_wf store s'.
Proof.
  intros Hwf Ht Ho. unfold ticket_outcome in Ho.
  destruct (lookup_ticket t (locked s1)) as [record|] eqn:Hl; [|by destruct Ho as [_ ->]].
  destruct (ticket_effect c record) as [[[f|] a]|code] eqn:He.
  - destruct Ho as (_ & Hlocked & Hflag). destruct Hwf as [Hs Hc].
    destruct (ticket_effect_wf c t _ _ _ _ Hs Ht Hl He) as [Hok Hw]. split; rewrite Hlocked; [done|].
    rewrite Hflag. intros Hch. apply Forall_forall. intros r' Hr' Hwr'.
    destruct (Hw r' Hr' Hwr') as (r0 & Hr0 & Hw0). specialize (Hc Hch).
    rewrite Forall_forall in Hc. by apply (Hc r0).
  - destruct Ho as [_ Hp]. by eapply poisoned_wf.
  - by destruct Ho as [_ ->].
Qed.
End tickets.
