(* ===== verification/RangePoll.v ===== *)
(** * Outcomes of [poll]

    A poll returns the cached bytes, reports the end of the file, enlists its job
    on a ticket for exactly the missing offsets, or fails for a stated reason. *)

From stdpp Require Import base list numbers option sorting sets.
From S2P Require Import Prelude.
From S2P Require Import SourceTypes.
From S2P Require Import RangeTypes.
From S2P Require Import RangeStore.
From S2P Require Import RangeSegments.
From S2P Require Import RangeMerge.
From S2P Require Import RangeInv.
From S2P Require Import RangeSupply.
From S2P Require Import RangeTickets.

(** The offsets of a request that the store lacks. *)
Definition missing_of (l : list Segment) (range : ByteRange) (m : list ByteRange) : Prop :=
  canonical m ∧ ∀ x, in_ranges x m ↔ in_range x range ∧ content l x = None.

Definition subscriber_of (request : ReadRequest) : ResumeSubscription :=
  {| subscription_job := request_job request; subscription_checkpoint := request_checkpoint request |}.

Definition joined (request : ReadRequest) (r : TicketRecord) : TicketRecord :=
  set_subscribers (record_subscribers r ++ [subscriber_of request]) r.

Section poll.
Context `{RangeRuntime} (store : RangeStore).
Context (Hlimits : range_limits_ok (store_limits store)).
#[local] Notation limits := (store_limits store).

Definition issued (s : StoreState) : DataTicket :=
  {| ticket_namespace := store_namespace store; ticket_value := next_ticket s |}.
Definition fresh_record (s : StoreState) (request : ReadRequest) (m : list ByteRange) : TicketRecord :=
  {| record_ticket := issued s; record_missing := m;
     record_subscribers := [subscriber_of request]; record_phase := PhasePending |}.

(** How a request is enlisted on a ticket for the missing ranges [m]. *)
Inductive enlisted (s : StoreState) (request : ReadRequest) (m : list ByteRange)
    : DataTicket → StoreState → Prop :=
| enlisted_already r :
    r ∈ tickets s → is_waiting r → record_missing r = m → subscriber_of request ∈ record_subscribers r →
    enlisted s request m (record_ticket r) s
| enlisted_joined r :
    r ∈ tickets s → is_waiting r → record_missing r = m →
    request_job request ∉ subscription_job <$> record_subscribers r →
    len (record_subscribers r) < range_max_subscribers_per_ticket limits →
    subscription_count s < range_max_total_subscriptions limits →
    enlisted s request m (record_ticket r)
      (set_subscription_count (subscription_count s + 1)
         (alter_ticket (record_ticket r) (joined request) s))
| enlisted_fresh :
    (∀ r, r ∈ tickets s → is_waiting r → record_missing r ≠ m) →
    len (tickets s) < range_max_tickets limits →
    subscription_count s < range_max_total_subscriptions limits →
    next_ticket s < u64_max →
    enlisted s request m (issued s)
      (set_subscription_count (subscription_count s + 1)
         (set_tickets (tickets s ++ [fresh_record s request m]) (set_next_ticket (next_ticket s + 1) s))).

Inductive poll_refusal (s : StoreState) (request : ReadRequest) : SourceError → Prop :=
| poll_read :
    range_max_read_bytes limits < range_len (request_range request) →
    poll_refusal s request
      (SourceError_resource ReadBytes (range_max_read_bytes limits) (range_len (request_range request)))
| poll_input :
    range_max_input_bytes limits < ByteRange_end_exclusive (request_range request) →
    poll_refusal s request
      (SourceError_resource SourceInputBytes (range_max_input_bytes limits)
         (ByteRange_end_exclusive (request_range request)))
| poll_missing m :
    missing_of (segments s) (request_range request) m → range_max_missing_ranges limits < len m →
    poll_refusal s request
      (SourceError_resource MissingRanges (range_max_missing_ranges limits)
         (range_max_missing_ranges limits + 1))
| poll_checkpoint r sub :
    r ∈ tickets s → is_waiting r → missing_of (segments s) (request_range request) (record_missing r) →
    sub ∈ record_subscribers r → subscription_job sub = request_job request →
    subscription_checkpoint sub ≠ request_checkpoint request →
    poll_refusal s request (SourceError_for_code CheckpointConflict)
| poll_subscriptions :
    range_max_total_subscriptions limits ≤ subscription_count s →
    poll_refusal s request
      (SourceError_resource TotalSubscriptions (range_max_total_subscriptions limits)
         (subscription_count s + 1))
| poll_subscribers r :
    r ∈ tickets s → range_max_subscribers_per_ticket limits ≤ len (record_subscribers r) →
    poll_refusal s request
      (SourceError_resource TicketSubscribers (range_max_subscribers_per_ticket limits)
         (len (record_subscribers r) + 1))
| poll_tickets :
    range_max_tickets limits ≤ len (tickets s) →
    poll_refusal s request
      (SourceError_resource Tickets (range_max_tickets limits) (len (tickets s) + 1))
| poll_exhausted :
    next_ticket s = u64_max →
    poll_refusal s request (SourceError_resource Tickets (range_max_tickets limits) u64_max)
| poll_allocation k limit attempted wanted :
    metadata_reserved k wanted = false →
    poll_refusal s request (SourceError_resource SourceAllocation limit attempted).

(** A request that is too long, or that is neither beyond the end nor cached. *)
Definition refusable (s : StoreState) (request : ReadRequest) : Prop :=
  range_max_read_bytes limits < range_len (request_range request) ∨
  within (observed_len s) [request_range request] ∧
  (range_max_input_bytes limits < ByteRange_end_exclusive (request_range request) ∨
   ∃ x, in_range x (request_range request) ∧ content (segments s) x = None).

(** The answer of a poll and the state after it. *)
Inductive poll_outcome (s0 : RangeState) (request : ReadRequest) : ReadPoll → RangeState → Prop :=
| outcome_ready slice s' :
    kept s0 s' → source_changed s0 = false →
    slice_identity slice = snapshot_identity (store_snapshot store) →
    slice_range slice = request_range request →
    bytes_at (content (segments (locked s0))) (request_range request) = Some (slice_bytes slice) →
    poll_outcome s0 request (PollReady slice) s'
| outcome_eof o s' :
    kept s0 s' → source_changed s0 = false → observed_len (locked s0) = Some o →
    o < ByteRange_end_exclusive (request_range request) →
    poll_outcome s0 request PollEndOfFile s'
| outcome_pending t m s' :
    source_changed s0 = false → source_changed s' = false →
    missing_of (segments (locked s0)) (request_range request) m → m ≠ [] →
    len m ≤ range_max_missing_ranges limits →
    range_len (request_range request) ≤ range_max_read_bytes limits →
    ByteRange_end_exclusive (request_range request) ≤ range_max_input_bytes limits →
    within (observed_len (locked s0)) [request_range request] →
    enlisted (locked s0) request m t (locked s') →
    poll_outcome s0 request (PollPending t m) s'
| outcome_changed s' :
    poisoned s0 s' → change_signalled s0 →
    poll_outcome s0 request (PollFailed (SourceError_for_code SourceChanged)) s'
| outcome_refused e s' :
    poll_refusal (locked s0) request e → refusable (locked s0) request →
    source_changed s0 = false → source_changed s' = false →
    (locked s' = locked s0 ∨
     next_ticket (locked s0) < u64_max ∧
     locked s' = set_next_ticket (next_ticket (locked s0) + 1) (locked s0)) →
    poll_outcome s0 request (PollFailed e) s'.

Section run.
Context (s0 : RangeState) (request : ReadRequest).
Context (Hs : store_ok store (locked s0)) (Hrange : range_ok (request_range request)).
Notation range := (request_range request).
Notation l := (segments (locked s0)).

Let Q := poll_outcome s0 request.
Let E (e : SourceError) (s' : RangeState) : Prop := poll_outcome s0 request (PollFailed e) s'.

Lemma refused_kept e s' :
  source_changed s0 = false → kept s0 s' → refusable (locked s0) request →
  poll_refusal (locked s0) request e → E e s'.
Proof. intros Hc [Hk1 Hk2] Ha He. apply outcome_refused; [done..|congruence|by left]. Qed.

Lemma wp_metadata wanted e s (P : unit → RangeState → Prop) :
  source_changed s0 = false → kept s0 s → refusable (locked s0) request →
  (∀ k, metadata_reserved k wanted = false → poll_refusal (locked s0) request e) →
  (∀ s', kept s0 s' → P tt s') → wp (reserve_metadata wanted e) s P E.
Proof.
  intros Hc Hk Ha He HP. unfold wp. destruct (reserve_metadata wanted e s) as [s' r] eqn:Hr.
  apply reserve_metadata_run in Hr as [Hk' [->|(-> & k & Hm)]].
  - apply HP. by etrans.
  - apply refused_kept; [done|by etrans|done|by eapply He].
Qed.

Lemma find_pending m i r :
  list_find (λ record, is_pending (record_phase record) ∧ record_missing record = m) (tickets (locked s0))
    = Some (i, r) →
  tickets (locked s0) !! i = Some r ∧ r ∈ tickets (locked s0) ∧ is_waiting r ∧ record_missing r = m.
Proof.
  intros (Hi & [Hp Hm] & _)%list_find_Some. split_and!; [done|by eapply list_elem_of_lookup_2| |done].
  by apply Is_true_eq_true.
Qed.

Lemma wp_join_ticket m i r s :
  source_changed s0 = false → kept s0 s → missing_of l range m → m ≠ [] →
  len m ≤ range_max_missing_ranges limits → range_len range ≤ range_max_read_bytes limits →
  ByteRange_end_exclusive range ≤ range_max_input_bytes limits →
  within (observed_len (locked s0)) [range] → refusable (locked s0) request →
  tickets (locked s0) !! i = Some r → is_waiting r → record_missing r = m →
  wp (join_ticket store i r request m) s Q E.
Proof.
  intros Hc Hk Hm Hne Hlen Hread Hinput Hw Ha Hi Hr Hrm. pose proof Hk as [Hk1 Hk2].
  assert (r ∈ tickets (locked s0)) as Hin by by eapply list_elem_of_lookup_2.
  unfold join_ticket. destruct (list_find _ (record_subscribers r)) as [[j existing]|] eqn:Hf.
  - apply list_find_Some in Hf as (Hj & Hjob & _).
    assert (existing ∈ record_subscribers r) as Hex by by eapply list_elem_of_lookup_2.
    case_bool_decide as Hcp.
    + apply wp_ret, outcome_pending; [done|congruence|done..|]. rewrite Hk1.
      apply enlisted_already; [done..|]. unfold subscriber_of. rewrite <-Hjob, <-Hcp. by destruct existing.
    + apply refused_kept; [done..|]. eapply poll_checkpoint with (sub := existing); try done. by rewrite Hrm.
  - apply list_find_None in Hf. apply wp_gets. rewrite Hk1. cbv zeta.
    assert (request_job request ∉ subscription_job <$> record_subscribers r) as Hnew.
    { intros (sub & Hjob & Hsub)%list_elem_of_fmap. rewrite Forall_forall in Hf. by apply (Hf sub). }
    case_match eqn:Hmax; checked_facts; [by apply refused_kept, poll_subscriptions|].
    case_bool_decide as Hsub.
    { exfalso. apply Hnew. by apply (list_elem_of_fmap_2 subscription_job) in Hsub. }
    case_match eqn:Hmax'; checked_facts; [by apply refused_kept, poll_subscribers|].
    apply wp_bind, wp_metadata; [done..|intros k; apply poll_allocation|]. intros s1 [Hk3 Hk4].
    assert (set_record i (joined request r) (locked s0) =
      alter_ticket (record_ticket r) (joined request) (locked s0)) as Hset.
    { apply find_ticket_alter; [apply (st_distinct _ _ Hs)|]. apply list_find_Some. split_and!; [done..|].
      intros j r' Hj Hlt Ht. pose proof (st_distinct _ _ Hs) as Hnd.
      assert (j = i); [|lia]. eapply NoDup_lookup; [done| |]; rewrite list_lookup_fmap;
        [by rewrite Hj|rewrite Hi; simpl; congruence]. }
    apply outcome_pending; [done|simpl; congruence|done..|]. simpl. rewrite Hk3.
    fold (subscriber_of request). fold (joined request r). rewrite Hset.
    by apply enlisted_joined.
Qed.

Lemma wp_new_ticket m s :
  source_changed s0 = false → kept s0 s → missing_of l range m → m ≠ [] →
  len m ≤ range_max_missing_ranges limits → range_len range ≤ range_max_read_bytes limits →
  ByteRange_end_exclusive range ≤ range_max_input_bytes limits →
  within (observed_len (locked s0)) [range] → refusable (locked s0) request →
  (∀ r, r ∈ tickets (locked s0) → is_waiting r → record_missing r ≠ m) →
  wp (new_ticket store request m) s Q E.
Proof.
  intros Hc Hk Hm Hne Hlen Hread Hinput Hw Ha Hnone. pose proof Hk as [Hk1 Hk2]. apply wp_gets. rewrite Hk1.
  pose proof (st_next _ _ Hs) as Hnext. cbv zeta.
  case_match eqn:Hmax; checked_facts; [by apply refused_kept, poll_tickets|].
  case_match eqn:Hmax'; checked_facts; [by apply refused_kept, poll_subscriptions|].
  apply wp_bind, wp_some_or; intros; checked_facts; [subst|].
  2: { apply refused_kept; [done..|]. apply poll_exhausted. lia. }
  unfold wp, update, modify, mbind, M_bind.
  destruct (reserve_metadata _ _ _) as [s1 r1] eqn:Hr. apply reserve_metadata_run in Hr as [[Hk3 Hk4] Hr].
  simpl in Hk3, Hk4. rewrite Hk1 in Hk3. destruct Hr as [->|(-> & k & Hmd)].
  - apply outcome_pending; [done|simpl; congruence|done..|]. simpl. rewrite Hk3.
    apply enlisted_fresh; [done..|lia].
  - eapply outcome_refused; [by eapply poll_allocation|done|done|congruence|]. right. split; [lia|done].
Qed.

Lemma poll_inner_wp : wp (poll_inner store request) s0 Q E.
Proof.
  pose proof (st_segments _ _ Hs) as Hl. apply wp_bind. unfold wp at 1.
  destruct (check_source_change s0) as [s1 r] eqn:Hr.
  apply check_run in Hr as [(-> & Hk & Hc)|(-> & Hp & Hc)]; [|by apply outcome_changed].
  apply wp_gets. pose proof Hk as [-> _].
  case_match eqn:Hread; checked_facts; [apply refused_kept; [done..|by left|by apply poll_read]|].
  destruct (from_option _ false (observed_len (locked s0))) eqn:Heof.
  { destruct (observed_len (locked s0)) as [o|] eqn:Ho; [|done]. simpl in Heof. checked_facts.
    by apply wp_ret, outcome_eof with (o := o). }
  assert (within (observed_len (locked s0)) [range]) as Hwithin.
  { unfold within. destruct (observed_len (locked s0)); [|done]. simpl in *. checked_facts.
    by apply Forall_singleton. }
  case_match eqn:Hinput; checked_facts;
    [apply refused_kept; [done..|right; split; [done|by left]|by apply poll_input]|].
  destruct (range_is_covered l range) eqn:Hcov.
  - destruct (borrow_range_covered l (snapshot_identity (store_snapshot store)) range)
      as (slice & Hb & Hid & Hrg & Hbytes); [done| |done|done|].
    { apply Forall_forall. intros x Hx. by eapply held_fits. }
    rewrite Hb. apply wp_bind, wp_lift; [|done]. intros ? [= <-]. by apply wp_ret, outcome_ready.
  - assert (refusable (locked s0) request) as Ha.
    { right. split; [done|]. right. apply not_true_iff_false in Hcov.
      rewrite range_is_covered_spec in Hcov by done.
      destruct (gaps (range_start range) (ByteRange_end_exclusive range) l) as [|g k] eqn:Hg.
      { exfalso. apply Hcov. intros x Hx. by eapply gaps_nil. }
      assert (canonical (g :: k)) as (Hgok%range_nonempty & _)%canonical_cons
        by (rewrite <-Hg; apply gaps_canonical; eauto with engine).
      exists (range_start g). eapply (gaps_in_ranges _ (range_start range)); [done|]. rewrite Hg.
      apply in_ranges_cons. left. unfold in_range. lia. }
    apply wp_bind. apply wp_bind, wp_metadata; [done..|intros k; apply poll_allocation|].
    intros s2 Hk2. unfold append_uncovered_ranges.
    rewrite uncovered_loop_gaps by (destruct Hl, Hlimits; eauto with engine; simpl; lia).
    set (m := gaps (range_start range) (ByteRange_end_exclusive range) l).
    assert (missing_of l range m) as Hm.
    { split; [apply gaps_canonical; eauto with engine|]. intros x. by apply gaps_in_ranges. }
    assert (m ≠ []) as Hne by (intros Hn; apply gaps_range_nil in Hn; congruence).
    unfold bounded_app. simpl length. rewrite Z.add_0_l. simpl app. apply wp_bind.
    destruct (Z.leb_spec (len m) (range_max_missing_ranges limits)).
    2: { by apply refused_kept, poll_missing with (m := m). }
    apply wp_lift; [|done]. intros ? [= <-]. rewrite bool_decide_false by done.
    rewrite try_from_canonical_ok by (done || apply Hm). apply wp_lift; [|done]. intros ? [= <-].
    destruct (list_find _ (tickets (locked s0))) as [[i r]|] eqn:Hf.
    + apply find_pending in Hf as (Hi & _ & Hw & Hrm). by apply wp_join_ticket.
    + apply wp_new_ticket; [done..|]. apply list_find_None in Hf. rewrite Forall_forall in Hf.
      intros r' Hr' Hw Hrm. apply (Hf r' Hr'). split; [by apply Is_true_eq_left|done].
Qed.
End run.

Lemma poll_run s0 request s' r :
  store_ok store (locked s0) → range_ok (request_range request) →
  poll store request s0 = (s', r) →
  ∃ a, r = Ok a ∧ poll_outcome s0 request a s'.
Proof.
  intros Hs Hr Hrun. pose proof (poll_inner_wp s0 request Hs Hr) as Hwp.
  unfold poll, on_error in Hrun. unfold wp in Hwp.
  destruct (poll_inner store request s0) as [s1 [a|[e|]]]; [..|done]; injection Hrun as <- <-; eauto.
Qed.
End poll.
