(* ===== verification/RangeRuns.v ===== *)
(** * Runs of the byte range store

    Sequences of calls, in the order in which they take the lock: the invariant and
    the growth of what is known. From the poll that enlisted a request until its
    subscription is taken, the ticket waits exactly while the request could not be
    answered, and it keeps the subscription: no wake-up is lost, none is spurious. *)

From stdpp Require Import base list numbers option sorting sets.
From S2P Require Import Prelude.
From S2P Require Import SourceTypes.
From S2P Require Import RangeTypes.
From S2P Require Import RangeStore.
From S2P Require Import RangeSegments.
From S2P Require Import RangeMerge.
From S2P Require Import RangeInv.
From S2P Require Import RangeSupply.
From S2P Require Import RangeTickets.
From S2P Require Import RangePoll.

Section runs.
Context `{RangeRuntime} (store : RangeStore).
Context (Hlimits : range_limits_ok (store_limits store)).
#[local] Notation limits := (store_limits store).

(** What the constructors of the arguments guarantee. *)
Definition call_ok (c : RangeCall) : Prop :=
  match c with
  | CallObserve snapshot => from_option (λ n, 0 ≤ n) True (snapshot_len snapshot)
  | CallSupply response => response_ok response
  | CallPoll request => range_ok (request_range request)
  | _ => True
  end.

(** ** Outcomes of the calls *)

(** The bytes an accepted call makes known. *)
Definition call_content (c : RangeCall) (s : StoreState) : Z → option Z :=
  match c with
  | CallSupply resp => overlay (content (segments s)) (response_range resp) (response_bytes resp)
  | _ => content (segments s)
  end.

(** An observed snapshot or an accepted response. *)
Definition advanced (c : RangeCall) (s0 s' : RangeState) (a : RangeAnswer) : Prop :=
  ∃ snapshot l outcome,
    (c = CallObserve snapshot ∨ ∃ resp, c = CallSupply resp ∧ response_snapshot resp = snapshot) ∧
    layout_ok store l (observed_after (locked s0) snapshot) ∧
    (∀ x, content l x = call_content c (locked s0) x) ∧
    (∀ x, is_Some (content (segments (locked s0)) x) → content l x = content (segments (locked s0)) x) ∧
    (∀ r, r ∈ tickets (locked s0) → is_waiting r →
       len (still_missing l r) ≤ range_max_missing_ranges limits) ∧
    accepted s0 snapshot l outcome s' ∧ a = AnswerOutcome outcome.

(** How a call ends, whatever it is. *)
Inductive call_outcome (c : RangeCall) (s0 : RangeState)
    : RangeState → result (failure SourceError) RangeAnswer → Prop :=
| call_advanced s' a : advanced c s0 s' a → call_outcome c s0 s' (Ok a)
| call_unchanged e s' :
    (∃ snapshot, c = CallObserve snapshot) ∨ (∃ resp, c = CallSupply resp) →
    kept s0 s' → call_outcome c s0 s' (Err (Rejected e))
| call_poisoned s' r :
    poisoned s0 s' → (c = CallSignal ∧ r = Ok AnswerUnit ∨ ∃ e, r = Err (Rejected e)) →
    call_outcome c s0 s' r
| call_polled request p s' :
    c = CallPoll request → poll_outcome store s0 request p s' →
    call_outcome c s0 s' (Ok (AnswerPoll p))
| call_on_ticket t s1 s' r :
    call_ticket c = Some t → synced s0 s1 → ticket_outcome c t s1 s' r → call_outcome c s0 s' r.

Lemma answer_run {A} (f : A → RangeAnswer) (m : Op A) s s' r :
  answer f m s = (s', r) →
  (∃ a, m s = (s', Ok a) ∧ r = Ok (f a)) ∨ (∃ e, m s = (s', Err e) ∧ r = Err e).
Proof.
  intros Hr. apply bind_inv in Hr as [(a & s1 & H1 & Hr)|(e & H1 & ->)]; [|eauto].
  injection Hr as <- <-. eauto.
Qed.

Lemma overlay_extends c range bytes x :
  (∀ x, ¬ differs c range bytes x) → is_Some (c x) → overlay c range bytes x = c x.
Proof.
  intros Hd Hx. unfold overlay. case_decide as Hr; [|done].
  destruct (decide (c x = supplied range bytes x)) as [|Hne]; [done|].
  by destruct (Hd x).
Qed.

Lemma call_run c s0 s' r :
  range_wf store s0 → call_ok c → run_call store c s0 = (s', r) → call_outcome c s0 s' r.
Proof.
  intros Hwf Hc Hr. pose proof (wf_store _ _ Hwf) as Hs.
  destruct (call_ticket c) as [t|] eqn:Ht.
  { destruct (ticket_call_run store c t s0 s' r Hwf Ht Hr) as (s1 & ? & ?).
    by eapply call_on_ticket. }
  destruct c; simpl in Ht; try done; simpl in Hr, Hc;
    apply answer_run in Hr as [(a & Hrun & ->)|(e & Hrun & ->)].
  - pose proof (wp_run _ _ _ _ _ _ Hrun (observe_wp store s0 snapshot Hs)) as (_ & _ & Hw & Hacc).
    apply call_advanced. exists snapshot, (segments (locked s0)), a.
    pose proof (store_layout _ _ Hs) as Hlay.
    split_and!; [by left| |done|done| |done|done].
    + unfold observed_after in *. destruct Hlay. split; try done.
      * destruct (observed_len (locked s0)); [done|]. destruct (snapshot_len snapshot); [|done]. by destruct Hw.
      * destruct (observed_len (locked s0)); [done|]. destruct (snapshot_len snapshot); [|done].
        simpl in *. by destruct Hw.
      * intros n Hn. apply lay_snapshot in Hn. by rewrite Hn.
    + intros r Hr Hwt. pose proof (st_records _ _ Hs) as Hrec. rewrite Forall_forall in Hrec.
      pose proof (rec_waiting _ _ _ _ (Hrec r Hr) (proj1 (is_waiting_phase r) Hwt)) as Hwait.
      rewrite (still_missing_unchanged _ _ _ _ (st_segments _ _ Hs) Hwait). by destruct Hwait.
  - pose proof (wp_run _ _ _ _ _ _ Hrun (observe_wp store s0 snapshot Hs)) as Hf.
    destruct e as [e|]; [|done]. destruct Hf as [[Hk _]|[Hp _]]; [by apply call_unchanged; eauto|].
    apply call_poisoned; eauto.
  - pose proof (wp_run _ _ _ _ _ _ Hrun (supply_wp store Hlimits s0 response Hs Hc)) as (l & Hsup & Hacc).
    destruct Hsup. apply call_advanced. exists (response_snapshot response), l, a.
    split_and!; try done; [right; eauto|]. intros x Hx. rewrite sup_content. by apply overlay_extends.
  - pose proof (wp_run _ _ _ _ _ _ Hrun (supply_wp store Hlimits s0 response Hs Hc)) as Hf.
    destruct e as [e|]; [|done]. destruct Hf as [[Hk _]|[Hp _]]; [by apply call_unchanged; eauto|].
    apply call_poisoned; eauto.
  - destruct (poll_run store Hlimits s0 request s' _ Hs Hc Hrun) as (p & [= <-] & Hp). by eapply call_polled.
  - by destruct (poll_run store Hlimits s0 request s' _ Hs Hc Hrun) as (p & [=] & Hp).
  - apply poison_source_run in Hrun as [_ Hp]. apply call_poisoned; [done|by left].
  - apply poison_source_run in Hrun as [[=] _].
Qed.

(** ** The invariant *)

Lemma fresh_distinct s : store_ok store s → issued store s ∉ record_ticket <$> tickets s.
Proof.
  intros Hs (r & Ht & Hr)%list_elem_of_fmap. pose proof (st_issued _ _ Hs) as Hi.
  rewrite Forall_forall in Hi. destruct (Hi r Hr) as [_ Hlt]. rewrite <-Ht in Hlt.
  unfold issued in Hlt. simpl in Hlt. lia.
Qed.

Lemma next_ok s :
  store_ok store s → next_ticket s < u64_max → store_ok store (set_next_ticket (next_ticket s + 1) s).
Proof.
  intros Hs Hn. pose proof (st_issued _ _ Hs) as Hi. destruct Hs. split; simpl; try done; [|lia].
  eapply Forall_impl; [exact Hi|]. simpl. intros r [? ?]. split; [done|lia].
Qed.

Lemma missing_within_range l range m observed :
  missing_of l range m → within observed [range] → within observed m.
Proof.
  intros [[Hm _] Hx] Hw. destruct observed as [o|]; [|done]. simpl in *.
  rewrite Forall_singleton in Hw. rewrite Forall_forall in Hm |- *. intros g Hg.
  pose proof (range_nonempty g (Hm g Hg)).
  destruct (proj1 (Hx (ByteRange_end_exclusive g - 1))) as [Hin _].
  { exists g. split; [done|]. unfold in_range. lia. }
  unfold in_range in Hin. simpl in Hw. lia.
Qed.

Lemma enlisted_ok s request m t s' :
  store_ok store s → missing_of (segments s) (request_range request) m → m ≠ [] →
  len m ≤ range_max_missing_ranges limits → within (observed_len s) [request_range request] →
  enlisted store s request m t s' → store_ok store s'.
Proof.
  intros Hs Hm Hne Hlen Hw Hen. pose proof (st_records _ _ Hs) as Hrec.
  pose proof (st_distinct _ _ Hs) as Hnd. pose proof (st_issued _ _ Hs) as Hi.
  pose proof (st_subscriptions _ _ Hs) as Hsub. pose proof (fresh_distinct s Hs) as Hfresh.
  destruct Hen as [r|r Hr Hwt Hrm Hnew Hlt Htot|Hnone Htick Htot Hnext]; [done| |].
  - rewrite Forall_forall in Hrec. specialize (Hrec r Hr). destruct Hrec as [Hwait Hjobs Hsubs].
    eapply alter_ok with (r := r); try done; [|unfold joined; simpl; rewrite length_app; simpl; lia|lia].
    split; unfold joined; simpl.
    + intros Hp. destruct (Hwait Hp). split; simpl; try done. by destruct (record_subscribers r).
    + rewrite fmap_app. simpl. apply NoDup_app. split; [done|]. split; [|apply NoDup_singleton].
      intros x Hx ->%list_elem_of_singleton. done.
    + rewrite length_app. simpl. lia.
  - rewrite Forall_forall in Hi. destruct Hs. split; simpl; try done.
    + rewrite fmap_app. apply NoDup_app. split; [done|]. split; [|apply NoDup_singleton].
      intros x Hx ->%list_elem_of_singleton. done.
    + apply Forall_app. split; [|apply Forall_singleton; simpl; split; [done|lia]].
      apply Forall_forall. intros r Hr. destruct (Hi r Hr). split; [done|lia].
    + lia.
    + rewrite length_app. simpl. lia.
    + rewrite zsum_app. simpl. lia.
    + lia.
    + apply Forall_app. split; [done|]. apply Forall_singleton.
      destruct Hlimits. split; simpl; [|apply NoDup_singleton|lia].
      intros _. split; simpl; try done; [apply Hm| |by eapply missing_within_range].
      intros x Hx%Hm. by destruct Hx.
Qed.

Lemma call_wf c s0 s' r :
  range_wf store s0 → call_outcome c s0 s' r → range_wf store s' ∧ r ≠ Err Panicked.
Proof.
  intros Hwf Hco. pose proof (wf_store _ _ Hwf) as Hs. destruct Hco as
    [s' a (snapshot & l & outcome & _ & Hlay & _ & _ & Hmiss & Hacc & ->)|e s' _ Hk|s' r Hp Hr
    |request p s' -> Hpoll|t s1 s' r Ht Hsync Hto].
  - split; [|done]. destruct Hacc as [Hl [_ Hf] _]. split; rewrite Hl; [by apply settled_ok|congruence].
  - split; [by eapply kept_wf|done].
  - split; [by eapply poisoned_wf|naive_solver].
  - split; [|done]. destruct Hpoll as [? ? Hk|? ? Hk|t m s' Hc Hc' Hm Hne Hlen Hread Hinput Hw Hen|? Hp
      |e s' _ _ Hc Hc' Hst]; try by eapply kept_wf.
    + split; [by eapply enlisted_ok|congruence].
    + by eapply poisoned_wf.
    + split; [|congruence]. destruct Hst as [->|[Hn ->]]; [done|by apply next_ok].
  - pose proof (synced_wf _ _ _ Hsync Hwf) as Hwf1. split; [by eapply ticket_outcome_wf|].
    unfold ticket_outcome in Hto. destruct (lookup_ticket t (locked s1)) as [record|]; [|naive_solver].
    destruct (ticket_effect c record) as [[[?|] ?]|?]; naive_solver.
Qed.

(** ** Knowledge only grows *)

(** What is known of the source in a state is known in a later one. *)
Record grows (s s' : StoreState) : Prop := {
  grow_content : ∀ x, is_Some (content (segments s) x) →
    content (segments s') x = content (segments s) x;
  grow_observed : ∀ o, observed_len s = Some o → observed_len s' = Some o
}.

#[global] Instance grows_preorder : PreOrder grows.
Proof.
  split; [done|]. intros s1 s2 s3 [H1 H2] [H3 H4]. split; [|naive_solver].
  intros x Hx. rewrite H3; [by apply H1|]. by rewrite H1.
Qed.

Lemma grows_same s s' :
  segments s' = segments s → observed_len s' = observed_len s → grows s s'.
Proof. intros H1 H2. split; [by rewrite H1|by rewrite H2]. Qed.

Lemma effect_same c record s f a t :
  call_ticket c = Some t → ticket_effect c record = Ok (Some f, a) →
  segments (f s) = segments s ∧ observed_len (f s) = observed_len s.
Proof.
  intros Ht He. destruct c; simpl in Ht; simplify_eq; unfold ticket_effect in He;
    repeat case_match; simplify_eq; done.
Qed.

Lemma enlisted_same s request m t s' :
  enlisted store s request m t s' → segments s' = segments s ∧ observed_len s' = observed_len s.
Proof. by intros []. Qed.

Lemma synced_same s0 s1 :
  synced s0 s1 → segments (locked s1) = segments (locked s0) ∧
                 observed_len (locked s1) = observed_len (locked s0).
Proof. by intros [[[-> _] _]|[[-> _] _]]. Qed.

Lemma call_grows c s0 s' r : call_outcome c s0 s' r → grows (locked s0) (locked s').
Proof.
  intros Hco. destruct Hco as
    [s' a (snapshot & l & outcome & _ & Hlay & _ & Hg & Hmiss & [-> _ _] & ->)|e s' _ [Hk _]|s' r [Hp _] _
    |request p s' -> Hpoll|t s1 s' r Ht Hsync Hto].
  - split; [done|]. simpl. intros o Ho. unfold observed_after. by rewrite Ho.
  - by rewrite Hk.
  - rewrite Hp. by apply grows_same.
  - destruct Hpoll as [? ? [-> _]|? ? [-> _]|t m s' Hc Hc' Hm Hne Hlen Hread Hinput Hw Hen|? [-> _]
      |e s' _ _ Hc Hc' Hst]; try reflexivity; [|by apply grows_same|].
    + destruct (enlisted_same _ _ _ _ _ Hen). by apply grows_same.
    + destruct Hst as [->|[_ ->]]; by apply grows_same.
  - destruct (synced_same _ _ Hsync) as [H1 H2]. unfold ticket_outcome in Hto.
    destruct (lookup_ticket t (locked s1)) as [record|]; [|destruct Hto as [_ ->]; by apply grows_same].
    destruct (ticket_effect c record) as [[[f|] a]|?] eqn:He.
    + destruct Hto as (_ & -> & _). destruct (effect_same c record (locked s1) f a t Ht He).
      apply grows_same; congruence.
    + destruct Hto as (_ & [-> _]). by apply grows_same.
    + destruct Hto as [_ ->]. by apply grows_same.
Qed.

(** ** Runs *)

Inductive runs : RangeState → list (RangeCall * result (failure SourceError) RangeAnswer) → RangeState → Prop :=
| runs_nil s : runs s [] s
| runs_cons s0 c r s1 l s2 :
    call_ok c → run_call store c s0 = (s1, r) → runs s1 l s2 → runs s0 ((c, r) :: l) s2.

Lemma runs_invariant s0 l s' :
  range_wf store s0 → runs s0 l s' →
  range_wf store s' ∧ grows (locked s0) (locked s') ∧ Forall (λ cr, cr.2 ≠ Err Panicked) l.
Proof.
  intros Hwf. induction 1 as [s|s0 c r s1 l s2 Hc Hrun _ IH]; [done|].
  pose proof (call_run _ _ _ _ Hwf Hc Hrun) as Hco.
  destruct (call_wf _ _ _ _ Hwf Hco) as [Hwf1 Hr]. destruct (IH Hwf1) as (? & ? & ?).
  split_and!; [done| |by constructor]. etrans; [by eapply call_grows|done].
Qed.

Lemma runs_app s0 l1 s1 l2 s2 : runs s0 l1 s1 → runs s1 l2 s2 → runs s0 (l1 ++ l2) s2.
Proof. induction 1; intros Hr; simpl; [done|]. econstructor; eauto. Qed.

(** Calls executed one after the other, with their answers. *)
Fixpoint run_calls (s0 : RangeState) (calls : list RangeCall)
    : list (RangeCall * result (failure SourceError) RangeAnswer) * RangeState :=
  match calls with
  | [] => ([], s0)
  | c :: calls =>
      let '(s1, r) := run_call store c s0 in
      let '(l, s2) := run_calls s1 calls in ((c, r) :: l, s2)
  end.

Lemma run_calls_runs s0 calls :
  Forall call_ok calls → runs s0 (run_calls s0 calls).1 (run_calls s0 calls).2.
Proof.
  revert s0. induction calls as [|c calls IH]; intros s0 Hc; simpl; [constructor|].
  apply Forall_cons in Hc as [Hc Hcs]. destruct (run_call store c s0) as [s1 r] eqn:Hr.
  specialize (IH s1 Hcs). destruct (run_calls s1 calls) as [l s2]. by econstructor.
Qed.

Lemma run_calls_Forall (P : RangeCall → Prop) s0 calls :
  Forall P calls → Forall (λ cr, P cr.1) (run_calls s0 calls).1.
Proof.
  intros Hc. revert s0. induction Hc as [|c calls Hc _ IH]; intros s0; simpl; [constructor|].
  destruct (run_call store c s0) as [s1 r]. specialize (IH s1).
  destruct (run_calls s1 calls) as [l s2]. by constructor.
Qed.

(** ** Where the bytes come from *)

(** The response was accepted during the run. *)
Definition accepted_in (l : list (RangeCall * result (failure SourceError) RangeAnswer))
    (resp : RangeResponse) : Prop := ∃ a, (CallSupply resp, Ok a) ∈ l.

Lemma accepted_in_cons c r l resp :
  accepted_in ((c, r) :: l) resp ↔ (c = CallSupply resp ∧ ∃ a, r = Ok a) ∨ accepted_in l resp.
Proof.
  unfold accepted_in. split.
  - intros [a [Ha|Ha]%elem_of_cons]; [left; simplify_eq; eauto|right; eauto].
  - intros [[-> [a ->]]|[a Ha]]; eexists; [by left|by right].
Qed.

Lemma call_known c s0 s' r :
  call_outcome c s0 s' r →
  match c, r with
  | CallSupply resp, Ok _ =>
      ∀ x, content (segments (locked s')) x =
        overlay (content (segments (locked s0))) (response_range resp) (response_bytes resp) x
  | _, _ => ∀ x, content (segments (locked s')) x = content (segments (locked s0)) x
  end.
Proof.
  intros Hco. destruct Hco as
    [s' a (snapshot & l & outcome & Hc & _ & Hknown & _ & _ & [-> _ _] & ->)|e s' _ [-> _]
    |s' r [-> _] Hr|request p s' -> Hpoll|t s1 s' r Ht Hsync Hto].
  - by destruct Hc as [->|(resp & -> & _)].
  - by destruct c.
  - destruct Hr as [[-> ->]|[e ->]]; [done|by destruct c].
  - destruct Hpoll as [? ? [-> _]|? ? [-> _]|t m s' Hc Hc' Hm Hne Hlen Hread Hinput Hw Hen|? [-> _]
      |e s' _ _ Hc Hc' Hst]; try done.
    + destruct (enlisted_same _ _ _ _ _ Hen) as [-> _]. done.
    + by destruct Hst as [->|[_ ->]].
  - destruct (synced_same _ _ Hsync) as [H1 _].
    assert (segments (locked s') = segments (locked s0)) as ->; [|by destruct c].
    unfold ticket_outcome in Hto.
    destruct (lookup_ticket t (locked s1)) as [record|]; [|by destruct Hto as [_ ->]].
    destruct (ticket_effect c record) as [[[f|] a]|?] eqn:He.
    + destruct Hto as (_ & -> & _). destruct (effect_same c record (locked s1) f a t Ht He). congruence.
    + by destruct Hto as (_ & [-> _]).
    + by destruct Hto as [_ ->].
Qed.

Lemma overlay_Some c range bytes x b :
  len bytes = range_len range →
  (∀ x, is_Some (c x) → overlay c range bytes x = c x) →
  overlay c range bytes x = Some b ↔ c x = Some b ∨ supplied range bytes x = Some b.
Proof.
  intros Hlen Hext. destruct (c x) as [b'|] eqn:Hc.
  - rewrite Hext, Hc by by rewrite Hc. split; [by left|]. intros [?|Hs]; [done|].
    rewrite <-Hc, <-Hext by by rewrite Hc. unfold overlay. case_decide as Hx; [done|].
    unfold supplied in Hs. by rewrite bool_decide_false in Hs.
  - unfold overlay, supplied. case_decide as Hx.
    + rewrite bool_decide_true by done. naive_solver.
    + rewrite bool_decide_false by done. naive_solver.
Qed.

Lemma call_known_bytes c s0 s' r x b :
  call_ok c → call_outcome c s0 s' r →
  content (segments (locked s')) x = Some b ↔
  content (segments (locked s0)) x = Some b ∨
  (∃ resp a, c = CallSupply resp ∧ r = Ok a ∧
     supplied (response_range resp) (response_bytes resp) x = Some b).
Proof.
  intros Hc Hco. pose proof (call_known _ _ _ _ Hco) as Hk. pose proof (call_grows _ _ _ _ Hco) as [Hg _].
  destruct c as [|resp| | | | | | |], r as [a|e]; rewrite Hk; try naive_solver.
  assert (∀ y, is_Some (content (segments (locked s0)) y) →
    overlay (content (segments (locked s0))) (response_range resp) (response_bytes resp) y =
    content (segments (locked s0)) y) as Hext by (intros y Hy; rewrite <-Hk; by apply Hg).
  rewrite overlay_Some by (apply Hc || done). naive_solver.
Qed.

Lemma runs_known s0 l s' x b :
  range_wf store s0 → runs s0 l s' →
  content (segments (locked s')) x = Some b ↔
  content (segments (locked s0)) x = Some b ∨
  ∃ resp, accepted_in l resp ∧ supplied (response_range resp) (response_bytes resp) x = Some b.
Proof.
  intros Hwf Hr. induction Hr as [s|s0 c r s1 l s2 Hc Hrun _ IH].
  - split; [by left|]. intros [?|(resp & (a & ?%not_elem_of_nil) & _)]; done.
  - pose proof (call_run _ _ _ _ Hwf Hc Hrun) as Hco. destruct (call_wf _ _ _ _ Hwf Hco) as [Hwf1 _].
    rewrite (IH Hwf1), (call_known_bytes c s0 s1 r x b Hc Hco). setoid_rewrite accepted_in_cons.
    naive_solver.
Qed.

(** ** Construction *)

Lemma range_store_new_ok next_namespace snapshot s0 next :
  from_option (λ n, 0 ≤ n) True (snapshot_len snapshot) →
  RangeStore_new next_namespace snapshot limits = Ok (store, s0, next) →
  range_wf store s0 ∧ segments (locked s0) = [] ∧ store_namespace store = next_namespace ∧
  next = next_namespace + 1.
Proof.
  intros Hn Hnew. unfold RangeStore_new in Hnew.
  apply result_bind_ok in Hnew as ([] & Hlen%fail_if_ok & Hnew).
  apply result_bind_ok in Hnew as ([] & _ & Hnew). apply result_bind_ok in Hnew as ([] & _ & Hnew).
  apply result_bind_ok in Hnew as (n & Hnext%require_ok & Hnew). checked_facts. subst n.
  injection Hnew as Hst Hs0 Hnx. rewrite <-Hs0. split_and!; [|done|by rewrite <-Hst|done].
  destruct Hlimits. split; [|done]. split; simpl; try done; try constructor; try lia.
  - constructor.
  - constructor.
  - destruct (snapshot_len snapshot); simpl; constructor.
  - unfold held_capacity. simpl. lia.
  - destruct (snapshot_len snapshot); simpl in *; [|done]. checked_facts. lia.
  - by rewrite <-Hst.
Qed.
End runs.

(** The request can be answered: its bytes are cached, or it ends beyond the file. *)
Definition answerable (s : StoreState) (range : ByteRange) : Prop :=
  (∀ x, in_range x range → is_Some (content (segments s) x)) ∨
  ∃ o, observed_len s = Some o ∧ o < ByteRange_end_exclusive range.

(** The call leaves the subscription of [job] on the ticket. *)
Definition keeps (t : DataTicket) (job : Z) (c : RangeCall) : Prop :=
  c ≠ CallTake t ∧ c ≠ CallRelease t ∧ c ≠ CallUnsubscribe t job.

(** What the record of a ticket says about a request. *)
Record serves (s : StoreState) (request : ReadRequest) (r : TicketRecord) : Prop := {
  serves_subscribed : subscriber_of request ∈ record_subscribers r;
  serves_waiting : is_waiting r →
    missing_of (segments s) (request_range request) (record_missing r) ∧
    within (observed_len s) [request_range request];
  serves_ready : record_phase r = PhaseReady → answerable s (request_range request)
}.

Definition tracked (t : DataTicket) (request : ReadRequest) (s : StoreState) : Prop :=
  ∃ r, lookup_ticket t s = Some r ∧ serves s request r.

Lemma answerable_grows s s' range : grows s s' → answerable s range → answerable s' range.
Proof.
  intros [Hc Ho] [Hx|(o & Hobs & Hlt)]; [left|right; eauto].
  intros x Hin. rewrite Hc by by apply Hx. by apply Hx.
Qed.

(** A terminal record keeps what it says. *)
Lemma serves_terminal s s' request r r' :
  grows s s' → serves s request r → ¬ is_waiting r' →
  record_subscribers r' = record_subscribers r →
  (record_phase r' = PhaseReady → record_phase r = PhaseReady) → serves s' request r'.
Proof.
  intros Hg [Hsub _ Hready] Hn Hs Hp. split; [by rewrite Hs|done|].
  intros Hr. eapply answerable_grows; [done|]. by apply Hready, Hp.
Qed.

(** A record that does not change in a state that knows the same. *)
Lemma serves_same s s' request r :
  segments s' = segments s → observed_len s' = observed_len s →
  serves s request r → serves s' request r.
Proof. intros H1 H2 []. split; unfold answerable; rewrite ?H1, ?H2; done. Qed.

Lemma within_single o range : within (Some o) [range] ↔ ByteRange_end_exclusive range ≤ o.
Proof. unfold within. simpl. by rewrite Forall_singleton. Qed.

Section settle_serves.
Context `{Platform} (store : RangeStore).

Lemma settle_serves s l observed request r limits :
  store_ok store s → layout_ok store l observed →
  grows s (settled l observed s) → range_ok (request_range request) →
  record_ok limits (observed_len s) (segments s) r →
  serves s request r → serves (settled l observed s) request (settle l observed r).
Proof.
  intros Hs Hlay Hg Hrange Hrec Hserves. destruct (settle_fields l observed r) as [_ Hsubs].
  destruct (is_pending (record_phase r)) eqn:Hp.
  2: { assert (settle l observed r = r) as -> by (unfold settle; by rewrite Hp).
       eapply (serves_terminal s); try done. unfold is_waiting. by rewrite Hp. }
  destruct Hserves as [Hsub Hwait _]. destruct (Hwait Hp) as [[Hcan Hmiss] Hwithin].
  pose proof (lay_segments _ _ _ Hlay) as Hl. destruct Hg as [Hcontent _]. simpl in Hcontent.
  pose proof (range_nonempty _ Hrange) as Hne.
  assert (Hstill : ∀ x, in_ranges x (still_missing l r) ↔
    in_range x (request_range request) ∧ content l x = None).
  { intros x. unfold still_missing. rewrite remaining_gaps_in_ranges, Hmiss by done.
    split; [naive_solver|]. intros [Hx Hn]. split; [|done]. split; [done|].
    destruct (content (segments s) x) as [b|] eqn:Hb; [|done].
    rewrite Hcontent, Hb in Hn by by rewrite Hb. done. }
  assert (canonical (still_missing l r)) as Hcan' by by apply remaining_gaps_canonical.
  split; [by rewrite Hsubs|..]; unfold settle; rewrite Hp; destruct (resolved l observed r) eqn:Hres; try done.
  - intros _. simpl. split; [done|]. unfold resolved in Hres.
    apply orb_false_iff in Hres as [_ Hcross]. destruct observed as [o|]; [|done]. simpl in Hcross.
    apply within_single. apply missing_within in Hcross; [|done]. rewrite Forall_forall in Hcross.
    set (x := ByteRange_end_exclusive (request_range request) - 1).
    assert (in_range x (request_range request)) as Hx by (unfold in_range; lia).
    destruct (content l x) as [b|] eqn:Hb.
    + assert (is_Some (content l x)) as (g & Hg & Hin)%content_is_Some by (by rewrite Hb);
        [|by destruct Hl].
      pose proof (lay_within _ _ _ Hlay) as Hw. simpl in Hw. rewrite Forall_forall in Hw.
      specialize (Hw g Hg). unfold in_segment in Hin. lia.
    + destruct (proj2 (Hstill x) (conj Hx Hb)) as (g & Hg & Hin). specialize (Hcross g Hg).
      unfold in_range in Hin. lia.
  - intros _. unfold resolved in Hres. apply orb_true_iff in Hres as [Hnil|Hcross].
    + left. apply bool_decide_eq_true in Hnil. intros x Hx. simpl.
      destruct (content l x) eqn:Hb; [done|]. exfalso. apply (in_ranges_nil x).
      rewrite <-Hnil. by apply Hstill.
    + right. destruct observed as [o|]; [|done]. exists o. split; [done|]. simpl in Hcross.
      destruct (Z.lt_ge_cases o (ByteRange_end_exclusive (request_range request))) as [|Hle]; [done|].
      assert (missing_crosses_eof (still_missing l r) o = false) as Hf; [|congruence].
      apply missing_within; [done|]. eapply (missing_within_range l _ _ (Some o)); [by split|].
      by apply within_single.
  - simpl. intros Hr. by rewrite Hr in Hp.
Qed.
End settle_serves.

Section wake.
Context `{RangeRuntime} (store : RangeStore).
Context (Hlimits : range_limits_ok (store_limits store)).

Lemma lookup_fmap_ticket t s f l' r :
  NoDup (record_ticket <$> tickets s) → (∀ r, record_ticket (f r) = record_ticket r) →
  tickets l' = f <$> tickets s → lookup_ticket t s = Some r → lookup_ticket t l' = Some (f r).
Proof.
  intros Hnd Hf Hl' [Hr Ht]%lookup_ticket_Some; [|done]. apply lookup_ticket_Some.
  - rewrite Hl', <-list_fmap_compose. erewrite (list_fmap_ext _ record_ticket (tickets s)); [done|].
    intros i x _. apply Hf.
  - rewrite Hl', Hf. split; [|done]. by apply list_elem_of_fmap_2.
Qed.

Lemma tracked_fmap t request s s' f :
  store_ok store s → (∀ r, record_ticket (f r) = record_ticket r) →
  tickets s' = f <$> tickets s →
  (∀ r, r ∈ tickets s → serves s request r → serves s' request (f r)) →
  tracked t request s → tracked t request s'.
Proof.
  intros Hs Hf Ht Hserves (r & Hl & Hr). exists (f r). pose proof (st_distinct _ _ Hs) as Hnd.
  split; [by eapply lookup_fmap_ticket|]. apply Hserves; [|done].
  by apply lookup_ticket_Some in Hl as [? _].
Qed.

Lemma tracked_same t request s s' :
  tickets s' = tickets s → segments s' = segments s → observed_len s' = observed_len s →
  tracked t request s → tracked t request s'.
Proof.
  intros Ht H1 H2 (r & Hl & Hr). exists r. unfold lookup_ticket in *. rewrite Ht.
  split; [done|]. by eapply serves_same.
Qed.

Lemma tracked_poisoned t request s s' :
  store_ok store (locked s) → poisoned s s' → tracked t request (locked s) → tracked t request (locked s').
Proof.
  intros Hs [-> _]. apply (tracked_fmap t request _ _ transition_record); [done| |done|].
  - intros r. apply transition_record_fields.
  - intros r _ Hr. eapply (serves_terminal (locked s)); [by apply grows_same|done|apply transition_not_waiting| |].
    + apply transition_record_fields.
    + unfold transition_record. by destruct r as [? ? ? []].
Qed.

(** A call on another ticket, or one that keeps the subscription. *)
Lemma tracked_effect c t t' request s record f a :
  store_ok store s → call_ticket c = Some t' → keeps t (request_job request) c →
  lookup_ticket t' s = Some record → ticket_effect c record = Ok (Some f, a) →
  tracked t request s → tracked t request (f s).
Proof.
  intros Hs Ht (Hk1 & Hk2 & Hk3) Hlook He Htr.
  pose proof (effect_same c record s f a t' Ht He) as [Hseg Hobs].
  assert (∀ g, tickets (f s) = (λ r, if decide (record_ticket r = t') then g r else r) <$> tickets s →
    (∀ r, record_ticket (g r) = record_ticket r) →
    (t' = t → ∀ r, lookup_ticket t' s = Some r → serves s request r → serves (f s) request (g r)) →
    tracked t request (f s)) as Halter.
  { intros g Hg Hid Hserves. destruct Htr as (r & Hl & Hr).
    pose proof (st_distinct _ _ Hs) as Hnd.
    set (h := λ x, if decide (record_ticket x = t') then g x else x).
    exists (h r). split.
    - apply (lookup_fmap_ticket t s h); [done| |done|done]. intros x. unfold h. by case_decide.
    - unfold h. case_decide as Hd; [|by eapply serves_same].
      pose proof Hl as [_ Hrt]%lookup_ticket_Some; [|done]. apply Hserves; [congruence| |done].
      by rewrite <-Hd, Hrt. }
  destruct c; simpl in Ht; simplify_eq; unfold ticket_effect in He; try done.
  - case_bool_decide; [done|]. destruct (is_pending (record_phase record)); [|done]. simplify_eq.
    eapply Halter with (g := set_phase (PhaseFailed error)); [done|done|].
    intros _ r _ Hr. eapply (serves_terminal s); [by apply grows_same|done|done|done|done].
  - destruct (is_pending (record_phase record)) eqn:Hp; [|done]. simplify_eq.
    eapply Halter with (g := without_job job); [done|intros r; apply without_job_fields|].
    intros -> r Hl Hr. destruct (without_job_fields job r) as (_ & Hm & Hws & Hph).
    rewrite Hlook in Hl. simplify_eq. destruct Hr as [Hsub Hwait Hready]. split.
    + rewrite Hws. apply list_elem_of_filter. split; [|done]. simpl. congruence.
    + intros Hw. rewrite Hm. unfold is_waiting in Hw.
      destruct Hph as [[Hph _]|Hph]; rewrite Hph in Hw; [by apply Hwait|done].
    + intros Hr. destruct Hph as [[Hph _]|Hph]; [apply Hready; congruence|congruence].
  - destruct (is_pending (record_phase record)); [done|]. simplify_eq.
    eapply Halter with (g := set_subscribers []); [done|done|]. intros ->. done.
  - simplify_eq. done.
  - destruct (is_pending (record_phase record)); [done|]. case_bool_decide; [|done]. simplify_eq.
    destruct Htr as (r & Hl & Hr). exists r. pose proof (st_distinct _ _ Hs) as Hnd.
    split; [|by eapply serves_same]. apply lookup_ticket_Some in Hl as [Hin Hrt]; [|done].
    apply lookup_ticket_Some.
    + simpl. eapply NoDup_sublist; [apply fmap_sublist, sublist_filter|done].
    + split; [|done]. simpl. apply list_elem_of_filter. split; [|done]. congruence.
Qed.

Lemma tracked_enlisted t t' request request' s s' m :
  store_ok store s → enlisted store s request' m t' s' →
  tracked t request s → tracked t request s'.
Proof.
  intros Hs Hen Htr. pose proof (st_distinct _ _ Hs) as Hnd.
  destruct Hen as [r|r Hr Hwt Hrm Hnew Hlt Htot|Hnone Htick Htot Hnext]; [done| |].
  - set (f := λ x, if decide (record_ticket x = record_ticket r) then joined request' x else x).
    eapply (tracked_fmap t request s _ f); [done|intros x; unfold f; by case_decide|done| |done].
    intros x _ Hx. unfold f. case_decide; [|by apply (serves_same s)].
    destruct Hx as [Hsub Hwait Hready]. split; [|done..].
    unfold joined. simpl. apply elem_of_app. by left.
  - destruct Htr as (r & Hl & Hr). exists r. split; [|by apply (serves_same s)].
    apply lookup_ticket_Some in Hl as [Hin Hrt]; [|done]. apply lookup_ticket_Some.
    + simpl. rewrite fmap_app. apply NoDup_app. split; [done|]. split; [|apply NoDup_singleton].
      intros x Hx ->%list_elem_of_singleton. by apply (fresh_distinct store s).
    + split; [|done]. simpl. apply elem_of_app. by left.
Qed.

Lemma tracked_synced t request s0 s1 :
  store_ok store (locked s0) → synced s0 s1 →
  tracked t request (locked s0) → tracked t request (locked s1).
Proof. intros Hs [[[-> _] _]|[Hp _]]; [done|by apply tracked_poisoned]. Qed.

Lemma tracked_call c s0 s' r t request :
  range_wf store s0 → range_ok (request_range request) → keeps t (request_job request) c →
  call_outcome store c s0 s' r → tracked t request (locked s0) → tracked t request (locked s').
Proof.
  intros Hwf Hrange Hk Hco Htr. pose proof (wf_store _ _ Hwf) as Hs.
  pose proof (call_grows store c s0 s' r Hco) as Hg. destruct Hco as
    [s' a (snapshot & l & outcome & _ & Hlay & _ & _ & Hmiss & [Hl _ _] & ->)|e s' _ [Hl _]|s' r Hp _
    |request' p s' -> Hpoll|t' s1 s' r Ht Hsync Hto].
  - rewrite Hl in Hg |- *. set (observed := observed_after (locked s0) snapshot) in *.
    eapply (tracked_fmap t request _ _ (settle l observed)); [done|intros; apply settle_fields|done| |done].
    intros x Hx Hser. pose proof (st_records _ _ Hs) as Hrec. rewrite Forall_forall in Hrec.
    by eapply settle_serves; [..|by apply Hrec|].
  - by rewrite Hl.
  - by eapply tracked_poisoned.
  - destruct Hpoll as [? ? [-> _]|? ? [-> _]|t' m s' Hc Hc' Hm Hne Hlen Hread Hinput Hw Hen|? Hp
      |e s' _ _ Hc Hc' Hst]; try done.
    + by eapply tracked_enlisted.
    + by eapply tracked_poisoned.
    + destruct Hst as [->|[_ ->]]; [done|]. by apply (tracked_same _ _ (locked s0)).
  - pose proof (synced_wf _ _ _ Hsync Hwf) as [Hs1 _]. pose proof (tracked_synced _ _ _ _ Hs Hsync Htr) as Htr1.
    unfold ticket_outcome in Hto. destruct (lookup_ticket t' (locked s1)) as [record|] eqn:Hlook;
      [|by destruct Hto as [_ ->]].
    destruct (ticket_effect c record) as [[[f|] a]|?] eqn:He.
    + destruct Hto as (_ & -> & _). by eapply tracked_effect.
    + destruct Hto as [_ Hp]. by eapply tracked_poisoned.
    + by destruct Hto as [_ ->].
Qed.

Lemma tracked_runs s0 l s' t request :
  range_wf store s0 → range_ok (request_range request) → runs store s0 l s' →
  Forall (λ cr, keeps t (request_job request) cr.1) l →
  tracked t request (locked s0) → tracked t request (locked s').
Proof.
  intros Hwf Hrange Hruns. induction Hruns as [s|s0 c r s1 l s2 Hc Hrun _ IH]; intros Hl Htr; [done|].
  apply Forall_cons in Hl as [Hk Hl]. pose proof (call_run store Hlimits _ _ _ _ Hwf Hc Hrun) as Hco.
  destruct (call_wf store Hlimits _ _ _ _ Hwf Hco) as [Hwf1 _]. apply IH; [done..|].
  by apply (tracked_call c s0 s1 r).
Qed.

(** The poll that enlists a request makes its ticket serve it. *)
Lemma tracked_poll s0 request t m s' :
  store_ok store (locked s0) → range_ok (request_range request) →
  poll_outcome store s0 request (PollPending t m) s' → tracked t request (locked s').
Proof.
  intros Hs Hrange Hp. inversion Hp as [| |? ? ? Hc Hc' Hm Hne Hlen Hread Hinput Hw Hen| |]; subst.
  pose proof (st_distinct _ _ Hs) as Hnd. destruct Hen as
    [r Hr Hwt Hrm Hsub|r Hr Hwt Hrm Hnew Hlt Htot|Hnone Htick Htot Hnext].
  - exists r. split; [by apply lookup_ticket_Some|]. split; [done|by rewrite Hrm|].
    intros Hready. unfold is_waiting in Hwt. by rewrite Hready in Hwt.
  - set (f := λ x, if decide (record_ticket x = record_ticket r) then joined request x else x).
    exists (f r). split.
    + eapply (lookup_fmap_ticket _ (locked s0) f); [done|intros x; unfold f; by case_decide|done|].
      by apply lookup_ticket_Some.
    + unfold f. rewrite decide_True by done. split; simpl.
      * apply elem_of_app. right. by left.
      * intros _. by rewrite Hrm.
      * intros Hready. unfold is_waiting in Hwt. by rewrite Hready in Hwt.
  - exists (fresh_record store (locked s0) request m). split; [|split; simpl; [by left|done|done]].
    apply lookup_ticket_Some.
    + simpl. rewrite fmap_app. apply NoDup_app. split; [done|]. split; [|apply NoDup_singleton].
      intros x Hx ->%list_elem_of_singleton. by apply (fresh_distinct store (locked s0)).
    + split; [|done]. simpl. apply elem_of_app. right. by left.
Qed.
End wake.
