(* ===== verification/RangeProps.v ===== *)
(** * The properties of the byte range store

    For a store made by [RangeStore::new] with validated limits, after any
    sequence of calls, whatever the allocator answers, whatever other holders keep
    of the resident budget, and whenever another thread signals a change of the
    source. *)

From stdpp Require Import base list numbers option sorting sets strings.
From S2P Require Import Prelude.
From S2P Require Import SourceTypes.
From S2P Require Import RangeTypes.
From S2P Require Import RangeStore.
From S2P Require Import RangeSegments.
From S2P Require Import RangeMerge.
From S2P Require Import RangeInv.
From S2P Require Import RangeSupply.
From S2P Require Import RangeTickets.
From S2P Require Import RangePoll.
From S2P Require Import RangeRuns.

Section props.
Context `{RangeRuntime}.
Implicit Types (store : RangeStore) (s : RangeState).

(** The state [s] of [store] after the calls [l] and their answers. *)
Definition reachable store l s : Prop :=
  ∃ config snapshot next next' s0,
    range_config_unsigned config ∧ from_option (λ n, 0 ≤ n) True (snapshot_len snapshot) ∧
    RangeStoreLimits_validate config = Ok (store_limits store) ∧
    RangeStore_new next snapshot (store_limits store) = Ok (store, s0, next') ∧
    runs store s0 l s.

Lemma reachable_ok store l s :
  reachable store l s →
  range_limits_ok (store_limits store) ∧ range_wf store s ∧ Forall (λ cr, cr.2 ≠ Err Panicked) l ∧
  ∀ x b, content (segments (locked s)) x = Some b ↔
    ∃ resp, accepted_in l resp ∧ supplied (response_range resp) (response_bytes resp) x = Some b.
Proof.
  intros (config & snapshot & next & next' & s0 & Hu & Hn & Hv & Hnew & Hruns).
  destruct (validate_limits_decides config Hu) as [[Hok Hc]|[_ [e Hc]]]; rewrite Hv in Hc; [|done].
  injection Hc as Hc. rewrite <-Hc in Hok.
  destruct (range_store_new_ok store Hok _ _ _ _ Hn Hnew) as (Hwf & Hseg & _).
  destruct (runs_invariant store Hok _ _ _ Hwf Hruns) as (Hwf' & _ & Hp).
  split_and!; [done..|]. intros x b. rewrite (runs_known store Hok _ _ _ x b Hwf Hruns), Hseg.
  naive_solver.
Qed.

Lemma reachable_runs store l s l' s' : reachable store l s → runs store s l' s' → reachable store (l ++ l') s'.
Proof.
  intros (config & snapshot & next & next' & s0 & ? & ? & ? & ? & ?) ?.
  exists config, snapshot, next, next', s0. split_and!; try done. by eapply runs_app.
Qed.

(** C8: the invariant of the byte range store. After any calls, segments are
    sorted, disjoint and not adjacent, each backed by exactly its bytes; the
    cached total, the counts and the capacities held are within the limits;
    tickets are distinct and below the next one; a pending ticket waits for a
    canonical, non-empty list of ranges none of whose offsets is cached or beyond
    the known length; subscriptions are counted; nothing waits once the source
    changed; and no call panicked. *)
Theorem range_store_invariant store l s :
  reachable store l s → range_wf store s ∧ Forall (λ cr, cr.2 ≠ Err Panicked) l.
Proof. by intros (_ & ? & ? & _)%reachable_ok. Qed.

(** The store refines the supplied bytes. After any calls, an offset holds a
    byte exactly when some accepted response supplied that byte there; so accepted
    responses agree wherever they overlap. *)
Theorem content_is_supplied store l s x b :
  reachable store l s →
  content (segments (locked s)) x = Some b ↔
  ∃ resp, accepted_in l resp ∧ supplied (response_range resp) (response_bytes resp) x = Some b.
Proof. intros (_ & _ & _ & Hx)%reachable_ok. apply Hx. Qed.

(** C11: what supplied bytes and observed snapshots do. A call either is accepted,
    leaves the overlay of the response on the cached bytes, the known length and
    exactly the tickets that this settles, and reports those that became ready; or
    it poisons the store, because the source changed (for [supply] also because a
    cached byte differs), and turns every pending ticket; or it is refused for a
    limit that is really exceeded or an allocation that failed, and changes
    nothing. *)
Theorem supply_exact store l s0 resp snapshot :
  reachable store l s0 → response_ok resp →
  match supply store resp s0 with
  | (s', Ok outcome) => ∃ k, supplied_ok store s0 resp k ∧ accepted s0 (response_snapshot resp) k outcome s'
  | (s', Err (Rejected e)) =>
      failed s0 (supply_poison store s0 resp) (supply_refusal store (locked s0) resp) e s'
  | (_, Err Panicked) => False
  end ∧
  match observe_snapshot store snapshot s0 with
  | (s', Ok outcome) =>
      same_source store snapshot = true ∧ metadata_conflicts (locked s0) snapshot = false ∧
      accepted s0 snapshot (segments (locked s0)) outcome s'
  | (s', Err (Rejected e)) =>
      failed s0 (λ code, code = SourceChanged ∧ mismatch store s0 snapshot)
        (observe_refusal store (locked s0) snapshot) e s'
  | (_, Err Panicked) => False
  end.
Proof.
  intros (Hlimits & [Hs _] & _)%reachable_ok Hresp. split.
  - pose proof (supply_wp store Hlimits s0 resp Hs Hresp) as Hwp. unfold wp in Hwp.
    by destruct (supply store resp s0) as [s' [outcome|[e|]]].
  - pose proof (observe_wp store s0 snapshot Hs) as Hwp. unfold wp in Hwp.
    destruct (observe_snapshot store snapshot s0) as [s' [outcome|[e|]]]; [|done..].
    by destruct Hwp as (? & ? & _ & ?).
Qed.

(** Room for a response, on a runtime where allocations succeed exactly and
    nothing else holds resident bytes. *)
Record room store (s : StoreState) (resp : RangeResponse) : Prop := {
  room_metadata : ∀ k n, metadata_reserved k n = true;
  room_bytes : ∀ k n, 0 ≤ n ≤ range_max_input_bytes (store_limits store) → bytes_reserved k n = Some n;
  room_external : ∀ k, external_bytes k ≤ 0;
  room_read : range_len (response_range resp) ≤ range_max_read_bytes (store_limits store);
  room_input : ByteRange_end_exclusive (response_range resp) ≤ range_max_input_bytes (store_limits store);
  room_observed : from_option (λ n, n ≤ range_max_input_bytes (store_limits store)) True
                    (snapshot_len (response_snapshot resp));
  room_resident : held_capacity (segments s) + response_capacity resp
                    + union_len (response_range resp) (segments s)
                  ≤ range_max_resident_bytes (store_limits store);
  room_cached : cached_after (response_range resp) (segments s)
                ≤ range_max_cached_bytes (store_limits store);
  room_segments : count_after (response_range resp) (segments s) ≤ range_max_segments (store_limits store);
  room_missing : ∀ r m, r ∈ tickets s → is_waiting r → missing_after (segments s) resp r m →
                   len m ≤ range_max_missing_ranges (store_limits store)
}.

(** Progress. A response of the same source that agrees with the cached bytes
    is accepted whenever there is room for it and no change was signalled. *)
Theorem supply_completes store l s0 resp :
  reachable store l s0 → response_ok resp → room store (locked s0) resp →
  ¬ change_signalled s0 → same_source store (response_snapshot resp) = true →
  metadata_conflicts (locked s0) (response_snapshot resp) = false →
  (∀ x, ¬ differs (content (segments (locked s0))) (response_range resp) (response_bytes resp) x) →
  ∃ s' outcome, supply store resp s0 = (s', Ok outcome).
Proof.
  intros (Hlimits & [Hs _] & _)%reachable_ok Hresp Hroom Hch Hsame Hmeta Hagree.
  pose proof (supply_wp store Hlimits s0 resp Hs Hresp) as Hwp. unfold wp in Hwp.
  destruct (supply store resp s0) as [s' [outcome|[e|]]]; [eauto| |done]. exfalso.
  pose proof (union_small store s0 resp Hs Hresp (room_input _ _ _ Hroom)) as Hu.
  destruct Hroom. destruct Hwp as [[_ Href]|[_ (code & _ & [[_ Hm]|[_ [x Hx]]])]].
  - destruct Href as [e Ho| | |n merged attempted [Hn [k Hk]] Hmerged Hlt Hatt| | |r m Hr Hw Hm Hlt
      |k limit attempted wanted Ha]; try lia.
    + destruct Ho as [n _ Hn Hlt|k Hk]; [|by rewrite room_metadata0 in Hk].
      rewrite Hn in room_observed0. simpl in room_observed0. lia.
    + specialize (room_external0 k). destruct Hmerged as [->|[->|(k' & Hk')]]; [lia|lia|].
      rewrite room_bytes0 in Hk' by lia. injection Hk' as <-. lia.
    + specialize (room_missing0 r m Hr Hw Hm). lia.
    + destruct Ha as [Ha|Ha]; [by rewrite room_metadata0 in Ha|by rewrite room_bytes0 in Ha by lia].
  - destruct Hm as [|[|]]; congruence.
  - by apply (Hagree x).
Qed.

(** C21: what a poll answers. It never fails outright: it returns a slice with
    exactly the cached bytes of the range, when all are cached; or the end of file,
    when the range passes the known length; or a ticket with exactly the missing
    offsets as maximal ranges, on which the job is now enlisted, by joining the
    ticket that waits for the same offsets or by a fresh one; or a failure, which
    poisons the store for a signalled change, or states an exceeded limit, a failed
    allocation or a checkpoint conflict, and enlists nobody. *)
Theorem poll_exact store l s0 request :
  reachable store l s0 → range_ok (request_range request) →
  ∃ s' answer, poll store request s0 = (s', Ok answer) ∧ poll_outcome store s0 request answer s'.
Proof.
  intros (Hlimits & [Hs _] & _)%reachable_ok Hr.
  destruct (poll store request s0) as [s' r] eqn:Hp.
  destruct (poll_run store Hlimits s0 request s' r Hs Hr Hp) as (a & -> & Ha). eauto.
Qed.

(** Calls on tickets. After the flag is looked at, which turns the pending
    tickets when a change was signalled, a call that names an unknown ticket
    changes nothing; otherwise its answer and its effect are those of
    [ticket_effect] on the record of that ticket, and no other record changes. *)
Theorem ticket_calls_exact store l s0 c t :
  reachable store l s0 → call_ticket c = Some t →
  match run_call store c s0 with
  | (s', r) => ∃ s1, synced s0 s1 ∧ ticket_outcome c t s1 s' r
  end.
Proof.
  intros (_ & Hwf & _)%reachable_ok Ht. destruct (run_call store c s0) as [s' r] eqn:Hr.
  by apply (ticket_call_run store).
Qed.

(** Stable bytes. Two slices polled at any two times agree on every offset
    they share, whatever was supplied between the polls. *)
Theorem slices_agree store l s0 request1 request2 s1 slice1 k s2 s3 slice2 x :
  reachable store l s0 → range_ok (request_range request1) → range_ok (request_range request2) →
  poll store request1 s0 = (s1, Ok (PollReady slice1)) → runs store s1 k s2 →
  poll store request2 s2 = (s3, Ok (PollReady slice2)) →
  in_range x (request_range request1) → in_range x (request_range request2) →
  slice_bytes slice1 !! Z.to_nat (x - range_start (request_range request1)) =
  slice_bytes slice2 !! Z.to_nat (x - range_start (request_range request2)).
Proof.
  intros Hreach Hr1 Hr2 Hp1 Hruns Hp2 Hx1 Hx2.
  pose proof (reachable_ok _ _ _ Hreach) as (Hlimits & Hwf & _).
  destruct (poll_run store Hlimits s0 request1 s1 _ (wf_store _ _ Hwf) Hr1 Hp1) as (a1 & [= <-] & Ho1).
  inversion Ho1 as [? ? Hk1 _ _ _ Hb1| | | |]; subst.
  pose proof (kept_wf _ _ _ Hk1 Hwf) as Hwf1.
  destruct (runs_invariant store Hlimits _ _ _ Hwf1 Hruns) as (Hwf2 & [Hg _] & _).
  destruct (poll_run store Hlimits s2 request2 s3 _ (wf_store _ _ Hwf2) Hr2 Hp2) as (a2 & [= <-] & Ho2).
  inversion Ho2 as [? ? Hk2 _ _ _ Hb2| | | |]; subst.
  apply bytes_at_Some in Hb1 as [Hl1 Hb1]; [|destruct Hr1; lia].
  apply bytes_at_Some in Hb2 as [Hl2 Hb2]; [|destruct Hr2; lia].
  rewrite <-Hb1, <-Hb2 by done. destruct Hk1 as [Hk1 _]. rewrite Hk1 in Hg. symmetry. apply Hg.
  rewrite Hb1 by done. apply lookup_lt_is_Some. unfold in_range, ByteRange_end_exclusive in Hx1. lia.
Qed.

Lemma waiting_not_answerable store (st : StoreState) request r :
  store_ok store st → r ∈ tickets st → serves st request r → is_waiting r →
  ¬ answerable st (request_range request).
Proof.
  intros Hs Hr [_ Hw _] Hwt. destruct (Hw Hwt) as [[_ Hm] Hwithin].
  pose proof (st_records _ _ Hs) as Hrec. rewrite Forall_forall in Hrec.
  destruct (rec_waiting _ _ _ _ (Hrec r Hr) (proj1 (is_waiting_phase r) Hwt)) as [Hcan Hne _ _ _ _].
  destruct (record_missing r) as [|g k] eqn:Hg; [done|].
  apply canonical_cons in Hcan as (Hgok%range_nonempty & _).
  destruct (proj1 (Hm (range_start g))) as [Hin Hnone].
  { apply in_ranges_cons. left. unfold in_range. lia. }
  intros [Hcov|(o & Ho & Hlt)].
  - apply Hcov in Hin. rewrite Hnone in Hin. by destruct Hin.
  - rewrite Ho in Hwithin. apply within_single in Hwithin. lia.
Qed.

Lemma answerable_poll store s0 request s' a :
  ¬ change_signalled s0 → range_len (request_range request) ≤ range_max_read_bytes (store_limits store) →
  ByteRange_end_exclusive (request_range request) ≤ range_max_input_bytes (store_limits store) →
  answerable (locked s0) (request_range request) → poll_outcome store s0 request a s' →
  a = PollEndOfFile ∨ ∃ slice, a = PollReady slice.
Proof.
  intros Hch Hread Hinput Hans Ha.
  assert (∀ x, within (observed_len (locked s0)) [request_range request] →
    in_range x (request_range request) → content (segments (locked s0)) x ≠ None) as Hno.
  { intros x Hw Hx Hn. destruct Hans as [Hcov|(o & Ho & Hlt)].
    - apply Hcov in Hx. rewrite Hn in Hx. by destruct Hx.
    - rewrite Ho in Hw. apply within_single in Hw. lia. }
  destruct Ha as [| |t m s' _ _ [Hcan Hm] Hne _ _ _ Hw _| |e s' _ Href _ _ _]; try (eauto; done).
  - exfalso. destruct m as [|g k]; [done|]. apply canonical_cons in Hcan as (Hgok%range_nonempty & _).
    destruct (proj1 (Hm (range_start g))) as [Hin Hnone]; [|by apply (Hno (range_start g))].
    apply in_ranges_cons. left. unfold in_range. lia.
  - exfalso. destruct Href as [|[Hw [|(x & Hx & Hn)]]]; [lia|lia|by apply (Hno x)].
Qed.

(** C12: wake-ups are neither lost nor spurious. While nobody takes or removes the
    subscription of a request that polled pending, its ticket holds it; the ticket
    is pending only while the request could not be answered; once it is ready, the
    same poll returns bytes or the end of file, unless a change is signalled; and
    once it is terminal, taking its subscriptions returns this one. *)
Theorem wakeups_exact store l s0 request t m s1 k s2 :
  reachable store l s0 → range_ok (request_range request) →
  poll store request s0 = (s1, Ok (PollPending t m)) → runs store s1 k s2 →
  Forall (λ cr, keeps t (request_job request) cr.1) k →
  ∃ r, lookup_ticket t (locked s2) = Some r ∧ subscriber_of request ∈ record_subscribers r ∧
    (is_waiting r → ¬ answerable (locked s2) (request_range request)) ∧
    (record_phase r = PhaseReady → ¬ change_signalled s2 →
       ∀ s3 a, poll store request s2 = (s3, Ok a) → a = PollEndOfFile ∨ ∃ slice, a = PollReady slice) ∧
    (¬ is_waiting r → ∃ s3 subs, take_subscriptions t s2 = (s3, Ok subs) ∧ subscriber_of request ∈ subs).
Proof.
  intros Hreach Hr Hp Hruns Hkeeps. pose proof (reachable_ok _ _ _ Hreach) as (Hlimits & Hwf & _).
  destruct (poll_run store Hlimits s0 request s1 _ (wf_store _ _ Hwf) Hr Hp) as (a & [= <-] & Ho).
  pose proof (tracked_poll store s0 request t m s1 (wf_store _ _ Hwf) Hr Ho) as Htr.
  destruct (call_wf store Hlimits (CallPoll request) s0 s1 _ Hwf (call_polled store _ s0 request _ s1 eq_refl Ho))
    as [Hwf1 _].
  pose proof (tracked_runs store Hlimits s1 k s2 t request Hwf1 Hr Hruns Hkeeps Htr) as (r & Hl & Hserves).
  destruct (runs_invariant store Hlimits _ _ _ Hwf1 Hruns) as (Hwf2 & _ & _).
  pose proof (st_distinct _ _ (wf_store _ _ Hwf2)) as Hnd.
  pose proof (proj1 (lookup_ticket_Some _ _ _ Hnd) Hl) as [Hin Hrt].
  exists r. split_and!; [done|apply Hserves| | |].
  - intros Hw. eapply waiting_not_answerable; [apply Hwf2|done..].
  - intros Hready Hch s3 a Hp3.
    destruct (poll_run store Hlimits s2 request s3 _ (wf_store _ _ Hwf2) Hr Hp3) as (a' & [= <-] & Ho3).
    inversion Ho; subst. eapply answerable_poll; try done. by apply Hserves.
  - intros Hnw. destruct (run_call store (CallTake t) s2) as [s3 r3] eqn:Htake.
    destruct (ticket_call_run store (CallTake t) t s2 s3 r3 Hwf2 eq_refl Htake) as (s4 & Hsync & Hout).
    assert (∃ r', lookup_ticket t (locked s4) = Some r' ∧ ¬ is_waiting r' ∧
      record_subscribers r' = record_subscribers r) as (r' & Hl' & Hnw' & Hsubs).
    { destruct Hsync as [[[-> _] _]|[[Hs4 _] _]]; [by exists r|]. exists (transition_record r).
      split; [|split; [apply transition_not_waiting|apply transition_record_fields]].
      rewrite Hs4. eapply (lookup_fmap_ticket _ (locked s2) transition_record); [done| |done|done].
      intros x. apply transition_record_fields. }
    unfold ticket_outcome in Hout. rewrite Hl' in Hout. unfold ticket_effect in Hout.
    unfold is_waiting in Hnw'. destruct (is_pending (record_phase r')); [done|].
    destruct Hout as (-> & _). simpl in Htake. apply answer_run in Htake as [(subs & Hrun & Hs)|(e & _ & [=])].
    injection Hs as Hs. exists s3, subs. split; [done|]. rewrite <-Hs, Hsubs. apply Hserves.
Qed.
End props.

(** ** Concrete runs *)

(** A 64-bit platform whose allocator gives what is asked; nobody else holds
    bytes or signals a change. *)
Program Definition quiet_runtime : RangeRuntime :=
  {| range_platform := desktop64; signalled := λ _, false; external_bytes := λ _, 0;
     metadata_reserved := λ _ _, true;
     bytes_reserved := λ _ wanted, if wanted <=? u64_max then Some wanted else None |}.
Next Obligation.
  simpl. intros _ wanted capacity. destruct (Z.leb_spec wanted u64_max); [|done].
  intros [= <-]. unfold usize_max, desktop64. lia.
Qed.
#[local] Existing Instance quiet_runtime.

Definition example_identity : SourceIdentity := {| stable_id := [1]; revision := 7 |}.
Definition example_snapshot (length : option Z) : SourceSnapshot :=
  {| snapshot_identity := example_identity; snapshot_len := length;
     snapshot_validator := {| validator_kind := FrozenResponse; validator_digest := [9] |} |}.

Definition example_store : RangeStore :=
  {| store_namespace := 1; store_snapshot := example_snapshot None;
     store_limits := RangeStoreLimitConfig_default |}.
Definition example_start : RangeState :=
  {| locked := {| segments := []; cached_bytes := 0; tickets := []; next_ticket := 1;
                  observed_len := None; subscription_count := 0 |};
     source_changed := false; flag_reads := 0; reservations := 0; allocations := 2 |}.

Definition example_range (start length : Z) : ByteRange :=
  {| range_start := start; range_len := length |}.
Definition example_request (job start length : Z) : ReadRequest :=
  {| request_range := example_range start length; request_priority := VisiblePage;
     request_job := job; request_checkpoint := 5 |}.
Definition example_response (start : Z) (bytes : list Z) : RangeResponse :=
  {| response_snapshot := example_snapshot None; response_range := example_range start (len bytes);
     response_bytes := bytes; response_capacity := len bytes |}.

Definition example_run (calls : list RangeCall) := run_calls example_store example_start calls.

Lemma example_reachable calls :
  Forall call_ok calls → reachable example_store (example_run calls).1 (example_run calls).2.
Proof.
  intros Hc. exists RangeStoreLimitConfig_default, (example_snapshot None), 1, 2, example_start.
  split; [vm_compute; intuition discriminate|]. split; [exact I|].
  split; [vm_compute; reflexivity|]. split; [vm_compute; reflexivity|].
  by apply run_calls_runs.
Qed.

Lemma example_response_ok start bytes :
  0 ≤ start → 0 < len bytes → start + len bytes ≤ 1000 → response_ok (example_response start bytes).
Proof.
  intros. split; simpl; [split; unfold ByteRange_end_exclusive, u64_max; simpl; lia|done| |done].
  unfold usize_max, desktop64, u64_max. lia.
Qed.

Lemma example_range_ok job start length :
  0 ≤ start → 0 < length → start + length ≤ 1000 → range_ok (request_range (example_request job start length)).
Proof. intros. split; unfold ByteRange_end_exclusive, u64_max; simpl; lia. Qed.

(** A poll for six bytes, and the response of the first half of them. *)
Definition example_calls : list RangeCall :=
  [CallPoll (example_request 3 10 6); CallSupply (example_response 10 [65; 66; 67])].

Lemma example_calls_ok : Forall call_ok example_calls.
Proof.
  unfold example_calls. constructor; [|constructor; [|constructor]]; unfold call_ok.
  - apply example_range_ok; lia.
  - apply example_response_ok; unfold len; cbn [length]; lia.
Qed.

Lemma example_after calls1 calls2 :
  Forall call_ok calls2 →
  runs example_store (example_run calls1).2 (run_calls example_store (example_run calls1).2 calls2).1
    (run_calls example_store (example_run calls1).2 calls2).2.
Proof. apply run_calls_runs. Qed.

Lemma range_store_invariant_witness :
  range_wf example_store (example_run example_calls).2 ∧
  Forall (λ cr, cr.2 ≠ Err Panicked) (example_run example_calls).1.
Proof.
  apply (range_store_invariant example_store (example_run example_calls).1 (example_run example_calls).2).
  apply example_reachable, example_calls_ok.
Defined.

Lemma content_is_supplied_witness :
  content (segments (locked (example_run example_calls).2)) 11 = Some 66 ↔
  ∃ resp, accepted_in (example_run example_calls).1 resp ∧
    supplied (response_range resp) (response_bytes resp) 11 = Some 66.
Proof.
  apply (content_is_supplied example_store (example_run example_calls).1 (example_run example_calls).2).
  apply example_reachable, example_calls_ok.
Defined.

Lemma supply_exact_witness :
  match supply example_store (example_response 13 [68; 69; 70]) (example_run example_calls).2 with
  | (s', Ok outcome) => ∃ k,
      supplied_ok example_store (example_run example_calls).2 (example_response 13 [68; 69; 70]) k ∧
      accepted (example_run example_calls).2 (response_snapshot (example_response 13 [68; 69; 70])) k outcome s'
  | (s', Err (Rejected e)) =>
      failed (example_run example_calls).2
        (supply_poison example_store (example_run example_calls).2 (example_response 13 [68; 69; 70]))
        (supply_refusal example_store (locked (example_run example_calls).2)
           (example_response 13 [68; 69; 70])) e s'
  | (_, Err Panicked) => False
  end.
Proof.
  refine (proj1 (supply_exact example_store (example_run example_calls).1 (example_run example_calls).2
    (example_response 13 [68; 69; 70]) (example_snapshot None) _ _)).
  - apply example_reachable, example_calls_ok.
  - apply example_response_ok; unfold len; cbn [length]; lia.
Defined.

Lemma poll_exact_witness :
  ∃ s' answer, poll example_store (example_request 4 10 3) (example_run example_calls).2 = (s', Ok answer) ∧
    poll_outcome example_store (example_run example_calls).2 (example_request 4 10 3) answer s'.
Proof.
  apply (poll_exact example_store (example_run example_calls).1 (example_run example_calls).2).
  - apply example_reachable, example_calls_ok.
  - apply example_range_ok; lia.
Defined.

Definition example_ticket : DataTicket := {| ticket_namespace := 1; ticket_value := 1 |}.

Lemma ticket_calls_exact_witness :
  match run_call example_store (CallTake example_ticket) (example_run example_calls).2 with
  | (s', r) => ∃ s1, synced (example_run example_calls).2 s1 ∧ ticket_outcome (CallTake example_ticket) example_ticket s1 s' r
  end.
Proof.
  apply (ticket_calls_exact example_store (example_run example_calls).1 (example_run example_calls).2).
  - apply example_reachable, example_calls_ok.
  - reflexivity.
Defined.

Lemma supply_completes_witness :
  ∃ s' outcome,
    supply example_store (example_response 10 [65; 66; 67]) (example_run []).2 = (s', Ok outcome).
Proof.
  apply (supply_completes example_store (example_run []).1 (example_run []).2).
  - apply example_reachable. constructor.
  - apply example_response_ok; unfold len; cbn [length]; lia.
  - split; [reflexivity| | |vm_compute; discriminate|vm_compute; discriminate|exact I
           |vm_compute; discriminate|vm_compute; discriminate|vm_compute; discriminate|].
    + intros k n [_ Hn]. change (range_max_input_bytes (store_limits example_store)) with 268435456 in Hn.
      cbn [bytes_reserved quiet_runtime]. unfold u64_max. by destruct (Z.leb_spec n 18446744073709551615); [|lia].
    + intros k. reflexivity.
    + intros r m Hr. by apply elem_of_nil in Hr.
  - intros [Hc|[k Hk]]; discriminate.
  - vm_compute; reflexivity.
  - vm_compute; reflexivity.
  - intros x (_ & [b Hb] & _). discriminate.
Defined.

Definition example_slice (start : Z) (bytes : list Z) : ByteSlice :=
  {| slice_identity := example_identity; slice_range := example_range start (len bytes);
     slice_backing := bytes; slice_backing_offset := 0 |}.

(** The state once the first three bytes were polled; then the next three arrive. *)
Definition example_polled : RangeState :=
  (poll example_store (example_request 4 10 3) (example_run example_calls).2).1.
Definition example_arrival : list RangeCall := [CallSupply (example_response 13 [68; 69; 70])].
Definition example_arrived := run_calls example_store example_polled example_arrival.

Lemma example_arrival_ok : Forall call_ok example_arrival.
Proof.
  constructor; [|constructor]. unfold call_ok. apply example_response_ok; unfold len; cbn [length]; lia.
Qed.

(** The first three bytes are polled, the next three arrive, and all six are polled. *)
Lemma slices_agree_witness :
  slice_bytes (example_slice 10 [65; 66; 67]) !! Z.to_nat (12 - 10) =
  slice_bytes (example_slice 10 [65; 66; 67; 68; 69; 70]) !! Z.to_nat (12 - 10).
Proof.
  apply (slices_agree example_store (example_run example_calls).1 (example_run example_calls).2
    (example_request 4 10 3) (example_request 5 10 6) example_polled _ example_arrived.1 example_arrived.2
    (poll example_store (example_request 5 10 6) example_arrived.2).1 _ 12).
  - apply example_reachable, example_calls_ok.
  - apply example_range_ok; lia.
  - apply example_range_ok; lia.
  - vm_compute; reflexivity.
  - apply run_calls_runs, example_arrival_ok.
  - vm_compute; reflexivity.
  - split; vm_compute; congruence.
  - split; vm_compute; congruence.
Defined.

(** A job polls six bytes, a first response holds three of them. *)
Definition example_waiting : RangeState := (poll example_store (example_request 3 10 6) example_start).1.
Definition example_first : list RangeCall := [CallSupply (example_response 10 [65; 66; 67])].
Definition example_half := run_calls example_store example_waiting example_first.

Lemma example_first_ok : Forall call_ok example_first.
Proof.
  constructor; [|constructor]. unfold call_ok. apply example_response_ok; unfold len; cbn [length]; lia.
Qed.

Lemma wakeups_exact_witness :
  ∃ r, lookup_ticket example_ticket (locked example_half.2) = Some r ∧
    subscriber_of (example_request 3 10 6) ∈ record_subscribers r ∧
    (is_waiting r → ¬ answerable (locked example_half.2) (request_range (example_request 3 10 6))) ∧
    (record_phase r = PhaseReady → ¬ change_signalled example_half.2 →
       ∀ s3 a, poll example_store (example_request 3 10 6) example_half.2 = (s3, Ok a) →
         a = PollEndOfFile ∨ ∃ slice, a = PollReady slice) ∧
    (¬ is_waiting r → ∃ s3 subs, take_subscriptions example_ticket example_half.2 = (s3, Ok subs) ∧
       subscriber_of (example_request 3 10 6) ∈ subs).
Proof.
  apply (wakeups_exact example_store [] example_start (example_request 3 10 6) example_ticket
    [example_range 10 6] example_waiting example_half.1 example_half.2).
  - apply (example_reachable []). constructor.
  - apply example_range_ok; lia.
  - vm_compute; reflexivity.
  - apply run_calls_runs, example_first_ok.
  - apply (run_calls_Forall example_store (keeps example_ticket 3)). constructor; [by repeat split|constructor].
Defined.
