(* ===== verification/SyntaxFinal.v ===== *)
(** * Finality of the syntax parser

    A window that may continue is extended by more bytes, up to the end of the source
    or not. What the parser returns on the shorter window it returns on the longer
    one, in the same state, and a failure that no limit, allocator or probe causes stays the same failure: only
    [NeedMore] is revised. *)

From stdpp Require Import base list numbers option strings.
From S2P Require Import Prelude.
From S2P Require Import SourceTypes.
From S2P Require Import SyntaxTypes.
From S2P Require Import RangeTypes.
From S2P Require Import SyntaxState.
From S2P Require Import SyntaxLexer.
From S2P Require Import SyntaxParser.
From S2P Require Import SyntaxRules.
From S2P Require Import SyntaxContainers.

(** The parser on its window and the bytes after it, up to the end of the source or not. *)
Definition extended (p : SyntaxParser) (ext : list Z) (extent : InputExtent) : SyntaxParser :=
  {| sp_input := {| input_source := input_source (sp_input p);
                    input_base_offset := input_base_offset (sp_input p);
                    input_bytes := input_bytes (sp_input p) ++ ext;
                    input_extent := extent |};
     sp_limits := sp_limits p; sp_max_retained_bytes := sp_max_retained_bytes p |}.

Section lockstep.
Context `{ParserRuntime}.
Implicit Types s : ParserState.

(** [m'] does from [s] what [m] does, up to values related by [R]; unless [m]
    returns what [O] calls open, asks for more or is refused. *)
Definition lockstep {A A'} (R : ParserState → A → A' → Prop) (O : ParserState → A → Prop)
    (m : ParseM A) (m' : ParseM A') s : Prop :=
  match m s with
  | (s1, Ok a) => O s1 a ∨ ∃ a', m' s = (s1, Ok a') ∧ R s1 a a'
  | (s1, Err (Rejected (ParseFailed e))) =>
      refusal e ∨ m' s = (s1, Err (Rejected (ParseFailed e)))
  | _ => True
  end.

(** [m] is not decided by this window. *)
Definition undecided {A} (O : ParserState → A → Prop) (m : ParseM A) s : Prop :=
  match m s with
  | (s1, Ok a) => O s1 a
  | (_, Err (Rejected (ParseFailed e))) => refusal e
  | _ => True
  end.

Definition same {A} (_ : ParserState) (a a' : A) : Prop := a = a'.
Definition never {A} (_ : ParserState) (_ : A) : Prop := False.

Lemma lockstep_undecided {A A'} R O (m : ParseM A) (m' : ParseM A') s :
  undecided O m s → lockstep R O m m' s.
Proof. unfold undecided, lockstep. destruct (m s) as [s1 [a|[[| |e]|]]]; auto. Qed.

Lemma lockstep_refl {A} O (m : ParseM A) s : lockstep same O m m s.
Proof. unfold lockstep, same. destruct (m s) as [s1 [a|[[| |e]|]]]; eauto. Qed.

Lemma lockstep_ret {A A'} (R : ParserState → A → A' → Prop) O a a' s : R s a a' → lockstep R O (mret a) (mret a') s.
Proof. right. eauto. Qed.

Lemma lockstep_fail {A A'} (R : ParserState → A → A' → Prop) O e s :
  lockstep R O (fail e) (fail e) s.
Proof. by right. Qed.

Lemma lockstep_bind {A A' B B'} (R : ParserState → A → A' → Prop) O (R' : ParserState → B → B' → Prop) O'
    (m : ParseM A) (m' : ParseM A') (k : A → ParseM B) (k' : A' → ParseM B') s :
  lockstep R O m m' s →
  (∀ s1 a a', m s = (s1, Ok a) → R s1 a a' → lockstep R' O' (k a) (k' a') s1) →
  (∀ s1 a, m s = (s1, Ok a) → O s1 a → undecided O' (k a) s1) →
  lockstep R' O' (m ≫= k) (m' ≫= k') s.
Proof.
  unfold lockstep, mbind, M_bind. intros Hm Hk Hu.
  destruct (m s) as [s1 [a|[[| |e]|]]] eqn:Hms; [|done|done| |done].
  - destruct Hm as [Ho|(a' & -> & Hr)]; [|by apply Hk].
    specialize (Hu s1 a eq_refl Ho). unfold undecided in Hu.
    destruct (k a s1) as [s2 [b|[[| |e]|]]]; auto.
  - destruct Hm as [?| ->]; auto.
Qed.

(** The same step, then the rest. *)
Lemma lockstep_step {A B B'} (R : ParserState → B → B' → Prop) O (m : ParseM A) (k : A → ParseM B)
    (k' : A → ParseM B') s :
  (∀ s1 a, m s = (s1, Ok a) → lockstep R O (k a) (k' a) s1) →
  lockstep R O (m ≫= k) (m ≫= k') s.
Proof.
  intros Hk. eapply (lockstep_bind same never); [apply lockstep_refl| |done].
  intros s1 a ? Hm <-. by apply Hk.
Qed.

(** The same step up to the open cases, then the rest. *)
Lemma lockstep_then {A B B'} (R : ParserState → B → B' → Prop) O (m m' : ParseM A) (k : A → ParseM B)
    (k' : A → ParseM B') s :
  lockstep same never m m' s → (∀ s1 a, m s = (s1, Ok a) → lockstep R O (k a) (k' a) s1) →
  lockstep R O (m ≫= k) (m' ≫= k') s.
Proof.
  intros Hm Hk. eapply (lockstep_bind same never); [exact Hm| |done]. intros s1 a ? Hms <-. by apply Hk.
Qed.

Lemma lockstep_lookup {A A'} (R : ParserState → A → A' → Prop) O (o o' : option Z) (k : Z → ParseM A)
    (k' : Z → ParseM A') s :
  (∀ b, o = Some b → o' = Some b ∧ lockstep R O (k b) (k' b) s) →
  lockstep R O (ok_or o Panicked ≫= k) (ok_or o' Panicked ≫= k') s.
Proof. destruct o as [b|]; [|done]. intros Hk. destruct (Hk b eq_refl) as [-> ?]. done. Qed.

Lemma undecided_bind {A B} O (m : ParseM A) (k : A → ParseM B) s :
  undecided (λ _ _, True) m s → (∀ s1 a, m s = (s1, Ok a) → undecided O (k a) s1) →
  undecided O (m ≫= k) s.
Proof.
  unfold undecided, mbind, M_bind. intros Hm Hk.
  destruct (m s) as [s1 [a|[[| |e]|]]] eqn:Hms; [|done|done|done|done]. by apply Hk.
Qed.

Lemma undecided_gets {A B} O (g : ParserState → A) (k : A → ParseM B) s :
  undecided O (k (g s)) s → undecided O (gets g ≫= k) s.
Proof. done. Qed.

(** Steps that only the runtime and the limits refuse, and that keep the cursor. *)
Lemma check_cancelled_refused offset s : undecided (λ _ _, True) (check_cancelled offset) s.
Proof.
  unfold undecided, check_cancelled, mbind, M_bind, gets, modify.
  destruct (parser_cancelled (ps_probes s)) eqn:Hc; [|done]. left. eauto.
Qed.

Lemma probe_iteration_refused offset s : undecided (λ _ _, True) (probe_iteration offset) s.
Proof.
  unfold probe_iteration. apply undecided_gets. destruct (_ <? _); [done|].
  apply undecided_bind; [done|]. intros. apply check_cancelled_refused.
Qed.

Lemma probe_iteration_cursor offset s s1 u :
  probe_iteration offset s = (s1, Ok u) → ps_cursor s1 = ps_cursor s.
Proof.
  unfold probe_iteration, check_cancelled, mbind, M_bind, gets, modify, fail_at, fail, throw.
  destruct (_ <? _); [by intros [= <-]|]. simpl. destruct (parser_cancelled _); [done|]. by intros [= <-].
Qed.

Lemma check_single_limit_refused kind limit attempted offset s :
  undecided (λ _ _, True) (check_single_limit kind limit attempted offset) s.
Proof.
  unfold check_single_limit. destruct (limit <? attempted) eqn:Hl; [|done]. checked_facts.
  right. split; [done|]. eexists. split; [done|]. left. simpl. lia.
Qed.

Lemma check_single_limit_state kind limit attempted offset s s1 u :
  check_single_limit kind limit attempted offset s = (s1, Ok u) → s1 = s.
Proof. unfold check_single_limit. destruct (_ <? _); [done|]. by intros [= <-]. Qed.

Lemma check_token_len_state p start stop s s1 u :
  check_token_len p start stop s = (s1, Ok u) → s1 = s.
Proof.
  unfold check_token_len. intros Hrun. apply bind_inv in Hrun as [(n & s2 & Hn & Hrun)|(e & _ & ?)]; [|done].
  apply ok_or_inv in Hn as [-> _]. by apply check_single_limit_state in Hrun.
Qed.

Lemma charge_total_refused kind limit consumed attempted offset s :
  limit ≤ u64_max →
  undecided (λ _ _, True) (charge_total kind limit consumed attempted offset) s.
Proof.
  intros Hlimit. unfold charge_total.
  destruct (checked_add u64_max consumed attempted) as [total|] eqn:Ht; checked_facts.
  - subst. destruct (limit <? _) eqn:Hl; [|done]. checked_facts.
    right. split; [done|]. eexists. split; [done|]. by left.
  - right. split; [done|]. eexists. split; [done|]. left. simpl. lia.
Qed.
End lockstep.

Ltac same_step := eapply lockstep_step; intros ? ? ?.
(** What the runs of the steps before say of the state. *)
Ltac run_facts :=
  repeat match goal with
  | Hx : gets _ _ = _ |- _ => injection Hx as <- <-
  | Hx : modify _ _ = _ |- _ => injection Hx as <- _
  | Hx : probe_iteration _ _ = _ |- _ => apply probe_iteration_cursor in Hx; simpl in Hx
  | Hx : some_or _ _ _ = _ |- _ => apply ok_or_inv in Hx as [-> _]
  | Hx : check_single_limit _ _ _ _ _ = _ |- _ => apply check_single_limit_state in Hx as ->
  | Hx : check_token_len _ _ _ _ = _ |- _ => apply check_token_len_state in Hx as ->
  end.

Section final.
Context `{ParserRuntime} (p : SyntaxParser) (ext : list Z) (extent : InputExtent).
Hypothesis Hp : parser_ok p.
Hypothesis Hmore : may_continue p = true.
Local Notation p' := (extended p ext extent).
Local Notation W := (window p).
Implicit Types s : ParserState.

Definition beyond s : Prop := (length W ≤ ps_cursor s)%nat.

Lemma window_extended : window p' = W ++ ext.
Proof. done. Qed.

Lemma inside_lookup i b : W !! i = Some b → window p' !! i = Some b ∧ (i < length W)%nat.
Proof. intros Hb. split; [by apply lookup_app_l_Some|by eapply lookup_lt_Some]. Qed.

Lemma at_end_inside i : (i < length W)%nat → at_end p i = false ∧ at_end p' i = false.
Proof.
  intros Hi. unfold at_end. rewrite window_extended, length_app.
  split; apply bool_decide_eq_false_2; lia.
Qed.

Lemma remaining_inside i :
  (i ≤ length W)%nat → remaining_from p' i = remaining_from p i ++ ext.
Proof. intros Hi. unfold remaining_from. rewrite window_extended. by apply drop_app_le. Qed.

Lemma remaining_cons i b l :
  remaining_from p i = b :: l →
  W !! i = Some b ∧ remaining_from p (S i) = l ∧ (S i ≤ length W)%nat.
Proof.
  unfold remaining_from. intros Hd%drop_cons_lookup. destruct Hd as [Hb Hl].
  apply lookup_lt_Some in Hb as Hi. split_and!; [done..|lia].
Qed.

Lemma remaining_nil i : remaining_from p i = [] → (length W ≤ i)%nat.
Proof.
  unfold remaining_from. intros Hd. apply (f_equal length) in Hd. rewrite length_drop in Hd.
  simpl in Hd. lia.
Qed.

Lemma slice_inside start stop : (stop ≤ length W)%nat → slice p' start stop = slice p start stop.
Proof.
  intros Hs. unfold slice. destruct (decide (start ≤ stop)%nat).
  - rewrite remaining_inside by lia. rewrite take_app_le; [done|].
    unfold remaining_from. rewrite length_drop. lia.
  - replace (stop - start)%nat with 0%nat by lia. done.
Qed.

(** ** Trivia *)

Lemma whitespace_loop_final rest s :
  remaining_from p (ps_cursor s) = rest →
  lockstep (λ s1 r r', r' = r ++ ext ∧ r ≠ [] ∧ remaining_from p (ps_cursor s1) = r) (λ s1 r, r = [] ∧ beyond s1)
    (whitespace_loop p rest) (whitespace_loop p' (rest ++ ext)) s.
Proof.
  revert s. induction rest as [|b l IH]; intros s Hr.
  { left. split; [done|by apply remaining_nil]. }
  simpl. destruct (is_whitespace b); [|by apply lockstep_ret].
  same_step. same_step. same_step. apply IH.
  run_facts. apply remaining_cons in Hr as (_ & <- & _). simpl. congruence.
Qed.

Lemma comment_loop_final start rest s :
  remaining_from p (ps_cursor s) = rest →
  lockstep (λ s1 r r', r' = r ++ ext ∧ r ≠ [] ∧ remaining_from p (ps_cursor s1) = r)
    (λ s1 r, r = [] ∧ beyond s1)
    (comment_loop p start rest) (comment_loop p' start (rest ++ ext)) s.
Proof.
  revert s. induction rest as [|b l IH]; intros s Hr.
  { left. split; [done|by apply remaining_nil]. }
  simpl. destruct (_ || _); [by apply lockstep_ret|]. do 6 same_step. apply IH.
  run_facts. apply remaining_cons in Hr as (_ & <- & _). simpl in *. congruence.
Qed.

Lemma trivia_loop_final fuel fuel' rest s :
  (fuel ≤ fuel')%nat → remaining_from p (ps_cursor s) = rest →
  lockstep same (λ s1 _, beyond s1) (trivia_loop p fuel rest) (trivia_loop p' fuel' (rest ++ ext)) s.
Proof.
  revert fuel' rest s. induction fuel as [|fuel IH]; intros fuel' rest s Hf Hr; [done|].
  destruct fuel' as [|fuel']; [lia|]. cbn [trivia_loop]. do 2 same_step. run_facts.
  eapply lockstep_bind; [apply whitespace_loop_final; congruence| |by intros ? ? _ [-> ?]].
  intros s2 r ? _ (-> & Hne & Hr2). destruct r as [|b l]; [done|]. cbn [app].
  destruct (negb _); [by apply lockstep_ret|]. do 2 same_step. run_facts.
  apply remaining_cons in Hr2 as (_ & Hr2 & _).
  eapply lockstep_bind; [apply comment_loop_final; simpl; congruence| |].
  - intros s3 r ? _ (-> & Hne' & Hr3). same_step. run_facts. destruct r as [|b' l']; [done|].
    pose proof (remaining_cons _ _ _ Hr3) as (Hb & _).
    apply lookup_lt_Some in Hb. destruct (at_end_inside _ Hb) as [-> ->]. apply IH; [lia|done].
  - intros s3 r _ [-> Hb]. apply undecided_gets. rewrite Hmore. destruct (at_end p _); [done|].
    destruct fuel as [|fuel]; [done|]. cbn [trivia_loop]. apply undecided_gets.
    apply undecided_bind; [apply probe_iteration_refused|]. intros s4 u Hs4. run_facts.
    unfold undecided. simpl. unfold beyond in *. lia.
Qed.

Lemma skip_trivia_final s :
  lockstep same (λ s1 _, beyond s1) (skip_trivia p) (skip_trivia p') s.
Proof.
  unfold skip_trivia. same_step. run_facts. destruct (decide (ps_cursor s ≤ length W)%nat).
  - rewrite remaining_inside by done. apply trivia_loop_final; [|done]. rewrite length_app. lia.
  - apply lockstep_undecided. unfold remaining_from. rewrite drop_ge by lia. cbn [trivia_loop length].
    apply undecided_gets. apply undecided_bind; [apply probe_iteration_refused|].
    intros s1 u Hs1. run_facts. unfold undecided, beyond. simpl. lia.
Qed.

(** ** Regular tokens *)

(** An index that a scan returned: inside the window, or its end. *)
Local Notation scanned := (λ (_ : ParserState) (i i' : nat), i' = i ∧ (i < length W)%nat).
Local Notation at_stop := (λ (_ : ParserState) (i : nat), i = length W).

Lemma regular_loop_final start index rest s :
  remaining_from p index = rest → (index ≤ length W)%nat →
  lockstep scanned at_stop (regular_loop p start index rest)
    (regular_loop p' start index (rest ++ ext)) s.
Proof.
  revert index s. induction rest as [|b l IH]; intros index s Hr Hi.
  { left. apply remaining_nil in Hr. lia. }
  simpl. apply remaining_cons in Hr as (_ & Hr & Hl).
  destruct (is_delimiter b); [apply lockstep_ret; lia|]. do 2 same_step. by apply IH.
Qed.

Lemma scan_regular_final start s :
  (start < length W)%nat → lockstep same never (scan_regular p start) (scan_regular p' start) s.
Proof.
  intros Hs. unfold scan_regular. rewrite remaining_inside by lia.
  eapply lockstep_bind; [apply regular_loop_final; [done|lia]|..].
  - intros s1 stop ? _ [-> Hi]. destruct (at_end_inside _ Hi) as [-> ->].
    destruct (Nat.eqb stop start); [apply lockstep_refl|].
    apply lockstep_lookup. intros b Hb. split; [by apply inside_lookup|]. cbn [andb].
    rewrite slice_inside by lia. apply lockstep_refl.
  - intros s1 stop _ ->. destruct (Nat.eqb _ _) eqn:He; [apply Nat.eqb_eq in He; lia|].
    apply undecided_bind; [by destruct (W !! start) eqn:Hb; unfold undecided, byte_at, ok_or; rewrite Hb|].
    intros s2 b _. unfold at_end. rewrite bool_decide_eq_true_2 by done. by rewrite Hmore.
Qed.

(** ** Integers probed ahead *)

Lemma probe_digits_final start index magnitude overflowed rest s :
  remaining_from p index = rest → (index ≤ length W)%nat →
  lockstep (λ _ r r', r' = r ∧ (r.1.1 < length W)%nat) (λ _ r, r.1.1 = length W)
    (probe_digits p start index magnitude overflowed rest)
    (probe_digits p' start index magnitude overflowed (rest ++ ext)) s.
Proof.
  revert index magnitude overflowed s. induction rest as [|b l IH]; intros index m o s Hr Hi.
  { left. apply remaining_nil in Hr. simpl. lia. }
  simpl. apply remaining_cons in Hr as (_ & Hr & Hl).
  destruct (is_ascii_digit b); [|apply lockstep_ret; simpl; split; [done|lia]]. same_step.
  destruct (accumulate m b); same_step; by apply IH.
Qed.

Lemma probe_unsigned_final start negative index s :
  (index ≤ length W)%nat →
  lockstep same never (probe_unsigned p start negative index) (probe_unsigned p' start negative index) s.
Proof.
  intros Hi. unfold probe_unsigned. same_step. rewrite Hmore.
  destruct (decide (index = length W)) as [->|].
  { apply lockstep_undecided. unfold at_end. by rewrite bool_decide_eq_true_2. }
  destruct (at_end_inside index) as [-> ->]; [lia|]. apply lockstep_lookup. intros b Hb.
  split; [by apply inside_lookup|]. destruct (negb _); [apply lockstep_refl|].
  rewrite remaining_inside by done.
  eapply lockstep_bind; [by apply probe_digits_final|..].
  - intros s2 [[stop m] o] ? _ [-> Hstop]. cbn [fst snd] in *.
    destruct (at_end_inside stop) as [-> ->]; [done|].
    eapply lockstep_then; [|intros; apply lockstep_refl].
    apply lockstep_lookup. intros b' Hb'. split; [by apply inside_lookup|apply lockstep_refl].
  - intros s2 [[stop m] o] _ Hstop. cbn [fst snd] in *. subst. unfold at_end.
    by rewrite bool_decide_eq_true_2.
Qed.

Lemma probe_integer_token_final s :
  (ps_cursor s < length W)%nat →
  lockstep same never (probe_integer_token p) (probe_integer_token p') s.
Proof.
  intros Hc. unfold probe_integer_token. same_step. run_facts.
  assert (probe_sign p' (ps_cursor s) = probe_sign p (ps_cursor s)) as ->.
  { unfold probe_sign. by rewrite window_extended, lookup_app_l. }
  unfold probe_sign. destruct (W !! ps_cursor s) as [b|]; [|apply lockstep_refl]. simpl.
  destruct (b =? 45); [apply probe_unsigned_final; lia|].
  destruct (b =? 43); [apply probe_unsigned_final; lia|].
  destruct (is_ascii_digit b); [apply probe_unsigned_final; lia|apply lockstep_refl].
Qed.

(** ** Names and hexadecimal strings *)

Lemma name_loop_final start index decoded_len rest s :
  remaining_from p index = rest → (index ≤ length W)%nat →
  lockstep (λ _ r r', r' = r ∧ (r.1 < length W)%nat) (λ _ r, r.1 = length W)
    (name_loop p start index decoded_len rest)
    (name_loop p' start index decoded_len (rest ++ ext)) s.
Proof.
  revert index decoded_len s. induction rest as [rest IH] using (induction_ltof1 _ (@length Z)).
  unfold ltof in IH. intros index n s Hr Hi. destruct rest as [|b l].
  { left. apply remaining_nil in Hr. simpl. lia. }
  simpl. apply remaining_cons in Hr as (_ & Hr & Hl).
  destruct (is_delimiter b); [apply lockstep_ret; simpl; split; [done|lia]|]. same_step.
  rewrite Hmore. destruct (b =? 35).
  - destruct l as [|high [|low l]]; cbn [app]; [by apply lockstep_undecided..|].
    destruct (_ || _); [apply lockstep_fail|]. do 2 same_step.
    apply remaining_cons in Hr as (_ & Hr & _). apply remaining_cons in Hr as (_ & Hr & ?).
    replace (index + 3)%nat with (S (S (S index))) by lia. apply IH; [simpl; lia|done|done].
  - do 2 same_step. apply IH; [simpl; lia|done|done].
Qed.

Lemma scan_name_final start s :
  (start < length W)%nat → lockstep same never (scan_name p start) (scan_name p' start) s.
Proof.
  intros Hs. unfold scan_name. rewrite remaining_inside by lia.
  eapply lockstep_bind; [apply name_loop_final; [done|lia]|..].
  - intros s1 [stop n] ? _ [-> Hi]. cbn [fst snd] in *. destruct (at_end_inside _ Hi) as [-> ->].
    cbn [andb]. rewrite slice_inside by lia. apply lockstep_refl.
  - intros s1 [stop n] _ Hi. cbn [fst snd] in *. subst. unfold at_end. rewrite bool_decide_eq_true_2 by done. by rewrite Hmore.
Qed.

Lemma hex_loop_final start index nibbles rest s :
  remaining_from p index = rest → (index ≤ length W)%nat →
  lockstep (λ _ r r', r' = r ∧ (r.1 ≤ length W)%nat) never
    (hex_loop p start index nibbles rest) (hex_loop p' start index nibbles (rest ++ ext)) s.
Proof.
  revert index nibbles s. induction rest as [|b l IH]; intros index n s Hr Hi.
  { apply lockstep_undecided. simpl. apply undecided_bind; [apply probe_iteration_refused|done]. }
  simpl. apply remaining_cons in Hr as (_ & Hr & Hl). do 2 same_step.
  destruct (b =? 62); [apply lockstep_ret; simpl; split; [done|lia]|].
  destruct (is_whitespace b); [by apply IH|]. case_bool_decide; [apply lockstep_fail|by apply IH].
Qed.

Lemma scan_hex_string_final start s :
  (start < length W)%nat → lockstep same never (scan_hex_string p start) (scan_hex_string p' start) s.
Proof.
  intros Hs. unfold scan_hex_string. rewrite remaining_inside by lia.
  eapply lockstep_bind; [apply hex_loop_final; [done|lia]| |done].
  intros s1 [stop n] ? _ [-> Hi]. cbn [fst snd] in *. rewrite slice_inside by lia. apply lockstep_refl.
Qed.

(** ** Literal strings *)

Lemma check_token_len_refused start stop s :
  (stop ≤ length W)%nat → undecided (λ _ _, True) (check_token_len p start stop) s.
Proof.
  intros Hstop. unfold check_token_len. parser_facts Hp.
  assert (try_from u64_max (Z.of_nat (stop - start)) = Some (Z.of_nat (stop - start))) as ->
    by (apply try_from_Some; lia).
  apply undecided_bind; [done|]. intros. apply check_single_limit_refused.
Qed.

Lemma check_string_source_refused start stop s :
  (stop ≤ length W)%nat → undecided (λ _ _, True) (check_string_source p start stop) s.
Proof.
  intros Hstop. unfold check_string_source. parser_facts Hp.
  apply undecided_bind; [by apply check_token_len_refused|]. intros s1 _ _.
  assert (try_from u64_max (Z.of_nat (stop - start)) = Some (Z.of_nat (stop - start))) as ->
    by (apply try_from_Some; lia).
  apply undecided_bind; [done|]. intros. apply check_single_limit_refused.
Qed.

Lemma escape_end start index nesting decoded_len stop s :
  (stop ≤ length W)%nat →
  undecided never
    (check_string_source p start stop;; check_decoded p decoded_len start;;
     literal_loop p start index nesting decoded_len []) s.
Proof.
  intros Hstop. apply undecided_bind; [by apply check_string_source_refused|]. intros.
  apply undecided_bind; [apply check_single_limit_refused|]. intros. cbn [literal_loop].
  by apply undecided_bind; [apply probe_iteration_refused|].
Qed.

Lemma literal_loop_final start index nesting decoded_len rest s :
  remaining_from p index = rest → (index ≤ length W)%nat →
  lockstep (λ _ r r', r' = r ∧ (r.1 ≤ length W)%nat ∧ W !! pred r.1 = Some 41) never
    (literal_loop p start index nesting decoded_len rest)
    (literal_loop p' start index nesting decoded_len (rest ++ ext)) s.
Proof.
  revert index nesting decoded_len s. induction rest as [rest IH] using (induction_ltof1 _ (@length Z)).
  unfold ltof in IH. intros index nesting n s Hr Hi. destruct rest as [|b l].
  { apply lockstep_undecided. cbn [literal_loop]. by apply undecided_bind; [apply probe_iteration_refused|]. }
  cbn [literal_loop app]. apply remaining_cons in Hr as (Hb & Hr & Hl). do 2 same_step.
  destruct (b =? 40).
  { same_step. destruct (_ <? _); [apply lockstep_fail|]. same_step. apply IH; try done; simpl; lia. }
  destruct (b =? 41) eqn:H41.
  { apply Z.eqb_eq in H41 as ->. destruct (_ =? 0); [apply lockstep_ret; by split_and!|].
    same_step. apply IH; try done; simpl; lia. }
  destruct (b =? 92).
  - destruct l as [|escaped l]; cbn [app]; [by apply lockstep_undecided|]. same_step.
    apply remaining_cons in Hr as (_ & Hr & Hl2). replace (index + 2)%nat with (S (S index)) by lia.
    replace (index + 3)%nat with (S (S (S index))) by lia.
    replace (index + 4)%nat with (S (S (S (S index)))) by lia.
    destruct (escaped =? 13).
    { destruct l as [|b1 l]; cbn [app]; [by apply lockstep_undecided, escape_end|].
      pose proof (remaining_cons _ _ _ Hr) as (_ & Hr' & ?).
      destruct (b1 =? 10); [do 3 same_step|do 2 same_step]; apply IH; try done; simpl; lia. }
    destruct (escaped =? 10); [do 2 same_step; apply IH; try done; simpl; lia|].
    destruct (is_octal_digit escaped); [|do 2 same_step; apply IH; try done; simpl; lia].
    destruct l as [|second l]; cbn [app]; [by apply lockstep_undecided, escape_end|].
    pose proof (remaining_cons _ _ _ Hr) as (_ & Hr' & ?).
    destruct (is_octal_digit second); [|do 2 same_step; apply IH; try done; simpl; lia].
    destruct l as [|third l]; cbn [app]; [by apply lockstep_undecided, escape_end|].
    pose proof (remaining_cons _ _ _ Hr') as (_ & Hr'' & ?).
    destruct (is_octal_digit third); do 2 same_step; apply IH; try done; simpl; lia.
  - destruct (b =? 13); [|same_step; apply IH; try done; simpl; lia].
    destruct l as [|b1 l]; cbn [app].
    { apply lockstep_undecided, undecided_bind; [apply check_single_limit_refused|]. intros.
      cbn [literal_loop]. by apply undecided_bind; [apply probe_iteration_refused|]. }
    pose proof (remaining_cons _ _ _ Hr) as (_ & Hr' & ?).
    replace (index + 2)%nat with (S (S index)) by lia.
    destruct (b1 =? 10); same_step; apply IH; try done; simpl; lia.
Qed.

(** Decoding ends at the closing parenthesis, and reads no further. *)
Lemma closed_before stop source bytes :
  W !! pred stop = Some 41 → (source < stop)%nat → (length W ≤ source + length bytes)%nat →
  (∀ i b, bytes !! i = Some b → W !! (source + i)%nat = Some b) → 41 ∉ bytes → False.
Proof.
  intros Hw Hs Hl Hbytes Hno. pose proof (lookup_lt_Some _ _ _ Hw) as Hi.
  destruct (lookup_lt_is_Some_2 bytes (pred stop - source)) as [b Hb]; [lia|].
  pose proof (Hbytes _ _ Hb) as Hw'. replace (source + (pred stop - source))%nat with (pred stop) in Hw' by lia.
  rewrite Hw in Hw'. simplify_eq. apply Hno. by eapply list_elem_of_lookup_2.
Qed.

Lemma octal_not_closing b : is_octal_digit b = true → 41 ≠ b.
Proof. by intros ? <-. Qed.

Lemma literal_decode_done q source stop depth rest :
  (stop ≤ source)%nat → literal_decode q source stop depth rest = mret [].
Proof.
  intros Hle. assert (negb (Nat.ltb source stop) = true) as Hn by (apply negb_true_iff, Nat.ltb_ge; lia).
  by destruct rest; cbn [literal_decode]; rewrite Hn.
Qed.

Lemma literal_decode_final source stop depth rest s :
  remaining_from p source = rest → W !! pred stop = Some 41 →
  lockstep same never (literal_decode p source stop depth rest)
    (literal_decode p' source stop depth (rest ++ ext)) s.
Proof.
  revert source depth s. induction rest as [rest IH] using (induction_ltof1 _ (@length Z)).
  unfold ltof in IH. intros source depth s Hr Hstop.
  assert (∀ source depth rest' s b, remaining_from p source = rest' →
    (length rest' < length rest)%nat → lockstep same never
      (decoded ← literal_decode p source stop depth rest'; mret (b :: decoded))
      (decoded ← literal_decode p' source stop depth (rest' ++ ext); mret (b :: decoded)) s) as Hpush.
  { intros. eapply lockstep_then; [by apply IH|]. intros. apply lockstep_refl. }
  destruct (decide (stop ≤ source)%nat) as [Hle|Hlt].
  { rewrite !literal_decode_done by done. apply lockstep_refl. }
  assert (negb (Nat.ltb source stop) = false) as Hnlt by (apply negb_false_iff, Nat.ltb_lt; lia).
  destruct rest as [|b l]; cbn [literal_decode app]; rewrite Hnlt.
  { apply lockstep_undecided. by apply undecided_bind; [apply probe_iteration_refused|]. }
  same_step.
  pose proof (remaining_cons _ _ _ Hr) as (Hb & Hr1 & Hl1).
  destruct (b =? 40); [apply Hpush; [done|simpl; lia]|].
  destruct (b =? 41); [destruct (_ =? 0); [apply lockstep_refl|apply Hpush; [done|simpl; lia]]|].
  replace (source + 2)%nat with (S (S source)) by lia.
  replace (source + 3)%nat with (S (S (S source))) by lia.
  replace (source + 4)%nat with (S (S (S (S source)))) by lia.
  destruct (b =? 92) eqn:H92.
  - apply Z.eqb_eq in H92 as ->. destruct l as [|escaped l]; cbn [app]; [by apply lockstep_undecided|].
    pose proof (remaining_cons _ _ _ Hr1) as (Hb2 & Hr2 & Hl2).
    assert (l = [] → 41 ≠ escaped → False) as Hend.
    { intros -> Hne. apply remaining_nil in Hr2. apply (closed_before stop source [92; escaped]); try done; [lia|simpl; lia|..].
      - intros [|[|i]] x Hx; simplify_eq/=; [by rewrite Nat.add_0_r|by rewrite Nat.add_1_r].
      - rewrite !not_elem_of_cons. split_and!; [done|done|apply not_elem_of_nil]. }
    destruct (escaped =? 13) eqn:H13.
    { apply Z.eqb_eq in H13 as ->. destruct l as [|b3 l]; cbn [app]; [by destruct Hend|].
      pose proof (remaining_cons _ _ _ Hr2) as (Hb3 & Hr3 & Hl3).
      destruct (b3 =? 10); apply IH; try done; simpl; lia. }
    destruct (escaped =? 10); [apply IH; try done; simpl; lia|].
    destruct (is_octal_digit escaped) eqn:Ho; [|apply Hpush; [done|simpl; lia]].
    apply octal_not_closing in Ho.
    destruct l as [|second l]; cbn [app]; [by destruct Hend|].
    pose proof (remaining_cons _ _ _ Hr2) as (Hb3 & Hr3 & Hl3).
    destruct (is_octal_digit second) eqn:Ho2; [|apply Hpush; [done|simpl; lia]].
    apply octal_not_closing in Ho2.
    destruct l as [|third l]; cbn [app].
    { exfalso. apply remaining_nil in Hr3.
      apply (closed_before stop source [92; escaped; second]); try done; [lia|simpl; lia|..].
      - intros [|[|[|i]]] x Hx; simplify_eq/=; [by rewrite Nat.add_0_r|by rewrite Nat.add_1_r|].
        by replace (source + 2)%nat with (S (S source)) by lia.
      - rewrite !not_elem_of_cons. split_and!; [done|done|done|apply not_elem_of_nil]. }
    pose proof (remaining_cons _ _ _ Hr3) as (Hb4 & Hr4 & Hl4).
    destruct (is_octal_digit third); apply Hpush; try done; simpl; lia.
  - destruct (b =? 13) eqn:H13; [|apply Hpush; [done|simpl; lia]].
    apply Z.eqb_eq in H13 as ->. destruct l as [|b2 l]; cbn [app].
    { exfalso. apply remaining_nil in Hr1. apply (closed_before stop source [13]); try done; [lia|simpl; lia|..].
      - intros [|i] x Hx; simplify_eq/=. by rewrite Nat.add_0_r.
      - rewrite !not_elem_of_cons. split; [done|apply not_elem_of_nil]. }
    pose proof (remaining_cons _ _ _ Hr1) as (Hb2 & Hr2 & Hl2).
    destruct (b2 =? 10); apply Hpush; try done; simpl; lia.
Qed.

Lemma scan_literal_string_final start s :
  (start < length W)%nat →
  lockstep same never (scan_literal_string p start) (scan_literal_string p' start) s.
Proof.
  intros Hs. unfold scan_literal_string. rewrite remaining_inside by lia.
  eapply lockstep_bind; [apply literal_loop_final; [done|lia]| |done].
  intros s1 [stop n] ? Hrun (-> & Hi & Hw). cbn [fst snd] in *. do 2 same_step.
  eapply lockstep_then; [by apply literal_decode_final|intros; apply lockstep_refl].
Qed.

(** ** Tokens *)

(** After trivia that may go on: nothing is decided. *)
Lemma beyond_lookup s : beyond s → W !! ps_cursor s = None.
Proof. intros. by apply lookup_ge_None_2. Qed.

Lemma charge_token_refused offset s : undecided (λ _ _, True) (charge_token p offset) s.
Proof.
  unfold charge_token. apply undecided_gets.
  apply undecided_bind; [apply charge_total_refused; parser_facts Hp; lia|done].
Qed.

Lemma charge_token_cursor offset s s1 u :
  charge_token p offset s = (s1, Ok u) → ps_cursor s1 = ps_cursor s.
Proof.
  unfold charge_token, charge_total, mbind, M_bind, gets, modify, fail, throw.
  destruct (match checked_add _ _ _ with Some _ => _ | None => _ end); [done|]. by intros [= <-].
Qed.

Lemma byte_at_beyond {A} O (k : Z → ParseM A) i s :
  (length W ≤ i)%nat → undecided O (byte_at p i ≫= k) s.
Proof.
  intros Hi. unfold byte_at, undecided, mbind, M_bind, ok_or. by rewrite lookup_ge_None_2.
Qed.

Lemma next_token_final s : lockstep same never (next_token p) (next_token p') s.
Proof.
  unfold next_token. eapply lockstep_bind; [apply skip_trivia_final|..].
  - intros s1 [] [] _ _. same_step. run_facts.
    destruct (decide (length W ≤ ps_cursor s1)%nat) as [Hb|Hb].
    { apply lockstep_undecided. destruct (at_end p _); [done|].
      apply undecided_bind; [apply charge_token_refused|]. intros. by apply byte_at_beyond. }
    destruct (at_end_inside (ps_cursor s1)) as [-> ->]; [lia|]. same_step.
    apply lockstep_lookup. intros b Hbyte. split; [by apply inside_lookup|].
    destruct (b =? 91); [apply lockstep_refl|]. destruct (b =? 93); [apply lockstep_refl|].
    destruct (b =? 40); [apply scan_literal_string_final; lia|].
    destruct (b =? 47); [apply scan_name_final; lia|]. rewrite Hmore.
    destruct (decide (S (ps_cursor s1) = length W)) as [He|He].
    + assert (at_end p (S (ps_cursor s1)) = true) as -> by (unfold at_end; by rewrite bool_decide_eq_true_2).
      cbn [andb]. destruct (b =? 60); [by apply lockstep_undecided|].
      destruct (b =? 62); [by apply lockstep_undecided|].
      destruct (_ || _); [apply lockstep_refl|]. apply scan_regular_final. lia.
    + destruct (at_end_inside (S (ps_cursor s1))) as [-> ->]; [lia|]. cbn [andb].
      destruct (b =? 60).
      { apply lockstep_lookup. intros b' Hb'. split; [by apply inside_lookup|].
        destruct (b' =? 60); [apply lockstep_refl|apply scan_hex_string_final; lia]. }
      destruct (b =? 62).
      { rewrite window_extended, lookup_app_l by lia. apply lockstep_refl. }
      destruct (_ || _); [apply lockstep_refl|]. apply scan_regular_final. lia.
  - intros s1 [] _ Hb. apply undecided_gets. destruct (at_end p _); [done|].
    apply undecided_bind; [apply charge_token_refused|]. intros. by apply byte_at_beyond.
Qed.

Lemma next_required_token_final code s :
  lockstep same never (next_required_token p code) (next_required_token p' code) s.
Proof.
  pose proof (next_token_final s) as Hn. revert Hn. unfold lockstep, next_required_token.
  destruct (next_token p s) as [s1 [a|[[| |e]|]]]; try done.
  - intros [?|(? & -> & ->)]; [done|]. eauto.
  - intros [?| ->]; auto.
Qed.

(** ** Objects *)

Lemma integer_or_reference_final first value s :
  lockstep same never (integer_or_reference p first value) (integer_or_reference p' first value) s.
Proof.
  unfold integer_or_reference. same_step. run_facts. rewrite Hmore.
  eapply lockstep_bind; [apply skip_trivia_final|..].
  - intros s1 [] [] _ _. same_step. run_facts.
    destruct (decide (length W ≤ ps_cursor s1)%nat) as [Hb|Hb].
    { apply lockstep_undecided. destruct (at_end p _); [done|]. by apply byte_at_beyond. }
    destruct (at_end_inside (ps_cursor s1)) as [-> ->]; [lia|].
    apply lockstep_lookup. intros b Hbyte. split; [by apply inside_lookup|].
    destruct (negb _); [apply lockstep_refl|].
    eapply lockstep_then; [apply probe_integer_token_final; lia|].
    intros s2 [second|] _; [|apply lockstep_refl].
    eapply lockstep_bind; [apply skip_trivia_final|..].
    + intros s3 [] [] _ _. same_step. run_facts.
      destruct (decide (length W ≤ ps_cursor s3)%nat) as [Hb3|Hb3].
      { apply lockstep_undecided. destruct (at_end p _); [done|]. by apply byte_at_beyond. }
      destruct (at_end_inside (ps_cursor s3)) as [-> ->]; [lia|].
      apply lockstep_lookup. intros b3 Hbyte3. split; [by apply inside_lookup|].
      destruct (negb _); [apply lockstep_refl|].
      destruct (decide (S (ps_cursor s3) = length W)) as [He|He].
      { apply lockstep_undecided. unfold at_end. by rewrite bool_decide_eq_true_2. }
      destruct (at_end_inside (S (ps_cursor s3))) as [-> ->]; [lia|]. cbn [andb].
      rewrite window_extended, lookup_app_l by lia. destruct (negb _); [apply lockstep_refl|].
      unfold finish_reference. eapply lockstep_then; [apply next_token_final|].
      intros. apply lockstep_refl.
    + intros s3 [] _ Hb3. apply undecided_gets. destruct (at_end p _); [done|]. by apply byte_at_beyond.
  - intros s1 [] _ Hb. apply undecided_gets. destruct (at_end p _); [done|]. by apply byte_at_beyond.
Qed.

Definition finals (n : nat) : Prop :=
  (∀ n' token depth s, (n ≤ n')%nat →
     lockstep same never (object_from_token p n token depth) (object_from_token p' n' token depth) s) ∧
  (∀ n' open depth values capacity s, (n ≤ n')%nat →
     lockstep same never (array_loop p n open depth values capacity)
       (array_loop p' n' open depth values capacity) s) ∧
  (∀ n' open depth entries capacity s, (n ≤ n')%nat →
     lockstep same never (dictionary_loop p n open depth entries capacity)
       (dictionary_loop p' n' open depth entries capacity) s).

Lemma object_from_token_final n n' token depth s :
  finals n → (S n ≤ n')%nat →
  lockstep same never (object_from_token p (S n) token depth) (object_from_token p' n' token depth) s.
Proof.
  intros (_ & IHa & IHd) Hn. destruct n' as [|n']; [lia|]. unfold_parsers p.
  fold (object_from_token p') (array_loop p') (dictionary_loop p').
  destruct (token_kind token); try apply lockstep_refl.
  - same_step. apply IHa. lia.
  - same_step. apply IHd. lia.
  - apply integer_or_reference_final.
Qed.

Lemma array_loop_final n n' open depth values capacity s :
  finals n → (S n ≤ n')%nat →
  lockstep same never (array_loop p (S n) open depth values capacity)
    (array_loop p' n' open depth values capacity) s.
Proof.
  intros (IHo & IHa & _) Hn. destruct n' as [|n']; [lia|]. unfold_parsers p.
  fold (object_from_token p') (array_loop p') (dictionary_loop p'). do 2 same_step.
  eapply lockstep_bind; [apply skip_trivia_final|..].
  - intros s3 [] [] _ _. same_step. run_facts.
    destruct (decide (length W ≤ ps_cursor s3)%nat) as [Hb|Hb].
    { apply lockstep_undecided. destruct (at_end p _); [done|]. by apply byte_at_beyond. }
    destruct (at_end_inside (ps_cursor s3)) as [-> ->]; [lia|].
    apply lockstep_lookup. intros b Hbyte. split; [by apply inside_lookup|].
    destruct (b =? 93).
    { eapply lockstep_then; [apply next_token_final|]. intros. apply lockstep_refl. }
    do 2 same_step. eapply lockstep_then; [apply next_required_token_final|]. intros s4 token _.
    eapply lockstep_then; [apply IHo; lia|]. intros. apply IHa. lia.
  - intros s3 [] _ Hb. apply undecided_gets. destruct (at_end p _); [done|]. by apply byte_at_beyond.
Qed.

Lemma dictionary_loop_final n n' open depth entries capacity s :
  finals n → (S n ≤ n')%nat →
  lockstep same never (dictionary_loop p (S n) open depth entries capacity)
    (dictionary_loop p' n' open depth entries capacity) s.
Proof.
  intros (IHo & _ & IHd) Hn. destruct n' as [|n']; [lia|]. unfold_parsers p.
  fold (object_from_token p') (array_loop p') (dictionary_loop p'). do 2 same_step.
  assert (∀ O (m : ParseM (Located SyntaxObject)) (k : Z → ParseM (Located SyntaxObject)) s,
    beyond s → undecided O
      (if at_end p (ps_cursor s) then incomplete UnexpectedEndOfInput (absolute p (ps_cursor s))
       else if bool_decide (take 2 (remaining_from p (ps_cursor s)) = [62; 62]) then m
       else byte_at p (ps_cursor s) ≫= k) s) as Hbeyond.
  { intros O m k sb Hb. destruct (at_end p _); [done|]. unfold remaining_from.
    rewrite drop_ge by done. by apply byte_at_beyond. }
  eapply lockstep_bind; [apply skip_trivia_final|..].
  - intros s3 [] [] _ _. same_step. run_facts.
    destruct (decide (length W ≤ ps_cursor s3)%nat) as [Hb|Hb].
    { apply lockstep_undecided. by apply Hbeyond. }
    destruct (at_end_inside (ps_cursor s3)) as [-> ->]; [lia|]. rewrite Hmore.
    rewrite remaining_inside by lia.
    destruct (remaining_from p (ps_cursor s3)) as [|b l] eqn:Hr; [apply remaining_nil in Hr; lia|].
    apply remaining_cons in Hr as (Hbyte & Hr & _).
    destruct (decide (l = [] ∧ b = 62)) as [[-> ->]|Hne].
    { apply remaining_nil in Hr. apply lockstep_undecided. rewrite bool_decide_eq_false_2 by done.
      unfold byte_at, undecided, mbind, M_bind, ok_or. rewrite Hbyte.
      unfold at_end. by rewrite bool_decide_eq_true_2 by lia. }
    assert (bool_decide (take 2 ((b :: l) ++ ext) = [62; 62]) = bool_decide (take 2 (b :: l) = [62; 62])) as ->.
    { apply bool_decide_ext. destruct l as [|b' l]; [|done]. cbn [app take]. split; intros; simplify_eq; naive_solver. }
    case_bool_decide.
    { eapply lockstep_then; [apply next_token_final|]. intros. apply lockstep_refl. }
    apply lockstep_lookup. intros c Hc. split; [by apply inside_lookup|].
    assert (c = b) as -> by congruence.
    assert ((b =? 62) && at_end p (S (ps_cursor s3)) = false ∧
            (b =? 62) && at_end p' (S (ps_cursor s3)) = false) as [-> ->].
    { destruct (Z.eqb_spec b 62) as [->|]; [|done]. destruct l as [|b' l]; [naive_solver|].
      apply remaining_cons in Hr as (_ & _ & Hl). by destruct (at_end_inside (S (ps_cursor s3))) as [-> ->]. }
    cbn [andb].
    do 2 same_step. eapply lockstep_then; [apply next_required_token_final|]. intros ? key _.
    destruct (token_kind key); try apply lockstep_refl. same_step.
    eapply lockstep_then; [apply next_required_token_final|]. intros ? token _.
    eapply lockstep_then; [apply IHo; lia|]. intros. apply IHd. lia.
  - intros s3 [] _ Hb. apply undecided_gets. by apply Hbeyond.
Qed.

Lemma objects_final n : finals n.
Proof.
  induction n as [|n IH]; [done|].
  split; [|split]; intros; [by apply object_from_token_final|by apply array_loop_final|
    by apply dictionary_loop_final].
Qed.

(** ** Polls, of a window that more bytes can follow *)
Hypothesis Hend : input_base_offset (sp_input p) + len W < u64_max.

(** A poll that the longer window repeats. *)
Definition final_poll {T} (m m' : ParserState → ParserState * option (SyntaxPoll T)) s : Prop :=
  match m s with
  | (s1, Some (Ready v)) => m' s = (s1, Some (Ready v))
  | (s1, Some (Failed e)) => refusal e ∨ m' s = (s1, Some (Failed e))
  | _ => True
  end.

Lemma poll_final {T} clean_end (m m' : ParseM T) s :
  (∀ s1, lockstep same never m m' s1) → final_poll (poll p clean_end m) (poll p' clean_end m') s.
Proof.
  intros Hm. unfold final_poll, poll.
  assert (lockstep same never (begin_operation p;; m) (begin_operation p';; m') s) as Hl
    by (same_step; apply Hm). revert Hl. unfold lockstep.
  assert (@need_more_or_failure p T = NeedMore (input_base_offset (sp_input p) + len W + 1) ∨
          ∃ e, @need_more_or_failure p T = Failed e ∧ refusal e) as Hneed.
  { unfold need_more_or_failure. parser_facts Hp.
    assert (try_from u64_max (len W) = Some (len W)) as -> by (apply try_from_Some; lia).
    assert (checked_add u64_max (len W) 1 = Some (len W + 1)) as -> by (apply checked_add_Some; lia).
    destruct (_ <? _) eqn:Hlt; checked_facts.
    - right. eexists. split; [done|]. right. split; [done|]. eexists. split; [done|]. left. simpl. lia.
    - left. destruct (checked_add _ _ _) eqn:Ha; checked_facts; [f_equal; lia|]. exfalso. lia. }
  destruct ((begin_operation p;; m) s) as [s1 [a|[[|code offset|e]|]]]; try done.
  - by intros [?|(? & -> & ->)].
  - intros _. simpl. rewrite Hmore, andb_false_r. destruct Hneed as [->|(e & -> & ?)]; auto.
  - intros _. simpl. rewrite Hmore. destruct Hneed as [->|(e & -> & ?)]; auto.
  - intros [?| ->]; simpl; auto.
Qed.

Lemma parse_object_final s : final_poll (parse_object p) (parse_object p') s.
Proof.
  apply poll_final. intros s1. unfold parse_object_at.
  eapply lockstep_then; [apply next_token_final|]. intros s2 token _. apply (proj1 (objects_final _)).
  unfold object_fuel. rewrite window_extended, length_app. lia.
Qed.

Lemma parse_keyword_final s : final_poll (parse_keyword p) (parse_keyword p') s.
Proof.
  apply poll_final. intros s0. unfold parse_keyword_inner.
  eapply lockstep_bind; [apply skip_trivia_final|..].
  - intros s1 [] [] _ _. same_step. run_facts.
    destruct (decide (length W ≤ ps_cursor s1)%nat) as [Hb|Hb].
    { apply lockstep_undecided. destruct (at_end p _); [done|].
      apply undecided_bind; [apply charge_token_refused|]. intros. by apply byte_at_beyond. }
    destruct (at_end_inside (ps_cursor s1)) as [-> ->]; [lia|]. same_step.
    apply lockstep_lookup. intros b Hbyte. split; [by apply inside_lookup|].
    destruct (_ || _); [apply lockstep_refl|]. rewrite remaining_inside by lia.
    eapply lockstep_bind; [apply regular_loop_final; [done|lia]|..].
    + intros s3 stop ? _ [-> Hi]. destruct (at_end_inside _ Hi) as [-> ->]. cbn [andb].
      rewrite slice_inside by lia. apply lockstep_refl.
    + intros s3 stop _ ->. unfold at_end. by rewrite bool_decide_eq_true_2, Hmore.
  - intros s1 [] _ Hb. apply undecided_gets. destruct (at_end p _); [done|].
    apply undecided_bind; [apply charge_token_refused|]. intros. by apply byte_at_beyond.
Qed.

Lemma consume_stream_line_ending_final s :
  final_poll (consume_stream_line_ending p) (consume_stream_line_ending p') s.
Proof.
  apply poll_final. intros s1. unfold consume_stream_line_ending_inner. same_step. run_facts.
  rewrite Hmore. eapply lockstep_then; [|intros; apply lockstep_refl].
  destruct (W !! ps_cursor s1) as [b|] eqn:Hb; [|by apply lockstep_undecided].
  apply inside_lookup in Hb as [-> _]. destruct (b =? 10); [apply lockstep_refl|].
  destruct (b =? 13); [|apply lockstep_refl].
  destruct (W !! S (ps_cursor s1)) as [b'|] eqn:Hb'; [|by apply lockstep_undecided].
  apply inside_lookup in Hb' as [-> _]. apply lockstep_refl.
Qed.
End final.
