(* ===== verification/ObjectTypes.v ===== *)
(** * Data of indirect-object framing ([pdf-rs/object/src])

    Errors ([error.rs]), limits and work caps ([limits.rs]), targets, length claims
    and envelopes ([model.rs]), and the context and accounting of jobs ([job.rs]).
    Framed objects and limits are those of [DocumentTypes]. *)

From stdpp Require Import base list numbers option strings.
From S2P Require Import Prelude.
From S2P Require Import SourceTypes.
From S2P Require Import SyntaxTypes.
From S2P Require Import RangeTypes.
From S2P Require Import DocumentTypes.

(** ** Errors *)

Inductive ObjectLimitKind :=
| SourceBytes | EnvelopeBytes | BoundaryBytes | StreamBytes | TotalReadBytes
| TotalParseBytes | RepairScanBytes | RepairHeaderCandidates | RepairBoundaryCandidates.
#[global] Instance ObjectLimitKind_eq_dec : EqDecision ObjectLimitKind.
Proof. solve_decision. Defined.

Record ObjectLimit := {
  object_limit_kind : ObjectLimitKind;
  object_limit_limit : Z;
  object_limit_consumed : Z;
  object_limit_attempted : Z
}.

Inductive ObjectErrorCode :=
| ObjectInvalidLimits | InvalidJobContext | UnknownSourceLength | InvalidTarget
| SnapshotMismatch | SourceFailure | UnexpectedEndOfObject | InvalidObjectHeader
| InvalidObjectEnvelope | MissingStreamLength | DuplicateStreamLength
| InvalidStreamLength | UnsupportedIndirectLength | InvalidStreamLengthClaim
| ObjectInvalidStreamBoundary | SyntaxFailure | ObjectResourceLimit | ObjectCancelled
| ObjectInternalState | JobAlreadyComplete | UnexpectedEndOfSource
| ObjectCrossesPhysicalBound | InvalidRepairLimits | InvalidRepairJobContext
| LocalRepairFailed | AmbiguousRepair | UnsupportedRepairTarget.
#[global] Instance ObjectErrorCode_eq_dec : EqDecision ObjectErrorCode.
Proof. solve_decision. Defined.

Inductive ObjectErrorCategory :=
| ObjectConfiguration | ObjectSource | ObjectSyntax | ObjectUnsupported | ObjectResource
| ObjectCancellation | ObjectInternal.
#[global] Instance ObjectErrorCategory_eq_dec : EqDecision ObjectErrorCategory.
Proof. solve_decision. Defined.

Inductive ObjectRecoverability :=
| ObjectCorrectConfiguration | ObjectCorrectInput | ObjectReopenSource
| ObjectRetrySource | ObjectReduceWorkload | ObjectUseSupportedFeature
| ObjectAbandonOperation | ObjectDoNotRetry.

Inductive ObjectErrorDetail :=
| DetailNone
| DetailLimit (limit : ObjectLimit)
| DetailSource (error : SourceError)
| DetailSyntax (error : SyntaxError).

Record ObjectError := {
  oe_code : ObjectErrorCode;
  oe_category : ObjectErrorCategory;
  oe_recoverability : ObjectRecoverability;
  oe_diagnostic_id : string;
  oe_reference : option ObjectRef;
  oe_offset : option Z;
  oe_detail : ObjectErrorDetail
}.

(** The table of [ObjectError::for_code]. *)
Definition object_code_policy (code : ObjectErrorCode)
    : ObjectErrorCategory * ObjectRecoverability * string :=
  match code with
  | ObjectInvalidLimits => (ObjectConfiguration, ObjectCorrectConfiguration, "RPE-OBJECT-0001")
  | InvalidJobContext => (ObjectConfiguration, ObjectCorrectConfiguration, "RPE-OBJECT-0002")
  | UnknownSourceLength => (ObjectConfiguration, ObjectCorrectConfiguration, "RPE-OBJECT-0003")
  | InvalidTarget => (ObjectSyntax, ObjectCorrectInput, "RPE-OBJECT-0004")
  | SnapshotMismatch => (ObjectSource, ObjectReopenSource, "RPE-OBJECT-0005")
  | SourceFailure => (ObjectSource, ObjectDoNotRetry, "RPE-OBJECT-0006")
  | UnexpectedEndOfObject => (ObjectSyntax, ObjectCorrectInput, "RPE-OBJECT-0007")
  | InvalidObjectHeader => (ObjectSyntax, ObjectCorrectInput, "RPE-OBJECT-0008")
  | InvalidObjectEnvelope => (ObjectSyntax, ObjectCorrectInput, "RPE-OBJECT-0009")
  | MissingStreamLength => (ObjectSyntax, ObjectCorrectInput, "RPE-OBJECT-0010")
  | DuplicateStreamLength => (ObjectSyntax, ObjectCorrectInput, "RPE-OBJECT-0011")
  | InvalidStreamLength => (ObjectSyntax, ObjectCorrectInput, "RPE-OBJECT-0012")
  | UnsupportedIndirectLength => (ObjectUnsupported, ObjectUseSupportedFeature, "RPE-OBJECT-0013")
  | InvalidStreamLengthClaim => (ObjectConfiguration, ObjectCorrectConfiguration, "RPE-OBJECT-0022")
  | ObjectInvalidStreamBoundary => (ObjectSyntax, ObjectCorrectInput, "RPE-OBJECT-0014")
  | SyntaxFailure => (ObjectSyntax, ObjectCorrectInput, "RPE-OBJECT-0015")
  | ObjectResourceLimit => (ObjectResource, ObjectReduceWorkload, "RPE-OBJECT-0016")
  | ObjectCancelled => (ObjectCancellation, ObjectAbandonOperation, "RPE-OBJECT-0017")
  | ObjectInternalState => (ObjectInternal, ObjectDoNotRetry, "RPE-OBJECT-0018")
  | JobAlreadyComplete => (ObjectConfiguration, ObjectCorrectConfiguration, "RPE-OBJECT-0019")
  | UnexpectedEndOfSource => (ObjectSource, ObjectReopenSource, "RPE-OBJECT-0020")
  | ObjectCrossesPhysicalBound => (ObjectSyntax, ObjectCorrectInput, "RPE-OBJECT-0021")
  | InvalidRepairLimits => (ObjectConfiguration, ObjectCorrectConfiguration, "RPE-OBJECT-0023")
  | InvalidRepairJobContext => (ObjectConfiguration, ObjectCorrectConfiguration, "RPE-OBJECT-0024")
  | LocalRepairFailed => (ObjectSyntax, ObjectCorrectInput, "RPE-OBJECT-0025")
  | AmbiguousRepair => (ObjectSyntax, ObjectCorrectInput, "RPE-OBJECT-0026")
  | UnsupportedRepairTarget => (ObjectUnsupported, ObjectUseSupportedFeature, "RPE-OBJECT-0027")
  end.

Definition ObjectError_for_code (code : ObjectErrorCode) (reference : option ObjectRef)
    (offset : option Z) : ObjectError :=
  let '(category, recoverability, diagnostic_id) := object_code_policy code in
  {| oe_code := code; oe_category := category; oe_recoverability := recoverability;
     oe_diagnostic_id := diagnostic_id; oe_reference := reference; oe_offset := offset;
     oe_detail := DetailNone |}.

Definition ObjectError_resource (kind : ObjectLimitKind) (limit consumed attempted : Z)
    (reference : option ObjectRef) (offset : option Z) : ObjectError :=
  {| oe_code := ObjectResourceLimit; oe_category := ObjectResource;
     oe_recoverability := ObjectReduceWorkload; oe_diagnostic_id := "RPE-OBJECT-0016";
     oe_reference := reference; oe_offset := offset;
     oe_detail := DetailLimit {| object_limit_kind := kind; object_limit_limit := limit;
                                 object_limit_consumed := consumed;
                                 object_limit_attempted := attempted |} |}.

Definition from_source (error : SourceError) (reference : option ObjectRef) (offset : option Z)
    : ObjectError :=
  {| oe_code := SourceFailure;
     oe_category :=
       match source_error_category error with
       | RangeTypes.CategoryInput | RangeTypes.CategoryLifecycle => ObjectConfiguration
       | RangeTypes.CategoryIntegrity | RangeTypes.CategoryAvailability => ObjectSource
       | RangeTypes.CategoryResource => ObjectResource
       | RangeTypes.CategoryInternal => ObjectInternal
       end;
     oe_recoverability :=
       match source_error_recoverability error with
       | RangeTypes.CorrectInput => ObjectCorrectConfiguration
       | RangeTypes.ReopenSource => ObjectReopenSource
       | RangeTypes.ReduceWorkload => ObjectReduceWorkload
       | RangeTypes.RetrySource => ObjectRetrySource
       | RangeTypes.DoNotRetry => ObjectDoNotRetry
       end;
     oe_diagnostic_id := "RPE-OBJECT-0006"; oe_reference := reference; oe_offset := offset;
     oe_detail := DetailSource error |}.

(** The table of [ObjectError::from_syntax]. *)
Definition syntax_policy (category : SyntaxErrorCategory)
    : ObjectErrorCode * ObjectErrorCategory * ObjectRecoverability * string :=
  match category with
  | SyntaxTypes.CategoryConfiguration =>
      (SyntaxFailure, ObjectConfiguration, ObjectCorrectConfiguration, "RPE-OBJECT-0015")
  | SyntaxTypes.CategorySyntax =>
      (SyntaxFailure, ObjectSyntax, ObjectCorrectInput, "RPE-OBJECT-0015")
  | SyntaxTypes.CategoryResource =>
      (SyntaxFailure, ObjectResource, ObjectReduceWorkload, "RPE-OBJECT-0015")
  | SyntaxTypes.CategoryIntegrity =>
      (SyntaxFailure, ObjectSource, ObjectReopenSource, "RPE-OBJECT-0015")
  | SyntaxTypes.CategoryCancellation =>
      (ObjectCancelled, ObjectCancellation, ObjectAbandonOperation, "RPE-OBJECT-0017")
  | SyntaxTypes.CategoryInternal =>
      (SyntaxFailure, ObjectInternal, ObjectDoNotRetry, "RPE-OBJECT-0015")
  end.

Definition from_syntax (error : SyntaxError) (reference : option ObjectRef) : ObjectError :=
  let '(code, category, recoverability, diagnostic_id) := syntax_policy (error_category error) in
  {| oe_code := code; oe_category := category; oe_recoverability := recoverability;
     oe_diagnostic_id := diagnostic_id; oe_reference := reference;
     oe_offset := error_offset error; oe_detail := DetailSyntax error |}.

Definition set_detail (detail : ObjectErrorDetail) (e : ObjectError) : ObjectError :=
  {| oe_code := oe_code e; oe_category := oe_category e;
     oe_recoverability := oe_recoverability e; oe_diagnostic_id := oe_diagnostic_id e;
     oe_reference := oe_reference e; oe_offset := oe_offset e; oe_detail := detail |}.

Definition from_syntax_for (semantic_code : ObjectErrorCode) (error : SyntaxError)
    (reference : option ObjectRef) : ObjectError :=
  match error_category error with
  | SyntaxTypes.CategorySyntax =>
      set_detail (DetailSyntax error)
        (ObjectError_for_code semantic_code reference (error_offset error))
  | _ => from_syntax error reference
  end.

(** ** Limits *)

Definition OBJECT_MAX_SOURCE_BYTES : Z := 1024 * 1024 * 1024.
Definition HARD_MAX_ENVELOPE_BYTES : Z := 64 * 1024 * 1024.
Definition HARD_MAX_BOUNDARY_BYTES : Z := 4 * 1024 * 1024.
Definition HARD_MAX_STREAM_BYTES : Z := 1024 * 1024 * 1024.
Definition HARD_MAX_TOTAL_BYTES : Z := 256 * 1024 * 1024.

Record ObjectWorkCaps := {
  caps_max_read_bytes : Z;
  caps_max_parse_bytes : Z;
  caps_max_retained_bytes : option Z
}.

Definition ObjectWorkCaps_new (max_read_bytes max_parse_bytes : Z)
    : result ObjectError ObjectWorkCaps :=
  fail_if ((max_read_bytes =? 0) || (HARD_MAX_TOTAL_BYTES <? max_read_bytes)
           || (max_parse_bytes =? 0) || (HARD_MAX_TOTAL_BYTES <? max_parse_bytes))
    (ObjectError_for_code ObjectInvalidLimits None None);;
  mret {| caps_max_read_bytes := max_read_bytes; caps_max_parse_bytes := max_parse_bytes;
          caps_max_retained_bytes := None |}.

Definition ObjectWorkCaps_new_with_retained_bytes
    (max_read_bytes max_parse_bytes max_retained_bytes : Z) : result ObjectError ObjectWorkCaps :=
  caps ← ObjectWorkCaps_new max_read_bytes max_parse_bytes;
  mret {| caps_max_read_bytes := caps_max_read_bytes caps;
          caps_max_parse_bytes := caps_max_parse_bytes caps;
          caps_max_retained_bytes := Some max_retained_bytes |}.

Definition ObjectWorkCaps_from_limits (limits : ObjectLimits) : ObjectWorkCaps :=
  {| caps_max_read_bytes := ol_max_total_read_bytes limits;
     caps_max_parse_bytes := ol_max_total_parse_bytes limits;
     caps_max_retained_bytes := None |}.

(** A configuration has the fields of the limits. *)
Definition ObjectLimitConfig : Type := ObjectLimits.

Definition ObjectLimitConfig_default : ObjectLimitConfig :=
  {| ol_max_source_bytes := 256 * 1024 * 1024;
     ol_initial_envelope_bytes := 4 * 1024;
     ol_max_envelope_bytes := 1024 * 1024;
     ol_initial_boundary_bytes := 256;
     ol_max_boundary_bytes := 16 * 1024;
     ol_max_stream_bytes := 128 * 1024 * 1024;
     ol_max_total_read_bytes := 4 * 1024 * 1024;
     ol_max_total_parse_bytes := 4 * 1024 * 1024 |}.

Definition ObjectLimits_validate (c : ObjectLimitConfig) : result ObjectError ObjectLimits :=
  let minimum_total :=
    checked_add u64_max (ol_max_envelope_bytes c) (ol_max_boundary_bytes c) in
  let below_minimum total := from_option (λ minimum, total <? minimum) true minimum_total in
  fail_if ((ol_max_source_bytes c =? 0)
           || (OBJECT_MAX_SOURCE_BYTES <? ol_max_source_bytes c)
           || (ol_initial_envelope_bytes c =? 0)
           || (ol_max_envelope_bytes c <? ol_initial_envelope_bytes c)
           || (HARD_MAX_ENVELOPE_BYTES <? ol_max_envelope_bytes c)
           || (ol_max_source_bytes c <? ol_max_envelope_bytes c)
           || (ol_initial_boundary_bytes c =? 0)
           || (ol_max_boundary_bytes c <? ol_initial_boundary_bytes c)
           || (HARD_MAX_BOUNDARY_BYTES <? ol_max_boundary_bytes c)
           || (ol_max_source_bytes c <? ol_max_boundary_bytes c)
           || (ol_max_stream_bytes c =? 0)
           || (HARD_MAX_STREAM_BYTES <? ol_max_stream_bytes c)
           || (ol_max_source_bytes c <? ol_max_stream_bytes c)
           || (ol_max_total_read_bytes c =? 0)
           || (HARD_MAX_TOTAL_BYTES <? ol_max_total_read_bytes c)
           || below_minimum (ol_max_total_read_bytes c)
           || (ol_max_total_parse_bytes c =? 0)
           || (HARD_MAX_TOTAL_BYTES <? ol_max_total_parse_bytes c)
           || below_minimum (ol_max_total_parse_bytes c))
    (ObjectError_for_code ObjectInvalidLimits None None);;
  mret c.

(** ** Targets *)

Record IndirectObjectTarget := {
  target_snapshot : SourceSnapshot;
  target_reference : ObjectRef;
  target_xref_offset : Z;
  target_object_upper_bound : Z;
  target_revision_startxref : Z;
  target_kind : IndirectObjectTargetKind
}.

Definition IndirectObjectTarget_new (snapshot : SourceSnapshot) (reference : ObjectRef)
    (xref_offset object_upper_bound revision_startxref : Z)
    : result ObjectError IndirectObjectTarget :=
  source_len ← require (snapshot_len snapshot)
    (ObjectError_for_code UnknownSourceLength (Some reference) None);
  fail_if ((object_upper_bound <=? xref_offset) || (revision_startxref <? object_upper_bound)
           || (source_len <=? revision_startxref))
    (ObjectError_for_code InvalidTarget (Some reference)
       (Some (if object_upper_bound <=? xref_offset then xref_offset
              else if revision_startxref <? object_upper_bound then object_upper_bound
              else revision_startxref)));;
  mret {| target_snapshot := snapshot; target_reference := reference;
          target_xref_offset := xref_offset; target_object_upper_bound := object_upper_bound;
          target_revision_startxref := revision_startxref; target_kind := XrefEntry |}.

Definition at_xref_stream_anchor (snapshot : SourceSnapshot) (reference : ObjectRef)
    (startxref object_upper_bound revision_startxref : Z)
    : result ObjectError IndirectObjectTarget :=
  source_len ← require (snapshot_len snapshot)
    (ObjectError_for_code UnknownSourceLength (Some reference) None);
  let hybrid_upper_bound_mismatch :=
    (startxref <? revision_startxref) && negb (object_upper_bound =? revision_startxref) in
  fail_if ((object_upper_bound <=? startxref) || (source_len <? object_upper_bound)
           || (revision_startxref <? startxref) || (source_len <=? revision_startxref)
           || hybrid_upper_bound_mismatch)
    (ObjectError_for_code InvalidTarget (Some reference)
       (Some (if object_upper_bound <=? startxref then startxref
              else if source_len <? object_upper_bound then object_upper_bound
              else if (revision_startxref <? startxref) || (source_len <=? revision_startxref)
              then revision_startxref
              else object_upper_bound)));;
  mret {| target_snapshot := snapshot; target_reference := reference;
          target_xref_offset := startxref; target_object_upper_bound := object_upper_bound;
          target_revision_startxref := revision_startxref; target_kind := XrefStreamAnchor |}.

Definition IndirectObject_new (target : IndirectObjectTarget)
    (header_span object_span endobj_span : ByteSpan) (retained_heap_bytes : Z)
    (value : IndirectObjectValue) : IndirectObject :=
  {| object_snapshot := target_snapshot target;
     object_reference := target_reference target;
     object_revision_startxref := target_revision_startxref target;
     object_target_kind := target_kind target;
     object_xref_offset := target_xref_offset target;
     object_upper_bound := target_object_upper_bound target;
     object_header_span := header_span; object_object_span := object_span;
     object_endobj_span := endobj_span;
     object_retained_heap_bytes := retained_heap_bytes; object_value := value |}.

(** ** Lengths *)

#[global] Instance ByteSpan_eq_dec : EqDecision ByteSpan.
Proof. solve_decision. Defined.
#[global] Instance DeclaredStreamLength_eq_dec : EqDecision DeclaredStreamLength.
Proof. solve_decision. Defined.

Definition operand_span (d : DeclaredStreamLength) : ByteSpan :=
  match d with DirectLength _ span | IndirectLength _ span => span end.
Definition direct_value (d : DeclaredStreamLength) : option Z :=
  match d with DirectLength value _ => Some value | IndirectLength _ _ => None end.

Record ResolvedStreamLength := {
  resolved_snapshot : SourceSnapshot;
  resolved_reference : ObjectRef;
  resolved_value : Z;
  resolved_value_span : ByteSpan
}.

Definition from_uncompressed_object (object : IndirectObject)
    : result ObjectError ResolvedStreamLength :=
  let reference := Some (object_reference object) in
  match object_value object with
  | Stream _ =>
      Err (ObjectError_for_code InvalidStreamLength reference
             (Some (span_start (object_object_span object))))
  | Direct located =>
      let start := Some (span_start (located_span located)) in
      match located_value located with
      | Integer value =>
          value ← require (try_from u64_max value)
            (ObjectError_for_code InvalidStreamLength reference start);
          fail_if (negb (bool_decide
                    (located_source located = snapshot_identity (object_snapshot object))))
            (ObjectError_for_code InvalidStreamLengthClaim reference start);;
          mret {| resolved_snapshot := object_snapshot object;
                  resolved_reference := object_reference object;
                  resolved_value := value; resolved_value_span := located_span located |}
      | _ => Err (ObjectError_for_code InvalidStreamLength reference start)
      end
  end.

Definition StreamLengthClaim_direct (snapshot : SourceSnapshot) (owner : ObjectRef)
    (declaration : DeclaredStreamLength) (value : Z) : StreamLengthClaim :=
  {| claim_snapshot := snapshot; claim_owner := owner; claim_declaration := declaration;
     claim_value := value; claim_resolved_value_span := None |}.

(** ** Jobs *)

Record ObjectJobContext := {
  context_job : Z;
  context_envelope_checkpoint : Z;
  context_boundary_checkpoint : Z;
  context_priority : RequestPriority
}.

Inductive ObjectPhase := EnvelopePhase | StreamBoundaryPhase | CompletePhase | FailedPhase.

Record ObjectStats := {
  os_read_bytes : Z;
  os_parse_bytes : Z;
  os_envelope_attempts : Z;
  os_boundary_attempts : Z;
  os_declared_stream_bytes : Z;
  os_retained_heap_bytes : Z
}.
Definition ObjectStats_default : ObjectStats :=
  {| os_read_bytes := 0; os_parse_bytes := 0; os_envelope_attempts := 0;
     os_boundary_attempts := 0; os_declared_stream_bytes := 0; os_retained_heap_bytes := 0 |}.
Definition set_read_bytes (x : Z) (s : ObjectStats) : ObjectStats :=
  {| os_read_bytes := x; os_parse_bytes := os_parse_bytes s;
     os_envelope_attempts := os_envelope_attempts s;
     os_boundary_attempts := os_boundary_attempts s;
     os_declared_stream_bytes := os_declared_stream_bytes s;
     os_retained_heap_bytes := os_retained_heap_bytes s |}.
Definition set_parse_bytes (x : Z) (s : ObjectStats) : ObjectStats :=
  {| os_read_bytes := os_read_bytes s; os_parse_bytes := x;
     os_envelope_attempts := os_envelope_attempts s;
     os_boundary_attempts := os_boundary_attempts s;
     os_declared_stream_bytes := os_declared_stream_bytes s;
     os_retained_heap_bytes := os_retained_heap_bytes s |}.
Definition set_envelope_attempts (x : Z) (s : ObjectStats) : ObjectStats :=
  {| os_read_bytes := os_read_bytes s; os_parse_bytes := os_parse_bytes s;
     os_envelope_attempts := x; os_boundary_attempts := os_boundary_attempts s;
     os_declared_stream_bytes := os_declared_stream_bytes s;
     os_retained_heap_bytes := os_retained_heap_bytes s |}.
Definition set_boundary_attempts (x : Z) (s : ObjectStats) : ObjectStats :=
  {| os_read_bytes := os_read_bytes s; os_parse_bytes := os_parse_bytes s;
     os_envelope_attempts := os_envelope_attempts s; os_boundary_attempts := x;
     os_declared_stream_bytes := os_declared_stream_bytes s;
     os_retained_heap_bytes := os_retained_heap_bytes s |}.
Definition set_declared_stream_bytes (x : Z) (s : ObjectStats) : ObjectStats :=
  {| os_read_bytes := os_read_bytes s; os_parse_bytes := os_parse_bytes s;
     os_envelope_attempts := os_envelope_attempts s;
     os_boundary_attempts := os_boundary_attempts s; os_declared_stream_bytes := x;
     os_retained_heap_bytes := os_retained_heap_bytes s |}.
Definition set_retained_heap_bytes (x : Z) (s : ObjectStats) : ObjectStats :=
  {| os_read_bytes := os_read_bytes s; os_parse_bytes := os_parse_bytes s;
     os_envelope_attempts := os_envelope_attempts s;
     os_boundary_attempts := os_boundary_attempts s;
     os_declared_stream_bytes := os_declared_stream_bytes s; os_retained_heap_bytes := x |}.

Inductive ObjectPoll :=
| ObjectReady (object : IndirectObject)
| ObjectPending (ticket : DataTicket) (missing : SmallRanges) (checkpoint : Z)
| ObjectFailed (error : ObjectError).

(** A validated stream dictionary and payload start, and what the envelope phase
    seals for the boundary phase. *)
Record StreamEnvelope := {
  envelope_target : IndirectObjectTarget;
  envelope_header_span : ByteSpan;
  envelope_dictionary : Located PdfDictionary;
  envelope_declared_length : DeclaredStreamLength;
  envelope_stream_keyword_span : ByteSpan;
  envelope_stream_line_ending_span : ByteSpan;
  envelope_data_start : Z;
  envelope_retained_heap_bytes : Z;
  envelope_context : ObjectJobContext;
  envelope_limits : ObjectLimits;
  envelope_work_caps : ObjectWorkCaps;
  envelope_syntax_limits : SyntaxLimits;
  envelope_stats : ObjectStats
}.

Definition invalid_claim (envelope : StreamEnvelope) : ObjectError :=
  ObjectError_for_code InvalidStreamLengthClaim
    (Some (target_reference (envelope_target envelope)))
    (Some (span_start (operand_span (envelope_declared_length envelope)))).

Definition direct_length_claim (envelope : StreamEnvelope)
    : result ObjectError StreamLengthClaim :=
  match envelope_declared_length envelope with
  | DirectLength value _ =>
      mret (StreamLengthClaim_direct (target_snapshot (envelope_target envelope))
              (target_reference (envelope_target envelope))
              (envelope_declared_length envelope) value)
  | IndirectLength _ _ => Err (invalid_claim envelope)
  end.

Definition resolved_length_claim (envelope : StreamEnvelope) (resolution : ResolvedStreamLength)
    : result ObjectError StreamLengthClaim :=
  match envelope_declared_length envelope with
  | DirectLength _ _ => Err (invalid_claim envelope)
  | IndirectLength reference _ =>
      fail_if (negb (bool_decide (resolved_snapshot resolution =
                                  target_snapshot (envelope_target envelope)))
               || negb (bool_decide (resolved_reference resolution = reference)))
        (invalid_claim envelope);;
      mret {| claim_snapshot := target_snapshot (envelope_target envelope);
              claim_owner := target_reference (envelope_target envelope);
              claim_declaration := envelope_declared_length envelope;
              claim_value := resolved_value resolution;
              claim_resolved_value_span := Some (resolved_value_span resolution) |}
  end.
