(* ===== verification/ObjectParser.v ===== *)
(** * Parsing of object envelopes and stream boundaries ([pdf-rs/object/src/parser.rs])

    One attempt on one window. A window that may continue can be too short: the
    attempt then asks for more. The cancellation probe and the allocator are those
    of the syntax parser, which a job shares between its attempts. *)

From stdpp Require Import base list numbers option strings.
From S2P Require Import Prelude.
From S2P Require Import SourceTypes.
From S2P Require Import SyntaxTypes.
From S2P Require Import RangeTypes.
From S2P Require Import SyntaxState.
From S2P Require Import SyntaxLexer.
From S2P Require Import SyntaxParser.
From S2P Require Import DocumentTypes.
From S2P Require Import ObjectTypes.

Definition OBJECT_PROBE_INTERVAL : Z := 256.

(** ** Data *)

Record EnvelopeContext := {
  ec_source : SourceIdentity;
  ec_reference : ObjectRef;
  ec_xref_offset : Z;
  ec_object_upper_bound : Z;
  ec_allow_indirect_length : bool;
  ec_syntax_limits : SyntaxLimits;
  ec_max_retained_bytes : option Z
}.

Record ParsedDirect := {
  pd_header_span : ByteSpan;
  pd_value : Located SyntaxObject;
  pd_endobj_span : ByteSpan;
  pd_retained_heap_bytes : Z
}.

Record ParsedStreamEnvelope := {
  pe_header_span : ByteSpan;
  pe_dictionary : Located PdfDictionary;
  pe_declared_length : DeclaredStreamLength;
  pe_stream_keyword_span : ByteSpan;
  pe_stream_line_ending_span : ByteSpan;
  pe_data_start : Z;
  pe_retained_heap_bytes : Z
}.

Inductive EnvelopeParse :=
| EnvelopeNeedMore (minimum_end : Z)
| EnvelopeDirect (parsed : ParsedDirect)
| EnvelopeStream (parsed : ParsedStreamEnvelope).

Record BoundaryContext := {
  bc_source : SourceIdentity;
  bc_reference : ObjectRef;
  bc_data_end : Z;
  bc_syntax_limits : SyntaxLimits;
  bc_max_retained_bytes : option Z
}.

Record ParsedBoundary := {
  pb_data_delimiter_span : ByteSpan;
  pb_endstream_span : ByteSpan;
  pb_endobj_span : ByteSpan
}.

Inductive BoundaryParse :=
| BoundaryNeedMore (minimum_end : Z)
| BoundaryComplete (parsed : ParsedBoundary).

(** ** Calls of the runtime *)

(** The calls of the probe and of the allocator so far. *)
Record RuntimeCalls := {
  calls_probes : nat;
  calls_reservations : nat
}.
Definition set_calls (c : RuntimeCalls) (s : ParserState) : ParserState :=
  {| ps_cursor := ps_cursor s; ps_countdown := ps_countdown s; ps_probes := calls_probes c;
     ps_reservations := calls_reservations c; ps_tokens := ps_tokens s;
     ps_owned_bytes := ps_owned_bytes s; ps_container_bytes := ps_container_bytes s;
     ps_container_entries := ps_container_entries s; ps_max_depth := ps_max_depth s |}.
Definition calls_of (s : ParserState) : RuntimeCalls :=
  {| calls_probes := ps_probes s; calls_reservations := ps_reservations s |}.

(** An early return of an attempt: more input, or an error. *)
Inductive ParseExit :=
| ExitNeedMore (minimum_end : Z)
| ExitFailed (error : ObjectError).

(** The methods of an attempt, on the state of its parser. *)
Abbreviation AttemptM := (M ParserState (failure ParseExit)).

Definition exit_failed {A} (error : ObjectError) : AttemptM A := throw (Rejected (ExitFailed error)).
Definition exit_with {A} (r : result ObjectError A) : AttemptM A :=
  match r with Ok a => mret a | Err error => exit_failed error end.

(** [required], with the [match] of its callers; the offset of an end of input is
    evaluated after the call. *)
Definition required {T} (m : ParserState → ParserState * option (SyntaxPoll T))
    (reference : ObjectRef) (fallback_offset : ParserState → Z) (end_code : ObjectErrorCode) : AttemptM T := λ s,
  match m s with
  | (s', Some (Ready value)) => (s', Ok value)
  | (s', Some (NeedMore minimum_end)) => (s', Err (Rejected (ExitNeedMore minimum_end)))
  | (s', Some EndOfInput) =>
      (s', Err (Rejected (ExitFailed
              (ObjectError_for_code end_code (Some reference) (Some (fallback_offset s'))))))
  | (s', Some (Failed error)) =>
      (s', Err (Rejected (ExitFailed (from_syntax_for end_code error (Some reference)))))
  | (s', None) => (s', Err Panicked)
  end.

Definition object_span_from_bounds (start end_exclusive : Z) (reference : ObjectRef)
    : result ObjectError ByteSpan :=
  let internal := ObjectError_for_code ObjectInternalState (Some reference) (Some start) in
  length_ ← require (checked_sub end_exclusive start) internal;
  match ByteSpan_new start length_ with Ok span => Ok span | Err _ => Err internal end.

Definition retained_heap_bytes (p : SyntaxParser) (reference : ObjectRef) (offset : Z)
    : AttemptM Z :=
  s ← get;
  let stats := parser_stats p s in
  ok_or (checked_add u64_max (stats_owned_bytes stats) (stats_container_bytes stats))
    (Rejected (ExitFailed (ObjectError_for_code ObjectInternalState (Some reference) (Some offset)))).

Section attempts.
Context `{ParserRuntime}.

Definition attempt_cancelled : AttemptM bool :=
  probes ← gets ps_probes;
  modify count_probe;;
  mret (parser_cancelled probes).

(** ** The length of a stream *)

(** The loop of [stream_length]: the value of the last [/Length] seen. *)
Fixpoint length_loop (reference : ObjectRef) (countdown : Z) (found : option (Located SyntaxObject))
    (entries : PdfDictionary) : AttemptM (option (Located SyntaxObject)) :=
  match entries with
  | [] => mret found
  | entry :: entries =>
      cancelled ← (if countdown =? OBJECT_PROBE_INTERVAL then attempt_cancelled else mret false);
      if cancelled : bool
      then exit_failed (ObjectError_for_code ObjectCancelled (Some reference)
                          (Some (span_start (located_span (entry_key entry)))))
      else
        let countdown := if countdown =? 1 then OBJECT_PROBE_INTERVAL else countdown - 1 in
        if negb (bool_decide (key_bytes entry = "Length"%string))
        then length_loop reference countdown found entries
        else match found with
             | Some _ =>
                 exit_failed (ObjectError_for_code DuplicateStreamLength (Some reference)
                                (Some (span_start (located_span (entry_value entry)))))
             | None => length_loop reference countdown (Some (entry_value entry)) entries
             end
  end.

(** The [match] at the end of [stream_length]. *)
Definition declared_length (reference : ObjectRef) (value : Located SyntaxObject)
    : result ObjectError DeclaredStreamLength :=
  let invalid := ObjectError_for_code InvalidStreamLength (Some reference)
                   (Some (span_start (located_span value))) in
  match located_value value with
  | Integer length_ =>
      length_ ← require (try_from u64_max length_) invalid;
      mret (DirectLength length_ (located_span value))
  | Reference reference => mret (IndirectLength reference (located_span value))
  | _ => Err invalid
  end.

Definition stream_length (dictionary : Located PdfDictionary) (reference : ObjectRef)
    : AttemptM DeclaredStreamLength :=
  found ← length_loop reference OBJECT_PROBE_INTERVAL None (located_value dictionary);
  value ← ok_or found
    (Rejected (ExitFailed (ObjectError_for_code MissingStreamLength (Some reference)
       (Some (span_start (located_span dictionary))))));
  exit_with (declared_length reference value).

(** ** Envelopes *)

Section envelope.
Variables (p : SyntaxParser) (context : EnvelopeContext).

Definition header_error {A} (offset : Z) : AttemptM A :=
  exit_failed (ObjectError_for_code InvalidObjectHeader (Some (ec_reference context))
                 (Some offset)).

(** The number, the generation and [obj]: the span of the header. *)
Definition parse_object_header : AttemptM ByteSpan :=
  let reference := ec_reference context in
  let xref_offset := ec_xref_offset context in
  number ← required (parse_object p) reference (λ _, xref_offset) InvalidObjectHeader;
  if negb (span_start (located_span number) =? xref_offset)
     || negb (bool_decide (as_integer (located_value number) = Some (object_number reference)))
  then header_error (span_start (located_span number))
  else
    generation_offset ← gets (position p);
    generation ← required (parse_object p) reference (λ _, generation_offset) InvalidObjectHeader;
    if negb (bool_decide (as_integer (located_value generation) =
                          Some (object_generation reference)))
    then header_error (span_start (located_span generation))
    else
      obj_keyword ← required (parse_keyword p) reference (position p) InvalidObjectHeader;
      if negb (bool_decide (raw_bytes obj_keyword = octets "obj"))
      then header_error (span_start (raw_span obj_keyword))
      else exit_with (object_span_from_bounds xref_offset
                        (ByteSpan_end_exclusive (raw_span obj_keyword)) reference).

(** The branch of [parse_envelope] for [stream]. *)
Definition parse_stream_envelope (header_span : ByteSpan) (body : Located SyntaxObject)
    (terminal : RawBytes) : AttemptM EnvelopeParse :=
  let reference := ec_reference context in
  match located_value body with
  | Dictionary entries =>
      let dictionary := {| located_source := located_source body;
                           located_span := located_span body; located_value := entries |} in
      declared_length ← stream_length dictionary reference;
      if negb (ec_allow_indirect_length context)
         && match declared_length with IndirectLength _ _ => true | DirectLength _ _ => false end
      then exit_failed (ObjectError_for_code UnsupportedIndirectLength (Some reference)
                          (Some (span_start (operand_span declared_length))))
      else
        stream_line_ending_span ← required (consume_stream_line_ending p) reference
          (λ _, ByteSpan_end_exclusive (raw_span terminal)) ObjectInvalidStreamBoundary;
        let data_start := ByteSpan_end_exclusive stream_line_ending_span in
        if ec_object_upper_bound context <=? data_start
        then exit_failed (ObjectError_for_code ObjectCrossesPhysicalBound (Some reference)
                            (Some (ec_object_upper_bound context)))
        else
          retained ← retained_heap_bytes p reference (span_start (located_span body));
          mret (EnvelopeStream {| pe_header_span := header_span; pe_dictionary := dictionary;
                  pe_declared_length := declared_length;
                  pe_stream_keyword_span := raw_span terminal;
                  pe_stream_line_ending_span := stream_line_ending_span;
                  pe_data_start := data_start; pe_retained_heap_bytes := retained |})
  | _ => exit_failed (ObjectError_for_code InvalidObjectEnvelope (Some reference)
                        (Some (span_start (raw_span terminal))))
  end.

Definition parse_envelope_body : AttemptM EnvelopeParse :=
  let reference := ec_reference context in
  header_span ← parse_object_header;
  body ← required (parse_object p) reference (position p) InvalidObjectEnvelope;
  terminal ← required (parse_keyword p) reference (position p) InvalidObjectEnvelope;
  if bool_decide (raw_bytes terminal = octets "endobj") then
    retained ← retained_heap_bytes p reference (span_start (located_span body));
    mret (EnvelopeDirect {| pd_header_span := header_span; pd_value := body;
            pd_endobj_span := raw_span terminal; pd_retained_heap_bytes := retained |})
  else if bool_decide (raw_bytes terminal = octets "stream")
  then parse_stream_envelope header_span body terminal
  else exit_failed (ObjectError_for_code InvalidObjectEnvelope (Some reference)
                      (Some (span_start (raw_span terminal)))).
End envelope.

(** ** Boundaries *)

Definition boundary_error {A} (context : BoundaryContext) (offset : Z) : AttemptM A :=
  exit_failed (ObjectError_for_code ObjectInvalidStreamBoundary (Some (bc_reference context))
                 (Some offset)).

Definition parse_boundary_body (p : SyntaxParser) (context : BoundaryContext)
    : AttemptM BoundaryParse :=
  let reference := bc_reference context in
  data_delimiter_span ← required (consume_stream_line_ending p) reference (λ _, bc_data_end context)
    ObjectInvalidStreamBoundary;
  endstream ← required (parse_keyword p) reference
    (λ _, ByteSpan_end_exclusive data_delimiter_span)
    ObjectInvalidStreamBoundary;
  if negb (span_start (raw_span endstream) =? ByteSpan_end_exclusive data_delimiter_span)
     || negb (bool_decide (raw_bytes endstream = octets "endstream"))
  then boundary_error context (span_start (raw_span endstream))
  else
    endobj ← required (parse_keyword p) reference
      (λ _, ByteSpan_end_exclusive (raw_span endstream)) ObjectInvalidStreamBoundary;
    if negb (bool_decide (raw_bytes endobj = octets "endobj"))
    then boundary_error context (span_start (raw_span endobj))
    else mret (BoundaryComplete {| pb_data_delimiter_span := data_delimiter_span;
                 pb_endstream_span := raw_span endstream; pb_endobj_span := raw_span endobj |}).

(** ** Attempts *)

(** [SyntaxInput::new], [syntax_parser] and the body of an attempt. *)
Definition run_attempt {A} (source : SourceIdentity) (base : Z) (bytes : list Z)
    (extent : InputExtent) (limits : SyntaxLimits) (max_retained_bytes : option Z)
    (reference : ObjectRef) (need_more : Z → A) (body : SyntaxParser → AttemptM A)
    : M RuntimeCalls (failure ObjectError) A := λ calls,
  match SyntaxInput_new source base bytes extent with
  | Err error => (calls, Err (Rejected (from_syntax error (Some reference))))
  | Ok input =>
      match SyntaxParser_new input limits max_retained_bytes with
      | Err error => (calls, Err (Rejected (from_syntax error (Some reference))))
      | Ok (p, s) =>
          match body p (set_calls calls s) with
          | (s', Ok parsed) => (calls_of s', Ok parsed)
          | (s', Err (Rejected (ExitNeedMore minimum_end))) => (calls_of s', Ok (need_more minimum_end))
          | (s', Err (Rejected (ExitFailed error))) => (calls_of s', Err (Rejected error))
          | (s', Err Panicked) => (calls_of s', Err Panicked)
          end
      end
  end.

Definition parse_envelope (context : EnvelopeContext) (bytes : list Z) (extent : InputExtent)
    : M RuntimeCalls (failure ObjectError) EnvelopeParse :=
  run_attempt (ec_source context) (ec_xref_offset context) bytes extent
    (ec_syntax_limits context) (ec_max_retained_bytes context) (ec_reference context)
    EnvelopeNeedMore (λ p, parse_envelope_body p context).

Definition parse_boundary (context : BoundaryContext) (bytes : list Z) (extent : InputExtent)
    : M RuntimeCalls (failure ObjectError) BoundaryParse :=
  run_attempt (bc_source context) (bc_data_end context) bytes extent
    (bc_syntax_limits context) (bc_max_retained_bytes context) (bc_reference context)
    BoundaryNeedMore (λ p, parse_boundary_body p context).
End attempts.
