(* ===== verification/ObjectJob.v ===== *)
(** * Sources, windows and the one-shot object job ([pdf-rs/object/src/job.rs])

    The byte source a job polls, the world a job runs in, and the checks and charges
    that the one-shot job and the staged jobs share ([staged.rs]). The one-shot job
    reads windows at its target until the envelope is decided, then, for a stream,
    windows at the end of the declared payload until the boundary is. A poll that
    lacks bytes keeps its window, and its charge, for the next poll. *)

From stdpp Require Import base list numbers option strings.
From S2P Require Import Prelude.
From S2P Require Import SourceTypes.
From S2P Require Import SyntaxTypes.
From S2P Require Import DocumentTypes.
From S2P Require Import SyntaxState.
From S2P Require Import RangeTypes.
From S2P Require Import ObjectTypes.
From S2P Require Import ObjectParser.

(** The trait [ByteSource] of [pdf-rs/bytes/src/source.rs]: a poll may change the
    state of the source; [None] is a panic. *)
Class ByteSource (S : Type) : Type := {
  source_snapshot : S → SourceSnapshot;
  source_poll : ReadRequest → S → S * option ReadPoll
}.

(** The source, and the calls of the probe and the allocator so far. *)
Record World (S : Type) := {
  world_source : S;
  world_calls : RuntimeCalls
}.
Arguments world_source {S} _.
Arguments world_calls {S} _.

(** A job [J] in its world. *)
Record JobRun (S J : Type) := {
  run_job : J;
  run_world : World S
}.
Arguments run_job {S J} _.
Arguments run_world {S J} _.

(** A method of a job that answers polls of type [P]: an early return of a poll is
    [Rejected]. *)
Abbreviation JobM S J P := (M (JobRun S J) (failure P)).

Section operations.
Context `{ParserRuntime} {S : Type} `{ByteSource S} {J P : Type}.

Definition job : JobM S J P J := gets run_job.
Definition set_job (f : J → J) : JobM S J P unit :=
  modify (λ r, {| run_job := f (run_job r); run_world := run_world r |}).
Definition answer {A} (poll : P) : JobM S J P A := throw (Rejected poll).

Definition snapshot : JobM S J P SourceSnapshot :=
  gets (λ r, source_snapshot (world_source (run_world r))).

Definition poll_source (request : ReadRequest) : JobM S J P ReadPoll := λ r,
  let w := run_world r in
  let '(s', polled) := source_poll request (world_source w) in
  ({| run_job := run_job r; run_world := {| world_source := s'; world_calls := world_calls w |} |},
   match polled with Some polled => Ok polled | None => Err Panicked end).

Definition with_calls (c : RuntimeCalls) (r : JobRun S J) : JobRun S J :=
  {| run_job := run_job r;
     run_world := {| world_source := world_source (run_world r); world_calls := c |} |}.

(** [cancellation.is_cancelled()]. *)
Definition is_cancelled : JobM S J P bool := λ r,
  let c := world_calls (run_world r) in
  (with_calls {| calls_probes := Datatypes.S (calls_probes c);
                 calls_reservations := calls_reservations c |} r,
   Ok (parser_cancelled (calls_probes c))).

(** An attempt of the parsers: its result is a value, also when it is an error. *)
Definition attempt {E A} (m : M RuntimeCalls (failure E) A) : JobM S J P (result E A) := λ r,
  match m (world_calls (run_world r)) with
  | (c, Ok a) => (with_calls c r, Ok (Ok a))
  | (c, Err (Rejected error)) => (with_calls c r, Ok (Err error))
  | (c, Err Panicked) => (with_calls c r, Err Panicked)
  end.

(** [self.fail(error)], with the state a failure leaves. *)
Definition fail_with {E A} (failed : E → J → J) (poll : E → P) (error : E) : JobM S J P A :=
  set_job (failed error);;
  answer (poll error).
End operations.

(** ** Checks and charges *)

Definition validate_common (target : IndirectObjectTarget) (context : ObjectJobContext)
    (limits : ObjectLimits) (syntax_limits : SyntaxLimits) (work_caps : ObjectWorkCaps)
    : result ObjectError unit :=
  let reference := Some (target_reference target) in
  fail_if ((ol_max_total_read_bytes limits <? caps_max_read_bytes work_caps)
           || (ol_max_total_parse_bytes limits <? caps_max_parse_bytes work_caps))
    (ObjectError_for_code ObjectInvalidLimits reference None);;
  fail_if (context_envelope_checkpoint context =? context_boundary_checkpoint context)
    (ObjectError_for_code InvalidJobContext reference None);;
  source_len ← require (snapshot_len (target_snapshot target))
    (ObjectError_for_code UnknownSourceLength reference None);
  fail_if (ol_max_source_bytes limits <? source_len)
    (ObjectError_resource SourceBytes (ol_max_source_bytes limits) 0 source_len reference None);;
  fail_if ((sl_max_input_bytes syntax_limits <? ol_max_envelope_bytes limits)
           || (sl_max_input_bytes syntax_limits <? ol_max_boundary_bytes limits))
    (ObjectError_for_code ObjectInvalidLimits reference None).

(** [u64::from(target.xref_offset() != 0)]. *)
Definition prefix_bytes (target : IndirectObjectTarget) : Z :=
  if target_xref_offset target =? 0 then 0 else 1.

(** The bytes a job may read for an envelope. *)
Definition available_bytes (target : IndirectObjectTarget) : result ObjectError Z :=
  require
    (n ← checked_sub (target_object_upper_bound target) (target_xref_offset target);
     checked_add u64_max n (prefix_bytes target))
    (ObjectError_for_code InvalidTarget (Some (target_reference target))
       (Some (target_xref_offset target))).

Definition validate_slice (bytes : ByteSlice) (expected : ByteRange)
    (target : IndirectObjectTarget) : result ObjectError unit :=
  fail_if (negb (bool_decide (slice_identity bytes = snapshot_identity (target_snapshot target))))
    (ObjectError_for_code SnapshotMismatch (Some (target_reference target)) None);;
  fail_if (negb (bool_decide (slice_range bytes = expected)))
    (ObjectError_for_code ObjectInternalState (Some (target_reference target))
       (Some (range_start expected))).

(** The total after a charge of [amount]. *)
Definition charge_total_bytes (kind : ObjectLimitKind) (limit consumed amount : Z)
    (reference : ObjectRef) (offset : option Z) : result ObjectError Z :=
  let refused := ObjectError_resource kind limit consumed amount (Some reference) offset in
  total ← require (checked_add u64_max consumed amount) refused;
  fail_if (limit <? total) refused;;
  mret total.

Definition charge_read (stats : ObjectStats) (caps : ObjectWorkCaps) (amount : Z)
    (reference : ObjectRef) (offset : option Z) : result ObjectError ObjectStats :=
  total ← charge_total_bytes TotalReadBytes (caps_max_read_bytes caps) (os_read_bytes stats)
    amount reference offset;
  mret (set_read_bytes total stats).

Definition charge_parse (stats : ObjectStats) (caps : ObjectWorkCaps) (amount : Z)
    (reference : ObjectRef) (offset : option Z) : result ObjectError ObjectStats :=
  total ← charge_total_bytes TotalParseBytes (caps_max_parse_bytes caps) (os_parse_bytes stats)
    amount reference offset;
  mret (set_parse_bytes total stats).

(** The cap for the next parser, with the offset of an internal error. *)
Definition remaining_retained_bytes (caps : ObjectWorkCaps) (retained_heap_bytes : Z)
    (target : IndirectObjectTarget) (offset : option Z) : result ObjectError (option Z) :=
  match caps_max_retained_bytes caps with
  | None => mret None
  | Some limit =>
      remaining ← require (checked_sub limit retained_heap_bytes)
        (ObjectError_for_code ObjectInternalState (Some (target_reference target)) offset);
      mret (Some remaining)
  end.

Definition retained_cap_transition_is_valid (sealed replacement : option Z)
    (retained_heap_bytes : Z) : bool :=
  match sealed, replacement with
  | Some sealed, Some replacement =>
      (replacement <=? sealed) && (retained_heap_bytes <=? replacement)
  | Some _, None => false
  | None, Some replacement => retained_heap_bytes <=? replacement
  | None, None => true
  end.

Definition grow_or_fail (target : IndirectObjectTarget)
    (base current available configured_cap minimum_end : Z) (kind : ObjectLimitKind)
    : result ObjectError Z :=
  let reference := Some (target_reference target) in
  required ← require (checked_sub minimum_end base)
    (ObjectError_for_code ObjectInternalState reference (Some base));
  let cap := Z.min configured_cap available in
  if (cap <=? current) || (cap <? required) then
    if cap =? available
    then Err (ObjectError_for_code ObjectCrossesPhysicalBound reference
                (Some (target_object_upper_bound target)))
    else Err (ObjectError_resource kind configured_cap current
                (Z.max (saturating_sub required current) 1) reference (Some base))
  else
    let next := Z.min (Z.max (saturating_mul u64_max current 2) required) cap in
    fail_if (next <=? current) (ObjectError_for_code ObjectInternalState reference (Some base));;
    mret next.

Definition object_span (target : IndirectObjectTarget) (endobj_span : ByteSpan)
    : result ObjectError ByteSpan :=
  let reference := Some (target_reference target) in
  let internal := ObjectError_for_code ObjectInternalState reference
                    (Some (target_xref_offset target)) in
  fail_if (target_object_upper_bound target <? ByteSpan_end_exclusive endobj_span)
    (ObjectError_for_code ObjectCrossesPhysicalBound reference
       (Some (target_object_upper_bound target)));;
  length_ ← require (checked_sub (ByteSpan_end_exclusive endobj_span) (target_xref_offset target))
    internal;
  match ByteSpan_new (target_xref_offset target) length_ with
  | Ok span => Ok span
  | Err _ => Err internal
  end.

Definition is_object_header_boundary (byte : Z) : bool :=
  (byte =? 0) || (byte =? 9) || (byte =? 10) || (byte =? 12) || (byte =? 13) || (byte =? 32).

Record PreparedStreamEnvelope := {
  prepared_parsed : ParsedStreamEnvelope;
  prepared_data_span : ByteSpan;
  prepared_length_claim : StreamLengthClaim
}.

Inductive JobState :=
| JobEnvelope (window : Z) (charged : bool)
| JobStreamBoundary (envelope : PreparedStreamEnvelope) (window : Z) (charged : bool)
| JobComplete
| JobFailed (error : ObjectError).

Record OpenObjectJob := {
  job_target : IndirectObjectTarget;
  job_source_len : Z;
  job_context : ObjectJobContext;
  job_limits : ObjectLimits;
  job_work_caps : ObjectWorkCaps;
  job_syntax_limits : SyntaxLimits;
  job_stats : ObjectStats;
  job_state : JobState
}.
Definition set_state (x : JobState) (j : OpenObjectJob) : OpenObjectJob :=
  {| job_target := job_target j; job_source_len := job_source_len j;
     job_context := job_context j; job_limits := job_limits j;
     job_work_caps := job_work_caps j; job_syntax_limits := job_syntax_limits j;
     job_stats := job_stats j; job_state := x |}.
Definition set_stats (x : ObjectStats) (j : OpenObjectJob) : OpenObjectJob :=
  {| job_target := job_target j; job_source_len := job_source_len j;
     job_context := job_context j; job_limits := job_limits j;
     job_work_caps := job_work_caps j; job_syntax_limits := job_syntax_limits j;
     job_stats := x; job_state := job_state j |}.

(** ** Construction *)

Definition OpenObjectJob_new_with_work_caps (target : IndirectObjectTarget)
    (context : ObjectJobContext) (limits : ObjectLimits) (syntax_limits : SyntaxLimits)
    (work_caps : ObjectWorkCaps) : result ObjectError OpenObjectJob :=
  validate_common target context limits syntax_limits work_caps;;
  source_len ← require (snapshot_len (target_snapshot target))
    (ObjectError_for_code UnknownSourceLength (Some (target_reference target)) None);
  available ← available_bytes target;
  mret {| job_target := target; job_source_len := source_len; job_context := context;
          job_limits := limits; job_work_caps := work_caps;
          job_syntax_limits := syntax_limits; job_stats := ObjectStats_default;
          job_state := JobEnvelope (Z.min (ol_initial_envelope_bytes limits) available) false |}.

Definition OpenObjectJob_new (target : IndirectObjectTarget) (context : ObjectJobContext)
    (limits : ObjectLimits) (syntax_limits : SyntaxLimits) : result ObjectError OpenObjectJob :=
  OpenObjectJob_new_with_work_caps target context limits syntax_limits
    (ObjectWorkCaps_from_limits limits).

Definition OpenObjectJob_phase (j : OpenObjectJob) : ObjectPhase :=
  match job_state j with
  | JobEnvelope _ _ => EnvelopePhase
  | JobStreamBoundary _ _ _ => StreamBoundaryPhase
  | JobComplete => CompletePhase
  | JobFailed _ => FailedPhase
  end.

(** ** Polls *)

Definition payload_span (target : IndirectObjectTarget) (limits : ObjectLimits)
    (data_start stream_length : Z) (operand_span : ByteSpan) : result ObjectError ByteSpan :=
  let reference := Some (target_reference target) in
  let operand := Some (span_start operand_span) in
  fail_if (ol_max_stream_bytes limits <? stream_length)
    (ObjectError_resource StreamBytes (ol_max_stream_bytes limits) 0 stream_length reference operand);;
  data_end ← require (checked_add u64_max data_start stream_length)
    (ObjectError_for_code InvalidStreamLength reference operand);
  fail_if (target_object_upper_bound target <=? data_end)
    (ObjectError_for_code ObjectCrossesPhysicalBound reference
       (Some (target_object_upper_bound target)));;
  match ByteSpan_new data_start stream_length with
  | Ok span => Ok span
  | Err _ => Err (ObjectError_for_code ObjectInternalState reference (Some data_start))
  end.

Section polls.
Context `{ParserRuntime} {S : Type} `{ByteSource S}.

Abbreviation Op := (JobM S OpenObjectJob ObjectPoll).

Definition job_fail {A} (error : ObjectError) : Op A :=
  fail_with (λ error, set_state (JobFailed error)) ObjectFailed error.
Definition job_fail_internal {A} (offset : option Z) : Op A :=
  j ← job;
  job_fail (ObjectError_for_code ObjectInternalState (Some (target_reference (job_target j))) offset).
(** [match r { Ok(a) => a, Err(error) => return Some(self.fail(error)) }]. *)
Definition job_try {A} (r : result ObjectError A) : Op A :=
  match r with Ok a => mret a | Err error => job_fail error end.
Definition job_some {A} (o : option A) (offset : option Z) : Op A :=
  match o with Some a => mret a | None => job_fail_internal offset end.

Definition job_charge_read (amount : Z) (offset : option Z) : Op unit :=
  j ← job;
  stats ← job_try (charge_read (job_stats j) (job_work_caps j) amount
                     (target_reference (job_target j)) offset);
  set_job (set_stats stats).

Definition job_charge_parse (amount : Z) (offset : option Z) : Op unit :=
  j ← job;
  stats ← job_try (charge_parse (job_stats j) (job_work_caps j) amount
                     (target_reference (job_target j)) offset);
  set_job (set_stats stats).

(** The first charge of a window at [start]; [attempts] counts it. *)
Definition charge_window (window : Z) (charged : bool) (start offset : Z) (state : JobState)
    (attempts : ObjectStats → Z) (set_attempts : Z → ObjectStats → ObjectStats) : Op unit :=
  if charged then mret tt
  else
    job_charge_read window (Some start);;
    j ← job;
    value ← job_some (checked_add u64_max (attempts (job_stats j)) 1) (Some offset);
    set_job (set_stats (set_attempts value (job_stats j)));;
    set_job (set_state state).

(** The slice of a window, or the poll that is returned without it. *)
Definition read_window (range : ByteRange) (checkpoint offset : Z) : Op ByteSlice :=
  j ← job;
  let reference := Some (target_reference (job_target j)) in
  polled ← poll_source {| request_range := range;
                          request_priority := context_priority (job_context j);
                          request_job := context_job (job_context j);
                          request_checkpoint := checkpoint |};
  match polled with
  | PollPending ticket missing => answer (ObjectPending ticket missing checkpoint)
  | PollEndOfFile =>
      job_fail (ObjectError_for_code UnexpectedEndOfSource reference (Some offset))
  | PollFailed error => job_fail (from_source error reference (Some offset))
  | PollReady bytes =>
      job_try (validate_slice bytes range (job_target j));;
      mret bytes
  end.

(** [ByteRange::new(start, window)], within the bound of the target. *)
Definition window_range (start window offset : Z) : Op ByteRange :=
  j ← job;
  match ByteRange_new start window with
  | Ok range =>
      if ByteRange_end_exclusive range <=? target_object_upper_bound (job_target j)
      then mret range else job_fail_internal (Some offset)
  | Err _ => job_fail_internal (Some offset)
  end.

Definition fail_if_cancelled (offset : option Z) : Op unit :=
  j ← job;
  cancelled ← is_cancelled;
  if cancelled : bool
  then job_fail (ObjectError_for_code ObjectCancelled (Some (target_reference (job_target j))) offset)
  else mret tt.

(** [EnvelopeParse::Direct]. *)
Definition complete_direct (parsed : ParsedDirect) : Op (option ObjectPoll) :=
  j ← job;
  fail_if_cancelled (Some (span_start (pd_endobj_span parsed)));;
  span ← job_try (object_span (job_target j) (pd_endobj_span parsed));
  set_job (set_stats (set_retained_heap_bytes (pd_retained_heap_bytes parsed) (job_stats j)));;
  set_job (set_state JobComplete);;
  mret (Some (ObjectReady
    (IndirectObject_new (job_target j) (pd_header_span parsed) span (pd_endobj_span parsed)
       (pd_retained_heap_bytes parsed) (Direct (pd_value parsed))))).

(** [EnvelopeParse::Stream]: on to the boundary. *)
Definition prepare_stream (envelope : ParsedStreamEnvelope) : Op (option ObjectPoll) :=
  j ← job;
  let target := job_target j in
  let reference := Some (target_reference target) in
  match pe_declared_length envelope with
  | IndirectLength _ span =>
      job_fail (ObjectError_for_code UnsupportedIndirectLength reference (Some (span_start span)))
  | DirectLength value span =>
      data_span ← job_try (payload_span target (job_limits j) (pe_data_start envelope) value span);
      let data_end := ByteSpan_end_exclusive data_span in
      let bound := target_object_upper_bound target in
      match checked_sub bound data_end with
      | Some (Zpos _ as remaining) =>
          set_job (set_stats (set_retained_heap_bytes (pe_retained_heap_bytes envelope)
                                (set_declared_stream_bytes (span_len data_span) (job_stats j))));;
          set_job (set_state (JobStreamBoundary
            {| prepared_parsed := envelope; prepared_data_span := data_span;
               prepared_length_claim :=
                 StreamLengthClaim_direct (target_snapshot target) (target_reference target)
                   (pe_declared_length envelope) value |}
            (Z.min (ol_initial_boundary_bytes (job_limits j)) remaining) false));;
          mret None
      | _ => job_fail (ObjectError_for_code ObjectCrossesPhysicalBound reference (Some bound))
      end
  end.

Definition poll_envelope (window : Z) (charged : bool) : Op (option ObjectPoll) :=
  j ← job;
  let target := job_target j in
  let object_start := target_xref_offset target in
  let prefix := prefix_bytes target in
  let bound := target_object_upper_bound target in
  range_start ← job_some (checked_sub object_start prefix) (Some object_start);
  range ← window_range range_start window object_start;
  charge_window window charged range_start object_start (JobEnvelope window true)
    os_envelope_attempts set_envelope_attempts;;
  bytes ← read_window range (context_envelope_checkpoint (job_context j)) object_start;
  job_charge_parse window (Some range_start);;
  prefix_len ← job_some (try_from usize_max prefix) (Some object_start);
  ok ← (if prefix_len =? 0 then mret true
        else first ← ok_or (head (slice_bytes bytes)) Panicked;
             mret (is_object_header_boundary first));
  if negb ok
  then job_fail (ObjectError_for_code InvalidObjectHeader (Some (target_reference target))
                   (Some object_start))
  else
    parsed ← attempt (parse_envelope
      {| ec_source := snapshot_identity (target_snapshot target);
         ec_reference := target_reference target; ec_xref_offset := object_start;
         ec_object_upper_bound := bound; ec_allow_indirect_length := false;
         ec_syntax_limits := job_syntax_limits j;
         ec_max_retained_bytes := caps_max_retained_bytes (job_work_caps j) |}
      (drop (Z.to_nat prefix_len) (slice_bytes bytes)) MayContinue);
    match parsed with
    | Ok (EnvelopeDirect parsed) => complete_direct parsed
    | Ok (EnvelopeStream envelope) => prepare_stream envelope
    | Ok (EnvelopeNeedMore minimum_end) =>
        available ← job_some (checked_sub bound range_start) (Some object_start);
        next ← job_try (grow_or_fail target range_start window available
                          (ol_max_envelope_bytes (job_limits j)) minimum_end EnvelopeBytes);
        set_job (set_state (JobEnvelope next false));;
        mret None
    | Err error => job_fail error
    end.

(** [BoundaryParse::Complete], for the envelope of the state. *)
Definition complete_stream (envelope : PreparedStreamEnvelope) (boundary : ParsedBoundary)
    : Op (option ObjectPoll) :=
  j ← job;
  fail_if_cancelled (Some (span_start (pb_endobj_span boundary)));;
  span ← job_try (object_span (job_target j) (pb_endobj_span boundary));
  set_job (set_state JobComplete);;
  let parsed := prepared_parsed envelope in
  mret (Some (ObjectReady
    (IndirectObject_new (job_target j) (pe_header_span parsed) span (pb_endobj_span boundary)
       (pe_retained_heap_bytes parsed)
       (Stream {| stream_dictionary := pe_dictionary parsed;
                  stream_length_claim := prepared_length_claim envelope;
                  stream_keyword_span := pe_stream_keyword_span parsed;
                  stream_line_ending_span := pe_stream_line_ending_span parsed;
                  stream_data_span := prepared_data_span envelope;
                  stream_data_delimiter_span := pb_data_delimiter_span boundary;
                  stream_endstream_span := pb_endstream_span boundary |})))).

Definition poll_boundary (envelope : PreparedStreamEnvelope) (window : Z) (charged : bool)
    : Op (option ObjectPoll) :=
  j ← job;
  let target := job_target j in
  let bound := target_object_upper_bound target in
  let data_end := ByteSpan_end_exclusive (prepared_data_span envelope) in
  range ← window_range data_end window data_end;
  charge_window window charged data_end data_end (JobStreamBoundary envelope window true)
    os_boundary_attempts set_boundary_attempts;;
  bytes ← read_window range (context_boundary_checkpoint (job_context j)) data_end;
  job_charge_parse window (Some data_end);;
  charged_job ← job;
  remaining ← job_try (remaining_retained_bytes (job_work_caps j)
                         (os_retained_heap_bytes (job_stats charged_job)) target None);
  parsed ← attempt (parse_boundary
    {| bc_source := snapshot_identity (target_snapshot target);
       bc_reference := target_reference target; bc_data_end := data_end;
       bc_syntax_limits := job_syntax_limits j; bc_max_retained_bytes := remaining |}
    (slice_bytes bytes) MayContinue);
  match parsed with
  | Ok (BoundaryComplete boundary) => complete_stream envelope boundary
  | Ok (BoundaryNeedMore minimum_end) =>
      available ← job_some (checked_sub bound data_end) (Some data_end);
      next ← job_try (grow_or_fail target data_end window available
                        (ol_max_boundary_bytes (job_limits j)) minimum_end BoundaryBytes);
      set_job (set_state (JobStreamBoundary envelope next false));;
      mret None
  | Err error => job_fail error
  end.

(** One round of the loop of [poll]. *)
Definition poll_step : Op (option ObjectPoll) :=
  j ← job;
  let reference := Some (target_reference (job_target j)) in
  current ← snapshot;
  if negb (bool_decide (current = target_snapshot (job_target j)))
  then job_fail (ObjectError_for_code SnapshotMismatch reference None)
  else
    fail_if_cancelled None;;
    match job_state j with
    | JobEnvelope window charged => poll_envelope window charged
    | JobStreamBoundary envelope window charged => poll_boundary envelope window charged
    | JobComplete => answer (ObjectFailed (ObjectError_for_code JobAlreadyComplete reference None))
    | JobFailed error => answer (ObjectFailed error)
    end.

(** The loop; running out of fuel is a panic. *)
Fixpoint poll_loop (fuel : nat) : Op ObjectPoll :=
  match fuel with
  | O => throw Panicked
  | Datatypes.S fuel =>
      outcome ← poll_step;
      match outcome with Some poll => mret poll | None => poll_loop fuel end
  end.

(** A window at least doubles or reaches its cap, which is below 2^27. *)
Definition poll_fuel : nat := 64.

Definition OpenObjectJob_poll_inner : Op ObjectPoll :=
  j ← job;
  match job_state j with
  | JobFailed error => answer (ObjectFailed error)
  | JobComplete =>
      answer (ObjectFailed (ObjectError_for_code JobAlreadyComplete
                              (Some (target_reference (job_target j))) None))
  | JobEnvelope _ _ | JobStreamBoundary _ _ _ => poll_loop poll_fuel
  end.

(** The poll of a job in its world: [None] is a panic. *)
Definition OpenObjectJob_poll (r : JobRun S OpenObjectJob)
    : JobRun S OpenObjectJob * option ObjectPoll :=
  match OpenObjectJob_poll_inner r with
  | (r', Ok poll) | (r', Err (Rejected poll)) => (r', Some poll)
  | (r', Err Panicked) => (r', None)
  end.
End polls.
