(* ===== verification/ObjectStaged.v ===== *)
(** * The staged object jobs ([pdf-rs/object/src/staged.rs])

    An envelope job stops once the envelope is decided. A boundary job takes a
    stream envelope with a claim of its length, direct or resolved, and validates
    the framing at the claimed end. *)

From stdpp Require Import base list numbers option strings.
From S2P Require Import Prelude.
From S2P Require Import SourceTypes.
From S2P Require Import SyntaxTypes.
From S2P Require Import RangeTypes.
From S2P Require Import SyntaxState.
From S2P Require Import DocumentTypes.
From S2P Require Import ObjectTypes.
From S2P Require Import ObjectParser.
From S2P Require Import ObjectJob.

(** ** The envelope job *)

Inductive ObjectEnvelopePoll :=
| EnvelopeDirectObject (object : IndirectObject)
| EnvelopeStreamObject (envelope : StreamEnvelope)
| EnvelopePending (ticket : DataTicket) (missing : SmallRanges) (checkpoint : Z)
| EnvelopeFailed (error : ObjectError).

Inductive EnvelopeJobState :=
| EnvelopeReading (window : Z) (charged : bool)
| EnvelopeComplete
| EnvelopeJobFailed (error : ObjectError).

Record OpenObjectEnvelopeJob := {
  ej_target : IndirectObjectTarget;
  ej_source_len : Z;
  ej_context : ObjectJobContext;
  ej_limits : ObjectLimits;
  ej_work_caps : ObjectWorkCaps;
  ej_syntax_limits : SyntaxLimits;
  ej_stats : ObjectStats;
  ej_state : EnvelopeJobState
}.
Definition set_ej_state (x : EnvelopeJobState) (j : OpenObjectEnvelopeJob) : OpenObjectEnvelopeJob :=
  {| ej_target := ej_target j; ej_source_len := ej_source_len j; ej_context := ej_context j;
     ej_limits := ej_limits j; ej_work_caps := ej_work_caps j;
     ej_syntax_limits := ej_syntax_limits j; ej_stats := ej_stats j; ej_state := x |}.
Definition set_ej_stats (x : ObjectStats) (j : OpenObjectEnvelopeJob) : OpenObjectEnvelopeJob :=
  {| ej_target := ej_target j; ej_source_len := ej_source_len j; ej_context := ej_context j;
     ej_limits := ej_limits j; ej_work_caps := ej_work_caps j;
     ej_syntax_limits := ej_syntax_limits j; ej_stats := x; ej_state := ej_state j |}.

Definition OpenObjectEnvelopeJob_new_with_work_caps (target : IndirectObjectTarget)
    (context : ObjectJobContext) (limits : ObjectLimits) (syntax_limits : SyntaxLimits)
    (work_caps : ObjectWorkCaps) : result ObjectError OpenObjectEnvelopeJob :=
  validate_common target context limits syntax_limits work_caps;;
  source_len ← require (snapshot_len (target_snapshot target))
    (ObjectError_for_code UnknownSourceLength (Some (target_reference target)) None);
  available ← available_bytes target;
  mret {| ej_target := target; ej_source_len := source_len; ej_context := context;
          ej_limits := limits; ej_work_caps := work_caps; ej_syntax_limits := syntax_limits;
          ej_stats := ObjectStats_default;
          ej_state := EnvelopeReading (Z.min (ol_initial_envelope_bytes limits) available) false |}.

Definition OpenObjectEnvelopeJob_new (target : IndirectObjectTarget) (context : ObjectJobContext)
    (limits : ObjectLimits) (syntax_limits : SyntaxLimits)
    : result ObjectError OpenObjectEnvelopeJob :=
  OpenObjectEnvelopeJob_new_with_work_caps target context limits syntax_limits
    (ObjectWorkCaps_from_limits limits).

Definition OpenObjectEnvelopeJob_phase (j : OpenObjectEnvelopeJob) : ObjectPhase :=
  match ej_state j with
  | EnvelopeReading _ _ => EnvelopePhase
  | EnvelopeComplete => CompletePhase
  | EnvelopeJobFailed _ => FailedPhase
  end.

Section envelope_job.
Context `{ParserRuntime} {S : Type} `{ByteSource S}.

Abbreviation Op := (JobM S OpenObjectEnvelopeJob ObjectEnvelopePoll).

Definition ej_fail {A} (error : ObjectError) : Op A :=
  fail_with (λ error, set_ej_state (EnvelopeJobFailed error)) EnvelopeFailed error.
Definition ej_fail_code {A} (code : ObjectErrorCode) (offset : option Z) : Op A :=
  j ← job;
  ej_fail (ObjectError_for_code code (Some (target_reference (ej_target j))) offset).
Definition ej_fail_internal {A} (offset : option Z) : Op A :=
  ej_fail_code ObjectInternalState offset.
Definition ej_try {A} (r : result ObjectError A) : Op A :=
  match r with Ok a => mret a | Err error => ej_fail error end.
Definition ej_some {A} (o : option A) (offset : option Z) : Op A :=
  match o with Some a => mret a | None => ej_fail_internal offset end.

(** [None] polls again, with the next window. *)
Definition parse_ready (bytes : ByteSlice) (range : ByteRange) (range_start window : Z)
    : Op (option ObjectEnvelopePoll) :=
  j ← job;
  let target := ej_target j in
  let reference := target_reference target in
  let object_start := target_xref_offset target in
  let bound := target_object_upper_bound target in
  ej_try (validate_slice bytes range target);;
  stats ← ej_try (charge_parse (ej_stats j) (ej_work_caps j) window reference (Some range_start));
  set_job (set_ej_stats stats);;
  prefix_len ← ej_some (try_from usize_max (prefix_bytes target)) (Some object_start);
  ok ← (if prefix_len =? 0 then mret true
        else first ← ok_or (head (slice_bytes bytes)) Panicked;
             mret (is_object_header_boundary first));
  if negb ok then ej_fail_code InvalidObjectHeader (Some object_start)
  else
    parsed ← attempt (parse_envelope
      {| ec_source := snapshot_identity (target_snapshot target);
         ec_reference := reference; ec_xref_offset := object_start;
         ec_object_upper_bound := bound; ec_allow_indirect_length := true;
         ec_syntax_limits := ej_syntax_limits j;
         ec_max_retained_bytes := caps_max_retained_bytes (ej_work_caps j) |}
      (drop (Z.to_nat prefix_len) (slice_bytes bytes)) MayContinue);
    match parsed with
    | Ok (EnvelopeDirect parsed) =>
        cancelled ← is_cancelled;
        if cancelled : bool
        then ej_fail_code ObjectCancelled (Some (span_start (pd_endobj_span parsed)))
        else
          span ← ej_try (object_span target (pd_endobj_span parsed));
          set_job (set_ej_stats (set_retained_heap_bytes (pd_retained_heap_bytes parsed) stats));;
          set_job (set_ej_state EnvelopeComplete);;
          mret (Some (EnvelopeDirectObject
            (IndirectObject_new target (pd_header_span parsed) span (pd_endobj_span parsed)
               (pd_retained_heap_bytes parsed) (Direct (pd_value parsed)))))
    | Ok (EnvelopeStream parsed) =>
        cancelled ← is_cancelled;
        if cancelled : bool
        then ej_fail_code ObjectCancelled (Some (span_start (pe_stream_keyword_span parsed)))
        else
          let stats :=
            set_retained_heap_bytes (pe_retained_heap_bytes parsed)
              (set_declared_stream_bytes (default 0 (direct_value (pe_declared_length parsed)))
                 stats) in
          set_job (set_ej_stats stats);;
          set_job (set_ej_state EnvelopeComplete);;
          mret (Some (EnvelopeStreamObject
            {| envelope_target := target; envelope_header_span := pe_header_span parsed;
               envelope_dictionary := pe_dictionary parsed;
               envelope_declared_length := pe_declared_length parsed;
               envelope_stream_keyword_span := pe_stream_keyword_span parsed;
               envelope_stream_line_ending_span := pe_stream_line_ending_span parsed;
               envelope_data_start := pe_data_start parsed;
               envelope_retained_heap_bytes := pe_retained_heap_bytes parsed;
               envelope_context := ej_context j; envelope_limits := ej_limits j;
               envelope_work_caps := ej_work_caps j;
               envelope_syntax_limits := ej_syntax_limits j; envelope_stats := stats |}))
    | Ok (EnvelopeNeedMore minimum_end) =>
        available ← ej_some (checked_sub bound range_start) (Some range_start);
        next ← ej_try (grow_or_fail target range_start window available
                         (ol_max_envelope_bytes (ej_limits j)) minimum_end EnvelopeBytes);
        set_job (set_ej_state (EnvelopeReading next false));;
        mret None
    | Err error => ej_fail error
    end.

Definition poll_read (window : Z) (charged : bool) : Op (option ObjectEnvelopePoll) :=
  j ← job;
  let target := ej_target j in
  let object_start := target_xref_offset target in
  range_start ← ej_some (checked_sub object_start (prefix_bytes target)) (Some object_start);
  range ← match ByteRange_new range_start window with
          | Ok range => mret range
          | Err _ => ej_fail_internal (Some range_start)
          end;
  if target_object_upper_bound target <? ByteRange_end_exclusive range
  then ej_fail_internal (Some range_start)
  else
    (if charged then mret tt
     else
       stats ← ej_try (charge_read (ej_stats j) (ej_work_caps j) window (target_reference target)
                         (Some range_start));
       set_job (set_ej_stats stats);;
       attempts ← ej_some (checked_add u64_max (os_envelope_attempts stats) 1) (Some range_start);
       set_job (set_ej_stats (set_envelope_attempts attempts stats));;
       set_job (set_ej_state (EnvelopeReading window true)));;
    let checkpoint := context_envelope_checkpoint (ej_context j) in
    polled ← poll_source {| request_range := range;
                            request_priority := context_priority (ej_context j);
                            request_job := context_job (ej_context j);
                            request_checkpoint := checkpoint |};
    match polled with
    | PollPending ticket missing => answer (EnvelopePending ticket missing checkpoint)
    | PollEndOfFile => ej_fail_code UnexpectedEndOfSource (Some object_start)
    | PollFailed error =>
        ej_fail (from_source error (Some (target_reference target)) (Some object_start))
    | PollReady bytes => parse_ready bytes range range_start window
    end.

(** [poll], which calls itself with the next window. *)
Fixpoint ej_poll_loop (fuel : nat) : Op ObjectEnvelopePoll :=
  match fuel with
  | O => throw Panicked
  | Datatypes.S fuel =>
      j ← job;
      match ej_state j with
      | EnvelopeReading window charged =>
          current ← snapshot;
          if negb (bool_decide (current = target_snapshot (ej_target j)))
          then ej_fail_code SnapshotMismatch None
          else
            cancelled ← is_cancelled;
            if cancelled : bool then ej_fail_code ObjectCancelled None
            else
              outcome ← poll_read window charged;
              match outcome with Some poll => mret poll | None => ej_poll_loop fuel end
      | EnvelopeComplete =>
          answer (EnvelopeFailed (ObjectError_for_code JobAlreadyComplete
                                    (Some (target_reference (ej_target j))) None))
      | EnvelopeJobFailed error => answer (EnvelopeFailed error)
      end
  end.

(** A window at least doubles or reaches its cap, which is at most 2^26. *)
Definition envelope_poll_fuel : nat := 32.

Definition OpenObjectEnvelopeJob_poll (r : JobRun S OpenObjectEnvelopeJob)
    : JobRun S OpenObjectEnvelopeJob * option ObjectEnvelopePoll :=
  match ej_poll_loop envelope_poll_fuel r with
  | (r', Ok poll) | (r', Err (Rejected poll)) => (r', Some poll)
  | (r', Err Panicked) => (r', None)
  end.
End envelope_job.

(** ** The boundary job *)

Inductive BoundaryJobState :=
| BoundaryReading (envelope : StreamEnvelope) (data_span : ByteSpan) (window : Z) (charged : bool)
| BoundaryJobComplete
| BoundaryJobFailed (error : ObjectError).

Record OpenStreamBoundaryJob := {
  bj_target : IndirectObjectTarget;
  bj_source_len : Z;
  bj_context : ObjectJobContext;
  bj_limits : ObjectLimits;
  bj_work_caps : ObjectWorkCaps;
  bj_syntax_limits : SyntaxLimits;
  bj_length_claim : StreamLengthClaim;
  bj_stats : ObjectStats;
  bj_state : BoundaryJobState
}.
Definition set_bj_state (x : BoundaryJobState) (j : OpenStreamBoundaryJob) : OpenStreamBoundaryJob :=
  {| bj_target := bj_target j; bj_source_len := bj_source_len j; bj_context := bj_context j;
     bj_limits := bj_limits j; bj_work_caps := bj_work_caps j;
     bj_syntax_limits := bj_syntax_limits j; bj_length_claim := bj_length_claim j;
     bj_stats := bj_stats j; bj_state := x |}.
Definition set_bj_stats (x : ObjectStats) (j : OpenStreamBoundaryJob) : OpenStreamBoundaryJob :=
  {| bj_target := bj_target j; bj_source_len := bj_source_len j; bj_context := bj_context j;
     bj_limits := bj_limits j; bj_work_caps := bj_work_caps j;
     bj_syntax_limits := bj_syntax_limits j; bj_length_claim := bj_length_claim j;
     bj_stats := x; bj_state := bj_state j |}.

(** Whether a claim is for this envelope and fits its declaration. *)
Definition claim_matches (envelope : StreamEnvelope) (claim : StreamLengthClaim) : bool :=
  bool_decide (claim_snapshot claim = target_snapshot (envelope_target envelope)) &&
  bool_decide (claim_owner claim = target_reference (envelope_target envelope)) &&
  bool_decide (claim_declaration claim = envelope_declared_length envelope) &&
  match envelope_declared_length envelope, claim_resolved_value_span claim with
  | DirectLength value _, None => claim_value claim =? value
  | DirectLength _ _, Some _ => false
  | IndirectLength _ _, Some _ => true
  | IndirectLength _ _, None => false
  end.

Definition OpenStreamBoundaryJob_new_with_work_caps (envelope : StreamEnvelope)
    (length_claim : StreamLengthClaim) (work_caps : ObjectWorkCaps)
    : result ObjectError OpenStreamBoundaryJob :=
  let target := envelope_target envelope in
  let reference := Some (target_reference target) in
  let limits := envelope_limits envelope in
  let sealed_caps := envelope_work_caps envelope in
  let stats := envelope_stats envelope in
  let operand := Some (span_start (operand_span (envelope_declared_length envelope))) in
  let bound := target_object_upper_bound target in
  fail_if ((caps_max_read_bytes sealed_caps <? caps_max_read_bytes work_caps)
           || (caps_max_parse_bytes sealed_caps <? caps_max_parse_bytes work_caps)
           || (caps_max_read_bytes work_caps <? os_read_bytes stats)
           || (caps_max_parse_bytes work_caps <? os_parse_bytes stats)
           || negb (retained_cap_transition_is_valid (caps_max_retained_bytes sealed_caps)
                      (caps_max_retained_bytes work_caps) (os_retained_heap_bytes stats)))
    (ObjectError_for_code ObjectInvalidLimits reference (Some (target_xref_offset target)));;
  validate_common target (envelope_context envelope) limits (envelope_syntax_limits envelope)
    work_caps;;
  fail_if (negb (claim_matches envelope length_claim)) (invalid_claim envelope);;
  fail_if (ol_max_stream_bytes limits <? claim_value length_claim)
    (ObjectError_resource StreamBytes (ol_max_stream_bytes limits) 0 (claim_value length_claim)
       reference operand);;
  data_end ← require (checked_add u64_max (envelope_data_start envelope) (claim_value length_claim))
    (ObjectError_for_code InvalidStreamLength reference operand);
  fail_if (bound <=? data_end) (ObjectError_for_code ObjectCrossesPhysicalBound reference (Some bound));;
  data_span ← match ByteSpan_new (envelope_data_start envelope) (claim_value length_claim) with
              | Ok span => Ok span
              | Err _ => Err (ObjectError_for_code ObjectInternalState reference
                                (Some (envelope_data_start envelope)))
              end;
  remaining ← require (checked_sub bound data_end)
    (ObjectError_for_code ObjectInternalState reference (Some data_end));
  source_len ← require (snapshot_len (target_snapshot target))
    (ObjectError_for_code UnknownSourceLength reference None);
  mret {| bj_target := target; bj_source_len := source_len;
          bj_context := envelope_context envelope; bj_limits := limits;
          bj_work_caps := work_caps; bj_syntax_limits := envelope_syntax_limits envelope;
          bj_length_claim := length_claim;
          bj_stats := set_declared_stream_bytes (claim_value length_claim) stats;
          bj_state := BoundaryReading envelope data_span
                        (Z.min (ol_initial_boundary_bytes limits) remaining) false |}.

Definition OpenStreamBoundaryJob_new (envelope : StreamEnvelope)
    (length_claim : StreamLengthClaim) : result ObjectError OpenStreamBoundaryJob :=
  OpenStreamBoundaryJob_new_with_work_caps envelope length_claim (envelope_work_caps envelope).

Definition OpenStreamBoundaryJob_phase (j : OpenStreamBoundaryJob) : ObjectPhase :=
  match bj_state j with
  | BoundaryReading _ _ _ _ => StreamBoundaryPhase
  | BoundaryJobComplete => CompletePhase
  | BoundaryJobFailed _ => FailedPhase
  end.

Section boundary_job.
Context `{ParserRuntime} {S : Type} `{ByteSource S}.

Abbreviation Op := (JobM S OpenStreamBoundaryJob ObjectPoll).

Definition bj_fail {A} (error : ObjectError) : Op A :=
  fail_with (λ error, set_bj_state (BoundaryJobFailed error)) ObjectFailed error.
Definition bj_fail_code {A} (code : ObjectErrorCode) (offset : option Z) : Op A :=
  j ← job;
  bj_fail (ObjectError_for_code code (Some (target_reference (bj_target j))) offset).
Definition bj_fail_internal {A} (offset : option Z) : Op A :=
  bj_fail_code ObjectInternalState offset.
Definition bj_try {A} (r : result ObjectError A) : Op A :=
  match r with Ok a => mret a | Err error => bj_fail error end.
Definition bj_some {A} (o : option A) (offset : option Z) : Op A :=
  match o with Some a => mret a | None => bj_fail_internal offset end.

(** [ReadPoll::Ready]: [None] polls again, with the next window. *)
Definition parse_boundary_ready (envelope : StreamEnvelope) (data_span : ByteSpan)
    (bytes : ByteSlice) (range : ByteRange) (window : Z) : Op (option ObjectPoll) :=
  j ← job;
  let target := bj_target j in
  let bound := target_object_upper_bound target in
  let data_end := ByteSpan_end_exclusive data_span in
  bj_try (validate_slice bytes range target);;
  stats ← bj_try (charge_parse (bj_stats j) (bj_work_caps j) window (target_reference target)
                    (Some data_end));
  set_job (set_bj_stats stats);;
  remaining ← bj_try (remaining_retained_bytes (bj_work_caps j) (os_retained_heap_bytes stats)
                        target (Some (target_xref_offset target)));
  parsed ← attempt (parse_boundary
    {| bc_source := snapshot_identity (target_snapshot target);
       bc_reference := target_reference target; bc_data_end := data_end;
       bc_syntax_limits := bj_syntax_limits j; bc_max_retained_bytes := remaining |}
    (slice_bytes bytes) MayContinue);
  match parsed with
  | Ok (BoundaryComplete boundary) =>
      cancelled ← is_cancelled;
      if cancelled : bool
      then bj_fail_code ObjectCancelled (Some (span_start (pb_endobj_span boundary)))
      else
        span ← bj_try (object_span target (pb_endobj_span boundary));
        set_job (set_bj_state BoundaryJobComplete);;
        mret (Some (ObjectReady
          (IndirectObject_new target (envelope_header_span envelope) span
             (pb_endobj_span boundary) (envelope_retained_heap_bytes envelope)
             (Stream {| stream_dictionary := envelope_dictionary envelope;
                        stream_length_claim := bj_length_claim j;
                        stream_keyword_span := envelope_stream_keyword_span envelope;
                        stream_line_ending_span := envelope_stream_line_ending_span envelope;
                        stream_data_span := data_span;
                        stream_data_delimiter_span := pb_data_delimiter_span boundary;
                        stream_endstream_span := pb_endstream_span boundary |}))))
  | Ok (BoundaryNeedMore minimum_end) =>
      available ← bj_some (checked_sub bound data_end) (Some data_end);
      next ← bj_try (grow_or_fail target data_end window available
                       (ol_max_boundary_bytes (bj_limits j)) minimum_end BoundaryBytes);
      set_job (set_bj_state (BoundaryReading envelope data_span next false));;
      mret None
  | Err error => bj_fail error
  end.

Definition bj_read (envelope : StreamEnvelope) (data_span : ByteSpan) (window : Z) (charged : bool)
    : Op (option ObjectPoll) :=
  j ← job;
  let target := bj_target j in
  let data_end := ByteSpan_end_exclusive data_span in
  range ← match ByteRange_new data_end window with
          | Ok range => mret range
          | Err _ => bj_fail_internal (Some data_end)
          end;
  if target_object_upper_bound target <? ByteRange_end_exclusive range
  then bj_fail_internal (Some data_end)
  else
    (if charged then mret tt
     else
       stats ← bj_try (charge_read (bj_stats j) (bj_work_caps j) window (target_reference target)
                         (Some data_end));
       set_job (set_bj_stats stats);;
       attempts ← bj_some (checked_add u64_max (os_boundary_attempts stats) 1) (Some data_end);
       set_job (set_bj_stats (set_boundary_attempts attempts stats));;
       set_job (set_bj_state (BoundaryReading envelope data_span window true)));;
    let checkpoint := context_boundary_checkpoint (bj_context j) in
    polled ← poll_source {| request_range := range;
                            request_priority := context_priority (bj_context j);
                            request_job := context_job (bj_context j);
                            request_checkpoint := checkpoint |};
    match polled with
    | PollPending ticket missing => answer (ObjectPending ticket missing checkpoint)
    | PollEndOfFile => bj_fail_code UnexpectedEndOfSource (Some data_end)
    | PollFailed error =>
        bj_fail (from_source error (Some (target_reference target)) (Some data_end))
    | PollReady bytes => parse_boundary_ready envelope data_span bytes range window
    end.

Fixpoint bj_poll_loop (fuel : nat) : Op ObjectPoll :=
  match fuel with
  | O => throw Panicked
  | Datatypes.S fuel =>
      j ← job;
      match bj_state j with
      | BoundaryReading envelope data_span window charged =>
          current ← snapshot;
          if negb (bool_decide (current = target_snapshot (bj_target j)))
          then bj_fail_code SnapshotMismatch None
          else
            cancelled ← is_cancelled;
            if cancelled : bool then bj_fail_code ObjectCancelled None
            else
              outcome ← bj_read envelope data_span window charged;
              match outcome with Some poll => mret poll | None => bj_poll_loop fuel end
      | BoundaryJobComplete =>
          answer (ObjectFailed (ObjectError_for_code JobAlreadyComplete
                                  (Some (target_reference (bj_target j))) None))
      | BoundaryJobFailed error => answer (ObjectFailed error)
      end
  end.

(** A window at least doubles or reaches its cap, which is at most 2^22. *)
Definition boundary_poll_fuel : nat := 32.

Definition OpenStreamBoundaryJob_poll (r : JobRun S OpenStreamBoundaryJob)
    : JobRun S OpenStreamBoundaryJob * option ObjectPoll :=
  match bj_poll_loop boundary_poll_fuel r with
  | (r', Ok poll) | (r', Err (Rejected poll)) => (r', Some poll)
  | (r', Err Panicked) => (r', None)
  end.
End boundary_job.
