(* ===== verification/ObjectReader.v ===== *)
(** * A reference reader of indirect objects

    What the bytes of an object denote, as pure functions of all the bytes up to
    its bound: [None] while they decide nothing, an error that they decide, or what
    is framed. Only the retained heap bytes come from the allocator. *)

From stdpp Require Import base list numbers option strings.
From S2P Require Import Prelude.
From S2P Require Import SourceTypes.
From S2P Require Import SyntaxTypes.
From S2P Require Import RangeTypes.
From S2P Require Import SyntaxState.
From S2P Require Import SyntaxLexer.
From S2P Require Import SyntaxParser.
From S2P Require Import SyntaxReader.
From S2P Require Import SyntaxTrivia.
From S2P Require Import SyntaxObjects.
From S2P Require Import SyntaxContainers.
From S2P Require Import SyntaxMethods.
From S2P Require Import SyntaxGrowth.
From S2P Require Import DocumentTypes.
From S2P Require Import ObjectTypes.
From S2P Require Import ObjectParser.
From S2P Require Import ObjectJob.

(** A decision of bytes: none yet, an error, or a value. *)
Abbreviation decision A := (option (result ObjectError A)).

Definition dbind {A B} (d : decision A) (f : A → decision B) : decision B :=
  match d with
  | None => None
  | Some (Err e) => Some (Err e)
  | Some (Ok a) => f a
  end.

Lemma dbind_Ok {A B} (d : decision A) (f : A → decision B) b :
  dbind d f = Some (Ok b) ↔ ∃ a, d = Some (Ok a) ∧ f a = Some (Ok b).
Proof. destruct d as [[a|e]|]; naive_solver. Qed.

Lemma dbind_reads {T A B} (o : option T) (f : T → decision A) (g : A → decision B) :
  dbind (o ≫= f) g = o ≫= λ x, dbind (f x) g.
Proof. by destruct o. Qed.

(** ** Lengths *)

(** The values of the [/Length] entries of a dictionary. *)
Definition length_values (entries : PdfDictionary) : list (Located SyntaxObject) :=
  entry_value <$> filter (λ entry, key_bytes entry = "Length"%string) entries.

Lemma length_values_cons entry entries :
  length_values (entry :: entries) =
    (if decide (key_bytes entry = "Length"%string) then [entry_value entry] else [])
    ++ length_values entries.
Proof. unfold length_values. unfold filter at 1. simpl. by case_decide. Qed.

(** The declared length: that of the one [/Length]. *)
Definition read_length (reference : ObjectRef) (dictionary : Located PdfDictionary)
    : result ObjectError DeclaredStreamLength :=
  match length_values (located_value dictionary) with
  | [] => Err (ObjectError_for_code MissingStreamLength (Some reference)
                 (Some (span_start (located_span dictionary))))
  | [value] => declared_length reference value
  | _ :: second :: _ => Err (ObjectError_for_code DuplicateStreamLength (Some reference)
                               (Some (span_start (located_span second))))
  end.

(** ** Envelopes *)

Section envelope.
Variables (context : EnvelopeContext) (stop : Z).
Local Notation source := (ec_source context).
Local Notation reference := (ec_reference context).
Local Notation read_object := (read_object source stop true).
Local Notation read_keyword := (read_keyword source stop true).

Definition refuted {A} (code : ObjectErrorCode) (offset : Z) : decision A :=
  Some (Err (ObjectError_for_code code (Some reference) (Some offset))).

(** The number and generation of the reference, and [obj]. *)
Definition read_object_header (rest : list Z) : decision (ByteSpan * list Z) :=
  '(number, rest) ← read_object rest;
  if negb (span_start (located_span number) =? ec_xref_offset context)
     || negb (bool_decide (as_integer (located_value number) = Some (object_number reference)))
  then refuted InvalidObjectHeader (span_start (located_span number))
  else
    '(generation, rest) ← read_object rest;
    if negb (bool_decide (as_integer (located_value generation) =
                          Some (object_generation reference)))
    then refuted InvalidObjectHeader (span_start (located_span generation))
    else
      '(keyword, rest) ← read_keyword rest;
      if negb (bool_decide (raw_bytes keyword = octets "obj"))
      then refuted InvalidObjectHeader (span_start (raw_span keyword))
      else Some (Ok ({| span_start := ec_xref_offset context;
                        span_len := ByteSpan_end_exclusive (raw_span keyword) -
                                    ec_xref_offset context |}, rest)).

(** A dictionary, [stream] and a line ending. *)
Definition read_stream_envelope (retained : Z) (header_span : ByteSpan)
    (body : Located SyntaxObject) (terminal : RawBytes) (rest : list Z) : decision EnvelopeParse :=
  match located_value body with
  | Dictionary entries =>
      let dictionary := {| located_source := located_source body;
                           located_span := located_span body; located_value := entries |} in
      match read_length reference dictionary with
      | Err e => Some (Err e)
      | Ok declared =>
          if negb (ec_allow_indirect_length context) && bool_decide (direct_value declared = None)
          then refuted UnsupportedIndirectLength (span_start (operand_span declared))
          else
            '(line_ending, _) ← read_line_ending stop rest;
            let data_start := ByteSpan_end_exclusive line_ending in
            if ec_object_upper_bound context <=? data_start
            then refuted ObjectCrossesPhysicalBound (ec_object_upper_bound context)
            else Some (Ok (EnvelopeStream
                   {| pe_header_span := header_span; pe_dictionary := dictionary;
                      pe_declared_length := declared; pe_stream_keyword_span := raw_span terminal;
                      pe_stream_line_ending_span := line_ending; pe_data_start := data_start;
                      pe_retained_heap_bytes := retained |}))
      end
  | _ => refuted InvalidObjectEnvelope (span_start (raw_span terminal))
  end.

(** The header, the value, and [endobj] or a stream. *)
Definition read_envelope (retained : Z) (rest : list Z) : decision EnvelopeParse :=
  dbind (read_object_header rest) (λ '(header_span, rest),
    '(body, rest) ← read_object rest;
    '(terminal, rest) ← read_keyword rest;
    if bool_decide (raw_bytes terminal = octets "endobj")
    then Some (Ok (EnvelopeDirect
           {| pd_header_span := header_span; pd_value := body;
              pd_endobj_span := raw_span terminal; pd_retained_heap_bytes := retained |}))
    else if bool_decide (raw_bytes terminal = octets "stream")
    then read_stream_envelope retained header_span body terminal rest
    else refuted InvalidObjectEnvelope (span_start (raw_span terminal))).
End envelope.

(** ** Boundaries *)

(** A line ending, [endstream] right after it, and [endobj]. *)
Definition read_boundary (source : SourceIdentity) (reference : ObjectRef) (stop : Z)
    (rest : list Z) : decision ParsedBoundary :=
  let refuted offset :=
    Some (Err (ObjectError_for_code ObjectInvalidStreamBoundary (Some reference) (Some offset))) in
  '(delimiter, rest) ← read_line_ending stop rest;
  '(endstream, rest) ← read_keyword source stop true rest;
  if negb (span_start (raw_span endstream) =? ByteSpan_end_exclusive delimiter)
     || negb (bool_decide (raw_bytes endstream = octets "endstream"))
  then refuted (span_start (raw_span endstream))
  else
    '(endobj, _) ← read_keyword source stop true rest;
    if negb (bool_decide (raw_bytes endobj = octets "endobj"))
    then refuted (span_start (raw_span endobj))
    else Some (Ok {| pb_data_delimiter_span := delimiter;
                     pb_endstream_span := raw_span endstream; pb_endobj_span := raw_span endobj |}).

(** ** Growth *)

Section growth.
Variables (stop : Z) (ext : list Z).
Local Notation stop' := (stop + len ext).

Lemma read_keyword_grows source rest k r :
  read_keyword source stop true rest = Some (k, r) →
  read_keyword source stop' true (rest ++ ext) = Some (k, r ++ ext).
Proof.
  unfold read_keyword. destruct (read_trivia true false rest) as [r1|] eqn:Hr1; [|done].
  cbn [mbind option_bind]. destruct r1 as [|b l] eqn:Heq; [done|]. rewrite <-Heq in *.
  assert (r1 ≠ []) as Hne by (by subst). rewrite (read_trivia_grows _ true _ _ _ ext Hr1 Hne).
  cbn [mbind option_bind]. assert (head (r1 ++ ext) = head r1) as -> by (by subst).
  destruct (head r1); [|done]. cbn [mbind option_bind]. destruct (_ || _); [done|].
  destruct (run_of is_regular r1) as [raw r'] eqn:Hrun.
  destruct (decide (r' = [])) as [->|Hr']; [done|].
  rewrite (run_of_grows _ _ _ _ ext Hrun Hr').
  rewrite !bool_decide_eq_false_2 by (try done; by destruct r'). cbn [andb].
  intros [= <- <-]. by rewrite !offset_of_grows.
Qed.

Lemma read_line_ending_grows rest span r :
  read_line_ending stop rest = Some (span, r) →
  read_line_ending stop' (rest ++ ext) = Some (span, r ++ ext).
Proof.
  unfold read_line_ending. rewrite offset_of_grows.
  destruct rest as [|b l]; [done|]. cbn [app mbind option_bind].
  destruct (b =? 10); cbn [mbind option_bind].
  { intros [= <- <-]. by rewrite offset_of_grows. }
  destruct (b =? 13); cbn [mbind option_bind]; [|done].
  destruct l as [|b' l]; cbn [app mbind option_bind]; [done|].
  destruct (b' =? 10); cbn [mbind option_bind]; [|done].
  intros [= <- <-]. by rewrite offset_of_grows.
Qed.

Lemma read_object_header_grows context rest d :
  read_object_header context stop rest = Some d →
  read_object_header context stop' (rest ++ ext) =
    Some (match d with Ok (span, r) => Ok (span, r ++ ext) | Err e => Err e end).
Proof.
  unfold read_object_header.
  destruct (read_object _ stop true rest) as [[n r1]|] eqn:H1; [|done].
  rewrite (read_object_grows _ _ true ext _ _ _ H1). cbn [mbind option_bind].
  destruct (_ || _); [by intros [= <-]|].
  destruct (read_object _ stop true r1) as [[g r2]|] eqn:H2; [|done].
  rewrite (read_object_grows _ _ true ext _ _ _ H2). cbn [mbind option_bind].
  case_bool_decide; cbn [negb]; [|by intros [= <-]].
  destruct (read_keyword _ stop true r2) as [[k r3]|] eqn:H3; [|done].
  rewrite (read_keyword_grows _ _ _ _ H3). cbn [mbind option_bind].
  case_bool_decide; cbn [negb]; by intros [= <-].
Qed.

Lemma read_stream_envelope_grows context retained header_span body terminal rest d :
  read_stream_envelope context stop retained header_span body terminal rest = Some d →
  read_stream_envelope context stop' retained header_span body terminal (rest ++ ext) = Some d.
Proof.
  unfold read_stream_envelope. destruct (located_value body); try done.
  destruct (read_length _ _) as [declared|e]; [|done]. destruct (_ && _); [done|].
  destruct (read_line_ending stop rest) as [[span r]|] eqn:Hl; [|done].
  by rewrite (read_line_ending_grows _ _ _ Hl).
Qed.

Lemma read_envelope_grows context retained rest d :
  read_envelope context stop retained rest = Some d →
  read_envelope context stop' retained (rest ++ ext) = Some d.
Proof.
  unfold read_envelope. destruct (read_object_header context stop rest) as [h|] eqn:Hh; [|done].
  rewrite (read_object_header_grows _ _ _ Hh). destruct h as [[span r]|e]; [|done].
  cbn [dbind].
  destruct (read_object _ stop true r) as [[o r1]|] eqn:H1; [|done].
  rewrite (read_object_grows _ _ true ext _ _ _ H1). cbn [mbind option_bind].
  destruct (read_keyword _ stop true r1) as [[k r2]|] eqn:H2; [|done].
  rewrite (read_keyword_grows _ _ _ _ H2). cbn [mbind option_bind].
  case_bool_decide; [done|]. case_bool_decide; [|done]. apply read_stream_envelope_grows.
Qed.

Lemma read_boundary_grows source reference rest d :
  read_boundary source reference stop rest = Some d →
  read_boundary source reference stop' (rest ++ ext) = Some d.
Proof.
  unfold read_boundary.
  destruct (read_line_ending stop rest) as [[span r]|] eqn:Hl; [|done].
  rewrite (read_line_ending_grows _ _ _ Hl). cbn [mbind option_bind].
  destruct (read_keyword _ stop true r) as [[k r2]|] eqn:H2; [|done].
  rewrite (read_keyword_grows _ _ _ _ H2). cbn [mbind option_bind].
  destruct (_ || _); [done|].
  destruct (read_keyword _ stop true r2) as [[k' r3]|] eqn:H3; [|done].
  by rewrite (read_keyword_grows _ _ _ _ H3).
Qed.
End growth.

(** ** Places *)

Lemma read_keyword_placed source stop rest k r :
  read_keyword source stop true rest = Some (k, r) →
  ByteSpan_end_exclusive (raw_span k) = offset_of stop r ∧
  offset_of stop rest ≤ span_start (raw_span k) ∧
  span_start (raw_span k) < offset_of stop r ∧ (length r < length rest)%nat.
Proof.
  unfold read_keyword. destruct (read_trivia true false rest) as [r1|] eqn:Hr1; [|done].
  apply read_trivia_length in Hr1. cbn [mbind option_bind].
  destruct r1 as [|b l]; [done|]. cbn [head mbind option_bind].
  destruct (is_delimiter b || is_number_start b) eqn:Hb; [done|].
  destruct (run_of is_regular (b :: l)) as [raw r'] eqn:Hrun.
  destruct (_ && _); [done|]. intros [= <- <-]. simpl.
  pose proof (run_of_app _ _ _ _ Hrun) as Happ. apply orb_false_iff in Hb as [Hb _].
  assert (raw ≠ []) as Hraw.
  { intros ->. simpl in Hrun. unfold is_regular in Hrun at 1. rewrite Hb in Hrun. simpl in Hrun.
    by destruct (run_of is_regular l). }
  apply (f_equal length) in Happ. rewrite length_app in Happ. simpl in Happ, Hr1.
  destruct raw; [done|]. simpl in Happ.
  unfold ByteSpan_end_exclusive, offset_of. simpl. lia.
Qed.

Lemma read_line_ending_placed stop rest span r :
  read_line_ending stop rest = Some (span, r) →
  span_start span = offset_of stop rest ∧ ByteSpan_end_exclusive span = offset_of stop r ∧
  (length r < length rest)%nat.
Proof.
  unfold read_line_ending. destruct rest as [|b l]; [done|]. cbn [mbind option_bind].
  unfold ByteSpan_end_exclusive, offset_of.
  destruct (b =? 10); cbn [mbind option_bind].
  { intros [= <- <-]. simpl. lia. }
  destruct (b =? 13); cbn [mbind option_bind]; [|done].
  destruct l as [|b' l]; cbn [mbind option_bind]; [done|].
  destruct (b' =? 10); cbn [mbind option_bind]; [|done].
  intros [= <- <-]. simpl. lia.
Qed.

(** ** Retained bytes *)

Definition retain (n : Z) (e : EnvelopeParse) : EnvelopeParse :=
  match e with
  | EnvelopeNeedMore _ => e
  | EnvelopeDirect d =>
      EnvelopeDirect {| pd_header_span := pd_header_span d; pd_value := pd_value d;
                        pd_endobj_span := pd_endobj_span d; pd_retained_heap_bytes := n |}
  | EnvelopeStream e =>
      EnvelopeStream {| pe_header_span := pe_header_span e; pe_dictionary := pe_dictionary e;
                        pe_declared_length := pe_declared_length e;
                        pe_stream_keyword_span := pe_stream_keyword_span e;
                        pe_stream_line_ending_span := pe_stream_line_ending_span e;
                        pe_data_start := pe_data_start e; pe_retained_heap_bytes := n |}
  end.

Lemma read_envelope_retain context stop n rest :
  read_envelope context stop n rest =
  dbind (read_envelope context stop 0 rest) (λ e, Some (Ok (retain n e))).
Proof.
  unfold read_envelope. destruct (read_object_header context stop rest) as [[[span r]|e]|]; try done.
  cbn [dbind]. destruct (read_object _ stop true r) as [[o r1]|]; [|done]. cbn [mbind option_bind].
  destruct (read_keyword _ stop true r1) as [[k r2]|]; [|done]. cbn [mbind option_bind].
  case_bool_decide; [done|]. case_bool_decide; [|done]. unfold read_stream_envelope.
  destruct (located_value o); try done. destruct (read_length _ _) as [d|e]; [|done].
  destruct (_ && _); [done|]. destruct (read_line_ending stop r2) as [[l ?]|]; [|done].
  cbn [mbind option_bind]. by destruct (_ <=? _).
Qed.

(** ** What is framed *)

Lemma read_object_length source stop rest o r :
  read_object source stop true rest = Some (o, r) → (length r < length rest)%nat.
Proof.
  unfold read_object. destruct (read_token stop true rest) as [[t r']|] eqn:Ht; [|done].
  cbn [mbind option_bind]. apply read_token_length in Ht as (Hl&_).
  intros Hv. apply read_values_length in Hv. lia.
Qed.

Lemma read_object_header_placed context stop rest span r :
  read_object_header context stop rest = Some (Ok (span, r)) → (length r < length rest)%nat.
Proof.
  unfold read_object_header.
  destruct (read_object _ stop true rest) as [[n r1]|] eqn:H1; [|done].
  apply read_object_length in H1. cbn [mbind option_bind]. destruct (_ || _); [done|].
  destruct (read_object _ stop true r1) as [[g r2]|] eqn:H2; [|done].
  apply read_object_length in H2. cbn [mbind option_bind]. destruct (negb _); [done|].
  destruct (read_keyword _ stop true r2) as [[k r3]|] eqn:H3; [|done].
  apply read_keyword_placed in H3 as (_&_&_&?). cbn [mbind option_bind]. destruct (negb _); [done|].
  intros [= _ <-]. lia.
Qed.

Lemma declared_length_unsigned reference value d :
  declared_length reference value = Ok d → from_option (λ n, 0 ≤ n ≤ u64_max) True (direct_value d).
Proof.
  unfold declared_length. destruct (located_value value) as [| |n| | | | | |]; try done.
  - destruct (try_from u64_max n) as [m|] eqn:Hn; [|done]. apply try_from_Some in Hn as [Hn ->].
    by intros [= <-].
  - by intros [= <-].
Qed.

(** Where the parts of an envelope are. *)
Definition envelope_placed (context : EnvelopeContext) (stop low : Z) (e : EnvelopeParse) : Prop :=
  match e with
  | EnvelopeNeedMore _ => False
  | EnvelopeDirect d => low ≤ ByteSpan_end_exclusive (pd_endobj_span d) ≤ stop
  | EnvelopeStream e =>
      low ≤ pe_data_start e ≤ stop ∧ pe_data_start e < ec_object_upper_bound context ∧
      from_option (λ n, 0 ≤ n ≤ u64_max) (ec_allow_indirect_length context = true)
        (direct_value (pe_declared_length e))
  end.

Lemma read_envelope_placed context stop n rest e :
  read_envelope context stop n rest = Some (Ok e) →
  envelope_placed context stop (offset_of stop rest) e.
Proof.
  unfold read_envelope. intros ([span r]&Hh%read_object_header_placed&Hb)%dbind_Ok.
  destruct (read_object _ stop true r) as [[o r1]|] eqn:H1; [|done].
  apply read_object_length in H1. cbn [mbind option_bind] in Hb.
  destruct (read_keyword _ stop true r1) as [[k r2]|] eqn:H2; [|done]. cbn [mbind option_bind] in Hb.
  apply read_keyword_placed in H2 as (Hk&_&_&H2). case_bool_decide.
  { injection Hb as <-. simpl. rewrite Hk. unfold offset_of. lia. }
  case_bool_decide; [|done]. unfold read_stream_envelope in Hb.
  destruct (located_value o) as [| | | | | | |entries|]; try done.
  destruct (read_length _ _) as [d|] eqn:Hd; [|done].
  destruct (_ && _) eqn:Hi; [done|].
  destruct (read_line_ending stop r2) as [[l r3]|] eqn:Hl; [|done]. cbn [mbind option_bind] in Hb.
  apply read_line_ending_placed in Hl as (_&He&Hl).
  destruct (_ <=? _) eqn:Hbound; [done|]. injection Hb as <-. simpl. checked_facts.
  split; [rewrite He; unfold offset_of; lia|]. split; [done|].
  unfold read_length in Hd. destruct (length_values _) as [|v [|]]; try done.
  pose proof (declared_length_unsigned _ _ _ Hd) as Hu.
  destruct (direct_value d) as [m|]; [done|]. simpl. by destruct (ec_allow_indirect_length context).
Qed.

Lemma read_boundary_placed source reference stop rest b :
  read_boundary source reference stop rest = Some (Ok b) →
  offset_of stop rest ≤ ByteSpan_end_exclusive (pb_endobj_span b) ≤ stop.
Proof.
  unfold read_boundary. destruct (read_line_ending stop rest) as [[l r]|] eqn:Hl; [|done].
  apply read_line_ending_placed in Hl as (_&_&Hl). cbn [mbind option_bind].
  destruct (read_keyword _ stop true r) as [[k r2]|] eqn:H2; [|done]. cbn [mbind option_bind].
  apply read_keyword_placed in H2 as (_&_&_&H2). destruct (_ || _); [done|].
  destruct (read_keyword _ stop true r2) as [[k' r3]|] eqn:H3; [|done]. cbn [mbind option_bind].
  apply read_keyword_placed in H3 as (He&_&_&H3). destruct (negb _); [done|].
  intros [= <-]. simpl. rewrite He. unfold offset_of. lia.
Qed.
