(* ===== verification/ObjectAttempts.v ===== *)
(** * Attempts against the reference reader

    [decides p m s spec Q]: from [s], the attempt [m] ends with what [spec] decides,
    or asks for more than the window while [spec] decides nothing, or fails with the
    error [spec] decides, because of a limit, the allocator or the probe, or because
    the parser found the window malformed where [spec] decides nothing. *)

From stdpp Require Import base list numbers option strings.
From S2P Require Import Prelude.
From S2P Require Import SourceTypes.
From S2P Require Import SyntaxTypes.
From S2P Require Import RangeTypes.
From S2P Require Import SyntaxState.
From S2P Require Import SyntaxLexer.
From S2P Require Import SyntaxParser.
From S2P Require Import SyntaxRules.
From S2P Require Import SyntaxReader.
From S2P Require Import SyntaxTrivia.
From S2P Require Import SyntaxObjects.
From S2P Require Import SyntaxContainers.
From S2P Require Import SyntaxMethods.
From S2P Require Import SyntaxGrowth.
From S2P Require Import DocumentTypes.
From S2P Require Import ObjectTypes.
From S2P Require Import ObjectParser.
From S2P Require Import ObjectReader.

(** A limit of the syntax parser, the allocator or the probe. *)
Definition object_refused `{ParserRuntime} (e : ObjectError) : Prop :=
  (∃ se, oe_detail e = DetailSyntax se ∧ refusal se) ∨
  (oe_code e = ObjectCancelled ∧ ∃ k, parser_cancelled k = true).

(** An error of the syntax parser. *)
Definition syntax_failed (e : ObjectError) : Prop :=
  oe_code e ≠ ObjectInternalState ∧ ∃ se, oe_detail e = DetailSyntax se.

Definition decides `{ParserRuntime} {A B} (p : SyntaxParser) (m : AttemptM A) (s : ParserState)
    (spec : decision B) (Q : ParserState → A → B → Prop) : Prop :=
  match m s with
  | (s', Ok a) => state_ok p s' ∧ ∃ b, spec = Some (Ok b) ∧ Q s' a b
  | (_, Err (Rejected (ExitNeedMore n))) => spec = None ∧ n = window_end p + 1
  | (_, Err (Rejected (ExitFailed e))) =>
      spec = Some (Err e) ∨ object_refused e ∨ (spec = None ∧ syntax_failed e)
  | (_, Err Panicked) => False
  end.

Lemma from_syntax_for_facts code e reference :
  code ≠ ObjectInternalState →
  oe_code (from_syntax_for code e reference) ≠ ObjectInternalState ∧
  oe_detail (from_syntax_for code e reference) = DetailSyntax e.
Proof.
  intros Hc. unfold from_syntax_for, from_syntax, syntax_policy, ObjectError_for_code.
  destruct (error_category e); simpl; try done. by destruct code.
Qed.

Lemma for_code_facts code reference offset :
  oe_code (ObjectError_for_code code reference offset) = code ∧
  oe_detail (ObjectError_for_code code reference offset) = DetailNone ∧
  oe_offset (ObjectError_for_code code reference offset) = offset ∧
  oe_reference (ObjectError_for_code code reference offset) = reference.
Proof. by destruct code. Qed.

Section rules.
Context `{ParserRuntime} (p : SyntaxParser).
Hypothesis Hp : parser_ok p.
Hypothesis Hmore : may_continue p = true.
Implicit Types s : ParserState.

Lemma decides_mono {A B} (m : AttemptM A) s (spec : decision B) (Q Q' : _ → _ → _ → Prop) :
  decides p m s spec Q → (∀ s' a b, state_ok p s' → Q s' a b → Q' s' a b) → decides p m s spec Q'.
Proof.
  unfold decides. intros Hm HQ. destruct (m s) as [s' [a|[[n|e]|]]]; try done.
  destruct Hm as (Hs'&b&Hb&Hq). eauto 6.
Qed.

Lemma decides_ret {A B} (a : A) (b : B) s spec (Q : _ → _ → _ → Prop) :
  state_ok p s → spec = Some (Ok b) → Q s a b → decides p (mret a) s spec Q.
Proof. intros. split; [done|by exists b]. Qed.

Lemma decides_failed {A B} e s (spec : decision B) (Q : ParserState → A → B → Prop) :
  spec = Some (Err e) → decides p (exit_failed e) s spec Q.
Proof. intros. by left. Qed.

Lemma decides_gets {A B C} (g : ParserState → A) (k : A → AttemptM B) s (spec : decision C) Q :
  decides p (k (g s)) s spec Q → decides p (gets g ≫= k) s spec Q.
Proof. done. Qed.

Lemma decides_bind {A B C D} (m : AttemptM A) (k : A → AttemptM B) s (spec : decision C)
    (f : C → decision D) (Q : _ → _ → _ → Prop) (R : _ → _ → _ → Prop) :
  decides p m s spec Q →
  (∀ s' a b, state_ok p s' → spec = Some (Ok b) → Q s' a b → decides p (k a) s' (f b) R) →
  decides p (m ≫= k) s (dbind spec f) R.
Proof.
  unfold decides. intros Hm Hk. unfold mbind at 1, M_bind.
  destruct (m s) as [s' [a|[[n|e]|]]]; [| | |done].
  - destruct Hm as (Hs'&b&->&Hq). by apply (Hk s' a b).
  - by destruct Hm as [-> ?].
  - destruct Hm as [->|[?|[-> ?]]]; simpl; auto.
Qed.

Lemma decides_required {T A B} (m : ParserState → ParserState * option (SyntaxPoll T))
    reference fallback code (k : T → AttemptM A) s (reads : option (T * list Z)) clean
    (f : T * list Z → decision B) Q :
  answers p (window_end p + 1) reads clean (m s) → code ≠ ObjectInternalState →
  (∀ s' v r, reads = Some (v, r) → state_ok p s' → suffix_at p (ps_cursor s') r →
     decides p (k v) s' (f (v, r)) Q) →
  decides p (required m reference fallback code ≫= k) s (reads ≫= f) Q.
Proof.
  intros Ha Hcode Hk. unfold decides, required. unfold mbind at 1, M_bind. unfold answers in Ha.
  destruct (m s) as [s' [[v|n| |e]|]]; [| | | |done].
  - destruct Ha as (Hs'&r&->&Hr). by apply Hk.
  - destruct Ha as (_&_&->&->). done.
  - destruct Ha as (_&Hm&_). congruence.
  - destruct Ha as (_&Hr&_). destruct (from_syntax_for_facts code e (Some reference) Hcode) as [Hne Hd].
    destruct Hr as [Hr| ->]; [right; left; left; eauto|]. right. right. unfold syntax_failed. eauto.
Qed.

(** The probe and the length of a stream. *)
Lemma length_loop_run reference countdown found entries s :
  state_ok p s →
  match length_loop reference countdown found entries s with
  | (s', Ok found') => same_work s s' ∧
      option_list found ++ length_values entries = option_list found'
  | (_, Err (Rejected (ExitFailed e))) =>
      object_refused e ∨ ∃ first second rest,
        option_list found ++ length_values entries = first :: second :: rest ∧
        e = ObjectError_for_code DuplicateStreamLength (Some reference)
              (Some (span_start (located_span second)))
  | (_, Err _) => False
  end.
Proof.
  revert countdown found s. induction entries as [|entry entries IH]; intros countdown found s Hs.
  { simpl. split; [by split_and!|]. by rewrite app_nil_r. }
  cbn [length_loop].
  assert (∃ s1 (cancelled : bool), same_work s s1 ∧
    (if countdown =? OBJECT_PROBE_INTERVAL then attempt_cancelled else mret false) s = (s1, Ok cancelled) ∧
    (cancelled = true → ∃ k, parser_cancelled k = true)) as (s1&cancelled&Hw&Hrun&Hk).
  { destruct (_ =? _); [|by exists s, false].
    exists (count_probe s), (parser_cancelled (ps_probes s)). split; [by split_and!|]. split; [done|].
    eauto. }
  unfold mbind at 1, M_bind. rewrite Hrun.
  assert (state_ok p s1) as Hs1 by (by eapply same_work_ok).
  destruct cancelled.
  { simpl. left. right. split; [by destruct (for_code_facts ObjectCancelled (Some reference) (Some
      (span_start (located_span (entry_key entry)))))|by apply Hk]. }
  cbv zeta. set (countdown' := if countdown =? 1 then _ else _). clearbody countdown'.
  rewrite length_values_cons.
  destruct (decide (key_bytes entry = "Length"%string)) as [Hkey|Hkey].
  - rewrite bool_decide_eq_true_2 by done. cbn [negb]. destruct found as [first|].
    + simpl. right. eauto.
    + specialize (IH countdown' (Some (entry_value entry)) s1 Hs1).
      destruct (length_loop _ _ _ _ _) as [s' [found'|[[n|e]|]]]; try done.
      destruct IH as [Hw' IH]. split; [|done].
      destruct Hw as (?&?&?&?&?&?), Hw' as (?&?&?&?&?&?). split_and!; congruence.
  - rewrite bool_decide_eq_false_2 by done. cbn [negb].
    specialize (IH countdown' found s1 Hs1).
    destruct (length_loop _ _ _ _ _) as [s' [found'|[[n|e]|]]]; try done.
    destruct IH as [Hw' IH]. split; [|done].
    destruct Hw as (?&?&?&?&?&?), Hw' as (?&?&?&?&?&?). split_and!; congruence.
Qed.

Lemma stream_length_run dictionary reference s :
  state_ok p s →
  match stream_length dictionary reference s with
  | (s', Ok d) => same_work s s' ∧ read_length reference dictionary = Ok d
  | (_, Err (Rejected (ExitFailed e))) => object_refused e ∨ read_length reference dictionary = Err e
  | (_, Err _) => False
  end.
Proof.
  intros Hs. unfold stream_length, read_length.
  pose proof (length_loop_run reference OBJECT_PROBE_INTERVAL None (located_value dictionary) s Hs) as Hl.
  unfold mbind, M_bind. destruct (length_loop _ _ _ _ _) as [s' [found|[[n|e]|]]]; [|done| |done].
  - destruct Hl as [Hw Hv]. simpl in Hv. rewrite Hv. destruct found as [value|]; simpl; [|by right].
    destruct (declared_length reference value); simpl; [done|by right].
  - destruct Hl as [?|(first&second&l&Hv&->)]; [by left|]. simpl in Hv. rewrite Hv. by right.
Qed.

Lemma stream_length_decides {A B} dictionary reference (k : DeclaredStreamLength → AttemptM A) s
    rest (f : DeclaredStreamLength → decision B) Q :
  state_ok p s → suffix_at p (ps_cursor s) rest →
  (∀ s' d, state_ok p s' → suffix_at p (ps_cursor s') rest → decides p (k d) s' (f d) Q) →
  decides p (stream_length dictionary reference ≫= k) s
    (match read_length reference dictionary with Err e => Some (Err e) | Ok d => f d end) Q.
Proof.
  intros Hs Hc Hk. pose proof (stream_length_run dictionary reference s Hs) as Hl.
  unfold decides, mbind, M_bind.
  destruct (stream_length _ _ _) as [s' [d|[[n|e]|]]]; [|done| |done].
  - destruct Hl as [Hw ->]. apply Hk; [by eapply same_work_ok|]. by destruct Hw as (->&_).
  - destruct Hl as [?| ->]; [by right; left|by left].
Qed.

Lemma retained_run reference offset s :
  state_ok p s →
  ∃ n, retained_heap_bytes p reference offset s = (s, Ok n) ∧ 0 ≤ n ∧
    n = ps_owned_bytes s + ps_container_bytes s.
Proof.
  intros Hs. exists (ps_owned_bytes s + ps_container_bytes s).
  pose proof (wo_owned _ _ _ Hs). pose proof (wo_container _ _ _ Hs). split; [|lia].
  unfold retained_heap_bytes. simpl. parser_facts Hp.
  assert (checked_add u64_max (ps_owned_bytes s) (ps_container_bytes s) =
    Some (ps_owned_bytes s + ps_container_bytes s)) as Ha by (apply checked_add_Some; lia).
  unfold mbind, M_bind, get. simpl. unfold ok_or. by rewrite Ha.
Qed.
End rules.

(** ** Envelopes *)

Section envelope.
Context `{ParserRuntime} (p : SyntaxParser) (context : EnvelopeContext).
Hypothesis Hp : parser_ok p.
Hypothesis Hmore : may_continue p = true.
Hypothesis Hsource : input_source (sp_input p) = ec_source context.
Hypothesis Hbase : input_base_offset (sp_input p) = ec_xref_offset context.
Implicit Types s : ParserState.
Local Notation stop := (window_end p).

Lemma object_answers s rest :
  state_ok p s → suffix_at p (ps_cursor s) rest →
  answers p (stop + 1) (read_object (ec_source context) stop true rest)
    (read_trivia true false rest = Some []) (parse_object p s).
Proof. intros Hs Hc. rewrite <-Hsource, <-Hmore. by apply parse_object_answers. Qed.

Lemma keyword_answers s rest :
  state_ok p s → suffix_at p (ps_cursor s) rest →
  answers p (stop + 1) (read_keyword (ec_source context) stop true rest) False (parse_keyword p s).
Proof. intros Hs Hc. rewrite <-Hsource, <-Hmore. by apply parse_keyword_answers. Qed.

Lemma header_decides s rest :
  state_ok p s → suffix_at p (ps_cursor s) rest →
  decides p (parse_object_header p context) s (read_object_header context stop rest)
    (λ s' span b, suffix_at p (ps_cursor s') b.2 ∧ span = b.1).
Proof.
  intros Hs Hc. unfold parse_object_header, read_object_header. cbv zeta.
  eapply (decides_required p Hmore); [by apply object_answers|done|]. intros s1 number r1 _ Hs1 Hc1.
  destruct (_ || _); [by apply decides_failed|].
  apply decides_gets. eapply (decides_required p Hmore); [by apply object_answers|done|]. intros s2 generation r2 _ Hs2 Hc2.
  case_bool_decide; cbn [negb]; [|by apply decides_failed].
  eapply (decides_required p Hmore); [by apply keyword_answers|done|]. intros s3 keyword r3 Hk Hs3 Hc3.
  case_bool_decide; cbn [negb]; [|by apply decides_failed].
  apply read_keyword_placed in Hk as (He&_).
  pose proof (suffix_length _ _ _ Hc3) as Hl. parser_facts Hp.
  unfold object_span_from_bounds, ByteSpan_new.
  assert (checked_sub (ByteSpan_end_exclusive (raw_span keyword)) (ec_xref_offset context) =
    Some (ByteSpan_end_exclusive (raw_span keyword) - ec_xref_offset context)) as ->.
  { apply checked_sub_Some. split; [|done]. rewrite He. unfold offset_of, window_end. lia. }
  cbn [require mbind result_bind].
  assert (checked_add u64_max (ec_xref_offset context)
    (ByteSpan_end_exclusive (raw_span keyword) - ec_xref_offset context) =
    Some (ByteSpan_end_exclusive (raw_span keyword))) as ->.
  { apply checked_add_Some. rewrite He. unfold offset_of, window_end. lia. }
  by eapply decides_ret.
Qed.
(** The retained bytes are within the cap. *)
Definition retains (cap : option Z) (n : Z) : Prop :=
  0 ≤ n ≤ u64_max ∧ from_option (λ cap, n ≤ cap) True cap.

Lemma retained_decides {A B} reference offset (k : Z → AttemptM A) s (spec : decision B) Q :
  state_ok p s →
  (∀ n, retains (sp_max_retained_bytes p) n → decides p (k n) s spec Q) →
  decides p (retained_heap_bytes p reference offset ≫= k) s spec Q.
Proof.
  intros Hs Hk. destruct (retained_run p Hp reference offset s Hs) as (n&Hrun&Hn&->).
  unfold decides, mbind, M_bind. rewrite Hrun. apply Hk. pose proof (wo_retained _ _ _ Hs).
  split; [|done]. pose proof (wo_owned _ _ _ Hs). pose proof (wo_container _ _ _ Hs).
  parser_facts Hp. lia.
Qed.

Definition retained_as {A} (r : A → Z → A) (cap : option Z) (_ : ParserState) (a b : A) : Prop :=
  ∃ n, retains cap n ∧ a = r b n.

Lemma stream_envelope_decides header_span body terminal s rest :
  state_ok p s → suffix_at p (ps_cursor s) rest →
  decides p (parse_stream_envelope p context header_span body terminal) s
    (read_stream_envelope context stop 0 header_span body terminal rest)
    (retained_as (λ e n, retain n e) (sp_max_retained_bytes p)).
Proof.
  intros Hs Hc. unfold parse_stream_envelope, read_stream_envelope. cbv zeta.
  destruct (located_value body); try by apply decides_failed.
  eapply (stream_length_decides p _ _ _ _ rest); [done|done|]. intros s1 d Hs1 Hc1.
  assert (match d with IndirectLength _ _ => true | DirectLength _ _ => false end =
    bool_decide (direct_value d = None)) as -> by (by destruct d).
  destruct (_ && _); [by apply decides_failed|].
  eapply (decides_required p Hmore); [by apply consume_stream_line_ending_answers|done|].
  intros s2 span r Hspan Hs2 Hc2. destruct (_ <=? _); [by apply decides_failed|].
  apply retained_decides; [done|]. intros n Hn. eapply decides_ret; [done|done|by exists n].
Qed.

Lemma envelope_decides s rest :
  state_ok p s → suffix_at p (ps_cursor s) rest →
  decides p (parse_envelope_body p context) s (read_envelope context stop 0 rest)
    (retained_as (λ e n, retain n e) (sp_max_retained_bytes p)).
Proof.
  intros Hs Hc. unfold parse_envelope_body, read_envelope. cbv zeta.
  eapply decides_bind; [by apply header_decides|]. intros s1 header_span [span r] Hs1 _ [Hc1 ->].
  cbn [fst snd] in *.
  eapply (decides_required p Hmore); [by apply object_answers|done|]. intros s2 body r2 _ Hs2 Hc2.
  eapply (decides_required p Hmore); [by apply keyword_answers|done|].
  intros s3 terminal r3 _ Hs3 Hc3. case_bool_decide.
  - apply retained_decides; [done|]. intros n Hn. eapply decides_ret; [done|done|by exists n].
  - case_bool_decide; [by apply stream_envelope_decides|by apply decides_failed].
Qed.
End envelope.

(** ** Boundaries *)

Lemma boundary_decides `{ParserRuntime} p context s rest :
  parser_ok p → may_continue p = true → input_source (sp_input p) = bc_source context →
  state_ok p s → suffix_at p (ps_cursor s) rest →
  decides p (parse_boundary_body p context) s
    (dbind (read_boundary (bc_source context) (bc_reference context) (window_end p) rest)
       (λ b, Some (Ok (BoundaryComplete b))))
    (λ _ a b, a = b).
Proof.
  intros Hp Hmore Hsource Hs Hc. unfold parse_boundary_body, read_boundary. cbv zeta.
  assert (∀ s r, state_ok p s → suffix_at p (ps_cursor s) r →
    answers p (window_end p + 1) (read_keyword (bc_source context) (window_end p) true r) False
      (parse_keyword p s)) as Hkeyword.
  { intros. rewrite <-Hsource, <-Hmore. by apply parse_keyword_answers. }
  rewrite dbind_reads.
  eapply (decides_required p Hmore); [by apply consume_stream_line_ending_answers|done|].
  intros s1 delimiter r1 _ Hs1 Hc1. cbv beta iota. rewrite dbind_reads.
  eapply (decides_required p Hmore); [by apply Hkeyword|done|].
  intros s2 endstream r2 _ Hs2 Hc2. cbv beta iota. destruct (_ || _); [by apply decides_failed|].
  rewrite dbind_reads. eapply (decides_required p Hmore); [by apply Hkeyword|done|].
  intros s3 endobj r3 _ Hs3 Hc3. cbv beta iota.
  case_bool_decide; cbn [negb]; [|by apply decides_failed]. by eapply decides_ret.
Qed.

(** ** Attempts *)

(** How an attempt on [bytes] ends. *)
Definition attempted `{ParserRuntime} {A B} (spec : decision B) (need_more : A) (Q : A → B → Prop)
    (outcome : RuntimeCalls * result (failure ObjectError) A) : Prop :=
  match outcome.2 with
  | Ok a => (a = need_more ∧ spec = None) ∨ ∃ b, spec = Some (Ok b) ∧ Q a b
  | Err (Rejected e) => spec = Some (Err e) ∨ object_refused e ∨ (spec = None ∧ syntax_failed e)
  | Err Panicked => False
  end.

Lemma run_attempt_run `{ParserRuntime} {A B} source base bytes limits cap reference need_more
    (body : SyntaxParser → AttemptM A) calls (spec : decision B) (Q : A → B → Prop) :
  0 ≤ base → base + len bytes ≤ u64_max → len bytes ≤ sl_max_input_bytes limits →
  syntax_limits_ok limits → from_option (λ cap, 0 ≤ cap ≤ u64_max) True cap →
  (∀ p s, parser_ok p → may_continue p = true → input_source (sp_input p) = source →
     input_base_offset (sp_input p) = base → window_end p = base + len bytes →
     sp_max_retained_bytes p = cap → state_ok p s → suffix_at p (ps_cursor s) bytes →
     decides p (body p) s spec (λ _, Q)) →
  attempted spec (need_more (base + len bytes + 1)) Q
    (run_attempt source base bytes MayContinue limits cap reference need_more body calls).
Proof.
  intros Hbase Hend Hlen Hl Hcap Hbody. unfold run_attempt, SyntaxInput_new.
  assert (u32_max = 4294967295) as Hu32 by reflexivity.
  assert (u64_max = 18446744073709551615) as Hu64 by reflexivity.
  assert (try_from u64_max (len bytes) = Some (len bytes)) as -> by (apply try_from_Some; lia).
  cbn [require mbind result_bind].
  assert (checked_add u64_max base (len bytes) = Some (base + len bytes)) as ->
    by (apply checked_add_Some; lia).
  cbn [require mbind result_bind mret result_ret]. unfold SyntaxParser_new. cbn [input_bytes input_base_offset].
  assert (try_from u64_max (len bytes) = Some (len bytes)) as -> by (apply try_from_Some; lia).
  cbn [require mbind result_bind].
  assert (sl_max_input_bytes limits <? len bytes = false) as -> by (by apply Z.ltb_ge).
  cbn [fail_if mbind result_bind mret result_ret].
  set (input := {| input_source := source; input_base_offset := base; input_bytes := bytes;
                   input_extent := MayContinue |}).
  set (p := {| sp_input := input; sp_limits := limits; sp_max_retained_bytes := cap |}).
  assert (decides p (body p) (set_calls calls initial_state) spec (λ _, Q)) as Hd.
  { apply Hbody; try done.
    - pose proof Hl as Hl'. unfold syntax_limits_ok in Hl'. split; simpl; try lia.
      destruct cap; simpl in *; lia.
    - split; [simpl; lia|done]. }
  unfold decides in Hd. unfold attempted.
  destruct (body p _) as [s' [a|[[n|e]|]]]; simpl; [|..|done].
  - right. naive_solver.
  - destruct Hd as [-> ->]. by left.
  - done.
Qed.

Lemma parse_envelope_run `{ParserRuntime} context bytes calls :
  0 ≤ ec_xref_offset context → ec_xref_offset context + len bytes ≤ u64_max →
  len bytes ≤ sl_max_input_bytes (ec_syntax_limits context) →
  syntax_limits_ok (ec_syntax_limits context) →
  from_option (λ cap, 0 ≤ cap ≤ u64_max) True (ec_max_retained_bytes context) →
  let stop := ec_xref_offset context + len bytes in
  attempted (read_envelope context stop 0 bytes) (EnvelopeNeedMore (stop + 1))
    (λ a b, ∃ n, retains (ec_max_retained_bytes context) n ∧ a = retain n b)
    (parse_envelope context bytes MayContinue calls).
Proof.
  intros ????? stop. apply run_attempt_run; try done.
  intros p s Hp Hmore Hsource Hbase Hend Hcap Hs Hc. subst stop. rewrite <-Hend, <-Hcap.
  by apply envelope_decides.
Qed.

Lemma parse_boundary_run `{ParserRuntime} context bytes calls :
  0 ≤ bc_data_end context → bc_data_end context + len bytes ≤ u64_max →
  len bytes ≤ sl_max_input_bytes (bc_syntax_limits context) →
  syntax_limits_ok (bc_syntax_limits context) →
  from_option (λ cap, 0 ≤ cap ≤ u64_max) True (bc_max_retained_bytes context) →
  let stop := bc_data_end context + len bytes in
  attempted
    (dbind (read_boundary (bc_source context) (bc_reference context) stop bytes)
       (λ b, Some (Ok (BoundaryComplete b)))) (BoundaryNeedMore (stop + 1)) eq
    (parse_boundary context bytes MayContinue calls).
Proof.
  intros ????? stop. apply run_attempt_run; try done.
  intros p s Hp Hmore Hsource Hbase Hend Hcap Hs Hc. subst stop. rewrite <-Hend.
  by apply boundary_decides.
Qed.
