(* ===== verification/ObjectFile.v ===== *)
(** * What the bytes of a file denote at a target

    The failure of an attempt on a window that may continue is the failure of an
    attempt on every longer window that the syntax limits admit, unless a limit, the
    allocator or the probe caused it: an attempt that finds a window malformed
    decides that no longer window denotes an object. [file x] is the byte at offset
    [x]; the reference reader of [ObjectReader] runs on all bytes up to the bound of
    the target, so that no window, limit or order of reads is part of the meaning,
    and the attempts on windows are related to it. *)

From stdpp Require Import base list numbers option strings.
From S2P Require Import Prelude.
From S2P Require Import SourceTypes.
From S2P Require Import SyntaxTypes.
From S2P Require Import DocumentTypes.
From S2P Require Import SyntaxState.
From S2P Require Import SyntaxLexer.
From S2P Require Import SyntaxParser.
From S2P Require Import SyntaxRules.
From S2P Require Import SyntaxReader.
From S2P Require Import SyntaxTrivia.
From S2P Require Import SyntaxMethods.
From S2P Require Import RangeTypes.
From S2P Require Import RangeSegments.
From S2P Require Import SyntaxFinal.
From S2P Require Import ObjectTypes.
From S2P Require Import ObjectParser.
From S2P Require Import ObjectJob.
From S2P Require Import ObjectReader.
From S2P Require Import ObjectAttempts.

(** What [m] ends with, [m'] does. *)
Definition final_attempt `{ParserRuntime} {A} (m m' : AttemptM A) (s : ParserState) : Prop :=
  match m s with
  | (s1, Ok a) => m' s = (s1, Ok a)
  | (s1, Err (Rejected (ExitFailed e))) =>
      object_refused e ∨ m' s = (s1, Err (Rejected (ExitFailed e)))
  | _ => True
  end.

Section rules.
Context `{ParserRuntime}.
Implicit Types s : ParserState.

Lemma final_refl {A} (m : AttemptM A) s : final_attempt m m s.
Proof. unfold final_attempt. destruct (m s) as [s1 [a|[[n|e]|]]]; auto. Qed.

Lemma final_bind {A B} (m m' : AttemptM A) (k k' : A → AttemptM B) s :
  final_attempt m m' s → (∀ s1 a, final_attempt (k a) (k' a) s1) →
  final_attempt (m ≫= k) (m' ≫= k') s.
Proof.
  unfold final_attempt, mbind, M_bind. intros Hm Hk.
  destruct (m s) as [s1 [a|[[n|e]|]]]; [|done| |done].
  - rewrite Hm. apply Hk.
  - destruct Hm as [?| ->]; auto.
Qed.

Lemma final_step {A B} (m : AttemptM A) (k k' : A → AttemptM B) s :
  (∀ s1 a, final_attempt (k a) (k' a) s1) → final_attempt (m ≫= k) (m ≫= k') s.
Proof. apply final_bind, final_refl. Qed.

Lemma refused_from_syntax code e reference :
  code ≠ ObjectInternalState → refusal e → object_refused (from_syntax_for code e reference).
Proof.
  intros Hc He. left. exists e. split; [|done]. by apply from_syntax_for_facts.
Qed.

Lemma final_required {T} (m m' : ParserState → ParserState * option (SyntaxPoll T)) reference
    fallback code s :
  code ≠ ObjectInternalState → final_poll m m' s →
  (∀ s1, m s ≠ (s1, Some EndOfInput)) →
  final_attempt (required m reference fallback code) (required m' reference fallback code) s.
Proof.
  unfold final_attempt, required, final_poll. intros Hcode Hm Hno.
  destruct (m s) as [s1 [[v|n| |e]|]]; [by rewrite Hm|done|by destruct (Hno s1)| |done].
  destruct Hm as [He| ->]; [left; by apply refused_from_syntax|by right].
Qed.
End rules.

Section final.
Context `{ParserRuntime} (p : SyntaxParser) (ext : list Z).
Hypothesis Hp : parser_ok p.
Hypothesis Hmore : may_continue p = true.
Hypothesis Hend : window_end p < u64_max.
Local Notation p' := (extended p ext MayContinue).

Lemma poll_not_end {T} clean_end (m : ParseM T) s s1 : poll p clean_end m s ≠ (s1, Some EndOfInput).
Proof.
  unfold poll. destruct ((begin_operation p;; m) s) as [s2 [a|[[|code offset|e]|]]]; try done; simpl;
    rewrite Hmore, ?andb_false_r; unfold need_more_or_failure; repeat case_match; naive_solver.
Qed.

Lemma final_object reference fallback code s :
  code ≠ ObjectInternalState →
  final_attempt (required (parse_object p) reference fallback code)
    (required (parse_object p') reference fallback code) s.
Proof. intros. apply final_required; [done|by apply parse_object_final|]. intros. apply poll_not_end. Qed.

Lemma final_keyword reference fallback code s :
  code ≠ ObjectInternalState →
  final_attempt (required (parse_keyword p) reference fallback code)
    (required (parse_keyword p') reference fallback code) s.
Proof. intros. apply final_required; [done|by apply parse_keyword_final|]. intros. apply poll_not_end. Qed.

Lemma final_line_ending reference fallback code s :
  code ≠ ObjectInternalState →
  final_attempt (required (consume_stream_line_ending p) reference fallback code)
    (required (consume_stream_line_ending p') reference fallback code) s.
Proof.
  intros. apply final_required; [done|by apply consume_stream_line_ending_final|].
  intros. apply poll_not_end.
Qed.

Lemma header_final context s :
  final_attempt (parse_object_header p context) (parse_object_header p' context) s.
Proof.
  unfold parse_object_header. cbv zeta. apply final_bind; [by apply final_object|]. intros s1 number.
  destruct (_ || _); [apply final_refl|]. apply final_step. intros s2 offset.
  apply final_bind; [by apply final_object|]. intros s3 generation.
  destruct (negb _); [apply final_refl|]. apply final_bind; [by apply final_keyword|]. intros.
  apply final_refl.
Qed.

(** The input bytes are not retained. *)
Lemma final_retained {A} reference offset (k k' : Z → AttemptM A) s :
  (∀ s1 n, final_attempt (k n) (k' n) s1) →
  final_attempt (retained_heap_bytes p reference offset ≫= k)
    (retained_heap_bytes p' reference offset ≫= k') s.
Proof. intros Hk. apply final_bind; [apply final_refl|done]. Qed.

Lemma stream_envelope_final context header_span body terminal s :
  final_attempt (parse_stream_envelope p context header_span body terminal)
    (parse_stream_envelope p' context header_span body terminal) s.
Proof.
  unfold parse_stream_envelope. cbv zeta. destruct (located_value body); try apply final_refl.
  apply final_step. intros s1 d. destruct (_ && _); [apply final_refl|].
  apply final_bind; [by apply final_line_ending|]. intros s2 span.
  destruct (_ <=? _); [apply final_refl|]. apply final_retained. intros. apply final_refl.
Qed.

Lemma envelope_final context s :
  final_attempt (parse_envelope_body p context) (parse_envelope_body p' context) s.
Proof.
  unfold parse_envelope_body. cbv zeta. apply final_bind; [apply header_final|]. intros s1 header_span.
  apply final_bind; [by apply final_object|]. intros s2 body.
  apply final_bind; [by apply final_keyword|]. intros s3 terminal.
  case_bool_decide; [apply final_retained; intros; apply final_refl|].
  case_bool_decide; [apply stream_envelope_final|apply final_refl].
Qed.

Lemma boundary_final context s :
  final_attempt (parse_boundary_body p context) (parse_boundary_body p' context) s.
Proof.
  unfold parse_boundary_body. cbv zeta. apply final_bind; [by apply final_line_ending|].
  intros s1 delimiter. apply final_bind; [by apply final_keyword|]. intros s2 endstream.
  destruct (_ || _); [apply final_refl|]. apply final_bind; [by apply final_keyword|]. intros.
  apply final_refl.
Qed.
End final.

(** ** Attempts on longer windows *)

(** The syntax limits, and the offsets, admit a window of [n] bytes at [base]. *)
Definition window_admitted (limits : SyntaxLimits) (base n : Z) : Prop :=
  0 ≤ base ∧ base + n < u64_max ∧ n ≤ sl_max_input_bytes limits.

Lemma run_attempt_parser `{ParserRuntime} {A} source base bytes limits cap reference need_more
    (body : SyntaxParser → AttemptM A) calls :
  window_admitted limits base (len bytes) → syntax_limits_ok limits →
  from_option (λ cap, 0 ≤ cap ≤ u64_max) True cap →
  let p := {| sp_input := {| input_source := source; input_base_offset := base;
                             input_bytes := bytes; input_extent := MayContinue |};
              sp_limits := limits; sp_max_retained_bytes := cap |} in
  parser_ok p ∧ window_end p = base + len bytes ∧
  run_attempt source base bytes MayContinue limits cap reference need_more body calls =
    match body p (set_calls calls initial_state) with
    | (s', Ok parsed) => (calls_of s', Ok parsed)
    | (s', Err (Rejected (ExitNeedMore minimum_end))) => (calls_of s', Ok (need_more minimum_end))
    | (s', Err (Rejected (ExitFailed error))) => (calls_of s', Err (Rejected error))
    | (s', Err Panicked) => (calls_of s', Err Panicked)
    end.
Proof.
  intros (Hbase & Hend & Hlen) Hl Hcap p. split; [split; simpl; try done; unfold window; simpl; lia|].
  split; [done|]. unfold run_attempt, SyntaxInput_new.
  assert (u64_max = 18446744073709551615) as Hu64 by reflexivity.
  assert (try_from u64_max (len bytes) = Some (len bytes)) as Ht by (apply try_from_Some; lia).
  rewrite Ht. cbn [require mbind result_bind].
  assert (checked_add u64_max base (len bytes) = Some (base + len bytes)) as ->
    by (apply checked_add_Some; lia).
  cbn [require mbind result_bind mret result_ret]. unfold SyntaxParser_new. cbn [input_bytes input_base_offset].
  rewrite Ht. cbn [require mbind result_bind].
  assert (sl_max_input_bytes limits <? len bytes = false) as -> by (by apply Z.ltb_ge).
  done.
Qed.

Lemma run_attempt_final `{ParserRuntime} {A} source base bytes ext limits cap reference need_more
    (body : SyntaxParser → AttemptM A) calls c e :
  window_admitted limits base (len (bytes ++ ext)) → syntax_limits_ok limits →
  from_option (λ cap, 0 ≤ cap ≤ u64_max) True cap →
  (∀ p s, parser_ok p → may_continue p = true → window_end p < u64_max →
     final_attempt (body p) (body (extended p ext MayContinue)) s) →
  run_attempt source base bytes MayContinue limits cap reference need_more body calls =
    (c, Err (Rejected e)) →
  object_refused e ∨
  run_attempt source base (bytes ++ ext) MayContinue limits cap reference need_more body calls =
    (c, Err (Rejected e)).
Proof.
  intros Hw Hl Hcap Hfinal.
  assert (window_admitted limits base (len bytes)) as Hw'.
  { unfold window_admitted in *. rewrite length_app in Hw. lia. }
  destruct (run_attempt_parser source base bytes limits cap reference need_more body calls Hw' Hl Hcap)
    as (Hp & Hend & ->).
  destruct (run_attempt_parser source base (bytes ++ ext) limits cap reference need_more body calls Hw Hl Hcap)
    as (_ & _ & ->).
  match type of Hp with parser_ok ?q => set (p := q) in * end.
  specialize (Hfinal p (set_calls calls initial_state) Hp eq_refl).
  rewrite Hend in Hfinal. specialize (Hfinal ltac:(unfold window_admitted in *; lia)).
  revert Hfinal. unfold final_attempt, extended. cbn [sp_input sp_limits sp_max_retained_bytes p
    input_source input_base_offset input_bytes input_extent]. fold p.
  destruct (body p (set_calls calls initial_state)) as [s1 [a|[[n|e']|]]]; try done.
  intros [Hr| ->] [= <- <-]; auto.
Qed.

(** Errors that bytes decide have no detail of the syntax parser. *)
Definition plain {A} (d : decision A) : Prop := ∀ e, d = Some (Err e) → oe_detail e = DetailNone.

Lemma plain_code {A} code reference offset :
  plain (Some (Err (ObjectError_for_code code reference offset)) : decision A).
Proof. intros e [= <-]. apply for_code_facts. Qed.

Lemma plain_bind {T A} (o : option T) (f : T → decision A) : (∀ x, plain (f x)) → plain (o ≫= f).
Proof. intros Hf. destruct o; [apply Hf|done]. Qed.

Lemma read_object_header_plain context stop rest : plain (read_object_header context stop rest).
Proof.
  unfold read_object_header. apply plain_bind. intros [number r]. destruct (_ || _); [apply plain_code|].
  apply plain_bind. intros [generation r']. destruct (negb _); [apply plain_code|].
  apply plain_bind. intros [keyword r'']. destruct (negb _); [apply plain_code|done].
Qed.

Lemma read_length_plain reference dictionary e :
  read_length reference dictionary = Err e → oe_detail e = DetailNone.
Proof.
  unfold read_length, declared_length.
  destruct (length_values _) as [|v [|v' l]]; [by intros [= <-]| |by intros [= <-]].
  destruct (located_value v); try (by intros [= <-]).
  destruct (try_from _ _); [done|]. by intros [= <-].
Qed.

Lemma read_envelope_plain context stop n rest : plain (read_envelope context stop n rest).
Proof.
  unfold read_envelope. pose proof (read_object_header_plain context stop rest) as Hh.
  destruct (read_object_header _ _ _) as [[[span r]|e]|]; cbn [dbind]; [|by intros e' [= <-]; apply Hh|done].
  apply plain_bind. intros [body r']. apply plain_bind. intros [terminal r''].
  case_bool_decide; [done|]. case_bool_decide; [|apply plain_code]. unfold read_stream_envelope.
  destruct (located_value body); try apply plain_code.
  destruct (read_length _ _) as [d|e] eqn:Hd; [|by intros e' [= <-]; eapply read_length_plain].
  destruct (_ && _); [apply plain_code|]. apply plain_bind. intros [span' ?].
  destruct (_ <=? _); [apply plain_code|done].
Qed.

Lemma read_boundary_plain source reference stop rest : plain (read_boundary source reference stop rest).
Proof.
  unfold read_boundary. apply plain_bind. intros [delimiter r]. apply plain_bind. intros [endstream r'].
  destruct (_ || _); [apply plain_code|]. apply plain_bind. intros [endobj r''].
  destruct (negb _); [apply plain_code|done].
Qed.

(** How an attempt on [bytes] ends; [spec] is what the window and [ext] decide. *)
Definition settled `{ParserRuntime} {A B} (limits : SyntaxLimits) (base : Z) (bytes : list Z)
    (spec : list Z → decision B) (need_more : A) (Q : A → B → Prop)
    (outcome : result (failure ObjectError) A) : Prop :=
  match outcome with
  | Ok a => (a = need_more ∧ spec [] = None) ∨ ∃ b, spec [] = Some (Ok b) ∧ Q a b
  | Err (Rejected e) =>
      spec [] = Some (Err e) ∨ object_refused e ∨
      (syntax_failed e ∧
       ∀ ext, window_admitted limits base (len (bytes ++ ext)) → object_refused e ∨ spec ext = None)
  | Err Panicked => False
  end.

Lemma attempted_settled `{ParserRuntime} {A B} limits base bytes (spec : list Z → decision B)
    (need_more : list Z → A) Q (run : list Z → RuntimeCalls * result (failure ObjectError) A) :
  window_admitted limits base (len bytes) →
  (∀ ext, plain (spec ext)) →
  (∀ ext, window_admitted limits base (len (bytes ++ ext)) →
     attempted (spec ext) (need_more ext) Q (run (bytes ++ ext)) ∧
     ∀ c e, run bytes = (c, Err (Rejected e)) →
       object_refused e ∨ run (bytes ++ ext) = (c, Err (Rejected e))) →
  settled limits base bytes spec (need_more []) Q (run bytes).2.
Proof.
  intros Hw Hplain Hrun. pose proof (proj1 (Hrun [] ltac:(by rewrite app_nil_r))) as Ha.
  rewrite app_nil_r in Ha. unfold attempted, settled in *.
  destruct (run bytes) as [c r] eqn:Hr. cbn [snd] in *. destruct r as [a|[e|]]; [done| |done].
  destruct Ha as [?|[?|[_ He]]]; [auto..|]. right. right. split; [done|]. intros ext Hext.
  destruct (Hrun ext Hext) as [Ha Hf]. destruct (Hf c e eq_refl) as [?|Hr']; [auto|].
  rewrite Hr' in Ha. cbn [snd] in Ha. destruct Ha as [Hd|[?|[? _]]]; [|auto..].
  exfalso. apply (Hplain ext) in Hd. destruct He as (_ & se & He). congruence.
Qed.

Lemma parse_envelope_settled `{ParserRuntime} context bytes calls :
  let base := ec_xref_offset context in
  window_admitted (ec_syntax_limits context) base (len bytes) →
  syntax_limits_ok (ec_syntax_limits context) →
  from_option (λ cap, 0 ≤ cap ≤ u64_max) True (ec_max_retained_bytes context) →
  settled (ec_syntax_limits context) base bytes
    (λ ext, read_envelope context (base + len (bytes ++ ext)) 0 (bytes ++ ext))
    (EnvelopeNeedMore (base + len bytes + 1))
    (λ a b, ∃ n, retains (ec_max_retained_bytes context) n ∧ a = retain n b)
    (parse_envelope context bytes MayContinue calls).2.
Proof.
  intros base Hw Hl Hcap.
  pose proof (attempted_settled (ec_syntax_limits context) base bytes
    (λ ext, read_envelope context (base + len (bytes ++ ext)) 0 (bytes ++ ext))
    (λ ext, EnvelopeNeedMore (base + len (bytes ++ ext) + 1))
    (λ a b, ∃ n, retains (ec_max_retained_bytes context) n ∧ a = retain n b)
    (λ w, parse_envelope context w MayContinue calls) Hw) as Hs.
  cbv beta in Hs. rewrite app_nil_r in Hs. apply Hs; [intros; apply read_envelope_plain|].
  intros ext Hext. split.
  - destruct Hext as (?&?&?). apply parse_envelope_run; try done. lia.
  - intros c e. apply run_attempt_final; try done. intros. by apply envelope_final.
Qed.

Lemma parse_boundary_settled `{ParserRuntime} context bytes calls :
  let base := bc_data_end context in
  window_admitted (bc_syntax_limits context) base (len bytes) →
  syntax_limits_ok (bc_syntax_limits context) →
  from_option (λ cap, 0 ≤ cap ≤ u64_max) True (bc_max_retained_bytes context) →
  settled (bc_syntax_limits context) base bytes
    (λ ext, dbind (read_boundary (bc_source context) (bc_reference context)
                     (base + len (bytes ++ ext)) (bytes ++ ext))
              (λ b, Some (Ok (BoundaryComplete b))))
    (BoundaryNeedMore (base + len bytes + 1)) eq
    (parse_boundary context bytes MayContinue calls).2.
Proof.
  intros base Hw Hl Hcap.
  pose proof (attempted_settled (bc_syntax_limits context) base bytes
    (λ ext, dbind (read_boundary (bc_source context) (bc_reference context)
                     (base + len (bytes ++ ext)) (bytes ++ ext))
              (λ b, Some (Ok (BoundaryComplete b))))
    (λ ext, BoundaryNeedMore (base + len (bytes ++ ext) + 1)) eq
    (λ w, parse_boundary context w MayContinue calls) Hw) as Hs.
  cbv beta in Hs. rewrite app_nil_r in Hs. apply Hs.
  - intros ext e. pose proof (read_boundary_plain (bc_source context) (bc_reference context)
      (base + len (bytes ++ ext)) (bytes ++ ext)) as Hplain. revert Hplain. unfold plain.
    destruct (read_boundary _ _ _ _) as [[b|e']|]; simpl; [done| |done].
    intros Hplain [= <-]. by apply Hplain.
  - intros ext Hext. split.
    + destruct Hext as (?&?&?). apply parse_boundary_run; try done. lia.
    + intros c e. apply run_attempt_final; try done. intros. by apply boundary_final.
Qed.

(** ** Setups *)

(** What [ObjectLimits::validate] guarantees. *)
Record object_limits_ok (l : ObjectLimits) : Prop := {
  lo_source : 0 < ol_max_source_bytes l ≤ OBJECT_MAX_SOURCE_BYTES;
  lo_initial_envelope : 0 < ol_initial_envelope_bytes l ≤ ol_max_envelope_bytes l;
  lo_envelope : ol_max_envelope_bytes l ≤ HARD_MAX_ENVELOPE_BYTES;
  lo_envelope_source : ol_max_envelope_bytes l ≤ ol_max_source_bytes l;
  lo_initial_boundary : 0 < ol_initial_boundary_bytes l ≤ ol_max_boundary_bytes l;
  lo_boundary : ol_max_boundary_bytes l ≤ HARD_MAX_BOUNDARY_BYTES;
  lo_boundary_source : ol_max_boundary_bytes l ≤ ol_max_source_bytes l;
  lo_stream : 0 < ol_max_stream_bytes l ≤ HARD_MAX_STREAM_BYTES;
  lo_stream_source : ol_max_stream_bytes l ≤ ol_max_source_bytes l;
  lo_read : 0 < ol_max_total_read_bytes l ≤ HARD_MAX_TOTAL_BYTES;
  lo_parse : 0 < ol_max_total_parse_bytes l ≤ HARD_MAX_TOTAL_BYTES;
  lo_total : ol_max_envelope_bytes l + ol_max_boundary_bytes l ≤
               Z.min (ol_max_total_read_bytes l) (ol_max_total_parse_bytes l)
}.

(** The fields of a configuration are unsigned. *)
Definition object_config_unsigned (c : ObjectLimitConfig) : Prop :=
  0 ≤ ol_max_source_bytes c ∧ 0 ≤ ol_initial_envelope_bytes c ∧ 0 ≤ ol_max_envelope_bytes c ∧
  0 ≤ ol_initial_boundary_bytes c ∧ 0 ≤ ol_max_boundary_bytes c ∧ 0 ≤ ol_max_stream_bytes c ∧
  0 ≤ ol_max_total_read_bytes c ∧ 0 ≤ ol_max_total_parse_bytes c.

Lemma object_limits_decides c :
  object_config_unsigned c → Prelude.decides (object_limits_ok c) c (ObjectLimits_validate c).
Proof.
  intros Hu. unfold ObjectLimits_validate. unfold object_config_unsigned in Hu.
  assert (HARD_MAX_ENVELOPE_BYTES = 67108864) by reflexivity.
  assert (HARD_MAX_BOUNDARY_BYTES = 4194304) by reflexivity.
  assert (u64_max = 18446744073709551615) by reflexivity.
  apply decides_fail_if;
    rewrite ?orb_true_iff, ?orb_false_iff, ?Z.eqb_eq, ?Z.ltb_lt, ?Z.eqb_neq, ?Z.ltb_ge;
    destruct (checked_add u64_max (ol_max_envelope_bytes c) (ol_max_boundary_bytes c)) eqn:Ha;
    simpl; rewrite ?Z.ltb_lt, ?Z.ltb_ge; checked_facts.
  - intros Hb []. lia.
  - intros Hb []. lia.
  - intros Hb. apply decides_ok. split; lia.
  - intros Hb. exfalso. naive_solver.
Qed.

(** What the constructors of targets, limits and caps guarantee of a job. *)
Record setup_ok (target : IndirectObjectTarget) (limits : ObjectLimits)
    (syntax_limits : SyntaxLimits) (caps : ObjectWorkCaps) : Prop := {
  so_xref : 0 ≤ target_xref_offset target < target_object_upper_bound target;
  so_bound : target_object_upper_bound target ≤ OBJECT_MAX_SOURCE_BYTES;
  so_limits : object_limits_ok limits;
  so_syntax : syntax_limits_ok syntax_limits;
  so_envelope : ol_max_envelope_bytes limits ≤ sl_max_input_bytes syntax_limits;
  so_boundary : ol_max_boundary_bytes limits ≤ sl_max_input_bytes syntax_limits;
  so_read : 0 ≤ caps_max_read_bytes caps ≤ HARD_MAX_TOTAL_BYTES;
  so_parse : 0 ≤ caps_max_parse_bytes caps ≤ HARD_MAX_TOTAL_BYTES;
  so_retained : from_option (λ cap, 0 ≤ cap ≤ u64_max) True (caps_max_retained_bytes caps)
}.

Ltac setup_facts Hs :=
  let Hl := fresh "Hlimits" in
  pose proof (so_xref _ _ _ _ Hs); pose proof (so_bound _ _ _ _ Hs);
  pose proof (so_limits _ _ _ _ Hs) as Hl; destruct Hl;
  pose proof (so_envelope _ _ _ _ Hs); pose proof (so_boundary _ _ _ _ Hs);
  pose proof (so_read _ _ _ _ Hs); pose proof (so_parse _ _ _ _ Hs);
  assert (OBJECT_MAX_SOURCE_BYTES = 1073741824) by reflexivity;
  assert (HARD_MAX_ENVELOPE_BYTES = 67108864) by reflexivity;
  assert (HARD_MAX_BOUNDARY_BYTES = 4194304) by reflexivity;
  assert (HARD_MAX_STREAM_BYTES = 1073741824) by reflexivity;
  assert (HARD_MAX_TOTAL_BYTES = 268435456) by reflexivity;
  assert (u64_max = 18446744073709551615) by reflexivity.

(** ** Bytes of a file *)

Section file.
Context (file : Z → Z).

Definition bytes_of (start n : Z) : list Z := file <$> seqZ start n.

Lemma bytes_of_length start n : 0 ≤ n → len (bytes_of start n) = n.
Proof. intros. unfold bytes_of. rewrite length_fmap, length_seqZ. lia. Qed.

Lemma bytes_of_app start n m :
  0 ≤ n → 0 ≤ m → bytes_of start (n + m) = bytes_of start n ++ bytes_of (start + n) m.
Proof. intros. unfold bytes_of. rewrite seqZ_app by done. apply fmap_app. Qed.

Lemma bytes_of_cons start n : 0 < n → bytes_of start n = file start :: bytes_of (start + 1) (n - 1).
Proof. intros. unfold bytes_of. rewrite seqZ_cons by done. done. Qed.

(** ** Objects *)

(** The limits are those of an attempt, not of the meaning. *)
Definition reading_context (target : IndirectObjectTarget) (allow_indirect : bool)
    (syntax_limits : SyntaxLimits) (max_retained : option Z) : EnvelopeContext :=
  {| ec_source := snapshot_identity (target_snapshot target);
     ec_reference := target_reference target; ec_xref_offset := target_xref_offset target;
     ec_object_upper_bound := target_object_upper_bound target;
     ec_allow_indirect_length := allow_indirect; ec_syntax_limits := syntax_limits;
     ec_max_retained_bytes := max_retained |}.

(** What [n] bytes at the target decide about the envelope. *)
Definition file_envelope (target : IndirectObjectTarget) (allow_indirect : bool) (n : Z)
    : decision EnvelopeParse :=
  read_envelope (reading_context target allow_indirect SyntaxLimitConfig_default None)
    (target_xref_offset target + n) 0 (bytes_of (target_xref_offset target) n).

(** What [n] bytes after the payload decide about the end of a stream. *)
Definition file_boundary (target : IndirectObjectTarget) (data_end n : Z) : decision ParsedBoundary :=
  read_boundary (snapshot_identity (target_snapshot target)) (target_reference target)
    (data_end + n) (bytes_of data_end n).

Definition starts_object (target : IndirectObjectTarget) : bool :=
  (target_xref_offset target =? 0) || is_object_header_boundary (file (target_xref_offset target - 1)).

Definition object_extent (target : IndirectObjectTarget) : Z :=
  target_object_upper_bound target - target_xref_offset target.

(** The envelope at the target. *)
Definition denoted_envelope (target : IndirectObjectTarget) (allow_indirect : bool)
    : decision EnvelopeParse :=
  if negb (starts_object target)
  then Some (Err (ObjectError_for_code InvalidObjectHeader (Some (target_reference target))
                    (Some (target_xref_offset target))))
  else file_envelope target allow_indirect (object_extent target).

(** The object a direct value makes. *)
Definition direct_object (target : IndirectObjectTarget) (retained : Z) (parsed : ParsedDirect)
    : result ObjectError IndirectObject :=
  span ← object_span target (pd_endobj_span parsed);
  mret (IndirectObject_new target (pd_header_span parsed) span (pd_endobj_span parsed) retained
          (Direct (pd_value parsed))).

(** The object a stream makes. *)
Definition stream_object (target : IndirectObjectTarget) (retained : Z)
    (parsed : ParsedStreamEnvelope) (claim : StreamLengthClaim) (data_span : ByteSpan)
    (boundary : ParsedBoundary) : result ObjectError IndirectObject :=
  span ← object_span target (pb_endobj_span boundary);
  mret (IndirectObject_new target (pe_header_span parsed) span (pb_endobj_span boundary) retained
          (Stream {| stream_dictionary := pe_dictionary parsed;
                     stream_length_claim := claim;
                     stream_keyword_span := pe_stream_keyword_span parsed;
                     stream_line_ending_span := pe_stream_line_ending_span parsed;
                     stream_data_span := data_span;
                     stream_data_delimiter_span := pb_data_delimiter_span boundary;
                     stream_endstream_span := pb_endstream_span boundary |})).

(** A stream whose payload has the claimed length: its object. *)
Definition denoted_stream (target : IndirectObjectTarget) (limits : ObjectLimits) (retained : Z)
    (parsed : ParsedStreamEnvelope) (claim : StreamLengthClaim) : decision IndirectObject :=
  match payload_span target limits (pe_data_start parsed) (claim_value claim)
          (operand_span (pe_declared_length parsed)) with
  | Err e => Some (Err e)
  | Ok data_span =>
      let data_end := ByteSpan_end_exclusive data_span in
      dbind (file_boundary target data_end (target_object_upper_bound target - data_end))
        (λ boundary, Some (stream_object target retained parsed claim data_span boundary))
  end.

Definition direct_claim (target : IndirectObjectTarget) (declared : DeclaredStreamLength) (value : Z)
    : StreamLengthClaim :=
  StreamLengthClaim_direct (target_snapshot target) (target_reference target) declared value.

(** The object at the target, with what its values retain of the heap. Only the
    limit on payloads is part of it. *)
Definition denoted_object (target : IndirectObjectTarget) (limits : ObjectLimits) (retained : Z)
    : decision IndirectObject :=
  dbind (denoted_envelope target false) (λ e,
    match e with
    | EnvelopeNeedMore _ => None
    | EnvelopeDirect parsed => Some (direct_object target retained parsed)
    | EnvelopeStream parsed =>
        match pe_declared_length parsed with
        | IndirectLength _ _ => None
        | DirectLength value _ =>
            denoted_stream target limits retained parsed
              (direct_claim target (pe_declared_length parsed) value)
        end
    end).

(** ** Growth *)

Lemma file_envelope_grows target allow n m d :
  0 ≤ n ≤ m → file_envelope target allow n = Some d → file_envelope target allow m = Some d.
Proof.
  intros Hn Hd. unfold file_envelope in *.
  replace m with (n + (m - n)) by lia. rewrite bytes_of_app, Z.add_assoc by lia.
  rewrite <-(bytes_of_length (target_xref_offset target + n) (m - n)) at 1 by lia.
  by apply read_envelope_grows.
Qed.

Lemma file_boundary_grows target data_end n m d :
  0 ≤ n ≤ m → file_boundary target data_end n = Some d → file_boundary target data_end m = Some d.
Proof.
  intros Hn Hd. unfold file_boundary in *.
  replace m with (n + (m - n)) by lia. rewrite bytes_of_app, Z.add_assoc by lia.
  rewrite <-(bytes_of_length (data_end + n) (m - n)) at 1 by lia.
  by apply read_boundary_grows.
Qed.

(** ** Windows *)

(** How the attempt on [n] bytes of the envelope ends. *)
Definition envelope_attempted `{ParserRuntime} (target : IndirectObjectTarget) (allow : bool)
    (syntax_limits : SyntaxLimits) (cap : option Z) (n : Z)
    (outcome : result (failure ObjectError) EnvelopeParse) : Prop :=
  let base := target_xref_offset target in
  match outcome with
  | Ok a =>
      (a = EnvelopeNeedMore (base + n + 1) ∧ file_envelope target allow n = None) ∨
      ∃ b k, file_envelope target allow n = Some (Ok b) ∧ retains cap k ∧ a = retain k b
  | Err (Rejected e) =>
      file_envelope target allow n = Some (Err e) ∨ object_refused e ∨
      (syntax_failed e ∧ ∀ m, 0 ≤ m → window_admitted syntax_limits base m →
         object_refused e ∨ file_envelope target allow m = None)
  | Err Panicked => False
  end.

Lemma file_envelope_attempt `{ParserRuntime} target allow syntax_limits cap n calls :
  0 ≤ n → window_admitted syntax_limits (target_xref_offset target) n →
  syntax_limits_ok syntax_limits → from_option (λ cap, 0 ≤ cap ≤ u64_max) True cap →
  envelope_attempted target allow syntax_limits cap n
    (parse_envelope (reading_context target allow syntax_limits cap)
       (bytes_of (target_xref_offset target) n) MayContinue calls).2.
Proof.
  intros Hn Hw Hl Hcap. pose proof (bytes_of_length (target_xref_offset target) n Hn) as Hlen.
  pose proof (parse_envelope_settled (reading_context target allow syntax_limits cap)
    (bytes_of (target_xref_offset target) n) calls) as Hs.
  cbn [ec_syntax_limits ec_xref_offset ec_max_retained_bytes reading_context] in Hs.
  rewrite Hlen in Hs. specialize (Hs Hw Hl Hcap). cbv zeta in Hs.
  assert (∀ m, 0 ≤ m → read_envelope (reading_context target allow syntax_limits cap)
    (target_xref_offset target + m) 0 (bytes_of (target_xref_offset target) m) =
    file_envelope target allow m) as Hfile by done.
  unfold settled, envelope_attempted in *. rewrite app_nil_r, Hlen, Hfile in Hs by done.
  destruct (parse_envelope _ _ _ _).2 as [a|[e|]]; [|destruct Hs as [?|[?|[He Hs]]]|done].
  - destruct Hs as [?|(b&?&k&?&?)]; [by left|right; eauto].
  - by left.
  - by right; left.
  - right. right. split; [done|]. intros m Hm Hwm.
    assert (object_refused e ∨ file_envelope target allow (Z.max n m) = None) as [?|Hnone]; [| by left|].
    + specialize (Hs (bytes_of (target_xref_offset target + n) (Z.max n m - n))).
      rewrite <-bytes_of_app in Hs by lia. replace (n + (Z.max n m - n)) with (Z.max n m) in Hs by lia.
      rewrite bytes_of_length, Hfile in Hs by lia. apply Hs.
      destruct (Z.max_spec n m) as [[_ ->]|[_ ->]]; done.
    + right. destruct (file_envelope target allow m) eqn:Hd; [|done].
      erewrite file_envelope_grows in Hnone; [done| |done]. lia.
Qed.

Definition boundary_attempted `{ParserRuntime} (target : IndirectObjectTarget) (data_end : Z)
    (syntax_limits : SyntaxLimits) (n : Z)
    (outcome : result (failure ObjectError) BoundaryParse) : Prop :=
  match outcome with
  | Ok a =>
      (a = BoundaryNeedMore (data_end + n + 1) ∧ file_boundary target data_end n = None) ∨
      ∃ b, file_boundary target data_end n = Some (Ok b) ∧ a = BoundaryComplete b
  | Err (Rejected e) =>
      file_boundary target data_end n = Some (Err e) ∨ object_refused e ∨
      (syntax_failed e ∧ ∀ m, 0 ≤ m → window_admitted syntax_limits data_end m →
         object_refused e ∨ file_boundary target data_end m = None)
  | Err Panicked => False
  end.

Lemma dbind_None {A B} (d : decision A) (f : A → B) :
  dbind d (λ b, Some (Ok (f b))) = None → d = None.
Proof. by destruct d as [[]|]. Qed.

Lemma dbind_Err {A B} (d : decision A) (f : A → B) e :
  dbind d (λ b, Some (Ok (f b))) = Some (Err e) → d = Some (Err e).
Proof. destruct d as [[]|]; naive_solver. Qed.

Lemma file_boundary_attempt `{ParserRuntime} target data_end syntax_limits cap n calls :
  0 ≤ n → window_admitted syntax_limits data_end n →
  syntax_limits_ok syntax_limits → from_option (λ cap, 0 ≤ cap ≤ u64_max) True cap →
  boundary_attempted target data_end syntax_limits n
    (parse_boundary
       {| bc_source := snapshot_identity (target_snapshot target);
          bc_reference := target_reference target; bc_data_end := data_end;
          bc_syntax_limits := syntax_limits; bc_max_retained_bytes := cap |}
       (bytes_of data_end n) MayContinue calls).2.
Proof.
  intros Hn Hw Hl Hcap. pose proof (bytes_of_length data_end n Hn) as Hlen.
  pose proof (parse_boundary_settled
    {| bc_source := snapshot_identity (target_snapshot target);
       bc_reference := target_reference target; bc_data_end := data_end;
       bc_syntax_limits := syntax_limits; bc_max_retained_bytes := cap |}
    (bytes_of data_end n) calls) as Hs.
  cbn [bc_syntax_limits bc_data_end bc_max_retained_bytes bc_source bc_reference] in Hs.
  rewrite Hlen in Hs. specialize (Hs Hw Hl Hcap). cbv zeta in Hs.
  assert (∀ m, 0 ≤ m → read_boundary (snapshot_identity (target_snapshot target))
    (target_reference target) (data_end + m) (bytes_of data_end m) =
    file_boundary target data_end m) as Hfile by done.
  unfold settled, boundary_attempted in *. rewrite app_nil_r, Hlen, Hfile in Hs by done.
  destruct (parse_boundary _ _ _ _).2 as [a|[e|]]; [|destruct Hs as [Hs|[?|[He Hs]]]|done].
  - destruct Hs as [[? ?%dbind_None]|(b&Hb&->)]; [by left|right].
    apply dbind_Ok in Hb as (b'&->&[= <-]). eauto.
  - left. by apply dbind_Err in Hs.
  - by right; left.
  - right. right. split; [done|]. intros m Hm Hwm.
    assert (object_refused e ∨ file_boundary target data_end (Z.max n m) = None) as [?|Hnone]; [| by left|].
    + specialize (Hs (bytes_of (data_end + n) (Z.max n m - n))).
      rewrite <-bytes_of_app in Hs by lia. replace (n + (Z.max n m - n)) with (Z.max n m) in Hs by lia.
      rewrite bytes_of_length, Hfile in Hs by lia. destruct Hs as [?|?%dbind_None]; [|by left|by right].
      destruct (Z.max_spec n m) as [[_ ->]|[_ ->]]; done.
    + right. destruct (file_boundary target data_end m) eqn:Hd; [|done].
      erewrite file_boundary_grows in Hnone; [done| |done]. lia.
Qed.
End file.
