(* ===== verification/ObjectRuns.v ===== *)
(** * Runs of object jobs

    The rules for the methods of a job over an honest source: how a poll of the
    source, an attempt and the probe end, what a charge and the growth of a window
    do, and why a job fails. *)

From stdpp Require Import base list numbers option strings.
From S2P Require Import Prelude.
From S2P Require Import SourceTypes.
From S2P Require Import SyntaxTypes.
From S2P Require Import RangeTypes.
From S2P Require Import RangeSegments.
From S2P Require Import SyntaxState.
From S2P Require Import SyntaxRules.
From S2P Require Import DocumentTypes.
From S2P Require Import ObjectTypes.
From S2P Require Import ObjectParser.
From S2P Require Import ObjectJob.
From S2P Require Import ObjectReader.
From S2P Require Import ObjectAttempts.
From S2P Require Import ObjectFile.

(** Offsets that a job at [target] may read. *)
Definition asked (target : IndirectObjectTarget) (range : ByteRange) : Prop :=
  range_ok range ∧ target_xref_offset target - prefix_bytes target ≤ range_start range ∧
  ByteRange_end_exclusive range ≤ target_object_upper_bound target.

(** What a job promises its source: the requests it may make. *)
Definition asks (target : IndirectObjectTarget) (context : ObjectJobContext) (request : ReadRequest)
    : Prop :=
  asked target (request_range request) ∧ request_job request = context_job context ∧
  request_priority request = context_priority context ∧
  (request_checkpoint request = context_envelope_checkpoint context ∨
   request_checkpoint request = context_boundary_checkpoint context).

(** What a source promises a job: while [source_ok] holds, a poll the job may make
    does not panic, and bytes it delivers for that range, of the source that the
    target names, are those of the file. *)
Class HonestSource (S : Type) `{ByteSource S} (file : Z → Z) (target : IndirectObjectTarget)
    (context : ObjectJobContext) : Type := {
  source_ok : S → Prop;
  source_honest : ∀ request s, source_ok s → asks target context request →
    ∃ s' polled, source_poll request s = (s', Some polled) ∧ source_ok s' ∧
      ∀ slice, polled = PollReady slice →
        slice_identity slice = snapshot_identity (target_snapshot target) →
        slice_range slice = request_range request →
        slice_bytes slice = bytes_of file (range_start (request_range request))
                              (range_len (request_range request))
}.

(** ** Methods of jobs *)

Section runs.
Context `{ParserRuntime} {S : Type} `{ByteSource S} {J P : Type}.
Implicit Types r : JobRun S J.

(** [m] ends with a value of [Q], or returns a poll of [E] early. *)
Definition jobs {A} (m : JobM S J P A) r (Q : JobRun S J → A → Prop) (E : JobRun S J → P → Prop)
    : Prop :=
  match m r with
  | (r', Ok a) => Q r' a
  | (r', Err (Rejected poll)) => E r' poll
  | (_, Err Panicked) => False
  end.

Lemma jobs_ret {A} (a : A) r (Q : _ → _ → Prop) E : Q r a → jobs (mret a) r Q E.
Proof. done. Qed.

Lemma jobs_answer {A} poll r (Q : JobRun S J → A → Prop) (E : _ → _ → Prop) :
  E r poll → jobs (answer poll) r Q E.
Proof. done. Qed.

Lemma jobs_bind {A B} (m : JobM S J P A) (k : A → JobM S J P B) r Q R E :
  jobs m r Q E → (∀ r' a, Q r' a → jobs (k a) r' R E) → jobs (m ≫= k) r R E.
Proof.
  unfold jobs, mbind, M_bind. intros Hm Hk. destruct (m r) as [r' [a|[poll|]]]; [by apply Hk|done..].
Qed.

Lemma jobs_mono {A} (m : JobM S J P A) r (Q Q' : _ → _ → Prop) (E E' : _ → _ → Prop) :
  jobs m r Q E → (∀ r' a, Q r' a → Q' r' a) → (∀ r' poll, E r' poll → E' r' poll) → jobs m r Q' E'.
Proof. unfold jobs. destruct (m r) as [r' [a|[poll|]]]; auto. Qed.

Lemma jobs_job {B} (k : J → JobM S J P B) r Q E : jobs (k (run_job r)) r Q E → jobs (job ≫= k) r Q E.
Proof. done. Qed.

Definition with_job (f : J → J) r : JobRun S J :=
  {| run_job := f (run_job r); run_world := run_world r |}.

Lemma jobs_set {B} f (k : JobM S J P B) r Q E : jobs k (with_job f r) Q E → jobs (set_job f;; k) r Q E.
Proof. done. Qed.

Lemma jobs_snapshot {B} (k : SourceSnapshot → JobM S J P B) r Q E :
  jobs (k (source_snapshot (world_source (run_world r)))) r Q E → jobs (snapshot ≫= k) r Q E.
Proof. done. Qed.

Lemma jobs_is_cancelled {B} (k : bool → JobM S J P B) r Q E :
  (∀ c b, (b = true → ∃ n, parser_cancelled n = true) → jobs (k b) (with_calls c r) Q E) →
  jobs (is_cancelled ≫= k) r Q E.
Proof. intros Hk. unfold jobs, mbind, M_bind, is_cancelled. apply Hk. eauto. Qed.

Lemma jobs_attempt {X A B} (m : M RuntimeCalls (failure X) A)
    (k : result X A → JobM S J P B) r Q E :
  (m (world_calls (run_world r))).2 ≠ Err Panicked →
  (∀ c outcome, (m (world_calls (run_world r))).2 =
       match outcome with Ok a => Ok a | Err e => Err (Rejected e) end →
     jobs (k outcome) (with_calls c r) Q E) →
  jobs (attempt m ≫= k) r Q E.
Proof.
  unfold jobs, mbind, M_bind, attempt. intros Hm Hk.
  destruct (m _) as [c [a|[e|]]]; cbn [snd] in *; [|..|done].
  - by apply (Hk c (Ok a)).
  - by apply (Hk c (Err e)).
Qed.

Lemma jobs_fail_with {X A} failed poll (error : X) r (Q : _ → A → Prop) (E : _ → _ → Prop) :
  E (with_job (failed error) r) (poll error) → jobs (fail_with failed poll error) r Q E.
Proof. done. Qed.

(** [match x { Ok(a) => a, Err(error) => return self.fail(error) }]. *)
Lemma jobs_try {X A B} failed poll (x : result X A) (k : A → JobM S J P B) r Q E :
  (∀ e, x = Err e → E (with_job (failed e) r) (poll e)) →
  (∀ a, x = Ok a → jobs (k a) r Q E) →
  jobs (match x with Ok a => mret a | Err e => fail_with failed poll e end ≫= k) r Q E.
Proof. intros He Hk. destruct x as [a|e]; [by apply Hk|by apply He]. Qed.

Lemma jobs_ok_or {A B} (o : option A) (k : A → JobM S J P B) r Q E a :
  o = Some a → jobs (k a) r Q E → jobs (ok_or o Panicked ≫= k) r Q E.
Proof. by intros ->. Qed.

Context (file : Z → Z) (target : IndirectObjectTarget) (context : ObjectJobContext)
  `{!HonestSource S file target context}.

(** The source of a run is one that keeps its promise. *)
Definition run_ok r : Prop := source_ok (world_source (run_world r)).

Definition with_source s r : JobRun S J :=
  {| run_job := run_job r;
     run_world := {| world_source := s; world_calls := world_calls (run_world r) |} |}.

(** A source answered a request for [range] so. *)
Definition source_answered (range : ByteRange) (polled : ReadPoll) : Prop :=
  ∃ request s, source_ok s ∧ asks target context request ∧ request_range request = range ∧
    (source_poll request s).2 = Some polled.

(** The source that left [s'] answered a request for [range] with this ticket. *)
Definition awaiting (range : ByteRange) (checkpoint : Z) (ticket : DataTicket)
    (missing : list ByteRange) (s' : S) : Prop :=
  ∃ s, source_ok s ∧ asked target range ∧
    source_poll {| request_range := range; request_priority := context_priority context;
                   request_job := context_job context; request_checkpoint := checkpoint |} s =
      (s', Some (PollPending ticket missing)).

Lemma jobs_poll {B} request (k : ReadPoll → JobM S J P B) r Q E :
  run_ok r → asks target context request →
  (∀ s polled, source_ok s → source_answered (request_range request) polled →
     source_poll request (world_source (run_world r)) = (s, Some polled) →
     (∀ slice, polled = PollReady slice → slice_identity slice = snapshot_identity (target_snapshot target) →
        slice_range slice = request_range request →
        slice_bytes slice = bytes_of file (range_start (request_range request))
                              (range_len (request_range request))) →
     jobs (k polled) (with_source s r) Q E) →
  jobs (poll_source request ≫= k) r Q E.
Proof.
  intros Hr Hrange Hk. unfold jobs, mbind, M_bind, poll_source.
  destruct (source_honest request _ Hr Hrange) as (s'&polled&Hp&Hs'&Hbytes). rewrite Hp.
  apply Hk; [done| |done..]. exists request, (world_source (run_world r)). by rewrite Hp.
Qed.
End runs.

(** ** Budgets *)

Definition stats_ok (caps : ObjectWorkCaps) (s : ObjectStats) : Prop :=
  0 ≤ os_read_bytes s ≤ caps_max_read_bytes caps ∧
  0 ≤ os_parse_bytes s ≤ caps_max_parse_bytes caps ∧
  0 ≤ os_envelope_attempts s ∧ 0 ≤ os_boundary_attempts s ∧
  os_envelope_attempts s + os_boundary_attempts s ≤ os_read_bytes s ∧
  0 ≤ os_declared_stream_bytes s ≤ u64_max ∧ retains (caps_max_retained_bytes caps) (os_retained_heap_bytes s).

Lemma stats_default_ok caps :
  0 ≤ caps_max_read_bytes caps → 0 ≤ caps_max_parse_bytes caps →
  from_option (λ cap, 0 ≤ cap ≤ u64_max) True (caps_max_retained_bytes caps) →
  stats_ok caps ObjectStats_default.
Proof.
  intros ?? Hcap. unfold stats_ok, retains, ObjectStats_default. simpl.
  assert (u64_max = 18446744073709551615) by reflexivity. destruct (caps_max_retained_bytes caps); simpl in *; lia.
Qed.

Lemma stats_retained caps n stats :
  stats_ok caps stats → retains (caps_max_retained_bytes caps) n →
  stats_ok caps (set_retained_heap_bytes n stats).
Proof. by intros (?&?&?&?&?&?&?) ?. Qed.

Lemma stats_declared caps n stats :
  stats_ok caps stats → 0 ≤ n ≤ u64_max → stats_ok caps (set_declared_stream_bytes n stats).
Proof. by intros (?&?&?&?&?&?&?) ?. Qed.

(** A budget of work that a charge would exceed. *)
Definition budget_exceeded (caps : ObjectWorkCaps) (e : ObjectError) : Prop :=
  oe_code e = ObjectResourceLimit ∧ ∃ kind limit consumed attempted,
    oe_detail e = DetailLimit {| object_limit_kind := kind; object_limit_limit := limit;
                                 object_limit_consumed := consumed;
                                 object_limit_attempted := attempted |} ∧
    limit < consumed + attempted ∧
    (kind = TotalReadBytes ∧ limit = caps_max_read_bytes caps ∨
     kind = TotalParseBytes ∧ limit = caps_max_parse_bytes caps).

Lemma charge_read_run caps stats amount reference offset :
  caps_max_read_bytes caps ≤ u64_max →
  match charge_read stats caps amount reference offset with
  | Ok s => s = set_read_bytes (os_read_bytes stats + amount) stats ∧
            os_read_bytes stats + amount ≤ caps_max_read_bytes caps
  | Err e => budget_exceeded caps e
  end.
Proof.
  intros Hc. unfold charge_read, charge_total_bytes.
  destruct (checked_add _ _ _) eqn:Ha; checked_facts; subst; cbn [require mbind result_bind].
  - destruct (caps_max_read_bytes caps <? _) eqn:Hl; checked_facts; [|done].
    split; [done|]. eexists _, _, _, _. split; [done|]. split; [lia|by left].
  - split; [done|]. eexists _, _, _, _. split; [done|]. split; [lia|by left].
Qed.

Lemma charge_parse_run caps stats amount reference offset :
  caps_max_parse_bytes caps ≤ u64_max →
  match charge_parse stats caps amount reference offset with
  | Ok s => s = set_parse_bytes (os_parse_bytes stats + amount) stats ∧
            os_parse_bytes stats + amount ≤ caps_max_parse_bytes caps
  | Err e => budget_exceeded caps e
  end.
Proof.
  intros Hc. unfold charge_parse, charge_total_bytes.
  destruct (checked_add _ _ _) eqn:Ha; checked_facts; subst; cbn [require mbind result_bind].
  - destruct (caps_max_parse_bytes caps <? _) eqn:Hl; checked_facts; [|done].
    split; [done|]. eexists _, _, _, _. split; [done|]. split; [lia|by right].
  - split; [done|]. eexists _, _, _, _. split; [done|]. split; [lia|by right].
Qed.

(** ** Windows *)

(** The error of a window that may not grow. *)
Definition window_error (target : IndirectObjectTarget) (base cap available : Z)
    (kind : ObjectLimitKind) (current : Z) : ObjectError :=
  if Z.min cap available =? available
  then ObjectError_for_code ObjectCrossesPhysicalBound (Some (target_reference target))
         (Some (target_object_upper_bound target))
  else ObjectError_resource kind cap current 1 (Some (target_reference target)) (Some base).

Lemma grow_run target base current available cap kind :
  0 ≤ base → 1 ≤ current ≤ Z.min cap available → cap ≤ HARD_MAX_TOTAL_BYTES →
  grow_or_fail target base current available cap (base + current + 1) kind =
    if current =? Z.min cap available
    then Err (window_error target base cap available kind current)
    else Ok (Z.min (current * 2) (Z.min cap available)).
Proof.
  intros Hb Hc Hcap. unfold grow_or_fail, window_error.
  assert (HARD_MAX_TOTAL_BYTES = 268435456) by reflexivity.
  assert (u64_max = 18446744073709551615) by reflexivity.
  assert (checked_sub (base + current + 1) base = Some (current + 1)) as ->
    by (apply checked_sub_Some; lia).
  cbn [require mbind result_bind]. set (m := Z.min cap available) in *.
  destruct (current =? m) eqn:Hm; checked_facts.
  - rewrite (proj2 (Z.leb_le m current)) by lia. cbn [orb].
    destruct (m =? available); [done|]. unfold saturating_sub. do 3 f_equal. lia.
  - rewrite (proj2 (Z.leb_gt m current)), (proj2 (Z.ltb_ge m (current + 1))) by lia. cbn [orb].
    unfold saturating_mul. rewrite (Z.min_r u64_max) by lia.
    replace (Z.max (current * 2) (current + 1)) with (current * 2) by lia.
    rewrite (proj2 (Z.leb_gt _ current)) by lia. done.
Qed.

(** [cap] is reached after [k] doublings of [window]. *)
Definition doublings (k : nat) (window cap : Z) : Prop := cap ≤ window * 2 ^ Z.of_nat k.

Lemma doublings_next k window cap :
  0 < window < cap → doublings k window cap → ∃ k', k = Datatypes.S k' ∧ doublings k' (Z.min (window * 2) cap) cap.
Proof.
  unfold doublings. intros Hw Hk. destruct k as [|k]; [simpl in Hk; lia|]. exists k. split; [done|].
  rewrite Nat2Z.inj_succ, Z.pow_succ_r in Hk by lia.
  assert (1 ≤ 2 ^ Z.of_nat k) by (apply (Z.pow_le_mono_r 2 0); lia).
  destruct (Z.min_spec (window * 2) cap) as [[_ ->]|[_ ->]]; nia.
Qed.

Lemma doublings_cap k window cap : 1 ≤ window → cap ≤ 2 ^ Z.of_nat k → doublings k window cap.
Proof.
  unfold doublings. intros Hw Hc. assert (0 < 2 ^ Z.of_nat k) by (apply Z.pow_pos_nonneg; lia). nia.
Qed.

(** ** Why jobs fail *)

Lemma validate_slice_ok slice range target u :
  validate_slice slice range target = Ok u →
  slice_identity slice = snapshot_identity (target_snapshot target) ∧ slice_range slice = range.
Proof.
  unfold validate_slice. intros (?&Hid%fail_if_ok&Hr%fail_if_ok)%result_bind_ok.
  apply negb_false_iff, bool_decide_eq_true_1 in Hid, Hr. done.
Qed.

Section failures.
Context `{ParserRuntime} {S : Type} `{ByteSource S} (file : Z → Z).
Context (target : IndirectObjectTarget) (context : ObjectJobContext) (limits : ObjectLimits)
  (syntax_limits : SyntaxLimits) (caps : ObjectWorkCaps).
Context `{!HonestSource S file target context}.
Local Notation reference := (target_reference target).
Local Notation bound := (target_object_upper_bound target).
Local Notation answered := (source_answered (S := S) file target context).

(** The longest window that a job may read. *)
Definition widest_read : Z :=
  Z.min (Z.max (ol_max_envelope_bytes limits) (ol_max_boundary_bytes limits))
    (bound - (target_xref_offset target - prefix_bytes target)).

Definition asked_window (range : ByteRange) : Prop := asked target range ∧ range_len range ≤ widest_read.

(** The source, the runtime or a budget is why. *)
Inductive world_failure (e : ObjectError) : Prop :=
| failed_snapshot s :
    source_ok s → source_snapshot s ≠ target_snapshot target →
    e = ObjectError_for_code SnapshotMismatch (Some reference) None → world_failure e
| failed_identity range slice :
    asked_window range → answered range (PollReady slice) →
    slice_identity slice ≠ snapshot_identity (target_snapshot target) →
    e = ObjectError_for_code SnapshotMismatch (Some reference) None → world_failure e
| failed_slice range slice :
    asked_window range → answered range (PollReady slice) → slice_range slice ≠ range →
    e = ObjectError_for_code ObjectInternalState (Some reference) (Some (range_start range)) →
    world_failure e
| failed_eof range offset :
    asked_window range → answered range PollEndOfFile →
    e = ObjectError_for_code UnexpectedEndOfSource (Some reference) (Some offset) →
    world_failure e
| failed_source range error offset :
    asked_window range → answered range (PollFailed error) →
    e = from_source error (Some reference) (Some offset) → world_failure e
| failed_refused : object_refused e → world_failure e
| failed_budget : budget_exceeded caps e → world_failure e.

Lemma validate_failure slice range e :
  asked_window range → answered range (PollReady slice) → validate_slice slice range target = Err e →
  world_failure e.
Proof.
  unfold validate_slice. intros Hasked Hans.
  destruct (decide (slice_identity slice = snapshot_identity (target_snapshot target))) as [Hid|Hid].
  - rewrite (bool_decide_eq_true_2 _ Hid). cbn [negb fail_if mbind result_bind].
    destruct (decide (slice_range slice = range)) as [Hr|Hr].
    + by rewrite (bool_decide_eq_true_2 _ Hr).
    + rewrite (bool_decide_eq_false_2 _ Hr). intros [= <-]. by eapply failed_slice.
  - rewrite (bool_decide_eq_false_2 _ Hid). intros [= <-]. by eapply failed_identity.
Qed.

(** The window cap, counted from the first byte read. *)
Definition envelope_available : Z := bound - target_xref_offset target + prefix_bytes target.
Definition envelope_cap : Z := Z.min (ol_max_envelope_bytes limits) envelope_available.
Definition boundary_cap (data_end : Z) : Z := Z.min (ol_max_boundary_bytes limits) (bound - data_end).

(** The envelope is malformed on every window, or undecided on the largest. *)
Inductive envelope_undecided (allow : bool) (e : ObjectError) : Prop :=
| envelope_malformed :
    syntax_failed e →
    (∀ m, 0 ≤ m → window_admitted syntax_limits (target_xref_offset target) m →
       object_refused e ∨ file_envelope file target allow m = None) →
    envelope_undecided allow e
| envelope_window :
    file_envelope file target allow (envelope_cap - prefix_bytes target) = None →
    e = window_error target (target_xref_offset target - prefix_bytes target)
          (ol_max_envelope_bytes limits) envelope_available EnvelopeBytes envelope_cap →
    envelope_undecided allow e.

Inductive boundary_undecided (data_end : Z) (e : ObjectError) : Prop :=
| boundary_malformed :
    syntax_failed e →
    (∀ m, 0 ≤ m → window_admitted syntax_limits data_end m →
       object_refused e ∨ file_boundary file target data_end m = None) →
    boundary_undecided data_end e
| boundary_window :
    file_boundary file target data_end (boundary_cap data_end) = None →
    e = window_error target data_end (ol_max_boundary_bytes limits) (bound - data_end)
          BoundaryBytes (boundary_cap data_end) →
    boundary_undecided data_end e.
End failures.
