(* ===== verification/ObjectJobRuns.v ===== *)
(** * Runs of the one-shot job

    From any state a job reaches, over an honest source, a poll ends: with the
    object that the file denotes, pending on a charged window, or failed for a
    reason that [job_failure] lists. *)

From stdpp Require Import base list numbers option strings.
From S2P Require Import Prelude.
From S2P Require Import SourceTypes.
From S2P Require Import SyntaxTypes.
From S2P Require Import RangeTypes.
From S2P Require Import RangeSegments.
From S2P Require Import SyntaxState.
From S2P Require Import SyntaxRules.
From S2P Require Import SyntaxReader.
From S2P Require Import DocumentTypes.
From S2P Require Import ObjectTypes.
From S2P Require Import ObjectParser.
From S2P Require Import ObjectJob.
From S2P Require Import ObjectReader.
From S2P Require Import ObjectAttempts.
From S2P Require Import ObjectFile.
From S2P Require Import ObjectRuns.

Section job.
Context `{ParserRuntime} {S : Type} `{ByteSource S} (file : Z → Z).
Context (target : IndirectObjectTarget) (source_len : Z) (context : ObjectJobContext)
  (limits : ObjectLimits) (syntax_limits : SyntaxLimits) (caps : ObjectWorkCaps).
Context `{!HonestSource S file target context}.
Hypothesis Hsetup : setup_ok target limits syntax_limits caps.
Local Notation reference := (target_reference target).
Local Notation bound := (target_object_upper_bound target).
Local Notation xref := (target_xref_offset target).
Local Notation prefix := (prefix_bytes target).
Local Notation awaits := (awaiting (S := S) file target context).
Implicit Types (stats : ObjectStats) (state : JobState).

Definition range_at (start window : Z) : ByteRange :=
  {| range_start := start; range_len := window |}.

(** A run of this job. *)
Definition job_at stats state : OpenObjectJob :=
  {| job_target := target; job_source_len := source_len; job_context := context;
     job_limits := limits; job_work_caps := caps; job_syntax_limits := syntax_limits;
     job_stats := stats; job_state := state |}.
Definition at_job (world : World S) stats state : JobRun S OpenObjectJob :=
  {| run_job := job_at stats state; run_world := world |}.

(** The payload of the stream that the file denotes at the target. *)
Definition stream_at (parsed : ParsedStreamEnvelope) (data_span : ByteSpan) : Prop :=
  ∃ value span, pe_declared_length parsed = DirectLength value span ∧
    denoted_envelope file target false = Some (Ok (EnvelopeStream parsed)) ∧
    payload_span target limits (pe_data_start parsed) value span = Ok data_span.

Inductive job_failure (e : ObjectError) : Prop :=
| job_world : world_failure (S := S) file target context limits caps e → job_failure e
| job_denied : (∀ n, denoted_object file target limits n = Some (Err e)) → job_failure e
| job_envelope :
    starts_object file target = true →
    envelope_undecided file target limits syntax_limits false e → job_failure e
| job_boundary parsed data_span :
    stream_at parsed data_span →
    boundary_undecided file target limits syntax_limits (ByteSpan_end_exclusive data_span) e →
    job_failure e.

(** The stored envelope is the denoted one, with what its values retain. *)
Definition prepared_ok (envelope : PreparedStreamEnvelope) : Prop :=
  ∃ parsed value span,
    pe_declared_length parsed = DirectLength value span ∧
    denoted_envelope file target false = Some (Ok (EnvelopeStream parsed)) ∧
    payload_span target limits (pe_data_start parsed) value span = Ok (prepared_data_span envelope) ∧
    EnvelopeStream (prepared_parsed envelope) =
      retain (pe_retained_heap_bytes (prepared_parsed envelope)) (EnvelopeStream parsed) ∧
    prepared_length_claim envelope = direct_claim target (pe_declared_length parsed) value.

Definition job_state_ok stats state : Prop :=
  match state with
  | JobEnvelope window _ => 1 ≤ window ≤ envelope_cap target limits
  | JobStreamBoundary envelope window _ =>
      prepared_ok envelope ∧
      os_retained_heap_bytes stats = pe_retained_heap_bytes (prepared_parsed envelope) ∧
      os_declared_stream_bytes stats = span_len (prepared_data_span envelope) ∧
      1 ≤ window ≤ boundary_cap target limits (ByteSpan_end_exclusive (prepared_data_span envelope))
  | JobComplete => True
  | JobFailed e => job_failure e
  end.

(** What a poll answers, with the state that it leaves. *)
Inductive job_answer (world : World S) stats : JobState → ObjectPoll → Prop :=
| answer_ready object :
    denoted_object file target limits (os_retained_heap_bytes stats) = Some (Ok object) →
    job_answer world stats JobComplete (ObjectReady object)
| answer_pending_envelope window ticket missing :
    awaits (range_at (xref - prefix) window) (context_envelope_checkpoint context) ticket missing
      (world_source world) →
    job_answer world stats (JobEnvelope window true)
      (ObjectPending ticket missing (context_envelope_checkpoint context))
| answer_pending_boundary envelope window ticket missing :
    let data_end := ByteSpan_end_exclusive (prepared_data_span envelope) in
    awaits (range_at data_end window) (context_boundary_checkpoint context) ticket missing
      (world_source world) →
    job_answer world stats (JobStreamBoundary envelope window true)
      (ObjectPending ticket missing (context_boundary_checkpoint context))
| answer_failed e : job_failure e → job_answer world stats (JobFailed e) (ObjectFailed e).

Definition job_run_ok (r : JobRun S OpenObjectJob) : Prop :=
  ∃ world stats state, r = at_job world stats state ∧ source_ok (world_source world) ∧
    stats_ok caps stats ∧ job_state_ok stats state.

Definition job_ends (r : JobRun S OpenObjectJob) (poll : ObjectPoll) : Prop :=
  ∃ world stats state, r = at_job world stats state ∧ source_ok (world_source world) ∧
    stats_ok caps stats ∧ job_state_ok stats state ∧ job_answer world stats state poll.

(** Rounds that are enough from a state. *)
Definition rounds (fuel : nat) state : Prop :=
  match state with
  | JobEnvelope window _ =>
      ∃ k, doublings k window (envelope_cap target limits) ∧ (k + 24 ≤ fuel)%nat
  | JobStreamBoundary envelope window _ =>
      ∃ k, doublings k window
             (boundary_cap target limits (ByteSpan_end_exclusive (prepared_data_span envelope))) ∧
           (k + 1 ≤ fuel)%nat
  | _ => True
  end.

Definition job_goes (fuel : nat) (r : JobRun S OpenObjectJob) : Prop :=
  ∃ world stats state, r = at_job world stats state ∧ source_ok (world_source world) ∧
    stats_ok caps stats ∧ job_state_ok stats state ∧ rounds fuel state ∧
    match state with JobEnvelope _ _ | JobStreamBoundary _ _ _ => True | _ => False end.

Definition round_ends (fuel : nat) (r : JobRun S OpenObjectJob) (outcome : option ObjectPoll) : Prop :=
  match outcome with Some poll => job_ends r poll | None => job_goes fuel r end.

Lemma prefix_range : 0 ≤ prefix ≤ 1 ∧ prefix ≤ xref.
Proof.
  unfold prefix_bytes. destruct (xref =? 0) eqn:Hx; checked_facts; setup_facts Hsetup; lia.
Qed.

(** ** Failures *)

Lemma ends_failed {A} e world stats state (Q : _ → A → Prop) :
  source_ok (world_source world) → stats_ok caps stats → job_failure e →
  jobs (job_fail e) (at_job world stats state) Q job_ends.
Proof.
  intros Hw Hs He. apply jobs_fail_with.
  exists world, stats, (JobFailed e). split_and!; try done. by constructor.
Qed.

Lemma ends_try {A B} (x : result ObjectError A) (k : A → JobM S _ _ B) world stats state Q :
  source_ok (world_source world) → stats_ok caps stats →
  (∀ e, x = Err e → job_failure e) →
  (∀ a, x = Ok a → jobs (k a) (at_job world stats state) Q job_ends) →
  jobs (job_try x ≫= k) (at_job world stats state) Q job_ends.
Proof.
  intros Hw Hs He Hk. destruct x as [a|e]; [by apply Hk|].
  eapply (jobs_bind _ _ _ (λ _ _, False)); [by apply ends_failed; [..|apply He]|done].
Qed.

Lemma ends_some {A B} (x : option A) offset (k : A → JobM S _ _ B) r Q E a :
  x = Some a → jobs (k a) r Q E → jobs (job_some x offset ≫= k) r Q E.
Proof. by intros ->. Qed.

Lemma ends_cancelled {B} offset (k : unit → JobM S _ _ B) world stats state Q :
  source_ok (world_source world) → stats_ok caps stats →
  (∀ calls, jobs (k tt) (at_job {| world_source := world_source world; world_calls := calls |} stats state)
              Q job_ends) →
  jobs (fail_if_cancelled offset ≫= k) (at_job world stats state) Q job_ends.
Proof.
  intros Hw Hs Hk. eapply (jobs_bind _ _ _ (λ r' _, ∃ calls, r' = at_job
    {| world_source := world_source world; world_calls := calls |} stats state)).
  2:{ intros r' [] [calls ->]. apply Hk. }
  apply jobs_job, jobs_is_cancelled. intros c b Hb. destruct b; [|by eexists].
  apply (ends_failed _ {| world_source := world_source world; world_calls := c |}); [done..|].
  apply job_world, failed_refused. right. split; [apply for_code_facts|by apply Hb].
Qed.

(** ** Charges *)

Definition counter (attempts : ObjectStats → Z) (set_attempts : Z → ObjectStats → ObjectStats) : Prop :=
  (attempts = os_envelope_attempts ∧ set_attempts = set_envelope_attempts) ∨
  (attempts = os_boundary_attempts ∧ set_attempts = set_boundary_attempts).

(** The stats after a charge differ in what it counts only. *)
Definition same_objects stats stats' : Prop :=
  os_retained_heap_bytes stats' = os_retained_heap_bytes stats ∧
  os_declared_stream_bytes stats' = os_declared_stream_bytes stats.

Lemma ends_charge_window {B} window charged start offset charged_state attempts set_attempts
    (k : unit → JobM S _ _ B) world stats state Q :
  counter attempts set_attempts → source_ok (world_source world) → stats_ok caps stats →
  1 ≤ window → (charged = true → state = charged_state) →
  (∀ stats', stats_ok caps stats' → same_objects stats stats' →
     (charged = true → stats' = stats) →
     jobs (k tt) (at_job world stats' charged_state) Q job_ends) →
  jobs (charge_window window charged start offset charged_state attempts set_attempts ≫= k)
    (at_job world stats state) Q job_ends.
Proof.
  intros Hcount Hw Hs Hwin Hst Hk. unfold charge_window. destruct charged.
  { rewrite Hst by done. by apply Hk. }
  eapply (jobs_bind _ _ _ (λ r' _, ∃ stats', r' = at_job world stats' charged_state ∧
    stats_ok caps stats' ∧ same_objects stats stats')).
  2:{ intros r' [] (stats'&->&?&?). by apply Hk. }
  eapply (jobs_bind _ _ _ (λ r' _, r' = at_job world (set_read_bytes (os_read_bytes stats + window) stats)
    state ∧ os_read_bytes stats + window ≤ caps_max_read_bytes caps)).
  { apply jobs_job. setup_facts Hsetup.
    pose proof (charge_read_run caps stats window reference (Some start)) as Hc.
    apply ends_try; [done..| |].
    - intros e He. cbn [job_stats job_work_caps job_target run_job at_job job_at] in He.
      rewrite He in Hc. apply job_world, failed_budget. apply Hc. lia.
    - intros s Hrun. cbn [job_stats job_work_caps job_target run_job at_job job_at] in Hrun.
      rewrite Hrun in Hc. destruct Hc as [-> Hc]; [lia|]. by split. }
  intros r' [] [-> Hread]. apply jobs_job. setup_facts Hsetup.
  destruct Hs as (?&?&?&?&?&?&?).
  destruct Hcount as [[-> ->]|[-> ->]]; (eapply ends_some; [apply checked_add_Some; split; [|reflexivity];
    simpl; lia|]); eexists; (split; [reflexivity|]); unfold stats_ok, same_objects; simpl; split_and!;
    try done; lia.
Qed.

Lemma ends_charge_parse {B} amount offset (k : unit → JobM S _ _ B) world stats state Q :
  source_ok (world_source world) → stats_ok caps stats → 0 ≤ amount →
  (∀ stats', stats_ok caps stats' → same_objects stats stats' →
     jobs (k tt) (at_job world stats' state) Q job_ends) →
  jobs (job_charge_parse amount offset ≫= k) (at_job world stats state) Q job_ends.
Proof.
  intros Hw Hs Ha Hk.
  eapply (jobs_bind _ _ _ (λ r' _, ∃ stats', r' = at_job world stats' state ∧
    stats_ok caps stats' ∧ same_objects stats stats')).
  2:{ intros r' [] (stats'&->&?&?). by apply Hk. }
  apply jobs_job. setup_facts Hsetup. pose proof (charge_parse_run caps stats amount reference offset) as Hc.
  apply ends_try; [done..| |].
  - intros e He. cbn [job_stats job_work_caps job_target run_job at_job job_at] in He.
    rewrite He in Hc. apply job_world, failed_budget. apply Hc. lia.
  - intros s Hrun. cbn [job_stats job_work_caps job_target run_job at_job job_at] in Hrun.
    rewrite Hrun in Hc. destruct Hc as [-> Hc]; [lia|]. destruct Hs as (?&?&?&?&?&?&?).
    eexists. split; [reflexivity|]. unfold stats_ok, same_objects. simpl. split_and!; try done; lia.
Qed.

(** ** Reads *)

Lemma asked_range start window :
  xref - prefix ≤ start → 1 ≤ window → start + window ≤ bound → asked target (range_at start window).
Proof.
  intros. pose proof prefix_range. setup_facts Hsetup.
  split_and!; unfold ByteRange_end_exclusive; simpl; [|lia..].
  split; unfold ByteRange_end_exclusive; simpl; lia.
Qed.

(** The windows of both states are ranges that the job may read. *)
Lemma envelope_asked window :
  1 ≤ window ≤ envelope_cap target limits → asked_window target limits (range_at (xref - prefix) window).
Proof.
  intros Hw. pose proof prefix_range. unfold envelope_cap, envelope_available in Hw.
  split; [apply asked_range; lia|]. unfold widest_read. simpl. lia.
Qed.

Lemma boundary_asked data_end window :
  xref - prefix ≤ data_end → 1 ≤ window ≤ boundary_cap target limits data_end →
  asked_window target limits (range_at data_end window).
Proof.
  intros Hd Hw. unfold boundary_cap in Hw. split; [apply asked_range; lia|]. unfold widest_read. simpl. lia.
Qed.

Lemma ends_window_range {B} start window offset (k : ByteRange → JobM S _ _ B) world stats state Q E :
  asked target (range_at start window) →
  jobs (k (range_at start window)) (at_job world stats state) Q E →
  jobs (window_range start window offset ≫= k) (at_job world stats state) Q E.
Proof.
  intros ([? Hlen Hend]&?&Hbound) Hk. unfold window_range. simpl in Hlen.
  unfold ByteRange_end_exclusive in *. simpl in Hend, Hbound.
  eapply (jobs_bind _ _ _ (λ r' a, r' = at_job world stats state ∧ a = range_at start window)).
  2:{ by intros r' a [-> ->]. }
  apply jobs_job. unfold ByteRange_new. assert ((window =? 0) = false) as -> by lia.
  assert (checked_add u64_max start window = Some (start + window)) as -> by (apply checked_add_Some; lia).
  cbn [orb]. rewrite bool_decide_eq_false_2 by done. cbn [job_target run_job at_job job_at].
  unfold ByteRange_end_exclusive. cbn [range_start range_len].
  assert ((start + window <=? bound) = true) as -> by lia. by apply jobs_ret.
Qed.

Lemma ends_read_window {B} range checkpoint offset (k : ByteSlice → JobM S _ _ B) world stats state Q :
  asked_window target limits range →
  checkpoint = context_envelope_checkpoint context ∨ checkpoint = context_boundary_checkpoint context →
  source_ok (world_source world) → stats_ok caps stats →
  (∀ world' ticket missing, source_ok (world_source world') →
     awaits range checkpoint ticket missing (world_source world') →
     job_ends (at_job world' stats state) (ObjectPending ticket missing checkpoint)) →
  (∀ world' slice, source_ok (world_source world') →
     slice_bytes slice = bytes_of file (range_start range) (range_len range) →
     jobs (k slice) (at_job world' stats state) Q job_ends) →
  jobs (read_window range checkpoint offset ≫= k) (at_job world stats state) Q job_ends.
Proof.
  intros Hasked Hpoint Hw Hs Hpending Hk.
  eapply (jobs_bind _ _ _ (λ r' slice, ∃ world', r' = at_job world' stats state ∧
    source_ok (world_source world') ∧
    slice_bytes slice = bytes_of file (range_start range) (range_len range))).
  2:{ intros r' slice (world'&->&?&?). by apply Hk. }
  unfold read_window. apply jobs_job. cbv zeta.
  assert (Hreq := proj1 Hasked).
  apply (jobs_poll file target context); [done|done|].
  intros s polled Hs' Hans Hpoll Hbytes. cbn [request_range] in *.
  set (world' := {| world_source := s; world_calls := world_calls world |}).
  change (with_source s (at_job world stats state)) with (at_job world' stats state).
  destruct polled as [slice|ticket missing| |error].
  - apply ends_try; [done..| |].
    + intros e He. apply job_world. by eapply validate_failure.
    + intros [] [Hid Hr]%validate_slice_ok. apply jobs_ret. exists world'. split_and!; [done..|]. by apply Hbytes.
  - apply jobs_answer. apply Hpending; [done|]. exists (world_source world). split; [done|]. by split.
  - apply ends_failed; [done..|]. apply job_world. by eapply failed_eof.
  - apply ends_failed; [done..|]. apply job_world. by eapply failed_source.
Qed.

(** ** The envelope *)

Lemma envelope_cap_facts window :
  1 ≤ window ≤ envelope_cap target limits →
  0 ≤ window - prefix ∧ xref - prefix + window ≤ bound ∧
  window_admitted syntax_limits xref (window - prefix) ∧
  window - prefix ≤ object_extent target.
Proof.
  intros Hw. pose proof prefix_range. setup_facts Hsetup.
  unfold envelope_cap, envelope_available in Hw. unfold window_admitted, object_extent. lia.
Qed.

(** What the envelope attempts decide is what is denoted. *)
Lemma envelope_denoted n d :
  starts_object file target = true → 0 ≤ n ≤ object_extent target →
  file_envelope file target false n = Some d → denoted_envelope file target false = Some d.
Proof.
  intros Hstart Hn Hd. unfold denoted_envelope. rewrite Hstart. by eapply file_envelope_grows.
Qed.

Lemma denoted_error e :
  denoted_envelope file target false = Some (Err e) → job_failure e.
Proof. intros He. apply job_denied. intros n. unfold denoted_object. by rewrite He. Qed.

Lemma denoted_no_more n : denoted_envelope file target false ≠ Some (Ok (EnvelopeNeedMore n)).
Proof.
  unfold denoted_envelope. destruct (negb _); [done|]. intros He.
  by destruct (read_envelope_placed _ _ _ _ _ He).
Qed.

Lemma complete_direct_ends fuel parsed b n world stats state :
  source_ok (world_source world) → stats_ok caps stats →
  denoted_envelope file target false = Some (Ok b) → EnvelopeDirect parsed = retain n b →
  retains (caps_max_retained_bytes caps) n →
  jobs (complete_direct parsed) (at_job world stats state) (round_ends fuel) job_ends.
Proof.
  intros Hw Hs Hb Hparsed Hn. destruct b as [m|b|b]; [done| |done]. injection Hparsed as ->.
  unfold complete_direct. apply jobs_job. apply ends_cancelled; [done..|]. intros calls.
  cbn [job_target run_job at_job job_at]. apply ends_try; [done..| |].
  - intros e He. apply job_denied. intros k. unfold denoted_object. rewrite Hb. cbn [dbind].
    unfold direct_object. simpl in He. by rewrite He.
  - intros sp Hsp. apply jobs_set, jobs_set, jobs_ret. simpl in Hsp.
    eexists _, (set_retained_heap_bytes n stats), JobComplete. split; [done|].
    split; [done|]. split; [by apply stats_retained|]. split; [done|].
    constructor. unfold denoted_object. rewrite Hb. cbn [dbind]. unfold direct_object. by rewrite Hsp.
Qed.

Lemma denoted_stream_placed b value span data_span :
  denoted_envelope file target false = Some (Ok (EnvelopeStream b)) →
  pe_declared_length b = DirectLength value span →
  payload_span target limits (pe_data_start b) value span = Ok data_span →
  data_span = {| span_start := pe_data_start b; span_len := value |} ∧
  xref ≤ pe_data_start b ∧ 0 ≤ value ≤ u64_max ∧ ByteSpan_end_exclusive data_span < bound.
Proof.
  intros Hb Hd Hp. setup_facts Hsetup. unfold denoted_envelope in Hb. destruct (negb _); [done|].
  unfold file_envelope in Hb. apply read_envelope_placed in Hb. simpl in Hb.
  destruct Hb as (Hlow&_&Hv). rewrite Hd in Hv. simpl in Hv.
  unfold object_extent in Hlow. unfold offset_of in Hlow. rewrite bytes_of_length in Hlow by lia.
  unfold payload_span in Hp. destruct (_ <? _) eqn:Hmax; [done|]. checked_facts.
  destruct (checked_add _ _ _) as [data_end|] eqn:Ha; [|done]. checked_facts. subst.
  cbn [require fail_if mbind result_bind] in Hp. destruct (_ <=? _) eqn:Hbound; [done|]. checked_facts.
  cbn [fail_if mbind result_bind] in Hp. unfold ByteSpan_new in Hp.
  assert (checked_add u64_max (pe_data_start b) value = Some (pe_data_start b + value)) as Ha'
    by (apply checked_add_Some; lia). rewrite Ha' in Hp. injection Hp as <-.
  unfold ByteSpan_end_exclusive. simpl. split_and!; [done|lia..].
Qed.

Lemma prepare_stream_ends fuel envelope b n world stats state :
  source_ok (world_source world) → stats_ok caps stats →
  denoted_envelope file target false = Some (Ok b) → EnvelopeStream envelope = retain n b →
  retains (caps_max_retained_bytes caps) n → (23 ≤ fuel)%nat →
  jobs (prepare_stream envelope) (at_job world stats state) (round_ends fuel) job_ends.
Proof.
  intros Hw Hs Hb Henv Hn Hfuel. destruct b as [m|b|b]; [done|done|]. injection Henv as ->.
  unfold prepare_stream. apply jobs_job. cbn [pe_declared_length pe_data_start pe_retained_heap_bytes].
  destruct (pe_declared_length b) as [value span|r span] eqn:Hd.
  - cbn [job_target job_limits run_job at_job job_at]. apply ends_try; [done..| |].
    + intros e He. apply job_denied. intros k. unfold denoted_object. rewrite Hb. cbn [dbind].
      rewrite Hd. unfold denoted_stream. cbn [claim_value direct_claim StreamLengthClaim_direct].
      rewrite Hd. cbn [operand_span]. by rewrite He.
    + intros data_span Hp.
      destruct (denoted_stream_placed _ _ _ _ Hb Hd Hp) as (Hspan&Hlow&Hv&Hbound).
      assert (checked_sub bound (ByteSpan_end_exclusive data_span) =
        Some (bound - ByteSpan_end_exclusive data_span)) as -> by (apply checked_sub_Some; lia).
      destruct (bound - ByteSpan_end_exclusive data_span) as [|remaining|] eqn:Hrem; [lia| |lia].
      apply jobs_set, jobs_set, jobs_ret. rewrite <-Hrem. setup_facts Hsetup.
      eexists _, _, (JobStreamBoundary _ _ _). split; [reflexivity|]. split; [done|].
      assert (1 ≤ Z.min (ol_initial_boundary_bytes limits) (bound - ByteSpan_end_exclusive data_span) ≤
        boundary_cap target limits (ByteSpan_end_exclusive data_span)) as Hwin
        by (unfold boundary_cap; lia).
      split.
      { apply stats_retained; [|done]. apply stats_declared; [done|]. rewrite Hspan. simpl. lia. }
      split; [|split; [|done]].
      * split; [|by split; [|split]]. exists b, value, span. split_and!; try done; simpl; by rewrite Hd.
      * exists 22%nat. split; [|lia]. apply doublings_cap; [exact (proj1 Hwin)|].
        unfold boundary_cap. change (2 ^ Z.of_nat 22) with 4194304. simpl. lia.
  - exfalso. unfold denoted_envelope in Hb. destruct (negb _); [done|].
    apply read_envelope_placed in Hb. simpl in Hb. rewrite Hd in Hb. by destruct Hb as (_&_&?).
Qed.

Lemma prefix_window window :
  1 ≤ window →
  head (bytes_of file (xref - prefix) window) = Some (file (xref - prefix)) ∧
  drop (Z.to_nat prefix) (bytes_of file (xref - prefix) window) = bytes_of file xref (window - prefix).
Proof.
  intros Hw. rewrite bytes_of_cons by lia. split; [done|]. unfold prefix_bytes.
  destruct (xref =? 0) eqn:Hx; checked_facts.
  - rewrite Z2Nat.inj_0, drop_0, !Z.sub_0_r. by rewrite (bytes_of_cons _ xref window) by lia.
  - change (Z.to_nat 1) with 1%nat. simpl. by replace (xref - 1 + 1) with xref by lia.
Qed.

Lemma starts_prefix :
  starts_object file target =
    (prefix =? 0) || is_object_header_boundary (file (xref - prefix)).
Proof. unfold starts_object, prefix_bytes. by destruct (xref =? 0). Qed.

Lemma poll_envelope_ends fuel window charged world stats k :
  source_ok (world_source world) → stats_ok caps stats →
  1 ≤ window ≤ envelope_cap target limits →
  doublings k window (envelope_cap target limits) → (k + 24 ≤ Datatypes.S fuel)%nat →
  jobs (poll_envelope window charged) (at_job world stats (JobEnvelope window charged))
    (round_ends fuel) job_ends.
Proof.
  intros Hw Hs Hwin Hk Hfuel. pose proof prefix_range.
  pose proof (envelope_cap_facts window Hwin) as (Hn&Hend&Hadm&Hext).
  unfold poll_envelope. apply jobs_job. cbv zeta.
  cbn [job_target job_limits job_syntax_limits job_work_caps job_context run_job at_job job_at].
  eapply ends_some; [apply checked_sub_Some; split; [lia|reflexivity]|].
  apply ends_window_range; [apply asked_range; lia|].
  eapply ends_charge_window; [by left|done|done|lia|by intros ->|]. intros stats1 Hs1 _ _.
  apply ends_read_window; [by apply envelope_asked|by left|done|done|..].
  { intros world' ticket missing Hw' Hans. exists world', stats1, (JobEnvelope window true).
    split_and!; try done. by constructor. }
  intros world1 slice Hw1 Hslice. cbn [range_start range_len range_at] in Hslice.
  apply ends_charge_parse; [done|done|lia|]. intros stats2 Hs2 _.
  pose proof usize_max_cases. assert (u64_max = 18446744073709551615) by reflexivity.
  assert (u32_max = 4294967295) by reflexivity.
  eapply ends_some; [apply try_from_Some; split; [lia|reflexivity]|].
  rewrite Hslice. destruct (prefix_window window) as [Hhead ->]; [lia|].
  eapply (jobs_bind _ _ _ (λ r' ok, r' = at_job world1 stats2 (JobEnvelope window true) ∧
    ok = starts_object file target)).
  { rewrite starts_prefix. destruct (prefix =? 0); [done|]. by rewrite Hhead. }
  intros r' ok [-> ->]. destruct (starts_object file target) eqn:Hstart; cbn [negb].
  2:{ apply ends_failed; [done..|]. apply denoted_error. unfold denoted_envelope. by rewrite Hstart. }
  pose proof (file_envelope_attempt file target false syntax_limits (caps_max_retained_bytes caps)
    (window - prefix) (world_calls world1) Hn Hadm (so_syntax _ _ _ _ Hsetup)
    (so_retained _ _ _ _ Hsetup)) as Hatt.
  unfold reading_context in Hatt. apply jobs_attempt; cbn [run_world at_job]; [intros He; by rewrite He in Hatt|].
  intros c outcome Hout. rewrite Hout in Hatt.
  set (world2 := {| world_source := world_source world1; world_calls := c |}).
  change (with_calls c (at_job world1 stats2 (JobEnvelope window true)))
    with (at_job world2 stats2 (JobEnvelope window true)).
  destruct outcome as [a|e]; simpl in Hatt.
  - destruct Hatt as [[-> Hnone]|(b&n&Hb&Hret&->)].
    + eapply ends_some; [apply checked_sub_Some; split; [lia|reflexivity]|].
      replace (xref + (window - prefix) + 1) with (xref - prefix + window + 1) by lia.
      replace (bound - (xref - prefix)) with (envelope_available target) by (unfold envelope_available; lia).
      setup_facts Hsetup. rewrite grow_run by (unfold envelope_cap in *; lia).
      change (Z.min (ol_max_envelope_bytes limits) (envelope_available target)) with (envelope_cap target limits).
      destruct (window =? envelope_cap target limits) eqn:Hcap; checked_facts.
      * apply ends_try; [done..| |done]. intros e [= <-]. apply job_envelope; [done|].
        rewrite Hcap in Hnone. apply envelope_window; [done|]. by rewrite Hcap.
      * apply ends_try; [done..| |]; [done|]. intros next [= <-]. apply jobs_set, jobs_ret.
        destruct (doublings_next k window (envelope_cap target limits)) as (k'&->&Hk'); [lia|done|].
        eexists _, _, (JobEnvelope _ _). split; [reflexivity|]. split; [done|]. split; [done|].
        split; [simpl; lia|]. split; [|done]. exists k'. split; [done|lia].
    + apply envelope_denoted in Hb; [|done|lia]. destruct (retain n b) as [m|parsed|envelope] eqn:Hp.
      * destruct b; [|done..]. by apply denoted_no_more in Hb.
      * by eapply complete_direct_ends.
      * eapply prepare_stream_ends; try done. lia.
  - apply ends_failed; [done..|]. destruct Hatt as [He|[He|[He Hnone]]].
    + apply denoted_error. by apply envelope_denoted in He; [|done|lia].
    + by apply job_world, failed_refused.
    + apply job_envelope; [done|]. by apply envelope_malformed.
Qed.


(** ** The boundary *)

Lemma prepared_stream envelope :
  prepared_ok envelope →
  (∃ parsed, stream_at parsed (prepared_data_span envelope)) ∧
  xref ≤ ByteSpan_end_exclusive (prepared_data_span envelope) < bound.
Proof.
  intros (parsed&value&span&Hd&Hb&Hp&_&_). split; [by exists parsed, value, span|].
  destruct (denoted_stream_placed _ _ _ _ Hb Hd Hp) as (Hspan&?&?&?). split; [|done].
  rewrite Hspan. unfold ByteSpan_end_exclusive. simpl. lia.
Qed.

(** What the boundary decides is what is denoted. *)
Lemma boundary_denoted envelope m d :
  prepared_ok envelope →
  let data_end := ByteSpan_end_exclusive (prepared_data_span envelope) in
  0 ≤ m ≤ bound - data_end → file_boundary file target data_end m = Some d →
  ∀ n, denoted_object file target limits n =
    Some (boundary ← d; stream_object target n (prepared_parsed envelope)
                          (prepared_length_claim envelope) (prepared_data_span envelope) boundary).
Proof.
  intros (parsed&value&span&Hd&Hb&Hp&Hret&Hclaim) data_end Hm Hbd n.
  apply (file_boundary_grows _ _ _ _ (bound - data_end)) in Hbd; [|lia].
  unfold denoted_object. rewrite Hb. cbn [dbind]. rewrite Hd. unfold denoted_stream.
  cbn [claim_value direct_claim StreamLengthClaim_direct]. rewrite Hd. cbn [operand_span].
  rewrite Hp, Hclaim. fold data_end. rewrite Hbd. injection Hret as Hret. rewrite Hret.
  rewrite Hd. by destruct d.
Qed.

Lemma complete_stream_ends fuel envelope boundary m world stats state :
  source_ok (world_source world) → stats_ok caps stats → prepared_ok envelope →
  os_retained_heap_bytes stats = pe_retained_heap_bytes (prepared_parsed envelope) →
  let data_end := ByteSpan_end_exclusive (prepared_data_span envelope) in
  0 ≤ m ≤ bound - data_end → file_boundary file target data_end m = Some (Ok boundary) →
  jobs (complete_stream envelope boundary) (at_job world stats state) (round_ends fuel) job_ends.
Proof.
  intros Hw Hs Henv Hret data_end Hm Hb. pose proof (boundary_denoted envelope m _ Henv Hm Hb) as Hden.
  cbn [mbind result_bind] in Hden. unfold stream_object in Hden.
  unfold complete_stream. apply jobs_job. apply ends_cancelled; [done..|]. intros calls.
  cbn [job_target run_job at_job job_at]. apply ends_try; [done..| |].
  - intros e He. apply job_denied. intros n. by rewrite Hden, He.
  - intros sp Hsp. apply jobs_set, jobs_ret. eexists _, stats, JobComplete. split; [done|].
    split; [done|]. split; [done|]. split; [done|]. constructor. by rewrite Hden, Hsp, Hret.
Qed.

Lemma remaining_retained stats offset :
  stats_ok caps stats →
  ∃ remaining, remaining_retained_bytes caps (os_retained_heap_bytes stats) target offset = Ok remaining ∧
    from_option (λ cap, 0 ≤ cap ≤ u64_max) True remaining.
Proof.
  intros (_&_&_&_&_&_&Hret&Hcap). unfold remaining_retained_bytes.
  pose proof (so_retained _ _ _ _ Hsetup) as Hok.
  destruct (caps_max_retained_bytes caps) as [cap|]; simpl in *; [|by exists None].
  exists (Some (cap - os_retained_heap_bytes stats)).
  assert (checked_sub cap (os_retained_heap_bytes stats) = Some (cap - os_retained_heap_bytes stats)) as ->
    by (apply checked_sub_Some; lia).
  split; [done|]. simpl. lia.
Qed.

Lemma poll_boundary_ends fuel envelope window charged world stats k :
  source_ok (world_source world) → stats_ok caps stats →
  job_state_ok stats (JobStreamBoundary envelope window charged) →
  doublings k window (boundary_cap target limits (ByteSpan_end_exclusive (prepared_data_span envelope))) →
  (k + 1 ≤ Datatypes.S fuel)%nat →
  jobs (poll_boundary envelope window charged)
    (at_job world stats (JobStreamBoundary envelope window charged)) (round_ends fuel) job_ends.
Proof.
  intros Hw Hs (Henv&Hret&Hdecl&Hwin) Hk Hfuel. pose proof prefix_range.
  destruct (prepared_stream envelope Henv) as ([parsed Hstream]&Hend).
  set (data_end := ByteSpan_end_exclusive (prepared_data_span envelope)) in *.
  assert (window ≤ bound - data_end ∧ window_admitted syntax_limits data_end window) as [Hext Hadm].
  { setup_facts Hsetup. unfold boundary_cap in Hwin. unfold window_admitted. lia. }
  unfold poll_boundary. apply jobs_job. cbv zeta. fold data_end.
  cbn [job_target job_limits job_syntax_limits job_work_caps job_context run_job at_job job_at].
  apply ends_window_range; [apply asked_range; lia|].
  eapply ends_charge_window; [by right|done|done|lia|by intros ->|]. intros stats1 Hs1 [Hr1 Hd1] _.
  apply ends_read_window; [apply boundary_asked; [lia|done]|by right|done|done|..].
  { intros world' ticket missing Hw' Hans. exists world', stats1, (JobStreamBoundary envelope window true).
    split; [done|]. split; [done|]. split; [done|]. split; [|by constructor].
    split; [done|]. split; [congruence|]. split; [congruence|done]. }
  intros world1 slice Hw1 Hslice. cbn [range_start range_len range_at] in Hslice.
  apply ends_charge_parse; [done|done|lia|]. intros stats2 Hs2 [Hr2 Hd2]. apply jobs_job.
  cbn [job_stats job_work_caps run_job at_job job_at].
  destruct (remaining_retained stats2 None Hs2) as (remaining&Hrem&Hcap).
  apply ends_try; [done..|by rewrite Hrem|]. intros a Ha. rewrite Hrem in Ha. injection Ha as <-.
  rewrite Hslice.
  pose proof (file_boundary_attempt file target data_end syntax_limits remaining window
    (world_calls world1) ltac:(lia) Hadm (so_syntax _ _ _ _ Hsetup) Hcap) as Hatt.
  apply jobs_attempt; cbn [run_world at_job]; [intros He; by rewrite He in Hatt|].
  intros c outcome Hout. rewrite Hout in Hatt.
  set (world2 := {| world_source := world_source world1; world_calls := c |}).
  change (with_calls c (at_job world1 stats2 (JobStreamBoundary envelope window true)))
    with (at_job world2 stats2 (JobStreamBoundary envelope window true)).
  destruct outcome as [a|e]; simpl in Hatt.
  - destruct Hatt as [[-> Hnone]|(b&Hb&->)].
    + eapply ends_some; [apply checked_sub_Some; split; [lia|reflexivity]|].
      setup_facts Hsetup. rewrite grow_run by (unfold boundary_cap in *; lia).
      change (Z.min (ol_max_boundary_bytes limits) (bound - data_end)) with (boundary_cap target limits data_end).
      destruct (window =? boundary_cap target limits data_end) eqn:Hc; checked_facts.
      * apply ends_try; [done..| |done]. intros e [= <-]. apply (job_boundary _ parsed _ Hstream).
        fold data_end. rewrite Hc in Hnone. apply boundary_window; [done|]. by rewrite Hc.
      * apply ends_try; [done..| |]; [done|]. intros next [= <-]. apply jobs_set, jobs_ret.
        destruct (doublings_next k window (boundary_cap target limits data_end)) as (k'&->&Hk'); [lia|done|].
        eexists world2, stats2, (JobStreamBoundary envelope _ false). split; [reflexivity|].
        split; [done|]. split; [done|]. split; [|split; [|done]].
        -- split; [done|]. split; [congruence|]. split; [congruence|]. fold data_end. lia.
        -- exists k'. split; [done|lia].
    + apply (complete_stream_ends fuel envelope b window); try done; [congruence|fold data_end; lia].
  - apply ends_failed; [done..|]. destruct Hatt as [He|[He|[He Hnone]]].
    + apply job_denied. intros n. by rewrite (boundary_denoted envelope window _ Henv ltac:(fold data_end; lia) He).
    + by apply job_world, failed_refused.
    + apply (job_boundary _ parsed _ Hstream). by apply boundary_malformed.
Qed.

(** ** Polls *)

Lemma poll_step_ends fuel r :
  job_goes (Datatypes.S fuel) r → jobs poll_step r (round_ends fuel) job_ends.
Proof.
  intros (world&stats&state&->&Hw&Hs&Hst&Hrounds&Hflight). unfold poll_step.
  apply jobs_job, jobs_snapshot. cbn [job_target run_job at_job job_at run_world].
  case_bool_decide as Hsnap; cbn [negb].
  2:{ apply ends_failed; [done..|]. apply job_world. by eapply failed_snapshot. }
  apply ends_cancelled; [done..|]. intros calls. cbn [job_state].
  destruct state as [window charged|envelope window charged| |e]; [| |done|done].
  - destruct Hrounds as (k&?&?). by eapply poll_envelope_ends.
  - destruct Hrounds as (k&?&?). by eapply poll_boundary_ends.
Qed.

Lemma poll_loop_ends fuel r :
  job_goes fuel r → fuel ≠ O → jobs (poll_loop fuel) r job_ends job_ends.
Proof.
  revert r. induction fuel as [|fuel IH]; intros r Hr Hf; [done|]. cbn [poll_loop].
  eapply jobs_bind; [by apply poll_step_ends|]. intros r' [poll|] Hr'; [done|]. apply IH; [done|].
  destruct Hr' as (?&?&state&_&_&_&_&Hrounds&Hflight). intros ->.
  destruct state; try done; destruct Hrounds as (?&_&?); lia.
Qed.

(** What a poll answers in any state. *)
Definition job_polled (r : JobRun S OpenObjectJob) (r' : JobRun S OpenObjectJob) (poll : ObjectPoll) : Prop :=
  match job_state (run_job r) with
  | JobComplete =>
      r' = r ∧ poll = ObjectFailed (ObjectError_for_code JobAlreadyComplete (Some reference) None)
  | JobFailed e => r' = r ∧ poll = ObjectFailed e
  | _ => job_ends r' poll
  end.

Lemma job_goes_start world stats state :
  source_ok (world_source world) → stats_ok caps stats → job_state_ok stats state →
  match state with JobEnvelope _ _ | JobStreamBoundary _ _ _ => True | _ => False end →
  job_goes poll_fuel (at_job world stats state).
Proof.
  intros Hw Hs Hst Hflight. eexists _, _, _. split; [reflexivity|]. split_and!; [done| |done| |done]; [done|].
  setup_facts Hsetup. destruct state as [window charged|envelope window charged| |]; try done.
  - exists 26%nat. split; [|unfold poll_fuel; lia]. apply doublings_cap; [apply Hst|].
    unfold envelope_cap. change (2 ^ Z.of_nat 26) with 67108864. lia.
  - exists 22%nat. split; [|unfold poll_fuel; lia]. apply doublings_cap; [apply Hst|].
    unfold boundary_cap. change (2 ^ Z.of_nat 22) with 4194304. lia.
Qed.

Lemma job_poll_run r :
  job_run_ok r →
  ∃ r' poll, OpenObjectJob_poll r = (r', Some poll) ∧ job_run_ok r' ∧ job_polled r r' poll.
Proof.
  intros (world&stats&state&->&Hw&Hs&Hst).
  assert (match state with JobEnvelope _ _ | JobStreamBoundary _ _ _ => True | _ => False end →
    jobs OpenObjectJob_poll_inner (at_job world stats state) job_ends job_ends) as Hloop.
  { intros Hflight. pose proof (poll_loop_ends poll_fuel _ (job_goes_start _ _ _ Hw Hs Hst Hflight) ltac:(done)).
    unfold OpenObjectJob_poll_inner. apply jobs_job. cbn [run_job at_job job_state job_at]. by destruct state. }
  unfold OpenObjectJob_poll, job_polled. cbn [run_job at_job job_state job_at].
  destruct state as [window charged|envelope window charged| |e].
  1, 2: specialize (Hloop I); unfold jobs in Hloop;
    destruct (OpenObjectJob_poll_inner _) as [r' [poll|[poll|]]]; [..|done]; eexists _, _;
    (split; [reflexivity|]); (split; [|done]); destruct Hloop as (?&?&?&?&?&?&?&_); by eexists _, _, _.
  1, 2: eexists _, _; split; [reflexivity|]; split; [|done]; by eexists _, _, _.
Qed.
End job.
