(* ===== verification/ObjectStagedRuns.v ===== *)
(** * Runs of the staged jobs

    As for the one-shot job: what the envelope job and the boundary job answer from
    any state they reach, over an honest source. *)

From stdpp Require Import base list numbers option strings.
From S2P Require Import Prelude.
From S2P Require Import SourceTypes.
From S2P Require Import SyntaxTypes.
From S2P Require Import RangeTypes.
From S2P Require Import RangeSegments.
From S2P Require Import SyntaxState.
From S2P Require Import SyntaxRules.
From S2P Require Import DocumentTypes.
From S2P Require Import ObjectTypes.
From S2P Require Import ObjectParser.
From S2P Require Import ObjectJob.
From S2P Require Import ObjectStaged.
From S2P Require Import ObjectReader.
From S2P Require Import ObjectAttempts.
From S2P Require Import ObjectFile.
From S2P Require Import ObjectRuns.
From S2P Require Import ObjectJobRuns.

(** ** The envelope job *)

Section envelope_job.
Context `{ParserRuntime} {S : Type} `{ByteSource S} (file : Z → Z).
Context (target : IndirectObjectTarget) (source_len : Z) (context : ObjectJobContext)
  (limits : ObjectLimits) (syntax_limits : SyntaxLimits) (caps : ObjectWorkCaps).
Context `{!HonestSource S file target context}.
Hypothesis Hsetup : setup_ok target limits syntax_limits caps.
Local Notation reference := (target_reference target).
Local Notation bound := (target_object_upper_bound target).
Local Notation xref := (target_xref_offset target).
Local Notation prefix := (prefix_bytes target).
Local Notation answered := (source_answered (S := S) file target context).
Local Notation awaits := (awaiting (S := S) file target context).
Implicit Types (stats : ObjectStats) (state : EnvelopeJobState).

Definition envelope_job_at stats state : OpenObjectEnvelopeJob :=
  {| ej_target := target; ej_source_len := source_len; ej_context := context;
     ej_limits := limits; ej_work_caps := caps; ej_syntax_limits := syntax_limits;
     ej_stats := stats; ej_state := state |}.
Definition at_envelope_job (world : World S) stats state : JobRun S OpenObjectEnvelopeJob :=
  {| run_job := envelope_job_at stats state; run_world := world |}.

Inductive envelope_job_failure (e : ObjectError) : Prop :=
| envelope_job_world : world_failure (S := S) file target context limits caps e → envelope_job_failure e
| envelope_job_denied :
    denoted_envelope file target true = Some (Err e) → envelope_job_failure e
| envelope_job_span parsed :
    denoted_envelope file target true = Some (Ok (EnvelopeDirect parsed)) →
    (∀ n, direct_object target n parsed = Err e) → envelope_job_failure e
| envelope_job_undecided :
    starts_object file target = true →
    envelope_undecided file target limits syntax_limits true e → envelope_job_failure e.

(** A stream envelope as the job hands it on, with the work done so far. *)
Definition sealed_envelope (parsed : ParsedStreamEnvelope) stats : StreamEnvelope :=
  {| envelope_target := target; envelope_header_span := pe_header_span parsed;
     envelope_dictionary := pe_dictionary parsed;
     envelope_declared_length := pe_declared_length parsed;
     envelope_stream_keyword_span := pe_stream_keyword_span parsed;
     envelope_stream_line_ending_span := pe_stream_line_ending_span parsed;
     envelope_data_start := pe_data_start parsed;
     envelope_retained_heap_bytes := os_retained_heap_bytes stats;
     envelope_context := context; envelope_limits := limits; envelope_work_caps := caps;
     envelope_syntax_limits := syntax_limits; envelope_stats := stats |}.

Definition envelope_state_ok state : Prop :=
  match state with
  | EnvelopeReading window _ => 1 ≤ window ≤ envelope_cap target limits
  | EnvelopeComplete => True
  | EnvelopeJobFailed e => envelope_job_failure e
  end.

Inductive envelope_answer (world : World S) stats : EnvelopeJobState → ObjectEnvelopePoll → Prop :=
| envelope_answer_direct parsed object :
    denoted_envelope file target true = Some (Ok (EnvelopeDirect parsed)) →
    direct_object target (os_retained_heap_bytes stats) parsed = Ok object →
    envelope_answer world stats EnvelopeComplete (EnvelopeDirectObject object)
| envelope_answer_stream parsed :
    denoted_envelope file target true = Some (Ok (EnvelopeStream parsed)) →
    os_declared_stream_bytes stats = default 0 (direct_value (pe_declared_length parsed)) →
    envelope_answer world stats EnvelopeComplete (EnvelopeStreamObject (sealed_envelope parsed stats))
| envelope_answer_pending window ticket missing :
    awaits (range_at (xref - prefix) window) (context_envelope_checkpoint context) ticket missing
      (world_source world) →
    envelope_answer world stats (EnvelopeReading window true)
      (EnvelopePending ticket missing (context_envelope_checkpoint context))
| envelope_answer_failed e :
    envelope_job_failure e → envelope_answer world stats (EnvelopeJobFailed e) (EnvelopeFailed e).

Definition envelope_run_ok (r : JobRun S OpenObjectEnvelopeJob) : Prop :=
  ∃ world stats state, r = at_envelope_job world stats state ∧ source_ok (world_source world) ∧
    stats_ok caps stats ∧ envelope_state_ok state.

Definition envelope_ends (r : JobRun S OpenObjectEnvelopeJob) (poll : ObjectEnvelopePoll) : Prop :=
  ∃ world stats state, r = at_envelope_job world stats state ∧ source_ok (world_source world) ∧
    stats_ok caps stats ∧ envelope_state_ok state ∧ envelope_answer world stats state poll.

Definition envelope_goes (fuel : nat) (r : JobRun S OpenObjectEnvelopeJob) : Prop :=
  ∃ world stats window charged k, r = at_envelope_job world stats (EnvelopeReading window charged) ∧
    source_ok (world_source world) ∧ stats_ok caps stats ∧ 1 ≤ window ≤ envelope_cap target limits ∧
    doublings k window (envelope_cap target limits) ∧ (k + 1 ≤ fuel)%nat.

Definition envelope_round (fuel : nat) (r : JobRun S OpenObjectEnvelopeJob)
    (outcome : option ObjectEnvelopePoll) : Prop :=
  match outcome with Some poll => envelope_ends r poll | None => envelope_goes fuel r end.

Lemma ej_failed e world stats state :
  source_ok (world_source world) → stats_ok caps stats → envelope_job_failure e →
  envelope_ends (with_job (set_ej_state (EnvelopeJobFailed e)) (at_envelope_job world stats state))
    (EnvelopeFailed e).
Proof.
  intros Hw Hs He. exists world, stats, (EnvelopeJobFailed e). split_and!; try done. by constructor.
Qed.

Lemma ej_try_ends {A B} (x : result ObjectError A) (k : A → JobM S _ _ B) world stats state Q :
  source_ok (world_source world) → stats_ok caps stats →
  (∀ e, x = Err e → envelope_job_failure e) →
  (∀ a, x = Ok a → jobs (k a) (at_envelope_job world stats state) Q envelope_ends) →
  jobs (ej_try x ≫= k) (at_envelope_job world stats state) Q envelope_ends.
Proof. intros Hw Hs He Hk. apply jobs_try; [|done]. intros e Hx. apply ej_failed; auto. Qed.

Lemma ej_fail_code_ends {A} code offset world stats state (Q : _ → A → Prop) :
  source_ok (world_source world) → stats_ok caps stats →
  envelope_job_failure (ObjectError_for_code code (Some reference) offset) →
  jobs (ej_fail_code code offset) (at_envelope_job world stats state) Q envelope_ends.
Proof. intros. by apply jobs_job, ej_failed. Qed.

Lemma ej_some_ends {A B} (x : option A) offset (k : A → JobM S _ _ B) r Q a :
  x = Some a → jobs (k a) r Q envelope_ends → jobs (ej_some x offset ≫= k) r Q envelope_ends.
Proof. by intros ->. Qed.

Lemma ej_denoted n d :
  starts_object file target = true → 0 ≤ n ≤ object_extent target →
  file_envelope file target true n = Some d → denoted_envelope file target true = Some d.
Proof.
  intros Hstart Hn Hd. unfold denoted_envelope. rewrite Hstart. by eapply file_envelope_grows.
Qed.

Lemma ej_cancelled {A} offset c world stats state (Q : _ → A → Prop) :
  source_ok (world_source world) → stats_ok caps stats → (∃ n, parser_cancelled n = true) →
  jobs (ej_fail_code ObjectCancelled offset)
    (with_calls c (at_envelope_job world stats state)) Q envelope_ends.
Proof.
  intros Hw Hs Hc.
  apply (ej_fail_code_ends _ _ {| world_source := world_source world; world_calls := c |}); [done..|].
  apply envelope_job_world, failed_refused. right. split; [apply for_code_facts|done].
Qed.

Lemma parse_ready_ends fuel window charged slice world stats k :
  source_ok (world_source world) → stats_ok caps stats →
  1 ≤ window ≤ envelope_cap target limits →
  doublings k window (envelope_cap target limits) → (k + 1 ≤ Datatypes.S fuel)%nat →
  let range := range_at (xref - prefix) window in
  answered range (PollReady slice) →
  (slice_identity slice = snapshot_identity (target_snapshot target) → slice_range slice = range →
   slice_bytes slice = bytes_of file (xref - prefix) window) →
  jobs (parse_ready slice range (xref - prefix) window)
    (at_envelope_job world stats (EnvelopeReading window charged)) (envelope_round fuel) envelope_ends.
Proof.
  intros Hw Hs Hwin Hk Hfuel range Hans Hbytes.
  pose proof (prefix_range target limits syntax_limits caps Hsetup).
  pose proof (envelope_cap_facts target limits syntax_limits caps Hsetup window Hwin) as (Hn&Hend&Hadm&Hext).
  assert (asked_window target limits range) as Hasked by (by eapply envelope_asked).
  unfold parse_ready. apply jobs_job. cbv zeta.
  cbn [ej_target ej_limits ej_syntax_limits ej_work_caps ej_stats run_job at_envelope_job envelope_job_at].
  apply ej_try_ends; [done..| |].
  { intros e He. apply envelope_job_world. by eapply validate_failure. }
  intros [] [Hid Hr]%validate_slice_ok. rewrite (Hbytes Hid Hr).
  pose proof (charge_parse_run caps stats window reference (Some (xref - prefix))) as Hc.
  setup_facts Hsetup. apply ej_try_ends; [done..| |].
  { intros e He. rewrite He in Hc. apply envelope_job_world, failed_budget. apply Hc. lia. }
  intros s Hrun. rewrite Hrun in Hc. destruct Hc as [-> Hc]; [lia|].
  set (stats1 := set_parse_bytes (os_parse_bytes stats + window) stats).
  assert (stats_ok caps stats1) as Hs1.
  { destruct Hs as (?&?&?&?&?&?&?). unfold stats_ok. simpl. split_and!; try done; lia. }
  apply jobs_set. change (with_job (set_ej_stats stats1) (at_envelope_job world stats (EnvelopeReading window charged)))
    with (at_envelope_job world stats1 (EnvelopeReading window charged)).
  pose proof usize_max_cases. assert (u32_max = 4294967295) by reflexivity.
  eapply ej_some_ends; [apply try_from_Some; split; [lia|reflexivity]|].
  destruct (prefix_window file target window) as [Hhead ->]; [lia|].
  eapply (jobs_bind _ _ _ (λ r' ok, r' = at_envelope_job world stats1 (EnvelopeReading window charged) ∧
    ok = starts_object file target)).
  { rewrite starts_prefix. destruct (prefix =? 0); [done|]. by rewrite Hhead. }
  intros r' ok [-> ->]. destruct (starts_object file target) eqn:Hstart; cbn [negb].
  2:{ apply ej_fail_code_ends; [done..|]. apply envelope_job_denied. unfold denoted_envelope. by rewrite Hstart. }
  pose proof (file_envelope_attempt file target true syntax_limits (caps_max_retained_bytes caps)
    (window - prefix) (world_calls world) Hn Hadm (so_syntax _ _ _ _ Hsetup)
    (so_retained _ _ _ _ Hsetup)) as Hatt.
  unfold reading_context in Hatt.
  apply jobs_attempt; cbn [run_world at_envelope_job]; [intros He; by rewrite He in Hatt|].
  intros c outcome Hout. rewrite Hout in Hatt.
  set (world2 := {| world_source := world_source world; world_calls := c |}).
  change (with_calls c (at_envelope_job world stats1 (EnvelopeReading window charged)))
    with (at_envelope_job world2 stats1 (EnvelopeReading window charged)).
  destruct outcome as [a|e]; simpl in Hatt.
  - destruct Hatt as [[-> Hnone]|(b&n&Hb&Hret&->)].
    + eapply ej_some_ends; [apply checked_sub_Some; split; [lia|reflexivity]|].
      replace (xref + (window - prefix) + 1) with (xref - prefix + window + 1) by lia.
      replace (bound - (xref - prefix)) with (envelope_available target) by (unfold envelope_available; lia).
      rewrite grow_run by (unfold envelope_cap in *; lia).
      change (Z.min (ol_max_envelope_bytes limits) (envelope_available target)) with (envelope_cap target limits).
      destruct (window =? envelope_cap target limits) eqn:Hcap; checked_facts.
      * apply ej_try_ends; [done..| |done]. intros e [= <-]. apply envelope_job_undecided; [done|].
        rewrite Hcap in Hnone. apply envelope_window; [done|]. by rewrite Hcap.
      * apply ej_try_ends; [done..| |]; [done|]. intros next [= <-]. apply jobs_set, jobs_ret.
        destruct (doublings_next k window (envelope_cap target limits)) as (k'&->&Hk'); [lia|done|].
        eexists world2, stats1, _, false, k'. split; [reflexivity|]. split; [done|]. split; [done|].
        split; [lia|]. split; [done|lia].
    + apply ej_denoted in Hb; [|done|lia]. destruct b as [m|parsed|parsed].
      * exfalso. unfold denoted_envelope in Hb. rewrite Hstart in Hb. cbn [negb] in Hb.
        by destruct (read_envelope_placed _ _ _ _ _ Hb).
      * cbn [retain]. apply jobs_is_cancelled. intros c2 b Hcancel. destruct b.
        { apply (ej_cancelled _ _ world2); [done..|by apply Hcancel]. }
        apply (ej_try_ends _ _ {| world_source := world_source world; world_calls := c2 |}); [done..| |].
        { intros e He. apply (envelope_job_span _ parsed); [done|]. intros m. unfold direct_object.
          simpl in He. by rewrite He. }
        intros sp Hsp. apply jobs_set, jobs_set, jobs_ret.
        eexists {| world_source := world_source world; world_calls := c2 |},
          (set_retained_heap_bytes n stats1), EnvelopeComplete.
        split; [reflexivity|]. split; [done|]. split; [by apply stats_retained|]. split; [done|].
        eapply envelope_answer_direct; [done|]. unfold direct_object. simpl in Hsp. by rewrite Hsp.
      * cbn [retain]. apply jobs_is_cancelled. intros c2 b Hcancel. destruct b.
        { apply (ej_cancelled _ _ world2); [done..|by apply Hcancel]. }
        apply jobs_set, jobs_set, jobs_ret.
        eexists {| world_source := world_source world; world_calls := c2 |},
          (set_retained_heap_bytes n (set_declared_stream_bytes
             (default 0 (direct_value (pe_declared_length parsed))) stats1)), EnvelopeComplete.
        split; [reflexivity|]. split; [done|].
        assert (0 ≤ default 0 (direct_value (pe_declared_length parsed)) ≤ u64_max) as Hdecl.
        { unfold denoted_envelope in Hb. rewrite Hstart in Hb. cbn [negb] in Hb.
          apply read_envelope_placed in Hb. simpl in Hb. destruct Hb as (_&_&Hv).
          destruct (direct_value _); simpl in *; lia. }
        split; [by apply stats_retained; [apply stats_declared|]|]. split; [done|].
        apply (envelope_answer_stream _ (set_retained_heap_bytes n (set_declared_stream_bytes _ stats1)) parsed); [done|]. reflexivity.
  - assert (envelope_job_failure e) as Hfail.
    { destruct Hatt as [He|[He|[He Hnone]]].
      + apply envelope_job_denied. by apply ej_denoted in He; [|done|lia].
      + by apply envelope_job_world, failed_refused.
      + apply envelope_job_undecided; [done|]. by apply envelope_malformed. }
    apply jobs_fail_with. by apply ej_failed.
Qed.

Lemma poll_read_ends fuel window charged world stats k :
  source_ok (world_source world) → stats_ok caps stats →
  1 ≤ window ≤ envelope_cap target limits →
  doublings k window (envelope_cap target limits) → (k + 1 ≤ Datatypes.S fuel)%nat →
  jobs (poll_read window charged) (at_envelope_job world stats (EnvelopeReading window charged))
    (envelope_round fuel) envelope_ends.
Proof.
  intros Hw Hs Hwin Hk Hfuel.
  pose proof (prefix_range target limits syntax_limits caps Hsetup).
  pose proof (envelope_cap_facts target limits syntax_limits caps Hsetup window Hwin) as (Hn&Hend&Hadm&Hext).
  assert (asked_window target limits (range_at (xref - prefix) window)) as Hasked by (by eapply envelope_asked).
  assert (Hreq := proj1 Hasked).
  unfold poll_read. apply jobs_job. cbv zeta.
  cbn [ej_target ej_limits ej_context ej_work_caps ej_stats run_job at_envelope_job envelope_job_at].
  setup_facts Hsetup.
  eapply ej_some_ends; [apply checked_sub_Some; split; [lia|reflexivity]|].
  assert (ByteRange_new (xref - prefix) window = Ok (range_at (xref - prefix) window)) as ->.
  { unfold ByteRange_new. assert ((window =? 0) = false) as -> by lia.
    assert (checked_add u64_max (xref - prefix) window = Some (xref - prefix + window)) as ->
      by (apply checked_add_Some; lia). done. }
  eapply (jobs_bind _ _ _ (λ r' a, r' = at_envelope_job world stats (EnvelopeReading window charged) ∧
    a = range_at (xref - prefix) window)); [by apply jobs_ret|]. intros r' a [-> ->].
  unfold ByteRange_end_exclusive. cbn [range_start range_len range_at].
  assert ((bound <? xref - prefix + window) = false) as -> by lia.
  eapply (jobs_bind _ _ _ (λ r' _, ∃ stats', r' = at_envelope_job world stats' (EnvelopeReading window true) ∧
    stats_ok caps stats')).
  { destruct charged; [apply jobs_ret; by eexists|].
    pose proof (charge_read_run caps stats window reference (Some (xref - prefix))) as Hc.
    apply ej_try_ends; [done..| |].
    { intros e He. rewrite He in Hc. apply envelope_job_world, failed_budget. apply Hc. lia. }
    intros s Hrun. rewrite Hrun in Hc. destruct Hc as [-> Hc]; [lia|]. apply jobs_set.
    destruct Hs as (?&?&?&?&?&?&?).
    eapply ej_some_ends; [apply checked_add_Some; split; [|reflexivity]; simpl; lia|].
    apply jobs_set, jobs_set. eexists. split; [reflexivity|]. unfold stats_ok. simpl. split_and!; try done; lia. }
  intros r' [] (stats1&->&Hs1).
  apply (jobs_poll file target context); [done|by split_and!; [..|left]|].
  intros s polled Hs' Hans Hpoll Hbytes. cbn [request_range] in *.
  set (world' := {| world_source := s; world_calls := world_calls world |}).
  change (with_source s (at_envelope_job world stats1 (EnvelopeReading window true)))
    with (at_envelope_job world' stats1 (EnvelopeReading window true)).
  destruct polled as [slice|ticket missing| |error].
  - eapply parse_ready_ends; try done. by apply Hbytes.
  - apply jobs_answer. exists world', stats1, (EnvelopeReading window true). split_and!; try done.
    constructor. exists (world_source world). split; [done|]. by split.
  - apply ej_fail_code_ends; [done..|]. apply envelope_job_world. by eapply failed_eof.
  - apply jobs_fail_with, ej_failed; [done..|]. apply envelope_job_world. by eapply failed_source.
Qed.

Lemma ej_poll_loop_ends fuel r :
  envelope_goes fuel r → jobs (ej_poll_loop fuel) r envelope_ends envelope_ends.
Proof.
  revert r. induction fuel as [|fuel IH]; intros r Hr.
  { destruct Hr as (?&?&?&?&?&_&_&_&_&_&?). lia. }
  destruct Hr as (world&stats&window&charged&k&->&Hw&Hs&Hwin&Hk&Hf). cbn [ej_poll_loop].
  apply jobs_job. cbn [ej_state ej_target run_job at_envelope_job envelope_job_at].
  apply jobs_snapshot. cbn [run_world at_envelope_job].
  case_bool_decide as Hsnap; cbn [negb].
  2:{ apply ej_fail_code_ends; [done..|]. apply envelope_job_world. by eapply failed_snapshot. }
  apply jobs_is_cancelled. intros c b Hcancel. destruct b.
  { apply ej_cancelled; [done..|by apply Hcancel]. }
  eapply jobs_bind; [by eapply (poll_read_ends fuel _ _ {| world_source := world_source world; world_calls := c |})|].
  intros r' [poll|] Hr'; [done|]. by apply IH.
Qed.

Definition envelope_polled (r r' : JobRun S OpenObjectEnvelopeJob) (poll : ObjectEnvelopePoll) : Prop :=
  match ej_state (run_job r) with
  | EnvelopeComplete =>
      r' = r ∧ poll = EnvelopeFailed (ObjectError_for_code JobAlreadyComplete (Some reference) None)
  | EnvelopeJobFailed e => r' = r ∧ poll = EnvelopeFailed e
  | EnvelopeReading _ _ => envelope_ends r' poll
  end.

Lemma envelope_poll_run r :
  envelope_run_ok r →
  ∃ r' poll, OpenObjectEnvelopeJob_poll r = (r', Some poll) ∧ envelope_run_ok r' ∧ envelope_polled r r' poll.
Proof.
  intros (world&stats&state&->&Hw&Hs&Hst). unfold OpenObjectEnvelopeJob_poll, envelope_polled.
  destruct state as [window charged| |e].
  - assert (envelope_goes envelope_poll_fuel (at_envelope_job world stats (EnvelopeReading window charged))) as Hgo.
    { eexists _, _, _, _, 26%nat. split; [reflexivity|]. split; [done|]. split; [done|]. split; [done|].
      split; [|unfold envelope_poll_fuel; lia]. apply doublings_cap; [apply Hst|]. setup_facts Hsetup.
      unfold envelope_cap. change (2 ^ Z.of_nat 26) with 67108864. lia. }
    apply ej_poll_loop_ends in Hgo. unfold jobs in Hgo.
    destruct (ej_poll_loop envelope_poll_fuel _) as [r' [poll|[poll|]]]; [..|done]; eexists _, _;
      (split; [reflexivity|]); (split; [|done]); destruct Hgo as (?&?&?&?&?&?&?&_); by eexists _, _, _.
  - eexists _, _. split; [reflexivity|]. split; [|done]. by eexists _, _, _.
  - eexists _, _. split; [reflexivity|]. split; [|done]. by eexists _, _, _.
Qed.
End envelope_job.

(** ** The boundary job *)

(** What a sealed envelope says of the stream. *)
Definition parsed_of (envelope : StreamEnvelope) : ParsedStreamEnvelope :=
  {| pe_header_span := envelope_header_span envelope;
     pe_dictionary := envelope_dictionary envelope;
     pe_declared_length := envelope_declared_length envelope;
     pe_stream_keyword_span := envelope_stream_keyword_span envelope;
     pe_stream_line_ending_span := envelope_stream_line_ending_span envelope;
     pe_data_start := envelope_data_start envelope;
     pe_retained_heap_bytes := envelope_retained_heap_bytes envelope |}.

Section boundary_job.
Context `{ParserRuntime} {S : Type} `{ByteSource S} (file : Z → Z).
Context (envelope : StreamEnvelope) (claim : StreamLengthClaim) (source_len : Z)
  (caps : ObjectWorkCaps) (data_span : ByteSpan).
Local Notation target := (envelope_target envelope).
Local Notation limits := (envelope_limits envelope).
Local Notation syntax_limits := (envelope_syntax_limits envelope).
Local Notation context := (envelope_context envelope).
Context `{!HonestSource S file target context}.
Hypothesis Hsetup : setup_ok target limits syntax_limits caps.
Local Notation reference := (target_reference target).
Local Notation bound := (target_object_upper_bound target).
Local Notation xref := (target_xref_offset target).
Local Notation data_end := (ByteSpan_end_exclusive data_span).
Hypothesis Hdata : xref ≤ data_end < bound.
Local Notation answered := (source_answered (S := S) file target context).
Local Notation awaits := (awaiting (S := S) file target context).
Implicit Types (stats : ObjectStats) (state : BoundaryJobState).

Definition boundary_job_at stats state : OpenStreamBoundaryJob :=
  {| bj_target := target; bj_source_len := source_len; bj_context := context;
     bj_limits := limits; bj_work_caps := caps; bj_syntax_limits := syntax_limits;
     bj_length_claim := claim; bj_stats := stats; bj_state := state |}.
Definition at_boundary_job (world : World S) stats state : JobRun S OpenStreamBoundaryJob :=
  {| run_job := boundary_job_at stats state; run_world := world |}.

(** The object that the bytes after the payload make of the envelope. *)
Definition framed : decision IndirectObject :=
  dbind (file_boundary file target data_end (bound - data_end)) (λ boundary,
    Some (stream_object target (envelope_retained_heap_bytes envelope) (parsed_of envelope) claim
            data_span boundary)).

Inductive boundary_job_failure (e : ObjectError) : Prop :=
| boundary_job_world : world_failure (S := S) file target context limits caps e → boundary_job_failure e
| boundary_job_denied : framed = Some (Err e) → boundary_job_failure e
| boundary_job_undecided :
    boundary_undecided file target limits syntax_limits data_end e → boundary_job_failure e.

Definition boundary_state_ok state : Prop :=
  match state with
  | BoundaryReading envelope' data_span' window _ =>
      envelope' = envelope ∧ data_span' = data_span ∧ 1 ≤ window ≤ boundary_cap target limits data_end
  | BoundaryJobComplete => True
  | BoundaryJobFailed e => boundary_job_failure e
  end.

Inductive boundary_answer (world : World S) : BoundaryJobState → ObjectPoll → Prop :=
| boundary_answer_ready object :
    framed = Some (Ok object) → boundary_answer world BoundaryJobComplete (ObjectReady object)
| boundary_answer_pending window ticket missing :
    awaits (range_at data_end window) (context_boundary_checkpoint context) ticket missing
      (world_source world) →
    boundary_answer world (BoundaryReading envelope data_span window true)
      (ObjectPending ticket missing (context_boundary_checkpoint context))
| boundary_answer_failed e :
    boundary_job_failure e → boundary_answer world (BoundaryJobFailed e) (ObjectFailed e).

Definition boundary_run_ok (r : JobRun S OpenStreamBoundaryJob) : Prop :=
  ∃ world stats state, r = at_boundary_job world stats state ∧ source_ok (world_source world) ∧
    stats_ok caps stats ∧ boundary_state_ok state.

Definition boundary_ends (r : JobRun S OpenStreamBoundaryJob) (poll : ObjectPoll) : Prop :=
  ∃ world stats state, r = at_boundary_job world stats state ∧ source_ok (world_source world) ∧
    stats_ok caps stats ∧ boundary_state_ok state ∧ boundary_answer world state poll.

Definition boundary_goes (fuel : nat) (r : JobRun S OpenStreamBoundaryJob) : Prop :=
  ∃ world stats window charged k,
    r = at_boundary_job world stats (BoundaryReading envelope data_span window charged) ∧
    source_ok (world_source world) ∧ stats_ok caps stats ∧
    1 ≤ window ≤ boundary_cap target limits data_end ∧
    doublings k window (boundary_cap target limits data_end) ∧ (k + 1 ≤ fuel)%nat.

Definition boundary_round (fuel : nat) (r : JobRun S OpenStreamBoundaryJob)
    (outcome : option ObjectPoll) : Prop :=
  match outcome with Some poll => boundary_ends r poll | None => boundary_goes fuel r end.

Lemma bj_failed e world stats state :
  source_ok (world_source world) → stats_ok caps stats → boundary_job_failure e →
  boundary_ends (with_job (set_bj_state (BoundaryJobFailed e)) (at_boundary_job world stats state))
    (ObjectFailed e).
Proof.
  intros Hw Hs He. exists world, stats, (BoundaryJobFailed e). split_and!; try done. by constructor.
Qed.

Lemma bj_try_ends {A B} (x : result ObjectError A) (k : A → JobM S _ _ B) world stats state Q :
  source_ok (world_source world) → stats_ok caps stats →
  (∀ e, x = Err e → boundary_job_failure e) →
  (∀ a, x = Ok a → jobs (k a) (at_boundary_job world stats state) Q boundary_ends) →
  jobs (bj_try x ≫= k) (at_boundary_job world stats state) Q boundary_ends.
Proof. intros Hw Hs He Hk. apply jobs_try; [|done]. intros e Hx. apply bj_failed; auto. Qed.

Lemma bj_fail_code_ends {A} code offset world stats state (Q : _ → A → Prop) :
  source_ok (world_source world) → stats_ok caps stats →
  boundary_job_failure (ObjectError_for_code code (Some reference) offset) →
  jobs (bj_fail_code code offset) (at_boundary_job world stats state) Q boundary_ends.
Proof. intros. by apply jobs_job, bj_failed. Qed.

Lemma bj_some_ends {A B} (x : option A) offset (k : A → JobM S _ _ B) r Q a :
  x = Some a → jobs (k a) r Q boundary_ends → jobs (bj_some x offset ≫= k) r Q boundary_ends.
Proof. by intros ->. Qed.

Lemma bj_cancelled {A} offset c world stats state (Q : _ → A → Prop) :
  source_ok (world_source world) → stats_ok caps stats → (∃ n, parser_cancelled n = true) →
  jobs (bj_fail_code ObjectCancelled offset)
    (with_calls c (at_boundary_job world stats state)) Q boundary_ends.
Proof.
  intros Hw Hs Hc.
  apply (bj_fail_code_ends _ _ {| world_source := world_source world; world_calls := c |}); [done..|].
  apply boundary_job_world, failed_refused. right. split; [apply for_code_facts|done].
Qed.

Lemma boundary_window_facts window :
  1 ≤ window ≤ boundary_cap target limits data_end →
  asked_window target limits (range_at data_end window) ∧ window ≤ bound - data_end ∧
  window_admitted syntax_limits data_end window.
Proof.
  intros Hwin. pose proof (prefix_range target limits syntax_limits caps Hsetup). setup_facts Hsetup.
  split; [eapply boundary_asked; [done|lia|done]|].
  unfold boundary_cap in Hwin. unfold window_admitted. lia.
Qed.

Lemma parse_boundary_ready_ends fuel window charged slice world stats k :
  source_ok (world_source world) → stats_ok caps stats →
  1 ≤ window ≤ boundary_cap target limits data_end →
  doublings k window (boundary_cap target limits data_end) → (k + 1 ≤ Datatypes.S fuel)%nat →
  let range := range_at data_end window in
  answered range (PollReady slice) →
  (slice_identity slice = snapshot_identity (target_snapshot target) → slice_range slice = range →
   slice_bytes slice = bytes_of file data_end window) →
  jobs (parse_boundary_ready envelope data_span slice range window)
    (at_boundary_job world stats (BoundaryReading envelope data_span window charged))
    (boundary_round fuel) boundary_ends.
Proof.
  intros Hw Hs Hwin Hk Hfuel range Hans Hbytes.
  destruct (boundary_window_facts window Hwin) as (Hasked&Hext&Hadm).
  unfold parse_boundary_ready. apply jobs_job. cbv zeta.
  cbn [bj_target bj_limits bj_syntax_limits bj_work_caps bj_stats run_job at_boundary_job boundary_job_at].
  apply bj_try_ends; [done..| |].
  { intros e He. apply boundary_job_world. by eapply validate_failure. }
  intros [] [Hid Hr]%validate_slice_ok. rewrite (Hbytes Hid Hr).
  pose proof (charge_parse_run caps stats window reference (Some data_end)) as Hc.
  setup_facts Hsetup. apply bj_try_ends; [done..| |].
  { intros e He. rewrite He in Hc. apply boundary_job_world, failed_budget. apply Hc. lia. }
  intros s Hrun. rewrite Hrun in Hc. destruct Hc as [-> Hc]; [lia|].
  set (stats1 := set_parse_bytes (os_parse_bytes stats + window) stats).
  assert (stats_ok caps stats1) as Hs1.
  { destruct Hs as (?&?&?&?&?&?&?). unfold stats_ok. simpl. split_and!; try done; lia. }
  apply jobs_set.
  change (with_job (set_bj_stats stats1) (at_boundary_job world stats (BoundaryReading envelope data_span window charged)))
    with (at_boundary_job world stats1 (BoundaryReading envelope data_span window charged)).
  destruct (remaining_retained target limits syntax_limits caps Hsetup stats1
    (Some xref) Hs1) as (remaining&Hrem&Hcap).
  apply bj_try_ends; [done..|by rewrite Hrem|]. intros a Ha. rewrite Hrem in Ha. injection Ha as <-.
  pose proof (file_boundary_attempt file target data_end syntax_limits remaining window
    (world_calls world) ltac:(lia) Hadm (so_syntax _ _ _ _ Hsetup) Hcap) as Hatt.
  apply jobs_attempt; cbn [run_world at_boundary_job]; [intros He; by rewrite He in Hatt|].
  intros c outcome Hout. rewrite Hout in Hatt.
  set (world2 := {| world_source := world_source world; world_calls := c |}).
  change (with_calls c (at_boundary_job world stats1 (BoundaryReading envelope data_span window charged)))
    with (at_boundary_job world2 stats1 (BoundaryReading envelope data_span window charged)).
  assert (∀ d, file_boundary file target data_end window = Some d →
    file_boundary file target data_end (bound - data_end) = Some d) as Hgrow
    by (intros d; apply file_boundary_grows; lia).
  destruct outcome as [a|e]; simpl in Hatt.
  - destruct Hatt as [[-> Hnone]|(b&Hb&->)].
    + eapply bj_some_ends; [apply checked_sub_Some; split; [lia|reflexivity]|].
      rewrite grow_run by (unfold boundary_cap in *; lia).
      change (Z.min (ol_max_boundary_bytes limits) (bound - data_end)) with (boundary_cap target limits data_end).
      destruct (window =? boundary_cap target limits data_end) eqn:Hcp; checked_facts.
      * apply bj_try_ends; [done..| |done]. intros e [= <-]. apply boundary_job_undecided.
        rewrite Hcp in Hnone. apply boundary_window; [done|]. by rewrite Hcp.
      * apply bj_try_ends; [done..| |]; [done|]. intros next [= <-]. apply jobs_set, jobs_ret.
        destruct (doublings_next k window (boundary_cap target limits data_end)) as (k'&->&Hk'); [lia|done|].
        eexists world2, stats1, _, false, k'. split; [reflexivity|]. split; [done|]. split; [done|].
        split; [lia|]. split; [done|lia].
    + apply jobs_is_cancelled. intros c2 cancelled Hcancel. destruct cancelled.
      { apply (bj_cancelled _ _ world2); [done..|by apply Hcancel]. }
      apply (bj_try_ends _ _ {| world_source := world_source world; world_calls := c2 |}); [done..| |].
      * intros e He. apply boundary_job_denied. unfold framed. rewrite (Hgrow _ Hb). cbn [dbind].
        unfold stream_object. by rewrite He.
      * intros sp Hsp. apply jobs_set, jobs_ret.
        eexists {| world_source := world_source world; world_calls := c2 |}, stats1, BoundaryJobComplete.
        split; [reflexivity|]. split; [done|]. split; [done|]. split; [done|].
        apply boundary_answer_ready. unfold framed. rewrite (Hgrow _ Hb). cbn [dbind].
        unfold stream_object. by rewrite Hsp.
  - assert (boundary_job_failure e) as Hfail.
    { destruct Hatt as [He|[He|[He Hnone]]].
      + apply boundary_job_denied. unfold framed. by rewrite (Hgrow _ He).
      + by apply boundary_job_world, failed_refused.
      + apply boundary_job_undecided. by apply boundary_malformed. }
    apply jobs_fail_with. by apply bj_failed.
Qed.

Lemma bj_read_ends fuel window charged world stats k :
  source_ok (world_source world) → stats_ok caps stats →
  1 ≤ window ≤ boundary_cap target limits data_end →
  doublings k window (boundary_cap target limits data_end) → (k + 1 ≤ Datatypes.S fuel)%nat →
  jobs (bj_read envelope data_span window charged)
    (at_boundary_job world stats (BoundaryReading envelope data_span window charged))
    (boundary_round fuel) boundary_ends.
Proof.
  intros Hw Hs Hwin Hk Hfuel.
  destruct (boundary_window_facts window Hwin) as (Hasked&Hext&Hadm).
  assert (Hreq := proj1 Hasked).
  unfold bj_read. apply jobs_job. cbv zeta.
  cbn [bj_target bj_limits bj_context bj_work_caps bj_stats run_job at_boundary_job boundary_job_at].
  setup_facts Hsetup.
  assert (ByteRange_new data_end window = Ok (range_at data_end window)) as ->.
  { unfold ByteRange_new. assert ((window =? 0) = false) as -> by lia.
    assert (checked_add u64_max data_end window = Some (data_end + window)) as ->
      by (apply checked_add_Some; lia). done. }
  eapply (jobs_bind _ _ _ (λ r' a, r' = at_boundary_job world stats
    (BoundaryReading envelope data_span window charged) ∧ a = range_at data_end window));
    [by apply jobs_ret|]. intros r' a [-> ->].
  assert ((bound <? ByteRange_end_exclusive (range_at data_end window)) = false) as ->.
  { apply Z.ltb_ge. change (ByteRange_end_exclusive (range_at data_end window)) with (data_end + window). lia. }
  eapply (jobs_bind _ _ _ (λ r' _, ∃ stats', r' = at_boundary_job world stats'
    (BoundaryReading envelope data_span window true) ∧ stats_ok caps stats')).
  { destruct charged; [apply jobs_ret; by eexists|].
    pose proof (charge_read_run caps stats window reference (Some data_end)) as Hc.
    apply bj_try_ends; [done..| |].
    { intros e He. rewrite He in Hc. apply boundary_job_world, failed_budget. apply Hc. lia. }
    intros s Hrun. rewrite Hrun in Hc. destruct Hc as [-> Hc]; [lia|]. apply jobs_set.
    destruct Hs as (?&?&?&?&?&?&?).
    eapply bj_some_ends; [apply checked_add_Some; split; [|reflexivity]; simpl; lia|].
    apply jobs_set, jobs_set. eexists. split; [reflexivity|]. unfold stats_ok. simpl. split_and!; try done; lia. }
  intros r' [] (stats1&->&Hs1).
  apply (jobs_poll file target context); [done|by split_and!; [..|right]|].
  intros s polled Hs' Hans Hpoll Hbytes. cbn [request_range] in *.
  set (world' := {| world_source := s; world_calls := world_calls world |}).
  change (with_source s (at_boundary_job world stats1 (BoundaryReading envelope data_span window true)))
    with (at_boundary_job world' stats1 (BoundaryReading envelope data_span window true)).
  destruct polled as [slice|ticket missing| |error].
  - eapply parse_boundary_ready_ends; try done. by apply Hbytes.
  - apply jobs_answer. exists world', stats1, (BoundaryReading envelope data_span window true).
    split_and!; try done. constructor. exists (world_source world). split; [done|]. by split.
  - apply bj_fail_code_ends; [done..|]. apply boundary_job_world. by eapply failed_eof.
  - apply jobs_fail_with, bj_failed; [done..|]. apply boundary_job_world. by eapply failed_source.
Qed.

Lemma bj_poll_loop_ends fuel r :
  boundary_goes fuel r → jobs (bj_poll_loop fuel) r boundary_ends boundary_ends.
Proof.
  revert r. induction fuel as [|fuel IH]; intros r Hr.
  { destruct Hr as (?&?&?&?&?&_&_&_&_&_&?). lia. }
  destruct Hr as (world&stats&window&charged&k&->&Hw&Hs&Hwin&Hk&Hf). cbn [bj_poll_loop].
  apply jobs_job. cbn [bj_state bj_target run_job at_boundary_job boundary_job_at].
  apply jobs_snapshot. cbn [run_world at_boundary_job].
  case_bool_decide as Hsnap; cbn [negb].
  2:{ apply bj_fail_code_ends; [done..|]. apply boundary_job_world. by eapply failed_snapshot. }
  apply jobs_is_cancelled. intros c b Hcancel. destruct b.
  { apply bj_cancelled; [done..|by apply Hcancel]. }
  eapply jobs_bind; [by eapply (bj_read_ends fuel _ _ {| world_source := world_source world; world_calls := c |})|].
  intros r' [poll|] Hr'; [done|]. by apply IH.
Qed.

Definition boundary_polled (r r' : JobRun S OpenStreamBoundaryJob) (poll : ObjectPoll) : Prop :=
  match bj_state (run_job r) with
  | BoundaryJobComplete =>
      r' = r ∧ poll = ObjectFailed (ObjectError_for_code JobAlreadyComplete (Some reference) None)
  | BoundaryJobFailed e => r' = r ∧ poll = ObjectFailed e
  | BoundaryReading _ _ _ _ => boundary_ends r' poll
  end.

Lemma boundary_poll_run r :
  boundary_run_ok r →
  ∃ r' poll, OpenStreamBoundaryJob_poll r = (r', Some poll) ∧ boundary_run_ok r' ∧ boundary_polled r r' poll.
Proof.
  intros (world&stats&state&->&Hw&Hs&Hst). unfold OpenStreamBoundaryJob_poll, boundary_polled.
  destruct state as [envelope' data_span' window charged| |e].
  - destruct Hst as (->&->&Hwin).
    assert (boundary_goes boundary_poll_fuel
      (at_boundary_job world stats (BoundaryReading envelope data_span window charged))) as Hgo.
    { eexists _, _, _, _, 22%nat. split; [reflexivity|]. split; [done|]. split; [done|]. split; [done|].
      split; [|unfold boundary_poll_fuel; lia]. apply doublings_cap; [apply Hwin|]. setup_facts Hsetup.
      unfold boundary_cap. change (2 ^ Z.of_nat 22) with 4194304. lia. }
    apply bj_poll_loop_ends in Hgo. unfold jobs in Hgo.
    destruct (bj_poll_loop boundary_poll_fuel _) as [r' [poll|[poll|]]]; [..|done]; eexists _, _;
      (split; [reflexivity|]); (split; [|done]); destruct Hgo as (?&?&?&?&?&?&?&_); by eexists _, _, _.
  - eexists _, _. split; [reflexivity|]. split; [|done]. by eexists _, _, _.
  - eexists _, _. split; [reflexivity|]. split; [|done]. by eexists _, _, _.
Qed.
End boundary_job.
