(* ===== verification/ObjectReach.v ===== *)
(** * Jobs from their constructors

    What the constructors of targets, caps and jobs guarantee, and the states that
    polls reach while the world moves on between them. The runs of the witnesses end
    the file: a file with a stream and a direct object, a source that answers every
    poll and one that misses the first, and jobs on both objects. *)

From stdpp Require Import base list numbers option strings.
From S2P Require Import Prelude.
From S2P Require Import SourceTypes.
From S2P Require Import SyntaxTypes.
From S2P Require Import DocumentTypes.
From S2P Require Import SyntaxState.
From S2P Require Import SyntaxParser.
From S2P Require Import SyntaxRules.
From S2P Require Import SyntaxReader.
From S2P Require Import SyntaxProps.
From S2P Require Import RangeTypes.
From S2P Require Import ObjectTypes.
From S2P Require Import ObjectParser.
From S2P Require Import ObjectJob.
From S2P Require Import ObjectStaged.
From S2P Require Import ObjectReader.
From S2P Require Import ObjectAttempts.
From S2P Require Import ObjectFile.
From S2P Require Import ObjectRuns.
From S2P Require Import ObjectJobRuns.
From S2P Require Import ObjectStagedRuns.

(** ** Targets *)

(** A target in its source. *)
Record target_ok (target : IndirectObjectTarget) : Prop := {
  tgt_xref : 0 ≤ target_xref_offset target < target_object_upper_bound target;
  tgt_source : ∃ n, snapshot_len (target_snapshot target) = Some n ∧
    target_object_upper_bound target ≤ n ∧ target_revision_startxref target < n
}.

Lemma target_new_ok snapshot reference xref_offset bound startxref target :
  0 ≤ xref_offset →
  IndirectObjectTarget_new snapshot reference xref_offset bound startxref = Ok target →
  target_ok target ∧ target_xref_offset target = xref_offset ∧
  target_object_upper_bound target = bound ∧ target_snapshot target = snapshot ∧
  target_reference target = reference.
Proof.
  intros Hx (n&Hn%require_ok&([]&Hf%fail_if_ok&[= <-])%result_bind_ok)%result_bind_ok.
  rewrite !orb_false_iff in Hf. destruct Hf as [[? ?] ?]. checked_facts.
  split; [|done]. split; [simpl; lia|]. exists n. simpl. split_and!; [done|lia|lia].
Qed.

Lemma anchor_ok snapshot reference startxref bound revision target :
  0 ≤ startxref →
  at_xref_stream_anchor snapshot reference startxref bound revision = Ok target →
  target_ok target ∧ target_xref_offset target = startxref ∧ target_object_upper_bound target = bound.
Proof.
  intros Hx (n&Hn%require_ok&([]&Hf%fail_if_ok&[= <-])%result_bind_ok)%result_bind_ok.
  rewrite !orb_false_iff in Hf. destruct Hf as ((((?&?)&?)&?)&_). checked_facts.
  split; [|done]. split; [simpl; lia|]. exists n. simpl. split_and!; [done|lia|lia].
Qed.

(** ** Caps *)

Definition caps_ok (caps : ObjectWorkCaps) : Prop :=
  0 ≤ caps_max_read_bytes caps ∧ 0 ≤ caps_max_parse_bytes caps ∧
  from_option (λ cap, 0 ≤ cap ≤ u64_max) True (caps_max_retained_bytes caps).

Lemma caps_new_ok read parse caps :
  0 ≤ read → 0 ≤ parse → ObjectWorkCaps_new read parse = Ok caps → caps_ok caps.
Proof. intros ?? ([]&_&[= <-])%result_bind_ok. by split_and!. Qed.

Lemma caps_new_retained_ok read parse retained caps :
  0 ≤ read → 0 ≤ parse → 0 ≤ retained ≤ u64_max →
  ObjectWorkCaps_new_with_retained_bytes read parse retained = Ok caps → caps_ok caps.
Proof.
  intros ??? (c&Hc%caps_new_ok&[= <-])%result_bind_ok; [|done..].
  destruct Hc as (?&?&_). by split_and!.
Qed.

Lemma caps_from_limits_ok limits : object_limits_ok limits → caps_ok (ObjectWorkCaps_from_limits limits).
Proof. intros []. unfold caps_ok. simpl. lia. Qed.

(** ** Setups *)

Lemma validate_common_setup target context limits syntax_limits caps :
  target_ok target → object_limits_ok limits → syntax_limits_ok syntax_limits → caps_ok caps →
  validate_common target context limits syntax_limits caps = Ok tt →
  setup_ok target limits syntax_limits caps.
Proof.
  intros Ht Hl Hsyn (?&?&?). unfold validate_common.
  destruct Ht as [Hx (n&Hn&Hb&_)]. rewrite Hn. cbn [require].
  intros ([]&Hf1%fail_if_ok&Hv)%result_bind_ok. apply result_bind_ok in Hv as ([]&_&Hv).
  cbn [mbind result_bind] in Hv. apply result_bind_ok in Hv as ([]&Hf2%fail_if_ok&Hf3%fail_if_ok).
  rewrite !orb_false_iff in *. destruct Hf1, Hf3. checked_facts. pose proof Hl as [].
  split; try done; lia.
Qed.

Section jobs.
Context `{ParserRuntime} {S : Type} `{ByteSource S}.

(** A one-shot job from its constructor, and the file its source reads. *)
Record job_created (target : IndirectObjectTarget) (context : ObjectJobContext)
    (limits : ObjectLimits) (syntax_limits : SyntaxLimits) (caps : ObjectWorkCaps)
    (j : OpenObjectJob) : Prop := {
  created_target : target_ok target;
  created_limits : object_limits_ok limits;
  created_syntax : syntax_limits_ok syntax_limits;
  created_caps : caps_ok caps;
  created_new : OpenObjectJob_new_with_work_caps target context limits syntax_limits caps = Ok j
}.

Lemma first_window target limits syntax_limits caps available :
  setup_ok target limits syntax_limits caps → available_bytes target = Ok available →
  available = envelope_available target.
Proof.
  intros Hs. pose proof (prefix_range _ _ _ _ Hs). setup_facts Hs. unfold available_bytes, envelope_available.
  assert (checked_sub (target_object_upper_bound target) (target_xref_offset target) =
    Some (target_object_upper_bound target - target_xref_offset target)) as -> by (apply checked_sub_Some; lia).
  cbn [mbind option_bind].
  assert (checked_add u64_max (target_object_upper_bound target - target_xref_offset target) (prefix_bytes target) =
    Some (target_object_upper_bound target - target_xref_offset target + prefix_bytes target)) as ->
    by (apply checked_add_Some; lia). by intros [= <-].
Qed.

Lemma job_created_facts target context limits syntax_limits caps j :
  job_created target context limits syntax_limits caps j →
  setup_ok target limits syntax_limits caps ∧
  ∃ source_len, j = job_at target source_len context limits syntax_limits caps ObjectStats_default
    (JobEnvelope (Z.min (ol_initial_envelope_bytes limits) (envelope_available target)) false) ∧
    1 ≤ Z.min (ol_initial_envelope_bytes limits) (envelope_available target) ≤ envelope_cap target limits.
Proof.
  intros [Ht Hl Hsyn Hc Hnew]. unfold OpenObjectJob_new_with_work_caps in Hnew.
  apply result_bind_ok in Hnew as ([]&Hv&Hnew).
  assert (setup_ok target limits syntax_limits caps) as Hs by (by eapply validate_common_setup).
  split; [done|]. apply result_bind_ok in Hnew as (source_len&_&Hnew).
  apply result_bind_ok in Hnew as (available&Ha&[= <-]).
  eapply first_window in Ha as ->; [|exact Hs].
  exists source_len. split; [done|]. pose proof (prefix_range _ _ _ _ Hs). setup_facts Hs.
  unfold envelope_cap, envelope_available. lia.
Qed.

(** A job after any polls, each in whatever world it runs in by then. *)
Inductive job_reached (file : Z → Z) (target : IndirectObjectTarget) (context : ObjectJobContext)
    `{!HonestSource S file target context} (j : OpenObjectJob) : JobRun S OpenObjectJob → Prop :=
| reached_new world :
    source_ok (world_source world) → job_reached file target context j {| run_job := j; run_world := world |}
| reached_poll r r' poll :
    job_reached file target context j r → OpenObjectJob_poll r = (r', poll) →
    job_reached file target context j r'
| reached_between r world :
    job_reached file target context j r → source_ok (world_source world) →
    job_reached file target context j {| run_job := run_job r; run_world := world |}.

Lemma job_reached_ok file target context limits syntax_limits caps j r
    `{!HonestSource S file target context} :
  job_created target context limits syntax_limits caps j → job_reached file target context j r →
  setup_ok target limits syntax_limits caps ∧
  ∃ source_len, job_run_ok file target source_len context limits syntax_limits caps r.
Proof.
  intros Hc Hr. destruct (job_created_facts _ _ _ _ _ _ Hc) as (Hs&n&->&Hwin). split; [done|].
  exists n. induction Hr as [world Hw|r r' poll Hr IH Hp|r world Hr IH Hw].
  - eexists world, ObjectStats_default, _. split; [reflexivity|]. split; [done|].
    split; [|exact Hwin]. pose proof (so_retained _ _ _ _ Hs). setup_facts Hs.
    apply stats_default_ok; [lia..|done].
  - destruct (job_poll_run file target n context limits syntax_limits caps Hs r IH) as (r1&poll1&Hp1&Hr1&_).
    rewrite Hp1 in Hp. by injection Hp as <- _.
  - destruct IH as (w0&stats&state&->&_&Hst&Hstate). by eexists world, stats, state.
Qed.

(** ** Staged jobs *)

Record envelope_job_created (target : IndirectObjectTarget) (context : ObjectJobContext)
    (limits : ObjectLimits) (syntax_limits : SyntaxLimits) (caps : ObjectWorkCaps)
    (j : OpenObjectEnvelopeJob) : Prop := {
  ecreated_target : target_ok target;
  ecreated_limits : object_limits_ok limits;
  ecreated_syntax : syntax_limits_ok syntax_limits;
  ecreated_caps : caps_ok caps;
  ecreated_new : OpenObjectEnvelopeJob_new_with_work_caps target context limits syntax_limits caps = Ok j
}.

Inductive envelope_reached (file : Z → Z) (target : IndirectObjectTarget) (context : ObjectJobContext)
    `{!HonestSource S file target context} (j : OpenObjectEnvelopeJob)
    : JobRun S OpenObjectEnvelopeJob → Prop :=
| envelope_reached_new world :
    source_ok (world_source world) →
    envelope_reached file target context j {| run_job := j; run_world := world |}
| envelope_reached_poll r r' poll :
    envelope_reached file target context j r → OpenObjectEnvelopeJob_poll r = (r', poll) →
    envelope_reached file target context j r'
| envelope_reached_between r world :
    envelope_reached file target context j r → source_ok (world_source world) →
    envelope_reached file target context j {| run_job := run_job r; run_world := world |}.

Lemma envelope_reached_ok file target context limits syntax_limits caps j r
    `{!HonestSource S file target context} :
  envelope_job_created target context limits syntax_limits caps j →
  envelope_reached file target context j r →
  setup_ok target limits syntax_limits caps ∧
  ∃ source_len, envelope_run_ok file target source_len context limits syntax_limits caps r.
Proof.
  intros [Ht Hl Hsyn Hc Hnew] Hr. unfold OpenObjectEnvelopeJob_new_with_work_caps in Hnew.
  apply result_bind_ok in Hnew as ([]&Hv&Hnew).
  assert (setup_ok target limits syntax_limits caps) as Hs by (by eapply validate_common_setup).
  split; [done|]. apply result_bind_ok in Hnew as (n&_&Hnew).
  apply result_bind_ok in Hnew as (available&Ha&[= <-]).
  eapply first_window in Ha as ->; [|exact Hs]. exists n.
  pose proof (prefix_range _ _ _ _ Hs). pose proof (so_retained _ _ _ _ Hs). setup_facts Hs.
  induction Hr as [world Hw|r r' poll Hr IH Hp|r world Hr IH Hw].
  - eexists world, ObjectStats_default, _. split; [reflexivity|]. split; [done|].
    split; [apply stats_default_ok; [lia..|done]|]. simpl. unfold envelope_cap, envelope_available. lia.
  - destruct (envelope_poll_run file target n context limits syntax_limits caps Hs r IH) as (r1&poll1&Hp1&Hr1&_).
    rewrite Hp1 in Hp. by injection Hp as <- _.
  - destruct IH as (w0&stats&state&->&_&Hst&Hstate). by eexists world, stats, state.
Qed.

(** A stream envelope that an envelope job hands on. *)
Record envelope_ok (file : Z → Z) (envelope : StreamEnvelope) : Prop := {
  eo_target : target_ok (envelope_target envelope);
  eo_setup : setup_ok (envelope_target envelope) (envelope_limits envelope)
               (envelope_syntax_limits envelope) (envelope_work_caps envelope);
  eo_stats : stats_ok (envelope_work_caps envelope) (envelope_stats envelope);
  eo_retained : os_retained_heap_bytes (envelope_stats envelope) = envelope_retained_heap_bytes envelope;
  eo_denoted : ∃ parsed, denoted_envelope file (envelope_target envelope) true =
                 Some (Ok (EnvelopeStream parsed)) ∧
               parsed_of envelope = {| pe_header_span := pe_header_span parsed;
                 pe_dictionary := pe_dictionary parsed;
                 pe_declared_length := pe_declared_length parsed;
                 pe_stream_keyword_span := pe_stream_keyword_span parsed;
                 pe_stream_line_ending_span := pe_stream_line_ending_span parsed;
                 pe_data_start := pe_data_start parsed;
                 pe_retained_heap_bytes := envelope_retained_heap_bytes envelope |}
}.

Lemma sealed_envelope_ok file target context limits syntax_limits caps stats parsed :
  target_ok target → setup_ok target limits syntax_limits caps → stats_ok caps stats →
  denoted_envelope file target true = Some (Ok (EnvelopeStream parsed)) →
  envelope_ok file (sealed_envelope target context limits syntax_limits caps parsed stats).
Proof. intros. split; [done..|]. by exists parsed. Qed.

(** A boundary job from its constructor. *)
Record boundary_job_created (file : Z → Z) (envelope : StreamEnvelope) (claim : StreamLengthClaim)
    (caps : ObjectWorkCaps) (j : OpenStreamBoundaryJob) : Prop := {
  bcreated_envelope : envelope_ok file envelope;
  bcreated_claim : 0 ≤ claim_value claim ≤ u64_max;
  bcreated_caps : caps_ok caps;
  bcreated_new : OpenStreamBoundaryJob_new_with_work_caps envelope claim caps = Ok j
}.

Lemma boundary_created_facts file envelope claim caps j :
  boundary_job_created file envelope claim caps j →
  let target := envelope_target envelope in
  let limits := envelope_limits envelope in
  setup_ok target limits (envelope_syntax_limits envelope) caps ∧
  claim_matches envelope claim = true ∧
  ∃ source_len data_span stats,
    payload_span target limits (envelope_data_start envelope) (claim_value claim)
      (operand_span (envelope_declared_length envelope)) = Ok data_span ∧
    target_xref_offset target ≤ ByteSpan_end_exclusive data_span < target_object_upper_bound target ∧
    stats_ok caps stats ∧
    1 ≤ Z.min (ol_initial_boundary_bytes limits)
          (target_object_upper_bound target - ByteSpan_end_exclusive data_span)
      ≤ boundary_cap target limits (ByteSpan_end_exclusive data_span) ∧
    j = boundary_job_at envelope claim source_len caps stats
          (BoundaryReading envelope data_span
             (Z.min (ol_initial_boundary_bytes limits)
                (target_object_upper_bound target - ByteSpan_end_exclusive data_span)) false).
Proof.
  intros [[Ht Hs Hst Hret (parsed&Hden&Hparsed)] Hv Hc Hnew] target limits.
  unfold OpenStreamBoundaryJob_new_with_work_caps in Hnew. cbv zeta in Hnew. fold target limits in Hnew.
  apply result_bind_ok in Hnew as ([]&Hf%fail_if_ok&Hnew). rewrite !orb_false_iff in Hf.
  destruct Hf as ((((Hf1&Hf2)&Hf3)&Hf4)&Hf5%negb_false_iff).
  apply result_bind_ok in Hnew as ([]&Hvalid&Hnew).
  assert (setup_ok target limits (envelope_syntax_limits envelope) caps) as Hs2.
  { eapply validate_common_setup; [done|apply Hs|apply Hs|done|done]. }
  split; [done|]. apply result_bind_ok in Hnew as ([]&Hm%fail_if_ok%negb_false_iff&Hnew).
  split; [done|]. apply result_bind_ok in Hnew as ([]&Hmax%fail_if_ok&Hnew).
  apply result_bind_ok in Hnew as (data_end&Hend%require_ok&Hnew).
  apply result_bind_ok in Hnew as ([]&Hbound%fail_if_ok&Hnew).
  apply result_bind_ok in Hnew as (data_span&Hspan&Hnew).
  apply result_bind_ok in Hnew as (remaining&Hrem%require_ok&Hnew).
  apply result_bind_ok in Hnew as (source_len&_&[= <-]).
  assert (payload_span target limits (envelope_data_start envelope) (claim_value claim)
    (operand_span (envelope_declared_length envelope)) = Ok data_span) as Hpayload.
  { unfold payload_span. rewrite Hmax, Hend. cbn [fail_if require mbind result_bind].
    rewrite Hbound. cbn [fail_if mbind result_bind]. by destruct (ByteSpan_new _ _). }
  assert (target_xref_offset target ≤ envelope_data_start envelope) as Hlow.
  { setup_facts Hs. unfold denoted_envelope in Hden. destruct (negb _); [done|].
    apply read_envelope_placed in Hden. simpl in Hden. destruct Hden as ([Hlow _]&_&_).
    injection Hparsed as _ _ _ _ _ ->. unfold offset_of, object_extent in Hlow.
    rewrite bytes_of_length in Hlow by lia. fold target in Hlow. lia. }
  assert (ByteSpan_end_exclusive data_span = data_end) as Hde.
  { checked_facts. subst. revert Hspan. unfold ByteSpan_new.
    assert (checked_add u64_max (envelope_data_start envelope) (claim_value claim) =
      Some (envelope_data_start envelope + claim_value claim)) as -> by (apply checked_add_Some; lia).
    by intros [= <-]. }
  checked_facts. exists source_len, data_span, (set_declared_stream_bytes (claim_value claim) (envelope_stats envelope)).
  rewrite Hde. setup_facts Hs2. split; [done|]. split; [lia|]. split.
  { apply stats_declared; [|done]. destruct Hst as (?&?&?&?&?&?&[Hr Hcap]).
    unfold stats_ok, retains. split_and!; try lia.
    unfold retained_cap_transition_is_valid in Hf5.
    destruct (caps_max_retained_bytes (envelope_work_caps envelope)), (caps_max_retained_bytes caps);
      simpl; try done; rewrite ?andb_true_iff in Hf5; lia. }
  split; [unfold boundary_cap; lia|]. subst. done.
Qed.

Inductive boundary_reached (file : Z → Z) (envelope : StreamEnvelope)
    `{!HonestSource S file (envelope_target envelope) (envelope_context envelope)}
    (j : OpenStreamBoundaryJob) : JobRun S OpenStreamBoundaryJob → Prop :=
| boundary_reached_new world :
    source_ok (world_source world) →
    boundary_reached file envelope j {| run_job := j; run_world := world |}
| boundary_reached_poll r r' poll :
    boundary_reached file envelope j r → OpenStreamBoundaryJob_poll r = (r', poll) →
    boundary_reached file envelope j r'
| boundary_reached_between r world :
    boundary_reached file envelope j r → source_ok (world_source world) →
    boundary_reached file envelope j {| run_job := run_job r; run_world := world |}.

Lemma boundary_reached_ok file envelope claim caps j r
    `{!HonestSource S file (envelope_target envelope) (envelope_context envelope)} :
  boundary_job_created file envelope claim caps j → boundary_reached file envelope j r →
  let target := envelope_target envelope in
  setup_ok target (envelope_limits envelope) (envelope_syntax_limits envelope) caps ∧
  claim_matches envelope claim = true ∧
  ∃ source_len data_span,
    payload_span target (envelope_limits envelope) (envelope_data_start envelope) (claim_value claim)
      (operand_span (envelope_declared_length envelope)) = Ok data_span ∧
    target_xref_offset target ≤ ByteSpan_end_exclusive data_span < target_object_upper_bound target ∧
    boundary_run_ok file envelope claim source_len caps data_span r.
Proof.
  intros Hc Hr. destruct (boundary_created_facts _ _ _ _ _ Hc) as (Hs&Hm&n&data_span&stats0&Hp&Hd&Hst0&Hwin&->).
  split; [done|]. split; [done|]. exists n, data_span. split; [done|]. split; [done|].
  induction Hr as [world Hw|r r' poll Hr IH Hpoll|r world Hr IH Hw].
  - eexists world, stats0, _. by split.
  - destruct (boundary_poll_run file envelope claim n caps data_span Hs Hd r IH) as (r1&poll1&Hp1&Hr1&_).
    rewrite Hp1 in Hpoll. by injection Hpoll as <- _.
  - destruct IH as (w0&stats&state&->&_&Hst&Hstate). by eexists world, stats, state.
Qed.
End jobs.

#[export] Existing Instance desktop_parser.

Definition file_text : string :=
  "1 0 obj<</Length 3>>stream" +:+ String (Ascii.ascii_of_nat 10) ("abc" +:+ String (Ascii.ascii_of_nat 10) "endstream endobj ")
  +:+ "2 0 obj[5 6]endobj startxref 0 end".
Definition file_bytes : list Z := Eval vm_compute in octets file_text.
Definition file_at (x : Z) : Z := default 0 (file_bytes !! Z.to_nat x).

Definition file_snapshot : SourceSnapshot :=
  {| snapshot_identity := {| stable_id := [1]; revision := 7 |}; snapshot_len := Some (len file_bytes);
     snapshot_validator := {| validator_kind := FrozenResponse; validator_digest := [9] |} |}.

(** The source has the bytes of a poll when it is [true]; it fetches them. *)
Definition file_slice (range : ByteRange) : ByteSlice :=
  {| slice_identity := snapshot_identity file_snapshot; slice_range := range;
     slice_backing := bytes_of file_at (range_start range) (range_len range);
     slice_backing_offset := 0 |}.
Definition file_ticket : DataTicket := {| ticket_namespace := 1; ticket_value := 3 |}.
#[export] Instance file_source : ByteSource bool := {|
  source_snapshot (_ : bool) := file_snapshot;
  source_poll (request : ReadRequest) (fetched : bool) :=
    (true, Some (if fetched then PollReady (file_slice (request_range request))
                 else PollPending file_ticket [request_range request]))
|}.

Lemma file_slice_bytes range :
  0 ≤ range_len range →
  slice_bytes (file_slice range) = bytes_of file_at (range_start range) (range_len range).
Proof.
  intros Hr. unfold slice_bytes. simpl. pose proof (bytes_of_length file_at (range_start range) _ Hr).
  rewrite drop_0. apply take_ge. lia.
Qed.

(** It is honest, whether it fetches or has fetched. *)
#[refine] Instance file_honest (fetched : bool) target context :
    HonestSource bool file_at target context := {|
  source_ok s := fetched = true → s = true
|}.
Proof.
  intros request s Hs ((Hr&_&_)&_). simpl. eexists _, _. split; [reflexivity|]. split; [done|].
  intros slice Hslice _ _. destruct s; [|done]. injection Hslice as <-.
  apply file_slice_bytes. destruct Hr. lia.
Defined.

Definition quiet : RuntimeCalls := {| calls_probes := 0; calls_reservations := 0 |}.
Definition file_world (fetched : bool) : World bool :=
  {| world_source := fetched; world_calls := quiet |}.

Lemma file_world_ok fetched target context :
  @source_ok _ _ _ _ _ (file_honest fetched target context) (world_source (file_world fetched)).
Proof. exact (λ Hf, Hf). Qed.

Definition file_target (number offset bound : Z) : IndirectObjectTarget :=
  {| target_snapshot := file_snapshot;
     target_reference := {| object_number := number; object_generation := 0 |};
     target_xref_offset := offset; target_object_upper_bound := bound;
     target_revision_startxref := 67; target_kind := XrefEntry |}.
Definition stream_target : IndirectObjectTarget := file_target 1 0 48.
Definition array_target : IndirectObjectTarget := file_target 2 48 67.
Definition file_context : ObjectJobContext :=
  {| context_job := 4; context_envelope_checkpoint := 1; context_boundary_checkpoint := 2;
     context_priority := VisiblePage |}.
Definition file_limits : ObjectLimits := ObjectLimitConfig_default.
Definition file_caps : ObjectWorkCaps := ObjectWorkCaps_from_limits file_limits.

Definition file_job target : result ObjectError OpenObjectJob :=
  OpenObjectJob_new_with_work_caps target file_context file_limits SyntaxLimitConfig_default file_caps.

Lemma file_limits_ok : object_limits_ok file_limits.
Proof. split; vm_compute; intuition discriminate. Qed.

Lemma file_syntax_ok : syntax_limits_ok SyntaxLimitConfig_default.
Proof. vm_compute. intuition discriminate. Qed.

Lemma file_caps_ok : caps_ok file_caps.
Proof. vm_compute. intuition discriminate. Qed.

Lemma file_target_ok number offset bound :
  0 ≤ offset < bound → bound ≤ 82 → target_ok (file_target number offset bound).
Proof. intros Hx Hb. split; [done|]. exists 82. split; [done|]. simpl. lia. Qed.

(** ** Jobs *)

Ltac evaluated result :=
  let r := eval vm_compute in result in
  match r with Ok ?x => exact x | Some ?x => exact x end.

Definition stream_job : OpenObjectJob := ltac:(evaluated (file_job stream_target)).
Definition array_job : OpenObjectJob := ltac:(evaluated (file_job array_target)).

Lemma stream_job_created :
  job_created stream_target file_context file_limits SyntaxLimitConfig_default file_caps stream_job.
Proof.
  split; [by apply file_target_ok|apply file_limits_ok|apply file_syntax_ok|apply file_caps_ok|reflexivity].
Qed.

Lemma array_job_created :
  job_created array_target file_context file_limits SyntaxLimitConfig_default file_caps array_job.
Proof.
  split; [by apply file_target_ok|apply file_limits_ok|apply file_syntax_ok|apply file_caps_ok|reflexivity].
Qed.

Definition stream_envelope_job : OpenObjectEnvelopeJob :=
  ltac:(evaluated (OpenObjectEnvelopeJob_new_with_work_caps stream_target file_context file_limits
                     SyntaxLimitConfig_default file_caps)).

Lemma stream_envelope_job_created :
  envelope_job_created stream_target file_context file_limits SyntaxLimitConfig_default file_caps
    stream_envelope_job.
Proof.
  split; [by apply file_target_ok|apply file_limits_ok|apply file_syntax_ok|apply file_caps_ok|reflexivity].
Qed.

(** The envelope that the envelope job hands on, and a claim for it. *)
Definition stream_envelope : StreamEnvelope :=
  ltac:(evaluated (match (OpenObjectEnvelopeJob_poll
                            {| run_job := stream_envelope_job; run_world := file_world true |}).2 with
                   | Some (EnvelopeStreamObject envelope) => Some envelope
                   | _ => None
                   end)).
Definition stream_claim : StreamLengthClaim :=
  direct_claim stream_target (envelope_declared_length stream_envelope) 3.
Definition stream_boundary_job : OpenStreamBoundaryJob :=
  ltac:(evaluated (OpenStreamBoundaryJob_new_with_work_caps stream_envelope stream_claim file_caps)).

Lemma stream_envelope_ok : envelope_ok file_at stream_envelope.
Proof.
  split.
  - by apply file_target_ok.
  - split; first [apply file_limits_ok|apply file_syntax_ok|vm_compute; intuition discriminate].
  - vm_compute. intuition discriminate.
  - reflexivity.
  - eexists. split; vm_compute; reflexivity.
Qed.

Lemma stream_boundary_job_created :
  boundary_job_created file_at stream_envelope stream_claim file_caps stream_boundary_job.
Proof.
  split; [apply stream_envelope_ok|vm_compute; intuition discriminate|apply file_caps_ok|reflexivity].
Qed.
