(* ===== verification/ObjectProps.v ===== *)
(** * The properties of object framing

    For jobs made by their constructors with validated limits, polled any number of
    times over an honest source, in whatever world they run in by the time of each
    poll: the calls of the probe and the allocator are arbitrary, and the source may
    change between polls in any way that keeps its promise. *)

From stdpp Require Import base list numbers option strings.
From S2P Require Import Prelude.
From S2P Require Import SourceTypes.
From S2P Require Import SyntaxTypes.
From S2P Require Import RangeTypes.
From S2P Require Import RangeSegments.
From S2P Require Import SyntaxState.
From S2P Require Import SyntaxLexer.
From S2P Require Import SyntaxParser.
From S2P Require Import SyntaxRules.
From S2P Require Import SyntaxReader.
From S2P Require Import SyntaxTrivia.
From S2P Require Import SyntaxMethods.
From S2P Require Import SyntaxFinal.
From S2P Require Import DocumentTypes.
From S2P Require Import ObjectTypes.
From S2P Require Import ObjectParser.
From S2P Require Import ObjectJob.
From S2P Require Import ObjectStaged.
From S2P Require Import ObjectReader.
From S2P Require Import ObjectAttempts.
From S2P Require Import ObjectFile.
From S2P Require Import ObjectRuns.
From S2P Require Import ObjectJobRuns.
From S2P Require Import ObjectStagedRuns.
From S2P Require Import ObjectReach.

Section props.
Context `{ParserRuntime} {S : Type} `{ByteSource S} (file : Z → Z).

(** C4: the one-shot object job. A poll never panics and always ends. From a job in
    flight it answers the object that the bytes of the file denote at the target,
    whatever windows it read; or pending, on a window that is now charged; or a
    failure, which it stores, and which the source, a limit, the allocator, the
    probe or a budget caused, or which the bytes decide, or which means that no
    admitted window decides. A completed or failed job answers its error again and
    changes nothing. *)
Theorem object_job_exact target context limits syntax_limits caps j r
    `{!HonestSource S file target context} :
  job_created target context limits syntax_limits caps j →
  job_reached file target context j r →
  ∃ source_len r' poll, OpenObjectJob_poll r = (r', Some poll) ∧
    job_polled file target source_len context limits syntax_limits caps r r' poll.
Proof.
  intros Hc Hr. destruct (job_reached_ok _ _ _ _ _ _ _ _ Hc Hr) as (Hs&n&Hok). exists n.
  destruct (job_poll_run file target n context limits syntax_limits caps Hs r Hok) as (r'&poll&Hp&_&Hq). eauto.
Qed.

(** C29: the invariant of the one-shot job. After any polls, the work is within the
    caps of the job and attempts are within the bytes read; the window is within
    the limits and the bound of the target; a stored envelope is the one that the
    file denotes, with the retained bytes that the job accounts for; and a stored
    error has a reason. *)
Theorem object_job_invariant target context limits syntax_limits caps j r
    `{!HonestSource S file target context} :
  job_created target context limits syntax_limits caps j →
  job_reached file target context j r →
  ∃ source_len, job_run_ok file target source_len context limits syntax_limits caps r.
Proof. intros Hc Hr. by destruct (job_reached_ok _ _ _ _ _ _ _ _ Hc Hr). Qed.

(** C18: the staged jobs. Likewise for the envelope job, which allows an indirect
    length and hands on an envelope that seals the work done, and for the boundary
    job of an accepted claim, which answers the object that the envelope, the claim
    and the bytes after the claimed payload make. *)
Theorem staged_jobs_exact target context limits syntax_limits caps ej er
    `{!HonestSource S file target context} envelope claim caps' bj br
    `{!HonestSource S file (envelope_target envelope) (envelope_context envelope)} :
  envelope_job_created target context limits syntax_limits caps ej →
  envelope_reached file target context ej er →
  boundary_job_created file envelope claim caps' bj →
  boundary_reached file envelope bj br →
  (∃ source_len r' poll, OpenObjectEnvelopeJob_poll er = (r', Some poll) ∧
     envelope_polled file target source_len context limits syntax_limits caps er r' poll) ∧
  (∃ source_len data_span r' poll,
     payload_span (envelope_target envelope) (envelope_limits envelope)
       (envelope_data_start envelope) (claim_value claim)
       (operand_span (envelope_declared_length envelope)) = Ok data_span ∧
     OpenStreamBoundaryJob_poll br = (r', Some poll) ∧
     boundary_polled file envelope claim source_len caps' data_span br r' poll).
Proof.
  intros Hc Hr Hbc Hbr. split.
  - destruct (envelope_reached_ok _ _ _ _ _ _ _ _ Hc Hr) as (Hs&n&Hok). exists n.
    destruct (envelope_poll_run file target n context limits syntax_limits caps Hs er Hok)
      as (r'&poll&Hp&_&Hq). eauto.
  - destruct (boundary_reached_ok _ _ _ _ _ _ Hbc Hbr) as (Hs&_&n&data_span&Hp&Hd&Hok).
    exists n, data_span.
    destruct (boundary_poll_run file envelope claim n caps' data_span Hs Hd br Hok)
      as (r'&poll&Hpoll&_&Hq). eauto.
Qed.

(** ** Staged and one-shot *)

Lemma denoted_allow target e :
  denoted_envelope file target true = Some (Ok e) →
  match e with
  | EnvelopeStream parsed => direct_value (pe_declared_length parsed) ≠ None
  | _ => True
  end → denoted_envelope file target false = Some (Ok e).
Proof.
  unfold denoted_envelope. destruct (negb _); [done|]. unfold file_envelope, read_envelope.
  set (c := reading_context target true SyntaxLimitConfig_default None).
  set (c' := reading_context target false SyntaxLimitConfig_default None).
  change (read_object_header c') with (read_object_header c).
  destruct (read_object_header c _ _) as [[[span r]|]|]; try done. cbn [dbind].
  change (ec_source c') with (ec_source c). change (ec_reference c') with (ec_reference c).
  destruct (SyntaxReader.read_object _ _ _ _) as [[body r1]|]; [|done]. cbn [mbind option_bind].
  destruct (read_keyword _ _ _ _) as [[terminal r2]|]; [|done]. cbn [mbind option_bind].
  case_bool_decide; [done|]. case_bool_decide; [|done]. unfold read_stream_envelope.
  change (ec_reference c') with (ec_reference c).
  change (ec_object_upper_bound c') with (ec_object_upper_bound c).
  destruct (located_value body); try done. destruct (read_length _ _) as [d|]; [|done].
  cbn [ec_allow_indirect_length c c' reading_context negb andb].
  destruct (read_line_ending _ _) as [[l ?]|]; [|by destruct (bool_decide _)]. cbn [mbind option_bind].
  destruct (_ <=? _); [done|]. intros [= <-] Hd. simpl in Hd. by rewrite bool_decide_eq_false_2.
Qed.

Lemma matching_direct envelope claim value span :
  claim_matches envelope claim = true → envelope_declared_length envelope = DirectLength value span →
  claim = direct_claim (envelope_target envelope) (envelope_declared_length envelope) value.
Proof.
  unfold claim_matches. intros Hm Hd. rewrite !andb_true_iff in Hm. destruct Hm as [[[H1 H2] H3] H4].
  apply bool_decide_eq_true_1 in H1, H2, H3. rewrite Hd in *. destruct claim as [c1 c2 c3 c4 c5].
  simpl in *. subst. destruct c5; [done|]. checked_facts. by subst.
Qed.

(** C25: the staged jobs frame what the one-shot job frames. A direct object that the
    envelope job answers, and a stream that a boundary job answers for an envelope
    with a direct length, whatever claim was accepted for it, are what the file
    denotes at the target; so they equal any answer of a one-shot job up to the
    retained bytes. *)
Theorem staged_agrees target context limits syntax_limits caps ej er er' epoll
    `{!HonestSource S file target context} :
  envelope_job_created target context limits syntax_limits caps ej →
  envelope_reached file target context ej er →
  OpenObjectEnvelopeJob_poll er = (er', Some epoll) →
  match epoll with
  | EnvelopeDirectObject object =>
      denoted_object file target limits (object_retained_heap_bytes object) = Some (Ok object)
  | EnvelopeStreamObject envelope =>
      envelope_ok file envelope ∧
      ∀ claim caps' bj br br' object
        `{!HonestSource S file (envelope_target envelope) (envelope_context envelope)},
      direct_value (envelope_declared_length envelope) ≠ None →
      boundary_job_created file envelope claim caps' bj →
      boundary_reached file envelope bj br →
      OpenStreamBoundaryJob_poll br = (br', Some (ObjectReady object)) →
      denoted_object file target limits (object_retained_heap_bytes object) = Some (Ok object)
  | _ => True
  end.
Proof.
  intros Hc Hr Hpoll. pose proof (ecreated_target _ _ _ _ _ _ Hc) as Ht.
  destruct (envelope_reached_ok _ _ _ _ _ _ _ _ Hc Hr) as (Hs&n&Hok).
  destruct (envelope_poll_run file target n context limits syntax_limits caps Hs er Hok)
    as (r'&poll&Hp&_&Hq). rewrite Hp in Hpoll. injection Hpoll as <- ->.
  unfold envelope_polled in Hq.
  destruct (ej_state (run_job er)); [|by destruct Hq as [_ ->]..].
  destruct Hq as (world&stats&state&_&_&Hst&_&Hans). destruct Hans as [parsed object Hd Ho|parsed Hd Hdecl| |]; [| |done..].
  - unfold denoted_object. rewrite (denoted_allow _ _ Hd I). cbn [dbind].
    unfold direct_object in *. apply result_bind_ok in Ho as (span&Hspan&[= <-]).
    cbn [object_retained_heap_bytes IndirectObject_new]. by rewrite Hspan.
  - split; [by apply sealed_envelope_ok|]. intros claim caps' bj br br' object Hh Hdirect Hbc Hbr Hbpoll.
    destruct (boundary_reached_ok _ _ _ _ _ _ Hbc Hbr) as (Hbs&Hm&bn&data_span&Hspan&Hrange&Hbok).
    destruct (boundary_poll_run file _ claim bn caps' data_span Hbs Hrange br Hbok) as (rb&pollb&Hpb&_&Hqb).
    rewrite Hpb in Hbpoll. injection Hbpoll as -> ->. unfold boundary_polled in Hqb.
    destruct (bj_state (run_job br)); [|by destruct Hqb..].
    destruct Hqb as (?&?&?&_&_&_&_&Hab). inversion Hab as [o Hframed| |]; subst.
    cbn [sealed_envelope envelope_declared_length] in Hdirect.
    destruct (pe_declared_length parsed) as [value span|] eqn:Hdl; [|done].
    assert (envelope_declared_length (sealed_envelope target context limits syntax_limits caps parsed stats) =
      DirectLength value span) as Hdl' by done.
    pose proof (matching_direct _ _ _ _ Hm Hdl') as ->.
    unfold framed in Hframed. cbn [sealed_envelope envelope_target envelope_declared_length
      envelope_limits envelope_data_start envelope_retained_heap_bytes direct_claim
      StreamLengthClaim_direct claim_value] in *.
    destruct (file_boundary _ _ _ _) as [[b|]|] eqn:Hb; [|done..]. cbn [dbind] in Hframed.
    injection Hframed as Hframed.
    assert (object_retained_heap_bytes object = os_retained_heap_bytes stats) as ->.
    { unfold stream_object in Hframed. by apply result_bind_ok in Hframed as (?&_&[= <-]). }
    unfold denoted_object. rewrite (denoted_allow target (EnvelopeStream parsed)); [|done|by rewrite Hdl].
    cbn [dbind]. rewrite Hdl. unfold denoted_stream.
    cbn [direct_claim StreamLengthClaim_direct claim_value]. rewrite Hdl in *. rewrite Hspan, Hb. cbn [dbind].
    rewrite <-Hframed. done.
Qed.

(** ** Progress *)

(** A source that always delivers ranges of at most [width] bytes. *)
Definition delivers (target : IndirectObjectTarget) (context : ObjectJobContext) (width : Z)
    `{!HonestSource S file target context} : Prop :=
  ∀ s, source_ok s → source_snapshot s = target_snapshot target ∧
    ∀ request, asks target context request → range_len (request_range request) ≤ width → ∃ slice,
      (source_poll request s).2 = Some (PollReady slice) ∧
      slice_identity slice = snapshot_identity (target_snapshot target) ∧
      slice_range slice = request_range request.

(** The object is decided by windows that the limits admit. *)
Record fits (target : IndirectObjectTarget) (limits : ObjectLimits) : Prop := {
  fits_denoted : ∃ object, denoted_object file target limits 0 = Some (Ok object);
  fits_envelope :
    file_envelope file target false (envelope_cap target limits - prefix_bytes target) ≠ None;
  fits_boundary : ∀ parsed data_span, stream_at file target limits parsed data_span →
    let data_end := ByteSpan_end_exclusive data_span in
    file_boundary file target data_end (boundary_cap target limits data_end) ≠ None
}.

Lemma delivers_not_pending target context width range checkpoint ticket missing s'
    `{!HonestSource S file target context} :
  delivers target context width → range_len range ≤ width →
  checkpoint = context_envelope_checkpoint context ∨ checkpoint = context_boundary_checkpoint context →
  ¬ awaiting (S := S) file target context range checkpoint ticket missing s'.
Proof.
  intros Hdel Hlen Hpoint (s&Hs&Hasked&Hp). destruct (Hdel s Hs) as [_ Hd].
  destruct (Hd {| request_range := range; request_priority := context_priority context;
                  request_job := context_job context; request_checkpoint := checkpoint |})
    as (slice&Hp'&_); [split; [exact Hasked|by split]|done|]. by rewrite Hp in Hp'.
Qed.

Lemma world_delivers target context limits caps e `{!HonestSource S file target context} :
  delivers target context (widest_read target limits) → world_failure (S := S) file target context limits caps e →
  object_refused e ∨ budget_exceeded caps e.
Proof.
  assert (∀ range polled, delivers target context (widest_read target limits) →
    asked_window target limits range →
    source_answered (S := S) file target context range polled →
    ∃ slice, polled = PollReady slice ∧ slice_identity slice = snapshot_identity (target_snapshot target) ∧
      slice_range slice = range) as Hans.
  { intros range polled Hdel [_ Hlen] (request&s&Hs&Hasks&<-&Hp). destruct (Hdel s Hs) as [_ Hd].
    destruct (Hd request Hasks Hlen) as (slice&Hp'&?&?). rewrite Hp in Hp'. injection Hp' as ->. eauto. }
  intros Hdel [s Hs Hsnap _|range slice Hr Ha Hid _|range slice Hr Ha Hno _|range offset Hr Ha _
    |range error offset Hr Ha _|?|?]; [| | | | |by left|by right].
  - by destruct (Hdel s Hs) as [? _].
  - destruct (Hans _ _ Hdel Hr Ha) as (?&[= <-]&?&?). done.
  - destruct (Hans _ _ Hdel Hr Ha) as (?&[= <-]&?&?). done.
  - by destruct (Hans _ _ Hdel Hr Ha) as (?&?&_).
  - by destruct (Hans _ _ Hdel Hr Ha) as (?&?&_).
Qed.

Definition in_flight (j : OpenObjectJob) : Prop :=
  match job_state j with JobEnvelope _ _ | JobStreamBoundary _ _ _ => True | _ => False end.

(** The poll of a job in flight over a source that delivers. *)
Lemma framed_run target n context limits syntax_limits caps r
    `{!HonestSource S file target context} :
  setup_ok target limits syntax_limits caps →
  job_run_ok file target n context limits syntax_limits caps r →
  delivers target context (widest_read target limits) → fits target limits → in_flight (run_job r) →
  ∃ r' poll, OpenObjectJob_poll r = (r', Some poll) ∧
    ((∃ object n, poll = ObjectReady object ∧ denoted_object file target limits n = Some (Ok object)) ∨
     (∃ e, poll = ObjectFailed e ∧ (object_refused e ∨ budget_exceeded caps e))).
Proof.
  intros Hs Hok Hdel [(o&Hden) Henv Hbound] Hflight.
  destruct (job_poll_run file target n context limits syntax_limits caps Hs r Hok) as (r'&poll&Hp&_&Hq).
  exists r', poll. split; [done|]. unfold job_polled in Hq.
  assert (job_ends file target n context limits syntax_limits caps r' poll) as He
    by (unfold in_flight in Hflight; by destruct (job_state (run_job r))).
  destruct He as (world&stats&state&->&Hw&_&Hst&Hans).
  destruct Hans as [object Ho|window ticket missing Ha|envelope window ticket missing data_end Ha|e He].
  - left. eauto.
  - exfalso. eapply delivers_not_pending; [exact Hdel| |by left|exact Ha].
    simpl in Hst. by eapply envelope_asked; [exact Hs|].
  - exfalso. eapply delivers_not_pending; [exact Hdel| |by right|exact Ha].
    destruct Hst as (_&_&_&Hwin). assert (Hlow := Ha). destruct Hlow as (?&_&(_&Hlow&_)&_).
    eapply boundary_asked; [exact Hs|exact Hlow|exact Hwin].
  - right. exists e. split; [done|]. destruct He as [Hf|Hf|_ Hf|parsed data_span Hstream Hf].
    + by eapply world_delivers.
    + specialize (Hf 0). congruence.
    + left. assert (1 ≤ envelope_cap target limits ≤ envelope_cap target limits) as Hcap.
      { pose proof (prefix_range _ _ _ _ Hs). setup_facts Hs. unfold envelope_cap, envelope_available. lia. }
      pose proof (envelope_cap_facts _ _ _ _ Hs _ Hcap) as (?&_&Hadm&_).
      destruct Hf as [_ Hf|Hf _]; [|by destruct Henv].
      by destruct (Hf (envelope_cap target limits - prefix_bytes target)) as [?|?]; [lia|done| |].
    + left. specialize (Hbound _ _ Hstream). cbv zeta in Hbound.
      destruct Hf as [_ Hf|Hf _]; [|by destruct Hbound].
      destruct Hstream as (value&span&Hd&Hb&Hpay).
      destruct (denoted_stream_placed _ _ _ _ _ Hs _ _ _ _ Hb Hd Hpay) as (Hspan&?&?&?).
      assert (0 ≤ ByteSpan_end_exclusive data_span) by
        (rewrite Hspan; unfold ByteSpan_end_exclusive; simpl; setup_facts Hs; lia).
      setup_facts Hs. unfold boundary_cap in *.
      destruct (Hf (Z.min (ol_max_boundary_bytes limits)
        (target_object_upper_bound target - ByteSpan_end_exclusive data_span))) as [?|?]; [lia| |done|done].
      unfold window_admitted. lia.
Qed.
(** C30: progress. Where the file denotes an object that windows within the limits
    decide, and the source delivers, the poll of a job in flight answers that
    object, unless a limit of the parser, the allocator, the probe or a budget of
    the job refuses. No byte after the object, and no short window, is mistaken for
    an error. *)
Theorem object_framed target context limits syntax_limits caps j r
    `{!HonestSource S file target context} :
  job_created target context limits syntax_limits caps j →
  job_reached file target context j r →
  delivers target context (widest_read target limits) → fits target limits →
  in_flight (run_job r) →
  ∃ r' poll, OpenObjectJob_poll r = (r', Some poll) ∧
    ((∃ object n, poll = ObjectReady object ∧ denoted_object file target limits n = Some (Ok object)) ∨
     (∃ e, poll = ObjectFailed e ∧ (object_refused e ∨ budget_exceeded caps e))).
Proof.
  intros Hc Hr Hdel Hfits Hflight. destruct (job_reached_ok _ _ _ _ _ _ _ _ Hc Hr) as (Hs&n&Hok).
  by eapply framed_run.
Qed.

(** ** Charges *)

Definition window_request (j : OpenObjectJob) : option ReadRequest :=
  let request start window checkpoint :=
    {| request_range := range_at start window;
       request_priority := context_priority (job_context j);
       request_job := context_job (job_context j); request_checkpoint := checkpoint |} in
  match job_state j with
  | JobEnvelope window _ =>
      Some (request (target_xref_offset (job_target j) - prefix_bytes (job_target j)) window
              (context_envelope_checkpoint (job_context j)))
  | JobStreamBoundary envelope window _ =>
      Some (request (ByteSpan_end_exclusive (prepared_data_span envelope)) window
              (context_boundary_checkpoint (job_context j)))
  | _ => None
  end.

(** The job once its window is charged; the budget of reads may refuse that. *)
Definition window_charged (j : OpenObjectJob) : option OpenObjectJob :=
  let read window :=
    let total := os_read_bytes (job_stats j) + window in
    if total <=? caps_max_read_bytes (job_work_caps j)
    then Some (set_read_bytes total (job_stats j)) else None in
  match job_state j with
  | JobEnvelope window false =>
      stats ← read window;
      Some (set_state (JobEnvelope window true)
              (set_stats (set_envelope_attempts (os_envelope_attempts stats + 1) stats) j))
  | JobStreamBoundary envelope window false =>
      stats ← read window;
      Some (set_state (JobStreamBoundary envelope window true)
              (set_stats (set_boundary_attempts (os_boundary_attempts stats + 1) stats) j))
  | _ => Some j
  end.

Lemma window_charged_idem j j' : window_charged j = Some j' → window_charged j' = Some j'.
Proof.
  unfold window_charged. destruct (job_state j) as [w [|]|e w [|]| |] eqn:Hj; try (intros [= <-]; by rewrite Hj).
  - destruct (_ <=? _); [|done]. by intros [= <-].
  - destruct (_ <=? _); [|done]. by intros [= <-].
Qed.

(** Reading the charged window of a job, where the source has no bytes yet. *)
Lemma read_window_pending {B} target source_len context limits syntax_limits caps range checkpoint offset
    (k : ByteSlice → JobM S OpenObjectJob ObjectPoll B) world stats state s' ticket missing Q :
  source_poll {| request_range := range; request_priority := context_priority context;
                 request_job := context_job context; request_checkpoint := checkpoint |}
    (world_source world) = (s', Some (PollPending ticket missing)) →
  jobs (read_window range checkpoint offset ≫= k)
    (at_job target source_len context limits syntax_limits caps world stats state) Q
    (λ r' poll, r' = at_job target source_len context limits syntax_limits caps
                       {| world_source := s'; world_calls := world_calls world |} stats state ∧
                poll = ObjectPending ticket missing checkpoint).
Proof.
  intros Hp. unfold read_window, jobs, mbind, M_bind, job, gets, poll_source.
  cbn [run_job run_world at_job job_at job_context]. by rewrite Hp.
Qed.

Lemma charge_window_exact {B} target source_len context limits syntax_limits caps window charged start
    offset charged_state attempts set_attempts (k : unit → JobM S OpenObjectJob ObjectPoll B) world stats
    state Q E :
  counter attempts set_attempts → setup_ok target limits syntax_limits caps → stats_ok caps stats →
  1 ≤ window → (charged = true → state = charged_state) →
  (charged = false → os_read_bytes stats + window ≤ caps_max_read_bytes caps) →
  (let read := set_read_bytes (os_read_bytes stats + window) stats in
   jobs (k tt)
     (at_job target source_len context limits syntax_limits caps world
        (if charged then stats else set_attempts (attempts read + 1) read) charged_state) Q E) →
  jobs (charge_window window charged start offset charged_state attempts set_attempts ≫= k)
    (at_job target source_len context limits syntax_limits caps world stats state) Q E.
Proof.
  intros Hcount Hs (?&?&?&?&?&?&?) Hwin Hst Hread Hk. unfold charge_window. setup_facts Hs. destruct charged.
  { by rewrite Hst. }
  specialize (Hread eq_refl). set (read := set_read_bytes (os_read_bytes stats + window) stats) in *.
  eapply (jobs_bind _ _ _ (λ r' _, r' = at_job target source_len context limits syntax_limits caps world
    (set_attempts (attempts read + 1) read) charged_state)); [|by intros r' [] ->].
  eapply (jobs_bind _ _ _ (λ r' _, r' = at_job target source_len context limits syntax_limits caps world
    read state)).
  - apply jobs_job. cbn [run_job at_job job_at job_stats job_work_caps job_target].
    unfold charge_read, charge_total_bytes.
    assert (checked_add u64_max (os_read_bytes stats) window = Some (os_read_bytes stats + window)) as ->
      by (apply checked_add_Some; lia).
    cbn [require mbind result_bind]. by rewrite (proj2 (Z.ltb_ge _ _) Hread).
  - intros r' [] ->. apply jobs_job.
    destruct Hcount as [[-> ->]|[-> ->]];
      (eapply ends_some; [apply checked_add_Some; split; [|reflexivity]; simpl; lia|]); done.
Qed.

(** C35: charges. Polled while the source has no bytes for the window yet, a job
    charges that window and counts an attempt, unless it did before, changes
    nothing else, and answers pending with the ticket of the source; so polling
    again charges nothing. *)
Theorem pending_charges_once target context limits syntax_limits caps j r request j' s' ticket missing
    `{!HonestSource S file target context} :
  job_created target context limits syntax_limits caps j →
  job_reached file target context j r →
  window_request (run_job r) = Some request → window_charged (run_job r) = Some j' →
  let world := run_world r in
  source_snapshot (world_source world) = target_snapshot target →
  parser_cancelled (calls_probes (world_calls world)) = false →
  source_poll request (world_source world) = (s', Some (PollPending ticket missing)) →
  OpenObjectJob_poll r =
    ({| run_job := j';
        run_world := {| world_source := s';
                        world_calls := {| calls_probes := Datatypes.S (calls_probes (world_calls world));
                                          calls_reservations := calls_reservations (world_calls world) |} |} |},
     Some (ObjectPending ticket missing (request_checkpoint request))) ∧
  window_charged j' = Some j'.
Proof.
  intros Hc Hr Hreq Hch world Hsnap Hprobe Hpend. split; [|by eapply window_charged_idem].
  destruct (job_reached_ok _ _ _ _ _ _ _ _ Hc Hr) as (Hs&n&(w&stats&state&->&_&Hst&Hstate)).
  cbn [run_world at_job] in world. subst world. cbn [run_job at_job] in *. 
  set (w1 := {| world_source := world_source w;
                world_calls := {| calls_probes := Datatypes.S (calls_probes (world_calls w));
                                  calls_reservations := calls_reservations (world_calls w) |} |}).
  assert (jobs poll_step (at_job target n context limits syntax_limits caps w stats state) (λ _ _, False)
    (λ r' poll, r' = {| run_job := j'; run_world := {| world_source := s'; world_calls := world_calls w1 |} |} ∧
                poll = ObjectPending ticket missing (request_checkpoint request))) as Hstep.
  { unfold poll_step. apply jobs_job, jobs_snapshot. cbn [run_world run_job at_job job_at job_target].
    rewrite (bool_decide_eq_true_2 _ Hsnap). cbn [negb].
    eapply (jobs_bind _ _ _ (λ r' _, r' = at_job target n context limits syntax_limits caps w1 stats state)).
    { unfold fail_if_cancelled. apply jobs_job. unfold jobs, mbind, M_bind, is_cancelled.
      cbn [run_world at_job]. by rewrite Hprobe. }
    intros r' [] ->. pose proof (prefix_range _ _ _ _ Hs). cbn [job_state].
    destruct state as [window charged|envelope window charged| |e]; [..|done|done].
    - pose proof (envelope_cap_facts _ _ _ _ Hs window Hstate) as (_&Hend&_&_). simpl in Hstate.
      injection Hreq as <-. unfold poll_envelope. apply jobs_job. cbv zeta.
      cbn [job_target job_context run_job at_job job_at]. setup_facts Hs.
      eapply ends_some; [apply checked_sub_Some; split; [lia|reflexivity]|].
      eapply ends_window_range; [by eapply asked_range; [exact Hs|lia..]|].
      eapply charge_window_exact; [by left|exact Hs|done|lia|by intros ->|..].
      { intros ->. unfold window_charged in Hch. simpl in Hch. by destruct (Z.leb_spec (os_read_bytes stats + window) (caps_max_read_bytes caps)). }
      eapply jobs_mono; [apply (read_window_pending target n context limits syntax_limits caps); exact Hpend|exact (λ _ _ H, H)|].
      intros r' poll [-> ->]. split; [|done]. unfold at_job. f_equal.
      unfold window_charged in Hch. simpl in Hch. destruct charged; [by injection Hch as <-|].
      destruct (_ <=? _); [|done]. by injection Hch as <-.
    - destruct Hstate as (Henv&_&_&Hwin).
      destruct (prepared_stream _ _ _ _ _ Hs envelope Henv) as (_&Hend).
      injection Hreq as <-. unfold poll_boundary. apply jobs_job. cbv zeta.
      cbn [job_target job_context run_job at_job job_at]. unfold boundary_cap in Hwin. setup_facts Hs.
      eapply ends_window_range; [by eapply asked_range; [exact Hs|lia..]|].
      eapply charge_window_exact; [by right|exact Hs|done|lia|by intros ->|..].
      { intros ->. unfold window_charged in Hch. simpl in Hch. by destruct (Z.leb_spec (os_read_bytes stats + window) (caps_max_read_bytes caps)). }
      eapply jobs_mono; [apply (read_window_pending target n context limits syntax_limits caps); exact Hpend|exact (λ _ _ H, H)|].
      intros r' poll [-> ->]. split; [|done]. unfold at_job. f_equal.
      unfold window_charged in Hch. simpl in Hch. destruct charged; [by injection Hch as <-|].
      destruct (_ <=? _); [|done]. by injection Hch as <-. }
  unfold jobs in Hstep.
  assert (OpenObjectJob_poll_inner (at_job target n context limits syntax_limits caps w stats state) =
    poll_loop poll_fuel (at_job target n context limits syntax_limits caps w stats state)) as Hinner.
  { unfold OpenObjectJob_poll_inner, mbind, M_bind, job, gets. cbn [run_job at_job job_at job_state].
    by destruct state. }
  unfold OpenObjectJob_poll. rewrite Hinner. unfold poll_fuel. cbn [poll_loop].
  unfold mbind at 1, M_bind.
  destruct (poll_step _) as [r' [a|[poll|]]]; [done| |done]. by destruct Hstep as [-> ->].
Qed.
End props.

(** ** Concrete runs *)

Definition started {J} (fetched : bool) (j : J) : JobRun bool J :=
  {| run_job := j; run_world := file_world fetched |}.

Lemma object_job_exact_witness :
  ∃ source_len r' poll, OpenObjectJob_poll (started true stream_job) = (r', Some poll) ∧
    @job_polled _ _ _ file_at stream_target source_len file_context file_limits SyntaxLimitConfig_default
      file_caps (file_honest true _ _) (started true stream_job) r' poll.
Proof.
  apply (object_job_exact file_at _ _ _ _ _ stream_job (started true stream_job) stream_job_created).
  apply reached_new, file_world_ok.
Defined.

Lemma object_job_invariant_witness :
  ∃ source_len, @job_run_ok _ _ _ file_at stream_target source_len file_context file_limits
    SyntaxLimitConfig_default file_caps (file_honest true _ _)
    (OpenObjectJob_poll (started true stream_job)).1.
Proof.
  refine (object_job_invariant file_at _ _ _ _ _ stream_job _ stream_job_created _).
  eapply reached_poll; [apply reached_new, file_world_ok|apply surjective_pairing].
Defined.

Lemma staged_jobs_exact_witness :
  ∃ source_len r' poll, OpenObjectEnvelopeJob_poll (started true stream_envelope_job) = (r', Some poll) ∧
    @envelope_polled _ _ _ file_at stream_target source_len file_context file_limits
      SyntaxLimitConfig_default file_caps (file_honest true _ _) (started true stream_envelope_job) r' poll.
Proof.
  refine (proj1 (@staged_jobs_exact _ _ _ file_at stream_target file_context file_limits
    SyntaxLimitConfig_default file_caps stream_envelope_job (started true stream_envelope_job)
    (file_honest true _ _) stream_envelope stream_claim file_caps stream_boundary_job
    (started true stream_boundary_job) (file_honest true _ _) stream_envelope_job_created _
    stream_boundary_job_created _)).
  - apply envelope_reached_new, file_world_ok.
  - apply boundary_reached_new, file_world_ok.
Defined.

Lemma staged_agrees_witness :
  envelope_ok file_at stream_envelope ∧
  ∃ object, (OpenStreamBoundaryJob_poll (started true stream_boundary_job)).2 = Some (ObjectReady object) ∧
    denoted_object file_at stream_target file_limits (object_retained_heap_bytes object) = Some (Ok object).
Proof.
  assert (OpenObjectEnvelopeJob_poll (started true stream_envelope_job) =
    ((OpenObjectEnvelopeJob_poll (started true stream_envelope_job)).1,
     Some (EnvelopeStreamObject stream_envelope))) as Hrun by (vm_compute; reflexivity).
  pose proof (@staged_agrees _ _ _ file_at stream_target file_context file_limits
    SyntaxLimitConfig_default file_caps stream_envelope_job (started true stream_envelope_job) _
    (EnvelopeStreamObject stream_envelope) (file_honest true _ _) stream_envelope_job_created
    (envelope_reached_new _ _ _ _ (file_world true) (file_world_ok true _ _)) Hrun) as [Henv Hagree].
  split; [exact Henv|]. eexists. split; [vm_compute; reflexivity|].
  refine (Hagree stream_claim file_caps stream_boundary_job (started true stream_boundary_job) _ _
    (file_honest true _ _) _ stream_boundary_job_created _ _);
    [done|apply boundary_reached_new, file_world_ok|vm_compute; reflexivity].
Defined.

Lemma stream_fits : fits file_at stream_target file_limits.
Proof.
  split.
  - eexists. vm_compute. reflexivity.
  - by vm_compute.
  - intros parsed data_span (value&span&Hd&Hden&Hpay).
    assert (Some (Ok (EnvelopeStream parsed)) = ltac:(let t := eval vm_compute in
      (denoted_envelope file_at stream_target false) in exact t)) as Hparsed
      by (rewrite <-Hden; vm_compute; reflexivity).
    injection Hparsed as ->. injection Hd as <- <-. vm_compute in Hpay. injection Hpay as <-.
    by vm_compute.
Qed.

Lemma object_framed_witness :
  ∃ r' poll, OpenObjectJob_poll (started true stream_job) = (r', Some poll) ∧
    ((∃ object n, poll = ObjectReady object ∧
        denoted_object file_at stream_target file_limits n = Some (Ok object)) ∨
     (∃ e, poll = ObjectFailed e ∧ (object_refused e ∨ budget_exceeded file_caps e))).
Proof.
  refine (@object_framed _ _ _ file_at stream_target file_context file_limits SyntaxLimitConfig_default
    file_caps stream_job (started true stream_job) (file_honest true _ _) stream_job_created _ _ stream_fits I).
  - apply reached_new, file_world_ok.
  - intros s Hs. split; [done|]. intros request _. exists (file_slice (request_range request)).
    cbv in Hs. by rewrite Hs.
Defined.

Lemma pending_charges_once_witness :
  ∃ j', OpenObjectJob_poll (started false stream_job) =
    ({| run_job := j';
        run_world := {| world_source := true;
                        world_calls := {| calls_probes := 1; calls_reservations := 0 |} |} |},
     Some (ObjectPending file_ticket [range_at 0 48] 1)) ∧
  window_charged j' = Some j'.
Proof.
  eexists.
  refine (@pending_charges_once _ _ _ file_at stream_target file_context file_limits
    SyntaxLimitConfig_default file_caps stream_job (started false stream_job)
    {| request_range := range_at 0 48; request_priority := VisiblePage; request_job := 4;
       request_checkpoint := 1 |} _ true file_ticket [range_at 0 48] (file_honest false _ _)
    stream_job_created _ _ _ _ _ _).
  1: apply reached_new, file_world_ok.
  all: vm_compute; reflexivity.
Defined.
