(* ===== verification/ObjectStore.v ===== *)
(** * Object framing over the byte range store

    [RangeStore] as the [ByteSource] of a job: it is honest while what it holds are
    bytes of the file, so what is proved of jobs holds of jobs that read a store
    which other threads supply, poll and poison between the polls. The properties
    are of a job and a store made by their constructors, with any polls of the job
    and any calls of other threads in between, where the accepted responses carry
    bytes of a file. *)

From stdpp Require Import base list numbers option strings.
From S2P Require Import Prelude.
From S2P Require Import SourceTypes.
From S2P Require Import SyntaxTypes.
From S2P Require Import SyntaxState.
From S2P Require Import SyntaxRules.
From S2P Require Import SyntaxProps.
From S2P Require Import RangeTypes.
From S2P Require Import RangeStore.
From S2P Require Import RangeSegments.
From S2P Require Import RangeMerge.
From S2P Require Import RangeInv.
From S2P Require Import RangeSupply.
From S2P Require Import RangeTickets.
From S2P Require Import RangePoll.
From S2P Require Import RangeRuns.
From S2P Require Import RangeProps.
From S2P Require Import ObjectTypes.
From S2P Require Import ObjectParser.
From S2P Require Import ObjectJob.
From S2P Require Import ObjectReader.
From S2P Require Import ObjectAttempts.
From S2P Require Import ObjectFile.
From S2P Require Import ObjectRuns.
From S2P Require Import ObjectJobRuns.
From S2P Require Import ObjectReach.
From S2P Require Import ObjectProps.

(** [impl ByteSource for RangeStore]. *)
Definition range_source `{RangeRuntime} (store : RangeStore) : ByteSource RangeState := {|
  source_snapshot _ := store_snapshot store;
  source_poll request s :=
    let '(s', r) := RangeStore.poll store request s in
    (s', match r with Ok answer => Some answer | Err _ => None end)
|}.

Section honest.
Context `{RangeRuntime} (store : RangeStore) (file : Z → Z).
Context (Hlimits : range_limits_ok (store_limits store)).

(** The bytes that the store holds are bytes of the file. *)
Definition of_file (s : RangeState) : Prop :=
  ∀ x b, content (segments (locked s)) x = Some b → file x = b.

(** The store in order, holding bytes of the file, and able to answer [need]. *)
Definition serves_file (need : option ByteRange) (s : RangeState) : Prop :=
  range_wf store s ∧ of_file s ∧ from_option (answerable (locked s)) True need.

Lemma poll_serves need request s s' answer :
  range_wf store s → range_ok (request_range request) → poll_outcome store s request answer s' →
  serves_file need s → serves_file need s'.
Proof.
  intros Hwf Hr Ho (_&Hf&Hneed). pose proof (call_polled store (CallPoll request) s request answer s' eq_refl Ho) as Hc.
  pose proof (call_grows store _ _ _ _ Hc) as Hg. pose proof (call_known store _ _ _ _ Hc) as Hk. simpl in Hk.
  split; [by eapply call_wf|]. split; [intros x b; rewrite Hk; by apply Hf|].
  destruct need; [|done]. by eapply answerable_grows.
Qed.

Lemma cached_of_file s range bytes :
  of_file s → 0 ≤ range_len range → bytes_at (content (segments (locked s))) range = Some bytes →
  bytes = bytes_of file (range_start range) (range_len range).
Proof.
  intros Hf Hlen [Hl Hb]%bytes_at_Some; [|done]. apply list_eq. intros i. unfold bytes_of.
  rewrite list_lookup_fmap. destruct (decide (i < length bytes)%nat) as [Hi|Hi].
  - rewrite lookup_seqZ_lt by lia. simpl.
    destruct (lookup_lt_is_Some_2 bytes i Hi) as [b Hib]. rewrite Hib. f_equal. symmetry.
    apply Hf. rewrite Hb by (unfold in_range, ByteRange_end_exclusive; lia).
    rewrite <-Hib. f_equal. lia.
  - rewrite lookup_ge_None_2 by lia. by rewrite lookup_seqZ_ge by lia.
Qed.

(** The promise of the store to a job. *)
#[refine] Instance range_honest need target context :
    @HonestSource RangeState (range_source store) file target context := {|
  source_ok := serves_file need
|}.
Proof.
  intros request s Hs ((Hr&_&_)&_). pose proof Hs as (Hwf&Hf&_).
  destruct (RangeStore.poll store request s) as [s' r] eqn:Hp.
  destruct (poll_run store Hlimits s request s' r (wf_store _ _ Hwf) Hr Hp) as (answer&->&Ho).
  exists s', answer. split; [simpl; by rewrite Hp|]. split; [by eapply poll_serves|].
  intros slice -> _ _. inversion Ho as [? ? _ _ _ _ Hb| | | |]; subst.
  eapply cached_of_file; [done| |done]. destruct Hr. lia.
Defined.
(** ** A store that covers an object *)

(** The store holds what the job may read, it serves reads of [width] bytes and
    inputs as long as the target may reach, and no change of the source is signalled. *)
Record covers (target : IndirectObjectTarget) (width : Z) (s : RangeState) : Prop := {
  covers_source : store_snapshot store = target_snapshot target;
  covers_quiet : ¬ change_signalled s;
  covers_bytes x : target_xref_offset target - prefix_bytes target ≤ x < target_object_upper_bound target →
    is_Some (content (segments (locked s)) x);
  covers_end : from_option (λ n, target_object_upper_bound target ≤ n) True (observed_len (locked s));
  covers_read : width ≤ range_max_read_bytes (store_limits store);
  covers_input : target_object_upper_bound target ≤ range_max_input_bytes (store_limits store)
}.

(** No byte of a range that the job may read is missing. *)
Lemma covered_missing target width range s m :
  covers target width s → asked target range → 0 ≤ target_xref_offset target - prefix_bytes target →
  missing_of (segments (locked s)) range m → m = [].
Proof.
  intros [_ _ Hbytes _ _ _] (_&Hlow&Hhigh) Hpos [Hcan Hm]. destruct m as [|g m]; [done|].
  apply canonical_cons in Hcan as (Hg%range_nonempty&_).
  destruct (proj1 (Hm (range_start g))) as [Hin Hnone].
  { apply in_ranges_cons. left. unfold in_range. lia. }
  unfold in_range in Hin. destruct (Hbytes (range_start g)) as [b Hb]; [lia|congruence].
Qed.

(** Polls keep what the store covers. *)
Lemma poll_covers target width request s s' answer :
  covers target width s → asked target (request_range request) →
  0 ≤ target_xref_offset target - prefix_bytes target →
  poll_outcome store s request answer s' → covers target width s'.
Proof.
  intros Hcov Hasked Hpos Ho. pose proof Hcov as [Hsnap Hquiet Hbytes Hend Hread Hinput].
  assert (∀ s1, kept s s1 → covers target width s1) as Hkept.
  { intros s1 Hk. pose proof (change_signalled_kept s s1 Hk). destruct Hk as [Hl _].
    split; rewrite ?Hl; tauto. }
  destruct Ho as [slice s' Hk _ _ _ _|o s' Hk _ _ _|t m s' _ _ Hm Hne _ _ _ _ _|s' _ Hch|e s' _ _ Hc Hc' Hl].
  - by apply Hkept.
  - by apply Hkept.
  - destruct Hne. by eapply covered_missing.
  - done.
  - assert (¬ change_signalled s') as Hquiet'.
    { unfold change_signalled in *. rewrite Hc'. by rewrite Hc in Hquiet. }
    destruct Hl as [Hl|[_ Hl]]; split; rewrite ?Hl; done.
Qed.

Lemma covered_poll target width request s :
  range_wf store s → covers target width s → asked target (request_range request) →
  range_len (request_range request) ≤ width →
  0 ≤ target_xref_offset target - prefix_bytes target →
  ∃ s' slice, RangeStore.poll store request s = (s', Ok (PollReady slice)) ∧ kept s s' ∧
    slice_identity slice = snapshot_identity (store_snapshot store) ∧
    slice_range slice = request_range request ∧
    bytes_at (content (segments (locked s))) (request_range request) = Some (slice_bytes slice).
Proof.
  intros Hwf Hcov Hasked Hwidth Hpos. pose proof Hcov as [Hsnap Hquiet Hbytes Hend Hread Hinput].
  pose proof Hasked as (Hr&Hlow&Hhigh).
  destruct (RangeStore.poll store request s) as [s' r] eqn:Hp.
  destruct (RangePoll.poll_run store Hlimits s request s' r (wf_store _ _ Hwf) Hr Hp) as (a&->&Ho).
  assert (ByteRange_end_exclusive (request_range request) =
    range_start (request_range request) + range_len (request_range request)) as Hsum by done.
  destruct Hr as [Hstart Hlen _].
  assert (∀ x, in_range x (request_range request) → content (segments (locked s)) x ≠ None) as Hno.
  { intros x Hx Hn. destruct (Hbytes x) as [b Hb]; [unfold in_range in Hx; lia|]. congruence. }
  destruct Ho as [slice s' Hk _ Hid Hsr Hb|o s' _ _ Hobs Hlt|t m s' _ _ Hm Hne _ _ _ _ _
    |s' _ Hch|e s' _ Href _ _ _]; [by exists s', slice| | |done|].
  - rewrite Hobs in Hend. simpl in Hend. lia.
  - destruct Hne. by eapply covered_missing.
  - destruct Href as [|[_ [|(x&Hx&Hn)]]]; [lia|lia|by destruct (Hno x)].
Qed.

(** The promise of a store that covers what the job may read. *)
#[refine] Instance covering_honest target context width :
    @HonestSource RangeState (range_source store) file target context := {|
  source_ok s := serves_file None s ∧ covers target width s ∧
                 0 ≤ target_xref_offset target - prefix_bytes target
|}.
Proof.
  intros request s (Hs&Hcov&Hpos) (Hasked&_). pose proof Hs as (Hwf&Hf&_). pose proof Hasked as (Hrange&_).
  destruct (RangeStore.poll store request s) as [s' r] eqn:Hp.
  destruct (RangePoll.poll_run store Hlimits s request s' r (wf_store _ _ Hwf) Hrange Hp) as (answer&->&Ho).
  exists s', answer. split; [simpl; by rewrite Hp|]. split.
  - split; [by eapply poll_serves|]. split; [|done]. by eapply poll_covers.
  - intros slice -> _ _. inversion Ho as [? ? _ _ _ _ Hb| | | |]; subst.
    destruct Hrange. eapply cached_of_file; [done|lia|done].
Defined.

Lemma covering_delivers target context width :
  @delivers RangeState (range_source store) file target context width (covering_honest target context width).
Proof.
  intros s (Hs&Hcov&Hpos). split; [by destruct Hcov|]. intros request (Hasked&_) Hlen.
  destruct Hs as (Hwf&_). destruct (covered_poll target width request s Hwf Hcov Hasked Hlen Hpos)
    as (s'&slice&Hp&_&Hid&Hr&_).
  exists slice. split; [simpl; by rewrite Hp|]. split; [|done]. rewrite Hid. by destruct Hcov as [->].
Qed.
End honest.

(** ** Jobs over a store *)

(** The accepted responses of some calls carry bytes of the file. *)
Definition supplied_from (file : Z → Z)
    (l : list (RangeCall * result (failure SourceError) RangeAnswer)) : Prop :=
  ∀ resp x b, accepted_in l resp → supplied (response_range resp) (response_bytes resp) x = Some b → file x = b.

Section system.
Context `{ParserRuntime} `{RangeRuntime} (store : RangeStore) (file : Z → Z).
#[local] Instance store_source : ByteSource RangeState := range_source store.

(** A job polled over a store, with any calls of other threads between the polls. *)
Inductive over_store (j : OpenObjectJob) : JobRun RangeState OpenObjectJob → Prop :=
| over_new l s calls :
    reachable store l s → supplied_from file l →
    over_store j {| run_job := j; run_world := {| world_source := s; world_calls := calls |} |}
| over_poll r r' poll : over_store j r → OpenObjectJob_poll r = (r', poll) → over_store j r'
| over_calls r l s calls :
    over_store j r → runs store (world_source (run_world r)) l s → supplied_from file l →
    over_store j
      {| run_job := run_job r; run_world := {| world_source := s; world_calls := calls |} |}.

Context (Hlimits : range_limits_ok (store_limits store)).
Context (target : IndirectObjectTarget) (context : ObjectJobContext).

Definition honest_store (need : option ByteRange) : HonestSource RangeState file target context :=
  range_honest store file Hlimits need target context.
#[local] Instance honest : HonestSource RangeState file target context := honest_store None.

Lemma serves_runs need s l s' :
  serves_file store file need s → runs store s l s' → supplied_from file l → serves_file store file need s'.
Proof.
  intros (Hwf&Hf&Hneed) Hr Hl. destruct (runs_invariant store Hlimits _ _ _ Hwf Hr) as (Hwf'&Hg&_).
  split; [done|]. split.
  - intros x b Hx. apply (runs_known store Hlimits _ _ _ x b Hwf Hr) in Hx as [Hx|(resp&?&?)];
      [by apply Hf|by eapply Hl].
  - destruct need; [|done]. by eapply answerable_grows.
Qed.

Lemma over_store_reached limits syntax_limits caps j r :
  job_created target context limits syntax_limits caps j → over_store j r →
  job_reached file target context j r.
Proof.
  intros Hc. induction 1 as [l s calls Hr Hl|r r' poll _ IH Hp|r l s calls _ IH Hr Hl].
  - apply reached_new. apply reachable_ok in Hr as (_&Hwf&_&Hx). split; [done|]. split; [|done].
    intros x b Hb. apply Hx in Hb as (resp&?&?). by eapply Hl.
  - by eapply reached_poll.
  - apply reached_between; [done|].
    destruct (job_reached_ok _ _ _ _ _ _ _ _ Hc IH) as (_&n&world&stats&state&->&Hw&_).
    by apply (serves_runs None _ l _ Hw Hr Hl).
Qed.

(** A ticket that a job awaits, in the store that issued it. *)
Lemma awaiting_tracked need range checkpoint ticket missing s' :
  @awaiting _ _ file target context (honest_store need) range checkpoint ticket missing s' →
  let request := {| request_range := range; request_priority := context_priority context;
                    request_job := context_job context; request_checkpoint := checkpoint |} in
  asked target range ∧ tracked ticket request (locked s') ∧
  missing ≠ [] ∧ missing_of (segments (locked s')) range missing ∧
  from_option (λ known, range ≠ known) True need.
Proof.
  intros (s&(Hwf&Hf&Hneed)&Hasked&Hp) request. simpl in Hp.
  destruct (RangeStore.poll store _ s) as [s1 r] eqn:Hpoll. destruct r as [answer|]; [|done].
  injection Hp as <- ->. pose proof Hasked as (Hr&_&_).
  destruct (RangePoll.poll_run store Hlimits s request s1 _ (wf_store _ _ Hwf) Hr Hpoll) as (a&[= <-]&Ho).
  split; [done|]. split; [by eapply (tracked_poll store s request _ missing); [apply Hwf|..]|].
  inversion Ho as [| |? ? ? _ _ [Hcan Hm] Hne _ _ _ Hwithin Hen| |]; subst.
  split; [done|]. destruct (enlisted_same _ _ _ _ _ _ Hen) as [-> _]. split; [by split|].
  destruct need as [known|]; [|done]. simpl in *. intros ->. revert Hneed.
  destruct missing as [|g m]; [done|]. apply canonical_cons in Hcan as (Hg%range_nonempty&_).
  destruct (proj1 (Hm (range_start g))) as [Hin Hnone].
  { apply in_ranges_cons. left. unfold in_range. lia. }
  intros [Hcov|(o&Hobs&Hlt)].
  - apply Hcov in Hin. rewrite Hnone in Hin. by destruct Hin.
  - rewrite Hobs in Hwithin. apply within_single in Hwithin. lia.
Qed.
End system.

Section props.
Context `{ParserRuntime} `{RangeRuntime} (store : RangeStore) (file : Z → Z).
#[local] Instance source : ByteSource RangeState := store_source store.
Context (Hlimits : range_limits_ok (store_limits store)).

(** The answer to a poll, with the job and the store that it leaves. *)
Definition answered_over_store target context limits syntax_limits caps
    (r r' : JobRun RangeState OpenObjectJob) (poll : ObjectPoll) : Prop :=
  match poll with
  | ObjectReady object => ∃ n, denoted_object file target limits n = Some (Ok object)
  | ObjectPending ticket missing checkpoint => ∃ request,
      window_request (run_job r') = Some request ∧ request_checkpoint request = checkpoint ∧
      asked target (request_range request) ∧
      tracked ticket request (locked (world_source (run_world r'))) ∧ missing ≠ [] ∧
      missing_of (segments (locked (world_source (run_world r')))) (request_range request) missing
  | ObjectFailed e =>
      match job_state (run_job r) with
      | JobComplete => e = ObjectError_for_code JobAlreadyComplete (Some (target_reference target)) None
      | JobFailed e' => e = e'
      | _ => job_state (run_job r') = JobFailed e ∧
             @job_failure _ _ _ file target context limits syntax_limits caps
               (honest_store store file Hlimits target context None) e
      end
  end.

Lemma ends_over_store target n context limits syntax_limits caps need r' poll :
  @job_ends _ _ _ file target n context limits syntax_limits caps
    (honest_store store file Hlimits target context need) r' poll →
  match poll with
  | ObjectPending ticket missing checkpoint => ∃ request,
      window_request (run_job r') = Some request ∧ request_checkpoint request = checkpoint ∧
      request_job request = context_job context ∧ asked target (request_range request) ∧
      tracked ticket request (locked (world_source (run_world r'))) ∧ missing ≠ [] ∧
      missing_of (segments (locked (world_source (run_world r')))) (request_range request) missing ∧
      from_option (λ known, request_range request ≠ known) True need
  | _ => True
  end.
Proof.
  intros (world&stats&state&->&_&_&_&Hans).
  destruct Hans as [|window ticket missing Ha|envelope window ticket missing data_end Ha|]; try done;
    apply awaiting_tracked in Ha as (?&?&?&?&?); eexists; (split; [reflexivity|]); done.
Qed.

(** C9: object framing refines the file that a store is supplied with. A job in
    flight over a store never panics and leaves the store in order; the object it
    answers is the one that the bytes of the file denote; pending, it is subscribed
    in the store to the ticket it answers, which waits for exactly the offsets of
    its window that the store lacks; a failure is stored and has a reason. *)
Theorem framing_over_store target context limits syntax_limits caps j r :
  job_created target context limits syntax_limits caps j → over_store store file j r →
  ∃ r' poll, OpenObjectJob_poll r = (r', Some poll) ∧
    serves_file store file None (world_source (run_world r')) ∧
    answered_over_store target context limits syntax_limits caps r r' poll.
Proof.
  intros Hc Hr. pose proof (over_store_reached _ _ Hlimits _ _ _ _ _ _ _ Hc Hr) as Hreached.
  destruct (job_reached_ok _ _ _ _ _ _ _ _ Hc Hreached) as (Hs&n&Hok).
  destruct (job_poll_run _ _ _ _ _ _ _ Hs r Hok) as (r'&poll&Hp&Hok'&Hq).
  exists r', poll. split; [done|]. split; [destruct Hok' as (?&?&?&->&Hw&_); exact Hw|].
  assert (∀ e, poll = ObjectFailed e → job_state (run_job r) = JobComplete ∨
    (∃ e, job_state (run_job r) = JobFailed e) → answered_over_store target context limits syntax_limits caps r r' poll)
    as Hdone.
  { intros e -> Hstate. unfold answered_over_store, job_polled in *.
    destruct (job_state (run_job r)); [naive_solver..|by destruct Hq as [_ [= ->]]|by destruct Hq as [_ [= ->]]]. }
  unfold job_polled in Hq. destruct (job_state (run_job r)) eqn:Hstate;
    [| |destruct Hq as [_ ->]; by eapply Hdone; eauto..].
  all: pose proof (ends_over_store _ _ _ _ _ _ _ _ _ Hq) as Hpend;
    unfold answered_over_store; rewrite Hstate; destruct poll as [object|ticket missing checkpoint|e].
  1, 4: destruct Hq as (?&?&?&_&_&_&_&Hans); inversion Hans; subst; eauto.
  1, 3: destruct Hpend as (request&?&?&_&?&?&?&?&_); by exists request.
  all: destruct Hq as (?&?&?&->&_&_&_&Hans); inversion Hans; subst; done.
Qed.

(** C22: wake-ups make progress. Once the ticket of a pending job is ready, while its
    subscription was kept, the next poll does not wait for the same window again: if
    it is pending, it awaits another window. *)
Theorem woken_moves target context limits syntax_limits caps j r r1 ticket missing checkpoint k s2 record calls :
  job_created target context limits syntax_limits caps j → over_store store file j r →
  OpenObjectJob_poll r = (r1, Some (ObjectPending ticket missing checkpoint)) →
  runs store (world_source (run_world r1)) k s2 → supplied_from file k →
  Forall (λ cr, keeps ticket (context_job context) cr.1) k →
  lookup_ticket ticket (locked s2) = Some record → record_phase record = PhaseReady →
  ∃ r3 poll,
    OpenObjectJob_poll {| run_job := run_job r1; run_world := {| world_source := s2; world_calls := calls |} |} =
      (r3, Some poll) ∧
    match poll with
    | ObjectPending _ _ _ => window_request (run_job r3) ≠ window_request (run_job r1)
    | _ => True
    end.
Proof.
  intros Hc Hr Hpoll Hruns Hsup Hkeep Hlook Hready.
  pose proof (over_store_reached _ _ Hlimits _ _ _ _ _ _ _ Hc Hr) as Hreached.
  destruct (job_reached_ok _ _ _ _ _ _ _ _ Hc Hreached) as (Hs&n&Hok).
  destruct (job_poll_run _ _ _ _ _ _ _ Hs r Hok) as (r'&poll&Hp&_&Hq).
  pose proof (eq_trans (eq_sym Hp) Hpoll) as Heq. injection Heq as -> ->. unfold job_polled in Hq.
  assert (@job_ends _ _ _ file target n context limits syntax_limits caps
    (honest_store store file Hlimits target context None) r1 (ObjectPending ticket missing checkpoint)) as He
    by (destruct (job_state (run_job r)); [done..|by destruct Hq|by destruct Hq]).
  destruct (ends_over_store _ _ _ _ _ _ _ _ _ He) as (request&Hreq&_&Hjob&Hasked&Htr&_&_&_).
  destruct He as (world&stats&state&->&Hw&Hst&Hstate&Hans).
  pose proof (serves_runs _ _ Hlimits _ _ _ _ Hw Hruns Hsup) as (Hwf2&Hf2&_).
  assert (answerable (locked s2) (request_range request)) as Hknown.
  { destruct Hasked as (Hrange&_&_). rewrite <-Hjob in Hkeep. destruct Hw as (Hwf&_).
    destruct (tracked_runs _ Hlimits _ _ _ _ _ Hwf Hrange Hruns Hkeep Htr) as (rec&Hl&Hser).
    cbn [world_source run_world at_job] in *. rewrite Hlook in Hl. injection Hl as <-. by apply Hser. }
  cbn [run_job at_job] in *. set (w2 := {| world_source := s2; world_calls := calls |}).
  set (honest2 := honest_store store file Hlimits target context (Some (request_range request))).
  assert (@job_run_ok _ _ _ file target n context limits syntax_limits caps honest2
    (at_job target n context limits syntax_limits caps w2 stats state)) as Hok2.
  { exists w2, stats, state. split; [done|]. split; [by split|]. split; [done|]. by inversion Hans; subst. }
  destruct (@job_poll_run _ _ _ file target n context limits syntax_limits caps honest2 Hs _ Hok2)
    as (r3&poll&Hp3&_&Hq3).
  exists r3, poll. split; [exact Hp3|]. destruct poll as [|ticket' missing' checkpoint'|]; try done.
  assert (@job_ends _ _ _ file target n context limits syntax_limits caps honest2 r3
    (ObjectPending ticket' missing' checkpoint')) as He3 by (unfold job_polled in Hq3; by inversion Hans; subst).
  destruct (ends_over_store _ _ _ _ _ _ _ _ _ He3) as (request3&Hreq3&_&_&_&_&_&_&Hne).
  simpl in Hne. rewrite Hreq3, Hreq. naive_solver.
Qed.

(** C13: framing completes over a supplied store. Suppose the store holds every byte
    from the target to its upper bound, which lies within the observed length and
    the input limit of the store, the store serves reads as long as the longest
    window of the job, and no change of the source is signalled; and suppose the file
    denotes an object that windows within the limits decide. Then a job in flight
    answers an object that the file denotes, whatever polls and supplies came before,
    unless its error is a refusal of the parser's limits, the allocator or the probe,
    or a budget of the job that is exceeded. *)
Theorem object_framed_over_store target context limits syntax_limits caps j r :
  job_created target context limits syntax_limits caps j → over_store store file j r →
  covers store target (widest_read target limits) (world_source (run_world r)) → fits file target limits → in_flight (run_job r) →
  ∃ r' poll, OpenObjectJob_poll r = (r', Some poll) ∧
    ((∃ object n, poll = ObjectReady object ∧ denoted_object file target limits n = Some (Ok object)) ∨
     (∃ e, poll = ObjectFailed e ∧ (object_refused e ∨ budget_exceeded caps e))).
Proof.
  intros Hc Hr Hcov Hfits Hflight.
  pose proof (over_store_reached _ _ Hlimits _ _ _ _ _ _ _ Hc Hr) as Hreached.
  destruct (job_reached_ok _ _ _ _ _ _ _ _ Hc Hreached) as (Hs&n&world&stats&state&->&Hw&Hst&Hstate).
  pose proof (prefix_range _ _ _ _ Hs).
  refine (@framed_run _ _ _ file target n context limits syntax_limits caps _
    (covering_honest store file Hlimits target context (widest_read target limits)) Hs _
    (covering_delivers store file Hlimits target context (widest_read target limits)) Hfits Hflight).
  exists world, stats, state. split; [done|]. split; [split; [exact Hw|split; [done|lia]]|]. split; [done|].
  by destruct state.
Qed.
End props.

(** ** Concrete runs *)

#[local] Existing Instance quiet_runtime.

Definition file_store : RangeStore :=
  {| store_namespace := 1; store_snapshot := file_snapshot; store_limits := RangeStoreLimitConfig_default |}.
Definition file_start : RangeState :=
  {| locked := {| segments := []; cached_bytes := 0; tickets := []; next_ticket := 1;
                  observed_len := Some 82; subscription_count := 0 |};
     source_changed := false; flag_reads := 0; reservations := 0; allocations := 2 |}.

Lemma file_store_limits : range_limits_ok (store_limits file_store).
Proof. split; vm_compute; intuition discriminate. Qed.

Lemma file_store_reachable : reachable file_store [] file_start.
Proof.
  exists RangeStoreLimitConfig_default, file_snapshot, 1, 2, file_start.
  split; [vm_compute; intuition discriminate|]. split; [vm_compute; discriminate|].
  split; [vm_compute; reflexivity|]. split; [vm_compute; reflexivity|]. constructor.
Qed.

Definition over_file (s : RangeState) (j : OpenObjectJob) : JobRun RangeState OpenObjectJob :=
  {| run_job := j; run_world := {| world_source := s; world_calls := quiet |} |}.
#[local] Notation poll_over r := (@OpenObjectJob_poll desktop_parser RangeState (source file_store) r).

(** The first poll misses everything; the response of the first 48 bytes. *)
Definition file_pending : JobRun RangeState OpenObjectJob := (poll_over (over_file file_start stream_job)).1.
Definition file_calls : list RangeCall :=
  [CallSupply {| response_snapshot := file_snapshot; response_range := range_at 0 48;
                 response_bytes := bytes_of file_at 0 48; response_capacity := 48 |}].
Definition file_run := run_calls file_store (world_source (run_world file_pending)) file_calls.

Lemma file_world_supplied : supplied_from file_at file_run.1.
Proof.
  intros resp x b [a Ha] Hb. apply list_elem_of_singleton in Ha. injection Ha as -> _.
  unfold supplied in Hb. case_bool_decide as Hx; [|done].
  assert (∃ i : nat, (i < 48)%nat ∧ x = Z.of_nat i) as (i&Hi&->).
  { exists (Z.to_nat x). unfold in_range, ByteRange_end_exclusive in Hx. simpl in Hx. lia. }
  revert Hb. simpl. rewrite Z.sub_0_r, Nat2Z.id. unfold bytes_of.
  rewrite list_lookup_fmap, lookup_seqZ_lt by lia. by intros [= <-].
Qed.

Lemma over_pending : over_store file_store file_at stream_job file_pending.
Proof.
  eapply over_poll; [|apply surjective_pairing]. apply (over_new _ _ _ []); [apply file_store_reachable|].
  by intros resp x b [a Ha%not_elem_of_nil].
Qed.

Lemma over_supplied :
  over_store file_store file_at stream_job (over_file file_run.2 (run_job file_pending)).
Proof.
  eapply (over_calls _ _ _ file_pending); [apply over_pending| |apply file_world_supplied].
  apply run_calls_runs. repeat constructor; vm_compute; intuition discriminate.
Qed.

Lemma framing_over_store_witness :
  ∃ r' object, poll_over (over_file file_run.2 (run_job file_pending)) = (r', Some (ObjectReady object)) ∧
    ∃ n, denoted_object file_at stream_target file_limits n = Some (Ok object).
Proof.
  pose proof (@framing_over_store desktop_parser quiet_runtime file_store file_at file_store_limits
    stream_target file_context file_limits SyntaxLimitConfig_default file_caps stream_job _
    stream_job_created over_supplied) as (r'&poll&Hp&_&Hans).
  assert (∃ object, (poll_over (over_file file_run.2 (run_job file_pending))).2 = Some (ObjectReady object))
    as [object Ho] by (eexists; vm_compute; reflexivity).
  pose proof (eq_trans (eq_sym Ho) (f_equal snd Hp)) as Heq. injection Heq as <-.
  exists r', object. split; [exact Hp|exact Hans].
Defined.

Definition first_ticket : DataTicket := {| ticket_namespace := 1; ticket_value := 1 |}.

Lemma woken_moves_witness :
  ∃ r3 poll, poll_over (over_file file_run.2 (run_job file_pending)) = (r3, Some poll) ∧
    match poll with
    | ObjectPending _ _ _ => window_request (run_job r3) ≠ window_request (run_job file_pending)
    | _ => True
    end.
Proof.
  assert (poll_over (over_file file_start stream_job) =
    (file_pending, Some (ObjectPending first_ticket [range_at 0 48] 1))) as Hp.
  { rewrite (surjective_pairing (poll_over _)). apply (f_equal (pair file_pending)).
    vm_compute. reflexivity. }
  assert (∃ record, lookup_ticket first_ticket (locked file_run.2) = Some record ∧
    record_phase record = PhaseReady) as (record&Hl&Hready) by (eexists; split; vm_compute; reflexivity).
  refine (@woken_moves desktop_parser quiet_runtime file_store file_at file_store_limits
    stream_target file_context file_limits SyntaxLimitConfig_default file_caps stream_job
    (over_file file_start stream_job) file_pending first_ticket [range_at 0 48] 1 file_run.1 file_run.2
    record quiet stream_job_created _ Hp _ file_world_supplied _ Hl Hready).
  - apply (over_new _ _ _ []); [apply file_store_reachable|]. by intros resp x b [a Ha%not_elem_of_nil].
  - apply run_calls_runs. repeat constructor; vm_compute; intuition discriminate.
  - repeat constructor; vm_compute; intuition discriminate.
Defined.

Lemma object_framed_over_store_witness :
  ∃ r' object n, poll_over (over_file file_run.2 (run_job file_pending)) = (r', Some (ObjectReady object)) ∧
    denoted_object file_at stream_target file_limits n = Some (Ok object).
Proof.
  assert (∃ object, (poll_over (over_file file_run.2 (run_job file_pending))).2 = Some (ObjectReady object))
    as [object Ho] by (eexists; vm_compute; reflexivity).
  cut (∃ r' poll, poll_over (over_file file_run.2 (run_job file_pending)) = (r', Some poll) ∧
    ((∃ object n, poll = ObjectReady object ∧
        denoted_object file_at stream_target file_limits n = Some (Ok object)) ∨
     (∃ e, poll = ObjectFailed e ∧ (@object_refused desktop_parser e ∨ budget_exceeded file_caps e)))).
  { intros (r'&poll&Hp&Hans). pose proof (eq_trans (eq_sym Ho) (f_equal snd Hp)) as Heq.
    injection Heq as <-. destruct Hans as [(object'&n&Heq&Hd)|(e&Heq&_)]; [|discriminate Heq].
    injection Heq as <-. exists r', object, n. split; assumption. }
  refine (@object_framed_over_store desktop_parser quiet_runtime file_store file_at file_store_limits
    stream_target file_context file_limits SyntaxLimitConfig_default file_caps stream_job _
    stream_job_created over_supplied _ stream_fits _).
  - split.
    + reflexivity.
    + intros [Hch|[k Hk]]; [by vm_compute in Hch|by vm_compute in Hk].
    + intros x Hx. change (0 ≤ x < 48) in Hx.
      assert (∃ i : nat, (i < 48)%nat ∧ x = Z.of_nat i) as (i&Hi&->) by (exists (Z.to_nat x); lia).
      do 48 (destruct i as [|i]; [vm_compute; by eexists|]). lia.
    + by vm_compute.
    + by vm_compute.
    + by vm_compute.
  - vm_compute. exact I.
Defined.
