(* ===== verification/XrefTypes.v ===== *)
(** * Data of traditional cross-reference tables ([pdf-rs/xref/src])

    Errors ([error.rs]), limits ([limits.rs]), and the rows and sections of a
    traditional table ([model.rs], [traditional_revision.rs]). *)

From stdpp Require Import base list numbers option strings.
From S2P Require Import Prelude.
From S2P Require Import SourceTypes.
From S2P Require Import SyntaxTypes.
From S2P Require Import RangeTypes.

(** ** Errors *)

Inductive XrefLimitKind :=
| XrefSourceBytes | XrefTailBytes | XrefSectionBytes | XrefTotalReadBytes
| XrefTotalParseBytes | XrefSubsections | XrefEntries | XrefAllocation
| XrefRepairScanBytes | XrefRepairWorkingBytes | XrefRepairCandidates
| XrefRepairWhitespaceEdits | XrefRepairDiagnostics | XrefRepairDiagnosticBytes
| XrefAnchorBytes.
#[global] Instance XrefLimitKind_eq_dec : EqDecision XrefLimitKind.
Proof. solve_decision. Defined.

Record XrefLimit := {
  xref_limit_kind : XrefLimitKind;
  xref_limit_limit : Z;
  xref_limit_consumed : Z;
  xref_limit_attempted : Z
}.

Inductive XrefErrorCode :=
| XrefInvalidLimits | XrefInvalidJobContext | XrefUnknownSourceLength | XrefEmptySource
| XrefSnapshotMismatch | XrefSourceFailure | XrefUnexpectedEndOfSource | StartXrefNotFound
| InvalidStartXref | StartXrefOutOfBounds | InvalidXrefKeyword | InvalidSubsection
| InvalidEntry | InvalidTrailer | UnsupportedXrefStream | UnsupportedHybridXref
| UnsupportedIncrementalRevision | XrefSyntaxFailure | XrefResourceLimit | XrefCancelled
| XrefInternalState | XrefJobAlreadyComplete | XrefInvalidRepairLimits
| XrefInvalidRepairJobContext | XrefLocalRepairFailed | XrefAmbiguousRepair
| InvalidXrefAnchor.
#[global] Instance XrefErrorCode_eq_dec : EqDecision XrefErrorCode.
Proof. solve_decision. Defined.

Inductive XrefErrorCategory :=
| XrefConfiguration | XrefSource | XrefSyntax | XrefUnsupported | XrefResource
| XrefCancellation | XrefInternal.
#[global] Instance XrefErrorCategory_eq_dec : EqDecision XrefErrorCategory.
Proof. solve_decision. Defined.

Inductive XrefRecoverability :=
| XrefCorrectConfiguration | XrefCorrectInput | XrefReopenSource | XrefRetrySource
| XrefReduceWorkload | XrefUseSupportedFeature | XrefAbandonOperation | XrefDoNotRetry.

Inductive XrefErrorDetail :=
| XrefDetailNone
| XrefDetailLimit (limit : XrefLimit)
| XrefDetailSource (error : SourceError)
| XrefDetailSyntax (error : SyntaxError).

Record XrefError := {
  xe_code : XrefErrorCode;
  xe_category : XrefErrorCategory;
  xe_recoverability : XrefRecoverability;
  xe_diagnostic_id : string;
  xe_offset : option Z;
  xe_detail : XrefErrorDetail
}.

(** The table of [XrefError::for_code]. *)
Definition xref_code_policy (code : XrefErrorCode)
    : XrefErrorCategory * XrefRecoverability * string :=
  match code with
  | XrefInvalidLimits => (XrefConfiguration, XrefCorrectConfiguration, "RPE-XREF-0001")
  | XrefInvalidJobContext => (XrefConfiguration, XrefCorrectConfiguration, "RPE-XREF-0002")
  | XrefUnknownSourceLength => (XrefConfiguration, XrefCorrectConfiguration, "RPE-XREF-0003")
  | XrefEmptySource => (XrefSyntax, XrefCorrectInput, "RPE-XREF-0004")
  | XrefSnapshotMismatch => (XrefSource, XrefReopenSource, "RPE-XREF-0005")
  | XrefSourceFailure => (XrefSource, XrefDoNotRetry, "RPE-XREF-0006")
  | XrefUnexpectedEndOfSource => (XrefSource, XrefReopenSource, "RPE-XREF-0007")
  | StartXrefNotFound => (XrefSyntax, XrefCorrectInput, "RPE-XREF-0008")
  | InvalidStartXref => (XrefSyntax, XrefCorrectInput, "RPE-XREF-0009")
  | StartXrefOutOfBounds => (XrefSyntax, XrefCorrectInput, "RPE-XREF-0010")
  | InvalidXrefKeyword => (XrefSyntax, XrefCorrectInput, "RPE-XREF-0011")
  | InvalidSubsection => (XrefSyntax, XrefCorrectInput, "RPE-XREF-0012")
  | InvalidEntry => (XrefSyntax, XrefCorrectInput, "RPE-XREF-0013")
  | InvalidTrailer => (XrefSyntax, XrefCorrectInput, "RPE-XREF-0014")
  | UnsupportedXrefStream => (XrefUnsupported, XrefUseSupportedFeature, "RPE-XREF-0015")
  | UnsupportedHybridXref => (XrefUnsupported, XrefUseSupportedFeature, "RPE-XREF-0016")
  | UnsupportedIncrementalRevision => (XrefUnsupported, XrefUseSupportedFeature, "RPE-XREF-0017")
  | XrefSyntaxFailure => (XrefSyntax, XrefCorrectInput, "RPE-XREF-0018")
  | XrefResourceLimit => (XrefResource, XrefReduceWorkload, "RPE-XREF-0019")
  | XrefCancelled => (XrefCancellation, XrefAbandonOperation, "RPE-XREF-0020")
  | XrefInternalState => (XrefInternal, XrefDoNotRetry, "RPE-XREF-0021")
  | XrefJobAlreadyComplete => (XrefConfiguration, XrefCorrectConfiguration, "RPE-XREF-0022")
  | XrefInvalidRepairLimits => (XrefConfiguration, XrefCorrectConfiguration, "RPE-XREF-0023")
  | XrefInvalidRepairJobContext => (XrefConfiguration, XrefCorrectConfiguration, "RPE-XREF-0024")
  | XrefLocalRepairFailed => (XrefSyntax, XrefCorrectInput, "RPE-XREF-0025")
  | XrefAmbiguousRepair => (XrefSyntax, XrefCorrectInput, "RPE-XREF-0026")
  | InvalidXrefAnchor => (XrefSyntax, XrefCorrectInput, "RPE-XREF-0027")
  end.

Definition XrefError_for_code (code : XrefErrorCode) (offset : option Z) : XrefError :=
  let '(category, recoverability, diagnostic_id) := xref_code_policy code in
  {| xe_code := code; xe_category := category; xe_recoverability := recoverability;
     xe_diagnostic_id := diagnostic_id; xe_offset := offset; xe_detail := XrefDetailNone |}.

Definition XrefError_resource (kind : XrefLimitKind) (limit consumed attempted : Z)
    (offset : option Z) : XrefError :=
  {| xe_code := XrefResourceLimit; xe_category := XrefResource;
     xe_recoverability := XrefReduceWorkload; xe_diagnostic_id := "RPE-XREF-0019";
     xe_offset := offset;
     xe_detail := XrefDetailLimit {| xref_limit_kind := kind; xref_limit_limit := limit;
                                     xref_limit_consumed := consumed;
                                     xref_limit_attempted := attempted |} |}.

Definition XrefError_from_source (error : SourceError) : XrefError :=
  {| xe_code := XrefSourceFailure;
     xe_category :=
       match source_error_category error with
       | RangeTypes.CategoryInput | RangeTypes.CategoryLifecycle => XrefConfiguration
       | RangeTypes.CategoryIntegrity | RangeTypes.CategoryAvailability => XrefSource
       | RangeTypes.CategoryResource => XrefResource
       | RangeTypes.CategoryInternal => XrefInternal
       end;
     xe_recoverability :=
       match source_error_recoverability error with
       | RangeTypes.CorrectInput => XrefCorrectConfiguration
       | RangeTypes.ReopenSource => XrefReopenSource
       | RangeTypes.ReduceWorkload => XrefReduceWorkload
       | RangeTypes.RetrySource => XrefRetrySource
       | RangeTypes.DoNotRetry => XrefDoNotRetry
       end;
     xe_diagnostic_id := "RPE-XREF-0006"; xe_offset := None;
     xe_detail := XrefDetailSource error |}.

(** The table of [XrefError::from_syntax]. *)
Definition xref_syntax_policy (category : SyntaxErrorCategory)
    : XrefErrorCode * XrefErrorCategory * XrefRecoverability * string :=
  match category with
  | SyntaxTypes.CategoryConfiguration =>
      (XrefSyntaxFailure, XrefConfiguration, XrefCorrectConfiguration, "RPE-XREF-0018")
  | SyntaxTypes.CategorySyntax =>
      (XrefSyntaxFailure, XrefSyntax, XrefCorrectInput, "RPE-XREF-0018")
  | SyntaxTypes.CategoryResource =>
      (XrefSyntaxFailure, XrefResource, XrefReduceWorkload, "RPE-XREF-0018")
  | SyntaxTypes.CategoryIntegrity =>
      (XrefSyntaxFailure, XrefSource, XrefReopenSource, "RPE-XREF-0018")
  | SyntaxTypes.CategoryCancellation =>
      (XrefCancelled, XrefCancellation, XrefAbandonOperation, "RPE-XREF-0020")
  | SyntaxTypes.CategoryInternal =>
      (XrefSyntaxFailure, XrefInternal, XrefDoNotRetry, "RPE-XREF-0018")
  end.

Definition XrefError_from_syntax (error : SyntaxError) : XrefError :=
  let '(code, category, recoverability, diagnostic_id) :=
    xref_syntax_policy (error_category error) in
  {| xe_code := code; xe_category := category; xe_recoverability := recoverability;
     xe_diagnostic_id := diagnostic_id; xe_offset := error_offset error;
     xe_detail := XrefDetailSyntax error |}.

(** ** Limits *)

Definition XREF_MAX_SOURCE_BYTES : Z := 1024 * 1024 * 1024.
Definition XREF_MAX_TAIL_BYTES : Z := 4 * 1024 * 1024.
Definition XREF_MAX_SECTION_BYTES : Z := 64 * 1024 * 1024.
Definition XREF_MAX_TOTAL_BYTES : Z := 256 * 1024 * 1024.
Definition XREF_MAX_SUBSECTIONS : Z := 65536.
Definition XREF_MAX_ENTRIES : Z := 4000000.

Record XrefLimits := {
  xl_max_source_bytes : Z;
  xl_initial_tail_bytes : Z;
  xl_max_tail_bytes : Z;
  xl_initial_section_bytes : Z;
  xl_max_section_bytes : Z;
  xl_max_total_read_bytes : Z;
  xl_max_total_parse_bytes : Z;
  xl_max_subsections : Z;
  xl_max_entries : Z
}.

(** A configuration has the fields of the limits. *)
Definition XrefLimitConfig : Type := XrefLimits.

Definition XrefLimitConfig_default : XrefLimitConfig :=
  {| xl_max_source_bytes := 256 * 1024 * 1024;
     xl_initial_tail_bytes := 1024;
     xl_max_tail_bytes := 64 * 1024;
     xl_initial_section_bytes := 4 * 1024;
     xl_max_section_bytes := 1024 * 1024;
     xl_max_total_read_bytes := 4 * 1024 * 1024;
     xl_max_total_parse_bytes := 4 * 1024 * 1024;
     xl_max_subsections := 4096;
     xl_max_entries := 50000 |}.

Definition XrefLimits_validate (c : XrefLimitConfig) : result XrefError XrefLimits :=
  let minimum_total := checked_add u64_max (xl_max_tail_bytes c) (xl_max_section_bytes c) in
  let below_minimum total := from_option (λ minimum, total <? minimum) true minimum_total in
  fail_if ((xl_max_source_bytes c =? 0)
           || (XREF_MAX_SOURCE_BYTES <? xl_max_source_bytes c)
           || (xl_initial_tail_bytes c =? 0)
           || (xl_max_tail_bytes c <? xl_initial_tail_bytes c)
           || (XREF_MAX_TAIL_BYTES <? xl_max_tail_bytes c)
           || (xl_max_source_bytes c <? xl_max_tail_bytes c)
           || (xl_initial_section_bytes c =? 0)
           || (xl_max_section_bytes c <? xl_initial_section_bytes c)
           || (XREF_MAX_SECTION_BYTES <? xl_max_section_bytes c)
           || (xl_max_source_bytes c <? xl_max_section_bytes c)
           || (xl_max_total_read_bytes c =? 0)
           || (XREF_MAX_TOTAL_BYTES <? xl_max_total_read_bytes c)
           || below_minimum (xl_max_total_read_bytes c)
           || (xl_max_total_parse_bytes c =? 0)
           || (XREF_MAX_TOTAL_BYTES <? xl_max_total_parse_bytes c)
           || below_minimum (xl_max_total_parse_bytes c)
           || (xl_max_subsections c =? 0)
           || (XREF_MAX_SUBSECTIONS <? xl_max_subsections c)
           || (xl_max_entries c =? 0)
           || (XREF_MAX_ENTRIES <? xl_max_entries c))
    (XrefError_for_code XrefInvalidLimits None);;
  mret c.

(** ** Rows and sections *)

Inductive XrefEntryKind :=
| Free (next_free : Z)
| InUse (offset : Z).
#[global] Instance XrefEntryKind_eq_dec : EqDecision XrefEntryKind.
Proof. solve_decision. Defined.

Record XrefEntry := {
  row_object_number : Z;
  row_generation : Z;
  row_kind : XrefEntryKind
}.
#[global] Instance XrefEntry_eq_dec : EqDecision XrefEntry.
Proof. solve_decision. Defined.

Record XrefSection := {
  section_snapshot : SourceSnapshot;
  section_startxref : Z;
  section_span : ByteSpan;
  section_declared_size : Z;
  section_root : ObjectRef;
  section_entries : list XrefEntry;
  section_trailer : Located PdfDictionary
}.

(** [entries.binary_search_by_key(&object_number, ..)] and the row it finds: the
    rows are in increasing order of their numbers, so that there is at most one. *)
Definition row_of (entries : list XrefEntry) (object_number : Z) : option XrefEntry :=
  find (λ entry, row_object_number entry =? object_number) entries.

Definition XrefSection_entry (section : XrefSection) (object_number : Z) : option XrefEntry :=
  row_of (section_entries section) object_number.

Record TraditionalRevisionSection := {
  revision_snapshot : SourceSnapshot;
  revision_startxref : Z;
  revision_span : ByteSpan;
  revision_declared_size : Z;
  revision_root : option ObjectRef;
  revision_previous : option Z;
  revision_xref_stream : option Z;
  revision_entries : list XrefEntry;
  revision_trailer : Located PdfDictionary
}.

(** What [XrefLimits_validate] accepts, for unsigned fields. *)
Definition xref_limits_ok (l : XrefLimits) : Prop :=
  0 < xl_max_source_bytes l ≤ XREF_MAX_SOURCE_BYTES ∧
  0 < xl_initial_tail_bytes l ≤ xl_max_tail_bytes l ∧
  xl_max_tail_bytes l ≤ XREF_MAX_TAIL_BYTES ∧
  0 < xl_initial_section_bytes l ≤ xl_max_section_bytes l ∧
  xl_max_section_bytes l ≤ XREF_MAX_SECTION_BYTES ∧
  xl_max_tail_bytes l + xl_max_section_bytes l ≤ xl_max_total_read_bytes l ∧
  xl_max_tail_bytes l + xl_max_section_bytes l ≤ xl_max_total_parse_bytes l ∧
  xl_max_total_read_bytes l ≤ XREF_MAX_TOTAL_BYTES ∧
  xl_max_total_parse_bytes l ≤ XREF_MAX_TOTAL_BYTES ∧
  0 < xl_max_subsections l ≤ XREF_MAX_SUBSECTIONS ∧
  0 < xl_max_entries l ≤ XREF_MAX_ENTRIES.

Lemma xref_limits_validated c limits :
  0 ≤ xl_max_source_bytes c → 0 ≤ xl_initial_tail_bytes c → 0 ≤ xl_max_tail_bytes c →
  0 ≤ xl_initial_section_bytes c → 0 ≤ xl_max_section_bytes c →
  0 ≤ xl_max_subsections c → 0 ≤ xl_max_entries c →
  XrefLimits_validate c = Ok limits → limits = c ∧ xref_limits_ok limits.
Proof.
  intros ???????. unfold XrefLimits_validate. destruct (_ || _) eqn:Hv; [done|]. intros [= <-].
  split; [done|]. rewrite !orb_false_iff in Hv. destruct_and!.
  destruct (checked_add _ _ _) eqn:Hm; simpl in *; [|done]. checked_facts.
  unfold xref_limits_ok. lia.
Qed.

Lemma xref_code_facts code offset :
  xe_code (XrefError_for_code code offset) = code ∧
  xe_offset (XrefError_for_code code offset) = offset ∧
  xe_detail (XrefError_for_code code offset) = XrefDetailNone.
Proof. by destruct code. Qed.
