(* ===== verification/XrefTail.v ===== *)
(** * The final [startxref] of a file ([parse_tail] of [pdf-rs/xref/src/parser.rs])

    A tail is read backwards from the end of a window: white space, [%%EOF], a line
    ending, a decimal value, a line ending and the keyword [startxref]. The grammar
    of a tail is [tail_at]; [tail_exact] says that the scan finds exactly the tails
    of the grammar, and asks for more where a window begins inside one ([tail_cut]). *)

From stdpp Require Import base list numbers option strings.
From S2P Require Import Prelude.
From S2P Require Import SourceTypes.
From S2P Require Import SyntaxTypes.
From S2P Require Import SyntaxState.
From S2P Require Import SyntaxLexer.
From S2P Require Import SyntaxParser.
From S2P Require Import SyntaxReader.
From S2P Require Import ObjectParser.
From S2P Require Import XrefTypes.

Inductive TailParse :=
| Found (startxref tail_start : Z)
| NeedLarger.

(** Functions that may probe for cancellation. *)
Abbreviation ProbeM := (M RuntimeCalls (failure XrefError)).

Definition xref_fail {A} (error : XrefError) : ProbeM A := throw (Rejected error).
Definition xref_try {A} (r : result XrefError A) : ProbeM A :=
  match r with Ok a => mret a | Err error => xref_fail error end.

(** ** Bytes *)

Definition is_pdf_whitespace (byte : Z) : bool :=
  (byte =? 0) || (byte =? 9) || (byte =? 10) || (byte =? 12) || (byte =? 13) || (byte =? 32).
Definition is_horizontal_whitespace (byte : Z) : bool :=
  (byte =? 0) || (byte =? 9) || (byte =? 12) || (byte =? 32).
Definition is_pdf_delimiter (byte : Z) : bool :=
  (byte =? 40) || (byte =? 41) || (byte =? 60) || (byte =? 62) || (byte =? 91) || (byte =? 93)
  || (byte =? 123) || (byte =? 125) || (byte =? 47) || (byte =? 37).
Definition is_line_ending (byte : Z) : bool := (byte =? 13) || (byte =? 10).
Definition contains_line_ending (bytes : list Z) : bool := existsb is_line_ending bytes.

(** The loop of [parse_digits], with the value so far. *)
Fixpoint parse_digits_from (value : Z) (bytes : list Z) : option Z :=
  match bytes with
  | [] => Some value
  | byte :: bytes =>
      if negb (is_ascii_digit byte) then None
      else
        value ← checked_mul u64_max value 10;
        value ← checked_add u64_max value (byte - 48);
        parse_digits_from value bytes
  end.
Definition parse_digits (bytes : list Z) : option Z := parse_digits_from 0 bytes.

(** [absolute]. *)
Definition absolute_offset (base : Z) (relative : nat) : result XrefError Z :=
  let internal := XrefError_for_code XrefInternalState (Some base) in
  relative ← require (try_from u64_max (Z.of_nat relative)) internal;
  require (checked_add u64_max base relative) internal.
(** [absolute(..).ok()]. *)
Definition absolute_ok (base : Z) (relative : nat) : option Z :=
  match absolute_offset base relative with Ok offset => Some offset | Err _ => None end.

(** [&bytes[start..stop]], for bounds within the bytes. *)
Definition bytes_between (bytes : list Z) (start stop : nat) : list Z :=
  take (stop - start) (drop start bytes).

Section tail.
Context `{ParserRuntime}.

(** [cancellation.is_cancelled()]. *)
Definition probe {E} : M RuntimeCalls E bool := λ calls,
  ({| calls_probes := S (calls_probes calls); calls_reservations := calls_reservations calls |},
   Ok (parser_cancelled (calls_probes calls))).
Definition stop_if_cancelled (offset : option Z) : ProbeM unit :=
  cancelled ← probe;
  if cancelled : bool then xref_fail (XrefError_for_code XrefCancelled offset) else mret tt.
(** [index.is_multiple_of(interval) && cancellation.is_cancelled()]. *)
Definition probe_every (interval index : nat) (offset : option Z) : ProbeM unit :=
  if (index mod interval =? 0)%nat then stop_if_cancelled offset else mret tt.

(** The backward loops over bytes of a class. *)
Fixpoint scan_back (class : Z → bool) (bytes : list Z) (cursor : nat) : ProbeM nat :=
  match cursor with
  | O => mret O
  | S index =>
      byte ← ok_or (bytes !! index) Panicked;
      if class byte : bool then
        probe_every 1024 index None;;
        scan_back class bytes index
      else mret cursor
  end.

Section window.
Variables (bytes : list Z) (base source_len : Z).

Definition invalid_at {A} (position : nat) : ProbeM A :=
  offset ← xref_try (absolute_offset base position);
  xref_fail (XrefError_for_code InvalidStartXref (Some offset)).

(** [NeedLarger], unless the window starts the source. *)
Definition larger_or (error : XrefError) : ProbeM TailParse :=
  if base =? 0 then xref_fail error else mret NeedLarger.

(** From the end of the keyword on; [value_start] is where the value begins. *)
Definition tail_keyword (value : Z) (value_start cursor : nat) : ProbeM TailParse :=
  if (cursor <? 9)%nat then larger_or (XrefError_for_code InvalidStartXref (Some 0))
  else
    let keyword_start := (cursor - 9)%nat in
    if negb (bool_decide (bytes_between bytes keyword_start cursor = octets "startxref"))
    then invalid_at keyword_start
    else if (keyword_start =? 0)%nat && negb (base =? 0) then mret NeedLarger
    else
      preceded ← (if (keyword_start =? 0)%nat then mret true
                  else byte ← ok_or (bytes !! (keyword_start - 1)%nat) Panicked;
                       mret (is_pdf_whitespace byte));
      if negb preceded then invalid_at keyword_start
      else if source_len <=? value then
        offset ← xref_try (absolute_offset base value_start);
        xref_fail (XrefError_for_code StartXrefOutOfBounds (Some offset))
      else
        tail_start ← xref_try (absolute_offset base keyword_start);
        mret (Found value tail_start).

(** From the end of the value on. *)
Definition tail_value (digits_end : nat) : ProbeM TailParse :=
  cursor ← scan_back is_ascii_digit bytes digits_end;
  if (cursor =? digits_end)%nat then invalid_at cursor
  else if (20 <? digits_end - cursor)%nat then invalid_at cursor
  else
    value ← ok_or (parse_digits (bytes_between bytes cursor digits_end))
      (Rejected (XrefError_for_code InvalidStartXref (absolute_ok base cursor)));
    if (cursor =? 0)%nat && negb (base =? 0) then mret NeedLarger
    else
      let value_start := cursor in
      cursor ← scan_back is_pdf_whitespace bytes value_start;
      if (cursor =? value_start)%nat
         || negb (contains_line_ending (bytes_between bytes cursor value_start))
      then invalid_at cursor
      else tail_keyword value value_start cursor.

(** From the end of the marker on. *)
Definition tail_marker (end_ : nat) : ProbeM TailParse :=
  if (end_ <? 5)%nat then larger_or (XrefError_for_code InvalidStartXref (Some base))
  else
    let marker_start := (end_ - 5)%nat in
    if negb (bool_decide (bytes_between bytes marker_start end_ = octets "%%EOF"))
    then invalid_at marker_start
    else if (marker_start =? 0)%nat
    then larger_or (XrefError_for_code InvalidStartXref (Some 0))
    else
      cursor ← scan_back is_pdf_whitespace bytes marker_start;
      if (cursor =? marker_start)%nat
         || negb (contains_line_ending (bytes_between bytes cursor marker_start))
      then invalid_at marker_start
      else if (cursor =? 0)%nat then larger_or (XrefError_for_code InvalidStartXref (Some 0))
      else tail_value cursor.

Definition parse_tail : ProbeM TailParse :=
  stop_if_cancelled None;;
  end_ ← scan_back is_pdf_whitespace bytes (length bytes);
  if (end_ =? 0)%nat then larger_or (XrefError_for_code StartXrefNotFound (Some 0))
  else tail_marker end_.
End window.
End tail.

(** ** The grammar of tails *)

(** White space with a line ending. *)
Definition line_gap (gap : list Z) : Prop :=
  Forall (λ b, is_pdf_whitespace b = true) gap ∧ contains_line_ending gap = true.

(** Before the keyword: the start of the source, or white space. *)
Definition opens (base : Z) (before : list Z) : Prop :=
  match last before with Some byte => is_pdf_whitespace byte = true | None => base = 0 end.

(** [head] ends with the keyword, which starts at offset [start]. *)
Definition keyword_at (base : Z) (head : list Z) (start : Z) : Prop :=
  ∃ before, head = before ++ octets "startxref" ∧ opens base before ∧ start = base + len before.

(** [head] ends with the keyword and the value. *)
Definition value_at (base : Z) (head : list Z) (value start : Z) : Prop :=
  ∃ head' gap digits, head = head' ++ gap ++ digits ∧ keyword_at base head' start ∧ line_gap gap ∧
    digits ≠ [] ∧ (length digits ≤ 20)%nat ∧ Forall (λ b, is_ascii_digit b = true) digits ∧
    value = digits_value digits ∧ value ≤ u64_max.

(** The window at [base] ends with a tail. *)
Definition tail_at (base : Z) (bytes : list Z) (value start : Z) : Prop :=
  ∃ head gap after, bytes = head ++ gap ++ octets "%%EOF" ++ after ∧ value_at base head value start ∧
    line_gap gap ∧ Forall (λ b, is_pdf_whitespace b = true) after.

(** ** Windows that cut a tail

    A window may begin inside the tail: then what it holds is the end of a tail, and
    the rest comes with a larger window. White space at its start still has its line
    ending. *)

Definition number (digits : list Z) : Prop :=
  digits ≠ [] ∧ (length digits ≤ 20)%nat ∧ Forall (λ b, is_ascii_digit b = true) digits ∧
  digits_value digits ≤ u64_max.

(** The end of a keyword and a value. *)
Definition value_cut (head : list Z) : Prop :=
  ∃ head' digits, head = head' ++ digits ∧ number digits ∧
    (head' = [] ∨ ∃ part gap, head' = part ++ gap ∧ part `suffix_of` octets "startxref" ∧ line_gap gap).

(** The end of a tail whose last white space is left out. *)
Definition marker_cut (head : list Z) : Prop :=
  head `suffix_of` octets "%%EOF" ∨
  ∃ head' gap, head = (head' ++ gap) ++ octets "%%EOF" ∧ (head' = [] ∨ value_cut head') ∧ line_gap gap.

Definition tail_cut (bytes : list Z) : Prop :=
  ∃ head after, bytes = head ++ after ∧ marker_cut head ∧ Forall (λ b, is_pdf_whitespace b = true) after.

(** ** The scan against the grammar *)

Definition ends_outside (class : Z → bool) (head : list Z) : Prop :=
  match last head with Some byte => class byte = false | None => True end.

Lemma scan_unique class head run head' run' :
  head ++ run = head' ++ run' →
  Forall (λ b, class b = true) run → Forall (λ b, class b = true) run' →
  ends_outside class head → ends_outside class head' → head = head' ∧ run = run'.
Proof.
  unfold ends_outside. intros Heq Hr Hr' Hh Hh'.
  destruct head as [|b head _] using rev_ind; destruct head' as [|b' head' _] using rev_ind;
    rewrite ?last_snoc in *; simpl in *; [done|..].
  - subst run. rewrite <-app_assoc in Hr. simpl in Hr. rewrite Forall_app, Forall_cons_iff in Hr.
    naive_solver congruence.
  - subst run'. rewrite <-app_assoc in Hr'. simpl in Hr'. rewrite Forall_app, Forall_cons_iff in Hr'.
    naive_solver congruence.
  - rewrite <-!app_assoc in Heq. simpl in Heq. apply (f_equal reverse) in Heq.
    rewrite !reverse_app, !reverse_cons, <-!app_assoc in Heq. simpl in Heq.
    apply (split_first_unique (λ b, class b = true)) in Heq as (Hrun&->&Hhead);
      [..|by rewrite Hh|by rewrite Hh'].
    + split; [|by apply (inj reverse)]. f_equal. by apply (inj reverse).
    + by apply Forall_reverse.
    + by apply Forall_reverse.
Qed.

Lemma absolute_offset_exact base relative :
  0 ≤ base → base + Z.of_nat relative ≤ u64_max →
  absolute_offset base relative = Ok (base + Z.of_nat relative).
Proof.
  intros ??. unfold absolute_offset.
  rewrite (proj2 (try_from_Some _ _ (Z.of_nat relative))) by lia.
  cbn [require mbind result_bind].
  by rewrite (proj2 (checked_add_Some _ _ _ (base + Z.of_nat relative))) by lia.
Qed.

Lemma parse_digits_from_exact value digits :
  0 ≤ value ≤ u64_max → Forall (λ b, is_ascii_digit b = true) digits →
  parse_digits_from value digits =
    (let total := foldl (λ m d, 10 * m + (d - 48)) value digits in
     if total <=? u64_max then Some total else None).
Proof.
  intros Hv Hd. revert value Hv. induction Hd as [|d digits Hd Hds IH]; intros value Hv.
  { simpl. destruct (value <=? u64_max) eqn:Hl; [done|]. checked_facts. lia. }
  cbn [parse_digits_from]. rewrite Hd. cbn [negb foldl].
  assert (48 ≤ d ≤ 57) by (unfold is_ascii_digit in Hd; lia).
  assert (∀ l value, 0 ≤ value → Forall (λ b, is_ascii_digit b = true) l →
    value ≤ foldl (λ m d, 10 * m + (d - 48)) value l) as Hgrow.
  { clear. intros l. induction l as [|d l IH]; intros value Hv Hl; simpl; [done|].
    apply Forall_cons in Hl as [Hd Hl]. unfold is_ascii_digit in Hd.
    specialize (IH (10 * value + (d - 48)) ltac:(lia) Hl). lia. }
  specialize (Hgrow digits (10 * value + (d - 48)) ltac:(lia) Hds).
  set (total := foldl _ _ _) in *.
  destruct (checked_mul u64_max value 10) as [m|] eqn:Hm; checked_facts; cbn [mbind option_bind].
  - subst m. destruct (checked_add _ _ _) as [m|] eqn:Ha; checked_facts.
    + subst m. cbn [mbind option_bind]. rewrite IH by lia. cbv zeta. subst total.
      by rewrite (Z.mul_comm value).
    + cbv zeta. destruct (total <=? u64_max) eqn:Hl; checked_facts; [lia|done].
  - cbv zeta. destruct (total <=? u64_max) eqn:Hl; checked_facts; [lia|done].
Qed.

Lemma parse_digits_exact digits :
  Forall (λ b, is_ascii_digit b = true) digits →
  parse_digits digits =
    if digits_value digits <=? u64_max then Some (digits_value digits) else None.
Proof. intros. unfold parse_digits. by rewrite parse_digits_from_exact. Qed.

Lemma bytes_between_take (bytes : list Z) start stop :
  bytes_between bytes start stop = drop start (take stop bytes).
Proof. unfold bytes_between. by rewrite skipn_firstn_comm. Qed.

(** An answer of the probe. *)
Definition xref_cancelled `{ParserRuntime} (e : XrefError) : Prop :=
  xe_code e = XrefCancelled ∧ ∃ k, parser_cancelled k = true.

Section outcomes.
Context `{ParserRuntime} (bytes : list Z) (base source_len : Z).
Hypothesis Hbase : 0 ≤ base.
Hypothesis Hend : base + len bytes ≤ u64_max.
Implicit Types (spec : Z → Z → Prop) (cut : Prop) (head : list Z).

(** How a scan ends, for the tails [spec], and whether the window may cut a tail. *)
Definition tail_outcome spec cut (r : result (failure XrefError) TailParse) : Prop :=
  match r with
  | Ok (Found value start) => spec value start ∧ value < source_len
  | Ok NeedLarger => base ≠ 0 ∧ ∀ value start, ¬ spec value start
  | Err (Rejected e) =>
      xref_cancelled e ∨
      (xe_code e = StartXrefOutOfBounds ∧ ∃ value start, spec value start ∧ source_len ≤ value) ∨
      (xe_code e = InvalidStartXref ∧ (∀ value start, ¬ spec value start) ∧ (base ≠ 0 → ¬ cut)) ∨
      (xe_code e = StartXrefNotFound ∧ base = 0 ∧ Forall (λ b, is_pdf_whitespace b = true) bytes)
  | Err Panicked => False
  end.

Lemma tail_outcome_iff spec spec' cut cut' r :
  (∀ value start, spec value start ↔ spec' value start) → (base ≠ 0 → cut' → cut) →
  tail_outcome spec cut r → tail_outcome spec' cut' r.
Proof.
  intros Hiff Hcut. destruct r as [[v s|]|[e|]]; simpl; [| | |done].
  - by rewrite Hiff.
  - intros [? Hn]. split; [done|]. intros v s. by rewrite <-Hiff.
  - intros [?|[(?&v&s&?&?)|[(?&Hn&Hc)|?]]]; [by left|right; left|right; right; left|by right; right; right].
    + split; [done|]. exists v, s. by rewrite <-Hiff.
    + split; [done|]. split; [|naive_solver]. intros v s. by rewrite <-Hiff.
Qed.

Lemma probe_run interval index calls :
  match probe_every interval index None calls with
  | (_, Ok _) => True
  | (_, Err (Rejected e)) => xref_cancelled e
  | (_, Err Panicked) => False
  end.
Proof.
  unfold probe_every. destruct (_ =? _)%nat; [|done].
  unfold stop_if_cancelled, probe, mbind, M_bind.
  destruct (parser_cancelled (calls_probes calls)) eqn:Hc; [|done].
  split; [by destruct (xref_code_facts XrefCancelled None)|by eexists].
Qed.

Lemma scan_back_run class cursor calls :
  (cursor ≤ length bytes)%nat →
  match scan_back class bytes cursor calls with
  | (_, Ok c) => ∃ head run, take cursor bytes = head ++ run ∧ length head = c ∧
      Forall (λ b, class b = true) run ∧ ends_outside class head
  | (_, Err (Rejected e)) => xref_cancelled e
  | (_, Err Panicked) => False
  end.
Proof.
  revert calls. induction cursor as [|index IH]; intros calls Hc; [by exists [], []|].
  cbn [scan_back]. destruct (lookup_lt_is_Some_2 bytes index Hc) as [byte Hbyte].
  rewrite Hbyte. unfold ok_or. unfold mbind at 1, M_bind.
  rewrite (take_S_r _ _ _ Hbyte). destruct (class byte) eqn:Hclass.
  - pose proof (probe_run 1024 index calls) as Hp. unfold mbind, M_bind.
    destruct (probe_every _ _ _ _) as [calls' [[]|[e|]]]; [|done..].
    specialize (IH calls' ltac:(lia)). destruct (scan_back _ _ _ _) as [? [c|[e|]]]; [|done..].
    destruct IH as (head&run&->&Hlen&Hrun&Hhead). exists head, (run ++ [byte]).
    rewrite app_assoc. split_and!; [done..| |done]. apply Forall_app. split; [done|by constructor].
  - exists (take index bytes ++ [byte]), []. rewrite app_nil_r. split; [done|]. split.
    + rewrite length_app, length_take. simpl. lia.
    + split; [constructor|]. unfold ends_outside. by rewrite last_snoc.
Qed.

(** After a scan. *)
Lemma tail_scan spec cut class cursor (k : nat → ProbeM TailParse) calls :
  (cursor ≤ length bytes)%nat →
  (∀ head run calls, take cursor bytes = head ++ run → Forall (λ b, class b = true) run →
     ends_outside class head → take (length head) bytes = head →
     bytes_between bytes (length head) cursor = run →
     tail_outcome spec cut (k (length head) calls).2) →
  tail_outcome spec cut ((scan_back class bytes cursor ≫= k) calls).2.
Proof.
  intros Hc Hk. pose proof (scan_back_run class cursor calls Hc) as Hs. unfold mbind, M_bind.
  destruct (scan_back _ _ _ _) as [calls' [c|[e|]]]; [|by left|done].
  destruct Hs as (head&run&Htake&<-&Hrun&Hhead). apply (Hk _ run); [done..| |].
  - assert (length head ≤ cursor)%nat.
    { apply (f_equal length) in Htake. rewrite length_take, length_app in Htake. lia. }
    replace (length head) with (length head `min` cursor)%nat by lia.
    rewrite <-take_take, Htake. by rewrite take_app_length.
  - by rewrite bytes_between_take, Htake, drop_app_length.
Qed.

Lemma invalid_outcome spec cut position calls :
  (position ≤ length bytes)%nat → (∀ value start, ¬ spec value start) → (base ≠ 0 → ¬ cut) →
  tail_outcome spec cut (invalid_at base position calls).2.
Proof.
  intros Hp Hn Hc. unfold invalid_at. rewrite absolute_offset_exact by lia. simpl. right. right. left.
  split; [|done]. by destruct (xref_code_facts InvalidStartXref (Some (base + Z.of_nat position))).
Qed.

Lemma larger_outcome spec cut offset calls :
  (∀ value start, ¬ spec value start) →
  tail_outcome spec cut (larger_or base (XrefError_for_code InvalidStartXref offset) calls).2.
Proof.
  intros Hn. unfold larger_or. destruct (base =? 0) eqn:Hb; checked_facts; simpl; [|done].
  right. right. left. split; [|done]. by destruct (xref_code_facts InvalidStartXref offset).
Qed.
End outcomes.

Lemma whitespace_facts b :
  is_pdf_whitespace b = true → b = 0 ∨ b = 9 ∨ b = 10 ∨ b = 12 ∨ b = 13 ∨ b = 32.
Proof. unfold is_pdf_whitespace. lia. Qed.

(** A suffix of a known length. *)
Lemma suffix_decided (head word : list Z) (n : nat) :
  length word = n → (n ≤ length head)%nat →
  if bool_decide (drop (length head - n) head = word)
  then head = take (length head - n) head ++ word else ∀ before, head ≠ before ++ word.
Proof.
  intros Hw Hn. case_bool_decide as Hd.
  - by rewrite <-Hd, take_drop at 1.
  - intros before ->. apply Hd. rewrite length_app, Hw.
    replace (length before + n - n)%nat with (length before) by lia. by rewrite drop_app_length.
Qed.

Lemma suffix_of_full (head word : list Z) :
  head `suffix_of` word → (length word ≤ length head)%nat → head = word.
Proof.
  intros [front ->] Hl. rewrite length_app in Hl. by assert (front = []) as -> by (apply nil_length_inv; lia).
Qed.

Section stages.
Context `{ParserRuntime} (bytes : list Z) (base source_len : Z).
Hypothesis Hbase : 0 ≤ base.
Hypothesis Hend : base + len bytes ≤ u64_max.

Lemma head_length head : take (length head) bytes = head → (length head ≤ length bytes)%nat.
Proof. intros Ht. apply (f_equal length) in Ht. rewrite length_take in Ht. lia. Qed.

Lemma tail_keyword_run value value_start head calls :
  take (length head) bytes = head → (value_start ≤ length bytes)%nat →
  tail_outcome bytes base source_len (λ v s, v = value ∧ keyword_at base head s)
    (head `suffix_of` octets "startxref")
    (tail_keyword bytes base source_len value value_start (length head) calls).2.
Proof.
  intros Ht Hv. pose proof (head_length _ Ht) as Hlen. unfold tail_keyword.
  destruct (length head <? 9)%nat eqn:Hshort; [|apply Nat.ltb_ge in Hshort].
  { apply Nat.ltb_lt in Hshort. apply larger_outcome. intros v s [_ (before&->&_)].
    rewrite length_app in Hshort. simpl in Hshort. lia. }
  rewrite bytes_between_take, Ht.
  pose proof (suffix_decided head (octets "startxref") 9 eq_refl Hshort) as Hd.
  case_bool_decide as Hk; cbn [negb].
  2: { apply invalid_outcome; [done..|lia| |].
       - intros v s [_ (before&Hb&_)]. by apply (Hd before).
       - intros _ Hcut%suffix_of_full; [|done]. by apply (Hd []). }
  set (before := take (length head - 9) head) in *.
  assert (length before = length head - 9)%nat as Hbefore by (subst before; rewrite length_take; lia).
  assert (∀ s, keyword_at base head s ↔ opens base before ∧ s = base + len before) as Hat.
  { intros s. split; [|intros [??]; by exists before].
    intros (before'&Hb&Ho&->). rewrite Hd in Hb. by apply app_inj_2 in Hb as [-> _]. }
  rewrite <-Hbefore. destruct (length before =? 0)%nat eqn:Hzero; [apply Nat.eqb_eq in Hzero|apply Nat.eqb_neq in Hzero]; simpl.
  - apply nil_length_inv in Hzero. rewrite Hzero in *. unfold opens in Hat. simpl in Hat.
    destruct (base =? 0) eqn:Hb; checked_facts; simpl.
    2: { split; [done|]. intros v s [_ Hs%Hat]. naive_solver. }
    cbn [mbind M_bind]. unfold mbind, M_bind. simpl.
    destruct (source_len <=? value) eqn:Hs; checked_facts.
    + rewrite absolute_offset_exact by lia. simpl. right. left.
      split; [by destruct (xref_code_facts StartXrefOutOfBounds (Some (base + Z.of_nat value_start)))|].
      exists value, (base + 0). split; [|done]. split; [done|]. apply Hat. simpl. lia.
    + rewrite absolute_offset_exact by (simpl; lia). simpl. split; [|lia].
      split; [done|]. apply Hat. by split.
  - destruct (last before) as [b|] eqn:Hlast; [|by apply last_None in Hlast; rewrite Hlast in Hzero].
    assert (bytes !! (length before - 1)%nat = Some b) as ->.
    { rewrite last_lookup in Hlast.
      rewrite <-(take_drop (length head) bytes), Ht, Hd, <-app_assoc, lookup_app_l by lia.
      rewrite <-Hlast. f_equal. lia. }
    unfold opens in Hat. rewrite Hlast in Hat. unfold ok_or, mbind, M_bind. simpl.
    destruct (is_pdf_whitespace b) eqn:Hw; simpl.
    + destruct (source_len <=? value) eqn:Hs; checked_facts.
      * rewrite absolute_offset_exact by lia. simpl. right. left.
        split; [by destruct (xref_code_facts StartXrefOutOfBounds (Some (base + Z.of_nat value_start)))|].
        exists value, (base + len before). split; [|done]. split; [done|]. by apply Hat.
      * rewrite absolute_offset_exact by lia. simpl. split; [|lia]. split; [done|]. by apply Hat.
    + apply invalid_outcome; [done..|lia| |].
      * intros v s [_ Hs%Hat]. naive_solver.
      * intros _ Hcut%suffix_of_full; [|done]. apply (f_equal length) in Hcut. simpl in Hcut. lia.
Qed.

Lemma keyword_ends head start class :
  class 102 = false → keyword_at base head start → ends_outside class head.
Proof.
  intros Hc (before&->&_). unfold ends_outside.
  replace (before ++ octets "startxref") with ((before ++ octets "startxre") ++ [102])
    by (by rewrite <-app_assoc). by rewrite last_snoc.
Qed.

Lemma digits_end (gap digits : list Z) head :
  Forall (λ b, is_ascii_digit b = true) digits → digits ≠ [] →
  ends_outside is_pdf_whitespace (head ++ gap ++ digits).
Proof.
  intros Hd Hne. destruct digits as [|d digits _] using rev_ind; [done|].
  unfold ends_outside. rewrite !app_assoc, last_snoc.
  apply Forall_app in Hd as [_ [Hd _]%Forall_cons]. unfold is_ascii_digit, is_pdf_whitespace in *. lia.
Qed.

Lemma gap_ends head gap :
  line_gap gap → ends_outside is_ascii_digit (head ++ gap).
Proof.
  intros [Hw Hl]. destruct gap as [|b gap _] using rev_ind; [done|].
  unfold ends_outside. rewrite app_assoc, last_snoc.
  apply Forall_app in Hw as [_ [Hw _]%Forall_cons]. apply whitespace_facts in Hw.
  unfold is_ascii_digit. lia.
Qed.

(** So do the parts of the keyword and of the marker. *)
Lemma part_ends part :
  part `suffix_of` octets "startxref" ∨ part `suffix_of` octets "%%EOF" →
  ends_outside is_pdf_whitespace part.
Proof.
  unfold ends_outside. destruct part as [|b part _] using rev_ind; [done|].
  rewrite last_snoc. intros [[front Hf]|[front Hf]]; rewrite app_assoc in Hf.
  - change (octets "startxref") with (octets "startxre" ++ [102]) in Hf.
    apply app_inj_2 in Hf as [_ [= <-]]; done.
  - change (octets "%%EOF") with (octets "%%EO" ++ [70]) in Hf. apply app_inj_2 in Hf as [_ [= <-]]; done.
Qed.

(** The gap a scan crosses is the one of the grammar. *)
Lemma gap_decided (head run : list Z) (Q : list Z → Prop) :
  Forall (λ b, is_pdf_whitespace b = true) run → ends_outside is_pdf_whitespace head →
  (∀ head', Q head' → ends_outside is_pdf_whitespace head') →
  (∃ head' gap, head ++ run = head' ++ gap ∧ Q head' ∧ line_gap gap) ↔
  Q head ∧ contains_line_ending run = true.
Proof.
  intros Hrun Hhead HQ. split.
  - intros (head'&gap&Heq&Hq&[Hw Hl]).
    apply (scan_unique is_pdf_whitespace) in Heq as [-> ->]; [done..|by apply HQ].
  - intros [??]. exists head, run. by split_and!.
Qed.

(** What the digits at the end of a head are. *)
Lemma value_at_digits head1 digits v s :
  Forall (λ b, is_ascii_digit b = true) digits → ends_outside is_ascii_digit head1 →
  value_at base (head1 ++ digits) v s ↔
    (∃ head' gap, head1 = head' ++ gap ∧ keyword_at base head' s ∧ line_gap gap) ∧ number digits ∧
    v = digits_value digits.
Proof.
  intros Hdigits Hhead. split.
  - intros (head'&gap&digits'&Hsplit&Hk&Hgap&Hne&H20&Hd&->&Hv). rewrite app_assoc in Hsplit.
    apply (scan_unique is_ascii_digit) in Hsplit as [-> ->]; [|done..|by apply gap_ends].
    split; [|done]. by exists head', gap.
  - intros [(head'&gap&->&Hk&Hgap) [(Hne&H20&_&Hv) ->]]. exists head', gap, digits.
    rewrite app_assoc. split_and!; done.
Qed.

Lemma value_cut_digits head1 digits :
  Forall (λ b, is_ascii_digit b = true) digits → ends_outside is_ascii_digit head1 →
  value_cut (head1 ++ digits) →
  number digits ∧ (head1 = [] ∨
    ∃ part gap, head1 = part ++ gap ∧ part `suffix_of` octets "startxref" ∧ line_gap gap).
Proof.
  intros Hdigits Hhead (head'&digits'&Heq&Hnum&Hcut).
  apply (scan_unique is_ascii_digit) in Heq as [-> ->]; [done|done|apply Hnum|done|].
  destruct Hcut as [->|(part&gap&->&_&Hgap)]; [done|by apply gap_ends].
Qed.

Lemma tail_value_run head calls :
  take (length head) bytes = head →
  tail_outcome bytes base source_len (value_at base head) (value_cut head)
    (tail_value bytes base source_len (length head) calls).2.
Proof.
  intros Ht. pose proof (head_length _ Ht) as Hlen. unfold tail_value.
  apply tail_scan; [done|]. intros head1 digits calls1 Heq Hdigits Hhead1 Ht1 Hbetween.
  rewrite Ht in Heq. subst head. rewrite length_app in *.
  pose proof (λ v s, value_at_digits head1 digits v s Hdigits Hhead1) as Hat.
  pose proof (value_cut_digits head1 digits Hdigits Hhead1) as Hcut.
  assert (∀ position, (position ≤ length bytes)%nat → ¬ number digits →
    tail_outcome bytes base source_len (value_at base (head1 ++ digits)) (value_cut (head1 ++ digits))
      (invalid_at base position calls1 : _ * result _ TailParse).2) as Hinvalid.
  { intros position Hpos Hno. apply invalid_outcome; [done..| |].
    - by intros v s (_&?&_)%Hat.
    - by intros _ [? _]%Hcut. }
  destruct (length head1 =? _)%nat eqn:Hnone.
  { apply Nat.eqb_eq in Hnone. apply Hinvalid; [lia|]. intros [Hne _]. apply Hne, nil_length_inv. lia. }
  apply Nat.eqb_neq in Hnone.
  assert (digits ≠ []) as Hne by (intros ->; simpl in Hnone; lia).
  destruct (20 <? _)%nat eqn:H20.
  { apply Nat.ltb_lt in H20. apply Hinvalid; [lia|]. intros (_&?&_). lia. }
  apply Nat.ltb_ge in H20. rewrite Hbetween, parse_digits_exact by done.
  destruct (digits_value digits <=? u64_max) eqn:Hmax; checked_facts.
  2: { simpl. right. right. left. split.
       - by destruct (xref_code_facts InvalidStartXref (absolute_ok base (length head1))).
       - split; [intros v s (_&(_&_&_&?)&_)%Hat; lia|intros _ [(_&_&_&?) _]%Hcut; lia]. }
  unfold ok_or. unfold mbind at 1, M_bind.
  destruct ((length head1 =? 0)%nat && negb (base =? 0)) eqn:Hstart.
  { apply andb_true_iff in Hstart as [Hz%Nat.eqb_eq Hb]. apply nil_length_inv in Hz. subst head1.
    split; [by destruct (Z.eqb_spec base 0)|].
    intros v s [(head'&gap&Hnil&(before&->&_)&_) _]%Hat. symmetry in Hnil.
    apply app_eq_nil in Hnil as [Hnil _]. by apply app_eq_nil in Hnil as [_ ?]. }
  assert (base ≠ 0 → head1 ≠ []) as Hstarts.
  { intros Hb ->. simpl in Hstart. destruct (Z.eqb_spec base 0); done. }
  apply tail_scan; [lia|]. intros head2 gap calls2 Heq2 Hgap Hhead2 Ht2 Hbetween2.
  rewrite Ht1 in Heq2. subst head1. rewrite Hbetween2.
  assert (∀ v s, value_at base ((head2 ++ gap) ++ digits) v s ↔
    (v = digits_value digits ∧ keyword_at base head2 s) ∧ contains_line_ending gap = true) as Hat2.
  { intros v s. rewrite Hat, (gap_decided head2 gap (λ h, keyword_at base h s)).
    - unfold number. naive_solver lia.
    - done.
    - done.
    - intros head'. by apply keyword_ends. }
  assert (base ≠ 0 → value_cut ((head2 ++ gap) ++ digits) →
    head2 `suffix_of` octets "startxref" ∧ contains_line_ending gap = true) as Hcut2.
  { intros Hb [_ [Hnil|Hpart]]%Hcut; [by destruct (Hstarts Hb)|].
    apply (gap_decided head2 gap (λ h, h `suffix_of` octets "startxref")); [done..| |done].
    intros part Hp. apply part_ends. by left. }
  rewrite length_app in *. destruct ((length head2 =? _)%nat || _) eqn:Hline.
  { assert (contains_line_ending gap = false) as Hnoline.
    { destruct (contains_line_ending gap) eqn:Hl; [|done]. rewrite orb_false_r in Hline.
      apply Nat.eqb_eq in Hline. assert (gap = []) as -> by (apply nil_length_inv; lia). done. }
    apply invalid_outcome; [done..|lia| |].
    - intros v s [_ Hl]%Hat2. congruence.
    - intros Hb [_ Hl]%(Hcut2 Hb). congruence. }
  apply orb_false_iff in Hline as [_ Hl%negb_false_iff].
  eapply tail_outcome_iff; [| |by apply tail_keyword_run; [done|lia]].
  - intros v s. rewrite Hat2. naive_solver.
  - intros Hb Hc. by apply Hcut2.
Qed.

Lemma value_ends head value start :
  value_at base head value start → ends_outside is_pdf_whitespace head.
Proof. intros (head'&gap&digits&->&_&_&Hne&_&Hd&_). by apply digits_end. Qed.

Lemma value_cut_ends head : value_cut head → ends_outside is_pdf_whitespace head.
Proof. intros (head'&digits&->&(Hne&_&Hd&_)&_). by apply (digits_end []). Qed.

Lemma marker_ends head value start :
  value_at base head value start → head ≠ [].
Proof.
  intros (head'&gap&digits&->&_&_&Hne&_) Hnil. apply app_eq_nil in Hnil as [_ Hnil].
  by apply app_eq_nil in Hnil as [_ ?].
Qed.

Lemma marker_cut_ends head : marker_cut head → ends_outside is_pdf_whitespace head.
Proof.
  intros [Hp|(head'&gap&->&_)]; [apply part_ends; by right|]. unfold ends_outside.
  by replace ((head' ++ gap) ++ octets "%%EOF") with (((head' ++ gap) ++ octets "%%EO") ++ [70])
    by (by rewrite <-app_assoc); rewrite last_snoc.
Qed.

(** The tails of a window whose white space after the marker is left out. *)
Definition marker_at (head : list Z) (value start : Z) : Prop :=
  ∃ head' gap, head = (head' ++ gap) ++ octets "%%EOF" ∧ value_at base head' value start ∧
    line_gap gap.

Lemma tail_marker_run head calls :
  take (length head) bytes = head →
  tail_outcome bytes base source_len (marker_at head) (marker_cut head)
    (tail_marker bytes base source_len (length head) calls).2.
Proof.
  intros Ht. pose proof (head_length _ Ht) as Hlen. unfold tail_marker.
  destruct (length head <? 5)%nat eqn:Hshort; [|apply Nat.ltb_ge in Hshort].
  { apply Nat.ltb_lt in Hshort. apply larger_outcome. intros v s (head'&gap&->&_).
    rewrite length_app in Hshort. simpl in Hshort. lia. }
  rewrite bytes_between_take, Ht.
  pose proof (suffix_decided head (octets "%%EOF") 5 eq_refl Hshort) as Hd.
  case_bool_decide as Hk; cbn [negb].
  2: { apply invalid_outcome; [done..|lia| |].
       - intros v s (head'&gap&Hb&_). by apply (Hd (head' ++ gap)).
       - intros _ [Hcut|(head'&gap&Hb&_)]; [|by apply (Hd (head' ++ gap))].
         apply suffix_of_full in Hcut; [|done]. by apply (Hd []). }
  set (body := take (length head - 5) head) in *.
  assert (length body = length head - 5)%nat as Hbody by (subst body; rewrite length_take; lia).
  rewrite <-Hbody.
  assert (∀ v s, marker_at head v s ↔
    ∃ head' gap, body = head' ++ gap ∧ value_at base head' v s ∧ line_gap gap) as Hat.
  { intros v s. split.
    - intros (head'&gap&Hb&Hv). rewrite Hd in Hb. apply app_inj_2 in Hb as [-> _]; [|done].
      by exists head', gap.
    - intros (head'&gap&Hb&Hv). exists head', gap. by rewrite <-Hb. }
  assert (marker_cut head → body = [] ∨
    ∃ head' gap, body = head' ++ gap ∧ (head' = [] ∨ value_cut head') ∧ line_gap gap) as Hcut.
  { intros [Hc|(head'&gap&Hb&Hc)].
    - left. apply suffix_of_full in Hc; [|done]. rewrite Hd in Hc. by apply (app_inj_2 body []) in Hc as [-> _].
    - right. rewrite Hd in Hb. apply app_inj_2 in Hb as [-> _]; [|done]. by exists head', gap. }
  destruct (length body =? 0)%nat eqn:Hzero.
  { apply Nat.eqb_eq, nil_length_inv in Hzero. apply larger_outcome. intros v s Hs.
    apply Hat in Hs as (head'&gap&Hb&Hv&_). rewrite Hzero in Hb. symmetry in Hb.
    apply app_eq_nil in Hb as [-> _]. by apply marker_ends in Hv. }
  apply tail_scan; [lia|]. intros head1 gap calls1 Heq Hgap Hhead Ht1 Hbetween. rewrite Hbetween.
  assert (body = head1 ++ gap) as Hsplit.
  { rewrite <-Heq. assert (take (length head) (body ++ octets "%%EOF") = head) as Hfull
      by (by rewrite <-Hd, firstn_all).
    rewrite <-(take_app_length body (octets "%%EOF")) at 1. rewrite <-Hd, <-Ht.
    rewrite take_take. f_equal. lia. }
  assert (∀ v s, marker_at head v s ↔ value_at base head1 v s ∧ contains_line_ending gap = true) as Hat1.
  { intros v s. rewrite Hat, Hsplit.
    apply (gap_decided head1 gap (λ h, value_at base h v s)); [done..|]. intros h. apply value_ends. }
  assert (marker_cut head → (head1 = [] ∨ value_cut head1) ∧ contains_line_ending gap = true) as Hcut1.
  { intros [Hnil|Hc]%Hcut; [by rewrite Hnil in Hzero|]. rewrite Hsplit in Hc.
    apply (gap_decided head1 gap (λ h, h = [] ∨ value_cut h)); [done..| |done].
    intros h [->|Hv]; [done|by apply value_cut_ends]. }
  destruct (_ || _) eqn:Hline.
  { assert (contains_line_ending gap = false) as Hnoline.
    { destruct (contains_line_ending gap) eqn:Hl; [|done]. rewrite orb_false_r in Hline.
      apply Nat.eqb_eq in Hline. rewrite Hsplit, length_app in Hline.
      assert (gap = []) as -> by (apply nil_length_inv; lia). done. }
    apply invalid_outcome; [done..|lia| |].
    - intros v s [_ Hl]%Hat1. congruence.
    - intros _ [_ Hl]%Hcut1. congruence. }
  apply orb_false_iff in Hline as [_ Hl%negb_false_iff].
  destruct (length head1 =? 0)%nat eqn:Hnone.
  { apply Nat.eqb_eq, nil_length_inv in Hnone. apply larger_outcome. intros v s [Hv _]%Hat1.
    by apply marker_ends in Hv. }
  eapply tail_outcome_iff; [| |by apply tail_value_run].
  - intros v s. rewrite Hat1. naive_solver.
  - intros _ [[->|?] _]%Hcut1; [done|done].
Qed.

Lemma parse_tail_run calls :
  tail_outcome bytes base source_len (tail_at base bytes) (tail_cut bytes)
    (parse_tail bytes base source_len calls).2.
Proof.
  unfold parse_tail. pose proof (probe_run 1 0 calls) as Hp. unfold probe_every in Hp. simpl in Hp.
  unfold mbind at 1, M_bind. destruct (stop_if_cancelled None calls) as [calls' [[]|[e|]]]; [|by left|done].
  apply tail_scan; [done|]. intros head after calls1 Heq Hafter Hhead Ht Hbetween.
  rewrite firstn_all in Heq.
  assert (∀ v s, tail_at base bytes v s ↔ marker_at head v s) as Hat.
  { intros v s. split.
    - intros (head'&gap&after'&Hb&Hv&Hgap&Hafter'). rewrite Heq, !app_assoc in Hb.
      apply (scan_unique is_pdf_whitespace) in Hb as [-> _]; [by exists head', gap|done..|].
      unfold ends_outside.
      by replace ((head' ++ gap) ++ octets "%%EOF") with (((head' ++ gap) ++ octets "%%EO") ++ [70])
        by (by rewrite <-app_assoc); rewrite last_snoc.
    - intros (head'&gap&->&Hv&Hgap). exists head', gap, after. rewrite Heq, !app_assoc. by split_and!. }
  destruct (length head =? 0)%nat eqn:Hnone.
  - apply Nat.eqb_eq, nil_length_inv in Hnone. subst head. unfold larger_or.
    destruct (base =? 0) eqn:Hb; checked_facts; simpl.
    + right. right. right. rewrite Heq. split; [|done].
      by destruct (xref_code_facts StartXrefNotFound (Some 0)).
    + split; [done|]. intros v s (head'&gap&Hnil&_)%Hat. symmetry in Hnil.
      by apply app_eq_nil in Hnil as [_ ?].
  - eapply tail_outcome_iff; [| |by apply tail_marker_run].
    + intros v s. by rewrite Hat.
    + intros _ (head'&after'&Hb&Hcut&Hafter'). rewrite Heq in Hb.
      apply (scan_unique is_pdf_whitespace) in Hb as [-> _]; [done..|by apply marker_cut_ends].
Qed.
End stages.

(** A window that grows keeps its tail. *)
Lemma tail_grows base bytes value start before :
  0 ≤ base - len before →
  tail_at base bytes value start → tail_at (base - len before) (before ++ bytes) value start.
Proof.
  intros Hb (head&gap&after&->&(head'&gap'&digits&->&(before'&->&Ho&->)&Hv)&Hgap).
  exists (before ++ (before' ++ octets "startxref") ++ gap' ++ digits), gap, after.
  split; [by rewrite <-!app_assoc|]. split; [|done].
  exists (before ++ before' ++ octets "startxref"), gap', digits. split; [by rewrite <-!app_assoc|].
  split; [|done]. exists (before ++ before'). rewrite app_assoc. split; [done|].
  rewrite length_app. split; [|lia]. unfold opens in *. rewrite last_app.
  destruct (last before') eqn:Hl; [done|]. subst base.
  assert (before = []) as -> by (apply nil_length_inv; lia). done.
Qed.

Lemma gap_line_facts gap : line_gap gap → gap ≠ [].
Proof. by intros [_ Hl] ->. Qed.

(** A window has one tail. *)
Lemma tail_unique base bytes value start value' start' :
  tail_at base bytes value start → tail_at base bytes value' start' → value' = value ∧ start' = start.
Proof.
  intros (head&gap&after&->&Hv&[Hgap _]&Hafter) (head2&gap2&after2&Heq&Hv2&[Hgap2 _]&Hafter2).
  assert (∀ l, ends_outside is_pdf_whitespace (l ++ octets "%%EOF")) as Heof.
  { intros l. replace (l ++ octets "%%EOF") with ((l ++ octets "%%EO") ++ [70])
      by (by rewrite <-app_assoc). unfold ends_outside. by rewrite last_snoc. }
  rewrite !app_assoc in Heq.
  apply (scan_unique is_pdf_whitespace) in Heq as [Heq _]; [|done..|by apply Heof|by apply Heof].
  apply app_inj_2 in Heq as [Heq _]; [|done].
  apply (scan_unique is_pdf_whitespace) in Heq as [-> _]; [|done..|by eapply value_ends|by eapply value_ends].
  destruct Hv as (head&gap'&digits&->&Hk&Hgap'&_&_&Hd&->&_).
  destruct Hv2 as (head3&gap3&digits3&Heq&Hk3&Hgap3&_&_&Hd3&->&_).
  rewrite !app_assoc in Heq.
  apply (scan_unique is_ascii_digit) in Heq as [Heq ->]; [|done..|by apply gap_ends|by apply gap_ends].
  split; [done|]. destruct Hgap' as [Hgap' _], Hgap3 as [Hgap3 _].
  apply (scan_unique is_pdf_whitespace) in Heq as [-> _]; [|done..|by eapply keyword_ends|by eapply keyword_ends].
  destruct Hk as (before&->&_&->), Hk3 as (before3&Heq&_&->). by apply app_inj_2 in Heq as [-> _].
Qed.

(** ** Tails whose gaps end with a line ending

    Every window that begins inside such a tail cuts it. *)

Definition plain_gap (gap : list Z) : Prop :=
  Forall (λ b, is_pdf_whitespace b = true) gap ∧ ∃ b, last gap = Some b ∧ is_line_ending b = true.

Definition plain_tail (base : Z) (bytes : list Z) (value start : Z) : Prop :=
  ∃ before gap digits gap' after,
    bytes = before ++ octets "startxref" ++ gap ++ digits ++ gap' ++ octets "%%EOF" ++ after ∧
    opens base before ∧ start = base + len before ∧ number digits ∧ value = digits_value digits ∧
    plain_gap gap ∧ plain_gap gap' ∧ Forall (λ b, is_pdf_whitespace b = true) after.

Lemma contains_line_ending_last gap b :
  last gap = Some b → is_line_ending b = true → contains_line_ending gap = true.
Proof.
  intros (front&->)%last_Some Hb. unfold contains_line_ending. rewrite existsb_app. simpl. rewrite Hb.
  by rewrite orb_true_r.
Qed.

Lemma plain_gap_suffix front part : plain_gap (front ++ part) → part ≠ [] → line_gap part.
Proof.
  intros [[_ Hw]%Forall_app (b&Hl&Hb)] Hne. split; [done|].
  destruct (last part) as [b'|] eqn:Hp; [|by apply last_None in Hp].
  rewrite last_app, Hp in Hl. injection Hl as ->. by eapply contains_line_ending_last.
Qed.

Lemma plain_gap_line gap : plain_gap gap → line_gap gap.
Proof.
  intros Hg. apply (plain_gap_suffix []); [done|]. intros ->. by destruct Hg as [_ (?&?&_)].
Qed.

Lemma digits_value_suffix front part :
  Forall (λ b, is_ascii_digit b = true) (front ++ part) → digits_value part ≤ digits_value (front ++ part).
Proof.
  unfold digits_value. rewrite foldl_app. intros [Hf Hp]%Forall_app.
  assert (∀ l value value', 0 ≤ value ≤ value' → Forall (λ b, is_ascii_digit b = true) l →
    0 ≤ foldl (λ m d, 10 * m + (d - 48)) value l ≤ foldl (λ m d, 10 * m + (d - 48)) value' l) as Hmono.
  { clear. intros l. induction l as [|d l IH]; intros value value' Hv Hl; simpl; [done|].
    apply Forall_cons in Hl as [Hd Hl]. unfold is_ascii_digit in Hd. apply IH; [lia|done]. }
  apply Hmono; [|done]. pose proof (Hmono front 0 0 ltac:(lia) Hf). lia.
Qed.

(** Where a window begins in two parts. *)
Lemma window_split {A} (front window a b : list A) :
  front ++ window = a ++ b →
  (∃ front' part, part ≠ [] ∧ a = front' ++ part ∧ front' = front ∧ window = part ++ b) ∨
  ∃ front', front = a ++ front' ∧ b = front' ++ window.
Proof.
  intros [(k&->&->)|(k&->&->)]%app_eq_inv; [right; by exists k|].
  destruct k as [|x k]; [right; exists []; by rewrite !app_nil_r|left]. by exists front, (x :: k).
Qed.

Lemma plain_tail_window base front window value start :
  plain_tail base (front ++ window) value start →
  tail_at (base + len front) window value start ∨ tail_cut window.
Proof.
  intros (before&gap&digits&gap'&after&Heq&Ho&->&Hnum&->&Hg&Hg'&Hafter).
  assert (Hnum' := Hnum). destruct Hnum' as (Hne&H20&Hd&Hmax).
  pose proof (plain_gap_line _ Hg) as Hl. pose proof (plain_gap_line _ Hg') as Hl'.
  assert (∀ head, head = [] ∨ value_cut head → tail_cut (head ++ gap' ++ octets "%%EOF" ++ after)) as Hmarker.
  { intros head Hc. exists ((head ++ gap') ++ octets "%%EOF"), after. split; [by rewrite <-!app_assoc|].
    split; [|done]. right. by exists head, gap'. }
  apply window_split in Heq as [(?&part&Hpart&->&->&->)|(front1&->&Heq)].
  { left. exists ((part ++ octets "startxref") ++ gap ++ digits), gap', after.
    split; [by rewrite <-!app_assoc|]. split; [|done].
    exists (part ++ octets "startxref"), gap, digits. split_and!; try done.
    exists part. split; [done|]. rewrite length_app. split; [|lia]. unfold opens in *.
    rewrite last_app in Ho. by destruct (last part) eqn:Hlast; [|apply last_None in Hlast]. }
  right. symmetry in Heq. apply window_split in Heq as [(?&part&_&Hword&->&->)|(front2&->&Heq)].
  { rewrite (app_assoc part), (app_assoc (part ++ gap)). apply Hmarker. right. exists (part ++ gap), digits.
    split; [done|]. split; [done|]. right. exists part, gap. split_and!; [done| |done]. by exists front1. }
  symmetry in Heq. apply window_split in Heq as [(?&part&Hpart&->&->&->)|(front3&->&Heq)].
  { rewrite (app_assoc part). apply Hmarker. right. exists part, digits. split; [done|]. split; [done|].
    right. exists [], part. split; [done|]. split; [|by eapply plain_gap_suffix].
    by exists (octets "startxref"); rewrite app_nil_r. }
  symmetry in Heq. apply window_split in Heq as [(?&part&Hpart&->&->&->)|(front4&->&Heq)].
  { apply Hmarker. right. exists [], part. split; [done|]. split; [|by left].
    apply digits_value_suffix in Hd as Hle. apply Forall_app in Hd as [_ Hd].
    rewrite length_app in H20. split_and!; [done|lia|done|lia]. }
  symmetry in Heq. apply window_split in Heq as [(?&part&Hpart&->&->&->)|(front5&->&Heq)].
  { exists (([] ++ part) ++ octets "%%EOF"), after. split; [by rewrite <-!app_assoc|]. split; [|done].
    right. exists [], part. split; [done|]. split; [by left|]. by eapply plain_gap_suffix. }
  symmetry in Heq. apply window_split in Heq as [(?&part&_&Hword&->&->)|(front6&->&->)].
  { exists part, after. split; [done|]. split; [|done]. left. by exists front5. }
  exists [], window. split; [done|]. split; [left; by exists (octets "%%EOF"); rewrite app_nil_r|].
  by apply Forall_app in Hafter as [_ ?].
Qed.

Lemma plain_tail_at base bytes value start :
  plain_tail base bytes value start → tail_at base bytes value start.
Proof.
  intros (before&gap&digits&gap'&after&->&Ho&->&(Hne&H20&Hd&Hmax)&->&Hg%plain_gap_line&Hg'%plain_gap_line&?).
  exists ((before ++ octets "startxref") ++ gap ++ digits), gap', after. split; [by rewrite <-!app_assoc|].
  split; [|done]. exists (before ++ octets "startxref"), gap, digits. split_and!; try done. by exists before.
Qed.

(** C7: the scan is the grammar. In a window at [base] of a source of [source_len]
    bytes, [parse_tail] never panics; it finds a value and the offset of its keyword
    exactly when the window ends with the tail that the grammar spells so and the
    value is inside the source; it refuses a value outside the source, and every
    other window that spells no tail, unless the window does not start the source
    and more of it may help. What it finds is final: every longer window has the
    same tail. A window that begins inside a tail is never called malformed, when
    the white space it begins with, if any, has its line ending. *)
Theorem tail_exact `{ParserRuntime} base source_len bytes calls :
  0 ≤ base → base + len bytes ≤ u64_max →
  tail_outcome bytes base source_len (tail_at base bytes) (tail_cut bytes)
    (parse_tail bytes base source_len calls).2 ∧
  ∀ value start before calls', 0 ≤ base - len before →
    (parse_tail bytes base source_len calls).2 = Ok (Found value start) →
    match (parse_tail (before ++ bytes) (base - len before) source_len calls').2 with
    | Ok (Found value' start') => value' = value ∧ start' = start
    | Err (Rejected e) => xref_cancelled e
    | _ => False
    end.
Proof.
  intros Hb He. pose proof (parse_tail_run bytes base source_len Hb He calls) as Ho. split; [done|].
  intros value start before calls' Hb' Hfound. rewrite Hfound in Ho. destruct Ho as [Ht Hs].
  clear Hfound.
  apply (tail_grows _ _ _ _ before) in Ht; [|done].
  assert (base - len before + len (before ++ bytes) ≤ u64_max) as He' by (rewrite length_app; lia).
  pose proof (parse_tail_run (before ++ bytes) _ source_len Hb' He' calls') as Ho.
  destruct (parse_tail _ _ _ _).2 as [[v s|]|[e|]]; simpl in Ho; [| | |done].
  - destruct Ho as [Ht' _]. by eapply tail_unique.
  - destruct Ho as [_ Hn]. by eapply Hn.
  - destruct Ho as [?|[(_&v&s&Ht'&?)|[(_&Hn&_)|(_&_&Hw)]]]; [done|exfalso..].
    + destruct (tail_unique _ _ _ _ _ _ Ht Ht') as [-> _]. lia.
    + by eapply Hn.
    + destruct Ht as (head&gap&after&Hsplit&_). rewrite Hsplit, !Forall_app in Hw.
      destruct Hw as (_&_&[Hw _]%Forall_cons&_). done.
Qed.
