(* ===== verification/XrefParser.v ===== *)
(** * Parsing of traditional cross-reference sections ([pdf-rs/xref/src/parser.rs])

    One attempt on one window at a section: the keyword [xref], subsections of
    20-byte rows, the keyword [trailer] and its dictionary, and the checks of base
    and of revision sections. Positions are indexes of the window, within it. The
    probe and the allocator are those of the syntax parser that reads trailers. *)

From stdpp Require Import base list numbers option strings.
From S2P Require Import Prelude.
From S2P Require Import SourceTypes.
From S2P Require Import SyntaxTypes.
From S2P Require Import SyntaxState.
From S2P Require Import SyntaxLexer.
From S2P Require Import SyntaxParser.
From S2P Require Import ObjectParser.
From S2P Require Import XrefTypes.
From S2P Require Import XrefTail.

(** ** Data *)

Record SectionWindow := {
  sw_snapshot : SourceSnapshot;
  sw_startxref : Z;
  sw_bytes : list Z;
  sw_extent : InputExtent;
  sw_source_len : Z
}.

Inductive LocalFailure :=
| LocalNeedMore
| LocalFailed (error : XrefError).

Record ParsedBackwardOffset := {
  backward_value : option Z;
  backward_operand_offset : Z
}.

Record ParsedTraditionalSection := {
  parsed_span : ByteSpan;
  parsed_declared_size : Z;
  parsed_root : option ObjectRef;
  parsed_previous : option ParsedBackwardOffset;
  parsed_xref_stream : option ParsedBackwardOffset;
  parsed_entries : list XrefEntry;
  parsed_trailer : Located PdfDictionary
}.

(** [mem::size_of::<XrefEntry>()], with the runtime of the syntax parser. *)
Class XrefRuntime : Type := {
  xref_parser :: ParserRuntime;
  size_of_xref_entry : Z
}.

(** The position of a cursor, and the calls of the runtime so far. *)
Record CursorState := {
  cs_position : nat;
  cs_calls : RuntimeCalls
}.
Definition set_position (x : nat) (s : CursorState) : CursorState :=
  {| cs_position := x; cs_calls := cs_calls s |}.
Definition set_cursor_calls (x : RuntimeCalls) (s : CursorState) : CursorState :=
  {| cs_position := cs_position s; cs_calls := x |}.

Abbreviation LocalM := (M RuntimeCalls (failure LocalFailure)).
Abbreviation CursorM := (M CursorState (failure LocalFailure)).

Definition local_failed {S A} (error : XrefError) : M S (failure LocalFailure) A :=
  throw (Rejected (LocalFailed error)).
Definition need_more {S A} : M S (failure LocalFailure) A := throw (Rejected LocalNeedMore).
(** [opt.ok_or_else(|| LocalFailure::Failed(error))?]. *)
Definition some_or_failed {S A} (o : option A) (error : XrefError) : M S (failure LocalFailure) A :=
  ok_or o (Rejected (LocalFailed error)).

(** A call that only probes or parses, from a cursor. *)
Definition on_calls {A} (m : LocalM A) : CursorM A := zoom cs_calls set_cursor_calls id m.

Section parser.
Context `{XrefRuntime}.

(** ** Values of dictionaries *)

(** The loop of [unique_trailer_value]. *)
Fixpoint unique_trailer_loop (key : string) (trailer_offset : Z) (index : nat)
    (value : option (Located SyntaxObject)) (entries : PdfDictionary)
    : LocalM (option (Located SyntaxObject)) :=
  match entries with
  | [] => mret value
  | entry :: entries =>
      cancelled ← (if (index mod 256 =? 0)%nat then probe else mret false);
      if cancelled : bool
      then local_failed (XrefError_for_code XrefCancelled (Some trailer_offset))
      else if negb (bool_decide (key_bytes entry = key))
      then unique_trailer_loop key trailer_offset (S index) value entries
      else match value with
           | Some _ => local_failed (XrefError_for_code InvalidTrailer (Some trailer_offset))
           | None =>
               unique_trailer_loop key trailer_offset (S index) (Some (entry_value entry)) entries
           end
  end.

Definition unique_trailer_value (dictionary : PdfDictionary) (key : string) (trailer_offset : Z)
    : LocalM (option (Located SyntaxObject)) :=
  unique_trailer_loop key trailer_offset 0 None dictionary.

(** The methods of a parser made for a classification, on its state. *)
Abbreviation ClassifyM := (M ParserState (failure LocalFailure)).

Definition classify_probe : ClassifyM bool :=
  probes ← gets ps_probes;
  modify count_probe;;
  mret (parser_cancelled probes).

(** The loop of [unique_dictionary_value]. *)
Fixpoint unique_dictionary_loop (key : string) (offset : Z) (index : nat)
    (value : option SyntaxObject) (entries : PdfDictionary) : ClassifyM (option SyntaxObject) :=
  match entries with
  | [] => mret value
  | entry :: entries =>
      cancelled ← (if (index mod 256 =? 0)%nat then classify_probe else mret false);
      if cancelled : bool
      then local_failed (XrefError_for_code XrefCancelled (Some offset))
      else if negb (bool_decide (key_bytes entry = key))
      then unique_dictionary_loop key offset (S index) value entries
      else match value with
           | Some _ => mret None
           | None => unique_dictionary_loop key offset (S index) (Some (value_object entry)) entries
           end
  end.

Definition unique_dictionary_value (dictionary : PdfDictionary) (key : string) (offset : Z)
    : ClassifyM (option SyntaxObject) :=
  unique_dictionary_loop key offset 0 None dictionary.

(** ** Targets that are no tables *)

Definition probe_syntax {T} (m : ParserState → ParserState * option (SyntaxPoll T))
    : ClassifyM (option T) := λ s,
  match m s with
  | (s', Some (Ready value)) => (s', Ok (Some value))
  | (s', Some (NeedMore _)) => (s', Err (Rejected LocalNeedMore))
  | (s', Some EndOfInput) => (s', Ok None)
  | (s', Some (Failed error)) =>
      (s', match error_category error with
           | SyntaxTypes.CategorySyntax => Ok None
           | _ => Err (Rejected (LocalFailed (XrefError_from_syntax error)))
           end)
  | (s', None) => (s', Err Panicked)
  end.

(** [SyntaxInput::new], [SyntaxParser::new_with_cancellation] and what is done with
    the parser. *)
Definition with_parser {A} (source : SourceIdentity) (base : Z) (bytes : list Z)
    (extent : InputExtent) (limits : SyntaxLimits) (body : SyntaxParser → ClassifyM A) : LocalM A :=
  λ calls,
  match SyntaxInput_new source base bytes extent with
  | Err error => (calls, Err (Rejected (LocalFailed (XrefError_from_syntax error))))
  | Ok input =>
      match SyntaxParser_new input limits None with
      | Err error => (calls, Err (Rejected (LocalFailed (XrefError_from_syntax error))))
      | Ok (p, s) =>
          let '(s', outcome) := body p (set_calls calls s) in (calls_of s', outcome)
      end
  end.

(** The object is an integer that [T::try_from] accepts, for a maximum [max]. *)
Definition unsigned_object (max : Z) (object : SyntaxObject) : option Z :=
  value ← as_integer object; try_from max value.

Definition is_name_of (name : string) (object : option SyntaxObject) : bool :=
  match object with Some (Name name') => bool_decide (name' = name) | _ => false end.

(** The tests of [/Type], [/Size], [/W] and [/Length] of a stream dictionary. *)
Definition valid_stream_size (object : option SyntaxObject) : bool :=
  match object ≫= unsigned_object u32_max with Some value => 0 <? value | None => false end.
Definition valid_stream_widths (object : option SyntaxObject) : bool :=
  match object with
  | Some (Array widths) =>
      (length widths =? 3)%nat &&
      forallb (λ width, bool_decide (is_Some (unsigned_object u32_max (located_value width)))) widths
  | _ => false
  end.
Definition valid_stream_length (object : option SyntaxObject) : bool :=
  match object with
  | Some (Integer value) => 0 <=? value
  | Some (Reference _) => true
  | _ => false
  end.

(** The dictionary of a candidate: whether it is one of a cross-reference stream. *)
Definition stream_dictionary_ok (dictionary : PdfDictionary) (startxref : Z) : ClassifyM bool :=
  type_ ← unique_dictionary_value dictionary "Type" startxref;
  size ← unique_dictionary_value dictionary "Size" startxref;
  widths ← unique_dictionary_value dictionary "W" startxref;
  length_ ← unique_dictionary_value dictionary "Length" startxref;
  mret (is_name_of "XRef" type_ && valid_stream_size size && valid_stream_widths widths
        && valid_stream_length length_).

Definition is_some {A} (o : option A) : bool := match o with Some _ => true | None => false end.

(** The parse of [classify_non_table_target]. *)
Definition classify_object (startxref : Z) (p : SyntaxParser) : ClassifyM XrefErrorCode :=
  number ← probe_syntax (parse_object p);
  if match number ≫= λ o, unsigned_object u32_max (located_value o) with
     | Some value => value =? 0 | None => true end
  then mret InvalidXrefKeyword
  else
    generation ← probe_syntax (parse_object p);
    if negb (is_some (generation ≫= λ o, unsigned_object u16_max (located_value o)))
    then mret InvalidXrefKeyword
    else
      keyword ← probe_syntax (expect_keyword p (octets "obj"));
      if negb (is_some keyword) then mret InvalidXrefKeyword
      else
        dictionary ← probe_syntax (parse_object p);
        match located_value <$> dictionary with
        | Some (Dictionary dictionary) =>
            ok ← stream_dictionary_ok dictionary startxref;
            if negb ok then mret InvalidXrefKeyword
            else
              stream ← probe_syntax (expect_keyword p (octets "stream"));
              if negb (is_some stream) then mret InvalidXrefKeyword
              else
                line_ending ← probe_syntax (consume_stream_line_ending p);
                mret (if is_some line_ending then UnsupportedXrefStream else InvalidXrefKeyword)
        | _ => mret InvalidXrefKeyword
        end.

Definition classify_non_table_target (source : SourceIdentity) (startxref : Z) (bytes : list Z)
    (extent : InputExtent) (syntax_limits : SyntaxLimits) : LocalM XrefErrorCode :=
  first ← ok_or (head bytes) Panicked;
  if negb (is_ascii_digit first) && negb ((first =? 43) || (first =? 45))
  then mret InvalidXrefKeyword
  else with_parser source startxref bytes extent syntax_limits (classify_object startxref).

(** ** Cursors *)

Section cursor.
Variable (w : SectionWindow).

Definition cursor_offset (position : nat) : option Z := absolute_ok (sw_startxref w) position.
Definition known_source_end : bool := bool_decide (sw_extent w = KnownSourceEnd).

(** [Err(cursor.failure(code, position))] and [Err(cursor.incomplete(code))]. *)
Definition failure_at {A} (code : XrefErrorCode) (position : nat) : CursorM A :=
  local_failed (XrefError_for_code code (cursor_offset position)).
Definition incomplete_at {A} (final_code : XrefErrorCode) : CursorM A :=
  if known_source_end then failure_at final_code (length (sw_bytes w)) else need_more.

Definition advance (n : nat) : CursorM unit :=
  modify (λ s, set_position (cs_position s + n) s).

Definition cursor_cancelled : CursorM unit :=
  position ← gets cs_position;
  cancelled ← on_calls probe;
  if cancelled : bool
  then local_failed (XrefError_for_code XrefCancelled (cursor_offset position)) else mret tt.

Definition require_bytes (n : nat) (final_code : XrefErrorCode) : CursorM unit :=
  position ← gets cs_position;
  if (length (sw_bytes w) <? position + n)%nat then incomplete_at final_code else mret tt.

(** The loops over bytes of a class. *)
Fixpoint skip_while (class : Z → bool) (rest : list Z) : CursorM unit :=
  match rest with
  | [] => mret tt
  | byte :: rest =>
      if class byte then
        advance 1;;
        position ← gets cs_position;
        when (position mod 1024 =? 0)%nat cursor_cancelled;;
        skip_while class rest
      else mret tt
  end.
Definition skip_class (class : Z → bool) : CursorM unit :=
  position ← gets cs_position;
  skip_while class (drop position (sw_bytes w)).

Fixpoint skip_whitespace_loop (fuel : nat) : CursorM unit :=
  match fuel with
  | O => throw Panicked
  | S fuel =>
      skip_class is_pdf_whitespace;;
      position ← gets cs_position;
      if negb (bool_decide (sw_bytes w !! position = Some 37)) then mret tt
      else
        advance 1;;
        skip_class (λ byte, negb (is_line_ending byte));;
        position ← gets cs_position;
        if (position =? length (sw_bytes w))%nat
        then if known_source_end then mret tt else need_more
        else skip_whitespace_loop fuel
  end.

(** A round reads a comment, or is the last one. *)
Definition skip_whitespace : CursorM unit := skip_whitespace_loop (S (length (sw_bytes w))).

Definition keyword_at_position (keyword : list Z) : CursorM bool :=
  position ← gets cs_position;
  let remaining := drop position (sw_bytes w) in
  let n := length keyword in
  if (length remaining <? n)%nat then
    if bool_decide (take (length remaining) keyword = remaining) && negb known_source_end
    then need_more else mret false
  else if negb (bool_decide (take n remaining = keyword)) then mret false
  else match remaining !! n with
       | None => if known_source_end then mret true else need_more
       | Some byte => mret (is_pdf_whitespace byte || is_pdf_delimiter byte)
       end.

Fixpoint decimal_loop (code : XrefErrorCode) (max_digits start : nat) (rest : list Z)
    : CursorM unit :=
  match rest with
  | [] => mret tt
  | byte :: rest =>
      if is_ascii_digit byte then
        advance 1;;
        position ← gets cs_position;
        if (max_digits <? position - start)%nat then failure_at code start
        else decimal_loop code max_digits start rest
      else mret tt
  end.

Definition parse_decimal (code : XrefErrorCode) (max_digits : nat) : CursorM Z :=
  start ← gets cs_position;
  decimal_loop code max_digits start (drop start (sw_bytes w));;
  position ← gets cs_position;
  if (position =? start)%nat then failure_at code start
  else if (position =? length (sw_bytes w))%nat && negb known_source_end then need_more
  else match parse_digits (bytes_between (sw_bytes w) start position) with
       | Some value => mret value
       | None => failure_at code start
       end.

Definition consume_horizontal_separator (code : XrefErrorCode) : CursorM unit :=
  start ← gets cs_position;
  skip_class is_horizontal_whitespace;;
  position ← gets cs_position;
  if (position =? start)%nat then failure_at code start
  else if (position =? length (sw_bytes w))%nat then incomplete_at code
  else mret tt.

Definition consume_line_ending (code : XrefErrorCode) : CursorM unit :=
  skip_class is_horizontal_whitespace;;
  position ← gets cs_position;
  match sw_bytes w !! position with
  | Some byte =>
      if byte =? 10 then advance 1
      else if byte =? 13 then
        advance 1;;
        position ← gets cs_position;
        if bool_decide (sw_bytes w !! position = Some 10) then advance 1 else mret tt
      else failure_at code position
  | None => incomplete_at code
  end.

(** ** Rows *)

(** A row is 20 bytes: ten digits, a space, five digits, a space, the kind, and one
    of three line endings. *)
Definition row_shape (row : list Z) : bool :=
  forallb is_ascii_digit (take 10 row) && bool_decide (row !! 10%nat = Some 32)
  && forallb is_ascii_digit (bytes_between row 11 16) && bool_decide (row !! 16%nat = Some 32)
  && (bool_decide (drop 18 row = [32; 10]) || bool_decide (drop 18 row = [13; 10])
      || bool_decide (drop 18 row = [32; 13])).

Definition parse_entry (object_number : Z) : CursorM XrefEntry :=
  start ← gets cs_position;
  require_bytes 20 InvalidEntry;;
  let row := bytes_between (sw_bytes w) start (start + 20) in
  let invalid {A} (position : nat) : CursorM A := failure_at InvalidEntry position in
  if negb (row_shape row) then invalid start
  else match parse_digits (take 10 row) with
  | None => invalid start
  | Some field =>
      match parse_digits (bytes_between row 11 16) ≫= try_from u16_max with
      | None => invalid (start + 11)%nat
      | Some generation =>
          kind ← match row !! 17%nat with
                 | Some 110 => if field <? sw_source_len w then mret (InUse field)
                               else invalid (start + 17)%nat
                 | Some 102 => match try_from u32_max field with
                               | Some next_free => mret (Free next_free)
                               | None => invalid start
                               end
                 | _ => invalid (start + 17)%nat
                 end;
          advance 20;;
          mret {| row_object_number := object_number; row_generation := generation;
                  row_kind := kind |}
      end
  end.

(** ** Subsections *)

Variables (limits : XrefLimits) (syntax_limits : SyntaxLimits).

(** The rows parsed so far, the capacity of their vector, the subsections and the
    end of the last one. *)
Record SubsectionState := {
  ss_entries : list XrefEntry;
  ss_capacity : Z;
  ss_subsections : Z;
  ss_previous_end : option Z
}.

Definition entries_error (kind : XrefLimitKind) (existing attempted : Z) (position : nat)
    : XrefError :=
  XrefError_resource kind (xl_max_entries limits) existing attempted (cursor_offset position).

(** [entries.try_reserve_exact(count)], with the checks around it; the capacity. *)
Definition reserve_entries (entries : list XrefEntry) (capacity count : Z) : CursorM Z :=
  s ← get;
  let position := cs_position s in
  let internal := XrefError_for_code XrefInternalState (cursor_offset position) in
  existing ← some_or_failed (try_from u64_max (len entries)) internal;
  if match checked_add u64_max existing count with
     | None => true
     | Some total => xl_max_entries limits <? total
     end
  then local_failed (entries_error XrefEntries existing count position)
  else
    let refused := entries_error XrefAllocation existing count position in
    count_usize ← some_or_failed (try_from usize_max count) refused;
    let calls := cs_calls s in
    modify (set_cursor_calls {| calls_probes := calls_probes calls;
                                calls_reservations := S (calls_reservations calls) |});;
    capacity ← some_or_failed
      (parser_reserve (calls_reservations calls) size_of_xref_entry (len entries) capacity
         count_usize) refused;
    capacity ← some_or_failed (try_from u64_max capacity) internal;
    if xl_max_entries limits <? capacity
    then local_failed (entries_error XrefAllocation existing (saturating_sub capacity existing)
                         position)
    else mret capacity.

(** The loop over the rows of a subsection: [n] rows, from object [number] on. *)
Fixpoint entry_loop (n : nat) (number : Z) (entries : list XrefEntry) : CursorM (list XrefEntry) :=
  match n with
  | O => mret entries
  | S n =>
      cursor_cancelled;;
      position ← gets cs_position;
      match try_from u32_max number with
      | None => failure_at InvalidSubsection position
      | Some object_number =>
          entry ← parse_entry object_number;
          entry_loop n (number + 1) (entries ++ [entry])
      end
  end.

(** The header of a subsection: the first object and one past the last. *)
Definition parse_subsection_header (previous_end : option Z) : CursorM (Z * Z) :=
  first ← parse_decimal InvalidSubsection 10;
  consume_horizontal_separator InvalidSubsection;;
  count ← parse_decimal InvalidSubsection 10;
  let invalid {A} : CursorM A := position ← gets cs_position; failure_at InvalidSubsection position in
  if count =? 0 then invalid
  else
    consume_line_ending InvalidSubsection;;
    match checked_add u64_max first count with
    | None => invalid
    | Some end_ =>
        if (u32_max <? first) || (u32_max + 1 <? end_) then invalid
        else if from_option (λ previous, first <? previous) false previous_end then invalid
        else mret (first, end_)
    end.

(** One subsection of [parse_section_inner]. *)
Definition parse_subsection (st : SubsectionState) : CursorM SubsectionState :=
  position ← gets cs_position;
  let refused consumed :=
    XrefError_resource XrefSubsections (xl_max_subsections limits) consumed 1
      (cursor_offset position) in
  subsections ← some_or_failed (checked_add u64_max (ss_subsections st) 1)
    (refused (ss_subsections st));
  if xl_max_subsections limits <? subsections then local_failed (refused (subsections - 1))
  else
    '(first, end_) ← parse_subsection_header (ss_previous_end st);
    let count := end_ - first in
    capacity ← reserve_entries (ss_entries st) (ss_capacity st) count;
    entries ← entry_loop (Z.to_nat count) first (ss_entries st);
    mret {| ss_entries := entries; ss_capacity := capacity; ss_subsections := subsections;
            ss_previous_end := Some end_ |}.

(** ** Trailers *)

Definition parse_backward_offset (value : option (Located SyntaxObject))
    : option ParsedBackwardOffset :=
  value ← value;
  Some {| backward_value := as_integer (located_value value) ≫= try_from u64_max;
          backward_operand_offset := span_start (located_span value) |}.

Definition as_reference (object : SyntaxObject) : option ObjectRef :=
  match object with Reference value => Some value | _ => None end.

(** From the dictionary of the trailer on; [trailer_offset] is where it was looked for. *)
Definition trailer_section (entries : list XrefEntry) (trailer_offset : Z)
    (trailer : Located PdfDictionary) : LocalM ParsedTraditionalSection :=
  let dictionary := located_value trailer in
  let invalid := XrefError_for_code InvalidTrailer (Some trailer_offset) in
  let startxref := sw_startxref w in
  let internal := XrefError_for_code XrefInternalState (Some startxref) in
  size_value ← unique_trailer_value dictionary "Size" trailer_offset;
  root_value ← unique_trailer_value dictionary "Root" trailer_offset;
  previous_value ← unique_trailer_value dictionary "Prev" trailer_offset;
  xref_stream_value ← unique_trailer_value dictionary "XRefStm" trailer_offset;
  declared_size ← some_or_failed
    (value ← size_value; integer ← as_integer (located_value value); try_from u32_max integer)
    invalid;
  if declared_size =? 0 then local_failed invalid
  else if xl_max_entries limits <? declared_size
  then local_failed (XrefError_resource XrefEntries (xl_max_entries limits) 0 declared_size
                       (Some trailer_offset))
  else
    root ← match root_value with
           | Some value =>
               root ← some_or_failed (as_reference (located_value value)) invalid;
               mret (Some root)
           | None => mret None
           end;
    span_len ← some_or_failed
      (checked_sub (ByteSpan_end_exclusive (located_span trailer)) startxref) internal;
    span ← match ByteSpan_new startxref span_len with
           | Ok span => mret span
           | Err _ => local_failed internal
           end;
    mret {| parsed_span := span; parsed_declared_size := declared_size; parsed_root := root;
            parsed_previous := parse_backward_offset previous_value;
            parsed_xref_stream := parse_backward_offset xref_stream_value;
            parsed_entries := entries; parsed_trailer := trailer |}.

(** [parser.parse_object()], for the dictionary of a trailer. *)
Definition trailer_dictionary (trailer_offset : Z) (p : SyntaxParser)
    : M ParserState (failure LocalFailure) (Located PdfDictionary) := λ s,
  let invalid := XrefError_for_code InvalidTrailer (Some trailer_offset) in
  match parse_object p s with
  | (s', Some (Ready located)) =>
      (s', match located_value located with
           | Dictionary dictionary =>
               Ok {| located_source := located_source located; located_span := located_span located;
                     located_value := dictionary |}
           | _ => Err (Rejected (LocalFailed invalid))
           end)
  | (s', Some (NeedMore _)) => (s', Err (Rejected LocalNeedMore))
  | (s', Some EndOfInput) => (s', Err (Rejected (LocalFailed invalid)))
  | (s', Some (Failed error)) => (s', Err (Rejected (LocalFailed (XrefError_from_syntax error))))
  | (s', None) => (s', Err Panicked)
  end.

Definition parse_trailer (entries : list XrefEntry) : CursorM ParsedTraditionalSection :=
  position ← gets cs_position;
  if (position =? length (sw_bytes w))%nat then incomplete_at InvalidTrailer
  else
    trailer_offset ← match absolute_offset (sw_startxref w) position with
                     | Ok offset => mret offset
                     | Err error => local_failed error
                     end;
    trailer ← on_calls (with_parser (snapshot_identity (sw_snapshot w)) trailer_offset
      (drop position (sw_bytes w)) (sw_extent w) syntax_limits (trailer_dictionary trailer_offset));
    on_calls (trailer_section entries trailer_offset trailer).

(** ** Sections *)

(** The loop of [parse_section_inner]. *)
Fixpoint section_loop (fuel : nat) (st : SubsectionState) : CursorM ParsedTraditionalSection :=
  match fuel with
  | O => throw Panicked
  | S fuel =>
      skip_whitespace;;
      position ← gets cs_position;
      if (position =? length (sw_bytes w))%nat then incomplete_at InvalidTrailer
      else
        trailer ← keyword_at_position (octets "trailer");
        if trailer : bool then
          if ss_subsections st =? 0 then failure_at InvalidSubsection position
          else
            advance 7;;
            skip_whitespace;;
            parse_trailer (ss_entries st)
        else
          st ← parse_subsection st;
          section_loop fuel st
  end.

Definition no_subsections : SubsectionState :=
  {| ss_entries := []; ss_capacity := 0; ss_subsections := 0; ss_previous_end := None |}.

Definition classify_target : CursorM ParsedTraditionalSection :=
  code ← on_calls (classify_non_table_target (snapshot_identity (sw_snapshot w)) (sw_startxref w)
    (sw_bytes w) (sw_extent w) syntax_limits);
  failure_at code 0.

(** A subsection takes at least one byte, so that there is fuel for all of them. *)
Definition parse_section_inner : CursorM ParsedTraditionalSection :=
  let bytes := sw_bytes w in
  if (length bytes <? 4)%nat then
    if bool_decide (take (length bytes) (octets "xref") = bytes) && negb known_source_end
    then need_more
    else if match bytes with
            | byte :: _ => negb known_source_end
                && (is_ascii_digit byte || (byte =? 43) || (byte =? 45))
            | [] => false
            end
    then classify_target
    else failure_at InvalidXrefKeyword 0
  else if negb (bool_decide (take 4 bytes = octets "xref")) then classify_target
  else
    modify (set_position 4);;
    consume_line_ending InvalidXrefKeyword;;
    section_loop (S (length bytes)) no_subsections.
End cursor.

(** ** Checks of sections *)

Definition validate_object_zero (entries : list XrefEntry) (startxref : Z) (required : bool)
    : result XrefError unit :=
  let object_zero :=
    match entries with
    | entry :: _ => if row_object_number entry =? 0 then Some entry else None
    | [] => None
    end in
  fail_if ((required && negb (is_some object_zero))
           || match object_zero with
              | Some entry => negb (row_generation entry =? u16_max)
                  || match row_kind entry with Free _ => false | InUse _ => true end
              | None => false
              end)
    (XrefError_for_code InvalidEntry (Some startxref)).

Definition validate_backward_offset (value : option ParsedBackwardOffset) (startxref : Z)
    : result XrefError (option Z) :=
  match value with
  | None => mret None
  | Some value =>
      let invalid := XrefError_for_code InvalidTrailer (Some (backward_operand_offset value)) in
      offset ← require (backward_value value) invalid;
      fail_if (startxref <=? offset) invalid;;
      mret (Some offset)
  end.

(** The probe of the loops over rows, every 256 of them. *)
Definition probe_rows (index : nat) (startxref : Z) : ProbeM unit :=
  probe_every 256 index (Some startxref).

(** The loops of [validate_free_entries] and of [finalize_revision_section]: every
    row must satisfy [valid]. *)
Fixpoint validate_rows (valid : XrefEntry → bool) (startxref : Z) (index : nat)
    (entries : list XrefEntry) : ProbeM unit :=
  match entries with
  | [] => mret tt
  | entry :: entries =>
      probe_rows index startxref;;
      if valid entry then validate_rows valid startxref (S index) entries
      else xref_fail (XrefError_for_code InvalidEntry (Some startxref))
  end.

Definition free_entry_ok (declared_size : Z) (entry : XrefEntry) : bool :=
  match row_kind entry with Free next_free => next_free <? declared_size | InUse _ => true end.
Definition revision_entry_ok (startxref : Z) (entry : XrefEntry) : bool :=
  match row_kind entry with
  | InUse offset => negb ((offset =? 0) || (startxref <=? offset))
  | Free _ => true
  end.

Definition validate_free_entries (entries : list XrefEntry) (declared_size startxref : Z)
    : ProbeM unit :=
  validate_rows (free_entry_ok declared_size) startxref 0 entries.

(** The loop that sets [complete_object_range]. *)
Fixpoint complete_range (startxref : Z) (number : nat) (entries : list XrefEntry) : ProbeM bool :=
  match entries with
  | [] => mret true
  | entry :: entries =>
      probe_rows number startxref;;
      if bool_decide (try_from u32_max (Z.of_nat number) = Some (row_object_number entry))
      then complete_range startxref (S number) entries
      else mret false
  end.

Definition maximum_object (entries : list XrefEntry) : Z :=
  match last entries with Some entry => row_object_number entry | None => 0 end.

Section finalize.
Variables (w : SectionWindow) (section : ParsedTraditionalSection).
Let startxref := sw_startxref w.
Let invalid_trailer : XrefError :=
  XrefError_for_code InvalidTrailer (Some (span_start (located_span (parsed_trailer section)))).
Let invalid_entry : XrefError := XrefError_for_code InvalidEntry (Some startxref).

Definition unsupported (code : XrefErrorCode) (value : option ParsedBackwardOffset) : ProbeM unit :=
  offset ← xref_try (validate_backward_offset value startxref);
  match offset with
  | Some _ => xref_fail (XrefError_for_code code (backward_operand_offset <$> value))
  | None => mret tt
  end.

Definition finalize_base_section : ProbeM XrefSection :=
  let entries := parsed_entries section in
  let declared_size := parsed_declared_size section in
  root ← xref_try (require (parsed_root section) invalid_trailer);
  unsupported UnsupportedIncrementalRevision (parsed_previous section);;
  unsupported UnsupportedHybridXref (parsed_xref_stream section);;
  xref_try (fail_if (declared_size <=? maximum_object entries) invalid_trailer);;
  let complete_count :=
    match try_from usize_max declared_size with
    | Some declared => declared =? len entries
    | None => false
    end in
  complete ← complete_range startxref 0 entries;
  xref_try (fail_if (negb complete_count || negb complete) invalid_entry);;
  xref_try (validate_object_zero entries startxref true);;
  validate_free_entries entries declared_size startxref;;
  let root_entry :=
    entry ← row_of entries (object_number root);
    if (row_generation entry =? object_generation root)
       && match row_kind entry with InUse _ => true | Free _ => false end
    then Some entry else None in
  xref_try (fail_if ((declared_size <=? object_number root) || negb (is_some root_entry))
              invalid_trailer);;
  mret {| section_snapshot := sw_snapshot w; section_startxref := startxref;
          section_span := parsed_span section; section_declared_size := declared_size;
          section_root := root; section_entries := entries;
          section_trailer := parsed_trailer section |}.

Definition finalize_revision_section : ProbeM TraditionalRevisionSection :=
  let entries := parsed_entries section in
  let declared_size := parsed_declared_size section in
  previous ← xref_try (validate_backward_offset (parsed_previous section) startxref);
  xref_stream ← xref_try (validate_backward_offset (parsed_xref_stream section) startxref);
  xref_try (fail_if (match previous, xref_stream with
                     | Some previous, Some stream => stream <=? previous
                     | _, _ => false
                     end)
              (XrefError_for_code InvalidTrailer
                 (backward_operand_offset <$> parsed_xref_stream section)));;
  xref_try (fail_if ((declared_size <=? maximum_object entries)
                     || match parsed_root section with
                        | Some root => declared_size <=? object_number root
                        | None => false
                        end) invalid_trailer);;
  validate_free_entries entries declared_size startxref;;
  xref_try (validate_object_zero entries startxref false);;
  validate_rows (revision_entry_ok startxref) startxref 0 entries;;
  mret {| revision_snapshot := sw_snapshot w; revision_startxref := startxref;
          revision_span := parsed_span section; revision_declared_size := declared_size;
          revision_root := parsed_root section; revision_previous := previous;
          revision_xref_stream := xref_stream; revision_entries := entries;
          revision_trailer := parsed_trailer section |}.
End finalize.

(** ** Attempts *)

(** [None] asks for a larger window. *)
Definition run_section {A} (w : SectionWindow) (limits : XrefLimits) (syntax_limits : SyntaxLimits)
    (finalize : ParsedTraditionalSection → ProbeM A) : ProbeM (option A) := λ calls,
  match parse_section_inner w limits syntax_limits {| cs_position := 0; cs_calls := calls |} with
  | (s, Ok section) => (finalized ← finalize section; mret (Some finalized)) (cs_calls s)
  | (s, Err (Rejected LocalNeedMore)) => (cs_calls s, Ok None)
  | (s, Err (Rejected (LocalFailed error))) => (cs_calls s, Err (Rejected error))
  | (s, Err Panicked) => (cs_calls s, Err Panicked)
  end.

Definition parse_section (w : SectionWindow) (limits : XrefLimits) (syntax_limits : SyntaxLimits)
    : ProbeM (option XrefSection) :=
  run_section w limits syntax_limits (finalize_base_section w).

Definition parse_traditional_revision_section (w : SectionWindow) (limits : XrefLimits)
    (syntax_limits : SyntaxLimits) : ProbeM (option TraditionalRevisionSection) :=
  run_section w limits syntax_limits (finalize_revision_section w).
End parser.
