(* ===== verification/XrefReader.v ===== *)
(** * A reference reader of traditional cross-reference sections

    What the bytes at a section denote, as pure functions: no cursor, limits,
    capacities or probes. A scan tells a section that is read from bytes that end too
    early, bytes that are wrong, and a part that the reader of objects does not
    read ([scan]); [read_section] is the value of a scan. Trivia and the dictionary of the trailer are those of the
    reader of objects ([SyntaxReader]). A section that is read from a window is read
    from every longer one ([read_section_grows]), what is wrong stays wrong, and the section that a table
    prints is read back ([read_section_print]). *)

From stdpp Require Import base list numbers option strings.
From S2P Require Import Prelude.
From S2P Require Import SourceTypes.
From S2P Require Import SyntaxTypes.
From S2P Require Import SyntaxState.
From S2P Require Import SyntaxLexer.
From S2P Require Import SyntaxParser.
From S2P Require Import SyntaxReader.
From S2P Require Import SyntaxTrivia.
From S2P Require Import SyntaxMethods.
From S2P Require Import SyntaxGrowth.
From S2P Require Import SyntaxPrint.
From S2P Require Import ObjectParser.
From S2P Require Import ObjectReader.
From S2P Require Import XrefTypes.
From S2P Require Import XrefTail.
From S2P Require Import XrefParser.

(** Blanks, at least one, before something. *)
Definition read_separator (rest : list Z) : option (list Z) :=
  let '(blanks, r) := run_of is_horizontal_whitespace rest in
  if bool_decide (blanks = []) || bool_decide (r = []) then None else Some r.

(** Blanks and a line ending. *)
Definition read_line_break (rest : list Z) : option (list Z) :=
  match (run_of is_horizontal_whitespace rest).2 with
  | [] => None
  | byte :: l =>
      if byte =? 10 then Some l
      else if byte =? 13 then Some (if bool_decide (head l = Some 10) then tail l else l)
      else None
  end.

(** The only element of a list, when there is one. *)
Definition at_most_one {A} (l : list A) : option (option A) :=
  match l with [] => Some None | [x] => Some (Some x) | _ => None end.

(** The values of the entries with a key. *)
Definition key_values (key : string) (dictionary : PdfDictionary) : list (Located SyntaxObject) :=
  entry_value <$> filter (λ entry, key_bytes entry = key) dictionary.

Lemma key_values_cons key entry entries :
  key_values key (entry :: entries) =
    (if decide (key_bytes entry = key) then [entry_value entry] else []) ++ key_values key entries.
Proof. unfold key_values. unfold filter at 1. simpl. by case_decide. Qed.

(** The value of a key that a dictionary has at most once. *)
Definition unique_value (dictionary : PdfDictionary) (key : string)
    : option (option (Located SyntaxObject)) :=
  at_most_one (key_values key dictionary).

(** The dictionary of a trailer. *)
Definition trailer_of (object : Located SyntaxObject) : option (Located PdfDictionary) :=
  match located_value object with
  | Dictionary dictionary =>
      Some {| located_source := located_source object; located_span := located_span object;
              located_value := dictionary |}
  | _ => None
  end.

Section reader.
Variables (source : SourceIdentity) (startxref source_len stop : Z) (more : bool).

Definition read_decimal (rest : list Z) : option (Z * list Z) :=
  let '(digits, r) := run_of is_ascii_digit rest in
  if bool_decide (digits = []) || (10 <? length digits)%nat || (bool_decide (r = []) && more)
  then None else Some (digits_value digits, r).

(** The row of 20 bytes for an object. *)
Definition read_row (object_number : Z) (row : list Z) : option XrefEntry :=
  let field := digits_value (take 10 row) in
  let generation := digits_value (bytes_between row 11 16) in
  if negb (row_shape row) || (u16_max <? generation) then None
  else
    kind ← match row !! 17%nat with
           | Some 110 => if field <? source_len then Some (InUse field) else None
           | Some 102 => if field <=? u32_max then Some (Free field) else None
           | _ => None
           end;
    Some {| row_object_number := object_number; row_generation := generation; row_kind := kind |}.

Fixpoint read_rows (n : nat) (number : Z) (rest : list Z) : option (list XrefEntry * list Z) :=
  match n with
  | O => Some ([], rest)
  | S n =>
      entry ← (if (length rest <? 20)%nat then None else read_row number (take 20 rest));
      '(entries, r) ← read_rows n (number + 1) (drop 20 rest);
      Some (entry :: entries, r)
  end.

(** The header of a subsection that follows object [previous]: its first object and
    one past its last. *)
Definition read_subsection_header (previous : option Z) (rest : list Z)
    : option (Z * Z * list Z) :=
  '(first, r) ← read_decimal rest;
  r ← read_separator r;
  '(count, r) ← read_decimal r;
  if count =? 0 then None
  else
    r ← read_line_break r;
    if (u32_max + 1 <? first + count) || from_option (λ previous, first <? previous) false previous
    then None else Some (first, first + count, r).

(** Whether the keyword [trailer] is here. *)
Definition read_trailer_keyword (rest : list Z) : option bool :=
  if (length rest <? 7)%nat then
    if bool_decide (take (length rest) (octets "trailer") = rest) && more then None else Some false
  else if negb (bool_decide (take 7 rest = octets "trailer")) then Some false
  else match rest !! 7%nat with
       | None => if more then None else Some true
       | Some byte => Some (is_pdf_whitespace byte || is_pdf_delimiter byte)
       end.

(** The rows of the subsections up to the keyword [trailer], and what follows it;
    there is at least one subsection. *)
Fixpoint read_subsections (fuel : nat) (previous : option Z) (rest : list Z)
    : option (list XrefEntry * list Z) :=
  match fuel with
  | O => None
  | S fuel =>
      rest ← read_trivia more false rest;
      if bool_decide (rest = []) then None
      else
        trailer ← read_trailer_keyword rest;
        if trailer : bool then
          match previous with None => None | Some _ => Some ([], drop 7 rest) end
        else
          '(first, end_, r) ← read_subsection_header previous rest;
          '(entries, r) ← read_rows (Z.to_nat (end_ - first)) first r;
          '(entries', r) ← read_subsections fuel (Some end_) r;
          Some (entries ++ entries', r)
  end.

Definition read_trailer (entries : list XrefEntry) (trailer : Located PdfDictionary)
    : option ParsedTraditionalSection :=
  let dictionary := located_value trailer in
  size ← unique_value dictionary "Size";
  root ← unique_value dictionary "Root";
  previous ← unique_value dictionary "Prev";
  xref_stream ← unique_value dictionary "XRefStm";
  declared_size ← (value ← size; integer ← as_integer (located_value value);
                   try_from u32_max integer);
  if declared_size =? 0 then None
  else
    root ← match root with
           | Some value => root ← as_reference (located_value value); Some (Some root)
           | None => Some None
           end;
    Some {| parsed_span :=
              {| span_start := startxref;
                 span_len := ByteSpan_end_exclusive (located_span trailer) - startxref |};
            parsed_declared_size := declared_size; parsed_root := root;
            parsed_previous := parse_backward_offset previous;
            parsed_xref_stream := parse_backward_offset xref_stream;
            parsed_entries := entries; parsed_trailer := trailer |}.

Definition read_section (rest : list Z) : option ParsedTraditionalSection :=
  if negb (bool_decide (take 4 rest = octets "xref")) then None
  else
    r ← read_line_break (drop 4 rest);
    '(entries, r) ← read_subsections (S (length rest)) None r;
    r ← read_trivia more false r;
    '(object, _) ← read_object source stop more r;
    trailer ← trailer_of object;
    read_trailer entries trailer.
End reader.

(** ** How much of a section a window decides *)

(** What the parser of objects reads for a section. *)
Inductive syntax_part :=
| ObjectPart
| KeywordPart (word : list Z)
| LinePart.

(** A value; a window that ends too early; bytes that are wrong whatever follows; or as
    much as the parser of objects decides about the part that begins with [rest]. *)
Inductive scan (A : Type) : Type :=
| Scanned (a : A)
| Short
| Wrong
| Unread (what : syntax_part) (rest : list Z).
Arguments Scanned {A} a.
Arguments Short {A}.
Arguments Wrong {A}.
Arguments Unread {A} what rest.

#[global] Instance scan_ret : MRet scan := λ A a, Scanned a.
#[global] Instance scan_bind : MBind scan := λ A B f m,
  match m with
  | Scanned a => f a
  | Short => Short
  | Wrong => Wrong
  | Unread what rest => Unread what rest
  end.

Definition scan_value {A} (m : scan A) : option A :=
  match m with Scanned a => Some a | _ => None end.

(** A value, or else what is wrong. *)
Definition scan_or {A} (m : scan A) (o : option A) : scan A :=
  match o with Some a => Scanned a | None => m end.

(** The values of a dictionary of a cross-reference stream; a key that occurs twice has
    none. *)
Definition dictionary_value (dictionary : PdfDictionary) (key : string) : option SyntaxObject :=
  match key_values key dictionary with [value] => Some (located_value value) | _ => None end.

Definition stream_dictionary (dictionary : PdfDictionary) : bool :=
  is_name_of "XRef" (dictionary_value dictionary "Type")
  && valid_stream_size (dictionary_value dictionary "Size")
  && valid_stream_widths (dictionary_value dictionary "W")
  && valid_stream_length (dictionary_value dictionary "Length").

Section scanner.
Variables (source : SourceIdentity) (startxref source_len stop : Z) (more : bool).

(** The bytes end here. *)
Definition cut {A} : scan A := if more then Short else Wrong.

Definition scan_separator (rest : list Z) : scan (list Z) :=
  let '(blanks, r) := run_of is_horizontal_whitespace rest in
  if bool_decide (r = []) then cut
  else if bool_decide (blanks = []) then Wrong else Scanned r.

Definition scan_line_break (rest : list Z) : scan (list Z) :=
  match (run_of is_horizontal_whitespace rest).2 with
  | [] => cut
  | _ => scan_or Wrong (read_line_break rest)
  end.

Definition scan_decimal (rest : list Z) : scan (Z * list Z) :=
  let '(digits, r) := run_of is_ascii_digit rest in
  if bool_decide (rest = []) then cut
  else if bool_decide (digits = []) || (10 <? length digits)%nat then Wrong
  else if bool_decide (r = []) && more then Short
  else Scanned (digits_value digits, r).

Fixpoint scan_rows (n : nat) (number : Z) (rest : list Z) : scan (list XrefEntry * list Z) :=
  match n with
  | O => Scanned ([], rest)
  | S n =>
      entry ← (if (length rest <? 20)%nat then cut
               else scan_or Wrong (read_row source_len number (take 20 rest)));
      '(entries, r) ← scan_rows n (number + 1) (drop 20 rest);
      Scanned (entry :: entries, r)
  end.

Definition scan_subsection_header (previous : option Z) (rest : list Z) : scan (Z * Z * list Z) :=
  '(first, r) ← scan_decimal rest;
  r ← scan_separator r;
  '(count, r) ← scan_decimal r;
  if count =? 0 then Wrong
  else
    r ← scan_line_break r;
    if (u32_max + 1 <? first + count) || from_option (λ previous, first <? previous) false previous
    then Wrong else Scanned (first, first + count, r).

Definition scan_subsection (previous : option Z) (rest : list Z)
    : scan (list XrefEntry * Z * list Z) :=
  '(first, end_, r) ← scan_subsection_header previous rest;
  '(rows, r) ← scan_rows (Z.to_nat (end_ - first)) first r;
  Scanned (rows, end_, r).

Fixpoint scan_subsections (fuel : nat) (previous : option Z) (rest : list Z)
    : scan (list XrefEntry * list Z) :=
  match fuel with
  | O => Wrong
  | S fuel =>
      rest ← scan_or Short (read_trivia more false rest);
      if bool_decide (rest = []) then cut
      else
        trailer ← scan_or Short (read_trailer_keyword more rest);
        if trailer : bool then
          match previous with None => Wrong | Some _ => Scanned ([], drop 7 rest) end
        else
          '(rows, end_, r) ← scan_subsection previous rest;
          '(entries, r) ← scan_subsections fuel (Some end_) r;
          Scanned (rows ++ entries, r)
  end.

Definition scan_object (rest : list Z) : scan (Located SyntaxObject * list Z) :=
  scan_or (Unread ObjectPart rest) (read_object source stop more rest).

(** The dictionary and the section it ends. *)
Definition scan_trailer (entries : list XrefEntry) (rest : list Z)
    : scan ParsedTraditionalSection :=
  if bool_decide (rest = []) then cut
  else
    '(object, _) ← scan_object rest;
    scan_or Wrong (trailer_of object ≫= read_trailer startxref entries).

Definition scan_word (word rest : list Z) : scan (ByteSpan * list Z) :=
  scan_or (Unread (KeywordPart word) rest) (read_expected source stop more word rest).

(** Bytes that begin like an indirect object, instead of a table: the header, the
    dictionary of a cross-reference stream, and the keyword of a stream. No section. *)
Definition scan_indirect {A} (rest : list Z) : scan A :=
  '(number, r) ← scan_object rest;
  if from_option (λ value, value =? 0) true (unsigned_object u32_max (located_value number))
  then Wrong
  else
    '(generation, r) ← scan_object r;
    if bool_decide (unsigned_object u16_max (located_value generation) = None) then Wrong
    else
      '(_, r) ← scan_word (octets "obj") r;
      '(object, r) ← scan_object r;
      match located_value object with
      | Dictionary dictionary =>
          if stream_dictionary dictionary then
            '(_, r) ← scan_word (octets "stream") r;
            _ ← scan_or (Unread LinePart r) (read_line_ending stop r);
            Wrong
          else Wrong
      | _ => Wrong
      end.

(** Bytes that are no table. *)
Definition scan_target {A} (rest : list Z) : scan A :=
  match rest with
  | byte :: _ =>
      if is_ascii_digit byte || (byte =? 43) || (byte =? 45) then scan_indirect rest else Wrong
  | [] => Wrong
  end.

Definition scan_section (rest : list Z) : scan ParsedTraditionalSection :=
  if (length rest <? 4)%nat
     && (negb more || bool_decide (take (length rest) (octets "xref") = rest))
  then cut
  else if negb (bool_decide (take 4 rest = octets "xref")) then scan_target rest
  else
    r ← scan_line_break (drop 4 rest);
    '(entries, r) ← scan_subsections (S (length rest)) None r;
    r ← scan_or Short (read_trivia more false r);
    scan_trailer entries r.
End scanner.

(** ** Growth *)

Lemma prefix_grows {A} (n : nat) (rest ext : list A) :
  (n ≤ length rest)%nat → take n (rest ++ ext) = take n rest ∧ drop n (rest ++ ext) = drop n rest ++ ext.
Proof. intros. split; [by rewrite take_app_le|by rewrite drop_app_le]. Qed.

Lemma read_separator_grows rest r ext :
  read_separator rest = Some r → read_separator (rest ++ ext) = Some (r ++ ext).
Proof.
  unfold read_separator. destruct (run_of _ rest) as [run r'] eqn:Hr.
  destruct (_ || _) eqn:Hc; [done|]. intros [= ->]. apply orb_false_iff in Hc as [H1 H2].
  apply bool_decide_eq_false in H1, H2. rewrite (run_of_grows _ _ _ _ ext Hr H2).
  rewrite bool_decide_eq_false_2 by done. rewrite bool_decide_eq_false_2; [done|].
  by intros [-> _]%app_eq_nil.
Qed.

Lemma read_line_break_grows rest r ext :
  read_line_break rest = Some r → r ≠ [] → read_line_break (rest ++ ext) = Some (r ++ ext).
Proof.
  unfold read_line_break. destruct (run_of _ rest) as [run [|b l]] eqn:Hr; [done|].
  rewrite (run_of_grows _ _ _ _ ext Hr) by done. cbn [snd app].
  destruct (b =? 10); [by intros [= ->]|]. destruct (b =? 13); [|done].
  destruct l as [|b' l]; [by intros [= <-]|]. cbn [head app tail].
  case_bool_decide; by intros [= <-].
Qed.

Lemma read_trailer_keyword_grows rest ext b more' :
  read_trailer_keyword true rest = Some b → read_trailer_keyword more' (rest ++ ext) = Some b.
Proof.
  unfold read_trailer_keyword. destruct (length rest <? 7)%nat eqn:Hlen.
  - apply Nat.ltb_lt in Hlen. case_bool_decide as Hp; [done|]. intros [= <-].
    assert (take (length rest) (rest ++ ext) = rest) as Hpre by apply take_app_length.
    destruct (length (rest ++ ext) <? 7)%nat eqn:Hlen'.
    + apply Nat.ltb_lt in Hlen'. rewrite bool_decide_eq_false_2; [done|]. intros Heq. apply Hp.
      rewrite <-Hpre at 2. rewrite <-Heq, take_take. f_equal. rewrite length_app. lia.
    + rewrite bool_decide_eq_false_2; [done|]. intros Heq. apply Hp.
      rewrite <-Heq, take_take, Nat.min_l by lia. apply Hpre.
  - apply Nat.ltb_ge in Hlen. destruct (prefix_grows 7 rest ext Hlen) as [Ht _].
    assert (length (rest ++ ext) <? 7 = false)%nat as ->
      by (apply Nat.ltb_ge; rewrite length_app; lia).
    rewrite Ht. case_bool_decide; [|done]. cbn [negb].
    destruct (rest !! 7%nat) eqn:H7; [|done]. by rewrite (lookup_app_l_Some _ _ _ _ H7).
Qed.

Section growth.
Variables (source : SourceIdentity) (startxref source_len stop : Z) (more' : bool) (ext : list Z).
Local Notation stop' := (stop + len ext).

Lemma read_decimal_grows rest v r :
  read_decimal true rest = Some (v, r) → read_decimal more' (rest ++ ext) = Some (v, r ++ ext).
Proof.
  unfold read_decimal. destruct (run_of _ rest) as [digits r'] eqn:Hr.
  destruct (_ || _) eqn:Hc; [done|]. intros [= <- <-]. rewrite !orb_false_iff, andb_false_iff in Hc.
  destruct Hc as [[H1 H2] [H3|]]; [|done]. apply bool_decide_eq_false in H1, H3.
  rewrite (run_of_grows _ _ _ _ ext Hr H3), H2. rewrite bool_decide_eq_false_2 by done.
  rewrite bool_decide_eq_false_2; [done|]. by intros [-> _]%app_eq_nil.
Qed.

Lemma read_rows_grows n number rest entries r :
  read_rows source_len n number rest = Some (entries, r) →
  read_rows source_len n number (rest ++ ext) = Some (entries, r ++ ext).
Proof.
  revert number rest entries. induction n as [|n IH]; intros number rest entries; simpl;
    [by intros [= <- <-]|].
  destruct (length rest <? 20)%nat eqn:Hlen; [done|]. apply Nat.ltb_ge in Hlen.
  assert (length (rest ++ ext) <? 20 = false)%nat as ->
    by (apply Nat.ltb_ge; rewrite length_app; lia).
  destruct (prefix_grows 20 rest ext Hlen) as [-> ->].
  destruct (read_row _ _ _) as [entry|]; [|done]. cbn [mbind option_bind].
  destruct (read_rows _ _ _ (drop 20 rest)) as [[entries' r']|] eqn:Hr; [|done].
  cbn [mbind option_bind]. intros [= <- <-]. by rewrite (IH _ _ _ Hr).
Qed.

Lemma read_rows_length n number rest entries r :
  read_rows source_len n number rest = Some (entries, r) → length rest = (20 * n + length r)%nat.
Proof.
  revert number rest entries. induction n as [|n IH]; intros number rest entries; simpl;
    [by intros [= <- <-]|].
  destruct (length rest <? 20)%nat eqn:Hlen; [done|]. apply Nat.ltb_ge in Hlen.
  destruct (read_row _ _ _); [|done]. cbn [mbind option_bind].
  destruct (read_rows _ _ _ (drop 20 rest)) as [[entries' r']|] eqn:Hr; [|done].
  cbn [mbind option_bind]. intros [= <- <-]. apply IH in Hr. rewrite length_drop in Hr. lia.
Qed.

Lemma read_decimal_length more rest v r :
  read_decimal more rest = Some (v, r) → (length r < length rest)%nat.
Proof.
  unfold read_decimal. destruct (run_of _ rest) as [digits r'] eqn:Hr.
  destruct (_ || _) eqn:Hc; [done|]. intros [= <- <-]. rewrite !orb_false_iff in Hc.
  destruct Hc as [[H1 _] _]. apply bool_decide_eq_false in H1. apply run_of_app in Hr as ->.
  rewrite length_app. destruct digits; [done|simpl; lia].
Qed.

Lemma read_separator_length rest r : read_separator rest = Some r → (length r < length rest)%nat.
Proof.
  unfold read_separator. destruct (run_of _ rest) as [blanks r'] eqn:Hr.
  destruct (_ || _) eqn:Hc; [done|]. intros [= <-]. rewrite orb_false_iff in Hc.
  destruct Hc as [H1 _]. apply bool_decide_eq_false in H1. apply run_of_app in Hr as ->.
  rewrite length_app. destruct blanks; [done|simpl; lia].
Qed.

Lemma read_line_break_length rest r : read_line_break rest = Some r → (length r < length rest)%nat.
Proof.
  unfold read_line_break. destruct (run_of _ rest) as [blanks [|b l]] eqn:Hr; [done|].
  apply run_of_app in Hr as ->. rewrite length_app. cbn [snd].
  destruct (b =? 10); [intros [= <-]; simpl; lia|]. destruct (b =? 13); [|done].
  case_bool_decide; intros [= <-]; destruct l; simpl; lia.
Qed.

Lemma read_subsection_header_length more previous rest first end_ r :
  read_subsection_header more previous rest = Some (first, end_, r) →
  (length r < length rest)%nat ∧ first < end_ ∧ end_ ≤ u32_max + 1 ∧ 0 ≤ first ∧
  from_option (λ p, p ≤ first) True previous.
Proof.
  unfold read_subsection_header.
  destruct (read_decimal more rest) as [[f r1]|] eqn:H1; [|done]. cbn [mbind option_bind].
  destruct (read_separator r1) as [r2|] eqn:H2; [|done]. cbn [mbind option_bind].
  destruct (read_decimal more r2) as [[c r3]|] eqn:H3; [|done]. cbn [mbind option_bind].
  destruct (c =? 0) eqn:Hc; [done|]. destruct (read_line_break r3) as [r4|] eqn:H4; [|done].
  cbn [mbind option_bind]. destruct (_ || _) eqn:He; [done|]. intros [= <- <- <-].
  apply orb_false_iff in He as [He Hp].
  assert (∀ rest v r, read_decimal more rest = Some (v, r) → 0 ≤ v) as Hpos.
  { clear. intros rest v r. unfold read_decimal. destruct (run_of _ rest) as [digits r'] eqn:Hr.
    destruct (_ || _); [done|]. intros [= <- <-]. apply run_of_class in Hr as [Hd _].
    unfold digits_value. assert (∀ m, 0 ≤ m → 0 ≤ foldl (λ m d, 10 * m + (d - 48)) m digits) as Hf.
    { induction Hd as [|d l Hd Hl IH]; intros m Hm; simpl; [done|]. apply IH.
      unfold is_ascii_digit in Hd. lia. }
    by apply Hf. }
  pose proof (Hpos _ _ _ H1). pose proof (Hpos _ _ _ H3).
  apply read_decimal_length in H1, H3. apply read_separator_length in H2.
  apply read_line_break_length in H4. checked_facts. split_and!; try lia.
  destruct previous; simpl in *; [|done]. checked_facts. lia.
Qed.

Lemma read_subsection_header_grows previous rest first end_ r :
  read_subsection_header true previous rest = Some (first, end_, r) → r ≠ [] →
  read_subsection_header more' previous (rest ++ ext) = Some (first, end_, r ++ ext).
Proof.
  unfold read_subsection_header.
  destruct (read_decimal true rest) as [[f r1]|] eqn:H1; [|done]. cbn [mbind option_bind].
  destruct (read_separator r1) as [r2|] eqn:H2; [|done]. cbn [mbind option_bind].
  destruct (read_decimal true r2) as [[c r3]|] eqn:H3; [|done]. cbn [mbind option_bind].
  destruct (c =? 0) eqn:Hc; [done|]. destruct (read_line_break r3) as [r4|] eqn:H4; [|done].
  cbn [mbind option_bind]. destruct (_ || _) eqn:He; [done|]. intros [= <- <- <-] Hr.
  rewrite (read_decimal_grows _ _ _ H1). cbn [mbind option_bind].
  rewrite (read_separator_grows _ _ _ H2). cbn [mbind option_bind].
  rewrite (read_decimal_grows _ _ _ H3). cbn [mbind option_bind]. rewrite Hc.
  rewrite (read_line_break_grows _ _ _ H4 Hr). cbn [mbind option_bind]. by rewrite He.
Qed.

Lemma read_subsections_grows n n' previous rest entries r :
  (n ≤ n')%nat →
  read_subsections source_len true n previous rest = Some (entries, r) →
  read_subsections source_len more' n' previous (rest ++ ext) = Some (entries, r ++ ext).
Proof.
  revert n' previous rest entries r.
  induction n as [|n IH]; intros n' previous rest entries r Hn; [done|].
  destruct n' as [|n']; [lia|]. cbn [read_subsections].
  destruct (read_trivia true false rest) as [r1|] eqn:H1; [|done]. cbn [mbind option_bind].
  case_bool_decide as Hne; [done|]. rewrite (read_trivia_grows _ more' _ _ _ ext H1 Hne).
  cbn [mbind option_bind]. rewrite bool_decide_eq_false_2 by (by intros [-> _]%app_eq_nil).
  destruct (read_trailer_keyword true r1) as [b|] eqn:H2; [|done]. cbn [mbind option_bind].
  rewrite (read_trailer_keyword_grows _ ext _ more' H2). cbn [mbind option_bind]. destruct b.
  - destruct previous; [|done]. intros [= <- <-]. f_equal. f_equal.
    apply prefix_grows. unfold read_trailer_keyword in H2.
    destruct (length r1 <? 7)%nat eqn:Hl; [by case_bool_decide|]. by apply Nat.ltb_ge in Hl.
  - destruct (read_subsection_header true previous r1) as [[[first end_] r2]|] eqn:H3; [|done].
    cbn [mbind option_bind].
    destruct (read_rows _ _ _ r2) as [[rows r3]|] eqn:H4; [|done]. cbn [mbind option_bind].
    destruct (read_subsections _ _ _ _ r3) as [[entries' r4]|] eqn:H5; [|done].
    cbn [mbind option_bind]. intros [= <- <-].
    pose proof (read_subsection_header_length _ _ _ _ _ _ H3) as (_&Hlt&_).
    pose proof (read_rows_length _ _ _ _ _ H4) as Hlen.
    rewrite (read_subsection_header_grows _ _ _ _ _ H3) by (intros ->; simpl in Hlen; lia).
    cbn [mbind option_bind]. rewrite (read_rows_grows _ _ _ _ _ H4). cbn [mbind option_bind].
    rewrite (IH n' _ _ _ _ ltac:(lia) H5). done.
Qed.

(** A section read from a window that may continue is read from every longer window
    of the source. *)
Lemma read_section_grows rest section :
  read_section source startxref source_len stop true rest = Some section →
  read_section source startxref source_len stop' more' (rest ++ ext) = Some section.
Proof.
  unfold read_section. case_bool_decide as Hx; [|done]. cbn [negb].
  assert (4 ≤ length rest)%nat as Hl.
  { assert (length (take 4 rest) = 4)%nat as Ht by (by rewrite Hx). rewrite length_take in Ht. lia. }
  destruct (prefix_grows 4 rest ext Hl) as [-> ->]. rewrite Hx, bool_decide_eq_true_2 by done.
  cbn [negb]. destruct (read_line_break (drop 4 rest)) as [r1|] eqn:H1; [|done].
  cbn [mbind option_bind].
  destruct (read_subsections _ _ _ _ r1) as [[entries r2]|] eqn:H2; [|done]. cbn [mbind option_bind].
  rewrite (read_line_break_grows _ _ _ H1) by (by intros ->). cbn [mbind option_bind].
  assert (S (length rest) ≤ S (length (rest ++ ext)))%nat as Hfuel by (rewrite length_app; lia).
  rewrite (read_subsections_grows _ _ _ _ _ _ Hfuel H2). cbn [mbind option_bind].
  destruct (read_trivia true false r2) as [r3|] eqn:H3; [|done]. cbn [mbind option_bind].
  destruct (read_object _ _ _ r3) as [[trailer r4]|] eqn:H4; [|done]. cbn [mbind option_bind].
  rewrite (read_trivia_grows _ more' _ _ _ ext H3) by (by intros ->). cbn [mbind option_bind].
  by rewrite (read_object_grows _ _ more' ext _ _ _ H4).
Qed.
End growth.

(** ** Decided windows

    A scan has the value that the reader reads. *)

Lemma scan_value_bind {A B} (m : scan A) (f : A → scan B) :
  scan_value (m ≫= f) = scan_value m ≫= λ a, scan_value (f a).
Proof. by destruct m. Qed.

Lemma scan_value_or {A} (m : scan A) o : scan_value m = None → scan_value (scan_or m o) = o.
Proof. by destruct o. Qed.

Lemma scan_value_cut {A} more : scan_value (cut (A := A) more) = None.
Proof. by destruct more. Qed.

Ltac scan_cases := repeat first [rewrite scan_value_cut | case_bool_decide | done].

Section values.
Variables (source : SourceIdentity) (startxref source_len stop : Z) (more : bool).

Lemma scan_separator_value rest : scan_value (scan_separator more rest) = read_separator rest.
Proof.
  unfold scan_separator, read_separator. destruct (run_of _ rest) as [blanks r].
  repeat case_bool_decide; by rewrite ?scan_value_cut.
Qed.

Lemma scan_line_break_value rest : scan_value (scan_line_break more rest) = read_line_break rest.
Proof.
  unfold scan_line_break. destruct (run_of is_horizontal_whitespace rest).2 eqn:Hr.
  - rewrite scan_value_cut. unfold read_line_break. by rewrite Hr.
  - by apply scan_value_or.
Qed.

Lemma scan_decimal_value rest : scan_value (scan_decimal more rest) = read_decimal more rest.
Proof.
  unfold scan_decimal, read_decimal. destruct (run_of _ rest) as [digits r] eqn:Hr.
  case_bool_decide as Hn.
  - subst rest. injection Hr as <- <-. by rewrite scan_value_cut.
  - destruct (_ || (10 <? _)%nat); [done|]. by destruct (_ && _).
Qed.

Lemma scan_rows_value n number rest :
  scan_value (scan_rows source_len more n number rest) = read_rows source_len n number rest.
Proof.
  revert number rest. induction n as [|n IH]; intros number rest; [done|]. cbn [scan_rows read_rows].
  rewrite scan_value_bind. destruct (length rest <? 20)%nat; [by rewrite scan_value_cut|].
  rewrite scan_value_or by done. destruct (read_row _ _ _); [|done]. cbn [mbind option_bind].
  rewrite scan_value_bind, IH. by destruct (read_rows _ _ _ _) as [[]|].
Qed.

Lemma scan_header_value previous rest :
  scan_value (scan_subsection_header more previous rest) = read_subsection_header more previous rest.
Proof.
  unfold scan_subsection_header, read_subsection_header. rewrite scan_value_bind, scan_decimal_value.
  destruct (read_decimal more rest) as [[first r1]|]; [|done]. cbn [mbind option_bind].
  rewrite scan_value_bind, scan_separator_value.
  destruct (read_separator r1) as [r2|]; [|done]. cbn [mbind option_bind].
  rewrite scan_value_bind, scan_decimal_value.
  destruct (read_decimal more r2) as [[count r3]|]; [|done]. cbn [mbind option_bind].
  destruct (count =? 0); [done|]. rewrite scan_value_bind, scan_line_break_value.
  destruct (read_line_break r3); [|done]. cbn [mbind option_bind]. by destruct (_ || _).
Qed.

Lemma scan_subsection_value previous rest :
  scan_value (scan_subsection source_len more previous rest) =
  ('(first, end_, r) ← read_subsection_header more previous rest;
   '(rows, r) ← read_rows source_len (Z.to_nat (end_ - first)) first r;
   Some (rows, end_, r)).
Proof.
  unfold scan_subsection. rewrite scan_value_bind, scan_header_value.
  destruct (read_subsection_header _ _ _) as [[[first end_] r]|]; [|done]. cbn [mbind option_bind].
  rewrite scan_value_bind, scan_rows_value. by destruct (read_rows _ _ _ _) as [[]|].
Qed.

Lemma scan_subsections_value fuel previous rest :
  scan_value (scan_subsections source_len more fuel previous rest) =
  read_subsections source_len more fuel previous rest.
Proof.
  revert previous rest. induction fuel as [|fuel IH]; intros previous rest; [done|].
  cbn [scan_subsections read_subsections]. rewrite scan_value_bind, scan_value_or by done.
  destruct (read_trivia _ _ _) as [r1|]; [|done]. cbn [mbind option_bind].
  case_bool_decide; [by rewrite scan_value_cut|]. rewrite scan_value_bind, scan_value_or by done.
  destruct (read_trailer_keyword _ _) as [[]|]; [| |done]; cbn [mbind option_bind].
  { by destruct previous. }
  rewrite scan_value_bind, scan_subsection_value.
  destruct (read_subsection_header _ _ _) as [[[first end_] r2]|]; [|done]. cbn [mbind option_bind].
  destruct (read_rows _ _ _ _) as [[rows r3]|]; [|done]. cbn [mbind option_bind].
  rewrite scan_value_bind, IH. by destruct (read_subsections _ _ _ _ _) as [[]|].
Qed.

Lemma scan_trailer_value entries rest :
  scan_value (scan_trailer source startxref stop more entries rest) =
  ('(object, _) ← read_object source stop more rest;
   trailer ← trailer_of object;
   read_trailer startxref entries trailer).
Proof.
  unfold scan_trailer, scan_object. case_bool_decide as Hr.
  - subst rest. by rewrite scan_value_cut.
  - rewrite scan_value_bind, scan_value_or by done.
    destruct (read_object _ _ _ _) as [[object r]|]; [|done]. cbn [mbind option_bind].
    by rewrite scan_value_or.
Qed.

Lemma scan_target_value {A} rest : scan_value (scan_target source stop more rest) = None (A := A).
Proof.
  unfold scan_target. destruct rest as [|byte rest]; [done|]. destruct (_ || _); [|done].
  unfold scan_indirect, scan_object, scan_word.
  repeat (rewrite scan_value_bind; rewrite ?scan_value_or by done;
    match goal with |- ?o ≫= _ = None => destruct o as [|]; [|done] end; cbn [mbind option_bind];
    repeat match goal with
    | a : (_ * _)%type |- _ => destruct a
    | |- scan_value (if ?b then Wrong else _) = None => destruct b; [done|]
    | |- scan_value (match located_value ?o with _ => _ end) = None => destruct (located_value o); try done
    | |- scan_value (if ?b then _ else Wrong) = None => destruct b; [|done]
    end).
  done.
Qed.

Lemma scan_section_value rest :
  scan_value (scan_section source startxref source_len stop more rest) =
  read_section source startxref source_len stop more rest.
Proof.
  unfold scan_section, read_section. destruct ((length rest <? 4)%nat && _) eqn:Hc.
  { apply andb_true_iff in Hc as [Hl%Nat.ltb_lt _]. rewrite scan_value_cut.
    rewrite bool_decide_eq_false_2; [done|]. intros Heq%(f_equal length).
    rewrite length_take in Heq. change (length (octets "xref")) with 4%nat in Heq. lia. }
  clear Hc. case_bool_decide; cbn [negb]; [|by rewrite scan_target_value].
  rewrite scan_value_bind, scan_line_break_value.
  destruct (read_line_break _) as [r1|]; [|done]. cbn [mbind option_bind].
  rewrite scan_value_bind, scan_subsections_value.
  destruct (read_subsections _ _ _ _ _) as [[entries r2]|]; [|done]. cbn [mbind option_bind].
  rewrite scan_value_bind, scan_value_or by done.
  destruct (read_trivia _ _ _) as [r3|]; [|done]. cbn [mbind option_bind]. apply scan_trailer_value.
Qed.
End values.

(** What is wrong in a window that may continue is wrong in every longer one. *)

Lemma run_of_longer class rest ext :
  (length (run_of class rest).1 ≤ length (run_of class (rest ++ ext)).1)%nat.
Proof.
  induction rest as [|b l IH]; simpl; [lia|]. destruct (class b); [|done].
  destruct (run_of class l), (run_of class (l ++ ext)). simpl in *. lia.
Qed.

Lemma run_of_head class rest r ext :
  rest ≠ [] → run_of class rest = ([], r) → run_of class (rest ++ ext) = ([], rest ++ ext).
Proof.
  destruct rest as [|b l]; [done|]. intros _. simpl. destruct (class b); [|done].
  by destruct (run_of class l).
Qed.

Section wrong.
Variables (source : SourceIdentity) (startxref source_len stop : Z) (more' : bool) (ext : list Z).
Local Notation stop' := (stop + len ext).

Lemma scan_decimal_wrong rest :
  scan_decimal true rest = Wrong → read_decimal more' (rest ++ ext) = None.
Proof.
  unfold scan_decimal, read_decimal. destruct (run_of is_ascii_digit rest) as [digits r] eqn:Hr.
  case_bool_decide as Hn; [done|]. destruct (_ || (10 <? _)%nat) eqn:Hc; [|by destruct (_ && _)].
  intros _. apply orb_true_iff in Hc as [Hd%bool_decide_eq_true|Hl%Nat.ltb_lt].
  - subst digits. rewrite (run_of_head _ _ _ _ Hn Hr). done.
  - pose proof (run_of_longer is_ascii_digit rest ext) as Hlong. rewrite Hr in Hlong.
    destruct (run_of is_ascii_digit (rest ++ ext)) as [digits' r']. simpl in Hlong.
    assert (10 <? length digits' = true)%nat as -> by (apply Nat.ltb_lt; lia). by rewrite orb_true_r.
Qed.

Lemma scan_separator_wrong rest :
  scan_separator true rest = Wrong → read_separator (rest ++ ext) = None.
Proof.
  unfold scan_separator, read_separator. destruct (run_of _ rest) as [blanks r] eqn:Hr.
  case_bool_decide as Hn; [done|]. case_bool_decide; [|done]. intros _. subst blanks.
  assert (rest ≠ []) as Hne by (intros ->; simpl in Hr; congruence).
  by rewrite (run_of_head _ _ _ _ Hne Hr).
Qed.

Lemma scan_line_break_wrong rest :
  scan_line_break true rest = Wrong → read_line_break (rest ++ ext) = None.
Proof.
  unfold scan_line_break, read_line_break. destruct (run_of _ rest) as [blanks [|b l]] eqn:Hr; [done|].
  rewrite (run_of_grows _ _ _ _ ext Hr) by done. cbn [snd app].
  destruct (b =? 10); [done|]. by destruct (b =? 13).
Qed.

Lemma read_line_break_some rest r :
  read_line_break rest = Some r → is_Some (read_line_break (rest ++ ext)).
Proof.
  unfold read_line_break. destruct (run_of _ rest) as [blanks [|b l]] eqn:Hr; [done|].
  rewrite (run_of_grows _ _ _ _ ext Hr) by done. cbn [snd app].
  destruct (b =? 10); [done|]. by destruct (b =? 13).
Qed.

Lemma scan_rows_wrong n number rest :
  scan_rows source_len true n number rest = Wrong →
  rest ≠ [] ∧ read_rows source_len n number (rest ++ ext) = None.
Proof.
  revert number rest. induction n as [|n IH]; intros number rest; [done|]. cbn [scan_rows read_rows].
  destruct (length rest <? 20)%nat eqn:Hlen; [done|]. apply Nat.ltb_ge in Hlen.
  assert (length (rest ++ ext) <? 20 = false)%nat as ->
    by (apply Nat.ltb_ge; rewrite length_app; lia).
  destruct (prefix_grows 20 rest ext Hlen) as [-> ->].
  assert (rest ≠ []) as Hne by (intros ->; simpl in Hlen; lia).
  destruct (read_row _ _ _); [|done]. cbn [scan_or mbind option_bind scan_bind].
  destruct (scan_rows _ _ _ _ _) as [[]| | |] eqn:Hs; try done. intros _. split; [done|].
  by rewrite (proj2 (IH _ _ Hs)).
Qed.

Lemma scanned_value {A} (m : scan A) a : m = Scanned a → scan_value m = Some a.
Proof. by intros ->. Qed.

Lemma scan_header_wrong previous rest :
  scan_subsection_header true previous rest = Wrong →
  read_subsection_header more' previous (rest ++ ext) = None.
Proof.
  unfold scan_subsection_header, read_subsection_header.
  destruct (scan_decimal true rest) as [[first r1]| | |] eqn:H1; [|done| |done].
  2: { by rewrite scan_decimal_wrong. }
  apply scanned_value in H1. rewrite scan_decimal_value in H1.
  rewrite (read_decimal_grows more' ext _ _ _ H1). cbn [mbind option_bind scan_bind].
  destruct (scan_separator true r1) as [r2| | |] eqn:H2; [|done| |done].
  2: { by rewrite scan_separator_wrong. }
  apply scanned_value in H2. rewrite scan_separator_value in H2.
  rewrite (read_separator_grows _ _ ext H2). cbn [mbind option_bind scan_bind].
  destruct (scan_decimal true r2) as [[count r3]| | |] eqn:H3; [|done| |done].
  2: { by rewrite scan_decimal_wrong. }
  apply scanned_value in H3. rewrite scan_decimal_value in H3.
  rewrite (read_decimal_grows more' ext _ _ _ H3). cbn [mbind option_bind scan_bind].
  destruct (count =? 0); [done|].
  destruct (scan_line_break true r3) as [r4| | |] eqn:H4; [|done| |done].
  2: { by rewrite scan_line_break_wrong. }
  apply scanned_value in H4. rewrite scan_line_break_value in H4.
  apply read_line_break_some in H4 as [r4' ->]. cbn [mbind option_bind scan_bind].
  by destruct (_ || _).
Qed.

Lemma scan_subsection_wrong previous rest :
  scan_subsection source_len true previous rest = Wrong →
  ('(first, end_, r) ← read_subsection_header more' previous (rest ++ ext);
   '(rows, r) ← read_rows source_len (Z.to_nat (end_ - first)) first r;
   Some (rows, end_, r)) = None.
Proof.
  unfold scan_subsection.
  destruct (scan_subsection_header true previous rest) as [[[first end_] r1]| | |] eqn:H1; [|done| |done].
  2: { by rewrite scan_header_wrong. }
  apply scanned_value in H1. rewrite scan_header_value in H1. cbn [mbind scan_bind].
  destruct (scan_rows _ _ _ _ r1) as [[rows r2]| | |] eqn:H2; try done. intros _.
  apply scan_rows_wrong in H2 as [Hne H2].
  rewrite (read_subsection_header_grows more' ext _ _ _ _ _ H1 Hne). cbn [mbind option_bind].
  by rewrite H2.
Qed.

Lemma scan_subsections_wrong n n' previous rest :
  (length rest < n)%nat → scan_subsections source_len true n previous rest = Wrong →
  read_subsections source_len more' n' previous (rest ++ ext) = None.
Proof.
  revert n' previous rest. induction n as [|n IH]; intros n' previous rest Hn; [lia|].
  destruct n' as [|n']; [done|]. cbn [scan_subsections read_subsections].
  destruct (read_trivia true false rest) as [r1|] eqn:H1; [|done]. cbn [scan_or mbind scan_bind].
  case_bool_decide as Hne; [done|]. rewrite (read_trivia_grows _ more' _ _ _ ext H1 Hne).
  cbn [mbind option_bind]. rewrite bool_decide_eq_false_2 by (by intros [-> _]%app_eq_nil).
  destruct (read_trailer_keyword true r1) as [b|] eqn:H2; [|done]. cbn [scan_or mbind scan_bind].
  rewrite (read_trailer_keyword_grows _ ext _ more' H2). cbn [mbind option_bind].
  destruct b; [by destruct previous|].
  pose proof (scan_subsection_wrong previous r1) as Hw.
  pose proof (scan_subsection_value source_len true previous r1) as Hv.
  destruct (scan_subsection source_len true previous r1) as [[[rows end_] r2]| | |]; [|done| |done].
  2: { intros _. specialize (Hw eq_refl).
       destruct (read_subsection_header _ _ _) as [[[f e] r]|]; [|done]. cbn [mbind option_bind] in *.
       by destruct (read_rows _ _ _ _) as [[]|]. }
  cbn [mbind scan_bind scan_value] in *.
  destruct (read_subsection_header true previous r1) as [[[f e] r]|] eqn:H3; [|done].
  cbn [mbind option_bind] in Hv. destruct (read_rows _ _ _ r) as [[rows' r']|] eqn:H4; [|done].
  injection Hv as <- <- <-.
  destruct (scan_subsections _ _ _ _ r2) as [[]| | |] eqn:H5; try done. intros _.
  pose proof (read_subsection_header_length _ _ _ _ _ _ H3) as (Hl&Hlt&_).
  pose proof (read_rows_length _ _ _ _ _ _ H4) as Hlen. apply read_trivia_length in H1.
  rewrite (read_subsection_header_grows more' ext _ _ _ _ _ H3) by (intros ->; simpl in Hlen; lia).
  cbn [mbind option_bind]. rewrite (read_rows_grows source_len ext _ _ _ _ _ H4). cbn [mbind option_bind].
  rewrite (IH n' (Some end_) r2); [done|lia|done].
Qed.

(** Only the trailer, and what is no table, are up to the parser of objects. *)
Definition bytes_decide {A} (m : scan A) : Prop := ∀ what r, m ≠ Unread what r.

Lemma bytes_decide_bind {A B} (m : scan A) (f : A → scan B) :
  bytes_decide m → (∀ a, bytes_decide (f a)) → bytes_decide (m ≫= f).
Proof. intros Hm Hf. destruct m; [apply Hf|done..|by destruct (Hm what rest)]. Qed.

Lemma cut_decides {A} more : bytes_decide (cut (A := A) more).
Proof. by destruct more. Qed.

Lemma scan_subsections_decide more n previous rest :
  bytes_decide (scan_subsections source_len more n previous rest).
Proof.
  assert (∀ rest, bytes_decide (scan_decimal more rest)) as Hdecimal.
  { intros r. unfold scan_decimal. destruct (run_of _ r).
    repeat (case_match; try done; try apply cut_decides). }
  assert (∀ rest, bytes_decide (scan_separator more rest)) as Hseparator.
  { intros r. unfold scan_separator. destruct (run_of _ r).
    repeat (case_match; try done; try apply cut_decides). }
  assert (∀ rest, bytes_decide (scan_line_break more rest)) as Hbreak.
  { intros r. unfold scan_line_break. case_match; [apply cut_decides|]. by destruct (read_line_break r). }
  assert (∀ n number rest, bytes_decide (scan_rows source_len more n number rest)) as Hrows.
  { clear. intros n. induction n as [|n IH]; intros number rest; [done|]. cbn [scan_rows].
    apply bytes_decide_bind.
    - destruct (_ <? 20)%nat; [apply cut_decides|]. by destruct (read_row _ _ _).
    - intros entry. apply bytes_decide_bind; [apply IH|]. by intros []. }
  revert previous rest. induction n as [|n IH]; intros previous rest; [done|]. cbn [scan_subsections].
  apply bytes_decide_bind; [by destruct (read_trivia _ _ _)|]. intros r1.
  case_bool_decide; [apply cut_decides|].
  apply bytes_decide_bind; [by destruct (read_trailer_keyword _ _)|]. intros []; [by destruct previous|].
  apply bytes_decide_bind.
  - unfold scan_subsection, scan_subsection_header.
    apply bytes_decide_bind; [|intros [[] ?]; apply bytes_decide_bind; [apply Hrows|by intros []]].
    apply bytes_decide_bind; [done|]. intros []. apply bytes_decide_bind; [done|]. intros ?.
    apply bytes_decide_bind; [done|]. intros []. destruct (_ =? 0); [done|].
    apply bytes_decide_bind; [done|]. intros ?. by destruct (_ || _).
  - intros [[] ?]. apply bytes_decide_bind; [apply IH|]. by intros [].
Qed.

(** What is decided about a section is final: bytes that are wrong stay wrong, and a
    part that no longer window spells leaves no section. *)
Lemma scan_section_final rest :
  let section' := read_section source startxref source_len stop' more' (rest ++ ext) in
  match scan_section source startxref source_len stop true rest with
  | Wrong => section' = None
  | Unread what r =>
      (what = ObjectPart → read_object source stop' more' (r ++ ext) = None) → section' = None
  | _ => True
  end.
Proof.
  cbv zeta. unfold scan_section, read_section.
  destruct ((length rest <? 4)%nat && _) eqn:Hc; [done|]. cbn [negb orb] in Hc.
  destruct (decide (take 4 rest = octets "xref")) as [Hx|Hx].
  2: { assert (take 4 (rest ++ ext) ≠ octets "xref") as Hx'.
       { apply andb_false_iff in Hc as [Hl%Nat.ltb_ge|Hp%bool_decide_eq_false].
         - by destruct (prefix_grows 4 rest ext Hl) as [-> _].
         - intros Heq. apply Hp. rewrite <-Heq, take_take.
           destruct (decide (length rest ≤ 4)%nat) as [Hl|Hl].
           + rewrite Nat.min_l by lia. apply take_app_length.
           + destruct Hx. rewrite <-Heq. by rewrite take_app_le by lia. }
       rewrite (bool_decide_eq_false_2 _ Hx'). rewrite (bool_decide_eq_false_2 _ Hx). cbn [negb].
       pose proof (scan_target_value (A := ParsedTraditionalSection) source stop true rest) as Hv.
       by destruct (scan_target _ _ _ _). }
  assert (4 ≤ length rest)%nat as Hl.
  { apply (f_equal length) in Hx. rewrite length_take in Hx.
    change (length (octets "xref")) with 4%nat in Hx. lia. }
  destruct (prefix_grows 4 rest ext Hl) as [-> ->].
  rewrite (bool_decide_eq_true_2 _ Hx). cbn [negb].
  destruct (scan_line_break true (drop 4 rest)) as [r1| | |what r] eqn:H1; [|done|..].
  2: { by rewrite (scan_line_break_wrong _ H1). }
  2: { unfold scan_line_break in H1. destruct (run_of _ _).2; [done|]. by destruct (read_line_break _). }
  pose proof (read_line_break_length (drop 4 rest) r1) as Hlength.
  apply scanned_value in H1. rewrite scan_line_break_value in H1. specialize (Hlength H1).
  rewrite length_drop in Hlength. cbn [mbind scan_bind].
  destruct (decide (r1 = [])) as [->|Hne]; [done|].
  rewrite (read_line_break_grows _ _ ext H1 Hne). cbn [mbind option_bind].
  destruct (scan_subsections source_len true (S (length rest)) None r1) as [[entries r2]| | |what r] eqn:H2.
  2: done.
  2: { by rewrite (scan_subsections_wrong (S (length rest)) _ _ r1) by (done || lia). }
  2: { by apply scan_subsections_decide in H2. }
  apply scanned_value in H2. rewrite scan_subsections_value in H2.
  assert (S (length rest) ≤ S (length (rest ++ ext)))%nat as Hfuel by (rewrite length_app; lia).
  rewrite (read_subsections_grows source_len more' ext _ _ _ _ _ _ Hfuel H2). cbn [mbind option_bind scan_bind].
  destruct (read_trivia true false r2) as [r3|] eqn:H3; [|done]. cbn [scan_or mbind scan_bind].
  unfold scan_trailer. clear Hc. case_bool_decide as Hr3; [exact I|].
  rewrite (read_trivia_grows _ more' _ _ _ ext H3 Hr3). cbn [mbind option_bind]. unfold scan_object.
  destruct (read_object source stop true r3) as [[object r4]|] eqn:H4; cbn [scan_or mbind scan_bind].
  - rewrite (read_object_grows _ _ more' ext _ _ _ H4). cbn [mbind option_bind].
    by destruct (trailer_of object ≫= _) eqn:Ht.
  - intros Hnone. by rewrite (Hnone eq_refl).
Qed.
End wrong.

(** ** Printed sections *)

(** [n] digits, with zeros in front. *)
Fixpoint padded (n : nat) (v : Z) : list Z :=
  match n with
  | O => []
  | S n => padded n (v / 10) ++ [48 + v mod 10]
  end.

Definition print_row (entry : XrefEntry) : list Z :=
  let '(field, kind) :=
    match row_kind entry with Free next_free => (next_free, 102) | InUse offset => (offset, 110) end in
  padded 10 field ++ [32] ++ padded 5 (row_generation entry) ++ [32; kind; 32; 10].

(** A subsection: its first object and its rows. *)
Definition print_subsection (subsection : Z * list XrefEntry) : list Z :=
  decimal 10 subsection.1 ++ [32] ++ decimal 10 (len subsection.2) ++ [10] ++
  flat_map print_row subsection.2.

Definition print_section (subsections : list (Z * list XrefEntry)) (trailer : list Z) : list Z :=
  octets "xref" ++ [10] ++ flat_map print_subsection subsections ++ octets "trailer" ++ [10] ++
  trailer.

(** Rows that a table can hold, numbered from [number] on. *)
Definition row_ok (source_len : Z) (entry : XrefEntry) : Prop :=
  0 ≤ row_generation entry ≤ u16_max ∧
  match row_kind entry with
  | Free next_free => 0 ≤ next_free ≤ u32_max
  | InUse offset => 0 ≤ offset < source_len
  end.

Fixpoint rows_ok (source_len number : Z) (entries : list XrefEntry) : Prop :=
  match entries with
  | [] => True
  | entry :: entries =>
      row_object_number entry = number ∧ row_ok source_len entry ∧
      rows_ok source_len (number + 1) entries
  end.

(** Subsections in order, without overlap, none empty. *)
Fixpoint subsections_ok (source_len previous : Z) (subsections : list (Z * list XrefEntry)) : Prop :=
  match subsections with
  | [] => True
  | (first, entries) :: subsections =>
      previous ≤ first ∧ entries ≠ [] ∧ first + len entries ≤ u32_max + 1 ∧
      rows_ok source_len first entries ∧
      subsections_ok source_len (first + len entries) subsections
  end.

Lemma padded_correct n v :
  0 ≤ v < 10 ^ Z.of_nat n →
  length (padded n v) = n ∧ Forall (λ d, is_ascii_digit d = true) (padded n v) ∧
  digits_value (padded n v) = v.
Proof.
  revert v. induction n as [|n IH]; intros v Hv; [simpl in *; split_and!; [done..|]; unfold digits_value; simpl; lia|].
  rewrite Nat2Z.inj_succ, Z.pow_succ_r in Hv by lia. cbn [padded].
  pose proof (Z.mod_pos_bound v 10 ltac:(lia)). pose proof (Z.div_mod v 10 ltac:(lia)).
  destruct (IH (v / 10)) as (Hl&Hd&Hval).
  { split; [apply Z.div_pos; lia|]. apply Z.div_lt_upper_bound; lia. }
  split_and!.
  - rewrite length_app, Hl. simpl. lia.
  - apply Forall_app. split; [done|]. constructor; [|done]. unfold is_ascii_digit. lia.
  - rewrite digits_value_snoc, Hval. lia.
Qed.

Lemma decimal_length fuel n : (length (decimal fuel n) ≤ fuel)%nat.
Proof.
  revert n. induction fuel as [|fuel IH]; intros n; [done|]. cbn [decimal].
  destruct (n <? 10); [simpl; lia|]. rewrite length_app. specialize (IH (n / 10)). simpl. lia.
Qed.

Lemma read_decimal_print more v b rest :
  0 ≤ v < 10 ^ 10 → is_ascii_digit b = false →
  read_decimal more (decimal 10 v ++ b :: rest) = Some (v, b :: rest).
Proof.
  intros Hv Hb. destruct (decimal_correct 10 v Hv ltac:(lia)) as (Hd&Hne&Hval).
  unfold read_decimal. rewrite run_of_stop by done. rewrite Hval.
  rewrite bool_decide_eq_false_2 by done. rewrite (bool_decide_eq_false_2 (b :: rest = [])) by done.
  pose proof (decimal_length 10 v). destruct (10 <? _)%nat eqn:Hl; [|done].
  apply Nat.ltb_lt in Hl. lia.
Qed.

Section print.
Variables (source : SourceIdentity) (startxref source_len stop : Z) (more : bool).
Hypothesis Hlen : source_len ≤ 10 ^ 10.

Lemma forallb_digits l : Forall (λ d, is_ascii_digit d = true) l → forallb is_ascii_digit l = true.
Proof. induction 1; simpl; [done|]. by rewrite H. Qed.

Lemma print_row_length entry : row_ok source_len entry → length (print_row entry) = 20%nat.
Proof.
  intros [Hg Hk]. unfold print_row.
  destruct (padded_correct 5 (row_generation entry)) as (Hlg&_).
  { change (10 ^ Z.of_nat 5) with 100000. assert (u16_max = 65535) by reflexivity. lia. }
  destruct (row_kind entry) as [f|f]; (destruct (padded_correct 10 f) as (Hlf&_);
    [change (10 ^ Z.of_nat 10) with (10 ^ 10); assert (u32_max = 4294967295) by reflexivity; lia|];
    rewrite !length_app, Hlf, Hlg; done).
Qed.

Lemma read_row_print entry :
  row_ok source_len entry →
  read_row source_len (row_object_number entry) (print_row entry) = Some entry.
Proof.
  intros Hok. pose proof Hok as [Hg Hk]. unfold print_row.
  destruct (padded_correct 5 (row_generation entry)) as (Hlg&Hdg&Hvg).
  { change (10 ^ Z.of_nat 5) with 100000. assert (u16_max = 65535) by reflexivity. lia. }
  assert (∀ f k, 0 ≤ f < 10 ^ 10 →
    let row := padded 10 f ++ [32] ++ padded 5 (row_generation entry) ++ [32; k; 32; 10] in
    take 10 row = padded 10 f ∧ bytes_between row 11 16 = padded 5 (row_generation entry) ∧
    row !! 17%nat = Some k ∧ row_shape row = true ∧ digits_value (padded 10 f) = f) as Hrow.
  { intros f k Hf row. destruct (padded_correct 10 f Hf) as (Hlf&Hdf&Hvf).
    subst row. set (g := padded 5 _) in *. clearbody g. set (w := padded 10 f) in *. clearbody w.
    do 10 (destruct w as [|? w]; [done|]). destruct w; [|done].
    do 5 (destruct g as [|? g]; [done|]). destruct g; [|done].
    split; [done|]. split; [done|]. split; [done|]. split; [|done].
    apply forallb_digits in Hdf, Hdg. unfold row_shape.
    cbn [app take]. rewrite Hdf.
    change (bytes_between _ 11 16) with [z9; z10; z11; z12; z13]. rewrite Hdg. done. }
  unfold read_row. destruct entry as [number generation kind]; cbn [row_kind row_generation row_object_number] in *.
  destruct kind as [f|f].
  - destruct (Hrow f 102) as (->&->&->&->&->).
    { assert (u32_max = 4294967295) by reflexivity. lia. }
    rewrite Hvg. cbn [negb orb]. destruct (u16_max <? generation) eqn:Hc; checked_facts; [lia|].
    cbn [mbind option_bind]. destruct (f <=? u32_max) eqn:Hc'; checked_facts; [done|lia].
  - destruct (Hrow f 110) as (->&->&->&->&->); [lia|].
    rewrite Hvg. cbn [negb orb]. destruct (u16_max <? generation) eqn:Hc; checked_facts; [lia|].
    cbn [mbind option_bind]. destruct (f <? source_len) eqn:Hc'; checked_facts; [done|lia].
Qed.

Lemma read_rows_print number entries rest :
  rows_ok source_len number entries →
  read_rows source_len (length entries) number (flat_map print_row entries ++ rest) =
    Some (entries, rest).
Proof.
  revert number. induction entries as [|entry entries IH]; intros number; [done|].
  intros (Hnum&Hrow&Hrows). cbn [flat_map read_rows length]. rewrite <-app_assoc.
  pose proof (print_row_length _ Hrow) as Hl.
  assert (length (print_row entry ++ flat_map print_row entries ++ rest) <? 20 = false)%nat as ->
    by (apply Nat.ltb_ge; rewrite length_app; lia).
  rewrite <-Hl. rewrite take_app_length, drop_app_length, <-Hnum, read_row_print by done.
  cbn [mbind option_bind]. rewrite Hnum. by rewrite IH.
Qed.

Lemma run_of_none class b (l : list Z) : class b = false → run_of class (b :: l) = ([], b :: l).
Proof. intros Hb. simpl. by rewrite Hb. Qed.

Lemma read_header_print previous first n rest :
  0 ≤ first → 0 < n → first + n ≤ u32_max + 1 → from_option (λ p, p ≤ first) True previous →
  read_subsection_header more previous (decimal 10 first ++ [32] ++ decimal 10 n ++ [10] ++ rest) =
    Some (first, first + n, rest).
Proof.
  intros Hf Hn He Hp. unfold read_subsection_header. assert (u32_max = 4294967295) by reflexivity.
  cbn [app]. rewrite read_decimal_print by (done || lia). cbn [mbind option_bind].
  destruct (decimal_correct 10 n ltac:(lia) ltac:(lia)) as (Hd&Hne&_).
  assert (read_separator (32 :: decimal 10 n ++ 10 :: rest) = Some (decimal 10 n ++ 10 :: rest)) as ->.
  { unfold read_separator. destruct (decimal 10 n) as [|d l]; [done|].
    apply Forall_cons in Hd as [Hd _]. cbn [app run_of].
    assert (is_horizontal_whitespace d = false) as ->
      by (unfold is_ascii_digit, is_horizontal_whitespace in *; lia). done. }
  cbn [mbind option_bind]. rewrite read_decimal_print by (done || lia). cbn [mbind option_bind].
  assert (n =? 0 = false) as -> by lia.
  assert (read_line_break (10 :: rest) = Some rest) as -> by done. cbn [mbind option_bind].
  assert (u32_max + 1 <? first + n = false) as -> by lia. cbn [orb].
  destruct previous as [p|]; simpl in *; [|done].
  by assert (first <? p = false) as -> by lia.
Qed.

(** The bytes where a subsection starts begin with a digit. *)
Lemma subsection_starts more' subsection rest :
  0 ≤ subsection.1 < 10 ^ 10 →
  let text := print_subsection subsection ++ rest in
  read_trivia more' false text = Some text ∧ text ≠ [] ∧
  (7 ≤ length text → read_trailer_keyword more' text = Some false)%nat.
Proof.
  intros Hf text. subst text. unfold print_subsection.
  destruct (decimal_correct 10 subsection.1 Hf ltac:(lia)) as (Hd&Hne&_).
  destruct (decimal 10 subsection.1) as [|d l]; [done|]. cbn [app].
  apply Forall_cons in Hd as [Hd _]. unfold is_ascii_digit in Hd. split; [|split; [done|]].
  - cbn [read_trivia]. assert (is_whitespace d = false) as -> by (unfold is_whitespace; lia).
    by assert (d =? 37 = false) as -> by lia.
  - intros Hlen7. unfold read_trailer_keyword.
    assert (length (d :: _) <? 7 = false)%nat as -> by (by apply Nat.ltb_ge).
    rewrite bool_decide_eq_false_2; [done|]. cbn [take]. intros Heq%(f_equal head).
    change (Some d = Some 116) in Heq. injection Heq as ->. lia.
Qed.

Lemma read_subsections_print n previous subsections trailer :
  (length subsections < n)%nat → (subsections = [] → is_Some previous) →
  subsections_ok source_len (default 0 previous) subsections → 0 ≤ default 0 previous →
  read_subsections source_len more n previous
    (flat_map print_subsection subsections ++ octets "trailer" ++ [10] ++ trailer) =
    Some (concat (snd <$> subsections), [10] ++ trailer).
Proof.
  revert n previous. induction subsections as [|[first entries] subsections IH];
    intros n previous Hn Hp Hok Hprev; (destruct n as [|n]; [simpl in Hn; lia|]).
  { destruct (Hp eq_refl) as [e ->]. done. }
  destruct Hok as (Hfirst&Hne&Hend&Hrows&Hok). assert (u32_max = 4294967295) by reflexivity.
  assert (0 < len entries) as Hpos by (destruct entries; [done|simpl; lia]).
  cbn [flat_map read_subsections]. rewrite <-app_assoc.
  set (rest := flat_map print_subsection subsections ++ _).
  destruct (subsection_starts more (first, entries) rest ltac:(simpl; lia)) as (->&Hnil&Hkw).
  cbn [mbind option_bind]. rewrite bool_decide_eq_false_2 by done.
  rewrite Hkw.
  2: { unfold print_subsection. rewrite !length_app.
       destruct entries as [|entry entries]; [done|]. cbn [flat_map snd]. rewrite length_app.
       destruct Hrows as (_&Hrow&_). rewrite (print_row_length _ Hrow). lia. }
  cbn [mbind option_bind]. unfold print_subsection at 1. cbn [fst snd]. rewrite <-!app_assoc.
  rewrite read_header_print.
  2-5: try lia. 2: destruct previous; simpl in *; [lia|done].
  cbn [mbind option_bind]. replace (Z.to_nat (first + len entries - first)) with (length entries) by lia.
  rewrite read_rows_print by done. cbn [mbind option_bind]. subst rest.
  rewrite IH; [done|simpl in Hn; lia|by eexists|done|simpl; lia].
Qed.

Lemma read_section_print subsections text trailer r :
  subsections ≠ [] → subsections_ok source_len 0 subsections →
  head text = Some 60 → read_object source stop more text = Some (trailer, r) →
  read_section source startxref source_len stop more (print_section subsections text) =
    trailer_of trailer ≫= read_trailer startxref (concat (snd <$> subsections)).
Proof.
  intros Hne Hok Hhead Hobj. unfold read_section, print_section.
  change (take 4 (octets "xref" ++ ?l)) with (octets "xref"). rewrite bool_decide_eq_true_2 by done.
  cbn [negb]. change (drop 4 (octets "xref" ++ [10] ++ ?l)) with (10 :: l).
  set (body := flat_map print_subsection subsections ++ _).
  assert (read_line_break (10 :: body) = Some body) as -> by done. cbn [mbind option_bind].
  subst body. rewrite read_subsections_print; [|..|done|done].
  - cbn [mbind option_bind app]. destruct text as [|b text]; [done|]. injection Hhead as ->.
    assert (read_trivia more false (10 :: 60 :: text) = Some (60 :: text)) as -> by done.
    cbn [mbind option_bind]. by rewrite Hobj.
  - rewrite !length_app. assert (length subsections ≤ length (flat_map print_subsection subsections))%nat.
    { clear. induction subsections as [|s l IH]; [done|]. cbn [flat_map length].
      rewrite length_app. unfold print_subsection at 1. rewrite !length_app. simpl. lia. }
    lia.
  - done.
Qed.
End print.
