(* ===== verification/XrefSections.v ===== *)
(** * Attempts on sections against the reference reader

    [cursors w syntax_limits m s spec Q]: from [s], the method [m] ends with what the
    scan [spec] reads, or asks for a larger window when the window may continue and ends
    too early for [spec], or for the parser of objects, or fails because of a limit, the
    allocator or the probe, or because [spec], or the parser of objects, decides that the
    bytes are wrong. It holds of the methods of a cursor, then of rows, subsections,
    trailers and the attempt as a whole ([parse_section_inner_run]), with the
    classification of targets that are no tables. *)

From stdpp Require Import base list numbers option strings.
From S2P Require Import Prelude.
From S2P Require Import SourceTypes.
From S2P Require Import SyntaxTypes.
From S2P Require Import SyntaxState.
From S2P Require Import SyntaxLexer.
From S2P Require Import SyntaxParser.
From S2P Require Import SyntaxRules.
From S2P Require Import SyntaxReader.
From S2P Require Import SyntaxTrivia.
From S2P Require Import SyntaxMethods.
From S2P Require Import SyntaxGrowth.
From S2P Require Import SyntaxFinal.
From S2P Require Import ObjectParser.
From S2P Require Import XrefTypes.
From S2P Require Import XrefTail.
From S2P Require Import XrefParser.
From S2P Require Import XrefReader.

(** A limit that the work reported with it would exceed, or a refusal of the
    allocator to add the reported rows to those that a vector holds, within the limit. *)
Definition xref_limited `{ParserRuntime} (e : XrefError) : Prop :=
  xe_code e = XrefResourceLimit ∧ ∃ l, xe_detail e = XrefDetailLimit l ∧
    (xref_limit_limit l < xref_limit_consumed l + xref_limit_attempted l ∨
     xref_limit_kind l = XrefAllocation ∧
       ∃ k size capacity,
         parser_reserve k size (xref_limit_consumed l) capacity (xref_limit_attempted l) = None ∧
         0 ≤ capacity ≤ xref_limit_limit l ∧ 0 ≤ xref_limit_consumed l ∧
         0 ≤ xref_limit_attempted l ∧
         xref_limit_consumed l + xref_limit_attempted l ≤ xref_limit_limit l).

(** A refusal of the syntax parser. *)
Definition xref_syntax_refused `{ParserRuntime} (e : XrefError) : Prop :=
  ∃ se, e = XrefError_from_syntax se ∧ refusal se.

Definition xref_refused `{ParserRuntime} (e : XrefError) : Prop :=
  xref_cancelled e ∨ xref_limited e ∨ xref_syntax_refused e.

(** Errors about the bytes of a section. *)
Definition xref_malformed (e : XrefError) : Prop :=
  xe_code e ∈ [InvalidXrefKeyword; InvalidSubsection; InvalidEntry; InvalidTrailer;
               UnsupportedXrefStream] ∨
  ∃ se, e = XrefError_from_syntax se ∧ error_code se ≠ InternalState.

(** What an attempt on a window needs. *)
Record window_ok (w : SectionWindow) (limits : XrefLimits) (syntax_limits : SyntaxLimits) : Prop := {
  wk_start : 0 ≤ sw_startxref w;
  wk_end : sw_startxref w + len (sw_bytes w) < u64_max;
  wk_source : sw_source_len w ≤ u64_max;
  wk_input : len (sw_bytes w) ≤ sl_max_input_bytes syntax_limits;
  wk_limits : xref_limits_ok limits;
  wk_syntax : syntax_limits_ok syntax_limits
}.

Definition window_more (w : SectionWindow) : bool := negb (known_source_end w).
Definition window_stop (w : SectionWindow) : Z := sw_startxref w + len (sw_bytes w).

(** The bytes from the cursor on. *)
Definition before_rest (w : SectionWindow) (s : CursorState) (rest : list Z) : Prop :=
  (cs_position s ≤ length (sw_bytes w))%nat ∧ drop (cs_position s) (sw_bytes w) = rest.

(** A parser of objects for bytes at the end of the window. *)
Record parser_of (w : SectionWindow) (syntax_limits : SyntaxLimits) (p : SyntaxParser) : Prop := {
  pof_ok : parser_ok p;
  pof_source : input_source (sp_input p) = snapshot_identity (sw_snapshot w);
  pof_limits : sp_limits p = syntax_limits;
  pof_bytes : len (window p) ≤ len (sw_bytes w);
  pof_stop : window_end p = window_stop w;
  pof_more : may_continue p = window_more w
}.

(** What a parser answers about a part: the end of the input, a request for more, or an
    error. *)
Definition part_poll `{ParserRuntime} (what : syntax_part) (p : SyntaxParser) (s : ParserState)
    : option (SyntaxPoll unit) :=
  let answer {T} (o : option (SyntaxPoll T)) : option (SyntaxPoll unit) :=
    match o with
    | Some (Ready _) => Some (Ready tt)
    | Some (NeedMore minimum_end) => Some (NeedMore minimum_end)
    | Some EndOfInput => Some EndOfInput
    | Some (Failed e) => Some (Failed e)
    | None => None
    end in
  match what with
  | ObjectPart => answer (parse_object p s).2
  | KeywordPart word => answer (expect_keyword p word s).2
  | LinePart => answer (consume_stream_line_ending p s).2
  end.

(** A parser of objects before [rest] asks for more bytes of the part, or decides that
    there is none: the input ends there, or its error is about the bytes. *)
Definition part_asks `{ParserRuntime} (w : SectionWindow) (syntax_limits : SyntaxLimits)
    (what : syntax_part) (rest : list Z) : Prop :=
  ∃ p s minimum_end, parser_of w syntax_limits p ∧ state_ok p s ∧ suffix_at p (ps_cursor s) rest ∧
    part_poll what p s = Some (NeedMore minimum_end).

Definition part_declines `{ParserRuntime} (w : SectionWindow) (syntax_limits : SyntaxLimits)
    (what : syntax_part) (rest : list Z) : Prop :=
  ∃ p s, parser_of w syntax_limits p ∧ state_ok p s ∧ suffix_at p (ps_cursor s) rest ∧
    (part_poll what p s = Some EndOfInput ∨
     ∃ e, part_poll what p s = Some (Failed e) ∧ error_category e = CategorySyntax).

(** The window ends too early to decide; or it decides that its bytes are wrong. *)
Definition cut_short `{ParserRuntime} {B} (w : SectionWindow) (syntax_limits : SyntaxLimits)
    (spec : scan B) : Prop :=
  match spec with
  | Short => True
  | Unread what rest => part_asks w syntax_limits what rest
  | _ => False
  end.

Definition ruled_out `{ParserRuntime} {B} (w : SectionWindow) (syntax_limits : SyntaxLimits)
    (spec : scan B) : Prop :=
  match spec with
  | Wrong => True
  | Unread what rest => part_declines w syntax_limits what rest
  | _ => False
  end.

Definition cursors `{ParserRuntime} {S A B} (w : SectionWindow) (syntax_limits : SyntaxLimits)
    (m : M S (failure LocalFailure) A) (s : S) (spec : scan B) (Q : S → A → B → Prop) : Prop :=
  match m s with
  | (s', Ok a) => ∃ b, spec = Scanned b ∧ Q s' a b
  | (_, Err (Rejected LocalNeedMore)) => window_more w = true ∧ cut_short w syntax_limits spec
  | (_, Err (Rejected (LocalFailed e))) =>
      xref_refused e ∨ (ruled_out w syntax_limits spec ∧ xref_malformed e)
  | (_, Err Panicked) => False
  end.

(** A method that reads nothing: it may be refused only. *)
Definition quiet `{ParserRuntime} {S A} (m : M S (failure LocalFailure) A) (s : S)
    (P : S → A → Prop) : Prop :=
  match m s with
  | (s', Ok a) => P s' a
  | (_, Err (Rejected (LocalFailed e))) => xref_refused e
  | (_, Err _) => False
  end.

Lemma scan_bind_assoc {A B C} (x : scan A) (f : A → scan B) (g : B → scan C) :
  (x ≫= f) ≫= g = x ≫= λ a, f a ≫= g.
Proof. by destruct x. Qed.

Lemma cut_short_bind `{ParserRuntime} {B C} w syntax_limits (x : scan B) (f : B → scan C) :
  cut_short w syntax_limits x → cut_short w syntax_limits (x ≫= f).
Proof. by destruct x. Qed.

Lemma ruled_out_bind `{ParserRuntime} {B C} w syntax_limits (x : scan B) (f : B → scan C) :
  ruled_out w syntax_limits x → ruled_out w syntax_limits (x ≫= f).
Proof. by destruct x. Qed.

Lemma scan_or_bind {A B} (o : option A) (f : A → option B) :
  scan_or Wrong (o ≫= f) = scan_or Wrong o ≫= λ a, scan_or Wrong (f a).
Proof. by destruct o. Qed.

Lemma scan_cut_bind {A B} more (f : A → scan B) : cut more ≫= f = cut more.
Proof. by destruct more. Qed.

Lemma scanned_some {B} (x : scan B) b : x = Scanned b → scan_value x = Some b.
Proof. by intros ->. Qed.

(** ** Rules *)

Section rules.
Context `{ParserRuntime} {S : Type} (w : SectionWindow) (syntax_limits : SyntaxLimits).
Implicit Types s : S.
Local Abbreviation T := (M S (failure LocalFailure)).
Local Notation more := (window_more w).

Lemma cursors_mono {A B} (m : T A) s (spec : scan B) (Q Q' : _ → _ → _ → Prop) :
  cursors w syntax_limits m s spec Q → (∀ s' a b, spec = Scanned b → Q s' a b → Q' s' a b) → cursors w syntax_limits m s spec Q'.
Proof.
  unfold cursors. destruct (m s) as [s' [a|[[|e]|]]]; [|done..]. intros (b&Hb&Hq) HQ. eauto.
Qed.

Lemma cursors_map {A B C} (m : T A) s (spec : scan B) (f : B → C)
    (Q Q' : _ → _ → _ → Prop) :
  cursors w syntax_limits m s spec Q → (∀ s' a b, spec = Scanned b → Q s' a b → Q' s' a (f b)) →
  cursors w syntax_limits m s (spec ≫= λ b, Scanned (f b)) Q'.
Proof.
  unfold cursors. intros Hm HQ. destruct (m s) as [s' [a|[[|e]|]]]; [| | |done].
  - destruct Hm as (b&->&Hq). eexists. split; [done|]. by apply HQ.
  - destruct Hm. split; [done|by apply cut_short_bind].
  - destruct Hm as [?|[? ?]]; [by left|right]. split; [by apply ruled_out_bind|done].
Qed.

Lemma cursors_ret {A B} (a : A) (b : B) s spec (Q : _ → _ → _ → Prop) :
  spec = Scanned b → Q s a b → cursors w syntax_limits (mret a) s spec Q.
Proof. intros. by exists b. Qed.

Lemma cursors_bind {A B C D} (m : T A) (k : A → T B) s (spec : scan C)
    (f : C → scan D) (Q : _ → _ → _ → Prop) (R : _ → _ → _ → Prop) :
  cursors w syntax_limits m s spec Q →
  (∀ s' a b, spec = Scanned b → Q s' a b → cursors w syntax_limits (k a) s' (f b) R) →
  cursors w syntax_limits (m ≫= k) s (spec ≫= f) R.
Proof.
  unfold cursors. intros Hm Hk. unfold mbind at 1, M_bind.
  destruct (m s) as [s' [a|[[|e]|]]]; [| | |done].
  - destruct Hm as (b&->&Hq). by apply (Hk s' a b).
  - destruct Hm. split; [done|by apply cut_short_bind].
  - destruct Hm as [?|[? ?]]; [by left|right]. split; [by apply ruled_out_bind|done].
Qed.

Lemma cursors_gets {A B C} (g : S → A) (k : A → T B) s (spec : scan C) Q :
  cursors w syntax_limits (k (g s)) s spec Q → cursors w syntax_limits (gets g ≫= k) s spec Q.
Proof. done. Qed.

Lemma cursors_modify {B C} g (k : T B) s (spec : scan C) Q :
  cursors w syntax_limits k (g s) spec Q → cursors w syntax_limits (modify g;; k) s spec Q.
Proof. done. Qed.

Lemma cursors_quiet {A B C} (m : T A) (k : A → T B) s (spec : scan C) P Q :
  quiet m s P → (∀ s' a, P s' a → cursors w syntax_limits (k a) s' spec Q) → cursors w syntax_limits (m ≫= k) s spec Q.
Proof.
  unfold quiet, cursors. intros Hm Hk. unfold mbind at 1, M_bind.
  destruct (m s) as [s' [a|[[|e]|]]]; [by apply Hk|done|by left|done].
Qed.

Lemma cursors_refused {A B} e s (spec : scan B) (Q : _ → A → _ → Prop) :
  xref_refused e → cursors w syntax_limits (local_failed e) s spec Q.
Proof. by left. Qed.

Lemma cursors_some {A B C} (o : option A) a e (k : A → T B) s (spec : scan C) Q :
  o = Some a → cursors w syntax_limits (k a) s spec Q → cursors w syntax_limits (some_or_failed o e ≫= k) s spec Q.
Proof. by intros ->. Qed.

Lemma cursors_need_more {A B} s (spec : scan B) (Q : _ → A → _ → Prop) :
  cut_short w syntax_limits spec → more = true → cursors w syntax_limits need_more s spec Q.
Proof. done. Qed.

(** What fails, fails before what follows. *)
Lemma cursors_stops {A B C} (m : T A) (k : A → T B) s (spec : scan C) (Q : _ → _ → C → Prop) :
  cursors w syntax_limits m s spec (λ _ _ _, False) → cursors w syntax_limits (m ≫= k) s spec Q.
Proof.
  unfold cursors, mbind, M_bind. destruct (m s) as [s' [a|[[|e]|]]]; [|done..]. by intros (?&?&?).
Qed.

Lemma quiet_bind {A B} (m : T A) (k : A → T B) s P Q :
  quiet m s P → (∀ s' a, P s' a → quiet (k a) s' Q) → quiet (m ≫= k) s Q.
Proof.
  unfold quiet, mbind, M_bind. intros Hm Hk.
  destruct (m s) as [s' [a|[[|e]|]]]; [by apply Hk|done..].
Qed.

Lemma quiet_mono {A} (m : T A) s (P P' : S → A → Prop) :
  quiet m s P → (∀ s' a, P s' a → P' s' a) → quiet m s P'.
Proof. unfold quiet. destruct (m s) as [s' [a|[[|e]|]]]; auto. Qed.

Lemma cancelled_refused offset k :
  parser_cancelled k = true → xref_refused (XrefError_for_code XrefCancelled offset).
Proof.
  intros. left. split; [by destruct (xref_code_facts XrefCancelled offset)|by eexists].
Qed.

Lemma limited_refused kind limit consumed attempted offset :
  limit < consumed + attempted → xref_refused (XrefError_resource kind limit consumed attempted offset).
Proof. intros. right. left. split; [done|]. eexists. split; [done|]. by left. Qed.
End rules.

Section cursors.
Context `{XrefRuntime} (w : SectionWindow) (limits : XrefLimits) (syntax_limits : SyntaxLimits).
Hypothesis Hw : window_ok w limits syntax_limits.
Implicit Types s : CursorState.
Local Notation W := (sw_bytes w).
Local Notation more := (window_more w).

Lemma before_length s rest : before_rest w s rest → (cs_position s + length rest)%nat = length W.
Proof. intros [Hp <-]. rewrite length_drop. lia. Qed.

Lemma before_cons s b rest :
  before_rest w s (b :: rest) →
  W !! cs_position s = Some b ∧ before_rest w (set_position (cs_position s + 1) s) rest.
Proof.
  intros Hs. pose proof (before_length _ _ Hs) as Hl. simpl in Hl. destruct Hs as [_ Hd].
  apply drop_cons_lookup in Hd as [Hb Hd]. split; [done|]. split; cbn [cs_position set_position].
  - lia.
  - by rewrite Nat.add_1_r.
Qed.

Lemma before_lookup s rest : before_rest w s rest → W !! cs_position s = head rest.
Proof.
  intros Hs. destruct rest as [|b rest]; [|by apply before_cons in Hs as [-> _]].
  apply before_length in Hs. simpl in Hs. apply lookup_ge_None_2. lia.
Qed.

Lemma before_end s rest : before_rest w s rest → (cs_position s =? length W)%nat = bool_decide (rest = []).
Proof.
  intros Hs. apply before_length in Hs. case_bool_decide as Hr; [subst; simpl in Hs; apply Nat.eqb_eq; lia|].
  apply Nat.eqb_neq. intros Heq. apply Hr, nil_length_inv. lia.
Qed.

Lemma before_moved s n rest :
  before_rest w s rest → (n ≤ length rest)%nat →
  before_rest w (set_position (cs_position s + n) s) (drop n rest).
Proof.
  intros Hs Hn. pose proof (before_length _ _ Hs). destruct Hs as [Hp <-]. split; [simpl; lia|].
  cbn [cs_position set_position]. by rewrite drop_drop.
Qed.

Lemma cursor_offset_exact position :
  (position ≤ length W)%nat → cursor_offset w position = Some (sw_startxref w + Z.of_nat position).
Proof.
  intros. unfold cursor_offset, absolute_ok. pose proof (wk_start _ _ _ Hw). pose proof (wk_end _ _ _ Hw).
  by rewrite absolute_offset_exact by lia.
Qed.

(** A failure of a method whose bytes are malformed. *)
Lemma cursors_failure {A B} code position s (spec : scan B) (Q : _ → A → _ → Prop) :
  ruled_out w syntax_limits spec →
  code ∈ [InvalidXrefKeyword; InvalidSubsection; InvalidEntry; InvalidTrailer; UnsupportedXrefStream] →
  cursors w syntax_limits (failure_at w code position) s spec Q.
Proof.
  intros. right. split; [done|]. left.
  by destruct (xref_code_facts code (cursor_offset w position)) as (->&_).
Qed.

Lemma cursors_incomplete {A B} code s (spec : scan B) (Q : _ → A → _ → Prop) :
  spec = cut more →
  code ∈ [InvalidXrefKeyword; InvalidSubsection; InvalidEntry; InvalidTrailer; UnsupportedXrefStream] →
  cursors w syntax_limits (incomplete_at w code) s spec Q.
Proof.
  intros ->. unfold incomplete_at, cut, window_more. destruct (known_source_end w) eqn:Hk; cbn [negb].
  - by apply cursors_failure.
  - intros. apply cursors_need_more; [done|]. unfold window_more. by rewrite Hk.
Qed.

Lemma cursors_require {A B} n code (k : unit → CursorM A) s rest (spec : scan B) Q :
  before_rest w s rest →
  code ∈ [InvalidXrefKeyword; InvalidSubsection; InvalidEntry; InvalidTrailer; UnsupportedXrefStream] →
  ((length rest < n)%nat → spec = cut more) →
  ((n ≤ length rest)%nat → cursors w syntax_limits (k tt) s spec Q) →
  cursors w syntax_limits (require_bytes w n code ≫= k) s spec Q.
Proof.
  intros Hs Hcode Hnone Hk. pose proof (before_length _ _ Hs) as Hlen.
  assert (require_bytes w n code s =
    (if (length W <? cs_position s + n)%nat then incomplete_at w code else mret tt) s) as Hrun by done.
  unfold cursors. unfold mbind, M_bind. rewrite Hrun.
  destruct (length W <? cs_position s + n)%nat eqn:Hl.
  - apply Nat.ltb_lt in Hl.
    pose proof (cursors_stops w syntax_limits (incomplete_at w code) k s spec Q) as Hi.
    unfold cursors in Hi at 2. unfold mbind, M_bind in Hi. apply Hi. apply cursors_incomplete; [apply Hnone; lia|done].
  - apply Nat.ltb_ge in Hl. apply Hk. lia.
Qed.

(** Calls from a cursor keep its position. *)
Lemma quiet_on_calls {A} (m : LocalM A) s (P : A → Prop) :
  quiet m (cs_calls s) (λ _, P) →
  quiet (on_calls m) s (λ s' a, cs_position s' = cs_position s ∧ P a).
Proof.
  unfold quiet, on_calls, zoom. destruct (m (cs_calls s)) as [c [a|[[|e]|]]]; [done|done|done|done].
Qed.

Lemma cursor_cancelled_run s :
  quiet (cursor_cancelled w) s (λ s' _, cs_position s' = cs_position s).
Proof.
  unfold quiet, cursor_cancelled, on_calls, zoom, probe, gets, mbind, M_bind. simpl.
  destruct (parser_cancelled _) eqn:Hc; [|done]. by eapply cancelled_refused.
Qed.

Lemma before_same s s' rest : cs_position s' = cs_position s → before_rest w s rest → before_rest w s' rest.
Proof. unfold before_rest. by intros ->. Qed.

(** ** Skips *)

Lemma skip_while_run class rest s :
  before_rest w s rest →
  quiet (skip_while w class rest) s (λ s' _,
    cs_position s' = (cs_position s + length (run_of class rest).1)%nat ∧
    before_rest w s' (run_of class rest).2).
Proof.
  revert s. induction rest as [|b rest IH]; intros s Hs; [simpl; split; [lia|done]|].
  cbn [skip_while run_of]. apply before_cons in Hs as Hs'. destruct Hs' as [Hb Hs1].
  destruct (class b); [|simpl; split; [lia|done]].
  unfold quiet. unfold mbind at 1, M_bind. cbn [advance modify]. unfold advance, modify.
  cbv beta iota. set (s1 := set_position (cs_position s + 1) s) in *.
  unfold mbind at 1, M_bind. unfold gets at 1. cbv beta iota.
  assert (quiet (when (cs_position s1 mod 1024 =? 0)%nat (cursor_cancelled w)) s1
            (λ s' _, cs_position s' = cs_position s1)) as Hp.
  { destruct (_ =? _)%nat; [apply cursor_cancelled_run|done]. }
  unfold mbind, M_bind. unfold quiet in Hp.
  destruct (when _ _ s1) as [s2 [u|[[|e]|]]]; [|done..].
  specialize (IH s2 (before_same _ _ _ Hp Hs1)). unfold quiet in IH.
  destruct (skip_while w class rest s2) as [s3 [u'|[[|e]|]]]; [|done..].
  destruct (run_of class rest) as [run r]. simpl in *. destruct IH as [-> IH]. split; [lia|done].
Qed.

Lemma skip_class_run class s rest :
  before_rest w s rest →
  quiet (skip_class w class) s (λ s' _,
    cs_position s' = (cs_position s + length (run_of class rest).1)%nat ∧
    before_rest w s' (run_of class rest).2).
Proof.
  intros Hs. unfold skip_class, quiet. unfold mbind, M_bind, gets.
  rewrite (proj2 Hs). by apply skip_while_run.
Qed.

Lemma run_of_ext class class' rest : (∀ b, class b = class' b) → run_of class rest = run_of class' rest.
Proof. intros Hc. induction rest as [|b l IH]; [done|]. simpl. by rewrite Hc, IH. Qed.

Lemma skip_whitespace_run fuel s rest :
  before_rest w s rest → (length rest < fuel)%nat →
  cursors w syntax_limits (skip_whitespace_loop w fuel) s (scan_or Short (read_trivia more false rest))
    (λ s' _ r, before_rest w s' r).
Proof.
  revert s rest. induction fuel as [|fuel IH]; intros s rest Hs Hf; [lia|].
  cbn [skip_whitespace_loop]. eapply cursors_quiet; [by apply skip_class_run|].
  intros s1 _ [_ Hs1]. rewrite read_trivia_whitespace.
  pose proof (run_of_length is_whitespace rest) as Hl1.
  pose proof (run_of_class is_pdf_whitespace rest) as Hcls.
  change (run_of is_pdf_whitespace rest) with (run_of is_whitespace rest) in Hs1, Hcls.
  destruct (run_of is_whitespace rest) as [run r1]. cbn [snd] in *.
  destruct (Hcls _ _ eq_refl) as [_ Hhead]. clear Hcls.
  apply cursors_gets. rewrite (before_lookup _ _ Hs1). destruct r1 as [|b r1].
  { rewrite bool_decide_eq_false_2 by done. eapply cursors_ret; done. }
  cbn [head]. cbn [read_trivia]. simpl in Hhead.
  change (is_pdf_whitespace b) with (is_whitespace b) in Hhead. rewrite Hhead.
  destruct (Z.eqb_spec b 37) as [->|Hb].
  2: { rewrite bool_decide_eq_false_2 by congruence. by eapply cursors_ret. }
  rewrite bool_decide_eq_true_2 by done. cbn [negb].
  apply before_cons in Hs1 as [_ Hs2]. apply cursors_modify.
  eapply cursors_quiet; [by apply skip_class_run|]. intros s3 _ [_ Hs3].
  rewrite read_trivia_comment. pose proof (run_of_length in_comment r1) as Hl2.
  pose proof (run_of_class in_comment r1) as Hcls.
  change (λ byte, negb (is_line_ending byte)) with in_comment in Hs3.
  destruct (run_of in_comment r1) as [run2 r2]. cbn [snd] in *.
  destruct (Hcls _ _ eq_refl) as [_ Hhead2].
  apply cursors_gets. rewrite (before_end _ _ Hs3). destruct r2 as [|b2 r2].
  - rewrite bool_decide_eq_true_2 by done. unfold window_more.
    destruct (known_source_end w) eqn:Hk; [by eapply cursors_ret|].
    apply cursors_need_more; [done|]. unfold window_more. by rewrite Hk.
  - rewrite bool_decide_eq_false_2 by done. cbn [read_trivia].
    assert (is_whitespace b2 = true) as Hws by (by apply line_end_whitespace).
    unfold in_comment in Hhead2. simpl in Hhead2. apply negb_false_iff in Hhead2.
    rewrite Hhead2. cbn [negb].
    assert (read_trivia more false r2 = read_trivia more false (b2 :: r2)) as ->
      by (cbn [read_trivia]; by rewrite Hws).
    apply IH; [done|simpl in *; lia].
Qed.

(** ** Words *)

Lemma more_known : more = negb (known_source_end w).
Proof. done. Qed.

Lemma keyword_run s rest :
  before_rest w s rest →
  cursors w syntax_limits (keyword_at_position w (octets "trailer")) s
    (scan_or Short (read_trailer_keyword more rest))
    (λ s' a b, s' = s ∧ a = b).
Proof.
  intros Hs. unfold keyword_at_position, read_trailer_keyword. apply cursors_gets.
  rewrite (proj2 Hs). cbv zeta. change (length (octets "trailer")) with 7%nat.
  destruct (length rest <? 7)%nat.
  - rewrite more_known. destruct (bool_decide _ && negb _) eqn:Hm.
    + apply andb_true_iff in Hm as [_ Hm]. by apply cursors_need_more.
    + by eapply cursors_ret.
  - case_bool_decide; cbn [negb]; [|by eapply cursors_ret].
    destruct (rest !! 7%nat); [by eapply cursors_ret|]. rewrite more_known.
    destruct (known_source_end w) eqn:Hk; cbn [negb]; [by eapply cursors_ret|].
    apply cursors_need_more; [done|]. by rewrite more_known, Hk.
Qed.

Lemma decimal_loop_run code max_digits start rest s :
  before_rest w s rest → (start ≤ cs_position s)%nat → (cs_position s - start ≤ max_digits)%nat →
  code ∈ [InvalidXrefKeyword; InvalidSubsection; InvalidEntry; InvalidTrailer; UnsupportedXrefStream] →
  let digits := (run_of is_ascii_digit rest).1 in
  cursors w syntax_limits (decimal_loop w code max_digits start rest) s
    (if (max_digits <? (cs_position s - start) + length digits)%nat then Wrong else Scanned tt)
    (λ s' _ _, cs_position s' = (cs_position s + length digits)%nat ∧
       before_rest w s' (run_of is_ascii_digit rest).2).
Proof.
  intros Hs Hst Hmax Hcode. revert s Hs Hst Hmax.
  induction rest as [|b rest IH]; intros s Hs Hst Hmax; cbn [decimal_loop run_of].
  { simpl. assert (max_digits <? _ = false)%nat as -> by (apply Nat.ltb_ge; lia).
    eapply cursors_ret; [done|]. split; [lia|done]. }
  destruct (is_ascii_digit b) eqn:Hb.
  2: { simpl. assert (max_digits <? _ = false)%nat as -> by (apply Nat.ltb_ge; lia).
       eapply cursors_ret; [done|]. split; [lia|done]. }
  apply before_cons in Hs as [_ Hs1]. apply cursors_modify, cursors_gets. simpl.
  destruct (run_of is_ascii_digit rest) as [digits r] eqn:Hrun. cbn [fst snd length] in *.
  destruct (max_digits <? cs_position s + 1 - start)%nat eqn:Hover.
  - apply Nat.ltb_lt in Hover. assert (max_digits <? _ = true)%nat as -> by (apply Nat.ltb_lt; lia).
    by apply cursors_failure.
  - apply Nat.ltb_ge in Hover. eapply cursors_mono.
    + assert ((max_digits <? cs_position s - start + S (length digits))%nat =
        (max_digits <? (cs_position (set_position (cs_position s + 1) s) - start) + length digits)%nat) as ->.
      { simpl. f_equal. lia. }
      apply IH; [done|simpl; lia|simpl; lia].
    + intros s' _ [] _ [Hp ?]. simpl in Hp. split; [lia|done].
Qed.

Lemma digits_bound l :
  Forall (λ b, is_ascii_digit b = true) l → 0 ≤ digits_value l < 10 ^ len l.
Proof.
  induction l as [|d l IH] using rev_ind; intros Hl; [done|].
  apply Forall_app in Hl as [Hl [Hd _]%Forall_cons]. specialize (IH Hl).
  unfold digits_value in *. rewrite foldl_snoc, length_app, Nat2Z.inj_add, Z.pow_add_r by lia.
  unfold is_ascii_digit in Hd. simpl. change (10 ^ 1) with 10. lia.
Qed.

Lemma decimal_run code s rest :
  before_rest w s rest → (rest = [] → more = false) →
  code ∈ [InvalidXrefKeyword; InvalidSubsection; InvalidEntry; InvalidTrailer; UnsupportedXrefStream] →
  cursors w syntax_limits (parse_decimal w code 10) s (scan_decimal more rest)
    (λ s' a b, a = b.1 ∧ before_rest w s' b.2 ∧ (b.2 = [] → more = false)).
Proof.
  intros Hs Hnil Hcode. unfold parse_decimal, scan_decimal. apply cursors_gets. rewrite (proj2 Hs).
  pose proof (decimal_loop_run code 10 (cs_position s) rest s Hs ltac:(lia) ltac:(lia) Hcode) as Hl.
  cbv zeta in Hl. rewrite Nat.sub_diag in Hl. cbn [Nat.add] in Hl.
  pose proof (run_of_class is_ascii_digit rest) as Hcls. pose proof (run_of_app is_ascii_digit rest) as Happ.
  destruct (run_of is_ascii_digit rest) as [digits r]. cbn [fst snd] in *.
  destruct (Hcls _ _ eq_refl) as [Hd _]. specialize (Happ _ _ eq_refl).
  unfold cursors in Hl. unfold cursors. unfold mbind at 1, M_bind.
  destruct (decimal_loop _ _ _ _ _ _) as [s1 [u|[[|e]|]]]; [| | |done].
  2: { destruct Hl as [_ Hn]. by destruct (10 <? length digits)%nat. }
  2: { destruct Hl as [?|[Hn ?]]; [by left|right]. split; [|done].
       destruct (10 <? length digits)%nat; [|done]. rewrite orb_true_r.
       case_bool_decide as Hr; [|done]. by rewrite (Hnil Hr). }
  destruct Hl as (?&Hn&Hp&Hr). destruct (10 <? length digits)%nat eqn:H10; [done|].
  rewrite orb_false_r. assert (rest = [] → digits = []) as Hempty.
  { intros ->. by destruct digits. }
  unfold gets. unfold mbind at 1, M_bind. cbv beta iota.
  fold (cursors w syntax_limits (if (cs_position s1 =? cs_position s)%nat
    then failure_at w code (cs_position s)
    else if (cs_position s1 =? length W)%nat && negb (known_source_end w) then need_more
    else match parse_digits (bytes_between W (cs_position s) (cs_position s1)) with
         | Some value => mret value | None => failure_at w code (cs_position s) end) s1
    (if bool_decide (rest = []) then cut more
     else if bool_decide (digits = []) then Wrong
     else if bool_decide (r = []) && more then Short
     else Scanned (digits_value digits, r))
    (λ s' a b, a = b.1 ∧ before_rest w s' b.2 ∧ (b.2 = [] → more = false))).
  assert ((cs_position s1 =? cs_position s)%nat = bool_decide (digits = [])) as ->.
  { rewrite Hp. case_bool_decide as Hne; [subst digits; simpl; apply Nat.eqb_eq; lia|].
    apply Nat.eqb_neq. intros ?. apply Hne, nil_length_inv. lia. }
  case_bool_decide as Hne.
  { apply cursors_failure; [|done]. case_bool_decide as Hr0; [|done]. by rewrite (Hnil Hr0). }
  rewrite (bool_decide_eq_false_2 (rest = [])) by auto.
  rewrite (before_end _ _ Hr), <-more_known. destruct (bool_decide (r = []) && more) eqn:Hm.
  { apply andb_true_iff in Hm as [_ ?]. by apply cursors_need_more. }
  assert (bytes_between W (cs_position s) (cs_position s1) = digits) as ->.
  { unfold bytes_between. rewrite (proj2 Hs), Hp, Happ.
    replace (cs_position s + length digits - cs_position s)%nat with (length digits) by lia.
    apply take_app_length. }
  rewrite parse_digits_exact by done. apply Nat.ltb_ge in H10.
  assert (digits_value digits ≤ u64_max) as Hmax.
  { pose proof (digits_bound _ Hd).
    assert (10 ^ len digits ≤ 10 ^ 10) by (apply Z.pow_le_mono_r; lia).
    assert (u64_max = 18446744073709551615) by reflexivity. lia. }
  apply Z.leb_le in Hmax. rewrite Hmax. eapply cursors_ret; [done|]. split_and!; [done|done|].
  cbn [snd]. intros ->. by rewrite bool_decide_eq_true_2 in Hm by done.
Qed.

Lemma separator_run code s rest :
  before_rest w s rest → (rest = [] → more = false) →
  code ∈ [InvalidXrefKeyword; InvalidSubsection; InvalidEntry; InvalidTrailer; UnsupportedXrefStream] →
  cursors w syntax_limits (consume_horizontal_separator w code) s (scan_separator more rest)
    (λ s' _ r, before_rest w s' r ∧ r ≠ []).
Proof.
  intros Hs Hnil Hcode. unfold consume_horizontal_separator, scan_separator. apply cursors_gets.
  eapply cursors_quiet; [by apply skip_class_run|]. intros s1 _ [Hp Hr].
  pose proof (run_of_app is_horizontal_whitespace rest) as Hrest.
  destruct (run_of is_horizontal_whitespace rest) as [blanks r]. specialize (Hrest _ _ eq_refl). cbn [fst snd] in *.
  apply cursors_gets.
  assert ((cs_position s1 =? cs_position s)%nat = bool_decide (blanks = [])) as ->.
  { rewrite Hp. case_bool_decide as Hne; [subst blanks; simpl; apply Nat.eqb_eq; lia|].
    apply Nat.eqb_neq. intros ?. apply Hne, nil_length_inv. lia. }
  case_bool_decide as Hb.
  - apply cursors_failure; [|done]. case_bool_decide as Hn; [|done].
    subst. by rewrite Hnil.
  - rewrite (before_end _ _ Hr). case_bool_decide; [by apply cursors_incomplete|].
    by eapply cursors_ret.
Qed.

Lemma line_break_run code s rest :
  before_rest w s rest →
  code ∈ [InvalidXrefKeyword; InvalidSubsection; InvalidEntry; InvalidTrailer; UnsupportedXrefStream] →
  cursors w syntax_limits (consume_line_ending w code) s (scan_line_break more rest) (λ s' _ r, before_rest w s' r).
Proof.
  intros Hs Hcode. unfold consume_line_ending, scan_line_break, read_line_break.
  eapply cursors_quiet; [by apply skip_class_run|]. intros s1 _ [Hp Hr].
  destruct (run_of is_horizontal_whitespace rest) as [blanks r]. cbn [fst snd] in *.
  apply cursors_gets. rewrite (before_lookup _ _ Hr). destruct r as [|b l]; cbn [head].
  { by apply cursors_incomplete. }
  apply before_cons in Hr as [_ Hr]. destruct (b =? 10).
  { by exists l. }
  destruct (b =? 13); [|by apply cursors_failure].
  apply cursors_modify, cursors_gets.
  rewrite (before_lookup _ _ Hr). case_bool_decide as Hl.
  - destruct l as [|b' l]; [done|]. apply before_cons in Hr as [_ Hr].
    by exists l.
  - by exists l.
Qed.

(** ** Rows *)

Lemma row_digits row :
  row_shape row = true → length row = 20%nat →
  Forall (λ b, is_ascii_digit b = true) (take 10 row) ∧
  Forall (λ b, is_ascii_digit b = true) (bytes_between row 11 16).
Proof.
  unfold row_shape. rewrite !andb_true_iff. intros [[[[H1 _] H2] _] _] _.
  assert (∀ l, forallb is_ascii_digit l = true → Forall (λ b, is_ascii_digit b = true) l) as Hall.
  { intros l. induction l as [|b l IH]; simpl; [done|]. rewrite andb_true_iff. intros [? ?].
    constructor; auto. }
  split; by apply Hall.
Qed.

End cursors.

Section subsections.
Context `{XrefRuntime} (w : SectionWindow) (limits : XrefLimits) (syntax_limits : SyntaxLimits).
Hypothesis Hw : window_ok w limits syntax_limits.
Implicit Types s : CursorState.
Local Notation W := (sw_bytes w).
Local Notation more := (window_more w).
Local Notation source_len := (sw_source_len w).

Ltac code := rewrite !elem_of_cons; tauto.

(** ** Rows *)

Lemma entry_run number s rest :
  before_rest w s rest →
  cursors w syntax_limits (parse_entry w number) s
    (if (length rest <? 20)%nat then cut more
     else scan_or Wrong (read_row source_len number (take 20 rest)))
    (λ s' a b, a = b ∧ before_rest w s' (drop 20 rest)).
Proof.
  intros Hs. pose proof (before_length _ _ _ Hs) as Hlen. unfold parse_entry. apply cursors_gets.
  eapply cursors_require; [done|code|intros Hl; by apply Nat.ltb_lt in Hl as ->|]. intros Hl.
  apply Nat.ltb_ge in Hl as Hl'. rewrite Hl'. cbv zeta.
  assert (bytes_between W (cs_position s) (cs_position s + 20) = take 20 rest) as ->.
  { unfold bytes_between. rewrite (proj2 Hs). f_equal. lia. }
  set (row := take 20 rest). assert (length row = 20)%nat as Hrow by (subst row; rewrite length_take; lia).
  unfold read_row. destruct (row_shape row) eqn:Hshape; cbn [negb orb].
  2: { apply (cursors_failure w syntax_limits InvalidEntry _ s); [done|code]. }
  destruct (row_digits row Hshape Hrow) as [Hf Hg].
  rewrite !parse_digits_exact by done.
  pose proof (digits_bound _ Hf) as Hfb. pose proof (digits_bound _ Hg) as Hgb.
  rewrite length_take, Hrow in Hfb. change (10 ^ Z.of_nat (10 `min` 20)) with 10000000000 in Hfb.
  assert (length (bytes_between row 11 16) = 5)%nat as H5.
  { unfold bytes_between. rewrite length_take, length_drop, Hrow. done. }
  rewrite H5 in Hgb. change (10 ^ Z.of_nat 5) with 100000 in Hgb.
  assert (u64_max = 18446744073709551615) by reflexivity.
  set (field := digits_value (take 10 row)) in *. set (generation := digits_value (bytes_between row 11 16)) in *.
  assert (field <=? u64_max = true) as -> by lia. assert (generation <=? u64_max = true) as -> by lia.
  cbn [mbind option_bind]. destruct (u16_max <? generation) eqn:Hgen; checked_facts.
  { rewrite (proj2 (try_from_None _ _)) by lia. apply (cursors_failure w syntax_limits InvalidEntry _ s); [done|code]. }
  rewrite (proj2 (try_from_Some _ _ generation)) by (split; [lia|done]).
  assert (∀ kind, cursors w syntax_limits
    (advance 20;; mret {| row_object_number := number; row_generation := generation; row_kind := kind |}) s
    (Scanned {| row_object_number := number; row_generation := generation; row_kind := kind |})
    (λ s' a b, a = b ∧ before_rest w s' (drop 20 rest))) as Hok.
  { intros kind. apply cursors_modify. eapply cursors_ret; [done|]. split; [done|].
    by apply before_moved. }
  assert (∀ A position (k : A → CursorM XrefEntry) (Q : _ → _ → XrefEntry → Prop),
    cursors w syntax_limits (failure_at w InvalidEntry position ≫= k) s Wrong Q) as Hfail.
  { intros A position k Q. apply cursors_stops, cursors_failure; [done|code]. }
  destruct (row !! 17%nat) as [k|] eqn:Hk; [|apply Hfail].
  destruct (decide (k = 110)) as [->|Hn]; [|destruct (decide (k = 102)) as [->|Hm]].
  - destruct (field <? source_len); [apply Hok|apply Hfail].
  - destruct (field <=? u32_max) eqn:Hmax; checked_facts.
    + rewrite (proj2 (try_from_Some _ _ field)) by (split; [lia|done]). apply Hok.
    + rewrite (proj2 (try_from_None _ _)) by lia. apply Hfail.
  - assert (∀ (A : Type) (x y z : A), match k with 110 => x | 102 => y | _ => z end = z) as Hz.
    { intros A x y z. repeat (destruct k as [|k|k]; try done). }
    rewrite !Hz. apply Hfail.
Qed.

Lemma entry_loop_run n number entries s rest :
  before_rest w s rest → 0 ≤ number → number + Z.of_nat n ≤ u32_max + 1 →
  cursors w syntax_limits (entry_loop w n number entries) s (scan_rows source_len more n number rest)
    (λ s' a b, a = entries ++ b.1 ∧ before_rest w s' b.2).
Proof.
  revert number entries s rest. induction n as [|n IH]; intros number entries s rest Hs Hn He.
  { eapply cursors_ret; [done|]. simpl. by rewrite app_nil_r. }
  cbn [entry_loop scan_rows]. eapply cursors_quiet; [apply cursor_cancelled_run|].
  intros s1 [] Hp. apply (before_same w _ s1) in Hs; [|done]. apply cursors_gets.
  rewrite (proj2 (try_from_Some _ _ number)) by (split; [lia|done]).
  eapply cursors_bind; [by apply entry_run|]. intros s2 entry entry' Hentry [-> Hs2].
  replace ('(entries', r) ← scan_rows source_len more n (number + 1) (drop 20 rest);
           Scanned (entry' :: entries', r))
    with (scan_rows source_len more n (number + 1) (drop 20 rest) ≫= λ b, Scanned (entry' :: b.1, b.2))
    by (by destruct (scan_rows _ _ _ _ _) as [[]| | |]).
  eapply cursors_map; [apply IH; [done|lia|lia]|]. intros s3 a b _ [-> ?].
  split; [by rewrite <-app_assoc|done].
Qed.

(** ** Subsections *)

Lemma rows_refused k size capacity limit consumed attempted offset :
  parser_reserve k size consumed capacity attempted = None →
  0 ≤ capacity ≤ limit → 0 ≤ consumed → 0 ≤ attempted → consumed + attempted ≤ limit →
  xref_refused (XrefError_resource XrefAllocation limit consumed attempted offset).
Proof.
  intros Hr ????. right. left. split; [done|]. eexists. split; [done|]. right. split; [done|].
  by exists k, size, capacity.
Qed.

Lemma reserve_run entries capacity count s :
  len entries ≤ xl_max_entries limits → 0 ≤ count ≤ u32_max + 1 →
  0 ≤ capacity ≤ xl_max_entries limits →
  quiet (reserve_entries w limits entries capacity count) s
    (λ s' capacity, cs_position s' = cs_position s ∧ len entries + count ≤ xl_max_entries limits ∧
       0 ≤ capacity ≤ xl_max_entries limits).
Proof.
  intros Hl Hc Hcapacity. pose proof (wk_limits _ _ _ Hw) as Hlim. unfold xref_limits_ok, XREF_MAX_ENTRIES in Hlim.
  assert (u32_max = 4294967295) by reflexivity. assert (u64_max = 18446744073709551615) by reflexivity.
  pose proof usize_max_cases. unfold reserve_entries, get. unfold quiet, mbind, M_bind, some_or_failed, ok_or.
  rewrite (proj2 (try_from_Some _ _ (len entries))) by (split; [lia|done]).
  rewrite (proj2 (checked_add_Some _ _ _ (len entries + count))) by (split; [lia|done]).
  destruct (xl_max_entries limits <? len entries + count) eqn:Hm; checked_facts.
  { apply limited_refused. simpl. lia. }
  rewrite (proj2 (try_from_Some _ _ count)) by (split; [lia|done]). unfold modify.
  destruct (parser_reserve _ _ _ _ _) as [c|] eqn:Hres.
  2: { eapply rows_refused; [exact Hres|lia..]. }
  apply parser_reserve_spec in Hres as [Hcap _].
  rewrite (proj2 (try_from_Some _ _ c)) by (split; [lia|done]).
  destruct (xl_max_entries limits <? c) eqn:Hm'; checked_facts; [|simpl; split; [done|lia]].
  apply limited_refused. simpl. rewrite saturating_sub_exact by lia. lia.
Qed.

Lemma header_run previous s rest :
  before_rest w s rest → rest ≠ [] →
  cursors w syntax_limits (parse_subsection_header w previous) s
    (scan_subsection_header more previous rest) (λ s' a b, a = b.1 ∧ before_rest w s' b.2).
Proof.
  intros Hs Hne. unfold parse_subsection_header, scan_subsection_header.
  eapply cursors_bind; [by apply decimal_run; [..|code]|]. intros s1 first [v r1] Hr1 (->&Hs1&Hnil1).
  cbn [fst snd] in *.
  eapply cursors_bind; [apply separator_run; [done..|code]|]. intros s2 [] r2 Hr2 [Hs2 Hne2].
  eapply cursors_bind; [by apply decimal_run; [..|code]|]. intros s3 count [c r3] Hr3 (->&Hs3&_).
  cbn [fst snd] in *. assert (∀ s (Q : _ → _ → Z * Z * list Z → Prop),
    cursors w syntax_limits (position ← gets cs_position;
      failure_at (A := Z * Z) w InvalidSubsection position) s Wrong Q) as Hfail.
  { intros s' Q. apply cursors_gets, cursors_failure; [done|code]. }
  destruct (c =? 0) eqn:Hc; [apply Hfail|].
  eapply cursors_bind; [apply line_break_run; [done|code]|]. intros s4 [] r4 Hr4 Hs4.
  assert (∀ rest v r, scan_decimal more rest = Scanned (v, r) → 0 ≤ v < 10 ^ 10) as Hbound.
  { clear. intros rest v r Hv%scanned_some. rewrite scan_decimal_value in Hv. revert Hv.
    unfold read_decimal. destruct (run_of _ rest) as [digits r'] eqn:Hr.
    destruct (_ || _) eqn:Ho; [done|]. intros [= <- <-]. apply run_of_class in Hr as [Hd _].
    rewrite !orb_false_iff in Ho. destruct Ho as [[_ H10] _]. apply Nat.ltb_ge in H10.
    pose proof (digits_bound _ Hd).
    assert (10 ^ len digits ≤ 10 ^ 10) by (apply Z.pow_le_mono_r; lia). lia. }
  pose proof (Hbound _ _ _ Hr1). pose proof (Hbound _ _ _ Hr3).
  assert (u32_max = 4294967295) by reflexivity. assert (u64_max = 18446744073709551615) by reflexivity.
  rewrite (proj2 (checked_add_Some _ _ _ (v + c))) by (split; [lia|done]). checked_facts.
  assert ((u32_max <? v) || (u32_max + 1 <? v + c) = (u32_max + 1 <? v + c)) as -> by lia.
  destruct (u32_max + 1 <? v + c); cbn [orb]; [apply Hfail|].
  destruct (from_option _ _ _); [apply Hfail|]. by eapply cursors_ret.
Qed.

(** The rows and subsections so far. *)
Record subsections_so_far (st : SubsectionState) : Prop := {
  sf_count : 0 ≤ ss_subsections st ≤ xl_max_subsections limits;
  sf_previous : ss_subsections st = 0 ↔ ss_previous_end st = None;
  sf_entries : len (ss_entries st) ≤ xl_max_entries limits;
  sf_capacity : 0 ≤ ss_capacity st ≤ xl_max_entries limits
}.

Lemma read_rows_count n number rest rows r :
  read_rows source_len n number rest = Some (rows, r) → length rows = n.
Proof.
  revert number rest rows. induction n as [|n IH]; intros number rest rows; simpl; [by intros [= <- <-]|].
  destruct (length rest <? 20)%nat; [done|]. destruct (read_row _ _ _); [|done]. cbn [mbind option_bind].
  destruct (read_rows _ _ _ (drop 20 rest)) as [[rows' r']|] eqn:Hr; [|done].
  cbn [mbind option_bind]. intros [= <- <-]. simpl. f_equal. by eapply IH.
Qed.

Lemma subsection_run st s rest :
  before_rest w s rest → rest ≠ [] → subsections_so_far st →
  cursors w syntax_limits (parse_subsection w limits st) s
    (scan_subsection source_len more (ss_previous_end st) rest)
    (λ s' a b, before_rest w s' b.2 ∧ ss_entries a = ss_entries st ++ b.1.1 ∧
       ss_previous_end a = Some b.1.2 ∧ subsections_so_far a).
Proof.
  intros Hs Hne [Hcount Hprev Hentries Hcapacity]. unfold parse_subsection, scan_subsection. apply cursors_gets.
  pose proof (wk_limits _ _ _ Hw) as Hlim. unfold xref_limits_ok, XREF_MAX_SUBSECTIONS in Hlim.
  assert (u64_max = 18446744073709551615) by reflexivity.
  cbv zeta. eapply cursors_some; [by apply checked_add_Some; split; [lia|]|].
  destruct (xl_max_subsections limits <? ss_subsections st + 1) eqn:Hm; checked_facts.
  { apply cursors_refused, limited_refused. lia. }
  eapply cursors_bind; [by apply header_run|]. intros s1 [first end_] [[first' end_'] r1] Hhead [Heq Hs1].
  cbn [fst snd] in *. injection Heq as -> ->.
  apply scanned_some in Hhead. rewrite scan_header_value in Hhead.
  apply read_subsection_header_length in Hhead as (_&Hlt&Hmax&Hpos&_).
  eapply cursors_quiet; [apply reserve_run; [done|lia|done]|]. intros s2 capacity (Hp&Htotal&Hcap).
  apply (before_same w _ s2) in Hs1; [|done].
  eapply cursors_bind; [apply entry_loop_run; [done|lia|lia]|]. intros s3 entries [rows r3] Hrows [-> Hs3].
  cbn [fst snd] in *. eapply cursors_ret; [done|]. cbn. split; [done|]. split; [done|]. split; [done|].
  split; cbn; [lia| | |done].
  - split; [lia|done].
  - apply scanned_some in Hrows. rewrite scan_rows_value in Hrows.
    apply read_rows_count in Hrows. rewrite length_app, Hrows. lia.
Qed.
End subsections.

(** ** Trailers *)

Section trailers.
Context `{XrefRuntime} (w : SectionWindow) (limits : XrefLimits) (syntax_limits : SyntaxLimits).
Hypothesis Hw : window_ok w limits syntax_limits.
Local Notation W := (sw_bytes w).
Local Notation more := (window_more w).
Local Notation startxref := (sw_startxref w).
Local Notation source := (snapshot_identity (sw_snapshot w)).
Local Notation stop := (window_stop w).

Ltac code := rewrite !elem_of_cons; tauto.

Lemma malformed_for_code code offset :
  code ∈ [InvalidXrefKeyword; InvalidSubsection; InvalidEntry; InvalidTrailer; UnsupportedXrefStream] →
  xref_malformed (XrefError_for_code code offset).
Proof. intros. left. by destruct (xref_code_facts code offset) as (->&_). Qed.

Lemma cursors_malformed {S A B} code offset (s : S) (spec : scan B) (Q : _ → A → _ → Prop) :
  ruled_out w syntax_limits spec →
  code ∈ [InvalidXrefKeyword; InvalidSubsection; InvalidEntry; InvalidTrailer; UnsupportedXrefStream] →
  cursors w syntax_limits (local_failed (XrefError_for_code code offset)) s spec Q.
Proof. intros. right. split; [done|]. by apply malformed_for_code. Qed.

(** The probe of a loop, every [interval] rounds. *)
Lemma cursors_probe {S A B} (probe : M S (failure LocalFailure) bool) (b : bool) offset
    (k : M S (failure LocalFailure) A) (s : S) (spec : scan B) Q :
  quiet probe s (λ _ c, c = true → ∃ k, parser_cancelled k = true) →
  (∀ s', cursors w syntax_limits k s' spec Q) →
  cursors w syntax_limits (cancelled ← (if b then probe else mret false);
             if cancelled : bool then local_failed (XrefError_for_code XrefCancelled offset) else k)
    s spec Q.
Proof.
  intros Hp Hk. apply (cursors_quiet w _ _ _ _ _ (λ _ c, c = true → ∃ k, parser_cancelled k = true)).
  - by destruct b.
  - intros s' [] Hc; [|apply Hk]. destruct (Hc eq_refl) as [n Hn].
    apply cursors_refused. by eapply cancelled_refused.
Qed.

Lemma probe_quiet (calls : RuntimeCalls) :
  quiet probe calls (λ _ (c : bool), c = true → ∃ k, parser_cancelled k = true).
Proof. unfold quiet, probe. simpl. eauto. Qed.

Lemma unique_trailer_run key offset index value entries calls :
  cursors w syntax_limits (unique_trailer_loop key offset index value entries) calls
    (scan_or Wrong (at_most_one (option_list value ++ key_values key entries))) (λ _, eq).
Proof.
  revert index value calls. induction entries as [|entry entries IH]; intros index value calls.
  { eapply cursors_ret; [|done]. by destruct value. }
  cbn [unique_trailer_loop]. apply cursors_probe; [apply probe_quiet|]. intros calls'.
  rewrite key_values_cons. case_decide as Hkey.
  - rewrite bool_decide_eq_true_2 by done. cbn [negb]. destruct value as [first|].
    + apply cursors_malformed; [done|code].
    + apply (IH _ (Some (entry_value entry))).
  - rewrite bool_decide_eq_false_2 by done. apply IH.
Qed.

Lemma unique_trailer_value_run key offset dictionary calls :
  cursors w syntax_limits (unique_trailer_value dictionary key offset) calls
    (scan_or Wrong (unique_value dictionary key)) (λ _, eq).
Proof. apply (unique_trailer_run key offset 0 None). Qed.

Lemma trailer_section_run entries offset trailer calls :
  startxref ≤ span_start (located_span trailer) → 0 ≤ span_len (located_span trailer) →
  ByteSpan_end_exclusive (located_span trailer) ≤ u64_max →
  cursors w syntax_limits (trailer_section w limits entries offset trailer) calls
    (scan_or Wrong (read_trailer startxref entries trailer)) (λ _, eq).
Proof.
  intros Hstart Hlen Hend. unfold trailer_section, read_trailer. cbv zeta.
  rewrite scan_or_bind. eapply cursors_bind; [apply unique_trailer_value_run|]. intros c1 size ? _ <-.
  rewrite scan_or_bind. eapply cursors_bind; [apply unique_trailer_value_run|]. intros c2 root ? _ <-.
  rewrite scan_or_bind. eapply cursors_bind; [apply unique_trailer_value_run|].
  intros c3 previous ? _ <-.
  rewrite scan_or_bind. eapply cursors_bind; [apply unique_trailer_value_run|].
  intros c4 xref_stream ? _ <-.
  destruct (size ≫= _) as [declared|]; cbn [mbind option_bind].
  2: { apply cursors_stops, cursors_malformed; [done|code]. }
  eapply cursors_some; [done|]. destruct (declared =? 0); [apply cursors_malformed; [done|code]|].
  destruct (xl_max_entries limits <? declared) eqn:Hmax; checked_facts.
  { apply cursors_refused, limited_refused. lia. }
  assert (∀ root, cursors w syntax_limits
    (span_len ← some_or_failed (checked_sub (ByteSpan_end_exclusive (located_span trailer)) startxref)
       (XrefError_for_code XrefInternalState (Some startxref));
     span ← match ByteSpan_new startxref span_len with
            | Ok span => mret span
            | Err _ => local_failed (XrefError_for_code XrefInternalState (Some startxref))
            end;
     mret {| parsed_span := span; parsed_declared_size := declared; parsed_root := root;
             parsed_previous := parse_backward_offset previous;
             parsed_xref_stream := parse_backward_offset xref_stream;
             parsed_entries := entries; parsed_trailer := trailer |}) c4
    (Scanned {| parsed_span := {| span_start := startxref;
               span_len := ByteSpan_end_exclusive (located_span trailer) - startxref |};
             parsed_declared_size := declared; parsed_root := root;
             parsed_previous := parse_backward_offset previous;
             parsed_xref_stream := parse_backward_offset xref_stream;
             parsed_entries := entries; parsed_trailer := trailer |}) (λ _, eq)) as Hspan.
  { intros r. unfold ByteSpan_end_exclusive in *. eapply cursors_some.
    { apply checked_sub_Some. split; [lia|done]. }
    unfold ByteSpan_new. rewrite (proj2 (checked_add_Some _ _ _
      (span_start (located_span trailer) + span_len (located_span trailer)))) by lia.
    by eapply cursors_ret. }
  destruct root as [value|]; [|apply Hspan].
  destruct (as_reference (located_value value)) as [r|]; cbn [mbind option_bind]; [apply Hspan|].
  do 2 apply cursors_stops. apply cursors_malformed; [done|code].
Qed.

(** A parser made for bytes at the end of the window. *)
Lemma with_parser_run {A} base bytes (body : SyntaxParser → M ParserState (failure LocalFailure) A) calls :
  0 ≤ base → base + len bytes = stop → len bytes ≤ len W →
  ∃ p s, parser_of w syntax_limits p ∧ state_ok p s ∧ suffix_at p (ps_cursor s) bytes ∧
    with_parser source base bytes (sw_extent w) syntax_limits body calls =
      (let '(s', outcome) := body p s in (calls_of s', outcome)).
Proof.
  intros Hbase Hstop Hbytes. unfold window_stop in Hstop.
  pose proof (wk_end _ _ _ Hw). pose proof (wk_input _ _ _ Hw). pose proof (wk_syntax _ _ _ Hw) as Hl.
  assert (u64_max = 18446744073709551615) by reflexivity.
  unfold with_parser, SyntaxInput_new.
  rewrite (proj2 (try_from_Some _ _ (len bytes))) by (split; [lia|done]).
  cbn [require mbind result_bind].
  rewrite (proj2 (checked_add_Some _ _ _ (base + len bytes))) by (split; [lia|done]).
  cbn [require mbind result_bind mret result_ret]. unfold SyntaxParser_new. cbn [input_bytes input_base_offset].
  rewrite (proj2 (try_from_Some _ _ (len bytes))) by (split; [lia|done]).
  cbn [require mbind result_bind].
  assert (sl_max_input_bytes syntax_limits <? len bytes = false) as -> by lia.
  cbn [fail_if mbind result_bind mret result_ret].
  eexists _, _. split; [|split; [|split; [|reflexivity]]].
  - split; [|done|done|done|unfold window_end, window, window_stop; simpl; lia|].
    + split; unfold window; simpl; try done; lia.
    + unfold may_continue, window_more, known_source_end. simpl. by destruct (sw_extent w).
  - unfold syntax_limits_ok in Hl. split; simpl; try lia; done.
  - split; [simpl; lia|done].
Qed.

(** What an answer about a part says: a value, or a part that is not read. *)
Definition part_answer (what : syntax_part) (p : SyntaxParser) (s : ParserState) rest : Prop :=
  match part_poll what p s with
  | Some (Ready _) => True
  | Some (NeedMore _) => more = true ∧ part_asks w syntax_limits what rest
  | Some EndOfInput => part_declines w syntax_limits what rest
  | Some (Failed e) =>
      match error_category e with
      | CategorySyntax => part_declines w syntax_limits what rest ∧ error_code e ≠ InternalState
      | _ => refusal e
      end
  | None => False
  end.

Lemma answers_part {T} what p s rest (spec : option (T * list Z)) clean o :
  parser_of w syntax_limits p → state_ok p s → suffix_at p (ps_cursor s) rest →
  answers p (window_end p + 1) spec clean o →
  part_poll what p s =
    match o.2 with
    | Some (Ready _) => Some (Ready tt)
    | Some (NeedMore minimum_end) => Some (NeedMore minimum_end)
    | Some EndOfInput => Some EndOfInput
    | Some (Failed e) => Some (Failed e)
    | None => None
    end →
  part_answer what p s rest.
Proof.
  intros Hp Hs Hc Ha Hpoll. unfold part_answer. rewrite Hpoll.
  destruct o as [s' [[v|n| |e]|]]; cbn [snd] in *; [done| | | |done].
  - destruct Ha as (_&Hm&_). rewrite (pof_more _ _ _ Hp) in Hm. split; [done|]. by exists p, s, n.
  - exists p, s. by auto.
  - destruct Ha as (_&_&Hi&_&Hcat). rewrite (pof_stop _ _ _ Hp) in Hi.
    assert (error_code e ≠ InternalState) as Hcode.
    { intros [_ Hlt]%Hi. unfold window_stop in Hlt. pose proof (wk_end _ _ _ Hw). lia. }
    destruct (error_category e) eqn:He; try (by destruct Hcat). split; [|done].
    exists p, s. split; [done|]. split; [done|]. split; [done|]. right. by exists e.
Qed.

Lemma object_part p s rest :
  parser_of w syntax_limits p → state_ok p s → suffix_at p (ps_cursor s) rest →
  part_answer ObjectPart p s rest.
Proof.
  intros Hp Hs Hc. eapply answers_part; [exact Hp|exact Hs|exact Hc|apply parse_object_answers; [apply Hp|done..]|done].
Qed.

Lemma keyword_part word p s rest :
  parser_of w syntax_limits p → state_ok p s → suffix_at p (ps_cursor s) rest →
  part_answer (KeywordPart word) p s rest.
Proof.
  intros Hp Hs Hc. eapply answers_part; [exact Hp|exact Hs|exact Hc|apply expect_keyword_answers; [apply Hp|done..]|done].
Qed.

Lemma line_part p s rest :
  parser_of w syntax_limits p → state_ok p s → suffix_at p (ps_cursor s) rest →
  part_answer LinePart p s rest.
Proof.
  intros Hp Hs Hc.
  eapply answers_part; [exact Hp|exact Hs|exact Hc|apply consume_stream_line_ending_answers; [apply Hp|done..]|done].
Qed.

Lemma trailer_dictionary_run p bytes offset s :
  parser_of w syntax_limits p → state_ok p s → suffix_at p (ps_cursor s) bytes →
  cursors w syntax_limits (trailer_dictionary offset p) s
    ('(object, _) ← scan_object source stop more bytes; scan_or Wrong (trailer_of object))
    (λ _, eq).
Proof.
  intros Hp Hs Hc. pose proof (parse_object_answers p (pof_ok _ _ _ Hp) s bytes Hs Hc) as Ha.
  pose proof (object_part p s bytes Hp Hs Hc) as Hpart.
  rewrite (pof_source _ _ _ Hp), (pof_stop _ _ _ Hp), (pof_more _ _ _ Hp) in Ha.
  unfold part_answer, part_poll in Hpart.
  unfold trailer_dictionary, cursors, scan_object. unfold answers in Ha.
  destruct (parse_object p s) as [s' [[o|n| |e]|]]; cbn [snd] in *; [| | | |done].
  - destruct Ha as (_&r&->&_). cbn [scan_or mbind scan_bind]. unfold trailer_of.
    destruct (located_value o); try (right; split; [done|apply malformed_for_code; code]).
    by eexists.
  - destruct Ha as (_&_&->&_). exact Hpart.
  - destruct Ha as (_&_&->&_). right. split; [done|apply malformed_for_code; code].
  - destruct Ha as (_&_&_&_&Hcat). destruct (error_category e); try (left; right; right; by exists e).
    destruct Hcat as [-> _], Hpart as [Hd Hcode]. right. split; [exact Hd|]. right. by exists e.
Qed.

Lemma parse_trailer_run entries (s : CursorState) rest :
  before_rest w s rest →
  cursors w syntax_limits (parse_trailer w limits syntax_limits entries) s
    (scan_trailer source startxref stop more entries rest) (λ _, eq).
Proof.
  intros Hs. unfold parse_trailer, scan_trailer. apply cursors_gets. rewrite (before_end _ _ _ Hs).
  pose proof (before_length _ _ _ Hs) as Hlen.
  pose proof (wk_start _ _ _ Hw). pose proof (wk_end _ _ _ Hw).
  case_bool_decide as Hr.
  { apply cursors_incomplete; [done|code]. }
  rewrite absolute_offset_exact by lia. unfold mbind at 1, M_bind. cbv beta iota.
  rewrite (proj2 Hs). set (offset := startxref + Z.of_nat (cs_position s)).
  replace ('(object, _) ← scan_object source stop more rest;
           scan_or Wrong (trailer_of object ≫= read_trailer startxref entries))
    with (('(object, _) ← scan_object source stop more rest; scan_or Wrong (trailer_of object)) ≫=
          λ trailer, scan_or Wrong (read_trailer startxref entries trailer)).
  2: { unfold scan_object. destruct (read_object _ _ _ _) as [[object r]|]; [|done].
       cbn [scan_or mbind scan_bind]. symmetry. apply scan_or_bind. }
  assert (cursors w syntax_limits (with_parser source offset rest (sw_extent w) syntax_limits (trailer_dictionary offset))
    (cs_calls s) ('(object, _) ← scan_object source stop more rest; scan_or Wrong (trailer_of object))
    (λ _, eq)) as Htrailer.
  { destruct (with_parser_run offset rest (trailer_dictionary offset) (cs_calls s))
      as (p&s'&Hp&Hs'&Hc&Hrun); [lia|unfold window_stop; lia|lia|].
    pose proof (trailer_dictionary_run p rest offset s' Hp Hs' Hc) as Hd.
    unfold cursors in Hd |- *. rewrite Hrun. by destruct (trailer_dictionary _ _ _) as [? [?|[[|?]|]]]. }
  assert (∀ {A B} (m : LocalM A) s (spec : scan B) (Q : A → B → Prop),
    cursors w syntax_limits m (cs_calls s) spec (λ _, Q) → cursors w syntax_limits (on_calls m) s spec (λ _, Q)) as Hcalls.
  { clear. intros A B m s spec Q. unfold cursors, on_calls, zoom.
    by destruct (m (cs_calls s)) as [c [a|[[|e]|]]]. }
  eapply cursors_bind; [by apply Hcalls|]. intros s' trailer ? Htr <-.
  unfold scan_object in Htr.
  destruct (read_object source stop more rest) as [[object r]|] eqn:Hobj; [|done].
  apply read_object_nested in Hobj as [(_&Hlo&Hne&Hhi)%nested_placed _].
  cbn [scan_or mbind scan_bind] in Htr. unfold trailer_of in Htr.
  destruct (located_value object); try done. injection Htr as <-.
  unfold offset_of, window_stop, ByteSpan_end_exclusive in *.
  apply Hcalls, trailer_section_run; unfold ByteSpan_end_exclusive; cbn [located_span]; lia.
Qed.

(** ** Sections *)

(** What follows the rows: the trailer. *)
Definition scan_rest (entries : list XrefEntry) (rest : list Z) : scan ParsedTraditionalSection :=
  r ← scan_or Short (read_trivia more false rest);
  scan_trailer source startxref stop more entries r.

Lemma section_loop_run fuel st (s : CursorState) rest :
  before_rest w s rest → subsections_so_far limits st → (length rest < fuel)%nat →
  cursors w syntax_limits (section_loop w limits syntax_limits fuel st) s
    ('(entries, r) ← scan_subsections (sw_source_len w) more fuel (ss_previous_end st) rest;
     scan_rest (ss_entries st ++ entries) r)
    (λ _, eq).
Proof.
  revert st s rest. induction fuel as [|fuel IH]; intros st s rest Hs Hst Hf; [lia|].
  cbn [section_loop scan_subsections]. pose proof (before_length _ _ _ Hs) as Hlen.
  rewrite scan_bind_assoc.
  eapply cursors_bind; [apply skip_whitespace_run; [done|lia]|].
  intros s1 [] r1 Htrivia Hs1. apply cursors_gets. rewrite (before_end _ _ _ Hs1).
  case_bool_decide as Hr1; [rewrite scan_cut_bind; apply cursors_incomplete; [done|code]|].
  rewrite scan_bind_assoc.
  eapply cursors_bind; [by apply keyword_run|]. intros s2 trailer ? Hkw [-> <-].
  destruct trailer.
  - destruct (ss_subsections st =? 0) eqn:Hzero; checked_facts.
    + apply (sf_previous _ _ Hst) in Hzero as ->. apply cursors_failure; [done|code].
    + destruct (ss_previous_end st) eqn:Hprev.
      2: { by apply (sf_previous _ _ Hst) in Hprev. }
      cbn [mbind scan_bind]. rewrite app_nil_r. apply cursors_modify.
      assert (7 ≤ length r1)%nat as H7.
      { apply scanned_some in Hkw. rewrite scan_value_or in Hkw by done. unfold read_trailer_keyword in Hkw. destruct (length r1 <? 7)%nat eqn:H7;
          [by destruct (_ && _)|by apply Nat.ltb_ge in H7]. }
      apply (before_moved _ _ 7) in Hs1; [|done]. unfold scan_rest.
      pose proof (before_length _ _ _ Hs1) as Hlen1.
      eapply cursors_bind; [apply skip_whitespace_run; [done|lia]|].
      intros s3 [] r3 _ Hs3. by apply parse_trailer_run.
  - rewrite scan_bind_assoc.
    eapply cursors_bind; [by apply (subsection_run _ _ _ Hw)|].
    intros s3 st' [[rows end_] r3] Hsub (Hs3&Hentries&Hend&Hst'). cbn [fst snd] in *.
    assert (length r3 < length r1)%nat as Hshort.
    { apply scanned_some in Hsub. rewrite scan_subsection_value in Hsub.
      destruct (read_subsection_header _ _ _) as [[[first end_'] r]|] eqn:Hhead; [|done].
      apply read_subsection_header_length in Hhead as [Hl _]. cbn [mbind option_bind] in Hsub.
      destruct (read_rows _ _ _ _) as [[rows' r']|] eqn:Hrows; [|done].
      apply read_rows_length in Hrows. injection Hsub as -> -> ->. lia. }
    apply scanned_some in Htrivia. rewrite scan_value_or in Htrivia by done.
    apply read_trivia_length in Htrivia.
    specialize (IH st' s3 r3 Hs3 Hst' ltac:(lia)). rewrite Hend, Hentries in IH.
    rewrite scan_bind_assoc.
    assert (∀ b : list XrefEntry * list Z,
      ('(entries, r) ← (let '(entries', r) := b in Scanned (rows ++ entries', r));
       scan_rest (ss_entries st ++ entries) r) =
      (let '(entries, r) := b in scan_rest ((ss_entries st ++ rows) ++ entries) r)) as Hrest.
    { intros [entries' r']. cbn [mbind scan_bind]. by rewrite <-app_assoc. }
    destruct (scan_subsections _ _ _ _ _) as [b| | |what r]; [|exact IH..]. cbn [mbind scan_bind] in *.
    by rewrite Hrest.
Qed.

(** ** Targets that are no tables *)

(** A classification that scans [spec] asks for more of a window that ends too early for
    [spec], or is refused, or ends with a value of [Q]. *)
Definition classified {S A B} (m : M S (failure LocalFailure) A) (s : S) (spec : scan B)
    (Q : S → A → Prop) : Prop :=
  match m s with
  | (s', Ok a) => Q s' a
  | (_, Err (Rejected LocalNeedMore)) => more = true ∧ cut_short w syntax_limits spec
  | (_, Err (Rejected (LocalFailed e))) => xref_refused e
  | (_, Err Panicked) => False
  end.

Lemma classified_bind {S A B C D} (m : M S (failure LocalFailure) A)
    (k : A → M S (failure LocalFailure) B) (s : S) (spec : scan C) (f : C → scan D) Q R :
  classified m s spec Q → (∀ s' a, Q s' a → classified (k a) s' (spec ≫= f) R) →
  classified (m ≫= k) s (spec ≫= f) R.
Proof.
  unfold classified. intros Hm Hk. destruct (m s) as [s' [a|e]] eqn:Hms.
  { erewrite bind_ok by exact Hms. by apply Hk. }
  erewrite bind_err by exact Hms. destruct e as [[|e]|]; [|done..].
  destruct Hm. split; [done|by apply cut_short_bind].
Qed.

(** What reads nothing. *)
Lemma classified_quiet {S A B D} (m : M S (failure LocalFailure) A)
    (k : A → M S (failure LocalFailure) B) (s : S) (spec : scan D) Q R :
  quiet m s Q → (∀ s' a, Q s' a → classified (k a) s' spec R) → classified (m ≫= k) s spec R.
Proof.
  unfold quiet, classified, mbind, M_bind. intros Hm Hk.
  by destruct (m s) as [s' [a|[[|e]|]]]; [apply Hk|..].
Qed.

(** The parser is before [rest]. *)
Definition stands (p : SyntaxParser) (s : ParserState) (rest : list Z) : Prop :=
  state_ok p s ∧ suffix_at p (ps_cursor s) rest.

Lemma classified_probe {T} what p (m : ParserState → ParserState * option (SyntaxPoll T)) reads clean
    s rest :
  answers p (window_end p + 1) reads clean (m s) → part_answer what p s rest →
  part_poll what p s =
    match (m s).2 with
    | Some (Ready _) => Some (Ready tt)
    | Some (NeedMore minimum_end) => Some (NeedMore minimum_end)
    | Some EndOfInput => Some EndOfInput
    | Some (Failed e) => Some (Failed e)
    | None => None
    end →
  let spec := scan_or (Unread what rest) reads in
  classified (probe_syntax m) s spec (λ s' o,
    match o with
    | Some v => ∃ r, spec = Scanned (v, r) ∧ stands p s' r
    | None => ruled_out w syntax_limits spec
    end).
Proof.
  intros Ha Hpart Hpoll. unfold part_answer in Hpart. rewrite Hpoll in Hpart.
  unfold classified, probe_syntax. unfold answers in Ha.
  destruct (m s) as [s' [[v|n| |e]|]]; cbn [snd] in *; [| | | |done].
  - destruct Ha as (Hs&r&->&Hr). exists r. by split.
  - destruct Ha as (_&_&->&_). exact Hpart.
  - destruct Ha as (_&_&->&_). exact Hpart.
  - destruct Ha as (_&_&_&_&Hcat). destruct (error_category e); try (right; right; by exists e).
    destruct Hcat as [-> _]. by destruct Hpart.
Qed.

Lemma classified_object p s rest :
  parser_of w syntax_limits p → stands p s rest →
  let spec := scan_object source stop more rest in
  classified (probe_syntax (parse_object p)) s spec (λ s' o,
    match o with
    | Some v => ∃ r, spec = Scanned (v, r) ∧ stands p s' r
    | None => ruled_out w syntax_limits spec
    end).
Proof.
  intros Hp [Hs Hc]. pose proof (parse_object_answers p (pof_ok _ _ _ Hp) s rest Hs Hc) as Ha.
  rewrite (pof_source _ _ _ Hp), (pof_more _ _ _ Hp) in Ha. rewrite (pof_stop _ _ _ Hp) in Ha at 2.
  by eapply (classified_probe ObjectPart); [exact Ha|apply object_part|].
Qed.

Lemma classified_word word p s rest :
  parser_of w syntax_limits p → stands p s rest →
  let spec := scan_word source stop more word rest in
  classified (probe_syntax (expect_keyword p word)) s spec (λ s' o,
    match o with
    | Some v => ∃ r, spec = Scanned (v, r) ∧ stands p s' r
    | None => ruled_out w syntax_limits spec
    end).
Proof.
  intros Hp [Hs Hc]. pose proof (expect_keyword_answers p (pof_ok _ _ _ Hp) word s rest Hs Hc) as Ha.
  rewrite (pof_source _ _ _ Hp), (pof_more _ _ _ Hp) in Ha. rewrite (pof_stop _ _ _ Hp) in Ha at 2.
  by eapply (classified_probe (KeywordPart word)); [exact Ha|apply keyword_part|].
Qed.

Lemma classified_line p s rest :
  parser_of w syntax_limits p → stands p s rest →
  let spec := scan_or (Unread LinePart rest) (read_line_ending stop rest) in
  classified (probe_syntax (consume_stream_line_ending p)) s spec (λ s' o,
    match o with
    | Some v => ∃ r, spec = Scanned (v, r) ∧ stands p s' r
    | None => ruled_out w syntax_limits spec
    end).
Proof.
  intros Hp [Hs Hc]. pose proof (consume_stream_line_ending_answers p (pof_ok _ _ _ Hp) s rest Hs Hc) as Ha.
  rewrite (pof_stop _ _ _ Hp) in Ha at 2.
  by eapply (classified_probe LinePart); [exact Ha|apply line_part|].
Qed.

(** The value of a key: none, or one. *)
Definition only_value (values : list SyntaxObject) : option SyntaxObject :=
  match values with [value] => Some value | _ => None end.

Lemma unique_dictionary_run key offset index value entries p s rest :
  stands p s rest →
  quiet (unique_dictionary_loop key offset index value entries) s (λ s' o,
    stands p s' rest ∧
    o = only_value (option_list value ++ (located_value <$> key_values key entries))).
Proof.
  revert index value s. induction entries as [|entry entries IH]; intros index value s Hs.
  { split; [done|]. by destruct value. }
  cbn [unique_dictionary_loop].
  assert (quiet (if (index mod 256 =? 0)%nat then classify_probe else mret false) s
    (λ s' (c : bool), stands p s' rest ∧ (c = true → ∃ k, parser_cancelled k = true))) as Hprobe.
  { destruct (_ =? _)%nat; [|by split]. unfold quiet, classify_probe, gets, modify, mbind, M_bind.
    split; [|eauto]. destruct Hs as [Hs Hc]. split; [|done].
    eapply same_work_ok; [|exact Hs]. by split_and!. }
  eapply quiet_bind; [exact Hprobe|]. intros s1 [] [Hs1 Hcancel].
  { destruct (Hcancel eq_refl) as [n Hn]. by eapply cancelled_refused. }
  rewrite key_values_cons. case_bool_decide as Hkey; cbn [negb].
  - rewrite decide_True by done. destruct value as [first|]; [by split|].
    exact (IH (S index) (Some (value_object entry)) s1 Hs1).
  - rewrite decide_False by done. by apply IH.
Qed.

Lemma stream_dictionary_run entries p s rest :
  stands p s rest →
  quiet (stream_dictionary_ok entries startxref) s (λ s' ok,
    stands p s' rest ∧ ok = stream_dictionary entries).
Proof.
  intros Hs. unfold stream_dictionary_ok, unique_dictionary_value, stream_dictionary.
  assert (∀ key, dictionary_value entries key = only_value (located_value <$> key_values key entries)) as Hv.
  { intros key. unfold dictionary_value. by destruct (key_values key entries) as [|v [|]]. }
  do 4 (eapply quiet_bind; [by apply (unique_dictionary_run _ _ _ _ _ p)|]; intros ? ? [? ->]).
  cbn [option_list app]. rewrite !Hv. by split.
Qed.

Definition verdict (code : XrefErrorCode) : Prop :=
  code = InvalidXrefKeyword ∨ code = UnsupportedXrefStream.

Lemma classify_object_run {B} p s rest :
  parser_of w syntax_limits p → stands p s rest →
  let spec := scan_indirect (A := B) source stop more rest in
  classified (classify_object startxref p) s spec (λ _ code,
    verdict code ∧ ruled_out w syntax_limits spec).
Proof.
  intros Hp Hs spec. subst spec.
  assert (∀ (spec : scan B) (s : ParserState), ruled_out w syntax_limits spec →
    classified (mret InvalidXrefKeyword) s spec (λ _ code, verdict code ∧ ruled_out w syntax_limits spec))
    as Hno by (by split; [left|]).
  unfold classify_object, scan_indirect.
  eapply classified_bind; [by apply classified_object|]. intros s1 [number|] Hs1.
  2: { by apply Hno, ruled_out_bind. }
  destruct Hs1 as (r1&->&Hs1). cbn [mbind option_bind scan_bind].
  destruct (unsigned_object u32_max (located_value number)) as [value|]; cbn [from_option]; [|by apply Hno].
  destruct (value =? 0); [by apply Hno|].
  eapply classified_bind; [by apply classified_object|]. intros s2 [generation|] Hs2.
  2: { by apply Hno, ruled_out_bind. }
  destruct Hs2 as (r2&->&Hs2). cbn [mbind option_bind scan_bind].
  destruct (unsigned_object u16_max (located_value generation)); cbn [is_some negb];
    [rewrite bool_decide_eq_false_2 by done|rewrite bool_decide_eq_true_2 by done; by apply Hno].
  eapply classified_bind; [by apply classified_word|]. intros s3 [keyword|] Hs3; cbn [is_some negb].
  2: { by apply Hno, ruled_out_bind. }
  destruct Hs3 as (r3&->&Hs3). cbn [mbind scan_bind].
  eapply classified_bind; [by apply classified_object|]. intros s4 [object|] Hs4.
  2: { by apply Hno, ruled_out_bind. }
  destruct Hs4 as (r4&->&Hs4). cbn [mbind scan_bind fmap option_fmap option_map].
  destruct (located_value object) as [| | | | | | |entries|]; try by apply Hno.
  eapply classified_quiet; [by apply stream_dictionary_run|]. intros s5 ok [Hs5 ->].
  destruct (stream_dictionary entries); cbn [negb]; [|by apply Hno].
  eapply classified_bind; [by apply classified_word|]. intros s6 [keyword'|] Hs6; cbn [is_some negb].
  2: { by apply Hno, ruled_out_bind. }
  destruct Hs6 as (r6&->&Hs6). cbn [mbind scan_bind].
  eapply classified_bind; [by apply classified_line|]. intros s7 [line|] Hs7.
  - destruct Hs7 as (r7&->&_). split; [by right|done].
  - split; [by left|by apply ruled_out_bind].
Qed.

Lemma classify_target_run {B} (s : CursorState) (Q : _ → ParsedTraditionalSection → B → Prop) :
  W ≠ [] → cursors w syntax_limits (classify_target w syntax_limits) s (scan_target source stop more W) Q.
Proof.
  intros Hne. unfold classify_target.
  assert (classified (classify_non_table_target source startxref W (sw_extent w) syntax_limits)
    (cs_calls s) (scan_target (A := B) source stop more W)
    (λ _ code, verdict code ∧ ruled_out w syntax_limits (scan_target (A := B) source stop more W))) as Hc.
  { assert (∃ first, head W = Some first ∧ scan_target (A := B) source stop more W =
      if is_ascii_digit first || (first =? 43) || (first =? 45)
      then scan_indirect source stop more W else Wrong) as (first&Hhead&->).
    { unfold scan_target. destruct W as [|first l]; [done|]. by exists first. }
    unfold classify_non_table_target. rewrite Hhead.
    unfold classified, ok_or, mbind, M_bind. rewrite <-negb_orb, orb_assoc.
    destruct (is_ascii_digit first || _ || _); cbn [negb].
    2: { by split; [left|]. }
    destruct (with_parser_run startxref W (classify_object startxref) (cs_calls s)
      (wk_start _ _ _ Hw) eq_refl ltac:(lia)) as (p&s'&Hp&Hs'&Hc&Hrun).
    pose proof (classify_object_run (B := B) p s' W Hp (conj Hs' Hc)) as Hd.
    unfold classified in Hd. rewrite Hrun.
    by destruct (classify_object _ _ _) as [? [?|[[|?]|]]]. }
  unfold classified in Hc. unfold cursors, on_calls, zoom, mbind, M_bind.
  destruct (classify_non_table_target _ _ _ _ _ _) as [c [code|[[|e]|]]]; [|done| |done].
  - destruct Hc as [Hc ?]. right. split; [done|]. apply malformed_for_code. destruct Hc as [->| ->]; code.
  - by left.
Qed.

Lemma parse_section_inner_run calls :
  cursors w syntax_limits (parse_section_inner w limits syntax_limits) {| cs_position := 0; cs_calls := calls |}
    (scan_section source startxref (sw_source_len w) stop more W) (λ _, eq).
Proof.
  unfold parse_section_inner, scan_section. cbv zeta.
  destruct (length W <? 4)%nat eqn:Hl; cbn [andb].
  - rewrite more_known. destruct (known_source_end w) eqn:Hk; cbn [negb orb].
    { rewrite andb_false_r. unfold cut.
      destruct W as [|b l]; apply cursors_failure; by (done || code). }
    rewrite andb_true_r. destruct (bool_decide (take _ _ = W)) eqn:Hprefix; [by apply cursors_need_more; [|rewrite more_known, Hk]|].
    apply Nat.ltb_lt in Hl. rewrite (bool_decide_eq_false_2 (take 4 W = octets "xref")).
    2: { intros Heq%(f_equal length). rewrite length_take in Heq.
         change (length (octets "xref")) with 4%nat in Heq. lia. }
    cbn [negb]. pose proof (classify_target_run (B := ParsedTraditionalSection)) as Hclassify. rewrite more_known, Hk in Hclassify.
    unfold scan_target in *. destruct W as [|b l] eqn:HW; [done|]. cbn [andb].
    destruct (is_ascii_digit b || (b =? 43) || (b =? 45)); [by apply Hclassify|].
    apply cursors_failure; [done|code].
  - apply Nat.ltb_ge in Hl. case_bool_decide as Hx; cbn [negb].
    2: { apply classify_target_run. intros Hnil. rewrite Hnil in Hl. simpl in Hl. lia. }
    apply cursors_modify.
    assert (before_rest w (set_position 4 {| cs_position := 0; cs_calls := calls |}) (drop 4 W)) as Hs
      by (by split).
    eapply cursors_bind; [apply line_break_run; [done|code]|]. intros s1 [] r1 Hr1 Hs1.
    apply scanned_some in Hr1. rewrite scan_line_break_value in Hr1.
    apply read_line_break_length in Hr1. rewrite length_drop in Hr1.
    assert (subsections_so_far limits no_subsections) as Hst.
    { pose proof (wk_limits _ _ _ Hw) as Hlim. unfold xref_limits_ok in Hlim. split; simpl; [lia|done|lia|lia]. }
    exact (section_loop_run (S (length W)) no_subsections s1 r1 Hs1 Hst ltac:(lia)).
Qed.
End trailers.

(** ** Larger windows *)

(** The window of the same section with more bytes, up to the end of the source or not. *)
Definition larger_window (w : SectionWindow) (ext : list Z) (extent : InputExtent) : SectionWindow :=
  {| sw_snapshot := sw_snapshot w; sw_startxref := sw_startxref w;
     sw_bytes := sw_bytes w ++ ext; sw_extent := extent; sw_source_len := sw_source_len w |}.

(** How much of a section the bytes of a window decide. *)
Definition window_scan (w : SectionWindow) : scan ParsedTraditionalSection :=
  scan_section (snapshot_identity (sw_snapshot w)) (sw_startxref w) (sw_source_len w)
    (window_stop w) (window_more w) (sw_bytes w).

(** The section that they denote. *)
Definition window_section (w : SectionWindow) : option ParsedTraditionalSection :=
  read_section (snapshot_identity (sw_snapshot w)) (sw_startxref w) (sw_source_len w)
    (window_stop w) (window_more w) (sw_bytes w).

Lemma window_scan_value w : scan_value (window_scan w) = window_section w.
Proof. apply scan_section_value. Qed.

Section larger.
Context `{XrefRuntime} (w : SectionWindow) (limits : XrefLimits) (syntax_limits : SyntaxLimits).

Lemma cut_short_value {B} (spec : scan B) : cut_short w syntax_limits spec → scan_value spec = None.
Proof. by destruct spec. Qed.
Lemma ruled_out_value {B} (spec : scan B) : ruled_out w syntax_limits spec → scan_value spec = None.
Proof. by destruct spec. Qed.

Context (ext : list Z) (extent : InputExtent).
Hypothesis Hmore : window_more w = true.
Hypothesis Hlarger : window_ok (larger_window w ext extent) limits syntax_limits.

Lemma larger_stop : window_stop (larger_window w ext extent) = window_stop w + len ext.
Proof. unfold window_stop. cbn [larger_window sw_startxref sw_bytes]. rewrite length_app. lia. Qed.

Lemma extended_ok p :
  parser_of w syntax_limits p → parser_ok (extended p ext extent) ∧
  window_end (extended p ext extent) = window_stop w + len ext ∧
  may_continue (extended p ext extent) = window_more (larger_window w ext extent).
Proof.
  intros [[Hbase Hend Hin Hlim Hret] Hsource Hlimits Hbytes Hstop Hm].
  pose proof (wk_end _ _ _ Hlarger) as Hwe. pose proof (wk_input _ _ _ Hlarger) as Hwi.
  cbn [larger_window sw_startxref sw_bytes] in Hwe, Hwi. rewrite length_app in Hwe, Hwi.
  unfold window_end, window_stop in Hstop.
  assert (len (window (extended p ext extent)) = len (window p) + len ext) as Hlen.
  { unfold window, extended. cbn [sp_input input_bytes]. rewrite length_app. lia. }
  split; [|split].
  - split; rewrite ?Hlen; unfold extended; cbn [sp_input input_base_offset sp_limits sp_max_retained_bytes];
      [done|lia|rewrite Hlimits; lia|done|done].
  - unfold window_end. rewrite Hlen. unfold extended, window_stop. cbn [sp_input input_base_offset]. lia.
  - unfold may_continue, window_more, known_source_end. cbn. by destruct extent.
Qed.

(** An object that the parser declines is in no longer window. *)
Lemma declined_object rest :
  part_declines w syntax_limits ObjectPart rest →
  read_object (snapshot_identity (sw_snapshot w)) (window_stop w + len ext)
    (window_more (larger_window w ext extent)) (rest ++ ext) = None.
Proof.
  intros (p&s&Hp&Hs&Hc&Hpoll). pose proof (extended_ok p Hp) as (Hok'&Hstop'&Hmore').
  pose proof (pof_ok _ _ _ Hp) as Hok. pose proof (pof_more _ _ _ Hp) as Hpm. rewrite Hmore in Hpm.
  pose proof (parse_object_answers p Hok s rest Hs Hc) as Ha. unfold part_poll in Hpoll.
  assert (input_base_offset (sp_input p) + len (window p) < u64_max) as Hend.
  { pose proof (pof_stop _ _ _ Hp) as Hstop. pose proof (wk_end _ _ _ Hlarger) as Hwe.
    cbn [larger_window sw_startxref sw_bytes] in Hwe. rewrite length_app in Hwe.
    unfold window_end, window_stop in Hstop. lia. }
  pose proof (parse_object_final p ext extent Hok Hpm Hend s) as Hfinal. unfold final_poll in Hfinal.
  unfold answers in Ha. destruct (parse_object p s) as [s1 [[v|n| |e]|]]; cbn [snd] in Hpoll.
  1, 2, 5: by destruct Hpoll as [?|(?&?&?)].
  { destruct Ha as (_&Hno&_). by rewrite Hpm in Hno. }
  destruct Hpoll as [?|(e'&[= <-]&Hcat)]; [done|].
  destruct Ha as (_&_&_&_&Hcat'). rewrite Hcat in Hcat'. destruct Hcat' as [_ Habout].
  destruct Hfinal as [[[Hcode _]|[Hcode _]]|Hfinal]; [by rewrite Hcode in Habout..|].
  assert (suffix_at (extended p ext extent) (ps_cursor s) (rest ++ ext)) as Hc'.
  { destruct Hc as [Hle <-]. unfold suffix_at, window, extended. cbn [sp_input input_bytes].
    fold (window p). rewrite length_app. split; [lia|by rewrite drop_app_le]. }
  assert (state_ok (extended p ext extent) s) as Hs'.
  { destruct Hs. split; try done. unfold window, extended. cbn [sp_input input_bytes].
    fold (window p). rewrite length_app. lia. }
  pose proof (parse_object_answers _ Hok' s (rest ++ ext) Hs' Hc') as Ha'.
  rewrite Hfinal, Hstop', Hmore' in Ha'. destruct Ha' as (_&_&_&_&Hnone). rewrite Hcat in Hnone.
  destruct Hnone as [Hnone _]. cbn in Hnone. by rewrite (pof_source _ _ _ Hp) in Hnone.
Qed.

(** Bytes that an attempt rules out are in no longer window. *)
Lemma ruled_out_final :
  ruled_out w syntax_limits (window_scan w) → window_section (larger_window w ext extent) = None.
Proof.
  intros Hwrong. unfold window_scan in Hwrong. rewrite Hmore in Hwrong.
  pose proof (scan_section_final (snapshot_identity (sw_snapshot w)) (sw_startxref w) (sw_source_len w)
    (window_stop w) (window_more (larger_window w ext extent)) ext (sw_bytes w)) as Hfinal.
  cbv zeta in Hfinal. unfold window_section. rewrite larger_stop.
  cbn [larger_window sw_snapshot sw_startxref sw_source_len sw_bytes].
  destruct (scan_section _ _ _ _ true (sw_bytes w)) as [| | |what rest]; [done|done|exact Hfinal|].
  apply Hfinal. intros ->. by apply declined_object.
Qed.
End larger.
