(* ===== verification/XrefProps.v ===== *)
(** * Traditional cross-reference sections: checks, properties and runs

    What [finalize_base_section] and [finalize_revision_section] of [parser.rs]
    accept, as conditions on the rows and the trailer ([base_final],
    [revision_final]), and that the functions decide them. Attempts on windows decide
    what the reference reader and these conditions say ([sections_exact]); their answers
    are final, and what they accept is well formed; printed tables are read back. Concrete runs end
    the file. *)

From stdpp Require Import base list numbers option strings sorting.
From S2P Require Import Prelude.
From S2P Require Import SourceTypes.
From S2P Require Import SyntaxTypes.
From S2P Require Import SyntaxState.
From S2P Require Import SyntaxLexer.
From S2P Require Import SyntaxParser.
From S2P Require Import SyntaxRules.
From S2P Require Import SyntaxReader.
From S2P Require Import SyntaxTrivia.
From S2P Require Import SyntaxGrowth.
From S2P Require Import SyntaxPrint.
From S2P Require Import SyntaxProps.
From S2P Require Import ObjectParser.
From S2P Require Import XrefTypes.
From S2P Require Import XrefTail.
From S2P Require Import XrefParser.
From S2P Require Import XrefReader.
From S2P Require Import XrefSections.

(** ** Rows of a section *)

(** The rows are for objects in increasing order, from a first one on. *)
Fixpoint rows_from (first : Z) (entries : list XrefEntry) : Prop :=
  match entries with
  | [] => True
  | entry :: entries =>
      first ≤ row_object_number entry ≤ u32_max ∧ rows_from (row_object_number entry + 1) entries
  end.

Lemma rows_from_weaken first first' entries :
  first' ≤ first → rows_from first entries → rows_from first' entries.
Proof. destruct entries; simpl; [done|]. intros ? [? ?]. split; [lia|done]. Qed.

Lemma rows_from_bounds first entries entry :
  rows_from first entries → entry ∈ entries → first ≤ row_object_number entry ≤ u32_max.
Proof.
  revert first. induction entries as [|e entries IH]; intros first Hr Hin; [by apply not_elem_of_nil in Hin|].
  destruct Hr as [He Hr]. apply elem_of_cons in Hin as [->|Hin]; [done|].
  apply (IH _ Hr) in Hin. lia.
Qed.

(** A section has at most one row for an object, which the lookup finds. *)
Lemma row_of_elem first entries entry :
  rows_from first entries → entry ∈ entries → row_of entries (row_object_number entry) = Some entry.
Proof.
  revert first. induction entries as [|e entries IH]; intros first Hr Hin; [by apply not_elem_of_nil in Hin|].
  destruct Hr as [He Hr]. unfold row_of. simpl. apply elem_of_cons in Hin as [->|Hin].
  { by rewrite Z.eqb_refl. }
  pose proof (rows_from_bounds _ _ _ Hr Hin).
  assert (row_object_number e =? row_object_number entry = false) as -> by lia. by eapply IH.
Qed.

Lemma row_of_Some entries number entry :
  row_of entries number = Some entry → entry ∈ entries ∧ row_object_number entry = number.
Proof.
  unfold row_of. intros [Hin Heq]%find_some. apply Z.eqb_eq in Heq.
  split; [by apply list_elem_of_In|done].
Qed.

Lemma numbered_bounds first size entries entry :
  row_object_number <$> entries = seqZ first size → entry ∈ entries →
  first ≤ row_object_number entry < first + size.
Proof. intros Hn Hin. apply elem_of_seqZ. rewrite <-Hn. by apply list_elem_of_fmap_2. Qed.

(** The last row is the one with the largest number. *)
Lemma maximum_below first entries size :
  rows_from first entries → 0 < size →
  (maximum_object entries < size ↔ ∀ entry, entry ∈ entries → row_object_number entry < size).
Proof.
  intros Hr Hs. unfold maximum_object. split.
  - revert first Hr. induction entries as [|e entries IH]; intros first Hr Hmax entry Hin;
      [by apply not_elem_of_nil in Hin|].
    destruct Hr as [He Hr]. rewrite last_cons in Hmax. apply elem_of_cons in Hin as [->|Hin].
    + destruct (last entries) as [l|] eqn:Hl; [|done]. apply last_Some_elem_of in Hl.
      pose proof (rows_from_bounds _ _ _ Hr Hl). lia.
    + destruct (last entries) as [l|] eqn:Hl; [by eapply IH|].
      apply last_None in Hl as ->. by apply not_elem_of_nil in Hin.
  - intros Hall. destruct (last entries) as [l|] eqn:Hl; [|done]. apply Hall. by apply last_Some_elem_of.
Qed.

Lemma read_row_ok source_len number row entry :
  read_row source_len number row = Some entry → length row = 20%nat →
  row_object_number entry = number ∧ row_ok source_len entry.
Proof.
  intros Hr Hl. unfold read_row in Hr. destruct (row_shape row) eqn:Hshape; [|done]. cbn [negb orb] in Hr.
  destruct (row_digits row Hshape Hl) as [Hf Hg]. apply digits_bound in Hf, Hg.
  destruct (u16_max <? _) eqn:Hgen; [done|]. checked_facts.
  assert (∀ kind, Some {| row_object_number := number;
      row_generation := digits_value (bytes_between row 11 16); row_kind := kind |} = Some entry →
    match kind with InUse offset => 0 ≤ offset < source_len | Free next => 0 ≤ next ≤ u32_max end →
    row_object_number entry = number ∧ row_ok source_len entry) as Hk.
  { intros kind [= <-] Hkind. split; [done|]. split; [simpl; lia|done]. }
  destruct (row !! 17%nat) as [k|]; [|done].
  destruct (decide (k = 110)) as [->|Hn]; [|destruct (decide (k = 102)) as [->|Hm]].
  - destruct (_ <? source_len) eqn:Hc; [|done]. checked_facts. apply (Hk (InUse _) Hr). lia.
  - destruct (_ <=? u32_max) eqn:Hc; [|done]. checked_facts. apply (Hk (Free _) Hr). lia.
  - assert (∀ (A : Type) (x y z : A), match k with 110 => x | 102 => y | _ => z end = z) as Hz.
    { intros A x y z. repeat (destruct k as [|k|k]; try done). }
    by rewrite Hz in Hr.
Qed.

Lemma read_rows_ok source_len n number rest entries r :
  read_rows source_len n number rest = Some (entries, r) → 0 ≤ number →
  number + Z.of_nat n ≤ u32_max + 1 →
  Forall (row_ok source_len) entries ∧
  ∀ entries', rows_from (number + Z.of_nat n) entries' → rows_from number (entries ++ entries').
Proof.
  revert number rest entries. induction n as [|n IH]; intros number rest entries; cbn [read_rows].
  { intros [= <- <-] _ _. split; [done|]. intros entries'. by rewrite Z.add_0_r. }
  destruct (length rest <? 20)%nat eqn:Hlen; [done|]. apply Nat.ltb_ge in Hlen.
  destruct (read_row _ _ _) as [entry|] eqn:Hrow; [|done]. cbn [mbind option_bind].
  destruct (read_rows _ _ _ (drop 20 rest)) as [[entries' r']|] eqn:Hrows; [|done].
  cbn [mbind option_bind]. intros [= <- <-] Hn Hmax.
  apply read_row_ok in Hrow as [Hnum Hwithin]; [|rewrite length_take; lia].
  apply IH in Hrows as [Hall Hfrom]; [|lia..]. split; [by constructor|].
  intros entries'' Hr. cbn [app rows_from]. split; [lia|]. rewrite Hnum. apply Hfrom.
  by replace (number + 1 + Z.of_nat n) with (number + Z.of_nat (S n)) by lia.
Qed.

Lemma read_subsections_rows source_len more fuel previous rest entries r :
  read_subsections source_len more fuel previous rest = Some (entries, r) →
  Forall (row_ok source_len) entries ∧ rows_from (default 0 previous) entries.
Proof.
  revert previous rest entries. induction fuel as [|fuel IH]; intros previous rest entries; [done|].
  cbn [read_subsections]. destruct (read_trivia more false rest) as [r1|]; [|done]. cbn [mbind option_bind].
  case_bool_decide; [done|]. destruct (read_trailer_keyword more r1) as [[]|]; [| |done]; cbn [mbind option_bind].
  { destruct previous; [|done]. by intros [= <- <-]. }
  destruct (read_subsection_header _ _ _) as [[[first end_] r2]|] eqn:Hhead; [|done]. cbn [mbind option_bind].
  apply read_subsection_header_length in Hhead as (_&Hlt&Hmax&Hpos&Hprev).
  destruct (read_rows _ _ _ r2) as [[rows r3]|] eqn:Hrows; [|done]. cbn [mbind option_bind].
  apply read_rows_ok in Hrows as [Hall Hfrom]; [|lia..].
  destruct (read_subsections _ _ _ _ r3) as [[entries' r4]|] eqn:Hsub; [|done]. cbn [mbind option_bind].
  intros [= <- <-]. apply IH in Hsub as [Hall' Hfrom']. split; [by apply Forall_app|].
  apply (rows_from_weaken first); [destruct previous; simpl in *; lia|]. apply Hfrom. simpl in Hfrom'.
  eapply rows_from_weaken; [|done]. lia.
Qed.

Lemma read_subsections_shorter source_len more fuel previous rest entries r :
  read_subsections source_len more fuel previous rest = Some (entries, r) →
  (length r ≤ length rest)%nat.
Proof.
  revert previous rest entries. induction fuel as [|fuel IH]; intros previous rest entries; [done|].
  cbn [read_subsections]. destruct (read_trivia more false rest) as [r1|] eqn:Ht; [|done]. cbn [mbind option_bind].
  apply read_trivia_length in Ht.
  case_bool_decide; [done|]. destruct (read_trailer_keyword more r1) as [[]|]; [| |done]; cbn [mbind option_bind].
  { destruct previous; [|done]. intros [= <- <-]. rewrite length_drop. lia. }
  destruct (read_subsection_header _ _ _) as [[[first end_] r2]|] eqn:Hhead; [|done]. cbn [mbind option_bind].
  apply read_subsection_header_length in Hhead as (Hl&_).
  destruct (read_rows _ _ _ r2) as [[rows r3]|] eqn:Hrows; [|done]. cbn [mbind option_bind].
  apply read_rows_length in Hrows.
  destruct (read_subsections _ _ _ _ r3) as [[entries' r4]|] eqn:Hsub; [|done]. cbn [mbind option_bind].
  intros [= <- <-]. apply IH in Hsub. lia.
Qed.

(** The span of a section: from its start to the end of its trailer. *)
Lemma read_section_span source startxref source_len more rest section :
  read_section source startxref source_len (startxref + len rest) more rest = Some section →
  span_start (parsed_span section) = startxref ∧
  startxref < ByteSpan_end_exclusive (parsed_span section) ≤ startxref + len rest.
Proof.
  unfold read_section. destruct (negb _); [done|].
  destruct (read_line_break _) as [r1|] eqn:Hbreak; [|done]. cbn [mbind option_bind].
  apply read_line_break_length in Hbreak. rewrite length_drop in Hbreak.
  destruct (read_subsections _ _ _ _ _) as [[entries r2]|] eqn:Hsub; [|done]. cbn [mbind option_bind].
  apply read_subsections_shorter in Hsub.
  destruct (read_trivia _ _ r2) as [r3|] eqn:Htrivia; [|done]. cbn [mbind option_bind].
  apply read_trivia_length in Htrivia.
  destruct (read_object _ _ _ r3) as [[object r4]|] eqn:Hobj; [|done]. cbn [mbind option_bind].
  apply read_object_nested in Hobj as [(_&Hlo&Hne&Hhi)%nested_placed _].
  destruct (trailer_of object) as [trailer|] eqn:Htr; [|done]. cbn [mbind option_bind].
  assert (located_span trailer = located_span object) as Hspan.
  { unfold trailer_of in Htr. destruct (located_value object); try done. by injection Htr as <-. }
  unfold read_trailer. cbv zeta. rewrite Hspan. unfold offset_of, ByteSpan_end_exclusive in *.
  repeat (match goal with |- context [?o ≫= _] => destruct o; [|done]; cbn [mbind option_bind] end).
  destruct (_ =? 0); [done|].
  repeat (match goal with |- context [?o ≫= _] => destruct o; [|done]; cbn [mbind option_bind] end).
  intros [= <-]. cbn. lia.
Qed.

Lemma read_section_rows source startxref source_len stop more rest section :
  read_section source startxref source_len stop more rest = Some section →
  Forall (row_ok source_len) (parsed_entries section) ∧ rows_from 0 (parsed_entries section) ∧
  0 < parsed_declared_size section ≤ u32_max.
Proof.
  unfold read_section. destruct (negb _); [done|].
  destruct (read_line_break _) as [r1|]; [|done]. cbn [mbind option_bind].
  destruct (read_subsections _ _ _ _ _) as [[entries r2]|] eqn:Hsub; [|done]. cbn [mbind option_bind].
  apply read_subsections_rows in Hsub as [Hall Hfrom].
  destruct (read_trivia _ _ r2) as [r3|]; [|done]. cbn [mbind option_bind].
  destruct (read_object _ _ _ r3) as [[object r4]|]; [|done]. cbn [mbind option_bind].
  destruct (trailer_of object) as [trailer|]; [|done]. cbn [mbind option_bind].
  unfold read_trailer. cbv zeta.
  destruct (unique_value _ "Size") as [size|]; [|done]. cbn [mbind option_bind].
  destruct (unique_value _ "Root") as [root|]; [|done]. cbn [mbind option_bind].
  destruct (unique_value _ "Prev") as [previous|]; [|done]. cbn [mbind option_bind].
  destruct (unique_value _ "XRefStm") as [xref_stream|]; [|done]. cbn [mbind option_bind].
  destruct (size ≫= _) as [declared|] eqn:Hsize; [|done]. cbn [mbind option_bind].
  destruct (declared =? 0) eqn:Hz; [done|]. checked_facts.
  assert (0 ≤ declared ≤ u32_max) as Hd.
  { destruct size as [value|]; [|done]. cbn [mbind option_bind] in Hsize.
    destruct (as_integer _) as [integer|]; [|done]. cbn [mbind option_bind] in Hsize.
    apply try_from_Some in Hsize as [? ->]. done. }
  assert (match root with
    | Some value => root ← as_reference (located_value value); Some (Some root)
    | None => Some None
    end = None ∨ ∃ root', match root with
    | Some value => root ← as_reference (located_value value); Some (Some root)
    | None => Some None
    end = Some root') as [->|[root' ->]] by (destruct (match root with Some _ => _ | None => _ end); eauto).
  { done. }
  cbn [mbind option_bind]. intros [= <-]. cbn. split_and!; [done|done|lia|lia].
Qed.

(** ** Decisions *)

(** Errors about what a section says. *)
Definition xref_rejected (e : XrefError) : Prop :=
  xe_code e ∈ [InvalidEntry; InvalidTrailer; UnsupportedHybridXref; UnsupportedIncrementalRevision].

Section decisions.
Context `{XrefRuntime}.

(** A function ends with a value that satisfies [P], or is cancelled, or rejects
    what no value satisfies. *)
Definition decides {A} (m : ProbeM A) (P : A → Prop) : Prop :=
  ∀ calls, match (m calls).2 with
  | Ok a => P a
  | Err (Rejected e) => xref_cancelled e ∨ (xref_rejected e ∧ ∀ a, ¬ P a)
  | Err Panicked => False
  end.

Lemma checks_mono {A} (m : ProbeM A) (P Q : A → Prop) :
  decides m P → (∀ a, P a ↔ Q a) → decides m Q.
Proof.
  intros Hm HQ calls. specialize (Hm calls). destruct (m calls).2 as [a|[e|]]; [by apply HQ| |done].
  destruct Hm as [?|[? Hp]]; [by left|right]. split; [done|]. intros a ?%HQ. by eapply Hp.
Qed.

Lemma checks_bind {A B} (m : ProbeM A) (k : A → ProbeM B) (P : A → Prop) (Q : A → B → Prop) :
  decides m P → (∀ a, P a → decides (k a) (Q a)) → (∀ a a', P a → P a' → a = a') →
  decides (m ≫= k) (λ b, ∃ a, P a ∧ Q a b).
Proof.
  intros Hm Hk Hu calls. specialize (Hm calls). unfold mbind, M_bind.
  destruct (m calls) as [calls' [a|[e|]]]; cbn [snd] in *; [| |done].
  - specialize (Hk a Hm calls'). destruct (k a calls').2 as [b|[e|]]; [by exists a| |done].
    destruct Hk as [?|[? Hq]]; [by left|right]. split; [done|]. intros b (a'&Ha'&?).
    rewrite (Hu a' a) in * by done. by eapply Hq.
  - destruct Hm as [?|[? Hp]]; [by left|right]. split; [done|]. intros b (a&?&?). by eapply Hp.
Qed.

(** A check before the rest. *)
Lemma decides_check {B} (m : ProbeM unit) (k : ProbeM B) (P : Prop) (Q : B → Prop) :
  decides m (λ _, P) → (P → decides k Q) → decides (m;; k) (λ b, P ∧ Q b).
Proof.
  intros Hm Hk. eapply checks_mono.
  - apply (checks_bind m (λ _, k) (λ _, P) (λ _, Q)); [done|auto|by intros [] []].
  - intros b. split; [by intros ([]&?&?)|]. intros [? ?]. by exists tt.
Qed.

Lemma checks_ret {A} (a : A) (P : A → Prop) : P a → decides (mret a) P.
Proof. by intros ? calls. Qed.

Lemma rejected_for_code code offset :
  code ∈ [InvalidEntry; InvalidTrailer; UnsupportedHybridXref; UnsupportedIncrementalRevision] →
  xref_rejected (XrefError_for_code code offset).
Proof. unfold xref_rejected. by destruct (xref_code_facts code offset) as (->&_). Qed.

Lemma decides_fail {A} e (P : A → Prop) : xref_rejected e → (∀ a, ¬ P a) → decides (xref_fail e) P.
Proof. intros ?? calls. by right. Qed.

Lemma checks_require {A} (o : option A) e :
  xref_rejected e → decides (xref_try (require o e)) (λ a, o = Some a).
Proof. intros He. destruct o as [a|]; [by apply checks_ret|]. by apply decides_fail. Qed.

Lemma checks_fail_if (b : bool) e :
  xref_rejected e → decides (xref_try (fail_if b e)) (λ _, b = false).
Proof. intros He. destruct b; [|by apply checks_ret]. by apply decides_fail. Qed.

Lemma decides_probe {A} startxref index (k : ProbeM A) P :
  decides k P → decides (probe_rows index startxref;; k) P.
Proof.
  intros Hk calls. unfold probe_rows, probe_every, mbind, M_bind.
  destruct (_ =? _)%nat; [|apply Hk]. unfold stop_if_cancelled, probe, mbind, M_bind, gets, modify.
  cbn. destruct (parser_cancelled _) eqn:Hc; [|apply Hk]. cbn. left.
  split; [done|eauto].
Qed.

Lemma decides_rows valid startxref index entries :
  decides (validate_rows valid startxref index entries)
    (λ _, ∀ entry, entry ∈ entries → valid entry = true).
Proof.
  revert index. induction entries as [|entry entries IH]; intros index.
  { apply checks_ret. intros entry Hin. by apply not_elem_of_nil in Hin. }
  cbn [validate_rows]. apply decides_probe. destruct (valid entry) eqn:Hv.
  - eapply checks_mono; [apply IH|]. intros u. split.
    + intros Hall e Hin. apply elem_of_cons in Hin as [Heq|Hin]; [by rewrite Heq|by apply Hall].
    + intros Hall e Hin. apply Hall. by apply elem_of_cons; right.
  - apply decides_fail; [apply rejected_for_code; rewrite !elem_of_cons; tauto|].
    intros _ Hall. assert (valid entry = true) as Hv' by (apply Hall; by apply elem_of_cons; left).
    by rewrite Hv in Hv'.
Qed.

Lemma decides_range startxref number entries :
  (∀ entry, entry ∈ entries → row_object_number entry ≤ u32_max) →
  decides (complete_range startxref number entries)
    (λ c, c = true ↔ row_object_number <$> entries = seqZ (Z.of_nat number) (len entries)).
Proof.
  revert number. induction entries as [|entry entries IH]; intros number Hmax.
  { by apply checks_ret. }
  cbn [complete_range]. apply decides_probe.
  rewrite fmap_cons, seqZ_cons by (simpl; lia).
  replace (Z.succ (Z.of_nat number)) with (Z.of_nat (S number)) by lia.
  replace (Z.pred (len (entry :: entries))) with (len entries) by (simpl; lia).
  assert (row_object_number entry ≤ u32_max) as He by (apply Hmax; by apply elem_of_cons; left).
  case_bool_decide as Hb.
  - apply try_from_Some in Hb as [_ <-]. eapply checks_mono.
    + apply IH. intros e Hin. apply Hmax. by apply elem_of_cons; right.
    + intros c. simpl. split; intros [Hc1 Hc2]; split; auto; intros Hx.
      * by rewrite Hc1. * injection Hx as Hx. by apply Hc2. * specialize (Hc1 Hx). by injection Hc1.
      * apply Hc2. by rewrite Hx.
  - apply checks_ret. split; [done|]. intros [= Heq _]. destruct Hb. apply try_from_Some. lia.
Qed.
End decisions.

(** ** Base sections *)

(** The rows of a whole table for objects below [size]: all of them in order, object
    0 the head of the free list, which stays below [size], and [root] in use. *)
Record complete_table (size : Z) (root : ObjectRef) (entries : list XrefEntry) : Prop := {
  ct_numbers : row_object_number <$> entries = seqZ 0 size;
  ct_zero : ∃ next, head entries =
    Some {| row_object_number := 0; row_generation := u16_max; row_kind := Free next |};
  ct_free entry next : entry ∈ entries → row_kind entry = Free next → next < size;
  ct_root : ∃ offset,
    {| row_object_number := object_number root; row_generation := object_generation root;
       row_kind := InUse offset |} ∈ entries
}.

(** The value for a section with a root. *)
Definition base_section_of (w : SectionWindow) (section : ParsedTraditionalSection)
    (root : ObjectRef) : XrefSection :=
  {| section_snapshot := sw_snapshot w; section_startxref := sw_startxref w;
     section_span := parsed_span section;
     section_declared_size := parsed_declared_size section; section_root := root;
     section_entries := parsed_entries section; section_trailer := parsed_trailer section |}.

Definition base_final (w : SectionWindow) (section : ParsedTraditionalSection) (s : XrefSection)
    : Prop :=
  ∃ root, parsed_root section = Some root ∧ parsed_previous section = None ∧
    parsed_xref_stream section = None ∧
    complete_table (parsed_declared_size section) root (parsed_entries section) ∧
    s = base_section_of w section root.

(** The conditions of [validate_object_zero]. *)
Definition zero_free (entry : XrefEntry) : Prop :=
  row_generation entry = u16_max ∧ ∃ next, row_kind entry = Free next.

Section finals.
Context `{XrefRuntime}.

Ltac code := apply rejected_for_code; rewrite !elem_of_cons; tauto.

Lemma validate_zero entries startxref required :
  rows_from 0 entries →
  decides (xref_try (validate_object_zero entries startxref required)) (λ _,
    (required = true → ∃ entry, entry ∈ entries ∧ row_object_number entry = 0) ∧
    ∀ entry, entry ∈ entries → row_object_number entry = 0 → zero_free entry).
Proof.
  intros Hr. unfold validate_object_zero. cbv zeta.
  eapply checks_mono; [apply checks_fail_if; code|].
  intros u. cbv beta. rewrite orb_false_iff. destruct entries as [|e entries].
  { split; [|by intros [Hq _]; destruct required; [destruct (Hq eq_refl) as (?&?%elem_of_nil&_)|]].
    intros [Hq _]. split; [by destruct required|]. by intros ? ?%elem_of_nil. }
  destruct Hr as [He Hr]. destruct (Z.eqb_spec (row_object_number e) 0) as [Hz|Hz]; simpl.
  - rewrite andb_false_r. split.
    + intros [_ Hb]. split; [intros _; exists e; by rewrite elem_of_cons; auto|].
      intros entry Hin Hn. apply elem_of_cons in Hin as [->|Hin];
        [|pose proof (rows_from_bounds _ _ _ Hr Hin); lia].
      apply orb_false_iff in Hb as [Hg Hk]. apply negb_false_iff, Z.eqb_eq in Hg. split; [done|].
      destruct (row_kind e) as [next|]; [by exists next|done].
    + intros [_ Hall]. split; [done|]. destruct (Hall e) as [-> [next ->]]; [by apply elem_of_cons; left|done|].
      by rewrite Z.eqb_refl.
  - rewrite andb_true_r. split.
    + intros [-> _]. split; [done|]. intros entry Hin Hn.
      apply elem_of_cons in Hin as [->|Hin]; [done|]. pose proof (rows_from_bounds _ _ _ Hr Hin). lia.
    + intros [Hq _]. split; [|done]. destruct required; [|done]. destruct (Hq eq_refl) as (entry&Hin&Hn).
      apply elem_of_cons in Hin as [->|Hin]; [done|]. pose proof (rows_from_bounds _ _ _ Hr Hin). lia.
Qed.

Lemma decides_unsupported w code value :
  code ∈ [UnsupportedHybridXref; UnsupportedIncrementalRevision] →
  decides (unsupported w code value) (λ _, value = None).
Proof.
  intros Hc. unfold unsupported, validate_backward_offset.
  assert (∀ offset, xref_rejected (XrefError_for_code code offset)) as Hcode.
  { intros offset. apply rejected_for_code. rewrite !elem_of_cons in *. tauto. }
  destruct value as [value|]; [|by intros calls].
  destruct (backward_value value) as [v|]; [|by intros calls; right; split; [code|]].
  cbn [require mbind result_bind]. destruct (sw_startxref w <=? v); intros calls; right; (split; [code || apply Hcode|done]).
Qed.

Lemma complete_table_root size root entries :
  rows_from 0 entries → row_object_number <$> entries = seqZ 0 size →
  ((∃ offset, {| row_object_number := object_number root; row_generation := object_generation root;
                 row_kind := InUse offset |} ∈ entries) ↔
   ((size <=? object_number root) || negb (is_some
      (entry ← row_of entries (object_number root);
       if (row_generation entry =? object_generation root)
          && match row_kind entry with InUse _ => true | Free _ => false end
       then Some entry else None))) = false).
Proof.
  intros Hr Hn. rewrite orb_false_iff. split.
  - intros [offset Hin]. split.
    + apply Z.leb_gt. by apply (numbered_bounds _ _ _ _ Hn) in Hin as [_ ?].
    + pose proof (row_of_elem _ _ _ Hr Hin) as Hrow. simpl in Hrow. rewrite Hrow. simpl.
      by rewrite Z.eqb_refl.
  - intros [_ Hb]. apply negb_false_iff in Hb.
    destruct (row_of entries (object_number root)) as [entry|] eqn:Hrow; [|done].
    apply row_of_Some in Hrow as [Hin Hnum]. cbn [mbind option_bind] in Hb.
    destruct (Z.eqb_spec (row_generation entry) (object_generation root)) as [Hg|]; [|done].
    destruct (row_kind entry) as [|offset] eqn:Hk; [done|]. exists offset.
    destruct entry; simpl in *; by subst.
Qed.

Lemma complete_table_zero size entries :
  row_object_number <$> entries = seqZ 0 size → 0 < size →
  ((∃ next, head entries =
      Some {| row_object_number := 0; row_generation := u16_max; row_kind := Free next |}) ↔
   (∃ entry, entry ∈ entries ∧ row_object_number entry = 0) ∧
   ∀ entry, entry ∈ entries → row_object_number entry = 0 → zero_free entry).
Proof.
  intros Hn Hs. rewrite seqZ_cons in Hn by done. destruct entries as [|e entries]; [done|].
  injection Hn as He Hn. simpl. split.
  - intros [next [= ->]]. split; [eexists; split; [by apply elem_of_cons; left|done]|].
    intros entry Hin Hz. apply elem_of_cons in Hin as [->|Hin]; [by split; [|exists next]|].
    pose proof (numbered_bounds _ _ _ _ Hn Hin). lia.
  - intros [_ Hall]. destruct (Hall e) as [Hg [next Hk]]; [by apply elem_of_cons; left|done|].
    exists next. destruct e; simpl in *; by subst.
Qed.

(** A base section is accepted exactly when it is a whole table. *)
Lemma finalize_base_decides w section :
  rows_from 0 (parsed_entries section) → 0 < parsed_declared_size section ≤ u32_max →
  decides (finalize_base_section w section) (base_final w section).
Proof.
  intros Hr Hs. set (entries := parsed_entries section) in *. set (size := parsed_declared_size section) in *.
  assert (∀ entry, entry ∈ entries → row_object_number entry ≤ u32_max) as Hmax.
  { intros entry Hin. pose proof (rows_from_bounds _ _ _ Hr Hin). lia. }
  eapply checks_mono.
  { unfold finalize_base_section. cbv zeta. fold entries size.
    eapply checks_bind; [apply checks_require; code| |congruence].
    intros root Hroot. apply decides_check; [apply decides_unsupported; rewrite !elem_of_cons; tauto|].
    intros Hprev. apply decides_check; [apply decides_unsupported; rewrite !elem_of_cons; tauto|].
    intros Hstm. apply decides_check; [apply checks_fail_if; code|]. intros Hlast.
    eapply checks_bind; [by apply decides_range| |].
    2: { intros a b Ha Hb. by destruct a, b; intuition. }
    intros complete Hcomplete. apply decides_check; [apply checks_fail_if; code|]. intros Hcount.
    apply decides_check; [by apply validate_zero|]. intros Hzero.
    apply decides_check; [apply decides_rows|]. intros Hfree.
    apply decides_check; [apply checks_fail_if; code|]. intros Hin.
    exact (checks_ret _ (λ s, s = base_section_of w section root) eq_refl). }
  intros s. cbv beta. assert (size ≤ usize_max) as Husize.
  { assert (u64_max = 18446744073709551615) by reflexivity.
    assert (u32_max = 4294967295) by reflexivity. pose proof usize_max_cases. lia. }
  rewrite (proj2 (try_from_Some usize_max size size)) by lia.
  assert ((∀ entry, entry ∈ entries → free_entry_ok size entry = true) ↔
    ∀ entry next, entry ∈ entries → row_kind entry = Free next → next < size) as Hfree.
  { unfold free_entry_ok. split.
    - intros Hall entry next Hin Hk. specialize (Hall entry Hin). rewrite Hk in Hall. lia.
    - intros Hall entry Hin. destruct (row_kind entry) eqn:Hk; [|done]. apply Z.ltb_lt. by eapply Hall. }
  split.
  - intros (root&Hroot&Hprev&Hstm&_&complete&Hcomplete&Hcount&Hzero&Hall&Hrow&->).
    apply orb_false_iff in Hcount as [Hcount Hc]. apply negb_false_iff in Hcount, Hc. checked_facts.
    apply Hcomplete in Hc. rewrite <-Hcount in Hc. exists root. split_and!; [done..| |done].
    split; [done| | |].
    + apply (complete_table_zero size); [done|lia|]. split; [by apply Hzero|by apply Hzero].
    + by apply Hfree.
    + by apply (complete_table_root size).
  - intros (root&Hroot&Hprev&Hstm&[Hn Hz Hf Hin]&->). fold entries size in Hn, Hz, Hf, Hin.
    assert (len entries = size) as Hlen.
    { apply (f_equal length) in Hn. rewrite length_fmap, length_seqZ in Hn. lia. }
    exists root. split; [done|]. split; [done|]. split; [done|]. split.
    { apply Z.leb_gt. apply (maximum_below 0); [done|lia|]. intros entry He.
      by apply (numbered_bounds _ _ _ _ Hn) in He as [_ ?]. }
    exists true. split; [by rewrite Hlen|]. split; [rewrite Hlen, Z.eqb_refl; done|].
    split; [by apply (complete_table_zero size) in Hz as [? ?]; [|done|lia]|].
    split; [by apply Hfree|]. split; [by apply (complete_table_root size)|done].
Qed.

(** ** Revision sections *)

(** A backward offset is absent, or an offset before the section. *)
Definition offset_before (startxref : Z) (value : option ParsedBackwardOffset) (o : option Z) : Prop :=
  match value with
  | None => o = None
  | Some value => ∃ offset, backward_value value = Some offset ∧ offset < startxref ∧ o = Some offset
  end.

(** The rows of a part of a table: objects below [size], object 0 the head of the
    free list, offsets after the header of the file and before the section. *)
Record partial_table (size startxref : Z) (entries : list XrefEntry) : Prop := {
  pt_numbers entry : entry ∈ entries → row_object_number entry < size;
  pt_zero entry : entry ∈ entries → row_object_number entry = 0 → zero_free entry;
  pt_free entry next : entry ∈ entries → row_kind entry = Free next → next < size;
  pt_offsets entry offset : entry ∈ entries → row_kind entry = InUse offset → 0 < offset < startxref
}.

Definition revision_section_of (w : SectionWindow) (section : ParsedTraditionalSection)
    (previous xref_stream : option Z) : TraditionalRevisionSection :=
  {| revision_snapshot := sw_snapshot w; revision_startxref := sw_startxref w;
     revision_span := parsed_span section;
     revision_declared_size := parsed_declared_size section;
     revision_root := parsed_root section; revision_previous := previous;
     revision_xref_stream := xref_stream; revision_entries := parsed_entries section;
     revision_trailer := parsed_trailer section |}.

Definition revision_final (w : SectionWindow) (section : ParsedTraditionalSection)
    (s : TraditionalRevisionSection) : Prop :=
  ∃ previous xref_stream,
    offset_before (sw_startxref w) (parsed_previous section) previous ∧
    offset_before (sw_startxref w) (parsed_xref_stream section) xref_stream ∧
    (∀ p x, previous = Some p → xref_stream = Some x → p < x) ∧
    (∀ root, parsed_root section = Some root → object_number root < parsed_declared_size section) ∧
    partial_table (parsed_declared_size section) (sw_startxref w) (parsed_entries section) ∧
    s = revision_section_of w section previous xref_stream.

Lemma decides_backward startxref value :
  decides (xref_try (validate_backward_offset value startxref)) (offset_before startxref value).
Proof.
  unfold validate_backward_offset, offset_before. cbv zeta.
  destruct value as [value|]; [|by apply checks_ret].
  destruct (backward_value value) as [offset|]; cbn [require mbind result_bind].
  2: { apply decides_fail; [code|]. by intros o (?&?&_). }
  destruct (startxref <=? offset) eqn:Hc; cbn [fail_if mbind result_bind]; checked_facts.
  - apply decides_fail; [code|]. intros o (offset'&[= <-]&?&_). lia.
  - apply checks_ret. by exists offset.
Qed.

Lemma offset_before_unique startxref value o o' :
  offset_before startxref value o → offset_before startxref value o' → o = o'.
Proof. destruct value; simpl; [|congruence]. intros (?&?&_&->) (?&?&_&->). congruence. Qed.

Lemma rows_valid (valid : XrefEntry → bool) (entries : list XrefEntry) (P : XrefEntry → Prop) :
  (∀ entry, entry ∈ entries → (valid entry = true ↔ P entry)) →
  (∀ entry, entry ∈ entries → valid entry = true) ↔ (∀ entry, entry ∈ entries → P entry).
Proof. intros Hv. split; intros Hall entry Hin; apply (Hv _ Hin), Hall, Hin. Qed.

(** A revision section is accepted exactly when it is a part of a table. *)
Lemma finalize_revision_decides w section :
  rows_from 0 (parsed_entries section) → 0 < parsed_declared_size section ≤ u32_max →
  Forall (row_ok (sw_source_len w)) (parsed_entries section) →
  decides (finalize_revision_section w section) (revision_final w section).
Proof.
  intros Hr Hs Hw. set (entries := parsed_entries section) in *. set (size := parsed_declared_size section) in *.
  eapply checks_mono.
  { unfold finalize_revision_section. cbv zeta. fold entries size.
    eapply checks_bind; [apply decides_backward| |apply offset_before_unique]. intros previous Hprev.
    eapply checks_bind; [apply decides_backward| |apply offset_before_unique]. intros stream Hstm.
    apply decides_check; [apply checks_fail_if; code|]. intros Horder.
    apply decides_check; [apply checks_fail_if; code|]. intros Hsize.
    apply decides_check; [apply decides_rows|]. intros Hfree.
    apply decides_check; [by apply validate_zero|]. intros Hzero.
    apply decides_check; [apply decides_rows|]. intros Hoffsets.
    exact (checks_ret _ (λ s, s = revision_section_of w section previous stream) eq_refl). }
  intros s. cbv beta.
  assert (∀ entry, entry ∈ entries →
    free_entry_ok size entry = true ↔ ∀ next, row_kind entry = Free next → next < size) as Hfreeok.
  { intros entry _. unfold free_entry_ok. destruct (row_kind entry); [rewrite Z.ltb_lt|]; naive_solver. }
  assert (∀ entry, entry ∈ entries → revision_entry_ok (sw_startxref w) entry = true ↔
    ∀ offset, row_kind entry = InUse offset → 0 < offset < sw_startxref w) as Hentryok.
  { intros entry Hin. rewrite Forall_forall in Hw. destruct (Hw _ Hin) as [_ Hk].
       unfold revision_entry_ok. destruct (row_kind entry); [naive_solver|].
       split; [intros Hb ? [= <-]; lia|intros Hb; specialize (Hb _ eq_refl); lia]. }
  apply rows_valid in Hfreeok, Hentryok.
  pose proof (maximum_below 0 entries size Hr ltac:(lia)) as Hmax.
  split.
  - intros (previous&Hprev&stream&Hstm&Horder&Hsize&Hfree&[_ Hzero]&Hoffsets&->).
    pose proof (proj1 Hfreeok Hfree). pose proof (proj1 Hentryok Hoffsets).
    apply orb_false_iff in Hsize as [Hlast Hroot]. exists previous, stream. split_and!; [done..| | | |done].
    + intros p x -> ->. lia.
    + intros root Hr'. rewrite Hr' in Hroot. fold size. lia.
    + split; fold entries size; [apply Hmax; lia|done|naive_solver|naive_solver].
  - intros (previous&stream&Hprev&Hstm&Horder&Hroot&[Hnum Hzero Hfree Hoffsets]&->).
    fold entries size in Hroot, Hnum, Hzero, Hfree, Hoffsets.
    exists previous. split; [done|]. exists stream. split; [done|]. split_and!.
    + destruct previous as [p|], stream as [x|]; [|done..]. apply Z.leb_gt. by apply Horder.
    + apply orb_false_iff. split; [apply Z.leb_gt; by apply Hmax|].
      destruct (parsed_root section) as [root|]; [|done]. apply Z.leb_gt. by apply Hroot.
    + apply Hfreeok. naive_solver.
    + done.
    + done.
    + apply Hentryok. naive_solver.
    + done.
Qed.

(** ** Attempts *)

(** What an attempt on a window ends with: a section that is read and passes the
    checks; [None] when the window may continue and ends too early to decide, by itself
    or for the parser of objects; or an error: of a limit, the allocator or the probe, or
    because the bytes, or the parser of objects, rule out a section here and in every
    larger window, or of a section that is read and fails the checks. *)
Definition section_outcome {A} (w : SectionWindow) (limits : XrefLimits)
    (syntax_limits : SyntaxLimits) (final : ParsedTraditionalSection → A → Prop)
    (r : result (failure XrefError) (option A)) : Prop :=
  match r with
  | Ok (Some s) => ∃ section, window_scan w = Scanned section ∧ final section s
  | Ok None => window_more w = true ∧ cut_short w syntax_limits (window_scan w)
  | Err (Rejected e) =>
      xref_refused e ∨
      (xref_malformed e ∧ ruled_out w syntax_limits (window_scan w) ∧
       (window_more w = true → ∀ ext extent,
          window_ok (larger_window w ext extent) limits syntax_limits →
          window_section (larger_window w ext extent) = None)) ∨
      ∃ section, window_scan w = Scanned section ∧ xref_rejected e ∧ ∀ s, ¬ final section s
  | Err Panicked => False
  end.

(** The same for what the window denotes. *)
Lemma outcome_section {A} w limits syntax_limits (final : ParsedTraditionalSection → A → Prop) r :
  section_outcome w limits syntax_limits final r →
  match r with
  | Ok (Some s) => ∃ section, window_section w = Some section ∧ final section s
  | Ok None => window_more w = true ∧ window_section w = None
  | Err (Rejected e) =>
      xref_refused e ∨ (window_section w = None ∧ xref_malformed e) ∨
      ∃ section, window_section w = Some section ∧ xref_rejected e ∧ ∀ s, ¬ final section s
  | Err Panicked => False
  end.
Proof.
  unfold section_outcome. rewrite <-window_scan_value. destruct r as [[s|]|[e|]]; [| | |done].
  - intros (section&->&?). by exists section.
  - intros [? Hs]. split; [done|]. by eapply cut_short_value.
  - intros [?|[(?&Hs&_)|(section&->&?)]]; [by left| |by right; right; exists section].
    right. left. split; [by eapply ruled_out_value|done].
Qed.
End finals.

Section props.
Context `{XrefRuntime}.
Implicit Types (w : SectionWindow) (limits : XrefLimits) (syntax_limits : SyntaxLimits).

Lemma run_section_outcome {A} w limits syntax_limits (finalize : ParsedTraditionalSection → ProbeM A)
    final calls :
  window_ok w limits syntax_limits →
  (∀ section, window_section w = Some section → decides (finalize section) (final section)) →
  section_outcome w limits syntax_limits final (run_section w limits syntax_limits finalize calls).2.
Proof.
  intros Hw Hf. pose proof (parse_section_inner_run w limits syntax_limits Hw calls) as Hrun.
  unfold section_outcome, run_section. fold (window_scan w) in Hrun. unfold cursors in Hrun.
  destruct (parse_section_inner _ _ _ _) as [s [section|[[|e]|]]]; cbn [snd]; [|done| |done].
  - destruct Hrun as (?&Hspec&<-).
    pose proof (scanned_some _ _ Hspec) as Hread. rewrite window_scan_value in Hread.
    specialize (Hf section Hread (cs_calls s)).
    unfold mbind, M_bind. destruct (finalize section (cs_calls s)) as [calls' [a|[e|]]]; cbn [snd] in *;
      [by exists section| |done].
    destruct Hf as [?|[? ?]]; [left; by left|]. right. right. by exists section.
  - destruct Hrun as [?|[Hwrong ?]]; [by left|right; left]. split; [done|]. split; [done|].
    intros Hmore ext extent Hlarger. by eapply ruled_out_final.
Qed.

Lemma base_run w limits syntax_limits calls :
  window_ok w limits syntax_limits →
  section_outcome w limits syntax_limits (base_final w) (parse_section w limits syntax_limits calls).2.
Proof.
  intros Hw. apply run_section_outcome; [done|]. intros section (_&?&?)%read_section_rows.
  by apply finalize_base_decides.
Qed.

Lemma revision_run w limits syntax_limits calls :
  window_ok w limits syntax_limits →
  section_outcome w limits syntax_limits (revision_final w)
    (parse_traditional_revision_section w limits syntax_limits calls).2.
Proof.
  intros Hw. apply run_section_outcome; [done|]. intros section (?&?&?)%read_section_rows.
  by apply finalize_revision_decides.
Qed.

(** C6: refinement. An attempt on a window reads the section that the reference
    reader reads from its bytes, and accepts it exactly when it is a whole table for
    [parse_section], a part of one for [parse_traditional_revision_section]. It asks for
    a larger window only when the window may continue and the scan of its bytes runs
    into its end, or comes to a part for which the parser of objects asks for more. An
    error is a refusal of a limit that the reported work exceeds, of the allocator or of
    the probe; or the scan decides that the bytes are wrong, or comes to a part that the
    parser of objects rejects, and then no larger window that is admitted denotes a
    section; or the section fails the checks. Attempts never panic and always end. *)
Theorem sections_exact w limits syntax_limits calls :
  window_ok w limits syntax_limits →
  section_outcome w limits syntax_limits (base_final w) (parse_section w limits syntax_limits calls).2 ∧
  section_outcome w limits syntax_limits (revision_final w)
    (parse_traditional_revision_section w limits syntax_limits calls).2.
Proof. split; [by apply base_run|by apply revision_run]. Qed.

(** ** Larger windows *)

(** The outcome for a larger window, where a smaller one gave a section. *)
Definition same_or_refused {A} (s : A) (r : result (failure XrefError) (option A)) : Prop :=
  match r with
  | Ok (Some s') => s' = s
  | Err (Rejected e) => xref_refused e
  | _ => False
  end.

Lemma window_section_larger w ext extent section :
  sw_extent w = MayContinue → window_section w = Some section →
  window_section (larger_window w ext extent) = Some section.
Proof.
  intros Hmore Hspec. unfold window_section in *.
  assert (window_more w = true) as Hm by (unfold window_more, known_source_end; by rewrite Hmore).
  rewrite Hm in Hspec. rewrite larger_stop. cbn [sw_snapshot sw_startxref sw_source_len sw_bytes larger_window].
  by apply read_section_grows.
Qed.

(** What a larger window gives, by what a smaller one gave. *)
Definition grows {A} (r r' : result (failure XrefError) (option A)) : Prop :=
  match r with
  | Ok (Some s) => same_or_refused s r'
  | Ok None => True
  | Err (Rejected e) => xref_refused e ∨ ∀ s, r' ≠ Ok (Some s)
  | Err Panicked => False
  end.

Lemma outcome_grows {A} w limits syntax_limits ext extent
    (final : ParsedTraditionalSection → A → Prop) r r' :
  sw_extent w = MayContinue → (∀ section s s', final section s → final section s' → s = s') →
  window_ok (larger_window w ext extent) limits syntax_limits →
  section_outcome w limits syntax_limits final r →
  section_outcome (larger_window w ext extent) limits syntax_limits final r' → grows r r'.
Proof.
  intros Hmore Hu Hw' Ho Ho'%outcome_section.
  assert (window_more w = true) as Hm by (unfold window_more, known_source_end; by rewrite Hmore).
  destruct r as [[s|]|[e|]]; cbn [grows section_outcome] in *; [|done| |done].
  - destruct Ho as (section&Hspec&Hf). apply scanned_some in Hspec. rewrite window_scan_value in Hspec.
    apply (window_section_larger w ext extent _ Hmore) in Hspec. rewrite Hspec in Ho'.
    unfold same_or_refused. destruct r' as [[s'|]|[e|]]; [| | |done].
    + destruct Ho' as (?&[= <-]&Hf'). by eapply Hu.
    + by destruct Ho'.
    + destruct Ho' as [?|[[? _]|(?&[= <-]&_&Hno)]]; [done..|]. by destruct (Hno s).
  - destruct Ho as [?|[(_&_&Hnone)|(section&Hspec&_&Hno)]]; [by left|right..]; intros s ->;
      destruct Ho' as (section'&Hspec'&Hf').
    + by rewrite Hnone in Hspec'.
    + apply scanned_some in Hspec. rewrite window_scan_value in Hspec.
      apply (window_section_larger w ext extent _ Hmore) in Hspec. rewrite Hspec in Hspec'.
      injection Hspec' as <-. by eapply Hno.
Qed.

Lemma base_final_unique w section s s' : base_final w section s → base_final w section s' → s = s'.
Proof. intros (?&?&_&_&_&->) (?&?&_&_&_&->). congruence. Qed.
Lemma revision_final_unique w section s s' :
  revision_final w section s → revision_final w section s' → s = s'.
Proof.
  intros (?&?&H1&H2&_&_&_&->) (?&?&H3&H4&_&_&_&->).
  f_equal; by eapply offset_before_unique.
Qed.


(** ** Accepted sections *)

(** A base section gives each object below its size one row, for an object free or
    at an offset of the source, and none to others; its root is in use. *)
Record section_wf w (s : XrefSection) : Prop := {
  swf_source : section_snapshot s = sw_snapshot w ∧ section_startxref s = sw_startxref w;
  swf_span : span_start (section_span s) = sw_startxref w ∧
    sw_startxref w < ByteSpan_end_exclusive (section_span s) ≤ window_stop w;
  swf_size : 0 < section_declared_size s ≤ u32_max;
  swf_entry number : 0 ≤ number < section_declared_size s →
    ∃ entry, XrefSection_entry s number = Some entry ∧ row_object_number entry = number ∧
      row_ok (sw_source_len w) entry ∧
      ∀ next, row_kind entry = Free next → next < section_declared_size s;
  swf_outside number : ¬ 0 ≤ number < section_declared_size s → XrefSection_entry s number = None;
  swf_zero : ∃ entry, XrefSection_entry s 0 = Some entry ∧ zero_free entry;
  swf_root : ∃ entry offset, XrefSection_entry s (object_number (section_root s)) = Some entry ∧
    row_generation entry = object_generation (section_root s) ∧ row_kind entry = InUse offset ∧
    0 ≤ offset < sw_source_len w
}.

(** A revision section gives rows to some objects below its size, each once, at
    offsets before it; the sections it refers to are before it, the hybrid stream
    after the previous section. *)
Record revision_wf w (s : TraditionalRevisionSection) : Prop := {
  rwf_source : revision_snapshot s = sw_snapshot w ∧ revision_startxref s = sw_startxref w;
  rwf_span : span_start (revision_span s) = sw_startxref w ∧
    sw_startxref w < ByteSpan_end_exclusive (revision_span s) ≤ window_stop w;
  rwf_size : 0 < revision_declared_size s ≤ u32_max;
  rwf_root root : revision_root s = Some root → object_number root < revision_declared_size s;
  rwf_previous offset : revision_previous s = Some offset → 0 ≤ offset < sw_startxref w;
  rwf_stream offset : revision_xref_stream s = Some offset → 0 ≤ offset < sw_startxref w;
  rwf_order previous stream : revision_previous s = Some previous →
    revision_xref_stream s = Some stream → previous < stream;
  rwf_rows : rows_from 0 (revision_entries s) ∧
    Forall (row_ok (sw_source_len w)) (revision_entries s);
  rwf_table : partial_table (revision_declared_size s) (sw_startxref w) (revision_entries s)
}.

Lemma outcome_accepted {A} w limits syntax_limits (final : ParsedTraditionalSection → A → Prop) s r :
  section_outcome w limits syntax_limits final r → r = Ok (Some s) →
  ∃ section, window_section w = Some section ∧ final section s.
Proof. by intros Ho%outcome_section ->. Qed.

Lemma base_final_wf w section s :
  window_section w = Some section → base_final w section s → section_wf w s.
Proof.
  intros Hspec (root&Hroot&_&_&[Hn Hzero Hfree Hin]&->).
  pose proof (read_section_span _ _ _ _ _ _ Hspec) as Hspan.
  apply read_section_rows in Hspec as (Hall&Hr&Hs). rewrite Forall_forall in Hall.
  set (entries := parsed_entries section) in *. set (size := parsed_declared_size section) in *.
  assert (∀ number, 0 ≤ number < size → ∃ entry, entry ∈ entries ∧ row_object_number entry = number) as Hrow.
  { intros number Hnum. assert (number ∈ row_object_number <$> entries) as Hel.
    { rewrite Hn. apply elem_of_seqZ. lia. }
    apply list_elem_of_fmap_1 in Hel as (entry&->&?). by exists entry. }
  split; cbn; fold entries size; unfold XrefSection_entry; cbn; fold entries size; [done|done|done| | | |].
  - intros number Hnum. destruct (Hrow _ Hnum) as (entry&Hent&<-). exists entry.
    split; [by eapply row_of_elem|]. split; [done|]. split; [by apply Hall|]. intros next. by apply Hfree.
  - intros number Hnum. destruct (row_of entries number) as [entry|] eqn:He; [|done].
    apply row_of_Some in He as [Hent <-]. by apply (numbered_bounds _ _ _ _ Hn) in Hent.
  - destruct Hzero as [next Hhead]. destruct entries as [|e l]; [done|]. injection Hhead as ->.
    eexists. split; [done|]. split; [done|]. by exists next.
  - destruct Hin as [offset Hin]. pose proof (row_of_elem _ _ _ Hr Hin) as Hlook. simpl in Hlook.
    eexists _, offset. split; [exact Hlook|]. split; [done|]. split; [done|].
    by destruct (Hall _ Hin) as [_ ?].
Qed.

Lemma offset_before_bounds startxref value o offset :
  offset_before startxref (parse_backward_offset value) o → o = Some offset → 0 ≤ offset < startxref.
Proof.
  destruct value as [value|]; simpl; [|by intros ->]. intros (v&Hv&?&->) [= <-]. split; [|done].
  destruct (as_integer _); [|done]. by apply try_from_Some in Hv as [[? _] ->].
Qed.

Lemma read_section_backward source startxref source_len stop more rest section :
  read_section source startxref source_len stop more rest = Some section →
  (∃ value, parsed_previous section = parse_backward_offset value) ∧
  (∃ value, parsed_xref_stream section = parse_backward_offset value).
Proof.
  unfold read_section, read_trailer. destruct (negb _); [done|]. cbv zeta.
  destruct (read_line_break _) as [r1|]; [|done]. cbn [mbind option_bind].
  destruct (read_subsections _ _ _ _ _) as [[entries r2]|]; [|done]. cbn [mbind option_bind].
  destruct (read_trivia _ _ r2) as [r3|]; [|done]. cbn [mbind option_bind].
  destruct (read_object _ _ _ r3) as [[object r4]|]; [|done]. cbn [mbind option_bind].
  repeat (match goal with |- context [?o ≫= _] => destruct o; [|done]; cbn [mbind option_bind] end).
  destruct (_ =? 0); [done|].
  repeat (match goal with |- context [?o ≫= _] => destruct o; [|done]; cbn [mbind option_bind] end).
  intros [= <-]. cbn. eauto.
Qed.

Lemma revision_final_wf w section s :
  window_section w = Some section → revision_final w section s → revision_wf w s.
Proof.
  intros Hspec (previous&stream&Hprev&Hstm&Horder&Hroot&Htable&->).
  pose proof (read_section_span _ _ _ _ _ _ Hspec) as Hspan.
  pose proof (read_section_backward _ _ _ _ _ _ _ Hspec) as [[pv Hpv] [sv Hsv]].
  rewrite Hpv in Hprev. rewrite Hsv in Hstm.
  apply read_section_rows in Hspec as (Hall&Hr&Hs).
  split; cbn; try done; intros offset; by eapply offset_before_bounds.
Qed.

(** C14: invariant. What attempts accept is well formed: a base section is a whole
    table whose lookups find the one row of each object below its size, within the
    source, and nothing else; a revision section has its rows in order, once, for
    objects below its size, at offsets before it; spans end within the window. *)
Theorem accepted_sections w limits syntax_limits calls s r :
  window_ok w limits syntax_limits →
  ((parse_section w limits syntax_limits calls).2 = Ok (Some s) → section_wf w s) ∧
  ((parse_traditional_revision_section w limits syntax_limits calls).2 = Ok (Some r) →
   revision_wf w r).
Proof.
  intros Hw. split; intros Hs.
  - destruct (outcome_accepted _ _ _ _ _ _ (base_run w _ _ calls Hw) Hs) as (?&?&?). by eapply base_final_wf.
  - destruct (outcome_accepted _ _ _ _ _ _ (revision_run w _ _ calls Hw) Hs) as (?&?&?).
    by eapply revision_final_wf.
Qed.

(** ** Printed tables *)

Definition same_entry (e f : DictionaryEntry) : Prop :=
  located_value (entry_key e) = located_value (entry_key f) ∧
  same_object (located_value (entry_value e)) (located_value (entry_value f)).

Lemma same_dictionary_inv es o :
  same_object (Dictionary es) o → ∃ fs, o = Dictionary fs ∧ Forall2 same_entry es fs.
Proof.
  inversion 1 as [| |? fs Hf]; subst; [|by exists fs]. exists es. split; [done|].
  clear. induction es; constructor; [|done]. split; [done|constructor].
Qed.

Lemma same_key_values key es fs :
  Forall2 same_entry es fs →
  Forall2 (λ v v', same_object (located_value v) (located_value v')) (key_values key es) (key_values key fs).
Proof.
  induction 1 as [|e f es fs [Hkey Hvalue] _ IH]; [constructor|]. rewrite !key_values_cons.
  unfold key_bytes. rewrite Hkey. case_decide; [|done]. by constructor.
Qed.

Lemma unique_same key es fs :
  Forall2 same_entry es fs → key_values key es = [] → unique_value fs key = Some None.
Proof.
  intros Hf%(same_key_values key) Hk. unfold unique_value. rewrite Hk in Hf.
  by apply Forall2_nil_inv_l in Hf as ->.
Qed.

Lemma unique_same_value key es fs o :
  Forall2 same_entry es fs → located_value <$> key_values key es = [o] →
  match o with Array _ | Dictionary _ => False | _ => True end →
  ∃ value, unique_value fs key = Some (Some value) ∧ located_value value = o.
Proof.
  intros Hf%(same_key_values key) Hk Ho. unfold unique_value.
  destruct (key_values key es) as [|v [|]]; [done| |done]. injection Hk as Hv.
  apply Forall2_cons_inv_l in Hf as (v'&l&Hs&Hnil%Forall2_nil_inv_l&->). subst l.
  exists v'. split; [done|]. rewrite Hv in Hs.
  by destruct o; try done; inversion Hs.
Qed.

(** C32: round trip. A table printed as a traditional section, in one or more
    subsections, before a trailer dictionary printed with its [/Size] and [/Root], is
    read back by [parse_section] row by row, unless a limit, the allocator or the
    probe refuses; a window that may continue needs something after the space that
    ends the trailer. *)
Theorem print_section_round_trip w limits syntax_limits calls subsections trailer rest size root :
  window_ok w limits syntax_limits → sw_source_len w ≤ 10 ^ 10 →
  sw_bytes w = print_section subsections (print (Dictionary trailer) ++ 32 :: rest) →
  subsections ≠ [] → subsections_ok (sw_source_len w) 0 subsections →
  printable (Dictionary trailer) → settled (window_more w) rest →
  located_value <$> key_values "Size" trailer = [Integer size] →
  located_value <$> key_values "Root" trailer = [Reference root] →
  key_values "Prev" trailer = [] → key_values "XRefStm" trailer = [] → size ≤ u32_max →
  complete_table size root (concat (snd <$> subsections)) →
  match (parse_section w limits syntax_limits calls).2 with
  | Ok (Some s) =>
      section_entries s = concat (snd <$> subsections) ∧ section_root s = root ∧
      section_declared_size s = size ∧ section_startxref s = sw_startxref w ∧
      same_object (Dictionary trailer) (Dictionary (located_value (section_trailer s)))
  | Err (Rejected e) => xref_refused e
  | _ => False
  end.
Proof.
  intros Hw Hlen Hbytes Hne Hok Hp Hset Hsize Hroot Hprev Hstm Hmax Htable.
  pose proof (outcome_section _ _ _ _ _ (base_run w limits syntax_limits calls Hw)) as Ho.
  unfold window_section in Ho. rewrite Hbytes in Ho.
  destruct (read_object_print (snapshot_identity (sw_snapshot w)) (window_stop w) (window_more w)
    (Dictionary trailer) rest Hp Hset) as (o&Hread&Hsame).
  erewrite read_section_print in Ho; [|done..|exact Hread].
  destruct (same_dictionary_inv _ _ Hsame) as (fs&Hfs&Hentries).
  assert (0 < size) as Hpos.
  { destruct Htable as [Hn (next&Hhead) _ _]. destruct (decide (size ≤ 0)); [|lia].
    rewrite seqZ_nil in Hn by done. apply fmap_nil_inv in Hn. by rewrite Hn in Hhead. }
  destruct (unique_same_value _ _ _ _ Hentries Hsize I) as (vs&Hvs&Hsv).
  destruct (unique_same_value _ _ _ _ Hentries Hroot I) as (vr&Hvr&Hrv).
  unfold trailer_of in Ho. rewrite Hfs in Ho. cbn [mbind option_bind] in Ho. unfold read_trailer in Ho.
  cbn [located_value] in Ho. cbv zeta in Ho.
  rewrite Hvs, Hvr, (unique_same _ _ _ Hentries Hprev), (unique_same _ _ _ Hentries Hstm) in Ho.
  cbn [mbind option_bind] in Ho. rewrite Hsv, Hrv in Ho. cbn [as_integer as_reference mbind option_bind] in Ho.
  rewrite (proj2 (try_from_Some u32_max size size)) in Ho by lia. cbn [mbind option_bind] in Ho.
  assert (size =? 0 = false) as Hz by lia. rewrite Hz in Ho.
  destruct (parse_section _ _ _ _).2 as [[s|]|[e|]]; [| | |done].
  - destruct Ho as (section&[= <-]&root'&Hroot'&_&_&_&->). cbn in Hroot' |- *. injection Hroot' as <-.
    split_and!; try done. by rewrite <-Hfs.
  - by destruct Ho.
  - destruct Ho as [?|[[? _]|(section&[= <-]&_&Hno)]]; [done..|]. exfalso.
    eapply Hno. exists root. cbn. split_and!; [done..|]. reflexivity.
Qed.
End props.

(** ** Concrete runs *)

(** Rows of 24 bytes on the runtime of [desktop_parser]. *)
Definition desktop_xref : XrefRuntime :=
  {| xref_parser := desktop_parser; size_of_xref_entry := 24 |}.
#[local] Existing Instance desktop_xref.

Definition no_calls : RuntimeCalls := {| calls_probes := 0; calls_reservations := 0 |}.

Definition line_feed : string := String (Ascii.ascii_of_nat 10) "".

Definition example_snapshot : SourceSnapshot :=
  {| snapshot_identity := example_source; snapshot_len := Some 300;
     snapshot_validator := {| validator_kind := FrozenResponse; validator_digest := [] |} |}.

(** A window of a source of 300 bytes, from offset 100. *)
Definition example_window (bytes : list Z) (extent : InputExtent) : SectionWindow :=
  {| sw_snapshot := example_snapshot; sw_startxref := 100; sw_bytes := bytes; sw_extent := extent;
     sw_source_len := 300 |}.

Definition example_rows : list XrefEntry :=
  [{| row_object_number := 0; row_generation := 65535; row_kind := Free 0 |};
   {| row_object_number := 1; row_generation := 0; row_kind := InUse 9 |}].

Definition example_trailer : PdfDictionary :=
  let at_ {A} (v : A) := {| located_source := example_source;
                            located_span := {| span_start := 0; span_len := 0 |};
                            located_value := v |} in
  [{| entry_key := at_ ("Size"%string : PdfName); entry_value := at_ (Integer 2) |};
   {| entry_key := at_ ("Root"%string : PdfName);
      entry_value := at_ (Reference {| object_number := 1; object_generation := 0 |}) |}].

Definition example_table : list Z :=
  print_section [(0, example_rows)] (print (Dictionary example_trailer) ++ [32; 10] ++ octets "startxref").

Definition accepted_of {A} (r : result (failure XrefError) (option A)) : option A :=
  match r with Ok o => o | Err _ => None end.

Lemma example_window_ok bytes extent :
  (length bytes <=? 200)%nat = true →
  window_ok (example_window bytes extent) XrefLimitConfig_default SyntaxLimitConfig_default.
Proof.
  intros Hl%Nat.leb_le. split.
  - done.
  - cbn. assert (u64_max = 18446744073709551615) by reflexivity. lia.
  - cbn. done.
  - cbn. lia.
  - vm_compute. intuition discriminate.
  - vm_compute. intuition discriminate.
Qed.

Definition example_result : result (failure XrefError) (option XrefSection) :=
  (parse_section (example_window example_table MayContinue) XrefLimitConfig_default
     SyntaxLimitConfig_default no_calls).2.
Definition example_revision : result (failure XrefError) (option TraditionalRevisionSection) :=
  (parse_traditional_revision_section (example_window example_table MayContinue)
     XrefLimitConfig_default SyntaxLimitConfig_default no_calls).2.

(** Both attempts accept the table. *)
Lemma examples_accepted :
  ∃ s r, example_result = Ok (Some s) ∧ example_revision = Ok (Some r).
Proof.
  assert (∀ A (r : result (failure XrefError) (option A)),
    bool_decide (is_Some (accepted_of r)) = true → ∃ a, r = Ok (Some a)) as Hr.
  { intros A [[a|]|e] Ha%bool_decide_eq_true; [by exists a|by destruct Ha..]. }
  destruct (Hr _ example_result ltac:(vm_compute; reflexivity)) as [s Hs].
  destruct (Hr _ example_revision ltac:(vm_compute; reflexivity)) as [r Hr'].
  exists s, r. split; assumption.
Qed.

(** The tail of the source is found from its last 22 bytes. *)
Lemma tail_exact_witness :
  tail_outcome (octets ("startxref" ++ line_feed ++ "100" ++ line_feed ++ "%%EOF" ++ line_feed)) 280 300
    (tail_at 280 (octets ("startxref" ++ line_feed ++ "100" ++ line_feed ++ "%%EOF" ++ line_feed)))
    (tail_cut (octets ("startxref" ++ line_feed ++ "100" ++ line_feed ++ "%%EOF" ++ line_feed)))
    (Ok NeedLarger) ∧
  tail_outcome (octets (line_feed ++ "startxref" ++ line_feed ++ "100" ++ line_feed ++ "%%EOF")) 280 300
    (tail_at 280 (octets (line_feed ++ "startxref" ++ line_feed ++ "100" ++ line_feed ++ "%%EOF")))
    (tail_cut (octets (line_feed ++ "startxref" ++ line_feed ++ "100" ++ line_feed ++ "%%EOF")))
    (Ok (Found 100 281)).
Proof.
  split.
  - exact (proj1 (tail_exact 280 300
      (octets ("startxref" ++ line_feed ++ "100" ++ line_feed ++ "%%EOF" ++ line_feed)) no_calls
      ltac:(done) ltac:(vm_compute; discriminate))).
  - exact (proj1 (tail_exact 280 300
      (octets (line_feed ++ "startxref" ++ line_feed ++ "100" ++ line_feed ++ "%%EOF")) no_calls
      ltac:(done) ltac:(vm_compute; discriminate))).
Defined.

(** Attempts on other bytes: a table that is cut, and one with a wrong first line. *)
Definition example_attempt (bytes : list Z) : result (failure XrefError) (option XrefSection) :=
  (parse_section (example_window bytes MayContinue) XrefLimitConfig_default
     SyntaxLimitConfig_default no_calls).2.
Definition example_outcome (bytes : list Z) : Prop :=
  section_outcome (example_window bytes MayContinue) XrefLimitConfig_default
    SyntaxLimitConfig_default (base_final (example_window bytes MayContinue)) (example_attempt bytes).

Definition cut_table : list Z := take 40 example_table.
Definition wrong_table : list Z := octets ("xref 7" ++ line_feed).

Lemma sections_exact_witness :
  example_outcome example_table ∧
  (section_entries <$> accepted_of (example_attempt example_table)) = Some example_rows ∧
  example_outcome cut_table ∧ example_attempt cut_table = Ok None ∧
  example_outcome wrong_table ∧
  example_attempt wrong_table = Err (Rejected (XrefError_for_code InvalidXrefKeyword (Some 105))).
Proof.
  split; [|split; [vm_compute; reflexivity|split; [|split; [vm_compute; reflexivity|split; [|vm_compute; reflexivity]]]]].
  - exact (proj1 (sections_exact (example_window example_table MayContinue) XrefLimitConfig_default
      SyntaxLimitConfig_default no_calls (example_window_ok example_table MayContinue eq_refl))).
  - exact (proj1 (sections_exact (example_window cut_table MayContinue) XrefLimitConfig_default
      SyntaxLimitConfig_default no_calls (example_window_ok cut_table MayContinue eq_refl))).
  - exact (proj1 (sections_exact (example_window wrong_table MayContinue) XrefLimitConfig_default
      SyntaxLimitConfig_default no_calls (example_window_ok wrong_table MayContinue eq_refl))).
Defined.


Lemma accepted_sections_witness :
  match example_result, example_revision with
  | Ok (Some s), Ok (Some r) =>
      section_wf (example_window example_table MayContinue) s ∧
      revision_wf (example_window example_table MayContinue) r
  | _, _ => False
  end.
Proof.
  destruct examples_accepted as (s&r&Hs&Hr). rewrite Hs, Hr.
  pose proof (accepted_sections (example_window example_table MayContinue) XrefLimitConfig_default
    SyntaxLimitConfig_default no_calls s r (example_window_ok example_table MayContinue eq_refl)) as [H1 H2].
  split; [exact (H1 Hs)|exact (H2 Hr)].
Defined.

Lemma print_section_round_trip_witness :
  ∃ s, example_result = Ok (Some s) ∧ section_entries s = example_rows ∧
    section_root s = {| object_number := 1; object_generation := 0 |} ∧ section_declared_size s = 2.
Proof.
  destruct examples_accepted as (s&r&Hs&_). exists s. split; [exact Hs|]. unfold example_result in Hs.
  assert (complete_table 2 {| object_number := 1; object_generation := 0 |}
    (concat (snd <$> [(0, example_rows)]))) as Htable.
  { split; [reflexivity|by exists 0| |].
    - intros entry next Hin Hk. cbn in Hin. rewrite !elem_of_cons in Hin.
      destruct Hin as [->|[->|[]%not_elem_of_nil]]; [by injection Hk as <-|done].
    - exists 9. cbn. rewrite !elem_of_cons. auto. }
  pose proof (print_section_round_trip (example_window example_table MayContinue) XrefLimitConfig_default
    SyntaxLimitConfig_default no_calls [(0, example_rows)] example_trailer (10 :: octets "startxref") 2
    {| object_number := 1; object_generation := 0 |} (example_window_ok example_table MayContinue eq_refl)
    ltac:(vm_compute; discriminate) eq_refl ltac:(discriminate) ltac:(vm_compute; intuition discriminate)
    ltac:(vm_compute; intuition discriminate) ltac:(vm_compute; reflexivity) eq_refl eq_refl eq_refl eq_refl
    ltac:(vm_compute; discriminate) Htable) as Hread.
  rewrite Hs in Hread. destruct Hread as (He&Hroot&Hsize&_).
  split; [exact He|]. split; [exact Hroot|exact Hsize].
Defined.

(** A tail that the scan of a whole source finds, and that it calls malformed when
    the window starts within the white space before [%%EOF]: the test for a line
    ending comes before the one for the start of the window. *)
Lemma tail_window_dependent :
  (parse_tail (octets ("startxref" ++ line_feed ++ "12" ++ line_feed ++ "  %%EOF")) 0 100 no_calls).2 =
    Ok (Found 12 0) ∧
  (parse_tail (octets "  %%EOF") 13 100 no_calls).2 =
    Err (Rejected (XrefError_for_code InvalidStartXref (Some 15))).
Proof. split; vm_compute; reflexivity. Qed.
