(* ===== verification/XrefJob.v ===== *)
(** * Jobs for traditional cross-reference tables ([pdf-rs/xref/src])

    The job that finds the final [startxref] ([final_anchor.rs]), the job that reads
    the table it declares ([job.rs]), and the job that reads one revision section at a
    known offset ([traditional_revision.rs]). Each polls a byte source for a window,
    charges it once, and parses it; a window that is too small doubles up to a cap. *)

From stdpp Require Import base list numbers option strings.
From S2P Require Import Prelude.
From S2P Require Import SourceTypes.
From S2P Require Import SyntaxTypes.
From S2P Require Import SyntaxState.
From S2P Require Import RangeTypes.
From S2P Require Import ObjectParser.
From S2P Require Import ObjectJob.
From S2P Require Import XrefTypes.
From S2P Require Import XrefTail.
From S2P Require Import XrefParser.

Definition grow_window (current cap : Z) : option Z :=
  doubled ← checked_mul u64_max current 2;
  let next := Z.min doubled cap in
  if current <? next then Some next else None.

(** ** What the jobs share *)

(** The jobs have the same private methods; their fields and polls differ. *)
Class WindowJob (J P : Type) : Type := {
  wj_snapshot : J → SourceSnapshot;
  wj_limits : J → XrefLimits;
  wj_owner : J → Z;
  wj_read_bytes : J → Z;
  wj_parse_bytes : J → Z;
  wj_set_read_bytes : Z → J → J;
  wj_set_parse_bytes : Z → J → J;
  wj_set_failed : XrefError → J → J;
  wj_failed : XrefError → P;
  wj_pending : DataTicket → SmallRanges → Z → P
}.

Definition xref_validate_slice (bytes : ByteSlice) (expected : ByteRange) (snapshot : SourceSnapshot)
    : result XrefError unit :=
  fail_if (negb (bool_decide (slice_identity bytes = snapshot_identity snapshot)))
    (XrefError_for_code XrefSnapshotMismatch None);;
  fail_if (negb (bool_decide (slice_range bytes = expected)))
    (XrefError_for_code XrefInternalState (Some (range_start expected))).

(** The total after a charge of [amount]. *)
Definition xref_charge (kind : XrefLimitKind) (limit consumed amount : Z) (offset : option Z)
    : result XrefError Z :=
  let refused := XrefError_resource kind limit consumed amount offset in
  total ← require (checked_add u64_max consumed amount) refused;
  fail_if (limit <? total) refused;;
  mret total.

Section window.
Context `{ParserRuntime} {S J P : Type} `{ByteSource S} `{WindowJob J P}.

Abbreviation Op := (JobM S J P).

(** [self.fail(error)] and [self.fail_internal(offset)]. *)
Definition window_fail {A} (error : XrefError) : Op A := fail_with wj_set_failed wj_failed error.
Definition window_fail_internal {A} (offset : option Z) : Op A :=
  window_fail (XrefError_for_code XrefInternalState offset).
Definition window_try {A} (r : result XrefError A) : Op A :=
  match r with Ok a => mret a | Err error => window_fail error end.
Definition window_some {A} (o : option A) (offset : option Z) : Op A :=
  match o with Some a => mret a | None => window_fail_internal offset end.

Definition window_charge_read (amount : Z) (offset : option Z) : Op unit :=
  j ← job;
  total ← window_try (xref_charge XrefTotalReadBytes (xl_max_total_read_bytes (wj_limits j))
                        (wj_read_bytes j) amount offset);
  set_job (wj_set_read_bytes total).
Definition window_charge_parse (amount : Z) (offset : option Z) : Op unit :=
  j ← job;
  total ← window_try (xref_charge XrefTotalParseBytes (xl_max_total_parse_bytes (wj_limits j))
                        (wj_parse_bytes j) amount offset);
  set_job (wj_set_parse_bytes total).

(** The checks of a poll before its work. *)
Definition window_checks (offset : option Z) : Op unit :=
  j ← job;
  current ← snapshot;
  if negb (bool_decide (current = wj_snapshot j))
  then window_fail (XrefError_for_code XrefSnapshotMismatch None)
  else
    cancelled ← is_cancelled;
    if cancelled : bool then window_fail (XrefError_for_code XrefCancelled offset) else mret tt.

(** The request for a window, and its slice or the poll that is returned without it. *)
Definition window_read (range : ByteRange) (checkpoint offset : Z) : Op ByteSlice :=
  j ← job;
  polled ← poll_source {| request_range := range; request_priority := Metadata;
                          request_job := wj_owner j; request_checkpoint := checkpoint |};
  match polled with
  | PollPending ticket missing => answer (wj_pending ticket missing checkpoint)
  | PollEndOfFile => window_fail (XrefError_for_code XrefUnexpectedEndOfSource (Some offset))
  | PollFailed error => window_fail (XrefError_from_source error)
  | PollReady bytes =>
      window_try (xref_validate_slice bytes range (wj_snapshot j));;
      mret bytes
  end.

(** What is returned for a poll: [None] is a panic. *)
Definition polled (m : Op P) (r : JobRun S J) : JobRun S J * option P :=
  match m r with
  | (r', Ok poll) | (r', Err (Rejected poll)) => (r', Some poll)
  | (r', Err Panicked) => (r', None)
  end.
End window.

(** The checks of a source at construction: its length. *)
Definition xref_source_len (snapshot : SourceSnapshot) (limits : XrefLimits) : result XrefError Z :=
  source_len ← require (snapshot_len snapshot) (XrefError_for_code XrefUnknownSourceLength None);
  fail_if (source_len =? 0) (XrefError_for_code XrefEmptySource (Some 0));;
  fail_if (xl_max_source_bytes limits <? source_len)
    (XrefError_resource XrefSourceBytes (xl_max_source_bytes limits) 0 source_len None);;
  mret source_len.

(** ** The final [startxref] *)

Record FinalStartXref := {
  final_snapshot : SourceSnapshot;
  final_startxref : Z;
  final_tail_start : Z
}.

Record FinalStartXrefJobContext := {
  fc_job : Z;
  fc_tail_checkpoint : Z
}.

Inductive FinalStartXrefPhase := FinalTailPhase | FinalCompletePhase | FinalFailedPhase.

Record FinalStartXrefStats := {
  fs_read_bytes : Z;
  fs_parse_bytes : Z;
  fs_tail_attempts : Z
}.

Inductive FinalStartXrefPoll :=
| FinalReady (final : FinalStartXref)
| FinalPending (ticket : DataTicket) (missing : SmallRanges) (checkpoint : Z)
| FinalPollFailed (error : XrefError).

Inductive FinalState :=
| FinalTail (window : Z) (charged : bool)
| FinalComplete
| FinalFailed (error : XrefError).

Record OpenFinalStartXrefJob := {
  fj_snapshot : SourceSnapshot;
  fj_source_len : Z;
  fj_context : FinalStartXrefJobContext;
  fj_limits : XrefLimits;
  fj_stats : FinalStartXrefStats;
  fj_state : FinalState
}.
Definition set_final_state (x : FinalState) (j : OpenFinalStartXrefJob) : OpenFinalStartXrefJob :=
  {| fj_snapshot := fj_snapshot j; fj_source_len := fj_source_len j; fj_context := fj_context j;
     fj_limits := fj_limits j; fj_stats := fj_stats j; fj_state := x |}.
Definition set_final_stats (f : FinalStartXrefStats → FinalStartXrefStats)
    (j : OpenFinalStartXrefJob) : OpenFinalStartXrefJob :=
  {| fj_snapshot := fj_snapshot j; fj_source_len := fj_source_len j; fj_context := fj_context j;
     fj_limits := fj_limits j; fj_stats := f (fj_stats j); fj_state := fj_state j |}.
Definition final_read_bytes (x : Z) (s : FinalStartXrefStats) : FinalStartXrefStats :=
  {| fs_read_bytes := x; fs_parse_bytes := fs_parse_bytes s; fs_tail_attempts := fs_tail_attempts s |}.
Definition final_parse_bytes (x : Z) (s : FinalStartXrefStats) : FinalStartXrefStats :=
  {| fs_read_bytes := fs_read_bytes s; fs_parse_bytes := x; fs_tail_attempts := fs_tail_attempts s |}.
Definition final_tail_attempts (x : Z) (s : FinalStartXrefStats) : FinalStartXrefStats :=
  {| fs_read_bytes := fs_read_bytes s; fs_parse_bytes := fs_parse_bytes s; fs_tail_attempts := x |}.

#[export] Instance final_window : WindowJob OpenFinalStartXrefJob FinalStartXrefPoll := {|
  wj_snapshot := fj_snapshot; wj_limits := fj_limits; wj_owner j := fc_job (fj_context j);
  wj_read_bytes j := fs_read_bytes (fj_stats j); wj_parse_bytes j := fs_parse_bytes (fj_stats j);
  wj_set_read_bytes x := set_final_stats (final_read_bytes x);
  wj_set_parse_bytes x := set_final_stats (final_parse_bytes x);
  wj_set_failed e := set_final_state (FinalFailed e);
  wj_failed := FinalPollFailed; wj_pending := FinalPending
|}.

Definition OpenFinalStartXrefJob_new (snapshot : SourceSnapshot) (context : FinalStartXrefJobContext)
    (limits : XrefLimits) : result XrefError OpenFinalStartXrefJob :=
  source_len ← xref_source_len snapshot limits;
  mret {| fj_snapshot := snapshot; fj_source_len := source_len; fj_context := context;
          fj_limits := limits;
          fj_stats := {| fs_read_bytes := 0; fs_parse_bytes := 0; fs_tail_attempts := 0 |};
          fj_state := FinalTail (Z.min (xl_initial_tail_bytes limits) source_len) false |}.

Definition OpenFinalStartXrefJob_phase (j : OpenFinalStartXrefJob) : FinalStartXrefPhase :=
  match fj_state j with
  | FinalTail _ _ => FinalTailPhase
  | FinalComplete => FinalCompletePhase
  | FinalFailed _ => FinalFailedPhase
  end.

Section final.
Context `{XrefRuntime} {S : Type} `{ByteSource S}.

Abbreviation FinalOp := (JobM S OpenFinalStartXrefJob FinalStartXrefPoll).

(** [TailParse::NeedLarger]: the next window. *)
Definition final_grow (window start : Z) : FinalOp unit :=
  j ← job;
  let limits := fj_limits j in
  let cap := Z.min (xl_max_tail_bytes limits) (fj_source_len j) in
  if cap <=? window then
    window_fail (if cap =? fj_source_len j
                 then XrefError_for_code StartXrefNotFound (Some 0)
                 else XrefError_resource XrefTailBytes (xl_max_tail_bytes limits) window 1 (Some start))
  else
    next ← window_some (grow_window window cap) (Some start);
    set_job (set_final_state (FinalTail next false)).

(** [poll_tail]; [None] is its call of [poll] on a larger window. *)
Definition final_poll_tail (window : Z) (charged : bool) : FinalOp (option FinalStartXrefPoll) :=
  j ← job;
  start ← window_some (checked_sub (fj_source_len j) window) None;
  range ← match ByteRange_new start window with
          | Ok range => mret range
          | Err _ => window_fail_internal (Some start)
          end;
  when (negb charged)
    (window_charge_read window (Some start);;
     j ← job;
     attempts ← window_some (checked_add u64_max (fs_tail_attempts (fj_stats j)) 1) (Some start);
     set_job (set_final_stats (final_tail_attempts attempts));;
     set_job (set_final_state (FinalTail window true)));;
  bytes ← window_read range (fc_tail_checkpoint (fj_context j)) start;
  window_charge_parse window (Some start);;
  parsed ← attempt (parse_tail (slice_bytes bytes) start (fj_source_len j));
  match parsed with
  | Ok (Found startxref tail_start) =>
      set_job (set_final_state FinalComplete);;
      mret (Some (FinalReady {| final_snapshot := fj_snapshot j; final_startxref := startxref;
                                final_tail_start := tail_start |}))
  | Ok NeedLarger => final_grow window start;; mret None
  | Err error => window_fail error
  end.

(** [poll], up to its recursive call. *)
Definition final_step : FinalOp (option FinalStartXrefPoll) :=
  j ← job;
  match fj_state j with
  | FinalTail window charged =>
      window_checks None;;
      final_poll_tail window charged
  | FinalComplete => answer (FinalPollFailed (XrefError_for_code XrefJobAlreadyComplete None))
  | FinalFailed error => answer (FinalPollFailed error)
  end.

(** Running out of fuel is a panic. *)
Fixpoint final_loop (fuel : nat) : FinalOp FinalStartXrefPoll :=
  match fuel with
  | O => throw Panicked
  | Datatypes.S fuel =>
      outcome ← final_step;
      match outcome with Some poll => mret poll | None => final_loop fuel end
  end.

(** Windows double up to a cap below 2^27. *)
Definition OpenFinalStartXrefJob_poll (r : JobRun S OpenFinalStartXrefJob)
    : JobRun S OpenFinalStartXrefJob * option FinalStartXrefPoll :=
  polled (final_loop poll_fuel) r.
End final.

(** ** The table that the tail declares *)

Record XrefJobContext := {
  xc_job : Z;
  xc_tail_checkpoint : Z;
  xc_section_checkpoint : Z
}.

Inductive XrefPhase := XrefTailPhase | XrefSectionPhase | XrefCompletePhase | XrefFailedPhase.

Record XrefStats := {
  xs_read_bytes : Z;
  xs_parse_bytes : Z;
  xs_tail_attempts : Z;
  xs_section_attempts : Z;
  xs_entries : Z
}.

Inductive XrefPoll :=
| XrefReady (section : XrefSection)
| XrefPending (ticket : DataTicket) (missing : SmallRanges) (checkpoint : Z)
| XrefPollFailed (error : XrefError).

Inductive XrefJobState :=
| XrefTail
| XrefSectionState (startxref window : Z) (charged : bool)
| XrefComplete
| XrefFailed (error : XrefError).

Record OpenXrefJob := {
  xj_snapshot : SourceSnapshot;
  xj_source_len : Z;
  xj_context : XrefJobContext;
  xj_limits : XrefLimits;
  xj_syntax_limits : SyntaxLimits;
  xj_stats : XrefStats;
  xj_discovered_startxref : option Z;
  xj_tail : option OpenFinalStartXrefJob;
  xj_state : XrefJobState
}.
Definition set_xref_state (x : XrefJobState) (j : OpenXrefJob) : OpenXrefJob :=
  {| xj_snapshot := xj_snapshot j; xj_source_len := xj_source_len j; xj_context := xj_context j;
     xj_limits := xj_limits j; xj_syntax_limits := xj_syntax_limits j; xj_stats := xj_stats j;
     xj_discovered_startxref := xj_discovered_startxref j; xj_tail := xj_tail j; xj_state := x |}.
Definition set_xref_stats (f : XrefStats → XrefStats) (j : OpenXrefJob) : OpenXrefJob :=
  {| xj_snapshot := xj_snapshot j; xj_source_len := xj_source_len j; xj_context := xj_context j;
     xj_limits := xj_limits j; xj_syntax_limits := xj_syntax_limits j; xj_stats := f (xj_stats j);
     xj_discovered_startxref := xj_discovered_startxref j; xj_tail := xj_tail j;
     xj_state := xj_state j |}.
Definition set_tail (discovered : option Z) (x : option OpenFinalStartXrefJob) (j : OpenXrefJob)
    : OpenXrefJob :=
  {| xj_snapshot := xj_snapshot j; xj_source_len := xj_source_len j; xj_context := xj_context j;
     xj_limits := xj_limits j; xj_syntax_limits := xj_syntax_limits j; xj_stats := xj_stats j;
     xj_discovered_startxref := discovered; xj_tail := x; xj_state := xj_state j |}.
Definition xref_read_bytes (x : Z) (s : XrefStats) : XrefStats :=
  {| xs_read_bytes := x; xs_parse_bytes := xs_parse_bytes s;
     xs_tail_attempts := xs_tail_attempts s; xs_section_attempts := xs_section_attempts s;
     xs_entries := xs_entries s |}.
Definition xref_parse_bytes (x : Z) (s : XrefStats) : XrefStats :=
  {| xs_read_bytes := xs_read_bytes s; xs_parse_bytes := x;
     xs_tail_attempts := xs_tail_attempts s; xs_section_attempts := xs_section_attempts s;
     xs_entries := xs_entries s |}.
Definition xref_section_attempts (x : Z) (s : XrefStats) : XrefStats :=
  {| xs_read_bytes := xs_read_bytes s; xs_parse_bytes := xs_parse_bytes s;
     xs_tail_attempts := xs_tail_attempts s; xs_section_attempts := x;
     xs_entries := xs_entries s |}.
Definition xref_entries (x : Z) (s : XrefStats) : XrefStats :=
  {| xs_read_bytes := xs_read_bytes s; xs_parse_bytes := xs_parse_bytes s;
     xs_tail_attempts := xs_tail_attempts s; xs_section_attempts := xs_section_attempts s;
     xs_entries := x |}.
(** The work of the tail, in the stats of the job. *)
Definition copy_tail_stats (t : FinalStartXrefStats) (s : XrefStats) : XrefStats :=
  {| xs_read_bytes := fs_read_bytes t; xs_parse_bytes := fs_parse_bytes t;
     xs_tail_attempts := fs_tail_attempts t; xs_section_attempts := xs_section_attempts s;
     xs_entries := xs_entries s |}.

#[export] Instance xref_window : WindowJob OpenXrefJob XrefPoll := {|
  wj_snapshot := xj_snapshot; wj_limits := xj_limits; wj_owner j := xc_job (xj_context j);
  wj_read_bytes j := xs_read_bytes (xj_stats j); wj_parse_bytes j := xs_parse_bytes (xj_stats j);
  wj_set_read_bytes x := set_xref_stats (xref_read_bytes x);
  wj_set_parse_bytes x := set_xref_stats (xref_parse_bytes x);
  wj_set_failed e := set_xref_state (XrefFailed e);
  wj_failed := XrefPollFailed; wj_pending := XrefPending
|}.

Definition OpenXrefJob_new (snapshot : SourceSnapshot) (context : XrefJobContext)
    (limits : XrefLimits) (syntax_limits : SyntaxLimits) : result XrefError OpenXrefJob :=
  fail_if (xc_tail_checkpoint context =? xc_section_checkpoint context)
    (XrefError_for_code XrefInvalidJobContext None);;
  source_len ← xref_source_len snapshot limits;
  fail_if (sl_max_input_bytes syntax_limits <? xl_max_section_bytes limits)
    (XrefError_for_code XrefInvalidLimits None);;
  tail ← OpenFinalStartXrefJob_new snapshot
    {| fc_job := xc_job context; fc_tail_checkpoint := xc_tail_checkpoint context |} limits;
  mret {| xj_snapshot := snapshot; xj_source_len := source_len; xj_context := context;
          xj_limits := limits; xj_syntax_limits := syntax_limits;
          xj_stats := {| xs_read_bytes := 0; xs_parse_bytes := 0; xs_tail_attempts := 0;
                         xs_section_attempts := 0; xs_entries := 0 |};
          xj_discovered_startxref := None; xj_tail := Some tail; xj_state := XrefTail |}.

Definition OpenXrefJob_phase (j : OpenXrefJob) : XrefPhase :=
  match xj_state j with
  | XrefTail => XrefTailPhase
  | XrefSectionState _ _ _ => XrefSectionPhase
  | XrefComplete => XrefCompletePhase
  | XrefFailed _ => XrefFailedPhase
  end.

(** A window of a section that may not grow: its error. *)
Definition section_exhausted (limits : XrefLimits) (startxref window cap available : Z) : XrefError :=
  if cap =? available
  then XrefError_for_code XrefUnexpectedEndOfSource (Some (startxref + window))
  else XrefError_resource XrefSectionBytes (xl_max_section_bytes limits) window 1 (Some startxref).

(** The extent of a window that ends at the last byte that a section may have. *)
Definition extent_of (last : bool) : InputExtent := if last then KnownSourceEnd else MayContinue.

Section xref.
Context `{XrefRuntime} {S : Type} `{ByteSource S}.

Abbreviation XrefOp := (JobM S OpenXrefJob XrefPoll).

(** [tail.poll(source, cancellation)], in the world of the job, and its stats. *)
Definition poll_tail_job (tail : OpenFinalStartXrefJob) : XrefOp FinalStartXrefPoll := λ r,
  let '(r', outcome) := OpenFinalStartXrefJob_poll {| run_job := tail; run_world := run_world r |} in
  ({| run_job := set_xref_stats (copy_tail_stats (fj_stats (run_job r')))
                   (set_tail (xj_discovered_startxref (run_job r)) (Some (run_job r')) (run_job r));
      run_world := run_world r' |},
   match outcome with Some poll => Ok poll | None => Err Panicked end).

Definition xref_poll_tail : XrefOp (option XrefPoll) :=
  j ← job;
  tail ← window_some (xj_tail j) None;
  outcome ← poll_tail_job tail;
  match outcome with
  | FinalPending ticket missing checkpoint => mret (Some (XrefPending ticket missing checkpoint))
  | FinalPollFailed error => window_fail error
  | FinalReady final =>
      let startxref := final_startxref final in
      set_job (set_tail (Some startxref) None);;
      match checked_sub (xj_source_len j) startxref with
      | Some (Zpos _ as remaining) =>
          set_job (set_xref_state (XrefSectionState startxref
            (Z.min (xl_initial_section_bytes (xj_limits j)) remaining) false));;
          mret None
      | _ => window_fail_internal (Some startxref)
      end
  end.

(** [Ok(None)]: the next window. *)
Definition xref_grow (startxref window : Z) : XrefOp unit :=
  j ← job;
  remaining ← window_some (checked_sub (xj_source_len j) startxref) (Some startxref);
  let cap := Z.min (xl_max_section_bytes (xj_limits j)) remaining in
  if cap <=? window
  then window_fail (section_exhausted (xj_limits j) startxref window cap remaining)
  else
    next ← window_some (grow_window window cap) (Some startxref);
    set_job (set_xref_state (XrefSectionState startxref next false)).

Definition xref_poll_section (startxref window : Z) (charged : bool) : XrefOp (option XrefPoll) :=
  j ← job;
  range ← match ByteRange_new startxref window with
          | Ok range =>
              if ByteRange_end_exclusive range <=? xj_source_len j then mret range
              else window_fail_internal (Some startxref)
          | Err _ => window_fail_internal (Some startxref)
          end;
  when (negb charged)
    (window_charge_read window (Some startxref);;
     j ← job;
     attempts ← window_some (checked_add u64_max (xs_section_attempts (xj_stats j)) 1)
                  (Some startxref);
     set_job (set_xref_stats (xref_section_attempts attempts));;
     set_job (set_xref_state (XrefSectionState startxref window true)));;
  bytes ← window_read range (xc_section_checkpoint (xj_context j)) startxref;
  window_charge_parse window (Some startxref);;
  parsed ← attempt (parse_section
    {| sw_snapshot := xj_snapshot j; sw_startxref := startxref; sw_bytes := slice_bytes bytes;
       sw_extent := extent_of (ByteRange_end_exclusive range =? xj_source_len j);
       sw_source_len := xj_source_len j |} (xj_limits j) (xj_syntax_limits j));
  match parsed with
  | Ok (Some section) =>
      entries ← window_some (try_from u64_max (len (section_entries section))) (Some startxref);
      set_job (set_xref_stats (xref_entries entries));;
      set_job (set_xref_state XrefComplete);;
      mret (Some (XrefReady section))
  | Ok None => xref_grow startxref window;; mret None
  | Err error => window_fail error
  end.

(** One round of the loop of [poll]. *)
Definition xref_step : XrefOp (option XrefPoll) :=
  window_checks None;;
  j ← job;
  match xj_state j with
  | XrefTail => xref_poll_tail
  | XrefSectionState startxref window charged => xref_poll_section startxref window charged
  | XrefComplete => answer (XrefPollFailed (XrefError_for_code XrefJobAlreadyComplete None))
  | XrefFailed error => answer (XrefPollFailed error)
  end.

Fixpoint xref_loop (fuel : nat) : XrefOp XrefPoll :=
  match fuel with
  | O => throw Panicked
  | Datatypes.S fuel =>
      outcome ← xref_step;
      match outcome with Some poll => mret poll | None => xref_loop fuel end
  end.

Definition xref_poll_inner : XrefOp XrefPoll :=
  j ← job;
  match xj_state j with
  | XrefFailed error => answer (XrefPollFailed error)
  | XrefComplete => answer (XrefPollFailed (XrefError_for_code XrefJobAlreadyComplete None))
  | XrefTail | XrefSectionState _ _ _ => xref_loop poll_fuel
  end.

Definition OpenXrefJob_poll (r : JobRun S OpenXrefJob) : JobRun S OpenXrefJob * option XrefPoll :=
  polled xref_poll_inner r.
End xref.

(** ** A revision section at a known offset *)

Record TraditionalRevisionJobContext := {
  rc_job : Z;
  rc_section_checkpoint : Z
}.

Inductive TraditionalRevisionPhase :=
| RevisionSectionPhase | RevisionCompletePhase | RevisionFailedPhase.

Record TraditionalRevisionStats := {
  rs_read_bytes : Z;
  rs_parse_bytes : Z;
  rs_section_attempts : Z;
  rs_entries : Z
}.

Inductive TraditionalRevisionPoll :=
| RevisionReady (section : TraditionalRevisionSection)
| RevisionPending (ticket : DataTicket) (missing : SmallRanges) (checkpoint : Z)
| RevisionPollFailed (error : XrefError).

Inductive RevisionState :=
| RevisionSection (window : Z) (charged : bool)
| RevisionComplete
| RevisionFailed (error : XrefError).

Record OpenTraditionalRevisionJob := {
  rj_snapshot : SourceSnapshot;
  rj_source_len : Z;
  rj_startxref : Z;
  rj_upper_bound : Z;
  rj_context : TraditionalRevisionJobContext;
  rj_limits : XrefLimits;
  rj_syntax_limits : SyntaxLimits;
  rj_stats : TraditionalRevisionStats;
  rj_state : RevisionState
}.
Definition set_revision_state (x : RevisionState) (j : OpenTraditionalRevisionJob)
    : OpenTraditionalRevisionJob :=
  {| rj_snapshot := rj_snapshot j; rj_source_len := rj_source_len j;
     rj_startxref := rj_startxref j; rj_upper_bound := rj_upper_bound j;
     rj_context := rj_context j; rj_limits := rj_limits j;
     rj_syntax_limits := rj_syntax_limits j; rj_stats := rj_stats j; rj_state := x |}.
Definition set_revision_stats (f : TraditionalRevisionStats → TraditionalRevisionStats)
    (j : OpenTraditionalRevisionJob) : OpenTraditionalRevisionJob :=
  {| rj_snapshot := rj_snapshot j; rj_source_len := rj_source_len j;
     rj_startxref := rj_startxref j; rj_upper_bound := rj_upper_bound j;
     rj_context := rj_context j; rj_limits := rj_limits j;
     rj_syntax_limits := rj_syntax_limits j; rj_stats := f (rj_stats j);
     rj_state := rj_state j |}.
Definition revision_read_bytes (x : Z) (s : TraditionalRevisionStats) : TraditionalRevisionStats :=
  {| rs_read_bytes := x; rs_parse_bytes := rs_parse_bytes s;
     rs_section_attempts := rs_section_attempts s; rs_entries := rs_entries s |}.
Definition revision_parse_bytes (x : Z) (s : TraditionalRevisionStats) : TraditionalRevisionStats :=
  {| rs_read_bytes := rs_read_bytes s; rs_parse_bytes := x;
     rs_section_attempts := rs_section_attempts s; rs_entries := rs_entries s |}.
Definition revision_section_attempts (x : Z) (s : TraditionalRevisionStats)
    : TraditionalRevisionStats :=
  {| rs_read_bytes := rs_read_bytes s; rs_parse_bytes := rs_parse_bytes s;
     rs_section_attempts := x; rs_entries := rs_entries s |}.
Definition revision_entry_count (x : Z) (s : TraditionalRevisionStats) : TraditionalRevisionStats :=
  {| rs_read_bytes := rs_read_bytes s; rs_parse_bytes := rs_parse_bytes s;
     rs_section_attempts := rs_section_attempts s; rs_entries := x |}.

#[export] Instance revision_window : WindowJob OpenTraditionalRevisionJob TraditionalRevisionPoll := {|
  wj_snapshot := rj_snapshot; wj_limits := rj_limits; wj_owner j := rc_job (rj_context j);
  wj_read_bytes j := rs_read_bytes (rj_stats j); wj_parse_bytes j := rs_parse_bytes (rj_stats j);
  wj_set_read_bytes x := set_revision_stats (revision_read_bytes x);
  wj_set_parse_bytes x := set_revision_stats (revision_parse_bytes x);
  wj_set_failed e := set_revision_state (RevisionFailed e);
  wj_failed := RevisionPollFailed; wj_pending := RevisionPending
|}.

Definition OpenTraditionalRevisionJob_new (snapshot : SourceSnapshot) (startxref upper_bound : Z)
    (context : TraditionalRevisionJobContext) (limits : XrefLimits) (syntax_limits : SyntaxLimits)
    : result XrefError OpenTraditionalRevisionJob :=
  source_len ← xref_source_len snapshot limits;
  fail_if ((upper_bound <=? startxref) || (source_len <? upper_bound))
    (XrefError_for_code StartXrefOutOfBounds (Some startxref));;
  fail_if (sl_max_input_bytes syntax_limits <? xl_max_section_bytes limits)
    (XrefError_for_code XrefInvalidLimits None);;
  available ← require (checked_sub upper_bound startxref)
    (XrefError_for_code XrefInternalState (Some startxref));
  mret {| rj_snapshot := snapshot; rj_source_len := source_len; rj_startxref := startxref;
          rj_upper_bound := upper_bound; rj_context := context; rj_limits := limits;
          rj_syntax_limits := syntax_limits;
          rj_stats := {| rs_read_bytes := 0; rs_parse_bytes := 0; rs_section_attempts := 0;
                         rs_entries := 0 |};
          rj_state := RevisionSection (Z.min (xl_initial_section_bytes limits) available) false |}.

Definition OpenTraditionalRevisionJob_phase (j : OpenTraditionalRevisionJob) : TraditionalRevisionPhase :=
  match rj_state j with
  | RevisionSection _ _ => RevisionSectionPhase
  | RevisionComplete => RevisionCompletePhase
  | RevisionFailed _ => RevisionFailedPhase
  end.

Section revision.
Context `{XrefRuntime} {S : Type} `{ByteSource S}.

Abbreviation RevisionOp := (JobM S OpenTraditionalRevisionJob TraditionalRevisionPoll).

(** [Ok(None)]: the next window. *)
Definition revision_grow (window : Z) : RevisionOp unit :=
  j ← job;
  let startxref := rj_startxref j in
  available ← window_some (checked_sub (rj_upper_bound j) startxref) (Some startxref);
  let cap := Z.min (xl_max_section_bytes (rj_limits j)) available in
  if cap <=? window
  then window_fail (section_exhausted (rj_limits j) startxref window cap available)
  else
    next ← window_some (grow_window window cap) (Some startxref);
    set_job (set_revision_state (RevisionSection next false)).

Definition revision_poll_section (window : Z) (charged : bool)
    : RevisionOp (option TraditionalRevisionPoll) :=
  j ← job;
  let startxref := rj_startxref j in
  range ← match ByteRange_new startxref window with
          | Ok range =>
              if ByteRange_end_exclusive range <=? rj_upper_bound j then mret range
              else window_fail_internal (Some startxref)
          | Err _ => window_fail_internal (Some startxref)
          end;
  when (negb charged)
    (window_charge_read window (Some startxref);;
     j ← job;
     attempts ← window_some (checked_add u64_max (rs_section_attempts (rj_stats j)) 1)
                  (Some startxref);
     set_job (set_revision_stats (revision_section_attempts attempts));;
     set_job (set_revision_state (RevisionSection window true)));;
  bytes ← window_read range (rc_section_checkpoint (rj_context j)) startxref;
  window_charge_parse window (Some startxref);;
  parsed ← attempt (parse_traditional_revision_section
    {| sw_snapshot := rj_snapshot j; sw_startxref := startxref; sw_bytes := slice_bytes bytes;
       sw_extent := extent_of (ByteRange_end_exclusive range =? rj_upper_bound j);
       sw_source_len := rj_source_len j |} (rj_limits j) (rj_syntax_limits j));
  match parsed with
  | Ok (Some section) =>
      entries ← window_some (try_from u64_max (len (revision_entries section))) (Some startxref);
      set_job (set_revision_stats (revision_entry_count entries));;
      set_job (set_revision_state RevisionComplete);;
      mret (Some (RevisionReady section))
  | Ok None => revision_grow window;; mret None
  | Err error => window_fail error
  end.

(** One round of the loop of [poll]. *)
Definition revision_step : RevisionOp (option TraditionalRevisionPoll) :=
  j ← job;
  let startxref := rj_startxref j in
  window_checks (Some startxref);;
  match rj_state j with
  | RevisionSection window charged => revision_poll_section window charged
  | RevisionComplete =>
      answer (RevisionPollFailed (XrefError_for_code XrefJobAlreadyComplete (Some startxref)))
  | RevisionFailed error => answer (RevisionPollFailed error)
  end.

Fixpoint revision_loop (fuel : nat) : RevisionOp TraditionalRevisionPoll :=
  match fuel with
  | O => throw Panicked
  | Datatypes.S fuel =>
      outcome ← revision_step;
      match outcome with Some poll => mret poll | None => revision_loop fuel end
  end.

Definition revision_poll_inner : RevisionOp TraditionalRevisionPoll :=
  j ← job;
  match rj_state j with
  | RevisionFailed error => answer (RevisionPollFailed error)
  | RevisionComplete =>
      answer (RevisionPollFailed (XrefError_for_code XrefJobAlreadyComplete (Some (rj_startxref j))))
  | RevisionSection _ _ => revision_loop poll_fuel
  end.

Definition OpenTraditionalRevisionJob_poll (r : JobRun S OpenTraditionalRevisionJob)
    : JobRun S OpenTraditionalRevisionJob * option TraditionalRevisionPoll :=
  polled revision_poll_inner r.
End revision.
