(* ===== verification/XrefJobRuns.v ===== *)
(** * Runs of the jobs for cross-reference tables

    From any state a job reaches, over an honest source, a poll ends: with what the
    file denotes, pending on a charged window, or failed for a reason that is listed.
    The promise of the source is that of object framing, for requests anywhere in
    the source ([whole_source]). *)

From stdpp Require Import base list numbers option strings.
From S2P Require Import Prelude.
From S2P Require Import SourceTypes.
From S2P Require Import SyntaxTypes.
From S2P Require Import DocumentTypes.
From S2P Require Import SyntaxState.
From S2P Require Import SyntaxRules.
From S2P Require Import RangeTypes.
From S2P Require Import RangeSegments.
From S2P Require Import ObjectTypes.
From S2P Require Import ObjectParser.
From S2P Require Import ObjectJob.
From S2P Require Import ObjectFile.
From S2P Require Import ObjectRuns.
From S2P Require Import ObjectJobRuns.
From S2P Require Import XrefTypes.
From S2P Require Import XrefTail.
From S2P Require Import XrefParser.
From S2P Require Import XrefReader.
From S2P Require Import XrefSections.
From S2P Require Import XrefProps.
From S2P Require Import XrefJob.

(** All of a source, as what a job may read. *)
Definition whole_source (snapshot : SourceSnapshot) (source_len : Z) : IndirectObjectTarget :=
  {| target_snapshot := snapshot;
     target_reference := {| object_number := 1; object_generation := 0 |};
     target_xref_offset := 0; target_object_upper_bound := source_len;
     target_revision_startxref := 0; target_kind := XrefStreamAnchor |}.

Lemma asked_whole snapshot source_len range :
  range_ok range → ByteRange_end_exclusive range ≤ source_len →
  asked (whole_source snapshot source_len) range.
Proof. intros Hr He. split; [done|]. unfold prefix_bytes. simpl. split; [|done]. destruct Hr. lia. Qed.

(** What the constructors of jobs guarantee. *)
Record xref_setup (snapshot : SourceSnapshot) (source_len : Z) (limits : XrefLimits)
    (syntax_limits : SyntaxLimits) : Prop := {
  xs_limits : xref_limits_ok limits;
  xs_syntax : syntax_limits_ok syntax_limits;
  xs_input : xl_max_section_bytes limits ≤ sl_max_input_bytes syntax_limits;
  xs_length : snapshot_len snapshot = Some source_len;
  xs_source : 0 < source_len ≤ xl_max_source_bytes limits
}.

Lemma grow_window_run window cap :
  0 < window < cap → cap ≤ u32_max → grow_window window cap = Some (Z.min (window * 2) cap).
Proof.
  intros Hw Hc. unfold grow_window. assert (u32_max = 4294967295) by reflexivity.
  assert (u64_max = 18446744073709551615) by reflexivity.
  rewrite (proj2 (checked_mul_Some _ _ _ (window * 2))) by lia. cbn [mbind option_bind].
  assert (window <? Z.min (window * 2) cap = true) as -> by lia. done.
Qed.

(** A budget of work that a charge would exceed. *)
Definition xref_budget (limits : XrefLimits) (e : XrefError) : Prop :=
  xe_code e = XrefResourceLimit ∧ ∃ l, xe_detail e = XrefDetailLimit l ∧
    xref_limit_limit l < xref_limit_consumed l + xref_limit_attempted l ∧
    (xref_limit_kind l = XrefTotalReadBytes ∧ xref_limit_limit l = xl_max_total_read_bytes limits ∨
     xref_limit_kind l = XrefTotalParseBytes ∧ xref_limit_limit l = xl_max_total_parse_bytes limits).

Lemma xref_charge_run kind limit consumed amount offset :
  limit ≤ u64_max →
  match xref_charge kind limit consumed amount offset with
  | Ok total => total = consumed + amount ∧ total ≤ limit
  | Err e => e = XrefError_resource kind limit consumed amount offset ∧ limit < consumed + amount
  end.
Proof.
  intros Hl. unfold xref_charge. destruct (checked_add _ _ _) eqn:Ha; checked_facts; subst.
  - cbn [require mbind result_bind]. destruct (limit <? _) eqn:Hc; checked_facts; [by split|done].
  - split; [done|lia].
Qed.

(** ** Windows of jobs *)

Section windows.
Context `{ParserRuntime} {S J P : Type} `{ByteSource S} `{WindowJob J P}.
Context (file : Z → Z) (snapshot : SourceSnapshot) (source_len : Z) (limits : XrefLimits).
Context (context : ObjectJobContext) `{!HonestSource S file (whole_source snapshot source_len) context}.
Local Notation target := (whole_source snapshot source_len).

(** The longest window that a job may read. *)
Definition longest_window : Z := Z.min (Z.max (xl_max_tail_bytes limits) (xl_max_section_bytes limits)) source_len.

Definition reads (range : ByteRange) : Prop := asked target range ∧ range_len range ≤ longest_window.

(** The source, the runtime or a budget is why a job fails. *)
Inductive source_failure (e : XrefError) : Prop :=
| source_snapshot_differs s :
    source_ok s → source_snapshot s ≠ snapshot → e = XrefError_for_code XrefSnapshotMismatch None →
    source_failure e
| source_identity_differs range slice :
    reads range → source_answered file target context range (PollReady slice) →
    slice_identity slice ≠ snapshot_identity snapshot →
    e = XrefError_for_code XrefSnapshotMismatch None → source_failure e
| source_slice_differs range slice :
    reads range → source_answered file target context range (PollReady slice) →
    slice_range slice ≠ range →
    e = XrefError_for_code XrefInternalState (Some (range_start range)) → source_failure e
| source_ended range offset :
    reads range → source_answered file target context range PollEndOfFile →
    e = XrefError_for_code XrefUnexpectedEndOfSource (Some offset) → source_failure e
| source_failed range error :
    reads range → source_answered file target context range (PollFailed error) →
    e = XrefError_from_source error → source_failure e
| source_refused : xref_refused e → source_failure e
| source_budget : xref_budget limits e → source_failure e.

Lemma jobs_some {A B} (o : option A) offset a (k : A → JobM S J P B) r Q E :
  o = Some a → jobs (k a) r Q E → jobs (window_some o offset ≫= k) r Q E.
Proof. by intros ->. Qed.

Lemma jobs_ok {A B} (m : JobM S J P A) a (k : A → JobM S J P B) r Q E :
  m = mret a → jobs (k a) r Q E → jobs (m ≫= k) r Q E.
Proof. by intros ->. Qed.

(** A job [j] may fail with these errors, and what it answers then satisfies [E]. *)
Definition may_fail (E : JobRun S J → P → Prop) (j : J) : Prop :=
  ∀ w e, source_ok (world_source w) → source_failure e →
    E {| run_job := wj_set_failed e j; run_world := w |} (wj_failed e).

Lemma checks_run {B} offset (k : unit → JobM S J P B) j w Q E :
  source_ok (world_source w) → wj_snapshot j = snapshot → may_fail E j →
  (∀ w', source_ok (world_source w') → jobs (k tt) {| run_job := j; run_world := w' |} Q E) →
  jobs (window_checks offset ≫= k) {| run_job := j; run_world := w |} Q E.
Proof.
  intros Hw Hj Hfail Hk.
  apply (jobs_bind _ _ _ (λ r' _, ∃ w', r' = {| run_job := j; run_world := w' |} ∧ source_ok (world_source w'))).
  2: { intros r' [] (w'&->&?). by apply Hk. }
  unfold window_checks. apply jobs_job, jobs_snapshot. cbn [run_job run_world]. rewrite Hj.
  case_bool_decide as Hs; cbn [negb].
  2: { apply jobs_fail_with. apply Hfail; [done|]. by eapply source_snapshot_differs. }
  apply jobs_is_cancelled. intros c [] Hb; [|by eexists].
  apply jobs_fail_with. apply (Hfail {| world_source := world_source w; world_calls := c |}); [done|].
  apply source_refused. left. destruct (xref_code_facts XrefCancelled offset) as (?&_).
  split; [done|by apply Hb].
Qed.

Lemma charge_run {B} kind limit (set : Z → J → J) consumed amount offset (k : unit → JobM S J P B) j w Q E :
  source_ok (world_source w) → limit ≤ u64_max → may_fail E j →
  (kind = XrefTotalReadBytes ∧ limit = xl_max_total_read_bytes limits ∨
   kind = XrefTotalParseBytes ∧ limit = xl_max_total_parse_bytes limits) →
  (consumed + amount ≤ limit →
   jobs (k tt) {| run_job := set (consumed + amount) j; run_world := w |} Q E) →
  jobs ((total ← window_try (xref_charge kind limit consumed amount offset); set_job (set total)) ≫= k)
    {| run_job := j; run_world := w |} Q E.
Proof.
  intros Hw Hmax Hfail Hkind Hk. pose proof (xref_charge_run kind limit consumed amount offset Hmax) as Hc.
  destruct (xref_charge _ _ _ _ _) as [total|e].
  - destruct Hc as [-> Hle]. by apply Hk.
  - destruct Hc as [-> Hlt]. apply Hfail; [done|]. apply source_budget. split; [done|].
    eexists. split; [done|]. by split.
Qed.

Hypothesis Htotals : xl_max_total_read_bytes limits ≤ u64_max ∧ xl_max_total_parse_bytes limits ≤ u64_max.

Lemma window_charge_read_run {B} amount offset (k : unit → JobM S J P B) j w Q E :
  source_ok (world_source w) → wj_limits j = limits → may_fail E j →
  (wj_read_bytes j + amount ≤ xl_max_total_read_bytes limits →
   jobs (k tt) {| run_job := wj_set_read_bytes (wj_read_bytes j + amount) j; run_world := w |} Q E) →
  jobs (window_charge_read amount offset ≫= k) {| run_job := j; run_world := w |} Q E.
Proof.
  intros Hw Hl Hfail Hk.
  apply (charge_run XrefTotalReadBytes _ wj_set_read_bytes); cbn [run_job]; rewrite ?Hl; [done|lia|done|by left|done].
Qed.

Lemma window_charge_parse_run {B} amount offset (k : unit → JobM S J P B) j w Q E :
  source_ok (world_source w) → wj_limits j = limits → may_fail E j →
  (wj_parse_bytes j + amount ≤ xl_max_total_parse_bytes limits →
   jobs (k tt) {| run_job := wj_set_parse_bytes (wj_parse_bytes j + amount) j; run_world := w |} Q E) →
  jobs (window_charge_parse amount offset ≫= k) {| run_job := j; run_world := w |} Q E.
Proof.
  intros Hw Hl Hfail Hk.
  apply (charge_run XrefTotalParseBytes _ wj_set_parse_bytes); cbn [run_job]; rewrite ?Hl; [done|lia|done|by right|done].
Qed.

Lemma read_run {B} range checkpoint offset (k : ByteSlice → JobM S J P B) j w Q E :
  source_ok (world_source w) → reads range → wj_snapshot j = snapshot →
  wj_owner j = context_job context → context_priority context = Metadata →
  checkpoint = context_envelope_checkpoint context ∨ checkpoint = context_boundary_checkpoint context →
  may_fail E j →
  (∀ w' ticket missing, source_ok (world_source w') →
     awaiting file target context range checkpoint ticket missing (world_source w') →
     E {| run_job := j; run_world := w' |} (wj_pending ticket missing checkpoint)) →
  (∀ w' slice, source_ok (world_source w') →
     slice_bytes slice = bytes_of file (range_start range) (range_len range) →
     jobs (k slice) {| run_job := j; run_world := w' |} Q E) →
  jobs (window_read range checkpoint offset ≫= k) {| run_job := j; run_world := w |} Q E.
Proof.
  intros Hw Hreads Hsnap Howner Hprio Hcheck Hfail Hpend Hk. pose proof (proj1 Hreads) as Hasked.
  apply (jobs_bind _ _ _ (λ r' slice, ∃ w', r' = {| run_job := j; run_world := w' |} ∧
    source_ok (world_source w') ∧ slice_bytes slice = bytes_of file (range_start range) (range_len range))).
  2: { intros r' slice (w'&->&?&?). by apply Hk. }
  unfold window_read. apply jobs_job. cbn [run_job].
  set (request := {| request_range := range; request_priority := Metadata;
                     request_job := wj_owner j; request_checkpoint := checkpoint |}).
  assert (asks target context request) as Hasks by (split_and!; done).
  eapply (jobs_poll file target context); [exact Hw|exact Hasks|].
  intros s polled Hs Hans Hpoll Hbytes. cbn [run_world] in Hpoll. cbn [request_range] in Hans, Hbytes.
  set (w' := {| world_source := s; world_calls := world_calls w |}).
  change (with_source s {| run_job := j; run_world := w |}) with {| run_job := j; run_world := w' |}.
  destruct polled as [slice|ticket missing| |error].
  - unfold xref_validate_slice. rewrite Hsnap.
    destruct (decide (slice_identity slice = snapshot_identity snapshot)) as [Hid|Hid].
    2: { rewrite (bool_decide_eq_false_2 _ Hid). apply Hfail; [done|]. by eapply source_identity_differs. }
    rewrite (bool_decide_eq_true_2 _ Hid).
    destruct (decide (slice_range slice = range)) as [Hr|Hr].
    2: { rewrite (bool_decide_eq_false_2 _ Hr). apply Hfail; [done|]. by eapply source_slice_differs. }
    rewrite (bool_decide_eq_true_2 _ Hr). exists w'. split; [done|]. split; [done|]. by apply Hbytes.
  - apply jobs_answer, Hpend; [done|]. exists (world_source w). split; [done|]. split; [done|].
    subst request. rewrite <-Howner, Hprio. done.
  - apply jobs_fail_with, Hfail; [done|]. by eapply source_ended.
  - apply jobs_fail_with, Hfail; [done|]. by eapply source_failed.
Qed.
End windows.

(** ** The final [startxref] *)

Section final.
Context `{XrefRuntime} {S : Type} `{ByteSource S}.
Context (file : Z → Z) (snapshot : SourceSnapshot) (source_len : Z) (limits : XrefLimits)
  (syntax_limits : SyntaxLimits).
Context (context : ObjectJobContext) `{!HonestSource S file (whole_source snapshot source_len) context}.
Hypothesis Hsetup : xref_setup snapshot source_len limits syntax_limits.
Hypothesis Hpriority : context_priority context = Metadata.
Local Notation target := (whole_source snapshot source_len).
Local Notation failing := (source_failure (S := S) file snapshot source_len limits context).
Local Notation tail_context := {| fc_job := context_job context;
                                  fc_tail_checkpoint := context_envelope_checkpoint context |}.

(** The bytes of a window. *)
Definition tail_window (n : Z) : list Z := bytes_of file (source_len - n) n.

(** The file ends with this tail. *)
Definition final_tail (startxref start : Z) : Prop := tail_at 0 (bytes_of file 0 source_len) startxref start.

Definition final_cap : Z := Z.min (xl_max_tail_bytes limits) source_len.

(** The first window. *)
Definition final_first : Z := Z.min (xl_initial_tail_bytes limits) source_len.

Definition tail_exhausted : XrefError :=
  if final_cap =? source_len then XrefError_for_code StartXrefNotFound (Some 0)
  else XrefError_resource XrefTailBytes (xl_max_tail_bytes limits) final_cap 1
         (Some (source_len - final_cap)).

(** Why the search fails: besides the source, the tail of the file declares an
    offset outside the source, or a window of it spells no tail and does not begin
    inside one, or the largest window spells none, or the file is white space. *)
Inductive final_failure (e : XrefError) : Prop :=
| final_source : failing e → final_failure e
| final_bounds startxref start :
    final_tail startxref start → source_len ≤ startxref → xe_code e = StartXrefOutOfBounds →
    final_failure e
| final_malformed n :
    final_first ≤ n ≤ final_cap → (∀ v s, ¬ tail_at (source_len - n) (tail_window n) v s) →
    (n ≠ source_len → ¬ tail_cut (tail_window n)) → xe_code e = InvalidStartXref → final_failure e
| final_blank :
    Forall (λ b, is_pdf_whitespace b = true) (bytes_of file 0 source_len) →
    xe_code e = StartXrefNotFound → final_failure e
| final_exhausted :
    (∀ v s, ¬ tail_at (source_len - final_cap) (tail_window final_cap) v s) →
    e = tail_exhausted → final_failure e.

Definition final_at (stats : FinalStartXrefStats) (state : FinalState) : OpenFinalStartXrefJob :=
  {| fj_snapshot := snapshot; fj_source_len := source_len; fj_context := tail_context;
     fj_limits := limits; fj_stats := stats; fj_state := state |}.
Definition final_run (w : World S) stats state : JobRun S OpenFinalStartXrefJob :=
  {| run_job := final_at stats state; run_world := w |}.

Definition final_stats_ok (s : FinalStartXrefStats) : Prop :=
  0 ≤ fs_read_bytes s ≤ xl_max_total_read_bytes limits ∧
  0 ≤ fs_parse_bytes s ≤ xl_max_total_parse_bytes limits ∧
  0 ≤ fs_tail_attempts s ≤ fs_read_bytes s.

Definition final_state_ok (state : FinalState) : Prop :=
  match state with
  | FinalTail window _ => final_first ≤ window ≤ final_cap
  | FinalComplete => True
  | FinalFailed e => final_failure e
  end.

(** What a poll answers, with the state that it leaves. *)
Inductive final_answer (w : World S) : FinalState → FinalStartXrefPoll → Prop :=
| answer_final startxref start :
    final_tail startxref start → 0 ≤ startxref < source_len →
    final_answer w FinalComplete
      (FinalReady {| final_snapshot := snapshot; final_startxref := startxref; final_tail_start := start |})
| answer_final_pending window ticket missing :
    awaiting file target context (range_at (source_len - window) window)
      (context_envelope_checkpoint context) ticket missing (world_source w) →
    final_answer w (FinalTail window true)
      (FinalPending ticket missing (context_envelope_checkpoint context))
| answer_final_failed e : final_failure e → final_answer w (FinalFailed e) (FinalPollFailed e).

Definition final_ends (r : JobRun S OpenFinalStartXrefJob) (poll : FinalStartXrefPoll) : Prop :=
  ∃ w stats state, r = final_run w stats state ∧ source_ok (world_source w) ∧
    final_stats_ok stats ∧ final_state_ok state ∧ final_answer w state poll.

(** A job in flight, with enough rounds. *)
Definition final_goes (fuel : nat) (r : JobRun S OpenFinalStartXrefJob) : Prop :=
  ∃ w stats window charged, r = final_run w stats (FinalTail window charged) ∧
    source_ok (world_source w) ∧ final_stats_ok stats ∧ final_first ≤ window ≤ final_cap ∧
    ∃ k, doublings k window final_cap ∧ (k < fuel)%nat.

Definition final_round (fuel : nat) r (outcome : option FinalStartXrefPoll) : Prop :=
  match outcome with Some poll => final_ends r poll | None => final_goes fuel r end.

Lemma xref_setup_facts :
  0 < source_len ≤ XREF_MAX_SOURCE_BYTES ∧ xref_limits_ok limits ∧ u64_max = 18446744073709551615 ∧
  u32_max = 4294967295.
Proof.
  destruct Hsetup as [Hl _ _ _ Hs]. pose proof Hl as (?&_). split_and!; [lia|lia|done..].
Qed.

Lemma final_first_pos : 1 ≤ final_first ≤ final_cap.
Proof.
  destruct xref_setup_facts as (?&Hl&_). unfold xref_limits_ok in Hl. unfold final_first, final_cap. lia.
Qed.

Ltac facts :=
  pose proof final_first_pos;
  let H := fresh "Hfacts" in pose proof xref_setup_facts as H;
  unfold xref_limits_ok, final_stats_ok, final_cap, XREF_MAX_SOURCE_BYTES, XREF_MAX_TAIL_BYTES,
    XREF_MAX_SECTION_BYTES, XREF_MAX_TOTAL_BYTES in *.

Lemma final_may_fail stats state :
  final_stats_ok stats → may_fail file snapshot source_len limits context final_ends (final_at stats state).
Proof.
  intros Hs w e Hw He. exists w, stats, (FinalFailed e).
  assert (final_failure e) by by apply final_source.
  split_and!; [done..|by constructor].
Qed.

Lemma final_fails {A} stats state w e (Q : _ → A → Prop) :
  source_ok (world_source w) → final_stats_ok stats → final_failure e →
  jobs (window_fail e) (final_run w stats state) Q final_ends.
Proof.
  intros Hw Hs He. apply jobs_fail_with. exists w, stats, (FinalFailed e).
  split_and!; [done..|by constructor].
Qed.

Lemma window_whole n startxref start :
  0 ≤ n ≤ source_len → tail_at (source_len - n) (tail_window n) startxref start →
  final_tail startxref start.
Proof.
  intros Hn Ht. apply (tail_grows _ _ _ _ (bytes_of file 0 (source_len - n))) in Ht;
    rewrite bytes_of_length in * by lia; [|lia].
  unfold final_tail. replace (source_len - n - (source_len - n)) with 0 in Ht by lia.
  unfold tail_window in Ht. replace source_len with ((source_len - n) + n) at 1 by lia.
  rewrite bytes_of_app by lia. by rewrite Z.add_0_l.
Qed.

Lemma tail_value_nonneg base bytes startxref start : tail_at base bytes startxref start → 0 ≤ startxref.
Proof.
  intros (?&?&?&_&(?&?&digits&_&_&_&_&_&Hd&->&_)&_). pose proof (digits_bound digits Hd). lia.
Qed.

Lemma final_grow_run window stats state w fuel start k :
  source_ok (world_source w) → final_stats_ok stats → final_first ≤ window ≤ final_cap →
  (∀ v s, ¬ tail_at (source_len - window) (tail_window window) v s) → start = source_len - window →
  doublings k window final_cap → (k < Datatypes.S fuel)%nat →
  jobs (final_grow window start;; mret None) (final_run w stats state) (final_round fuel) final_ends.
Proof.
  intros Hw Hs Hwin Hno -> Hk Hfuel. pose proof final_first_pos. eapply (jobs_bind _ _ _ (λ r' _, final_goes fuel r')); [|by intros r' []].
  unfold final_grow. apply jobs_job. cbn [final_run run_job final_at fj_limits fj_source_len]. cbv zeta.
  fold final_cap. destruct (final_cap <=? window) eqn:Hc; checked_facts.
  - assert (window = final_cap) as -> by lia. apply (final_fails stats state w); [done..|].
    by apply final_exhausted.
  - rewrite grow_window_run by (facts; lia). unfold window_some. exists w, stats, (Z.min (window * 2) final_cap), false.
    split; [reflexivity|]. split; [done|]. split; [done|]. split; [lia|].
    destruct (doublings_next k window final_cap ltac:(lia) Hk) as (k'&->&Hk'). exists k'. split; [done|lia].
Qed.

Lemma totals_fit : xl_max_total_read_bytes limits ≤ u64_max ∧ xl_max_total_parse_bytes limits ≤ u64_max.
Proof. facts. lia. Qed.

Lemma final_charge_run window (charged : bool) offset offset' w stats :
  source_ok (world_source w) → final_stats_ok stats → final_first ≤ window ≤ final_cap →
  jobs (when (negb charged)
    (window_charge_read window offset;;
     j ← job;
     attempts ← window_some (checked_add u64_max (fs_tail_attempts (fj_stats j)) 1) offset';
     set_job (set_final_stats (final_tail_attempts attempts));;
     set_job (set_final_state (FinalTail window true)))) (final_run w stats (FinalTail window charged))
    (λ r' _, ∃ stats', final_stats_ok stats' ∧ r' = final_run w stats' (FinalTail window true)) final_ends.
Proof.
  intros Hw Hs Hwin. destruct charged; [by exists stats|]. unfold when. cbn [negb].
  apply (window_charge_read_run file snapshot source_len limits context totals_fit); [done..|by apply final_may_fail|].
  cbn [wj_read_bytes wj_set_read_bytes final_window final_at fj_stats]. intros Hmax.
  apply jobs_job. eapply (jobs_some _ _ (fs_tail_attempts stats + 1)).
  { apply checked_add_Some. cbn. facts. lia. }
  eexists. split; [|reflexivity]. cbn. facts. cbn. lia.
Qed.

Lemma final_attempt_run fuel window w stats k :
  source_ok (world_source w) → final_stats_ok stats → final_first ≤ window ≤ final_cap →
  doublings k window final_cap → (k < Datatypes.S fuel)%nat →
  let start := source_len - window in
  jobs (parsed ← attempt (parse_tail (tail_window window) start source_len);
        match parsed with
        | Ok (Found startxref tail_start) =>
            set_job (set_final_state FinalComplete);;
            mret (Some (FinalReady {| final_snapshot := snapshot; final_startxref := startxref;
                                      final_tail_start := tail_start |}))
        | Ok NeedLarger => final_grow window start;; mret None
        | Err error => window_fail error
        end) (final_run w stats (FinalTail window true)) (final_round fuel) final_ends.
Proof.
  intros Hw Hs Hwin Hk Hfuel start. pose proof final_first_pos.
  assert (len (tail_window window) = window) as Hlen by (apply bytes_of_length; lia).
  pose proof (λ calls, parse_tail_run (tail_window window) start source_len
    ltac:(subst start; facts; lia) ltac:(rewrite Hlen; subst start; facts; lia) calls) as Hparse.
  apply jobs_attempt; cbn [run_world final_run].
  { intros He. specialize (Hparse (world_calls w)). by rewrite He in Hparse. }
  intros calls outcome Ho. specialize (Hparse (world_calls w)).
  rewrite Ho in Hparse. set (w' := {| world_source := world_source w; world_calls := calls |}).
  change (with_calls calls (final_run w stats (FinalTail window true)))
    with (final_run w' stats (FinalTail window true)).
  destruct outcome as [[startxref tail_start|]|e]; cbn in Hparse.
  - destruct Hparse as [Ht Hlt]. exists w', stats, FinalComplete. split_and!; [done..|].
    pose proof (tail_value_nonneg _ _ _ _ Ht).
    constructor; [|lia]. apply (window_whole window); [facts; lia|done].
  - destruct Hparse as [_ Hno]. by eapply (final_grow_run window).
  - apply final_fails; [done..|]. destruct Hparse as [Hc|[(?&v&s&Ht&Hle)|[(?&Hno&Hcut)|(?&Hz&Hall)]]].
    + apply final_source, source_refused. by left.
    + eapply (final_bounds e v s); [|done..]. apply (window_whole window); [facts; lia|done].
    + apply (final_malformed e window); [done..| |done]. intros ?. apply Hcut. subst start. lia.
    + apply final_blank; [|done]. unfold tail_window in Hall. subst start.
      by rewrite Hz in Hall; replace window with source_len in Hall by lia.
Qed.

Lemma final_step_run fuel r :
  final_goes (Datatypes.S fuel) r → jobs final_step r (final_round fuel) final_ends.
Proof.
  intros (w&stats&window&charged&->&Hw&Hs&Hwin&k&Hk&Hfuel). pose proof final_first_pos.
  unfold final_step. apply jobs_job.
  cbn [final_run run_job final_at fj_state].
  apply (checks_run file snapshot source_len limits context); [done..|by apply final_may_fail|].
  clear w Hw. intros w Hw. unfold final_poll_tail. apply jobs_job. cbn [run_job final_at fj_source_len].
  set (start := source_len - window).
  eapply (jobs_some _ _ start); [apply checked_sub_Some; facts; lia|].
  apply (jobs_ok _ (range_at start window)).
  { subst start. facts. unfold ByteRange_new. assert (window =? 0 = false) as -> by lia.
    rewrite (proj2 (checked_add_Some _ _ _ (source_len - window + window))) by lia.
    by rewrite bool_decide_eq_false_2. }
  eapply jobs_bind; [by apply final_charge_run|]. intros r' [] (stats'&Hs'&->).
  apply (read_run file snapshot source_len limits context); [done| |done..|by left| | |].
  - split; [apply asked_whole; subst start; [split|]|unfold longest_window];
      unfold ByteRange_end_exclusive, range_at; simpl; facts; lia.
  - by apply final_may_fail.
  - clear w Hw. intros w ticket missing Hw Hans. exists w, stats', (FinalTail window true).
    split_and!; [done..|by constructor].
  - clear w Hw. intros w slice Hw Hbytes.
    apply (window_charge_parse_run file snapshot source_len limits context totals_fit); [done..|by apply final_may_fail|].
    cbn [wj_parse_bytes wj_set_parse_bytes final_window final_at fj_stats]. intros Hmax. rewrite Hbytes.
    eapply (final_attempt_run fuel window w (final_parse_bytes (fs_parse_bytes stats' + window) stats') k);
      [done| |done..]. facts. cbn. lia.
Qed.

Lemma final_loop_run fuel r : final_goes fuel r → jobs (final_loop fuel) r final_ends final_ends.
Proof.
  revert r. induction fuel as [|fuel IH]; intros r Hr.
  { destruct Hr as (?&?&?&?&_&_&_&_&?&_&?). lia. }
  cbn [final_loop]. eapply jobs_bind; [by apply final_step_run|]. intros r' [poll|] Hr'; [done|by apply IH].
Qed.

Definition final_run_ok (r : JobRun S OpenFinalStartXrefJob) : Prop :=
  ∃ w stats state, r = final_run w stats state ∧ source_ok (world_source w) ∧
    final_stats_ok stats ∧ final_state_ok state.

(** What a poll answers in any state. *)
Definition final_polled (r r' : JobRun S OpenFinalStartXrefJob) (poll : FinalStartXrefPoll) : Prop :=
  match fj_state (run_job r) with
  | FinalTail _ _ => final_ends r' poll
  | FinalComplete => r' = r ∧ poll = FinalPollFailed (XrefError_for_code XrefJobAlreadyComplete None)
  | FinalFailed e => r' = r ∧ poll = FinalPollFailed e
  end.

Lemma final_goes_start w stats window charged :
  source_ok (world_source w) → final_stats_ok stats → final_first ≤ window ≤ final_cap →
  final_goes poll_fuel (final_run w stats (FinalTail window charged)).
Proof.
  intros Hw Hs Hwin. pose proof final_first_pos.
  exists w, stats, window, charged. split_and!; [done..|lia|lia|].
  exists 22%nat. split; [|unfold poll_fuel; lia]. apply doublings_cap; [lia|].
  change (2 ^ Z.of_nat 22) with 4194304. facts. lia.
Qed.

Lemma final_poll_run r :
  final_run_ok r →
  ∃ r' poll, OpenFinalStartXrefJob_poll r = (r', Some poll) ∧ final_run_ok r' ∧ final_polled r r' poll.
Proof.
  intros (w&stats&state&->&Hw&Hs&Hst). unfold OpenFinalStartXrefJob_poll, polled, final_polled.
  cbn [final_run run_job final_at fj_state].
  destruct state as [window charged| |e].
  - pose proof (final_loop_run poll_fuel _ (final_goes_start w stats window charged Hw Hs Hst)) as Hloop.
    unfold jobs in Hloop. destruct (final_loop _ _) as [r' [poll|[poll|]]]; [..|done]; eexists _, _;
      (split; [reflexivity|]); (split; [|done]); destruct Hloop as (w'&stats'&state'&?&?&?&?&_);
      by exists w', stats', state'.
  - eexists _, _. split; [reflexivity|]. split; [by exists w, stats, FinalComplete|done].
  - eexists _, _. split; [reflexivity|]. split; [by exists w, stats, (FinalFailed e)|done].
Qed.
End final.

(** ** Windows of sections *)

Section sections.
Context `{XrefRuntime} {S : Type} `{ByteSource S}.
Context (file : Z → Z) (snapshot : SourceSnapshot) (source_len : Z) (limits : XrefLimits)
  (syntax_limits : SyntaxLimits).
Context (context : ObjectJobContext) `{!HonestSource S file (whole_source snapshot source_len) context}.
Hypothesis Hsetup : xref_setup snapshot source_len limits syntax_limits.
Local Notation failing := (source_failure (S := S) file snapshot source_len limits context).

(** The window of [n] bytes at a section that may reach [upper]. *)
Definition window_at (startxref upper n : Z) : SectionWindow :=
  {| sw_snapshot := snapshot; sw_startxref := startxref; sw_bytes := bytes_of file startxref n;
     sw_extent := extent_of (startxref + n =? upper); sw_source_len := source_len |}.

(** All the bytes that a section may have. *)
Definition section_space (startxref upper : Z) : SectionWindow :=
  window_at startxref upper (upper - startxref).

Definition section_cap (startxref upper : Z) : Z :=
  Z.min (xl_max_section_bytes limits) (upper - startxref).

(** The first window. *)
Definition section_first (startxref upper : Z) : Z :=
  Z.min (xl_initial_section_bytes limits) (upper - startxref).

(** The file denotes a section here, and this is its value. *)
Definition denotes {A} (final : SectionWindow → ParsedTraditionalSection → A → Prop)
    (startxref upper : Z) (s : A) : Prop :=
  ∃ section, window_section (section_space startxref upper) = Some section ∧
    final (section_space startxref upper) section s.

(** A window of [n] bytes that does not decide, with more bytes after it. *)
Definition asks_for_more (startxref upper n : Z) : Prop :=
  window_more (window_at startxref upper n) = true ∧
  cut_short (window_at startxref upper n) syntax_limits (window_scan (window_at startxref upper n)).

(** Why a section is not accepted: besides the source, its bytes are malformed in a
    window, and then no larger window of the job has a section, or it fails the
    checks, or the largest window does not decide. *)
Inductive section_failure {A} (final : SectionWindow → ParsedTraditionalSection → A → Prop)
    (startxref upper : Z) (e : XrefError) : Prop :=
| section_source : failing e → section_failure final startxref upper e
| section_malformed n :
    section_first startxref upper ≤ n ≤ section_cap startxref upper →
    ruled_out (window_at startxref upper n) syntax_limits (window_scan (window_at startxref upper n)) →
    (∀ m, n ≤ m ≤ section_cap startxref upper → window_section (window_at startxref upper m) = None) →
    xref_malformed e → section_failure final startxref upper e
| section_rejected section :
    window_section (section_space startxref upper) = Some section →
    xref_rejected e → (∀ s, ¬ final (section_space startxref upper) section s) →
    section_failure final startxref upper e
| section_undecided :
    asks_for_more startxref upper (section_cap startxref upper) →
    e = section_exhausted limits startxref (section_cap startxref upper)
          (section_cap startxref upper) (upper - startxref) →
    section_failure final startxref upper e.

Context (startxref upper : Z).
Hypothesis Hspace : 0 ≤ startxref < upper ∧ upper ≤ source_len.

Lemma section_first_pos : 1 ≤ section_first startxref upper ≤ section_cap startxref upper.
Proof.
  destruct Hsetup as [Hl _ _ _ _]. unfold xref_limits_ok in Hl. unfold section_first, section_cap. lia.
Qed.

Lemma window_at_ok n :
  section_first startxref upper ≤ n ≤ section_cap startxref upper → window_ok (window_at startxref upper n) limits syntax_limits.
Proof.
  intros Hn. pose proof section_first_pos. destruct Hsetup as [Hl Hsyn Hin _ Hs]. pose proof Hl as Hl'.
  unfold xref_limits_ok, XREF_MAX_SOURCE_BYTES, section_cap in *.
  assert (u64_max = 18446744073709551615) by reflexivity.
  split; unfold window_at; cbn [sw_startxref sw_bytes sw_source_len]; rewrite ?bytes_of_length by lia;
    try done; lia.
Qed.

(** A shorter window is extended by the bytes of the file. *)
Lemma window_at_larger n m :
  1 ≤ n < m → m ≤ upper - startxref →
  window_more (window_at startxref upper n) = true ∧ sw_extent (window_at startxref upper n) = MayContinue ∧
  window_at startxref upper m =
    larger_window (window_at startxref upper n) (bytes_of file (startxref + n) (m - n))
      (extent_of (startxref + m =? upper)).
Proof.
  intros Hn Hm. unfold window_more, known_source_end, larger_window, window_at.
  cbn [sw_snapshot sw_startxref sw_bytes sw_extent sw_source_len].
  assert (startxref + n =? upper = false) as -> by lia. split; [done|]. split; [done|]. f_equal.
  replace m with (n + (m - n)) at 1 by lia. by apply bytes_of_app; lia.
Qed.

(** A section that is read from a window is read from every longer one. *)
Lemma window_section_mono n m section :
  1 ≤ n ≤ m → m ≤ upper - startxref →
  window_section (window_at startxref upper n) = Some section →
  window_section (window_at startxref upper m) = Some section.
Proof.
  intros Hn Hm. destruct (decide (n = m)) as [->|Hne]; [done|].
  destruct (window_at_larger n m) as (_&Hmore&->); [lia|done|]. by apply window_section_larger.
Qed.

Lemma window_space n section :
  1 ≤ n ≤ upper - startxref → window_section (window_at startxref upper n) = Some section →
  window_section (section_space startxref upper) = Some section.
Proof. intros Hn. by apply window_section_mono. Qed.

(** How an attempt on a window ends, of the bytes of the file. *)
Lemma section_attempt_run {A} (final : SectionWindow → ParsedTraditionalSection → A → Prop) n
    (r : result (failure XrefError) (option A)) :
  section_first startxref upper ≤ n ≤ section_cap startxref upper →
  (∀ section s, final (window_at startxref upper n) section s ↔ final (section_space startxref upper) section s) →
  section_outcome (window_at startxref upper n) limits syntax_limits (final (window_at startxref upper n)) r →
  match r with
  | Ok (Some s) => denotes final startxref upper s
  | Ok None => asks_for_more startxref upper n
  | Err (Rejected e) => section_failure final startxref upper e
  | Err Panicked => False
  end.
Proof.
  intros Hn Hf Ho. pose proof section_first_pos. assert (n ≤ upper - startxref) as Hle by (unfold section_cap in Hn; lia).
  unfold section_outcome in Ho.
  destruct r as [[s|]|[e|]]; [| | |done].
  - destruct Ho as (section&Hs%scanned_some&Hfin). rewrite window_scan_value in Hs.
    exists section. split; [eapply (window_space n); [lia|done]|by apply Hf].
  - done.
  - destruct Ho as [?|[(?&Hs&Hlarger)|(section&Hs%scanned_some&?&Hno)]].
    + by apply section_source, source_refused.
    + apply (section_malformed _ _ _ _ n); [done..| |done]. intros m Hm.
      destruct (decide (m = n)) as [->|Hne].
      { rewrite <-window_scan_value. by eapply ruled_out_value. }
      pose proof (window_at_ok m ltac:(lia)) as Hok. unfold section_cap in Hm.
      destruct (window_at_larger n m) as (Hmore&_&Heq); [lia..|]. rewrite Heq in Hok |- *.
      by apply Hlarger.
    + rewrite window_scan_value in Hs. apply (section_rejected _ _ _ _ section); [eapply (window_space n); [lia|done]|done|].
      intros s Hfin. by apply (Hno s), Hf.
Qed.
End sections.

(** ** The table that the tail declares *)

Section table.
Context `{XrefRuntime} {S : Type} `{ByteSource S}.
Context (file : Z → Z) (snapshot : SourceSnapshot) (source_len : Z) (limits : XrefLimits)
  (syntax_limits : SyntaxLimits).
Context (context : ObjectJobContext) `{!HonestSource S file (whole_source snapshot source_len) context}.
Hypothesis Hsetup : xref_setup snapshot source_len limits syntax_limits.
Hypothesis Hpriority : context_priority context = Metadata.
Local Notation target := (whole_source snapshot source_len).
Local Notation failing := (source_failure (S := S) file snapshot source_len limits context).
Local Notation tail_failure := (final_failure file snapshot source_len limits context).
Local Notation tail_job := (final_at snapshot source_len limits context).
Local Notation tail_stats_ok := (final_stats_ok limits).
Local Notation tail_cap := (final_cap source_len limits).
Local Notation file_tail := (final_tail file source_len).
Local Notation table_failure startxref :=
  (section_failure file snapshot source_len limits syntax_limits context base_final startxref source_len).
Local Notation cap startxref := (section_cap limits startxref source_len).
Local Notation first startxref := (section_first limits startxref source_len).

(** Why the job fails: there is no tail, or no table where it says. *)
Inductive xref_failure (e : XrefError) : Prop :=
| xref_no_tail : tail_failure e → xref_failure e
| xref_no_table startxref start :
    file_tail startxref start → 0 ≤ startxref < source_len → table_failure startxref e → xref_failure e.

Definition xref_at (stats : XrefStats) (discovered : option Z) (tail : option OpenFinalStartXrefJob)
    (state : XrefJobState) : OpenXrefJob :=
  {| xj_snapshot := snapshot; xj_source_len := source_len;
     xj_context := {| xc_job := context_job context;
                      xc_tail_checkpoint := context_envelope_checkpoint context;
                      xc_section_checkpoint := context_boundary_checkpoint context |};
     xj_limits := limits; xj_syntax_limits := syntax_limits; xj_stats := stats;
     xj_discovered_startxref := discovered; xj_tail := tail; xj_state := state |}.
Definition xref_run (w : World S) stats discovered tail state : JobRun S OpenXrefJob :=
  {| run_job := xref_at stats discovered tail state; run_world := w |}.

Definition xref_stats_ok (s : XrefStats) : Prop :=
  0 ≤ xs_read_bytes s ≤ xl_max_total_read_bytes limits ∧
  0 ≤ xs_parse_bytes s ≤ xl_max_total_parse_bytes limits ∧
  0 ≤ xs_tail_attempts s ∧ 0 ≤ xs_section_attempts s ∧
  xs_tail_attempts s + xs_section_attempts s ≤ xs_read_bytes s.

Definition no_work : XrefStats :=
  {| xs_read_bytes := 0; xs_parse_bytes := 0; xs_tail_attempts := 0; xs_section_attempts := 0;
     xs_entries := 0 |}.

Definition xref_state_ok (stats : XrefStats) (discovered : option Z)
    (tail : option OpenFinalStartXrefJob) (state : XrefJobState) : Prop :=
  match state with
  | XrefTail => discovered = None ∧ ∃ tail_stats window charged,
      tail = Some (tail_job tail_stats (FinalTail window charged)) ∧ tail_stats_ok tail_stats ∧
      final_first source_len limits ≤ window ≤ tail_cap ∧ stats = copy_tail_stats tail_stats no_work
  | XrefSectionState startxref window _ =>
      tail = None ∧ discovered = Some startxref ∧ (∃ start, file_tail startxref start) ∧
      0 ≤ startxref < source_len ∧ first startxref ≤ window ≤ cap startxref
  | XrefComplete => True
  | XrefFailed e => xref_failure e
  end.

(** What a poll answers, with the state that it leaves. *)
Inductive xref_answer (w : World S) (stats : XrefStats)
    : option Z → option OpenFinalStartXrefJob → XrefJobState → XrefPoll → Prop :=
| answer_table startxref start s :
    file_tail startxref start → 0 ≤ startxref < source_len →
    denotes file snapshot source_len base_final startxref source_len s →
    xs_entries stats = len (section_entries s) →
    xref_answer w stats (Some startxref) None XrefComplete (XrefReady s)
| answer_tail_pending tail_stats window ticket missing :
    awaiting file target context (range_at (source_len - window) window)
      (context_envelope_checkpoint context) ticket missing (world_source w) →
    xref_answer w stats None (Some (tail_job tail_stats (FinalTail window true))) XrefTail
      (XrefPending ticket missing (context_envelope_checkpoint context))
| answer_table_pending startxref window ticket missing :
    awaiting file target context (range_at startxref window)
      (context_boundary_checkpoint context) ticket missing (world_source w) →
    xref_answer w stats (Some startxref) None (XrefSectionState startxref window true)
      (XrefPending ticket missing (context_boundary_checkpoint context))
| answer_xref_failed discovered tail e :
    xref_failure e → xref_answer w stats discovered tail (XrefFailed e) (XrefPollFailed e).

Definition xref_run_ok (r : JobRun S OpenXrefJob) : Prop :=
  ∃ w stats discovered tail state, r = xref_run w stats discovered tail state ∧
    source_ok (world_source w) ∧ xref_stats_ok stats ∧ xref_state_ok stats discovered tail state.

Definition xref_ends (r : JobRun S OpenXrefJob) (poll : XrefPoll) : Prop :=
  ∃ w stats discovered tail state, r = xref_run w stats discovered tail state ∧
    source_ok (world_source w) ∧ xref_stats_ok stats ∧ xref_state_ok stats discovered tail state ∧
    xref_answer w stats discovered tail state poll.

(** A job in flight, with enough rounds: one for the tail, and those of the windows. *)
Definition xref_rounds (fuel : nat) (state : XrefJobState) : Prop :=
  match state with
  | XrefTail => (28 ≤ fuel)%nat
  | XrefSectionState startxref window _ => ∃ k, doublings k window (cap startxref) ∧ (k < fuel)%nat
  | _ => False
  end.

Definition xref_goes (fuel : nat) (r : JobRun S OpenXrefJob) : Prop :=
  ∃ w stats discovered tail state, r = xref_run w stats discovered tail state ∧
    source_ok (world_source w) ∧ xref_stats_ok stats ∧ xref_state_ok stats discovered tail state ∧
    xref_rounds fuel state.

Definition xref_round (fuel : nat) r (outcome : option XrefPoll) : Prop :=
  match outcome with Some poll => xref_ends r poll | None => xref_goes fuel r end.

Ltac facts :=
  let H := fresh "Hfacts" in
  pose proof (xref_setup_facts snapshot source_len limits syntax_limits Hsetup) as H;
  unfold xref_limits_ok, xref_stats_ok, final_stats_ok, section_cap, XREF_MAX_SOURCE_BYTES,
    XREF_MAX_SECTION_BYTES, XREF_MAX_TOTAL_BYTES in *.

Lemma xref_fails {A} w stats discovered tail state e (Q : _ → A → Prop) :
  source_ok (world_source w) → xref_stats_ok stats → xref_failure e →
  jobs (window_fail e) (xref_run w stats discovered tail state) Q xref_ends.
Proof.
  intros Hw Hs He. apply jobs_fail_with. exists w, stats, discovered, tail, (XrefFailed e).
  split_and!; [done..|by constructor].
Qed.

Lemma xref_may_fail stats discovered tail state :
  xref_stats_ok stats → (∀ e, failing e → xref_failure e) →
  may_fail file snapshot source_len limits context xref_ends (xref_at stats discovered tail state).
Proof.
  intros Hs Hf w e Hw He. exists w, stats, discovered, tail, (XrefFailed e). apply Hf in He.
  split_and!; [done..|by constructor].
Qed.

Lemma source_no_tail e : failing e → xref_failure e.
Proof. intros He. by apply xref_no_tail, final_source. Qed.

Lemma xref_tail_run fuel w stats discovered tail :
  source_ok (world_source w) → xref_state_ok stats discovered tail XrefTail → (27 ≤ fuel)%nat →
  jobs xref_poll_tail (xref_run w stats discovered tail XrefTail) (xref_round fuel) xref_ends.
Proof.
  intros Hw (->&tail_stats&window&charged&->&Hts&Hwin&->) Hfuel. unfold xref_poll_tail.
  apply jobs_job. eapply jobs_some; [done|].
  destruct (final_poll_run file snapshot source_len limits syntax_limits context Hsetup Hpriority
    {| run_job := tail_job tail_stats (FinalTail window charged); run_world := w |})
    as (r'&poll&Hpoll&_&Hp); [by exists w, tail_stats, (FinalTail window charged)|].
  cbn in Hp. destruct Hp as (w'&tail_stats'&state&->&Hw'&Hts'&Hst&Hans).
  set (stats := copy_tail_stats tail_stats' no_work).
  assert (xref_stats_ok stats) as Hs by (subst stats; facts; cbn; lia).
  apply (jobs_bind _ _ _ (λ r' poll', poll' = poll ∧
    r' = xref_run w' stats None (Some (tail_job tail_stats' state)) XrefTail)).
  { unfold jobs, poll_tail_job. cbn [xref_run run_world]. by rewrite Hpoll. }
  intros r' ? [-> ->]. destruct Hans as [startxref start Ht Hlt|window' ticket missing Ha|e He].
  - cbn [final_startxref]. apply jobs_set. cbn [xref_run run_job xref_at xj_source_len xj_limits].
    assert (checked_sub source_len startxref = Some (source_len - startxref)) as ->
      by (apply checked_sub_Some; lia).
    destruct (source_len - startxref) as [|p|] eqn:Hrem; [lia| |lia]. apply jobs_set.
    eexists w', stats, (Some startxref), None, (XrefSectionState startxref _ false).
    split; [reflexivity|]. split; [done|]. split; [done|].
    assert (first startxref = Z.min (xl_initial_section_bytes limits) (Z.pos p)) as <-
      by (unfold section_first; by rewrite Hrem).
    assert (1 ≤ first startxref ≤ cap startxref) as Hw1.
    { apply (section_first_pos snapshot source_len limits syntax_limits Hsetup). lia. }
    split; [by split_and!; eauto; lia|]. exists 26%nat. split; [|lia].
    apply doublings_cap; [lia|]. change (2 ^ Z.of_nat 26) with 67108864. facts. lia.
  - exists w', stats, None, (Some (tail_job tail_stats' (FinalTail window' true))), XrefTail.
    split; [done|]. split; [done|]. split; [done|]. split; [|by constructor].
    split; [done|]. by exists tail_stats', window', true.
  - apply (xref_fails w' stats None (Some (tail_job tail_stats' (FinalFailed e))) XrefTail); [done..|].
    by apply xref_no_tail.
Qed.

Section anchored.
Context (startxref start : Z).
Hypothesis Htail : file_tail startxref start.
Hypothesis Hanchor : 0 ≤ startxref < source_len.

Lemma anchored_first : 1 ≤ first startxref ≤ cap startxref.
Proof. apply (section_first_pos snapshot source_len limits syntax_limits Hsetup). lia. Qed.

Lemma no_table e : table_failure startxref e → xref_failure e.
Proof. intros. by eapply xref_no_table. Qed.

Lemma source_no_table e : failing e → xref_failure e.
Proof. intros He. by apply no_table, section_source. Qed.

Local Notation section_run w stats window charged :=
  (xref_run w stats (Some startxref) None (XrefSectionState startxref window charged)).

Lemma section_state_ok stats window charged :
  first startxref ≤ window ≤ cap startxref →
  xref_state_ok stats (Some startxref) None (XrefSectionState startxref window charged).
Proof. intros. split_and!; [done..|by exists start|lia|lia|lia|lia]. Qed.

Lemma table_charge_run window (charged : bool) offset offset' w stats :
  source_ok (world_source w) → xref_stats_ok stats → first startxref ≤ window ≤ cap startxref →
  jobs (when (negb charged)
    (window_charge_read window offset;;
     j ← job;
     attempts ← window_some (checked_add u64_max (xs_section_attempts (xj_stats j)) 1) offset';
     set_job (set_xref_stats (xref_section_attempts attempts));;
     set_job (set_xref_state (XrefSectionState startxref window true)))) (section_run w stats window charged)
    (λ r' _, ∃ stats', xref_stats_ok stats' ∧ r' = section_run w stats' window true) xref_ends.
Proof.
  pose proof anchored_first. intros Hw Hs Hwin. destruct charged; [by exists stats|]. unfold when. cbn [negb].
  apply (window_charge_read_run file snapshot source_len limits context
    (totals_fit snapshot source_len limits syntax_limits Hsetup)); [done..| |].
  { apply xref_may_fail; [done|]. apply source_no_table. }
  cbn [wj_read_bytes wj_set_read_bytes xref_window xref_at xj_stats]. intros Hmax.
  apply jobs_job. eapply (jobs_some _ _ (xs_section_attempts stats + 1)).
  { apply checked_add_Some. cbn. facts. lia. }
  eexists. split; [|reflexivity]. facts. cbn. lia.
Qed.

Lemma table_grow_run window w stats charged fuel k :
  source_ok (world_source w) → xref_stats_ok stats → first startxref ≤ window ≤ cap startxref →
  asks_for_more file snapshot source_len syntax_limits startxref source_len window →
  doublings k window (cap startxref) → (k < Datatypes.S fuel)%nat →
  jobs (xref_grow startxref window;; mret None) (section_run w stats window charged)
    (xref_round fuel) xref_ends.
Proof.
  pose proof anchored_first. intros Hw Hs Hwin Hno Hk Hfuel. eapply (jobs_bind _ _ _ (λ r' _, xref_goes fuel r')); [|by intros r' []].
  unfold xref_grow. apply jobs_job. cbn [xref_run run_job xref_at xj_limits xj_source_len].
  eapply (jobs_some _ _ (source_len - startxref)); [apply checked_sub_Some; lia|]. cbv zeta.
  fold (cap startxref). destruct (cap startxref <=? window) eqn:Hc; checked_facts.
  - assert (window = cap startxref) as -> by lia.
    apply (xref_fails w stats _ None (XrefSectionState startxref _ charged)); [done..|].
    by apply no_table, section_undecided.
  - rewrite grow_window_run by (facts; lia). unfold window_some.
    exists w, stats, (Some startxref), None, (XrefSectionState startxref (Z.min (window * 2) (cap startxref)) false).
    split; [reflexivity|]. split; [done|]. split; [done|]. split; [apply section_state_ok; lia|].
    destruct (doublings_next k window (cap startxref) ltac:(lia) Hk) as (k'&->&Hk'). exists k'. split; [done|lia].
Qed.

Lemma table_attempt_run window w stats fuel k :
  source_ok (world_source w) → xref_stats_ok stats → first startxref ≤ window ≤ cap startxref →
  doublings k window (cap startxref) → (k < Datatypes.S fuel)%nat →
  jobs (parsed ← attempt (parse_section
          (window_at file snapshot source_len startxref source_len window) limits syntax_limits);
        match parsed with
        | Ok (Some section) =>
            entries ← window_some (try_from u64_max (len (section_entries section))) (Some startxref);
            set_job (set_xref_stats (xref_entries entries));;
            set_job (set_xref_state XrefComplete);;
            mret (Some (XrefReady section))
        | Ok None => xref_grow startxref window;; mret None
        | Err error => window_fail error
        end) (section_run w stats window true) (xref_round fuel) xref_ends.
Proof.
  pose proof anchored_first. intros Hw Hs Hwin Hk Hfuel. set (win := window_at file snapshot source_len startxref source_len window).
  assert (0 ≤ startxref < source_len ∧ source_len ≤ source_len) as Hspace by lia.
  pose proof (window_at_ok file snapshot source_len limits syntax_limits Hsetup startxref source_len
    Hspace window Hwin) as Hok.
  pose proof (λ calls, section_attempt_run file snapshot source_len limits syntax_limits context Hsetup startxref source_len
    Hspace base_final window _ Hwin (λ section s, iff_refl _)
    (base_run win limits syntax_limits calls Hok)) as Hrun.
  apply jobs_attempt; cbn [run_world xref_run].
  { intros He. specialize (Hrun (world_calls w)). by rewrite He in Hrun. }
  intros calls outcome Ho. specialize (Hrun (world_calls w)). rewrite Ho in Hrun.
  set (w' := {| world_source := world_source w; world_calls := calls |}).
  change (with_calls calls (section_run w stats window true)) with (section_run w' stats window true).
  destruct outcome as [[s|]|e].
  - assert (len (section_entries s) ≤ u64_max) as Hlen.
    { destruct Hrun as (section&Hsec&root&_&_&_&Htable&->).
      destruct (read_section_rows _ _ _ _ _ _ _ Hsec) as (_&_&Hsize). cbn [section_entries base_section_of].
      destruct Htable as [Hn _ _ _]. apply (f_equal length) in Hn. rewrite length_fmap, length_seqZ in Hn.
      facts. lia. }
    eapply jobs_some; [apply try_from_Some; split; [lia|reflexivity]|].
    eexists w', (xref_entries (len (section_entries s)) stats), (Some startxref), None, XrefComplete.
    split; [reflexivity|]. split; [done|]. split; [done|]. split; [done|]. by apply (answer_table _ _ _ start).
  - by eapply table_grow_run.
  - apply (xref_fails w' stats _ None (XrefSectionState startxref window true)); [done..|]. by apply no_table.
Qed.

Lemma table_section_run fuel window charged w stats k :
  source_ok (world_source w) → xref_stats_ok stats → first startxref ≤ window ≤ cap startxref →
  doublings k window (cap startxref) → (k < Datatypes.S fuel)%nat →
  jobs (xref_poll_section startxref window charged) (section_run w stats window charged)
    (xref_round fuel) xref_ends.
Proof.
  pose proof anchored_first. intros Hw Hs Hwin Hk Hfuel. unfold xref_poll_section. apply jobs_job.
  cbn [xref_run run_job xref_at xj_source_len].
  assert (ByteRange_end_exclusive (range_at startxref window) = startxref + window) as Hend by done.
  apply (jobs_ok _ (range_at startxref window)).
  { facts. unfold ByteRange_new. assert (window =? 0 = false) as -> by lia.
    rewrite (proj2 (checked_add_Some _ _ _ (startxref + window))) by lia.
    rewrite bool_decide_eq_false_2 by done. cbn [orb]. unfold range_at in Hend. rewrite Hend.
    by assert (startxref + window <=? source_len = true) as -> by lia. }
  eapply jobs_bind; [by apply table_charge_run|]. intros r' [] (stats'&Hs'&->).
  assert (∀ stats, xref_stats_ok stats → may_fail file snapshot source_len limits context xref_ends
    (xref_at stats (Some startxref) None (XrefSectionState startxref window true))) as Hfail.
  { intros stats2 Hs2. apply xref_may_fail; [done|apply source_no_table]. }
  apply (read_run file snapshot source_len limits context); [done| |done..|by right|by apply Hfail| |].
  - split; [apply asked_whole; [split|]|unfold longest_window];
      unfold ByteRange_end_exclusive, range_at, section_cap in *; simpl; facts; lia.
  - clear w Hw. intros w ticket missing Hw Hans.
    exists w, stats', (Some startxref), None, (XrefSectionState startxref window true).
    split; [done|]. split; [done|]. split; [done|]. split; [by apply section_state_ok|by constructor].
  - clear w Hw. intros w slice Hw Hbytes.
    apply (window_charge_parse_run file snapshot source_len limits context
      (totals_fit snapshot source_len limits syntax_limits Hsetup)); [done..|by apply Hfail|].
    cbn [wj_parse_bytes wj_set_parse_bytes xref_window xref_at xj_stats]. intros Hmax.
    rewrite Hbytes, Hend.
    eapply (table_attempt_run window w (xref_parse_bytes (xs_parse_bytes stats' + window) stats') fuel k);
      [done| |done..]. facts. cbn. lia.
Qed.
End anchored.

Lemma xref_step_run fuel r :
  xref_goes (Datatypes.S fuel) r → jobs xref_step r (xref_round fuel) xref_ends.
Proof.
  intros (w&stats&discovered&tail&state&->&Hw&Hs&Hst&Hrounds). unfold xref_step.
  assert (∀ e, failing e → xref_failure e) as Hf.
  { intros e He. by apply source_no_tail. }
  apply (checks_run file snapshot source_len limits context); [done..|by apply xref_may_fail|].
  clear w Hw. intros w Hw. apply jobs_job. cbn [run_job xref_at xj_state].
  destruct state as [|startxref window charged| |e]; [| |done|done].
  - apply (xref_tail_run fuel w); [done..|]. simpl in Hrounds. lia.
  - destruct Hst as (->&->&(start&Ht)&Hlt&Hwin). destruct Hrounds as (k&Hk&Hfuel).
    by apply (table_section_run startxref start Ht Hlt fuel window charged w stats k).
Qed.

Lemma xref_loop_run fuel r : xref_goes fuel r → jobs (xref_loop fuel) r xref_ends xref_ends.
Proof.
  revert r. induction fuel as [|fuel IH]; intros r Hr.
  { destruct Hr as (?&?&?&?&[]&_&_&_&_&Hr); simpl in Hr; [lia|destruct Hr as (?&_&?); lia|done|done]. }
  cbn [xref_loop]. eapply jobs_bind; [by apply xref_step_run|]. intros r' [poll|] Hr'; [done|by apply IH].
Qed.

(** What a poll answers in any state. *)
Definition xref_polled (r r' : JobRun S OpenXrefJob) (poll : XrefPoll) : Prop :=
  match xj_state (run_job r) with
  | XrefComplete => r' = r ∧ poll = XrefPollFailed (XrefError_for_code XrefJobAlreadyComplete None)
  | XrefFailed e => r' = r ∧ poll = XrefPollFailed e
  | _ => xref_ends r' poll
  end.

Lemma xref_goes_start w stats discovered tail state :
  source_ok (world_source w) → xref_stats_ok stats → xref_state_ok stats discovered tail state →
  match state with XrefTail | XrefSectionState _ _ _ => True | _ => False end →
  xref_goes poll_fuel (xref_run w stats discovered tail state).
Proof.
  intros Hw Hs Hst Hflight. exists w, stats, discovered, tail, state. split_and!; [done..|].
  destruct state as [|startxref window charged| |]; try done.
  - unfold xref_rounds, poll_fuel. lia.
  - destruct Hst as (_&_&_&Hlt&Hwin). pose proof (anchored_first startxref Hlt).
    exists 26%nat. split; [|unfold poll_fuel; lia].
    apply doublings_cap; [lia|]. change (2 ^ Z.of_nat 26) with 67108864. facts. lia.
Qed.

Lemma xref_poll_run r :
  xref_run_ok r →
  ∃ r' poll, OpenXrefJob_poll r = (r', Some poll) ∧ xref_run_ok r' ∧ xref_polled r r' poll.
Proof.
  intros (w&stats&discovered&tail&state&->&Hw&Hs&Hst).
  assert (match state with XrefTail | XrefSectionState _ _ _ => True | _ => False end →
    jobs xref_poll_inner (xref_run w stats discovered tail state) xref_ends xref_ends) as Hloop.
  { intros Hflight. pose proof (xref_loop_run poll_fuel _ (xref_goes_start _ _ _ _ _ Hw Hs Hst Hflight)).
    unfold xref_poll_inner. apply jobs_job. cbn [run_job xref_run xj_state xref_at]. by destruct state. }
  unfold OpenXrefJob_poll, polled, xref_polled. cbn [run_job xref_run xj_state xref_at].
  destruct state as [|startxref window charged| |e].
  1, 2: specialize (Hloop I); unfold jobs in Hloop;
    destruct (xref_poll_inner _) as [r' [poll|[poll|]]]; [..|done]; eexists _, _;
    (split; [reflexivity|]); (split; [|done]); destruct Hloop as (w'&st'&d'&t'&s'&?&?&?&?&_);
    by exists w', st', d', t', s'.
  1, 2: eexists _, _; split; [reflexivity|]; split; [|done]; by eexists w, stats, discovered, tail, _.
Qed.
End table.

(** ** A revision section at a known offset *)

Section revision.
Context `{XrefRuntime} {S : Type} `{ByteSource S}.
Context (file : Z → Z) (snapshot : SourceSnapshot) (source_len : Z) (limits : XrefLimits)
  (syntax_limits : SyntaxLimits) (startxref upper : Z).
Context (context : ObjectJobContext) `{!HonestSource S file (whole_source snapshot source_len) context}.
Hypothesis Hsetup : xref_setup snapshot source_len limits syntax_limits.
Hypothesis Hspace : 0 ≤ startxref < upper ∧ upper ≤ source_len.
Hypothesis Hpriority : context_priority context = Metadata.
Local Notation target := (whole_source snapshot source_len).
Local Notation failing := (source_failure (S := S) file snapshot source_len limits context).
Local Notation cap := (section_cap limits startxref upper).
Local Notation first := (section_first limits startxref upper).
Local Notation part_failure :=
  (section_failure file snapshot source_len limits syntax_limits context revision_final startxref upper).

Definition revision_at (stats : TraditionalRevisionStats) (state : RevisionState)
    : OpenTraditionalRevisionJob :=
  {| rj_snapshot := snapshot; rj_source_len := source_len; rj_startxref := startxref;
     rj_upper_bound := upper;
     rj_context := {| rc_job := context_job context;
                      rc_section_checkpoint := context_boundary_checkpoint context |};
     rj_limits := limits; rj_syntax_limits := syntax_limits; rj_stats := stats; rj_state := state |}.
Definition revision_run (w : World S) stats state : JobRun S OpenTraditionalRevisionJob :=
  {| run_job := revision_at stats state; run_world := w |}.

Definition revision_stats_ok (s : TraditionalRevisionStats) : Prop :=
  0 ≤ rs_read_bytes s ≤ xl_max_total_read_bytes limits ∧
  0 ≤ rs_parse_bytes s ≤ xl_max_total_parse_bytes limits ∧
  0 ≤ rs_section_attempts s ≤ rs_read_bytes s.

Definition revision_state_ok (state : RevisionState) : Prop :=
  match state with
  | RevisionSection window _ => first ≤ window ≤ cap
  | RevisionComplete => True
  | RevisionFailed e => part_failure e
  end.

(** What a poll answers, with the state that it leaves. *)
Inductive revision_answer (w : World S) (stats : TraditionalRevisionStats)
    : RevisionState → TraditionalRevisionPoll → Prop :=
| answer_part s :
    denotes file snapshot source_len revision_final startxref upper s →
    rs_entries stats = len (revision_entries s) →
    revision_answer w stats RevisionComplete (RevisionReady s)
| answer_part_pending window ticket missing :
    awaiting file target context (range_at startxref window)
      (context_boundary_checkpoint context) ticket missing (world_source w) →
    revision_answer w stats (RevisionSection window true)
      (RevisionPending ticket missing (context_boundary_checkpoint context))
| answer_part_failed e :
    part_failure e → revision_answer w stats (RevisionFailed e) (RevisionPollFailed e).

Definition revision_run_ok (r : JobRun S OpenTraditionalRevisionJob) : Prop :=
  ∃ w stats state, r = revision_run w stats state ∧ source_ok (world_source w) ∧
    revision_stats_ok stats ∧ revision_state_ok state.

Definition revision_ends (r : JobRun S OpenTraditionalRevisionJob) (poll : TraditionalRevisionPoll)
    : Prop :=
  ∃ w stats state, r = revision_run w stats state ∧ source_ok (world_source w) ∧
    revision_stats_ok stats ∧ revision_state_ok state ∧ revision_answer w stats state poll.

Definition revision_goes (fuel : nat) (r : JobRun S OpenTraditionalRevisionJob) : Prop :=
  ∃ w stats window charged, r = revision_run w stats (RevisionSection window charged) ∧
    source_ok (world_source w) ∧ revision_stats_ok stats ∧ first ≤ window ≤ cap ∧
    ∃ k, doublings k window cap ∧ (k < fuel)%nat.

Definition revision_round (fuel : nat) r (outcome : option TraditionalRevisionPoll) : Prop :=
  match outcome with Some poll => revision_ends r poll | None => revision_goes fuel r end.

Ltac facts :=
  let H := fresh "Hfacts" in
  pose proof (xref_setup_facts snapshot source_len limits syntax_limits Hsetup) as H;
  unfold xref_limits_ok, revision_stats_ok, section_cap, XREF_MAX_SOURCE_BYTES,
    XREF_MAX_SECTION_BYTES, XREF_MAX_TOTAL_BYTES in *.

Lemma revision_first : 1 ≤ first ≤ cap.
Proof. by apply (section_first_pos snapshot source_len limits syntax_limits Hsetup). Qed.

Lemma revision_fails {A} w stats state e (Q : _ → A → Prop) :
  source_ok (world_source w) → revision_stats_ok stats → part_failure e →
  jobs (window_fail e) (revision_run w stats state) Q revision_ends.
Proof.
  intros Hw Hs He. apply jobs_fail_with. exists w, stats, (RevisionFailed e).
  split_and!; [done..|by constructor].
Qed.

Lemma revision_may_fail stats state :
  revision_stats_ok stats →
  may_fail file snapshot source_len limits context revision_ends (revision_at stats state).
Proof.
  intros Hs w e Hw He. exists w, stats, (RevisionFailed e).
  assert (part_failure e) by by apply section_source. split_and!; [done..|by constructor].
Qed.

Lemma revision_charge_run window (charged : bool) offset offset' w stats :
  source_ok (world_source w) → revision_stats_ok stats → first ≤ window ≤ cap →
  jobs (when (negb charged)
    (window_charge_read window offset;;
     j ← job;
     attempts ← window_some (checked_add u64_max (rs_section_attempts (rj_stats j)) 1) offset';
     set_job (set_revision_stats (revision_section_attempts attempts));;
     set_job (set_revision_state (RevisionSection window true))))
    (revision_run w stats (RevisionSection window charged))
    (λ r' _, ∃ stats', revision_stats_ok stats' ∧
       r' = revision_run w stats' (RevisionSection window true)) revision_ends.
Proof.
  pose proof revision_first. intros Hw Hs Hwin. destruct charged; [by exists stats|]. unfold when. cbn [negb].
  apply (window_charge_read_run file snapshot source_len limits context
    (totals_fit snapshot source_len limits syntax_limits Hsetup)); [done..|by apply revision_may_fail|].
  cbn [wj_read_bytes wj_set_read_bytes revision_window revision_at rj_stats]. intros Hmax.
  apply jobs_job. eapply (jobs_some _ _ (rs_section_attempts stats + 1)).
  { apply checked_add_Some. cbn. facts. lia. }
  eexists. split; [|reflexivity]. facts. cbn. lia.
Qed.

Lemma revision_grow_run window w stats charged fuel k :
  source_ok (world_source w) → revision_stats_ok stats → first ≤ window ≤ cap →
  asks_for_more file snapshot source_len syntax_limits startxref upper window →
  doublings k window cap → (k < Datatypes.S fuel)%nat →
  jobs (revision_grow window;; mret None) (revision_run w stats (RevisionSection window charged))
    (revision_round fuel) revision_ends.
Proof.
  pose proof revision_first. intros Hw Hs Hwin Hno Hk Hfuel. eapply (jobs_bind _ _ _ (λ r' _, revision_goes fuel r')); [|by intros r' []].
  unfold revision_grow. apply jobs_job. cbn [revision_run run_job revision_at rj_limits rj_startxref rj_upper_bound].
  eapply (jobs_some _ _ (upper - startxref)); [apply checked_sub_Some; lia|]. cbv zeta.
  fold cap. destruct (cap <=? window) eqn:Hc; checked_facts.
  - assert (window = cap) as -> by lia. apply (revision_fails w stats (RevisionSection _ charged)); [done..|].
    by apply section_undecided.
  - rewrite grow_window_run by (facts; lia). unfold window_some.
    exists w, stats, (Z.min (window * 2) cap), false.
    split; [reflexivity|]. split; [done|]. split; [done|]. split; [lia|].
    destruct (doublings_next k window cap ltac:(lia) Hk) as (k'&->&Hk'). exists k'. split; [done|lia].
Qed.

Lemma last_row_bound entries first :
  rows_from first entries → 0 ≤ first → len entries ≤ u32_max + 1.
Proof.
  intros Hr Hf. destruct (decide (entries = [])) as [->|Hne]; [done|].
  assert (∀ entries first, rows_from first entries → first ≤ u32_max + 1 →
    len entries ≤ u32_max + 1 - first) as Hgo.
  { clear. induction entries as [|e entries IH]; intros first Hr Hf; [simpl; lia|].
    destruct Hr as [He Hr]. apply IH in Hr; [|lia]. simpl. lia. }
  assert (first ≤ u32_max + 1) by (destruct entries; [done|destruct Hr; lia]).
  specialize (Hgo _ _ Hr ltac:(lia)). lia.
Qed.

Lemma revision_attempt_run window w stats fuel k :
  source_ok (world_source w) → revision_stats_ok stats → first ≤ window ≤ cap →
  doublings k window cap → (k < Datatypes.S fuel)%nat →
  jobs (parsed ← attempt (parse_traditional_revision_section
          (window_at file snapshot source_len startxref upper window) limits syntax_limits);
        match parsed with
        | Ok (Some section) =>
            entries ← window_some (try_from u64_max (len (revision_entries section))) (Some startxref);
            set_job (set_revision_stats (revision_entry_count entries));;
            set_job (set_revision_state RevisionComplete);;
            mret (Some (RevisionReady section))
        | Ok None => revision_grow window;; mret None
        | Err error => window_fail error
        end) (revision_run w stats (RevisionSection window true)) (revision_round fuel) revision_ends.
Proof.
  pose proof revision_first. intros Hw Hs Hwin Hk Hfuel. set (win := window_at file snapshot source_len startxref upper window).
  pose proof (window_at_ok file snapshot source_len limits syntax_limits Hsetup startxref upper
    Hspace window Hwin) as Hok.
  pose proof (λ calls, section_attempt_run file snapshot source_len limits syntax_limits context Hsetup startxref upper
    Hspace revision_final window _ Hwin (λ section s, iff_refl _)
    (XrefProps.revision_run win limits syntax_limits calls Hok)) as Hrun.
  apply jobs_attempt; cbn [run_world revision_run].
  { intros He. specialize (Hrun (world_calls w)). by rewrite He in Hrun. }
  intros calls outcome Ho. specialize (Hrun (world_calls w)). rewrite Ho in Hrun.
  set (w' := {| world_source := world_source w; world_calls := calls |}).
  change (with_calls calls (revision_run w stats (RevisionSection window true)))
    with (revision_run w' stats (RevisionSection window true)).
  destruct outcome as [[s|]|e].
  - assert (len (revision_entries s) ≤ u64_max) as Hlen.
    { destruct Hrun as (section&Hsec&?&?&_&_&_&_&_&->).
      destruct (read_section_rows _ _ _ _ _ _ _ Hsec) as (_&Hr&_). cbn [revision_entries revision_section_of].
      apply last_row_bound in Hr; [|lia]. facts. lia. }
    eapply jobs_some; [apply try_from_Some; split; [lia|reflexivity]|].
    eexists w', (revision_entry_count (len (revision_entries s)) stats), RevisionComplete.
    split; [reflexivity|]. split; [done|]. split; [done|]. split; [done|]. by apply answer_part.
  - by eapply revision_grow_run.
  - by apply (revision_fails w' stats (RevisionSection window true)).
Qed.

Lemma revision_step_run fuel r :
  revision_goes (Datatypes.S fuel) r → jobs revision_step r (revision_round fuel) revision_ends.
Proof.
  pose proof revision_first.
  intros (w&stats&window&charged&->&Hw&Hs&Hwin&k&Hk&Hfuel). unfold revision_step. apply jobs_job.
  cbn [revision_run run_job revision_at rj_startxref].
  apply (checks_run file snapshot source_len limits context); [done..|by apply revision_may_fail|].
  clear w Hw. intros w Hw. cbn [rj_state revision_at]. unfold revision_poll_section. apply jobs_job.
  cbn [run_job revision_at rj_startxref rj_upper_bound]. cbv zeta.
  assert (ByteRange_end_exclusive (range_at startxref window) = startxref + window) as Hend by done.
  apply (jobs_ok _ (range_at startxref window)).
  { facts. unfold ByteRange_new. assert (window =? 0 = false) as -> by lia.
    rewrite (proj2 (checked_add_Some _ _ _ (startxref + window))) by lia.
    rewrite bool_decide_eq_false_2 by done. cbn [orb]. unfold range_at in Hend. rewrite Hend.
    by assert (startxref + window <=? upper = true) as -> by lia. }
  eapply jobs_bind; [by apply revision_charge_run|]. intros r' [] (stats'&Hs'&->).
  apply (read_run file snapshot source_len limits context);
    [done| |done..|by right|by apply revision_may_fail| |].
  - split; [apply asked_whole; [split|]|unfold longest_window];
      unfold ByteRange_end_exclusive, range_at, section_cap in *; simpl; facts; lia.
  - clear w Hw. intros w ticket missing Hw Hans. exists w, stats', (RevisionSection window true).
    split_and!; [done..|by constructor].
  - clear w Hw. intros w slice Hw Hbytes.
    apply (window_charge_parse_run file snapshot source_len limits context
      (totals_fit snapshot source_len limits syntax_limits Hsetup)); [done..|by apply revision_may_fail|].
    cbn [wj_parse_bytes wj_set_parse_bytes revision_window revision_at rj_stats]. intros Hmax.
    rewrite Hbytes, Hend.
    eapply (revision_attempt_run window w (revision_parse_bytes (rs_parse_bytes stats' + window) stats') fuel k);
      [done| |done..]. facts. cbn. lia.
Qed.

Lemma revision_loop_run fuel r :
  revision_goes fuel r → jobs (revision_loop fuel) r revision_ends revision_ends.
Proof.
  revert r. induction fuel as [|fuel IH]; intros r Hr.
  { destruct Hr as (?&?&?&?&_&_&_&_&?&_&?). lia. }
  cbn [revision_loop]. eapply jobs_bind; [by apply revision_step_run|].
  intros r' [poll|] Hr'; [done|by apply IH].
Qed.

(** What a poll answers in any state. *)
Definition revision_polled (r r' : JobRun S OpenTraditionalRevisionJob) (poll : TraditionalRevisionPoll)
    : Prop :=
  match rj_state (run_job r) with
  | RevisionSection _ _ => revision_ends r' poll
  | RevisionComplete =>
      r' = r ∧ poll = RevisionPollFailed (XrefError_for_code XrefJobAlreadyComplete (Some startxref))
  | RevisionFailed e => r' = r ∧ poll = RevisionPollFailed e
  end.

Lemma revision_poll_run r :
  revision_run_ok r →
  ∃ r' poll, OpenTraditionalRevisionJob_poll r = (r', Some poll) ∧ revision_run_ok r' ∧
    revision_polled r r' poll.
Proof.
  intros (w&stats&state&->&Hw&Hs&Hst).
  unfold OpenTraditionalRevisionJob_poll, polled, revision_polled, revision_poll_inner.
  cbn [revision_run run_job revision_at rj_state]. destruct state as [window charged| |e].
  - assert (revision_goes poll_fuel (revision_run w stats (RevisionSection window charged))) as Hgoes.
    { exists w, stats, window, charged. split_and!; [done..|simpl in Hst; lia|simpl in Hst; lia|].
      exists 26%nat. split; [|unfold poll_fuel; lia]. simpl in Hst. pose proof revision_first. apply doublings_cap; [lia|].
      change (2 ^ Z.of_nat 26) with 67108864. facts. lia. }
    apply revision_loop_run in Hgoes. unfold jobs in Hgoes.
    change ((j ← job; match rj_state j with
      | RevisionSection _ _ => revision_loop poll_fuel
      | RevisionComplete => answer (RevisionPollFailed
          (XrefError_for_code XrefJobAlreadyComplete (Some (rj_startxref j))))
      | RevisionFailed error => answer (RevisionPollFailed error)
      end) (revision_run w stats (RevisionSection window charged)))
      with (revision_loop poll_fuel (revision_run w stats (RevisionSection window charged))).
    destruct (revision_loop _ _) as [r' [poll|[poll|]]]; [..|done]; eexists _, _;
      (split; [reflexivity|]); (split; [|done]); destruct Hgoes as (w'&stats'&state'&?&?&?&?&_);
      by exists w', stats', state'.
  - eexists _, _. split; [reflexivity|]. split; [by exists w, stats, RevisionComplete|done].
  - eexists _, _. split; [reflexivity|]. split; [by exists w, stats, (RevisionFailed e)|done].
Qed.
End revision.
