(* ===== verification/XrefJobProps.v ===== *)
(** * The properties of the jobs for cross-reference tables

    For jobs made by their constructors with validated limits, polled any number of
    times over an honest source, in whatever world they run in by the time of each
    poll; then for the table job over the byte range store, which other threads
    supply, poll and poison between the polls. Concrete runs end the file. *)

From stdpp Require Import base list numbers option strings.
From S2P Require Import Prelude.
From S2P Require Import SourceTypes.
From S2P Require Import SyntaxTypes.
From S2P Require Import DocumentTypes.
From S2P Require Import SyntaxState.
From S2P Require Import SyntaxParser.
From S2P Require Import SyntaxRules.
From S2P Require Import SyntaxReader.
From S2P Require Import SyntaxProps.
From S2P Require Import RangeTypes.
From S2P Require Import RangeStore.
From S2P Require Import RangeSegments.
From S2P Require Import RangeMerge.
From S2P Require Import RangeInv.
From S2P Require Import RangeSupply.
From S2P Require Import RangeTickets.
From S2P Require Import RangePoll.
From S2P Require Import RangeRuns.
From S2P Require Import RangeProps.
From S2P Require Import ObjectTypes.
From S2P Require Import ObjectParser.
From S2P Require Import ObjectJob.
From S2P Require Import ObjectFile.
From S2P Require Import ObjectRuns.
From S2P Require Import ObjectJobRuns.
From S2P Require Import ObjectProps.
From S2P Require Import ObjectStore.
From S2P Require Import XrefTypes.
From S2P Require Import XrefTail.
From S2P Require Import XrefParser.
From S2P Require Import XrefReader.
From S2P Require Import XrefSections.
From S2P Require Import XrefProps.
From S2P Require Import XrefJob.
From S2P Require Import XrefJobRuns.

(** ** Contexts *)

Definition job_context (c : XrefJobContext) : ObjectJobContext :=
  {| context_job := xc_job c; context_envelope_checkpoint := xc_tail_checkpoint c;
     context_boundary_checkpoint := xc_section_checkpoint c; context_priority := Metadata |}.
Definition tail_job_context (c : FinalStartXrefJobContext) : ObjectJobContext :=
  {| context_job := fc_job c; context_envelope_checkpoint := fc_tail_checkpoint c;
     context_boundary_checkpoint := fc_tail_checkpoint c; context_priority := Metadata |}.
Definition revision_job_context (c : TraditionalRevisionJobContext) : ObjectJobContext :=
  {| context_job := rc_job c; context_envelope_checkpoint := rc_section_checkpoint c;
     context_boundary_checkpoint := rc_section_checkpoint c; context_priority := Metadata |}.

(** ** Constructors *)

Lemma source_len_ok snapshot limits n source_len :
  xref_source_len snapshot limits = Ok n → snapshot_len snapshot = Some source_len → 0 ≤ source_len →
  n = source_len ∧ 0 < source_len ≤ xl_max_source_bytes limits.
Proof.
  unfold xref_source_len. intros Hn Hl Hpos. rewrite Hl in Hn. cbn [require mbind result_bind] in Hn.
  destruct (source_len =? 0) eqn:Hz; [done|]. cbn [fail_if mbind result_bind] in Hn.
  destruct (_ <? source_len) eqn:Hm; [done|]. injection Hn as <-. checked_facts. lia.
Qed.

(** A source with a known length, and limits. *)
Record xref_given (snapshot : SourceSnapshot) (source_len : Z) (limits : XrefLimits)
    (syntax_limits : SyntaxLimits) : Prop := {
  xg_length : snapshot_len snapshot = Some source_len;
  xg_unsigned : 0 ≤ source_len;
  xg_limits : xref_limits_ok limits;
  xg_syntax : syntax_limits_ok syntax_limits
}.

Section jobs.
Context `{XrefRuntime} {S : Type} `{ByteSource S}.
Context (file : Z → Z) (snapshot : SourceSnapshot) (source_len : Z) (limits : XrefLimits)
  (syntax_limits : SyntaxLimits).
Local Notation target := (whole_source snapshot source_len).
Local Notation given := (xref_given snapshot source_len limits syntax_limits).
Local Notation setup := (xref_setup snapshot source_len limits syntax_limits).

(** A job after any polls, each in whatever world it runs in by then. *)
Inductive polls_reach {J P} (poll : JobRun S J → JobRun S J * option P) (ok : S → Prop) (j : J)
    : JobRun S J → Prop :=
| polls_new w : ok (world_source w) → polls_reach poll ok j {| run_job := j; run_world := w |}
| polls_poll r r' answered :
    polls_reach poll ok j r → poll r = (r', answered) → polls_reach poll ok j r'
| polls_between r w :
    polls_reach poll ok j r → ok (world_source w) →
    polls_reach poll ok j {| run_job := run_job r; run_world := w |}.

(** An invariant of polls that does not depend on the world. *)
Lemma polls_invariant {J P} (poll : JobRun S J → JobRun S J * option P) ok j (I : JobRun S J → Prop) r :
  (∀ w, ok (world_source w) → I {| run_job := j; run_world := w |}) →
  (∀ r, I r → ∃ r' answered, poll r = (r', Some answered) ∧ I r') →
  (∀ r w, I r → ok (world_source w) → I {| run_job := run_job r; run_world := w |}) →
  polls_reach poll ok j r → I r.
Proof.
  intros Hnew Hpoll Hbetween Hr. induction Hr as [|r r' answered _ IH Hp|]; auto.
  destruct (Hpoll r IH) as (r1&answered1&Hp1&?). rewrite Hp1 in Hp. by injection Hp as <- _.
Qed.

Section table.
Context (c : XrefJobContext) `{!HonestSource S file target (job_context c)}.

Definition table_job_created (j : OpenXrefJob) : Prop :=
  given ∧ OpenXrefJob_new snapshot c limits syntax_limits = Ok j.
Definition table_job_reached : OpenXrefJob → JobRun S OpenXrefJob → Prop :=
  polls_reach OpenXrefJob_poll source_ok.

Lemma table_created_facts j :
  table_job_created j → setup ∧
  j = xref_at snapshot source_len limits syntax_limits (job_context c) no_work None
    (Some (final_at snapshot source_len limits (job_context c)
       {| fs_read_bytes := 0; fs_parse_bytes := 0; fs_tail_attempts := 0 |}
       (FinalTail (final_first source_len limits) false))) XrefTail.
Proof.
  intros ([Hlen Hpos Hl Hsyn]&([]&_&Hnew)%result_bind_ok).
  apply result_bind_ok in Hnew as (n&Hn&Hnew). eapply source_len_ok in Hn as [Hn Hs]; [|done..]. subst n.
  apply result_bind_ok in Hnew as ([]&Hin%fail_if_ok&Hnew). checked_facts.
  apply result_bind_ok in Hnew as (tail&Htail&[= <-]). unfold OpenFinalStartXrefJob_new in Htail.
  apply result_bind_ok in Htail as (n&Hn'&[= <-]). eapply source_len_ok in Hn' as [-> _]; [|done..].
  split; [done|]. by destruct c.
Qed.

Lemma table_reached_ok j r :
  table_job_created j → table_job_reached j r →
  setup ∧ xref_run_ok file snapshot source_len limits syntax_limits (job_context c) r.
Proof.
  intros [Hsetup ->]%table_created_facts Hr. split; [done|]. revert Hr. apply polls_invariant.
  - intros w Hw. eexists w, _, _, _, _. split; [reflexivity|]. split; [done|].
    pose proof (final_first_pos snapshot source_len limits syntax_limits Hsetup) as Hfirst.
    destruct Hsetup as [Hl _ _ _ _]. unfold xref_limits_ok in Hl.
    split; [unfold xref_stats_ok; cbn; lia|]. split; [done|].
    eexists _, _, _. split; [reflexivity|]. split; [unfold final_stats_ok; cbn; lia|]. split; [lia|done].
  - intros r' Hok.
    destruct (xref_poll_run file snapshot source_len limits syntax_limits (job_context c) Hsetup eq_refl r' Hok)
      as (r1&poll&Hp&Hok'&_). eauto.
  - intros r' w (w'&stats&d&t&state&->&_&Hs&Hst) Hw. by exists w, stats, d, t, state.
Qed.

(** C5: the table job. A poll never panics and always ends. From a job in flight it
    answers the table of the file at the offset that its final tail declares,
    whatever windows it read; or pending, on a window that is charged once; or a
    failure, which it stores, and which the source, a limit, the allocator, the
    probe or a budget caused, or which means that a window spells no tail and does
    not begin inside one, that a window is wrong, and then no larger window of the job
    holds a table, that the largest window does not decide, or that the table fails its
    checks. The work stays within the budgets. A completed or failed job answers its error again and changes nothing. *)
Theorem table_job_exact j r :
  table_job_created j → table_job_reached j r →
  ∃ r' poll, OpenXrefJob_poll r = (r', Some poll) ∧
    xref_polled file snapshot source_len limits syntax_limits (job_context c) r r' poll.
Proof.
  intros Hc Hr. destruct (table_reached_ok j r Hc Hr) as [Hsetup Hok].
  destruct (xref_poll_run file snapshot source_len limits syntax_limits (job_context c) Hsetup eq_refl r Hok)
    as (r'&poll&Hp&_&Hq). eauto.
Qed.
End table.

Section anchored.
Context (fc : FinalStartXrefJobContext) `{!HonestSource S file target (tail_job_context fc)}.
Context (rc : TraditionalRevisionJobContext) `{!HonestSource S file target (revision_job_context rc)}.
Context (startxref upper : Z).

Definition final_job_created (j : OpenFinalStartXrefJob) : Prop :=
  given ∧ xl_max_section_bytes limits ≤ sl_max_input_bytes syntax_limits ∧
  OpenFinalStartXrefJob_new snapshot fc limits = Ok j.
Definition revision_job_created (j : OpenTraditionalRevisionJob) : Prop :=
  given ∧ 0 ≤ startxref ∧
  OpenTraditionalRevisionJob_new snapshot startxref upper rc limits syntax_limits = Ok j.

Lemma final_reached_ok j r :
  final_job_created j →
  polls_reach OpenFinalStartXrefJob_poll
    (source_ok (file := file) (target := target) (context := tail_job_context fc)) j r →
  setup ∧ final_run_ok file snapshot source_len limits (tail_job_context fc) r.
Proof.
  intros ([Hlen Hpos Hl Hsyn]&Hin&Hnew) Hr. unfold OpenFinalStartXrefJob_new in Hnew.
  apply result_bind_ok in Hnew as (n&Hn&[= <-]). eapply source_len_ok in Hn as [Hn Hs]; [|done..]. subst n.
  assert setup as Hsetup by done. split; [done|]. revert Hr. apply polls_invariant.
  - intros w Hw. pose proof (final_first_pos snapshot source_len limits syntax_limits Hsetup) as Hfirst.
    unfold xref_limits_ok in Hl. destruct fc as [owner checkpoint].
    eexists w, _, _. split; [reflexivity|]. split; [done|].
    split; [unfold final_stats_ok; cbn; lia|]. simpl. unfold final_first in Hfirst |- *. lia.
  - intros r' Hok.
    destruct (final_poll_run file snapshot source_len limits syntax_limits (tail_job_context fc) Hsetup eq_refl r' Hok)
      as (r1&poll&Hp&Hok'&_). eauto.
  - intros r' w (w'&stats&state&->&_&Hs'&Hst) Hw. by exists w, stats, state.
Qed.

Lemma revision_reached_ok j r :
  revision_job_created j →
  polls_reach OpenTraditionalRevisionJob_poll
    (source_ok (file := file) (target := target) (context := revision_job_context rc)) j r →
  setup ∧ (0 ≤ startxref < upper ∧ upper ≤ source_len) ∧
  revision_run_ok file snapshot source_len limits syntax_limits startxref upper (revision_job_context rc) r.
Proof.
  intros ([Hlen Hpos Hl Hsyn]&Hx&Hnew) Hr. unfold OpenTraditionalRevisionJob_new in Hnew.
  apply result_bind_ok in Hnew as (n&Hn&Hnew). eapply source_len_ok in Hn as [Hn Hs]; [|done..]. subst n.
  apply result_bind_ok in Hnew as ([]&Hbounds%fail_if_ok&Hnew). apply orb_false_iff in Hbounds as [? ?].
  apply result_bind_ok in Hnew as ([]&Hin%fail_if_ok&Hnew). checked_facts.
  apply result_bind_ok in Hnew as (available&Hav%require_ok&[= <-]). checked_facts. subst available.
  assert setup as Hsetup by done. assert (0 ≤ startxref < upper ∧ upper ≤ source_len) as Hspace by lia.
  split; [done|]. split; [done|]. revert Hr. apply polls_invariant.
  - intros w Hw.
    pose proof (section_first_pos snapshot source_len limits syntax_limits Hsetup startxref upper Hspace) as Hfirst.
    unfold xref_limits_ok in Hl. destruct rc as [owner checkpoint].
    eexists w, _, _. split; [reflexivity|]. split; [done|].
    split; [unfold revision_stats_ok; cbn; lia|]. simpl. unfold section_first in Hfirst |- *. lia.
  - intros r' Hok.
    destruct (revision_poll_run file snapshot source_len limits syntax_limits startxref upper
      (revision_job_context rc) Hsetup Hspace eq_refl r' Hok) as (r1&poll&Hp&Hok'&_). eauto.
  - intros r' w (w'&stats&state&->&_&Hs'&Hst) Hw. by exists w, stats, state.
Qed.

(** C19: the other two jobs. Likewise for the job that finds the final tail, which
    answers the declaration that ends the file, and for the job that reads a
    revision section at a known offset, up to a bound within the source, which
    answers the part of a table that the bytes between them denote. *)
Theorem anchored_jobs_exact fj fr rj rr :
  final_job_created fj →
  polls_reach OpenFinalStartXrefJob_poll
    (source_ok (file := file) (target := target) (context := tail_job_context fc)) fj fr →
  revision_job_created rj →
  polls_reach OpenTraditionalRevisionJob_poll
    (source_ok (file := file) (target := target) (context := revision_job_context rc)) rj rr →
  (∃ r' poll, OpenFinalStartXrefJob_poll fr = (r', Some poll) ∧
     final_polled file snapshot source_len limits (tail_job_context fc) fr r' poll) ∧
  (∃ r' poll, OpenTraditionalRevisionJob_poll rr = (r', Some poll) ∧
     revision_polled file snapshot source_len limits syntax_limits startxref upper
       (revision_job_context rc) rr r' poll).
Proof.
  intros Hfc Hfr Hrc Hrr. split.
  - destruct (final_reached_ok fj fr Hfc Hfr) as [Hsetup Hok].
    destruct (final_poll_run file snapshot source_len limits syntax_limits (tail_job_context fc) Hsetup eq_refl fr Hok)
      as (r'&poll&Hp&_&Hq). eauto.
  - destruct (revision_reached_ok rj rr Hrc Hrr) as (Hsetup&Hspace&Hok).
    destruct (revision_poll_run file snapshot source_len limits syntax_limits startxref upper
      (revision_job_context rc) Hsetup Hspace eq_refl rr Hok) as (r'&poll&Hp&_&Hq). eauto.
Qed.
End anchored.
End jobs.

(** ** Sources that deliver *)

Section delivered.
Context `{XrefRuntime} {S : Type} `{ByteSource S}.
Context (file : Z → Z) (snapshot : SourceSnapshot) (source_len : Z) (limits : XrefLimits)
  (syntax_limits : SyntaxLimits).
Local Notation target := (whole_source snapshot source_len).
Context (context : ObjectJobContext) `{!HonestSource S file target context}.
Hypothesis Hsetup : xref_setup snapshot source_len limits syntax_limits.
Hypothesis Hpriority : context_priority context = Metadata.
Hypothesis Hdelivers : delivers file target context (longest_window source_len limits).

Lemma answered_ready range polled :
  reads snapshot source_len limits range → source_answered file target context range polled →
  ∃ slice, polled = PollReady slice ∧ slice_identity slice = snapshot_identity snapshot ∧
    slice_range slice = range.
Proof.
  intros [_ Hlen] (request&s&Hs&Hasks&Hr&Hp). destruct (Hdelivers s Hs) as [_ Hd]. rewrite <-Hr in Hlen.
  destruct (Hd request Hasks Hlen) as (slice&Hslice&Hid&Hrange). exists slice.
  rewrite Hp in Hslice. injection Hslice as ->. split; [done|]. split; [done|]. by rewrite Hrange, Hr.
Qed.

Lemma not_awaiting range checkpoint ticket missing s :
  range_len range ≤ longest_window source_len limits →
  checkpoint = context_envelope_checkpoint context ∨ checkpoint = context_boundary_checkpoint context →
  ¬ awaiting file target context range checkpoint ticket missing s.
Proof.
  intros Hlen Hc (s0&Hs&Hasked&Hp). destruct (Hdelivers s0 Hs) as [_ Hd].
  destruct (Hd {| request_range := range; request_priority := context_priority context;
                  request_job := context_job context; request_checkpoint := checkpoint |})
    as (slice&Hslice&_); [by split_and!|done|]. by rewrite Hp in Hslice.
Qed.

Lemma delivered_failure e :
  source_failure (S := S) file snapshot source_len limits context e → xref_refused e.
Proof.
  intros [s Hs Hno _|range slice Hasked Hans Hno _|range slice Hasked Hans Hno _
    |range offset Hasked Hans _|range error Hasked Hans _| |Hb]; [..|done|].
  - by destruct (Hdelivers s Hs) as [? _].
  - by destruct (answered_ready _ _ Hasked Hans) as (?&[= <-]&?&_).
  - by destruct (answered_ready _ _ Hasked Hans) as (?&[= <-]&_&?).
  - by destruct (answered_ready _ _ Hasked Hans) as (?&?&_).
  - by destruct (answered_ready _ _ Hasked Hans) as (?&?&_).
  - destruct Hb as (Hcode&l&Hl&Hlt&_). right. left. split; [done|]. exists l. split; [done|by left].
Qed.

(** The largest windows of the job hold the tail of the file and the table that it
    declares, and line endings end the white space inside the tail. *)
Record declared_table (startxref start : Z) (s : XrefSection) : Prop := {
  dt_tail : plain_tail (source_len - final_cap source_len limits)
    (tail_window file source_len (final_cap source_len limits)) startxref start;
  dt_inside : startxref < source_len;
  dt_table : ∃ section,
    window_section (window_at file snapshot source_len startxref source_len
      (section_cap limits startxref source_len)) = Some section ∧
    base_final (section_space file snapshot source_len startxref source_len) section s
}.

Lemma tail_not_blank base bytes startxref start :
  tail_at base bytes startxref start → ¬ Forall (λ b, is_pdf_whitespace b = true) bytes.
Proof.
  intros (head&gap&after&->&_) Hall. rewrite !Forall_app in Hall. destruct Hall as (_&_&Hmark&_).
  by apply Forall_cons in Hmark as [? _].
Qed.

Section declared.
Context (startxref start : Z) (s : XrefSection).
Hypothesis Hdeclared : declared_table startxref start s.

(** Each window holds the tail, or begins inside it. *)
Lemma declared_tail n :
  final_first source_len limits ≤ n ≤ final_cap source_len limits →
  tail_at (source_len - n) (tail_window file source_len n) startxref start ∨
  tail_cut (tail_window file source_len n).
Proof.
  intros Hn. pose proof (final_first_pos _ _ _ _ Hsetup). pose proof (dt_tail _ _ _ Hdeclared) as Ht.
  set (cap := final_cap source_len limits) in *.
  assert (tail_window file source_len cap =
    bytes_of file (source_len - cap) (cap - n) ++ tail_window file source_len n) as Hsplit.
  { unfold tail_window. replace cap with ((cap - n) + n) at 2 by lia.
    assert (cap ≤ source_len) by (subst cap; unfold final_cap; lia).
    rewrite bytes_of_app by lia. by replace (source_len - cap + (cap - n)) with (source_len - n) by lia. }
  rewrite Hsplit in Ht. apply plain_tail_window in Ht. rewrite bytes_of_length in Ht by lia.
  by replace (source_len - cap + (cap - n)) with (source_len - n) in Ht by lia.
Qed.

Lemma declared_cap_tail :
  tail_at (source_len - final_cap source_len limits)
    (tail_window file source_len (final_cap source_len limits)) startxref start.
Proof. apply plain_tail_at, Hdeclared. Qed.

Lemma declared_file_tail : final_tail file source_len startxref start.
Proof.
  pose proof (final_first_pos _ _ _ _ Hsetup) as Hfirst.
  eapply window_whole; [|apply declared_cap_tail]. unfold final_cap in *. lia.
Qed.

Lemma declared_anchor x start' : final_tail file source_len x start' → x = startxref.
Proof. intros Ht. by destruct (tail_unique _ _ _ _ _ _ Ht declared_file_tail). Qed.

Lemma declared_space : 0 ≤ startxref < source_len ∧ source_len ≤ source_len.
Proof.
  pose proof (tail_value_nonneg _ _ _ _ declared_file_tail). pose proof (dt_inside _ _ _ Hdeclared). lia.
Qed.

Lemma declared_section n :
  section_cap limits startxref source_len ≤ n ≤ source_len - startxref →
  ∃ section, window_section (window_at file snapshot source_len startxref source_len n) = Some section ∧
    base_final (section_space file snapshot source_len startxref source_len) section s.
Proof.
  intros Hn. pose proof (section_first_pos _ _ _ _ Hsetup _ _ declared_space).
  destruct (dt_table _ _ _ Hdeclared) as (section&Hs&Hf). exists section. split; [|done].
  eapply (window_section_mono file snapshot source_len startxref source_len
    (section_cap limits startxref source_len)); [lia|lia|done].
Qed.

Lemma declared_denotes s' :
  denotes file snapshot source_len base_final startxref source_len s' → s' = s.
Proof.
  intros (section'&Hs'&Hf'). pose proof (section_first_pos _ _ _ _ Hsetup _ _ declared_space) as Hfirst.
  destruct (declared_section (source_len - startxref)) as (section&Hs&Hf); [unfold section_cap in *; lia|].
  unfold section_space in Hs'. rewrite Hs in Hs'. injection Hs' as <-. by eapply base_final_unique.
Qed.

Lemma declared_refused e :
  xref_failure (S := S) file snapshot source_len limits syntax_limits context e → xref_refused e.
Proof.
  pose proof (final_first_pos _ _ _ _ Hsetup) as Hfirst.
  pose proof (section_first_pos _ _ _ _ Hsetup _ _ declared_space) as Hspace.
  intros [[He|x start' Ht Hle _|n Hn Hno Hcut _|Hblank _|Hno _]|x start' Ht _ He].
  - exact (delivered_failure e He).
  - apply declared_anchor in Ht as ->. pose proof (dt_inside _ _ _ Hdeclared). lia.
  - destruct (decide (n = final_cap source_len limits)) as [->|Hne].
    { by destruct (Hno startxref start declared_cap_tail). }
    destruct (declared_tail n Hn) as [Ht|Ht]; [by destruct (Hno startxref start)|].
    destruct Hcut; [unfold final_cap in *; lia|done].
  - by destruct (tail_not_blank _ _ _ _ declared_file_tail).
  - by destruct (Hno startxref start declared_cap_tail).
  - apply declared_anchor in Ht as ->. destruct He as [He|n Hn _ Hno _|section Hs _ Hno|[_ Hno%cut_short_value] _].
    + exact (delivered_failure e He).
    + destruct (declared_section (section_cap limits startxref source_len)) as (section&Hs&_);
        [unfold section_cap in *; lia|]. rewrite Hno in Hs by lia. done.
    + destruct (declared_section (source_len - startxref)) as (section'&Hs'&Hf); [unfold section_cap in *; lia|].
      unfold section_space in Hs. rewrite Hs' in Hs. injection Hs as ->. by destruct (Hno s).
    + destruct (declared_section (section_cap limits startxref source_len)) as (section&Hs&_);
        [unfold section_cap in *; lia|]. rewrite window_scan_value in Hno. by rewrite Hs in Hno.
Qed.

(** A job in flight answers the table, or is refused. *)
Lemma declared_table_run r :
  xref_run_ok file snapshot source_len limits syntax_limits context r →
  match xj_state (run_job r) with XrefTail | XrefSectionState _ _ _ => True | _ => False end →
  ∃ r' poll, OpenXrefJob_poll r = (r', Some poll) ∧
    (poll = XrefReady s ∨ ∃ e, poll = XrefPollFailed e ∧ xref_refused e).
Proof.
  intros Hok Hflight.
  destruct (xref_poll_run file snapshot source_len limits syntax_limits context Hsetup Hpriority r Hok)
    as (r'&poll&Hp&_&Hq).
  exists r', poll. split; [done|]. unfold xref_polled in Hq.
  assert (xref_ends file snapshot source_len limits syntax_limits context r' poll) as Hends
    by by destruct (xj_state (run_job r)). clear Hq.
  destruct Hends as (w&stats&d&t&state&->&_&_&Hst&Hans).
  destruct Hans as [x start' s' Ht _ Hs _|tail_stats n ticket missing Ha|x n ticket missing Ha|d t e He].
  - left. apply declared_anchor in Ht as ->. by apply declared_denotes in Hs as ->.
  - destruct Hst as (_&tail_stats'&n'&charged&[= -> -> _]&_&Hn&_).
    apply not_awaiting in Ha; [done| |by left]. unfold longest_window, final_cap in *. simpl. lia.
  - destruct Hst as (_&_&_&?&Hn). apply not_awaiting in Ha; [done| |by right].
    unfold longest_window, section_cap in *. simpl. lia.
  - right. exists e. split; [done|]. by apply declared_refused.
Qed.
End declared.
End delivered.

(** ** The table job over the byte range store *)

Section system.
Context `{XrefRuntime} `{RangeRuntime} (store : RangeStore) (file : Z → Z).
#[local] Instance table_source : ByteSource RangeState := store_source store.
Context (Hlimits : range_limits_ok (store_limits store)).
Context (snapshot : SourceSnapshot) (source_len : Z) (limits : XrefLimits)
  (syntax_limits : SyntaxLimits) (c : XrefJobContext).
Local Notation target := (whole_source snapshot source_len).
Local Notation created := (table_job_created snapshot source_len limits syntax_limits c).

(** A job polled over a store, with any calls of other threads between the polls. *)
Inductive table_over_store (j : OpenXrefJob) : JobRun RangeState OpenXrefJob → Prop :=
| table_over_new l s calls :
    reachable store l s → supplied_from file l →
    table_over_store j {| run_job := j; run_world := {| world_source := s; world_calls := calls |} |}
| table_over_poll r r' poll :
    table_over_store j r → OpenXrefJob_poll r = (r', poll) → table_over_store j r'
| table_over_calls r l s calls :
    table_over_store j r → runs store (world_source (run_world r)) l s → supplied_from file l →
    table_over_store j
      {| run_job := run_job r; run_world := {| world_source := s; world_calls := calls |} |}.

Definition table_honest : HonestSource RangeState file target (job_context c) :=
  honest_store store file Hlimits target (job_context c) None.

Lemma table_over_reached j r :
  created j → table_over_store j r →
  xref_setup snapshot source_len limits syntax_limits ∧
  @xref_run_ok _ _ _ file snapshot source_len limits syntax_limits (job_context c) table_honest r.
Proof.
  intros Hc Hr. apply (@table_reached_ok _ _ _ file _ _ _ _ c table_honest j r Hc).
  induction Hr as [l s calls Hr Hl|r r' poll _ IH Hp|r l s calls _ IH Hr Hl].
  - apply polls_new. apply reachable_ok in Hr as (_&Hwf&_&Hx). split; [done|]. split; [|done].
    intros x b Hb. apply Hx in Hb as (resp&?&?). by eapply Hl.
  - by eapply polls_poll.
  - apply polls_between; [done|].
    destruct (@table_reached_ok _ _ _ file _ _ _ _ c table_honest j r Hc IH) as (_&w&stats&d&t&state&->&Hw&_).
    by apply (serves_runs store file Hlimits None _ l _ Hw Hr Hl).
Qed.

(** The window that a job is at. *)
Definition window_range (j : OpenXrefJob) : option ByteRange :=
  match xj_state j, fj_state <$> xj_tail j with
  | XrefTail, Some (FinalTail window _) => Some (range_at (xj_source_len j - window) window)
  | XrefSectionState startxref window _, _ => Some (range_at startxref window)
  | _, _ => None
  end.

(** The answer to a poll, with the job and the store that it leaves. *)
Definition table_answered (r r' : JobRun RangeState OpenXrefJob) (poll : XrefPoll) : Prop :=
  match poll with
  | XrefReady s => ∃ startxref start,
      final_tail file source_len startxref start ∧
      denotes file snapshot source_len base_final startxref source_len s ∧
      section_wf (section_space file snapshot source_len startxref source_len) s
  | XrefPending ticket missing checkpoint => ∃ range,
      let request := {| request_range := range; request_priority := Metadata;
                        request_job := xc_job c; request_checkpoint := checkpoint |} in
      window_range (run_job r') = Some range ∧
      asked target range ∧ tracked ticket request (locked (world_source (run_world r'))) ∧
      missing ≠ [] ∧ missing_of (segments (locked (world_source (run_world r')))) range missing
  | XrefPollFailed e =>
      match xj_state (run_job r) with
      | XrefComplete => e = XrefError_for_code XrefJobAlreadyComplete None
      | XrefFailed e' => e = e'
      | _ => xj_state (run_job r') = XrefFailed e ∧
             @xref_failure _ _ _ file snapshot source_len limits syntax_limits (job_context c) table_honest e
      end
  end.

(** C10: the table job refines the file that a store is supplied with. A job in flight
    over a store never panics and leaves the store in order. The table it answers is
    the one that the bytes of the file denote where its final tail says, and is well
    formed; pending, the job is subscribed in the store to the ticket it answers,
    which waits for exactly the offsets of the window it is at that the store lacks; a failure
    is stored and has a reason. *)
Theorem table_over_store_exact j r :
  created j → table_over_store j r →
  ∃ r' poll, OpenXrefJob_poll r = (r', Some poll) ∧
    serves_file store file None (world_source (run_world r')) ∧ table_answered r r' poll.
Proof.
  intros Hc Hr. destruct (table_over_reached j r Hc Hr) as [Hsetup Hok].
  destruct (@xref_poll_run _ _ _ file snapshot source_len limits syntax_limits (job_context c) table_honest
    Hsetup eq_refl r Hok) as (r'&poll&Hp&Hok'&Hq).
  exists r', poll. split; [done|]. split; [by destruct Hok' as (?&?&?&?&?&->&Hw&_)|].
  unfold xref_polled in Hq. unfold table_answered.
  destruct (xj_state (run_job r)) eqn:Hstate; [| |by destruct Hq as [_ ->]|by destruct Hq as [_ ->]].
  all: destruct Hq as (w&stats&d&t&state&->&Hw&_&_&Hans);
    destruct Hans as [x start s Ht Hx Hs _|tail_stats n ticket missing Ha|x n ticket missing Ha|d t e He];
    try done.
  all: try (apply (awaiting_tracked store file Hlimits) in Ha as (?&?&?&?&_); eexists; split; [reflexivity|done]).
  all: exists x, start; split; [done|]; split; [done|];
    destruct Hs as (section&?&?); by eapply base_final_wf.
Qed.

End system.

(** ** Concrete runs *)

#[local] Existing Instance desktop_xref.
#[local] Existing Instance quiet_runtime.

(** A file that is a table of two objects and its tail. *)
Definition table_text : string :=
  let line s := s +:+ line_feed in
  line "xref" +:+ line "0 2" +:+ line "0000000000 65535 f " +:+ line "0000000009 00000 n " +:+
  line "trailer" +:+ line "<</Size 2/Root 1 0 R>>" +:+ line "startxref" +:+ line "0" +:+ "%%EOF".
Definition table_bytes : list Z := Eval vm_compute in octets table_text.
Definition table_file (x : Z) : Z := default 0 (table_bytes !! Z.to_nat x).
Definition table_len : Z := Eval vm_compute in len table_bytes.
Definition table_snapshot : SourceSnapshot :=
  {| snapshot_identity := example_source; snapshot_len := Some table_len;
     snapshot_validator := {| validator_kind := FrozenResponse; validator_digest := [3] |} |}.

(** A source that has all of it. *)
Definition TableSource : Type := unit.
Definition table_slice (range : ByteRange) : ByteSlice :=
  {| slice_identity := example_source; slice_range := range;
     slice_backing := bytes_of table_file (range_start range) (range_len range);
     slice_backing_offset := 0 |}.
#[local] Instance table_open : ByteSource TableSource := {|
  source_snapshot _ := table_snapshot;
  source_poll request s := (s, Some (PollReady (table_slice (request_range request))))
|}.
#[local, refine] Instance table_open_honest context :
    HonestSource TableSource table_file (whole_source table_snapshot table_len) context := {|
  source_ok _ := True
|}.
Proof.
  intros request s _ ((Hr&_)&_). eexists s, _. split; [reflexivity|]. split; [done|].
  intros slice [= <-] _ _. unfold slice_bytes, table_slice. cbn [slice_backing slice_backing_offset slice_range].
  rewrite drop_0. apply take_ge. pose proof (bytes_of_length table_file (range_start (request_range request))
    (range_len (request_range request))). destruct Hr. lia.
Defined.

Definition table_world : World TableSource := {| world_source := tt; world_calls := no_calls |}.
Definition table_context : XrefJobContext :=
  {| xc_job := 4; xc_tail_checkpoint := 1; xc_section_checkpoint := 2 |}.
Definition table_tail_context : FinalStartXrefJobContext := {| fc_job := 4; fc_tail_checkpoint := 1 |}.
Definition table_revision_context : TraditionalRevisionJobContext :=
  {| rc_job := 4; rc_section_checkpoint := 2 |}.

Ltac evaluated result :=
  let r := eval vm_compute in result in match r with Ok ?x => exact x end.

Definition table_job : OpenXrefJob :=
  ltac:(evaluated (OpenXrefJob_new table_snapshot table_context XrefLimitConfig_default
                     SyntaxLimitConfig_default)).
Definition table_tail_job : OpenFinalStartXrefJob :=
  ltac:(evaluated (OpenFinalStartXrefJob_new table_snapshot table_tail_context XrefLimitConfig_default)).
Definition table_revision_job : OpenTraditionalRevisionJob :=
  ltac:(evaluated (OpenTraditionalRevisionJob_new table_snapshot 0 table_len table_revision_context
                     XrefLimitConfig_default SyntaxLimitConfig_default)).

Lemma table_given : xref_given table_snapshot table_len XrefLimitConfig_default SyntaxLimitConfig_default.
Proof. split; [done|done|vm_compute; intuition discriminate|vm_compute; intuition discriminate]. Qed.

Lemma table_created :
  table_job_created table_snapshot table_len XrefLimitConfig_default SyntaxLimitConfig_default
    table_context table_job.
Proof. split; [apply table_given|reflexivity]. Qed.

Lemma table_job_exact_witness :
  ∃ r' poll, OpenXrefJob_poll {| run_job := table_job; run_world := table_world |} = (r', Some poll) ∧
    xref_polled table_file table_snapshot table_len XrefLimitConfig_default SyntaxLimitConfig_default
      (job_context table_context) {| run_job := table_job; run_world := table_world |} r' poll.
Proof.
  exact (table_job_exact table_file table_snapshot table_len XrefLimitConfig_default
    SyntaxLimitConfig_default table_context table_job _ table_created (polls_new _ _ _ table_world I)).
Defined.

Lemma anchored_jobs_exact_witness :
  (∃ r' poll, OpenFinalStartXrefJob_poll {| run_job := table_tail_job; run_world := table_world |} =
       (r', Some poll) ∧
     final_polled table_file table_snapshot table_len XrefLimitConfig_default
       (tail_job_context table_tail_context) {| run_job := table_tail_job; run_world := table_world |} r' poll) ∧
  (∃ r' poll, OpenTraditionalRevisionJob_poll {| run_job := table_revision_job; run_world := table_world |} =
       (r', Some poll) ∧
     revision_polled table_file table_snapshot table_len XrefLimitConfig_default SyntaxLimitConfig_default
       0 table_len (revision_job_context table_revision_context)
       {| run_job := table_revision_job; run_world := table_world |} r' poll).
Proof.
  refine (anchored_jobs_exact table_file table_snapshot table_len XrefLimitConfig_default
    SyntaxLimitConfig_default table_tail_context table_revision_context 0 table_len table_tail_job _
    table_revision_job _ _ (polls_new _ _ _ table_world I) _ (polls_new _ _ _ table_world I)).
  - split; [apply table_given|]. split; [vm_compute; discriminate|reflexivity].
  - split; [apply table_given|]. split; [done|reflexivity].
Defined.

(** A store of the file, before and after all of it is supplied. *)
Definition table_store : RangeStore :=
  {| store_namespace := 1; store_snapshot := table_snapshot; store_limits := RangeStoreLimitConfig_default |}.
Definition table_start : RangeState :=
  {| locked := {| segments := []; cached_bytes := 0; tickets := []; next_ticket := 1;
                  observed_len := Some table_len; subscription_count := 0 |};
     source_changed := false; flag_reads := 0; reservations := 0; allocations := 2 |}.
Definition table_supply : list RangeCall :=
  [CallSupply {| response_snapshot := table_snapshot; response_range := range_at 0 table_len;
                 response_bytes := table_bytes; response_capacity := table_len |}].
Definition table_supplied := run_calls table_store table_start table_supply.
Definition over_table (s : RangeState) : JobRun RangeState OpenXrefJob :=
  {| run_job := table_job; run_world := {| world_source := s; world_calls := no_calls |} |}.

Lemma table_store_limits : range_limits_ok (store_limits table_store).
Proof. split; vm_compute; intuition discriminate. Qed.

Lemma table_reachable calls :
  Forall call_ok calls →
  reachable table_store (run_calls table_store table_start calls).1 (run_calls table_store table_start calls).2.
Proof.
  intros Hc. exists RangeStoreLimitConfig_default, table_snapshot, 1, 2, table_start.
  split; [vm_compute; intuition discriminate|]. split; [vm_compute; discriminate|].
  split; [vm_compute; reflexivity|]. split; [vm_compute; reflexivity|]. by apply run_calls_runs.
Qed.

Lemma over_table_start : table_over_store table_store table_file table_job (over_table table_start).
Proof.
  apply (table_over_new _ _ _ []); [by apply (table_reachable [])|].
  by intros resp x b [a Ha%not_elem_of_nil].
Qed.

Lemma table_supplied_from : supplied_from table_file table_supplied.1.
Proof.
  intros resp x b [a Ha] Hb. apply list_elem_of_singleton in Ha. injection Ha as -> _.
  unfold supplied in Hb. case_bool_decide as Hx; [|done]. cbn in Hb.
  unfold table_file. rewrite Z.sub_0_r in Hb. by rewrite Hb.
Qed.

Lemma table_over_store_exact_witness :
  ∃ r' poll, @OpenXrefJob_poll _ _ (table_source table_store) (over_table table_start) = (r', Some poll) ∧
    serves_file table_store table_file None (world_source (run_world r')) ∧
    table_answered table_store table_file table_store_limits table_snapshot table_len
      XrefLimitConfig_default SyntaxLimitConfig_default table_context (over_table table_start) r' poll.
Proof.
  exact (table_over_store_exact table_store table_file table_store_limits table_snapshot table_len
    XrefLimitConfig_default SyntaxLimitConfig_default table_context table_job _ table_created
    over_table_start).
Defined.

(** Limits with first windows that hold neither the tail nor the table. *)
Definition growing_limits : XrefLimitConfig :=
  {| xl_max_source_bytes := 256 * 1024 * 1024;
     xl_initial_tail_bytes := 4; xl_max_tail_bytes := 64 * 1024;
     xl_initial_section_bytes := 16; xl_max_section_bytes := 1024 * 1024;
     xl_max_total_read_bytes := 4 * 1024 * 1024; xl_max_total_parse_bytes := 4 * 1024 * 1024;
     xl_max_subsections := 4096; xl_max_entries := 50000 |}.

Definition growing_job : OpenXrefJob :=
  ltac:(evaluated (OpenXrefJob_new table_snapshot table_context growing_limits SyntaxLimitConfig_default)).

Definition over_growing (s : RangeState) : JobRun RangeState OpenXrefJob :=
  {| run_job := growing_job; run_world := {| world_source := s; world_calls := no_calls |} |}.

Lemma growing_given : xref_given table_snapshot table_len growing_limits SyntaxLimitConfig_default.
Proof. split; [done|done|vm_compute; intuition discriminate|vm_compute; intuition discriminate]. Qed.

Lemma growing_created :
  table_job_created table_snapshot table_len growing_limits SyntaxLimitConfig_default
    table_context growing_job.
Proof. split; [apply growing_given|reflexivity]. Qed.

Lemma over_growing_supplied :
  table_over_store table_store table_file growing_job (over_growing table_supplied.2).
Proof.
  apply (table_over_new _ _ _ table_supplied.1); [|apply table_supplied_from].
  apply table_reachable. repeat constructor; vm_compute; intuition discriminate.
Qed.

(** The tail of the file, in parts. *)
Lemma table_plain_tail : plain_tail 0 table_bytes 0 80.
Proof.
  exists (take 80 table_bytes), [10], [48], [10], []. split_and!.
  - vm_compute. reflexivity.
  - vm_compute. reflexivity.
  - vm_compute. reflexivity.
  - split_and!; [done|simpl; lia|by repeat constructor|vm_compute; discriminate].
  - reflexivity.
  - split; [by repeat constructor|by exists 10].
  - split; [by repeat constructor|by exists 10].
  - constructor.
Qed.

Lemma table_declared :
  ∃ s, declared_table table_file table_snapshot table_len growing_limits 0 80 s.
Proof.
  set (w := window_at table_file table_snapshot table_len 0 table_len
    (section_cap growing_limits 0 table_len)).
  assert (window_ok w growing_limits SyntaxLimitConfig_default) as Hw.
  { split; vm_compute; intuition discriminate. }
  pose proof (outcome_section _ _ _ _ _ (base_run w growing_limits SyntaxLimitConfig_default no_calls Hw)) as Hrun.
  assert (bool_decide (is_Some (accepted_of
    (parse_section w growing_limits SyntaxLimitConfig_default no_calls).2)) = true) as Hs
    by (vm_compute; reflexivity).
  destruct (parse_section _ _ _ _).2 as [[s|]|]; [|by apply bool_decide_eq_true in Hs as []..].
  exists s. split; [|done|exact Hrun].
  assert (tail_window table_file table_len (final_cap table_len growing_limits) = table_bytes) as ->
    by (vm_compute; reflexivity).
  exact table_plain_tail.
Qed.

Lemma table_covers :
  covers table_store (whole_source table_snapshot table_len) (longest_window table_len growing_limits)
    table_supplied.2.
Proof.
  split; [reflexivity| | |by vm_compute..].
  - intros [Hch|[k Hk]]; [by vm_compute in Hch|by vm_compute in Hk].
  - intros x Hx. change (0 ≤ x < table_len) in Hx.
    assert (forallb (λ i, bool_decide (is_Some (content (segments (locked table_supplied.2)) (Z.of_nat i))))
      (seq 0 (Z.to_nat table_len)) = true) as Hall by (vm_compute; reflexivity).
    rewrite forallb_forall in Hall. specialize (Hall (Z.to_nat x)).
    rewrite in_seq, Z2Nat.id in Hall by lia. apply bool_decide_eq_true in Hall; [done|lia].
Qed.

